(* ===== verification/_CoqProject ===== *)
-Q . S2P
Prelude.v
Cursor.v
Types.v
Format.v
Boundary.v
Node.v
ReadNode.v
Sizer.v
Chunks.v
ChunkSpec.v
Store.v
NodeCache.v
Emitter.v
EmitterSpec.v
Builder.v
Entries.v
BuilderSpec.v
TreeSpec.v
Engine.v
EngineSpec.v
BuiltTree.v
Write.v
Updates.v
ReplaySpec.v
WriteSpec.v
RebuildSpec.v
FixedSpec.v
Loader.v
LoaderSpec.v
CanonicalWrite.v
Append.v
AppendSpec.v
Key.v
Crdt.v
Envelope.v
Range.v
Proof.v
ProofSpec.v
WindowSpec.v
ProofTheorems.v
RangeSpec.v
DiffSpec.v
ProofContract.v
RangeContract.v
TreeDiff.v
TreeDiffSpec.v
TreeDiffContract.v
GetMany.v
GetManySpec.v
Reach.v
ReachSpec.v
ReachContract.v
Manifest.v
Snapshot.v
SnapshotSpec.v
SnapshotContract.v
Transaction.v
TransactionSpec.v
TransactionHistory.v
TransactionContract.v
RetentionSpec.v
Lineage.v
LineageSpec.v
Merge.v
MergeSpec.v
MergeContract.v
