(* ===== verification/Prelude.v ===== *)
(** * A verification library for the [prolly] crate (content-addressed prolly trees)

    ** The program

    A prolly tree is an ordered map from byte keys to byte values, kept as a search
    tree whose nodes live in a content-addressed store: a node is stored under the
    SHA-256 of its encoding, and where one node ends and the next begins is decided by
    a hash of the entries.  So equal maps have equal roots, and versions share nodes.
    The core crate is src/src/prolly/; its parts and how they use one another:

    - a persisted _format_ (format.rs, chunking.rs, config.rs) fixes chunking, node
      layout and value encoding;
    - _nodes_ (node.rs) are encoded and decoded under a format, owned ([Node]) or as a
      packed view of the bytes ([ReadNode]);
    - the _boundary detector_ (boundary.rs), the _sizer_ (builder/size.rs), the
      chunking of a level (builder.rs) and the streaming emitters
      (builder/streaming.rs) cut ordered entries into nodes;
    - the _builders_ (builder.rs) turn entries into a tree in a _store_ (store/mod.rs,
      store/memory.rs);
    - the _engine_ (engine/, mod.rs) reads nodes through the _node cache_ (mod.rs);
      point reads, range iterators (range.rs), differences of trees (diff.rs) and
      proofs (proof.rs) go through it;
    - _writes_ (write.rs) apply mutations to a tree and keep it canonical;
    - _values_ can carry a schema (value.rs), a deletion marker (tombstone.rs) or what
      concurrent writers need to agree (crdt.rs);
    - _named roots_ (manifest.rs) give trees durable names, updated by compare-and-swap,
      and _transactions_ (transaction.rs) stage nodes and names and commit them at once;
    - _garbage collection_ (gc.rs) and _synchronisation_ (sync.rs) walk the nodes below
      some roots, to delete the others or to copy them to another store, directly or as
      a _snapshot bundle_.

    ** The files

    Shared: Prelude (outcomes of Rust code, machine integers, byte order, searches),
    Cursor (decoders as a reader monad), Types (cid.rs, encoding.rs, error.rs), Key
    (key.rs).

    Models, one per component, each operation a definition with the name it has in the
    source: Format, Boundary, Node, ReadNode, Sizer, Chunks, Store, NodeCache, Emitter,
    Builder, Engine, Loader (node loads of mod.rs), Write and Append (write.rs), Range
    (range.rs and the range operations of mod.rs), Proof, TreeDiff (diff.rs), Reach
    (gc.rs, sync.rs and their operations of mod.rs), Crdt (crdt.rs), Envelope
    (tombstone.rs, value.rs), Manifest (manifest.rs, the named roots of
    store/memory.rs and mod.rs), Snapshot (the bundles of sync.rs and mod.rs),
    Transaction (transaction.rs, store/memory.rs), GetMany (reads of many keys,
    engine/mod.rs), Lineage and Merge (merges of diff.rs, policy.rs, and the lineage
    cache of mod.rs).

    Specifications and proofs about them:
    - ChunkSpec, EmitterSpec: the chunks of a level, and that the serial, parallel and
      streaming routines all compute them;
    - Entries, BuilderSpec: the tree of a map, and that the builders build it;
    - TreeSpec, EngineSpec, BuiltTree: what it means that a store holds a tree, that
      reads of it are map lookups, and that a built tree is held;
    - Updates, ReplaySpec, WriteSpec, RebuildSpec, FixedSpec, LoaderSpec,
      CanonicalWrite: a write takes the tree of a map to the tree of the updated map;
    - AppendSpec: so does the path for keys after the last one;
    - GetManySpec: a read of many keys is the lookup of each;
    - RangeSpec, RangeContract: iterators and pages list the map's entries in order;
    - TreeDiffSpec, TreeDiffContract: the traversal of two trees gives the differences
      of their maps;
    - LineageSpec: the changes that the engine remembers are those between the trees;
    - MergeSpec, MergeContract: a merge is the three-way merge of the maps, up to the
      batched write that it ends with;
    - ReachSpec, ReachContract: marking visits exactly the reachable nodes, so a sweep
      keeps and a copy delivers every tree below the roots;
    - SnapshotSpec, SnapshotContract: what the verification of a bundle establishes, and
      that an exported tree is imported;
    - TransactionSpec, TransactionHistory, TransactionContract: the overlay of a
      transaction is a store, interleaved transactions are serializable, and a commit
      gives its readers all or nothing;
    - RetentionSpec: swaps of named trees, and what each retention policy keeps;
    - ProofSpec, WindowSpec, ProofTheorems, DiffSpec, ProofContract: what verified
      proofs establish, and that the engine's proofs verify.

    ** How the code is represented

    A byte string is a [list byte].  Machine integers are in Z and the width is kept
    where the code can leave it: [wrap] for wrapping and [as] casts, [saturating_add]
    and the like, and [Panic] for unchecked arithmetic, failed indexing and capacity
    overflow.  Fallible code has type [outcome E A]: [Ok], [Err], or [Panic].  Stateful
    code is an [action S A], which returns the state it leaves also when it fails; the
    state is the cache, the detector, the store, or the whole engine.  Traits are
    classes: [Store] and [ReadStore] (what a backend does), [StoreOk] and [ReadStoreOk]
    (what its users rely on, proved of the in-memory store), [WriteManager] (what
    writes need), [ManifestStore] and [TransactionalStore] with [BackendOk], and
    [Hashes].  The hash functions come from the crates sha2 and xxhash-rust and are the
    parameters of the class [Hashes]; [HashesOk] says that the digest has 32 bytes and
    xxh64 fits its width.  The CBOR codec of serde_cbor is an argument of the operations
    that use it, with the law that what it encodes it decodes again.  Where a
    theorem needs two encodings to have two identifiers it says so of the nodes at
    hand ([no_forgery], [no_collision]), and never of all byte strings.  Locks are
    never poisoned; an await is a call, so operations interleave only as wholes, but
    for the root reads of transactions, which are split where the code awaits the
    base.  Rayon's maps are maps.

    ** What is proved

    - Canonicity: equal maps give equal trees for the builders
      ([build_history_independent]), which implement one specification
      ([batch_build_refines]).  Both are for formats with a minimum of at least 2, or
      with another rule than hashed entry counts, or for fewer than 1,024 entries: on
      larger levels above the leaves the parallel routine compares with bounds that the
      detector raises to 2 ([parallel_internal_level_stuck]).  The general path of a
      write (the sequential replay) and the append path give the same tree as a build of
      the updated map ([structural_write_canonical], [append_canonical]), from the
      canonical tree of a non-empty map.  Where the write keeps the shape above the
      leaves (chunks measured in entries and cut by keys) and for the append path, the
      byte limit must have cut no internal level of the trees, since such a cut depends
      on what follows.
    - Reads: lookups and scans return what the map holds, whatever is cached
      ([get_is_lookup], [get_many_is_lookup], [build_then_get], [range_scan_exact],
      [range_pages_exact]); after a write by the general path the new and the old tree
      both read as their maps ([write_then_get]); differences are those of the maps
      ([diff_exact]).
    - Merges: a merge ends with a tree of the three-way merged map, with mutations that
      turn the left map into it, or with the first conflict ([merge_is_three_way]), by
      recorded changes that are true of the trees ([lineage_answers_true]).
    - Maintenance: a sweep deletes exactly the unreachable candidates and every retained
      tree keeps its map ([gc_sweep_exact]); a copy adds to the destination exactly the
      nodes it lacks, so that it holds the source's tree ([copy_missing_exact]); an imported bundle is the tree of its root
      whoever made it ([snapshot_import_sound]), an export is the whole tree or exceeds a
      limit ([snapshot_roundtrip]), and bundles of the same nodes have the same bytes
      ([snapshot_bytes_canonical]).
    - Named roots: compare-and-swap is exact ([named_swap_exact]), a sweep under a policy
      keeps what the policy names ([retention_sweep_exact]), transactions are
      serializable ([transactions_serializable]), and a commit adds exactly what was
      staged or changes nothing ([commit_atomic]).
    - Proofs: verified answers are true of the map unless a node of the proof collides
      with a stored one ([key_proofs_sound], [range_proofs_sound], [diff_page_sound]),
      verification ends, and the engine's proofs verify.
    - Chunking: boundaries are local and depend on the chunk alone, ranges partition
      the level within the byte limit, parallel and serial routines agree.
    - Values: concurrent writes resolve to one value in any order ([crdt_converges]);
      versioned values and tombstones round-trip.
    - Codecs: nodes, formats and keys round-trip; what a decoder accepts is valid; the
      packed and the owned decoder and their searches agree, unchecked accesses are in
      bounds.
    - The cache keeps its counters and answers truly through any sequence of operations,
      and its eviction ends; it keeps its limits unless both [clear_unpinned] and
      [unpin_all] are used ([cache_invariant], [unpin_after_clear_exceeds]).
    - Keys: prefix ranges, numeric and composite keys are ordered as documented.

    ** Fuel

    Recursion that is not structural has fuel, and every theorem that needs a result
    shows that the fuel is enough.  A LEB128 integer has at most 10 bytes; the halving
    loop of the exponential rule runs on 128-bit numbers; binary searches have the
    length of the slice; a tree has at most 256 levels since a level is a byte, which
    bounds cascades, finishing, level building, collection and point reads (256 or
    257); eviction has n*n + n + 1 rounds for n log entries; replay and rewriting have
    one round per mutation or change and one more; a proof is verified within one
    round per node and one more.  The loops of range iteration, proof collection,
    differences and merges take their fuel as an argument; the theorems give a bound that
    suffices.  Marking and export need one round per node of the store and one more; the
    verification of a bundle two rounds more than its nodes have children.

    ** Not modelled

    File, remote and database stores, async plumbing, thread pools, statistics and
    debugging output (I/O and reporting); of writes the direct value updates, the
    localised deletes and the parallel islands, the replay of async writes, sessions and
    splices; the batched write at the end of a merge; batch planning,
    differences and merges of ranges, the structural merge, blobs and their collection, versioned maps,
    secondary indexes and proximity search; proof bundles and signed envelopes; and what
    is around the core crate (bindings, adapters, benchmarks, extensions). *)

From Stdlib Require Import ZArith Lia Strings.Byte.
From stdpp Require Import base tactics numbers list strings option.

Local Open Scope Z_scope.

(** ** Outcomes of fallible Rust code

    [Ok]/[Err] are the two constructors of [Result]; [Panic] is a Rust panic,
    which unwinds through every caller. *)
Inductive outcome (E A : Type) : Type :=
| Ok (a : A)
| Err (e : E)
| Panic (msg : string).
Arguments Ok {E A} a.
Arguments Err {E A} e.
Arguments Panic {E A} msg.

Global Instance outcome_ret {E} : MRet (outcome E) := λ A a, Ok a.
Global Instance outcome_bind {E} : MBind (outcome E) := λ A B k m,
  match m with Ok a => k a | Err e => Err e | Panic s => Panic s end.
Global Instance outcome_fmap {E} : FMap (outcome E) := λ A B f m,
  match m with Ok a => Ok (f a) | Err e => Err e | Panic s => Panic s end.

(** [Option::ok_or]. *)
Definition ok_or {E A} (e : E) (o : option A) : outcome E A :=
  match o with Some a => Ok a | None => Err e end.

(** [Option::expect]. *)
Definition expect {E A} (msg : string) (o : option A) : outcome E A :=
  match o with Some a => Ok a | None => Panic msg end.

Definition map_err {E F A} (f : E → F) (m : outcome E A) : outcome F A :=
  match m with Ok a => Ok a | Err e => Err (f e) | Panic s => Panic s end.

Lemma outcome_bind_Ok {E A B} (m : outcome E A) (k : A → outcome E B) b :
  m ≫= k = Ok b → ∃ a, m = Ok a ∧ k a = Ok b.
Proof. destruct m; cbn; [eauto | discriminate..]. Qed.

(** [injection] would evaluate the two values. *)
Lemma Ok_inj {E A} (a b : A) : Ok (E:=E) a = Ok b → a = b.
Proof. by intros [= ->]. Qed.

Lemma ok_or_Ok {E A} (e : E) (o : option A) a : ok_or e o = Ok a → o = Some a.
Proof. destruct o; cbn; congruence. Qed.

(** Splits every successful bind of the context into its steps. *)
Ltac inv_ok :=
  repeat match goal with
  | H : Ok _ = Ok _ |- _ => injection H as H; try subst
  | H : Err _ = Ok _ |- _ => discriminate H
  | H : Panic _ = Ok _ |- _ => discriminate H
  | H : Ok _ = Err _ |- _ => discriminate H
  | H : mret _ = Ok _ |- _ => change (Ok (E:=_) _ = Ok _) in H
  | H : (_ ≫= _) = Ok _ |- _ =>
      let a := fresh "v" in let E := fresh "E" in
      apply outcome_bind_Ok in H as (a & E & H)
  | H : ok_or _ _ = Ok _ |- _ => apply ok_or_Ok in H
  | H : (let '(_, _) := ?p in _) = Ok _ |- _ => destruct p as [??] eqn:?; cbn beta iota in H
  end.

(** ** Lengths as machine integers *)
Definition len {A} (l : list A) : Z := Z.of_nat (length l).

Lemma len_nil {A} : len (@nil A) = 0. Proof. reflexivity. Qed.
Lemma len_cons {A} (x : A) l : len (x :: l) = len l + 1.
Proof. unfold len; cbn [length]; lia. Qed.
Lemma len_app {A} (l k : list A) : len (l ++ k) = len l + len k.
Proof. unfold len; rewrite length_app; lia. Qed.
Lemma len_nonneg {A} (l : list A) : 0 ≤ len l.
Proof. unfold len; lia. Qed.
Lemma len_drop {A} n (l : list A) : len (drop n l) = Z.max 0 (len l - Z.of_nat n).
Proof. unfold len; rewrite length_drop; lia. Qed.
Lemma len_take {A} n (l : list A) : len (take n l) = Z.min (Z.of_nat n) (len l).
Proof. unfold len; rewrite length_take; lia. Qed.
Lemma len_to_nat {A} (l : list A) : Z.to_nat (len l) = length l.
Proof. unfold len; lia. Qed.
Lemma len_zero {A} (l : list A) : len l = 0 → l = [].
Proof. destruct l; [done|]; rewrite len_cons; pose proof (len_nonneg l); lia. Qed.

Create Rewrite HintDb len.
#[export] Hint Rewrite @len_nil @len_cons @len_app @len_drop @len_take @len_to_nat : len.

(** Proves linear facts on lengths. *)
Ltac len_lia :=
  autorewrite with len in *;
  repeat match goal with
  | |- context [len ?l] =>
      lazymatch goal with _ : 0 ≤ len l |- _ => fail | _ => pose proof (len_nonneg l) end
  | H : context [len ?l] |- _ =>
      lazymatch goal with _ : 0 ≤ len l |- _ => fail | _ => pose proof (len_nonneg l) end
  end; lia.

(** ** Fixed-width integers *)
Definition u8_max : Z := 2 ^ 8 - 1.
Definition u16_max : Z := 2 ^ 16 - 1.
Definition u32_max : Z := 2 ^ 32 - 1.
Definition u64_max : Z := 2 ^ 64 - 1.
Definition u128_max : Z := 2 ^ 128 - 1.
(** The target is 64 bits wide: [usize] is [u64], and no allocation or slice
    is longer than [isize::MAX] bytes. *)
Definition usize_max : Z := u64_max.
Definition isize_max : Z := 2 ^ 63 - 1.

Definition wrap (w z : Z) : Z := z mod 2 ^ w.
Definition saturating_add (top a b : Z) : Z := Z.min (a + b) top.
Definition saturating_sub (a b : Z) : Z := Z.max 0 (a - b).
Definition saturating_mul (top a b : Z) : Z := Z.min (a * b) top.
Definition checked_add (top a b : Z) : option Z :=
  if a + b <=? top then Some (a + b) else None.
Definition checked_sub (a b : Z) : option Z :=
  if b <=? a then Some (a - b) else None.

Lemma checked_add_Some top a b c : checked_add top a b = Some c → c = a + b ∧ a + b ≤ top.
Proof. unfold checked_add; destruct (Z.leb_spec (a + b) top); intros [= <-]; lia. Qed.
Lemma checked_add_le top a b : a + b ≤ top → checked_add top a b = Some (a + b).
Proof. unfold checked_add; intros; destruct (Z.leb_spec (a + b) top); [done|lia]. Qed.
Lemma checked_sub_le a b : b ≤ a → checked_sub a b = Some (a - b).
Proof. unfold checked_sub; intros; destruct (Z.leb_spec b a); [done|lia]. Qed.

Lemma u64_of_bits z : 0 ≤ z → (∀ i, 64 ≤ i → Z.testbit z i = false) → 0 ≤ z < 2 ^ 64.
Proof.
  intros Hz Hbits. assert (z = z mod 2 ^ 64) as ->; [|apply Z.mod_pos_bound; lia].
  apply Z.bits_inj'. intros i Hi. destruct (Z.lt_ge_cases i 64).
  - by rewrite Z.mod_pow2_bits_low by lia.
  - by rewrite Z.mod_pow2_bits_high, Hbits by lia.
Qed.

(** [Vec::with_capacity(n)] for elements of [size] bytes. *)
Definition vec_with_capacity {E} (n size : Z) : outcome E unit :=
  if n * size <=? isize_max then Ok tt else Panic "capacity overflow".

Lemma vec_with_capacity_ok {E} n size :
  n * size ≤ isize_max → vec_with_capacity (E:=E) n size = Ok tt.
Proof. unfold vec_with_capacity; intros; destruct (Z.leb_spec (n * size) isize_max); [done|lia]. Qed.

(** Case analysis on the boolean comparisons of the goal and the context. *)
Ltac case_bool :=
  match goal with
  | |- context [if (?a <=? ?b) then _ else _] => destruct (Z.leb_spec a b)
  | |- context [if (?a <? ?b) then _ else _] => destruct (Z.ltb_spec a b)
  | |- context [if (?a =? ?b) then _ else _] => destruct (Z.eqb_spec a b)
  | H : context [if (?a <=? ?b) then _ else _] |- _ => destruct (Z.leb_spec a b)
  | H : context [if (?a <? ?b) then _ else _] |- _ => destruct (Z.ltb_spec a b)
  | H : context [if (?a =? ?b) then _ else _] |- _ => destruct (Z.eqb_spec a b)
  end.

(** ** Bytes *)
Abbreviation byte := Byte.byte.
Abbreviation bytes := (list byte).

Global Instance byte_eq_dec : EqDecision byte := Byte.byte_eq_dec.

Definition bval (b : byte) : Z := Z.of_N (Byte.to_N b).
(** The [as u8] cast. *)
Definition byte_of (z : Z) : byte := default Byte.x00 (Byte.of_N (Z.to_N (z mod 256))).

Lemma bval_range b : 0 ≤ bval b < 256.
Proof. unfold bval. pose proof (Byte.to_N_bounded b). lia. Qed.

Lemma bval_inj a b : bval a = bval b → a = b.
Proof.
  unfold bval; intros H%N2Z.inj.
  pose proof (Byte.of_to_N a) as Ha; rewrite H, Byte.of_to_N in Ha; congruence.
Qed.

Lemma bval_byte_of z : bval (byte_of z) = z mod 256.
Proof.
  unfold bval, byte_of.
  pose proof (Z.mod_pos_bound z 256 ltac:(lia)) as Hb.
  destruct (Byte.of_N (Z.to_N (z mod 256))) as [b|] eqn:E; cbn.
  - apply Byte.to_of_N in E; rewrite E; lia.
  - apply Byte.of_N_None_iff in E; lia.
Qed.

Lemma bval_byte_of_small z : 0 ≤ z < 256 → bval (byte_of z) = z.
Proof. intros; rewrite bval_byte_of; apply Z.mod_small; lia. Qed.

Lemma byte_of_bval b : byte_of (bval b) = b.
Proof. apply bval_inj, bval_byte_of_small, bval_range. Qed.

(** ** Lexicographic order of byte strings ([Ord] of [[u8]]) *)
Fixpoint bcmp (a b : bytes) : comparison :=
  match a, b with
  | [], [] => Eq
  | [], _ :: _ => Lt
  | _ :: _, [] => Gt
  | x :: a', y :: b' =>
      match Z.compare (bval x) (bval y) with
      | Eq => bcmp a' b'
      | c => c
      end
  end.

Definition blt (a b : bytes) : Prop := bcmp a b = Lt.
Definition ble (a b : bytes) : Prop := bcmp a b ≠ Gt.
Definition bltb (a b : bytes) : bool := match bcmp a b with Lt => true | _ => false end.
Definition bleb (a b : bytes) : bool := match bcmp a b with Gt => false | _ => true end.

Declare Scope key_scope.
Delimit Scope key_scope with key.
Infix "<" := blt : key_scope.
Infix "≤" := ble : key_scope.
Infix "<?" := bltb : key_scope.
Infix "<=?" := bleb : key_scope.

Lemma bcmp_refl a : bcmp a a = Eq.
Proof. induction a as [|x a IH]; cbn; [done|]. by rewrite Z.compare_refl. Qed.

Lemma bcmp_Eq a b : bcmp a b = Eq ↔ a = b.
Proof.
  split; [|intros ->; apply bcmp_refl].
  revert b; induction a as [|x a IH]; intros [|y b]; cbn; try done.
  destruct (Z.compare_spec (bval x) (bval y)) as [H| |]; try done.
  intros ?%IH; apply bval_inj in H; congruence.
Qed.

Lemma bcmp_antisym a b : bcmp b a = CompOpp (bcmp a b).
Proof.
  revert b; induction a as [|x a IH]; intros [|y b]; cbn; try done.
  rewrite Z.compare_antisym; destruct (Z.compare (bval x) (bval y)); cbn; auto.
Qed.

Lemma blt_trans a b c : (a < b)%key → (b < c)%key → (a < c)%key.
Proof.
  unfold blt; revert b c; induction a as [|x a IH]; intros [|y b] [|z c]; cbn; try done.
  destruct (Z.compare_spec (bval x) (bval y)), (Z.compare_spec (bval y) (bval z)),
    (Z.compare_spec (bval x) (bval z)); try done; try lia; eauto.
Qed.

Lemma blt_irrefl a : ¬ (a < a)%key.
Proof. unfold blt; rewrite bcmp_refl; done. Qed.

Global Instance blt_strict : StrictOrder blt.
Proof. split; [exact blt_irrefl | intros a b c; apply blt_trans]. Qed.
Global Instance comparison_dec : EqDecision comparison.
Proof. solve_decision. Defined.
Global Instance blt_dec a b : Decision (blt a b) := decide (bcmp a b = Lt).
Global Instance ble_dec a b : Decision (ble a b) := decide (bcmp a b ≠ Gt).

Lemma ble_lt_eq a b : (a ≤ b)%key ↔ (a < b)%key ∨ a = b.
Proof.
  unfold ble, blt; rewrite <- bcmp_Eq.
  destruct (bcmp a b); split; [tauto|congruence|tauto|congruence|tauto|].
  intros [|]; discriminate.
Qed.

Lemma ble_not_lt a b : (a ≤ b)%key ↔ ¬ (b < a)%key.
Proof. unfold ble, blt; rewrite (bcmp_antisym a b); destruct (bcmp a b); cbn; split; congruence. Qed.

Lemma ble_refl a : (a ≤ a)%key.
Proof. apply ble_lt_eq; auto. Qed.
Lemma ble_trans a b c : (a ≤ b)%key → (b ≤ c)%key → (a ≤ c)%key.
Proof. rewrite !ble_lt_eq; intros [?| ->] [?| ->]; eauto using blt_trans. Qed.
Lemma blt_le_trans a b c : (a < b)%key → (b ≤ c)%key → (a < c)%key.
Proof. rewrite ble_lt_eq; intros ? [?| ->]; eauto using blt_trans. Qed.
Lemma ble_lt_trans a b c : (a ≤ b)%key → (b < c)%key → (a < c)%key.
Proof. rewrite ble_lt_eq; intros [?| ->] ?; eauto using blt_trans. Qed.
Lemma blt_le a b : (a < b)%key → (a ≤ b)%key.
Proof. rewrite ble_lt_eq; auto. Qed.
Lemma blt_neq a b : (a < b)%key → a ≠ b.
Proof. intros H ->; by apply blt_irrefl in H. Qed.
Lemma blt_total a b : (a < b)%key ∨ a = b ∨ (b < a)%key.
Proof.
  unfold blt; rewrite (bcmp_antisym a b), <- bcmp_Eq; destruct (bcmp a b); cbn; auto.
Qed.
Lemma bltb_lt a b : (a <? b)%key = true ↔ (a < b)%key.
Proof. unfold bltb, blt; destruct (bcmp a b); split; congruence. Qed.
Lemma bltb_ge a b : (a <? b)%key = false ↔ (b ≤ a)%key.
Proof. rewrite ble_not_lt, <- bltb_lt, not_true_iff_false; done. Qed.
Lemma bleb_le a b : (a <=? b)%key = true ↔ (a ≤ b)%key.
Proof. unfold bleb, ble; destruct (bcmp a b); split; congruence. Qed.
Lemma bleb_gt a b : (a <=? b)%key = false ↔ (b < a)%key.
Proof. unfold bleb, blt; rewrite (bcmp_antisym a b); destruct (bcmp a b); cbn; split; congruence. Qed.

Lemma bcmp_app p a b : bcmp (p ++ a) (p ++ b) = bcmp a b.
Proof. induction p as [|x p IH]; cbn; [done|]. by rewrite Z.compare_refl. Qed.

Lemma bcmp_nil_l a : bcmp [] a = match a with [] => Eq | _ => Lt end.
Proof. by destruct a. Qed.

Lemma ble_prefix p a : (p ≤ p ++ a)%key.
Proof. unfold ble; rewrite <- (app_nil_r p) at 1; rewrite bcmp_app; by destruct a. Qed.

Create HintDb key discriminated.
#[export] Hint Resolve blt_trans ble_trans blt_le_trans ble_lt_trans blt_le ble_refl ble_prefix : key.

(** ** Big-endian integers ([to_be_bytes] / [from_be_bytes]) *)
Fixpoint be_bytes (n : nat) (z : Z) : bytes :=
  match n with
  | O => []
  | S n' => byte_of (z / 256 ^ Z.of_nat n') :: be_bytes n' z
  end.

Fixpoint be_val (l : bytes) : Z :=
  match l with
  | [] => 0
  | b :: l' => bval b * 256 ^ len l' + be_val l'
  end.

Lemma length_be_bytes n z : length (be_bytes n z) = n.
Proof. induction n; cbn; congruence. Qed.
Lemma len_be_bytes n z : len (be_bytes n z) = Z.of_nat n.
Proof. unfold len; by rewrite length_be_bytes. Qed.
#[export] Hint Rewrite len_be_bytes : len.

Lemma pow256_pos k : 0 ≤ k → 0 < 256 ^ k.
Proof. intros; apply Z.pow_pos_nonneg; lia. Qed.

Lemma be_val_range l : 0 ≤ be_val l < 256 ^ len l.
Proof.
  induction l as [|b l IH]; [by vm_compute|].
  rewrite len_cons, Z.pow_add_r by (pose proof (len_nonneg l); lia); cbn [be_val].
  pose proof (bval_range b); pose proof (pow256_pos (len l) (len_nonneg l)); nia.
Qed.

Lemma be_val_be_bytes n z : be_val (be_bytes n z) = z mod 256 ^ Z.of_nat n.
Proof.
  induction n as [|n IH]; [cbn; by rewrite Z.mod_1_r|].
  cbn [be_bytes be_val]. rewrite len_be_bytes, IH, bval_byte_of.
  rewrite Nat2Z.inj_succ, Z.pow_succ_r by lia.
  pose proof (pow256_pos (Z.of_nat n) ltac:(lia)) as Hp.
  rewrite (Z.mul_comm 256), Z.rem_mul_r by lia. lia.
Qed.

Lemma be_val_be_bytes_small n z : 0 ≤ z < 256 ^ Z.of_nat n → be_val (be_bytes n z) = z.
Proof. intros; rewrite be_val_be_bytes; by apply Z.mod_small. Qed.

(** On equal lengths the byte order is the numeric order. *)
Lemma bcmp_be_val a b : length a = length b → bcmp a b = Z.compare (be_val a) (be_val b).
Proof.
  revert b; induction a as [|x a IH]; intros [|y b]; cbn [length]; try done.
  intros [= Hl]; cbn [bcmp be_val]; rewrite (IH b Hl).
  assert (len a = len b) as <- by (unfold len; lia).
  pose proof (be_val_range a) as Ha; pose proof (be_val_range b) as Hb.
  replace (len b) with (len a) in Hb by (unfold len; lia).
  destruct (Z.compare_spec (bval x) (bval y)) as [->|H|H]; symmetry.
  - destruct (Z.compare_spec (be_val a) (be_val b));
      [apply Z.compare_eq_iff | apply Z.compare_lt_iff | apply Z.compare_gt_iff]; lia.
  - apply Z.compare_lt_iff; nia.
  - apply Z.compare_gt_iff; nia.
Qed.

Lemma be_bytes_be_val l : be_bytes (length l) (be_val l) = l.
Proof.
  assert (bcmp (be_bytes (length l) (be_val l)) l = Eq) as H; [|by apply bcmp_Eq].
  rewrite bcmp_be_val, be_val_be_bytes by apply length_be_bytes.
  apply Z.compare_eq_iff, Z.mod_small; apply be_val_range.
Qed.

Arguments be_bytes : simpl never.
Arguments be_val : simpl never.
Arguments byte_of : simpl never.
Arguments bval : simpl never.

(** ** Prefixes *)
Lemma prefix_cons_iff {A} (x y : A) l k : x :: l `prefix_of` y :: k ↔ x = y ∧ l `prefix_of` k.
Proof.
  split; [|intros [-> ?]; by apply prefix_cons].
  intros H; split; [by eapply prefix_cons_inv_1 | by eapply prefix_cons_inv_2].
Qed.

(** ** Properties of all bytes by enumeration *)
Definition all_bytes : bytes := (λ n : nat, byte_of (Z.of_nat n)) <$> seq 0 256.

Lemma elem_of_all_bytes b : b ∈ all_bytes.
Proof.
  apply list_elem_of_fmap. exists (Z.to_nat (bval b)). pose proof (bval_range b). split.
  - rewrite Z2Nat.id by lia. by rewrite byte_of_bval.
  - apply elem_of_seq; lia.
Qed.

Lemma forall_bytes (P : byte → bool) : forallb P all_bytes = true → ∀ b, P b = true.
Proof.
  intros H b. rewrite forallb_forall in H. apply H, list_elem_of_In, elem_of_all_bytes.
Qed.

(** ** Slices *)

(** [l.get(a..b)]. *)
Definition slice {A} (l : list A) (a b : Z) : option (list A) :=
  if (a <=? b) && (b <=? len l)
  then Some (take (Z.to_nat (b - a)) (drop (Z.to_nat a) l)) else None.

Lemma slice_Some {A} (l m : list A) a b :
  0 ≤ a → slice l a b = Some m →
  a ≤ b ≤ len l ∧ len m = b - a ∧ l = take (Z.to_nat a) l ++ m ++ drop (Z.to_nat b) l.
Proof.
  intros Ha. unfold slice.
  destruct (Z.leb_spec a b), (Z.leb_spec b (len l)); cbn [andb]; try done.
  intros [= <-]. split; [lia|]. split; [len_lia|].
  rewrite <- (take_drop (Z.to_nat a) l) at 1. f_equal.
  rewrite <- (take_drop (Z.to_nat (b - a)) (drop (Z.to_nat a) l)) at 1. f_equal.
  rewrite drop_drop. f_equal. lia.
Qed.

Lemma slice_app {A} (p m r : list A) :
  slice (p ++ m ++ r) (len p) (len p + len m) = Some m.
Proof.
  unfold slice. destruct (Z.leb_spec (len p) (len p + len m)); [|len_lia].
  destruct (Z.leb_spec (len p + len m) (len (p ++ m ++ r))); [|len_lia]. cbn [andb].
  replace (len p + len m - len p) with (len m) by lia.
  by rewrite !len_to_nat, drop_app_length, take_app_length.
Qed.

(** ** [slice::partition_point], by the binary search of the standard library *)
Fixpoint partition_base {A} (fuel : nat) (p : A → bool) (l : list A) (base size : nat) : nat :=
  match fuel with
  | O => base
  | S fuel' =>
      if (1 <? size)%nat then
        let half := (size / 2)%nat in
        let mid := (base + half)%nat in
        let base' := match l !! mid with Some x => if p x then mid else base | None => base end in
        partition_base fuel' p l base' (size - half)
      else base
  end.

Definition partition_point {A} (p : A → bool) (l : list A) : nat :=
  match l with
  | [] => 0
  | _ =>
      let base := partition_base (length l) p l 0 (length l) in
      match l !! base with Some x => if p x then S base else base | None => base end
  end.

(** The predicate holds exactly on the first [n] elements. *)
Definition partitioned {A} (p : A → bool) (l : list A) (n : nat) : Prop :=
  (n ≤ length l)%nat ∧ ∀ i x, l !! i = Some x → p x = bool_decide (i < n)%nat.

Lemma partition_base_spec {A} (p : A → bool) l n fuel base size :
  partitioned p l n → (1 ≤ size ≤ fuel)%nat → (base + size ≤ length l)%nat →
  let b := partition_base fuel p l base size in
  (base ≤ b < base + size)%nat ∧ (b ≠ base → b < n)%nat ∧ (∀ i, b < i < base + size → n ≤ i)%nat.
Proof.
  intros [_ Hp]. revert base size; induction fuel as [|fuel IH]; intros base size Hsize Hlen; [lia|].
  cbn [partition_base]. destruct (Nat.ltb_spec 1 size) as [H1|H1].
  2: { replace size with 1%nat by lia. cbn zeta. repeat split; [lia|lia|done|intros; lia]. }
  assert (1 ≤ size / 2 < size)%nat as Hhalf
    by (split; [apply Nat.div_le_lower_bound|apply Nat.Div0.div_lt_upper_bound]; lia).
  pose proof (Nat.div_mod size 2 ltac:(lia)). set (half := (size / 2)%nat) in *. cbn zeta.
  destruct (lookup_lt_is_Some_2 l (base + half)) as [m Hm]; [lia|]. rewrite Hm, (Hp _ _ Hm).
  case_bool_decide as Hmid.
  - destruct (IH (base + half) (size - half))%nat as (Hb & Hlow & Hup); [lia|lia|].
    split; [lia|]. split; [|intros i Hi; apply Hup; lia]. intros _.
    destruct (decide (partition_base fuel p l (base + half) (size - half) = base + half)%nat) as [->|]; [lia|tauto].
  - destruct (IH base (size - half))%nat as (Hb & Hlow & Hup); [lia|lia|].
    split; [lia|]. split; [done|]. intros i Hi. destruct (decide (i < base + (size - half))%nat); [apply Hup; lia|].
    assert (n ≤ base + half)%nat by lia. lia.
Qed.

Lemma partition_point_spec {A} (p : A → bool) l n : partitioned p l n → partition_point p l = n.
Proof.
  intros Hpart. pose proof Hpart as [Hn Hp]. unfold partition_point. destruct l as [|x l]; [cbn in Hn; lia|].
  set (l' := x :: l) in *. assert (1 ≤ length l')%nat as Hl by (unfold l'; cbn; lia).
  destruct (partition_base_spec p l' n (length l') 0 (length l') Hpart ltac:(lia) ltac:(lia)) as (Hb & Hlow & Hup).
  set (b := partition_base _ _ _ _ _) in *. destruct (lookup_lt_is_Some_2 l' b) as [y Hy]; [lia|].
  rewrite Hy, (Hp _ _ Hy). case_bool_decide as Hbn.
  - destruct (decide (n ≤ S b)%nat); [lia|]. specialize (Hup (S b)). lia.
  - destruct (decide (b = 0)%nat); [lia|]. specialize (Hlow ltac:(lia)). lia.
Qed.

Lemma partition_point_le {A} (p : A → bool) l : (partition_point p l ≤ length l)%nat.
Proof.
  unfold partition_point. destruct l as [|x l]; [done|]. set (l' := x :: l). set (b := partition_base _ _ _ _ _).
  destruct (l' !! b) as [y|] eqn:Hb; [apply lookup_lt_Some in Hb; destruct (p y); lia|].
  unfold b. clear b Hb. assert (∀ fuel base size, (base ≤ length l')%nat → (partition_base fuel p l' base size ≤ length l')%nat) as Hbase.
  { induction fuel as [|fuel IH]; intros base size Hle; [done|]. cbn [partition_base]. destruct (1 <? size)%nat; [|done].
    apply IH. destruct (l' !! (base + size / 2)%nat) as [y|] eqn:Hm; [|done]. apply lookup_lt_Some in Hm.
    destruct (p y); lia. }
  apply Hbase. lia.
Qed.

Lemma partition_point_app {A} (p : A → bool) a b :
  Forall (λ x, p x = true) a → Forall (λ x, p x = false) b → partition_point p (a ++ b) = length a.
Proof.
  intros Ha Hb. apply partition_point_spec. split; [rewrite length_app; lia|]. intros i x Hx.
  apply lookup_app_Some in Hx as [Hx|[Hi Hx]].
  - rewrite bool_decide_eq_true_2 by (by eapply lookup_lt_Some). by eapply Forall_lookup_1 in Hx; [|exact Ha].
  - rewrite bool_decide_eq_false_2 by lia. by eapply Forall_lookup_1 in Hx; [|exact Hb].
Qed.
