(* ===== verification/Cursor.v ===== *)
(** * Byte cursors

    The decoders of the crate ([FormatCursor] of format.rs, [CompactCursor] of
    node.rs) are a byte slice with a position.  A decoder is a function of the
    [reader] monad; [parses] states that it consumes the encoding of a value,
    [emits] that whatever it accepts has a given shape. *)

From Stdlib Require Import ZArith Lia Strings.Byte.
From stdpp Require Import base tactics numbers list strings option.
From S2P Require Import Prelude.

Local Open Scope Z_scope.

Record Cursor := { cdata : bytes; cpos : Z }.

Definition cursor_new (data : bytes) : Cursor := {| cdata := data; cpos := 0 |}.

Definition reader (E A : Type) : Type := Cursor → outcome E (A * Cursor).

Global Instance reader_ret {E} : MRet (reader E) := λ A a c, Ok (a, c).
Global Instance reader_bind {E} : MBind (reader E) := λ A B k p c,
  match p c with Ok (a, c') => k a c' | Err e => Err e | Panic s => Panic s end.

Global Instance reader_fmap {E} : FMap (reader E) := λ A B f p c,
  match p c with Ok (a, c') => Ok (f a, c') | Err e => Err e | Panic s => Panic s end.

(** Steps that do not move the cursor. *)
Definition lift {E A} (m : outcome E A) : reader E A := λ c,
  match m with Ok a => Ok (a, c) | Err e => Err e | Panic s => Panic s end.
Definition fail {E A} (e : E) : reader E A := λ _, Err e.

(** [self.bytes.get(self.position..end)] after the checked addition of [n]. *)
Definition cursor_read {E} (overflow truncated : E) (n : Z) : reader E bytes := λ c,
  stop ← ok_or overflow (checked_add usize_max (cpos c) n);
  v ← ok_or truncated (slice (cdata c) (cpos c) stop);
  Ok (v, {| cdata := cdata c; cpos := stop |}).

Definition cursor_position {E} : reader E Z := λ c, Ok (cpos c, c).
Definition cursor_is_done (c : Cursor) : bool := cpos c =? len (cdata c).

(** ** What is left to read *)
Definition remaining (c : Cursor) : bytes := drop (Z.to_nat (cpos c)) (cdata c).
Definition cursor_wf (c : Cursor) : Prop :=
  0 ≤ cpos c ≤ len (cdata c) ∧ len (cdata c) ≤ isize_max.
Definition advance (c : Cursor) (n : Z) : Cursor :=
  {| cdata := cdata c; cpos := cpos c + n |}.

(** Reading the bytes [l] moves [c] to [c']. *)
Definition consumes (c : Cursor) (l : bytes) (c' : Cursor) : Prop :=
  cursor_wf c' ∧ c' = advance c (len l) ∧ remaining c = l ++ remaining c'.

Definition parses {E A} (p : reader E A) (a : A) (l : bytes) : Prop :=
  ∀ c r, cursor_wf c → remaining c = l ++ r → p c = Ok (a, advance c (len l)).

(** The decoder panics on every input that starts with [l]. *)
Definition panics {E A} (p : reader E A) (msg : string) (l : bytes) : Prop :=
  ∀ c r, cursor_wf c → remaining c = l ++ r → p c = Panic msg.

Definition emits {E A} (p : reader E A) (P : A → bytes → Prop) : Prop :=
  ∀ c a c', cursor_wf c → p c = Ok (a, c') → ∃ l, P a l ∧ consumes c l c'.

Lemma cursor_new_wf data : len data ≤ isize_max → cursor_wf (cursor_new data).
Proof. unfold cursor_wf, cursor_new; cbn; len_lia. Qed.
Lemma remaining_new data : remaining (cursor_new data) = data.
Proof. done. Qed.

Lemma advance_0 c : advance c 0 = c.
Proof. destruct c as [d p]; unfold advance; cbn; f_equal; lia. Qed.
Lemma advance_add c m n : advance (advance c m) n = advance c (m + n).
Proof. unfold advance; cbn; f_equal; lia. Qed.

Lemma remaining_len c : cursor_wf c → len (remaining c) = len (cdata c) - cpos c.
Proof. unfold cursor_wf, remaining; intros; len_lia. Qed.

Lemma remaining_advance c l r :
  cursor_wf c → remaining c = l ++ r → consumes c l (advance c (len l)).
Proof.
  intros Hwf Hr. pose proof (remaining_len c Hwf) as Hl. rewrite Hr in Hl.
  unfold consumes, cursor_wf, remaining, advance in *; cbn. split; [len_lia|]. split; [done|].
  rewrite Z2Nat.inj_add by len_lia. rewrite <- drop_drop, Hr, len_to_nat, drop_app_length. done.
Qed.

Lemma remaining_advance_eq c l r :
  cursor_wf c → remaining c = l ++ r →
  cursor_wf (advance c (len l)) ∧ remaining (advance c (len l)) = r.
Proof.
  intros Hwf Hr. destruct (remaining_advance c l r Hwf Hr) as (? & _ & H).
  split; [done|]. rewrite Hr in H. by apply app_inv_head in H.
Qed.

Lemma is_done_remaining c : cursor_wf c → cursor_is_done c = true ↔ remaining c = [].
Proof.
  intros Hwf. pose proof (remaining_len c Hwf). unfold cursor_is_done. rewrite Z.eqb_eq.
  split; intros Hc; [apply len_zero; lia|]. rewrite Hc in *. len_lia.
Qed.

Lemma consumes_refl c : cursor_wf c → consumes c [] c.
Proof. intros; split; [done|]. split; [|done]. rewrite len_nil. by rewrite advance_0. Qed.

Lemma consumes_trans c1 c2 c3 l m :
  consumes c1 l c2 → consumes c2 m c3 → consumes c1 (l ++ m) c3.
Proof.
  intros (? & -> & H1) (? & -> & H2); split; [done|]. rewrite advance_add, len_app.
  split; [done|]. by rewrite H1, H2, app_assoc, <- advance_add.
Qed.

(** ** Rules for [parses] *)
Section parses.
Context {E : Type}.

Lemma parses_ret {A} (a : A) : parses (E:=E) (mret a) a [].
Proof. intros c r _ _. by rewrite len_nil, advance_0. Qed.

Lemma parses_lift {A} (m : outcome E A) a : m = Ok a → parses (lift m) a [].
Proof. intros -> c r _ _. by rewrite len_nil, advance_0. Qed.

Lemma parses_bind {A B} (p : reader E A) (k : A → reader E B) a b l m :
  parses p a l → parses (k a) b m → parses (p ≫= k) b (l ++ m).
Proof.
  intros Hp Hk c r Hwf Hr. rewrite <- app_assoc in Hr.
  destruct (remaining_advance_eq c l (m ++ r) Hwf Hr) as [Hwf' Hr'].
  unfold mbind, reader_bind. rewrite (Hp c (m ++ r)) by done.
  rewrite (Hk _ r) by done. by rewrite advance_add, len_app.
Qed.

Lemma parses_fmap {A B} (f : A → B) (p : reader E A) a l :
  parses p a l → parses (f <$> p) (f a) l.
Proof. intros Hp c r Hwf Hr. unfold fmap, reader_fmap. by rewrite (Hp c r). Qed.

(** The same for a step that consumes nothing. *)
Lemma parses_bind_nil {A B} (p : reader E A) (k : A → reader E B) a b m :
  parses p a [] → parses (k a) b m → parses (p ≫= k) b m.
Proof. intros Hp Hk. exact (parses_bind p k a b [] m Hp Hk). Qed.

Lemma parses_bind_end {A B} (p : reader E A) (k : A → reader E B) a b l :
  parses p a l → parses (k a) b [] → parses (p ≫= k) b l.
Proof. intros Hp Hk. rewrite <- (app_nil_r l). by eapply parses_bind. Qed.

Lemma parses_read (e1 e2 : E) l : parses (cursor_read e1 e2 (len l)) l l.
Proof.
  intros c r Hwf Hr. pose proof (remaining_len c Hwf) as Hl. rewrite Hr in Hl.
  destruct Hwf as [Hp Hm]. unfold cursor_read, isize_max in *.
  rewrite checked_add_le by (unfold usize_max, u64_max; len_lia). cbn.
  assert (cdata c = take (Z.to_nat (cpos c)) (cdata c) ++ l ++ r) as Hd.
  { rewrite <- Hr. symmetry; apply take_drop. }
  assert (len (take (Z.to_nat (cpos c)) (cdata c)) = cpos c) as Hlen by len_lia.
  pose proof (slice_app (take (Z.to_nat (cpos c)) (cdata c)) l r) as Hs.
  rewrite Hlen, <- Hd in Hs. by rewrite Hs.
Qed.

Lemma parses_read_n (e1 e2 : E) n l : n = len l → parses (cursor_read e1 e2 n) l l.
Proof. intros ->; apply parses_read. Qed.

(** ** Rules for [panics] *)
Lemma panics_here {A B} (m : outcome E A) (k : A → reader E B) msg l :
  m = Panic msg → panics (lift m ≫= k) msg l.
Proof. intros -> c r _ _. done. Qed.

Lemma panics_bind {A B} (p : reader E A) (k : A → reader E B) a msg l m :
  parses p a l → panics (k a) msg m → panics (p ≫= k) msg (l ++ m).
Proof.
  intros Hp Hk c r Hwf Hr. rewrite <- app_assoc in Hr.
  destruct (remaining_advance_eq c l (m ++ r) Hwf Hr) as [Hwf' Hr'].
  unfold mbind, reader_bind. rewrite (Hp c (m ++ r)) by done. by apply (Hk _ r).
Qed.

(** Running a parser on exactly its input. *)
Lemma parses_run {A} (p : reader E A) a l :
  parses p a l → len l ≤ isize_max →
  p (cursor_new l) = Ok (a, advance (cursor_new l) (len l)).
Proof. intros Hp Hl. apply (Hp _ []); [by apply cursor_new_wf|]. by rewrite app_nil_r. Qed.

(** ** Rules for [emits] *)
Lemma emits_mono {A} (p : reader E A) (P Q : A → bytes → Prop) :
  emits p P → (∀ a l, P a l → Q a l) → emits p Q.
Proof. intros Hp HPQ c a c' Hwf (l & ? & ?)%Hp; eauto. Qed.

Lemma emits_ret {A} (a : A) (P : A → bytes → Prop) : P a [] → emits (E:=E) (mret a) P.
Proof. intros HP c b c' Hwf [= <- <-]. exists []; split; [done|]. by apply consumes_refl. Qed.

Lemma emits_lift {A} (m : outcome E A) (P : A → bytes → Prop) :
  (∀ a, m = Ok a → P a []) → emits (lift m) P.
Proof.
  intros HP c a c' Hwf; unfold lift; destruct m as [x|e|s]; try done.
  intros [= <- <-]. exists []; split; [by apply HP|]. by apply consumes_refl.
Qed.

Lemma emits_fail {A} (e : E) (P : A → bytes → Prop) : emits (fail e) P.
Proof. intros c a c' _. done. Qed.

Lemma emits_fmap {A B} (f : A → B) (p : reader E A) (P : B → bytes → Prop) :
  emits p (λ a, P (f a)) → emits (f <$> p) P.
Proof.
  intros Hp c b c' Hwf. unfold fmap, reader_fmap.
  destruct (p c) as [[a c1]|e|s] eqn:Hpc; try done. intros [= <- <-]. by apply Hp.
Qed.

Lemma emits_bind {A B} (p : reader E A) (k : A → reader E B) (P : A → bytes → Prop)
    (Q : B → bytes → Prop) :
  emits p P → (∀ a l, P a l → emits (k a) (λ b m, Q b (l ++ m))) → emits (p ≫= k) Q.
Proof.
  intros Hp Hk c b c' Hwf. unfold mbind, reader_bind.
  destruct (p c) as [[a c1]|e|s] eqn:Hpc; try done.
  destruct (Hp c a c1 Hwf Hpc) as (l & HP & Hc1).
  intros (m & HQ & Hc')%(Hk a l HP); [|by destruct Hc1].
  exists (l ++ m). split; [done|]. by eapply consumes_trans.
Qed.

Lemma emits_read (e1 e2 : E) n :
  0 ≤ n → emits (cursor_read e1 e2 n) (λ a l, a = l ∧ len l = n).
Proof.
  intros Hn c a c' Hwf. unfold cursor_read. intros H; inv_ok. destruct Hwf as [Hp Hm].
  apply checked_add_Some in E0 as [-> Hle].
  apply slice_Some in E1 as (Hr & Hl & Hd); [|lia].
  exists a. split; [split; [done|lia]|].
  assert (len a = n) as Hn' by lia.
  assert (remaining c = a ++ drop (Z.to_nat (cpos c + n)) (cdata c)) as Hrem.
  { unfold remaining. rewrite Hd at 1.
    rewrite drop_app_length'; [done|]. rewrite length_take. unfold len in *; lia. }
  replace {| cdata := cdata c; cpos := cpos c + n |} with (advance c (len a))
    by (unfold advance; by rewrite Hn').
  eapply remaining_advance; [done|exact Hrem].
Qed.

Lemma emits_position {P : Z → bytes → Prop} : (∀ z, P z []) → emits (E:=E) cursor_position P.
Proof. intros HP c a c' Hwf [= <- <-]. exists []; split; [done|]. by apply consumes_refl. Qed.

(** A parser that accepts all of its input. *)
Lemma emits_run {A} (p : reader E A) (P : A → bytes → Prop) data a c' :
  emits p P → len data ≤ isize_max → p (cursor_new data) = Ok (a, c') →
  cursor_is_done c' = true → P a data.
Proof.
  intros Hp Hd Hrun Hdone.
  destruct (Hp _ a c' (cursor_new_wf _ Hd) Hrun) as (l & HP & Hwf & _ & Hl).
  apply is_done_remaining in Hdone; [|done]. rewrite Hdone, app_nil_r, remaining_new in Hl.
  by subst l.
Qed.

End parses.
