(* ===== verification/Types.v ===== *)
(** * Shared data types (src/prolly/cid.rs, encoding.rs, error.rs)

    Content identifiers, the hash functions of the external crates, mutations,
    diffs, conflicts and the error type. *)

From Stdlib Require Import ZArith Lia Strings.Byte.
From stdpp Require Import base tactics numbers list strings option.
From S2P Require Import Prelude.

Local Open Scope Z_scope.

(** ** Hash functions of the [sha2] and [xxhash-rust] crates

    [xxh64 seed data] is what an [Xxh64::new(seed)] hasher returns from
    [finish] after writes whose concatenation is [data]. *)
Class Hashes := {
  sha256 : bytes → bytes;
  xxh64 : Z → bytes → Z;
}.

(** Their documented output sizes. *)
Class HashesOk `{Hashes} : Prop := {
  sha256_len d : length (sha256 d) = 32%nat;
  xxh64_range seed d : 0 ≤ xxh64 seed d < 2 ^ 64;
}.

(** A concrete pair of functions of these sizes, on which the statements that
    assume [HashesOk] can be evaluated. *)
Definition poly_hash (m seed : Z) (d : bytes) : Z :=
  foldl (λ h b, (h * 1099511628211 + bval b + 1) mod m) (seed mod m) d.
Definition sample_hashes : Hashes := {|
  sha256 d := be_bytes 32 (poly_hash (2 ^ 256) 7 d);
  xxh64 seed d := poly_hash (2 ^ 64) seed d |}.

Lemma poly_hash_range m seed d : 0 < m → 0 ≤ poly_hash m seed d < m.
Proof.
  intros Hm. unfold poly_hash. assert (0 ≤ seed mod m < m) as Hs by (by apply Z.mod_pos_bound).
  revert Hs. generalize (seed mod m). induction d as [|b d IH]; intros z Hz; cbn; [done|].
  apply IH. by apply Z.mod_pos_bound.
Qed.

Lemma sample_hashes_ok : @HashesOk sample_hashes.
Proof.
  constructor; intros; cbn [sha256 xxh64 sample_hashes];
    [apply length_be_bytes|by apply poly_hash_range].
Qed.

(** ** cid.rs *)

(** [Cid([u8; 32])]; the length is an invariant of the values the code builds. *)
Abbreviation Cid := bytes (only parsing).
Definition Cid_from_bytes `{Hashes} (data : bytes) : Cid := sha256 data.

(** ** encoding.rs *)
Definition INIT_LEVEL : Z := 0.
Definition DEFAULT_HASH_SEED : Z := 0.
Definition DEFAULT_MIN_CHUNK_SIZE : Z := 4.
Definition DEFAULT_MAX_CHUNK_SIZE : Z := 1024 * 1024.
Definition DEFAULT_CHUNKING_FACTOR : Z := 128.

(** A Rust [String] is its UTF-8 bytes. *)
Inductive Encoding :=
| EncRaw
| EncCbor
| EncJson
| EncCustom (name : bytes).

Global Instance Encoding_eq_dec : EqDecision Encoding.
Proof. solve_decision. Defined.

(** ** error.rs *)
Inductive Mutation :=
| Upsert (key val : bytes)
| Delete (key : bytes).

Definition Mutation_key (m : Mutation) : bytes :=
  match m with Upsert key _ => key | Delete key => key end.
Definition is_delete (m : Mutation) : bool :=
  match m with Upsert _ _ => false | Delete _ => true end.

Inductive Diff :=
| Added (key val : bytes)
| Removed (key val : bytes)
| Changed (key old new : bytes).
Definition Diff_key (d : Diff) : bytes :=
  match d with Added key _ | Removed key _ | Changed key _ _ => key end.
#[export] Instance Diff_eq_dec : EqDecision Diff.
Proof. solve_decision. Defined.

Record Conflict := {
  conflict_key : bytes;
  conflict_base : option bytes;
  conflict_left : option bytes;
  conflict_right : option bytes;
}.

(** The variants of [Error] that the modelled code constructs. *)
Inductive Error :=
| NotFound (cid : Cid)
| InvalidNode
| InvalidFormat (msg : string)
| FormatMismatch (expected actual : Cid)
| EntryTooLarge (encoded_bytes limit : Z)
| Deserialize (msg : string)
| Serialize (msg : string)
| StoreError (msg : string)
| CidMismatch (expected actual : Cid)
| ConflictError (conflict : Conflict)
| UnsortedInput (previous next : bytes)
| InvalidExecutionConfig (field : string) (value : Z)
| ContentGraphResourceLimitExceeded (resource : string) (limit actual : Z)
| SnapshotExportLimitExceeded (resource : string) (limit actual : Z)
| InvalidSnapshotBundle (msg : string)
| MissingNamedRoots (names : list bytes)
| UnsupportedTransactions.

(** ** UTF-8 ([String::from_utf8]) *)
Definition utf8_cont (b : byte) : bool := (128 <=? bval b) && (bval b <=? 191).

Fixpoint utf8_valid (l : bytes) : bool :=
  match l with
  | [] => true
  | b0 :: r0 =>
    let v := bval b0 in
    if v <? 128 then utf8_valid r0
    else match r0 with
    | [] => false
    | b1 :: r1 =>
      if (194 <=? v) && (v <=? 223) then utf8_cont b1 && utf8_valid r1
      else match r1 with
      | [] => false
      | b2 :: r2 =>
        let second lo hi := (lo <=? bval b1) && (bval b1 <=? hi) in
        if v =? 224 then second 160 191 && utf8_cont b2 && utf8_valid r2
        else if v =? 237 then second 128 159 && utf8_cont b2 && utf8_valid r2
        else if (225 <=? v) && (v <=? 239) then utf8_cont b1 && utf8_cont b2 && utf8_valid r2
        else match r2 with
        | [] => false
        | b3 :: r3 =>
          let tail := utf8_cont b2 && utf8_cont b3 && utf8_valid r3 in
          if v =? 240 then second 144 191 && tail
          else if v =? 244 then second 128 143 && tail
          else if (241 <=? v) && (v <=? 243) then utf8_cont b1 && tail
          else false
        end
      end
    end
  end.

(** Messages that quote a Rust string. *)
Definition text (l : bytes) : string := String.string_of_list_byte l.

(** ** Operations on shared state

    An operation of a component with state [S]: its result and the state
    afterwards, which is kept when it fails. *)
Definition action (S A : Type) : Type := S → outcome Error A * S.

Global Instance action_ret {S} : MRet (action S) := λ A a s, (Ok a, s).
Global Instance action_bind {S} : MBind (action S) := λ A B k m s,
  match m s with
  | (Ok a, s') => k a s'
  | (Err x, s') => (Err x, s')
  | (Panic msg, s') => (Panic msg, s')
  end.

(** A computation that does not touch the state. *)
Definition run {S A} (o : outcome Error A) : action S A := λ s, (o, s).

Lemma action_bind_Ok {S A B} (m : action S A) (k : A → action S B) s a s' :
  m s = (Ok a, s') → (m ≫= k) s = k a s'.
Proof. intros Hm. unfold mbind, action_bind. by rewrite Hm. Qed.

Lemma action_bind_Err {S A B} (m : action S A) (k : A → action S B) s x s' :
  m s = (Err x, s') → (m ≫= k) s = (Err x, s').
Proof. intros Hm. unfold mbind, action_bind. by rewrite Hm. Qed.
