(* ===== verification/Format.v ===== *)
(** * Persisted tree formats (src/prolly/format.rs, chunking.rs, config.rs)

    The chunking policy, node layout and value encoding of a tree, their
    validation, and the canonical byte form whose SHA-256 digest identifies the
    format. *)

From Stdlib Require Import ZArith Lia Strings.Byte.
From stdpp Require Import base tactics numbers list strings option.
From S2P Require Import Prelude Cursor Types.

Local Open Scope Z_scope.

Module Format.

Definition FORMAT_MAGIC : bytes := [Byte.x43; Byte.x52; Byte.x46; Byte.x54].
Definition FORMAT_VERSION : Z := 1.

Inductive ChunkMeasure := EntryCount | LogicalBytes | EncodedBytes.
Inductive BoundaryInput := Key | KeyValue.
Inductive HashAlgorithm := XxHash64.
Inductive BoundaryRule :=
| HashThreshold (factor : Z)
| Weibull (shape : Z)
| RollingBuzHash (window : Z).

Record ChunkingSpec := {
  measure : ChunkMeasure;
  input : BoundaryInput;
  hash : HashAlgorithm;
  rule : BoundaryRule;
  min : Z;
  target : Z;
  max : Z;
  hash_seed : Z;
  level_salt : bool;
  hard_max_node_bytes : Z;
}.

Inductive NodeLayoutSpec :=
| PrefixCompressed
| Plain
| OffsetTable
| Custom (id parameters : bytes).

Record TreeFormat := {
  chunking : ChunkingSpec;
  node_layout : NodeLayoutSpec;
  value_encoding : Encoding;
}.

Global Instance ChunkMeasure_eq_dec : EqDecision ChunkMeasure.
Proof. solve_decision. Defined.
Global Instance BoundaryInput_eq_dec : EqDecision BoundaryInput.
Proof. solve_decision. Defined.
Global Instance HashAlgorithm_eq_dec : EqDecision HashAlgorithm.
Proof. solve_decision. Defined.
Global Instance BoundaryRule_eq_dec : EqDecision BoundaryRule.
Proof. solve_decision. Defined.
Global Instance ChunkingSpec_eq_dec : EqDecision ChunkingSpec.
Proof. solve_decision. Defined.
Global Instance NodeLayoutSpec_eq_dec : EqDecision NodeLayoutSpec.
Proof. solve_decision. Defined.
Global Instance TreeFormat_eq_dec : EqDecision TreeFormat.
Proof. solve_decision. Defined.

(** ** Defaults and built-in policies *)
Definition ChunkingSpec_default : ChunkingSpec := {|
  measure := EntryCount; input := Key; hash := XxHash64;
  rule := HashThreshold DEFAULT_CHUNKING_FACTOR;
  min := DEFAULT_MIN_CHUNK_SIZE; target := DEFAULT_CHUNKING_FACTOR;
  max := DEFAULT_MAX_CHUNK_SIZE; hash_seed := DEFAULT_HASH_SEED;
  level_salt := true; hard_max_node_bytes := 16 * 1024 * 1024 |}.

Definition TreeFormat_default : TreeFormat := {|
  chunking := ChunkingSpec_default; node_layout := PrefixCompressed;
  value_encoding := EncRaw |}.

Definition entry_count_key_value_hash : ChunkingSpec := {|
  measure := EntryCount; input := KeyValue; hash := XxHash64;
  rule := HashThreshold DEFAULT_CHUNKING_FACTOR;
  min := DEFAULT_MIN_CHUNK_SIZE; target := DEFAULT_CHUNKING_FACTOR;
  max := DEFAULT_MAX_CHUNK_SIZE; hash_seed := DEFAULT_HASH_SEED;
  level_salt := false; hard_max_node_bytes := 16 * 1024 * 1024 |}.

Definition entry_count_key_hash : ChunkingSpec := ChunkingSpec_default.

Definition logical_bytes_key_weibull : ChunkingSpec := {|
  measure := LogicalBytes; input := Key; hash := XxHash64; rule := Weibull 2;
  min := 4 * 1024; target := 16 * 1024; max := 64 * 1024;
  hash_seed := DEFAULT_HASH_SEED; level_salt := true;
  hard_max_node_bytes := 16 * 1024 * 1024 |}.

Definition logical_bytes_rolling_hash : ChunkingSpec := {|
  measure := LogicalBytes; input := Key; hash := XxHash64; rule := RollingBuzHash 64;
  min := 4 * 1024; target := 16 * 1024; max := 64 * 1024;
  hash_seed := DEFAULT_HASH_SEED; level_salt := true;
  hard_max_node_bytes := 16 * 1024 * 1024 |}.

(** ** Validation *)
Definition ChunkingSpec_validate (self : ChunkingSpec) : outcome Error unit :=
  if (min self =? 0) || (target self <? min self) || (max self <? target self) then
    Err (InvalidFormat "chunk bounds must satisfy 0 < min <= target <= max")
  else if hard_max_node_bytes self =? 0 then
    Err (InvalidFormat "hard maximum node bytes must be nonzero")
  else match rule self with
  | HashThreshold factor =>
      if factor =? 0 then Err (InvalidFormat "hash threshold factor must be nonzero") else Ok tt
  | Weibull shape =>
      if negb ((shape =? 1) || (shape =? 2))
      then Err (InvalidFormat "Weibull shape must be 1 or 2") else Ok tt
  | RollingBuzHash window =>
      if window =? 0 then Err (InvalidFormat "rolling hash window must be nonzero") else Ok tt
  end.

Definition validate (self : TreeFormat) : outcome Error unit :=
  ChunkingSpec_validate (chunking self) ≫= λ _,
  match node_layout self with
  | Custom [] _ => Err (InvalidFormat "custom node layout identifier cannot be empty")
  | _ => Ok tt
  end.

(** ** Encoding *)
Definition encode_bytes (b out : bytes) : bytes := out ++ be_bytes 8 (len b) ++ b.

Definition encode_chunking (spec : ChunkingSpec) (out : bytes) : bytes :=
  let out := out ++ [match measure spec with
    | EntryCount => Byte.x00 | LogicalBytes => Byte.x01 | EncodedBytes => Byte.x02 end] in
  let out := out ++ [match input spec with Key => Byte.x00 | KeyValue => Byte.x01 end] in
  let out := out ++ [match hash spec with XxHash64 => Byte.x00 end] in
  let out := match rule spec with
    | HashThreshold factor => (out ++ [Byte.x00]) ++ be_bytes 4 factor
    | Weibull shape => (out ++ [Byte.x01]) ++ be_bytes 4 shape
    | RollingBuzHash window => (out ++ [Byte.x02]) ++ be_bytes 2 window
    end in
  let out := out ++ be_bytes 8 (min spec) in
  let out := out ++ be_bytes 8 (target spec) in
  let out := out ++ be_bytes 8 (max spec) in
  let out := out ++ be_bytes 8 (hash_seed spec) in
  let out := out ++ [if level_salt spec then Byte.x01 else Byte.x00] in
  out ++ be_bytes 8 (hard_max_node_bytes spec).

Definition encode_layout (layout : NodeLayoutSpec) (out : bytes) : bytes :=
  match layout with
  | PrefixCompressed => out ++ [Byte.x00]
  | Plain => out ++ [Byte.x01]
  | OffsetTable => out ++ [Byte.x02]
  | Custom id parameters => encode_bytes parameters (encode_bytes id (out ++ [Byte.x03]))
  end.

Definition encode_value_encoding (encoding : Encoding) (out : bytes) : bytes :=
  match encoding with
  | EncRaw => out ++ [Byte.x00]
  | EncCbor => out ++ [Byte.x01]
  | EncJson => out ++ [Byte.x02]
  | EncCustom name => encode_bytes name (out ++ [Byte.x03])
  end.

Definition canonical_bytes (self : TreeFormat) : outcome Error bytes :=
  validate self ≫= λ _,
  let out := FORMAT_MAGIC in
  let out := out ++ [byte_of FORMAT_VERSION] in
  let out := encode_chunking (chunking self) out in
  let out := encode_layout (node_layout self) out in
  Ok (encode_value_encoding (value_encoding self) out).

Definition digest `{Hashes} (self : TreeFormat) : outcome Error Cid :=
  Cid_from_bytes <$> canonical_bytes self.

(** ** Decoding: [FormatCursor] *)
Definition read (n : Z) : reader Error bytes :=
  cursor_read (InvalidFormat "tree format offset overflow")
              (InvalidFormat "truncated tree format") n.

Definition read_expect (expected : bytes) : reader Error unit :=
  v ← read (len expected);
  if decide (v = expected) then mret tt else fail (InvalidFormat "invalid tree format magic").

(** [self.read(1)?[0]]. *)
Definition read_u8 : reader Error Z :=
  v ← read 1; match v with b :: _ => mret (bval b) | [] => lift (Panic "index out of bounds") end.
(** [try_into] of a slice of the requested length cannot fail. *)
Definition read_uint (n : Z) : reader Error Z := v ← read n; mret (be_val v).
Definition read_u16 : reader Error Z := read_uint 2.
Definition read_u32 : reader Error Z := read_uint 4.
Definition read_u64 : reader Error Z := read_uint 8.

Definition read_vec : reader Error bytes :=
  n ← read_u64;
  if n <=? usize_max then read n else fail (InvalidFormat "tree format length overflow").

Definition read_string : reader Error bytes :=
  v ← read_vec;
  if utf8_valid v then mret v else fail (InvalidFormat "tree format string is not UTF-8").

Definition decode_measure (tag : Z) : outcome Error ChunkMeasure :=
  if tag =? 0 then Ok EntryCount else if tag =? 1 then Ok LogicalBytes
  else if tag =? 2 then Ok EncodedBytes else Err (InvalidFormat "invalid chunk measure").
Definition decode_input (tag : Z) : outcome Error BoundaryInput :=
  if tag =? 0 then Ok Key else if tag =? 1 then Ok KeyValue
  else Err (InvalidFormat "invalid boundary input").
Definition decode_hash (tag : Z) : outcome Error HashAlgorithm :=
  if tag =? 0 then Ok XxHash64 else Err (InvalidFormat "invalid hash algorithm").
Definition decode_level_salt (tag : Z) : outcome Error bool :=
  if tag =? 0 then Ok false else if tag =? 1 then Ok true
  else Err (InvalidFormat "invalid level salt flag").

Definition read_rule : reader Error BoundaryRule :=
  tag ← read_u8;
  if tag =? 0 then HashThreshold <$> read_u32
  else if tag =? 1 then Weibull <$> read_u32
  else if tag =? 2 then RollingBuzHash <$> read_u16
  else fail (InvalidFormat "invalid boundary rule").

Definition read_chunking : reader Error ChunkingSpec :=
  measure_tag ← read_u8; m ← lift (decode_measure measure_tag);
  input_tag ← read_u8; i ← lift (decode_input input_tag);
  hash_tag ← read_u8; h ← lift (decode_hash hash_tag);
  r ← read_rule;
  mn ← read_u64; tg ← read_u64; mx ← read_u64; seed ← read_u64;
  salt_tag ← read_u8; salt ← lift (decode_level_salt salt_tag);
  hard ← read_u64;
  mret {| measure := m; input := i; hash := h; rule := r; min := mn; target := tg;
          max := mx; hash_seed := seed; level_salt := salt; hard_max_node_bytes := hard |}.

Definition read_layout : reader Error NodeLayoutSpec :=
  tag ← read_u8;
  if tag =? 0 then mret PrefixCompressed
  else if tag =? 1 then mret Plain
  else if tag =? 2 then mret OffsetTable
  else if tag =? 3 then (id ← read_string; parameters ← read_vec; mret (Custom id parameters))
  else fail (InvalidFormat "invalid node layout").

Definition read_value_encoding : reader Error Encoding :=
  tag ← read_u8;
  if tag =? 0 then mret EncRaw
  else if tag =? 1 then mret EncCbor
  else if tag =? 2 then mret EncJson
  else if tag =? 3 then EncCustom <$> read_string
  else fail (InvalidFormat "invalid value encoding").

(** The statements of [from_canonical_bytes] up to the [is_done] check. *)
Definition read_format : reader Error TreeFormat :=
  _ ← read_expect FORMAT_MAGIC;
  version ← read_u8;
  if negb (version =? FORMAT_VERSION)
  then fail (InvalidFormat "unsupported tree format version")
  else
    spec ← read_chunking;
    layout ← read_layout;
    encoding ← read_value_encoding;
    mret {| chunking := spec; node_layout := layout; value_encoding := encoding |}.

Definition from_canonical_bytes (b : bytes) : outcome Error TreeFormat :=
  '(format, cursor) ← read_format (cursor_new b);
  if negb (cursor_is_done cursor) then Err (InvalidFormat "trailing tree format bytes")
  else validate format ≫= λ _, Ok format.

(** ** Values of the Rust types *)
Definition u64 (z : Z) : Prop := 0 ≤ z ≤ u64_max.

Definition rule_wf (r : BoundaryRule) : Prop :=
  match r with
  | HashThreshold factor => 0 ≤ factor ≤ u32_max
  | Weibull shape => 0 ≤ shape ≤ u32_max
  | RollingBuzHash window => 0 ≤ window ≤ u16_max
  end.

Record ChunkingSpec_wf (spec : ChunkingSpec) : Prop := {
  wf_rule : rule_wf (rule spec);
  wf_min : u64 (min spec);
  wf_target : u64 (target spec);
  wf_max : u64 (max spec);
  wf_seed : u64 (hash_seed spec);
  wf_hard : u64 (hard_max_node_bytes spec);
}.

(** A vector is at most [isize::MAX] long; a [String] is UTF-8. *)
Definition vec_wf (b : bytes) : Prop := len b ≤ isize_max.
Definition string_wf (b : bytes) : Prop := vec_wf b ∧ utf8_valid b = true.

Definition layout_wf (l : NodeLayoutSpec) : Prop :=
  match l with Custom id parameters => string_wf id ∧ vec_wf parameters | _ => True end.
Definition encoding_wf (e : Encoding) : Prop :=
  match e with EncCustom name => string_wf name | _ => True end.

Record TreeFormat_wf (f : TreeFormat) : Prop := {
  wf_chunking : ChunkingSpec_wf (chunking f);
  wf_layout : layout_wf (node_layout f);
  wf_encoding : encoding_wf (value_encoding f);
}.

(** ** Lemmas *)

Lemma encode_chunking_app spec out :
  encode_chunking spec out = out ++ encode_chunking spec [].
Proof. unfold encode_chunking. destruct (rule spec); cbn [app]; by rewrite <- !app_assoc. Qed.
Lemma encode_layout_app l out : encode_layout l out = out ++ encode_layout l [].
Proof. destruct l; cbn; unfold encode_bytes; by rewrite <- ?app_assoc. Qed.
Lemma encode_value_encoding_app e out :
  encode_value_encoding e out = out ++ encode_value_encoding e [].
Proof. destruct e; cbn; unfold encode_bytes; by rewrite <- ?app_assoc. Qed.

(** The canonical form of a format, without its validation. *)
Definition format_bytes (f : TreeFormat) : bytes :=
  FORMAT_MAGIC ++ [byte_of FORMAT_VERSION] ++ encode_chunking (chunking f) [] ++
  encode_layout (node_layout f) [] ++ encode_value_encoding (value_encoding f) [].

Lemma canonical_bytes_eq f : canonical_bytes f = validate f ≫= λ _, Ok (format_bytes f).
Proof.
  unfold canonical_bytes, format_bytes. destruct (validate f); try done; cbn [mbind outcome_bind].
  rewrite encode_value_encoding_app, encode_layout_app, encode_chunking_app.
  by rewrite <- !app_assoc.
Qed.

Lemma parses_u8 b : parses read_u8 (bval b) [b].
Proof.
  unfold read_u8. change [b] with ([b] ++ []).
  eapply parses_bind; [apply (parses_read_n _ _ 1); done|]. apply parses_ret.
Qed.

Lemma parses_uint n z :
  0 ≤ z < 256 ^ Z.of_nat n → parses (read_uint (Z.of_nat n)) z (be_bytes n z).
Proof.
  intros Hz. unfold read_uint. rewrite <- (app_nil_r (be_bytes n z)).
  eapply parses_bind; [apply parses_read_n; by rewrite len_be_bytes|].
  rewrite be_val_be_bytes_small by done. apply parses_ret.
Qed.

Lemma parses_vec b : vec_wf b → parses read_vec b (be_bytes 8 (len b) ++ b).
Proof.
  intros Hb. unfold read_vec, vec_wf, isize_max in *.
  eapply parses_bind; [apply (parses_uint 8); len_lia|].
  unfold usize_max, u64_max. case_bool; [apply parses_read|lia].
Qed.

Lemma parses_string b : string_wf b → parses read_string b (be_bytes 8 (len b) ++ b).
Proof.
  intros [Hb Hu]. unfold read_string. rewrite <- (app_nil_r (_ ++ b)).
  eapply parses_bind; [by apply parses_vec|]. rewrite Hu. apply parses_ret.
Qed.

(** One step of a parser whose input is a right-nested concatenation. *)
Ltac parse_u64 := apply (parses_uint 8); unfold u64, u64_max in *; cbn; lia.
Ltac parse_next :=
  first
  [ apply parses_ret
  | eapply parses_bind; [first [apply parses_u8 | parse_u64]|]
  | eapply parses_bind_nil; [by apply parses_lift|] ].

Lemma parses_rule r : rule_wf r →
  parses read_rule r match r with
    | HashThreshold factor => [Byte.x00] ++ be_bytes 4 factor
    | Weibull shape => [Byte.x01] ++ be_bytes 4 shape
    | RollingBuzHash window => [Byte.x02] ++ be_bytes 2 window
    end.
Proof.
  unfold rule_wf, read_rule, u32_max, u16_max; intros H.
  destruct r; (eapply parses_bind; [apply parses_u8|]); cbn; apply parses_fmap.
  1-2: apply (parses_uint 4); cbn; lia.
  apply (parses_uint 2); cbn; lia.
Qed.

Lemma parses_chunking spec :
  ChunkingSpec_wf spec → parses read_chunking spec (encode_chunking spec []).
Proof.
  intros [Hr Hmin Htarget Hmax Hseed Hhard].
  assert (encode_chunking spec [] =
    [match measure spec with
     | EntryCount => Byte.x00 | LogicalBytes => Byte.x01 | EncodedBytes => Byte.x02 end] ++
    [match input spec with Key => Byte.x00 | KeyValue => Byte.x01 end] ++
    [Byte.x00] ++
    match rule spec with
    | HashThreshold factor => [Byte.x00] ++ be_bytes 4 factor
    | Weibull shape => [Byte.x01] ++ be_bytes 4 shape
    | RollingBuzHash window => [Byte.x02] ++ be_bytes 2 window
    end ++ be_bytes 8 (min spec) ++ be_bytes 8 (target spec) ++ be_bytes 8 (max spec) ++
    be_bytes 8 (hash_seed spec) ++ [if level_salt spec then Byte.x01 else Byte.x00] ++
    be_bytes 8 (hard_max_node_bytes spec) ++ []) as ->.
  { unfold encode_chunking. rewrite app_nil_r.
    destruct spec as [m i [] r mn tg mx sd lv hd]; cbn [measure input hash rule].
    destruct r; cbn [app]; by rewrite <- ?app_assoc. }
  unfold read_chunking.
  eapply parses_bind; [apply parses_u8|]. eapply parses_bind_nil; [apply (parses_lift _ (measure spec)); by destruct (measure spec)|].
  eapply parses_bind; [apply parses_u8|]. eapply parses_bind_nil; [apply (parses_lift _ (input spec)); by destruct (input spec)|].
  parse_next. parse_next. eapply parses_bind; [by apply parses_rule|].
  do 4 parse_next.
  eapply parses_bind; [apply parses_u8|]. eapply parses_bind_nil; [apply (parses_lift _ (level_salt spec)); by destruct (level_salt spec)|].
  parse_next. destruct spec as [m i [] r mn tg mx sd lv hd]. apply parses_ret.
Qed.

Lemma parses_layout l : layout_wf l → parses read_layout l (encode_layout l []).
Proof.
  unfold read_layout, encode_layout, layout_wf.
  destruct l as [| | |id ps]; cbn [app]; intros H.
  1-3: match goal with |- parses _ _ [?b] => change [b] with ([b] ++ []) end; parse_next; apply parses_ret.
  destruct H as [Hid Hps]. unfold encode_bytes. rewrite <- app_assoc.
  eapply parses_bind; [apply parses_u8|]. cbn.
  eapply parses_bind; [by apply parses_string|].
  rewrite <- (app_nil_r (_ ++ ps)). eapply parses_bind; [by apply parses_vec|]. apply parses_ret.
Qed.

Lemma parses_value_encoding e :
  encoding_wf e → parses read_value_encoding e (encode_value_encoding e []).
Proof.
  unfold read_value_encoding, encode_value_encoding, encoding_wf.
  destruct e as [| | |name]; cbn [app]; intros H.
  1-3: match goal with |- parses _ _ [?b] => change [b] with ([b] ++ []) end; parse_next; apply parses_ret.
  unfold encode_bytes. eapply parses_bind; [apply parses_u8|]. cbn. apply parses_fmap.
  by apply parses_string.
Qed.

Lemma parses_format f : TreeFormat_wf f → parses read_format f (format_bytes f).
Proof.
  intros [Hc Hl He]. unfold read_format, format_bytes.
  eapply parses_bind.
  { change FORMAT_MAGIC with (FORMAT_MAGIC ++ []) at 2.
    eapply parses_bind; [apply parses_read|]. rewrite decide_True by done. apply parses_ret. }
  eapply parses_bind; [apply parses_u8|].
  change (negb _) with false; cbn iota.
  eapply parses_bind; [by apply parses_chunking|].
  eapply parses_bind; [by apply parses_layout|].
  rewrite <- (app_nil_r (encode_value_encoding _ _)).
  eapply parses_bind; [by apply parses_value_encoding|].
  destruct f. apply parses_ret.
Qed.

(** What the decoder accepts. *)
Lemma emits_u8 : emits read_u8 (λ a l, ∃ b, a = bval b ∧ l = [b]).
Proof.
  unfold read_u8. eapply emits_bind; [apply emits_read; lia|].
  intros v l [-> Hl]. destruct l as [|b [|]]; [done| |len_lia].
  apply emits_ret. by exists b.
Qed.

Lemma emits_uint n : emits (read_uint (Z.of_nat n))
  (λ a l, l = be_bytes n a ∧ 0 ≤ a < 256 ^ Z.of_nat n).
Proof.
  unfold read_uint. eapply emits_bind; [apply emits_read; lia|].
  intros v l [-> Hl]. apply emits_ret. rewrite app_nil_r.
  assert (length l = n) as <- by (unfold len in Hl; lia).
  split; [by rewrite be_bytes_be_val|]. apply be_val_range.
Qed.

Lemma emits_vec : emits read_vec (λ a l, l = be_bytes 8 (len a) ++ a).
Proof.
  unfold read_vec. eapply emits_bind; [apply (emits_uint 8)|].
  intros n l [-> Hn]. case_bool; [|apply emits_fail].
  eapply emits_mono; [apply emits_read; lia|]. by intros a l [-> <-].
Qed.

Lemma emits_string : emits read_string (λ a l, l = be_bytes 8 (len a) ++ a ∧ utf8_valid a = true).
Proof.
  unfold read_string. eapply emits_bind; [apply emits_vec|].
  intros v l ->. destruct (utf8_valid v) eqn:Hu; [|apply emits_fail].
  apply emits_ret. by rewrite app_nil_r.
Qed.

(** A tag byte decodes to at most one variant. *)
Ltac decode_tag :=
  unfold decode_measure, decode_input, decode_hash, decode_level_salt; intros H;
  repeat match goal with
  | H : context [if (bval ?b =? ?n) then _ else _] |- _ =>
      let Hb := fresh "Hb" in destruct (Z.eqb_spec (bval b) n) as [Hb|Hb]
  end; try discriminate H;
  match type of H with Ok ?x = Ok ?y => assert (x = y) as <- by congruence end; by apply bval_inj.

Lemma decode_measure_inv b m : decode_measure (bval b) = Ok m →
  b = match m with EntryCount => Byte.x00 | LogicalBytes => Byte.x01 | EncodedBytes => Byte.x02 end.
Proof. decode_tag. Qed.
Lemma decode_input_inv b i : decode_input (bval b) = Ok i →
  b = match i with Key => Byte.x00 | KeyValue => Byte.x01 end.
Proof. decode_tag. Qed.
Lemma decode_hash_inv b h : decode_hash (bval b) = Ok h → b = match h with XxHash64 => Byte.x00 end.
Proof. decode_tag. Qed.
Lemma decode_level_salt_inv b s :
  decode_level_salt (bval b) = Ok s → b = if s then Byte.x01 else Byte.x00.
Proof. decode_tag. Qed.

(** Reading a tag and decoding it. *)
Lemma emits_tag {A B} (decode : Z → outcome Error A) (enc : A → byte)
    (k : A → reader Error B) (Q : B → bytes → Prop) :
  (∀ b a, decode (bval b) = Ok a → b = enc a) →
  (∀ a, emits (k a) (λ x m, Q x ([enc a] ++ m))) →
  emits (tag ← read_u8; a ← lift (decode tag); k a) Q.
Proof.
  intros Hdec Hk. eapply emits_bind; [apply emits_u8|]. intros t l (b & -> & ->).
  eapply emits_bind; [apply (emits_lift _ (λ a l, decode (bval b) = Ok a ∧ l = [])); by intros a|].
  intros a l [Ha ->]. apply Hdec in Ha as ->. apply Hk.
Qed.

Lemma emits_rule : emits read_rule (λ r l, rule_wf r ∧
  l = match r with
    | HashThreshold factor => [Byte.x00] ++ be_bytes 4 factor
    | Weibull shape => [Byte.x01] ++ be_bytes 4 shape
    | RollingBuzHash window => [Byte.x02] ++ be_bytes 2 window
    end).
Proof.
  assert (∀ b tag, bval b = bval tag → b = tag) as Htag by (intros; by apply bval_inj).
  unfold read_rule, rule_wf, u32_max, u16_max.
  eapply emits_bind; [apply emits_u8|]. intros t l (b & -> & ->).
  destruct (Z.eqb_spec (bval b) 0) as [H|_]; [apply (Htag _ Byte.x00) in H as ->|].
  { apply emits_fmap. eapply emits_mono; [apply (emits_uint 4)|]. cbn. intros a l [-> ?]. split; [lia|done]. }
  destruct (Z.eqb_spec (bval b) 1) as [H|_]; [apply (Htag _ Byte.x01) in H as ->|].
  { apply emits_fmap. eapply emits_mono; [apply (emits_uint 4)|]. cbn. intros a l [-> ?]. split; [lia|done]. }
  destruct (Z.eqb_spec (bval b) 2) as [H|_]; [apply (Htag _ Byte.x02) in H as ->|apply emits_fail].
  apply emits_fmap. eapply emits_mono; [apply (emits_uint 2)|]. cbn. intros a l [-> ?]. split; [lia|done].
Qed.

Lemma emits_u64 : emits read_u64 (λ a l, l = be_bytes 8 a ∧ u64 a).
Proof.
  eapply emits_mono; [apply (emits_uint 8)|]. unfold u64, u64_max. cbn. intros a l [-> ?]. split; [done|lia].
Qed.

Lemma emits_chunking : emits read_chunking
  (λ spec l, l = encode_chunking spec [] ∧ ChunkingSpec_wf spec).
Proof.
  unfold read_chunking.
  eapply emits_tag; [apply decode_measure_inv|]. intros m.
  eapply emits_tag; [apply decode_input_inv|]. intros i.
  eapply emits_tag; [apply decode_hash_inv|]. intros h.
  eapply emits_bind; [apply emits_rule|]. intros r l [Hr ->].
  do 4 (eapply emits_bind; [apply emits_u64|]; intros ? ? [-> ?]).
  eapply emits_tag; [apply decode_level_salt_inv|]. intros salt.
  eapply emits_bind; [apply emits_u64|]; intros ? ? [-> ?].
  apply emits_ret. split; [|by constructor].
  unfold encode_chunking; cbn. destruct r; cbn; by rewrite <- ?app_assoc, ?app_nil_r.
Qed.

Lemma emits_layout : emits read_layout (λ x l, l = encode_layout x [] ∧
  match x with Custom id _ => utf8_valid id = true | _ => True end).
Proof.
  unfold read_layout. eapply emits_bind; [apply emits_u8|]. intros t l (b & -> & ->).
  destruct (Z.eqb_spec (bval b) 0) as [H|_]; [apply (bval_inj _ Byte.x00) in H as ->; by apply emits_ret|].
  destruct (Z.eqb_spec (bval b) 1) as [H|_]; [apply (bval_inj _ Byte.x01) in H as ->; by apply emits_ret|].
  destruct (Z.eqb_spec (bval b) 2) as [H|_]; [apply (bval_inj _ Byte.x02) in H as ->; by apply emits_ret|].
  destruct (Z.eqb_spec (bval b) 3) as [H|_]; [apply (bval_inj _ Byte.x03) in H as ->|apply emits_fail].
  eapply emits_bind; [apply emits_string|]. intros id l [-> Hid].
  eapply emits_bind; [apply emits_vec|]. intros ps l ->.
  apply emits_ret. split; [|done]. unfold encode_layout, encode_bytes.
  by rewrite <- !app_assoc, app_nil_r.
Qed.

Lemma emits_value_encoding : emits read_value_encoding (λ x l, l = encode_value_encoding x [] ∧
  match x with EncCustom name => utf8_valid name = true | _ => True end).
Proof.
  unfold read_value_encoding. eapply emits_bind; [apply emits_u8|]. intros t l (b & -> & ->).
  destruct (Z.eqb_spec (bval b) 0) as [H|_]; [apply (bval_inj _ Byte.x00) in H as ->; by apply emits_ret|].
  destruct (Z.eqb_spec (bval b) 1) as [H|_]; [apply (bval_inj _ Byte.x01) in H as ->; by apply emits_ret|].
  destruct (Z.eqb_spec (bval b) 2) as [H|_]; [apply (bval_inj _ Byte.x02) in H as ->; by apply emits_ret|].
  destruct (Z.eqb_spec (bval b) 3) as [H|_]; [apply (bval_inj _ Byte.x03) in H as ->|apply emits_fail].
  apply emits_fmap. eapply emits_mono; [apply emits_string|]. cbn. intros name l [-> Hn].
  split; [|done]. unfold encode_bytes. by rewrite app_nil_r || done.
Qed.

Lemma emits_expect expected : emits (read_expect expected) (λ _ l, l = expected).
Proof.
  unfold read_expect. eapply emits_bind; [apply emits_read; len_lia|].
  intros v l [-> _]. destruct (decide (l = expected)) as [->|]; [|apply emits_fail].
  apply emits_ret. apply app_nil_r.
Qed.

Lemma emits_format : emits read_format (λ f l, l = format_bytes f ∧ (vec_wf l → TreeFormat_wf f)).
Proof.
  unfold read_format. eapply emits_bind; [apply emits_expect|]. intros _ l ->.
  eapply emits_bind; [apply emits_u8|]. intros t l (b & -> & ->).
  destruct (Z.eqb_spec (bval b) FORMAT_VERSION) as [H|_]; cbn [negb]; [|apply emits_fail].
  apply (bval_inj _ (byte_of FORMAT_VERSION)) in H as ->.
  eapply emits_bind; [apply emits_chunking|]. intros spec l [-> Hspec].
  eapply emits_bind; [apply emits_layout|]. intros layout l [-> Hl].
  eapply emits_bind; [apply emits_value_encoding|]. intros encoding l [-> He].
  apply emits_ret. split; [unfold format_bytes; by rewrite app_nil_r|].
  unfold vec_wf. intros Hlen. constructor; cbn [chunking node_layout value_encoding]; [done| |].
  - destruct layout as [| | |id ps]; try done. unfold encode_layout, encode_bytes in Hlen.
    repeat split; try done; unfold vec_wf; len_lia.
  - destruct encoding as [| | |name]; try done. unfold encode_value_encoding, encode_bytes in Hlen.
    repeat split; try done; unfold vec_wf; len_lia.
Qed.

(** Decoding a canonical form gives the format back. *)
Lemma decode_canonical f :
  vec_wf (format_bytes f) → TreeFormat_wf f → validate f = Ok tt →
  from_canonical_bytes (format_bytes f) = Ok f.
Proof.
  intros Hb Hwf Hv. unfold from_canonical_bytes.
  rewrite (parses_run _ _ _ (parses_format f Hwf) Hb). cbn.
  unfold cursor_is_done, advance, cursor_new; cbn. rewrite Z.eqb_refl; cbn. by rewrite Hv.
Qed.

(** C39. The canonical form of a tree format identifies it: decoding accepts a byte
    string and returns [f] iff [f] is a value of the Rust type whose canonical
    encoding is exactly that string.  So encoding then decoding is the identity,
    no two byte strings decode to one format, and only validated formats decode. *)
Theorem canonical_bytes_iff b f :
  vec_wf b → from_canonical_bytes b = Ok f ↔ canonical_bytes f = Ok b ∧ TreeFormat_wf f.
Proof.
  intros Hb. unfold from_canonical_bytes. rewrite canonical_bytes_eq. split.
  - intros H. inv_ok. destruct (cursor_is_done c) eqn:Hdone; cbn [negb] in H; [|done]. inv_ok.
    destruct (emits_run _ _ _ _ _ emits_format Hb E Hdone) as [-> Hwf].
    split; [|by apply Hwf]. by rewrite E0.
  - intros [H Hwf]. inv_ok. destruct v. by apply decode_canonical.
Qed.

(** [ChunkingSpec::validate] accepts exactly the usable policies. *)
Lemma ChunkingSpec_validate_Ok spec :
  ChunkingSpec_wf spec →
  ChunkingSpec_validate spec = Ok tt ↔
  0 < min spec ≤ target spec ∧ target spec ≤ max spec ∧ 0 < hard_max_node_bytes spec ∧
  match rule spec with
  | HashThreshold factor => 0 < factor
  | Weibull shape => shape = 1 ∨ shape = 2
  | RollingBuzHash window => 0 < window
  end.
Proof.
  intros [Hr Hmin _ _ _ Hhard]. unfold ChunkingSpec_validate, u64, rule_wf in *.
  destruct (Z.eqb_spec (min spec) 0), (Z.ltb_spec (target spec) (min spec)),
    (Z.ltb_spec (max spec) (target spec)); cbn [orb]; try (split; [done|lia]).
  case_bool; [split; [done|lia]|].
  destruct (rule spec) as [f|sh|w]; [case_bool; split; (done || lia)| |case_bool; split; (done || lia)].
  destruct (Z.eqb_spec sh 1), (Z.eqb_spec sh 2); cbn; split; (done || lia).
Qed.

Lemma ChunkingSpec_default_wf : ChunkingSpec_wf ChunkingSpec_default.
Proof. constructor; by vm_compute. Qed.

Lemma canonical_bytes_iff_witness :
  from_canonical_bytes (format_bytes TreeFormat_default) = Ok TreeFormat_default.
Proof.
  apply canonical_bytes_iff.
  - unfold vec_wf. by vm_compute.
  - split; [reflexivity|]. constructor; [apply ChunkingSpec_default_wf|done..].
Defined.

End Format.

(** ** Tree configuration (config.rs) *)
Module Config.
Import Format.

Record RuntimeConfig := {
  node_cache_max_nodes : option Z;
  node_cache_max_bytes : option Z;
  read_parallelism : Z;
}.

Record Config := { format : TreeFormat; runtime : RuntimeConfig }.

Definition DEFAULT_READ_PARALLELISM : Z := 16.
Definition DEFAULT_NODE_CACHE_MAX_BYTES : Z := 256 * 1024 * 1024.

Definition RuntimeConfig_default : RuntimeConfig := {|
  node_cache_max_nodes := None;
  node_cache_max_bytes := Some DEFAULT_NODE_CACHE_MAX_BYTES;
  read_parallelism := DEFAULT_READ_PARALLELISM |}.

Definition Config_default : Config :=
  {| format := TreeFormat_default; runtime := RuntimeConfig_default |}.

Definition with_chunking (c : Config) (f : ChunkingSpec → ChunkingSpec) : Config := {|
  format := {| chunking := f (chunking (format c)); node_layout := node_layout (format c);
               value_encoding := value_encoding (format c) |};
  runtime := runtime c |}.

Definition with_bounds (mn tg mx : Z) (spec : ChunkingSpec) : ChunkingSpec := {|
  measure := measure spec; input := input spec; hash := hash spec; rule := rule spec;
  min := mn; target := tg; max := mx; hash_seed := hash_seed spec;
  level_salt := level_salt spec; hard_max_node_bytes := hard_max_node_bytes spec |}.

Definition min_chunk_size (size : Z) (self : Config) : Config :=
  with_chunking self (λ spec,
    with_bounds size (Z.max (target spec) size) (Z.max (max spec) size) spec).

Definition max_chunk_size (size : Z) (self : Config) : Config :=
  with_chunking self (λ spec,
    with_bounds (Z.min (min spec) size) (Z.min (target spec) size) size spec).

Definition chunking_factor (factor : Z) (self : Config) : Config :=
  with_chunking self (λ spec, {|
    measure := measure spec; input := input spec; hash := hash spec;
    rule := HashThreshold factor; min := min spec; target := target spec; max := max spec;
    hash_seed := hash_seed spec; level_salt := level_salt spec;
    hard_max_node_bytes := hard_max_node_bytes spec |}).

Definition set_hash_seed (seed : Z) (self : Config) : Config :=
  with_chunking self (λ spec, {|
    measure := measure spec; input := input spec; hash := hash spec; rule := rule spec;
    min := min spec; target := target spec; max := max spec; hash_seed := seed;
    level_salt := level_salt spec; hard_max_node_bytes := hard_max_node_bytes spec |}).

Definition set_encoding (e : Encoding) (self : Config) : Config := {|
  format := {| chunking := chunking (format self); node_layout := node_layout (format self);
               value_encoding := e |};
  runtime := runtime self |}.

Definition set_chunking (spec : ChunkingSpec) (self : Config) : Config :=
  with_chunking self (λ _, spec).

Definition set_node_layout (layout : NodeLayoutSpec) (self : Config) : Config := {|
  format := {| chunking := chunking (format self); node_layout := layout;
               value_encoding := value_encoding (format self) |};
  runtime := runtime self |}.

Definition set_read_parallelism (parallelism : Z) (self : Config) : Config := {|
  format := format self;
  runtime := {| node_cache_max_nodes := node_cache_max_nodes (runtime self);
                node_cache_max_bytes := node_cache_max_bytes (runtime self);
                read_parallelism := Z.max parallelism 1 |} |}.

Definition set_format (f : TreeFormat) (self : Config) : Config :=
  {| format := f; runtime := runtime self |}.

Definition set_node_cache_max_nodes (max_nodes : Z) (self : Config) : Config := {|
  format := format self;
  runtime := {| node_cache_max_nodes := Some max_nodes;
                node_cache_max_bytes := node_cache_max_bytes (runtime self);
                read_parallelism := read_parallelism (runtime self) |} |}.

Definition set_node_cache_max_bytes (max_bytes : Z) (self : Config) : Config := {|
  format := format self;
  runtime := {| node_cache_max_nodes := node_cache_max_nodes (runtime self);
                node_cache_max_bytes := Some max_bytes;
                read_parallelism := read_parallelism (runtime self) |} |}.

Definition unbounded_node_cache (self : Config) : Config := {|
  format := format self;
  runtime := {| node_cache_max_nodes := None; node_cache_max_bytes := None;
                read_parallelism := read_parallelism (runtime self) |} |}.

Definition get_chunking_factor (self : Config) : Z :=
  match rule (chunking (format self)) with
  | HashThreshold factor => factor
  | _ => Z.min (target (chunking (format self))) u32_max
  end.

(** The calls of a builder chain that set chunking parameters. *)
Inductive builder_call :=
| CallMin (size : Z)
| CallMax (size : Z)
| CallFactor (factor : Z)
| CallSeed (seed : Z)
| CallParallelism (n : Z).

Definition run_call (c : builder_call) (self : Config) : Config :=
  match c with
  | CallMin size => min_chunk_size size self
  | CallMax size => max_chunk_size size self
  | CallFactor factor => chunking_factor factor self
  | CallSeed seed => set_hash_seed seed self
  | CallParallelism n => set_read_parallelism n self
  end.

Definition call_ok (c : builder_call) : Prop :=
  match c with
  | CallMin size | CallMax size => 0 < size ≤ usize_max
  | CallFactor factor => 0 < factor ≤ u32_max
  | CallSeed seed => 0 ≤ seed ≤ u64_max
  | CallParallelism n => 0 ≤ n ≤ usize_max
  end.

Lemma run_call_valid c self :
  call_ok c → ChunkingSpec_wf (chunking (format self)) →
  validate (format self) = Ok tt →
  ChunkingSpec_wf (chunking (format (run_call c self))) ∧
  validate (format (run_call c self)) = Ok tt.
Proof.
  intros Hc Hwf Hv. unfold validate in *. inv_ok. destruct v.
  pose proof (proj1 (ChunkingSpec_validate_Ok _ Hwf) E) as Hspec.
  destruct Hwf as [Hr Hmin Htg Hmx Hsd Hhd].
  assert (ChunkingSpec_wf (chunking (format (run_call c self)))) as Hwf'.
  { destruct c; constructor; cbn in *; unfold u64, usize_max, rule_wf in *; (done || lia). }
  split; [exact Hwf'|].
  pose proof (proj2 (ChunkingSpec_validate_Ok _ Hwf')) as ->; [by destruct c|].
  destruct c; cbn in *; try lia; repeat split; try lia; try (by destruct Hspec as (?&?&?&?)).
Qed.

(** Whatever order a builder chain sets its minimum, maximum, factor and seed
    in, the configuration stays one that [validate] accepts, as long as each
    size and factor is positive: each setter repairs the other two bounds. *)
Theorem builder_chain_valid calls self :
  Forall call_ok calls → ChunkingSpec_wf (chunking (format self)) →
  validate (format self) = Ok tt →
  validate (format (foldl (λ c call, run_call call c) self calls)) = Ok tt.
Proof.
  intros Hcalls. revert self; induction Hcalls as [|c calls Hc _ IH]; intros self Hwf Hv; [done|].
  cbn. destruct (run_call_valid c self Hc Hwf Hv). by apply IH.
Qed.

Lemma builder_chain_valid_witness :
  validate (format (foldl (λ c call, run_call call c) Config_default
    [CallMax 1; CallMin 7; CallFactor 3])) = Ok tt.
Proof.
  apply builder_chain_valid.
  - repeat constructor; cbn; unfold usize_max, u64_max, u32_max; lia.
  - apply ChunkingSpec_default_wf.
  - reflexivity.
Defined.

End Config.
