(* ===== verification/Boundary.v ===== *)
(** * Content-defined chunk boundaries (src/prolly/boundary.rs)

    The boundary detector: soft bounds on the chunk measure, the hash
    threshold, the fixed-point Weibull and exponential tests, and the rolling
    BuzHash with its ring buffer and byte-hash cache.  Arithmetic that Rust
    leaves unchecked is modelled as a panic on overflow. *)

From Stdlib Require Import ZArith Lia Strings.Byte.
From stdpp Require Import base tactics numbers list strings option.
From S2P Require Import Prelude Cursor Types Format.
Import Format.

Local Open Scope Z_scope.

Module Boundary.

Definition LEVEL_SALT : Z := 0x9e3779b97f4a7c15.

(** [u64::rotate_left]. *)
Definition rotl64 (x n : Z) : Z :=
  Z.lor (wrap 64 (Z.shiftl x (n mod 64))) (Z.shiftr x (64 - n mod 64)).

(** ** Fixed-point arithmetic *)
Definition Q62 : Z := 2 ^ 62.

Definition mul_u128 (a b : Z) : outcome Error Z :=
  if a * b <=? u128_max then Ok (a * b) else Panic "attempt to multiply with overflow".

(** [debug_assert!]. *)
Definition debug_assert (b : bool) : outcome Error () :=
  if b then Ok tt else Panic "assertion failed".

(** One iteration of the long division; [<<] drops the bits shifted out. *)
Definition fractional_step (denominator : Z) (s : Z * Z) : Z * Z :=
  let '(numerator, quotient) := s in
  let quotient := wrap 128 (Z.shiftl quotient 1) in
  let complement := denominator - numerator in
  if complement <=? numerator then (numerator - complement, Z.lor quotient 1)
  else (wrap 128 (Z.shiftl numerator 1), quotient).

Definition fractional_ratio_q62 (numerator denominator : Z) : outcome Error Z :=
  debug_assert (numerator <? denominator) ≫= λ _,
  Ok (Nat.iter 62 (fractional_step denominator) (numerator, 0)).2.

Definition scaled_ratio_q62 (numerator denominator : Z) : outcome Error Z :=
  debug_assert (0 <? denominator) ≫= λ _,
  let whole := numerator / denominator in
  let remainder := numerator mod denominator in
  fraction ← (if remainder <=? u128_max / Q62
              then (λ p, p / denominator) <$> mul_u128 remainder Q62
              else fractional_ratio_q62 remainder denominator);
  Ok (saturating_add u128_max (saturating_mul u128_max whole Q62) fraction).

(** The body of the series loop for one divisor. *)
Definition exp_series_step (exponent : Z) (s : outcome Error (Z * Z)) (divisor : Z)
    : outcome Error (Z * Z) :=
  '(survival, term) ← s;
  product ← mul_u128 term exponent;
  let term := product / Q62 / divisor in
  Ok (if divisor mod 2 =? 0 then saturating_add u128_max survival term
      else saturating_sub survival term, term).

Definition exp_neg_series_q62 (exponent : Z) : outcome Error Z :=
  debug_assert (exponent <=? Q62 / 16) ≫= λ _,
  fst <$> foldl (exp_series_step exponent) (Ok (Q62, Q62)) [1; 2; 3; 4; 5; 6; 7; 8].

(** [while exponent > Q62 / 16]; every pass halves a 128-bit number. *)
Fixpoint halve_exponent (fuel : nat) (exponent squarings : Z) : Z * Z :=
  match fuel with
  | O => (exponent, squarings)
  | S fuel' =>
      if Q62 / 16 <? exponent
      then halve_exponent fuel' ((exponent + 1) / 2) (squarings + 1)
      else (exponent, squarings)
  end.
Definition halve_fuel : nat := 128.

Definition deterministic_exponential_threshold (delta scale : Z) : outcome Error Z :=
  if delta =? 0 then Ok 0
  else if (scale =? 0) || (64 <=? delta / scale) then Ok u64_max
  else
    exponent ← scaled_ratio_q62 delta scale;
    let '(exponent, squarings) := halve_exponent halve_fuel exponent 0 in
    survival ← exp_neg_series_q62 exponent;
    let survival := Nat.iter (Z.to_nat squarings)
      (λ s, saturating_mul u128_max s s / Q62) survival in
    product ← mul_u128 (saturating_sub Q62 survival) u64_max;
    Ok (wrap 64 (product / Q62)).

Definition weibull_boundary (h previous current tgt shape : Z) : outcome Error bool :=
  let test delta scale := (λ t, h <=? t) <$> deterministic_exponential_threshold delta scale in
  if shape =? 1 then test (saturating_sub current previous) (Z.max tgt 1)
  else if shape =? 2 then
    if previous ^ 2 <=? current ^ 2
    then test (current ^ 2 - previous ^ 2) (Z.max tgt 1 ^ 2)
    else Panic "attempt to subtract with overflow"
  else Ok false.

(** ** The rolling window *)
Record RollingWindow := { rw_bytes : bytes; rw_capacity : Z; rw_next : Z }.

Definition RollingWindow_new (capacity : Z) : RollingWindow :=
  {| rw_bytes := []; rw_capacity := capacity; rw_next := 0 |}.

(** [std::mem::replace(&mut self.bytes[self.next], byte)] panics out of range. *)
Definition RollingWindow_push (self : RollingWindow) (b : byte)
    : outcome Error (option byte * RollingWindow) :=
  if len (rw_bytes self) <? rw_capacity self then
    Ok (None, {| rw_bytes := rw_bytes self ++ [b]; rw_capacity := rw_capacity self;
                 rw_next := rw_next self |})
  else
    old ← expect "index out of bounds" (rw_bytes self !! Z.to_nat (rw_next self));
    let next := rw_next self + 1 in
    Ok (Some old, {| rw_bytes := <[Z.to_nat (rw_next self) := b]> (rw_bytes self);
                     rw_capacity := rw_capacity self;
                     rw_next := if next =? rw_capacity self then 0 else next |}).

Definition RollingWindow_clear (self : RollingWindow) : RollingWindow :=
  {| rw_bytes := []; rw_capacity := rw_capacity self; rw_next := 0 |}.

Section hashes.
Context `{Hashes}.

(** ** Hashing *)
Definition byte_hash (seed : Z) (b : byte) : Z :=
  xxh64 (Z.lxor seed 0xa0761d6478bd642f) [b].

Definition hash_entry (seed : Z) (inp : BoundaryInput) (key value : bytes) : Z :=
  xxh64 seed (be_bytes 8 (len key) ++ key ++
    match inp with KeyValue => be_bytes 8 (len value) ++ value | Key => [] end).

(** [(hash as u32) <= u32::MAX / factor]. *)
Definition hash_hit (h factor : Z) : outcome Error bool :=
  if factor =? 0 then Panic "attempt to divide by zero"
  else Ok (wrap 32 h <=? u32_max / factor).

Definition level_seed (spec : ChunkingSpec) (level : Z) : Z :=
  if level_salt spec then Z.lxor (hash_seed spec) (wrap 64 (level * LEVEL_SALT))
  else hash_seed spec.

(** ** The byte-hash cache *)
Record ByteHashCache := { bc_seed : Z; bc_values : list Z; bc_initialized : list Z }.

Definition ByteHashCache_new (seed : Z) : ByteHashCache :=
  {| bc_seed := seed; bc_values := replicate 256 0; bc_initialized := replicate 4 0 |}.

Definition ByteHashCache_get (self : ByteHashCache) (b : byte)
    : outcome Error (Z * ByteHashCache) :=
  let index := Z.to_nat (bval b) in
  let word := Z.to_nat (bval b / 64) in
  let mask := Z.shiftl 1 (bval b mod 64) in
  w ← expect "index out of bounds" (bc_initialized self !! word);
  let self' :=
    if Z.land w mask =? 0 then
      {| bc_seed := bc_seed self;
         bc_values := <[index := byte_hash (bc_seed self) b]> (bc_values self);
         bc_initialized := <[word := Z.lor w mask]> (bc_initialized self) |}
    else self in
  v ← expect "index out of bounds" (bc_values self' !! index);
  Ok (v, self').

(** ** The detector *)
Record BoundaryDetector := {
  spec : ChunkingSpec;
  seed : Z;
  entries : Z;
  logical_bytes : Z;
  encoded_bytes : Z;
  previous_measure : Z;
  rolling_window : RollingWindow;
  byte_hash_cache : option ByteHashCache;
  rolling_hash : Z;
}.

(** Internal levels never cut below two entries. *)
Definition raise_min (sp : ChunkingSpec) (level : Z) : ChunkingSpec :=
  if (0 <? level) && (min sp <? 2)
  then Config.with_bounds 2 (Z.max (target sp) 2) (Z.max (max sp) 2) sp else sp.

Definition BoundaryDetector_new (sp : ChunkingSpec) (level : Z)
    : outcome Error BoundaryDetector :=
  ChunkingSpec_validate sp ≫= λ _,
  let sp := raise_min sp level in
  let sd := level_seed sp level in
  Ok {| spec := sp; seed := sd; entries := 0; logical_bytes := 0; encoded_bytes := 0;
        previous_measure := 0;
        rolling_window :=
          RollingWindow_new match rule sp with RollingBuzHash window => window | _ => 0 end;
        byte_hash_cache :=
          match rule sp with RollingBuzHash _ => Some (ByteHashCache_new sd) | _ => None end;
        rolling_hash := 0 |}.

Definition measure_of (self : BoundaryDetector) : Z :=
  match measure (spec self) with
  | EntryCount => entries self
  | LogicalBytes => logical_bytes self
  | EncodedBytes => encoded_bytes self
  end.

Definition with_rolling (self : BoundaryDetector) (w : RollingWindow)
    (cache : option ByteHashCache) (h : Z) : BoundaryDetector :=
  {| spec := spec self; seed := seed self; entries := entries self;
     logical_bytes := logical_bytes self; encoded_bytes := encoded_bytes self;
     previous_measure := previous_measure self;
     rolling_window := w; byte_hash_cache := cache; rolling_hash := h |}.

Definition roll_byte (self : BoundaryDetector) (b : byte) : outcome Error BoundaryDetector :=
  cache ← expect "rolling detector has byte hash cache" (byte_hash_cache self);
  '(incoming, cache) ← ByteHashCache_get cache b;
  let h := Z.lxor (rotl64 (rolling_hash self) 1) incoming in
  '(old, w) ← RollingWindow_push (rolling_window self) b;
  match old with
  | Some old =>
      '(outgoing, cache) ← ByteHashCache_get cache old;
      Ok (with_rolling self w (Some cache)
            (Z.lxor h (rotl64 outgoing (rw_capacity w mod 64))))
  | None => Ok (with_rolling self w (Some cache) h)
  end.

Fixpoint roll_bytes (self : BoundaryDetector) (bs : bytes) : outcome Error BoundaryDetector :=
  match bs with
  | [] => Ok self
  | b :: bs' => self' ← roll_byte self b; roll_bytes self' bs'
  end.

Definition rolling_feed_len (self : BoundaryDetector) (n : Z) : outcome Error BoundaryDetector :=
  roll_bytes self (be_bytes 8 n).

Definition observe_rolling (self : BoundaryDetector) (key value : bytes)
    : outcome Error BoundaryDetector :=
  match rule (spec self) with
  | RollingBuzHash _ =>
      self ← rolling_feed_len self (len key);
      self ← roll_bytes self key;
      match input (spec self) with
      | KeyValue => self ← rolling_feed_len self (len value); roll_bytes self value
      | Key => Ok self
      end
  | _ => Ok self
  end.

Definition reset (self : BoundaryDetector) : BoundaryDetector :=
  {| spec := spec self; seed := seed self; entries := 0; logical_bytes := 0;
     encoded_bytes := 0; previous_measure := 0;
     rolling_window := RollingWindow_clear (rolling_window self);
     byte_hash_cache := byte_hash_cache self; rolling_hash := 0 |}.

(** The counters after one more entry. *)
Definition count_entry (self : BoundaryDetector) (key value : bytes) (encoded : Z)
    : BoundaryDetector :=
  {| spec := spec self; seed := seed self;
     entries := saturating_add u64_max (entries self) 1;
     logical_bytes := saturating_add u64_max
       (saturating_add u64_max (logical_bytes self) (len key)) (len value);
     encoded_bytes := saturating_add u64_max (encoded_bytes self) encoded;
     previous_measure := measure_of self;
     rolling_window := rolling_window self; byte_hash_cache := byte_hash_cache self;
     rolling_hash := rolling_hash self |}.

(** The rule consulted between the soft bounds. *)
Definition rule_hit (self : BoundaryDetector) (input_hash : Z) : outcome Error bool :=
  match rule (spec self) with
  | HashThreshold factor => hash_hit input_hash factor
  | Weibull shape =>
      weibull_boundary input_hash (previous_measure self) (measure_of self)
        (target (spec self)) shape
  | RollingBuzHash _ =>
      let eligible_previous := Z.max (previous_measure self) (min (spec self)) in
      let eligible_current := Z.max (measure_of self) (min (spec self)) in
      let delta := saturating_sub eligible_current eligible_previous in
      let scale := Z.max (saturating_sub (target (spec self)) (min (spec self))) 1 in
      (λ t, rolling_hash self <=? t) <$> deterministic_exponential_threshold delta scale
  end.

(** Hard and soft upper bounds, then the lower bound, then the rule. *)
Definition boundary_here (self : BoundaryDetector) (input_hash : Z) : outcome Error bool :=
  if (hard_max_node_bytes (spec self) <=? encoded_bytes self)
     || (max (spec self) <=? measure_of self) then Ok true
  else if measure_of self <? min (spec self) then Ok false
  else rule_hit self input_hash.

Definition observe (self : BoundaryDetector) (key value : bytes) (encoded_entry_bytes : Z)
    : outcome Error (bool * BoundaryDetector) :=
  if (entries self =? 0) && (hard_max_node_bytes (spec self) <? encoded_entry_bytes) then
    Err (EntryTooLarge encoded_entry_bytes (hard_max_node_bytes (spec self)))
  else
    let self := count_entry self key value encoded_entry_bytes in
    let input_hash := hash_entry (seed self) (input (spec self)) key value in
    self ← observe_rolling self key value;
    boundary ← boundary_here self input_hash;
    Ok (boundary, if boundary : bool then reset self else self).

Definition supports_independent_hashing (self : BoundaryDetector) : bool :=
  match measure (spec self), rule (spec self) with
  | EntryCount, HashThreshold _ => true
  | _, _ => false
  end.

Definition independent_hash_boundary (self : BoundaryDetector) (key value : bytes)
    : outcome Error (option bool) :=
  match rule (spec self), measure (spec self) with
  | HashThreshold factor, EntryCount =>
      Some <$> hash_hit (hash_entry (seed self) (input (spec self)) key value) factor
  | _, _ => Ok None
  end.

Definition entry_count_boundary (sp : ChunkingSpec) (level count : Z) (key : bytes)
    : outcome Error bool :=
  ChunkingSpec_validate sp ≫= λ _,
  match rule sp with
  | HashThreshold factor =>
      match measure sp, input sp with
      | EntryCount, Key =>
          if max sp <=? count then Ok true
          else if count <? min sp then Ok false
          else hash_hit (hash_entry (level_seed sp level) (input sp) key []) factor
      | _, _ => Err (InvalidFormat
          "entry-count boundary probe requires key-only entry-count chunking")
      end
  | _ => Err (InvalidFormat "entry-count boundary probe requires a hash-threshold rule")
  end.

End hashes.

(** ** Fixed-point arithmetic: exactness and absence of overflow *)

Example threshold_golden_vectors :
  [deterministic_exponential_threshold 0 12288;
   deterministic_exponential_threshold 44 12288;
   deterministic_exponential_threshold 4096 12288;
   deterministic_exponential_threshold 12288 12288;
   deterministic_exponential_threshold (u128_max - 1) u128_max;
   deterministic_exponential_threshold u128_max 1]
  = [Ok 0; Ok 65934676975190507; Ok 5229074366755166475; Ok 11660566172440661763;
     Ok 11660566172440661763; Ok u64_max].
Proof. vm_compute. reflexivity. Qed.

(** After [i] rounds of the long division the pair holds the remainder and the
    quotient of [n * 2^i] by [d]. *)
Lemma fractional_iter n d i :
  0 ≤ n < d → d ≤ u128_max → (i ≤ 62)%nat →
  Nat.iter i (fractional_step d) (n, 0) =
    ((n * 2 ^ Z.of_nat i) mod d, (n * 2 ^ Z.of_nat i) / d).
Proof.
  intros Hn Hd. induction i as [|i IH]; intros Hi.
  { cbn [Nat.iter]. rewrite Z.mul_1_r, Z.mod_small, Z.div_small by lia. done. }
  cbn [Nat.iter nat_rect]. change (nat_rect _ _ _ i) with (Nat.iter i (fractional_step d) (n, 0)).
  rewrite IH by lia. clear IH.
  set (a := n * 2 ^ Z.of_nat i).
  assert (n * 2 ^ Z.of_nat (S i) = 2 * a) as ->.
  { unfold a. rewrite Nat2Z.inj_succ, Z.pow_succ_r by lia. ring. }
  pose proof (Z.div_mod a d ltac:(lia)) as Ha.
  pose proof (Z.mod_pos_bound a d ltac:(lia)) as Hr.
  assert (0 ≤ a / d < 2 ^ 62) as Hq.
  { assert (0 < 2 ^ Z.of_nat i ≤ 2 ^ 62) by (split; [lia|apply Z.pow_le_mono_r; lia]).
    split; [apply Z.div_pos; unfold a; nia|].
    apply Z.div_lt_upper_bound; [lia|]. unfold a. nia. }
  unfold fractional_step, wrap, u128_max in *. rewrite !Z.shiftl_mul_pow2 by lia.
  change (2 ^ 1) with 2. rewrite (Z.mod_small (a / d * 2)) by lia.
  case_bool.
  - assert (Z.lor (a / d * 2) 1 = a / d * 2 + 1) as ->.
    { rewrite Z.lor_comm, (Z.mul_comm _ 2). destruct (a / d) as [|q|q]; [done|done|lia]. }
    rewrite <- (Z.mod_unique (2 * a) d (2 * (a / d) + 1) (2 * (a mod d) - d)) by lia.
    rewrite <- (Z.div_unique (2 * a) d (2 * (a / d) + 1) (2 * (a mod d) - d)) by lia.
    f_equal; lia.
  - rewrite (Z.mod_small (a mod d * 2)) by lia.
    rewrite <- (Z.mod_unique (2 * a) d (2 * (a / d)) (2 * (a mod d))) by lia.
    rewrite <- (Z.div_unique (2 * a) d (2 * (a / d)) (2 * (a mod d))) by lia.
    f_equal; lia.
Qed.

(** The floor of [n * 2^62 / d], on the multiply-divide path and on the
    long-division path. *)
Lemma scaled_ratio_floor n d :
  0 ≤ n ≤ u128_max → 0 < d ≤ u128_max →
  scaled_ratio_q62 n d = Ok (Z.min u128_max (n * 2 ^ 62 / d)).
Proof.
  intros Hn Hd. unfold scaled_ratio_q62, debug_assert.
  destruct (Z.ltb_spec 0 d); [cbn|lia].
  pose proof (Z.mod_pos_bound n d ltac:(lia)) as Hr.
  assert ((if n mod d <=? u128_max / Q62
           then (λ p, p / d) <$> mul_u128 (n mod d) Q62
           else fractional_ratio_q62 (n mod d) d) = Ok (n mod d * 2 ^ 62 / d)) as ->.
  { case_bool; unfold mul_u128, fractional_ratio_q62, debug_assert.
    - assert (n mod d * Q62 ≤ u128_max).
      { pose proof (Z.mul_div_le u128_max Q62 ltac:(by vm_compute)). unfold Q62 in *. nia. }
      case_bool; [done|lia].
    - destruct (Z.ltb_spec (n mod d) d); [cbn [mbind outcome_bind]|lia].
      by rewrite fractional_iter by lia. }
  cbn. f_equal.
  assert (n * 2 ^ 62 / d = n / d * 2 ^ 62 + n mod d * 2 ^ 62 / d) as ->.
  { rewrite (Z.div_mod n d) at 1 by lia.
    replace ((d * (n / d) + n mod d) * 2 ^ 62) with (n mod d * 2 ^ 62 + (n / d * 2 ^ 62) * d) by ring.
    rewrite Z.div_add by lia. lia. }
  assert (0 ≤ n mod d * 2 ^ 62 / d) by (apply Z.div_pos; lia).
  unfold saturating_add, saturating_mul, Q62. lia.
Qed.

Lemma halve_exponent_spec fuel e k :
  0 ≤ e ≤ Q62 / 16 * 2 ^ Z.of_nat fuel →
  0 ≤ (halve_exponent fuel e k).1 ≤ Q62 / 16.
Proof.
  revert e k; induction fuel as [|fuel IH]; intros e k He; cbn [halve_exponent].
  { cbn [fst]. rewrite Z.mul_1_r in He. done. }
  case_bool; [|cbn [fst]; lia]. apply IH.
  rewrite Nat2Z.inj_succ, Z.pow_succ_r in He by lia.
  split; [apply Z.div_pos; lia|].
  apply (Z.lt_succ_r ((e + 1) / 2)), Z.div_lt_upper_bound; lia.
Qed.

Lemma exp_series_step_ok e s t d :
  0 ≤ e ≤ Q62 / 16 → 0 ≤ s → 0 ≤ t ≤ Q62 → 1 ≤ d →
  ∃ s' t', exp_series_step e (Ok (s, t)) d = Ok (s', t') ∧ 0 ≤ s' ∧ 0 ≤ t' ≤ Q62.
Proof.
  intros He Hs Ht Hd. unfold exp_series_step, mul_u128; cbn [mbind outcome_bind].
  assert (Q62 = 16 * (Q62 / 16)) as HQ by done. assert (0 < Q62) by done.
  assert (t * e ≤ Q62 * Q62) as Hte by nia.
  assert (Q62 * Q62 ≤ u128_max) by (by vm_compute).
  destruct (Z.leb_spec (t * e) u128_max); [|lia].
  assert (0 ≤ t * e / Q62) as Hq by (apply Z.div_pos; nia).
  assert (0 ≤ t * e / Q62 / d) as Hq' by (apply Z.div_pos; lia).
  eexists _, _. split; [reflexivity|]. split; [|split; [done|]].
  - unfold saturating_add, saturating_sub, u128_max. case_bool; lia.
  - transitivity (t * e / Q62); apply Z.div_le_upper_bound; nia.
Qed.

Lemma exp_neg_series_ok e : 0 ≤ e ≤ Q62 / 16 → ∃ s, exp_neg_series_q62 e = Ok s ∧ 0 ≤ s.
Proof.
  intros He. unfold exp_neg_series_q62, debug_assert.
  destruct (Z.leb_spec e (Q62 / 16)); [cbn [mbind outcome_bind]|lia].
  assert (∀ ds s t, Forall (λ d, 1 ≤ d) ds → 0 ≤ s → 0 ≤ t ≤ Q62 →
    ∃ r, foldl (exp_series_step e) (Ok (s, t)) ds = Ok r ∧ 0 ≤ r.1) as Hfold.
  { intros ds; induction ds as [|d ds IH]; intros s t Hds Hs Ht; [by eexists|].
    inversion Hds as [|? ? Hd Hds']; subst. cbn [foldl].
    destruct (exp_series_step_ok e s t d He Hs Ht Hd) as (s' & t' & -> & Hs' & Ht'). by apply IH. }
  destruct (Hfold [1; 2; 3; 4; 5; 6; 7; 8] Q62 Q62) as [r [-> Hr]];
    [repeat constructor; lia|by vm_compute|by vm_compute|]. by eexists.
Qed.

Lemma threshold_ok delta scale :
  0 ≤ delta ≤ u128_max → 0 ≤ scale ≤ u128_max →
  ∃ t, deterministic_exponential_threshold delta scale = Ok t ∧ 0 ≤ t ≤ u64_max.
Proof.
  intros Hdelta Hscale. unfold deterministic_exponential_threshold.
  case_bool; [exists 0; by split|].
  destruct (Z.eqb_spec scale 0); cbn [orb]; [by exists u64_max|].
  case_bool; [by exists u64_max|].
  rewrite scaled_ratio_floor by lia. cbn [mbind outcome_bind].
  set (x := Z.min _ _).
  assert (0 ≤ x ≤ Q62 / 16 * 2 ^ Z.of_nat halve_fuel) as Hx.
  { assert (0 ≤ delta * 2 ^ 62 / scale) by (apply Z.div_pos; lia).
    assert (u128_max ≤ Q62 / 16 * 2 ^ Z.of_nat halve_fuel) by (by vm_compute).
    unfold x, u128_max in *. lia. }
  pose proof (halve_exponent_spec _ x 0 Hx) as He.
  destruct (halve_exponent halve_fuel x 0) as [e k]; cbn [fst] in He.
  destruct (exp_neg_series_ok e He) as (s & -> & Hs). cbn [mbind outcome_bind].
  set (sv := Nat.iter _ _ s).
  assert (0 ≤ sv) as Hsv.
  { unfold sv. induction (Z.to_nat k) as [|m IH]; [done|]. cbn. apply Z.div_pos; [|done].
    unfold saturating_mul, u128_max. nia. }
  set (y := saturating_sub Q62 sv).
  assert (0 ≤ y ≤ Q62) as Hy by (unfold y, saturating_sub, Q62 in *; lia).
  unfold mul_u128. assert (y * u64_max ≤ u128_max) by (unfold u64_max, u128_max, Q62 in *; nia).
  destruct (Z.leb_spec (y * u64_max) u128_max); [cbn [mbind outcome_bind]|lia].
  assert (0 ≤ y * u64_max / Q62 ≤ u64_max) as Ht.
  { split; [apply Z.div_pos; unfold u64_max, Q62 in *; lia|].
    apply Z.div_le_upper_bound; unfold u64_max, Q62 in *; nia. }
  eexists; split; [done|]. unfold wrap. rewrite Z.mod_small; unfold u64_max in *; lia.
Qed.

(** The integer approximation of [1 - exp(-delta/scale)] is total on 128-bit
    operands: the Q62 ratio it starts from is the exact floor of
    [delta * 2^62 / scale] (saturated at the top of [u128]), the halving loop
    ends, no intermediate product overflows, no debug assertion fails, and the
    result fits [u64]. *)
Theorem exponential_threshold_total delta scale :
  0 ≤ delta ≤ u128_max → 0 < scale ≤ u128_max →
  scaled_ratio_q62 delta scale = Ok (Z.min u128_max (delta * 2 ^ 62 / scale)) ∧
  ∃ t, deterministic_exponential_threshold delta scale = Ok t ∧ 0 ≤ t ≤ u64_max.
Proof.
  intros Hd Hs. split; [by apply scaled_ratio_floor|]. apply threshold_ok; lia.
Qed.

Lemma exponential_threshold_total_witness :
  scaled_ratio_q62 (u128_max - 1) u128_max
    = Ok (Z.min u128_max ((u128_max - 1) * 2 ^ 62 / u128_max)) ∧
  ∃ t, deterministic_exponential_threshold (u128_max - 1) u128_max = Ok t ∧ 0 ≤ t ≤ u64_max.
Proof. apply exponential_threshold_total; unfold u128_max; lia. Defined.

(** ** Rotation *)

Lemma rotl64_testbit x n i :
  0 ≤ x < 2 ^ 64 → 0 ≤ i →
  Z.testbit (rotl64 x n) i = (i <? 64) && Z.testbit x ((i - n) mod 64).
Proof.
  intros Hx Hi. unfold rotl64, wrap. pose proof (Z.mod_pos_bound n 64 ltac:(lia)) as Hm.
  assert (∀ j, 64 ≤ j → Z.testbit x j = false) as Hhigh.
  { intros j Hj. rewrite <- (Z.mod_small x (2 ^ 64)) by done. by apply Z.mod_pow2_bits_high. }
  assert ((i - n) mod 64 = (i - n mod 64) mod 64) as -> by (by rewrite Zminus_mod_idemp_r).
  rewrite Z.lor_spec, Z.shiftr_spec by lia.
  destruct (Z.ltb_spec i 64); cbn [andb].
  - rewrite Z.mod_pow2_bits_low, Z.shiftl_spec by lia.
    destruct (Z.le_gt_cases (n mod 64) i).
    + rewrite (Hhigh (i + _)), orb_false_r, (Z.mod_small (i - n mod 64)) by lia. done.
    + rewrite (Z.testbit_neg_r x (i - n mod 64)) by lia. cbn [orb].
      rewrite <- (Z.mod_unique (i - n mod 64) 64 (-1) (i + (64 - n mod 64))) by lia. done.
  - rewrite Z.mod_pow2_bits_high, Hhigh by lia. done.
Qed.

Lemma rotl64_range x n : 0 ≤ x < 2 ^ 64 → 0 ≤ rotl64 x n < 2 ^ 64.
Proof.
  intros Hx. apply u64_of_bits.
  - unfold rotl64, wrap. apply Z.lor_nonneg. split; [apply Z.mod_pos_bound; lia|].
    apply Z.shiftr_nonneg; lia.
  - intros i Hi. rewrite rotl64_testbit by lia. by destruct (Z.ltb_spec i 64); [lia|].
Qed.

Lemma lxor_range a b : 0 ≤ a < 2 ^ 64 → 0 ≤ b < 2 ^ 64 → 0 ≤ Z.lxor a b < 2 ^ 64.
Proof.
  intros Ha Hb. apply u64_of_bits; [apply Z.lxor_nonneg; lia|]. intros i Hi.
  rewrite Z.lxor_spec, <- (Z.mod_small a (2 ^ 64)), <- (Z.mod_small b (2 ^ 64)) by done.
  by rewrite !Z.mod_pow2_bits_high by lia.
Qed.

Lemma rotl64_lxor a b n :
  0 ≤ a < 2 ^ 64 → 0 ≤ b < 2 ^ 64 → rotl64 (Z.lxor a b) n = Z.lxor (rotl64 a n) (rotl64 b n).
Proof.
  intros Ha Hb. apply Z.bits_inj'. intros i Hi. pose proof (lxor_range a b Ha Hb).
  rewrite Z.lxor_spec, !rotl64_testbit, Z.lxor_spec by done. by destruct (i <? 64).
Qed.

Lemma rotl64_rotl64 x a b : 0 ≤ x < 2 ^ 64 → rotl64 (rotl64 x a) b = rotl64 x (a + b).
Proof.
  intros Hx. apply Z.bits_inj'. intros i Hi. pose proof (rotl64_range x a Hx).
  pose proof (Z.mod_pos_bound (i - b) 64 ltac:(lia)).
  rewrite !rotl64_testbit by lia. destruct (i <? 64); [cbn [andb]|done].
  destruct (Z.ltb_spec ((i - b) mod 64) 64); [cbn [andb]|lia].
  rewrite Zminus_mod_idemp_l. do 2 f_equal. lia.
Qed.

Lemma rotl64_mod x n : rotl64 x (n mod 64) = rotl64 x n.
Proof. unfold rotl64. by rewrite Z.mod_mod. Qed.

Lemma rotl64_0 x : 0 ≤ x < 2 ^ 64 → rotl64 x 0 = x.
Proof.
  intros Hx. apply Z.bits_inj'. intros i Hi. rewrite rotl64_testbit, Z.sub_0_r by done.
  destruct (Z.ltb_spec i 64); cbn [andb]; [by rewrite Z.mod_small by lia|].
  rewrite <- (Z.mod_small x (2 ^ 64)) by done. by rewrite Z.mod_pow2_bits_high by lia.
Qed.

(** ** The ring buffer holds the last [capacity] bytes *)

Definition window_of (w : RollingWindow) : bytes :=
  if len (rw_bytes w) <? rw_capacity w then rw_bytes w
  else drop (Z.to_nat (rw_next w)) (rw_bytes w) ++ take (Z.to_nat (rw_next w)) (rw_bytes w).

Record window_wf (w : RollingWindow) : Prop := {
  wf_len : len (rw_bytes w) ≤ rw_capacity w;
  wf_next : 0 ≤ rw_next w < rw_capacity w;
  wf_filling : len (rw_bytes w) < rw_capacity w → rw_next w = 0;
}.

Definition lastn {A} (n : nat) (l : list A) : list A := drop (length l - n) l.

Lemma lastn_snoc_short {A} n (l : list A) x :
  (length l < n)%nat → lastn n l = l ∧ lastn n (l ++ [x]) = l ++ [x].
Proof.
  intros Hl. unfold lastn. rewrite length_app; cbn.
  replace (length l - n)%nat with 0%nat by lia.
  by replace (length l + 1 - n)%nat with 0%nat by lia.
Qed.

Lemma lastn_snoc_full {A} n (l : list A) x y ws :
  (0 < n ≤ length l)%nat → lastn n l = y :: ws → lastn n (l ++ [x]) = ws ++ [x].
Proof.
  intros Hl Hy. unfold lastn in *. rewrite length_app; cbn.
  rewrite drop_app_le by lia. f_equal.
  replace (length l + 1 - n)%nat with (length l - n + 1)%nat by lia.
  by rewrite <- drop_drop, Hy.
Qed.

(** [push] is a bounded queue: it appends, and evicts the oldest byte once the
    window is full. *)
Lemma RollingWindow_push_spec w b :
  window_wf w →
  ∃ old w', RollingWindow_push w b = Ok (old, w') ∧ window_wf w' ∧
    rw_capacity w' = rw_capacity w ∧
    match old with
    | None => len (window_of w) < rw_capacity w ∧ window_of w' = window_of w ++ [b]
    | Some x => ∃ ws, window_of w = x :: ws ∧ len (window_of w) = rw_capacity w ∧
                      window_of w' = ws ++ [b]
    end.
Proof.
  destruct w as [l cap next]; intros [Hlen Hnext Hfill]; cbn in *.
  unfold RollingWindow_push, window_of; cbn [rw_bytes rw_capacity rw_next].
  destruct (Z.ltb_spec (len l) cap) as [Hlt|Hge].
  { rewrite Hfill in * by done. eexists None, _. split; [done|]. cbn [rw_bytes rw_capacity rw_next].
    split; [constructor; cbn; [len_lia|lia|done]|]. do 2 (split; [done|]).
    case_bool; [done|]. by rewrite drop_0, take_0, app_nil_r. }
  unfold len in *.
  destruct (lookup_lt_is_Some_2 l (Z.to_nat next)) as [x Hx]; [lia|]. rewrite Hx; cbn.
  eexists (Some x), _. split; [done|]. cbn [rw_bytes rw_capacity rw_next].
  rewrite length_insert. split; [|split; [done|]].
  { constructor; cbn [rw_bytes rw_capacity rw_next]; unfold len; rewrite ?length_insert;
    try case_bool; lia. }
  exists (drop (S (Z.to_nat next)) l ++ take (Z.to_nat next) l).
  rewrite (drop_S _ _ _ Hx). split; [done|]. split.
  { rewrite length_app; cbn [length]; rewrite length_drop, length_take. lia. }
  destruct (Z.ltb_spec (Z.of_nat (length l)) cap); [lia|].
  rewrite insert_take_drop by lia. set (n := Z.to_nat next) in *.
  assert (length (take n l) = n) as Htake by (rewrite length_take; lia).
  case_bool.
  - rewrite drop_0, take_0, app_nil_r, (drop_ge l) by lia. done.
  - replace (Z.to_nat (next + 1)) with (S n) by lia.
    rewrite drop_app_ge, take_app_ge, Htake by lia.
    replace (S n - n)%nat with 1%nat by lia. cbn [drop take]. by rewrite take_0, <- app_assoc.
Qed.

(** ** The cache returns the byte hash *)

Lemma land_bit w k : 0 ≤ k → Z.land w (Z.shiftl 1 k) = 0 ↔ Z.testbit w k = false.
Proof.
  intros Hk. rewrite Z.shiftl_1_l. split; intros H.
  - assert (Z.testbit (Z.land w (2 ^ k)) k = false) as Hb by (by rewrite H, Z.bits_0).
    by rewrite Z.land_spec, Z.pow2_bits_true, andb_true_r in Hb.
  - apply Z.bits_inj'. intros i Hi. rewrite Z.land_spec, Z.pow2_bits_eqb, Z.bits_0 by lia.
    destruct (Z.eqb_spec k i) as [<-|]; [by rewrite H|apply andb_false_r].
Qed.

Lemma lor_bit w k i : 0 ≤ k → 0 ≤ i →
  Z.testbit (Z.lor w (Z.shiftl 1 k)) i = Z.testbit w i || (k =? i).
Proof. intros Hk Hi. by rewrite Z.shiftl_1_l, Z.lor_spec, Z.pow2_bits_eqb by lia. Qed.

(** An observed entry: key, value and encoded size. *)
Abbreviation entry := (bytes * bytes * Z)%type.

Section rolling.
Context `{HashesOk}.

Record cache_ok (sd : Z) (c : ByteHashCache) : Prop := {
  ok_seed : bc_seed c = sd;
  ok_values : length (bc_values c) = 256%nat;
  ok_init : length (bc_initialized c) = 4%nat;
  ok_filled b w :
    bc_initialized c !! Z.to_nat (bval b / 64) = Some w →
    Z.testbit w (bval b mod 64) = true →
    bc_values c !! Z.to_nat (bval b) = Some (byte_hash sd b);
}.

Lemma ByteHashCache_new_ok sd : cache_ok sd (ByteHashCache_new sd).
Proof.
  constructor; try done. cbn [ByteHashCache_new bc_initialized]. intros b w Hw.
  apply lookup_replicate in Hw as [-> _]. by rewrite Z.bits_0.
Qed.

Lemma ByteHashCache_get_ok sd c b :
  cache_ok sd c → ∃ c', ByteHashCache_get c b = Ok (byte_hash sd b, c') ∧ cache_ok sd c'.
Proof.
  intros [Hseed Hvals Hinit Hfill]. unfold ByteHashCache_get.
  pose proof (bval_range b) as Hb.
  assert (0 ≤ bval b / 64 < 4) by (split; [apply Z.div_pos|apply Z.div_lt_upper_bound]; lia).
  pose proof (Z.mod_pos_bound (bval b) 64 ltac:(lia)) as Hm.
  destruct (lookup_lt_is_Some_2 (bc_initialized c) (Z.to_nat (bval b / 64))) as [w Hw]; [lia|].
  rewrite Hw; cbn [expect mbind outcome_bind].
  destruct (Z.eqb_spec (Z.land w (Z.shiftl 1 (bval b mod 64))) 0) as [Hz|Hz].
  - cbn [bc_values]. rewrite list_lookup_insert_eq by lia. cbn. rewrite Hseed.
    eexists; split; [done|]. constructor; cbn; rewrite ?length_insert; try done.
    intros b' w' Hw' Hbit. pose proof (bval_range b').
    destruct (decide (b' = b)) as [->|Hne]; [by rewrite list_lookup_insert_eq by lia|].
    assert (bval b' ≠ bval b) as Hv by (intros Heq; by apply bval_inj in Heq).
    rewrite list_lookup_insert_ne by lia.
    assert (0 ≤ bval b' / 64) by (apply Z.div_pos; lia).
    destruct (decide (bval b' / 64 = bval b / 64)) as [Hq|Hq].
    + rewrite Hq, list_lookup_insert_eq in Hw' by lia. injection Hw' as <-.
      pose proof (Z.mod_pos_bound (bval b') 64 ltac:(lia)).
      rewrite lor_bit in Hbit by lia. apply orb_true_iff in Hbit as [Hbit|Hbit].
      * apply (Hfill b' w); [by rewrite Hq|done].
      * exfalso. apply Z.eqb_eq in Hbit. apply Hv.
        rewrite (Z.div_mod (bval b') 64), (Z.div_mod (bval b) 64) by lia. by rewrite Hq, Hbit.
    + rewrite list_lookup_insert_ne in Hw' by lia. by apply (Hfill b' w').
  - assert (Z.testbit w (bval b mod 64) = true) as Hbit.
    { destruct (Z.testbit w (bval b mod 64)) eqn:E; [done|]. by apply land_bit in E; [|lia]. }
    rewrite (Hfill b w Hw Hbit). cbn. by eexists.
Qed.

(** ** The rolling hash of a window *)

Definition buz (sd : Z) (ws : bytes) : Z :=
  foldl (λ h b, Z.lxor (rotl64 h 1) (byte_hash sd b)) 0 ws.

Lemma byte_hash_range sd b : 0 ≤ byte_hash sd b < 2 ^ 64.
Proof. apply xxh64_range. Qed.

Lemma buz_snoc sd ws b : buz sd (ws ++ [b]) = Z.lxor (rotl64 (buz sd ws) 1) (byte_hash sd b).
Proof. unfold buz. by rewrite foldl_app. Qed.

Lemma buz_range sd ws : 0 ≤ buz sd ws < 2 ^ 64.
Proof.
  induction ws as [|b ws IH] using rev_ind; [by vm_compute|]. rewrite buz_snoc.
  apply lxor_range; [by apply rotl64_range|apply byte_hash_range].
Qed.

Lemma buz_cons sd x ws :
  buz sd (x :: ws) = Z.lxor (rotl64 (byte_hash sd x) (len ws)) (buz sd ws).
Proof.
  induction ws as [|b ws IH] using rev_ind.
  { unfold buz; cbn [foldl length]. rewrite rotl64_0 by apply byte_hash_range.
    change (rotl64 0 1) with 0. by rewrite Z.lxor_0_l, Z.lxor_0_r. }
  rewrite app_comm_cons, !buz_snoc, IH.
  pose proof (rotl64_range (byte_hash sd x) (len ws) (byte_hash_range sd x)).
  rewrite rotl64_lxor, rotl64_rotl64, Z.lxor_assoc by (done || apply buz_range || apply byte_hash_range).
  do 2 f_equal. len_lia.
Qed.

(** Rolling one byte in and the oldest one out. *)
Lemma buz_slide sd x ws b :
  Z.lxor (Z.lxor (rotl64 (buz sd (x :: ws)) 1) (byte_hash sd b))
    (rotl64 (byte_hash sd x) (len (x :: ws) mod 64)) = buz sd (ws ++ [b]).
Proof.
  rewrite buz_snoc, buz_cons, rotl64_mod.
  pose proof (rotl64_range (byte_hash sd x) (len ws) (byte_hash_range sd x)).
  rewrite rotl64_lxor, rotl64_rotl64 by (done || apply buz_range || apply byte_hash_range).
  replace (len (x :: ws)) with (len ws + 1) by len_lia.
  set (r := rotl64 (byte_hash sd x) _). set (q := rotl64 (buz sd ws) 1).
  rewrite (Z.lxor_comm _ r), <- !Z.lxor_assoc, Z.lxor_nilpotent. by rewrite Z.lxor_0_l.
Qed.

(** The rolling state after the byte stream [st] of the current chunk. *)
Record rolled (d : BoundaryDetector) (st : bytes) : Prop := {
  rolled_wf : window_wf (rolling_window d);
  rolled_window : window_of (rolling_window d)
                  = lastn (Z.to_nat (rw_capacity (rolling_window d))) st;
  rolled_cache : ∃ c, byte_hash_cache d = Some c ∧ cache_ok (seed d) c;
  rolled_hash : rolling_hash d
                = buz (seed d) (lastn (Z.to_nat (rw_capacity (rolling_window d))) st);
}.

Lemma roll_byte_ok d st b :
  rolled d st →
  ∃ w c h, roll_byte d b = Ok (with_rolling d w (Some c) h) ∧
    rw_capacity w = rw_capacity (rolling_window d) ∧
    rolled (with_rolling d w (Some c) h) (st ++ [b]).
Proof.
  intros [Hwf Hwin (c & Hc & Hcok) Hh]. unfold roll_byte. rewrite Hc; cbn [expect mbind outcome_bind].
  destruct (ByteHashCache_get_ok _ _ b Hcok) as (c1 & -> & Hc1). cbn [mbind outcome_bind].
  destruct (RollingWindow_push_spec _ b Hwf) as (old & w & -> & Hw & Hcap & Hold).
  cbn [mbind outcome_bind]. pose proof (wf_next _ Hwf) as Hpos.
  set (cap := rw_capacity (rolling_window d)) in *. rewrite Hwin in Hold.
  destruct old as [x|].
  - destruct Hold as (ws & Hws & Hlen & Hw').
    destruct (ByteHashCache_get_ok _ _ x Hc1) as (c2 & -> & Hc2). cbn [mbind outcome_bind].
    eexists w, c2, _. split; [done|]. split; [done|].
    assert (lastn (Z.to_nat cap) (st ++ [b]) = ws ++ [b]) as Hlast.
    { apply (lastn_snoc_full _ _ _ x); [|done].
      unfold len, lastn in Hlen. rewrite length_drop in Hlen. lia. }
    constructor; cbn [with_rolling rolling_window byte_hash_cache rolling_hash seed];
      rewrite ?Hcap, ?Hlast; [done|done|by eexists|].
    rewrite Hh, Hws, <- Hlen, Hws. apply buz_slide.
  - destruct Hold as [Hlen Hw']. eexists w, c1, _. split; [done|]. split; [done|].
    destruct (lastn_snoc_short (Z.to_nat cap) st b) as [Hst Hlast].
    { unfold len, lastn in Hlen. rewrite length_drop in Hlen. lia. }
    constructor; cbn [with_rolling rolling_window byte_hash_cache rolling_hash seed];
      rewrite ?Hcap, ?Hlast; [done|by rewrite Hw', Hst|by eexists|].
    by rewrite Hh, Hst, buz_snoc.
Qed.

Lemma roll_bytes_ok bs d st :
  rolled d st →
  ∃ d', roll_bytes d bs = Ok d' ∧ rolled d' (st ++ bs) ∧
    rw_capacity (rolling_window d') = rw_capacity (rolling_window d) ∧
    d' = with_rolling d (rolling_window d') (byte_hash_cache d') (rolling_hash d').
Proof.
  revert d st; induction bs as [|b bs IH]; intros d st Hd; cbn [roll_bytes].
  { exists d. rewrite app_nil_r. by destruct d. }
  destruct (roll_byte_ok d st b Hd) as (w & c & h & -> & Hcap & Hr). cbn [mbind outcome_bind].
  destruct (IH _ _ Hr) as (d' & -> & Hd' & Hcap' & Heq). exists d'. split; [done|].
  split; [by rewrite <- app_assoc in Hd'|]. split; [by rewrite Hcap'|]. by rewrite Heq.
Qed.

(** ** Abstract specification: a cut depends on the entries of the chunk only *)

(** The bytes an entry contributes to the hashes. *)
Definition entry_feed (inp : BoundaryInput) (e : entry) : bytes :=
  let '(key, value, _) := e in
  be_bytes 8 (len key) ++ key ++
    match inp with KeyValue => be_bytes 8 (len value) ++ value | Key => [] end.

Definition entry_size (m : ChunkMeasure) (e : entry) : Z :=
  let '(key, value, encoded) := e in
  match m with
  | EntryCount => 1
  | LogicalBytes => len key + len value
  | EncodedBytes => encoded
  end.

Definition chunk_size (m : ChunkMeasure) (chunk : list entry) : Z :=
  Z.min u64_max (foldr (λ e n, entry_size m e + n) 0 chunk).

(** Whether the chunk [chunk ++ [e]] ends after [e]. *)
Definition cut_spec (sp : ChunkingSpec) (sd : Z) (chunk : list entry) (e : entry)
    : outcome Error bool :=
  let before := chunk_size (measure sp) chunk in
  let after := chunk_size (measure sp) (chunk ++ [e]) in
  if (hard_max_node_bytes sp <=? chunk_size EncodedBytes (chunk ++ [e]))
     || (max sp <=? after) then Ok true
  else if after <? min sp then Ok false
  else match rule sp with
  | HashThreshold factor => Ok (wrap 32 (xxh64 sd (entry_feed (input sp) e)) <=? u32_max / factor)
  | Weibull shape =>
      (λ t, xxh64 sd (entry_feed (input sp) e) <=? t) <$>
        deterministic_exponential_threshold (after ^ shape - before ^ shape) (target sp ^ shape)
  | RollingBuzHash window =>
      let st := concat (entry_feed (input sp) <$> (chunk ++ [e])) in
      (λ t, buz sd (lastn (Z.to_nat window) st) <=? t) <$>
        deterministic_exponential_threshold (after - Z.max before (min sp))
          (Z.max (target sp - min sp) 1)
  end.

(** The decisions over a run of entries, from the code and from the specification. *)
Fixpoint observe_all (d : BoundaryDetector) (xs : list entry)
    : outcome Error (list bool * BoundaryDetector) :=
  match xs with
  | [] => Ok ([], d)
  | (key, value, encoded) :: xs' =>
      '(b, d) ← observe d key value encoded;
      '(bs, d) ← observe_all d xs';
      Ok (b :: bs, d)
  end.

Fixpoint cut_all (sp : ChunkingSpec) (sd : Z) (chunk xs : list entry)
    : outcome Error (list bool) :=
  match xs with
  | [] => Ok []
  | e :: xs' =>
      if bool_decide (chunk = []) && (hard_max_node_bytes sp <? e.2)
      then Err (EntryTooLarge e.2 (hard_max_node_bytes sp))
      else
        b ← cut_spec sp sd chunk e;
        bs ← cut_all sp sd (if b : bool then [] else chunk ++ [e]) xs';
        Ok (b :: bs)
  end.

(** The closed chunks of a run and the entries after the last cut. *)
Fixpoint split_chunks (chunk xs : list entry) (bs : list bool)
    : list (list entry) * list entry :=
  match xs, bs with
  | e :: xs', true :: bs' =>
      let '(closed, rest) := split_chunks [] xs' bs' in ((chunk ++ [e]) :: closed, rest)
  | e :: xs', false :: bs' => split_chunks (chunk ++ [e]) xs' bs'
  | _, _ => ([], chunk ++ xs)
  end.

(** A detector in the middle of the chunk [chunk]. *)
Record represents (d : BoundaryDetector) (chunk : list entry) : Prop := {
  rep_wf : ChunkingSpec_wf (spec d);
  rep_valid : ChunkingSpec_validate (spec d) = Ok tt;
  rep_sizes : Forall (λ e : entry, 0 ≤ e.2) chunk;
  rep_entries : entries d = chunk_size EntryCount chunk;
  rep_logical : logical_bytes d = chunk_size LogicalBytes chunk;
  rep_encoded : encoded_bytes d = chunk_size EncodedBytes chunk;
  rep_rolling : ∀ window, rule (spec d) = RollingBuzHash window →
    rw_capacity (rolling_window d) = window ∧
    rolled d (concat (entry_feed (input (spec d)) <$> chunk));
}.

Lemma entry_size_nonneg m (e : entry) : 0 ≤ e.2 → 0 ≤ entry_size m e.
Proof. destruct e as [[k v] n], m; cbn; intros; len_lia. Qed.

Lemma chunk_sum_nonneg m (chunk : list entry) : Forall (λ e : entry, 0 ≤ e.2) chunk →
  0 ≤ foldr (λ e n, entry_size m e + n) 0 chunk.
Proof.
  induction 1 as [|e chunk He _ IH]; cbn; [done|]. pose proof (entry_size_nonneg m e He). lia.
Qed.

Lemma chunk_size_range m (chunk : list entry) :
  Forall (λ e : entry, 0 ≤ e.2) chunk → 0 ≤ chunk_size m chunk ≤ u64_max.
Proof.
  intros Hc. pose proof (chunk_sum_nonneg m chunk Hc). unfold chunk_size, u64_max. lia.
Qed.

Lemma chunk_size_snoc m (chunk : list entry) e :
  Forall (λ e : entry, 0 ≤ e.2) chunk → 0 ≤ e.2 →
  chunk_size m (chunk ++ [e]) = saturating_add u64_max (chunk_size m chunk) (entry_size m e).
Proof.
  intros Hc He. pose proof (entry_size_nonneg m e He).
  assert (foldr (λ e n, entry_size m e + n) 0 (chunk ++ [e])
          = foldr (λ e n, entry_size m e + n) 0 chunk + entry_size m e) as Hsum.
  { clear. induction chunk as [|x chunk IH]; cbn in *; lia. }
  unfold chunk_size, saturating_add. rewrite Hsum. lia.
Qed.

Lemma chunk_size_entries_zero chunk :
  (chunk_size EntryCount chunk =? 0) = bool_decide (chunk = []).
Proof.
  destruct chunk as [|e chunk]; [done|]. rewrite bool_decide_eq_false_2 by done.
  apply Z.eqb_neq. unfold chunk_size. cbn.
  assert (0 ≤ foldr (λ e n, entry_size EntryCount e + n) 0 chunk) as Hpos.
  { induction chunk as [|[[k v] n] chunk IH]; cbn in *; lia. }
  destruct e as [[k v] n]; cbn. unfold u64_max. lia.
Qed.

Lemma chunk_size_entries (chunk : list entry) :
  chunk_size EntryCount chunk = Z.min u64_max (len chunk).
Proof.
  unfold chunk_size. f_equal. induction chunk as [|[[k v] n] chunk IH]; [done|].
  cbn [foldr entry_size]. rewrite IH, len_cons. lia.
Qed.

Lemma measure_of_rep d chunk :
  represents d chunk → measure_of d = chunk_size (measure (spec d)) chunk.
Proof.
  intros Hd. unfold measure_of.
  destruct (measure (spec d)); [apply rep_entries|apply rep_logical|apply rep_encoded]; done.
Qed.

Lemma validate_factor sp factor :
  ChunkingSpec_wf sp → ChunkingSpec_validate sp = Ok tt →
  rule sp = HashThreshold factor → 0 < factor.
Proof.
  intros Hwf Hv Hr. apply ChunkingSpec_validate_Ok in Hv; [|done].
  destruct Hv as (_ & _ & _ & Hv). by rewrite Hr in Hv.
Qed.

Lemma observe_rolling_ok d st key value n :
  (∀ window, rule (spec d) = RollingBuzHash window →
     rw_capacity (rolling_window d) = window ∧ rolled d st) →
  ∃ w c h, let d' := with_rolling d w c h in
    observe_rolling d key value = Ok d' ∧
    (∀ window, rule (spec d) = RollingBuzHash window →
       rw_capacity w = window ∧ rolled d' (st ++ entry_feed (input (spec d)) (key, value, n))).
Proof.
  intros Hd. unfold observe_rolling.
  destruct (rule (spec d)) as [factor|shape|window] eqn:Hr.
  1,2: eexists (rolling_window d), (byte_hash_cache d), (rolling_hash d); split; by destruct d.
  destruct (Hd window eq_refl) as [Hcap Hroll]. unfold rolling_feed_len, entry_feed.
  destruct (roll_bytes_ok (be_bytes 8 (len key)) d st Hroll) as (d1 & -> & H1 & C1 & E1).
  cbn [mbind outcome_bind].
  destruct (roll_bytes_ok key d1 _ H1) as (d2 & -> & H2 & C2 & E2). cbn [mbind outcome_bind].
  assert (spec d2 = spec d) as Hs by (by rewrite E2, E1). rewrite Hs.
  destruct (input (spec d)).
  { eexists (rolling_window d2), (byte_hash_cache d2), (rolling_hash d2). cbn zeta.
    assert (with_rolling d (rolling_window d2) (byte_hash_cache d2) (rolling_hash d2) = d2) as ->
      by (by rewrite E2, E1).
    split; [done|]. intros ? [= <-]. split; [congruence|].
    by rewrite app_nil_r, app_assoc. }
  destruct (roll_bytes_ok (be_bytes 8 (len value)) d2 _ H2) as (d3 & -> & H3 & C3 & E3).
  cbn [mbind outcome_bind].
  destruct (roll_bytes_ok value d3 _ H3) as (d4 & -> & H4 & C4 & E4).
  eexists (rolling_window d4), (byte_hash_cache d4), (rolling_hash d4). cbn zeta.
  assert (with_rolling d (rolling_window d4) (byte_hash_cache d4) (rolling_hash d4) = d4) as ->
    by (by rewrite E4, E3, E2, E1).
  split; [done|]. intros ? [= <-]. split; [congruence|]. by rewrite <- !app_assoc in H4.
Qed.

Lemma threshold_test (h delta scale : Z) :
  0 ≤ delta ≤ u128_max → 0 ≤ scale ≤ u128_max →
  ∃ b, (λ t, h <=? t) <$> deterministic_exponential_threshold delta scale = Ok b.
Proof. intros Hd Hs. destruct (threshold_ok delta scale Hd Hs) as (t & -> & _). by eexists. Qed.

(** The Weibull test compares with the increment of the hazard [measure^shape]. *)
Lemma weibull_boundary_spec h before after tgt shape :
  0 ≤ before ≤ after → after ≤ u64_max → 0 < tgt ≤ u64_max → shape = 1 ∨ shape = 2 →
  ∃ b, weibull_boundary h before after tgt shape = Ok b ∧
    (λ t, h <=? t) <$> deterministic_exponential_threshold
      (after ^ shape - before ^ shape) (tgt ^ shape) = Ok b.
Proof.
  unfold u64_max. intros Hmono Htop Htgt Hshape.
  unfold weibull_boundary. rewrite (Z.max_l tgt) by lia.
  destruct Hshape as [->| ->]; cbn [Z.eqb Pos.eqb].
  - unfold saturating_sub. rewrite !Z.pow_1_r, (Z.max_r 0) by lia.
    destruct (threshold_test h (after - before) tgt) as [b Hb]; [unfold u128_max; lia..|].
    by exists b.
  - destruct (Z.leb_spec (before ^ 2) (after ^ 2)); [|nia].
    destruct (threshold_test h (after ^ 2 - before ^ 2) (tgt ^ 2)) as [b Hb];
      [unfold u128_max; nia..|]. by exists b.
Qed.

(** With the counters and the rolling state of a chunk, the code decides what the
    specification says, and it does not panic. *)
Lemma boundary_here_spec d chunk key value n :
  let e := (key, value, n) in
  Forall (λ e : entry, 0 ≤ e.2) chunk → 0 ≤ n →
  represents d (chunk ++ [e]) → previous_measure d = chunk_size (measure (spec d)) chunk →
  ∃ b, boundary_here d (hash_entry (seed d) (input (spec d)) key value) = Ok b ∧
    cut_spec (spec d) (seed d) chunk e = Ok b.
Proof.
  intros e Hchunk Hn Hrep Hprev. pose proof (measure_of_rep d _ Hrep) as Hm.
  destruct Hrep as [Hwf Hvalid _ _ _ Henc Hroll].
  pose proof (chunk_size_range (measure (spec d)) chunk Hchunk) as Hbefore.
  pose proof (entry_size_nonneg (measure (spec d)) e Hn) as He.
  pose proof (chunk_size_snoc (measure (spec d)) chunk e Hchunk Hn) as Hsnoc.
  apply ChunkingSpec_validate_Ok in Hvalid as (Hmin & Htm & _ & Hrule); [|done].
  destruct Hwf as [_ Hu1 Hu2 _ _ _]. unfold u64, saturating_add in *.
  unfold boundary_here, cut_spec, rule_hit. rewrite Hm, Henc, Hprev.
  set (before := chunk_size (measure (spec d)) chunk) in *.
  set (after := chunk_size (measure (spec d)) (chunk ++ [e])) in *.
  assert (before ≤ after ≤ u64_max) as Hafter by lia. clearbody before after.
  destruct (_ || _); [by exists true|]. destruct (Z.ltb_spec after (min (spec d))); [by exists false|].
  destruct (rule (spec d)) as [factor|shape|window] eqn:Hr.
  - unfold hash_hit. destruct (Z.eqb_spec factor 0); [lia|]. by eexists.
  - apply weibull_boundary_spec; [lia..|done].
  - destruct (Hroll window eq_refl) as [Hcap [_ _ _ Hh]]. rewrite Hcap in Hh. rewrite Hh.
    unfold saturating_sub. rewrite (Z.max_l after) by lia.
    rewrite (Z.max_r 0 (after - _)), (Z.max_r 0 (target _ - _)) by lia.
    edestruct threshold_test as [b Hb]; [| |exists b; split; exact Hb];
      unfold u64_max, u128_max in *; lia.
Qed.

Lemma represents_reset d chunk : represents d chunk → represents (reset d) [].
Proof.
  intros [Hwf Hvalid _ _ _ _ Hroll]. constructor; try done.
  cbn [reset spec]. intros window Hr. destruct (Hroll window Hr) as [Hcap [Hw _ Hc _]].
  split; [done|]. destruct Hw as [? Hnext ?].
  constructor; cbn [reset rolling_window RollingWindow_clear rw_bytes rw_capacity rw_next]; try done.
  - by constructor; cbn; [len_lia|lia|].
  - unfold window_of; cbn [RollingWindow_clear rw_bytes rw_capacity rw_next].
    destruct (len [] <? _); [done|]. by rewrite drop_nil, take_nil.
Qed.

Lemma represents_count d chunk key value n :
  0 ≤ n → represents d chunk →
  let d1 := count_entry d key value n in
  ∃ d2, observe_rolling d1 key value = Ok d2 ∧ represents d2 (chunk ++ [(key, value, n)]) ∧
    spec d2 = spec d ∧ seed d2 = seed d ∧ previous_measure d2 = measure_of d.
Proof.
  intros Hn [Hwf Hvalid Hsz Hent Hlog Henc Hroll] d1.
  destruct (observe_rolling_ok d1 (concat (entry_feed (input (spec d)) <$> chunk)) key value n)
    as (w & c & h & -> & Hroll').
  { intros window Hr. destruct (Hroll window Hr) as [Hcap [????]]. by split; [|constructor]. }
  eexists; split; [done|]. split; [|done].
  constructor; cbn [d1 with_rolling count_entry spec entries logical_bytes encoded_bytes]; try done.
  - apply Forall_app; split; [done|]. by constructor.
  - by rewrite Hent, chunk_size_snoc.
  - rewrite Hlog, chunk_size_snoc by done. unfold saturating_add; cbn [entry_size].
    pose proof (len_nonneg key). pose proof (len_nonneg value). lia.
  - by rewrite Henc, chunk_size_snoc.
  - intros window Hr. rewrite fmap_app, concat_app; cbn [fmap list_fmap concat].
    rewrite app_nil_r. by apply Hroll'.
Qed.

(** One [observe] call implements one step of the specification. *)
Lemma observe_spec d chunk key value n :
  let e := (key, value, n) in
  0 ≤ n → represents d chunk →
  if bool_decide (chunk = []) && (hard_max_node_bytes (spec d) <? n)
  then observe d key value n = Err (EntryTooLarge n (hard_max_node_bytes (spec d)))
  else ∃ b d', observe d key value n = Ok (b, d') ∧
    cut_spec (spec d) (seed d) chunk e = Ok b ∧
    represents d' (if b then [] else chunk ++ [e]) ∧ spec d' = spec d ∧ seed d' = seed d.
Proof.
  intros e Hn Hd. unfold observe. rewrite (rep_entries _ _ Hd), chunk_size_entries_zero.
  destruct (_ && _); [done|].
  destruct (represents_count d chunk key value n Hn Hd) as (d2 & -> & Hd2 & Hsp & Hsd & Hprev).
  cbn [mbind outcome_bind].
  destruct (boundary_here_spec d2 chunk key value n (rep_sizes _ _ Hd) Hn Hd2) as (b & Hb & Hcut).
  { by rewrite Hprev, Hsp, (measure_of_rep d chunk Hd). }
  cbn [count_entry seed spec]. rewrite Hsp, Hsd in *. rewrite Hb. cbn [mbind outcome_bind].
  eexists b, _. split; [done|]. split; [done|].
  destruct b; [split; [by eapply represents_reset|done]|done].
Qed.

Lemma raise_min_valid sp level :
  ChunkingSpec_wf sp → ChunkingSpec_validate sp = Ok tt →
  ChunkingSpec_wf (raise_min sp level) ∧ ChunkingSpec_validate (raise_min sp level) = Ok tt.
Proof.
  intros Hwf Hv. unfold raise_min. destruct (_ && _) eqn:E; [|done].
  apply andb_true_iff in E as [_ Hlt%Z.ltb_lt].
  pose proof Hv as Hv'. apply ChunkingSpec_validate_Ok in Hv' as (? & ? & ? & ?); [|done].
  assert (ChunkingSpec_wf (Config.with_bounds 2 (Z.max (target sp) 2) (Z.max (max sp) 2) sp)) as Hwf'.
  { destruct Hwf; constructor; cbn; unfold u64, u64_max in *; (done || lia). }
  split; [done|]. apply ChunkingSpec_validate_Ok; [done|]. cbn. repeat split; (done || lia).
Qed.

Lemma BoundaryDetector_new_spec sp level :
  ChunkingSpec_wf sp → ChunkingSpec_validate sp = Ok tt →
  ∃ d, BoundaryDetector_new sp level = Ok d ∧ represents d [] ∧
    spec d = raise_min sp level ∧ seed d = level_seed sp level.
Proof.
  intros Hwf Hv. destruct (raise_min_valid sp level Hwf Hv) as [Hwf' Hv'].
  assert (level_seed (raise_min sp level) level = level_seed sp level) as Hseed
    by (unfold raise_min; by destruct (_ && _)).
  unfold BoundaryDetector_new. rewrite Hv; cbn [mbind outcome_bind].
  eexists; split; [done|]. split; [|done]. constructor; cbn [spec]; try done.
  intros window Hr. cbn [rolling_window]. rewrite Hr. split; [done|].
  apply ChunkingSpec_validate_Ok in Hv' as (_ & _ & _ & Hw); [|done]. rewrite Hr in Hw.
  constructor; cbn [rolling_window byte_hash_cache seed rolling_hash]; rewrite ?Hr; try done.
  - constructor; cbn; [len_lia|lia|done].
  - unfold window_of; cbn. by destruct window.
  - eexists; split; [done|]. apply ByteHashCache_new_ok.
Qed.

(** The decisions of a whole run. *)
Lemma observe_all_spec xs d chunk :
  Forall (λ e : entry, 0 ≤ e.2) xs → represents d chunk →
  (fst <$> observe_all d xs = cut_all (spec d) (seed d) chunk xs) ∧
  (∀ msg, observe_all d xs ≠ Panic msg).
Proof.
  intros Hxs; revert d chunk; induction Hxs as [|[[key value] n] xs Hn _ IH]; intros d chunk Hd.
  { by split. }
  cbn [observe_all cut_all snd]. pose proof (observe_spec d chunk key value n Hn Hd) as Hobs.
  destruct (_ && _); [by rewrite Hobs|].
  destruct Hobs as (b & d' & -> & -> & Hd' & Hsp & Hsd). cbn [mbind outcome_bind].
  destruct (IH _ _ Hd') as [Hrun Hnp]. rewrite <- Hsp, <- Hsd, <- Hrun.
  destruct (observe_all d' xs) as [[bs d'']|err|msg]; [by split..|by destruct (Hnp msg)].
Qed.

Lemma observe_all_state xs d chunk bs d' :
  Forall (λ e : entry, 0 ≤ e.2) xs → represents d chunk → observe_all d xs = Ok (bs, d') →
  represents d' (split_chunks chunk xs bs).2 ∧ spec d' = spec d ∧ seed d' = seed d ∧
  length bs = length xs.
Proof.
  intros Hxs; revert d chunk bs; induction Hxs as [|[[key value] n] xs Hn _ IH];
    intros d chunk bs Hd Hrun; cbn [observe_all] in Hrun.
  { injection Hrun as <- <-. cbn. by rewrite app_nil_r. }
  pose proof (observe_spec d chunk key value n Hn Hd) as Hobs.
  destruct (_ && _); [by rewrite Hobs in Hrun|].
  destruct Hobs as (b & d1 & Ho & _ & Hd1 & Hsp & Hsd). rewrite Ho in Hrun.
  cbn [mbind outcome_bind] in Hrun.
  apply outcome_bind_Ok in Hrun as ([bs' d2] & E & [= <- <-]).
  destruct (IH _ _ _ Hd1 E) as (Hd2 & Hsp' & Hsd' & Hlen).
  split; [|cbn; repeat split; congruence].
  destruct b; cbn [split_chunks]; [|done]. by destruct (split_chunks [] xs bs').
Qed.

Lemma split_chunks_cut chunk xs bs :
  length bs = length xs → List.last bs false = true → (split_chunks chunk xs bs).2 = [].
Proof.
  revert chunk bs; induction xs as [|e xs IH]; intros chunk [|b bs] Hlen Hlast; try done.
  injection Hlen as Hlen. destruct bs as [|b' bs].
  { cbn in Hlast; subst b. by destruct xs. }
  destruct b; cbn [split_chunks]; [|by apply IH].
  pose proof (IH [] (b' :: bs) Hlen Hlast) as Hrest.
  by destruct (split_chunks [] xs (b' :: bs)).
Qed.

(** C34. The detector implements its specification: over any run of entries the
    decisions (and the oversized-entry errors) of the incremental detector, with
    its counters, ring buffer, byte-hash cache and rolling hash, are the ones
    computed from the entries of each chunk alone, and no call panics. *)
Theorem observe_refines_spec sp level d xs :
  ChunkingSpec_wf sp → BoundaryDetector_new sp level = Ok d →
  Forall (λ e : entry, 0 ≤ e.2) xs →
  (fst <$> observe_all d xs = cut_all (raise_min sp level) (level_seed sp level) [] xs) ∧
  (∀ msg, observe_all d xs ≠ Panic msg).
Proof.
  intros Hwf Hnew Hxs. pose proof Hnew as Hv. unfold BoundaryDetector_new in Hv.
  apply outcome_bind_Ok in Hv as ([] & E & _).
  destruct (BoundaryDetector_new_spec sp level Hwf E) as (d' & Hnew' & Hd & <- & <-).
  assert (d' = d) as -> by congruence. by apply observe_all_spec.
Qed.

(** Boundaries resynchronise: once a cut has been made, the decisions on the
    entries that follow are those of a fresh detector, whatever came before. *)
Theorem cut_forgets_history sp level d xs bs d1 ys :
  ChunkingSpec_wf sp → BoundaryDetector_new sp level = Ok d →
  Forall (λ e : entry, 0 ≤ e.2) xs → Forall (λ e : entry, 0 ≤ e.2) ys →
  observe_all d xs = Ok (bs, d1) → List.last bs false = true →
  fst <$> observe_all d1 ys = fst <$> observe_all d ys.
Proof.
  intros Hwf Hnew Hxs Hys Hrun Hlast.
  pose proof Hnew as Hv. unfold BoundaryDetector_new in Hv.
  apply outcome_bind_Ok in Hv as ([] & E & _).
  destruct (BoundaryDetector_new_spec sp level Hwf E) as (d' & Hnew' & Hd & _ & _).
  assert (d' = d) as -> by congruence.
  destruct (observe_all_state xs d [] bs d1 Hxs Hd Hrun) as (Hd1 & Hsp & Hsd & Hlen).
  rewrite split_chunks_cut in Hd1 by done.
  rewrite (proj1 (observe_all_spec ys d1 [] Hys Hd1)), (proj1 (observe_all_spec ys d [] Hys Hd)).
  by rewrite Hsp, Hsd.
Qed.

(** What [cut_spec] guarantees about a chunk. *)
Definition within_limits (sp : ChunkingSpec) (chunk : list entry) : Prop :=
  chunk_size (measure sp) chunk < max sp ∧ chunk_size EncodedBytes chunk < hard_max_node_bytes sp.
Definition closed_chunk (sp : ChunkingSpec) (chunk : list entry) : Prop :=
  ∃ init e, chunk = init ++ [e] ∧ within_limits sp init ∧
    (min sp ≤ chunk_size (measure sp) chunk ∨ hard_max_node_bytes sp ≤ chunk_size EncodedBytes chunk).

Lemma within_limits_nil sp :
  0 < max sp → 0 < hard_max_node_bytes sp → within_limits sp [].
Proof. done. Qed.

Lemma cut_spec_bounds sp sd chunk e b :
  min sp ≤ max sp → cut_spec sp sd chunk e = Ok b →
  if b then min sp ≤ chunk_size (measure sp) (chunk ++ [e]) ∨
            hard_max_node_bytes sp ≤ chunk_size EncodedBytes (chunk ++ [e])
  else within_limits sp (chunk ++ [e]).
Proof.
  intros Hmm. unfold cut_spec, within_limits.
  destruct (Z.leb_spec (hard_max_node_bytes sp) (chunk_size EncodedBytes (chunk ++ [e])));
    cbn [orb]; [intros [= <-]; by right|].
  destruct (Z.leb_spec (max sp) (chunk_size (measure sp) (chunk ++ [e])));
    [intros [= <-]; left; lia|].
  destruct (Z.ltb_spec (chunk_size (measure sp) (chunk ++ [e])) (min sp)); [by intros [= <-]|].
  intros _. destruct b; [by left|done].
Qed.

Lemma observe_all_chunks xs d chunk bs d' :
  Forall (λ e : entry, 0 ≤ e.2) xs → represents d chunk → within_limits (spec d) chunk →
  observe_all d xs = Ok (bs, d') →
  let '(closed, rest) := split_chunks chunk xs bs in
  concat closed ++ rest = chunk ++ xs ∧ Forall (closed_chunk (spec d)) closed ∧
  within_limits (spec d) rest.
Proof.
  intros Hxs; revert d chunk bs; induction Hxs as [|[[key value] n] xs Hn _ IH];
    intros d chunk bs Hd Hlim Hrun; cbn [observe_all] in Hrun.
  { injection Hrun as <- <-. cbn. by rewrite app_nil_r. }
  pose proof (observe_spec d chunk key value n Hn Hd) as Hobs.
  destruct (_ && _); [by rewrite Hobs in Hrun|].
  destruct Hobs as (b & d1 & Ho & Hcut & Hd1 & Hsp & Hsd). rewrite Ho in Hrun.
  cbn [mbind outcome_bind] in Hrun.
  apply outcome_bind_Ok in Hrun as ([bs' d2] & E & [= <- <-]).
  pose proof (rep_valid _ _ Hd) as Hv.
  apply ChunkingSpec_validate_Ok in Hv as (? & ? & ? & _); [|by apply rep_wf in Hd].
  apply cut_spec_bounds in Hcut; [|lia]. rewrite <- Hsp in *.
  destruct b; cbn [split_chunks].
  - specialize (IH d1 [] bs' Hd1). destruct (split_chunks [] xs bs') as [closed rest].
    destruct IH as (Hcat & Hcl & Hrest); [apply within_limits_nil; lia|done|].
    split; [cbn; by rewrite <- !app_assoc, Hcat|]. split; [|done].
    constructor; [by eexists _, _|done].
  - specialize (IH d1 (chunk ++ [(key, value, n)]) bs' Hd1 Hcut E).
    destruct (split_chunks _ xs bs') as [closed rest].
    destruct IH as (Hcat & ? & ?). split; [by rewrite Hcat, <- app_assoc|done].
Qed.

(** C35. Chunk sizes are bounded: cutting a run at the detector's decisions loses
    and reorders nothing; every closed chunk reaches the minimum measure (at least
    two on internal levels) or the hard byte limit, and no chunk goes on past the
    entry with which it reaches the maximum measure or the hard byte limit. *)
Theorem chunk_sizes_bounded sp level d xs bs d' :
  ChunkingSpec_wf sp → BoundaryDetector_new sp level = Ok d →
  Forall (λ e : entry, 0 ≤ e.2) xs → observe_all d xs = Ok (bs, d') →
  let '(closed, rest) := split_chunks [] xs bs in
  concat closed ++ rest = xs ∧ Forall (closed_chunk (raise_min sp level)) closed ∧
  within_limits (raise_min sp level) rest.
Proof.
  intros Hwf Hnew Hxs Hrun. pose proof Hnew as Hv. unfold BoundaryDetector_new in Hv.
  apply outcome_bind_Ok in Hv as ([] & E & _).
  destruct (BoundaryDetector_new_spec sp level Hwf E) as (d0 & Hnew' & Hd & <- & _).
  assert (d0 = d) as -> by congruence. apply (observe_all_chunks xs d [] bs d'); try done.
  pose proof (rep_valid _ _ Hd) as Hv'.
  apply ChunkingSpec_validate_Ok in Hv' as (? & ? & ? & _); [|by apply rep_wf in Hd].
  apply within_limits_nil; lia.
Qed.

(** The stateless probe agrees with the detector: on a leaf level, or with a
    minimum of at least two, [entry_count_boundary] called with the number of
    entries of the current chunk returns what [observe] decides, as long as the
    hard byte limit is not reached. *)
Theorem entry_count_boundary_agrees sp level d xs bs d1 key value n b d2 :
  ChunkingSpec_wf sp → level = 0 ∨ 2 ≤ min sp → BoundaryDetector_new sp level = Ok d →
  Forall (λ e : entry, 0 ≤ e.2) xs → 0 ≤ n →
  observe_all d xs = Ok (bs, d1) → observe d1 key value n = Ok (b, d2) →
  let count := len (split_chunks [] xs bs).2 + 1 in
  count ≤ u64_max → encoded_bytes d1 + n < hard_max_node_bytes sp →
  (∃ factor, rule sp = HashThreshold factor) → measure sp = EntryCount → input sp = Key →
  entry_count_boundary sp level count key = Ok b.
Proof.
  intros Hwf Hlevel Hnew Hxs Hn Hrun Hobs count Hcount Hhard [factor Hrule] Hm Hi.
  pose proof Hnew as Hv. unfold BoundaryDetector_new in Hv.
  apply outcome_bind_Ok in Hv as ([] & E & _).
  destruct (BoundaryDetector_new_spec sp level Hwf E) as (d0 & Hnew' & Hd & Hsp & Hsd).
  assert (d0 = d) as -> by congruence.
  assert (raise_min sp level = sp) as Hraise.
  { unfold raise_min. destruct (Z.ltb_spec 0 level), (Z.ltb_spec (min sp) 2); cbn; (done || lia). }
  rewrite Hraise in Hsp.
  destruct (observe_all_state xs d [] bs d1 Hxs Hd Hrun) as (Hd1 & Hsp1 & Hsd1 & _).
  set (chunk := (split_chunks [] xs bs).2) in *.
  pose proof (observe_spec d1 chunk key value n Hn Hd1) as Hspec.
  destruct (_ && _); [by rewrite Hspec in Hobs|].
  destruct Hspec as (b' & d2' & Hobs' & Hcut & _). assert (b' = b) as -> by congruence.
  rewrite Hsp1, Hsp, Hsd1, Hsd in Hcut. unfold cut_spec in Hcut. rewrite Hm, Hi, Hrule in Hcut.
  rewrite !chunk_size_snoc, <- (rep_encoded _ _ Hd1) in Hcut by (done || apply (rep_sizes _ _ Hd1)).
  rewrite chunk_size_entries in Hcut. cbn [entry_size] in Hcut.
  replace (saturating_add u64_max (Z.min u64_max (len chunk)) 1) with count in Hcut
    by (unfold saturating_add; lia).
  destruct (Z.leb_spec (hard_max_node_bytes sp) (saturating_add u64_max (encoded_bytes d1) n));
    [unfold saturating_add in *; lia|]. cbn [orb] in Hcut.
  unfold entry_count_boundary. rewrite E, Hrule, Hm, Hi. cbn [mbind outcome_bind].
  unfold hash_hit. pose proof (validate_factor sp factor Hwf E Hrule).
  destruct (Z.eqb_spec factor 0); [lia|]. exact Hcut.
Qed.

(** On an internal level with a minimum below two the probe and the detector
    disagree: the detector raises the minimum to two and keeps a one-entry chunk
    open where the probe, which reads the persisted bounds, reports a cut. *)
Theorem entry_count_boundary_internal_min_one sp key value n :
  ChunkingSpec_wf sp → ChunkingSpec_validate sp = Ok tt → max sp = 1 →
  (∃ factor, rule sp = HashThreshold factor) → measure sp = EntryCount → input sp = Key →
  0 ≤ n < hard_max_node_bytes sp →
  entry_count_boundary sp 1 1 key = Ok true ∧
  ∃ d d', BoundaryDetector_new sp 1 = Ok d ∧ observe d key value n = Ok (false, d').
Proof.
  intros Hwf Hv Hmax [factor Hrule] Hm Hi Hn. split.
  { unfold entry_count_boundary. by rewrite Hv, Hrule, Hm, Hi, Hmax. }
  destruct (BoundaryDetector_new_spec sp 1 Hwf Hv) as (d & Hnew & Hd & Hsp & Hsd).
  pose proof (observe_spec d [] key value n ltac:(lia) Hd) as Hobs.
  pose proof Hv as Hv'. apply ChunkingSpec_validate_Ok in Hv' as (? & ? & _); [|done].
  assert (raise_min sp 1 = Config.with_bounds 2 (Z.max (target sp) 2) (Z.max (max sp) 2) sp) as Hr
    by (unfold raise_min; by destruct (Z.ltb_spec (min sp) 2); [|lia]).
  rewrite Hsp, Hr in Hobs. cbn [hard_max_node_bytes Config.with_bounds] in Hobs.
  destruct (Z.ltb_spec (hard_max_node_bytes sp) n); [lia|]. rewrite andb_false_r in Hobs.
  destruct Hobs as (b & d' & Ho & Hcut & _). exists d, d'. split; [done|].
  unfold cut_spec in Hcut. cbn [measure hard_max_node_bytes max min Config.with_bounds] in Hcut.
  rewrite Hm, !chunk_size_snoc in Hcut by (done || (cbn; lia)). cbn [entry_size] in Hcut.
  change (saturating_add u64_max (chunk_size EntryCount []) 1) with 1 in Hcut.
  change (chunk_size EncodedBytes []) with 0 in Hcut.
  destruct (Z.leb_spec (hard_max_node_bytes sp) (saturating_add u64_max 0 n));
    [unfold saturating_add in *; lia|]. cbn [orb] in Hcut.
  destruct (Z.leb_spec (Z.max (max sp) 2) 1); [lia|]. cbn in Hcut. congruence.
Qed.

End rolling.

(** Instances of the theorems above on a small policy. *)
Definition small_spec : ChunkingSpec := Config.with_bounds 1 1 2 ChunkingSpec_default.
Definition small_entries : list entry :=
  [([Byte.x01], [Byte.x0a], 9); ([Byte.x02], [Byte.x0b], 9); ([Byte.x03], [Byte.x0c], 9)].

Lemma small_spec_wf : ChunkingSpec_wf small_spec.
Proof. constructor; by vm_compute. Qed.
Lemma small_entries_ok : Forall (λ e : entry, 0 ≤ e.2) small_entries.
Proof. by repeat constructor. Qed.

Local Existing Instance sample_hashes.
Local Existing Instance sample_hashes_ok.

Definition small_detector : outcome Error BoundaryDetector := BoundaryDetector_new small_spec 1.

Lemma observe_refines_spec_witness : ∃ d, small_detector = Ok d ∧
  fst <$> observe_all d small_entries
    = cut_all (raise_min small_spec 1) (level_seed small_spec 1) [] small_entries.
Proof.
  eexists. split; [reflexivity|].
  apply (observe_refines_spec small_spec 1 _ small_entries small_spec_wf eq_refl small_entries_ok).
Defined.

Lemma cut_forgets_history_witness : ∃ d bs d1, small_detector = Ok d ∧
  observe_all d (take 2 small_entries) = Ok (bs, d1) ∧
  fst <$> observe_all d1 small_entries = fst <$> observe_all d small_entries.
Proof.
  eexists _, _, _. split; [reflexivity|]. split; [vm_compute; reflexivity|].
  eapply (cut_forgets_history small_spec 1 _ (take 2 small_entries)).
  - apply small_spec_wf.
  - reflexivity.
  - by repeat constructor.
  - apply small_entries_ok.
  - vm_compute. reflexivity.
  - reflexivity.
Defined.

Lemma chunk_sizes_bounded_witness : ∃ d d', small_detector = Ok d ∧
  observe_all d small_entries = Ok ([false; true; false], d') ∧
  let '(closed, rest) := split_chunks [] small_entries [false; true; false] in
  concat closed ++ rest = small_entries ∧
  Forall (closed_chunk (raise_min small_spec 1)) closed ∧
  within_limits (raise_min small_spec 1) rest.
Proof.
  eexists _, _. split; [reflexivity|]. split; [vm_compute; reflexivity|].
  eapply (chunk_sizes_bounded small_spec 1 _ small_entries _ _ small_spec_wf eq_refl small_entries_ok).
  vm_compute. reflexivity.
Defined.

Lemma entry_count_boundary_agrees_witness :
  entry_count_boundary small_spec 0 2 [Byte.x02] = Ok true.
Proof.
  eapply (entry_count_boundary_agrees small_spec 0 _ (take 1 small_entries) [false] _
    [Byte.x02] [Byte.x0b] 9 true).
  - apply small_spec_wf.
  - by left.
  - reflexivity.
  - by repeat constructor.
  - done.
  - vm_compute. reflexivity.
  - vm_compute. reflexivity.
  - by vm_compute.
  - by vm_compute.
  - by eexists.
  - done.
  - done.
Defined.

Definition unit_spec : ChunkingSpec := Config.with_bounds 1 1 1 ChunkingSpec_default.

Lemma entry_count_boundary_internal_min_one_witness :
  entry_count_boundary unit_spec 1 1 [Byte.x02] = Ok true ∧
  ∃ d d', BoundaryDetector_new unit_spec 1 = Ok d ∧ observe d [Byte.x02] [] 9 = Ok (false, d').
Proof.
  apply (entry_count_boundary_internal_min_one unit_spec [Byte.x02] [] 9).
  - constructor; by vm_compute.
  - done.
  - done.
  - by exists DEFAULT_CHUNKING_FACTOR.
  - done.
  - done.
  - by vm_compute.
Defined.

End Boundary.
