(* ===== verification/Node.v ===== *)
(** * Tree nodes and their compact codec (src/prolly/node.rs)

    The [Node] structure, its structural validation, key search, the three
    built-in physical layouts (plain, prefix-compressed, offset table) with
    their encoders, decoders and size computation, and the node builder. *)

From Stdlib Require Import ZArith Lia Strings.Byte.
From stdpp Require Import base tactics numbers list strings option pretty sorting sets.
From S2P Require Import Prelude Cursor Types Format.
Import Format.

Local Open Scope Z_scope.

Module Node.

Definition COMPACT_MAGIC : bytes := [Byte.x43; Byte.x52; Byte.x41; Byte.x42].
Definition COMPACT_VERSION : Z := 2.

Record Node := {
  keys : list bytes;
  vals : list bytes;
  child_counts : list Z;
  leaf : bool;
  level : Z;
  format : TreeFormat;
}.

Definition Node_default : Node := {|
  keys := []; vals := []; child_counts := []; leaf := true; level := INIT_LEVEL;
  format := TreeFormat_default |}.

Definition new_leaf : Node := Node_default.
Definition new_internal (lv : Z) : Node := {|
  keys := []; vals := []; child_counts := []; leaf := false; level := lv;
  format := TreeFormat_default |}.

Definition compact_error (message : string) : Error := Deserialize ("compact node: " +:+ message).

(** ** Search: [slice::binary_search_by] *)
Inductive search_result := Found (i : nat) | Insert (i : nat).

Fixpoint search_base (fuel : nat) (ks : list bytes) (key : bytes) (base size : nat) : nat :=
  match fuel with
  | O => base
  | S fuel' =>
      if (1 <? size)%nat then
        let half := (size / 2)%nat in
        let mid := (base + half)%nat in
        let base' := match bcmp (default [] (ks !! mid)) key with Gt => base | _ => mid end in
        search_base fuel' ks key base' (size - half)
      else base
  end.

Definition search (ks : list bytes) (key : bytes) : search_result :=
  match ks with
  | [] => Insert 0
  | _ =>
      let base := search_base (length ks) ks key 0 (length ks) in
      match bcmp (default [] (ks !! base)) key with
      | Eq => Found base
      | Lt => Insert (S base)
      | Gt => Insert base
      end
  end.

Definition Node_search (self : Node) (key : bytes) : search_result := search (keys self) key.

(** ** Structural validation *)

(** [!keys.windows(2).any(|pair| pair[0] >= pair[1])]. *)
Fixpoint sorted_keys (ks : list bytes) : bool :=
  match ks with
  | k1 :: (k2 :: _) as rest => bltb k1 k2 && sorted_keys rest
  | _ => true
  end.

Definition Node_validate (self : Node) : outcome Error () :=
  validate (format self) ≫= λ _,
  if negb (length (keys self) =? length (vals self))%nat || negb (sorted_keys (keys self))
  then Err InvalidNode
  else if leaf self then
    if bool_decide (child_counts self = []) then Ok tt else Err InvalidNode
  else if bool_decide (keys self = [])
       || negb (length (child_counts self) =? length (keys self))%nat
       || existsb (Z.eqb 0) (child_counts self)
  then Err InvalidNode else Ok tt.

(** ** Variable-length integers *)

(** [while value >= 0x80]; ten bytes hold any [u64]. *)
Fixpoint varint (fuel : nat) (value : Z) : bytes :=
  match fuel with
  | O => [byte_of value]
  | S fuel' =>
      if 128 <=? value
      then byte_of (Z.lor (Z.land (wrap 8 value) 127) 128) :: varint fuel' (Z.shiftr value 7)
      else [byte_of value]
  end.
Definition varint_fuel : nat := 10.

Definition write_varint (value : Z) (out : bytes) : bytes := out ++ varint varint_fuel value.

Fixpoint varint_len_loop (fuel : nat) (value n : Z) : Z :=
  match fuel with
  | O => n
  | S fuel' => if 128 <=? value then varint_len_loop fuel' (Z.shiftr value 7) (n + 1) else n
  end.
Definition varint_len (value : Z) : Z := varint_len_loop varint_fuel value 1.

Fixpoint common_prefix_len (left right : bytes) : Z :=
  match left, right with
  | a :: left', b :: right' => if bool_decide (a = b) then 1 + common_prefix_len left' right' else 0
  | _, _ => 0
  end.

(** ** Encoding *)

(** [keys.iter().zip(&vals).enumerate()] with [child_counts.get(index).unwrap_or(&0)]. *)
Abbreviation node_entry := (bytes * bytes * Z)%type.
Definition node_entries (self : Node) : list node_entry :=
  imap (λ i '(k, v), (k, v, default 0 (child_counts self !! i))) (zip (keys self) (vals self)).

Definition write_count (lf : bool) (count : Z) (out : bytes) : bytes :=
  if lf then out else write_varint count out.

Fixpoint encode_prefix (lf : bool) (previous_key : bytes) (es : list node_entry) (out : bytes)
    : bytes :=
  match es with
  | [] => out
  | (key, val, count) :: es' =>
      let shared := common_prefix_len previous_key key in
      let suffix := drop (Z.to_nat shared) key in
      let out := write_varint shared out in
      let out := write_varint (len suffix) out in
      let out := out ++ suffix in
      let out := write_varint (len val) out in
      let out := out ++ val in
      let out := write_count lf count out in
      encode_prefix lf key es' out
  end.

Fixpoint encode_plain (lf : bool) (es : list node_entry) (out : bytes) : bytes :=
  match es with
  | [] => out
  | (key, val, count) :: es' =>
      let out := write_varint (len key) out in
      let out := out ++ key in
      let out := write_varint (len val) out in
      let out := out ++ val in
      let out := write_count lf count out in
      encode_plain lf es' out
  end.

Fixpoint encode_offsets (lf : bool) (es : list node_entry) (payload out : bytes)
    : bytes * bytes :=
  match es with
  | [] => (payload, out)
  | (key, val, count) :: es' =>
      let out := write_varint (len payload) out in
      let out := write_varint (len key) out in
      let payload := payload ++ key in
      let out := write_varint (len payload) out in
      let out := write_varint (len val) out in
      let payload := payload ++ val in
      let out := write_count lf count out in
      encode_offsets lf es' payload out
  end.

Definition no_codec {A} (id : bytes) : outcome Error A :=
  Err (InvalidFormat ("node layout '" +:+ text id +:+ "' has no registered codec")).

(** The format block: empty for the default format. *)
Definition node_format_bytes (f : TreeFormat) : outcome Error bytes :=
  if bool_decide (f = TreeFormat_default) then Ok [] else canonical_bytes f.

Definition to_compact_bytes (self : Node) : outcome Error bytes :=
  fb ← node_format_bytes (format self);
  let estimated_entries := saturating_mul usize_max (len (keys self)) 48 in
  let estimated_capacity :=
    saturating_add usize_max
      (saturating_add usize_max (saturating_add usize_max (len fb) (len COMPACT_MAGIC)) 32)
      estimated_entries in
  vec_with_capacity estimated_capacity 1 ≫= λ _,
  let out := COMPACT_MAGIC in
  let out := write_varint COMPACT_VERSION out in
  let out := write_varint (len fb) out in
  let out := out ++ fb in
  let out := write_varint (if leaf self then 1 else 0) out in
  let out := write_varint (level self) out in
  let out := write_varint (len (keys self)) out in
  match node_layout (format self) with
  | PrefixCompressed => Ok (encode_prefix (leaf self) [] (node_entries self) out)
  | Plain => Ok (encode_plain (leaf self) (node_entries self) out)
  | OffsetTable =>
      let '(payload, out) := encode_offsets (leaf self) (node_entries self) [] out in
      let out := write_varint (len payload) out in
      Ok (out ++ payload)
  | Custom id _ => no_codec id
  end.

Definition try_to_bytes : Node → outcome Error bytes := to_compact_bytes.

Definition to_bytes (self : Node) : outcome Error bytes :=
  match try_to_bytes self with
  | Ok b => Ok b
  | _ => Panic "node uses a registered, valid persisted format"
  end.

Definition Node_cid `{Hashes} (self : Node) : outcome Error Cid := Cid_from_bytes <$> to_bytes self.

(** ** Encoded size without encoding *)
Definition count_len (lf : bool) (count : Z) : Z := if lf then 0 else varint_len count.

Fixpoint prefix_len (lf : bool) (previous_key : bytes) (es : list node_entry) (n : Z) : Z :=
  match es with
  | [] => n
  | (key, val, count) :: es' =>
      let shared := common_prefix_len previous_key key in
      let suffix_len := len key - shared in
      prefix_len lf key es'
        (n + (varint_len shared + varint_len suffix_len + suffix_len
              + varint_len (len val) + len val) + count_len lf count)
  end.

Fixpoint plain_len (lf : bool) (es : list node_entry) (n : Z) : Z :=
  match es with
  | [] => n
  | (key, val, count) :: es' =>
      plain_len lf es'
        (n + (varint_len (len key) + len key + varint_len (len val) + len val) + count_len lf count)
  end.

Fixpoint offsets_len (lf : bool) (es : list node_entry) (payload_len n : Z) : Z * Z :=
  match es with
  | [] => (payload_len, n)
  | (key, val, count) :: es' =>
      let n := n + (varint_len payload_len + varint_len (len key)
                    + varint_len (payload_len + len key) + varint_len (len val)) in
      let n := n + count_len lf count in
      offsets_len lf es'
        (saturating_add usize_max (saturating_add usize_max payload_len (len key)) (len val)) n
  end.

Definition try_encoded_len_with_format (self : Node) (fb : bytes) : outcome Error Z :=
  let n := len COMPACT_MAGIC + varint_len COMPACT_VERSION + varint_len (len fb) + len fb
           + varint_len (if leaf self then 1 else 0) + varint_len (level self)
           + varint_len (len (keys self)) in
  match node_layout (format self) with
  | PrefixCompressed => Ok (prefix_len (leaf self) [] (node_entries self) n)
  | Plain => Ok (plain_len (leaf self) (node_entries self) n)
  | OffsetTable =>
      let '(payload_len, n) := offsets_len (leaf self) (node_entries self) 0 n in
      Ok (n + (varint_len payload_len + payload_len))
  | Custom id _ => no_codec id
  end.

Definition try_encoded_len (self : Node) : outcome Error Z :=
  fb ← node_format_bytes (format self);
  try_encoded_len_with_format self fb.

(** ** Decoding *)
Definition read_byte : reader Error byte := λ c,
  b ← ok_or (compact_error "unexpected end of bytes") (cdata c !! Z.to_nat (cpos c));
  Ok (b, {| cdata := cdata c; cpos := cpos c + 1 |}).

Definition read_bytes (n : Z) : reader Error bytes :=
  cursor_read (compact_error "byte range overflow") (compact_error "unexpected end of bytes") n.

Definition expect_magic : reader Error () := λ c,
  if (len (cdata c) <? len COMPACT_MAGIC)
     || negb (bool_decide (take (length COMPACT_MAGIC) (cdata c) = COMPACT_MAGIC))
  then Err (compact_error "missing compact node magic")
  else Ok (tt, {| cdata := cdata c; cpos := len COMPACT_MAGIC |}).

(** [for _ in 0..10], the remaining iterations as [n]. *)
Fixpoint read_varint_loop (n : nat) (shift value : Z) : reader Error Z :=
  match n with
  | O => fail (compact_error "varint overflow")
  | S n' =>
      b ← read_byte;
      let part := Z.land (bval b) 127 in
      if (shift =? 63) && (1 <? part) then fail (compact_error "varint overflow")
      else
        let value := Z.lor value (wrap 64 (Z.shiftl part shift)) in
        if Z.land (bval b) 128 =? 0 then mret value
        else read_varint_loop n' (shift + 7) value
  end.
Definition read_varint : reader Error Z := read_varint_loop 10 0 0.

Definition read_u8_varint (field : string) : reader Error Z :=
  value ← read_varint;
  if value <=? u8_max then mret value else fail (compact_error (field +:+ " exceeds u8")).

Definition read_usize (field : string) : reader Error Z :=
  value ← read_varint;
  if value <=? usize_max then mret value else fail (compact_error (field +:+ " exceeds usize")).

Definition read_compact_child_count (lf : bool) : reader Error Z :=
  if lf then mret 0
  else
    child_count ← read_varint;
    if child_count =? 0 then fail InvalidNode else mret child_count.

(** The vectors being filled. *)
Record Acc := { akeys : list bytes; avals : list bytes; acounts : list Z }.

Definition read_count (lf : bool) (counts : list Z) : reader Error (list Z) :=
  if lf then mret counts
  else child_count ← read_compact_child_count false; mret (counts ++ [child_count]).

(** [keys.last().is_some_and(|previous| previous >= key)]. *)
Definition unsorted_after (ks : list bytes) (key : bytes) : bool :=
  match reverse ks with [] => false | previous :: _ => bleb key previous end.

Definition last_key (ks : list bytes) : bytes :=
  match reverse ks with [] => [] | previous :: _ => previous end.

Definition prefix_entry (lf : bool) (acc : Acc) : reader Error Acc :=
  let previous_key := last_key (akeys acc) in
  shared ← read_usize "shared key prefix length";
  if len previous_key <? shared
  then fail (compact_error "shared key prefix exceeds previous key")
  else
    suffix_len ← read_usize "key suffix length";
    lift (vec_with_capacity (saturating_add usize_max shared suffix_len) 1) ≫= λ _,
    suffix ← read_bytes suffix_len;
    let key := take (Z.to_nat shared) previous_key ++ suffix in
    if bleb key previous_key && negb (bool_decide (akeys acc = [])) then fail InvalidNode
    else
      value_len ← read_usize "value length";
      val ← read_bytes value_len;
      counts ← read_count lf (acounts acc);
      mret {| akeys := akeys acc ++ [key]; avals := avals acc ++ [val]; acounts := counts |}.

Definition plain_entry (lf : bool) (acc : Acc) : reader Error Acc :=
  key_len ← read_usize "key length";
  key ← read_bytes key_len;
  if unsorted_after (akeys acc) key then fail InvalidNode
  else
    value_len ← read_usize "value length";
    val ← read_bytes value_len;
    counts ← read_count lf (acounts acc);
    mret {| akeys := akeys acc ++ [key]; avals := avals acc ++ [val]; acounts := counts |}.

Abbreviation offset_entry := (Z * Z * Z * Z)%type.

Definition table_entry (lf : bool) (s : list offset_entry * list Z)
    : reader Error (list offset_entry * list Z) :=
  let '(offsets, counts) := s in
  key_offset ← read_usize "key offset";
  key_len ← read_usize "key length";
  value_offset ← read_usize "value offset";
  value_len ← read_usize "value length";
  counts ← read_count lf counts;
  mret (offsets ++ [(key_offset, key_len, value_offset, value_len)], counts).

Definition slice_payload (payload : bytes) (offset n : Z) (field : string) : outcome Error bytes :=
  stop ← ok_or (compact_error (field +:+ " offset overflow")) (checked_add usize_max offset n);
  ok_or (compact_error (field +:+ " offset outside payload")) (slice payload offset stop).

(** [for _ in 0..n]. *)
Fixpoint for_range {A} (n : nat) (body : A → reader Error A) (a : A) : reader Error A :=
  match n with
  | O => mret a
  | S n' => a ← body a; for_range n' body a
  end.

Fixpoint resolve_offsets (payload : bytes) (offsets : list offset_entry) (acc : Acc)
    : outcome Error Acc :=
  match offsets with
  | [] => Ok acc
  | (key_offset, key_len, value_offset, value_len) :: rest =>
      key ← slice_payload payload key_offset key_len "key";
      if unsorted_after (akeys acc) key then Err InvalidNode
      else
        val ← slice_payload payload value_offset value_len "value";
        resolve_offsets payload rest
          {| akeys := akeys acc ++ [key]; avals := avals acc ++ [val]; acounts := acounts acc |}
  end.

Definition offset_table (lf : bool) (n : Z) (acc : Acc) : reader Error Acc :=
  lift (vec_with_capacity n 32) ≫= λ _,
  '(offsets, counts) ← for_range (Z.to_nat n) (table_entry lf) ([], acounts acc);
  payload_len ← read_usize "payload length";
  payload ← read_bytes payload_len;
  lift (resolve_offsets payload offsets
    {| akeys := akeys acc; avals := avals acc; acounts := counts |}).

Definition read_node_format : reader Error TreeFormat :=
  format_len ← read_usize "tree format length";
  f ← (if format_len =? 0 then mret TreeFormat_default
       else fb ← read_bytes format_len; lift (from_canonical_bytes fb));
  lift (validate f) ≫= λ _, mret f.

Definition read_version : reader Error () :=
  version ← read_varint;
  if version =? COMPACT_VERSION then mret tt
  else fail (compact_error ("unsupported compact node version " +:+ pretty version)).

Definition read_leaf : reader Error bool :=
  flag ← read_varint;
  if flag =? 0 then mret false
  else if flag =? 1 then mret true
  else fail (compact_error ("invalid leaf flag " +:+ pretty flag)).

Definition read_entries (f : TreeFormat) (lf : bool) (entry_count : Z) : reader Error Acc :=
  let acc := {| akeys := []; avals := []; acounts := [] |} in
  match node_layout f with
  | PrefixCompressed => for_range (Z.to_nat entry_count) (prefix_entry lf) acc
  | Plain => for_range (Z.to_nat entry_count) (plain_entry lf) acc
  | OffsetTable => offset_table lf entry_count acc
  | Custom id _ => lift (no_codec id)
  end.

Definition read_node : reader Error Node :=
  expect_magic ≫= λ _,
  read_version ≫= λ _,
  f ← read_node_format;
  lf ← read_leaf;
  lv ← read_u8_varint "level";
  entry_count ← read_usize "entry_count";
  if negb lf && (entry_count =? 0) then fail InvalidNode
  else
    lift (vec_with_capacity entry_count 24) ≫= λ _,
    lift (vec_with_capacity entry_count 24) ≫= λ _,
    lift (vec_with_capacity (if lf then 0 else entry_count) 8) ≫= λ _,
    acc ← read_entries f lf entry_count;
    mret {| keys := akeys acc; vals := avals acc; child_counts := acounts acc;
            leaf := lf; level := lv; format := f |}.

Definition from_compact_bytes (data : bytes) : outcome Error Node :=
  '(n, c) ← read_node (cursor_new data);
  if negb (cursor_is_done c) then Err (compact_error "trailing bytes in compact node") else Ok n.

Definition from_bytes : bytes → outcome Error Node := from_compact_bytes.

Definition from_bytes_with_format `{Hashes} (data : bytes) (expected : TreeFormat)
    : outcome Error Node :=
  n ← from_bytes data;
  if bool_decide (format n = expected) then Ok n
  else
    e ← digest expected;
    a ← digest (format n);
    Err (FormatMismatch e a).

(** ** Builder *)
Record NodeBuilder := {
  nb_keys : list bytes;
  nb_vals : list bytes;
  nb_child_counts : list Z;
  nb_leaf : bool;
  nb_level : Z;
  nb_format : TreeFormat;
}.

Definition NodeBuilder_new : NodeBuilder := {|
  nb_keys := []; nb_vals := []; nb_child_counts := []; nb_leaf := true;
  nb_level := INIT_LEVEL; nb_format := TreeFormat_default |}.

Definition set_keys (ks : list bytes) (b : NodeBuilder) : NodeBuilder := {|
  nb_keys := ks; nb_vals := nb_vals b; nb_child_counts := nb_child_counts b;
  nb_leaf := nb_leaf b; nb_level := nb_level b; nb_format := nb_format b |}.
Definition set_vals (vs : list bytes) (b : NodeBuilder) : NodeBuilder := {|
  nb_keys := nb_keys b; nb_vals := vs; nb_child_counts := nb_child_counts b;
  nb_leaf := nb_leaf b; nb_level := nb_level b; nb_format := nb_format b |}.
Definition set_child_counts (cs : list Z) (b : NodeBuilder) : NodeBuilder := {|
  nb_keys := nb_keys b; nb_vals := nb_vals b; nb_child_counts := cs;
  nb_leaf := nb_leaf b; nb_level := nb_level b; nb_format := nb_format b |}.
Definition set_leaf (lf : bool) (b : NodeBuilder) : NodeBuilder := {|
  nb_keys := nb_keys b; nb_vals := nb_vals b; nb_child_counts := nb_child_counts b;
  nb_leaf := lf; nb_level := nb_level b; nb_format := nb_format b |}.
Definition set_level (lv : Z) (b : NodeBuilder) : NodeBuilder := {|
  nb_keys := nb_keys b; nb_vals := nb_vals b; nb_child_counts := nb_child_counts b;
  nb_leaf := nb_leaf b; nb_level := lv; nb_format := nb_format b |}.
Definition tree_format (f : TreeFormat) (b : NodeBuilder) : NodeBuilder := {|
  nb_keys := nb_keys b; nb_vals := nb_vals b; nb_child_counts := nb_child_counts b;
  nb_leaf := nb_leaf b; nb_level := nb_level b; nb_format := f |}.
Definition build (b : NodeBuilder) : Node := {|
  keys := nb_keys b; vals := nb_vals b; child_counts := nb_child_counts b;
  leaf := nb_leaf b; level := nb_level b; format := nb_format b |}.

Example default_builder_matches_default_node : build NodeBuilder_new = Node_default.
Proof. reflexivity. Qed.

(** ** Variable-length integers: round trip and size *)

Lemma parses_byte b : parses read_byte b [b].
Proof.
  intros c r [Hp Hm] Hr. unfold read_byte. unfold remaining in Hr.
  assert (cdata c !! Z.to_nat (cpos c) = Some b) as ->.
  { rewrite <- (Nat.add_0_r (Z.to_nat (cpos c))), <- lookup_drop, Hr. done. }
  done.
Qed.

Lemma emits_byte : emits read_byte (λ _ _, True).
Proof.
  intros c b c' Hwf. unfold read_byte. destruct (cdata c !! _) as [x|] eqn:Hb; [|done].
  intros [= <- <-]. exists [x]. split; [done|].
  eapply (remaining_advance c [x] (drop (S (Z.to_nat (cpos c))) (cdata c))); [done|].
  unfold remaining. by apply drop_S.
Qed.

Lemma low_bits b : Z.land (bval b) 127 = bval b mod 128.
Proof. change 127 with (Z.ones 7). by rewrite Z.land_ones. Qed.

Lemma high_bit b : (Z.land (bval b) 128 =? 0) = (bval b <? 128).
Proof.
  apply eqb_prop. revert b. apply forall_bytes. vm_compute. reflexivity.
Qed.

Lemma varint_byte v : 0 ≤ v →
  bval (byte_of (Z.lor (Z.land (wrap 8 v) 127) 128)) = v mod 128 + 128.
Proof.
  intros Hv. unfold wrap. change 127 with (Z.ones 7). rewrite Z.land_ones by lia.
  assert ((v mod 2 ^ 8) mod 2 ^ 7 = v mod 128) as ->.
  { change (2 ^ 8) with (2 ^ 7 * 2). rewrite Z.rem_mul_r by lia.
    rewrite (Z.mul_comm (2 ^ 7)), Z.mod_add, Z.mod_mod by lia. done. }
  pose proof (Z.mod_pos_bound v 128 ltac:(lia)) as Hm.
  assert (Z.lor (v mod 128) 128 = v mod 128 + 128) as ->; [|apply bval_byte_of_small; lia].
  symmetry. apply Z.add_nocarry_lor.
  rewrite <- (Z.mod_small (v mod 128) (2 ^ 7)), <- Z.land_ones by lia.
  rewrite <- Z.land_assoc. change (Z.land (Z.ones 7) 128) with 0. apply Z.land_0_r.
Qed.

Lemma lor_add_shift value part shift :
  0 ≤ shift → 0 ≤ value < 2 ^ shift → 0 ≤ part →
  Z.lor value (part * 2 ^ shift) = value + part * 2 ^ shift.
Proof.
  intros Hs Hv Hp. symmetry. apply Z.add_nocarry_lor.
  rewrite <- (Z.mod_small value (2 ^ shift)), <- Z.land_ones by lia.
  rewrite <- Z.land_assoc, (Z.land_comm (Z.ones shift)), Z.land_ones by lia.
  by rewrite Z.mod_mul, Z.land_0_r by lia.
Qed.

Lemma parses_varint_loop n v shift value :
  shift = 7 * (10 - Z.of_nat n) → (n ≤ 10)%nat →
  0 ≤ v < 2 ^ (64 - shift) → 0 ≤ value < 2 ^ shift →
  parses (read_varint_loop n shift value) (value + v * 2 ^ shift) (varint n v).
Proof.
  revert v shift value; induction n as [|n IH]; intros v shift value Hshift Hn Hv Hvalue.
  { rewrite Z.pow_neg_r in Hv by lia. lia. }
  assert (0 ≤ shift ≤ 63) as Hs by lia.
  assert (2 ^ 64 = 2 ^ (64 - shift) * 2 ^ shift) as Hpow
    by (rewrite <- Z.pow_add_r by lia; f_equal; lia).
  assert (∀ part, 0 ≤ part ≤ v →
    Z.lor value (wrap 64 (Z.shiftl part shift)) = value + part * 2 ^ shift) as Hlor.
  { intros part Hpart. unfold wrap. rewrite Z.shiftl_mul_pow2, Z.mod_small by nia.
    apply lor_add_shift; lia. }
  assert (shift = 63 → v < 2) as H63 by (intros ->; change (2 ^ (64 - 63)) with 2 in Hv; lia).
  cbn [read_varint_loop varint]. case_bool.
  - change (?b :: ?l) with ([b] ++ l). eapply parses_bind; [apply parses_byte|].
    rewrite low_bits, high_bit, varint_byte by lia.
    pose proof (Z.mod_pos_bound v 128 ltac:(lia)) as Hm.
    assert ((v mod 128 + 128) mod 128 = v mod 128) as ->
      by (symmetry; apply (Z.mod_unique _ _ 1); lia).
    destruct (Z.eqb_spec shift 63); [lia|]. cbn [andb].
    destruct (Z.ltb_spec (v mod 128 + 128) 128); [lia|].
    pose proof (Z.div_mod v 128 ltac:(lia)) as Hdm.
    rewrite Hlor by lia. rewrite Z.shiftr_div_pow2 by lia. change (2 ^ 7) with 128.
    assert (2 ^ (shift + 7) = 128 * 2 ^ shift) as Hs7
      by (rewrite Z.pow_add_r by lia; change (2 ^ 7) with 128; lia).
    replace (value + v * 2 ^ shift) with (value + v mod 128 * 2 ^ shift + v / 128 * 2 ^ (shift + 7))
      by (rewrite Hs7; nia).
    apply IH; [lia|lia| |rewrite Hs7; nia].
    split; [apply Z.div_pos; lia|]. apply Z.div_lt_upper_bound; [lia|].
    change 128 with (2 ^ 7). rewrite <- Z.pow_add_r by lia.
    replace (7 + (64 - (shift + 7))) with (64 - shift) by lia. lia.
  - change [byte_of v] with ([byte_of v] ++ []). eapply parses_bind; [apply parses_byte|].
    rewrite low_bits, high_bit, bval_byte_of_small by lia. rewrite Z.mod_small by lia.
    destruct (Z.ltb_spec 1 v), (Z.eqb_spec shift 63); cbn [andb]; try lia.
    all: destruct (Z.ltb_spec v 128); [|lia].
    all: rewrite Hlor by lia; apply parses_ret.
Qed.

Lemma parses_varint v : 0 ≤ v ≤ u64_max → parses read_varint v (varint varint_fuel v).
Proof.
  intros Hv. unfold read_varint, varint_fuel.
  replace v with (0 + v * 2 ^ 0) at 1 by lia.
  apply parses_varint_loop; [done|lia| |by vm_compute]. unfold u64_max in Hv. cbn. lia.
Qed.

Lemma emits_varint : emits read_varint (λ v _, 0 ≤ v ≤ u64_max).
Proof.
  unfold read_varint.
  assert (∀ n shift value, 0 ≤ value < 2 ^ 64 →
    emits (read_varint_loop n shift value) (λ v _, 0 ≤ v ≤ u64_max)) as Hloop.
  { intros n; induction n as [|n IH]; intros shift value Hv; cbn [read_varint_loop];
      [apply emits_fail|].
    eapply emits_bind; [apply emits_byte|]. intros b _ _.
    destruct (_ && _); [apply emits_fail|].
    set (w := wrap 64 _).
    assert (0 ≤ w < 2 ^ 64) as Hw by (apply Z.mod_pos_bound; lia).
    assert (0 ≤ Z.lor value w < 2 ^ 64) as Hr.
    { apply u64_of_bits; [apply Z.lor_nonneg; lia|]. intros i Hi. rewrite Z.lor_spec.
      rewrite <- (Z.mod_small value (2 ^ 64)), <- (Z.mod_small w (2 ^ 64)) by done.
      by rewrite !Z.mod_pow2_bits_high by lia. }
    case_bool; [apply emits_ret; unfold u64_max; lia|]. by apply IH. }
  by apply Hloop.
Qed.

Lemma varint_len_spec v : varint_len v = len (varint varint_fuel v).
Proof.
  unfold varint_len. assert (∀ fuel v n,
    varint_len_loop fuel v n = n - 1 + len (varint fuel v)) as H; [|rewrite H; lia].
  clear. intros fuel; induction fuel as [|fuel IH]; intros v n; cbn [varint_len_loop varint].
  { rewrite len_cons, len_nil. lia. }
  case_bool; rewrite len_cons; [rewrite IH; lia|rewrite len_nil; lia].
Qed.

Lemma common_prefix_len_spec a b :
  0 ≤ common_prefix_len a b ≤ len a ∧ common_prefix_len a b ≤ len b ∧
  take (Z.to_nat (common_prefix_len a b)) a = take (Z.to_nat (common_prefix_len a b)) b.
Proof.
  revert b; induction a as [|x a IH]; intros [|y b]; cbn [common_prefix_len].
  1-3: rewrite ?len_nil; repeat split; len_lia || done.
  case_bool_decide as Hxy; [subst y|repeat split; len_lia || done].
  destruct (IH b) as (? & ? & Ht). rewrite !len_cons. repeat split; try lia.
  replace (Z.to_nat (1 + common_prefix_len a b)) with (S (Z.to_nat (common_prefix_len a b))) by lia.
  rewrite !firstn_cons. by f_equal.
Qed.

Lemma parses_usize field v : 0 ≤ v ≤ u64_max → parses (read_usize field) v (varint varint_fuel v).
Proof.
  intros Hv. unfold read_usize. rewrite <- (app_nil_r (varint _ _)).
  eapply parses_bind; [by apply parses_varint|]. unfold usize_max. case_bool; [apply parses_ret|lia].
Qed.

Lemma emits_usize field : emits (read_usize field) (λ v _, 0 ≤ v ≤ u64_max).
Proof.
  unfold read_usize. eapply emits_bind; [apply emits_varint|]. intros v l Hv.
  case_bool; [by apply emits_ret|apply emits_fail].
Qed.

(** ** Strictly ascending keys *)
Lemma sorted_keys_iff ks : sorted_keys ks = true ↔ StronglySorted blt ks.
Proof.
  induction ks as [|k ks IH]; [split; [constructor|done]|].
  destruct ks as [|k2 ks]; [split; [by repeat constructor|done]|].
  change (sorted_keys (k :: k2 :: ks)) with (bltb k k2 && sorted_keys (k2 :: ks)).
  rewrite andb_true_iff, IH, bltb_lt. split.
  - intros [Hk Hs]. constructor; [done|]. constructor; [done|].
    inversion Hs as [|? ? _ Hall]; subst. eapply Forall_impl; [exact Hall|].
    intros x Hx. by eapply blt_trans.
  - intros Hs. inversion Hs as [|? ? Hs' Hall]; subst. inversion Hall; subst. done.
Qed.

Lemma last_key_snoc ks k : last_key (ks ++ [k]) = k.
Proof. unfold last_key. by rewrite reverse_snoc. Qed.

Lemma unsorted_after_last ks k :
  unsorted_after ks k = bleb k (last_key ks) && negb (bool_decide (ks = [])).
Proof.
  destruct ks as [|x ks _] using rev_ind; [by rewrite andb_false_r|].
  unfold unsorted_after, last_key. rewrite reverse_snoc.
  rewrite bool_decide_eq_false_2 by (by destruct ks). by rewrite andb_true_r.
Qed.

Lemma unsorted_after_sorted ks k :
  StronglySorted blt ks → unsorted_after ks k = false ↔ StronglySorted blt (ks ++ [k]).
Proof.
  intros Hs. destruct ks as [|x ks _] using rev_ind; [split; [by repeat constructor|done]|].
  unfold unsorted_after. rewrite reverse_snoc, bleb_gt. split.
  - intros Hlt. apply StronglySorted_app_2; [|done|by repeat constructor].
    intros y z Hy Hz%list_elem_of_singleton. subst z.
    apply elem_of_app in Hy as [Hy|Hy%list_elem_of_singleton]; [|by subst].
    eapply blt_trans; [|exact Hlt]. eapply StronglySorted_app_1_elem_of; [exact Hs|done|].
    by apply list_elem_of_singleton.
  - intros Hs'. eapply StronglySorted_app_1_elem_of; [exact Hs'| |]; set_solver.
Qed.

(** ** Round trip of the entry layouts *)
Section roundtrip.
Context (lf : bool).

Definition ekey (e : node_entry) : bytes := e.1.1.
Definition entry_wf (e : node_entry) : Prop :=
  let '(key, val, count) := e in
  len key ≤ isize_max ∧ len val ≤ isize_max ∧ (lf = false → 0 < count ≤ u64_max).

Definition push (acc : Acc) (e : node_entry) : Acc :=
  let '(key, val, count) := e in
  {| akeys := akeys acc ++ [key]; avals := avals acc ++ [val];
     acounts := if lf then acounts acc else acounts acc ++ [count] |}.

Definition count_bytes (count : Z) : bytes := if lf then [] else varint varint_fuel count.

Lemma write_count_eq count out : write_count lf count out = out ++ count_bytes count.
Proof. unfold write_count, count_bytes. by destruct lf; [rewrite app_nil_r|]. Qed.

Lemma parses_count counts count :
  (lf = false → 0 < count ≤ u64_max) →
  parses (read_count lf counts) (if lf then counts else counts ++ [count]) (count_bytes count).
Proof.
  intros Hc. unfold read_count, count_bytes, read_compact_child_count.
  destruct lf; [apply parses_ret|]. specialize (Hc eq_refl).
  rewrite <- (app_nil_r (varint _ _)). eapply parses_bind; [|apply parses_ret].
  rewrite <- (app_nil_r (varint _ _)).
  eapply parses_bind; [apply parses_varint; lia|]. case_bool; [lia|apply parses_ret].
Qed.

(** The bytes of one entry. *)
Definition plain_bytes (e : node_entry) : bytes :=
  let '(key, val, count) := e in
  varint varint_fuel (len key) ++ key ++ varint varint_fuel (len val) ++ val ++ count_bytes count.

Definition prefix_bytes (previous_key : bytes) (e : node_entry) : bytes :=
  let '(key, val, count) := e in
  let shared := common_prefix_len previous_key key in
  let suffix := drop (Z.to_nat shared) key in
  varint varint_fuel shared ++ varint varint_fuel (len suffix) ++ suffix ++
  varint varint_fuel (len val) ++ val ++ count_bytes count.

Lemma encode_plain_cons e es out :
  encode_plain lf (e :: es) out = encode_plain lf es (out ++ plain_bytes e).
Proof.
  destruct e as [[key val] count]; cbn [encode_plain plain_bytes].
  rewrite write_count_eq. unfold write_varint. by rewrite <- !app_assoc.
Qed.

Lemma encode_plain_app es out : encode_plain lf es out = out ++ encode_plain lf es [].
Proof.
  revert out; induction es as [|e es IH]; intros out; [by rewrite app_nil_r|].
  rewrite !encode_plain_cons, IH, (IH ([] ++ _)). by rewrite <- app_assoc.
Qed.

Lemma encode_prefix_cons pk e es out :
  encode_prefix lf pk (e :: es) out = encode_prefix lf (ekey e) es (out ++ prefix_bytes pk e).
Proof.
  destruct e as [[key val] count]; cbn [encode_prefix prefix_bytes].
  rewrite write_count_eq. unfold write_varint. by rewrite <- !app_assoc.
Qed.

Lemma encode_prefix_app pk es out :
  encode_prefix lf pk es out = out ++ encode_prefix lf pk es [].
Proof.
  revert pk out; induction es as [|e es IH]; intros pk out; [by rewrite app_nil_r|].
  rewrite !encode_prefix_cons, IH, (IH _ ([] ++ _)). by rewrite <- app_assoc.
Qed.

Lemma u64_len {A} (l : list A) : len l ≤ isize_max → 0 ≤ len l ≤ u64_max.
Proof. unfold isize_max, u64_max. len_lia. Qed.

Lemma parses_plain_entry acc e :
  entry_wf e → unsorted_after (akeys acc) (ekey e) = false →
  parses (plain_entry lf acc) (push acc e) (plain_bytes e).
Proof.
  destruct e as [[key val] count]; intros (Hk & Hv & Hc) Hs.
  unfold plain_entry, plain_bytes, push; cbn [ekey fst] in *.
  eapply parses_bind; [by apply parses_usize, u64_len|].
  eapply parses_bind; [apply parses_read|]. rewrite Hs.
  eapply parses_bind; [by apply parses_usize, u64_len|].
  eapply parses_bind; [apply parses_read|].
  rewrite <- (app_nil_r (count_bytes count)).
  eapply parses_bind; [by apply parses_count|]. apply parses_ret.
Qed.

Lemma parses_prefix_entry acc e :
  entry_wf e → unsorted_after (akeys acc) (ekey e) = false →
  parses (prefix_entry lf acc) (push acc e) (prefix_bytes (last_key (akeys acc)) e).
Proof.
  destruct e as [[key val] count]; intros (Hk & Hv & Hc) Hs.
  unfold prefix_entry, prefix_bytes, push; cbn [ekey fst] in *. rewrite unsorted_after_last in Hs.
  set (pk := last_key (akeys acc)) in *.
  destruct (common_prefix_len_spec pk key) as (Hpk & Hlen & Htake).
  set (n := common_prefix_len pk key) in *.
  assert (take (Z.to_nat n) pk ++ drop (Z.to_nat n) key = key) as Hkey
    by (rewrite Htake; apply take_drop).
  assert (len (drop (Z.to_nat n) key) = len key - n) as Hsuf by len_lia.
  eapply parses_bind; [apply parses_usize; unfold isize_max, u64_max in *; lia|].
  destruct (Z.ltb_spec (len pk) n); [lia|].
  eapply parses_bind; [apply parses_usize, u64_len; lia|].
  eapply parses_bind_nil.
  { apply (parses_lift _ tt). apply vec_with_capacity_ok. unfold saturating_add. lia. }
  eapply parses_bind; [apply parses_read|]. cbn zeta.
  rewrite Hkey, Hs.
  eapply parses_bind; [by apply parses_usize, u64_len|].
  eapply parses_bind; [apply parses_read|].
  rewrite <- (app_nil_r (count_bytes count)).
  eapply parses_bind; [by apply parses_count|]. apply parses_ret.
Qed.

(** A list of entries that continues the keys read so far. *)
Definition continues (ks : list bytes) (es : list node_entry) : Prop :=
  Forall entry_wf es ∧ StronglySorted blt (ks ++ (ekey <$> es)).

Lemma continues_cons ks e es :
  continues ks (e :: es) →
  entry_wf e ∧ unsorted_after ks (ekey e) = false ∧ continues (ks ++ [ekey e]) es.
Proof.
  intros [Hwf Hs]. apply Forall_cons_1 in Hwf as [He Hes].
  cbn [fmap list_fmap] in Hs. change (?x :: ?l) with ([x] ++ l) in Hs. rewrite app_assoc in Hs.
  split; [done|]. split; [|done].
  apply StronglySorted_app_1_l in Hs. apply unsorted_after_sorted; [|done].
  by apply StronglySorted_app_1_l in Hs.
Qed.

Lemma akeys_push acc e : akeys (push acc e) = akeys acc ++ [ekey e].
Proof. by destruct e as [[key val] count]. Qed.

Lemma parses_plain es acc :
  continues (akeys acc) es →
  parses (for_range (length es) (plain_entry lf) acc) (foldl push acc es) (encode_plain lf es []).
Proof.
  revert acc; induction es as [|e es IH]; intros acc Hc; cbn [length for_range foldl].
  { apply parses_ret. }
  destruct (continues_cons _ _ _ Hc) as (He & Hs & Hes).
  rewrite encode_plain_cons, encode_plain_app. cbn [app].
  eapply parses_bind; [by apply parses_plain_entry|]. apply IH. by rewrite akeys_push.
Qed.

Lemma parses_prefix es acc :
  continues (akeys acc) es →
  parses (for_range (length es) (prefix_entry lf) acc) (foldl push acc es)
    (encode_prefix lf (last_key (akeys acc)) es []).
Proof.
  revert acc; induction es as [|e es IH]; intros acc Hc; cbn [length for_range foldl].
  { apply parses_ret. }
  destruct (continues_cons _ _ _ Hc) as (He & Hs & Hes).
  rewrite encode_prefix_cons, encode_prefix_app. cbn [app].
  eapply parses_bind; [by apply parses_prefix_entry|].
  specialize (IH (push acc e)). rewrite akeys_push, last_key_snoc in IH. by apply IH.
Qed.

(** *** The offset table *)
Definition payload_of (es : list node_entry) : bytes :=
  concat ((λ e, e.1.1 ++ e.1.2) <$> es).

Definition table_entry_bytes (off : Z) (e : node_entry) : bytes :=
  let '(key, val, count) := e in
  varint varint_fuel off ++ varint varint_fuel (len key) ++
  varint varint_fuel (off + len key) ++ varint varint_fuel (len val) ++ count_bytes count.

Fixpoint table_bytes (off : Z) (es : list node_entry) : bytes :=
  match es with
  | [] => []
  | e :: es' => table_entry_bytes off e ++ table_bytes (off + len e.1.1 + len e.1.2) es'
  end.

Fixpoint offsets_of (off : Z) (es : list node_entry) : list offset_entry :=
  match es with
  | [] => []
  | (key, val, _) :: es' =>
      (off, len key, off + len key, len val) :: offsets_of (off + len key + len val) es'
  end.

Definition counts_of (es : list node_entry) : list Z := if lf then [] else snd <$> es.

Lemma payload_cons key val count es : payload_of ((key, val, count) :: es) = key ++ val ++ payload_of es.
Proof. unfold payload_of. cbn. by rewrite <- app_assoc. Qed.

Lemma counts_of_cons e es : counts_of (e :: es) = (if lf then [] else [e.2]) ++ counts_of es.
Proof. unfold counts_of. by destruct lf. Qed.

Lemma encode_offsets_eq es payload out :
  encode_offsets lf es payload out = (payload ++ payload_of es, out ++ table_bytes (len payload) es).
Proof.
  revert payload out; induction es as [|[[key val] count] es IH]; intros payload out.
  { cbn. by rewrite !app_nil_r. }
  cbn [encode_offsets table_bytes table_entry_bytes fst snd]. rewrite IH, write_count_eq, payload_cons. unfold write_varint.
  rewrite !len_app, <- !app_assoc. done.
Qed.

Lemma parses_table_entry off offs counts e :
  entry_wf e → 0 ≤ off → off + len e.1.1 ≤ isize_max →
  parses (table_entry lf (offs, counts))
    (offs ++ [(off, len e.1.1, off + len e.1.1, len e.1.2)],
     if lf then counts else counts ++ [e.2])
    (table_entry_bytes off e).
Proof.
  destruct e as [[key val] count]; intros (Hk & Hv & Hc) Hoff Hend. cbn [fst snd] in *.
  unfold table_entry, table_entry_bytes.
  pose proof (len_nonneg key). pose proof (len_nonneg val).
  do 4 (eapply parses_bind; [apply parses_usize; unfold isize_max, u64_max in *; lia|]).
  rewrite <- (app_nil_r (count_bytes count)).
  eapply parses_bind; [by apply parses_count|]. apply parses_ret.
Qed.

Lemma parses_table es off offs counts :
  Forall (entry_wf) es → 0 ≤ off → off + len (payload_of es) ≤ isize_max →
  parses (for_range (length es) (table_entry lf) (offs, counts))
    (offs ++ offsets_of off es, counts ++ counts_of es) (table_bytes off es).
Proof.
  revert off offs counts; induction es as [|[[key val] count] es IH];
    intros off offs counts Hwf Hoff Hp; cbn [length for_range offsets_of table_bytes].
  { unfold counts_of. replace (if lf then [] else _) with (@nil Z) by (by destruct lf).
    rewrite !app_nil_r. apply parses_ret. }
  apply Forall_cons_1 in Hwf as [(Hk & Hv & Hc) Hes]. rewrite payload_cons, !len_app in Hp.
  pose proof (len_nonneg key). pose proof (len_nonneg val). pose proof (len_nonneg (payload_of es)).
  eapply parses_bind; [apply (parses_table_entry off offs counts (key, val, count)); [done|done|cbn; lia]|].
  cbn [fst snd]. rewrite counts_of_cons. cbn [snd].
  rewrite (cons_middle _ offs (offsets_of (off + len key + len val) es)), app_assoc.
  replace (counts ++ _ ++ counts_of es)
    with ((if lf then counts else counts ++ [count]) ++ counts_of es)
    by (destruct lf; [done|by rewrite <- app_assoc]).
  apply IH; [done|lia|lia].
Qed.

Lemma slice_payload_app pre m post field :
  len (pre ++ m ++ post) ≤ isize_max →
  slice_payload (pre ++ m ++ post) (len pre) (len m) field = Ok m.
Proof.
  intros Hl. unfold slice_payload. rewrite checked_add_le; [|unfold isize_max, usize_max, u64_max in *; len_lia].
  cbn. by rewrite slice_app.
Qed.

Lemma resolve_offsets_ok es pre acc :
  continues (akeys acc) es → len (pre ++ payload_of es) ≤ isize_max →
  resolve_offsets (pre ++ payload_of es) (offsets_of (len pre) es) acc =
    Ok {| akeys := akeys acc ++ (ekey <$> es); avals := avals acc ++ ((λ e, e.1.2) <$> es);
          acounts := acounts acc |}.
Proof.
  revert pre acc; induction es as [|[[key val] count] es IH]; intros pre acc Hc Hl;
    cbn [offsets_of resolve_offsets fmap list_fmap].
  { rewrite !app_nil_r. by destruct acc. }
  destruct (continues_cons _ _ _ Hc) as (_ & Hs & Hes). cbn [ekey fst] in *.
  rewrite payload_cons in *. rewrite slice_payload_app by done. cbn [mbind outcome_bind].
  rewrite Hs. rewrite <- len_app, (app_assoc pre key) in *.
  rewrite slice_payload_app by done. cbn [mbind outcome_bind].
  rewrite <- len_app, (app_assoc (pre ++ key) val) in *.
  rewrite IH; [|done|done]. cbn. by rewrite <- !app_assoc.
Qed.

Lemma foldl_push es acc :
  foldl push acc es =
    {| akeys := akeys acc ++ (ekey <$> es); avals := avals acc ++ ((λ e, e.1.2) <$> es);
       acounts := acounts acc ++ counts_of es |}.
Proof.
  revert acc; induction es as [|[[key val] count] es IH]; intros acc; cbn [foldl fmap list_fmap].
  { unfold counts_of. destruct acc, lf; cbn; by rewrite !app_nil_r. }
  rewrite IH, counts_of_cons. cbn [push akeys avals acounts ekey fst snd].
  rewrite <- !app_assoc. by destruct lf; [|rewrite <- app_assoc].
Qed.

Lemma parses_offset_table es acc :
  continues (akeys acc) es → len es * 32 ≤ isize_max → len (payload_of es) ≤ isize_max →
  parses (offset_table lf (len es) acc) (foldl push acc es)
    (table_bytes 0 es ++ varint varint_fuel (len (payload_of es)) ++ payload_of es).
Proof.
  intros Hc Hn Hp. unfold offset_table.
  eapply parses_bind_nil; [apply (parses_lift _ tt); by apply vec_with_capacity_ok|].
  rewrite len_to_nat.
  eapply parses_bind; [apply (parses_table es 0 []); [apply Hc|done|lia]|]. cbn beta iota.
  eapply parses_bind; [by apply parses_usize, u64_len|].
  eapply parses_bind_end; [apply parses_read|]. apply parses_lift.
  rewrite (resolve_offsets_ok es [] _) by done. cbn [akeys avals acounts]. by rewrite foldl_push.
Qed.

End roundtrip.
(** ** Round trip of whole nodes *)

Definition layout_bytes (l : NodeLayoutSpec) (lf : bool) (es : list node_entry) : bytes :=
  match l with
  | PrefixCompressed => encode_prefix lf [] es []
  | Plain => encode_plain lf es []
  | OffsetTable =>
      table_bytes lf 0 es ++ varint varint_fuel (len (payload_of es)) ++ payload_of es
  | Custom _ _ => []
  end.

Definition header_bytes (n : Node) (fb : bytes) : bytes :=
  COMPACT_MAGIC ++ varint varint_fuel COMPACT_VERSION ++ varint varint_fuel (len fb) ++ fb ++
  varint varint_fuel (if leaf n then 1 else 0) ++ varint varint_fuel (level n) ++
  varint varint_fuel (len (keys n)).

Definition has_codec (f : TreeFormat) : Prop :=
  match node_layout f with Custom _ _ => False | _ => True end.

(** What the Rust types and the address space guarantee of a valid node. *)
Record node_wf (n : Node) : Prop := {
  wf_valid : Node_validate n = Ok tt;
  wf_format : TreeFormat_wf (format n);
  wf_codec : has_codec (format n);
  wf_level : 0 ≤ level n ≤ u8_max;
  wf_keys : Forall vec_wf (keys n);
  wf_vals : Forall vec_wf (vals n);
  wf_counts : Forall u64 (child_counts n);
  (* the buffer that the encoder reserves *)
  wf_room : len (format_bytes (format n)) + 36 + 48 * len (keys n) ≤ isize_max;
}.

Lemma to_compact_bytes_eq n fb :
  node_format_bytes (format n) = Ok fb → has_codec (format n) →
  len fb + 36 + 48 * len (keys n) ≤ isize_max →
  to_compact_bytes n
    = Ok (header_bytes n fb ++ layout_bytes (node_layout (format n)) (leaf n) (node_entries n)).
Proof.
  intros Hfb Hc Hl. unfold to_compact_bytes, has_codec in *. rewrite Hfb. cbn [mbind outcome_bind].
  rewrite vec_with_capacity_ok.
  2: { unfold saturating_add, saturating_mul. change (len COMPACT_MAGIC) with 4. lia. }
  cbn [mbind outcome_bind]. unfold write_varint, header_bytes, layout_bytes.
  destruct (node_layout (format n)); [| | |done].
  - rewrite encode_prefix_app. by rewrite <- !app_assoc.
  - rewrite encode_plain_app. by rewrite <- !app_assoc.
  - rewrite encode_offsets_eq. cbn [len length app]. by rewrite <- !app_assoc.
Qed.

Lemma node_entries_keys n :
  length (keys n) = length (vals n) → ekey <$> node_entries n = keys n.
Proof.
  intros Hl. unfold node_entries. rewrite fmap_imap.
  rewrite (imap_ext _ (const fst)) by (by intros i [k v] _).
  rewrite imap_const. apply fst_zip. lia.
Qed.

Lemma node_entries_vals n :
  length (keys n) = length (vals n) → (λ e, e.1.2) <$> node_entries n = vals n.
Proof.
  intros Hl. unfold node_entries. rewrite fmap_imap.
  rewrite (imap_ext _ (const snd)) by (by intros i [k v] _).
  rewrite imap_const. apply snd_zip. lia.
Qed.

Lemma length_node_entries n :
  length (keys n) = length (vals n) → length (node_entries n) = length (keys n).
Proof. intros Hl. unfold node_entries. rewrite length_imap, length_zip_with. lia. Qed.

Lemma node_entries_counts n :
  length (keys n) = length (vals n) → length (child_counts n) = length (keys n) →
  snd <$> node_entries n = child_counts n.
Proof.
  intros Hl Hc. apply list_eq. intros i. rewrite list_lookup_fmap. unfold node_entries.
  rewrite list_lookup_imap.
  destruct (zip (keys n) (vals n) !! i) as [[k v]|] eqn:Hz; cbn.
  - apply lookup_lt_Some in Hz. rewrite length_zip_with in Hz.
    destruct (lookup_lt_is_Some_2 (child_counts n) i) as [c Hi]; [lia|]. by rewrite Hi.
  - apply lookup_ge_None in Hz. rewrite length_zip_with in Hz.
    symmetry. apply lookup_ge_None. lia.
Qed.

(** What validation guarantees. *)
Lemma Node_validate_Ok n :
  Node_validate n = Ok tt ↔
  validate (format n) = Ok tt ∧ length (keys n) = length (vals n) ∧ StronglySorted blt (keys n) ∧
  (if leaf n then child_counts n = []
   else keys n ≠ [] ∧ length (child_counts n) = length (keys n) ∧ Forall (λ c, c ≠ 0) (child_counts n)).
Proof.
  unfold Node_validate. destruct (validate (format n)) as [[]| |]; cbn [mbind outcome_bind];
    [|split; [done|by intros [? _]]..].
  destruct (Nat.eqb_spec (length (keys n)) (length (vals n))); cbn [negb orb];
    [|split; [done|by intros (_ & ? & _)]].
  rewrite <- sorted_keys_iff.
  destruct (sorted_keys (keys n)); cbn [negb]; [|split; [done|by intros (_ & _ & ? & _)]].
  assert (existsb (Z.eqb 0) (child_counts n) = false ↔ Forall (λ c, c ≠ 0) (child_counts n)) as Hex.
  { induction (child_counts n) as [|c cs IH]; [by split|]. cbn [existsb].
    rewrite Forall_cons_iff, <- IH, orb_false_iff, Z.eqb_neq. split; intros [? ?]; (split; [congruence|done]). }
  destruct (leaf n).
  { case_bool_decide; split; try done; by intros (_ & _ & _ & ?). }
  case_bool_decide; cbn [orb]; [split; [done|by intros (_ & _ & _ & ? & _)]|].
  destruct (Nat.eqb_spec (length (child_counts n)) (length (keys n))); cbn [negb orb];
    [|split; [done|by intros (_ & _ & _ & _ & ? & _)]].
  destruct (existsb _ _); [split; [done|]|split; [|done]].
  - intros (_ & _ & _ & _ & _ & Hf). by apply Hex in Hf.
  - intros _. do 5 (split; [done|]). by apply Hex.
Qed.

Lemma node_entries_wf n : node_wf n → Forall (entry_wf (leaf n)) (node_entries n).
Proof.
  intros Hn. destruct (proj1 (Node_validate_Ok n) (wf_valid n Hn)) as (_ & Hl & _ & Hc).
  apply Forall_lookup. intros i [[k v] c] Hi. unfold node_entries in Hi.
  rewrite list_lookup_imap in Hi.
  destruct (zip (keys n) (vals n) !! i) as [[k' v']|] eqn:Hz; [|done]. injection Hi as -> -> <-.
  apply lookup_zip_with_Some in Hz as (k' & v' & [= <- <-] & Hk & Hv).
  split; [exact (proj1 (Forall_lookup _ _) (wf_keys n Hn) _ _ Hk)|].
  split; [exact (proj1 (Forall_lookup _ _) (wf_vals n Hn) _ _ Hv)|].
  intros Hleaf; rewrite Hleaf in Hc; destruct Hc as (_ & Hcl & Hnz).
  destruct (lookup_lt_is_Some_2 (child_counts n) i) as [c Hi];
    [apply lookup_lt_Some in Hk; lia|]. rewrite Hi; cbn [default].
  pose proof (proj1 (Forall_lookup _ _) (wf_counts n Hn) _ _ Hi) as Hu.
  pose proof (proj1 (Forall_lookup _ _) Hnz _ _ Hi) as Hz; cbn in Hz, Hu.
  unfold u64 in Hu. cbn. lia.
Qed.

Lemma node_of_entries n :
  Node_validate n = Ok tt →
  foldl (push (leaf n)) {| akeys := []; avals := []; acounts := [] |} (node_entries n)
    = {| akeys := keys n; avals := vals n; acounts := child_counts n |}.
Proof.
  intros (_ & Hl & _ & Hc)%Node_validate_Ok. rewrite foldl_push. cbn [akeys avals acounts app].
  rewrite node_entries_keys, node_entries_vals by done. f_equal.
  unfold counts_of. destruct (leaf n); [done|]. destruct Hc as (_ & Hc & _).
  by apply node_entries_counts.
Qed.

Lemma parses_entries n :
  node_wf n → len (payload_of (node_entries n)) ≤ isize_max ∨ node_layout (format n) ≠ OffsetTable →
  parses (read_entries (format n) (leaf n) (len (keys n)))
    {| akeys := keys n; avals := vals n; acounts := child_counts n |}
    (layout_bytes (node_layout (format n)) (leaf n) (node_entries n)).
Proof.
  intros Hn Hp. pose proof (wf_valid n Hn) as Hv. rewrite <- (node_of_entries n Hv).
  apply Node_validate_Ok in Hv as (_ & Hl & Hs & _).
  assert (continues (leaf n) [] (node_entries n)) as Hc.
  { split; [by apply node_entries_wf|]. by rewrite node_entries_keys. }
  assert (len (keys n) = len (node_entries n)) as Hlen
    by (unfold len; by rewrite length_node_entries).
  unfold read_entries, layout_bytes. pose proof (wf_codec n Hn) as Hcodec. unfold has_codec in Hcodec.
  pose proof (wf_room n Hn). pose proof (len_nonneg (format_bytes (format n))).
  pose proof (len_nonneg (keys n)). rewrite Hlen, len_to_nat in *.
  destruct (node_layout (format n)); [by apply (parses_prefix (leaf n) _ {| akeys := []; avals := []; acounts := [] |})|by apply parses_plain| |done].
  destruct Hp as [Hp|Hp]; [|done]. apply parses_offset_table; [done|lia|done].
Qed.

(** Past the magic. *)
Lemma magic_step {A} (k : () → reader Error A) l :
  let data := COMPACT_MAGIC ++ l in
  let c := advance (cursor_new data) (len COMPACT_MAGIC) in
  len data ≤ isize_max →
  (expect_magic ≫= k) (cursor_new data) = k tt c ∧ cursor_wf c ∧ remaining c = l.
Proof.
  intros data c Hl. split.
  - unfold mbind, reader_bind, expect_magic, data; cbn [cursor_new cdata].
    change (take (length COMPACT_MAGIC) (COMPACT_MAGIC ++ l)) with COMPACT_MAGIC.
    rewrite bool_decide_eq_true_2 by done.
    by destruct (Z.ltb_spec (len (COMPACT_MAGIC ++ l)) (len COMPACT_MAGIC)); [len_lia|].
  - apply (remaining_advance_eq (cursor_new data) COMPACT_MAGIC l); [by apply cursor_new_wf|done].
Qed.

Lemma parses_magic_then (k : () → reader Error Node) a l :
  parses (k tt) a l → len (COMPACT_MAGIC ++ l) ≤ isize_max →
  (expect_magic ≫= k) (cursor_new (COMPACT_MAGIC ++ l))
    = Ok (a, advance (cursor_new (COMPACT_MAGIC ++ l)) (len (COMPACT_MAGIC ++ l))).
Proof.
  intros Hk Hl. destruct (magic_step k l Hl) as (-> & Hc & Hr).
  rewrite (Hk _ [] Hc) by (by rewrite app_nil_r). by rewrite advance_add, len_app.
Qed.

Lemma default_format_wf : TreeFormat_wf TreeFormat_default ∧ validate TreeFormat_default = Ok tt.
Proof. split; [|done]. constructor; [apply ChunkingSpec_default_wf|done..]. Qed.

Lemma format_bytes_nonempty f : 0 < len (format_bytes f).
Proof. unfold format_bytes. rewrite len_app. change (len FORMAT_MAGIC) with 4. len_lia. Qed.

Lemma parses_node_format f fb :
  TreeFormat_wf f → validate f = Ok tt → node_format_bytes f = Ok fb → len fb ≤ isize_max →
  parses read_node_format f (varint varint_fuel (len fb) ++ fb).
Proof.
  intros Hwf Hv Hfb Hl. unfold read_node_format.
  eapply parses_bind; [by apply parses_usize, u64_len|].
  unfold node_format_bytes in Hfb. case_bool_decide as Hd.
  - injection Hfb as <-. subst f. eapply parses_bind_nil; [apply parses_ret|].
    eapply parses_bind_nil; [by apply (parses_lift _ tt)|]. apply parses_ret.
  - rewrite canonical_bytes_eq, Hv in Hfb. injection Hfb as <-.
    pose proof (format_bytes_nonempty f). destruct (Z.eqb_spec (len (format_bytes f)) 0); [lia|].
    eapply parses_bind_end.
    { eapply parses_bind_end; [apply parses_read|]. by apply parses_lift, decode_canonical. }
    eapply parses_bind_nil; [by apply (parses_lift _ tt)|]. apply parses_ret.
Qed.

Lemma node_format_bytes_ok n : node_wf n →
  ∃ fb, node_format_bytes (format n) = Ok fb ∧ len fb + 36 + 48 * len (keys n) ≤ isize_max.
Proof.
  intros Hn. destruct (proj1 (Node_validate_Ok n) (wf_valid n Hn)) as (Hv & _).
  pose proof (wf_room n Hn). pose proof (len_nonneg (format_bytes (format n))).
  unfold node_format_bytes. case_bool_decide.
  { exists []. split; [done|]. change (len (@nil byte)) with 0. lia. }
  exists (format_bytes (format n)). by rewrite canonical_bytes_eq, Hv.
Qed.

Lemma payload_le_layout l lf es : l = OffsetTable → len (payload_of es) ≤ len (layout_bytes l lf es).
Proof. intros ->. unfold layout_bytes. len_lia. Qed.

Lemma roundtrip_ok n :
  node_wf n → ∃ b, to_bytes n = Ok b ∧ (vec_wf b → from_bytes b = Ok n).
Proof.
  intros Hn. destruct (node_format_bytes_ok n Hn) as (fb & Hfb & Hl).
  pose proof (wf_level n Hn) as Hlevel. pose proof (len_nonneg fb). pose proof (len_nonneg (keys n)).
  destruct (proj1 (Node_validate_Ok n) (wf_valid n Hn)) as (Hv & Hlen & _ & Hleaf).
  unfold to_bytes, try_to_bytes. rewrite (to_compact_bytes_eq n fb Hfb (wf_codec n Hn) Hl).
  eexists; split; [done|]. unfold vec_wf, from_bytes, from_compact_bytes, header_bytes.
  rewrite <- !app_assoc. intros Hb. unfold read_node.
  erewrite parses_magic_then; [| |exact Hb].
  { cbn [mbind outcome_bind]. unfold cursor_is_done, advance, cursor_new; cbn [cdata cpos].
    by rewrite Z.add_0_l, Z.eqb_refl. }
  eapply parses_bind.
  { eapply parses_bind_end; [by apply parses_varint|]. apply parses_ret. }
  rewrite app_assoc.
  eapply parses_bind; [apply parses_node_format; [apply (wf_format n Hn)|done|done|lia]|].
  eapply parses_bind.
  { eapply parses_bind_end; [apply (parses_varint (if leaf n then 1 else 0)); by destruct (leaf n)|].
    instantiate (1 := leaf n). destruct (leaf n); apply parses_ret. }
  eapply parses_bind.
  { eapply parses_bind_end; [apply parses_varint; unfold u8_max, u64_max in *; lia|].
    destruct (Z.leb_spec (level n) u8_max); [apply parses_ret|lia]. }
  eapply parses_bind; [apply parses_usize; unfold isize_max, u64_max in *; lia|].
  assert (negb (leaf n) && (len (keys n) =? 0) = false) as ->.
  { destruct (leaf n); [done|]. destruct Hleaf as (Hne & _). cbn.
    apply Z.eqb_neq. intros Hnil%len_zero. done. }
  do 2 (eapply parses_bind_nil;
    [apply (parses_lift _ tt), vec_with_capacity_ok; lia|]).
  eapply parses_bind_nil;
    [apply (parses_lift _ tt), vec_with_capacity_ok; destruct (leaf n); unfold isize_max in *; lia|].
  eapply parses_bind_end; [apply parses_entries; [done|]|].
  { destruct (node_layout (format n)) eqn:E; [by right|by right|left|by right].
    pose proof (payload_le_layout _ (leaf n) (node_entries n) E). rewrite E in *.
    rewrite !len_app in Hb. len_lia. }
  destruct n. apply parses_ret.
Qed.

(** C32. Nodes survive serialisation: every valid node of a built-in layout
    encodes, and decoding the bytes returns the same node, in the plain,
    prefix-compressed and offset-table layouts, for leaves and internal nodes,
    with the default format left out and any other format embedded. *)
Theorem node_roundtrip n :
  node_wf n → ∃ b, to_bytes n = Ok b ∧ (vec_wf b → from_bytes b = Ok n).
Proof. apply roundtrip_ok. Qed.

(** *** Encoded length *)
Lemma prefix_len_spec lf pk es n :
  prefix_len lf pk es n = n + len (encode_prefix lf pk es []).
Proof.
  revert pk n; induction es as [|[[key val] count] es IH]; intros pk n; [cbn; len_lia|].
  rewrite encode_prefix_cons, encode_prefix_app, len_app.
  cbn [prefix_len prefix_bytes ekey fst app]. rewrite IH, !varint_len_spec, !len_app.
  destruct (common_prefix_len_spec pk key) as (? & ? & _).
  unfold count_len, count_bytes. rewrite len_drop, Z2Nat.id by lia.
  replace (Z.max 0 (len key - common_prefix_len pk key)) with (len key - common_prefix_len pk key) by lia.
  destruct lf; rewrite ?varint_len_spec; [change (len (@nil byte)) with 0|]; lia.
Qed.

Lemma plain_len_spec lf es n : plain_len lf es n = n + len (encode_plain lf es []).
Proof.
  revert n; induction es as [|[[key val] count] es IH]; intros n; [cbn; len_lia|].
  rewrite encode_plain_cons, encode_plain_app, len_app.
  cbn [plain_len plain_bytes app]. rewrite IH, !varint_len_spec, !len_app.
  unfold count_len, count_bytes. destruct lf; rewrite ?varint_len_spec; [change (len (@nil byte)) with 0|]; lia.
Qed.

Lemma offsets_len_spec lf es off n :
  0 ≤ off → off + len (payload_of es) ≤ usize_max →
  offsets_len lf es off n = (off + len (payload_of es), n + len (table_bytes lf off es)).
Proof.
  revert off n; induction es as [|[[key val] count] es IH]; intros off n Hoff Hp.
  { cbn [offsets_len table_bytes]. change (payload_of []) with (@nil byte). f_equal; len_lia. }
  rewrite payload_cons, !len_app in *. cbn [offsets_len table_bytes table_entry_bytes fst snd].
  pose proof (len_nonneg key). pose proof (len_nonneg val). pose proof (len_nonneg (payload_of es)).
  unfold saturating_add. rewrite !Z.min_l by lia. rewrite IH by lia.
  rewrite !varint_len_spec, !len_app. f_equal; [lia|].
  unfold count_len, count_bytes. destruct lf; rewrite ?varint_len_spec; [change (len (@nil byte)) with 0|]; lia.
Qed.

(** [encoded_len] is exact: it returns the length of the bytes the node
    encodes to, without encoding it. *)
Theorem encoded_len_exact n b :
  node_wf n → to_bytes n = Ok b → vec_wf b → try_encoded_len n = Ok (len b).
Proof.
  intros Hn Hb Hwf. destruct (node_format_bytes_ok n Hn) as (fb & Hfb & Hl).
  unfold to_bytes, try_to_bytes in Hb.
  rewrite (to_compact_bytes_eq n fb Hfb (wf_codec n Hn) Hl) in Hb.
  apply Ok_inj in Hb as <-.
  unfold try_encoded_len, try_encoded_len_with_format. rewrite Hfb. cbn [mbind outcome_bind].
  pose proof (wf_codec n Hn) as Hc. unfold has_codec, vec_wf, layout_bytes in *.
  unfold header_bytes in *.
  destruct (node_layout (format n)); [| | |destruct Hc].
  - rewrite prefix_len_spec, !len_app, !varint_len_spec. apply (f_equal Ok). lia.
  - rewrite plain_len_spec, !len_app, !varint_len_spec. apply (f_equal Ok). lia.
  - rewrite !len_app in Hwf.
    rewrite offsets_len_spec; [|done|unfold isize_max, usize_max, u64_max in *; len_lia].
    rewrite Z.add_0_l, !len_app, !varint_len_spec. apply (f_equal Ok). lia.
Qed.

(** ** Decoded nodes are valid *)

Definition counts_inv (lf : bool) (n : nat) (counts : list Z) : Prop :=
  if lf then counts = [] else length counts = n ∧ Forall (λ c, c ≠ 0) counts.

(** The vectors after [n] entries. *)
Record acc_inv (lf : bool) (n : nat) (acc : Acc) : Prop := {
  inv_keys : length (akeys acc) = n;
  inv_vals : length (avals acc) = n;
  inv_sorted : StronglySorted blt (akeys acc);
  inv_counts : counts_inv lf n (acounts acc);
}.

Lemma emits_for {A} (I : nat → A → Prop) (body : A → reader Error A) n k a :
  (∀ k a, I k a → emits (body a) (λ a' _, I (S k) a')) → I k a →
  emits (for_range n body a) (λ a' _, I (n + k)%nat a').
Proof.
  intros Hbody. revert k a; induction n as [|n IH]; intros k a HI; cbn [for_range].
  { by apply emits_ret. }
  eapply emits_bind; [by apply Hbody|]. intros a' ? HI'.
  replace (S n + k)%nat with (n + S k)%nat by lia. by apply IH.
Qed.

Lemma emits_read_count lf n counts :
  counts_inv lf n counts → emits (read_count lf counts) (λ c _, counts_inv lf (S n) c).
Proof.
  unfold counts_inv, read_count, read_compact_child_count. destruct lf; [by intros ->; apply emits_ret|].
  intros [Hl Hnz]. eapply emits_bind.
  { instantiate (1 := λ c _, c ≠ 0). eapply emits_bind; [apply emits_varint|]. intros v ? _.
    destruct (Z.eqb_spec v 0); [apply emits_fail|by apply emits_ret]. }
  intros c ? Hc. apply emits_ret. rewrite length_app. cbn. split; [lia|].
  apply Forall_app. by repeat constructor.
Qed.

Lemma emits_bytes n : 0 ≤ n → emits (read_bytes n) (λ _ _, True).
Proof. intros Hn. eapply emits_mono; [by apply emits_read|done]. Qed.

Lemma acc_inv_push lf n acc key val counts :
  acc_inv lf n acc → unsorted_after (akeys acc) key = false → counts_inv lf (S n) counts →
  acc_inv lf (S n) {| akeys := akeys acc ++ [key]; avals := avals acc ++ [val]; acounts := counts |}.
Proof.
  intros [Hk Hv Hs _] Hu Hc. constructor; cbn [akeys avals acounts]; rewrite ?length_app; cbn; try lia.
  - by apply unsorted_after_sorted.
  - done.
Qed.

(** The part of an entry after its key. *)
Lemma emits_value_count lf n acc key :
  acc_inv lf n acc → unsorted_after (akeys acc) key = false →
  emits (value_len ← read_usize "value length";
         val ← read_bytes value_len;
         counts ← read_count lf (acounts acc);
         mret {| akeys := akeys acc ++ [key]; avals := avals acc ++ [val]; acounts := counts |})
    (λ acc' _, acc_inv lf (S n) acc').
Proof.
  intros Hacc Hu. eapply emits_bind; [apply emits_usize|]. intros vl ? [Hvl _].
  eapply emits_bind; [by apply emits_bytes|]. intros val _ _.
  eapply emits_bind; [apply (emits_read_count lf n), Hacc|]. intros counts ? Hc.
  apply emits_ret. by apply acc_inv_push.
Qed.

Lemma emits_plain_entry lf n acc :
  acc_inv lf n acc → emits (plain_entry lf acc) (λ acc' _, acc_inv lf (S n) acc').
Proof.
  intros Hacc. unfold plain_entry. eapply emits_bind; [apply emits_usize|]. intros kl ? [Hkl _].
  eapply emits_bind; [by apply emits_bytes|]. intros key _ _.
  destruct (unsorted_after (akeys acc) key) eqn:Hu; [apply emits_fail|]. by apply emits_value_count.
Qed.

Lemma emits_prefix_entry lf n acc :
  acc_inv lf n acc → emits (prefix_entry lf acc) (λ acc' _, acc_inv lf (S n) acc').
Proof.
  intros Hacc. unfold prefix_entry. eapply emits_bind; [apply emits_usize|]. intros sh ? [Hsh _].
  destruct (_ <? sh); [apply emits_fail|].
  eapply emits_bind; [apply emits_usize|]. intros sl ? [Hsl _].
  eapply emits_bind; [apply (emits_lift _ (λ _ _, True)); done|]. intros _ _ _.
  eapply emits_bind; [by apply emits_bytes|]. intros suffix _ _. cbn zeta.
  rewrite <- unsorted_after_last. set (key := take _ _ ++ suffix).
  destruct (unsorted_after (akeys acc) key) eqn:Hu; [apply emits_fail|]. by apply emits_value_count.
Qed.

Lemma emits_table_entry lf n s :
  length s.1 = n ∧ counts_inv lf n s.2 →
  emits (table_entry lf s) (λ s' _, length s'.1 = S n ∧ counts_inv lf (S n) s'.2).
Proof.
  destruct s as [offsets counts]; cbn [fst snd]. intros [Hl Hc]. unfold table_entry.
  do 4 (eapply emits_bind; [apply emits_usize|]; intros ? ? _).
  eapply emits_bind; [by apply emits_read_count|]. intros counts' ? Hc'.
  apply emits_ret. cbn [fst snd]. rewrite length_app. cbn. split; [lia|done].
Qed.

Lemma resolve_offsets_inv payload offsets acc acc' :
  length (akeys acc) = length (avals acc) → StronglySorted blt (akeys acc) →
  resolve_offsets payload offsets acc = Ok acc' →
  length (akeys acc') = (length (akeys acc) + length offsets)%nat ∧
  length (avals acc') = length (akeys acc') ∧ StronglySorted blt (akeys acc') ∧
  acounts acc' = acounts acc.
Proof.
  revert acc; induction offsets as [|[[[ko kl] vo] vl] offsets IH]; intros acc Hl Hs;
    cbn [resolve_offsets length].
  { intros [= <-]. repeat split; [lia|done..]. }
  intros (key & _ & H)%outcome_bind_Ok.
  destruct (unsorted_after (akeys acc) key) eqn:Hu; [done|].
  apply outcome_bind_Ok in H as (val & _ & H).
  apply IH in H; cbn [akeys avals acounts] in *; rewrite ?length_app in *; cbn in *; [|lia|].
  - destruct H as (H1 & H2 & H3 & H4). repeat split; [lia|done..].
  - by apply unsorted_after_sorted.
Qed.

Lemma emits_offset_table lf n :
  emits (offset_table lf n {| akeys := []; avals := []; acounts := [] |})
    (λ acc _, acc_inv lf (Z.to_nat n) acc).
Proof.
  unfold offset_table. cbn [akeys avals acounts].
  eapply emits_bind; [apply (emits_lift _ (λ _ _, True)); done|]. intros _ _ _.
  eapply emits_bind.
  { apply (emits_for (λ k s, length s.1 = k ∧ counts_inv lf k s.2) _ _ 0).
    - intros k s. apply emits_table_entry.
    - by destruct lf; repeat constructor. }
  intros [offsets counts] ? [Hl Hc]. rewrite Nat.add_0_r in *. cbn [fst snd] in *.
  eapply emits_bind; [apply emits_usize|]. intros pl ? [Hpl _].
  eapply emits_bind; [by apply emits_bytes|]. intros payload _ _.
  apply emits_lift. intros acc H. apply resolve_offsets_inv in H; [|done|constructor].
  cbn [akeys avals acounts length] in H. destruct H as (H1 & H2 & H3 & H4).
  constructor; [lia|lia|done|by rewrite H4].
Qed.

Lemma emits_entries f lf n :
  emits (read_entries f lf n) (λ acc _, acc_inv lf (Z.to_nat n) acc).
Proof.
  assert (acc_inv lf 0 {| akeys := []; avals := []; acounts := [] |}) as H0
    by (constructor; try done; [constructor|by destruct lf; repeat constructor]).
  unfold read_entries. destruct (node_layout f).
  - eapply emits_mono; [apply (emits_for (acc_inv lf) _ _ 0); [intros; by apply emits_prefix_entry|done]|].
    intros acc l. by rewrite Nat.add_0_r.
  - eapply emits_mono; [apply (emits_for (acc_inv lf) _ _ 0); [intros; by apply emits_plain_entry|done]|].
    intros acc l. by rewrite Nat.add_0_r.
  - apply emits_offset_table.
  - by apply emits_lift.
Qed.

Lemma emits_node_format : emits read_node_format (λ f _, validate f = Ok tt).
Proof.
  unfold read_node_format. eapply emits_bind; [apply emits_usize|]. intros n ? [Hn _].
  eapply (emits_bind _ _ (λ _ _, True)).
  { case_bool; [by apply emits_ret|]. eapply emits_bind; [by apply emits_bytes|].
    intros fb ? _. by apply emits_lift. }
  intros f ? _. eapply emits_bind; [apply (emits_lift _ (λ _ _, validate f = Ok tt)); by intros []|].
  intros [] ? Hf. by apply emits_ret.
Qed.

Lemma emits_leaf : emits read_leaf (λ _ _, True).
Proof.
  unfold read_leaf. eapply emits_bind; [apply emits_varint|]. intros v ? _.
  case_bool; [by apply emits_ret|]. case_bool; [by apply emits_ret|apply emits_fail].
Qed.

Lemma emits_node_body :
  emits (read_version ≫= λ _,
    f ← read_node_format;
    lf ← read_leaf;
    lv ← read_u8_varint "level";
    entry_count ← read_usize "entry_count";
    if negb lf && (entry_count =? 0) then fail InvalidNode
    else
      lift (vec_with_capacity entry_count 24) ≫= λ _,
      lift (vec_with_capacity entry_count 24) ≫= λ _,
      lift (vec_with_capacity (if lf then 0 else entry_count) 8) ≫= λ _,
      acc ← read_entries f lf entry_count;
      mret {| keys := akeys acc; vals := avals acc; child_counts := acounts acc;
              leaf := lf; level := lv; format := f |})
  (λ n _, Node_validate n = Ok tt).
Proof.
  eapply (emits_bind _ _ (λ _ _, True)).
  { eapply emits_bind; [apply emits_varint|]; intros v ? _.
    case_bool; [by apply emits_ret|apply emits_fail]. }
  intros ? ? _.
  eapply emits_bind; [apply emits_node_format|]. intros f ? Hf.
  eapply emits_bind; [apply (emits_leaf)|]. intros lf ? _.
  eapply (emits_bind _ _ (λ _ _, True)).
  { eapply emits_bind; [apply emits_varint|]. intros v ? _.
    case_bool; [by apply emits_ret|apply emits_fail]. }
  intros lv ? _. eapply emits_bind; [apply emits_usize|]. intros count ? [Hcount _].
  destruct (negb lf && (count =? 0)) eqn:Hempty; [apply emits_fail|].
  do 3 (eapply emits_bind; [apply (emits_lift _ (λ _ _, True)); done|]; intros ? ? _).
  eapply emits_bind; [apply emits_entries|]. intros acc ? [Hk Hv Hs Hc].
  apply emits_ret. apply Node_validate_Ok. cbn [format keys vals leaf child_counts].
  repeat split; [done|lia|done|]. unfold counts_inv in Hc. destruct lf; [done|].
  destruct Hc as [Hlen Hnz]. repeat split; [|lia|done].
  cbn [negb andb] in Hempty. apply Z.eqb_neq in Hempty.
  intros Heq. rewrite Heq in Hk. cbn in Hk. lia.
Qed.

Lemma decoded_validates data n :
  vec_wf data → from_bytes data = Ok n → Node_validate n = Ok tt.
Proof.
  unfold vec_wf, from_bytes, from_compact_bytes. intros Hd ([n' c'] & Hread & Hn)%outcome_bind_Ok.
  destruct (negb _); [done|]. apply Ok_inj in Hn as ->.
  unfold read_node, mbind, reader_bind in Hread. unfold expect_magic in Hread at 1.
  cbn [cursor_new cdata] in Hread.
  destruct (Z.ltb_spec (len data) (len COMPACT_MAGIC)); cbn [orb] in Hread; [done|].
  destruct (negb _); [done|].
  eapply (emits_node_body {| cdata := data; cpos := len COMPACT_MAGIC |}) in Hread
    as (l & Hv & _); [done|].
  unfold cursor_wf; cbn [cdata cpos]. pose proof (len_nonneg COMPACT_MAGIC). lia.
Qed.

(** C33. Whatever bytes it is given, the decoder only returns nodes that pass
    [validate]: a valid persisted format, as many values as keys, strictly
    ascending keys, and non-zero child counts exactly on internal nodes. *)
Theorem decoded_node_valid data n :
  vec_wf data → from_bytes data = Ok n → Node_validate n = Ok tt.
Proof. apply decoded_validates. Qed.

(** ** Search *)

Lemma sorted_lookup ks i j a b :
  StronglySorted blt ks → (i < j)%nat → ks !! i = Some a → ks !! j = Some b → (a < b)%key.
Proof.
  intros Hs. revert i j; induction Hs as [|k ks Hs IH Hall]; intros i j Hij Ha Hb; [done|].
  destruct j as [|j]; [lia|]. destruct i as [|i]; [|by apply (IH i j); [lia|..]].
  injection Ha as ->. cbn in Hb. by eapply Forall_lookup_1 in Hall.
Qed.

(** [search_base] keeps the last key that is not above the searched one in
    [base .. base + size). *)
Lemma search_base_spec fuel ks key base size :
  StronglySorted blt ks → (1 ≤ size ≤ fuel)%nat → (base + size ≤ length ks)%nat →
  let b := search_base fuel ks key base size in
  (base ≤ b < base + size)%nat ∧
  (∀ i k, (b < i < base + size)%nat → ks !! i = Some k → (key < k)%key) ∧
  (b ≠ base → ∃ k, ks !! b = Some k ∧ (k ≤ key)%key).
Proof.
  intros Hs. revert base size; induction fuel as [|fuel IH]; intros base size Hsize Hlen; [lia|].
  cbn [search_base]. destruct (Nat.ltb_spec 1 size) as [H1|H1].
  2: { replace size with 1%nat by lia. cbn zeta. repeat split; [lia|lia|intros; lia|done]. }
  assert (1 ≤ size / 2 < size)%nat as Hhalf
    by (split; [apply Nat.div_le_lower_bound|apply Nat.Div0.div_lt_upper_bound]; lia).
  set (half := (size / 2)%nat) in *. cbn zeta.
  destruct (lookup_lt_is_Some_2 ks (base + half)) as [m Hm]; [lia|]. rewrite Hm. change (default [] (Some m)) with m.
  assert (half ≤ size - half)%nat as Hle.
  { pose proof (Nat.div_mod size 2 ltac:(lia)). unfold half. lia. }
  destruct (bcmp m key) eqn:Hcmp.
  1,2: destruct (IH (base + half) (size - half))%nat as (Hb & Hup & Hlow); [lia|lia|].
  1,2: split; [lia|]; split; [intros i k Hi; apply Hup; lia|]; intros _.
  1,2: destruct (decide (search_base fuel ks key (base + half) (size - half) = base + half)%nat)
    as [->|Hne]; [exists m; split; [done|]; unfold ble; by rewrite Hcmp|by apply Hlow].
  destruct (IH base (size - half))%nat as (Hb & Hup & Hlow); [lia|lia|].
  split; [lia|]. split; [|done]. intros i k Hi Hk.
  destruct (decide (i < base + (size - half))%nat); [apply (Hup i); [lia|done]|].
  assert ((key < m)%key) as Hkm by (unfold blt; by rewrite bcmp_antisym, Hcmp).
  destruct (decide (i = base + half)%nat) as [->|]; [congruence|].
  eapply blt_trans; [exact Hkm|]. apply (sorted_lookup ks (base + half) i); [done|lia|done..].
Qed.

(** What a search result says: the index of the key, or the only index that keeps
    the keys ascending. *)
Definition search_at (ks : list bytes) (key : bytes) (r : search_result) : Prop :=
  match r with
  | Found i => ks !! i = Some key
  | Insert i => (i ≤ length ks)%nat ∧
      (∀ j k, (j < i)%nat → ks !! j = Some k → (k < key)%key) ∧
      (∀ j k, (i ≤ j)%nat → ks !! j = Some k → (key < k)%key)
  end.

Lemma search_correct ks key : StronglySorted blt ks → search_at ks key (search ks key).
Proof.
  intros Hs. unfold search.
  destruct ks as [|k0 ks'] eqn:Hks; [by repeat split|]. rewrite <- Hks in *.
  assert (1 ≤ length ks)%nat as Hlen by (rewrite Hks; cbn; lia).
  destruct (search_base_spec (length ks) ks key 0 (length ks) Hs) as (Hb & Hup & Hlow);
    [lia|lia|]. set (b := search_base _ _ _ _ _) in *.
  destruct (lookup_lt_is_Some_2 ks b) as [m Hm]; [lia|]. rewrite Hm.
  change (default [] (Some m)) with m. destruct (bcmp m key) eqn:Hcmp.
  - apply bcmp_Eq in Hcmp. congruence.
  - split; [lia|]. split.
    + intros j k Hj Hk. destruct (decide (j = b)) as [->|]; [by simplify_eq|].
      eapply blt_trans; [|exact Hcmp]. apply (sorted_lookup ks j b); [done|lia|done..].
    + intros j k Hj Hk. apply (Hup j); [|done]. apply lookup_lt_Some in Hk. lia.
  - split; [lia|]. destruct (decide (b = 0%nat)) as [Hb0|Hb0].
    2: { destruct (Hlow Hb0) as (k & Hk & Hle). by simplify_eq. }
    split; [lia|]. intros j k Hj Hk.
    assert ((key < m)%key) as Hkm by (unfold blt; by rewrite bcmp_antisym, Hcmp).
    destruct (decide (j = b)) as [->|]; [by simplify_eq|].
    eapply blt_trans; [exact Hkm|]. apply (sorted_lookup ks b j); [done|lia|done..].
Qed.

Lemma search_at_unique ks key r1 r2 :
  StronglySorted blt ks → search_at ks key r1 → search_at ks key r2 → r1 = r2.
Proof.
  intros Hs H1 H2. destruct r1 as [i|i], r2 as [j|j]; cbn in H1, H2.
  - f_equal. destruct (lt_eq_lt_dec i j) as [[Hlt| ->]|Hlt]; [|done|].
    + destruct (blt_irrefl key). by apply (sorted_lookup ks i j).
    + destruct (blt_irrefl key). by apply (sorted_lookup ks j i).
  - destruct H2 as (_ & Hlow & Hup). destruct (blt_irrefl key).
    destruct (decide (i < j)%nat); [by apply (Hlow i)|apply (Hup i); [lia|done]].
  - destruct H1 as (_ & Hlow & Hup). destruct (blt_irrefl key).
    destruct (decide (j < i)%nat); [by apply (Hlow j)|apply (Hup j); [lia|done]].
  - destruct H1 as (Hi & Hlow1 & Hup1), H2 as (Hj & Hlow2 & Hup2). f_equal.
    destruct (lt_eq_lt_dec i j) as [[Hlt| ->]|Hlt]; [|done|].
    + destruct (lookup_lt_is_Some_2 ks i) as [k Hk]; [lia|]. destruct (blt_irrefl key).
      eapply blt_trans; [apply (Hup1 i k); [lia|done]|by apply (Hlow2 i k)].
    + destruct (lookup_lt_is_Some_2 ks j) as [k Hk]; [lia|]. destruct (blt_irrefl key).
      eapply blt_trans; [apply (Hup2 j k); [lia|done]|by apply (Hlow1 j k)].
Qed.

(** Binary search is correct on valid nodes: it finds the index of a key that
    is present, and otherwise the only index that keeps the keys ascending. *)
Theorem search_spec n key :
  Node_validate n = Ok tt →
  match Node_search n key with
  | Found i => keys n !! i = Some key
  | Insert i => (i ≤ length (keys n))%nat ∧
      (∀ j k, (j < i)%nat → keys n !! j = Some k → (k < key)%key) ∧
      (∀ j k, (i ≤ j)%nat → keys n !! j = Some k → (key < k)%key)
  end.
Proof. intros (_ & _ & Hs & _)%Node_validate_Ok. exact (search_correct (keys n) key Hs). Qed.

(** Untrusted counts reach [Vec::with_capacity]: bytes that start like a leaf
    of the default format and announce more entries than an allocation can hold
    make the decoder panic with a capacity overflow instead of returning an
    error, whatever follows. *)
Theorem entry_count_capacity_panic count rest :
  let data := COMPACT_MAGIC ++ varint varint_fuel COMPACT_VERSION ++ varint varint_fuel 0 ++
    varint varint_fuel 1 ++ varint varint_fuel 0 ++ varint varint_fuel count ++ rest in
  isize_max < count * 24 → count ≤ u64_max → vec_wf data →
  from_bytes data = Panic "capacity overflow".
Proof.
  intros data Hbig Htop Hwf. unfold from_bytes, from_compact_bytes, read_node, isize_max in *.
  match goal with |- context [(expect_magic ≫= ?f) _] => set (k := f) end.
  destruct (magic_step k _ Hwf) as (Hm & Hc & Hr). fold data in Hm, Hc, Hr. rewrite Hm.
  assert (panics (k tt) "capacity overflow"
    (varint varint_fuel COMPACT_VERSION ++ varint varint_fuel 0 ++ varint varint_fuel 1 ++
     varint varint_fuel 0 ++ varint varint_fuel count ++ [])) as Hp.
  { eapply panics_bind; [eapply parses_bind_end; [by apply parses_varint|apply parses_ret]|].
    eapply panics_bind.
    { eapply parses_bind_end; [by apply parses_usize|].
      eapply parses_bind_nil; [apply parses_ret|].
      eapply parses_bind_nil; [by apply (parses_lift _ tt)|apply parses_ret]. }
    eapply panics_bind; [eapply parses_bind_end; [by apply parses_varint|apply parses_ret]|].
    eapply panics_bind; [eapply parses_bind_end; [by apply parses_varint|apply parses_ret]|].
    eapply panics_bind; [apply parses_usize; lia|]. cbn [negb andb].
    apply panics_here. unfold vec_with_capacity, isize_max. case_bool; [lia|done]. }
  rewrite (Hp _ rest Hc); [done|]. rewrite Hr. by rewrite <- !app_assoc.
Qed.

(** Instances of the theorems above. *)
Definition sample_format : TreeFormat := {|
  chunking := ChunkingSpec_default; node_layout := OffsetTable; value_encoding := EncCbor |}.
Definition sample_node : Node := {|
  keys := [[Byte.x61]; [Byte.x61; Byte.x62]]; vals := [[Byte.x01]; []];
  child_counts := [3; 300]; leaf := false; level := 1; format := sample_format |}.

Lemma sample_node_wf : node_wf sample_node.
Proof.
  constructor.
  - reflexivity.
  - constructor; [apply ChunkingSpec_default_wf|exact I|exact I].
  - exact I.
  - split; vm_compute; discriminate.
  - repeat apply Forall_cons_2; try apply Forall_nil_2; vm_compute; discriminate.
  - repeat apply Forall_cons_2; try apply Forall_nil_2; vm_compute; discriminate.
  - repeat apply Forall_cons_2; try apply Forall_nil_2; split; vm_compute; discriminate.
  - vm_compute. discriminate.
Qed.

Lemma node_roundtrip_witness : node_wf sample_node ∧
  ∃ b, to_bytes sample_node = Ok b ∧ (vec_wf b → from_bytes b = Ok sample_node).
Proof. split; [apply sample_node_wf|]. apply node_roundtrip, sample_node_wf. Defined.

Lemma encoded_len_exact_witness :
  ∃ b, to_bytes sample_node = Ok b ∧ try_encoded_len sample_node = Ok (len b).
Proof.
  eexists. split; [vm_compute; reflexivity|].
  apply encoded_len_exact; [apply sample_node_wf|vm_compute; reflexivity|by vm_compute].
Defined.

Lemma decoded_node_valid_witness :
  ∃ b, from_bytes b = Ok sample_node ∧ Node_validate sample_node = Ok tt.
Proof.
  exists (match to_bytes sample_node with Ok b => b | _ => [] end).
  split; [vm_compute; reflexivity|].
  apply (decoded_node_valid (match to_bytes sample_node with Ok b => b | _ => [] end));
    [by vm_compute|vm_compute; reflexivity].
Defined.

Lemma search_spec_witness : keys sample_node !! 1%nat = Some [Byte.x61; Byte.x62].
Proof. exact (search_spec sample_node [Byte.x61; Byte.x62] eq_refl). Defined.

Lemma entry_count_capacity_panic_witness :
  from_bytes (COMPACT_MAGIC ++ varint varint_fuel COMPACT_VERSION ++ varint varint_fuel 0 ++
    varint varint_fuel 1 ++ varint varint_fuel 0 ++ varint varint_fuel (2 ^ 60) ++ [])
  = Panic "capacity overflow".
Proof. by apply entry_count_capacity_panic; vm_compute. Defined.

End Node.
