(* ===== verification/ReadNode.v ===== *)
(** * Packed read nodes (src/prolly/node.rs, [ReadNode])

    The read path does not build a [Node]: [ReadNode::from_shared] keeps the encoded
    bytes and records where every key and value lies.  The file models the packed
    decoder, the accessors and the search with its common prefix and its order
    words, and shows that the packed decoder and [Node::from_bytes] accept the same
    bytes with the same contents, and that both searches agree. *)

From Stdlib Require Import ZArith Lia Strings.Byte.
From stdpp Require Import base tactics numbers list sorting strings option pretty sets.
From S2P Require Import Prelude Cursor Types Format Node.

Import Format Node.

Local Open Scope Z_scope.

Module ReadNode.

Record ReadEntryMeta := {
  key_start : Z;
  key_len : Z;
  value_start : Z;
  value_len : Z;
  child_count : Z;
  key_order : Z;
}.

Record ReadNode := {
  rn_bytes : bytes;
  rn_prefix_keys : option bytes;
  rn_entries : list ReadEntryMeta;
  rn_common_prefix_len : Z;
  rn_leaf : bool;
  rn_level : Z;
  rn_format : TreeFormat;
}.

(** ** Helpers *)
Definition key_order_word (key : bytes) (prefix_len : Z) : Z :=
  let suffix := drop (Z.to_nat prefix_len) key in
  let copied := take 8 suffix in
  be_val (copied ++ replicate (8 - length copied) Byte.x00).

Definition compact_u32 (value : Z) (field : string) : outcome Error Z :=
  if value <=? u32_max then Ok value else Err (compact_error (field +:+ " exceeds u32")).

Definition read_slice (data : bytes) (start n : Z) : option bytes :=
  stop ← checked_add usize_max start n;
  slice data start stop.

(** ** Decoding *)
(** The literal [ReadEntryMeta { .. key_order: 0 }]. *)
Definition entry_meta (kstart klen vstart vlen count : Z) : outcome Error ReadEntryMeta :=
  ks ← compact_u32 kstart "key offset";
  kl ← compact_u32 klen "key length";
  vs ← compact_u32 vstart "value offset";
  vl ← compact_u32 vlen "value length";
  Ok {| key_start := ks; key_len := kl; value_start := vs; value_len := vl;
        child_count := count; key_order := 0 |}.

Record PrefixState := {
  arena : bytes;
  previous_start : Z;
  previous_len : Z;
  prefix_metas : list ReadEntryMeta;
}.

Definition extend_from_within (a : bytes) (start stop : Z) : outcome Error bytes :=
  within ← expect "range end index out of range" (slice a start stop);
  Ok (a ++ within).

Definition read_prefix_entry (lf : bool) (s : PrefixState) : reader Error PrefixState :=
  shared ← read_usize "shared key prefix length";
  if previous_len s <? shared
  then fail (compact_error "shared key prefix exceeds previous key")
  else
    suffix_len ← read_usize "key suffix length";
    let kstart := len (arena s) in
    a ← lift (if 0 <? shared
              then extend_from_within (arena s) (previous_start s) (previous_start s + shared)
              else Ok (arena s));
    suffix ← read_bytes suffix_len;
    klen ← lift (ok_or (compact_error "key length overflow") (checked_add usize_max shared suffix_len));
    vlen ← read_usize "value length";
    vstart ← cursor_position;
    read_bytes vlen ≫= λ _,
    count ← read_compact_child_count lf;
    m ← lift (entry_meta kstart klen vstart vlen count);
    mret {| arena := a ++ suffix; previous_start := kstart; previous_len := klen;
            prefix_metas := prefix_metas s ++ [m] |}.

Definition read_plain_entry (lf : bool) (metas : list ReadEntryMeta)
    : reader Error (list ReadEntryMeta) :=
  klen ← read_usize "key length";
  kstart ← cursor_position;
  read_bytes klen ≫= λ _,
  vlen ← read_usize "value length";
  vstart ← cursor_position;
  read_bytes vlen ≫= λ _,
  count ← read_compact_child_count lf;
  m ← lift (entry_meta kstart klen vstart vlen count);
  mret (metas ++ [m]).

Abbreviation table_row := (Z * Z * Z * Z * Z)%type.

Definition read_table_row (lf : bool) (rows : list table_row) : reader Error (list table_row) :=
  key_offset ← read_usize "key offset";
  klen ← read_usize "key length";
  value_offset ← read_usize "value offset";
  vlen ← read_usize "value length";
  count ← read_compact_child_count lf;
  mret (rows ++ [(key_offset, klen, value_offset, vlen, count)]).

Fixpoint resolve_rows (payload : bytes) (payload_start : Z) (rows : list table_row)
    (metas : list ReadEntryMeta) : outcome Error (list ReadEntryMeta) :=
  match rows with
  | [] => Ok metas
  | (key_offset, klen, value_offset, vlen, count) :: rows' =>
      slice_payload payload key_offset klen "key" ≫= λ _,
      slice_payload payload value_offset vlen "value" ≫= λ _,
      kstart ← ok_or (compact_error "key offset overflow") (checked_add usize_max payload_start key_offset);
      vstart ← ok_or (compact_error "value offset overflow") (checked_add usize_max payload_start value_offset);
      m ← entry_meta kstart klen vstart vlen count;
      resolve_rows payload payload_start rows' (metas ++ [m])
  end.

Definition read_offset_table (lf : bool) (entry_count : Z) : reader Error (list ReadEntryMeta) :=
  lift (vec_with_capacity entry_count 40) ≫= λ _,
  rows ← for_range (Z.to_nat entry_count) (read_table_row lf) [];
  payload_len ← read_usize "payload length";
  payload_start ← cursor_position;
  payload ← read_bytes payload_len;
  lift (resolve_rows payload payload_start rows []).

(** The [match &format.node_layout]. *)
Definition read_metas (f : TreeFormat) (lf : bool) (entry_count : Z)
    : reader Error (list ReadEntryMeta * option bytes) :=
  match node_layout f with
  | PrefixCompressed =>
      s ← for_range (Z.to_nat entry_count) (read_prefix_entry lf)
            {| arena := []; previous_start := 0; previous_len := 0; prefix_metas := [] |};
      mret (prefix_metas s, Some (arena s))
  | Plain => metas ← for_range (Z.to_nat entry_count) (read_plain_entry lf) []; mret (metas, None)
  | OffsetTable => metas ← read_offset_table lf entry_count; mret (metas, None)
  | Custom id _ => lift (no_codec id)
  end.

Definition read_packed
    : reader Error (TreeFormat * bool * Z * list ReadEntryMeta * option bytes) :=
  expect_magic ≫= λ _,
  read_version ≫= λ _,
  f ← read_node_format;
  lf ← read_leaf;
  lv ← read_u8_varint "level";
  entry_count ← read_usize "entry_count";
  lift (vec_with_capacity entry_count 32) ≫= λ _,
  '(metas, prefix) ← read_metas f lf entry_count;
  mret (f, lf, lv, metas, prefix).

Definition meta_key (source : bytes) (m : ReadEntryMeta) : option bytes :=
  read_slice source (key_start m) (key_len m).

(** The prefix that the first and the last key share. *)
Definition packed_common_prefix (source : bytes) (metas : list ReadEntryMeta) : outcome Error Z :=
  match metas !! 0%nat, list.last metas with
  | Some first, Some final =>
      first ← ok_or InvalidNode (meta_key source first);
      final ← ok_or InvalidNode (meta_key source final);
      Ok (common_prefix_len first final)
  | _, _ => Ok 0
  end.

Definition with_order (m : ReadEntryMeta) (order : Z) : ReadEntryMeta := {|
  key_start := key_start m; key_len := key_len m; value_start := value_start m;
  value_len := value_len m; child_count := child_count m; key_order := order |}.

(** The loop that checks the order of the keys and fills in the order words. *)
Fixpoint order_loop (source : bytes) (common : Z) (previous : option bytes)
    (metas : list ReadEntryMeta) : outcome Error (list ReadEntryMeta) :=
  match metas with
  | [] => Ok []
  | m :: metas' =>
      key ← ok_or InvalidNode (meta_key source m);
      if (match previous with Some p => bleb key p | None => false end) then Err InvalidNode
      else
        rest ← order_loop source common (Some key) metas';
        Ok (with_order m (key_order_word key common) :: rest)
  end.

Definition from_shared (data : bytes) : outcome Error ReadNode :=
  '(parts, c) ← read_packed (cursor_new data);
  if negb (cursor_is_done c) then Err (compact_error "trailing bytes in compact node")
  else
    let '(f, lf, lv, metas, prefix) := parts in
    let source := default data prefix in
    common ← packed_common_prefix source metas;
    if negb lf && bool_decide (metas = []) then Err InvalidNode
    else
      metas ← order_loop source common None metas;
      common ← compact_u32 common "common key prefix length";
      Ok {| rn_bytes := data; rn_prefix_keys := prefix; rn_entries := metas;
            rn_common_prefix_len := common; rn_leaf := lf; rn_level := lv; rn_format := f |}.

(** ** Accessors *)
Definition rn_source (self : ReadNode) : bytes := default (rn_bytes self) (rn_prefix_keys self).
Definition rn_len (self : ReadNode) : nat := length (rn_entries self).
Definition rn_is_empty (self : ReadNode) : bool := bool_decide (rn_entries self = []).
Definition rn_is_leaf (self : ReadNode) : bool := rn_leaf self.

Definition rn_key (self : ReadNode) (index : nat) : option bytes :=
  entry ← rn_entries self !! index;
  meta_key (rn_source self) entry.

Definition meta_value (data : bytes) (m : ReadEntryMeta) : option bytes :=
  read_slice data (value_start m) (value_len m).

Definition rn_value (self : ReadNode) (index : nat) : option bytes :=
  entry ← rn_entries self !! index;
  meta_value (rn_bytes self) entry.

Definition rn_entry (self : ReadNode) (index : nat) : option (bytes * bytes) :=
  entry ← rn_entries self !! index;
  key ← meta_key (rn_source self) entry;
  value ← meta_value (rn_bytes self) entry;
  Some (key, value).

Definition rn_child_count (self : ReadNode) (index : nat) : option Z :=
  if negb (rn_leaf self) then child_count <$> rn_entries self !! index else None.

Definition rn_child_cid (self : ReadNode) (index : nat) : outcome Error Cid :=
  value ← ok_or InvalidNode (rn_value self index);
  if len value =? 32 then Ok value else Err InvalidNode.

Definition to_owned (self : ReadNode) : outcome Error Node := 
  ks ← mapM (λ i, expect "validated read node" (rn_key self i)) (seq 0 (rn_len self));
  vs ← mapM (λ i, expect "validated read node" (rn_value self i)) (seq 0 (rn_len self));
  Ok {| keys := ks; vals := vs;
        child_counts := if rn_leaf self then [] else child_count <$> rn_entries self;
        leaf := rn_leaf self; level := rn_level self; format := rn_format self |}.

(** [mem::size_of::<ReadEntryMeta>()] is 32. *)
Definition rn_retained_bytes (self : ReadNode) : Z :=
  saturating_add usize_max
    (saturating_add usize_max (len (rn_bytes self)) (default 0 (len <$> rn_prefix_keys self)))
    (saturating_mul usize_max (len (rn_entries self)) 32).

(** ** Search *)
(** An unchecked read of the raw parts; outside the slice it is undefined behaviour. *)
Definition raw_parts {E} (source : bytes) (start n : Z) : outcome E bytes :=
  expect "undefined behaviour: read outside the slice" (slice source start (start + n)).
Definition get_unchecked {E A} (l : list A) (i : nat) : outcome E A :=
  expect "undefined behaviour: index outside the slice" (l !! i).

Fixpoint packed_search_loop (fuel : nat) (self : ReadNode) (key : bytes) (query_order : Z)
    (left right : nat) : outcome Error search_result :=
  match fuel with
  | O => Panic "out of fuel"
  | S fuel' =>
      if (left <? right)%nat then
        let mid := (left + (right - left) / 2)%nat in
        entry ← get_unchecked (rn_entries self) mid;
        match Z.compare (key_order entry) query_order with
        | Lt => packed_search_loop fuel' self key query_order (mid + 1) right
        | Gt => packed_search_loop fuel' self key query_order left mid
        | Eq =>
            candidate ← raw_parts (rn_source self) (key_start entry) (key_len entry);
            match bcmp candidate key with
            | Lt => packed_search_loop fuel' self key query_order (mid + 1) right
            | Gt => packed_search_loop fuel' self key query_order left mid
            | Eq => Ok (Found mid)
            end
        end
      else Ok (Insert left)
  end.

(** The comparison with the common prefix; [None] goes on to the binary search. *)
Definition prefix_decides (self : ReadNode) (key : bytes) : outcome Error (option search_result) :=
  let common_len := rn_common_prefix_len self in
  if 0 <? common_len then
    first ← get_unchecked (rn_entries self) 0;
    common ← raw_parts (rn_source self) (key_start first) common_len;
    let shared := Z.to_nat (Z.min (len key) common_len) in
    Ok match bcmp (take shared key) (take shared common) with
       | Lt => Some (Insert 0)
       | Gt => Some (Insert (rn_len self))
       | Eq => if len key <? common_len then Some (Insert 0) else None
       end
  else Ok None.

Definition rn_search (self : ReadNode) (key : bytes) : outcome Error search_result :=
  decided ← prefix_decides self key;
  match decided with
  | Some result => Ok result
  | None =>
      packed_search_loop (S (rn_len self)) self key
        (key_order_word key (rn_common_prefix_len self)) 0 (rn_len self)
  end.

(** ** What both decoders read

    [Node::from_bytes] and [ReadNode::from_shared] run the same reads and differ in
    what they keep.  A raw entry is what the bytes hold: the key, the value, the
    count, and where the key and the value start. *)
Record raw := { r_key : bytes; r_val : bytes; r_count : Z; r_kpos : Z; r_vpos : Z }.

Definition raw_entry (r : raw) : node_entry := (r_key r, r_val r, r_count r).
Definition raw_meta (r : raw) : ReadEntryMeta := {|
  key_start := r_kpos r; key_len := len (r_key r);
  value_start := r_vpos r; value_len := len (r_val r); child_count := r_count r; key_order := 0 |}.

(** The offsets that a packed entry can hold. *)
Definition raw_small (r : raw) : Prop :=
  r_kpos r ≤ u32_max ∧ len (r_key r) ≤ u32_max ∧ r_vpos r ≤ u32_max ∧ len (r_val r) ≤ u32_max.

Lemma reader_bind_Ok {E A B} (p : reader E A) (k : A → reader E B) c b c' :
  (p ≫= k) c = Ok (b, c') ↔ ∃ a c1, p c = Ok (a, c1) ∧ k a c1 = Ok (b, c').
Proof.
  unfold mbind, reader_bind. destruct (p c) as [[a c1]|e|s] eqn:Hp.
  - split; [by eauto|]. by intros (? & ? & [= <- <-] & ?).
  - split; [done|]. by intros (? & ? & ? & _).
  - split; [done|]. by intros (? & ? & ? & _).
Qed.

Lemma lift_Ok {E A} (m : outcome E A) c a c' : lift m c = Ok (a, c') ↔ m = Ok a ∧ c' = c.
Proof. unfold lift. destruct m; split; try done; [by intros [= <- <-]|by intros [[= <-] ->]|by intros [? _]..]. Qed.

Lemma compact_u32_Ok v field w : compact_u32 v field = Ok w ↔ w = v ∧ v ≤ u32_max.
Proof.
  unfold compact_u32. destruct (Z.leb_spec v u32_max); split; try done; [by intros [= <-]|by intros [-> _]|].
  intros [_ ?]; lia.
Qed.

Lemma entry_meta_Ok ks key vs val count m :
  entry_meta ks (len key) vs (len val) count = Ok m ↔
  let r := {| r_key := key; r_val := val; r_count := count; r_kpos := ks; r_vpos := vs |} in
  raw_small r ∧ m = raw_meta r.
Proof.
  unfold entry_meta, raw_small, raw_meta; cbn [r_key r_val r_count r_kpos r_vpos]. split.
  - intros H. inv_ok. repeat match goal with H : compact_u32 _ _ = Ok _ |- _ => apply compact_u32_Ok in H as [-> ?] end.
    done.
  - intros [(H1 & H2 & H3 & H4) ->]. unfold compact_u32.
    by rewrite !(proj2 (Z.leb_le _ _)) by done.
Qed.

(** Takes apart the binds of a successful run. *)
Ltac reads H :=
  lazymatch type of H with
  | (_ ≫= _) _ = Ok (_, _) =>
      let a := fresh "x" in let c := fresh "c" in let Hp := fresh "R" in
      apply reader_bind_Ok in H as (a & c & Hp & H); cbn beta zeta iota in H; reads H
  | lift _ _ = Ok (_, _) => apply lift_Ok in H as [H ->]
  | _ => idtac
  end.

Lemma cursor_read_Ok {E} (e1 e2 : E) n c v c' :
  cursor_read e1 e2 n c = Ok (v, c') ↔
  cpos c + n ≤ usize_max ∧ slice (cdata c) (cpos c) (cpos c + n) = Some v ∧
  c' = {| cdata := cdata c; cpos := cpos c + n |}.
Proof.
  unfold cursor_read, checked_add. destruct (Z.leb_spec (cpos c + n) usize_max); cbn.
  - destruct (slice _ _ _) as [w|]; cbn; split; try done; [by intros [= <- <-]| |]; by intros (_ & [= ->] & ->).
  - split; [done|]. intros [? _]; lia.
Qed.

(** A cursor into [data]. *)
Definition at_data (data : bytes) (c : Cursor) : Prop := cursor_wf c ∧ cdata c = data.

Lemma at_emits {A} data (p : reader Error A) P c a c' :
  emits p P → at_data data c → p c = Ok (a, c') →
  at_data data c' ∧ cpos c ≤ cpos c' ∧ ∃ l, P a l.
Proof.
  intros Hp [Hwf Hd] Hc. destruct (Hp _ _ _ Hwf Hc) as (l & HP & Hwf' & -> & _).
  split; [by split|]. split; [|by eauto]. cbn. pose proof (len_nonneg l). lia.
Qed.

Lemma read_varint_loop_moves n shift value c v c' :
  read_varint_loop n shift value c = Ok (v, c') → cpos c < cpos c'.
Proof.
  revert shift value c; induction n as [|n IH]; intros shift value c H; [done|].
  cbn [read_varint_loop] in H. apply reader_bind_Ok in H as (b & c1 & Hb & H).
  assert (cpos c1 = cpos c + 1) as Hc1.
  { unfold read_byte in Hb. inv_ok. done. }
  cbn zeta in H. destruct (_ && _); [done|]. destruct (_ =? 0).
  - injection H as _ <-. lia.
  - apply IH in H. lia.
Qed.

Lemma at_usize data field c v c' :
  at_data data c → read_usize field c = Ok (v, c') →
  at_data data c' ∧ 0 ≤ v ≤ u64_max ∧ cpos c < cpos c'.
Proof.
  intros Hc H. destruct (at_emits _ _ _ _ _ _ (emits_usize field) Hc H) as (? & _ & _ & ?).
  split; [done|]. split; [done|]. unfold read_usize in H. reads H.
  apply read_varint_loop_moves in R. destruct (_ <=? _); [injection H as <- <-; lia|done].
Qed.

Lemma at_bytes data n c v c' :
  at_data data c → read_bytes n c = Ok (v, c') → 0 ≤ n →
  at_data data c' ∧ len v = n ∧ read_slice data (cpos c) n = Some v ∧ cpos c ≤ cpos c'.
Proof.
  intros Hc H Hn. destruct (at_emits _ _ _ _ _ _ (emits_read _ _ n Hn) Hc H) as (? & ? & l & -> & Hl).
  split; [done|]. split; [done|]. split; [|done]. destruct Hc as [_ <-].
  apply cursor_read_Ok in H as (Hle & Hs & _).
  unfold read_slice, checked_add. by rewrite (proj2 (Z.leb_le _ _)) by done.
Qed.

Lemma emits_child_count lf :
  emits (read_compact_child_count lf) (λ n _, 0 ≤ n ≤ u64_max ∧ (lf = false → n ≠ 0)).
Proof.
  unfold read_compact_child_count. destruct lf; [by apply emits_ret|].
  eapply emits_bind; [apply emits_varint|]. intros v l Hv. cbn beta.
  case_bool; [apply emits_fail|by apply emits_ret].
Qed.

Lemma read_count_Ok lf counts c counts' c' :
  read_count lf counts c = Ok (counts', c') ↔
  ∃ n, read_compact_child_count lf c = Ok (n, c') ∧ counts' = if lf then counts else counts ++ [n].
Proof.
  unfold read_count. destruct lf; cbn.
  - split; [intros [= <- <-]; by eexists|]. by intros (n & [= <- <-] & ->).
  - split.
    + intros H. reads H. injection H as <- <-. by eauto.
    + intros (n & Hn & ->). apply reader_bind_Ok. by eauto.
Qed.

(** One entry of the sequential layouts; the prefix layout depends on the previous
    key and the number of key bytes so far. *)
Definition plain_fields (lf : bool) : reader Error raw :=
  klen ← read_usize "key length";
  kpos ← cursor_position;
  key ← read_bytes klen;
  vlen ← read_usize "value length";
  vpos ← cursor_position;
  val ← read_bytes vlen;
  count ← read_compact_child_count lf;
  mret {| r_key := key; r_val := val; r_count := count; r_kpos := kpos; r_vpos := vpos |}.

Definition prefix_fields (lf : bool) (s : bytes * Z) : reader Error raw :=
  shared ← read_usize "shared key prefix length";
  if len s.1 <? shared then fail (compact_error "shared key prefix exceeds previous key")
  else
    suffix_len ← read_usize "key suffix length";
    suffix ← read_bytes suffix_len;
    vlen ← read_usize "value length";
    vpos ← cursor_position;
    val ← read_bytes vlen;
    count ← read_compact_child_count lf;
    mret {| r_key := take (Z.to_nat shared) s.1 ++ suffix; r_val := val; r_count := count;
            r_kpos := s.2; r_vpos := vpos |}.

Definition prefix_next (s : bytes * Z) (r : raw) : bytes * Z := (r_key r, s.2 + len (r_key r)).

(** What a raw entry read between two cursors satisfies. *)
Definition value_in (data : bytes) (r : raw) : Prop :=
  read_slice data (r_vpos r) (len (r_val r)) = Some (r_val r) ∧ 0 ≤ r_vpos r.
Definition key_in (source : bytes) (r : raw) : Prop :=
  read_slice source (r_kpos r) (len (r_key r)) = Some (r_key r) ∧ 0 ≤ r_kpos r.

Lemma at_nonneg data c : at_data data c → 0 ≤ cpos c ≤ len data.
Proof. intros [[? _] <-]. lia. Qed.
Lemma at_bound data c : at_data data c → len data ≤ isize_max.
Proof. by intros [[_ ?] <-]. Qed.

(** Follows the cursor through the reads of a run. *)
Ltac walk :=
  repeat match goal with
  | R : cursor_position _ = Ok (_, _) |- _ => injection R as <- <-
  | Hc : at_data _ ?c, R : read_usize _ ?c = Ok (_, _) |- _ =>
      pose proof (at_nonneg _ _ Hc); destruct (at_usize _ _ _ _ _ Hc R) as (? & ? & ?); clear Hc
  | Hc : at_data _ ?c, R : read_bytes ?n ?c = Ok (_, _), Hn : 0 ≤ ?n ≤ _ |- _ =>
      pose proof (at_nonneg _ _ Hc);
      destruct (at_bytes _ _ _ _ _ Hc R (proj1 Hn)) as (? & ? & ? & ?); clear Hc
  | Hc : at_data _ ?c, R : read_compact_child_count ?lf ?c = Ok (_, _) |- _ =>
      pose proof (at_nonneg _ _ Hc);
      destruct (at_emits _ _ _ _ _ _ (emits_child_count lf) Hc R) as (? & ? & _ & ? & _); clear Hc
  end.

Lemma plain_fields_at lf data c r c' :
  at_data data c → plain_fields lf c = Ok (r, c') →
  at_data data c' ∧ cpos c < cpos c' ∧ value_in data r ∧ key_in data r.
Proof.
  intros Hc H. unfold plain_fields in H. reads H. injection H as <- <-. walk. subst.
  split; [done|]. split; [lia|]. split; split; cbn; (done || lia).
Qed.

Lemma prefix_fields_at lf s data c r c' :
  at_data data c → prefix_fields lf s c = Ok (r, c') →
  at_data data c' ∧ cpos c < cpos c' ∧ value_in data r ∧ r_kpos r = s.2.
Proof.
  intros Hc H. unfold prefix_fields in H. reads H. walk. destruct (_ <? _); [done|]. reads H.
  injection H as <- <-. walk. subst.
  split; [done|]. split; [lia|]. split; [split; cbn; (done || lia)|done].
Qed.

(** The decoders' entries are the raw entries with their own checks. *)
Lemma plain_entry_Ok lf acc data c acc' c' :
  at_data data c →
  plain_entry lf acc c = Ok (acc', c') ↔
  ∃ r, plain_fields lf c = Ok (r, c') ∧ unsorted_after (akeys acc) (r_key r) = false ∧
       acc' = push lf acc (raw_entry r).
Proof.
  intros _. split.
  - intros H. unfold plain_entry in H. reads H. destruct (unsorted_after _ _) eqn:Hs; [done|]. reads H.
    injection H as <- <-. apply read_count_Ok in R3 as (n & Hn & ->).
    eexists. split; [unfold plain_fields, mbind, reader_bind, cursor_position; rewrite R, R0, R1, R2, Hn; reflexivity|].
    split; done.
  - intros (r & H & Hs & ->). unfold plain_fields in H. reads H. injection H as <- <-.
    injection R0 as <- <-. injection R3 as <- <-. cbn [r_key] in Hs.
    unfold plain_entry, mbind, reader_bind. rewrite R, R1, Hs, R2, R4.
    rewrite (proj2 (read_count_Ok lf _ _ _ _) (ex_intro _ _ (conj R5 eq_refl))). done.
Qed.

Lemma read_plain_entry_Ok lf metas data c metas' c' :
  at_data data c →
  read_plain_entry lf metas c = Ok (metas', c') ↔
  ∃ r, plain_fields lf c = Ok (r, c') ∧ raw_small r ∧ metas' = metas ++ [raw_meta r].
Proof.
  intros Hc. split.
  - intros H. unfold read_plain_entry in H. reads H. injection H as <- <-.
    apply lift_Ok in R6 as [R6 ->]. walk. subst. apply entry_meta_Ok in R6 as [Hsm ->].
    eexists. split; [unfold plain_fields, mbind, reader_bind, cursor_position; rewrite R, R1, R2, R4, R5; reflexivity|].
    split; done.
  - intros (r & H & Hs & ->). unfold plain_fields in H. reads H. injection H as <- <-.
    walk. subst. unfold read_plain_entry, mbind, reader_bind, cursor_position. rewrite R, R1, R2, R4, R5.
    unfold lift. by rewrite (proj2 (entry_meta_Ok _ _ _ _ _ _) (conj Hs eq_refl)).
Qed.

Lemma slice_take {A} (l m : list A) a n k :
  0 ≤ a → slice l a (a + n) = Some m → 0 ≤ k ≤ n → slice l a (a + k) = Some (take (Z.to_nat k) m).
Proof.
  intros Ha H Hk. pose proof (slice_Some _ _ _ _ Ha H) as (Hr & Hl & _). unfold slice in *.
  rewrite !(proj2 (Z.leb_le _ _)) in * by lia. injection H as <-.
  cbn [andb]. f_equal. rewrite take_take. f_equal. lia.
Qed.

Lemma capacity_1 n : vec_with_capacity (E:=Error) n 1 = Ok tt ↔ n ≤ isize_max.
Proof. unfold vec_with_capacity. case_bool; split; (done || lia). Qed.

Lemma prefix_entry_Ok lf acc pos data c acc' c' :
  at_data data c →
  prefix_entry lf acc c = Ok (acc', c') ↔
  ∃ r, prefix_fields lf (last_key (akeys acc), pos) c = Ok (r, c') ∧
       (unsorted_after (akeys acc) (r_key r) = false ∧ len (r_key r) ≤ isize_max) ∧
       acc' = push lf acc (raw_entry r).
Proof.
  intros Hc. set (pk := last_key (akeys acc)). split.
  - intros H. unfold prefix_entry in H. reads H. walk. fold pk in H.
    destruct (Z.ltb_spec (len pk) x); [done|]. reads H.
    destruct (bleb _ _ && _) eqn:Hs; [done|]. reads H. walk.
    injection H as <- <-. apply lift_Ok in R1 as [Hcap ->]. walk.
    apply read_count_Ok in R5 as (n & Hn & ->).
    eexists. split.
    { unfold prefix_fields, mbind, reader_bind, cursor_position; cbn [fst snd].
      rewrite R. destruct (Z.ltb_spec (len pk) x); [lia|]. rewrite R0, R2, R3, R4, Hn. reflexivity. }
    cbn [r_key]. rewrite unsorted_after_last. fold pk. split; [split; [done|]|done].
    destruct x1. apply capacity_1 in Hcap. unfold saturating_add, usize_max, u64_max, isize_max in *. len_lia.
  - intros (r & H & [Hs Hlen] & ->). unfold prefix_fields in H. cbn [fst snd] in H. reads H. walk.
    destruct (Z.ltb_spec (len pk) x); [done|]. reads H. walk. injection H as <- <-. cbn [r_key] in *.
    rewrite unsorted_after_last in Hs. fold pk in Hs.
    assert (vec_with_capacity (E:=Error) (saturating_add usize_max x x0) 1 = Ok tt) as Hcap.
    { apply capacity_1. unfold saturating_add. rewrite len_app, len_take in Hlen. lia. }
    unfold prefix_entry, mbind, reader_bind. fold pk. rewrite R.
    destruct (Z.ltb_spec (len pk) x); [lia|]. unfold lift. rewrite R0, Hcap, R1. cbn zeta. rewrite Hs, R2, R4.
    rewrite (proj2 (read_count_Ok lf _ _ _ _) (ex_intro _ _ (conj R5 eq_refl))). done.
Qed.

(** The arena ends with the keys read so far. *)
Record arena_at (st : PrefixState) (s : bytes * Z) : Prop := {
  aa_len : previous_len st = len s.1;
  aa_pos : s.2 = len (arena st);
  aa_prev : slice (arena st) (previous_start st) (previous_start st + len s.1) = Some s.1;
  aa_start : 0 ≤ previous_start st;
}.

Definition arena_push (st : PrefixState) (r : raw) : PrefixState := {|
  arena := arena st ++ r_key r; previous_start := len (arena st); previous_len := len (r_key r);
  prefix_metas := prefix_metas st ++ [raw_meta r] |}.

Lemma arena_push_at st s r : arena_at st s → arena_at (arena_push st r) (prefix_next s r).
Proof.
  intros [Hl Hp Hs Hst]. constructor; cbn [arena_push arena previous_start previous_len prefix_next fst snd].
  - done.
  - rewrite len_app. lia.
  - pose proof (slice_app (arena st) (r_key r) []) as H. by rewrite app_nil_r in H.
  - apply len_nonneg.
Qed.

Lemma arena_extend st s shared :
  arena_at st s → 0 ≤ shared ≤ len s.1 →
  (if 0 <? shared then extend_from_within (arena st) (previous_start st) (previous_start st + shared)
   else Ok (arena st)) = Ok (arena st ++ take (Z.to_nat shared) s.1).
Proof.
  intros [_ _ Hs Hst] Hsh. destruct (Z.ltb_spec 0 shared).
  - unfold extend_from_within. by rewrite (slice_take _ _ _ _ _ Hst Hs Hsh).
  - replace (Z.to_nat shared) with 0%nat by lia. cbn [take]. by rewrite app_nil_r.
Qed.

Lemma read_prefix_entry_Ok lf st s data c st' c' :
  at_data data c → arena_at st s →
  read_prefix_entry lf st c = Ok (st', c') ↔
  ∃ r, prefix_fields lf s c = Ok (r, c') ∧ raw_small r ∧ st' = arena_push st r.
Proof.
  intros Hc Hst. split.
  - intros H. unfold read_prefix_entry in H. reads H. walk. rewrite (aa_len _ _ Hst) in H.
    destruct (Z.ltb_spec (len s.1) x); [done|]. reads H. walk.
    rewrite (arena_extend _ _ _ Hst) in R1 by lia. injection R1 as <- <-. walk.
    apply lift_Ok in R3 as [R3 ->]. apply ok_or_Ok, checked_add_Some in R3 as [-> _]. walk.
    apply lift_Ok in R8 as [R8 ->]. injection H as <- <-. subst.
    replace (x + len x2) with (len (take (Z.to_nat x) s.1 ++ x2)) in R8 |- * by len_lia.
    apply entry_meta_Ok in R8 as [Hsm ->]. rewrite <- (aa_pos _ _ Hst) in *.
    eexists. split.
    { unfold prefix_fields, mbind, reader_bind, cursor_position.
      rewrite R. destruct (Z.ltb_spec (len s.1) x); [lia|]. rewrite R0, R2, R4, R6, R7. reflexivity. }
    split; [done|]. unfold arena_push. cbn [r_key]. rewrite <- (aa_pos _ _ Hst). by rewrite <- app_assoc.
  - intros (r & H & Hsm & ->). unfold prefix_fields in H. reads H. walk.
    destruct (Z.ltb_spec (len s.1) x) as [|Hle]; [done|]. reads H. walk. injection H as <- <-. subst.
    unfold read_prefix_entry, mbind, reader_bind, cursor_position. rewrite R, (aa_len _ _ Hst).
    destruct (Z.ltb_spec (len s.1) x); [lia|]. rewrite R0, (arena_extend _ _ _ Hst) by lia. unfold lift. rewrite R1.
    pose proof Hsm as (_ & Hkl & _). cbn [r_key] in Hkl.
    assert (len (take (Z.to_nat x) s.1 ++ x1) = x + len x1) as Hlen by len_lia.
    rewrite checked_add_le by (unfold usize_max, u64_max, u32_max in *; lia). cbn [ok_or]. rewrite R2, R4, R5.
    rewrite <- Hlen, <- (aa_pos _ _ Hst), (proj2 (entry_meta_Ok _ _ _ _ _ _) (conj Hsm eq_refl)).
    unfold arena_push. cbn [r_key]. rewrite <- (aa_pos _ _ Hst). by rewrite <- app_assoc.
Qed.

(** *** Loops over entries *)
Fixpoint raws {S} (body : S → reader Error raw) (next : S → raw → S) (n : nat) (s : S)
    : reader Error (list raw) :=
  match n with
  | O => mret []
  | S n' => r ← body s; rs ← raws body next n' (next s r); mret (r :: rs)
  end.

Fixpoint allowed {A} (ok : A → raw → Prop) (upd : A → raw → A) (a : A) (rs : list raw) : Prop :=
  match rs with [] => True | r :: rs' => ok a r ∧ allowed ok upd (upd a r) rs' end.

Section loop.
Context {A S : Type} (entry : A → reader Error A) (body : S → reader Error raw)
  (next : S → raw → S) (R : A → S → Prop) (ok : A → raw → Prop) (upd : A → raw → A) (data : bytes).
Hypothesis Hentry : ∀ a s c a' c', at_data data c → R a s →
  entry a c = Ok (a', c') ↔ ∃ r, body s c = Ok (r, c') ∧ ok a r ∧ a' = upd a r.
Hypothesis Hnext : ∀ a s r, R a s → R (upd a r) (next s r).
Hypothesis Hbody : ∀ s c r c', at_data data c → body s c = Ok (r, c') →
  at_data data c' ∧ cpos c < cpos c' ∧ value_in data r.

Lemma for_range_raws n a s c a' c' :
  at_data data c → R a s →
  for_range n entry a c = Ok (a', c') ↔
  ∃ rs, raws body next n s c = Ok (rs, c') ∧ allowed ok upd a rs ∧ a' = foldl upd a rs.
Proof.
  revert a s c; induction n as [|n IH]; intros a s c Hc HR; cbn [for_range raws].
  { split; [intros [= <- <-]; by exists []|]. by intros (rs & [= <- <-] & _ & ->). }
  rewrite reader_bind_Ok. split.
  - intros (a1 & c1 & H1 & H). apply (Hentry a s) in H1 as (r & Hr & Hok & ->); [|done..].
    destruct (Hbody _ _ _ _ Hc Hr) as (Hc1 & _).
    apply (IH _ (next s r)) in H as (rs & Hrs & Hall & ->); [|done|by apply Hnext].
    exists (r :: rs). split; [|by split]. apply reader_bind_Ok. exists r, c1. split; [done|].
    apply reader_bind_Ok. by exists rs, c'.
  - intros (rs & H & Hall & ->). apply reader_bind_Ok in H as (r & c1 & Hr & H).
    apply reader_bind_Ok in H as (rs' & c2 & Hrs & [= <- <-]). destruct Hall as [Hok Hall].
    destruct (Hbody _ _ _ _ Hc Hr) as (Hc1 & _). exists (upd a r), c1. split.
    + apply (Hentry a s); [done..|]. by exists r.
    + apply (IH _ (next s r)); [done|by apply Hnext|]. by exists rs'.
Qed.

Lemma raws_at n s c rs c' :
  at_data data c → raws body next n s c = Ok (rs, c') →
  at_data data c' ∧ length rs = n ∧ cpos c + Z.of_nat n ≤ cpos c' ∧ Forall (value_in data) rs.
Proof.
  revert s c rs; induction n as [|n IH]; intros s c rs Hc H; cbn [raws] in H.
  { injection H as <- <-. split; [done|]. split; [done|]. split; [lia|constructor]. }
  reads H. injection H as <- <-. destruct (Hbody _ _ _ _ Hc R0) as (Hc1 & Hlt & Hv).
  destruct (IH _ _ _ Hc1 R1) as (Hc2 & <- & Hle & Hvs).
  split; [done|]. split; [done|]. split; [lia|by constructor].
Qed.
End loop.

Lemma raws_forall {S} (body : S → reader Error raw) next (Q : raw → Prop) data n s c rs c' :
  (∀ s c r c', at_data data c → body s c = Ok (r, c') → at_data data c' ∧ Q r) →
  at_data data c → raws body next n s c = Ok (rs, c') → Forall Q rs.
Proof.
  intros Hb. revert s c rs; induction n as [|n IH]; intros s c rs Hc H; cbn [raws] in H.
  { injection H as <- <-. constructor. }
  reads H. injection H as <- <-. destruct (Hb _ _ _ _ Hc R) as [Hc1 HQ]. constructor; [done|by eapply IH].
Qed.

(** Where the keys of the prefix layout lie in the arena. *)
Fixpoint placed (pos : Z) (rs : list raw) : Prop :=
  match rs with [] => True | r :: rs' => r_kpos r = pos ∧ placed (pos + len (r_key r)) rs' end.

Lemma prefix_raws_placed lf data n s c rs c' :
  at_data data c → raws (prefix_fields lf) prefix_next n s c = Ok (rs, c') → placed s.2 rs.
Proof.
  revert s c rs; induction n as [|n IH]; intros s c rs Hc H; cbn [raws] in H.
  { injection H as <- <-. done. }
  reads H. injection H as <- <-. destruct (prefix_fields_at _ _ _ _ _ _ Hc R) as (Hc1 & _ & _ & Hk).
  split; [done|]. by apply (IH _ _ _ Hc1 R0).
Qed.

Lemma placed_in pre rs :
  placed (len pre) rs → len (pre ++ concat (r_key <$> rs)) ≤ usize_max →
  Forall (key_in (pre ++ concat (r_key <$> rs))) rs.
Proof.
  revert pre; induction rs as [|r rs IH]; intros pre Hp Hl; [constructor|].
  destruct Hp as [Hk Hp]. cbn [fmap list_fmap concat] in *. constructor.
  - split; [|rewrite Hk; apply len_nonneg]. unfold read_slice. rewrite Hk, checked_add_le by (rewrite !len_app in Hl; len_lia).
    apply slice_app.
  - rewrite app_assoc. apply IH; [by rewrite len_app|by rewrite <- app_assoc].
Qed.

Lemma foldl_arena rs st : arena (foldl arena_push st rs) = arena st ++ concat (r_key <$> rs).
Proof.
  revert st; induction rs as [|r rs IH]; intros st; cbn [foldl fmap list_fmap concat]; [by rewrite app_nil_r|].
  rewrite IH. cbn. by rewrite <- app_assoc.
Qed.
Lemma foldl_prefix_metas rs st :
  prefix_metas (foldl arena_push st rs) = prefix_metas st ++ (raw_meta <$> rs).
Proof.
  revert st; induction rs as [|r rs IH]; intros st; cbn [foldl fmap list_fmap]; [by rewrite app_nil_r|].
  rewrite IH. cbn. by rewrite <- app_assoc.
Qed.
Lemma foldl_metas rs (metas : list ReadEntryMeta) :
  foldl (λ ms r, ms ++ [raw_meta r]) metas rs = metas ++ (raw_meta <$> rs).
Proof.
  revert metas; induction rs as [|r rs IH]; intros metas; cbn [foldl fmap list_fmap]; [by rewrite app_nil_r|].
  rewrite IH. by rewrite <- app_assoc.
Qed.

(** *** What the checks of the loops amount to *)
Definition raw_push (lf : bool) (acc : Acc) (r : raw) : Acc := push lf acc (raw_entry r).
Definition no_acc : Acc := {| akeys := []; avals := []; acounts := [] |}.
Definition acc_of (lf : bool) (rs : list raw) : Acc := {|
  akeys := r_key <$> rs; avals := r_val <$> rs; acounts := if lf then [] else r_count <$> rs |}.

Lemma foldl_raw_push lf rs : foldl (raw_push lf) no_acc rs = acc_of lf rs.
Proof.
  transitivity (foldl (push lf) no_acc (raw_entry <$> rs)).
  - generalize no_acc. induction rs as [|r rs IH]; intros acc; cbn; [done|]. by rewrite IH.
  - rewrite foldl_push. unfold acc_of, counts_of. cbn [no_acc akeys avals acounts app].
    rewrite <- !list_fmap_compose. done.
Qed.

Lemma allowed_forall {A} (Q : raw → Prop) (upd : A → raw → A) a rs :
  allowed (λ _, Q) upd a rs ↔ Forall Q rs.
Proof. revert a; induction rs as [|r rs IH]; intros a; cbn; [done|]. by rewrite IH, Forall_cons_iff. Qed.

Lemma allowed_sorted lf (Q : raw → Prop) acc rs :
  StronglySorted blt (akeys acc) →
  allowed (λ acc r, unsorted_after (akeys acc) (r_key r) = false ∧ Q r) (raw_push lf) acc rs ↔
  StronglySorted blt (akeys acc ++ (r_key <$> rs)) ∧ Forall Q rs.
Proof.
  revert acc; induction rs as [|r rs IH]; intros acc Hs; cbn [allowed fmap list_fmap].
  { rewrite app_nil_r. naive_solver. }
  change (r_key r :: ?l) with ([r_key r] ++ l). rewrite app_assoc, (unsorted_after_sorted _ _ Hs), Forall_cons_iff.
  pose proof (akeys_push lf acc (raw_entry r)) as Hk. fold (raw_push lf acc r) in Hk. cbn [ekey raw_entry fst] in Hk.
  specialize (IH (raw_push lf acc r)). rewrite Hk in IH. split.
  - intros [[H1 HQ] H]. apply IH in H as [Hs' Hall]; [|done]. done.
  - intros [H [HQ Hall]]. assert (StronglySorted blt (akeys acc ++ [r_key r])) as H1 by (by apply StronglySorted_app_1_l in H).
    split; [done|]. by apply IH.
Qed.

(** *** The offset table *)
Definition row_offset (row : table_row) : offset_entry := row.1.
Definition row_counts (lf : bool) (rows : list table_row) : list Z := if lf then [] else snd <$> rows.
Definition row_wf (row : table_row) : Prop :=
  let '(ko, kl, vo, vl, _) := row in 0 ≤ ko ∧ 0 ≤ kl ∧ 0 ≤ vo ∧ 0 ≤ vl.

Lemma table_rows_Ok lf n rows c s c' :
  for_range n (table_entry lf) (row_offset <$> rows, row_counts lf rows) c = Ok (s, c') ↔
  ∃ rows', for_range n (read_table_row lf) rows c = Ok (rows', c') ∧
           s = (row_offset <$> rows', row_counts lf rows').
Proof.
  revert rows c; induction n as [|n IH]; intros rows c; cbn [for_range].
  { split; [intros [= <- <-]; by exists rows|]. by intros (? & [= <- <-] & ->). }
  assert (∀ ko kl vo vl x (counts : list Z), counts = (if lf then row_counts lf rows else row_counts lf rows ++ [x]) →
    ((row_offset <$> rows) ++ [(ko, kl, vo, vl)], counts)
      = (row_offset <$> rows ++ [(ko, kl, vo, vl, x)], row_counts lf (rows ++ [(ko, kl, vo, vl, x)]))) as Hsnoc.
  { intros ko kl vo vl x counts ->. rewrite fmap_app. unfold row_counts. destruct lf; [done|]. by rewrite fmap_app. }
  rewrite reader_bind_Ok. split.
  - intros (a & c1 & H & Hrest). unfold table_entry in H. reads H. injection H as <- <-.
    apply read_count_Ok in R3 as (x4 & Hn & Hc). rewrite (Hsnoc _ _ _ _ _ _ Hc) in Hrest.
    apply IH in Hrest as (rows' & Hrows & ->). exists rows'. split; [|done].
    apply reader_bind_Ok. eexists _, _. split; [|exact Hrows].
    unfold read_table_row, mbind, reader_bind. by rewrite R, R0, R1, R2, Hn.
  - intros (rows' & H & ->). apply reader_bind_Ok in H as (a & c1 & H & Hrest). unfold read_table_row in H.
    reads H. injection H as <- <-. eexists _, _. split.
    + unfold table_entry, mbind, reader_bind. rewrite R, R0, R1, R2.
      rewrite (proj2 (read_count_Ok lf _ _ _ _) (ex_intro _ _ (conj R3 eq_refl))). reflexivity.
    + rewrite (Hsnoc _ _ _ _ _ _ eq_refl). apply IH. by exists rows'.
Qed.

Lemma rows_at lf data n rows c rows' c' :
  at_data data c → for_range n (read_table_row lf) rows c = Ok (rows', c') → Forall row_wf rows →
  at_data data c' ∧ length rows' = (length rows + n)%nat ∧ cpos c + Z.of_nat n ≤ cpos c' ∧
  Forall row_wf rows'.
Proof.
  revert rows c; induction n as [|n IH]; intros rows c Hc H Hwf; cbn [for_range] in H.
  { injection H as <- <-. split; [done|]. split; [lia|]. split; [lia|done]. }
  apply reader_bind_Ok in H as (rows1 & c1 & H1 & H). unfold read_table_row in H1. reads H1.
  injection H1 as <- <-. walk.
  match goal with Hc : at_data data _ |- _ => destruct (IH _ _ Hc H) as (? & Hl & ? & ?) end.
  { apply Forall_app. split; [done|]. repeat constructor; lia. }
  rewrite length_app in Hl. cbn in Hl. split; [done|]. split; [lia|]. split; [lia|done].
Qed.

(** The entry that a row of the table names. *)
Definition row_raw (payload : bytes) (payload_start : Z) (row : table_row) (r : raw) : Prop :=
  let '(ko, kl, vo, vl, count) := row in
  slice_payload payload ko kl "key" = Ok (r_key r) ∧ slice_payload payload vo vl "value" = Ok (r_val r) ∧
  r_kpos r = payload_start + ko ∧ r_vpos r = payload_start + vo ∧ r_count r = count.

Lemma slice_payload_Ok payload off n field v :
  0 ≤ off → slice_payload payload off n field = Ok v →
  len v = n ∧ off + n ≤ len payload ∧ slice payload off (off + n) = Some v.
Proof.
  intros Hoff H. unfold slice_payload in H. inv_ok. apply checked_add_Some in E as [-> _].
  pose proof (slice_Some _ _ _ _ Hoff H) as (? & ? & _). split; [lia|]. split; [lia|done].
Qed.

Lemma resolve_offsets_Ok payload pstart rows acc acc' :
  StronglySorted blt (akeys acc) →
  resolve_offsets payload (row_offset <$> rows) acc = Ok acc' ↔
  ∃ rs, Forall2 (row_raw payload pstart) rows rs ∧ StronglySorted blt (akeys acc ++ (r_key <$> rs)) ∧
        acc' = {| akeys := akeys acc ++ (r_key <$> rs); avals := avals acc ++ (r_val <$> rs);
                  acounts := acounts acc |}.
Proof.
  revert acc; induction rows as [|[[[[ko kl] vo] vl] count] rows IH]; intros acc Hs;
    cbn [fmap list_fmap resolve_offsets row_offset fst].
  { split.
    - intros [= <-]. exists []. cbn. rewrite !app_nil_r. split; [done|]. split; [done|]. by destruct acc.
    - intros (rs & Hrs & _ & ->). apply Forall2_nil_inv_l in Hrs as ->. cbn. rewrite !app_nil_r. by destruct acc. }
  split.
  - intros H. inv_ok. destruct (unsorted_after _ _) eqn:Hu; [done|]. inv_ok.
    apply (unsorted_after_sorted _ _ Hs) in Hu.
    apply IH in H as (rs & Hrs & Hs' & ->); [|done]. cbn [akeys avals acounts] in *.
    exists ({| r_key := v; r_val := v0; r_count := count; r_kpos := pstart + ko; r_vpos := pstart + vo |} :: rs).
    split; [by constructor|]. cbn [fmap list_fmap r_key r_val]. rewrite <- !app_assoc in *. done.
  - intros (rs & Hrs & Hs' & ->). apply Forall2_cons_inv_l in Hrs as (r & rs' & (H1 & H2 & _) & Hrs & ->).
    cbn [fmap list_fmap] in *. change (r_key r :: ?l) with ([r_key r] ++ l) in *. rewrite app_assoc in Hs'.
    assert (StronglySorted blt (akeys acc ++ [r_key r])) as Hs1 by (by apply StronglySorted_app_1_l in Hs').
    rewrite H1. cbn [mbind outcome_bind]. rewrite (proj2 (unsorted_after_sorted _ _ Hs) Hs1), H2.
    cbn [mbind outcome_bind]. apply IH; [done|]. exists rs'. split; [done|]. split; [done|].
    cbn [akeys avals acounts]. by rewrite <- !app_assoc.
Qed.

Lemma resolve_rows_Ok payload pstart rows metas metas' :
  Forall row_wf rows → 0 ≤ pstart → pstart + len payload ≤ usize_max →
  resolve_rows payload pstart rows metas = Ok metas' ↔
  ∃ rs, Forall2 (row_raw payload pstart) rows rs ∧ Forall raw_small rs ∧
        metas' = metas ++ (raw_meta <$> rs).
Proof.
  intros Hwf Hp Hl. revert metas; induction Hwf as [|[[[[ko kl] vo] vl] count] rows Hrow Hwf IH]; intros metas;
    cbn [resolve_rows].
  { split.
    - intros [= <-]. exists []. by rewrite app_nil_r.
    - intros (rs & Hrs & _ & ->). apply Forall2_nil_inv_l in Hrs as ->. by rewrite app_nil_r. }
  destruct Hrow as (Hr1 & Hr2 & Hr3 & Hr4). split.
  - intros H. inv_ok. destruct (slice_payload_Ok _ _ _ _ _ Hr1 E) as (<- & ? & _).
    destruct (slice_payload_Ok _ _ _ _ _ Hr3 E0) as (<- & ? & _).
    apply checked_add_Some in E1 as [-> _]. apply checked_add_Some in E2 as [-> _].
    apply entry_meta_Ok in E3 as [Hsm ->]. apply IH in H as (rs & Hrs & Hall & ->).
    exists ({| r_key := v; r_val := v0; r_count := count; r_kpos := pstart + ko; r_vpos := pstart + vo |} :: rs).
    split; [by constructor|]. split; [by constructor|]. by rewrite <- app_assoc.
  - intros (rs & Hrs & Hall & ->). apply Forall2_cons_inv_l in Hrs as (r & rs' & (H1 & H2 & Hk & Hv & Hc) & Hrs & ->).
    apply Forall_cons_1 in Hall as [Hsm Hall]. rewrite H1, H2. cbn [mbind outcome_bind].
    destruct (slice_payload_Ok _ _ _ _ _ Hr1 H1) as (<- & ? & _).
    destruct (slice_payload_Ok _ _ _ _ _ Hr3 H2) as (<- & ? & _).
    pose proof (len_nonneg (r_key r)). pose proof (len_nonneg (r_val r)).
    rewrite !checked_add_le by lia. cbn [ok_or mbind outcome_bind]. rewrite <- Hk, <- Hv, <- Hc.
    destruct r as [key val n kp vp]; cbn [r_key r_val r_count r_kpos r_vpos] in *.
    rewrite (proj2 (entry_meta_Ok _ _ _ _ _ _) (conj Hsm eq_refl)). cbn [mbind outcome_bind].
    apply IH. exists rs'. split; [done|]. split; [done|]. cbn [fmap list_fmap]. by rewrite <- app_assoc.
Qed.

Lemma row_raws_in data pstart payload rows rs :
  Forall row_wf rows → 0 ≤ pstart → len data ≤ isize_max →
  read_slice data pstart (len payload) = Some payload →
  Forall2 (row_raw payload pstart) rows rs → Forall (value_in data) rs ∧ Forall (key_in data) rs.
Proof.
  intros Hwf Hp Hd Hpl Hrs. unfold read_slice in Hpl.
  destruct (checked_add _ _ _) as [stop|] eqn:Hc; [|done]. apply checked_add_Some in Hc as [-> Hle].
  cbn [mbind option_bind] in Hpl. apply slice_Some in Hpl as (Hr & _ & Hpl); [|done].
  set (pre := take (Z.to_nat pstart) data) in *. set (post := drop (Z.to_nat (pstart + len payload)) data) in *.
  assert (len pre = pstart) as Hpre by (unfold pre; len_lia).
  assert (∀ off v, 0 ≤ off → slice payload off (off + len v) = Some v →
    read_slice data (pstart + off) (len v) = Some v ∧ 0 ≤ pstart + off) as Hin.
  { intros off v Hoff Hs. apply slice_Some in Hs as (? & ? & Hpv); [|done]. split; [|lia].
    unfold read_slice. rewrite checked_add_le by lia. cbn [mbind option_bind].
    assert (len (pre ++ take (Z.to_nat off) payload) = pstart + off) as Hpo by (rewrite len_app; len_lia).
    assert (data = (pre ++ take (Z.to_nat off) payload) ++ v ++
                   (drop (Z.to_nat (off + len v)) payload ++ post)) as Hdata.
    { rewrite Hpl, Hpv at 1. by rewrite <- !app_assoc. }
    pose proof (slice_app (pre ++ take (Z.to_nat off) payload) v (drop (Z.to_nat (off + len v)) payload ++ post)) as Hs.
    by rewrite Hpo, <- Hdata in Hs. }
  induction Hrs as [|[[[[ko kl] vo] vl] count] r rows rs (H1 & H2 & Hk & Hv & _) Hrs IH]; [done|].
  apply Forall_cons_1 in Hwf as [(? & ? & ? & ?) Hwf]. destruct (IH Hwf) as [HV HK].
  apply slice_payload_Ok in H1 as (<- & _ & H1); [|done]. apply slice_payload_Ok in H2 as (<- & _ & H2); [|done].
  split; constructor; try done; [unfold value_in; rewrite Hv|unfold key_in; rewrite Hk]; by apply Hin.
Qed.

(** ** The layouts *)
Definition layout_raws (l : NodeLayoutSpec) (lf : bool) (n : nat) (c : Cursor) (rs : list raw) (c' : Cursor) : Prop :=
  match l with
  | PrefixCompressed => raws (prefix_fields lf) prefix_next n ([], 0) c = Ok (rs, c')
  | Plain => raws (λ _ : (), plain_fields lf) (λ s _, s) n tt c = Ok (rs, c')
  | OffsetTable => ∃ rows c1 plen c2 payload,
      for_range n (read_table_row lf) [] c = Ok (rows, c1) ∧
      read_usize "payload length" c1 = Ok (plen, c2) ∧ read_bytes plen c2 = Ok (payload, c') ∧
      Forall2 (row_raw payload (cpos c2)) rows rs
  | Custom _ _ => False
  end.

(** The arena that the keys of a packed node point into, if it has one. *)
Definition layout_arena (l : NodeLayoutSpec) (rs : list raw) : option bytes :=
  match l with PrefixCompressed => Some (concat (r_key <$> rs)) | _ => None end.

(** The reservations of the two decoders. *)
Definition node_room (l : NodeLayoutSpec) (n : Z) (rs : list raw) : Prop :=
  match l with
  | PrefixCompressed => Forall (λ r, len (r_key r) ≤ isize_max) rs
  | OffsetTable => n * 32 ≤ isize_max
  | _ => True
  end.
Definition packed_room (l : NodeLayoutSpec) (n : Z) : Prop :=
  match l with OffsetTable => n * 40 ≤ isize_max | _ => True end.

Lemma capacity_Ok n size u : vec_with_capacity (E:=Error) n size = Ok u ↔ n * size ≤ isize_max.
Proof. unfold vec_with_capacity. destruct u. case_bool; split; (done || lia). Qed.

Lemma layout_raws_at l lf n data c rs c' :
  at_data data c → layout_raws l lf n c rs c' →
  at_data data c' ∧ length rs = n ∧ cpos c + Z.of_nat n ≤ cpos c' ∧ Forall (value_in data) rs.
Proof.
  intros Hc. destruct l; cbn [layout_raws]; [| | |done].
  - intros H. eapply (raws_at (prefix_fields lf)); [|done|exact H].
    intros s c0 r c1 H0 H1. destruct (prefix_fields_at _ _ _ _ _ _ H0 H1) as (? & ? & ? & _). done.
  - intros H. eapply (raws_at (λ _ : (), plain_fields lf)); [|done|exact H].
    intros s c0 r c1 H0 H1. destruct (plain_fields_at _ _ _ _ _ H0 H1) as (? & ? & ? & _). done.
  - intros (rows & c1 & plen & c2 & payload & H1 & H2 & H3 & Hrs).
    pose proof (at_bound _ _ Hc) as Hd.
    destruct (rows_at _ _ _ _ _ _ _ Hc H1 ltac:(constructor)) as (Hc1 & Hlen & Hle & Hwf). cbn in Hlen. walk.
    rewrite <- (Forall2_length _ _ _ Hrs). split; [done|]. split; [done|]. split; [lia|].
    refine (proj1 (row_raws_in data (cpos c2) payload rows rs Hwf _ Hd _ Hrs)); [lia|]. congruence.
Qed.

Lemma layout_keys_in l lf n data c rs c' :
  at_data data c → layout_raws l lf n c rs c' → (l = PrefixCompressed → len (concat (r_key <$> rs)) ≤ usize_max) →
  Forall (key_in (default data (layout_arena l rs))) rs.
Proof.
  intros Hc. destruct l; cbn [layout_raws layout_arena default]; [| | |done].
  - intros H Hl. apply (placed_in []); [|by apply Hl]. exact (prefix_raws_placed lf data n ([], 0) c rs c' Hc H).
  - intros H _. eapply raws_forall; [|exact Hc|exact H].
    intros s c0 r c1 H0 H1. destruct (plain_fields_at _ _ _ _ _ H0 H1) as (? & _ & _ & ?). done.
  - intros (rows & c1 & plen & c2 & payload & H1 & H2 & H3 & Hrs) _.
    pose proof (at_bound _ _ Hc) as Hd.
    destruct (rows_at _ _ _ _ _ _ _ Hc H1 ltac:(constructor)) as (Hc1 & Hlen & Hle & Hwf). walk.
    refine (proj2 (row_raws_in data (cpos c2) payload rows rs Hwf _ Hd _ Hrs)); [lia|]. congruence.
Qed.

Lemma row_raws_counts payload pstart rows rs lf :
  Forall2 (row_raw payload pstart) rows rs → row_counts lf rows = if lf then [] else r_count <$> rs.
Proof.
  unfold row_counts. destruct lf; [done|].
  induction 1 as [|[[[[ko kl] vo] vl] count] r rows rs (_ & _ & _ & _ & Hc) Hrs IH]; [done|].
  cbn. by rewrite Hc, IH.
Qed.

Lemma offset_table_Ok lf n c acc c' :
  offset_table lf n no_acc c = Ok (acc, c') ↔
  ∃ rs, layout_raws OffsetTable lf (Z.to_nat n) c rs c' ∧ StronglySorted blt (r_key <$> rs) ∧
        n * 32 ≤ isize_max ∧ acc = acc_of lf rs.
Proof.
  assert (([], []) = (row_offset <$> [], row_counts lf [])) as Hnil by (by destruct lf).
  unfold offset_table. cbn [no_acc akeys avals acounts layout_raws]. rewrite Hnil. split.
  - intros H. reads H. apply lift_Ok in R as [R ->]. apply capacity_Ok in R.
    apply table_rows_Ok in R0 as (rows & R0 & ->). reads H.
    apply (resolve_offsets_Ok _ (cpos c0)) in H as (rs & Hrs & Hs & ->); [|constructor].
    cbn [akeys avals acounts app] in *. rewrite (row_raws_counts _ _ _ _ _ Hrs).
    exists rs. split; [by exists rows, c1, x0, c0, x1|]. done.
  - intros (rs & (rows & c1 & plen & c2 & payload & H1 & H2 & H3 & Hrs) & Hs & Hcap & ->).
    apply reader_bind_Ok. exists tt, c. split; [by apply lift_Ok, conj, eq_refl; apply capacity_Ok|].
    apply reader_bind_Ok. exists (row_offset <$> rows, row_counts lf rows), c1.
    split; [apply table_rows_Ok; by exists rows|].
    cbn beta iota. apply reader_bind_Ok. exists plen, c2. split; [done|].
    apply reader_bind_Ok. exists payload, c'. split; [done|]. apply lift_Ok. split; [|done].
    apply (resolve_offsets_Ok _ (cpos c2)); [constructor|]. exists rs. split; [done|]. split; [done|].
    cbn [akeys avals acounts app]. by rewrite (row_raws_counts _ _ _ _ _ Hrs).
Qed.

Lemma prefix_step lf s data c r c' :
  at_data data c → prefix_fields lf s c = Ok (r, c') → at_data data c' ∧ cpos c < cpos c' ∧ value_in data r.
Proof. intros Hc H. destruct (prefix_fields_at _ _ _ _ _ _ Hc H) as (? & ? & ? & _). done. Qed.
Lemma plain_step lf data c r c' :
  at_data data c → plain_fields lf c = Ok (r, c') → at_data data c' ∧ cpos c < cpos c' ∧ value_in data r.
Proof. intros Hc H. destruct (plain_fields_at _ _ _ _ _ Hc H) as (? & ? & ? & _). done. Qed.

Lemma prefix_loop_Ok lf n data c acc c' :
  at_data data c →
  for_range n (prefix_entry lf) no_acc c = Ok (acc, c') ↔
  ∃ rs, raws (prefix_fields lf) prefix_next n ([], 0) c = Ok (rs, c') ∧ StronglySorted blt (r_key <$> rs) ∧
        Forall (λ r, len (r_key r) ≤ isize_max) rs ∧ acc = acc_of lf rs.
Proof.
  intros Hc. rewrite (λ H1 H2 H3, for_range_raws (prefix_entry lf) (prefix_fields lf) prefix_next
    (λ acc s, s.1 = last_key (akeys acc))
    (λ acc r, unsorted_after (akeys acc) (r_key r) = false ∧ len (r_key r) ≤ isize_max)
    (raw_push lf) data H1 H2 H3 n no_acc ([], 0) c acc c' Hc eq_refl).
  - split; intros (rs & Hrs & Hok); exists rs; (split; [done|]); rewrite foldl_raw_push in *.
    + destruct Hok as [[Hs Hl]%(allowed_sorted lf _ no_acc) ->]; [done|constructor].
    + destruct Hok as (Hs & Hl & ->). split; [|done]. by apply (allowed_sorted lf _ no_acc); [constructor|].
  - intros a s c0 a' c1 H0 Hs. rewrite (prefix_entry_Ok lf a s.2 data) by done.
    rewrite <- Hs, <- surjective_pairing. reflexivity.
  - intros a s r _. cbn [prefix_next fst]. unfold raw_push. by rewrite akeys_push, last_key_snoc.
  - intros s c0 r c1. apply prefix_step.
Qed.

Lemma plain_loop_Ok lf n data c acc c' :
  at_data data c →
  for_range n (plain_entry lf) no_acc c = Ok (acc, c') ↔
  ∃ rs, raws (λ _ : (), plain_fields lf) (λ s _, s) n tt c = Ok (rs, c') ∧
        StronglySorted blt (r_key <$> rs) ∧ acc = acc_of lf rs.
Proof.
  intros Hc. rewrite (λ H1 H2 H3, for_range_raws (plain_entry lf) (λ _ : (), plain_fields lf) (λ s _, s)
    (λ _ _, True) (λ acc r, unsorted_after (akeys acc) (r_key r) = false ∧ True)
    (raw_push lf) data H1 H2 H3 n no_acc tt c acc c' Hc I).
  - split; intros (rs & Hrs & Hok); exists rs; (split; [done|]); rewrite foldl_raw_push in *.
    + destruct Hok as [[Hs Hl]%(allowed_sorted lf _ no_acc) ->]; [done|constructor].
    + destruct Hok as (Hs & ->). split; [|done]. apply (allowed_sorted lf _ no_acc); [constructor|].
      split; [done|]. by apply Forall_true.
  - intros a s c0 a' c1 H0 _. rewrite (plain_entry_Ok lf a data) by done.
    split; [intros (r & Hr & Hs & ->)|intros (r & Hr & [Hs _] & ->)]; by exists r.
  - done.
  - intros s c0 r c1. apply plain_step.
Qed.

(** The entries that [Node::from_bytes] keeps. *)
Lemma read_entries_Ok f lf n data c acc c' :
  at_data data c →
  read_entries f lf n c = Ok (acc, c') ↔
  ∃ rs, layout_raws (node_layout f) lf (Z.to_nat n) c rs c' ∧ StronglySorted blt (r_key <$> rs) ∧
        node_room (node_layout f) n rs ∧ acc = acc_of lf rs.
Proof.
  intros Hc. unfold read_entries. fold no_acc. destruct (node_layout f); cbn [layout_raws node_room].
  - by apply (prefix_loop_Ok lf _ data).
  - etransitivity; [by apply (plain_loop_Ok lf _ data)|].
    split; [intros (rs & Hr & Hs & ->)|intros (rs & Hr & Hs & _ & ->)]; by exists rs.
  - apply offset_table_Ok.
  - split; [done|]. by intros (rs & [] & _).
Qed.

(** The entries that [ReadNode::from_shared] keeps. *)
Lemma read_prefix_loop_Ok lf n data c metas prefix c' :
  at_data data c →
  (s ← for_range n (read_prefix_entry lf)
         {| arena := []; previous_start := 0; previous_len := 0; prefix_metas := [] |};
   mret (prefix_metas s, Some (arena s)) : reader Error _) c = Ok ((metas, prefix), c') ↔
  ∃ rs, raws (prefix_fields lf) prefix_next n ([], 0) c = Ok (rs, c') ∧ Forall raw_small rs ∧
        metas = raw_meta <$> rs ∧ prefix = Some (concat (r_key <$> rs)).
Proof.
  intros Hc. set (st0 := {| arena := []; previous_start := 0; previous_len := 0; prefix_metas := [] |}).
  assert (arena_at st0 ([], 0)) as H0 by (by constructor).
  assert (∀ st c1, for_range n (read_prefix_entry lf) st0 c = Ok (st, c1) ↔
    ∃ rs, raws (prefix_fields lf) prefix_next n ([], 0) c = Ok (rs, c1) ∧
      allowed (λ _, raw_small) arena_push st0 rs ∧ st = foldl arena_push st0 rs) as Hloop.
  { intros st c1. apply (for_range_raws _ _ _ arena_at _ _ data); [| | |done..].
    - intros a s c0 a' c2 Hc0 Hs. by apply (read_prefix_entry_Ok lf a s data).
    - intros a s r. apply arena_push_at.
    - intros s c0 r c2. apply prefix_step. }
  rewrite reader_bind_Ok. split.
  - intros (st & c1 & (rs & Hrs & Hsm%allowed_forall & ->)%Hloop & [= <- <- <-]). exists rs.
    rewrite foldl_arena, foldl_prefix_metas. done.
  - intros (rs & Hrs & Hsm & -> & ->). eexists _, _. split.
    + apply Hloop. exists rs. split; [done|]. split; [by apply allowed_forall|done].
    + unfold mret, reader_ret. by rewrite foldl_arena, foldl_prefix_metas.
Qed.

Lemma read_plain_loop_Ok lf n data c metas c' :
  at_data data c →
  for_range n (read_plain_entry lf) [] c = Ok (metas, c') ↔
  ∃ rs, raws (λ _ : (), plain_fields lf) (λ s _, s) n tt c = Ok (rs, c') ∧ Forall raw_small rs ∧
        metas = raw_meta <$> rs.
Proof.
  intros Hc. rewrite (λ H1 H2 H3, for_range_raws (read_plain_entry lf) (λ _ : (), plain_fields lf) (λ s _, s)
    (λ _ _, True) (λ _, raw_small) (λ ms r, ms ++ [raw_meta r]) data H1 H2 H3 n [] tt c metas c' Hc I).
  - setoid_rewrite allowed_forall. setoid_rewrite foldl_metas. done.
  - intros a s c0 a' c1 Hc0 _. by apply (read_plain_entry_Ok lf a data).
  - done.
  - intros s c0 r c1. apply plain_step.
Qed.

Lemma read_offset_table_Ok lf n data c metas c' :
  at_data data c →
  read_offset_table lf n c = Ok (metas, c') ↔
  ∃ rs, layout_raws OffsetTable lf (Z.to_nat n) c rs c' ∧ Forall raw_small rs ∧ n * 40 ≤ isize_max ∧
        metas = raw_meta <$> rs.
Proof.
  intros Hc. unfold read_offset_table. cbn [layout_raws]. split.
  - intros H. reads H. apply lift_Ok in R as [R ->]. apply capacity_Ok in R. injection R2 as <- <-.
    destruct (rows_at _ _ _ _ _ _ _ Hc R0 ltac:(constructor)) as (Hc1 & _ & _ & Hwf). walk.
    destruct (proj1 (cursor_read_Ok _ _ _ _ _ _) R3) as (Hle & _).
    apply resolve_rows_Ok in H as (rs & Hrs & Hsm & ->); [|done|lia|lia].
    exists rs. split; [by exists x0, c1, x1, c2, x3|]. done.
  - intros (rs & (rows & c1 & plen & c2 & payload & H1 & H2 & H3 & Hrs) & Hsm & Hcap & ->).
    destruct (rows_at _ _ _ _ _ _ _ Hc H1 ltac:(constructor)) as (Hc1 & _ & _ & Hwf).
    apply reader_bind_Ok. exists tt, c. split; [by apply lift_Ok, conj, eq_refl; apply capacity_Ok|].
    unfold mbind, reader_bind, cursor_position. rewrite H1, H2, H3. apply lift_Ok. split; [|done]. walk.
    destruct (proj1 (cursor_read_Ok _ _ _ _ _ _) H3) as (? & _).
    apply resolve_rows_Ok; [done|lia|lia|]. by exists rs.
Qed.

Lemma read_metas_Ok f lf n data c metas prefix c' :
  at_data data c →
  read_metas f lf n c = Ok ((metas, prefix), c') ↔
  ∃ rs, layout_raws (node_layout f) lf (Z.to_nat n) c rs c' ∧ Forall raw_small rs ∧
        packed_room (node_layout f) n ∧ metas = raw_meta <$> rs ∧ prefix = layout_arena (node_layout f) rs.
Proof.
  intros Hc. unfold read_metas. destruct (node_layout f); cbn [packed_room layout_arena].
  - etransitivity; [by apply (read_prefix_loop_Ok lf _ data)|].
    split; [intros (rs & Hr & Hs & -> & ->)|intros (rs & Hr & Hs & _ & -> & ->)]; by exists rs.
  - rewrite reader_bind_Ok. split.
    + intros (ms & c1 & (rs & Hr & Hs & ->)%(read_plain_loop_Ok lf _ data) & [= <- <- <-]); [|done]. by exists rs.
    + intros (rs & Hr & Hs & _ & -> & ->). eexists _, _. split; [|done].
      apply (read_plain_loop_Ok lf _ data); [done|]. by exists rs.
  - rewrite reader_bind_Ok. split.
    + intros (ms & c1 & (rs & Hr & Hs & Hn & ->)%(read_offset_table_Ok lf _ data) & [= <- <- <-]); [|done].
      by exists rs.
    + intros (rs & Hr & Hs & Hn & -> & ->). eexists _, _. split; [|done].
      apply (read_offset_table_Ok lf _ data); [done|]. by exists rs.
  - split; [done|]. by intros (rs & [] & _).
Qed.

(** ** The header *)
Definition read_header : reader Error (TreeFormat * bool * Z * Z) :=
  expect_magic ≫= λ _,
  read_version ≫= λ _,
  f ← read_node_format;
  lf ← read_leaf;
  lv ← read_u8_varint "level";
  entry_count ← read_usize "entry_count";
  mret (f, lf, lv, entry_count).

Lemma emits_version : emits read_version (λ _ _, True).
Proof.
  eapply emits_bind; [apply emits_varint|]; intros v ? _.
  case_bool; [by apply emits_ret|apply emits_fail].
Qed.
Lemma emits_u8_varint field : emits (read_u8_varint field) (λ _ _, True).
Proof.
  eapply emits_bind; [apply emits_varint|]. intros v ? _.
  case_bool; [by apply emits_ret|apply emits_fail].
Qed.

Lemma read_header_at data f lf lv n c :
  vec_wf data → read_header (cursor_new data) = Ok (f, lf, lv, n, c) →
  at_data data c ∧ 0 ≤ n.
Proof.
  intros Hd H. unfold read_header in H. reads H. injection H as <- <- <- <- <-.
  assert (at_data data c0) as Hc.
  { unfold expect_magic in R. cbn [cursor_new cdata] in R.
    destruct (Z.ltb_spec (len data) (len COMPACT_MAGIC)); [done|]. destruct (negb _); [done|].
    injection R as _ <-. split; [|done]. unfold cursor_wf; cbn [cdata cpos].
    pose proof (len_nonneg COMPACT_MAGIC). unfold vec_wf in Hd. lia. }
  destruct (at_emits _ _ _ _ _ _ emits_version Hc R0) as (H1 & _).
  destruct (at_emits _ _ _ _ _ _ emits_node_format H1 R1) as (H2 & _).
  destruct (at_emits _ _ _ _ _ _ emits_leaf H2 R2) as (H3 & _).
  destruct (at_emits _ _ _ _ _ _ (emits_u8_varint _) H3 R3) as (H4 & _).
  destruct (at_usize _ _ _ _ _ H4 R4) as (H5 & ? & _). split; [done|lia].
Qed.

(** Both decoders read the header, then the entries. *)
Definition packed_parts (data : bytes) (f : TreeFormat) (lf : bool) (lv n : Z) (rs : list raw) : Prop :=
  ∃ c c', read_header (cursor_new data) = Ok (f, lf, lv, n, c) ∧
    layout_raws (node_layout f) lf (Z.to_nat n) c rs c' ∧ cursor_is_done c' = true.

Definition raw_node (f : TreeFormat) (lf : bool) (lv : Z) (rs : list raw) : Node := {|
  keys := r_key <$> rs; vals := r_val <$> rs; child_counts := if lf then [] else r_count <$> rs;
  leaf := lf; level := lv; format := f |}.

Lemma from_bytes_Ok data node :
  vec_wf data →
  from_bytes data = Ok node ↔
  ∃ f lf lv n rs, packed_parts data f lf lv n rs ∧ StronglySorted blt (r_key <$> rs) ∧
    (lf = false → n ≠ 0) ∧ n * 24 ≤ isize_max ∧ node_room (node_layout f) n rs ∧
    node = raw_node f lf lv rs.
Proof.
  intros Hd. unfold from_bytes, from_compact_bytes. split.
  - intros ([n0 c'] & H & Hdone)%outcome_bind_Ok. destruct (cursor_is_done c') eqn:Hdn; [|done]. injection Hdone as ->.
    unfold read_node in H. reads H. destruct (negb _ && _) eqn:Hz; [done|]. reads H. injection H as <- <-.
    assert (read_header (cursor_new data) = Ok (x1, x2, x3, x4, c4)) as Hh.
    { unfold read_header, mbind, reader_bind. by rewrite R, R0, R1, R2, R3, R4. }
    destruct (read_header_at _ _ _ _ _ _ Hd Hh) as [Hc Hn].
    apply lift_Ok in R5 as [R5 ->]. apply lift_Ok in R6 as [R6 ->]. apply lift_Ok in R7 as [R7 ->].
    apply (read_entries_Ok _ _ _ data) in R8 as (rs & Hrs & Hs & Hroom & ->); [|done].
    exists x1, x2, x3, x4, rs. split; [by exists c4, c8|]. split; [done|]. split.
    { intros -> ->. done. }
    split; [by apply capacity_Ok in R5|done].
  - intros (f & lf & lv & n & rs & (c & c' & Hh & Hrs & Hdn) & Hs & Hz & Hcap & Hroom & ->).
    enough (read_node (cursor_new data) = Ok (raw_node f lf lv rs, c')) as -> by (cbn; by rewrite Hdn).
    destruct (read_header_at _ _ _ _ _ _ Hd Hh) as [Hc Hn].
    unfold read_header in Hh. reads Hh. injection Hh as <- <- <- <- <-.
    unfold read_node, mbind, reader_bind. rewrite R, R0, R1, R2, R3, R4.
    assert (negb x2 && (x4 =? 0) = false) as ->.
    { destruct x2; [done|]. apply Z.eqb_neq. by apply Hz. }
    unfold lift. rewrite !vec_with_capacity_ok by (destruct x2; unfold isize_max in *; lia).
    by rewrite (proj2 (read_entries_Ok x1 x2 x4 data _ _ _ Hc) (ex_intro _ rs (conj Hrs (conj Hs (conj Hroom eq_refl))))).
Qed.

(** *** The packed node of raw entries *)
Definition keys_common (ks : list bytes) : Z :=
  match ks !! 0%nat, list.last ks with Some a, Some b => common_prefix_len a b | _, _ => 0 end.

Definition packed_meta (common : Z) (r : raw) : ReadEntryMeta :=
  with_order (raw_meta r) (key_order_word (r_key r) common).

Definition raw_packed (data : bytes) (f : TreeFormat) (lf : bool) (lv : Z) (rs : list raw) : ReadNode :=
  let common := keys_common (r_key <$> rs) in {|
  rn_bytes := data; rn_prefix_keys := layout_arena (node_layout f) rs;
  rn_entries := packed_meta common <$> rs; rn_common_prefix_len := common;
  rn_leaf := lf; rn_level := lv; rn_format := f |}.

Lemma placed_small pos rs :
  placed pos rs → Forall raw_small rs → rs ≠ [] → pos + len (concat (r_key <$> rs)) ≤ 2 * u32_max.
Proof.
  revert pos; induction rs as [|r rs IH]; intros pos Hp Hsm Hne; [done|].
  destruct Hp as [Hk Hp]. apply Forall_cons_1 in Hsm as [(? & ? & _) Hsm].
  cbn [fmap list_fmap concat]. rewrite len_app. destruct rs as [|r' rs].
  - cbn. change (len (@nil byte)) with 0. lia.
  - specialize (IH _ Hp Hsm ltac:(done)). lia.
Qed.

Lemma packed_parts_in data f lf lv n rs :
  vec_wf data → packed_parts data f lf lv n rs →
  (node_layout f = PrefixCompressed → len (concat (r_key <$> rs)) ≤ usize_max) →
  Z.of_nat (length rs) = n ∧ n ≤ len data ∧ Forall (value_in data) rs ∧
  Forall (key_in (default data (layout_arena (node_layout f) rs))) rs.
Proof.
  intros Hd (c & c' & Hh & Hrs & _) Hl. destruct (read_header_at _ _ _ _ _ _ Hd Hh) as [Hc Hn].
  destruct (layout_raws_at _ _ _ _ _ _ _ Hc Hrs) as (Hc' & Hlen & Hle & Hv).
  pose proof (at_nonneg _ _ Hc). pose proof (at_nonneg _ _ Hc').
  split; [lia|]. split; [lia|]. split; [done|].
  exact (layout_keys_in _ _ _ _ _ _ _ Hc Hrs Hl).
Qed.

Lemma small_arena data f lf lv n rs :
  vec_wf data → packed_parts data f lf lv n rs → Forall raw_small rs →
  node_layout f = PrefixCompressed → len (concat (r_key <$> rs)) ≤ usize_max.
Proof.
  intros Hd (c & c' & Hh & Hrs & _) Hsm Hlay. destruct (read_header_at _ _ _ _ _ _ Hd Hh) as [Hc _].
  rewrite Hlay in Hrs. pose proof (prefix_raws_placed _ _ _ _ _ _ _ Hc Hrs) as Hp. cbn [snd] in Hp.
  destruct rs as [|r rs]; [done|]. pose proof (placed_small _ _ Hp Hsm ltac:(done)).
  unfold usize_max, u64_max, u32_max in *. lia.
Qed.

Lemma key_in_meta source r : key_in source r → meta_key source (raw_meta r) = Some (r_key r).
Proof. intros [H _]. exact H. Qed.

Lemma order_loop_Ok source common previous rs metas :
  Forall (key_in source) rs →
  order_loop source common previous (raw_meta <$> rs) = Ok metas ↔
  StronglySorted blt (option_list previous ++ (r_key <$> rs)) ∧ metas = packed_meta common <$> rs.
Proof.
  intros Hin. revert previous metas; induction Hin as [|r rs Hr Hin IH]; intros previous metas.
  { cbn [order_loop fmap list_fmap]. rewrite app_nil_r. split; [|by intros [_ ->]].
    intros [= <-]. split; [|done]. destruct previous; repeat constructor. }
  cbn [order_loop fmap list_fmap]. rewrite (key_in_meta _ _ Hr). cbn [ok_or mbind outcome_bind].
  assert (StronglySorted blt (option_list previous ++ r_key r :: (r_key <$> rs)) ↔
    (match previous with Some p => bleb (r_key r) p | None => false end) = false ∧
    StronglySorted blt (option_list (Some (r_key r)) ++ (r_key <$> rs))) as Hs.
  { destruct previous as [p|]; cbn [option_list app]; [|by split; [|intros [_ ?]]]. rewrite bleb_gt. split.
    - intros Hs. inversion_clear Hs as [|? ? H1 H2]. by apply Forall_cons_1 in H2 as [? _].
    - intros [Hlt Hs]. constructor; [done|]. constructor; [done|]. inversion_clear Hs as [|? ? H1 H2].
      eapply Forall_impl; [exact H2|]. cbn. intros k Hk. by eapply blt_trans. }
  rewrite Hs. clear Hs. set (unsorted := match previous with Some p => bleb (r_key r) p | None => false end).
  destruct unsorted; [split; [done|by intros [[? _] _]]|]. split.
  - intros (rest & Hrest & [= <-])%outcome_bind_Ok. apply IH in Hrest as [Hs' ->]. done.
  - intros [[_ Hs'] ->]. by rewrite (proj2 (IH (Some (r_key r)) _) (conj Hs' eq_refl)).
Qed.

Lemma packed_common_prefix_Ok source rs :
  Forall (key_in source) rs →
  packed_common_prefix source (raw_meta <$> rs) = Ok (keys_common (r_key <$> rs)).
Proof.
  intros Hin. unfold packed_common_prefix, keys_common. rewrite !list_lookup_fmap, !fmap_last.
  destruct (rs !! 0%nat) as [a|] eqn:Ha; [|done]. destruct (list.last rs) as [z|] eqn:Hz; [|done].
  rewrite last_lookup in Hz. cbn [fmap option_fmap option_map].
  rewrite !key_in_meta by (eapply Forall_lookup_1; [exact Hin|eassumption]). done.
Qed.

Lemma keys_common_small rs : Forall raw_small rs → keys_common (r_key <$> rs) ≤ u32_max.
Proof.
  intros Hsm. unfold keys_common. rewrite list_lookup_fmap, fmap_last.
  destruct (rs !! 0%nat) as [a|] eqn:Ha; [|by unfold u32_max; cbn].
  destruct (list.last rs) as [z|]; [|by unfold u32_max; cbn]. cbn [fmap option_fmap option_map].
  destruct (proj1 (Forall_lookup _ _) Hsm _ _ Ha) as (_ & ? & _).
  destruct (common_prefix_len_spec (r_key a) (r_key z)) as (? & _). lia.
Qed.

Lemma from_shared_Ok data rn :
  vec_wf data →
  from_shared data = Ok rn ↔
  ∃ f lf lv n rs, packed_parts data f lf lv n rs ∧ StronglySorted blt (r_key <$> rs) ∧
    (lf = false → n ≠ 0) ∧ n * 32 ≤ isize_max ∧ packed_room (node_layout f) n ∧ Forall raw_small rs ∧
    rn = raw_packed data f lf lv rs.
Proof.
  intros Hd. unfold from_shared. split.
  - intros ([[[[[f lf] lv] metas] prefix] c'] & H & Hrest)%outcome_bind_Ok.
    destruct (cursor_is_done c') eqn:Hdn; [|done]. cbn [negb] in Hrest.
    unfold read_packed in H. reads H. destruct x6 as [metas' prefix']. injection H as -> -> -> -> -> ->.
    assert (read_header (cursor_new data) = Ok (f, lf, lv, x4, c4)) as Hh.
    { unfold read_header, mbind, reader_bind. by rewrite R, R0, R1, R2, R3, R4. }
    destruct (read_header_at _ _ _ _ _ _ Hd Hh) as [Hc Hn].
    apply lift_Ok in R5 as [R5 ->]. apply capacity_Ok in R5.
    apply (read_metas_Ok _ _ _ data) in R6 as (rs & Hrs & Hsm & Hroom & -> & ->); [|done].
    assert (packed_parts data f lf lv x4 rs) as Hp by (by exists c4, c').
    destruct (packed_parts_in _ _ _ _ _ _ Hd Hp (small_arena _ _ _ _ _ _ Hd Hp Hsm)) as (Hlen & _ & _ & Hk).
    rewrite (packed_common_prefix_Ok _ _ Hk) in Hrest. cbn [mbind outcome_bind] in Hrest.
    destruct (negb lf && _) eqn:Hz; [done|]. inv_ok.
    apply (order_loop_Ok _ _ _ _ _ Hk) in E as [Hs ->]. apply compact_u32_Ok in E0 as [-> _].
    eexists f, lf, lv, _, rs. split; [exact Hp|]. split; [done|]. split; [|done].
    intros -> H0. destruct rs; [by rewrite bool_decide_eq_true_2 in Hz|done].
  - intros (f & lf & lv & n & rs & Hp & Hs & Hz & Hcap & Hroom & Hsm & ->).
    destruct (packed_parts_in _ _ _ _ _ _ Hd Hp (small_arena _ _ _ _ _ _ Hd Hp Hsm)) as (Hlen & _ & _ & Hk).
    destruct Hp as (c & c' & Hh & Hrs & Hdn). destruct (read_header_at _ _ _ _ _ _ Hd Hh) as [Hc Hn].
    assert (read_packed (cursor_new data)
      = Ok (f, lf, lv, raw_meta <$> rs, layout_arena (node_layout f) rs, c')) as ->.
    { unfold read_header in Hh. reads Hh. injection Hh as -> -> -> -> ->.
      unfold read_packed, mbind, reader_bind. rewrite R, R0, R1, R2, R3, R4. unfold lift.
      rewrite vec_with_capacity_ok by done.
      by rewrite (proj2 (read_metas_Ok f lf n data _ _ _ _ Hc)
        (ex_intro _ rs (conj Hrs (conj Hsm (conj Hroom (conj eq_refl eq_refl)))))). }
    cbn [mbind outcome_bind]. rewrite Hdn. cbn [negb]. rewrite (packed_common_prefix_Ok _ _ Hk). cbn [mbind outcome_bind].
    assert (negb lf && bool_decide (raw_meta <$> rs = []) = false) as ->.
    { destruct lf; [done|]. apply bool_decide_eq_false_2. intros ->%fmap_nil_inv. cbn in Hlen. by apply Hz. }
    rewrite (proj2 (order_loop_Ok _ (keys_common (r_key <$> rs)) None _ _ Hk) (conj Hs eq_refl)).
    cbn [mbind outcome_bind]. by rewrite (proj2 (compact_u32_Ok _ _ _) (conj eq_refl (keys_common_small _ Hsm))).
Qed.

(** ** Packed nodes as views of nodes *)
Record view (rn : ReadNode) (n : Node) : Prop := {
  v_keys i : rn_key rn i = keys n !! i;
  v_vals i : rn_value rn i = vals n !! i;
  v_len : rn_len rn = length (keys n);
  v_lens : length (vals n) = length (keys n);
  v_counts : child_counts n = if rn_leaf rn then [] else child_count <$> rn_entries rn;
  v_leaf : leaf n = rn_leaf rn;
  v_level : level n = rn_level rn;
  v_format : format n = rn_format rn;
  v_common : rn_common_prefix_len rn = keys_common (keys n);
  v_order i m k : rn_entries rn !! i = Some m → keys n !! i = Some k →
    key_order m = key_order_word k (keys_common (keys n)) ∧ 0 ≤ key_start m;
  v_sorted : StronglySorted blt (keys n);
}.

Lemma raw_packed_view data f lf lv rs :
  Forall (value_in data) rs → Forall (key_in (default data (layout_arena (node_layout f) rs))) rs →
  StronglySorted blt (r_key <$> rs) → view (raw_packed data f lf lv rs) (raw_node f lf lv rs).
Proof.
  intros Hv Hk Hs. constructor; cbn [raw_packed raw_node keys vals child_counts leaf level format
    rn_leaf rn_level rn_format rn_common_prefix_len]; try done.
  - intros i. unfold rn_key, raw_packed, rn_source; cbn [rn_entries rn_bytes rn_prefix_keys].
    rewrite !list_lookup_fmap. destruct (rs !! i) as [r|] eqn:Hr; [|done]. cbn [fmap option_fmap option_map mbind option_bind].
    by destruct (proj1 (Forall_lookup _ _) Hk _ _ Hr) as [H _].
  - intros i. unfold rn_value, raw_packed; cbn [rn_entries rn_bytes].
    rewrite !list_lookup_fmap. destruct (rs !! i) as [r|] eqn:Hr; [|done]. cbn [fmap option_fmap option_map mbind option_bind].
    by destruct (proj1 (Forall_lookup _ _) Hv _ _ Hr) as [H _].
  - unfold rn_len; cbn [rn_entries raw_packed]. by rewrite !length_fmap.
  - by rewrite !length_fmap.
  - unfold raw_packed; cbn [rn_entries]. destruct lf; [done|]. by rewrite <- list_fmap_compose.
  - intros i m k. unfold raw_packed; cbn [rn_entries]. rewrite !list_lookup_fmap.
    destruct (rs !! i) as [r|] eqn:Hr; [|done]. cbn [fmap option_fmap option_map]. intros [= <-] [= <-]. split; [done|]. by destruct (proj1 (Forall_lookup _ _) Hk _ _ Hr) as [_ H].
Qed.

Lemma mapM_seq {A} msg (g : nat → option A) (l : list A) :
  (∀ i, g i = l !! i) → mapM (λ i, expect (E:=Error) msg (g i)) (seq 0 (length l)) = Ok l.
Proof.
  intros Hg. cut (∀ pre post, l = pre ++ post →
    mapM (λ i, expect (E:=Error) msg (g i)) (seq (length pre) (length post)) = Ok post).
  { intros H. exact (H [] l eq_refl). }
  intros pre post. revert pre; induction post as [|a post IH]; intros pre Hl; [done|].
  cbn [length seq]. change (mapM ?h (?i :: ?k)) with (y ← h i; r ← mapM h k; Ok (y :: r)).
  cbn beta. rewrite Hg, Hl, lookup_app_r, Nat.sub_diag by lia. cbn [expect lookup list_lookup mbind outcome_bind].
  specialize (IH (pre ++ [a])). rewrite length_app, Nat.add_1_r in IH. rewrite IH; [done|].
  by rewrite <- app_assoc.
Qed.

Lemma view_to_owned rn n : view rn n → to_owned rn = Ok n.
Proof.
  intros Hv. unfold to_owned. rewrite (v_len _ _ Hv), (mapM_seq _ (rn_key rn) (keys n) (v_keys _ _ Hv)).
  cbn [mbind outcome_bind].
  rewrite <- (v_lens _ _ Hv), (mapM_seq _ _ (vals n) (v_vals _ _ Hv)). cbn [mbind outcome_bind].
  rewrite <- (v_counts _ _ Hv), <- (v_leaf _ _ Hv), <- (v_level _ _ Hv), <- (v_format _ _ Hv). by destruct n.
Qed.

Lemma from_shared_view data rn :
  vec_wf data → from_shared data = Ok rn → ∃ n, from_bytes data = Ok n ∧ view rn n.
Proof.
  intros Hd (f & lf & lv & n & rs & Hp & Hs & Hz & Hcap & Hroom & Hsm & ->)%from_shared_Ok; [|done].
  destruct (packed_parts_in _ _ _ _ _ _ Hd Hp (small_arena _ _ _ _ _ _ Hd Hp Hsm)) as (Hlen & _ & Hv & Hk).
  exists (raw_node f lf lv rs). split; [|by apply raw_packed_view].
  apply from_bytes_Ok; [done|]. exists f, lf, lv, n, rs. split; [done|]. split; [done|]. split; [done|].
  split; [unfold isize_max in *; lia|]. split; [|done].
  unfold node_room, packed_room in *. destruct (node_layout f); [|done| |done].
  - eapply Forall_impl; [exact Hsm|]. intros r (_ & H & _). unfold u32_max, isize_max in *. lia.
  - unfold isize_max in *; lia.
Qed.

Lemma read_slice_le source start n v : read_slice source start n = Some v → start + n ≤ len source.
Proof.
  unfold read_slice. intros H. destruct (checked_add _ _ _) as [stop|] eqn:Hc; [|done].
  apply checked_add_Some in Hc as [-> _]. cbn in H. unfold slice in H.
  destruct (Z.leb_spec start (start + n)), (Z.leb_spec (start + n) (len source)); done.
Qed.

(** The bytes and the keys fit the 32-bit offsets of a packed node. *)
Definition packable (data : bytes) (n : Node) : Prop :=
  len data ≤ u32_max ∧ (node_layout (format n) = PrefixCompressed → len (concat (keys n)) ≤ u32_max).

Lemma from_bytes_view data n :
  from_bytes data = Ok n → packable data n → ∃ rn, from_shared data = Ok rn ∧ view rn n.
Proof.
  intros Hok [Hl Hkl]. assert (vec_wf data) as Hd by (unfold vec_wf, u32_max, isize_max in *; lia).
  apply from_bytes_Ok in Hok as (f & lf & lv & m & rs & Hp & Hs & Hz & Hcap & Hroom & ->); [|done].
  cbn [raw_node format keys] in Hkl.
  destruct (packed_parts_in _ _ _ _ _ _ Hd Hp) as (Hlen & Hm & Hv & Hk).
  { intros Hlay. specialize (Hkl Hlay). unfold u32_max, usize_max, u64_max in *. lia. }
  assert (Forall raw_small rs) as Hsm.
  { apply Forall_forall. intros r Hr.
    destruct (proj1 (Forall_forall _ _) Hv r Hr) as [Hv1%read_slice_le ?].
    destruct (proj1 (Forall_forall _ _) Hk r Hr) as [Hk1%read_slice_le ?].
    assert (len (default data (layout_arena (node_layout f) rs)) ≤ u32_max) as Hsrc.
    { unfold layout_arena. destruct (node_layout f); cbn [default]; [by apply Hkl|done..]. }
    pose proof (len_nonneg (r_key r)). pose proof (len_nonneg (r_val r)). unfold raw_small. lia. }
  exists (raw_packed data f lf lv rs). split; [|by apply raw_packed_view].
  apply from_shared_Ok; [done|]. exists f, lf, lv, m, rs. do 3 (split; [done|]).
  unfold u32_max, isize_max in *. split; [lia|]. split; [|done].
  unfold packed_room. destruct (node_layout f); [done|done| |done]. unfold isize_max; lia.
Qed.

(** ** Search in a packed node *)
Lemma bcmp_app_lt u v x y : length u = length v → (u < v)%key → (u ++ x < v ++ y)%key.
Proof.
  unfold blt. revert v; induction u as [|a u IH]; intros [|b v] Hl; try done. injection Hl as Hl. cbn.
  destruct (Z.compare (bval a) (bval b)); [by apply IH|done..].
Qed.

Definition pad (n : nat) (l : bytes) : bytes := take n l ++ replicate (n - length (take n l)) Byte.x00.

Lemma length_pad n l : length (pad n l) = n.
Proof. unfold pad. rewrite length_app, length_replicate, length_take. lia. Qed.

Lemma pad_cons n x l : pad (S n) (x :: l) = x :: pad n l.
Proof. done. Qed.
Lemma pad_nil n : pad (S n) [] = Byte.x00 :: pad n [].
Proof. unfold pad. rewrite !take_nil. cbn. by rewrite Nat.sub_0_r. Qed.

(** Padding with zeroes can only merge keys. *)
Lemma pad_lt n a b : (pad n a < pad n b)%key → (a < b)%key.
Proof.
  unfold blt. revert a b; induction n as [|n IH]; intros a b.
  { unfold pad. by rewrite !take_0. }
  destruct a as [|x a], b as [|y b]; rewrite ?pad_cons, ?pad_nil; cbn [bcmp].
  - rewrite bcmp_refl. done.
  - done.
  - change (bval Byte.x00) with 0. pose proof (bval_range x).
    destruct (Z.compare_spec (bval x) 0); [|lia|done]. intros Ha%IH. by destruct a.
  - destruct (Z.compare (bval x) (bval y)); [apply IH|done..].
Qed.

Lemma key_order_lt p a b :
  key_order_word (p ++ a) (len p) < key_order_word (p ++ b) (len p) → (p ++ a < p ++ b)%key.
Proof.
  unfold key_order_word. rewrite !len_to_nat, !drop_app_length. fold (pad 8 a) (pad 8 b). intros Hlt.
  unfold blt. rewrite bcmp_app. apply (pad_lt 8). unfold blt.
  rewrite bcmp_be_val by (by rewrite !length_pad). by apply Z.compare_lt_iff.
Qed.

(** What lies between two keys with a common prefix has it too. *)
Lemma prefix_between p a k b : (p ++ a ≤ k)%key → (k ≤ p ++ b)%key → p `prefix_of` k.
Proof.
  unfold ble. revert k; induction p as [|x p IH]; intros k Hl Hr; [apply prefix_nil|].
  destruct k as [|y k]; cbn in Hl, Hr; [done|].
  destruct (Z.compare_spec (bval x) (bval y)) as [Hxy| |], (Z.compare_spec (bval y) (bval x)); try done; try lia.
  apply bval_inj in Hxy as ->. apply prefix_cons. by apply IH.
Qed.

Lemma keys_common_prefix ks :
  StronglySorted blt ks →
  ∃ p, len p = keys_common ks ∧ ∀ i k, ks !! i = Some k → p `prefix_of` k.
Proof.
  intros Hs. unfold keys_common. destruct ks as [|k0 ks'].
  { by exists []. }
  set (ks := k0 :: ks') in *. destruct (list.last ks) as [kz|] eqn:Hz.
  2: { by apply last_None in Hz. }
  rewrite last_lookup in Hz. cbn [lookup list_lookup ks]. fold ks.
  destruct (common_prefix_len_spec k0 kz) as (H0 & Hzl & Ht). set (n := common_prefix_len k0 kz) in *.
  exists (take (Z.to_nat n) k0). split; [len_lia|]. intros i k Hi.
  apply (prefix_between _ (drop (Z.to_nat n) k0) k (drop (Z.to_nat n) kz)).
  - rewrite take_drop. destruct i as [|i]; [injection Hi as ->; apply ble_refl|].
    apply blt_le, (sorted_lookup ks 0 (S i)); [done|lia|done..].
  - rewrite Ht, take_drop. pose proof (lookup_lt_Some _ _ _ Hi).
    destruct (decide (i = pred (length ks))) as [->|Hne]; [replace kz with k by congruence; apply ble_refl|].
    apply blt_le, (sorted_lookup ks i (pred (length ks))); [done|lia|done..].
Qed.

(** The checked accessors bound the unchecked reads. *)
Lemma view_meta rn n i :
  view rn n → (i < length (keys n))%nat → ∃ m k, rn_entries rn !! i = Some m ∧ keys n !! i = Some k ∧
    key_order m = key_order_word k (keys_common (keys n)) ∧ 0 ≤ key_start m ∧
    slice (rn_source rn) (key_start m) (key_start m + key_len m) = Some k.
Proof.
  intros Hv Hi. destruct (lookup_lt_is_Some_2 (keys n) i Hi) as [k Hk].
  pose proof (v_keys _ _ Hv i) as Hrk. unfold rn_key in Hrk. rewrite Hk in Hrk.
  destruct (rn_entries rn !! i) as [m|] eqn:Hm; [|done]. exists m, k.
  destruct (v_order _ _ Hv i m k Hm Hk) as [Ho Hst]. do 4 (split; [done|]).
  cbn in Hrk. unfold meta_key, read_slice in Hrk. destruct (checked_add _ _ _) as [stop|] eqn:Hc; [|done].
  by apply checked_add_Some in Hc as [-> _].
Qed.

Lemma packed_search_loop_spec rn n key p fuel left right :
  view rn n → len p = keys_common (keys n) → (∀ i k, keys n !! i = Some k → p `prefix_of` k) →
  p `prefix_of` key → (left ≤ right ≤ length (keys n))%nat → (right - left < fuel)%nat →
  (∀ j k, (j < left)%nat → keys n !! j = Some k → (k < key)%key) →
  (∀ j k, (right ≤ j)%nat → keys n !! j = Some k → (key < k)%key) →
  ∃ r, packed_search_loop fuel rn key (key_order_word key (keys_common (keys n))) left right = Ok r ∧
       search_at (keys n) key r.
Proof.
  intros Hv Hlp Hp Hkey. revert left right; induction fuel as [|fuel IH]; intros left right Hr Hf Hlow Hup; [lia|].
  cbn [packed_search_loop]. destruct (Nat.ltb_spec left right) as [Hlt|Hge].
  2: { exists (Insert left). split; [done|]. cbn. split; [lia|]. split; [done|].
       intros j k Hj. apply Hup. lia. }
  set (mid := (left + (right - left) / 2)%nat).
  assert (left ≤ mid < right)%nat as Hmid.
  { unfold mid. pose proof (Nat.Div0.div_lt_upper_bound (right - left) 2 (right - left) ltac:(lia)). lia. }
  destruct (view_meta rn n mid Hv) as (m & k & Hm & Hk & Ho & Hst & Hsl); [lia|].
  unfold get_unchecked. rewrite Hm. cbn [expect mbind outcome_bind]. rewrite Ho.
  assert ((k < key)%key → ∃ r, packed_search_loop fuel rn key (key_order_word key (keys_common (keys n))) (mid + 1) right
    = Ok r ∧ search_at (keys n) key r) as Hright.
  { intros Hkk. apply IH; [lia|lia| |done]. intros j k' Hj Hk'.
    destruct (decide (j = mid)) as [->|]; [by simplify_eq|]. eapply blt_trans; [|exact Hkk].
    apply (sorted_lookup (keys n) j mid); [apply (v_sorted _ _ Hv)|lia|done..]. }
  assert ((key < k)%key → ∃ r, packed_search_loop fuel rn key (key_order_word key (keys_common (keys n))) left mid
    = Ok r ∧ search_at (keys n) key r) as Hleft.
  { intros Hkk. apply IH; [lia|lia|done|]. intros j k' Hj Hk'.
    destruct (decide (j = mid)) as [->|]; [by simplify_eq|]. eapply blt_trans; [exact Hkk|].
    apply (sorted_lookup (keys n) mid j); [apply (v_sorted _ _ Hv)|lia|done..]. }
  destruct (Hp _ _ Hk) as [k' ->]. destruct Hkey as [key' ->]. rewrite <- Hlp in *.
  destruct (Z.compare_spec (key_order_word (p ++ k') (len p)) (key_order_word (p ++ key') (len p))) as [_|Hc|Hc].
  - unfold raw_parts. rewrite Hsl. cbn [expect mbind outcome_bind]. destruct (bcmp _ _) eqn:Hcmp.
    + apply bcmp_Eq in Hcmp. exists (Found mid). split; [done|]. cbn. congruence.
    + by apply Hright.
    + apply Hleft. unfold blt. by rewrite bcmp_antisym, Hcmp.
  - by apply Hright, key_order_lt.
  - by apply Hleft, key_order_lt.
Qed.

(** The comparison with the common prefix answers for the keys outside it. *)
Lemma prefix_decides_spec rn n key p :
  view rn n → len p = keys_common (keys n) → (∀ i k, keys n !! i = Some k → p `prefix_of` k) →
  ∃ o, prefix_decides rn key = Ok o ∧
    match o with Some r => search_at (keys n) key r | None => p `prefix_of` key end.
Proof.
  intros Hv Hlp Hp. unfold prefix_decides. rewrite (v_common _ _ Hv), <- Hlp.
  destruct (Z.ltb_spec 0 (len p)) as [Hpos|Hzero].
  2: { exists None. split; [done|]. replace p with (@nil byte); [apply prefix_nil|].
       symmetry; apply len_zero. pose proof (len_nonneg p). lia. }
  assert (0 < length (keys n))%nat as Hne.
  { destruct (keys n); [|cbn; lia]. change (keys_common []) with 0 in Hlp. lia. }
  destruct (view_meta rn n 0 Hv Hne) as (m & k & Hm & Hk & _ & Hst & Hsl).
  unfold get_unchecked. rewrite Hm. cbn [expect mbind outcome_bind].
  destruct (Hp _ _ Hk) as [k' Hk']. pose proof (slice_Some _ _ _ _ Hst Hsl) as (_ & Hlk & _).
  assert (len k = key_len m) as Hlen by lia. unfold raw_parts.
  rewrite (slice_take _ _ _ _ (len p) Hst Hsl) by (subst k; rewrite len_app in Hlen; pose proof (len_nonneg k'); lia).
  cbn [expect mbind outcome_bind]. subst k. rewrite len_to_nat, take_app_length.
  set (s := Z.to_nat (Z.min (len key) (len p))).
  assert (length (take s key) = length (take s p)) as Hl by (rewrite !length_take; unfold s, len; lia).
  assert (∀ j q, keys n !! j = Some q → ∃ t, q = take s p ++ t) as Hall.
  { intros j q Hq. destruct (Hp _ _ Hq) as [t ->]. exists (drop s p ++ t). by rewrite app_assoc, take_drop. }
  destruct (bcmp (take s key) (take s p)) eqn:Hcmp.
  - apply bcmp_Eq in Hcmp. destruct (Z.ltb_spec (len key) (len p)) as [Hshort|Hlong].
    + exists (Some (Insert 0)). split; [done|]. cbn. split; [lia|]. split; [intros; lia|]. intros j q _ Hq.
      destruct (Hp _ _ Hq) as [t ->].
      assert (key = take s p) as Hkey. { rewrite <- Hcmp. symmetry. apply take_ge. unfold s, len in *. lia. }
      assert (drop s p ≠ []) as Hd.
      { intros Hd. assert (length (drop s p) = 0%nat) as H0 by (by rewrite Hd).
        rewrite length_drop in H0. unfold s, len in *. lia. }
      rewrite Hkey.
      enough (take s p ++ [] < take s p ++ (drop s p ++ t))%key as Hlt
        by (by rewrite app_nil_r, app_assoc, take_drop in Hlt).
      unfold blt. rewrite bcmp_app. by destruct (drop s p).
    + exists None. split; [done|]. assert (take s p = p) as Hsp by (apply take_ge; unfold s, len in *; lia).
      rewrite Hsp in Hcmp. exists (drop s key). by rewrite <- Hcmp, take_drop.
  - exists (Some (Insert 0)). split; [done|]. cbn. split; [lia|]. split; [intros; lia|]. intros j q _ Hq.
    destruct (Hall _ _ Hq) as [t ->]. rewrite <- (take_drop s key). by apply bcmp_app_lt.
  - exists (Some (Insert (rn_len rn))). split; [done|]. cbn. rewrite (v_len _ _ Hv). split; [lia|]. split.
    + intros j q _ Hq. destruct (Hall _ _ Hq) as [t ->]. rewrite <- (take_drop s key).
      apply bcmp_app_lt; [done|]. unfold blt. by rewrite bcmp_antisym, Hcmp.
    + intros j q Hj Hq%lookup_lt_Some. lia.
Qed.

Lemma rn_search_view rn n key : view rn n → rn_search rn key = Ok (Node_search n key).
Proof.
  intros Hv. pose proof (v_sorted _ _ Hv) as Hs.
  destruct (keys_common_prefix _ Hs) as (p & Hlp & Hp).
  destruct (prefix_decides_spec rn n key p Hv Hlp Hp) as (o & Ho & Hspec).
  assert (∃ r, rn_search rn key = Ok r ∧ search_at (keys n) key r) as (r & Hr & Hat).
  { unfold rn_search. rewrite Ho. cbn [mbind outcome_bind]. destruct o as [r|]; [by exists r|].
    rewrite (v_common _ _ Hv). pose proof (v_len _ _ Hv).
    apply (packed_search_loop_spec rn n key p); [done|done|done|done|lia|lia|intros; lia|].
    intros j k Hj Hk%lookup_lt_Some. lia. }
  rewrite Hr. f_equal. by apply (search_at_unique (keys n) key), search_correct.
Qed.

(** C36.  The packed decoder of the read path and the node decoder agree: whatever
    bytes [ReadNode::from_shared] accepts, [Node::from_bytes] accepts them too and
    [to_owned] returns its node without panicking; conversely every node that fits
    the 32-bit offsets is accepted. *)
Theorem packed_decoder_agrees data :
  vec_wf data →
  (∀ rn, from_shared data = Ok rn → ∃ n, to_owned rn = Ok n ∧ from_bytes data = Ok n) ∧
  (∀ n, from_bytes data = Ok n → packable data n →
     ∃ rn, from_shared data = Ok rn ∧ to_owned rn = Ok n).
Proof.
  intros Hd. split.
  - intros rn Hrn. destruct (from_shared_view data rn Hd Hrn) as (n & Hn & Hv).
    exists n. split; [by apply view_to_owned|done].
  - intros n Hn Hp. destruct (from_bytes_view data n Hn Hp) as (rn & Hrn & Hv).
    exists rn. split; [done|by apply view_to_owned].
Qed.

(** C37.  Search in a decoded packed node never reads outside its buffers (the
    unchecked accesses of the binary search and of the common prefix stay in
    bounds), terminates, and returns what [Node::search] returns on the node of the
    same bytes. *)
Theorem packed_search_safe data rn n key :
  vec_wf data → from_shared data = Ok rn → from_bytes data = Ok n →
  rn_search rn key = Ok (Node_search n key).
Proof.
  intros Hd Hrn Hn. destruct (from_shared_view data rn Hd Hrn) as (n' & Hn' & Hv).
  rewrite Hn in Hn'. apply Ok_inj in Hn' as <-. by apply rn_search_view.
Qed.

(** *** Witnesses *)
Definition sample_data : bytes := match to_bytes sample_node with Ok b => b | _ => [] end.

Lemma packed_decoder_agrees_witness :
  vec_wf sample_data ∧ ∃ rn, from_shared sample_data = Ok rn ∧ to_owned rn = Ok sample_node.
Proof.
  assert (vec_wf sample_data) as Hd by (vm_compute; discriminate). split; [exact Hd|].
  apply (proj2 (packed_decoder_agrees sample_data Hd) sample_node); [vm_compute; reflexivity|].
  split; [vm_compute; discriminate|]. intros _; vm_compute; discriminate.
Defined.

Lemma packed_search_safe_witness :
  ∃ rn, from_shared sample_data = Ok rn ∧ rn_search rn [Byte.x61; Byte.x62] = Ok (Found 1).
Proof.
  eexists. split; [vm_compute; reflexivity|].
  apply (packed_search_safe sample_data _ sample_node [Byte.x61; Byte.x62]);
    [vm_compute; discriminate|vm_compute; reflexivity|vm_compute; reflexivity].
Defined.

End ReadNode.
