(* ===== verification/Sizer.v ===== *)
(** * Incremental node sizes (src/prolly/builder/size.rs)

    [EncodedNodeSizer] tracks the exact encoded size of the node being filled,
    without encoding it.  The bound on the node bytes of every builder rests on
    it. *)

From Stdlib Require Import ZArith Lia Strings.Byte.
From stdpp Require Import base tactics numbers list strings option sorting.
From S2P Require Import Prelude Cursor Types Format Node.
Import Format Node.

Local Open Scope Z_scope.

Module Sizer.

Record EncodedNodeSizer := {
  sz_format : TreeFormat;
  sz_leaf : bool;
  sz_level : Z;
  sz_count : Z;
  sz_size : Z;
  sz_empty_size : Z;
  sz_payload_len : Z;
}.

Definition checked_sum (values : list Z) : outcome Error Z :=
  ok_or InvalidNode
    (foldl (λ sum value, sum ≫= λ s, checked_add u64_max s value) (Some 0) values).

Definition add64 (a b : Z) : outcome Error Z := ok_or InvalidNode (checked_add u64_max a b).

Definition validate_child_count (lf : bool) (child_count : option Z) : outcome Error () :=
  match lf, child_count with
  | true, None => Ok tt
  | false, Some c => if 1 <=? c then Ok tt else Err InvalidNode
  | _, _ => Err InvalidNode
  end.

Definition EncodedNodeSizer_new (f : TreeFormat) (lf : bool) (lv : Z)
    : outcome Error EncodedNodeSizer :=
  validate f ≫= λ _,
  match node_layout f with
  | Custom id _ => no_codec id
  | _ =>
      format_len ← (if bool_decide (f = TreeFormat_default) then Ok 0
                    else len <$> canonical_bytes f);
      size ← add64 4 (varint_len COMPACT_VERSION);
      size ← add64 size (varint_len format_len);
      size ← add64 size format_len;
      size ← add64 size (varint_len (if lf then 1 else 0));
      size ← add64 size (varint_len lv);
      size ← add64 size (varint_len 0);
      size ← (match node_layout f with
              | OffsetTable => add64 size (varint_len 0)
              | _ => Ok size
              end);
      Ok {| sz_format := f; sz_leaf := lf; sz_level := lv; sz_count := 0; sz_size := size;
            sz_empty_size := size; sz_payload_len := 0 |}
  end.

Definition child_count_len (child_count : option Z) : Z :=
  match child_count with Some c => varint_len c | None => 0 end.

(** The growth of the node for one entry, without the width of the count. *)
Definition entry_delta (self : EncodedNodeSizer) (previous_key : option bytes) (key value : bytes)
    (child_count : option Z) : outcome Error Z :=
  match node_layout (sz_format self) with
  | PrefixCompressed =>
      let shared :=
        match previous_key with Some previous => common_prefix_len previous key | None => 0 end in
      suffix_len ← ok_or InvalidNode (checked_sub (len key) shared);
      checked_sum [varint_len shared; varint_len suffix_len; suffix_len;
                   varint_len (len value); len value; child_count_len child_count]
  | Plain =>
      checked_sum [varint_len (len key); len key; varint_len (len value); len value;
                   child_count_len child_count]
  | OffsetTable =>
      value_offset ← add64 (sz_payload_len self) (len key);
      next_payload_len ← add64 value_offset (len value);
      payload_width_delta ← ok_or InvalidNode
        (checked_sub (varint_len next_payload_len) (varint_len (sz_payload_len self)));
      checked_sum [varint_len (sz_payload_len self); varint_len (len key); varint_len value_offset;
                   varint_len (len value); child_count_len child_count; payload_width_delta;
                   len key; len value]
  | Custom _ _ => Err InvalidNode
  end.

Definition size_after (self : EncodedNodeSizer) (previous_key : option bytes) (key value : bytes)
    (child_count : option Z) : outcome Error Z :=
  validate_child_count (sz_leaf self) child_count ≫= λ _,
  next_count ← add64 (sz_count self) 1;
  count_width_delta ← ok_or InvalidNode
    (checked_sub (varint_len next_count) (varint_len (sz_count self)));
  delta ← entry_delta self previous_key key value child_count;
  size ← add64 (sz_size self) count_width_delta;
  add64 size delta.

Definition push_sized (self : EncodedNodeSizer) (key value : bytes) (size : Z)
    : outcome Error EncodedNodeSizer :=
  count ← add64 (sz_count self) 1;
  payload ← add64 (sz_payload_len self) (len key);
  payload ← add64 payload (len value);
  Ok {| sz_format := sz_format self; sz_leaf := sz_leaf self; sz_level := sz_level self;
        sz_count := count; sz_size := size; sz_empty_size := sz_empty_size self;
        sz_payload_len := payload |}.

Definition push (self : EncodedNodeSizer) (previous_key : option bytes) (key value : bytes)
    (child_count : option Z) : outcome Error EncodedNodeSizer :=
  size ← size_after self previous_key key value child_count;
  push_sized self key value size.

Definition reset (self : EncodedNodeSizer) : EncodedNodeSizer :=
  {| sz_format := sz_format self; sz_leaf := sz_leaf self; sz_level := sz_level self;
     sz_count := 0; sz_size := sz_empty_size self; sz_empty_size := sz_empty_size self;
     sz_payload_len := 0 |}.

(** Feeding the entries of a node one after the other. *)
Definition count_opt (lf : bool) (count : Z) : option Z := if lf then None else Some count.

Fixpoint push_all (self : EncodedNodeSizer) (previous_key : option bytes) (es : list node_entry)
    : outcome Error EncodedNodeSizer :=
  match es with
  | [] => Ok self
  | (key, value, count) :: es' =>
      self ← push self previous_key key value (count_opt (sz_leaf self) count);
      push_all self (Some key) es'
  end.

(** ** The size of a node with given entries *)
Definition format_len (f : TreeFormat) : Z :=
  if bool_decide (f = TreeFormat_default) then 0 else len (format_bytes f).

Definition header_len (f : TreeFormat) (lf : bool) (lv n : Z) : Z :=
  4 + varint_len COMPACT_VERSION + varint_len (format_len f) + format_len f
  + varint_len (if lf then 1 else 0) + varint_len lv + varint_len n.

Definition node_size (f : TreeFormat) (lf : bool) (lv : Z) (es : list node_entry) : Z :=
  header_len f lf lv (len es) + len (layout_bytes (node_layout f) lf es).

Lemma varint_len_pos v : 1 ≤ varint_len v.
Proof.
  rewrite varint_len_spec. unfold varint_fuel. cbn [varint]. destruct (128 <=? v); rewrite len_cons; len_lia.
Qed.

Lemma varint_len_mono a b : 0 ≤ a ≤ b → varint_len a ≤ varint_len b.
Proof.
  unfold varint_len. generalize 1. generalize varint_fuel. intros fuel; revert a b.
  assert (∀ fuel v n, n ≤ varint_len_loop fuel v n) as Hle.
  { intros f; induction f as [|f IH]; intros v n; cbn; [lia|].
    case_bool; [|lia]. specialize (IH (Z.shiftr v 7) (n + 1)). lia. }
  induction fuel as [|fuel IH]; intros a b n Hab; cbn [varint_len_loop]; [lia|].
  destruct (Z.leb_spec 128 a), (Z.leb_spec 128 b); try lia.
  - apply IH. rewrite !Z.shiftr_div_pow2 by lia. split; [apply Z.div_pos; lia|].
    apply Z.div_le_mono; lia.
  - pose proof (Hle fuel (Z.shiftr b 7) (n + 1)). lia.
Qed.

Lemma checked_sum_ok values :
  Forall (λ v, 0 ≤ v) values → foldr Z.add 0 values ≤ u64_max →
  checked_sum values = Ok (foldr Z.add 0 values).
Proof.
  intros Hv Hs. unfold checked_sum.
  assert (∀ acc, 0 ≤ acc → acc + foldr Z.add 0 values ≤ u64_max →
    foldl (λ sum value, sum ≫= λ s, checked_add u64_max s value) (Some acc) values
      = Some (acc + foldr Z.add 0 values)) as H; [|by rewrite H by lia].
  clear Hs. induction Hv as [|v values Hv Hvs IH]; intros acc Hacc Hs; cbn [foldl foldr] in *.
  { f_equal. lia. }
  assert (0 ≤ foldr Z.add 0 values) by (clear -Hvs; induction Hvs; cbn; lia).
  cbn [mbind option_bind]. rewrite checked_add_le by lia. rewrite IH by lia. f_equal. lia.
Qed.

Lemma add64_ok a b : a + b ≤ u64_max → add64 a b = Ok (a + b).
Proof. intros. unfold add64. by rewrite checked_add_le. Qed.

(** The sizer after the entries [es]. *)
Record sized (s : EncodedNodeSizer) (es : list node_entry) : Prop := {
  sized_codec : has_codec (sz_format s);
  sized_count : sz_count s = len es;
  sized_size : sz_size s = node_size (sz_format s) (sz_leaf s) (sz_level s) es;
  sized_empty : sz_empty_size s = node_size (sz_format s) (sz_leaf s) (sz_level s) [];
  sized_payload : sz_payload_len s = len (payload_of es);
}.

Definition prev_key (es : list node_entry) : option bytes :=
  match reverse es with [] => None | e :: _ => Some (ekey e) end.

(** ** Layouts grow by one entry *)
Lemma prev_key_snoc es e : prev_key (es ++ [e]) = Some (ekey e).
Proof. unfold prev_key. by rewrite reverse_snoc. Qed.

Lemma prev_key_cons pk x es : default (ekey x) (prev_key es) = default pk (prev_key (x :: es)).
Proof. unfold prev_key. rewrite reverse_cons. by destruct (reverse es). Qed.

Lemma encode_prefix_snoc lf pk es e :
  encode_prefix lf pk (es ++ [e]) []
    = encode_prefix lf pk es [] ++ prefix_bytes lf (default pk (prev_key es)) e.
Proof.
  revert pk; induction es as [|x es IH]; intros pk; cbn [app].
  { by rewrite encode_prefix_cons. }
  rewrite !encode_prefix_cons, (encode_prefix_app _ _ (es ++ [e])), IH,
    (encode_prefix_app _ _ es ([] ++ _)).
  rewrite (prev_key_cons pk). by rewrite <- !app_assoc.
Qed.

Lemma encode_plain_snoc lf es e :
  encode_plain lf (es ++ [e]) [] = encode_plain lf es [] ++ plain_bytes lf e.
Proof.
  induction es as [|x es IH]; cbn [app]; [by rewrite encode_plain_cons|].
  rewrite !encode_plain_cons, (encode_plain_app _ (es ++ [e])), IH, (encode_plain_app _ es ([] ++ _)). by rewrite <- !app_assoc.
Qed.

Lemma payload_snoc es e : payload_of (es ++ [e]) = payload_of es ++ e.1.1 ++ e.1.2.
Proof. unfold payload_of. rewrite fmap_app, concat_app. cbn. by rewrite app_nil_r. Qed.

Lemma table_bytes_snoc lf off es e :
  table_bytes lf off (es ++ [e])
    = table_bytes lf off es ++ table_entry_bytes lf (off + len (payload_of es)) e.
Proof.
  revert off; induction es as [|[[k v] c] es IH]; intros off; cbn [app table_bytes fst snd].
  { change (payload_of []) with (@nil byte). rewrite len_nil, Z.add_0_r. by rewrite app_nil_r. }
  rewrite IH, <- app_assoc, payload_cons, !len_app. do 3 f_equal. lia.
Qed.

Lemma count_bytes_len lf count :
  len (count_bytes lf count) = child_count_len (count_opt lf count).
Proof. unfold count_bytes, count_opt. destruct lf; [done|]. cbn [child_count_len]. by rewrite varint_len_spec. Qed.

(** The growth of the layout by one entry. *)
Definition growth (f : TreeFormat) (lf : bool) (es : list node_entry) (e : node_entry) : Z :=
  len (layout_bytes (node_layout f) lf (es ++ [e])) - len (layout_bytes (node_layout f) lf es).

Lemma child_count_len_nonneg c : 0 ≤ child_count_len c.
Proof. destruct c as [c|]; cbn [child_count_len]; [|lia]. pose proof (varint_len_pos c). lia. Qed.

Lemma entry_delta_ok s es key val count :
  let e := (key, val, count) in
  sized s es → growth (sz_format s) (sz_leaf s) es e ≤ u64_max →
  len (payload_of (es ++ [e])) ≤ u64_max →
  entry_delta s (prev_key es) key val (count_opt (sz_leaf s) count)
    = Ok (growth (sz_format s) (sz_leaf s) es e).
Proof.
  intros e Hs Hg Hp. subst e. pose proof (sized_codec s es Hs) as Hc.
  unfold entry_delta, growth, layout_bytes, has_codec in *.
  pose proof (varint_len_pos) as Hvp. pose proof (child_count_len_nonneg (count_opt (sz_leaf s) count)).
  pose proof (len_nonneg key). pose proof (len_nonneg val).
  destruct (node_layout (sz_format s)); [| | |done].
  - rewrite encode_prefix_snoc, len_app, Z.add_simpl_l in *. cbn [prefix_bytes] in *.
    set (prev := default [] (prev_key es)) in *.
    assert (match prev_key es with Some previous => common_prefix_len previous key | None => 0 end
      = common_prefix_len prev key) as -> by (unfold prev; by destruct (prev_key es)).
    destruct (common_prefix_len_spec prev key) as (? & ? & _).
    set (n := common_prefix_len prev key) in *. rewrite checked_sub_le by lia. cbn [ok_or mbind outcome_bind].
    assert (len (drop (Z.to_nat n) key) = len key - n) as Hd by (rewrite len_drop; lia).
    rewrite !len_app, Hd, count_bytes_len, <- !varint_len_spec in Hg |- *.
    pose proof (Hvp n). pose proof (Hvp (len key - n)). pose proof (Hvp (len val)).
    rewrite checked_sum_ok; cbn [foldr]; [f_equal; lia|repeat constructor; lia|lia].
  - rewrite encode_plain_snoc, len_app, Z.add_simpl_l in *. cbn [plain_bytes] in *.
    rewrite !len_app, count_bytes_len, <- !varint_len_spec in Hg |- *.
    pose proof (Hvp (len key)). pose proof (Hvp (len val)).
    rewrite checked_sum_ok; cbn [foldr]; [f_equal; lia|repeat constructor; lia|lia].
  - rewrite table_bytes_snoc, payload_snoc in *. cbn [table_entry_bytes fst snd] in *.
    rewrite (sized_payload s es Hs). rewrite Z.add_0_l in *.
    pose proof (len_nonneg (payload_of es)). set (p := len (payload_of es)) in *.
    rewrite !len_app in Hp. rewrite !len_app, count_bytes_len, <- !varint_len_spec in Hg |- *.
    fold p in Hp, Hg |- *.
    rewrite add64_ok by lia. cbn [mbind outcome_bind].
    rewrite add64_ok by lia. cbn [mbind outcome_bind].
    pose proof (varint_len_mono p (p + len key + len val) ltac:(lia)).
    rewrite checked_sub_le by lia. cbn [ok_or mbind outcome_bind].
    pose proof (Hvp p). pose proof (Hvp (len key)). pose proof (Hvp (p + len key)).
    pose proof (Hvp (len val)).
    replace (p + (len key + len val)) with (p + len key + len val) in * by lia.
    rewrite checked_sum_ok; cbn [foldr]; [f_equal; lia|repeat constructor; lia|lia].
Qed.

Definition entry_counted (lf : bool) (e : node_entry) : Prop := lf = false → 1 ≤ e.2.

Lemma growth_nonneg f lf es e : has_codec f → 0 ≤ growth f lf es e.
Proof.
  unfold growth, has_codec, layout_bytes. destruct (node_layout f); intros Hc; [| | |done].
  - rewrite encode_prefix_snoc. len_lia.
  - rewrite encode_plain_snoc. len_lia.
  - rewrite table_bytes_snoc, payload_snoc. rewrite !len_app, <- !varint_len_spec.
    pose proof (varint_len_mono (len (payload_of es)) (len (payload_of es) + (len e.1.1 + len e.1.2))) as Hm.
    pose proof (len_nonneg (payload_of es)). pose proof (len_nonneg e.1.1). pose proof (len_nonneg e.1.2).
    pose proof (len_nonneg (table_entry_bytes lf (0 + len (payload_of es)) e)). lia.
Qed.

Lemma node_size_snoc f lf lv es e :
  node_size f lf lv (es ++ [e])
    = node_size f lf lv es + (varint_len (len es + 1) - varint_len (len es)) + growth f lf es e.
Proof. unfold node_size, header_len, growth. rewrite (len_app es [e]). change (len [e]) with 1. lia. Qed.

Lemma header_len_nonneg f lf lv n : 4 ≤ header_len f lf lv n.
Proof.
  unfold header_len, format_len. pose proof varint_len_pos as Hv.
  pose proof (Hv COMPACT_VERSION). pose proof (Hv lv). pose proof (Hv n).
  pose proof (Hv (if lf then 1 else 0)). pose proof (len_nonneg (format_bytes f)).
  case_bool_decide; [pose proof (Hv 0)|pose proof (Hv (len (format_bytes f)))]; lia.
Qed.

(** [size_after] is the size of the node with one more entry. *)
Lemma size_after_ok s es key val count :
  let e := (key, val, count) in
  sized s es → entry_counted (sz_leaf s) e → len es < u64_max →
  node_size (sz_format s) (sz_leaf s) (sz_level s) (es ++ [e]) ≤ u64_max →
  len (payload_of (es ++ [e])) ≤ u64_max →
  size_after s (prev_key es) key val (count_opt (sz_leaf s) count)
    = Ok (node_size (sz_format s) (sz_leaf s) (sz_level s) (es ++ [e])).
Proof.
  intros e Hs Hcount Hlen Hsize Hp. subst e. unfold size_after.
  assert (validate_child_count (sz_leaf s) (count_opt (sz_leaf s) count) = Ok tt) as ->.
  { unfold count_opt, entry_counted in *. destruct (sz_leaf s); [done|]. cbn in *.
    specialize (Hcount eq_refl). destruct (Z.leb_spec 1 count); [done|lia]. }
  cbn [mbind outcome_bind]. rewrite (sized_count s es Hs), add64_ok by lia. cbn [mbind outcome_bind].
  pose proof (len_nonneg es). pose proof (varint_len_mono (len es) (len es + 1) ltac:(lia)).
  rewrite checked_sub_le by lia. cbn [ok_or mbind outcome_bind].
  pose proof (growth_nonneg (sz_format s) (sz_leaf s) es (key, val, count) (sized_codec s es Hs)) as Hg.
  pose proof (header_len_nonneg (sz_format s) (sz_leaf s) (sz_level s) (len es)) as Hh.
  rewrite node_size_snoc in *.
  assert (0 ≤ node_size (sz_format s) (sz_leaf s) (sz_level s) es)
    by (unfold node_size; pose proof (len_nonneg (layout_bytes (node_layout (sz_format s)) (sz_leaf s) es)); lia).
  rewrite (entry_delta_ok s es key val count Hs) by (done || lia). cbn [mbind outcome_bind].
  rewrite (sized_size s es Hs), add64_ok by lia. cbn [mbind outcome_bind].
  by rewrite add64_ok by lia.
Qed.

Lemma push_sized_ok s es key val count :
  let e := (key, val, count) in
  sized s es → len es < u64_max → len (payload_of (es ++ [e])) ≤ u64_max →
  ∃ s', push_sized s key val (node_size (sz_format s) (sz_leaf s) (sz_level s) (es ++ [e])) = Ok s' ∧
    sized s' (es ++ [e]) ∧ sz_format s' = sz_format s ∧ sz_leaf s' = sz_leaf s ∧ sz_level s' = sz_level s.
Proof.
  intros e [Hc Hn Hz He Hp] Hlen Hpay. subst e. unfold push_sized.
  rewrite payload_snoc, !len_app in Hpay. cbn [fst snd] in Hpay.
  pose proof (len_nonneg key). pose proof (len_nonneg val).
  rewrite Hn, add64_ok by lia. cbn [mbind outcome_bind].
  rewrite Hp, add64_ok by lia. cbn [mbind outcome_bind].
  rewrite add64_ok by lia. cbn [mbind outcome_bind].
  eexists; split; [done|]. split; [|done]. constructor; cbn; try done.
  - by rewrite len_app.
  - rewrite payload_snoc, !len_app. cbn [fst snd]. lia.
Qed.

Lemma reset_ok s es : sized s es → sized (reset s) [].
Proof. intros [Hc Hn Hz He Hp]. by constructor. Qed.

Lemma EncodedNodeSizer_new_ok f lf lv :
  validate f = Ok tt → has_codec f → node_size f lf lv [] ≤ u64_max →
  ∃ s, EncodedNodeSizer_new f lf lv = Ok s ∧ sized s [] ∧
    sz_format s = f ∧ sz_leaf s = lf ∧ sz_level s = lv.
Proof.
  intros Hv Hc Hsize. unfold EncodedNodeSizer_new. rewrite Hv. cbn [mbind outcome_bind].
  assert ((if bool_decide (f = TreeFormat_default) then Ok 0 else len <$> canonical_bytes f)
    = Ok (format_len f)) as Hfl.
  { unfold format_len. case_bool_decide; [done|]. by rewrite canonical_bytes_eq, Hv. }
  unfold node_size, header_len in Hsize. change (len (@nil node_entry)) with 0 in Hsize.
  pose proof varint_len_pos as Hvp. pose proof (Hvp COMPACT_VERSION). pose proof (Hvp (format_len f)).
  pose proof (Hvp lv). pose proof (Hvp (if lf then 1 else 0)). pose proof (Hvp 0).
  assert (0 ≤ format_len f) by (unfold format_len; case_bool_decide; len_lia).
  pose proof (len_nonneg (layout_bytes (node_layout f) lf [])).
  assert (match node_layout f with OffsetTable => varint_len 0 | _ => 0 end
          = len (layout_bytes (node_layout f) lf [])) as Hlay
    by (by destruct (node_layout f)).
  unfold has_codec in Hc.
  destruct (node_layout f) eqn:El; [| | |done].
  all: rewrite Hfl; cbn [mbind outcome_bind]; rewrite <- Hlay in *.
  all: repeat (rewrite add64_ok by lia; cbn [mbind outcome_bind]).
  all: eexists; split; [done|]; split; [|done]; constructor;
    cbn [sz_format sz_leaf sz_level sz_count sz_size sz_empty_size sz_payload_len]; try done.
  all: try (unfold has_codec; by rewrite El).
  all: unfold node_size, header_len; rewrite El, <- Hlay; change (len (@nil node_entry)) with 0; lia.
Qed.

(** Sizes only grow. *)
Lemma node_size_prefix f lf lv es rest :
  has_codec f → node_size f lf lv es ≤ node_size f lf lv (es ++ rest).
Proof.
  intros Hc. induction rest as [|e rest IH] using rev_ind; [by rewrite app_nil_r|].
  rewrite app_assoc, node_size_snoc.
  pose proof (growth_nonneg f lf (es ++ rest) e Hc). pose proof (len_nonneg (es ++ rest)).
  pose proof (varint_len_mono (len (es ++ rest)) (len (es ++ rest) + 1) ltac:(lia)). lia.
Qed.

Lemma push_all_ok s es rest :
  sized s es → Forall (entry_counted (sz_leaf s)) rest → len (es ++ rest) < u64_max →
  node_size (sz_format s) (sz_leaf s) (sz_level s) (es ++ rest) ≤ u64_max →
  len (payload_of (es ++ rest)) ≤ u64_max →
  ∃ s', push_all s (prev_key es) rest = Ok s' ∧ sized s' (es ++ rest) ∧
    sz_format s' = sz_format s ∧ sz_leaf s' = sz_leaf s ∧ sz_level s' = sz_level s.
Proof.
  revert s es; induction rest as [|[[key val] count] rest IH]; intros s es Hs Hr Hlen Hsize Hp;
    cbn [push_all].
  { rewrite app_nil_r. by exists s. }
  apply Forall_cons_1 in Hr as [He Hr]. rewrite cons_middle, app_assoc in *.
  pose proof (node_size_prefix (sz_format s) (sz_leaf s) (sz_level s)
    (es ++ [(key, val, count)]) rest (sized_codec s es Hs)).
  assert (len es < u64_max) by len_lia.
  assert (len (payload_of (es ++ [(key, val, count)])) ≤ u64_max) as Hp1.
  { unfold payload_of in *. rewrite fmap_app, concat_app in Hp. len_lia. }
  unfold push. rewrite (size_after_ok s es key val count Hs He) by (done || lia).
  cbn [mbind outcome_bind].
  destruct (push_sized_ok s es key val count Hs) as (s1 & -> & Hs1 & Hf & Hl & Hv); [done..|].
  cbn [mbind outcome_bind]. change (Some key) with (Some (ekey (key, val, count))).
  rewrite <- (prev_key_snoc es). rewrite <- Hf, <- Hl, <- Hv. rewrite <- Hl in Hr.
  apply IH; try done. by rewrite Hf, Hl, Hv.
Qed.

(** ** The size of an encoded node *)
Lemma node_format_bytes_len f fb :
  validate f = Ok tt → node_format_bytes f = Ok fb → len fb = format_len f.
Proof.
  intros Hv. unfold node_format_bytes, format_len. case_bool_decide; [by intros [= <-]|].
  rewrite canonical_bytes_eq, Hv. intros H1%Ok_inj. by subst fb.
Qed.

Lemma to_bytes_size n b :
  node_wf n → to_bytes n = Ok b →
  len b = node_size (format n) (leaf n) (level n) (node_entries n).
Proof.
  intros Hn Hb. destruct (node_format_bytes_ok n Hn) as (fb & Hfb & Hl).
  destruct (proj1 (Node_validate_Ok n) (wf_valid n Hn)) as (Hv & Hlen & _ & _).
  unfold to_bytes, try_to_bytes in Hb.
  rewrite (to_compact_bytes_eq n fb Hfb (wf_codec n Hn) Hl) in Hb.
  apply Ok_inj in Hb as <-. unfold header_bytes, node_size, header_len.
  rewrite !len_app, <- !varint_len_spec, (node_format_bytes_len _ _ Hv Hfb).
  change (len COMPACT_MAGIC) with 4.
  assert (len (keys n) = len (node_entries n)) as ->
    by (unfold len; by rewrite length_node_entries). lia.
Qed.

(** The incremental sizer is exact: started for a node's format and fed its
    entries in order, it ends at the length of the node's encoding. *)
Theorem sizer_exact n b :
  node_wf n → to_bytes n = Ok b → vec_wf b → len (payload_of (node_entries n)) ≤ isize_max →
  ∃ s0 s, EncodedNodeSizer_new (format n) (leaf n) (level n) = Ok s0 ∧
    push_all s0 None (node_entries n) = Ok s ∧ sz_size s = len b.
Proof.
  intros Hn Hb Hwf Hp. unfold vec_wf, isize_max in *.
  pose proof (to_bytes_size n b Hn Hb) as Hsize. pose proof (wf_codec n Hn) as Hc.
  destruct (proj1 (Node_validate_Ok n) (wf_valid n Hn)) as (Hv & Hlen & _ & _).
  pose proof (node_size_prefix (format n) (leaf n) (level n) [] (node_entries n) Hc) as Hmono.
  cbn [app] in Hmono.
  destruct (EncodedNodeSizer_new_ok (format n) (leaf n) (level n) Hv Hc) as (s0 & Hnew & Hs0 & Hf & Hl & Hlv);
    [unfold u64_max; lia|]. exists s0.
  destruct (push_all_ok s0 [] (node_entries n) Hs0) as (s & Hpush & Hs & Hf' & Hl' & Hlv').
  - rewrite Hl. eapply Forall_impl; [by apply node_entries_wf|].
    intros [[k v] c] (_ & _ & Hcnt) Hleaf. specialize (Hcnt Hleaf). cbn. lia.
  - pose proof (wf_room n Hn). pose proof (len_nonneg (format_bytes (format n))). cbn [app].
    assert (len (keys n) = len (node_entries n)) by (unfold len; by rewrite length_node_entries).
    unfold isize_max, u64_max in *. lia.
  - rewrite Hf, Hl, Hlv. cbn [app]. unfold u64_max. lia.
  - cbn [app]. unfold u64_max. lia.
  - exists s. split; [done|]. split; [exact Hpush|].
    rewrite (sized_size s _ Hs), Hf', Hl', Hlv', Hf, Hl, Hlv. done.
Qed.

Lemma sizer_exact_witness :
  ∃ b s0 s, to_bytes sample_node = Ok b ∧
    EncodedNodeSizer_new (format sample_node) (leaf sample_node) (level sample_node) = Ok s0 ∧
    push_all s0 None (node_entries sample_node) = Ok s ∧ sz_size s = len b.
Proof.
  destruct (to_bytes sample_node) as [b| |] eqn:Hb; [|vm_compute in Hb; discriminate Hb..].
  assert (vec_wf b) as Hwf by (vm_compute in Hb; injection Hb as <-; vm_compute; discriminate).
  destruct (sizer_exact sample_node b sample_node_wf Hb Hwf) as (s0 & s & Hs);
    [vm_compute; discriminate|]. exists b, s0, s. by split.
Defined.

End Sizer.
