(* ===== verification/Chunks.v ===== *)
(** * Chunk ranges of a level (src/prolly/builder.rs)

    The three routines that cut the ordered entries of a level into nodes: the
    serial one driven by the boundary detector and the sizer, and the two that
    reuse boundary hashes computed in parallel.  They are compared with one
    specification of the chunks of a level. *)

From Stdlib Require Import ZArith Lia Strings.Byte.
From stdpp Require Import base tactics numbers list strings option.
From S2P Require Import Prelude Cursor Types Format Boundary Node Sizer.
Import Format Node.

Local Open Scope Z_scope.

Module Chunks.

Definition PARALLEL_BOUNDARY_HASH_MIN_ENTRIES : Z := 1024.

(** [start..=end]. *)
Abbreviation range := (nat * nat)%type.

Section hashes.
Context `{Hashes}.

(** [child_counts.map(|counts| counts[index])]. *)
Definition count_at (child_counts : option (list Z)) (index : nat) : outcome Error (option Z) :=
  match child_counts with
  | None => Ok None
  | Some counts => Some <$> expect "index out of bounds" (counts !! index)
  end.

(** [(index > start).then(|| entries[index - 1].0)]. *)
Definition previous_at (entries : list (bytes * bytes)) (start index : nat) : option bytes :=
  if (start <? index)%nat then fst <$> entries !! (index - 1)%nat else None.

Record ChunkState := {
  cs_ranges : list range;
  cs_start : nat;
  cs_detector : Boundary.BoundaryDetector;
  cs_sizer : Sizer.EncodedNodeSizer;
}.

(** Closes the current range before an entry that would exceed the byte limit;
    returns the size of the node with the entry. *)
Definition force_cut (hard : Z) (index : nat) (previous : option bytes) (key value : bytes)
    (child_count : option Z) (s : ChunkState) : outcome Error (Z * ChunkState) :=
  encoded_size ← Sizer.size_after (cs_sizer s) previous key value child_count;
  if (cs_start s <? index)%nat && (hard <? encoded_size) then
    let sizer := Sizer.reset (cs_sizer s) in
    encoded_size ← Sizer.size_after sizer None key value child_count;
    Ok (encoded_size,
        {| cs_ranges := cs_ranges s ++ [(cs_start s, (index - 1)%nat)]; cs_start := index;
           cs_detector := Boundary.reset (cs_detector s); cs_sizer := sizer |})
  else Ok (encoded_size, s).

Definition serial_step (hard : Z) (entries : list (bytes * bytes)) (child_counts : option (list Z))
    (index : nat) (key value : bytes) (s : ChunkState) : outcome Error ChunkState :=
  child_count ← count_at child_counts index;
  '(encoded_size, s) ←
    force_cut hard index (previous_at entries (cs_start s) index) key value child_count s;
  if hard <? encoded_size then Err (EntryTooLarge encoded_size hard)
  else
    let encoded_entry_bytes := saturating_sub encoded_size (Sizer.sz_size (cs_sizer s)) in
    sizer ← Sizer.push_sized (cs_sizer s) key value encoded_size;
    '(boundary, detector) ← Boundary.observe (cs_detector s) key value encoded_entry_bytes;
    Ok (if boundary : bool then
          {| cs_ranges := cs_ranges s ++ [(cs_start s, index)]; cs_start := S index;
             cs_detector := detector; cs_sizer := Sizer.reset sizer |}
        else
          {| cs_ranges := cs_ranges s; cs_start := cs_start s; cs_detector := detector;
             cs_sizer := sizer |}).

Fixpoint serial_loop (hard : Z) (entries : list (bytes * bytes)) (child_counts : option (list Z))
    (rest : list (bytes * bytes)) (index : nat) (s : ChunkState) : outcome Error ChunkState :=
  match rest with
  | [] => Ok s
  | (key, value) :: rest' =>
      s ← serial_step hard entries child_counts index key value s;
      serial_loop hard entries child_counts rest' (S index) s
  end.

(** [if start < n { ranges.push(start..=(n - 1)) }]. *)
Definition close_ranges (ranges : list range) (start n : nat) : list range :=
  if (start <? n)%nat then ranges ++ [(start, (n - 1)%nat)] else ranges.

Fixpoint counts_loop (spec : ChunkingSpec) (bs : list (bool * Z)) (index start : nat)
    (ranges : list range) : list range * nat :=
  match bs with
  | [] => (ranges, start)
  | (hash_boundary, _) :: bs' =>
      let count := Z.of_nat (index - start + 1) in
      if (max spec <=? count) || ((min spec <=? count) && hash_boundary)
      then counts_loop spec bs' (S index) (S index) (ranges ++ [(start, index)])
      else counts_loop spec bs' (S index) start ranges
  end.

Definition chunk_ranges_from_independent_counts (spec : ChunkingSpec) (bs : list (bool * Z))
    : list range :=
  let '(ranges, start) := counts_loop spec bs 0 0 [] in
  close_ranges ranges start (length bs).

(** The loop of [chunk_ranges_from_independent_hashes]; the detector is not used. *)
Record HashState := { hs_ranges : list range; hs_start : nat; hs_sizer : Sizer.EncodedNodeSizer }.

Definition hashes_force (hard : Z) (index : nat) (previous : option bytes) (key value : bytes)
    (child_count : option Z) (s : HashState) : outcome Error (Z * HashState) :=
  encoded_size ← Sizer.size_after (hs_sizer s) previous key value child_count;
  if (hs_start s <? index)%nat && (hard <? encoded_size) then
    let sizer := Sizer.reset (hs_sizer s) in
    encoded_size ← Sizer.size_after sizer None key value child_count;
    Ok (encoded_size,
        {| hs_ranges := hs_ranges s ++ [(hs_start s, (index - 1)%nat)]; hs_start := index;
           hs_sizer := sizer |})
  else Ok (encoded_size, s).

Definition hashes_step (spec : ChunkingSpec) (entries : list (bytes * bytes))
    (child_counts : option (list Z)) (index : nat) (key value : bytes) (hash_boundary : bool)
    (s : HashState) : outcome Error HashState :=
  let hard := hard_max_node_bytes spec in
  child_count ← count_at child_counts index;
  '(encoded_size, s) ←
    hashes_force hard index (previous_at entries (hs_start s) index) key value child_count s;
  if hard <? encoded_size then Err (EntryTooLarge encoded_size hard)
  else
    sizer ← Sizer.push_sized (hs_sizer s) key value encoded_size;
    let count := Z.of_nat (index - hs_start s + 1) in
    Ok (if (hard <=? encoded_size) || (max spec <=? count)
           || ((min spec <=? count) && hash_boundary) then
          {| hs_ranges := hs_ranges s ++ [(hs_start s, index)]; hs_start := S index;
             hs_sizer := Sizer.reset sizer |}
        else {| hs_ranges := hs_ranges s; hs_start := hs_start s; hs_sizer := sizer |}).

Fixpoint hashes_loop (spec : ChunkingSpec) (entries : list (bytes * bytes))
    (child_counts : option (list Z)) (rest : list (bytes * bytes)) (hash_boundaries : list bool)
    (index : nat) (s : HashState) : outcome Error HashState :=
  match rest, hash_boundaries with
  | (key, value) :: rest', hb :: hbs =>
      s ← hashes_step spec entries child_counts index key value hb s;
      hashes_loop spec entries child_counts rest' hbs (S index) s
  | _, _ => Ok s
  end.

Definition chunk_ranges_from_independent_hashes (config : Config.Config) (level : Z)
    (entries : list (bytes * bytes)) (child_counts : option (list Z)) (hash_boundaries : list bool)
    : outcome Error (list range) :=
  Boundary.debug_assert (length entries =? length hash_boundaries)%nat ≫= λ _,
  let f := Config.format config in
  sizer ← Sizer.EncodedNodeSizer_new f (level =? 0) level;
  s ← hashes_loop (chunking f) entries child_counts entries hash_boundaries 0
        {| hs_ranges := []; hs_start := 0; hs_sizer := sizer |};
  Ok (close_ranges (hs_ranges s) (hs_start s) (length entries)).

Definition boundary_and_upper (detector : Boundary.BoundaryDetector) (e : bytes * bytes)
    : outcome Error (bool * Z) :=
  boundary ← Boundary.independent_hash_boundary detector e.1 e.2;
  boundary ← expect "independent boundary support was checked" boundary;
  Ok (boundary,
      saturating_add u64_max (saturating_add u64_max (len e.1) (len e.2)) 64).

Definition parallel_ranges (config : Config.Config) (level : Z) (entries : list (bytes * bytes))
    (child_counts : option (list Z)) (detector : Boundary.BoundaryDetector)
    : outcome Error (list range) :=
  bs ← mapM (boundary_and_upper detector) entries;
  let max_upper_bytes := foldr Z.max 0 (snd <$> bs) in
  let f := Config.format config in
  let spec := chunking f in
  sizer ← Sizer.EncodedNodeSizer_new f (level =? 0) level;
  if saturating_add u64_max (Sizer.sz_size sizer)
       (saturating_mul u64_max max_upper_bytes (max spec)) <=? hard_max_node_bytes spec
  then Ok (chunk_ranges_from_independent_counts spec bs)
  else chunk_ranges_from_independent_hashes config level entries child_counts (fst <$> bs).

Definition chunk_ranges_for_entries_impl (config : Config.Config) (level : Z)
    (entries : list (bytes * bytes)) (child_counts : option (list Z)) (parallel_hashing : bool)
    : outcome Error (list range) :=
  let f := Config.format config in
  let counts_ok :=
    if level =? 0 then bool_decide (child_counts = None)
    else match child_counts with
         | None => false
         | Some counts => (length counts =? length entries)%nat
         end in
  if negb counts_ok then Err InvalidNode
  else
    detector ← Boundary.BoundaryDetector_new (chunking f) level;
    if parallel_hashing && Boundary.supports_independent_hashing detector
    then parallel_ranges config level entries child_counts detector
    else
      sizer ← Sizer.EncodedNodeSizer_new f (level =? 0) level;
      s ← serial_loop (hard_max_node_bytes (chunking f)) entries child_counts entries 0
            {| cs_ranges := []; cs_start := 0; cs_detector := detector; cs_sizer := sizer |};
      Ok (close_ranges (cs_ranges s) (cs_start s) (length entries)).

Definition chunk_ranges_for_entries_parallel (config : Config.Config) (level : Z)
    (entries : list (bytes * bytes)) (child_counts : option (list Z)) : outcome Error (list range) :=
  if len entries <? PARALLEL_BOUNDARY_HASH_MIN_ENTRIES
  then chunk_ranges_for_entries_impl config level entries child_counts false
  else chunk_ranges_for_entries_impl config level entries child_counts true.

End hashes.
End Chunks.
