(* ===== verification/ChunkSpec.v ===== *)
(** * The chunks of a level

    One specification of how the ordered entries of a level are cut into nodes,
    and the proof that the serial and the parallel chunking routines of
    src/prolly/builder.rs compute it. *)

From Stdlib Require Import ZArith Lia Strings.Byte.
From stdpp Require Import base tactics numbers list strings option.
From S2P Require Import Prelude Cursor Types Format Boundary Node Sizer Chunks.
Import Format Node.

Local Open Scope Z_scope.

Module ChunkSpec.

(** ** Upper bounds on sizes *)
Definition weight (es : list node_entry) : Z :=
  foldr (λ e n, len e.1.1 + len e.1.2 + 64 + n) 0 es.

Lemma weight_app a b : weight (a ++ b) = weight a + weight b.
Proof. unfold weight. induction a as [|e a IH]; cbn; lia. Qed.

Lemma weight_nonneg es : 0 ≤ weight es.
Proof. induction es as [|e es IH]; cbn; [lia|]. pose proof (len_nonneg e.1.1). pose proof (len_nonneg e.1.2). fold (weight es). lia. Qed.

Lemma weight_len es : 64 * len es ≤ weight es.
Proof.
  induction es as [|e es IH]; [done|]. rewrite len_cons. cbn. fold (weight es).
  pose proof (len_nonneg e.1.1). pose proof (len_nonneg e.1.2). lia.
Qed.

Lemma weight_payload es : len (payload_of es) ≤ weight es.
Proof.
  induction es as [|[[k v] c] es IH]; [done|]. rewrite payload_cons, !len_app. cbn. fold (weight es). lia.
Qed.

Lemma varint_len_63 v : 0 ≤ v < 2 ^ 63 → varint_len v ≤ 9.
Proof.
  intros Hv. transitivity (varint_len (2 ^ 63 - 1)); [apply Sizer.varint_len_mono; lia|].
  vm_compute. discriminate.
Qed.
Lemma varint_len_64 v : 0 ≤ v ≤ u64_max → varint_len v ≤ 10.
Proof.
  intros Hv. transitivity (varint_len u64_max); [apply Sizer.varint_len_mono; lia|].
  vm_compute. discriminate.
Qed.

Lemma growth_bounds f lf es e :
  has_codec f → entry_wf lf e → weight (es ++ [e]) ≤ isize_max →
  2 ≤ Sizer.growth f lf es e ≤ len e.1.1 + len e.1.2 + 55.
Proof.
  destruct e as [[k v] c]. intros Hc (Hk & Hv & Hcnt) Hw. cbn [fst snd].
  rewrite weight_app in Hw. cbn [weight foldr fst snd] in Hw.
  pose proof (weight_payload es) as Hp. pose proof (len_nonneg (payload_of es)).
  pose proof (len_nonneg k). pose proof (len_nonneg v). unfold isize_max in *.
  assert (0 ≤ len (count_bytes lf c) ≤ 10) as Hcb.
  { rewrite Sizer.count_bytes_len. unfold Sizer.count_opt. destruct lf; cbn [Sizer.child_count_len]; [lia|].
    specialize (Hcnt eq_refl). pose proof (varint_len_64 c ltac:(lia)). pose proof (Sizer.varint_len_pos c). lia. }
  pose proof Sizer.varint_len_pos as Hvp.
  unfold Sizer.growth, layout_bytes, has_codec in *. destruct (node_layout f); [| | |done].
  - rewrite Sizer.encode_prefix_snoc, len_app, Z.add_simpl_l. cbn [prefix_bytes].
    set (prev := default [] _). destruct (common_prefix_len_spec prev k) as (? & ? & _).
    set (n := common_prefix_len prev k) in *.
    assert (len (drop (Z.to_nat n) k) = len k - n) as Hd by (rewrite len_drop; lia).
    rewrite !len_app, Hd, <- !varint_len_spec.
    pose proof (Hvp n). pose proof (Hvp (len k - n)). pose proof (Hvp (len v)).
    pose proof (varint_len_63 n ltac:(lia)). pose proof (varint_len_63 (len k - n) ltac:(lia)).
    pose proof (varint_len_63 (len v) ltac:(lia)). lia.
  - rewrite Sizer.encode_plain_snoc, len_app, Z.add_simpl_l. cbn [plain_bytes].
    rewrite !len_app, <- !varint_len_spec. pose proof (Hvp (len k)). pose proof (Hvp (len v)).
    pose proof (varint_len_63 (len k) ltac:(lia)). pose proof (varint_len_63 (len v) ltac:(lia)). lia.
  - rewrite Sizer.table_bytes_snoc, Sizer.payload_snoc. cbn [table_entry_bytes fst snd].
    rewrite !len_app, <- !varint_len_spec, Z.add_0_l. set (p := len (payload_of es)) in *.
    pose proof (weight_nonneg es).
    pose proof (Sizer.varint_len_mono p (p + (len k + len v)) ltac:(lia)).
    pose proof (Hvp p). pose proof (Hvp (len k)). pose proof (Hvp (p + len k)). pose proof (Hvp (len v)).
    pose proof (varint_len_63 p ltac:(lia)). pose proof (varint_len_63 (len k) ltac:(lia)).
    pose proof (varint_len_63 (p + len k) ltac:(lia)). pose proof (varint_len_63 (len v) ltac:(lia)).
    pose proof (varint_len_63 (p + (len k + len v)) ltac:(lia)). lia.
Qed.

(** The encoded node grows with every entry, by at most the payload plus 64. *)
Lemma node_size_step f lf lv es e :
  has_codec f → entry_wf lf e → weight (es ++ [e]) ≤ isize_max →
  Sizer.node_size f lf lv es + 2 ≤ Sizer.node_size f lf lv (es ++ [e])
    ≤ Sizer.node_size f lf lv es + len e.1.1 + len e.1.2 + 64.
Proof.
  intros Hc He Hw. pose proof (growth_bounds f lf es e Hc He Hw) as Hg.
  pose proof (weight_len (es ++ [e])). rewrite len_app in *. change (len [e]) with 1 in *.
  pose proof (len_nonneg es). unfold isize_max in *.
  pose proof (Sizer.varint_len_mono (len es) (len es + 1) ltac:(lia)).
  pose proof (Sizer.varint_len_pos (len es)). pose proof (varint_len_63 (len es + 1) ltac:(lia)).
  rewrite Sizer.node_size_snoc. lia.
Qed.

Lemma node_size_upper f lf lv es :
  has_codec f → Forall (entry_wf lf) es → weight es ≤ isize_max →
  Sizer.node_size f lf lv es ≤ Sizer.node_size f lf lv [] + weight es.
Proof.
  intros Hc. induction es as [|e es IH] using rev_ind; intros He Hw; [cbn; lia|].
  apply Forall_app in He as [Hes He]. apply Forall_cons_1 in He as [He _].
  pose proof (node_size_step f lf lv es e Hc He Hw). rewrite weight_app in *.
  pose proof (weight_nonneg [e]). specialize (IH Hes ltac:(lia)). cbn [weight foldr] in *. lia.
Qed.

(** ** Specification *)
Section spec.
Context `{Hok : HashesOk} (f : TreeFormat) (lv : Z).

Abbreviation lf := (lv =? 0).
Abbreviation hard := (hard_max_node_bytes (chunking f)).
Abbreviation size := (Sizer.node_size f (lv =? 0) lv).
Definition level_spec : ChunkingSpec := Boundary.raise_min (chunking f) lv.
Definition level_hash_seed : Z := Boundary.level_seed (chunking f) lv.

(** What the detector is told about the entries of a chunk. *)
Definition observed_entry (cur : list node_entry) (e : node_entry) : Boundary.entry :=
  (e.1.1, e.1.2, size (cur ++ [e]) - size cur).
Fixpoint observed_from (cur rest : list node_entry) : list Boundary.entry :=
  match rest with
  | [] => []
  | e :: rest' => observed_entry cur e :: observed_from (cur ++ [e]) rest'
  end.
Definition observed (cur : list node_entry) : list Boundary.entry := observed_from [] cur.

Definition soft_cut (cur : list node_entry) (e : node_entry) : outcome Error bool :=
  Boundary.cut_spec level_spec level_hash_seed (observed cur) (observed_entry cur e).

(** Adding one entry to the chunk [cur]: the chunks it closes and the open one. *)
Definition place (cur : list node_entry) (e : node_entry)
    : outcome Error (list (list node_entry) * list node_entry) :=
  let forced := negb (bool_decide (cur = [])) && (hard <? size (cur ++ [e])) in
  let closed := if forced then [cur] else [] in
  let cur := if forced then [] else cur in
  if hard <? size (cur ++ [e]) then Err (EntryTooLarge (size (cur ++ [e])) hard)
  else
    b ← soft_cut cur e;
    Ok (if b : bool then (closed ++ [cur ++ [e]], []) else (closed, cur ++ [e])).

Fixpoint chunk_from (cur es : list node_entry) : outcome Error (list (list node_entry)) :=
  match es with
  | [] => Ok (if bool_decide (cur = []) then [] else [cur])
  | e :: es' =>
      '(closed, cur) ← place cur e;
      rest ← chunk_from cur es';
      Ok (closed ++ rest)
  end.

Definition level_chunks (es : list node_entry) : outcome Error (list (list node_entry)) :=
  chunk_from [] es.

(** The ranges of consecutive chunks. *)
Fixpoint ranges_from (start : nat) (chunks : list (list node_entry)) : list Chunks.range :=
  match chunks with
  | [] => []
  | c :: chunks' =>
      (start, (start + length c - 1)%nat) :: ranges_from (start + length c)%nat chunks'
  end.

Lemma ranges_from_app start a b :
  ranges_from start (a ++ b) = ranges_from start a ++ ranges_from (start + length (concat a)) b.
Proof.
  revert start; induction a as [|c a IH]; intros start; cbn; [by rewrite Nat.add_0_r|].
  rewrite IH, length_app. by rewrite Nat.add_assoc.
Qed.

Lemma observed_snoc cur e : observed (cur ++ [e]) = observed cur ++ [observed_entry cur e].
Proof.
  unfold observed. assert (∀ done, observed_from done (cur ++ [e])
    = observed_from done cur ++ [observed_entry (done ++ cur) e]) as Hsnoc; [|by rewrite Hsnoc].
  induction cur as [|x cur IH]; intros done; cbn; [by rewrite app_nil_r|].
  by rewrite IH, <- app_assoc.
Qed.

(** Inputs that fit the address space, with room for the buffer of the encoder. *)
Definition level_fits (es : list node_entry) : Prop :=
  Forall (entry_wf lf) es ∧ size [] + weight es + 128 ≤ isize_max.

Lemma level_fits_app a b : level_fits (a ++ b) → level_fits a ∧ level_fits b.
Proof.
  intros [Hf Hw]. apply Forall_app in Hf as [Ha Hb]. rewrite weight_app in Hw.
  pose proof (weight_nonneg a). pose proof (weight_nonneg b). unfold level_fits. split; split; done || lia.
Qed.

(** ** The serial routine computes the specification *)
Hypothesis Hwf : TreeFormat_wf f.
Hypothesis Hvalid : validate f = Ok tt.
Hypothesis Hcodec : has_codec f.
Context (es : list node_entry) (Hfits : level_fits es).

Abbreviation entries := (fst <$> es).
Abbreviation child_counts := (if lv =? 0 then None else Some (snd <$> es)).

(** Entries already placed, split at the start of the open chunk. *)
Definition at_split (pre cur rest : list node_entry) : Prop := es = pre ++ cur ++ rest.

Lemma split_fits pre cur rest : at_split pre cur rest → level_fits cur.
Proof. intros Hes. rewrite Hes in Hfits. by apply level_fits_app in Hfits as [_ [? _]%level_fits_app]. Qed.

Lemma count_at_spec pre cur e rest :
  at_split pre cur (e :: rest) →
  Chunks.count_at child_counts (length pre + length cur) = Ok (Sizer.count_opt lf e.2).
Proof.
  intros Hes. unfold Chunks.count_at, Sizer.count_opt. destruct (lv =? 0); [done|].
  rewrite Hes, list_lookup_fmap, app_assoc, lookup_app_r by (rewrite length_app; lia).
  rewrite length_app, Nat.sub_diag. done.
Qed.

Lemma previous_at_spec pre cur rest :
  at_split pre cur rest →
  Chunks.previous_at entries (length pre) (length pre + length cur) = Sizer.prev_key cur.
Proof.
  intros Hes. unfold Chunks.previous_at, Sizer.prev_key.
  destruct cur as [|x cur _] using rev_ind.
  { cbn [length]. rewrite Nat.add_0_r, Nat.ltb_irrefl. done. }
  rewrite reverse_snoc, length_app. cbn [length].
  destruct (Nat.ltb_spec (length pre) (length pre + (length cur + 1))); [|lia].
  rewrite Hes, list_lookup_fmap, <- app_assoc, app_assoc, lookup_app_r by (rewrite length_app; lia).
  rewrite length_app.
  by replace (length pre + (length cur + 1) - 1 - (length pre + length cur))%nat with 0%nat by lia.
Qed.

(** The state of a sizer in the middle of a chunk. *)
Definition sizer_at (s : Sizer.EncodedNodeSizer) (cur : list node_entry) : Prop :=
  Sizer.sized s cur ∧ Sizer.sz_format s = f ∧ Sizer.sz_leaf s = lf ∧ Sizer.sz_level s = lv.

Lemma fits_sizes cur e :
  level_fits (cur ++ [e]) →
  entry_wf lf e ∧ len cur < u64_max ∧ size (cur ++ [e]) ≤ isize_max ∧
  len (payload_of (cur ++ [e])) ≤ isize_max ∧ size cur + 2 ≤ size (cur ++ [e]).
Proof.
  intros [Hf Hw]. pose proof (Forall_app (entry_wf lf) cur [e]) as Happ.
  apply Forall_app in Hf as Hf'. destruct Hf' as [Hcur He]. apply Forall_cons_1 in He as [He _].
  pose proof (Sizer.header_len_nonneg f lf lv 0) as Hh.
  assert (4 ≤ size []) by (unfold Sizer.node_size; change (len (@nil node_entry)) with 0;
    pose proof (len_nonneg (layout_bytes (node_layout f) lf [])); lia).
  pose proof (node_size_upper f lf lv (cur ++ [e]) Hcodec Hf ltac:(lia)).
  pose proof (node_size_step f lf lv cur e Hcodec He ltac:(lia)).
  pose proof (weight_payload (cur ++ [e])). pose proof (weight_len (cur ++ [e])).
  rewrite len_app in *. change (len [e]) with 1 in *. pose proof (len_nonneg cur).
  unfold isize_max, u64_max in *. split; [done|]. repeat split; lia.
Qed.

Lemma size_after_at s cur e :
  sizer_at s cur → level_fits (cur ++ [e]) →
  Sizer.size_after s (Sizer.prev_key cur) e.1.1 e.1.2 (Sizer.count_opt lf e.2)
    = Ok (size (cur ++ [e])).
Proof.
  intros (Hs & Hf & Hl & Hv) Hfit. destruct e as [[k v] c]. cbn [fst snd].
  destruct (fits_sizes cur (k, v, c) Hfit) as ((_ & _ & Hcnt) & Hlen & Hsz & Hp & _).
  pose proof (Sizer.size_after_ok s cur k v c Hs) as Hafter. cbn zeta in Hafter.
  rewrite Hf, Hl, Hv in Hafter. apply Hafter; unfold isize_max, u64_max in *; [|lia..].
  intros Hleaf. specialize (Hcnt Hleaf). cbn. lia.
Qed.

Lemma push_sized_at s cur e :
  sizer_at s cur → level_fits (cur ++ [e]) →
  ∃ s', Sizer.push_sized s e.1.1 e.1.2 (size (cur ++ [e])) = Ok s' ∧ sizer_at s' (cur ++ [e]).
Proof.
  intros (Hs & Hf & Hl & Hv) Hfit. destruct e as [[k v] c]. cbn [fst snd].
  destruct (fits_sizes cur (k, v, c) Hfit) as (_ & Hlen & Hsz & Hp & _).
  unfold isize_max in *.
  destruct (Sizer.push_sized_ok s cur k v c Hs Hlen) as (s' & Hpush & Hs' & Hf' & Hl' & Hv');
    [unfold u64_max; lia|].
  rewrite Hf, Hl, Hv in Hpush. exists s'. split; [done|]. split; [done|]. split; [congruence|]. split; congruence.
Qed.

Lemma reset_at s cur : sizer_at s cur → sizer_at (Sizer.reset s) [].
Proof. intros (Hs & Hf & Hl & Hv). split; [by eapply Sizer.reset_ok|done]. Qed.

(** The state of a detector in the middle of a chunk. *)
Definition detector_at (d : Boundary.BoundaryDetector) (cur : list node_entry) : Prop :=
  Boundary.represents d (observed cur) ∧ Boundary.spec d = level_spec ∧
  Boundary.seed d = level_hash_seed.

Lemma hard_level_spec : hard_max_node_bytes level_spec = hard.
Proof. unfold level_spec, Boundary.raise_min. by destruct (_ && _). Qed.

Lemma reset_detector_at d cur : detector_at d cur → detector_at (Boundary.reset d) [].
Proof. intros (Hd & Hs & Hsd). split; [by eapply Boundary.represents_reset|done]. Qed.

Lemma observe_at d cur e :
  detector_at d cur → level_fits (cur ++ [e]) → size (cur ++ [e]) ≤ hard →
  ∃ b d', Boundary.observe d e.1.1 e.1.2 (size (cur ++ [e]) - size cur) = Ok (b, d') ∧
    soft_cut cur e = Ok b ∧ detector_at d' (if b then [] else cur ++ [e]).
Proof.
  intros (Hd & Hs & Hsd) Hfit Hsize.
  destruct (fits_sizes cur e Hfit) as (_ & _ & _ & _ & Hgrow).
  assert (0 < size cur) as Hpos.
  { unfold Sizer.node_size. pose proof (Sizer.header_len_nonneg f lf lv (len cur)).
    pose proof (len_nonneg (layout_bytes (node_layout f) lf cur)). lia. }
  pose proof (Boundary.observe_spec d (observed cur) e.1.1 e.1.2 (size (cur ++ [e]) - size cur)
    ltac:(lia) Hd) as Hobs.
  rewrite Hs, Hsd, hard_level_spec in Hobs.
  destruct (Z.ltb_spec hard (size (cur ++ [e]) - size cur)); [lia|]. rewrite andb_false_r in Hobs.
  destruct Hobs as (b & d' & Ho & Hcut & Hd' & Hs' & Hsd'). exists b, d'.
  split; [done|]. split; [done|]. split; [|by rewrite Hs', Hsd'].
  by destruct b; [|rewrite observed_snoc].
Qed.

Record serial_inv (s : Chunks.ChunkState) (pre cur : list node_entry) : Prop := {
  si_start : Chunks.cs_start s = length pre;
  si_detector : detector_at (Chunks.cs_detector s) cur;
  si_sizer : sizer_at (Chunks.cs_sizer s) cur;
}.

(** The chunk that receives [e], after a forced cut. *)
Definition forced (cur : list node_entry) (e : node_entry) : bool :=
  negb (bool_decide (cur = [])) && (hard <? size (cur ++ [e])).
Definition after_force (cur : list node_entry) (e : node_entry) : list node_entry :=
  if forced cur e then [] else cur.
Definition closed_by_force (cur : list node_entry) (e : node_entry) : list (list node_entry) :=
  if forced cur e then [cur] else [].

Lemma nonempty_test (pre cur : list node_entry) :
  (length pre <? length pre + length cur)%nat = negb (bool_decide (cur = [])).
Proof.
  destruct cur as [|x cur]; cbn [length]; [by rewrite Nat.add_0_r, Nat.ltb_irrefl|].
  rewrite bool_decide_eq_false_2 by done. apply Nat.ltb_lt. lia.
Qed.

Lemma force_cut_spec s pre cur e rest :
  at_split pre cur (e :: rest) → serial_inv s pre cur →
  ∃ s', Chunks.force_cut hard (length pre + length cur) (Sizer.prev_key cur) e.1.1 e.1.2
          (Sizer.count_opt lf e.2) s = Ok (size (after_force cur e ++ [e]), s') ∧
    serial_inv s' (pre ++ concat (closed_by_force cur e)) (after_force cur e) ∧
    Chunks.cs_ranges s' = Chunks.cs_ranges s ++ ranges_from (length pre) (closed_by_force cur e).
Proof.
  intros Hes [Hstart Hd Hz].
  assert (level_fits (cur ++ [e])) as Hfit
    by (apply (split_fits pre _ rest); unfold at_split; by rewrite <- app_assoc).
  unfold Chunks.force_cut. rewrite (size_after_at _ cur e Hz Hfit). cbn [mbind outcome_bind].
  rewrite Hstart, nonempty_test. unfold after_force, closed_by_force. fold (forced cur e).
  destruct (forced cur e) eqn:Hforced.
  - change (@None bytes) with (Sizer.prev_key []).
    rewrite (size_after_at _ [] e (reset_at _ _ Hz)) by (by apply level_fits_app in Hfit as [_ ?]).
    cbn [mbind outcome_bind]. eexists; split; [done|]. split.
    + constructor; cbn [Chunks.cs_start Chunks.cs_detector Chunks.cs_sizer].
      * cbn [concat]. by rewrite app_nil_r, length_app.
      * by eapply reset_detector_at.
      * by eapply reset_at.
    + done.
  - exists s. split; [done|]. cbn [concat ranges_from]. rewrite !app_nil_r. by split.
Qed.

Lemma serial_step_spec s pre cur e rest :
  at_split pre cur (e :: rest) → serial_inv s pre cur →
  match place cur e with
  | Ok (closed, cur') =>
      ∃ s', Chunks.serial_step hard entries child_counts (length pre + length cur) e.1.1 e.1.2 s = Ok s' ∧
        serial_inv s' (pre ++ concat closed) cur' ∧ concat closed ++ cur' = cur ++ [e] ∧
        Chunks.cs_ranges s' = Chunks.cs_ranges s ++ ranges_from (length pre) closed
  | Err x => Chunks.serial_step hard entries child_counts (length pre + length cur) e.1.1 e.1.2 s = Err x
  | Panic _ => False
  end.
Proof.
  intros Hes Hinv. unfold Chunks.serial_step.
  rewrite (count_at_spec pre cur e rest Hes). cbn [mbind outcome_bind].
  rewrite (si_start _ _ _ Hinv), (previous_at_spec pre cur (e :: rest) Hes).
  destruct (force_cut_spec s pre cur e rest Hes Hinv) as (s1 & -> & Hinv1 & Hr1).
  cbn [mbind outcome_bind].
  assert (level_fits (after_force cur e ++ [e])) as Hfit.
  { assert (level_fits (cur ++ [e])) as Hfit0
      by (apply (split_fits pre _ rest); unfold at_split; by rewrite <- app_assoc).
    unfold after_force. by destruct (forced cur e); [apply level_fits_app in Hfit0 as [_ ?]|]. }
  assert (concat (closed_by_force cur e) ++ after_force cur e = cur) as Hcat.
  { unfold closed_by_force, after_force. destruct (forced cur e); cbn; by rewrite ?app_nil_r. }
  unfold place. fold (forced cur e). fold (closed_by_force cur e) (after_force cur e).
  set (closed := closed_by_force cur e) in *. set (cur1 := after_force cur e) in *.
  destruct (Z.ltb_spec hard (size (cur1 ++ [e]))) as [Hbig|Hsmall]; [done|].
  destruct Hinv1 as [Hstart1 Hd1 Hz1].
  destruct (fits_sizes cur1 e Hfit) as (_ & _ & _ & _ & Hgrow).
  rewrite (Sizer.sized_size _ _ (proj1 Hz1)).
  destruct Hz1 as (Hz1 & Hf & Hl & Hv). rewrite Hf, Hl, Hv. unfold saturating_sub. rewrite Z.max_r by lia.
  destruct (push_sized_at (Chunks.cs_sizer s1) cur1 e) as (z2 & -> & Hz2); [by split|done|].
  cbn [mbind outcome_bind].
  destruct (observe_at _ cur1 e Hd1 Hfit Hsmall) as (b & d2 & -> & -> & Hd2). cbn [mbind outcome_bind].
  destruct b; (eexists; split; [done|]).
  - split; [|split].
    + constructor; cbn [Chunks.cs_start Chunks.cs_detector Chunks.cs_sizer];
        [|exact Hd2|exact (reset_at _ _ Hz2)].
      rewrite concat_app, !length_app. cbn [concat]. rewrite <- Hcat at 1.
      rewrite app_nil_r, !length_app. cbn [length]. lia.
    + rewrite concat_app. cbn [concat]. rewrite !app_nil_r, app_assoc, Hcat. done.
    + cbn [Chunks.cs_ranges]. rewrite Hr1, ranges_from_app, <- app_assoc. do 2 f_equal.
      cbn [ranges_from]. rewrite Hstart1, length_app, length_app. cbn [length]. do 2 f_equal.
      rewrite <- Hcat, length_app. lia.
  - split; [|split]; [by constructor| |done]. by rewrite app_assoc, Hcat.
Qed.

Lemma serial_loop_spec rest s pre cur :
  at_split pre cur rest → serial_inv s pre cur →
  match chunk_from cur rest with
  | Ok chunks =>
      ∃ s', Chunks.serial_loop hard entries child_counts (fst <$> rest) (length pre + length cur) s = Ok s' ∧
        Chunks.close_ranges (Chunks.cs_ranges s') (Chunks.cs_start s') (length es)
          = Chunks.cs_ranges s ++ ranges_from (length pre) chunks
  | Err x => Chunks.serial_loop hard entries child_counts (fst <$> rest) (length pre + length cur) s = Err x
  | Panic _ => False
  end.
Proof.
  revert s pre cur; induction rest as [|e rest IH]; intros s pre cur Hes Hinv; cbn [chunk_from].
  { exists s. split; [done|]. unfold Chunks.close_ranges. rewrite (si_start _ _ _ Hinv), Hes.
    rewrite app_nil_r, length_app, nonempty_test. case_bool_decide; cbn [negb ranges_from]; [by rewrite app_nil_r|done]. }
  cbn [fmap list_fmap Chunks.serial_loop]. destruct e as [[k v] c]. cbn [fst].
  pose proof (serial_step_spec s pre cur (k, v, c) rest Hes Hinv) as Hstep. cbn [fst snd] in Hstep.
  destruct (place cur (k, v, c)) as [[closed cur']|x|]; [|by rewrite Hstep|done].
  destruct Hstep as (s' & -> & Hinv' & Hcat & Hranges). cbn [mbind outcome_bind].
  assert (at_split (pre ++ concat closed) cur' rest) as Hes'.
  { unfold at_split in *. rewrite Hes, <- app_assoc, (app_assoc (concat closed)), Hcat. by rewrite <- app_assoc. }
  specialize (IH s' _ cur' Hes' Hinv').
  replace (S (length pre + length cur)) with (length (pre ++ concat closed) + length cur')%nat.
  2: { apply (f_equal length) in Hcat. rewrite !length_app in Hcat. cbn in Hcat. rewrite length_app. lia. }
  destruct (chunk_from cur' rest) as [chunks|x|]; cbn [mbind outcome_bind]; [|done|done].
  destruct IH as (s'' & -> & Hclose). exists s''. split; [done|].
  by rewrite Hclose, Hranges, ranges_from_app, length_app, <- app_assoc.
Qed.

Lemma empty_size_fits : size [] ≤ isize_max.
Proof. destruct Hfits as [_ Hw]. pose proof (weight_nonneg es). lia. Qed.

Lemma new_sizer_at : ∃ z, Sizer.EncodedNodeSizer_new f lf lv = Ok z ∧ sizer_at z [].
Proof.
  pose proof empty_size_fits. unfold isize_max in *.
  destruct (Sizer.EncodedNodeSizer_new_ok f lf lv Hvalid Hcodec) as (z & Hz & Hs & Hf & Hl & Hv);
    [unfold u64_max; lia|]. exists z. split; [done|]. by split.
Qed.

Lemma validate_chunking : ChunkingSpec_validate (chunking f) = Ok tt.
Proof. pose proof Hvalid as Hv. unfold validate in Hv. by apply outcome_bind_Ok in Hv as ([] & ? & _). Qed.

Lemma new_detector_at : ∃ d, Boundary.BoundaryDetector_new (chunking f) lv = Ok d ∧ detector_at d [].
Proof.
  destruct (Boundary.BoundaryDetector_new_spec (chunking f) lv (wf_chunking f Hwf) validate_chunking)
    as (d & Hd & Hrep & Hs & Hsd). exists d. split; [done|]. by split.
Qed.

Lemma counts_guard :
  (if lv =? 0 then bool_decide (child_counts = None)
   else match child_counts with
        | None => false
        | Some counts => (length counts =? length entries)%nat
        end) = true.
Proof.
  destruct (lv =? 0); [done|]. rewrite !length_fmap. apply Nat.eqb_refl.
Qed.

(** The serial routine returns the ranges of the specified chunks. *)
Lemma serial_ranges config :
  Config.format config = f →
  Chunks.chunk_ranges_for_entries_impl config lv entries child_counts false
    = ranges_from 0 <$> level_chunks es.
Proof.
  intros Hconfig. unfold Chunks.chunk_ranges_for_entries_impl. rewrite Hconfig, counts_guard. cbn [negb].
  destruct new_detector_at as (d & -> & Hd). cbn [mbind outcome_bind andb].
  destruct new_sizer_at as (z & -> & Hz). cbn [mbind outcome_bind].
  pose proof (serial_loop_spec es {| Chunks.cs_ranges := []; Chunks.cs_start := 0;
    Chunks.cs_detector := d; Chunks.cs_sizer := z |} [] [] eq_refl) as Hloop.
  change (length [] + length [])%nat with 0%nat in Hloop. unfold level_chunks. destruct (chunk_from [] es) as [chunks|x|].
  - destruct Hloop as (s & Hs & Hclose); [by constructor|]. rewrite Hs. cbn [mbind outcome_bind].
    by rewrite length_fmap, Hclose.
  - rewrite Hloop by (by constructor). done.
  - destruct Hloop. by constructor.
Qed.

(** ** The chunks partition the level *)
Lemma place_forced cur e :
  forced cur e = true → place cur e = (λ p, (cur :: p.1, p.2)) <$> place [] e.
Proof.
  intros Hforced. unfold place. fold (forced cur e). rewrite Hforced. cbn [app andb negb].
  rewrite (bool_decide_eq_true_2 ([] = [])) by done. cbn [negb andb app].
  destruct (hard <? size [e]); [done|]. by destruct (soft_cut [] e) as [[]| |].
Qed.

Lemma place_free cur e closed cur' :
  forced cur e = false → place cur e = Ok (closed, cur') →
  size (cur ++ [e]) ≤ hard ∧
  (closed = [] ∧ cur' = cur ++ [e] ∨ closed = [cur ++ [e]] ∧ cur' = []).
Proof.
  intros Hforced. unfold place. fold (forced cur e). rewrite Hforced.
  destruct (Z.ltb_spec hard (size (cur ++ [e]))) as [|Hsize]; [done|].
  destruct (soft_cut cur e) as [[]| |]; [..|done|done]; cbn [mbind outcome_bind app];
    intros [= <- <-]; auto.
Qed.

Lemma forced_nil e : forced [] e = false.
Proof. done. Qed.

(** A chunk may become a node. *)
Definition chunk_ok (c : list node_entry) : Prop := c ≠ [] ∧ size c ≤ hard.

Lemma place_ok cur e closed cur' :
  place cur e = Ok (closed, cur') → cur = [] ∨ chunk_ok cur →
  concat closed ++ cur' = cur ++ [e] ∧ Forall chunk_ok closed ∧ (cur' = [] ∨ chunk_ok cur').
Proof.
  intros Hplace Hcur.
  assert (∀ cur closed cur', forced cur e = false → place cur e = Ok (closed, cur') →
    concat closed ++ cur' = cur ++ [e] ∧ Forall chunk_ok closed ∧ (cur' = [] ∨ chunk_ok cur')) as Hfree.
  { clear. intros cur closed cur' Hfree Hplace.
    apply place_free in Hplace as [Hsize [[-> ->]|[-> ->]]]; [..|done]; cbn [concat app]; rewrite ?app_nil_r;
      (assert (chunk_ok (cur ++ [e])) by (split; [by destruct cur|done])); auto. }
  destruct (forced cur e) eqn:Hforced; [|by apply Hfree].
  rewrite place_forced in Hplace by done.
  destruct (place [] e) as [[closed0 cur0]| |] eqn:Hnil; [|done..]. injection Hplace as <- <-.
  destruct (Hfree [] closed0 cur0 (forced_nil e) Hnil) as (Hcat & Hclosed & Hopen). cbn [concat fst snd].
  rewrite <- app_assoc, Hcat. split; [done|]. split; [|done]. constructor; [|done].
  unfold forced in Hforced. apply andb_prop in Hforced as [Hne%negb_true_iff%bool_decide_eq_false _]. tauto.
Qed.

Lemma chunk_from_ok rest cur chunks :
  chunk_from cur rest = Ok chunks → cur = [] ∨ chunk_ok cur →
  concat chunks = cur ++ rest ∧ Forall chunk_ok chunks.
Proof.
  revert cur chunks; induction rest as [|e rest IH]; intros cur chunks Hfrom Hcur; cbn [chunk_from] in Hfrom.
  - injection Hfrom as <-. case_bool_decide as Hnil; [by subst|]. cbn [concat]. split; [done|].
    constructor; [tauto|done].
  - destruct (place cur e) as [[closed cur']| |] eqn:Hplace; [|done..].
    cbn [mbind outcome_bind] in Hfrom. destruct (chunk_from cur' rest) as [chunks'| |] eqn:Hrest; [|done..].
    injection Hfrom as <-. destruct (place_ok _ _ _ _ Hplace Hcur) as (Hcat & Hclosed & Hcur').
    destruct (IH _ _ Hrest Hcur') as [Hcat' Hchunks]. split; [|by apply Forall_app].
    by rewrite concat_app, Hcat', app_assoc, Hcat, <- app_assoc.
Qed.

Lemma detector_for cur : level_fits cur → ∃ d, detector_at d cur.
Proof.
  induction cur as [|e cur IH] using rev_ind; intros Hfit.
  { destruct new_detector_at as (d & _ & Hd). by exists d. }
  destruct (level_fits_app _ _ Hfit) as [Hcur _]. destruct (IH Hcur) as (d & Hd & Hs & Hsd).
  destruct (fits_sizes cur e Hfit) as (_ & _ & _ & _ & Hgrow).
  destruct (Boundary.represents_count d (observed cur) e.1.1 e.1.2 (size (cur ++ [e]) - size cur)
    ltac:(lia) Hd) as (d' & _ & Hd' & Hs' & Hsd' & _).
  exists d'. split; [by rewrite observed_snoc|]. by rewrite Hs', Hsd'.
Qed.

Lemma soft_cut_total cur e :
  level_fits (cur ++ [e]) → size (cur ++ [e]) ≤ hard → ∃ b, soft_cut cur e = Ok b.
Proof.
  intros Hfit Hsize. destruct (level_fits_app _ _ Hfit) as [Hcur _]. destruct (detector_for cur Hcur) as [d Hd].
  destruct (observe_at d cur e Hd Hfit Hsize) as (b & _ & _ & Hb & _). by exists b.
Qed.

(** The only failure is an entry that does not fit a node of its own. *)
Lemma place_total cur e :
  level_fits (cur ++ [e]) →
  (∃ p, place cur e = Ok p) ∨ hard < size [e] ∧ place cur e = Err (EntryTooLarge (size [e]) hard).
Proof.
  intros Hfit. destruct (level_fits_app _ _ Hfit) as [_ He].
  assert (∀ cur, level_fits (cur ++ [e]) → size (cur ++ [e]) ≤ hard → ∃ p, place cur e = Ok p) as Hfree.
  { clear cur Hfit. intros cur Hfit Hsize. destruct (soft_cut_total cur e Hfit Hsize) as [b Hb]. unfold place.
    destruct (Z.ltb_spec hard (size (cur ++ [e]))); [lia|]. rewrite andb_false_r.
    destruct (Z.ltb_spec hard (size (cur ++ [e]))); [lia|]. rewrite Hb. cbn. by eexists. }
  destruct (Z.le_gt_cases (size (cur ++ [e])) hard) as [|Hbig]; [left; by apply Hfree|].
  assert (place [] e = Err (EntryTooLarge (size [e]) hard) ∨ size [e] ≤ hard) as Hnil.
  { unfold place. cbn [app]. rewrite (bool_decide_eq_true_2 ([] = [])) by done. cbn [negb andb app].
    destruct (Z.ltb_spec hard (size [e])); auto. }
  destruct (Z.le_gt_cases (size [e]) hard) as [Hsmall|Hbig1].
  - destruct (Hfree [] He Hsmall) as [p Hp]. left. rewrite place_forced, Hp; [by eexists|].
    unfold forced. rewrite bool_decide_eq_false_2 by (intros ->; cbn [app] in *; lia).
    apply andb_true_intro. split; [done|by apply Z.ltb_lt].
  - right. split; [lia|]. destruct Hnil as [Hnil|]; [|lia]. destruct (forced cur e) eqn:Hforced.
    + by rewrite place_forced, Hnil.
    + unfold forced in Hforced. destruct cur; [done|]. rewrite bool_decide_eq_false_2 in Hforced by done.
      apply Z.ltb_ge in Hforced. lia.
Qed.

Lemma chunk_from_total rest cur :
  level_fits (cur ++ rest) → cur = [] ∨ chunk_ok cur →
  (∃ chunks, chunk_from cur rest = Ok chunks) ∨
  ∃ e, e ∈ rest ∧ hard < size [e] ∧ chunk_from cur rest = Err (EntryTooLarge (size [e]) hard).
Proof.
  revert cur; induction rest as [|e rest IH]; intros cur Hfit Hcur; cbn [chunk_from]; [left; by eexists|].
  rewrite cons_middle, app_assoc in Hfit. destruct (level_fits_app _ _ Hfit) as [Hfit1 _].
  destruct (place_total cur e Hfit1) as [[[closed cur'] Hp]|[Hbig Hp]]; rewrite Hp; cbn [mbind outcome_bind].
  - destruct (place_ok _ _ _ _ Hp Hcur) as (Hcat & _ & Hcur'). rewrite <- Hcat, <- app_assoc in Hfit.
    apply level_fits_app in Hfit as [_ Hfit].
    destruct (IH cur' Hfit Hcur') as [[chunks ->]|(x & Hx & Hbig & ->)]; cbn [mbind outcome_bind];
      [left; by eexists|right]. exists x. split; [by apply list_elem_of_further|done].
  - right. exists e. split; [apply list_elem_of_here|done].
Qed.

(** ** Resynchronisation *)
(** The first chunk extends the open one. *)
Lemma chunk_from_first rest cur chunks :
  chunk_from cur rest = Ok chunks → cur ≠ [] →
  ∃ c chunks', chunks = c :: chunks' ∧ (length cur ≤ length c)%nat.
Proof.
  revert cur chunks; induction rest as [|e rest IH]; intros cur chunks Hfrom Hne; cbn [chunk_from] in Hfrom.
  { rewrite bool_decide_eq_false_2 in Hfrom by done. injection Hfrom as <-. by exists cur, []. }
  destruct (place cur e) as [[closed cur']| |] eqn:Hplace; [|done..]. cbn [mbind outcome_bind] in Hfrom.
  destruct (chunk_from cur' rest) as [chunks'| |] eqn:Hrest; [|done..]. injection Hfrom as <-.
  destruct (forced cur e) eqn:Hforced.
  - rewrite place_forced in Hplace by done. destruct (place [] e) as [[closed0 cur0]| |]; [|done..].
    injection Hplace as <- <-. cbn. by eexists _, _.
  - apply place_free in Hplace as [_ [[-> ->]|[-> ->]]]; [| |done]; cbn [app].
    + destruct (IH _ _ Hrest) as (c & tl & -> & Hc); [by destruct cur|]. exists c, tl.
      split; [done|]. rewrite length_app in Hc. lia.
    + eexists _, _. split; [done|]. rewrite length_app. lia.
Qed.

(** An open chunk that ends before the next entry was closed by it. *)
Lemma chunk_from_forced e rest cur ca cb :
  chunk_from cur (e :: rest) = Ok (ca ++ cb) → concat ca = cur → cur ≠ [] → forced cur e = true.
Proof.
  intros Hfrom Hca Hne. destruct (forced cur e) eqn:Hforced; [done|exfalso]. cbn [chunk_from] in Hfrom.
  destruct (place cur e) as [[closed cur']| |] eqn:Hplace; [|done..]. cbn [mbind outcome_bind] in Hfrom.
  destruct (chunk_from cur' rest) as [chunks'| |] eqn:Hrest; [|done..]. injection Hfrom as Heq.
  destruct ca as [|c ca]; [by subst cur|].
  assert (length cur < length c)%nat as Hlt.
  { apply place_free in Hplace as [_ [[-> ->]|[-> ->]]]; [| |done]; cbn [app] in Heq.
    - destruct (chunk_from_first _ _ _ Hrest) as (c' & tl & -> & Hlen); [by destruct cur|].
      injection Heq as <- _. rewrite length_app in Hlen. cbn in Hlen. lia.
    - injection Heq as <- _. rewrite length_app. cbn. lia. }
  apply (f_equal length) in Hca. cbn [concat] in Hca. rewrite length_app in Hca. lia.
Qed.

(** A forced cut does not depend on what follows the entry that forced it. *)
Lemma chunk_from_cut e rest cur :
  forced cur e = true → chunk_from cur (e :: rest) = cons cur <$> chunk_from [] (e :: rest).
Proof.
  intros Hforced. cbn [chunk_from]. rewrite place_forced by done.
  destruct (place [] e) as [[closed0 cur0]| |]; [|done..]. cbn [fmap outcome_fmap mbind outcome_bind fst snd].
  by destruct (chunk_from cur0 rest).
Qed.

(** When the open chunk ends exactly here, chunking restarts with nothing open. *)
Lemma chunk_from_restart rest cur ca cb :
  chunk_from cur rest = Ok (ca ++ cb) → concat ca = cur → cur = [] ∨ chunk_ok cur →
  chunk_from cur [] = Ok ca ∧ chunk_from [] rest = Ok cb.
Proof.
  intros Hfrom Hca Hcur. destruct (chunk_from_ok _ _ _ Hfrom Hcur) as [_ [Hne _]%Forall_app].
  destruct ca as [|c ca]; [cbn in Hca; by subst cur|]. apply Forall_cons_1 in Hne as [[Hc _] Hca_ne].
  assert (cur ≠ []) as Hcur_ne by (subst cur; by destruct c).
  destruct rest as [|e rest].
  { cbn [chunk_from] in *. rewrite bool_decide_eq_false_2 in * by done. cbn [app] in Hfrom. injection Hfrom as -> Hnil.
    symmetry in Hnil. by apply app_nil in Hnil as [-> ->]. }
  pose proof (chunk_from_forced _ _ _ _ _ Hfrom Hca Hcur_ne) as Hforced. rewrite (chunk_from_cut e rest cur Hforced) in Hfrom.
  destruct (chunk_from [] (e :: rest)) as [chunks'| |]; [|done..]. cbn [fmap outcome_fmap app] in Hfrom.
  injection Hfrom as <- Htail. cbn [concat] in Hca.
  assert (ca = []) as ->.
  { apply (f_equal length) in Hca. rewrite length_app in Hca. destruct ca as [|x ca]; [done|].
    apply Forall_cons_1 in Hca_ne as [[Hx _] _]. destruct x; [done|]. cbn in Hca. lia. }
  cbn [app] in Htail. rewrite Htail. split; [|done]. cbn [chunk_from]. by rewrite bool_decide_eq_false_2.
Qed.

Lemma app_prefix_le {A} (a b c d : list (list A)) :
  a ++ b = c ++ d → Forall (λ x, x ≠ []) (c ++ d) → (length (concat a) ≤ length (concat c))%nat →
  ∃ c', c = a ++ c' ∧ b = c' ++ d.
Proof.
  revert c; induction a as [|x a IH]; intros c Heq Hne Hlen; [by exists c|].
  destruct c as [|y c].
  { exfalso. cbn [app] in Heq. rewrite <- Heq in Hne. apply Forall_cons_1 in Hne as [Hx _].
    cbn in Hlen. rewrite length_app in Hlen. destruct x; [done|]. cbn in Hlen. lia. }
  cbn [app] in *. injection Heq as -> Heq. apply Forall_cons_1 in Hne as [_ Hne]. cbn in Hlen. rewrite !length_app in Hlen.
  destruct (IH c Heq Hne ltac:(lia)) as (c' & -> & ->). by exists c'.
Qed.

(** Every boundary separates the two sides: each is chunked as if it were alone. *)
Lemma chunk_from_split a b cur ca cb :
  chunk_from cur (a ++ b) = Ok (ca ++ cb) → concat ca = cur ++ a → cur = [] ∨ chunk_ok cur →
  chunk_from cur a = Ok ca ∧ chunk_from [] b = Ok cb.
Proof.
  revert cur ca; induction a as [|e a IH]; intros cur ca Hfrom Hca Hcur.
  { rewrite app_nil_r in Hca. by eapply chunk_from_restart. }
  destruct (chunk_from_ok _ _ _ Hfrom Hcur) as [_ Hall]. cbn [app chunk_from] in *.
  destruct (place cur e) as [[closed cur']| |] eqn:Hplace; [|done..]. cbn [mbind outcome_bind] in *.
  destruct (chunk_from cur' (a ++ b)) as [r| |] eqn:Hrest; [|done..]. injection Hfrom as Heq.
  destruct (place_ok _ _ _ _ Hplace Hcur) as (Hcat & _ & Hcur').
  destruct (app_prefix_le closed r ca cb Heq) as (ca' & -> & ->).
  { eapply Forall_impl; [|exact Hall]. by intros c [? _]. }
  { apply (f_equal length) in Hcat, Hca. rewrite !length_app in *. cbn [length] in *. lia. }
  rewrite concat_app, cons_middle, (app_assoc cur), <- Hcat, <- app_assoc in Hca. apply app_inv_head in Hca.
  destruct (IH cur' ca' Hrest Hca Hcur') as [-> ?]. done.
Qed.

(** *** Entry-count chunking by hash threshold *)
Section threshold.
Context (factor : Z).
Hypothesis Hrule : rule (chunking f) = HashThreshold factor.
Hypothesis Hmeasure : measure (chunking f) = EntryCount.
Hypothesis Hlevel : lv = 0 ∨ 2 ≤ min (chunking f).
Hypothesis Hlv : 0 ≤ lv.

Lemma level_spec_eq : level_spec = chunking f.
Proof.
  unfold level_spec, Boundary.raise_min.
  destruct (Z.ltb_spec 0 lv), (Z.ltb_spec (min (chunking f)) 2); cbn; (done || lia).
Qed.

Definition hit (key value : bytes) : bool :=
  wrap 32 (Boundary.hash_entry level_hash_seed (input (chunking f)) key value) <=? u32_max / factor.

Lemma factor_pos : 0 < factor.
Proof.
  apply (Boundary.validate_factor (chunking f)); [by apply wf_chunking|apply validate_chunking|done].
Qed.

Lemma max_pos : 0 < max (chunking f).
Proof.
  pose proof validate_chunking as Hv.
  apply ChunkingSpec_validate_Ok in Hv as (? & ? & _); [lia|by apply wf_chunking].
Qed.

Lemma observed_sum cur :
  foldr (λ e n, Boundary.entry_size EncodedBytes e + n) 0 (observed cur) = size cur - size [].
Proof.
  induction cur as [|e cur IH] using rev_ind; [cbn; lia|].
  rewrite observed_snoc. rewrite foldr_app. cbn [foldr].
  assert (∀ l a, foldr (λ e n, Boundary.entry_size EncodedBytes e + n) a l
    = foldr (λ e n, Boundary.entry_size EncodedBytes e + n) 0 l + a) as Hshift.
  { intros l a. induction l as [|x l IHl]; cbn; [lia|]. rewrite IHl. lia. }
  rewrite Hshift, IH. unfold observed_entry. cbn [Boundary.entry_size]. lia.
Qed.

Lemma observed_length cur : len (observed cur) = len cur.
Proof.
  unfold observed. generalize (@nil node_entry) as before.
  induction cur as [|e cur IH]; intros before; [done|]. cbn [observed_from]. by rewrite !len_cons, IH.
Qed.

(** Below the byte limit the cut is decided by the count and the entry's hash. *)
Lemma soft_cut_threshold cur e :
  level_fits (cur ++ [e]) → size (cur ++ [e]) ≤ hard →
  soft_cut cur e = Ok ((max (chunking f) <=? len cur + 1)
                       || ((min (chunking f) <=? len cur + 1) && hit e.1.1 e.1.2)).
Proof.
  intros Hfit Hsize. unfold soft_cut, Boundary.cut_spec. rewrite level_spec_eq, Hmeasure, Hrule.
  rewrite <- observed_snoc, Boundary.chunk_size_entries, observed_length.
  assert (0 < size []) as Hpos.
  { unfold Sizer.node_size. pose proof (Sizer.header_len_nonneg f lf lv (len (@nil node_entry))).
    pose proof (len_nonneg (layout_bytes (node_layout f) lf [])). lia. }
  assert (Boundary.chunk_size EncodedBytes (observed (cur ++ [e])) < hard) as Hsum.
  { unfold Boundary.chunk_size. rewrite observed_sum. lia. }
  destruct (Z.leb_spec hard (Boundary.chunk_size EncodedBytes (observed (cur ++ [e])))); [lia|].
  cbn [orb]. destruct (fits_sizes cur e Hfit) as (_ & Hlen & _).
  rewrite len_app. change (len [e]) with 1. rewrite Z.min_r by lia.
  destruct (max (chunking f) <=? len cur + 1); [done|]. cbn [orb].
  destruct (Z.ltb_spec (len cur + 1) (min (chunking f))), (Z.leb_spec (min (chunking f)) (len cur + 1));
    try lia; done.
Qed.

(** A chunk that reaches the byte limit exactly is closed by the next entry. *)
Lemma chunk_from_full cur rest :
  cur ≠ [] → size cur = hard → level_fits (cur ++ rest) →
  chunk_from cur rest = cons cur <$> chunk_from [] rest.
Proof.
  intros Hne Hfull Hfit. destruct rest as [|e rest]; cbn [chunk_from].
  { by rewrite bool_decide_eq_false_2. }
  assert (level_fits (cur ++ [e])) as Hfit1.
  { rewrite cons_middle, app_assoc in Hfit. by apply level_fits_app in Hfit as [? _]. }
  destruct (fits_sizes cur e Hfit1) as (_ & _ & _ & _ & Hgrow).
  unfold place. rewrite (bool_decide_eq_false_2 (cur = [])), (bool_decide_eq_true_2 ([] = [])) by done.
  destruct (Z.ltb_spec hard (size (cur ++ [e]))); [|lia]. cbn [negb andb app].
  destruct (hard <? size [e]); [done|]. destruct (soft_cut [] e) as [b| |]; cbn [mbind outcome_bind]; [|done..].
  destruct b; cbn [mbind outcome_bind app].
  - by destruct (chunk_from [] rest).
  - by destruct (chunk_from [e] rest).
Qed.

Record hashes_inv (s : Chunks.HashState) (pre cur : list node_entry) : Prop := {
  hi_start : Chunks.hs_start s = length pre;
  hi_sizer : sizer_at (Chunks.hs_sizer s) cur;
}.

Lemma hashes_force_spec s pre cur e rest :
  at_split pre cur (e :: rest) → hashes_inv s pre cur →
  ∃ s', Chunks.hashes_force hard (length pre + length cur) (Sizer.prev_key cur) e.1.1 e.1.2
          (Sizer.count_opt lf e.2) s = Ok (size (after_force cur e ++ [e]), s') ∧
    hashes_inv s' (pre ++ concat (closed_by_force cur e)) (after_force cur e) ∧
    Chunks.hs_ranges s' = Chunks.hs_ranges s ++ ranges_from (length pre) (closed_by_force cur e).
Proof.
  intros Hes [Hstart Hz].
  assert (level_fits (cur ++ [e])) as Hfit
    by (apply (split_fits pre _ rest); unfold at_split; by rewrite <- app_assoc).
  unfold Chunks.hashes_force. rewrite (size_after_at _ cur e Hz Hfit). cbn [mbind outcome_bind].
  rewrite Hstart, nonempty_test. unfold after_force, closed_by_force. fold (forced cur e).
  destruct (forced cur e) eqn:Hforced.
  - change (@None bytes) with (Sizer.prev_key []).
    rewrite (size_after_at _ [] e (reset_at _ _ Hz)) by (by apply level_fits_app in Hfit as [_ ?]).
    cbn [mbind outcome_bind]. eexists; split; [done|]. split; [|done].
    constructor; cbn [Chunks.hs_start Chunks.hs_sizer]; [|by eapply reset_at].
    cbn [concat]. by rewrite app_nil_r, length_app.
  - exists s. split; [done|]. cbn [concat ranges_from]. rewrite !app_nil_r. by split.
Qed.

Lemma place_eq cur e :
  place cur e =
    (let cur1 := after_force cur e in
     if hard <? size (cur1 ++ [e]) then Err (EntryTooLarge (size (cur1 ++ [e])) hard)
     else soft_cut cur1 e ≫= λ b,
       Ok (if b : bool then (closed_by_force cur e ++ [cur1 ++ [e]], [])
           else (closed_by_force cur e, cur1 ++ [e]))).
Proof. done. Qed.

Lemma after_force_fits pre cur e rest :
  at_split pre cur (e :: rest) →
  level_fits (after_force cur e ++ [e]) ∧
  concat (closed_by_force cur e) ++ after_force cur e = cur.
Proof.
  intros Hes. assert (level_fits (cur ++ [e])) as Hfit
    by (apply (split_fits pre _ rest); unfold at_split; by rewrite <- app_assoc).
  unfold after_force, closed_by_force. destruct (forced cur e); cbn [concat]; rewrite ?app_nil_r; [|done].
  split; [by apply level_fits_app in Hfit as [_ ?]|done].
Qed.

(** One step agrees with [place], except that a chunk that fills the byte limit
    exactly is closed at once. *)
Lemma hashes_step_spec s pre cur e rest :
  at_split pre cur (e :: rest) → hashes_inv s pre cur →
  match place cur e with
  | Ok (closed, cur') =>
      ∃ s' closed2 cur2,
        Chunks.hashes_step (chunking f) entries child_counts (length pre + length cur) e.1.1 e.1.2
          (hit e.1.1 e.1.2) s = Ok s' ∧
        hashes_inv s' (pre ++ concat closed2) cur2 ∧ concat closed2 ++ cur2 = cur ++ [e] ∧
        Chunks.hs_ranges s' = Chunks.hs_ranges s ++ ranges_from (length pre) closed2 ∧
        (closed2 = closed ∧ cur2 = cur' ∨
         cur' ≠ [] ∧ size cur' = hard ∧ closed2 = closed ++ [cur'] ∧ cur2 = [])
  | Err x => Chunks.hashes_step (chunking f) entries child_counts (length pre + length cur) e.1.1 e.1.2
          (hit e.1.1 e.1.2) s = Err x
  | Panic _ => False
  end.
Proof.
  intros Hes Hinv. destruct (after_force_fits pre cur e rest Hes) as [Hfit Hcat].
  rewrite place_eq. unfold Chunks.hashes_step.
  rewrite (count_at_spec pre cur e rest Hes). cbn [mbind outcome_bind].
  rewrite (hi_start _ _ _ Hinv), (previous_at_spec pre cur (e :: rest) Hes).
  destruct (hashes_force_spec s pre cur e rest Hes Hinv) as (s1 & -> & [Hstart1 Hz1] & Hr1).
  cbn [mbind outcome_bind]. cbn zeta.
  set (closed := closed_by_force cur e) in *. set (cur1 := after_force cur e) in *.
  destruct (Z.ltb_spec hard (size (cur1 ++ [e]))) as [Hbig|Hsmall]; [done|].
  destruct (push_sized_at _ cur1 e Hz1 Hfit) as (z2 & -> & Hz2). cbn [mbind outcome_bind].
  rewrite (soft_cut_threshold cur1 e Hfit Hsmall). cbn [mbind outcome_bind].
  assert (Z.of_nat (length pre + length cur - Chunks.hs_start s1 + 1) = len cur1 + 1) as ->.
  { rewrite Hstart1, length_app. rewrite <- Hcat, length_app. unfold len. lia. }
  set (soft := (max (chunking f) <=? len cur1 + 1) || _).
  rewrite <- (orb_assoc (hard <=? _)). fold soft.
  assert (concat (closed ++ [cur1 ++ [e]]) = cur ++ [e]) as Hcat2
    by (rewrite concat_app; cbn [concat]; by rewrite app_nil_r, app_assoc, Hcat).
  assert (∀ z, sizer_at z [] →
    hashes_inv {| Chunks.hs_ranges := Chunks.hs_ranges s1 ++ [(Chunks.hs_start s1, (length pre + length cur)%nat)];
                  Chunks.hs_start := S (length pre + length cur); Chunks.hs_sizer := z |}
      (pre ++ concat (closed ++ [cur1 ++ [e]])) []) as Hclosed_inv.
  { intros z Hz. constructor; cbn [Chunks.hs_start Chunks.hs_sizer]; [|done].
    rewrite Hcat2, !length_app. cbn [length]. lia. }
  assert (Chunks.hs_ranges s1 ++ [(Chunks.hs_start s1, (length pre + length cur)%nat)]
    = Chunks.hs_ranges s ++ ranges_from (length pre) (closed ++ [cur1 ++ [e]])) as Hclosed_ranges.
  { rewrite Hr1, ranges_from_app, <- app_assoc. do 2 f_equal. cbn [ranges_from].
    rewrite Hstart1, !length_app. cbn [length]. do 2 f_equal. rewrite <- Hcat, length_app. lia. }
  destruct soft.
  - rewrite orb_true_r. eexists _, _, []. split; [done|]. split; [apply Hclosed_inv; by eapply reset_at|].
    split; [by rewrite app_nil_r|]. split; [done|]. by left.
  - rewrite orb_false_r. destruct (Z.leb_spec hard (size (cur1 ++ [e]))) as [Hfull|Hopen].
    + eexists _, _, []. split; [done|]. split; [apply Hclosed_inv; by eapply reset_at|].
      split; [by rewrite app_nil_r|]. split; [done|]. right.
      split; [by destruct cur1|]. split; [lia|done].
    + eexists _, closed, _. split; [done|]. split; [by constructor|].
      split; [by rewrite app_assoc, Hcat|]. split; [done|]. by left.
Qed.

Lemma hashes_loop_spec rest s pre cur :
  at_split pre cur rest → hashes_inv s pre cur →
  match chunk_from cur rest with
  | Ok chunks =>
      ∃ s', Chunks.hashes_loop (chunking f) entries child_counts (fst <$> rest)
              ((λ e, hit e.1.1 e.1.2) <$> rest) (length pre + length cur) s = Ok s' ∧
        Chunks.close_ranges (Chunks.hs_ranges s') (Chunks.hs_start s') (length es)
          = Chunks.hs_ranges s ++ ranges_from (length pre) chunks
  | Err x => Chunks.hashes_loop (chunking f) entries child_counts (fst <$> rest)
              ((λ e, hit e.1.1 e.1.2) <$> rest) (length pre + length cur) s = Err x
  | Panic _ => False
  end.
Proof.
  revert s pre cur; induction rest as [|[[k v] c] rest IH]; intros s pre cur Hes Hinv.
  { exists s. split; [done|]. unfold Chunks.close_ranges. rewrite (hi_start _ _ _ Hinv), Hes.
    rewrite app_nil_r, length_app, nonempty_test.
    case_bool_decide; cbn [negb ranges_from]; [by rewrite app_nil_r|done]. }
  cbn [chunk_from fmap list_fmap Chunks.hashes_loop fst snd].
  pose proof (hashes_step_spec s pre cur (k, v, c) rest Hes Hinv) as Hstep. cbn [fst snd] in Hstep.
  destruct (place cur (k, v, c)) as [[closed cur']|x|]; [|by rewrite Hstep|done].
  destruct Hstep as (s' & closed2 & cur2 & -> & Hinv' & Hcat & Hranges & Hsame).
  cbn [mbind outcome_bind].
  assert (at_split (pre ++ concat closed2) cur2 rest) as Hes'.
  { unfold at_split in *. rewrite Hes, <- app_assoc, (app_assoc (concat closed2)), Hcat. by rewrite <- app_assoc. }
  specialize (IH s' _ cur2 Hes' Hinv').
  replace (S (length pre + length cur)) with (length (pre ++ concat closed2) + length cur2)%nat.
  2: { apply (f_equal length) in Hcat. rewrite !length_app in Hcat. cbn in Hcat. rewrite length_app. lia. }
  assert (chunk_from cur' rest ≫= (λ r, Ok (closed ++ r))
          = chunk_from cur2 rest ≫= (λ r, Ok (closed2 ++ r))) as Heq.
  { destruct Hsame as [[-> ->]|(Hne & Hfull & -> & ->)]; [done|].
    rewrite (chunk_from_full cur' rest Hne Hfull).
    - destruct (chunk_from [] rest); cbn; [by rewrite <- app_assoc|done..].
    - rewrite concat_app in Hes'. cbn [concat] in Hes'. rewrite !app_nil_r in Hes'. cbn [app] in Hes'.
      rewrite Hes', <- !app_assoc in Hfits. by apply level_fits_app in Hfits as [_ [_ ?]%level_fits_app]. }
  rewrite Heq. destruct (chunk_from cur2 rest) as [chunks|x|]; cbn [mbind outcome_bind]; [|done|done].
  destruct IH as (s'' & -> & Hclose). exists s''. split; [done|].
  by rewrite Hclose, Hranges, ranges_from_app, length_app, <- app_assoc.
Qed.

(** *** Chunking by counts alone *)
(** No chunk of at most [max] entries exceeds the byte limit. *)
Definition never_full : Prop :=
  ∀ cur, Forall (λ e, e ∈ es) cur → level_fits cur → len cur ≤ max (chunking f) → size cur ≤ hard.

Lemma counts_loop_spec bs rest ranges pre cur :
  never_full → at_split pre cur rest → len cur < max (chunking f) →
  fst <$> bs = (λ e, hit e.1.1 e.1.2) <$> rest →
  ∃ chunks, chunk_from cur rest = Ok chunks ∧
    let '(r, start) := Chunks.counts_loop (chunking f) bs (length pre + length cur) (length pre) ranges in
    Chunks.close_ranges r start (length es) = ranges ++ ranges_from (length pre) chunks.
Proof.
  intros Hnever. revert bs ranges pre cur; induction rest as [|e rest IH]; intros bs ranges pre cur Hes Hcur Hbs.
  { destruct bs; [|done]. cbn [Chunks.counts_loop chunk_from]. eexists; split; [done|].
    unfold Chunks.close_ranges. rewrite Hes, app_nil_r, length_app, nonempty_test.
    case_bool_decide; cbn [negb ranges_from]; [by rewrite app_nil_r|done]. }
  destruct bs as [|[b u] bs]; [done|]. cbn [fmap list_fmap fst] in Hbs. injection Hbs as -> Hbs.
  assert (level_fits (cur ++ [e])) as Hfit
    by (apply (split_fits pre _ rest); unfold at_split; by rewrite <- app_assoc).
  assert (at_split pre (cur ++ [e]) rest) as Hes' by (unfold at_split; by rewrite <- app_assoc).
  assert (size (cur ++ [e]) ≤ hard) as Hsmall.
  { apply Hnever; [|done|rewrite len_app; change (len [e]) with 1; lia].
    apply Forall_forall. intros x Hx. rewrite Hes'. apply list_elem_of_In.
    apply in_or_app. right. apply in_or_app. by left. }
  assert ((hard <? size (cur ++ [e])) = false) as Hltb by (apply Z.ltb_ge; lia).
  cbn [chunk_from]. unfold place. rewrite Hltb, andb_false_r, Hltb, (soft_cut_threshold cur e Hfit Hsmall).
  cbn [mbind outcome_bind Chunks.counts_loop app].
  replace (Z.of_nat (length pre + length cur - length pre + 1)) with (len cur + 1) by (unfold len; lia).
  destruct ((max (chunking f) <=? len cur + 1) || _) eqn:Hcut.
  - assert (at_split (pre ++ (cur ++ [e])) [] rest) as Hes''
      by (unfold at_split; by rewrite <- app_assoc).
    destruct (IH bs (ranges ++ [(length pre, (length pre + length cur)%nat)]) _ [] Hes'') as (chunks & -> & Hloop);
      [pose proof (len_nonneg cur); change (len (@nil node_entry)) with 0; lia|done|].
    cbn [mbind outcome_bind]. eexists; split; [done|].
    rewrite !length_app in Hloop. cbn [length] in Hloop. rewrite Nat.add_0_r in Hloop.
    replace (length pre + (length cur + 1))%nat with (S (length pre + length cur)) in Hloop by lia.
    destruct (Chunks.counts_loop _ _ _ _ _) as [r start]. rewrite Hloop, <- app_assoc. f_equal.
    cbn [ranges_from app]. rewrite length_app. cbn [length].
    replace (length pre + (length cur + 1))%nat with (S (length pre + length cur)) by lia.
    by replace (S (length pre + length cur) - 1)%nat with (length pre + length cur)%nat by lia.
  - destruct (IH bs ranges pre (cur ++ [e]) Hes') as (chunks & -> & Hloop);
      [apply orb_false_iff in Hcut as [Hm%Z.leb_gt _]; rewrite len_app; change (len [e]) with 1; lia|done|].
    cbn [mbind outcome_bind]. eexists; split; [done|].
    rewrite length_app in Hloop. cbn [length] in Hloop.
    by replace (length pre + (length cur + 1))%nat with (S (length pre + length cur)) in Hloop by lia.
Qed.

(** *** The parallel routine *)
Definition upper_bytes (e : node_entry) : Z :=
  saturating_add u64_max (saturating_add u64_max (len e.1.1) (len e.1.2)) 64.

Lemma level_spec_fields :
  rule level_spec = rule (chunking f) ∧ measure level_spec = measure (chunking f) ∧
  input level_spec = input (chunking f).
Proof. unfold level_spec, Boundary.raise_min. by destruct (_ && _). Qed.

Lemma boundaries_spec d :
  detector_at d [] →
  mapM (Chunks.boundary_and_upper d) entries
    = Ok ((λ e, (hit e.1.1 e.1.2, upper_bytes e)) <$> es).
Proof.
  intros (_ & Hs & Hsd). destruct level_spec_fields as (Hlr & Hlm & Hli). rewrite <- Hs in Hlr, Hlm, Hli.
  clear Hfits. induction es as [|e l IH]; [done|].
  assert (Chunks.boundary_and_upper d e.1 = Ok (hit e.1.1 e.1.2, upper_bytes e)) as He.
  { unfold Chunks.boundary_and_upper, Boundary.independent_hash_boundary, Boundary.hash_hit.
    rewrite Hlr, Hlm, Hli, Hsd, Hrule, Hmeasure. pose proof factor_pos.
    by destruct (Z.eqb_spec factor 0); [lia|]. }
  change (mapM ?g (fst <$> e :: l)) with (y ← g e.1; k ← mapM g (fst <$> l); Ok (y :: k)).
  by rewrite He, IH.
Qed.

Lemma max_upper_bound (l : list Z) x : x ∈ l → x ≤ foldr Z.max 0 l.
Proof.
  intros Hx%list_elem_of_In. induction l as [|y l IH]; [done|]. cbn [foldr].
  destruct Hx as [->|Hx]; [lia|]. specialize (IH Hx). lia.
Qed.

Lemma max_upper_nonneg (l : list Z) : 0 ≤ foldr Z.max 0 l.
Proof. induction l; cbn [foldr]; lia. Qed.

Lemma weight_max m cur :
  Forall (λ e, upper_bytes e ≤ m) cur → weight cur ≤ isize_max → weight cur ≤ m * len cur.
Proof.
  induction 1 as [|e cur He _ IH]; intros Hw; [by rewrite Z.mul_0_r|]. rewrite len_cons. cbn [weight foldr] in *.
  fold (weight cur) in *. pose proof (weight_nonneg cur). pose proof (len_nonneg e.1.1).
  pose proof (len_nonneg e.1.2). specialize (IH ltac:(lia)).
  unfold upper_bytes, saturating_add, isize_max, u64_max in *. lia.
Qed.

Lemma never_full_intro :
  saturating_add u64_max (size [])
    (saturating_mul u64_max (foldr Z.max 0 (upper_bytes <$> es)) (max (chunking f))) ≤ hard →
  never_full.
Proof.
  intros Hguard cur Hin [Hwfs Hfit] Hlen. set (m := foldr Z.max 0 _) in *.
  pose proof (weight_nonneg cur) as Hw0.
  assert (0 ≤ size []) as Hsz0.
  { unfold Sizer.node_size. pose proof (Sizer.header_len_nonneg f lf lv (len (@nil node_entry))).
    pose proof (len_nonneg (layout_bytes (node_layout f) lf [])). lia. }
  pose proof (node_size_upper f lf lv cur Hcodec Hwfs ltac:(lia)) as Hupper.
  assert (weight cur ≤ m * len cur) as Hm.
  { apply weight_max; [|lia]. eapply Forall_impl; [|exact Hin]. intros e He.
    apply max_upper_bound. by apply list_elem_of_fmap_2. }
  pose proof (max_upper_nonneg (upper_bytes <$> es)) as Hm0. fold m in Hm0.
  assert (m * len cur ≤ m * max (chunking f)) as Hmul by (apply Z.mul_le_mono_nonneg_l; lia).
  unfold saturating_add, saturating_mul, isize_max, u64_max in *. lia.
Qed.

Lemma parallel_ranges_spec config d :
  Config.format config = f → detector_at d [] →
  Chunks.parallel_ranges config lv entries child_counts d = ranges_from 0 <$> level_chunks es.
Proof.
  intros Hconfig Hd. unfold Chunks.parallel_ranges. rewrite (boundaries_spec d Hd).
  cbn [mbind outcome_bind]. rewrite Hconfig. destruct new_sizer_at as (z & Hz & Hsz). rewrite Hz.
  cbn [mbind outcome_bind]. rewrite <- !list_fmap_compose.
  change (snd ∘ _) with upper_bytes. change (fst ∘ _) with (λ e : node_entry, hit e.1.1 e.1.2).
  assert (Sizer.sz_size z = size []) as -> by
    (destruct Hsz as (Hsized & Hf & Hl & Hv); by rewrite (Sizer.sized_size _ _ Hsized), Hf, Hl, Hv).
  destruct (Z.leb_spec (saturating_add u64_max (size [])
    (saturating_mul u64_max (foldr Z.max 0 (upper_bytes <$> es)) (max (chunking f)))) hard) as [Hguard|_].
  - unfold Chunks.chunk_ranges_from_independent_counts. rewrite length_fmap.
    destruct (counts_loop_spec ((λ e, (hit e.1.1 e.1.2, upper_bytes e)) <$> es) es [] [] []
      (never_full_intro Hguard) eq_refl) as (chunks & Hchunks & Hloop);
      [exact max_pos|by rewrite <- list_fmap_compose|].
    change (length [] + length [])%nat with 0%nat in Hloop. cbn [length] in Hloop.
    destruct (Chunks.counts_loop _ _ _ _ _) as [r start]. unfold level_chunks. by rewrite Hchunks, Hloop.
  - unfold Chunks.chunk_ranges_from_independent_hashes. rewrite !length_fmap, Nat.eqb_refl, Hconfig, Hz.
    cbn [mbind outcome_bind Boundary.debug_assert].
    pose proof (hashes_loop_spec es {| Chunks.hs_ranges := []; Chunks.hs_start := 0;
      Chunks.hs_sizer := z |} [] [] eq_refl) as Hloop.
    change (length [] + length [])%nat with 0%nat in Hloop. unfold level_chunks.
    destruct (chunk_from [] es) as [chunks|x|].
    + destruct Hloop as (s & -> & Hclose); [by constructor|]. cbn [mbind outcome_bind].
      by rewrite Hclose.
    + rewrite Hloop by (by constructor). done.
    + destruct Hloop. by constructor.
Qed.

End threshold.
End spec.
Lemma ranges_from_inj start c1 c2 :
  Forall (λ c, c ≠ []) c1 → Forall (λ c, c ≠ []) c2 → concat c1 = concat c2 →
  ranges_from start c1 = ranges_from start c2 → c1 = c2.
Proof.
  intros Hc1. revert start c2; induction Hc1 as [|x c1 Hx _ IH]; intros start c2 Hc2 Hcat Hr.
  { by destruct Hc2. }
  destruct Hc2 as [|y c2 Hy Hc2]; [done|]. cbn [ranges_from concat] in *. injection Hr as Hend Hr.
  assert (length x = length y) as Hlen by (destruct x, y; cbn in *; (done || lia)).
  apply app_inj_1 in Hcat as [-> Hcat]; [|done]. f_equal. by eapply IH.
Qed.

(** The chunking routine on entries that carry their subtree counts: a leaf level
    is chunked without counts. *)
Definition level_ranges `{Hashes} (config : Config.Config) (lv : Z) (es : list node_entry)
    (parallel : bool) : outcome Error (list Chunks.range) :=
  Chunks.chunk_ranges_for_entries_impl config lv (fst <$> es)
    (if lv =? 0 then None else Some (snd <$> es)) parallel.

Record level_input `{Hashes} (config : Config.Config) (lv : Z) (es : list node_entry) : Prop := {
  in_wf : TreeFormat_wf (Config.format config);
  in_valid : validate (Config.format config) = Ok tt;
  in_codec : has_codec (Config.format config);
  in_fits : level_fits (Config.format config) lv es;
}.

Lemma level_ranges_serial `{HashesOk} config lv es :
  level_input config lv es →
  level_ranges config lv es false = ranges_from 0 <$> level_chunks (Config.format config) lv es.
Proof. intros [Hwf Hvalid Hcodec Hfits]. by apply serial_ranges. Qed.

(** Cutting a level either fails because one entry does not fit a node of
    its own, and reports that entry's size, or covers the entries with consecutive
    non-empty chunks whose encoded nodes are within the byte limit. *)
Theorem chunk_ranges_partition `{HashesOk} config lv es :
  level_input config lv es →
  let hard := hard_max_node_bytes (chunking (Config.format config)) in
  let size := Sizer.node_size (Config.format config) (lv =? 0) lv in
  (∃ chunks, level_ranges config lv es false = Ok (ranges_from 0 chunks) ∧ concat chunks = es ∧
     Forall (λ c, c ≠ [] ∧ size c ≤ hard) chunks) ∨
  (∃ e, e ∈ es ∧ hard < size [e] ∧
     level_ranges config lv es false = Err (EntryTooLarge (size [e]) hard)).
Proof.
  intros Hin hard size. rewrite level_ranges_serial by done. destruct Hin as [Hwf Hvalid Hcodec Hfits].
  destruct (chunk_from_total _ lv Hwf Hvalid Hcodec es [] Hfits) as [[chunks Hc]|(e & He & Hbig & Hc)];
    [by left|left|right].
  - exists chunks. unfold level_chunks. rewrite Hc. split; [done|].
    exact (chunk_from_ok _ _ _ _ _ Hc (or_introl eq_refl)).
  - exists e. unfold level_chunks. by rewrite Hc.
Qed.

(** C30.  Boundaries are local.  If a boundary falls between two runs of entries,
    the chunks on each side are those of that side alone: an edit cannot move the
    chunks beyond the next boundary that both versions share. *)
Theorem chunk_boundaries_local `{HashesOk} config lv a b ca cb :
  level_input config lv (a ++ b) →
  level_ranges config lv (a ++ b) false = Ok (ranges_from 0 (ca ++ cb)) →
  concat ca = a → concat cb = b → Forall (λ c, c ≠ []) (ca ++ cb) →
  level_ranges config lv a false = Ok (ranges_from 0 ca) ∧
  level_ranges config lv b false = Ok (ranges_from 0 cb).
Proof.
  intros Hin Hab Ha Hb Hne. rewrite level_ranges_serial in Hab by done.
  destruct Hin as [Hwf Hvalid Hcodec Hfits]. destruct (level_fits_app _ _ _ _ Hfits) as [Hfa Hfb].
  rewrite !level_ranges_serial by done. unfold level_chunks in *.
  destruct (chunk_from _ _ [] (a ++ b)) as [chunks| |] eqn:Hc; [|done..]. injection Hab as Hab.
  destruct (chunk_from_ok _ _ _ _ _ Hc (or_introl eq_refl)) as [Hcat Hok].
  apply ranges_from_inj in Hab; [|by eapply Forall_impl; [|exact Hok]; intros ? [? _]|done|
    by rewrite concat_app, Hcat, Ha, Hb].
  subst chunks. destruct (chunk_from_split _ _ _ _ _ _ _ Hc Ha (or_introl eq_refl)) as [-> ->]. done.
Qed.

(** The parallel routine hashes entries apart from each other only where the rule is a
    threshold on the hash of an entry and chunks are measured in entries, and only on
    levels of at least 1,024 entries.  There it compares with the configured bounds; the
    detector raises them to 2 above the leaves. *)
Definition hashes_apart (spec : ChunkingSpec) : bool :=
  match measure spec, rule spec with EntryCount, HashThreshold _ => true | _, _ => false end.
Definition bounds_agree (spec : ChunkingSpec) (n : Z) : Prop :=
  2 ≤ min spec ∨ hashes_apart spec = false ∨ n < Chunks.PARALLEL_BOUNDARY_HASH_MIN_ENTRIES.

Lemma bounds_agree_le spec n n' : n' ≤ n → bounds_agree spec n → bounds_agree spec n'.
Proof. unfold bounds_agree. intros ? [?|[?|?]]; auto. right. right. lia. Qed.

Lemma parallel_level_chunks `{HashesOk} config lv es :
  level_input config lv es → 0 ≤ lv → lv = 0 ∨ bounds_agree (chunking (Config.format config)) (len es) →
  Chunks.chunk_ranges_for_entries_parallel config lv (fst <$> es)
    (if lv =? 0 then None else Some (snd <$> es))
    = ranges_from 0 <$> level_chunks (Config.format config) lv es.
Proof.
  intros Hin Hlv Hlevel. unfold Chunks.chunk_ranges_for_entries_parallel.
  destruct Hin as [Hwf Hvalid Hcodec Hfits].
  pose proof (serial_ranges _ _ Hwf Hvalid Hcodec _ Hfits _ eq_refl) as Hserial.
  assert (len (fst <$> es) = len es) as -> by (unfold len; by rewrite length_fmap).
  destruct (Z.ltb_spec (len es) Chunks.PARALLEL_BOUNDARY_HASH_MIN_ENTRIES) as [|Hmany]; [done|].
  destruct (new_detector_at _ lv Hwf Hvalid) as (d & Hnew & Hd).
  unfold Chunks.chunk_ranges_for_entries_impl in *. rewrite (counts_guard lv es), Hnew in *.
  cbn [negb mbind outcome_bind andb] in *.
  destruct (Boundary.supports_independent_hashing d) eqn:Hsupp; [|done].
  unfold Boundary.supports_independent_hashing in Hsupp. destruct (level_spec_fields (Config.format config) lv) as (Hlr & Hlm & _).
  rewrite (proj1 (proj2 Hd)), Hlr, Hlm in Hsupp. destruct (measure _) eqn:Hm in Hsupp; [|done..].
  destruct (rule _) eqn:Hr in Hsupp; [|done..].
  assert (lv = 0 ∨ 2 ≤ min (chunking (Config.format config))) as Hmin.
  { destruct Hlevel as [|[|[Hapart|]]]; [by left|by right|unfold hashes_apart in Hapart; by rewrite Hm, Hr in Hapart|lia]. }
  by eapply parallel_ranges_spec.
Qed.

(** C31.  Hashing the entries of a level in parallel does not change its chunks, for
    the leaf level and for every level when the configured minimum is at least 2. *)
Theorem parallel_chunks_eq_serial `{HashesOk} config lv es :
  level_input config lv es → 0 ≤ lv → lv = 0 ∨ 2 ≤ min (chunking (Config.format config)) →
  Chunks.chunk_ranges_for_entries_parallel config lv (fst <$> es)
    (if lv =? 0 then None else Some (snd <$> es)) = level_ranges config lv es false.
Proof.
  intros Hin Hlv Hmin. rewrite parallel_level_chunks, level_ranges_serial; [done|done|done|done|].
  destruct Hmin; [by left|right; by left].
Qed.

Lemma counts_loop_singletons spec bs index ranges :
  max spec = 1 →
  Chunks.counts_loop spec bs index index ranges
    = (ranges ++ ((λ i, (i, i)) <$> seq index (length bs)), (index + length bs)%nat).
Proof.
  intros Hmax. revert index ranges; induction bs as [|[b u] bs IH]; intros index ranges.
  { cbn. by rewrite app_nil_r, Nat.add_0_r. }
  cbn [Chunks.counts_loop length seq fmap list_fmap]. rewrite Nat.sub_diag, Hmax. cbn [orb Z.of_nat Nat.add Z.leb].
  change (1 <=? Z.of_nat 1) with true. cbn [orb]. rewrite IH, <- app_assoc. cbn [app]. f_equal. lia.
Qed.

(** C40.  The parallel routine uses the configured bounds where the detector raises
    them to 2 above the leaves.  With a threshold on hashed entry counts, a maximum of 1
    and at least 1,024 children, each of which fits a node, it puts every child of an
    internal level into a range of its own, so that this level has as many nodes as the
    one below. *)
Theorem parallel_internal_level_stuck `{HashesOk} config lv es factor :
  level_input config lv es → 0 < lv → 1024 ≤ len es →
  rule (chunking (Config.format config)) = HashThreshold factor →
  measure (chunking (Config.format config)) = EntryCount →
  max (chunking (Config.format config)) = 1 →
  Sizer.node_size (Config.format config) false lv [] + foldr Z.max 0 (upper_bytes <$> es)
    ≤ hard_max_node_bytes (chunking (Config.format config)) →
  Chunks.chunk_ranges_for_entries_parallel config lv (fst <$> es) (Some (snd <$> es))
    = Ok ((λ i, (i, i)) <$> seq 0 (length es)).
Proof.
  intros [Hwf Hvalid Hcodec Hfits] Hlv Hlen Hrule Hmeasure Hmax Hguard.
  unfold Chunks.chunk_ranges_for_entries_parallel, Chunks.PARALLEL_BOUNDARY_HASH_MIN_ENTRIES.
  assert ((lv =? 0) = false) as Hlf by (apply Z.eqb_neq; lia).
  pose proof (counts_guard lv es) as Hcounts. rewrite Hlf in Hcounts.
  assert (len (fst <$> es) = len es) as -> by (unfold len; by rewrite length_fmap).
  destruct (Z.ltb_spec (len es) 1024); [lia|].
  destruct (new_detector_at _ lv Hwf Hvalid) as (d & Hnew & Hd).
  unfold Chunks.chunk_ranges_for_entries_impl. rewrite Hlf, Hcounts, Hnew. cbn [negb mbind outcome_bind andb].
  destruct (level_spec_fields (Config.format config) lv) as (Hlr & Hlm & _).
  unfold Boundary.supports_independent_hashing. rewrite (proj1 (proj2 Hd)), Hlr, Hlm, Hrule, Hmeasure.
  unfold Chunks.parallel_ranges.
  rewrite (boundaries_spec _ _ Hwf Hvalid es factor Hrule Hmeasure d Hd). cbn [mbind outcome_bind].
  destruct (new_sizer_at _ lv Hvalid Hcodec es Hfits) as (z & Hz & Hsized & Hf & Hl & Hv).
  rewrite Hz. cbn [mbind outcome_bind].
  rewrite (Sizer.sized_size _ _ Hsized), Hf, Hl, Hv, Hlf, Hmax, <- list_fmap_compose.
  change (snd ∘ _) with upper_bytes. set (m := foldr Z.max 0 _) in *.
  destruct (Z.leb_spec (saturating_add u64_max (Sizer.node_size (Config.format config) false lv [])
    (saturating_mul u64_max m 1)) (hard_max_node_bytes (chunking (Config.format config)))) as [_|Hbad];
    [|unfold saturating_add, saturating_mul in Hbad; lia].
  unfold Chunks.chunk_ranges_from_independent_counts. rewrite counts_loop_singletons by done.
  unfold Chunks.close_ranges. by rewrite Nat.add_0_l, Nat.ltb_irrefl, length_fmap.
Qed.

(** Instances of the theorems above. *)
Definition sample_config (lo hi : Z) : Config.Config := {|
  Config.format := {| chunking := Config.with_bounds lo lo hi ChunkingSpec_default;
                      node_layout := OffsetTable; value_encoding := EncCbor |};
  Config.runtime := Config.RuntimeConfig_default |}.
Definition sample_entries (n : nat) : list node_entry :=
  (λ i, (be_bytes 2 (Z.of_nat i), [], 1)) <$> seq 0 n.

Lemma sample_weight k n :
  weight ((λ i, (be_bytes 2 (Z.of_nat i), [], 1)) <$> seq k n) = 66 * Z.of_nat n.
Proof.
  revert k; induction n as [|n IH]; intros k; [done|].
  change (weight ((λ i, (be_bytes 2 (Z.of_nat i), [], 1)) <$> seq k (S n))) with
    (len (be_bytes 2 (Z.of_nat k)) + len (@nil byte) + 64
     + weight ((λ i, (be_bytes 2 (Z.of_nat i), [], 1)) <$> seq (S k) n)).
  rewrite IH. unfold len. rewrite length_be_bytes. cbn [length]. lia.
Qed.

Lemma sample_config_input lo hi lv n :
  u64 lo → u64 hi → validate (Config.format (sample_config lo hi)) = Ok tt →
  Sizer.node_size (Config.format (sample_config lo hi)) (lv =? 0) lv [] + 66 * Z.of_nat n + 128 ≤ isize_max →
  @level_input sample_hashes (sample_config lo hi) lv (sample_entries n).
Proof.
  intros Hlo Hhi Hvalid Hsize. constructor; [|done|exact I|].
  - constructor; [|exact I|exact I]. destruct ChunkingSpec_default_wf. by constructor.
  - split.
    + apply Forall_fmap, Forall_true. intros i. split; [|split]; vm_compute; (done || discriminate).
    + unfold sample_entries. by rewrite sample_weight.
Qed.

Lemma chunk_ranges_partition_witness :
  level_input (H := sample_hashes) (sample_config 2 3) 0 (sample_entries 5) ∧
  ∃ chunks, level_ranges (H := sample_hashes) (sample_config 2 3) 0 (sample_entries 5) false
              = Ok (ranges_from 0 chunks) ∧ concat chunks = sample_entries 5.
Proof.
  assert (level_input (H := sample_hashes) (sample_config 2 3) 0 (sample_entries 5)) as Hin
    by (apply sample_config_input; [split; vm_compute; discriminate..|vm_compute; reflexivity|vm_compute; discriminate]).
  split; [exact Hin|].
  destruct (chunk_ranges_partition (H0 := sample_hashes_ok) _ _ _ Hin) as [(c & Hc & Hcat & _)|(e & _ & _ & He)].
  - exists c. split; [exact Hc|exact Hcat].
  - assert (level_ranges (H := sample_hashes) (sample_config 2 3) 0 (sample_entries 5) false
      = Ok [(0, 2); (3, 4)]%nat) as Hr by (vm_compute; reflexivity).
    rewrite Hr in He. discriminate He.
Defined.


Lemma chunk_boundaries_local_witness :
  let a := take 3 (sample_entries 5) in
  let b := drop 3 (sample_entries 5) in
  level_ranges (H := sample_hashes) (sample_config 2 3) 0 (a ++ b) false
    = Ok (ranges_from 0 ([a] ++ [b])) ∧
  level_ranges (H := sample_hashes) (sample_config 2 3) 0 a false = Ok (ranges_from 0 [a]) ∧
  level_ranges (H := sample_hashes) (sample_config 2 3) 0 b false = Ok (ranges_from 0 [b]).
Proof.
  intros a b.
  assert (level_ranges (H := sample_hashes) (sample_config 2 3) 0 (a ++ b) false
    = Ok (ranges_from 0 ([a] ++ [b]))) as Hr by (vm_compute; reflexivity).
  split; [exact Hr|].
  refine (chunk_boundaries_local (H0 := sample_hashes_ok) (sample_config 2 3) 0 a b [a] [b] _ Hr
    (app_nil_r a) (app_nil_r b) _).
  - change (a ++ b) with (sample_entries 5).
    apply sample_config_input; [split; vm_compute; discriminate..|vm_compute; reflexivity|vm_compute; discriminate].
  - repeat constructor; vm_compute; discriminate.
Defined.

Lemma parallel_chunks_eq_serial_witness :
  let es := sample_entries 1100 in
  Chunks.chunk_ranges_for_entries_parallel (H := sample_hashes) (sample_config 4 64) 2 (fst <$> es) (Some (snd <$> es))
    = level_ranges (H := sample_hashes) (sample_config 4 64) 2 es false.
Proof.
  intros es. refine (parallel_chunks_eq_serial (H0 := sample_hashes_ok) (sample_config 4 64) 2 es _ _ _).
  - apply sample_config_input; [split; vm_compute; discriminate..|vm_compute; reflexivity|vm_compute; discriminate].
  - vm_compute. discriminate.
  - right. vm_compute. discriminate.
Defined.

Lemma parallel_internal_level_stuck_witness :
  let es := sample_entries 1024 in
  Chunks.chunk_ranges_for_entries_parallel (H := sample_hashes) (sample_config 1 1) 1 (fst <$> es) (Some (snd <$> es))
    = Ok ((λ i, (i, i)) <$> seq 0 (length es)).
Proof.
  intros es.
  refine (parallel_internal_level_stuck (H0 := sample_hashes_ok) (sample_config 1 1) 1 es
    DEFAULT_CHUNKING_FACTOR _ _ _ eq_refl eq_refl eq_refl _).
  - apply sample_config_input; [split; vm_compute; discriminate..|vm_compute; reflexivity|vm_compute; discriminate].
  - reflexivity.
  - vm_compute. discriminate.
  - vm_compute. discriminate.
Defined.

End ChunkSpec.
