(* ===== verification/Store.v ===== *)
(** * Node stores (src/prolly/store/mod.rs, src/prolly/store/memory.rs)

    The [Store] trait as a class of state-passing operations, its provided methods,
    the plan that deduplicates ordered batch reads, and the in-memory store.  What
    the rest of the library relies on is the class [StoreOk]; the in-memory store
    is an instance. *)

From Stdlib Require Import ZArith Lia Strings.Byte.
From stdpp Require Import base tactics numbers list strings option gmap.
From S2P Require Import Prelude Cursor Types.

Local Open Scope Z_scope.

Module Store.

Global Instance byte_countable : Countable byte.
Proof.
  refine (inj_countable' Byte.to_N (λ n, default Byte.x00 (Byte.of_N n)) _).
  intros b. by rewrite Byte.of_to_N.
Defined.

(** ** Ordered batch reads *)
Record OrderedBatchReadPlan := { unique_keys : list bytes; positions : option (list nat) }.

(** The loop over the keys; [unique_indexes] maps each key to its position in
    [unique_keys]. *)
Fixpoint plan_loop (ks : list bytes) (unique_indexes : gmap bytes nat) (unique : list bytes)
    (pos : option (list nat)) : OrderedBatchReadPlan :=
  match ks with
  | [] => {| unique_keys := unique; positions := pos |}
  | key :: ks' =>
      match unique_indexes !! key with
      | Some index =>
          plan_loop ks' unique_indexes unique (Some (default (seq 0 (length unique)) pos ++ [index]))
      | None =>
          let unique_idx := length unique in
          plan_loop ks' (<[key := unique_idx]> unique_indexes) (unique ++ [key])
            ((λ p, p ++ [unique_idx]) <$> pos)
      end
  end.

Definition plan_new (ks : list bytes) : OrderedBatchReadPlan :=
  if (length ks <? 2)%nat then {| unique_keys := ks; positions := None |}
  else plan_loop ks ∅ [] None.

Definition expand_owned {E T} (plan : OrderedBatchReadPlan) (unique_values : list (option T))
    : outcome E (list (option T)) :=
  if negb (length (unique_keys plan) =? length unique_values)%nat
  then Panic "assertion failed: unique_keys.len() == unique_values.len()"
  else match positions plan with
       | Some positions => mapM (λ i, expect "index out of bounds" (unique_values !! i)) positions
       | None => Ok unique_values
       end.

(** ** The trait *)
Inductive BatchOp :=
| BatchUpsert (key value : bytes)
| BatchDelete (key : bytes).

Class Store (St : Type) := {
  store_get : St → bytes → outcome Error (option bytes);
  store_put : St → bytes → bytes → outcome Error St;
  store_delete : St → bytes → outcome Error St;
  store_batch : St → list BatchOp → outcome Error St;
  store_batch_put : St → list (bytes * bytes) → outcome Error St;
  store_batch_get_ordered : St → list bytes → outcome Error (list (option bytes));
  store_prefers_batch_reads : St → bool;
}.

(** Provided methods that an implementation may override. *)
Section provided.
Context {St : Type} (get : St → bytes → outcome Error (option bytes))
  (batch : St → list BatchOp → outcome Error St).

Definition default_batch_get_ordered (self : St) (ks : list bytes) : outcome Error (list (option bytes)) :=
  if (length ks <? 2)%nat then mapM (get self) ks
  else
    let plan := plan_new ks in
    unique_values ← mapM (get self) (unique_keys plan);
    expand_owned plan unique_values.

Definition default_batch_put (self : St) (entries : list (bytes * bytes)) : outcome Error St :=
  batch self ((λ e, BatchUpsert e.1 e.2) <$> entries).

End provided.

(** Provided methods that the modelled code uses as they are. *)
Definition batch_get_ordered_unique {St} `{Store St} (self : St) (ks : list bytes)
    : outcome Error (list (option bytes)) :=
  if bool_decide (ks = []) then Ok []
  else if negb (store_prefers_batch_reads self) then mapM (store_get self) ks
  else store_batch_get_ordered self ks.

(** [publish_nodes] for a publication without a hint. *)
Definition publish_nodes {St} `{Store St} (self : St) (entries : list (bytes * bytes)) : outcome Error St :=
  store_batch_put self entries.

(** ** What a store promises *)
Definition put_all {V} (entries : list (bytes * V)) (m : gmap bytes V) : gmap bytes V :=
  foldl (λ m e, <[e.1 := e.2]> m) m entries.

Definition apply_op (m : gmap bytes bytes) (op : BatchOp) : gmap bytes bytes :=
  match op with BatchUpsert key value => <[key := value]> m | BatchDelete key => delete key m end.

Class StoreOk St `{Store St} := {
  contents : St → gmap bytes bytes;
  get_ok s k : store_get s k = Ok (contents s !! k);
  put_ok s k v : ∃ s', store_put s k v = Ok s' ∧ contents s' = <[k := v]> (contents s);
  delete_ok s k : ∃ s', store_delete s k = Ok s' ∧ contents s' = delete k (contents s);
  batch_ok s ops : ∃ s', store_batch s ops = Ok s' ∧ contents s' = foldl apply_op (contents s) ops;
  batch_put_ok s es : ∃ s', store_batch_put s es = Ok s' ∧ contents s' = put_all es (contents s);
  batch_get_ordered_ok s ks : store_batch_get_ordered s ks = Ok ((λ k, contents s !! k) <$> ks);
}.

(** ** MemStore *)
(** [data]; the named roots are a separate map. *)
Record MemStore := { ms_data : gmap bytes bytes }.

Definition MemStore_new : MemStore := {| ms_data := ∅ |}.
Definition mem_get (self : MemStore) (key : bytes) : outcome Error (option bytes) :=
  Ok (ms_data self !! key).
Definition mem_put (self : MemStore) (key value : bytes) : outcome Error MemStore :=
  Ok {| ms_data := <[key := value]> (ms_data self) |}.
Definition mem_delete (self : MemStore) (key : bytes) : outcome Error MemStore :=
  Ok {| ms_data := delete key (ms_data self) |}.

Fixpoint mem_batch_loop (data : gmap bytes bytes) (ops : list BatchOp) : gmap bytes bytes :=
  match ops with
  | [] => data
  | BatchUpsert key value :: ops' => mem_batch_loop (<[key := value]> data) ops'
  | BatchDelete key :: ops' => mem_batch_loop (delete key data) ops'
  end.
Definition mem_batch (self : MemStore) (ops : list BatchOp) : outcome Error MemStore :=
  Ok {| ms_data := mem_batch_loop (ms_data self) ops |}.

Fixpoint mem_batch_put_loop (data : gmap bytes bytes) (entries : list (bytes * bytes)) : gmap bytes bytes :=
  match entries with
  | [] => data
  | (key, value) :: entries' => mem_batch_put_loop (<[key := value]> data) entries'
  end.
Definition mem_batch_put (self : MemStore) (entries : list (bytes * bytes)) : outcome Error MemStore :=
  Ok {| ms_data := mem_batch_put_loop (ms_data self) entries |}.

Definition mem_batch_get_ordered (self : MemStore) (ks : list bytes) : outcome Error (list (option bytes)) :=
  let plan := plan_new ks in
  expand_owned plan ((λ k, ms_data self !! k) <$> unique_keys plan).
Definition mem_batch_get_ordered_unique (self : MemStore) (ks : list bytes)
    : outcome Error (list (option bytes)) :=
  Ok ((λ k, ms_data self !! k) <$> ks).

Global Instance MemStore_store : Store MemStore := {|
  store_get := mem_get;
  store_put := mem_put;
  store_delete := mem_delete;
  store_batch := mem_batch;
  store_batch_put := mem_batch_put;
  store_batch_get_ordered := mem_batch_get_ordered;
  store_prefers_batch_reads _ := true;
|}.

(** ** The plan *)
(** The keys seen so far are recovered by the positions, or are the unique keys. *)
Record plan_inv (seen : list bytes) (ix : gmap bytes nat) (unique : list bytes)
    (pos : option (list nat)) : Prop := {
  pi_index k i : ix !! k = Some i ↔ unique !! i = Some k;
  pi_seen : (λ i, unique !! i) <$> default (seq 0 (length unique)) pos = Some <$> seen;
}.

Lemma seq_lookup_all {A} (l : list A) : (λ i, l !! i) <$> seq 0 (length l) = Some <$> l.
Proof.
  apply list_eq. intros i. rewrite !list_lookup_fmap. destruct (decide (i < length l)%nat) as [Hi|Hi].
  - rewrite lookup_seq_lt by done. cbn. destruct (lookup_lt_is_Some_2 l i Hi) as [x Hx]. by rewrite Hx.
  - rewrite lookup_seq_ge by lia. by rewrite lookup_ge_None_2 by lia.
Qed.

Lemma plan_loop_inv ks seen ix unique pos :
  plan_inv seen ix unique pos →
  let plan := plan_loop ks ix unique pos in
  ∃ ix', plan_inv (seen ++ ks) ix' (unique_keys plan) (positions plan).
Proof.
  revert seen ix unique pos; induction ks as [|key ks IH]; intros seen ix unique pos [Hix Hseen] plan.
  { exists ix. by rewrite app_nil_r. }
  unfold plan in *. cbn [plan_loop]. rewrite cons_middle, app_assoc.
  destruct (ix !! key) as [i|] eqn:Hkey; apply IH; constructor.
  - done.
  - change (default _ (Some ?l)) with l. apply Hix in Hkey. rewrite !fmap_app, Hseen. cbn. by rewrite Hkey.
  - intros k i. destruct (decide (k = key)) as [->|Hne].
    + rewrite lookup_insert_eq. split.
      * intros [= <-]. by rewrite lookup_app_r, Nat.sub_diag by lia.
      * intros Hi. rewrite lookup_snoc_Some in Hi. destruct Hi as [[_ Hi]|[-> _]]; [|done].
        apply Hix in Hi. by rewrite Hkey in Hi.
    + rewrite lookup_insert_ne by done. rewrite lookup_snoc_Some, Hix. split.
      * intros Hi. left. split; [by eapply lookup_lt_Some|done].
      * intros [[_ Hi]|[_ Hi]]; [done|]. by subst.
  - destruct pos as [p|].
    + change (default _ (Some p)) with p in Hseen. change (default _ (_ <$> Some p)) with (p ++ [length unique]).
      rewrite !fmap_app. cbn [fmap list_fmap]. rewrite lookup_app_r, Nat.sub_diag by lia. cbn [lookup list_lookup].
      rewrite <- Hseen. apply (f_equal (λ l, l ++ [Some key])). apply list_fmap_ext. intros j i Hji.
      assert (is_Some (unique !! i)) as [x Hx].
      { assert (((λ i, unique !! i) <$> p) !! j = Some (unique !! i)) as Hl by (by rewrite list_lookup_fmap, Hji).
        rewrite Hseen, list_lookup_fmap in Hl. destruct (seen !! j); [|done]. cbn in Hl. injection Hl as <-. by eexists. }
      rewrite Hx. by apply lookup_app_l_Some.
    + cbn [default fmap option_fmap option_map] in *. rewrite seq_lookup_all in *. by rewrite !fmap_app, Hseen.
Qed.

Lemma plan_new_inv ks :
  ∃ ix, plan_inv ks ix (unique_keys (plan_new ks)) (positions (plan_new ks)).
Proof.
  unfold plan_new. destruct (Nat.ltb_spec (length ks) 2) as [Hlen|_].
  - destruct ks as [|k [|]]; [| |cbn in Hlen; lia]; cbn [unique_keys positions].
    + exists ∅. constructor; [|done]. intros k i. by rewrite lookup_empty.
    + exists {[k := 0%nat]}. constructor; [|done]. intros k' i. rewrite lookup_singleton_Some.
      destruct i as [|i]; cbn; split; (intros [? ?] || intros [=]); by subst || done.
  - apply (plan_loop_inv ks [] ∅ [] None). constructor; [|done]. intros k i. by rewrite lookup_empty.
Qed.

Lemma plan_nodup ks : NoDup (unique_keys (plan_new ks)).
Proof.
  destruct (plan_new_inv ks) as (ix & Hix & _). apply NoDup_alt. intros i j k Hi Hj.
  apply Hix in Hi, Hj. congruence.
Qed.

Lemma plan_expand {T} (g : bytes → option T) ks :
  expand_owned (E:=Error) (plan_new ks) (g <$> unique_keys (plan_new ks)) = Ok (g <$> ks).
Proof.
  destruct (plan_new_inv ks) as (ix & _ & Hseen). set (plan := plan_new ks) in *.
  unfold expand_owned. rewrite length_fmap, Nat.eqb_refl. cbn [negb].
  destruct (positions plan) as [p|]; cbn [default] in Hseen.
  - clearbody plan. revert ks Hseen. induction p as [|i p IH]; intros [|k ks] Hseen; [done..|].
    cbn [fmap list_fmap] in *. injection Hseen as Hi Hseen.
    change (mapM ?h (i :: p)) with (y ← h i; l ← mapM h p; Ok (y :: l)).
    rewrite (IH ks Hseen), list_lookup_fmap, Hi. done.
  - rewrite seq_lookup_all in Hseen. apply (inj (fmap Some)) in Hseen. by rewrite Hseen.
Qed.

Lemma mapM_total {E A B} (g : A → outcome E B) (h : A → B) l :
  (∀ a, g a = Ok (h a)) → mapM g l = Ok (h <$> l).
Proof.
  intros Hg. induction l as [|a l IH]; [done|].
  change (mapM g (a :: l)) with (y ← g a; l' ← mapM g l; Ok (y :: l')). by rewrite Hg, IH.
Qed.

(** An ordered batch read gives every requested key its own value, in the
    requested order, although the provided method reads every distinct key once;
    the in-memory store's versions agree with it. *)
Theorem batch_get_ordered_spec {St} (get : St → bytes → outcome Error (option bytes)) s g ks m :
  (∀ k, get s k = Ok (g k)) →
  default_batch_get_ordered get s ks = Ok (g <$> ks) ∧
  NoDup (unique_keys (plan_new ks)) ∧
  mem_batch_get_ordered m ks = Ok ((λ k, ms_data m !! k) <$> ks) ∧
  mem_batch_get_ordered_unique m ks = mem_batch_get_ordered m ks.
Proof.
  intros Hget. assert (mem_batch_get_ordered m ks = Ok ((λ k, ms_data m !! k) <$> ks)) as Hmem
    by (apply plan_expand).
  split; [|split; [apply plan_nodup|split; [done|by rewrite Hmem]]].
  unfold default_batch_get_ordered. destruct (_ <? _)%nat; [by apply mapM_total|].
  rewrite (mapM_total _ g) by done. cbn [mbind outcome_bind]. apply plan_expand.
Qed.

Lemma mem_batch_loop_eq ops data : mem_batch_loop data ops = foldl apply_op data ops.
Proof. revert data; induction ops as [|[] ops IH]; intros data; cbn; [done|apply IH..]. Qed.
Lemma mem_batch_put_loop_eq es data : mem_batch_put_loop data es = put_all es data.
Proof. unfold put_all. revert data; induction es as [|[] es IH]; intros data; cbn; [done|apply IH]. Qed.

Global Program Instance MemStore_ok : StoreOk MemStore := {| contents := ms_data |}.
Next Obligation. done. Qed.
Next Obligation. intros s k v. by eexists. Qed.
Next Obligation. intros s k. by eexists. Qed.
Next Obligation. intros s ops. eexists. split; [done|]. cbn. by rewrite mem_batch_loop_eq. Qed.
Next Obligation. intros s es. eexists. split; [done|]. cbn. by rewrite mem_batch_put_loop_eq. Qed.
Next Obligation. intros s ks. apply plan_expand. Qed.

(** [batch_put] is [batch] with one upsert per entry. *)
Lemma default_batch_put_eq (s : MemStore) es : default_batch_put mem_batch s es = mem_batch_put s es.
Proof.
  unfold default_batch_put, mem_batch, mem_batch_put. do 2 f_equal.
  rewrite mem_batch_loop_eq, mem_batch_put_loop_eq. unfold put_all. generalize (ms_data s).
  induction es as [|e es IH]; intros d; cbn; [done|apply IH].
Qed.

Lemma put_all_lookup {V} (es : list (bytes * V)) m k :
  put_all es m !! k
    = match list_find (λ e, e.1 = k) (reverse es) with Some (_, e) => Some e.2 | None => m !! k end.
Proof.
  unfold put_all. induction es as [|e es IH] using rev_ind; [done|].
  rewrite foldl_snoc, reverse_snoc. cbn [list_find].
  destruct (decide (e.1 = k)) as [<-|Hne]; [by rewrite lookup_insert_eq|].
  rewrite lookup_insert_ne, IH by done. by destruct (list_find _ (reverse es)) as [[]|].
Qed.

Lemma batch_get_ordered_spec_witness :
  let ks := [[Byte.x61]; [Byte.x62]; [Byte.x61]] in
  let m := {| ms_data := {[ [Byte.x61] := [Byte.x01] ]} |} in
  default_batch_get_ordered mem_get m ks = Ok [Some [Byte.x01]; None; Some [Byte.x01]].
Proof.
  intros ks m.
  exact (proj1 (batch_get_ordered_spec mem_get m (λ k, ms_data m !! k) ks m (λ k, eq_refl))).
Defined.

End Store.
