(* ===== verification/NodeCache.v ===== *)
(** * The node cache (src/prolly/mod.rs, [NodeCache])

    The in-process cache of decoded nodes: a map from content identifiers to owned
    or packed nodes, the access log that approximates least-recently-used order by
    generations, pinning, and eviction to the configured limits. *)

From Stdlib Require Import ZArith Lia Strings.Byte.
From stdpp Require Import base tactics numbers list strings option gmap sorting.
From S2P Require Import Prelude Cursor Types Format Node ReadNode Store.

Import Format Node ReadNode Store.

Local Open Scope Z_scope.

Module NodeCache.

Record NodeCacheEntry := {
  ce_owned : option Node;
  ce_read : option ReadNode;
  ce_generation : Z;
  ce_bytes : Z;
  ce_pinned : bool;
}.

Record NodeCache := {
  nc_max_nodes : option Z;
  nc_max_bytes : option Z;
  nc_nodes : gmap Cid NodeCacheEntry;
  nc_access_log : list (Cid * Z);
  nc_next_generation : Z;
  nc_bytes : Z;
  nc_read_nodes : Z;
}.

Definition NodeCache_new (max_nodes max_bytes : option Z) : NodeCache := {|
  nc_max_nodes := max_nodes; nc_max_bytes := max_bytes; nc_nodes := ∅; nc_access_log := [];
  nc_next_generation := 0; nc_bytes := 0; nc_read_nodes := 0 |}.

(** ** Field updates *)
Definition set_nodes (ns : gmap Cid NodeCacheEntry) (self : NodeCache) : NodeCache := {|
  nc_max_nodes := nc_max_nodes self; nc_max_bytes := nc_max_bytes self; nc_nodes := ns;
  nc_access_log := nc_access_log self; nc_next_generation := nc_next_generation self;
  nc_bytes := nc_bytes self; nc_read_nodes := nc_read_nodes self |}.
Definition set_log (log : list (Cid * Z)) (self : NodeCache) : NodeCache := {|
  nc_max_nodes := nc_max_nodes self; nc_max_bytes := nc_max_bytes self; nc_nodes := nc_nodes self;
  nc_access_log := log; nc_next_generation := nc_next_generation self;
  nc_bytes := nc_bytes self; nc_read_nodes := nc_read_nodes self |}.
Definition set_generation (g : Z) (self : NodeCache) : NodeCache := {|
  nc_max_nodes := nc_max_nodes self; nc_max_bytes := nc_max_bytes self; nc_nodes := nc_nodes self;
  nc_access_log := nc_access_log self; nc_next_generation := g;
  nc_bytes := nc_bytes self; nc_read_nodes := nc_read_nodes self |}.
Definition set_counts (b r : Z) (self : NodeCache) : NodeCache := {|
  nc_max_nodes := nc_max_nodes self; nc_max_bytes := nc_max_bytes self; nc_nodes := nc_nodes self;
  nc_access_log := nc_access_log self; nc_next_generation := nc_next_generation self;
  nc_bytes := b; nc_read_nodes := r |}.

Definition with_generation (g : Z) (e : NodeCacheEntry) : NodeCacheEntry := {|
  ce_owned := ce_owned e; ce_read := ce_read e; ce_generation := g; ce_bytes := ce_bytes e;
  ce_pinned := ce_pinned e |}.
Definition with_owned (n : Node) (e : NodeCacheEntry) : NodeCacheEntry := {|
  ce_owned := Some n; ce_read := ce_read e; ce_generation := ce_generation e; ce_bytes := ce_bytes e;
  ce_pinned := ce_pinned e |}.
Definition with_pinned (p : bool) (e : NodeCacheEntry) : NodeCacheEntry := {|
  ce_owned := ce_owned e; ce_read := ce_read e; ce_generation := ce_generation e; ce_bytes := ce_bytes e;
  ce_pinned := p |}.

(** ** Observers *)
Definition has_read (e : NodeCacheEntry) : Z := match ce_read e with Some _ => 1 | None => 0 end.

Definition sum_by (w : NodeCacheEntry → Z) (ns : gmap Cid NodeCacheEntry) : Z :=
  map_fold (λ _ e acc, w e + acc) 0 ns.

Definition cache_len (self : NodeCache) : Z := Z.of_nat (size (nc_nodes self)).
Definition has_read_nodes (self : NodeCache) : bool := 0 <? nc_read_nodes self.
Definition pinned_len (self : NodeCache) : Z :=
  Z.of_nat (size (filter (λ p, ce_pinned p.2 = true) (nc_nodes self))).
Definition pinned_bytes_len (self : NodeCache) : Z :=
  sum_by ce_bytes (filter (λ p, ce_pinned p.2 = true) (nc_nodes self)).

Definition is_unbounded (self : NodeCache) : bool :=
  bool_decide (nc_max_nodes self = None) && bool_decide (nc_max_bytes self = None).
Definition is_disabled (self : NodeCache) : bool :=
  bool_decide (nc_max_nodes self = Some 0) || bool_decide (nc_max_bytes self = Some 0).

Definition exceeds_limit (self : NodeCache) : bool :=
  match nc_max_nodes self with Some max_nodes => max_nodes <? cache_len self | None => false end
  || match nc_max_bytes self with Some max_bytes => max_bytes <? nc_bytes self | None => false end.

(** ** Lookups *)
(** [entry.owned.get_or_init(..)]: the owned node of an entry, kept once decoded. *)
Definition entry_owned (e : NodeCacheEntry) : outcome Error (Node * NodeCacheEntry) :=
  match ce_owned e with
  | Some n => Ok (n, e)
  | None =>
      r ← expect "cache entry has one representation" (ce_read e);
      n ← to_owned r;
      Ok (n, with_owned n e)
  end.

Definition peek (self : NodeCache) (cid : Cid) : outcome Error (option Node * NodeCache) :=
  match nc_nodes self !! cid with
  | None => Ok (None, self)
  | Some e =>
      '(n, e) ← entry_owned e;
      Ok (Some n, set_nodes (<[cid := e]> (nc_nodes self)) self)
  end.

Definition peek_read (self : NodeCache) (cid : Cid) : option ReadNode :=
  e ← nc_nodes self !! cid; ce_read e.

Definition next_generation (self : NodeCache) : Z * NodeCache :=
  let g := wrap 64 (nc_next_generation self + 1) in (g, set_generation g self).

Definition compact_access_log_if_needed (self : NodeCache) : NodeCache :=
  let max_log_len := Z.max (saturating_mul usize_max (cache_len self) 4) 64 in
  if len (nc_access_log self) <=? max_log_len then self
  else set_log (filter (λ p, ce_generation <$> nc_nodes self !! p.1 = Some p.2) (nc_access_log self)) self.

(** The entry is touched: a new generation, logged. *)
Definition touch (cid : Cid) (e : NodeCacheEntry) (generation : Z) (self : NodeCache) : NodeCache :=
  let self := set_nodes (<[cid := with_generation generation e]> (nc_nodes self)) self in
  compact_access_log_if_needed (set_log (nc_access_log self ++ [(cid, generation)]) self).

Definition cache_get (self : NodeCache) (cid : Cid) : outcome Error (option Node * NodeCache) :=
  if is_unbounded self then peek self cid
  else
    match nc_nodes self !! cid with
    | None => Ok (None, self)
    | Some e =>
        let '(generation, self) := next_generation self in
        '(n, e) ← entry_owned e;
        Ok (Some n, touch cid e generation self)
    end.

Definition get_read (self : NodeCache) (cid : Cid) : option ReadNode * NodeCache :=
  if is_unbounded self then (peek_read self cid, self)
  else
    match nc_nodes self !! cid with
    | None => (None, self)
    | Some e =>
        match ce_read e with
        | None => (None, self)
        | Some r =>
            let '(generation, self) := next_generation self in
            (Some r, touch cid e generation self)
        end
    end.

(** ** Eviction *)
Definition remove_entry (self : NodeCache) (cid : Cid) : Z * NodeCache :=
  match nc_nodes self !! cid with
  | Some e =>
      (1, set_counts (saturating_sub (nc_bytes self) (ce_bytes e))
            (saturating_sub (nc_read_nodes self) (has_read e))
            (set_nodes (delete cid (nc_nodes self)) self))
  | None => (0, self)
  end.

(** The loop of [evict_to_limit]; [None] when the fuel runs out before it ends. *)
Fixpoint evict_loop (fuel : nat) (self : NodeCache) (evicted scanned : Z) : option (Z * NodeCache) :=
  match fuel with
  | O => None
  | S fuel' =>
      if exceeds_limit self then
        match nc_access_log self with
        | [] => Some (evicted, self)
        | (cid, generation) :: log =>
            let self := set_log log self in
            match nc_nodes self !! cid with
            | None => evict_loop fuel' self evicted scanned
            | Some e =>
                if negb (ce_generation e =? generation) then evict_loop fuel' self evicted scanned
                else if ce_pinned e then
                  let self := set_log (nc_access_log self ++ [(cid, generation)]) self in
                  let scanned := scanned + 1 in
                  if len (nc_access_log self) <=? scanned then Some (evicted, self)
                  else evict_loop fuel' self evicted scanned
                else
                  let '(n, self) := remove_entry self cid in
                  evict_loop fuel' self (evicted + n) 0
            end
        end
      else Some (evicted, self)
  end.

(** Between two evictions every item of the log is seen at most once more, and an
    eviction or a stale item shortens the log. *)
Definition evict_fuel (self : NodeCache) : nat :=
  let n := length (nc_access_log self) in S (n * n + n).

Definition evict_to_limit (self : NodeCache) : Z * NodeCache :=
  default (0, self) (evict_loop (evict_fuel self) self 0 0).

(** ** Updates *)
Definition cache_clear (self : NodeCache) : Z * NodeCache :=
  (cache_len self, set_counts 0 0 (set_log [] (set_nodes ∅ self))).

Definition clear_unpinned (self : NodeCache) : Z * NodeCache :=
  let before := cache_len self in
  let ns := filter (λ p, ce_pinned p.2 = true) (nc_nodes self) in
  let self := set_counts (sum_by ce_bytes ns) (sum_by has_read ns) (set_log [] (set_nodes ns self)) in
  (saturating_sub before (cache_len self), self).

(** What both insertions do once the new entry is in the map. *)
Definition settle (cid : Cid) (generation : Z) (newly_pinned : bool) (self : NodeCache)
    : (bool * Z) * NodeCache :=
  if is_unbounded self then ((newly_pinned, 0), self)
  else
    let self := set_log (nc_access_log self ++ [(cid, generation)]) self in
    let '(evicted, self) := evict_to_limit self in
    ((newly_pinned, evicted), compact_access_log_if_needed self).

Definition newly_pinned (pinned : bool) (previous : option NodeCacheEntry) : bool :=
  pinned && match previous with Some e => negb (ce_pinned e) | None => true end.
Definition keep_pin (pinned : bool) (previous : option NodeCacheEntry) : bool :=
  match previous with Some e => pinned || ce_pinned e | None => pinned end.

Definition insert_owned_with_pin (self : NodeCache) (cid : Cid) (node : Node) (weight : Z) (pinned : bool)
    : (bool * Z) * NodeCache :=
  if is_disabled self then let '(evicted, self) := cache_clear self in ((false, evicted), self)
  else
    let '(generation, self) := next_generation self in
    let previous := nc_nodes self !! cid in
    let entry := {| ce_owned := Some node; ce_read := None; ce_generation := generation;
                    ce_bytes := weight; ce_pinned := keep_pin pinned previous |} in
    let '(b, r) := match previous with
      | Some p => (saturating_sub (nc_bytes self) (ce_bytes p), saturating_sub (nc_read_nodes self) (has_read p))
      | None => (nc_bytes self, nc_read_nodes self)
      end in
    settle cid generation (newly_pinned pinned previous)
      (set_counts (saturating_add usize_max b weight) r (set_nodes (<[cid := entry]> (nc_nodes self)) self)).

Definition insert_read_with_pin (self : NodeCache) (cid : Cid) (node : ReadNode) (pinned : bool)
    : (bool * Z) * NodeCache :=
  if is_disabled self then let '(evicted, self) := cache_clear self in ((false, evicted), self)
  else
    let '(generation, self) := next_generation self in
    let retained := rn_retained_bytes node in
    let previous := nc_nodes self !! cid in
    let entry := {| ce_owned := None; ce_read := Some node; ce_generation := generation;
                    ce_bytes := retained; ce_pinned := keep_pin pinned previous |} in
    let '(b, r) := match previous with
      | Some p => (saturating_sub (nc_bytes self) (ce_bytes p),
                   match ce_read p with
                   | None => saturating_add usize_max (nc_read_nodes self) 1
                   | Some _ => nc_read_nodes self
                   end)
      | None => (nc_bytes self, saturating_add usize_max (nc_read_nodes self) 1)
      end in
    settle cid generation (newly_pinned pinned previous)
      (set_counts (saturating_add usize_max b retained) r (set_nodes (<[cid := entry]> (nc_nodes self)) self)).

Definition cache_insert (self : NodeCache) (cid : Cid) (node : Node) (weight : Z) : Z * NodeCache :=
  let '((_, evicted), self) := insert_owned_with_pin self cid node weight false in (evicted, self).
Definition insert_pinned (self : NodeCache) (cid : Cid) (node : Node) (weight : Z) : (bool * Z) * NodeCache :=
  insert_owned_with_pin self cid node weight true.
Definition insert_read (self : NodeCache) (cid : Cid) (node : ReadNode) : Z * NodeCache :=
  let '((_, evicted), self) := insert_read_with_pin self cid node false in (evicted, self).

Definition pin_existing (self : NodeCache) (cid : Cid) : bool * NodeCache :=
  match nc_nodes self !! cid with
  | None => (false, self)
  | Some e => (negb (ce_pinned e), set_nodes (<[cid := with_pinned true e]> (nc_nodes self)) self)
  end.

Definition unpin_all (self : NodeCache) : (Z * Z) * NodeCache :=
  let unpinned := pinned_len self in
  let '(evicted, self) := evict_to_limit (set_nodes (with_pinned false <$> nc_nodes self) self) in
  ((unpinned, evicted), compact_access_log_if_needed self).

(** ** Sums over the entries *)
Section sums.
Context (w : NodeCacheEntry → Z).

Lemma sum_by_empty : sum_by w ∅ = 0.
Proof. apply map_fold_empty. Qed.

Lemma sum_by_delete ns cid e : ns !! cid = Some e → sum_by w ns = w e + sum_by w (delete cid ns).
Proof.
  intros Hi. unfold sum_by. rewrite (map_fold_delete_L _ _ cid e); [done| |done]. intros; lia.
Qed.

Lemma sum_by_insert ns cid e : sum_by w (<[cid := e]> ns) = w e + sum_by w (delete cid ns).
Proof. rewrite (sum_by_delete _ cid e) by apply lookup_insert_eq. by rewrite delete_insert_eq. Qed.

Lemma sum_by_replace ns cid e e' :
  ns !! cid = Some e → w e' = w e → sum_by w (<[cid := e']> ns) = sum_by w ns.
Proof. intros Hi He. by rewrite sum_by_insert, (sum_by_delete ns cid e), He. Qed.

Lemma sum_by_fmap (g : NodeCacheEntry → NodeCacheEntry) ns :
  (∀ e, w (g e) = w e) → sum_by w (g <$> ns) = sum_by w ns.
Proof.
  intros Hg. induction ns as [|cid e ns Hi IH] using map_ind; [by rewrite fmap_empty|].
  rewrite fmap_insert, !sum_by_insert, !delete_id by (rewrite ?lookup_fmap, Hi; done). by rewrite Hg, IH.
Qed.

Lemma sum_by_nonneg ns : map_Forall (λ _ e, 0 ≤ w e) ns → 0 ≤ sum_by w ns.
Proof.
  intros Hw. induction ns as [|cid e ns Hi IH] using map_ind; [by rewrite sum_by_empty|].
  apply map_Forall_insert in Hw as [He Hw]; [|done]. rewrite sum_by_insert, delete_id by done. specialize (IH Hw). lia.
Qed.
End sums.

Lemma has_read_range e : 0 ≤ has_read e ≤ 1.
Proof. unfold has_read. destruct (ce_read e); lia. Qed.

Lemma has_read_nonneg ns : 0 ≤ sum_by has_read ns.
Proof. apply sum_by_nonneg. intros cid e _. apply has_read_range. Qed.

(** ** The invariant *)
Record counts_ok (self : NodeCache) : Prop := {
  ok_bytes : nc_bytes self = sum_by ce_bytes (nc_nodes self);
  ok_read : nc_read_nodes self = sum_by has_read (nc_nodes self);
  ok_weights : map_Forall (λ _ e, 0 ≤ ce_bytes e) (nc_nodes self);
}.

Definition logged (self : NodeCache) (cid : Cid) (e : NodeCacheEntry) : Prop :=
  (cid, ce_generation e) ∈ nc_access_log self.

(** A bounded cache logs its entries, so that eviction can find them.  How far it does
    depends on the operations it has seen: all of them, all but pinned ones (which
    [clear_unpinned] drops from the log), or no guarantee. *)
Inductive tracking := AllLogged | UnpinnedLogged | Untracked.
Global Instance tracking_eq_dec : EqDecision tracking.
Proof. solve_decision. Defined.
Definition exempt (mode : tracking) (e : NodeCacheEntry) : Prop :=
  match mode with AllLogged => False | UnpinnedLogged => ce_pinned e = true | Untracked => True end.

Record cache_ok (mode : tracking) (self : NodeCache) : Prop := {
  ok_counts : counts_ok self;
  ok_logged : is_unbounded self = false →
    map_Forall (λ cid e, exempt mode e ∨ logged self cid e) (nc_nodes self);
  ok_disabled : is_disabled self = true → nc_nodes self = ∅;
}.

(** *** What eviction may do *)
Record evicts (self self' : NodeCache) : Prop := {
  ev_max_nodes : nc_max_nodes self' = nc_max_nodes self;
  ev_max_bytes : nc_max_bytes self' = nc_max_bytes self;
  ev_generation : nc_next_generation self' = nc_next_generation self;
  ev_sub : nc_nodes self' ⊆ nc_nodes self;
  ev_pinned cid e : nc_nodes self !! cid = Some e → ce_pinned e = true → nc_nodes self' !! cid = Some e;
  ev_log cid e : nc_nodes self' !! cid = Some e → logged self cid e → logged self' cid e;
  ev_counts : counts_ok self → counts_ok self';
}.

Global Instance evicts_preorder : PreOrder evicts.
Proof.
  split.
  - intros c. by constructor.
  - intros c1 c2 c3 [] []. constructor; try congruence; eauto.
    + by etrans.
    + intros cid e H1 H2. eauto using lookup_weaken.
Qed.

Lemma evicts_drop_stale self cid g log :
  nc_access_log self = (cid, g) :: log → ce_generation <$> nc_nodes self !! cid ≠ Some g →
  evicts self (set_log log self).
Proof.
  intros Hlog Hst. constructor; try done.
  - intros cid' e He. unfold logged. rewrite Hlog. cbn [nc_access_log set_log nc_nodes] in *.
    intros [[= -> Hg]|?]%elem_of_cons; [|done]. destruct Hst. rewrite He. cbn. by rewrite Hg.
  - intros []. by constructor.
Qed.

Lemma evicts_rotate self cid g log :
  nc_access_log self = (cid, g) :: log → evicts self (set_log (log ++ [(cid, g)]) self).
Proof.
  intros Hlog. constructor; try done.
  - intros cid' e He. unfold logged. rewrite Hlog. cbn [nc_access_log set_log].
    rewrite elem_of_app, list_elem_of_singleton, elem_of_cons. tauto.
  - intros []. by constructor.
Qed.

Lemma counts_ok_delete self cid e :
  counts_ok self → nc_nodes self !! cid = Some e →
  counts_ok (set_counts (saturating_sub (nc_bytes self) (ce_bytes e))
    (saturating_sub (nc_read_nodes self) (has_read e)) (set_nodes (delete cid (nc_nodes self)) self)).
Proof.
  intros [Hb Hr Hw] He. pose proof (map_Forall_delete _ _ cid Hw) as Hw'.
  constructor; cbn [nc_bytes nc_read_nodes nc_nodes set_counts set_nodes]; [..|done].
  - rewrite Hb, (sum_by_delete _ _ _ _ He). pose proof (sum_by_nonneg _ _ Hw'). unfold saturating_sub. lia.
  - rewrite Hr, (sum_by_delete _ _ _ _ He). pose proof (has_read_nonneg (delete cid (nc_nodes self))).
    unfold saturating_sub. lia.
Qed.

Lemma evicts_remove self cid e log :
  nc_access_log self = (cid, ce_generation e) :: log → nc_nodes self !! cid = Some e → ce_pinned e = false →
  evicts self (remove_entry (set_log log self) cid).2.
Proof.
  intros Hlog He Hp. unfold remove_entry. cbn [nc_nodes set_log]. rewrite He. cbn [snd].
  constructor; try done; cbn [nc_nodes set_counts set_nodes].
  - apply delete_subseteq.
  - intros cid' e' He' Hp'. apply lookup_delete_Some. split; [|done]. intros ->. congruence.
  - intros cid' e' [Hne He']%lookup_delete_Some. unfold logged. rewrite Hlog.
    cbn [nc_access_log set_counts set_nodes set_log]. intros [[= ? _]|?]%elem_of_cons; [congruence|done].
  - intros Hc. by apply (counts_ok_delete (set_log log self)); [destruct Hc|].
Qed.

(** *** Eviction terminates where it should *)
Definition live_pinned (self : NodeCache) (p : Cid * Z) : Prop :=
  ∃ e, nc_nodes self !! p.1 = Some e ∧ ce_generation e = p.2 ∧ ce_pinned e = true.

(** Either the limits hold or nothing that the log names can be evicted. *)
Definition settled (self : NodeCache) : Prop :=
  exceeds_limit self = false ∨ Forall (live_pinned self) (nc_access_log self).

(** One iteration on the first item of the log. *)
Section evict_step.
Context (fuel : nat) (self : NodeCache) (evicted scanned : Z) (cid : Cid) (g : Z) (log : list (Cid * Z)).
Hypothesis Hex : exceeds_limit self = true.
Hypothesis Hlog : nc_access_log self = (cid, g) :: log.

Lemma evict_step_stale :
  ce_generation <$> nc_nodes self !! cid ≠ Some g →
  evict_loop (S fuel) self evicted scanned = evict_loop fuel (set_log log self) evicted scanned.
Proof.
  intros Hst. cbn [evict_loop]. rewrite Hex, Hlog. cbn [nc_nodes set_log].
  destruct (nc_nodes self !! cid) as [e|]; [|done].
  destruct (Z.eqb_spec (ce_generation e) g); [|done]. cbn in Hst. congruence.
Qed.

Lemma evict_step_pinned e :
  nc_nodes self !! cid = Some e → ce_generation e = g → ce_pinned e = true →
  let self' := set_log (log ++ [(cid, g)]) self in
  evict_loop (S fuel) self evicted scanned =
  if len (log ++ [(cid, g)]) <=? scanned + 1 then Some (evicted, self') else evict_loop fuel self' evicted (scanned + 1).
Proof.
  intros He Hg Hp. cbn [evict_loop]. rewrite Hex, Hlog. cbn [nc_nodes set_log].
  rewrite He, Hg, Z.eqb_refl, Hp. done.
Qed.

Lemma evict_step_remove e :
  nc_nodes self !! cid = Some e → ce_generation e = g → ce_pinned e = false →
  evict_loop (S fuel) self evicted scanned =
  evict_loop fuel (remove_entry (set_log log self) cid).2 (evicted + 1) 0.
Proof.
  intros He Hg Hp. cbn [evict_loop]. rewrite Hex, Hlog. cbn [nc_nodes set_log].
  rewrite He, Hg, Z.eqb_refl, Hp. unfold remove_entry. cbn [nc_nodes set_log]. by rewrite He.
Qed.
End evict_step.

Lemma remove_entry_log self cid : nc_access_log (remove_entry self cid).2 = nc_access_log self.
Proof. unfold remove_entry. by destruct (nc_nodes self !! cid). Qed.

Lemma evict_loop_spec fuel self evicted front back :
  nc_access_log self = front ++ back → Forall (live_pinned self) back →
  let n := length (nc_access_log self) in (n * n + n - length back < fuel)%nat →
  ∃ r, evict_loop fuel self evicted (len back) = Some r ∧ evicts self r.2 ∧ settled r.2.
Proof.
  revert self evicted front back; induction fuel as [|fuel IH]; intros self evicted front back Hlog Hback n Hfuel; [lia|].
  destruct (exceeds_limit self) eqn:Hex.
  2: { cbn [evict_loop]. rewrite Hex. eexists. split; [done|]. split; [reflexivity|by left]. }
  destruct front as [|[cid g] front].
  { cbn [app] in Hlog. destruct back as [|[cid g] back].
    - cbn [evict_loop]. rewrite Hex, Hlog. eexists. split; [done|]. split; [reflexivity|]. right. cbn [snd]. by rewrite Hlog.
    - destruct (proj1 (Forall_cons_iff _ _ _) Hback) as [(e & He & Hg & Hp) Hrest]. cbn [fst snd] in *.
      rewrite (evict_step_pinned fuel self evicted _ cid g back Hex Hlog e He Hg Hp).
      rewrite (proj2 (Z.leb_le _ _)) by len_lia. eexists. split; [done|]. split; [by apply evicts_rotate|]. right.
      apply Forall_app. split; [done|]. constructor; [by exists e|done]. }
  cbn [app] in Hlog. unfold n in Hfuel. rewrite Hlog in Hfuel. cbn [length] in Hfuel. rewrite length_app in Hfuel.
  destruct (decide (ce_generation <$> nc_nodes self !! cid = Some g)) as [Hg|Hst].
  - destruct (nc_nodes self !! cid) as [e|] eqn:He; [|done]. injection Hg as Hg. destruct (ce_pinned e) eqn:Hp.
    + rewrite (evict_step_pinned fuel self evicted (len back) cid g (front ++ back) Hex Hlog e He Hg Hp).
      rewrite <- app_assoc. assert (evicts self (set_log (front ++ back ++ [(cid, g)]) self)) as Hev
        by (rewrite app_assoc; by apply evicts_rotate).
      assert (Forall (live_pinned self) (back ++ [(cid, g)])) as Hback'
        by (apply Forall_app; split; [done|]; constructor; [by exists e|done]).
      destruct (Z.leb_spec (len (front ++ back ++ [(cid, g)])) (len back + 1)) as [Hall|Hmore].
      * eexists. split; [done|]. split; [done|]. right. cbn [nc_access_log set_log]. destruct front; [done|].
        exfalso. clear -Hall. len_lia.
      * replace (len back + 1) with (len (back ++ [(cid, g)])) by len_lia.
        destruct (IH (set_log (front ++ back ++ [(cid, g)]) self) evicted front (back ++ [(cid, g)])) as (r & Hr & Hev' & Hs);
          [done|done| |exists r; split; [done|split; [by etrans|done]]].
        cbn [nc_access_log set_log]. rewrite !length_app. cbn [length]. nia.
    + rewrite (evict_step_remove fuel self evicted (len back) cid g (front ++ back) Hex Hlog e He Hg Hp).
      subst g. pose proof (evicts_remove self cid e (front ++ back) Hlog He Hp) as Hev.
      set (self1 := (remove_entry (set_log (front ++ back) self) cid).2) in *.
      assert (nc_access_log self1 = front ++ back) as Hl1 by apply remove_entry_log.
      destruct (IH self1 (evicted + 1) (front ++ back) []) as (r & Hr & Hev' & Hs);
        [by rewrite app_nil_r|constructor| |exists r; split; [done|split; [by etrans|done]]].
      rewrite Hl1, length_app. cbn [length]. nia.
  - rewrite (evict_step_stale fuel self evicted (len back) cid g (front ++ back) Hex Hlog Hst).
    assert (evicts self (set_log (front ++ back) self)) as Hev by (by eapply evicts_drop_stale).
    destruct (IH (set_log (front ++ back) self) evicted front back) as (r & Hr & Hev' & Hs);
      [done|done| |exists r; split; [done|split; [by etrans|done]]].
    cbn [nc_access_log set_log]. rewrite length_app. nia.
Qed.

(** The fuel is enough for every cache. *)
Lemma evict_ends self :
  ∃ r, evict_loop (evict_fuel self) self 0 0 = Some r ∧ evict_to_limit self = r ∧ evicts self r.2 ∧ settled r.2.
Proof.
  destruct (evict_loop_spec (evict_fuel self) self 0 (nc_access_log self) []) as (r & Hr & Hev & Hs);
    [by rewrite app_nil_r|constructor|unfold evict_fuel; cbn [length]; lia|].
  exists r. unfold evict_to_limit. change (len []) with 0 in Hr. by rewrite Hr.
Qed.

Lemma evict_to_limit_spec self :
  evicts self (evict_to_limit self).2 ∧ settled (evict_to_limit self).2.
Proof. by destruct (evict_ends self) as (r & _ & -> & ?). Qed.

(** *** The invariant is kept *)
Lemma evicts_ok mode self self' : cache_ok mode self → evicts self self' → cache_ok mode self'.
Proof.
  intros [Hc Hl Hd] [Hmn Hmb _ Hsub Hpin Hlog Hcounts]. constructor.
  - by apply Hcounts.
  - unfold is_unbounded in *. rewrite Hmn, Hmb. intros Hu cid e He.
    destruct (Hl Hu cid e) as [Hp|Hp]; [by eapply lookup_weaken|by left|right; by apply Hlog].
  - unfold is_disabled in *. rewrite Hmn, Hmb. intros Hdis. specialize (Hd Hdis). rewrite Hd in Hsub.
    apply map_eq. intros cid. rewrite lookup_empty. destruct (nc_nodes self' !! cid) eqn:He; [|done].
    by eapply lookup_weaken in Hsub; [rewrite lookup_empty in Hsub|].
Qed.

Lemma compact_nodes self : nc_nodes (compact_access_log_if_needed self) = nc_nodes self.
Proof. unfold compact_access_log_if_needed. by case_bool. Qed.

Lemma compact_evicts self : evicts self (compact_access_log_if_needed self).
Proof.
  unfold compact_access_log_if_needed. case_bool; [reflexivity|]. constructor; try done.
  - intros cid e He Hlog. unfold logged in *. cbn [nc_access_log set_log nc_nodes] in *.
    apply list_elem_of_filter. split; [|done]. cbn [fst snd]. by rewrite He.
  - by intros [].
Qed.

Lemma exceeds_compact self : exceeds_limit (compact_access_log_if_needed self) = exceeds_limit self.
Proof. unfold compact_access_log_if_needed. by case_bool. Qed.

(** The limits hold unless everything left is pinned. *)
Definition within (self : NodeCache) : Prop :=
  exceeds_limit self = false ∨ map_Forall (λ _ e, ce_pinned e = true) (nc_nodes self).

Lemma unbounded_within self : is_unbounded self = true → exceeds_limit self = false.
Proof.
  unfold is_unbounded, exceeds_limit. intros [H1%bool_decide_eq_true H2%bool_decide_eq_true]%andb_true_iff.
  by rewrite H1, H2.
Qed.

Definition tracked_within (mode : tracking) (self : NodeCache) : Prop := mode ≠ Untracked → within self.

Lemma settled_within mode self : cache_ok mode self → settled self → tracked_within mode self.
Proof.
  intros Hok [Hs|Hs] Hm; [by left|]. destruct (is_unbounded self) eqn:Hu; [left; by apply unbounded_within|].
  right. intros cid e He. destruct (ok_logged _ _ Hok Hu cid e He) as [Hp|Hlog]; [by destruct mode|].
  unfold logged in Hlog. rewrite Forall_forall in Hs. destruct (Hs _ Hlog) as (e' & He' & _ & Hp). cbn in He'. congruence.
Qed.

(** Eviction and compaction after an update. *)
Definition evict_compact (self : NodeCache) : NodeCache :=
  compact_access_log_if_needed (evict_to_limit self).2.

Lemma evict_compact_spec mode self :
  cache_ok mode self →
  cache_ok mode (evict_compact self) ∧ tracked_within mode (evict_compact self) ∧ evicts self (evict_compact self).
Proof.
  intros Hok. destruct (evict_to_limit_spec self) as [Hev Hs].
  pose proof (evicts_ok _ _ _ Hok Hev) as Hok1. pose proof (compact_evicts (evict_to_limit self).2) as Hc.
  split; [by eapply evicts_ok|]. split; [|by etrans].
  intros Hm. destruct (settled_within _ _ Hok1 Hs Hm) as [Hw|Hw]; unfold evict_compact.
  - left. by rewrite exceeds_compact.
  - right. by rewrite compact_nodes.
Qed.

(** Replacing an entry by one of the same weight. *)
Lemma counts_ok_replace self cid e e' log g :
  counts_ok self → nc_nodes self !! cid = Some e → ce_bytes e' = ce_bytes e → ce_read e' = ce_read e →
  counts_ok (set_log log (set_nodes (<[cid := e']> (nc_nodes self)) (set_generation g self))).
Proof.
  intros [Hb Hr Hw] He Hbe Hre. constructor; cbn [nc_bytes nc_read_nodes nc_nodes set_log set_nodes set_generation].
  - by rewrite (sum_by_replace _ _ _ e).
  - rewrite (sum_by_replace _ _ _ e); [done|done|]. unfold has_read. by rewrite Hre.
  - apply map_Forall_insert_2; [|done]. rewrite Hbe. exact (Hw cid e He).
Qed.

Lemma touch_ok mode self cid e e' g :
  cache_ok mode self → nc_nodes self !! cid = Some e → ce_bytes e' = ce_bytes e → ce_read e' = ce_read e →
  ce_pinned e' = ce_pinned e → cache_ok mode (touch cid e' g (set_generation g self)).
Proof.
  intros Hok He Hb Hr Hp. unfold touch. eapply evicts_ok; [|apply compact_evicts].
  cbn [nc_nodes set_generation nc_access_log set_nodes]. constructor.
  - by apply (counts_ok_replace self cid e); [apply Hok|..].
  - intros Hu cid' e1 He1. cbn [nc_nodes set_log set_nodes set_generation] in He1.
    unfold logged. cbn [nc_access_log set_log]. rewrite elem_of_app, list_elem_of_singleton.
    destruct (decide (cid' = cid)) as [->|Hne].
    + rewrite lookup_insert_eq in He1. injection He1 as <-. right. by right.
    + rewrite lookup_insert_ne in He1 by done.
      destruct (ok_logged _ _ Hok Hu cid' e1 He1) as [?|?]; [by left|right; by left].
  - intros Hd. pose proof (ok_disabled _ _ Hok Hd) as Hn. by rewrite Hn, lookup_empty in He.
Qed.

(** *** Insertion *)
Lemma sum_read_le ns : sum_by has_read ns ≤ Z.of_nat (size ns).
Proof.
  induction ns as [|cid e ns Hi IH] using map_ind; [by rewrite sum_by_empty|].
  rewrite sum_by_insert, delete_id, map_size_insert_None by done. pose proof (has_read_range e). lia.
Qed.

(** What an inserted entry adds to the counters. *)
Definition counters_after (self : NodeCache) (cid : Cid) (e : NodeCacheEntry) : Z * Z :=
  let rest := delete cid (nc_nodes self) in
  (ce_bytes e + sum_by ce_bytes rest, has_read e + sum_by has_read rest).

Lemma insert_settles mode self cid e np b r :
  cache_ok mode self → is_disabled self = false → 0 ≤ ce_bytes e → (b, r) = counters_after self cid e →
  let self1 := set_counts b r (set_nodes (<[cid := e]> (nc_nodes self)) (set_generation (ce_generation e) self)) in
  let self' := (settle cid (ce_generation e) np self1).2 in
  cache_ok mode self' ∧ tracked_within mode self' ∧ nc_nodes self' ⊆ <[cid := e]> (nc_nodes self) ∧
  nc_max_nodes self' = nc_max_nodes self ∧ nc_max_bytes self' = nc_max_bytes self.
Proof.
  intros Hok Hd Hw Hbr self1. injection Hbr as -> ->.
  assert (counts_ok self1) as Hcounts.
  { constructor; cbn [self1 nc_bytes nc_read_nodes nc_nodes set_counts set_nodes].
    - by rewrite sum_by_insert.
    - by rewrite sum_by_insert.
    - apply map_Forall_insert_2; [done|]. apply Hok. }
  assert (is_disabled self1 = true → nc_nodes self1 = ∅) as Hdis.
  { intros Hd'. change (is_disabled self1) with (is_disabled self) in Hd'. congruence. }
  unfold settle. destruct (is_unbounded self1) eqn:Hu; cbn zeta; cbn [snd].
  - split; [constructor; [done|by rewrite Hu|done]|]. split; [intros _; left; by apply unbounded_within|]. done.
  - set (self2 := set_log (nc_access_log self1 ++ [(cid, ce_generation e)]) self1).
    assert (cache_ok mode self2) as Hok2.
    { constructor; [by destruct Hcounts|..|done]. intros _ cid' e1 He1.
      cbn [nc_nodes self2 self1 set_log set_counts set_nodes] in He1. unfold logged.
      cbn [nc_access_log self2 self1 set_log set_counts set_nodes set_generation].
      rewrite elem_of_app, list_elem_of_singleton. destruct (decide (cid' = cid)) as [->|Hne].
      + rewrite lookup_insert_eq in He1. injection He1 as <-. right. by right.
      + rewrite lookup_insert_ne in He1 by done.
        destruct (ok_logged _ _ Hok Hu cid' e1 He1) as [?|?]; [by left|right; by left]. }
    destruct (evict_compact_spec mode self2 Hok2) as (Hok' & Hw' & Hev). unfold evict_compact in *.
    destruct (evict_to_limit self2) as [ev self3]. cbn [snd] in *.
    split; [done|]. split; [done|]. split; [apply Hev|]. split; [apply Hev|apply Hev].
Qed.

Definition cache_room (self : NodeCache) (weight : Z) : Prop :=
  0 ≤ weight ∧ nc_bytes self + weight ≤ usize_max ∧ cache_len self < usize_max.

Lemma removed_counters mode self cid :
  cache_ok mode self →
  sum_by ce_bytes (delete cid (nc_nodes self)) =
    match nc_nodes self !! cid with
    | Some p => saturating_sub (nc_bytes self) (ce_bytes p) | None => nc_bytes self end ∧
  sum_by has_read (delete cid (nc_nodes self)) =
    match nc_nodes self !! cid with
    | Some p => saturating_sub (nc_read_nodes self) (has_read p) | None => nc_read_nodes self end ∧
  0 ≤ sum_by ce_bytes (delete cid (nc_nodes self)) ≤ nc_bytes self ∧
  0 ≤ sum_by has_read (delete cid (nc_nodes self)) ≤ cache_len self.
Proof.
  intros [[Hb Hr Hw] _ _]. pose proof (map_Forall_delete _ _ cid Hw) as Hw'.
  pose proof (sum_by_nonneg _ _ Hw'). pose proof (has_read_nonneg (delete cid (nc_nodes self))).
  pose proof (sum_read_le (nc_nodes self)). unfold cache_len, saturating_sub.
  destruct (nc_nodes self !! cid) as [e|] eqn:He.
  - rewrite Hb, Hr. rewrite (sum_by_delete ce_bytes _ _ _ He), (sum_by_delete has_read _ _ _ He) in *.
    pose proof (has_read_range e). specialize (Hw _ _ He). cbn in Hw. lia.
  - rewrite delete_id in * by done. rewrite Hb, Hr. lia.
Qed.

Lemma cleared_ok mode self :
  let self' := (cache_clear self).2 in cache_ok mode self' ∧ nc_nodes self' = ∅.
Proof.
  unfold cache_clear. cbn zeta; cbn [snd]. split; [|done].
  constructor; [constructor; [by rewrite sum_by_empty..|]|..]; cbn [nc_nodes set_counts set_log set_nodes].
  - apply map_Forall_empty.
  - intros _. apply map_Forall_empty.
  - done.
Qed.

Lemma insert_owned_ok mode self cid node weight pinned :
  cache_ok mode self → cache_room self weight →
  let self' := (insert_owned_with_pin self cid node weight pinned).2 in
  cache_ok mode self' ∧ tracked_within mode self' ∧
  ∃ e, nc_nodes self' ⊆ <[cid := e]> (nc_nodes self) ∧
    ce_owned e = Some node ∧ ce_read e = None ∧ ce_bytes e = weight.
Proof.
  intros Hok (H0 & Hb & Hl). unfold insert_owned_with_pin. destruct (is_disabled self) eqn:Hd.
  { destruct (cleared_ok mode self) as [Hok' Hn]. destruct (cache_clear self) as [ev self']; cbn [snd] in *.
    split; [done|]. split; [intros _; right; rewrite Hn; apply map_Forall_empty|].
    exists {| ce_owned := Some node; ce_read := None; ce_generation := 0; ce_bytes := weight; ce_pinned := pinned |}.
    rewrite Hn. split; [apply map_empty_subseteq|done]. }
  unfold next_generation. cbn [nc_nodes set_generation nc_bytes nc_read_nodes].
  set (g := wrap 64 _).
  set (e := {| ce_owned := Some node; ce_read := None; ce_generation := g; ce_bytes := weight;
               ce_pinned := keep_pin pinned (nc_nodes self !! cid) |}).
  destruct (match nc_nodes self !! cid with Some _ => _ | None => _ end) as [b r] eqn:Hbr.
  destruct (removed_counters mode self cid Hok) as (Hrb & Hrr & Hrange & _).
  assert ((saturating_add usize_max b weight, r) = counters_after self cid e) as Hca.
  { unfold counters_after. cbn [ce_bytes e]. change (has_read e) with 0. rewrite Hrb, Hrr in *. unfold saturating_add.
    destruct (nc_nodes self !! cid); injection Hbr as <- <-; f_equal; lia. }
  destruct (insert_settles mode self cid e (newly_pinned pinned (nc_nodes self !! cid)) _ _ Hok Hd H0 Hca)
    as (Hok' & Hw & Hsub & _). split; [exact Hok'|]. split; [exact Hw|]. by exists e.
Qed.

Lemma insert_read_ok mode self cid node pinned :
  cache_ok mode self → cache_room self (rn_retained_bytes node) →
  let self' := (insert_read_with_pin self cid node pinned).2 in
  cache_ok mode self' ∧ tracked_within mode self' ∧
  ∃ e, nc_nodes self' ⊆ <[cid := e]> (nc_nodes self) ∧
    ce_owned e = None ∧ ce_read e = Some node ∧ ce_bytes e = rn_retained_bytes node.
Proof.
  intros Hok (H0 & Hb & Hl). unfold insert_read_with_pin. destruct (is_disabled self) eqn:Hd.
  { destruct (cleared_ok mode self) as [Hok' Hn]. destruct (cache_clear self) as [ev self']; cbn [snd] in *.
    split; [done|]. split; [intros _; right; rewrite Hn; apply map_Forall_empty|].
    exists {| ce_owned := None; ce_read := Some node; ce_generation := 0; ce_bytes := rn_retained_bytes node;
              ce_pinned := pinned |}.
    rewrite Hn. split; [apply map_empty_subseteq|done]. }
  unfold next_generation. cbn [nc_nodes set_generation nc_bytes nc_read_nodes].
  set (g := wrap 64 _).
  set (e := {| ce_owned := None; ce_read := Some node; ce_generation := g; ce_bytes := rn_retained_bytes node;
               ce_pinned := keep_pin pinned (nc_nodes self !! cid) |}).
  destruct (match nc_nodes self !! cid with Some _ => _ | None => _ end) as [b r] eqn:Hbr.
  destruct (removed_counters mode self cid Hok) as (Hrb & Hrr & Hrange & Hrange').
  assert ((saturating_add usize_max b (rn_retained_bytes node), r) = counters_after self cid e) as Hca.
  { unfold counters_after. cbn [ce_bytes e]. change (has_read e) with 1. rewrite Hrb, Hrr in *.
    unfold saturating_add, saturating_sub in *.
    destruct (nc_nodes self !! cid) as [p|] eqn:Hp; [|injection Hbr as <- <-; f_equal; lia].
    pose proof (ok_read _ (ok_counts _ _ Hok)) as Hr. rewrite (sum_by_delete has_read _ _ _ Hp) in Hr.
    assert (has_read p = match ce_read p with Some _ => 1 | None => 0 end) as Hhp by done.
    destruct (ce_read p); injection Hbr as <- <-; f_equal; lia. }
  destruct (insert_settles mode self cid e (newly_pinned pinned (nc_nodes self !! cid)) _ _ Hok Hd H0 Hca)
    as (Hok' & Hw & Hsub & _). split; [exact Hok'|]. split; [exact Hw|]. by exists e.
Qed.

(** ** What the cache returns *)
(** The representations of an entry are of one node that satisfies [P]. *)
Definition entry_holds (P : Cid → Node → Prop) (cid : Cid) (e : NodeCacheEntry) : Prop :=
  ∃ n, P cid n ∧ (∀ n', ce_owned e = Some n' → n' = n) ∧ (∀ r, ce_read e = Some r → view r n) ∧
       (ce_owned e ≠ None ∨ ce_read e ≠ None).
Definition holds (P : Cid → Node → Prop) (self : NodeCache) : Prop :=
  map_Forall (entry_holds P) (nc_nodes self).

Lemma entry_owned_holds P cid e :
  entry_holds P cid e → ∃ n, P cid n ∧ ∃ e', entry_owned e = Ok (n, e') ∧ entry_holds P cid e' ∧
    ce_bytes e' = ce_bytes e ∧ ce_read e' = ce_read e ∧ ce_pinned e' = ce_pinned e ∧
    ce_generation e' = ce_generation e.
Proof.
  intros (n & HP & Ho & Hr & Hor). exists n. split; [done|]. unfold entry_owned.
  destruct (ce_owned e) as [n'|] eqn:Hown.
  - rewrite (Ho n' eq_refl). exists e. split; [done|]. split; [|done].
    exists n. rewrite Hown. done.
  - destruct (ce_read e) as [r|] eqn:Hread; [|by destruct Hor].
    cbn [expect mbind outcome_bind]. rewrite (view_to_owned r n (Hr r eq_refl)). cbn [mbind outcome_bind].
    exists (with_owned n e). split; [done|]. split; [|done].
    exists n. cbn [with_owned ce_owned ce_read]. rewrite Hread. split; [done|]. split; [by intros ? [= ->]|].
    split; [done|by left].
Qed.

Lemma holds_evicts P self self' : holds P self → nc_nodes self' ⊆ nc_nodes self → holds P self'.
Proof. intros Hh Hsub cid e He. apply Hh. by eapply lookup_weaken. Qed.

Lemma holds_touch P self cid e g :
  holds P self → entry_holds P cid e → holds P (touch cid e g self).
Proof.
  intros Hh He. unfold touch, holds. rewrite compact_nodes. cbn [nc_nodes set_log set_nodes].
  apply map_Forall_insert_2; [|done]. exact He.
Qed.

(** Coherence needs nothing of the counters. *)
Lemma settle_sub cid g np self : nc_nodes (settle cid g np self).2 ⊆ nc_nodes self.
Proof.
  unfold settle. destruct (is_unbounded self); [done|].
  destruct (evict_to_limit_spec (set_log (nc_access_log self ++ [(cid, g)]) self)) as [Hev _].
  destruct (evict_to_limit _) as [ev self']. cbn [snd] in *. rewrite compact_nodes. apply Hev.
Qed.

Lemma insert_read_holds P self cid node pinned n :
  holds P self → view node n → P cid n → holds P (insert_read_with_pin self cid node pinned).2.
Proof.
  intros Hh Hv HP. unfold insert_read_with_pin. destruct (is_disabled self).
  { unfold holds, cache_clear. cbn [snd nc_nodes set_counts set_log set_nodes]. apply map_Forall_empty. }
  unfold next_generation. cbn [nc_nodes set_generation].
  destruct (match nc_nodes self !! cid with Some _ => _ | None => _ end) as [b r].
  eapply holds_evicts; [|apply settle_sub]. unfold holds. cbn [nc_nodes set_counts set_nodes set_generation].
  apply map_Forall_insert_2; [|done]. exists n. cbn [ce_owned ce_read]. split; [done|]. split; [done|].
  split; [by intros ? [= <-]|by right].
Qed.

Lemma insert_owned_holds P self cid node weight pinned :
  holds P self → P cid node → holds P (insert_owned_with_pin self cid node weight pinned).2.
Proof.
  intros Hh HP. unfold insert_owned_with_pin. destruct (is_disabled self).
  { unfold holds, cache_clear. cbn [snd nc_nodes set_counts set_log set_nodes]. apply map_Forall_empty. }
  unfold next_generation. cbn [nc_nodes set_generation].
  destruct (match nc_nodes self !! cid with Some _ => _ | None => _ end) as [b r].
  eapply holds_evicts; [|apply settle_sub]. unfold holds. cbn [nc_nodes set_counts set_nodes set_generation].
  apply map_Forall_insert_2; [|done]. exists node. cbn [ce_owned ce_read]. split; [done|]. split; [by intros ? [= ->]|].
  split; [done|by left].
Qed.

Lemma peek_holds P self cid :
  holds P self → ∃ o self', peek self cid = Ok (o, self') ∧ holds P self' ∧ from_option (P cid) True o.
Proof.
  intros Hh. unfold peek. destruct (nc_nodes self !! cid) as [e|] eqn:He; [|by exists None, self].
  destruct (entry_owned_holds P cid e (Hh cid e He)) as (n & HP & e' & Heo & He' & _).
  rewrite Heo. cbn [mbind outcome_bind]. eexists _, _. split; [done|]. split; [|done].
  unfold holds. cbn [nc_nodes set_nodes]. by apply map_Forall_insert_2.
Qed.

Lemma cache_get_holds P self cid :
  holds P self →
  ∃ o self', cache_get self cid = Ok (o, self') ∧ holds P self' ∧ from_option (P cid) True o.
Proof.
  intros Hh. unfold cache_get, peek. destruct (nc_nodes self !! cid) as [e|] eqn:He.
  2: { exists None, self. destruct (is_unbounded self); done. }
  destruct (entry_owned_holds P cid e (Hh cid e He)) as (n & HP & e' & Heo & He' & _).
  destruct (is_unbounded self); [|unfold next_generation]; rewrite Heo; cbn [mbind outcome_bind];
    eexists _, _; (split; [done|]); (split; [|done]).
  - unfold holds. cbn [nc_nodes set_nodes]. by apply map_Forall_insert_2.
  - by apply holds_touch.
Qed.

Lemma get_read_holds P self cid :
  holds P self →
  holds P (get_read self cid).2 ∧
  match (get_read self cid).1 with Some r => ∃ n, view r n ∧ P cid n | None => True end.
Proof.
  intros Hh. unfold get_read, peek_read. destruct (nc_nodes self !! cid) as [e|] eqn:He.
  2: { destruct (is_unbounded self); done. }
  pose proof (Hh cid e He) as He'. destruct He' as (n & HP & Ho & Hr & Hor).
  assert (∀ r, ce_read e = Some r → ∃ n, view r n ∧ P cid n) as Hres by (intros r Her; exists n; auto).
  destruct (is_unbounded self); cbn [mbind option_bind].
  - cbn [fst snd]. split; [done|]. destruct (ce_read e); [by apply Hres|done].
  - destruct (ce_read e) as [r|] eqn:Her; [|done]. unfold next_generation. cbn [fst snd]. split; [|by apply Hres].
    apply holds_touch; [done|exact (Hh cid e He)].
Qed.

(** ** Sequences of operations *)
Inductive cache_op :=
| OpGet (cid : Cid)
| OpGetRead (cid : Cid)
| OpInsert (cid : Cid) (node : Node) (weight : Z) (pinned : bool)
| OpInsertRead (cid : Cid) (node : ReadNode) (pinned : bool)
| OpPin (cid : Cid)
| OpUnpinAll
| OpClear
| OpClearUnpinned.

Definition run_op (self : NodeCache) (op : cache_op) : outcome Error NodeCache :=
  match op with
  | OpGet cid => snd <$> cache_get self cid
  | OpGetRead cid => Ok (get_read self cid).2
  | OpInsert cid node weight pinned => Ok (insert_owned_with_pin self cid node weight pinned).2
  | OpInsertRead cid node pinned => Ok (insert_read_with_pin self cid node pinned).2
  | OpPin cid => Ok (pin_existing self cid).2
  | OpUnpinAll => Ok (unpin_all self).2
  | OpClear => Ok (cache_clear self).2
  | OpClearUnpinned => Ok (clear_unpinned self).2
  end.

Fixpoint run_ops (self : NodeCache) (ops : list cache_op) : outcome Error NodeCache :=
  match ops with [] => Ok self | op :: ops' => self' ← run_op self op; run_ops self' ops' end.

Definition op_weight (op : cache_op) : Z :=
  match op with OpInsert _ _ weight _ => weight | OpInsertRead _ node _ => rn_retained_bytes node | _ => 0 end.

(** The inserted nodes satisfy [P] and have a weight. *)
Definition op_holds (P : Cid → Node → Prop) (op : cache_op) : Prop :=
  match op with
  | OpInsert cid node weight _ => P cid node ∧ 0 ≤ weight
  | OpInsertRead cid node _ => ∃ n, view node n ∧ P cid n
  | _ => True
  end.

(** [clear_unpinned] drops the log of the pinned entries, [unpin_all] relies on it. *)
Definition op_allowed (mode : tracking) (op : cache_op) : Prop :=
  match op with OpUnpinAll => mode ≠ UnpinnedLogged | OpClearUnpinned => mode ≠ AllLogged | _ => True end.
Global Instance op_allowed_dec mode op : Decision (op_allowed mode op).
Proof. destruct op; cbn; apply _. Defined.

Lemma retained_nonneg r : 0 ≤ rn_retained_bytes r.
Proof.
  unfold rn_retained_bytes, saturating_add, saturating_mul, usize_max, u64_max.
  pose proof (len_nonneg (rn_bytes r)). pose proof (len_nonneg (rn_entries r)).
  destruct (rn_prefix_keys r) as [a|]; cbn; [pose proof (len_nonneg a)|]; lia.
Qed.

Record state_ok (P : Cid → Node → Prop) (mode : tracking) (self : NodeCache) : Prop := {
  st_ok : cache_ok mode self;
  st_within : tracked_within mode self;
  st_holds : holds P self;
}.

Section preserved.
Context (P : Cid → Node → Prop) (mode : tracking).

Lemma touched_state self cid e e' g :
  state_ok P mode self → nc_nodes self !! cid = Some e → entry_holds P cid e' →
  ce_bytes e' = ce_bytes e → ce_read e' = ce_read e → ce_pinned e' = ce_pinned e →
  state_ok P mode (touch cid e' g (set_generation g self)).
Proof.
  intros [Hok Hw Hh] He He' Hb Hr Hp. constructor.
  - by eapply touch_ok.
  - intros Hm. destruct (Hw Hm) as [Hw'|Hw']; clear Hw; rename Hw' into Hw; unfold touch.
    + left. rewrite exceeds_compact. revert Hw. unfold exceeds_limit, cache_len.
      cbn [nc_max_nodes nc_max_bytes nc_nodes nc_bytes set_log set_nodes set_generation].
      by rewrite map_size_insert_Some.
    + right. rewrite compact_nodes. cbn [nc_nodes set_log set_nodes set_generation].
      apply map_Forall_insert_2; [|done]. cbn [with_generation ce_pinned]. rewrite Hp. exact (Hw cid e He).
  - by apply holds_touch.
Qed.

Lemma cache_get_state self cid :
  state_ok P mode self →
  ∃ o self', cache_get self cid = Ok (o, self') ∧ state_ok P mode self' ∧
    match o with Some n => P cid n | None => nc_nodes self !! cid = None end.
Proof.
  intros Hst. unfold cache_get, peek. destruct (nc_nodes self !! cid) as [e|] eqn:He.
  2: { exists None, self. destruct (is_unbounded self); done. }
  destruct (entry_owned_holds P cid e (st_holds _ _ _ Hst cid e He)) as (n & HP & e' & Heo & He' & Hb & Hr & Hp & Hg).
  destruct (is_unbounded self) eqn:Hu.
  - rewrite Heo. cbn [mbind outcome_bind]. eexists _, _. split; [done|]. split; [|done]. constructor.
    + destruct Hst as [Hok _ _]. constructor; [| |].
      * exact (counts_ok_replace self cid e e' (nc_access_log self) (nc_next_generation self) (ok_counts _ _ Hok) He Hb Hr).
      * intros Hu'. change (is_unbounded self = false) in Hu'. congruence.
      * intros Hd. pose proof (ok_disabled _ _ Hok Hd) as Hn. by rewrite Hn, lookup_empty in He.
    + intros _. left. by apply unbounded_within.
    + unfold holds. cbn [nc_nodes set_nodes]. apply map_Forall_insert_2; [done|apply Hst].
  - unfold next_generation. rewrite Heo. cbn [mbind outcome_bind]. eexists _, _. split; [done|]. split; [|done].
    by eapply touched_state.
Qed.

Lemma get_read_state self cid :
  state_ok P mode self →
  state_ok P mode (get_read self cid).2 ∧
  match (get_read self cid).1 with Some r => ∃ n, view r n ∧ P cid n | None => True end.
Proof.
  intros Hst. unfold get_read, peek_read. destruct (nc_nodes self !! cid) as [e|] eqn:He.
  2: { destruct (is_unbounded self); done. }
  destruct (st_holds _ _ _ Hst cid e He) as (n & HP & Ho & Hr & Hor).
  assert (∀ r, ce_read e = Some r → ∃ n, view r n ∧ P cid n) as Hres by (intros r Her; exists n; auto).
  destruct (is_unbounded self) eqn:Hu; cbn [mbind option_bind].
  - cbn [fst snd]. split; [done|]. destruct (ce_read e); [by apply Hres|done].
  - destruct (ce_read e) as [r|] eqn:Her; [|done]. unfold next_generation. cbn [fst snd]. split; [|by apply Hres].
    apply (touched_state self cid e e); [done|done| |done..]. exists n. rewrite Her. done.
Qed.

Lemma insert_state self cid (node : Node) weight pinned :
  state_ok P mode self → cache_room self weight → P cid node →
  state_ok P mode (insert_owned_with_pin self cid node weight pinned).2.
Proof.
  intros [Hok Hw Hh] Hroom HP. destruct (insert_owned_ok mode self cid node weight pinned Hok Hroom) as (Hok' & Hw' & e & Hsub & Ho & Hr & _).
  constructor; [done|done|]. eapply (holds_evicts P (set_nodes (<[cid := e]> (nc_nodes self)) self)); [|done].
  apply map_Forall_insert_2; [|done].
  exists node. rewrite Ho, Hr. split; [done|]. split; [by intros ? [= ->]|]. split; [done|by left].
Qed.

Lemma insert_read_state self cid (node : ReadNode) n pinned :
  state_ok P mode self → cache_room self (rn_retained_bytes node) → view node n → P cid n →
  state_ok P mode (insert_read_with_pin self cid node pinned).2.
Proof.
  intros [Hok Hw Hh] Hroom Hv HP. destruct (insert_read_ok mode self cid node pinned Hok Hroom) as (Hok' & Hw' & e & Hsub & Ho & Hr & _).
  constructor; [done|done|]. eapply (holds_evicts P (set_nodes (<[cid := e]> (nc_nodes self)) self)); [|done].
  apply map_Forall_insert_2; [|done].
  exists n. rewrite Ho, Hr. split; [done|]. split; [done|]. split; [by intros ? [= <-]|by right].
Qed.

Lemma pin_state self cid : state_ok P mode self → state_ok P mode (pin_existing self cid).2.
Proof.
  intros [Hok Hw Hh]. unfold pin_existing. destruct (nc_nodes self !! cid) as [e|] eqn:He; [|done]. cbn [snd].
  constructor; [constructor|..].
  - exact (counts_ok_replace self cid e (with_pinned true e) (nc_access_log self) (nc_next_generation self)
      (ok_counts _ _ Hok) He eq_refl eq_refl).
  - intros Hu cid' e' He'. cbn [nc_nodes set_nodes] in He'.
    apply lookup_insert_Some in He' as [[<- <-]|[_ He']]; [|exact (ok_logged _ _ Hok Hu _ _ He')].
    destruct (ok_logged _ _ Hok Hu _ _ He) as [Hx|?]; [left; by destruct mode|by right].
  - intros Hd. pose proof (ok_disabled _ _ Hok Hd) as Hn. by rewrite Hn, lookup_empty in He.
  - intros Hm. destruct (Hw Hm) as [Hw'|Hw']; clear Hw; rename Hw' into Hw; [left|right].
    + revert Hw. unfold exceeds_limit, cache_len. cbn [nc_max_nodes nc_max_bytes nc_nodes nc_bytes set_nodes].
      by rewrite map_size_insert_Some.
    + cbn [nc_nodes set_nodes]. by apply map_Forall_insert_2.
  - unfold holds. cbn [nc_nodes set_nodes]. apply map_Forall_insert_2; [exact (Hh _ _ He)|done].
Qed.

Lemma unpin_state self : mode ≠ UnpinnedLogged → state_ok P mode self → state_ok P mode (unpin_all self).2.
Proof.
  intros Hs [Hok Hw Hh]. unfold unpin_all. set (self1 := set_nodes _ self).
  assert (cache_ok mode self1) as Hok1.
  { constructor; [constructor|..]; cbn [self1 nc_bytes nc_read_nodes nc_nodes set_nodes].
    - rewrite sum_by_fmap by done. apply Hok.
    - rewrite sum_by_fmap by done. apply Hok.
    - apply map_Forall_fmap. intros cid e He. exact (ok_weights _ (ok_counts _ _ Hok) cid e He).
    - intros Hu. apply map_Forall_fmap. intros cid e He.
      destruct (ok_logged _ _ Hok Hu _ _ He) as [?|?]; [left; by destruct mode|by right].
    - intros Hd. by rewrite (ok_disabled _ _ Hok Hd), fmap_empty. }
  destruct (evict_compact_spec mode self1 Hok1) as (Hok' & Hw' & Hev). unfold evict_compact in *.
  destruct (evict_to_limit self1) as [ev self2]. cbn [snd] in *.
  constructor; [done|done|]. eapply (holds_evicts P self1); [|apply Hev].
  unfold holds. cbn [self1 nc_nodes set_nodes]. apply map_Forall_fmap. intros cid e He. exact (Hh cid e He).
Qed.

Lemma clear_state self : state_ok P mode self → state_ok P mode (cache_clear self).2.
Proof.
  intros _. destruct (cleared_ok mode self) as [Hok' Hn].
  constructor; [done|intros _; right|unfold holds]; rewrite Hn; apply map_Forall_empty.
Qed.

Lemma clear_unpinned_state self :
  mode ≠ AllLogged → state_ok P mode self → state_ok P mode (clear_unpinned self).2.
Proof.
  intros Hs [Hok Hw Hh]. unfold clear_unpinned. cbn [snd]. set (ns := filter _ (nc_nodes self)).
  assert (ns ⊆ nc_nodes self) as Hsub by apply map_filter_subseteq.
  assert (map_Forall (λ _ e, ce_pinned e = true) ns) as Hp.
  { intros cid e [_ He]%map_lookup_filter_Some. done. }
  constructor; [constructor; [constructor|..]|..]; cbn [nc_bytes nc_read_nodes nc_nodes set_counts set_log set_nodes].
  - done.
  - done.
  - intros cid e He. eapply (ok_weights _ (ok_counts _ _ Hok) cid). by eapply lookup_weaken.
  - intros _ cid e He. left. pose proof (Hp _ _ He). by destruct mode.
  - intros Hd. unfold ns. by rewrite (ok_disabled _ _ Hok Hd).
  - intros _. by right.
  - intros cid e He. apply Hh. by eapply lookup_weaken.
Qed.

Lemma run_op_state self op :
  state_ok P mode self → op_holds P op → op_allowed mode op → cache_room self (op_weight op) →
  ∃ self', run_op self op = Ok self' ∧ state_ok P mode self'.
Proof.
  intros Hst Hh Ha Hroom. destruct op; cbn [run_op op_holds op_allowed op_weight] in *.
  - destruct (cache_get_state self cid Hst) as (o & self' & -> & Hst' & _). by exists self'.
  - eexists. split; [done|]. apply (get_read_state self cid Hst).
  - destruct Hh as [HP _]. eexists. split; [done|]. by apply insert_state.
  - destruct Hh as (n & Hv & HP). eexists. split; [done|]. by eapply insert_read_state.
  - eexists. split; [done|]. by apply pin_state.
  - eexists. split; [done|]. by apply unpin_state.
  - eexists. split; [done|]. by apply clear_state.
  - eexists. split; [done|]. by apply clear_unpinned_state.
Qed.

End preserved.

(** *** Growth *)
Lemma sum_by_subseteq w ns ns' :
  ns ⊆ ns' → map_Forall (λ _ e, 0 ≤ w e) ns' → sum_by w ns ≤ sum_by w ns'.
Proof.
  revert ns'. induction ns as [|cid e ns Hi IH] using map_ind; intros ns' Hsub Hw.
  { rewrite sum_by_empty. by apply sum_by_nonneg. }
  rewrite sum_by_insert, delete_id by done.
  rewrite (sum_by_delete w ns' cid e) by (eapply lookup_weaken; [apply lookup_insert_eq|done]).
  specialize (IH (delete cid ns')). apply (map_Forall_delete _ _ cid) in Hw.
  assert (ns ⊆ delete cid ns') as Hsub'.
  { rewrite <- (delete_insert_id ns cid e Hi). by apply delete_mono. }
  specialize (IH Hsub' Hw). lia.
Qed.

Definition grows (self self' : NodeCache) (weight : Z) : Prop :=
  nc_bytes self' ≤ nc_bytes self + weight ∧ cache_len self' ≤ cache_len self + 1.

Lemma submap_grows self self' cid e :
  counts_ok self → counts_ok self' → nc_nodes self' ⊆ <[cid := e]> (nc_nodes self) → 0 ≤ ce_bytes e →
  grows self self' (ce_bytes e).
Proof.
  intros [Hb _ Hw] [Hb' _ _] Hsub He. split.
  - rewrite Hb, Hb'. etrans; [apply sum_by_subseteq; [exact Hsub|by apply map_Forall_insert_2]|].
    rewrite sum_by_insert. assert (sum_by ce_bytes (delete cid (nc_nodes self)) ≤ sum_by ce_bytes (nc_nodes self)); [|lia].
    apply sum_by_subseteq; [apply delete_subseteq|done].
  - unfold cache_len. apply map_subseteq_size in Hsub. rewrite map_size_insert in Hsub.
    destruct (nc_nodes self !! cid); unfold id in Hsub; lia.
Qed.

Lemma same_grows self self' :
  nc_bytes self' = nc_bytes self → cache_len self' = cache_len self → grows self self' 0.
Proof. unfold grows. lia. Qed.

Lemma touch_grows cid e e' g self :
  nc_nodes self !! cid = Some e → grows self (touch cid e' g (set_generation g self)) 0.
Proof.
  intros Hi. apply same_grows; unfold touch, cache_len; rewrite ?compact_nodes.
  - unfold compact_access_log_if_needed. by case_bool.
  - cbn [nc_nodes set_log set_nodes set_generation]. by rewrite map_size_insert_Some.
Qed.

Lemma sub_grows self self' :
  counts_ok self → counts_ok self' → nc_nodes self' ⊆ nc_nodes self → grows self self' 0.
Proof.
  intros [Hb _ Hw] [Hb' _ _] Hsub. split.
  - rewrite Hb, Hb'. pose proof (sum_by_subseteq ce_bytes _ _ Hsub Hw). lia.
  - unfold cache_len. apply map_subseteq_size in Hsub. lia.
Qed.

Lemma run_op_grows P mode self op self' :
  state_ok P mode self → op_holds P op → op_allowed mode op → cache_room self (op_weight op) →
  run_op self op = Ok self' → grows self self' (op_weight op).
Proof.
  intros Hst Hh Ha Hroom Hrun. destruct (run_op_state P mode self op Hst Hh Ha Hroom) as (self1 & Hrun1 & Hst1).
  rewrite Hrun in Hrun1. injection Hrun1 as <-.
  pose proof (ok_counts _ _ (st_ok _ _ _ Hst)) as Hc. pose proof (ok_counts _ _ (st_ok _ _ _ Hst1)) as Hc'.
  destruct op; cbn [run_op op_weight op_holds] in *; try (injection Hrun as <-).
  - unfold cache_get, peek in Hrun. destruct (nc_nodes self !! cid) as [e|] eqn:He.
    2: { destruct (is_unbounded self); injection Hrun as <-; by apply same_grows. }
    destruct (entry_owned e) as [[n e']| |] eqn:Heo; [|by destruct (is_unbounded self)..].
    destruct (is_unbounded self); injection Hrun as <-; [|by apply (touch_grows cid e)].
    apply same_grows; [done|]. unfold cache_len. cbn [nc_nodes set_nodes]. by rewrite map_size_insert_Some.
  - unfold get_read, peek_read. destruct (is_unbounded self); [by apply same_grows|].
    destruct (nc_nodes self !! cid) as [e|] eqn:He; [|by apply same_grows].
    destruct (ce_read e); [|by apply same_grows]. by apply (touch_grows cid e).
  - destruct (insert_owned_ok mode self cid node weight pinned (st_ok _ _ _ Hst) Hroom) as (_ & _ & e & Hsub & _ & _ & <-).
    apply (submap_grows self _ cid e); [done|done|done|]. apply Hh.
  - destruct (insert_read_ok mode self cid node pinned (st_ok _ _ _ Hst) Hroom) as (_ & _ & e & Hsub & _ & _ & Hbe).
    rewrite <- Hbe. apply (submap_grows self _ cid e); [done|done|done|]. rewrite Hbe. apply Hroom.
  - unfold pin_existing. destruct (nc_nodes self !! cid) as [e|] eqn:He; apply same_grows; try done.
    unfold cache_len. cbn [snd nc_nodes set_nodes]. by rewrite map_size_insert_Some.
  - destruct (evict_to_limit_spec (set_nodes (with_pinned false <$> nc_nodes self) self)) as [Hev _].
    unfold unpin_all in *. destruct (evict_to_limit _) as [ev self2] eqn:Hel. cbn [snd] in *.
    apply (sub_grows (set_nodes (with_pinned false <$> nc_nodes self) self)) in Hc'.
    + destruct Hc' as [H1 H2]. split; [exact H1|]. revert H2. unfold cache_len. cbn [nc_nodes set_nodes].
      by rewrite map_size_fmap.
    + destruct Hc as [Hb Hr Hw]. constructor; cbn [nc_bytes nc_read_nodes nc_nodes set_nodes];
        [by rewrite sum_by_fmap|by rewrite sum_by_fmap|]. apply map_Forall_fmap. intros cid e He. exact (Hw cid e He).
    + rewrite compact_nodes. apply Hev.
  - apply sub_grows; [done|done|]. apply map_empty_subseteq.
  - apply sub_grows; [done|done|]. apply map_filter_subseteq.
Qed.

Fixpoint ops_weight (ops : list cache_op) : Z :=
  match ops with [] => 0 | op :: ops' => op_weight op + ops_weight ops' end.

Lemma op_weight_nonneg P op : op_holds P op → 0 ≤ op_weight op.
Proof. destruct op; cbn; try lia. intros _. apply retained_nonneg. Qed.

Lemma ops_weight_nonneg P ops : Forall (op_holds P) ops → 0 ≤ ops_weight ops.
Proof. induction 1 as [|op ops Hop _ IH]; cbn; [done|]. pose proof (op_weight_nonneg P op Hop). lia. Qed.

Lemma run_ops_state P mode ops self :
  state_ok P mode self → Forall (op_holds P) ops → Forall (op_allowed mode) ops →
  nc_bytes self + ops_weight ops ≤ usize_max → cache_len self + len ops ≤ usize_max →
  ∃ self', run_ops self ops = Ok self' ∧ state_ok P mode self'.
Proof.
  intros Hst Hh. revert self Hst. induction Hh as [|op ops Hop Hh IH]; intros self Hst Ha Hb Hl.
  { by exists self. }
  apply Forall_cons_iff in Ha as [Hop' Ha]. cbn [run_ops ops_weight] in *. rewrite len_cons in Hl.
  pose proof (op_weight_nonneg P op Hop). pose proof (ops_weight_nonneg P ops Hh). pose proof (len_nonneg ops).
  assert (cache_room self (op_weight op)) as Hroom by (unfold cache_room; lia).
  destruct (run_op_state P mode self op Hst Hop Hop' Hroom) as (self1 & Hrun & Hst1).
  destruct (run_op_grows P mode self op self1 Hst Hop Hop' Hroom Hrun) as [Hgb Hgl].
  rewrite Hrun. cbn [mbind outcome_bind]. apply IH; [done|done|lia|lia].
Qed.

Lemma new_state P mode max_nodes max_bytes : state_ok P mode (NodeCache_new max_nodes max_bytes).
Proof.
  constructor; [constructor; [constructor|..]|intros _; right|]; cbn [NodeCache_new nc_bytes nc_read_nodes nc_nodes];
    rewrite ?sum_by_empty; try done; intros; apply map_Forall_empty.
Qed.

(** The mode in which a sequence of operations can be followed. *)
Definition ops_mode (ops : list cache_op) : tracking :=
  if decide (Forall (op_allowed AllLogged) ops) then AllLogged
  else if decide (Forall (op_allowed UnpinnedLogged) ops) then UnpinnedLogged else Untracked.

Lemma ops_mode_allowed ops : Forall (op_allowed (ops_mode ops)) ops.
Proof.
  unfold ops_mode. destruct (decide _) as [|_]; [done|]. destruct (decide _) as [|_]; [done|].
  apply Forall_forall. by intros [] _.
Qed.

Lemma ops_mode_tracked ops : OpUnpinAll ∉ ops ∨ OpClearUnpinned ∉ ops → ops_mode ops ≠ Untracked.
Proof.
  intros Hops. unfold ops_mode. destruct (decide _) as [|Ha]; [done|]. destruct (decide _) as [|Hu]; [done|]. intros _.
  destruct Hops as [Hops|Hops]; [destruct Hu|destruct Ha]; apply Forall_forall; intros [] Hin; done.
Qed.

(** C38.  The node cache keeps its invariant: in any sequence of lookups, insertions,
    pinning, unpinning and clearing, starting from an empty cache, no step panics; the
    byte and packed-node counters are the sums over the entries; and every lookup
    answers with a node that was inserted under that identifier.  The configured limits
    hold after the sequence unless all remaining entries are pinned, provided that
    [unpin_all] and [clear_unpinned] do not both occur in it.  The eviction loop ends
    within its fuel from every state of the cache, in a state where the limits hold or
    the access log names pinned entries only.  The inserted weights and the number of
    operations add up to at most the largest [usize]. *)
Theorem cache_invariant P max_nodes max_bytes ops :
  Forall (op_holds P) ops → ops_weight ops ≤ usize_max → len ops ≤ usize_max →
  (∃ self, run_ops (NodeCache_new max_nodes max_bytes) ops = Ok self ∧ counts_ok self ∧
    (OpUnpinAll ∉ ops ∨ OpClearUnpinned ∉ ops → within self) ∧
    (∀ cid, ∃ o self', cache_get self cid = Ok (o, self') ∧ from_option (P cid) True o) ∧
    (∀ cid r, (get_read self cid).1 = Some r → ∃ n, view r n ∧ P cid n)) ∧
  (∀ self, ∃ r, evict_loop (evict_fuel self) self 0 0 = Some r ∧ evict_to_limit self = r ∧ settled r.2).
Proof.
  intros Hh Hw Hl. split; [|intros self; destruct (evict_ends self) as (r & ? & ? & _ & ?); by exists r].
  destruct (run_ops_state P (ops_mode ops) ops _ (new_state P (ops_mode ops) max_nodes max_bytes) Hh (ops_mode_allowed ops))
    as (self & Hrun & Hst); [cbn [NodeCache_new nc_bytes]; lia|change (cache_len _) with 0; lia|].
  exists self. split; [done|]. split; [apply Hst|]. split; [by intros Hm%ops_mode_tracked; apply Hst|]. split.
  - intros cid. destruct (cache_get_state P _ self cid Hst) as (o & self' & Hg & _ & Ho).
    exists o, self'. split; [done|]. by destruct o.
  - intros cid r Hr. destruct (get_read_state P _ self cid Hst) as [_ Hres]. by rewrite Hr in Hres.
Qed.

(** *** Witnesses *)
Definition sample_ops : list cache_op :=
  [OpInsert [Byte.x01] sample_node 10 true; OpInsert [Byte.x02] new_leaf 10 false;
   OpInsert [Byte.x03] new_leaf 10 false; OpGet [Byte.x02]; OpUnpinAll].

Lemma cache_invariant_witness :
  ∃ self, run_ops (NodeCache_new (Some 2) None) sample_ops = Ok self ∧ counts_ok self ∧ within self.
Proof.
  destruct (cache_invariant (λ _ n, n = sample_node ∨ n = new_leaf) (Some 2) None sample_ops)
    as [(self & Hrun & Hc & Hw & _) _].
  - repeat constructor; auto; discriminate.
  - vm_compute; discriminate.
  - vm_compute; discriminate.
  - exists self. split; [exact Hrun|]. split; [exact Hc|]. apply Hw. right. unfold sample_ops. rewrite !not_elem_of_cons.
    repeat split; try discriminate. apply not_elem_of_nil.
Defined.

(** Clearing the unpinned entries and then unpinning leaves a cache above its
    limit: [clear_unpinned] drops the access log of the pinned entries too, so
    [unpin_all] finds nothing to evict although every entry has become evictable. *)
Theorem unpin_after_clear_exceeds self :
  counts_ok self → exceeds_limit self = true → map_Forall (λ _ e, ce_pinned e = true) (nc_nodes self) →
  let self' := (unpin_all (clear_unpinned self).2).2 in
  exceeds_limit self' = true ∧ cache_len self' = cache_len self ∧
  map_Forall (λ _ e, ce_pinned e = false) (nc_nodes self').
Proof.
  intros [Hb Hr _] Hex Hp. unfold clear_unpinned. cbn [snd].
  replace (filter _ (nc_nodes self)) with (nc_nodes self).
  2: { symmetry. apply map_filter_id. intros cid e He. exact (Hp cid e He). }
  rewrite <- Hb, <- Hr. unfold unpin_all. set (self1 := set_nodes _ _).
  assert (exceeds_limit self1 = true) as Hex1.
  { revert Hex. unfold exceeds_limit, cache_len, self1.
    cbn [nc_max_nodes nc_max_bytes nc_nodes nc_bytes set_nodes set_counts set_log]. by rewrite map_size_fmap. }
  assert (evict_to_limit self1 = (0, self1)) as ->.
  { unfold evict_to_limit, evict_fuel. cbn [evict_loop]. by rewrite Hex1. }
  assert (compact_access_log_if_needed self1 = self1) as ->.
  { unfold compact_access_log_if_needed. rewrite (proj2 (Z.leb_le _ _)); [done|].
    change (len (nc_access_log self1)) with 0. lia. }
  cbn [snd]. split; [done|]. split.
  - unfold cache_len, self1. cbn [nc_nodes set_nodes set_counts set_log]. by rewrite map_size_fmap.
  - unfold self1. cbn [nc_nodes set_nodes set_counts set_log]. apply map_Forall_fmap. by intros cid e _.
Qed.

Lemma unpin_after_clear_exceeds_witness :
  ∃ self, run_ops (NodeCache_new (Some 1) None)
      [OpInsert [Byte.x01] new_leaf 10 true; OpInsert [Byte.x02] new_leaf 10 true] = Ok self ∧
    exceeds_limit (unpin_all (clear_unpinned self).2).2 = true.
Proof.
  eexists. split; [reflexivity|].
  apply (unpin_after_clear_exceeds _); [constructor; [vm_compute; reflexivity|vm_compute; reflexivity|]
    |vm_compute; reflexivity|].
  { apply map_Forall_to_list. vm_compute. repeat constructor; discriminate. }
  apply map_Forall_to_list. vm_compute. repeat constructor.
Defined.

End NodeCache.
