(* ===== verification/Emitter.v ===== *)
(** * Streaming node emission (src/prolly/builder/streaming.rs)

    [LevelEmitter] buffers the entries of one level and emits a node at every
    boundary; [HierarchicalEmitter] chains one emitter per level.  The module holds
    the operations; their correctness is in EmitterSpec. *)

From Stdlib Require Import ZArith Lia Strings.Byte.
From stdpp Require Import base tactics numbers list strings option.
From S2P Require Import Prelude Cursor Types Format Boundary Node Sizer Chunks.
Import Format Node.

Local Open Scope Z_scope.

Module Emitter.

Record NodeSummary := { sm_cid : Cid; sm_first_key : bytes; sm_count : Z }.

Record EmittedNode := {
  em_summary : NodeSummary;
  em_node : Node;
  em_bytes : bytes;
  em_owned_payload_bytes : Z;
}.

Record LevelEmitter := {
  le_config : Config.Config;
  le_leaf : bool;
  le_level : Z;
  le_current : Node;
  le_detector : Boundary.BoundaryDetector;
  le_sizer : option Sizer.EncodedNodeSizer;
  le_encoded_measure : bool;
  le_upper_size : Z;
  le_current_payload_bytes : Z;
}.

(** [iter().sum()] on [u64]. *)
Fixpoint sum_u64 (l : list Z) (acc : Z) : outcome Error Z :=
  match l with
  | [] => Ok acc
  | x :: l' =>
      if acc + x <=? u64_max then sum_u64 l' (acc + x) else Panic "attempt to add with overflow"
  end.

Definition new_builder_node (config : Config.Config) (lf : bool) (lv : Z) : Node :=
  build (tree_format (Config.format config) (set_level lv (set_leaf lf NodeBuilder_new))).

Definition add_usize (a b : Z) : outcome Error Z := ok_or InvalidNode (checked_add usize_max a b).

Definition conservative_entry_upper (key value : bytes) (child_count : option Z) : outcome Error Z :=
  size ← Sizer.add64 (len key) (len value);
  Sizer.add64 size (match child_count with Some _ => 74 | None => 64 end).

Definition conservative_empty_upper (f : TreeFormat) : outcome Error Z :=
  Sizer.add64 128 (match value_encoding f with EncCustom name => len name | _ => 0 end).

Section hashes.
Context `{Hashes}.

(** ** One level *)
Definition LevelEmitter_new (config : Config.Config) (lf : bool) (lv : Z) : outcome Error LevelEmitter :=
  let f := Config.format config in
  if negb (Bool.eqb lf (lv =? 0)) then Err InvalidNode
  else
    validate f ≫= λ _,
    match node_layout f with
    | Custom id _ => no_codec id
    | _ =>
        let encoded_measure := bool_decide (measure (chunking f) = EncodedBytes) in
        sizer ← (if encoded_measure then Some <$> Sizer.EncodedNodeSizer_new f lf lv else Ok None);
        upper_size ← match sizer with
                     | Some sizer => Ok (Sizer.sz_size sizer)
                     | None => conservative_empty_upper f
                     end;
        detector ← Boundary.BoundaryDetector_new (chunking f) lv;
        Ok {| le_config := config; le_leaf := lf; le_level := lv;
              le_current := new_builder_node config lf lv; le_detector := detector;
              le_sizer := sizer; le_encoded_measure := encoded_measure;
              le_upper_size := upper_size; le_current_payload_bytes := 0 |}
    end.

Definition le_is_empty (self : LevelEmitter) : bool := bool_decide (keys (le_current self) = []).

(** Updates of the fields that [push_entry_with] assigns. *)
Definition with_size (self : LevelEmitter) (sizer : option Sizer.EncodedNodeSizer) (upper : Z) : LevelEmitter := {|
  le_config := le_config self; le_leaf := le_leaf self; le_level := le_level self;
  le_current := le_current self; le_detector := le_detector self; le_sizer := sizer;
  le_encoded_measure := le_encoded_measure self; le_upper_size := upper;
  le_current_payload_bytes := le_current_payload_bytes self |}.
Definition with_detector (self : LevelEmitter) (detector : Boundary.BoundaryDetector) : LevelEmitter := {|
  le_config := le_config self; le_leaf := le_leaf self; le_level := le_level self;
  le_current := le_current self; le_detector := detector; le_sizer := le_sizer self;
  le_encoded_measure := le_encoded_measure self; le_upper_size := le_upper_size self;
  le_current_payload_bytes := le_current_payload_bytes self |}.
Definition with_current (self : LevelEmitter) (current : Node) (payload : Z) : LevelEmitter := {|
  le_config := le_config self; le_leaf := le_leaf self; le_level := le_level self;
  le_current := current; le_detector := le_detector self; le_sizer := le_sizer self;
  le_encoded_measure := le_encoded_measure self; le_upper_size := le_upper_size self;
  le_current_payload_bytes := payload |}.

Definition flush_current (self : LevelEmitter) : outcome Error (option EmittedNode * LevelEmitter) :=
  if le_is_empty self then Ok (None, self)
  else
    let f := Config.format (le_config self) in
    let node := le_current self in
    let node_payload_bytes := le_current_payload_bytes self in
    let self := with_current self (new_builder_node (le_config self) (le_leaf self) (le_level self)) 0 in
    encoded ← to_bytes node;
    let hard_max := hard_max_node_bytes (chunking f) in
    if hard_max <? len encoded then Err (EntryTooLarge (len encoded) hard_max)
    else
      first_key ← expect "index out of bounds" (head (keys node));
      count ← (if le_leaf self then Ok (len (keys node)) else sum_u64 (child_counts node) 0);
      let summary :=
        {| sm_cid := Cid_from_bytes encoded; sm_first_key := first_key; sm_count := count |} in
      self ← match le_sizer self with
             | Some sizer =>
                 let sizer := Sizer.reset sizer in
                 Ok (with_size self (Some sizer) (Sizer.sz_size sizer))
             | None => with_size self None <$> conservative_empty_upper f
             end;
      owned ← add_usize node_payload_bytes (len encoded);
      owned ← add_usize owned (len first_key);
      Ok (Some {| em_summary := summary; em_node := node; em_bytes := encoded;
                  em_owned_payload_bytes := owned |}, self).

Fixpoint exact_loop (self : LevelEmitter) (indices : list nat) (sizer : Sizer.EncodedNodeSizer)
    : outcome Error Sizer.EncodedNodeSizer :=
  match indices with
  | [] => Ok sizer
  | index :: indices' =>
      let cur := le_current self in
      let at_index {A} (l : list A) i : outcome Error A := expect "index out of bounds" (l !! i) in
      previous_key ← match index with O => Ok None | S previous => Some <$> at_index (keys cur) previous end;
      buffered ← (if le_leaf self then Ok None else Some <$> at_index (child_counts cur) index);
      key ← at_index (keys cur) index;
      value ← at_index (vals cur) index;
      size ← Sizer.size_after sizer previous_key key value buffered;
      sizer ← Sizer.push_sized sizer key value size;
      exact_loop self indices' sizer
  end.

Definition exact_size_after (self : LevelEmitter) (key value : bytes) (child_count : option Z)
    : outcome Error Z :=
  sizer ← Sizer.EncodedNodeSizer_new (Config.format (le_config self)) (le_leaf self) (le_level self);
  sizer ← exact_loop self (seq 0 (length (keys (le_current self)))) sizer;
  Sizer.size_after sizer (list.last (keys (le_current self))) key value child_count.

(** [emit(self.flush_current()?.expect(..))]. *)
Definition flush_emit (self : LevelEmitter) (msg : string) : outcome Error (EmittedNode * LevelEmitter) :=
  '(node, self) ← flush_current self;
  node ← expect msg node;
  Ok (node, self).

(** [push_entry_with] flushes the buffer first when the entry does not fit with it,
    and measures the entry again, from its sizer or from scratch; then it fails if
    the entry does not fit alone.  The nodes that it emits are returned. *)
Definition force_encoded (self : LevelEmitter) (key value : bytes) (child_count : option Z)
    (encoded_size : Z) : outcome Error (list EmittedNode * Z * LevelEmitter) :=
  let hard_max := hard_max_node_bytes (chunking (Config.format (le_config self))) in
  if negb (le_is_empty self) && (hard_max <? encoded_size) then
    '(node, self) ← flush_emit self "nonempty node flushes";
    let self := with_detector self (Boundary.reset (le_detector self)) in
    sizer ← expect "encoded measure has a sizer" (le_sizer self);
    encoded_size ← Sizer.size_after sizer None key value child_count;
    Ok ([node], encoded_size, self)
  else Ok ([], encoded_size, self).

Definition make_room_encoded (self : LevelEmitter) (key value : bytes) (child_count : option Z)
    : outcome Error (list EmittedNode * Z * LevelEmitter) :=
  let hard_max := hard_max_node_bytes (chunking (Config.format (le_config self))) in
  sizer ← expect "encoded measure has a sizer" (le_sizer self);
  encoded_size ← Sizer.size_after sizer (list.last (keys (le_current self))) key value child_count;
  '(emitted, encoded_size, self) ← force_encoded self key value child_count encoded_size;
  if hard_max <? encoded_size then Err (EntryTooLarge encoded_size hard_max)
  else
    sizer ← expect "encoded measure has a sizer" (le_sizer self);
    let encoded_entry_bytes := saturating_sub encoded_size (Sizer.sz_size sizer) in
    sizer ← Sizer.push_sized sizer key value encoded_size;
    Ok (emitted, encoded_entry_bytes, with_size self (Some sizer) encoded_size).

Definition force_upper (self : LevelEmitter) (key value : bytes) (child_count : option Z)
    (encoded_size : Z) : outcome Error (list EmittedNode * Z * LevelEmitter) :=
  let hard_max := hard_max_node_bytes (chunking (Config.format (le_config self))) in
  if negb (le_is_empty self) && (hard_max <? encoded_size) then
    '(node, self) ← flush_emit self "nonempty node flushes";
    let self := with_detector self (Boundary.reset (le_detector self)) in
    encoded_size ← exact_size_after self key value child_count;
    Ok ([node], encoded_size, self)
  else Ok ([], encoded_size, self).

Definition make_room_upper (self : LevelEmitter) (key value : bytes) (child_count : option Z)
    : outcome Error (list EmittedNode * Z * LevelEmitter) :=
  let hard_max := hard_max_node_bytes (chunking (Config.format (le_config self))) in
  entry_upper ← conservative_entry_upper key value child_count;
  encoded_size ← Sizer.add64 (le_upper_size self) entry_upper;
  if hard_max <? encoded_size then
    encoded_size ← exact_size_after self key value child_count;
    '(emitted, encoded_size, self) ← force_upper self key value child_count encoded_size;
    if hard_max <? encoded_size then Err (EntryTooLarge encoded_size hard_max)
    else Ok (emitted, 0, with_size self (le_sizer self) encoded_size)
  else Ok ([], 0, with_size self (le_sizer self) encoded_size).

Definition push_entry_with (self : LevelEmitter) (key value : bytes) (child_count : option Z)
    : outcome Error (list EmittedNode * LevelEmitter) :=
  '(emitted, encoded_entry_bytes, self) ←
    (if le_encoded_measure self then make_room_encoded self key value child_count
     else make_room_upper self key value child_count);
  '(boundary, detector) ← Boundary.observe (le_detector self) key value encoded_entry_bytes;
  let self := with_detector self detector in
  payload ← add_usize (le_current_payload_bytes self) (len key);
  payload ← add_usize payload (len value);
  payload ← add_usize payload (match child_count with Some _ => 8 | None => 0 end);
  let cur := le_current self in
  let cur := {| keys := keys cur ++ [key]; vals := vals cur ++ [value];
                child_counts := match child_count with
                                | Some count => child_counts cur ++ [count]
                                | None => child_counts cur
                                end;
                leaf := leaf cur; level := level cur; format := format cur |} in
  let self := with_current self cur payload in
  if boundary : bool then
    '(node, self) ← flush_emit self "observed entry makes node nonempty";
    Ok (emitted ++ [node], self)
  else Ok (emitted, self).

Definition le_push_leaf (self : LevelEmitter) (key value : bytes)
    : outcome Error (list EmittedNode * LevelEmitter) :=
  if negb (le_leaf self) then Err InvalidNode else push_entry_with self key value None.

Definition push_child (self : LevelEmitter) (child : NodeSummary)
    : outcome Error (list EmittedNode * LevelEmitter) :=
  if le_leaf self then Err InvalidNode
  else push_entry_with self (sm_first_key child) (sm_cid child) (Some (sm_count child)).

Definition le_finish (self : LevelEmitter) : outcome Error (option EmittedNode * LevelEmitter) :=
  flush_current self.

(** ** One emitter per level *)
Record ParentLevel := { pl_pending_first : option NodeSummary; pl_emitter : option LevelEmitter }.
Definition ParentLevel_new : ParentLevel := {| pl_pending_first := None; pl_emitter := None |}.

Record HierarchicalEmitter := {
  he_config : Config.Config;
  he_leaf : LevelEmitter;
  he_parents : list ParentLevel;
  he_cascade_scratch : list (Z * NodeSummary);
}.

Definition with_leaf (self : HierarchicalEmitter) (lf : LevelEmitter) : HierarchicalEmitter := {|
  he_config := he_config self; he_leaf := lf; he_parents := he_parents self;
  he_cascade_scratch := he_cascade_scratch self |}.
Definition with_parents (self : HierarchicalEmitter) (parents : list ParentLevel) : HierarchicalEmitter := {|
  he_config := he_config self; he_leaf := he_leaf self; he_parents := parents;
  he_cascade_scratch := he_cascade_scratch self |}.

Definition HierarchicalEmitter_new (config : Config.Config) : outcome Error HierarchicalEmitter :=
  lf ← LevelEmitter_new config true 0;
  Ok {| he_config := config; he_leaf := lf; he_parents := []; he_cascade_scratch := [] |}.

(** [while self.parents.len() <= index { self.parents.push(ParentLevel::new()) }]. *)
Definition grow_parents (parents : list ParentLevel) (index : nat) : list ParentLevel :=
  parents ++ replicate (S index - length parents) ParentLevel_new.

(** One child handed to a parent level: the level's new state and the nodes that it
    emits.  The first child of a level waits until a second one shows up. *)
Definition push_parent (config : Config.Config) (parent_level : Z) (state : ParentLevel)
    (summary : NodeSummary) : outcome Error (list EmittedNode * ParentLevel) :=
  match pl_emitter state, pl_pending_first state with
  | None, None => Ok ([], {| pl_pending_first := Some summary; pl_emitter := None |})
  | None, Some first =>
      emitter ← LevelEmitter_new config false parent_level;
      '(first_emissions, emitter) ← push_child emitter first;
      if negb (bool_decide (length first_emissions = 0%nat)) then Err InvalidNode
      else
        '(nodes, emitter) ← push_child emitter summary;
        Ok (nodes, {| pl_pending_first := None; pl_emitter := Some emitter |})
  | Some emitter, pending =>
      '(nodes, emitter) ← push_child emitter summary;
      Ok (nodes, {| pl_pending_first := pending; pl_emitter := Some emitter |})
  end.

Fixpoint foldM {E A B} (g : A → B → outcome E A) (a : A) (l : list B) : outcome E A :=
  match l with [] => Ok a | b :: l' => a ← g a b; foldM g a l' end.

(** The loop of [cascade].  Its queue is a stack: the nodes that a level emits are
    pushed in order and popped from the last, each with all that it causes above,
    so the loop is a depth-first recursion over the reversed emissions.  The level
    grows with the depth and fails past [u8::MAX]: 256 levels of depth are never
    exceeded. *)
Fixpoint cascade_item (fuel : nat) (lv : Z) (summary : NodeSummary)
    (st : HierarchicalEmitter * list EmittedNode)
    : outcome Error (HierarchicalEmitter * list EmittedNode) :=
  match fuel with
  | O => Panic "unreachable"
  | S fuel' =>
      let '(self, emitted) := st in
      parent_level ← ok_or InvalidNode (checked_add u8_max lv 1);
      let index := Z.to_nat (parent_level - 1) in
      let parents := grow_parents (he_parents self) index in
      state ← expect "index out of bounds" (parents !! index);
      '(nodes, state) ← push_parent (he_config self) parent_level state summary;
      let self := with_parents self (<[index := state]> parents) in
      foldM (λ st node, cascade_item fuel' parent_level (em_summary node) st)
        (self, emitted ++ nodes) (reverse nodes)
  end.

Definition cascade_fuel : nat := 256.

Definition cascade (self : HierarchicalEmitter) (child_level : Z) (child : NodeSummary)
    (emitted : list EmittedNode) : outcome Error (HierarchicalEmitter * list EmittedNode) :=
  '(self, emitted) ← cascade_item cascade_fuel child_level child (self, emitted);
  Ok ({| he_config := he_config self; he_leaf := he_leaf self; he_parents := he_parents self;
         he_cascade_scratch := [] |}, emitted).

Definition he_push_leaf (self : HierarchicalEmitter) (key value : bytes)
    : outcome Error (list EmittedNode * HierarchicalEmitter) :=
  '(leaf_nodes, lf) ← le_push_leaf (he_leaf self) key value;
  '(self, emitted) ←
    foldM (λ '(self, emitted) node, cascade self 0 (em_summary node) (emitted ++ [node]))
      (with_leaf self lf, []) leaf_nodes;
  Ok (emitted, self).

(** The loop of [finish] over the parent levels.  A parent level exists for every
    level up to [u8::MAX], so 257 rounds are never exceeded. *)
Fixpoint finish_loop (fuel : nat) (self : HierarchicalEmitter) (index : nat) (emitted : list EmittedNode)
    : outcome Error (option NodeSummary * list EmittedNode * HierarchicalEmitter) :=
  match fuel with
  | O => Panic "unreachable"
  | S fuel' =>
      match he_parents self !! index with
      | None => Err InvalidNode
      | Some state =>
          match pl_emitter state, pl_pending_first state with
          | Some emitter, pending =>
              let self := with_parents self
                (<[index := {| pl_pending_first := pending; pl_emitter := None |}]> (he_parents self)) in
              '(node, _) ← le_finish emitter;
              '(self, emitted) ←
                match node with
                | Some node => cascade self (wrap 8 (Z.of_nat index + 1)) (em_summary node) (emitted ++ [node])
                | None => Ok (self, emitted)
                end;
              finish_loop fuel' self (S index) emitted
          | None, Some root =>
              Ok (Some root, emitted,
                  with_parents self (<[index := ParentLevel_new]> (he_parents self)))
          | None, None => finish_loop fuel' self (S index) emitted
          end
      end
  end.

Definition finish_fuel : nat := 257.

Definition he_finish (self : HierarchicalEmitter)
    : outcome Error (option NodeSummary * list EmittedNode * HierarchicalEmitter) :=
  '(node, lf) ← le_finish (he_leaf self);
  let self := with_leaf self lf in
  '(self, emitted) ←
    match node with
    | Some node => cascade self 0 (em_summary node) [node]
    | None => Ok (self, [])
    end;
  if bool_decide (length (he_parents self) = 0%nat) then Ok (None, emitted, self)
  else finish_loop finish_fuel self 0 emitted.

(** ** Retained payload *)
Definition he_retained_payload_bytes (self : HierarchicalEmitter) : outcome Error Z :=
  retained ← foldM (λ retained level,
      retained ← add_usize retained
        (match pl_pending_first level with Some summary => len (sm_first_key summary) | None => 0 end);
      add_usize retained
        (match pl_emitter level with Some emitter => le_current_payload_bytes emitter | None => 0 end))
    (le_current_payload_bytes (he_leaf self)) (he_parents self);
  foldM (λ retained entry, add_usize retained (len (sm_first_key entry.2))) retained
    (he_cascade_scratch self).

End hashes.
End Emitter.
