(* ===== verification/EmitterSpec.v ===== *)
(** * The level emitter emits the chunks of its level

    The entries pushed into a [LevelEmitter] come out as the nodes of the chunks that
    ChunkSpec specifies, whether the emitter tracks exact sizes or the conservative
    upper bound. *)

From Stdlib Require Import ZArith Lia Strings.Byte.
From stdpp Require Import base tactics numbers list strings option.
From S2P Require Import Prelude Cursor Types Format Boundary Node Sizer Chunks ChunkSpec Emitter.
Import Format Node ChunkSpec Emitter.

Local Open Scope Z_scope.

Module EmitterSpec.

(** ** Nodes of chunks *)
Definition node_of (f : TreeFormat) (lv : Z) (c : list node_entry) : Node := {|
  keys := (λ e, e.1.1) <$> c; vals := (λ e, e.1.2) <$> c;
  child_counts := if lv =? 0 then [] else snd <$> c;
  leaf := (lv =? 0); level := lv; format := f |}.

(** A leaf entry has no count; the model gives it 0. *)
Definition counted (lv : Z) (e : node_entry) : Prop := lv = 0 → e.2 = 0.

Lemma node_entries_of f lv c : Forall (counted lv) c → node_entries (node_of f lv c) = c.
Proof.
  intros Hc. apply list_eq. intros i. unfold node_entries, node_of. cbn [keys vals child_counts].
  rewrite list_lookup_imap, lookup_zip_with, !list_lookup_fmap.
  destruct (c !! i) as [[[k v] n]|] eqn:Hi; [|done]. cbn. do 2 f_equal.
  destruct (Z.eqb_spec lv 0) as [->|Hlv].
  - pose proof (Forall_lookup_1 _ _ _ _ Hc Hi eq_refl) as Hn. cbn in *. by subst.
  - by rewrite list_lookup_fmap, Hi.
Qed.

Definition node_bytes (f : TreeFormat) (lv : Z) (c : list node_entry) : bytes :=
  match to_bytes (node_of f lv c) with Ok b => b | _ => [] end.

Definition subtree_count (lv : Z) (c : list node_entry) : Z :=
  if lv =? 0 then len c else foldr Z.add 0 (snd <$> c).

Definition summary `{Hashes} (f : TreeFormat) (lv : Z) (c : list node_entry) : NodeSummary := {|
  sm_cid := Cid_from_bytes (node_bytes f lv c);
  sm_first_key := default [] (head ((λ e : node_entry, e.1.1) <$> c));
  sm_count := subtree_count lv c |}.

Definition raw_payload (lv : Z) (c : list node_entry) : Z :=
  foldr (λ e n, len e.1.1 + len e.1.2 + (if lv =? 0 then 0 else 8) + n) 0 c.

Definition emitted_of `{Hashes} (f : TreeFormat) (lv : Z) (c : list node_entry) : EmittedNode := {|
  em_summary := summary f lv c; em_node := node_of f lv c; em_bytes := node_bytes f lv c;
  em_owned_payload_bytes :=
    raw_payload lv c + len (node_bytes f lv c) + len (sm_first_key (summary f lv c)) |}.

Lemma format_bytes_bound f :
  has_codec f →
  len (format_bytes f) ≤ 80 + match value_encoding f with EncCustom name => len name | _ => 0 end.
Proof.
  unfold has_codec, format_bytes, encode_chunking, encode_layout, encode_value_encoding, encode_bytes, len.
  intros Hc. destruct (rule (chunking f)), (node_layout f), (value_encoding f);
    try done; rewrite !length_app, ?length_be_bytes; cbn [length FORMAT_MAGIC]; lia.
Qed.

Lemma format_bytes_name f :
  match value_encoding f with EncCustom name => len name | _ => 0 end ≤ Sizer.format_len f.
Proof.
  unfold Sizer.format_len. case_bool_decide as Hd; [subst f; done|].
  unfold format_bytes, encode_value_encoding, encode_bytes, len.
  destruct (value_encoding f); [lia..|]. rewrite !length_app. lia.
Qed.

(** The bound that the emitter uses for an empty node. *)
Definition empty_upper (f : TreeFormat) : Z :=
  128 + match value_encoding f with EncCustom name => len name | _ => 0 end.

Lemma empty_upper_sound f lf lv :
  has_codec f → 0 ≤ lv ≤ u8_max → Sizer.format_len f ≤ isize_max →
  Sizer.node_size f lf lv [] ≤ empty_upper f.
Proof.
  intros Hc Hlv Hf. pose proof (format_bytes_bound f Hc).
  assert (Sizer.format_len f ≤ len (format_bytes f)) as Hfl
    by (unfold Sizer.format_len; case_bool_decide; [apply len_nonneg|done]).
  assert (0 ≤ Sizer.format_len f) as Hf0
    by (unfold Sizer.format_len; case_bool_decide; [done|apply len_nonneg]).
  pose proof (Sizer.varint_len_mono lv u8_max ltac:(lia)) as Hv. change (varint_len u8_max) with 2 in Hv.
  unfold isize_max in *. pose proof (varint_len_63 (Sizer.format_len f) ltac:(lia)).
  unfold Sizer.node_size, Sizer.header_len, empty_upper.
  change (len (@nil node_entry)) with 0. change (varint_len 0) with 1. change (varint_len COMPACT_VERSION) with 1.
  assert (varint_len (if lf then 1 else 0) = 1) as -> by (by destruct lf).
  assert (len (layout_bytes (node_layout f) lf []) ≤ 1) by (by destruct (node_layout f)).
  lia.
Qed.

(** ** The emitter in the middle of a chunk *)
Section emitter.
Context `{Hok : HashesOk} (config : Config.Config) (lv : Z).

Abbreviation f := (Config.format config).
Abbreviation lf := (lv =? 0).
Abbreviation hard := (hard_max_node_bytes (chunking f)).
Abbreviation size := (Sizer.node_size f (lv =? 0) lv).
Abbreviation encoded := (bool_decide (measure (chunking f) = EncodedBytes)).

Hypothesis Hwf : TreeFormat_wf f.
Hypothesis Hvalid : validate f = Ok tt.
Hypothesis Hcodec : has_codec f.
Hypothesis Hlv : 0 ≤ lv ≤ u8_max.

(** The entries, their node and its encoding are live at once. *)
Record fits (c : list node_entry) : Prop := {
  fits_level : level_fits f lv c;
  fits_room : size [] + 2 * weight c ≤ isize_max;
  fits_counted : Forall (counted lv) c;
  fits_total : subtree_count lv c ≤ u64_max;
}.

Lemma subtree_count_app a b : subtree_count lv (a ++ b) = subtree_count lv a + subtree_count lv b.
Proof.
  unfold subtree_count. destruct (lv =? 0); [apply len_app|].
  induction a as [|e a IH]; [done|]. cbn [app fmap list_fmap foldr] in *. lia.
Qed.

Lemma subtree_count_nonneg c : Forall (entry_wf lf) c → 0 ≤ subtree_count lv c.
Proof.
  unfold subtree_count. destruct (lv =? 0); [intros _; apply len_nonneg|].
  induction 1 as [|[[k v] n] c (_ & _ & Hn) _ IH]; [done|]. specialize (Hn eq_refl).
  cbn [fmap list_fmap foldr snd]. lia.
Qed.

Lemma fits_app a b : fits (a ++ b) → fits a ∧ fits b.
Proof.
  intros [Hl Hr Hc Ht]. destruct (level_fits_app _ _ _ _ Hl) as [Ha Hb].
  apply Forall_app in Hc as [Hca Hcb]. rewrite weight_app in Hr. rewrite subtree_count_app in Ht.
  pose proof (weight_nonneg a). pose proof (weight_nonneg b).
  pose proof (subtree_count_nonneg a (proj1 Ha)). pose proof (subtree_count_nonneg b (proj1 Hb)).
  split; constructor; (done || lia).
Qed.

(** What the detector is told: encoded sizes only when they are measured. *)
Definition told_entry (cur : list node_entry) (e : node_entry) : Boundary.entry :=
  if encoded then observed_entry f lv cur e else (e.1.1, e.1.2, 0).
Definition told (cur : list node_entry) : list Boundary.entry :=
  if encoded then observed f lv cur else (λ e, (e.1.1, e.1.2, 0)) <$> cur.

Lemma told_snoc cur e : told (cur ++ [e]) = told cur ++ [told_entry cur e].
Proof. unfold told, told_entry. destruct encoded; [apply observed_snoc|]. by rewrite fmap_app. Qed.

Lemma size_nil_pos : 0 < size [].
Proof.
  unfold Sizer.node_size. pose proof (Sizer.header_len_nonneg f lf lv (len (@nil node_entry))).
  pose proof (len_nonneg (layout_bytes (node_layout f) lf [])). lia.
Qed.

Lemma observed_plain cur :
  (λ x : Boundary.entry, x.1) <$> observed f lv cur = (λ e : node_entry, e.1) <$> cur.
Proof.
  induction cur as [|[[k v] n] cur IH] using rev_ind; [done|]. by rewrite observed_snoc, !fmap_app, IH.
Qed.

Lemma chunk_size_plain m (a b : list Boundary.entry) :
  m ≠ EncodedBytes → a.*1 = b.*1 → Boundary.chunk_size m a = Boundary.chunk_size m b.
Proof.
  intros Hm Hab. unfold Boundary.chunk_size. f_equal. revert b Hab.
  induction a as [|[[k v] n] a IH]; intros [|[[k' v'] n'] b] Hab; [done..|].
  cbn [fmap list_fmap fst] in Hab. injection Hab as -> -> Hab. cbn [foldr]. rewrite (IH b Hab).
  by destruct m.
Qed.

Lemma feed_plain inp (a b : list Boundary.entry) :
  a.*1 = b.*1 → Boundary.entry_feed inp <$> a = Boundary.entry_feed inp <$> b.
Proof.
  revert b. induction a as [|[[k v] n] a IH]; intros [|[[k' v'] n'] b] Hab; [done..|].
  cbn [fmap list_fmap fst] in *. injection Hab as -> -> Hab. by rewrite (IH b Hab).
Qed.

Lemma told_plain cur : (told cur).*1 = (observed f lv cur).*1.
Proof.
  unfold told. destruct encoded; [done|]. rewrite observed_plain, <- list_fmap_compose.
  apply list_fmap_ext. by intros ? [[] ?].
Qed.

(** Below the byte limit, what the detector is told decides the soft cut. *)
Lemma told_cut cur e :
  size (cur ++ [e]) ≤ hard →
  Boundary.cut_spec (level_spec f lv) (level_hash_seed f lv) (told cur) (told_entry cur e)
    = soft_cut f lv cur e.
Proof.
  intros Hsize. unfold soft_cut. unfold told_entry. destruct encoded eqn:Henc.
  { unfold told. by rewrite Henc. }
  apply bool_decide_eq_false in Henc.
  assert (∀ e', told_entry cur e = e' → (told cur ++ [e']).*1 = (observed f lv (cur ++ [e])).*1) as Hplain.
  { intros e' <-. rewrite <- told_snoc. apply told_plain. }
  assert (told_entry cur e = (e.1.1, e.1.2, 0)) as Htold
    by (unfold told_entry; by rewrite bool_decide_eq_false_2).
  specialize (Hplain _ Htold). rewrite observed_snoc in Hplain.
  unfold Boundary.cut_spec. destruct (level_spec_fields f lv) as (_ & Hm & _). rewrite Hm, hard_level_spec.
  rewrite (chunk_size_plain _ _ _ Henc (told_plain cur)), (chunk_size_plain _ _ _ Henc Hplain).
  rewrite (feed_plain _ _ _ Hplain), <- observed_snoc. unfold observed_entry.
  assert (Boundary.chunk_size EncodedBytes (told cur ++ [(e.1.1, e.1.2, 0)]) = 0) as ->.
  { rewrite <- Htold, <- told_snoc. unfold told, Boundary.chunk_size. rewrite bool_decide_eq_false_2 by done.
    clear. induction (cur ++ [e]) as [|x l IH]; [done|]. cbn [fmap list_fmap foldr Boundary.entry_size]. exact IH. }
  pose proof size_nil_pos.
  assert (Boundary.chunk_size EncodedBytes (observed f lv (cur ++ [e])) < hard) as Hlt
    by (unfold Boundary.chunk_size; rewrite observed_sum; lia).
  pose proof (Sizer.node_size_prefix f lf lv [] (cur ++ [e]) Hcodec) as Hpre. cbn [app] in Hpre.
  destruct (Z.leb_spec hard 0); [lia|]. 
  destruct (Z.leb_spec hard (Boundary.chunk_size EncodedBytes (observed f lv (cur ++ [e])))); [lia|]. done.
Qed.

Lemma size_nil_format : Sizer.format_len f + 4 ≤ size [].
Proof.
  unfold Sizer.node_size, Sizer.header_len. pose proof Sizer.varint_len_pos as Hv.
  pose proof (Hv COMPACT_VERSION). pose proof (Hv (Sizer.format_len f)). pose proof (Hv lv).
  pose proof (Hv (if lf then 1 else 0)). pose proof (Hv (len (@nil node_entry))).
  pose proof (len_nonneg (layout_bytes (node_layout f) lf [])). lia.
Qed.

Lemma node_bytes_ok c :
  level_fits f lv c → Forall (counted lv) c →
  to_bytes (node_of f lv c) = Ok (node_bytes f lv c) ∧ len (node_bytes f lv c) = size c.
Proof.
  intros [_ Hfit] Hc. pose proof size_nil_format. pose proof (weight_len c). pose proof (len_nonneg c).
  assert (∃ fb, node_format_bytes f = Ok fb) as [fb Hfb].
  { unfold node_format_bytes. case_bool_decide; [by eexists|]. rewrite canonical_bytes_eq, Hvalid. by eexists. }
  pose proof (Sizer.node_format_bytes_len f fb Hvalid Hfb) as Hlen.
  pose proof (to_compact_bytes_eq (node_of f lv c) fb Hfb Hcodec) as Henc.
  rewrite (node_entries_of f lv c Hc) in Henc.
  assert (len (keys (node_of f lv c)) = len c) as Hkeys
    by (unfold len, node_of; cbn [keys]; by rewrite length_fmap).
  rewrite Hkeys in Henc. specialize (Henc ltac:(lia)).
  assert (to_bytes (node_of f lv c) = Ok (node_bytes f lv c)) as Hb
    by (unfold node_bytes, to_bytes, try_to_bytes; by rewrite Henc).
  split; [done|]. unfold to_bytes, try_to_bytes in Hb. rewrite Henc in Hb. apply Ok_inj in Hb as <-.
  unfold header_bytes, Sizer.node_size, Sizer.header_len. cbn [leaf level node_of format].
  rewrite !len_app, <- !varint_len_spec, Hlen, Hkeys. change (len COMPACT_MAGIC) with 4. lia.
Qed.

Lemma sum_u64_ok l acc :
  Forall (λ x, 0 ≤ x) l → acc + foldr Z.add 0 l ≤ u64_max → sum_u64 l acc = Ok (acc + foldr Z.add 0 l).
Proof.
  intros Hl. revert acc; induction Hl as [|x l Hx Hl IH]; intros acc Hsum; cbn [sum_u64 foldr] in *.
  { by rewrite Z.add_0_r. }
  assert (0 ≤ foldr Z.add 0 l) by (clear -Hl; induction Hl; cbn; lia).
  destruct (Z.leb_spec (acc + x) u64_max); [|lia]. rewrite IH by lia. f_equal. lia.
Qed.

Lemma raw_payload_app a b : raw_payload lv (a ++ b) = raw_payload lv a + raw_payload lv b.
Proof. unfold raw_payload. induction a as [|e a IH]; cbn [app foldr]; lia. Qed.

Lemma raw_payload_bound c : 0 ≤ raw_payload lv c ≤ weight c.
Proof.
  induction c as [|e c IH]; [done|]. unfold raw_payload, weight in *. cbn [foldr].
  pose proof (len_nonneg e.1.1). pose proof (len_nonneg e.1.2). destruct (lv =? 0); lia.
Qed.

(** The buffer of the emitter, without its detector. *)
Record buffer_at (le : LevelEmitter) (cur : list node_entry) : Prop := {
  ba_config : le_config le = config;
  ba_leaf : le_leaf le = lf;
  ba_level : le_level le = lv;
  ba_current : le_current le = node_of f lv cur;
  ba_measure : le_encoded_measure le = encoded;
  ba_size : if encoded then ∃ z, le_sizer le = Some z ∧ sizer_at f lv z cur
            else le_sizer le = None ∧
                 size cur ≤ le_upper_size le ≤ empty_upper f + weight cur + 10 * len cur;
  ba_payload : le_current_payload_bytes le = raw_payload lv cur;
}.

Record tells (d : Boundary.BoundaryDetector) (cur : list node_entry) : Prop := {
  te_represents : Boundary.represents d (told cur);
  te_spec : Boundary.spec d = level_spec f lv;
  te_seed : Boundary.seed d = level_hash_seed f lv;
}.

Definition emitter_at (le : LevelEmitter) (cur : list node_entry) : Prop :=
  buffer_at le cur ∧ tells (le_detector le) cur.

Lemma tells_reset d cur : tells d cur → tells (Boundary.reset d) [].
Proof.
  intros [Hd Hs Hsd]. constructor; [|done..]. unfold told, observed. cbn [observed_from fmap list_fmap].
  destruct encoded; by eapply Boundary.represents_reset.
Qed.

Lemma observe_tells d cur e :
  tells d cur → fits (cur ++ [e]) → size (cur ++ [e]) ≤ hard →
  ∃ b d', Boundary.observe d e.1.1 e.1.2 (told_entry cur e).2 = Ok (b, d') ∧
    soft_cut f lv cur e = Ok b ∧ tells d' (if b then [] else cur ++ [e]).
Proof.
  intros [Hd Hs Hsd] [Hfit _ _ _] Hsize.
  destruct (fits_sizes f lv Hcodec cur e Hfit) as (_ & _ & _ & _ & Hgrow).
  pose proof size_nil_pos. pose proof (Sizer.node_size_prefix f lf lv [] cur Hcodec) as Hpre. cbn [app] in Hpre.
  assert (told_entry cur e = (e.1.1, e.1.2, (told_entry cur e).2)) as Htold by (unfold told_entry; by destruct encoded).
  assert (0 ≤ (told_entry cur e).2 ≤ hard) as Hn.
  { unfold told_entry. destruct encoded; [unfold observed_entry|]; cbn [snd]; lia. }
  pose proof (Boundary.observe_spec d (told cur) e.1.1 e.1.2 _ (proj1 Hn) Hd) as Hobs.
  cbn zeta in Hobs. rewrite <- Htold in Hobs. rewrite Hs, Hsd, hard_level_spec in Hobs.
  destruct (Z.ltb_spec hard (told_entry cur e).2); [lia|]. rewrite andb_false_r, told_cut in Hobs by done.
  destruct Hobs as (b & d' & Ho & Hcut & Hd' & Hs' & Hsd'). exists b, d'.
  split; [done|]. split; [done|]. constructor; [|by rewrite Hs'|by rewrite Hsd'].
  destruct b; [|by rewrite told_snoc]. unfold told, observed. by destruct encoded.
Qed.

Lemma empty_upper_ok :
  size [] ≤ isize_max →
  conservative_empty_upper f = Ok (empty_upper f) ∧ size [] ≤ empty_upper f ≤ size [] + 128.
Proof.
  intros Hsize. pose proof size_nil_format. pose proof (format_bytes_name f). pose proof size_nil_pos.
  assert (empty_upper f ≤ size [] + 128) by (unfold empty_upper; lia).
  split; [|split; [|done]].
  - unfold conservative_empty_upper. apply Sizer.add64_ok. unfold empty_upper, isize_max, u64_max in *. lia.
  - apply empty_upper_sound; [done|done|lia].
Qed.

Lemma LevelEmitter_new_at :
  size [] ≤ isize_max → ∃ le, LevelEmitter_new config lf lv = Ok le ∧ emitter_at le [].
Proof.
  intros Hsize. destruct (empty_upper_ok Hsize) as [Hupper Hbounds].
  destruct (Sizer.EncodedNodeSizer_new_ok f lf lv Hvalid Hcodec) as (z & Hz & Hsz);
    [unfold isize_max, u64_max in *; lia|].
  destruct (new_detector_at f lv Hwf Hvalid) as (d & Hd & Hrep & Hs & Hsd).
  unfold LevelEmitter_new. rewrite Bool.eqb_reflx, Hvalid. cbn [negb mbind outcome_bind].
  pose proof Hcodec as Hc. unfold has_codec in Hc.
  assert (∀ sizer upper, (if encoded then sizer = Some z else sizer = None ∧ upper = empty_upper f) →
    emitter_at {| le_config := config; le_leaf := lf; le_level := lv;
      le_current := new_builder_node config lf lv; le_detector := d; le_sizer := sizer;
      le_encoded_measure := encoded; le_upper_size := upper; le_current_payload_bytes := 0 |} []) as Hat.
  { intros sizer upper Hsizer. split; constructor; cbn [le_config le_leaf le_level le_current le_detector
      le_sizer le_encoded_measure le_upper_size le_current_payload_bytes]; try done.
    - unfold new_builder_node, node_of. cbn. by destruct (lv =? 0).
    - destruct encoded; [by exists z|]. destruct Hsizer as [-> ->]. split; [done|].
      change (weight []) with 0. change (len (@nil node_entry)) with 0. lia.
    - unfold told. by destruct encoded. }
  destruct (node_layout f); [..|done];
    (destruct encoded; [rewrite Hz|rewrite Hupper]; cbn [fmap outcome_fmap mbind outcome_bind];
     rewrite Hd; cbn [mbind outcome_bind]; eexists; (split; [done|]); by apply Hat).
Qed.

Lemma node_of_nonempty cur : cur ≠ [] → bool_decide (keys (node_of f lv cur) = []) = false.
Proof. intros Hne. apply bool_decide_eq_false_2. by destruct cur. Qed.

Lemma node_of_count c :
  fits c →
  (if lf then Ok (len (keys (node_of f lv c))) else sum_u64 (child_counts (node_of f lv c)) 0)
    = Ok (subtree_count lv c).
Proof.
  intros [Hfit _ _ Htot]. unfold node_of, subtree_count in *. cbn [keys child_counts].
  destruct (lv =? 0) eqn:Hz; [unfold len; by rewrite length_fmap|].
  rewrite sum_u64_ok; [done| |lia]. apply Forall_fmap. eapply Forall_impl; [|exact (proj1 Hfit)].
  intros [[k' v'] n'] (_ & _ & Hn'). rewrite Hz in Hn'. specialize (Hn' eq_refl). cbn. lia.
Qed.

Lemma owned_payload_ok c :
  fits c → c ≠ [] →
  (owned ← add_usize (raw_payload lv c) (len (node_bytes f lv c));
   add_usize owned (len (sm_first_key (summary f lv c)))) = Ok (em_owned_payload_bytes (emitted_of f lv c)).
Proof.
  intros [Hfit Hroom Hcnt _] Hne. destruct (node_bytes_ok c Hfit Hcnt) as [_ Hlen].
  pose proof (raw_payload_bound c) as Hraw. pose proof size_nil_pos as Hpos. pose proof (weight_nonneg c).
  pose proof (node_size_upper f lf lv c Hcodec (proj1 Hfit) ltac:(lia)) as Hupper.
  assert (len (sm_first_key (summary f lv c)) ≤ weight c) as Hk.
  { destruct c as [|[[k v] n] c]; [done|]. cbn [summary sm_first_key fmap list_fmap head default fst].
    unfold weight. cbn [foldr fst snd]. fold (weight c). pose proof (weight_nonneg c).
    pose proof (len_nonneg v). unfold id. lia. }
  unfold add_usize, emitted_of. cbn [em_owned_payload_bytes]. rewrite Hlen.
  unfold isize_max, usize_max, u64_max in *.
  rewrite checked_add_le by lia. cbn [ok_or mbind outcome_bind]. by rewrite checked_add_le by lia.
Qed.

Lemma flush_current_at le cur :
  buffer_at le cur → fits cur → cur ≠ [] → size cur ≤ hard →
  ∃ le', flush_current le = Ok (Some (emitted_of f lv cur), le') ∧ buffer_at le' [] ∧
    le_detector le' = le_detector le.
Proof.
  intros [Hcfg Hleaf Hlevel Hcur Hmeas Hsz Hpay] Hfits Hne Hsize. pose proof Hfits as [Hfit Hroom Hcnt _].
  destruct (node_bytes_ok cur Hfit Hcnt) as [Hbytes Hlen]. pose proof (weight_nonneg cur).
  destruct (empty_upper_ok ltac:(lia)) as [Hempty Hbounds].
  unfold flush_current, le_is_empty. rewrite Hcur, (node_of_nonempty cur Hne), Hbytes.
  cbn [mbind outcome_bind]. rewrite Hcfg, Hlen. destruct (Z.ltb_spec hard (size cur)); [lia|].
  assert (head (keys (node_of f lv cur)) = Some (sm_first_key (summary f lv cur))) as -> by (by destruct cur).
  cbn [expect mbind outcome_bind with_current le_leaf le_level le_sizer]. rewrite Hleaf, Hlevel.
  rewrite (node_of_count cur Hfits). cbn [mbind outcome_bind]. rewrite Hpay.
  pose proof (owned_payload_ok cur Hfits Hne) as Howned. rewrite Hlen in Howned.
  assert (node_of f lv [] = new_builder_node config lf lv) as Hnil.
  { unfold new_builder_node, node_of. cbn. by destruct (lv =? 0). }
  destruct encoded eqn:Henc; [destruct Hsz as (z & -> & Hz)|destruct Hsz as [-> _]];
    cbn [mbind outcome_bind fmap outcome_fmap]; [|rewrite Hempty; cbn [mbind outcome_bind fmap outcome_fmap]];
    (destruct (add_usize (raw_payload lv cur) (size cur)) as [owned| |]; [|done..]);
    cbn [mbind outcome_bind] in *; rewrite Howned; cbn [mbind outcome_bind]; eexists;
    (split; [done|]); (split; [|done]); constructor;
    cbn [with_size with_current le_config le_leaf le_level le_current le_sizer le_encoded_measure
      le_upper_size le_current_payload_bytes]; rewrite ?Henc; try done.
  - exists (Sizer.reset z). split; [done|]. by eapply reset_at.
  - split; [done|]. change (weight []) with 0. change (len (@nil node_entry)) with 0. lia.
Qed.

(** ** Exact sizes from scratch *)
Lemma last_key_prev cur : list.last (keys (node_of f lv cur)) = Sizer.prev_key cur.
Proof.
  unfold node_of, Sizer.prev_key. cbn [keys]. destruct cur as [|e cur _] using rev_ind; [done|].
  rewrite fmap_app, reverse_snoc. cbn [fmap list_fmap]. by rewrite last_snoc.
Qed.

Lemma exact_loop_at le cur post pre z :
  buffer_at le cur → level_fits f lv cur → cur = pre ++ post → sizer_at f lv z pre →
  ∃ z', exact_loop le (seq (length pre) (length post)) z = Ok z' ∧ sizer_at f lv z' cur.
Proof.
  intros Hb Hfit. revert pre z; induction post as [|e post IH]; intros pre z Hsplit Hz.
  { rewrite app_nil_r in Hsplit. subst pre. by exists z. }
  cbn [length seq exact_loop]. rewrite (ba_current _ _ Hb), (ba_leaf _ _ Hb).
  unfold node_of. cbn [keys vals child_counts].
  assert (cur !! length pre = Some e) as Hat by (rewrite Hsplit; by rewrite list_lookup_middle).
  assert (match length pre with O => Ok None
          | S p => Some <$> expect "index out of bounds" (((λ e : node_entry, e.1.1) <$> cur) !! p) end
          = Ok (E:=Error) (Sizer.prev_key pre)) as Hprev.
  { rewrite Hsplit. unfold Sizer.prev_key. destruct pre as [|x pre _] using rev_ind; [done|].
    rewrite length_app, Nat.add_1_r, reverse_snoc, <- app_assoc. cbn [app].
    by rewrite list_lookup_fmap, list_lookup_middle. }
  rewrite Hprev. cbn [mbind outcome_bind].
  assert ((if lf then Ok None else
      Some <$> expect "index out of bounds" ((if lf then [] else snd <$> cur) !! length pre))
    = Ok (E:=Error) (Sizer.count_opt lf e.2)) as Hcount.
  { unfold Sizer.count_opt. destruct (lv =? 0); [done|]. by rewrite list_lookup_fmap, Hat. }
  rewrite Hcount, !list_lookup_fmap, Hat. cbn [mbind outcome_bind fmap option_fmap option_map expect].
  assert (level_fits f lv (pre ++ [e])) as Hfit1.
  { rewrite Hsplit, cons_middle, app_assoc in Hfit. by apply level_fits_app in Hfit as [? _]. }
  rewrite (size_after_at f lv Hcodec z pre e Hz Hfit1). cbn [mbind outcome_bind].
  destruct (push_sized_at f lv Hcodec z pre e Hz Hfit1) as (z1 & -> & Hz1). cbn [mbind outcome_bind].
  destruct (IH (pre ++ [e]) z1) as (z' & Hz' & Hat'); [by rewrite <- app_assoc|done|].
  exists z'. rewrite length_app, Nat.add_1_r in Hz'. by split.
Qed.

Lemma exact_size_after_at le cur e :
  buffer_at le cur → fits (cur ++ [e]) →
  exact_size_after le e.1.1 e.1.2 (Sizer.count_opt lf e.2) = Ok (size (cur ++ [e])).
Proof.
  intros Hb [Hfit _ _ _]. destruct (level_fits_app _ _ _ _ Hfit) as [Hcur _].
  unfold exact_size_after. rewrite (ba_config _ _ Hb), (ba_leaf _ _ Hb), (ba_level _ _ Hb).
  destruct (new_sizer_at f lv Hvalid Hcodec cur Hcur) as (z & -> & Hz). cbn [mbind outcome_bind].
  assert (length (keys (le_current le)) = length cur) as ->
    by (rewrite (ba_current _ _ Hb); unfold node_of; cbn [keys]; by rewrite length_fmap).
  destruct (exact_loop_at le cur cur [] z Hb Hcur eq_refl Hz) as (z' & Hloop & Hz').
  cbn [length] in Hloop. rewrite Hloop. cbn [mbind outcome_bind].
  rewrite (ba_current _ _ Hb), last_key_prev. by apply size_after_at.
Qed.

(** ** One entry *)
Lemma le_is_empty_at le cur : buffer_at le cur → le_is_empty le = bool_decide (cur = []).
Proof.
  intros Hb. unfold le_is_empty. rewrite (ba_current _ _ Hb). by destruct cur.
Qed.

Lemma flush_emit_at le cur msg :
  emitter_at le cur → fits cur → chunk_ok f lv cur →
  ∃ le', flush_emit le msg = Ok (emitted_of f lv cur, le') ∧
    emitter_at (with_detector le' (Boundary.reset (le_detector le'))) [].
Proof.
  intros [Hb Ht] Hfit [Hne Hsize]. unfold flush_emit.
  destruct (flush_current_at le cur Hb Hfit Hne Hsize) as (le' & -> & Hb' & Hd).
  cbn [mbind outcome_bind expect]. exists le'. split; [done|]. split.
  - by destruct Hb'.
  - cbn [with_detector le_detector]. rewrite Hd. by eapply tells_reset.
Qed.

(** Ready to take [e]: room is made and accounted for, the entry is not buffered. *)
Record ready (le : LevelEmitter) (cur : list node_entry) (e : node_entry) : Prop := {
  rd_current : le_current le = node_of f lv cur;
  rd_payload : le_current_payload_bytes le = raw_payload lv cur;
  rd_tells : tells (le_detector le) cur;
  rd_next : ∀ d, buffer_at (with_current (with_detector le d) (node_of f lv (cur ++ [e]))
                             (raw_payload lv (cur ++ [e]))) (cur ++ [e]);
}.

Lemma ready_intro le cur e sizer upper :
  emitter_at le cur →
  (if encoded then ∃ z, sizer = Some z ∧ sizer_at f lv z (cur ++ [e])
   else sizer = None ∧ size (cur ++ [e]) ≤ upper ≤ empty_upper f + weight (cur ++ [e]) + 10 * len (cur ++ [e])) →
  ready (with_size le sizer upper) cur e.
Proof. intros [[] []] Hs. constructor; [done|done|by constructor|]. intros d. by constructor. Qed.

Definition room (le : LevelEmitter) (e : node_entry) : outcome Error (list EmittedNode * Z * LevelEmitter) :=
  if le_encoded_measure le then make_room_encoded le e.1.1 e.1.2 (Sizer.count_opt lf e.2)
  else make_room_upper le e.1.1 e.1.2 (Sizer.count_opt lf e.2).

Definition room_spec (cur : list node_entry) (e : node_entry)
    (r : outcome Error (list EmittedNode * Z * LevelEmitter)) : Prop :=
  let cur1 := after_force f lv cur e in
  if hard <? size (cur1 ++ [e]) then r = Err (EntryTooLarge (size (cur1 ++ [e])) hard)
  else ∃ le', r = Ok (emitted_of f lv <$> closed_by_force f lv cur e, (told_entry cur1 e).2, le') ∧
         ready le' cur1 e.

(** The part shared by both branches: a forced flush when the entry does not fit. *)
Lemma force_at le cur e :
  emitter_at le cur → fits (cur ++ [e]) → cur = [] ∨ chunk_ok f lv cur →
  (forced f lv cur e = true →
   ∃ le', flush_emit le "nonempty node flushes" = Ok (emitted_of f lv cur, le') ∧
     emitter_at (with_detector le' (Boundary.reset (le_detector le'))) []) ∧
  fits (after_force f lv cur e ++ [e]).
Proof.
  intros Hle Hfit Hcur. destruct (fits_app _ _ Hfit) as [Hfc Hfe]. split.
  - intros Hforced. apply flush_emit_at; [done..|]. unfold forced in Hforced.
    apply andb_prop in Hforced as [Hne%negb_true_iff%bool_decide_eq_false _]. tauto.
  - unfold after_force. by destruct (forced f lv cur e).
Qed.

Lemma force_encoded_at le cur e :
  encoded = true → emitter_at le cur → fits (cur ++ [e]) → cur = [] ∨ chunk_ok f lv cur →
  ∃ le1 z1, force_encoded le e.1.1 e.1.2 (Sizer.count_opt lf e.2) (size (cur ++ [e]))
      = Ok (emitted_of f lv <$> closed_by_force f lv cur e, size (after_force f lv cur e ++ [e]), le1) ∧
    emitter_at le1 (after_force f lv cur e) ∧ le_sizer le1 = Some z1 ∧
    sizer_at f lv z1 (after_force f lv cur e).
Proof.
  intros Henc Hle Hfit Hcur. destruct (force_at le cur e Hle Hfit Hcur) as [Hforce Hfit1].
  pose proof Hle as [Hb _]. unfold force_encoded. rewrite (ba_config _ _ Hb), (le_is_empty_at le cur Hb).
  fold (forced f lv cur e). unfold closed_by_force, after_force in *. destruct (forced f lv cur e) eqn:Hforced.
  - destruct (Hforce eq_refl) as (le' & -> & Hle'). cbn [mbind outcome_bind]. cbn zeta.
    pose proof (ba_size _ _ (proj1 Hle')) as Hsz'. rewrite Henc in Hsz'. destruct Hsz' as (z' & Hz' & Hzat').
    cbn [with_detector le_sizer] in Hz'. cbn [with_detector le_sizer]. rewrite Hz'.
    cbn [expect mbind outcome_bind]. change (@None bytes) with (Sizer.prev_key []).
    rewrite (size_after_at f lv Hcodec z' [] e Hzat' (fits_level _ Hfit1)). cbn [mbind outcome_bind].
    eexists _, z'. split; [done|]. split; [done|]. by split.
  - pose proof (ba_size _ _ Hb) as Hsz. rewrite Henc in Hsz. destruct Hsz as (z & Hz & Hzat). by exists le, z.
Qed.

Lemma make_room_encoded_at le cur e :
  encoded = true → emitter_at le cur → fits (cur ++ [e]) → cur = [] ∨ chunk_ok f lv cur →
  room_spec cur e (make_room_encoded le e.1.1 e.1.2 (Sizer.count_opt lf e.2)).
Proof.
  intros Henc Hle Hfit Hcur. destruct (force_at le cur e Hle Hfit Hcur) as [_ Hfit1].
  pose proof Hle as [Hb _]. pose proof (ba_size _ _ Hb) as Hsz. rewrite Henc in Hsz.
  destruct Hsz as (z & Hz & Hzat). unfold make_room_encoded. rewrite (ba_config _ _ Hb), Hz.
  cbn [expect mbind outcome_bind].
  rewrite (ba_current _ _ Hb), last_key_prev, (size_after_at f lv Hcodec z cur e Hzat (fits_level _ Hfit)).
  cbn [mbind outcome_bind].
  destruct (force_encoded_at le cur e Henc Hle Hfit Hcur) as (le1 & z1 & -> & Hle1 & Hz1 & Hzat1).
  cbn [mbind outcome_bind]. unfold room_spec. set (cur1 := after_force f lv cur e) in *.
  destruct (Z.ltb_spec hard (size (cur1 ++ [e]))) as [|Hsize]; [done|]. rewrite Hz1. cbn [expect mbind outcome_bind].
  destruct (push_sized_at f lv Hcodec z1 cur1 e Hzat1 (fits_level _ Hfit1)) as (z2 & -> & Hz2).
  cbn [mbind outcome_bind]. eexists; split; [|by apply ready_intro; [|rewrite Henc; exists z2]].
  destruct (fits_sizes f lv Hcodec cur1 e (fits_level _ Hfit1)) as (_ & _ & _ & _ & Hgrow).
  destruct Hzat1 as (Hsized & Hzf & Hzl & Hzv). rewrite (Sizer.sized_size _ _ Hsized), Hzf, Hzl, Hzv.
  unfold told_entry, saturating_sub, observed_entry. rewrite Henc. cbn [snd]. by rewrite Z.max_r by lia.
Qed.

Lemma force_upper_at le cur e :
  emitter_at le cur → fits (cur ++ [e]) → cur = [] ∨ chunk_ok f lv cur →
  ∃ le1, force_upper le e.1.1 e.1.2 (Sizer.count_opt lf e.2) (size (cur ++ [e]))
      = Ok (emitted_of f lv <$> closed_by_force f lv cur e, size (after_force f lv cur e ++ [e]), le1) ∧
    emitter_at le1 (after_force f lv cur e).
Proof.
  intros Hle Hfit Hcur. destruct (force_at le cur e Hle Hfit Hcur) as [Hforce Hfit1].
  pose proof Hle as [Hb _]. unfold force_upper. rewrite (ba_config _ _ Hb), (le_is_empty_at le cur Hb).
  fold (forced f lv cur e). unfold closed_by_force, after_force in *. destruct (forced f lv cur e) eqn:Hforced.
  - destruct (Hforce eq_refl) as (le' & -> & Hle'). cbn [mbind outcome_bind]. cbn zeta.
    rewrite (exact_size_after_at _ [] e (proj1 Hle') Hfit1). cbn [mbind outcome_bind].
    eexists. by split.
  - by exists le.
Qed.

Lemma entry_upper_ok e :
  len e.1.1 + len e.1.2 + 74 ≤ u64_max →
  ∃ u, conservative_entry_upper e.1.1 e.1.2 (Sizer.count_opt lf e.2) = Ok u ∧
    len e.1.1 + len e.1.2 + 64 ≤ u ≤ len e.1.1 + len e.1.2 + 74.
Proof.
  intros Hlen. unfold conservative_entry_upper, Sizer.count_opt. rewrite Sizer.add64_ok by lia.
  cbn [mbind outcome_bind]. destruct (lv =? 0); (rewrite Sizer.add64_ok by lia); eexists; (split; [done|]); lia.
Qed.

Lemma upper_exact_bound c :
  fits c → size c ≤ empty_upper f + weight c + 10 * len c.
Proof.
  intros [[Hwfs Hw] _ _ _]. pose proof (weight_nonneg c). pose proof (len_nonneg c). pose proof size_nil_pos.
  destruct (empty_upper_ok ltac:(lia)) as [_ ?].
  pose proof (node_size_upper f lf lv c Hcodec Hwfs ltac:(lia)). lia.
Qed.

(** The running upper bound grows at least as fast as the node. *)
Lemma upper_step cur e upper :
  fits (cur ++ [e]) → size cur ≤ upper ≤ empty_upper f + weight cur + 10 * len cur →
  ∃ u, conservative_entry_upper e.1.1 e.1.2 (Sizer.count_opt lf e.2) = Ok u ∧
    Sizer.add64 upper u = Ok (upper + u) ∧
    size (cur ++ [e]) ≤ upper + u ≤ empty_upper f + weight (cur ++ [e]) + 10 * len (cur ++ [e]).
Proof.
  intros [[Hwfs Hw] _ _ _] Hup. apply Forall_app in Hwfs as [_ Hwe]. apply Forall_cons_1 in Hwe as [Hwe _].
  pose proof (node_size_step f lf lv cur e Hcodec Hwe) as Hstep. pose proof (weight_len cur).
  pose proof (weight_nonneg cur). pose proof size_nil_pos. pose proof size_nil_format. pose proof (format_bytes_name f).
  pose proof (len_nonneg e.1.1). pose proof (len_nonneg e.1.2). pose proof (len_nonneg cur).
  rewrite weight_app in *. change (weight [e]) with (len e.1.1 + len e.1.2 + 64 + 0) in *.
  specialize (Hstep ltac:(lia)).
  destruct (entry_upper_ok e) as (u & Hu & Hule); [unfold isize_max, u64_max in *; lia|].
  exists u. split; [done|]. split.
  - apply Sizer.add64_ok. unfold empty_upper, isize_max, u64_max in *. lia.
  - rewrite len_app. change (len [e]) with 1. lia.
Qed.

Lemma make_room_upper_at le cur e :
  encoded = false → emitter_at le cur → fits (cur ++ [e]) → cur = [] ∨ chunk_ok f lv cur →
  room_spec cur e (make_room_upper le e.1.1 e.1.2 (Sizer.count_opt lf e.2)).
Proof.
  intros Henc Hle Hfit Hcur. destruct (force_at le cur e Hle Hfit Hcur) as [_ Hfit1].
  pose proof Hle as [Hb _]. pose proof (ba_size _ _ Hb) as Hsz. rewrite Henc in Hsz. destruct Hsz as [Hz Hup].
  assert (∀ l, (told_entry l e).2 = 0) as Htold by (intros l; unfold told_entry; by rewrite Henc).
  destruct (upper_step cur e _ Hfit Hup) as (u & Hu & Hadd & Hbound).
  unfold make_room_upper. rewrite Hu, (ba_config _ _ Hb). cbn [mbind outcome_bind]. rewrite Hadd.
  cbn [mbind outcome_bind]. destruct (Z.ltb_spec hard (le_upper_size le + u)) as [Hover|Hfine].
  - rewrite (exact_size_after_at le cur e Hb Hfit). cbn [mbind outcome_bind].
    destruct (force_upper_at le cur e Hle Hfit Hcur) as (le1 & -> & Hle1). cbn [mbind outcome_bind].
    unfold room_spec. set (cur1 := after_force f lv cur e) in *.
    destruct (Z.ltb_spec hard (size (cur1 ++ [e]))) as [|Hsize]; [done|].
    eexists. rewrite Htold. split; [done|]. apply ready_intro; [done|]. rewrite Henc.
    pose proof (ba_size _ _ (proj1 Hle1)) as Hsz1. rewrite Henc in Hsz1.
    split; [by destruct Hsz1|]. pose proof (upper_exact_bound _ Hfit1). lia.
  - assert (forced f lv cur e = false) as Hforced.
    { unfold forced. destruct (Z.ltb_spec hard (size (cur ++ [e]))); [lia|]. by rewrite andb_false_r. }
    unfold room_spec, after_force, closed_by_force in *. rewrite Hforced in *.
    destruct (Z.ltb_spec hard (size (cur ++ [e]))); [lia|].
    eexists. rewrite Htold. split; [done|]. apply ready_intro; [done|]. by rewrite Henc.
Qed.

Lemma payload_step cur e :
  fits (cur ++ [e]) →
  (payload ← add_usize (raw_payload lv cur) (len e.1.1);
   payload ← add_usize payload (len e.1.2);
   add_usize payload (match Sizer.count_opt lf e.2 with Some _ => 8 | None => 0 end))
  = Ok (raw_payload lv (cur ++ [e])).
Proof.
  intros [[_ Hw] _ _ _]. pose proof (raw_payload_bound (cur ++ [e])) as Hp. pose proof size_nil_pos.
  pose proof (raw_payload_bound cur). rewrite raw_payload_app in *.
  change (raw_payload lv [e]) with (len e.1.1 + len e.1.2 + (if lv =? 0 then 0 else 8) + 0) in *.
  pose proof (len_nonneg e.1.1). pose proof (len_nonneg e.1.2). unfold isize_max, Sizer.count_opt in *.
  unfold add_usize, usize_max, u64_max.
  destruct (lv =? 0);
    rewrite checked_add_le by lia; cbn [ok_or mbind outcome_bind]; rewrite checked_add_le by lia;
    cbn [ok_or mbind outcome_bind]; rewrite checked_add_le by lia; cbn [ok_or]; f_equal; lia.
Qed.

Lemma node_of_snoc cur e :
  {| keys := keys (node_of f lv cur) ++ [e.1.1]; vals := vals (node_of f lv cur) ++ [e.1.2];
     child_counts := match Sizer.count_opt lf e.2 with
                     | Some count => child_counts (node_of f lv cur) ++ [count]
                     | None => child_counts (node_of f lv cur)
                     end;
     leaf := leaf (node_of f lv cur); level := level (node_of f lv cur);
     format := format (node_of f lv cur) |} = node_of f lv (cur ++ [e]).
Proof.
  unfold node_of, Sizer.count_opt. cbn [keys vals child_counts leaf level format]. rewrite !fmap_app.
  by destruct (lv =? 0).
Qed.

(** Pushing one entry does what [place] specifies. *)
Lemma push_entry_at le cur e :
  emitter_at le cur → fits (cur ++ [e]) → cur = [] ∨ chunk_ok f lv cur →
  match place f lv cur e with
  | Ok (closed, cur') =>
      ∃ le', push_entry_with le e.1.1 e.1.2 (Sizer.count_opt lf e.2) = Ok (emitted_of f lv <$> closed, le') ∧
        emitter_at le' cur'
  | Err x => push_entry_with le e.1.1 e.1.2 (Sizer.count_opt lf e.2) = Err x
  | Panic _ => False
  end.
Proof.
  intros Hle Hfit Hcur. destruct (force_at le cur e Hle Hfit Hcur) as [_ Hfit1].
  assert (room_spec cur e (room le e)) as Hroom.
  { unfold room. rewrite (ba_measure _ _ (proj1 Hle)).
    destruct encoded eqn:Henc; [by apply make_room_encoded_at|by apply make_room_upper_at]. }
  unfold push_entry_with. fold (room le e). unfold room_spec in Hroom.
  rewrite place_eq. cbn zeta. set (cur1 := after_force f lv cur e) in *. set (closed := closed_by_force f lv cur e) in *.
  destruct (Z.ltb_spec hard (size (cur1 ++ [e]))) as [|Hsize]; [by rewrite Hroom|].
  destruct Hroom as (le1 & -> & [Hcur1 Hpay1 Htell Hnext]). cbn [mbind outcome_bind].
  destruct (observe_tells (le_detector le1) cur1 e Htell Hfit1 Hsize) as (b & d & -> & -> & Hd).
  cbn [mbind outcome_bind].
  change (le_current_payload_bytes (with_detector le1 d)) with (le_current_payload_bytes le1).
  change (le_current (with_detector le1 d)) with (le_current le1). rewrite Hpay1, Hcur1.
  pose proof (payload_step cur1 e Hfit1) as Hpay.
  destruct (add_usize (raw_payload lv cur1) (len e.1.1)) as [p1| |]; [|done..]. cbn [mbind outcome_bind] in *.
  destruct (add_usize p1 (len e.1.2)) as [p2| |]; [|done..]. cbn [mbind outcome_bind] in *.
  rewrite Hpay. cbn [mbind outcome_bind]. rewrite node_of_snoc. specialize (Hnext d).
  destruct b; [|eexists; split; [done|by split]].
  destruct (flush_current_at _ _ Hnext Hfit1) as (le2 & Hflush & Hb2 & Hd2); [by destruct cur1|done|].
  unfold flush_emit. rewrite Hflush. cbn [mbind outcome_bind expect]. exists le2. rewrite fmap_app.
  split; [done|]. split; [done|]. by rewrite Hd2.
Qed.

(** ** All entries of a level *)
Fixpoint push_entries (le : LevelEmitter) (es : list node_entry)
    : outcome Error (list EmittedNode * LevelEmitter) :=
  match es with
  | [] => Ok ([], le)
  | e :: es' =>
      '(emitted, le) ← push_entry_with le e.1.1 e.1.2 (Sizer.count_opt lf e.2);
      '(rest, le) ← push_entries le es';
      Ok (emitted ++ rest, le)
  end.

Definition emit_rest (le : LevelEmitter) (es : list node_entry) : outcome Error (list EmittedNode) :=
  '(emitted, le) ← push_entries le es;
  '(last_node, _) ← le_finish le;
  Ok (emitted ++ option_list last_node).

Lemma finish_at le cur :
  emitter_at le cur → fits cur → cur = [] ∨ chunk_ok f lv cur →
  ∃ le', le_finish le = Ok (if bool_decide (cur = []) then None else Some (emitted_of f lv cur), le').
Proof.
  intros [Hb _] Hfit Hcur. unfold le_finish. destruct Hcur as [->|[Hne Hsize]].
  - unfold flush_current. rewrite (le_is_empty_at le [] Hb). by eexists.
  - rewrite bool_decide_eq_false_2 by done.
    destruct (flush_current_at le cur Hb Hfit Hne Hsize) as (le' & -> & _). by eexists.
Qed.

Lemma emit_rest_at es le cur :
  emitter_at le cur → fits (cur ++ es) → cur = [] ∨ chunk_ok f lv cur →
  emit_rest le es = (λ chunks : list (list node_entry), emitted_of f lv <$> chunks) <$> chunk_from f lv cur es.
Proof.
  unfold emit_rest. revert le cur; induction es as [|e es IH]; intros le cur Hle Hfit Hcur.
  { rewrite app_nil_r in Hfit. cbn [push_entries mbind outcome_bind chunk_from].
    destruct (finish_at le cur Hle Hfit Hcur) as (le' & ->). cbn [mbind outcome_bind].
    by case_bool_decide. }
  rewrite cons_middle, app_assoc in Hfit. destruct (fits_app _ _ Hfit) as [Hfit1 _].
  cbn [push_entries chunk_from]. pose proof (push_entry_at le cur e Hle Hfit1 Hcur) as Hpush.
  destruct (place f lv cur e) as [[closed cur']|x|] eqn:Hplace; [|by rewrite Hpush|done].
  destruct Hpush as (le' & -> & Hle'). cbn [mbind outcome_bind].
  destruct (place_ok _ _ _ _ _ _ Hplace Hcur) as (Hcat & _ & Hcur').
  rewrite <- Hcat, <- app_assoc in Hfit. apply fits_app in Hfit as [_ Hfit].
  specialize (IH le' cur' Hle' Hfit Hcur').
  transitivity (app (emitted_of f lv <$> closed) <$> emit_rest le' es).
  { unfold emit_rest. destruct (push_entries le' es) as [[em le'']| |]; [|done..]. cbn [mbind outcome_bind].
    destruct (le_finish le'') as [[]| |]; [|done..]. cbn. by rewrite <- app_assoc. }
  unfold emit_rest. rewrite IH. destruct (chunk_from f lv cur' es) as [chunks| |]; [|done..].
  cbn. by rewrite fmap_app.
Qed.

(** The streaming emitter of a level computes the chunks of the level. *)
Lemma emit_level_chunks es :
  fits es →
  (le ← LevelEmitter_new config lf lv; emit_rest le es) = (λ chunks : list (list node_entry), emitted_of f lv <$> chunks) <$> level_chunks f lv es.
Proof.
  intros Hfit. destruct LevelEmitter_new_at as (le & -> & Hle).
  { pose proof (weight_nonneg es). pose proof (fits_room _ Hfit). lia. }
  cbn [mbind outcome_bind]. apply emit_rest_at; [done|done|by left].
Qed.

End emitter.
End EmitterSpec.
