(* ===== verification/Builder.v ===== *)
(** * Tree builders (src/prolly/builder.rs)

    [BatchBuilder] sorts its entries and builds the tree level by level;
    [SortedBatchBuilder] streams ordered entries through the hierarchical emitter
    and publishes nodes in batches.  Both persist nodes through the store
    interface.  What the publication origin and the capacity reservations affect is
    performance only, they are left out. *)

From Stdlib Require Import ZArith Lia Strings.Byte.
From stdpp Require Import base tactics numbers list strings option gmap.
From S2P Require Import Prelude Cursor Types Format Boundary Node Sizer Chunks Store Emitter.
Import Format Node Store Emitter.

Local Open Scope Z_scope.

Module Builder.

Definition SORTED_BUILDER_NODE_BATCH : Z := 4096.

Record Tree := { t_root : option Cid; t_config : Config.Config }.
Definition Tree_new (config : Config.Config) : Tree := {| t_root := None; t_config := config |}.
Definition Tree_is_empty (self : Tree) : bool := bool_decide (t_root self = None).

Record BuiltNode := { bn_cid : Cid; bn_first_key : bytes; bn_count : Z; bn_bytes : bytes }.
Record DeferredNode := { dn_cid : Cid; dn_bytes : bytes; dn_node : Node }.

(** [sort_by(|a, b| a.0.cmp(&b.0))], a stable sort. *)
Fixpoint insert_sorted {V} (e : bytes * V) (l : list (bytes * V)) : list (bytes * V) :=
  match l with
  | [] => [e]
  | e' :: l' => if bltb e'.1 e.1 then e' :: insert_sorted e l' else e :: l
  end.
Definition sort_entries {V} (l : list (bytes * V)) : list (bytes * V) := foldr insert_sorted [] l.

(** The deduplication loop: the last value of a run of equal keys wins. *)
Fixpoint dedup_loop {V} (l unique : list (bytes * V)) : list (bytes * V) :=
  match l with
  | [] => unique
  | (key, value) :: l' =>
      match list.last unique with
      | Some (previous, _) =>
          if bool_decide (previous = key)
          then dedup_loop l' (removelast unique ++ [(previous, value)])
          else dedup_loop l' (unique ++ [(key, value)])
      | None => dedup_loop l' (unique ++ [(key, value)])
      end
  end.

Section hashes.
Context `{Hashes} {St : Type} `{!Store St}.

(** ** Persisting nodes *)
Definition persist_nodes (store : St) (nodes : list BuiltNode) : outcome Error St :=
  if bool_decide (length nodes = 0%nat) then Ok store
  else publish_nodes store ((λ n, (bn_cid n, bn_bytes n)) <$> nodes).

Definition summary_of (n : BuiltNode) : NodeSummary :=
  {| sm_cid := bn_cid n; sm_first_key := bn_first_key n; sm_count := bn_count n |}.

(** ** BatchBuilder *)
Record BatchBuilder := {
  bb_store : St;
  bb_config : Config.Config;
  bb_entries : list (bytes * bytes);
}.

Definition BatchBuilder_new (store : St) (config : Config.Config) : BatchBuilder :=
  {| bb_store := store; bb_config := config; bb_entries := [] |}.
Definition bb_add (self : BatchBuilder) (key value : bytes) : BatchBuilder :=
  {| bb_store := bb_store self; bb_config := bb_config self;
     bb_entries := bb_entries self ++ [(key, value)] |}.

(** The elements of an inclusive range of indices. *)
Definition range_slice {A} (l : list A) (range : Chunks.range) : list A :=
  take (range.2 - range.1 + 1) (drop range.1 l).

Definition built_node (node : Node) (count : Z) : outcome Error BuiltNode :=
  let first_key := default [] (head (keys node)) in
  encoded ← to_bytes node;
  Ok {| bn_cid := Cid_from_bytes encoded; bn_first_key := first_key; bn_count := count;
        bn_bytes := encoded |}.

Definition leaf_node (config : Config.Config) (entries : list (bytes * bytes)) (range : Chunks.range)
    : outcome Error BuiltNode :=
  let node := new_builder_node config true INIT_LEVEL in
  let slice := range_slice entries range in
  let node := {| keys := keys node ++ (fst <$> slice); vals := vals node ++ (snd <$> slice);
                 child_counts := child_counts node; leaf := leaf node; level := level node;
                 format := format node |} in
  built_node node (Z.of_nat (range.2 - range.1 + 1)).

Definition parallel_chunk (config : Config.Config) (store : St) (entries : list (bytes * bytes))
    : outcome Error (list NodeSummary * St) :=
  if bool_decide (length entries = 0%nat) then Ok ([], store)
  else
    chunk_ranges ← Chunks.chunk_ranges_for_entries_parallel config INIT_LEVEL entries None;
    nodes ← mapM (leaf_node config entries) chunk_ranges;
    store ← persist_nodes store nodes;
    Ok (summary_of <$> nodes, store).

Definition internal_node (config : Config.Config) (lv : Z) (children : list NodeSummary)
    (range : Chunks.range) : outcome Error BuiltNode :=
  let node := new_builder_node config false lv in
  let slice := range_slice children range in
  let node := {| keys := keys node ++ (sm_first_key <$> slice); vals := vals node ++ (sm_cid <$> slice);
                 child_counts := child_counts node ++ (sm_count <$> slice);
                 leaf := leaf node; level := level node; format := format node |} in
  count ← sum_u64 (sm_count <$> slice) 0;
  built_node node count.

Definition build_level (config : Config.Config) (store : St) (children : list NodeSummary) (lv : Z)
    : outcome Error (list NodeSummary * St) :=
  if bool_decide (length children = 0%nat) then Ok ([], store)
  else
    let internal_entries := (λ child, (sm_first_key child, sm_cid child)) <$> children in
    let counts := sm_count <$> children in
    chunk_ranges ← Chunks.chunk_ranges_for_entries_parallel config lv internal_entries (Some counts);
    nodes ← mapM (internal_node config lv children) chunk_ranges;
    store ← persist_nodes store nodes;
    Ok (summary_of <$> nodes, store).

(** [while level_nodes.len() > 1 { level += 1; .. }] with a [u8] level: 256 rounds
    are never exceeded. *)
Fixpoint build_levels (fuel : nat) (config : Config.Config) (store : St) (lv : Z)
    (level_nodes : list NodeSummary) : outcome Error (list NodeSummary * St) :=
  match fuel with
  | O => Panic "unreachable"
  | S fuel' =>
      if (1 <? length level_nodes)%nat then
        if u8_max <? lv + 1 then Panic "attempt to add with overflow"
        else
          '(level_nodes, store) ← build_level config store level_nodes (lv + 1);
          build_levels fuel' config store (lv + 1) level_nodes
      else Ok (level_nodes, store)
  end.

Definition levels_fuel : nat := 257.

Definition build_from_chunks (config : Config.Config) (store : St) (level_nodes : list NodeSummary)
    : outcome Error (Tree * St) :=
  match level_nodes with
  | [] => Ok (Tree_new config, store)
  | [node] => Ok ({| t_root := Some (sm_cid node); t_config := config |}, store)
  | _ =>
      '(level_nodes, store) ← build_levels levels_fuel config store INIT_LEVEL level_nodes;
      Ok ({| t_root := sm_cid <$> head level_nodes; t_config := config |}, store)
  end.

Definition bb_build (self : BatchBuilder) : outcome Error (Tree * St) :=
  if bool_decide (length (bb_entries self) = 0%nat)
  then Ok ({| t_root := None; t_config := bb_config self |}, bb_store self)
  else
    let entries := dedup_loop (sort_entries (bb_entries self)) [] in
    '(chunks, store) ← parallel_chunk (bb_config self) (bb_store self) entries;
    build_from_chunks (bb_config self) store chunks.

(** ** Upper levels built serially, without persisting *)
Definition deferred (e : EmittedNode) : DeferredNode :=
  {| dn_cid := sm_cid (em_summary e); dn_bytes := em_bytes e; dn_node := em_node e |}.

Fixpoint push_children (emitter : LevelEmitter) (children : list NodeSummary)
    (summaries : list NodeSummary) (pending : list DeferredNode)
    : outcome Error (LevelEmitter * list NodeSummary * list DeferredNode) :=
  match children with
  | [] => Ok (emitter, summaries, pending)
  | child :: children' =>
      '(emitted, emitter) ← push_child emitter child;
      push_children emitter children' (summaries ++ (em_summary <$> emitted))
        (pending ++ (deferred <$> emitted))
  end.

Definition build_level_serial (config : Config.Config) (children : list NodeSummary) (lv : Z)
    (pending : list DeferredNode) : outcome Error (list NodeSummary * list DeferredNode) :=
  emitter ← LevelEmitter_new config false lv;
  '(emitter, summaries, pending) ← push_children emitter children [] pending;
  '(emitted, _) ← le_finish emitter;
  match emitted with
  | Some e => Ok (summaries ++ [em_summary e], pending ++ [deferred e])
  | None => Ok (summaries, pending)
  end.

Fixpoint build_levels_serial (fuel : nat) (config : Config.Config) (lv : Z)
    (level_nodes : list NodeSummary) (pending : list DeferredNode)
    : outcome Error (list NodeSummary * list DeferredNode) :=
  match fuel with
  | O => Panic "unreachable"
  | S fuel' =>
      if (1 <? length level_nodes)%nat then
        if u8_max <? lv + 1 then Panic "attempt to add with overflow"
        else
          '(level_nodes, pending) ← build_level_serial config level_nodes (lv + 1) pending;
          build_levels_serial fuel' config (lv + 1) level_nodes pending
      else Ok (level_nodes, pending)
  end.

Definition build_from_chunks_serial_deferred (config : Config.Config) (level_nodes : list NodeSummary)
    : outcome Error (Tree * list DeferredNode) :=
  match level_nodes with
  | [] => Ok (Tree_new config, [])
  | [node] => Ok ({| t_root := Some (sm_cid node); t_config := config |}, [])
  | _ =>
      '(level_nodes, pending) ← build_levels_serial levels_fuel config INIT_LEVEL level_nodes [];
      Ok ({| t_root := sm_cid <$> head level_nodes; t_config := config |}, pending)
  end.

(** ** SortedBatchBuilder *)
Record SortedBatchBuilder := {
  sb_store : St;
  sb_config : Config.Config;
  sb_publication_batch_items : Z;
  sb_pending_entry : option (bytes * bytes);
  sb_pending_nodes : list BuiltNode;
  sb_pending_nodes_payload_bytes : Z;
  sb_peak_retained_payload_bytes : Z;
  sb_hierarchy : HierarchicalEmitter;
}.

Definition SortedBatchBuilder_new_with_batch_size (store : St) (config : Config.Config)
    (publication_batch_items : Z) : outcome Error SortedBatchBuilder :=
  if negb (0 <? publication_batch_items)
  then Panic "sorted builder publication batch size must be positive"
  else match HierarchicalEmitter_new config with
       | Ok hierarchy =>
           Ok {| sb_store := store; sb_config := config;
                 sb_publication_batch_items := publication_batch_items;
                 sb_pending_entry := None; sb_pending_nodes := [];
                 sb_pending_nodes_payload_bytes := 0; sb_peak_retained_payload_bytes := 0;
                 sb_hierarchy := hierarchy |}
       | _ => Panic "configuration contains a registered persisted tree format"
       end.
Definition SortedBatchBuilder_new (store : St) (config : Config.Config) : outcome Error SortedBatchBuilder :=
  SortedBatchBuilder_new_with_batch_size store config SORTED_BUILDER_NODE_BATCH.

Definition sb_with_entry (self : SortedBatchBuilder) (entry : option (bytes * bytes)) : SortedBatchBuilder := {|
  sb_store := sb_store self; sb_config := sb_config self;
  sb_publication_batch_items := sb_publication_batch_items self;
  sb_pending_entry := entry; sb_pending_nodes := sb_pending_nodes self;
  sb_pending_nodes_payload_bytes := sb_pending_nodes_payload_bytes self;
  sb_peak_retained_payload_bytes := sb_peak_retained_payload_bytes self;
  sb_hierarchy := sb_hierarchy self |}.
Definition sb_with_hierarchy (self : SortedBatchBuilder) (hierarchy : HierarchicalEmitter) : SortedBatchBuilder := {|
  sb_store := sb_store self; sb_config := sb_config self;
  sb_publication_batch_items := sb_publication_batch_items self;
  sb_pending_entry := sb_pending_entry self; sb_pending_nodes := sb_pending_nodes self;
  sb_pending_nodes_payload_bytes := sb_pending_nodes_payload_bytes self;
  sb_peak_retained_payload_bytes := sb_peak_retained_payload_bytes self;
  sb_hierarchy := hierarchy |}.
Definition sb_with_peak (self : SortedBatchBuilder) (peak : Z) : SortedBatchBuilder := {|
  sb_store := sb_store self; sb_config := sb_config self;
  sb_publication_batch_items := sb_publication_batch_items self;
  sb_pending_entry := sb_pending_entry self; sb_pending_nodes := sb_pending_nodes self;
  sb_pending_nodes_payload_bytes := sb_pending_nodes_payload_bytes self;
  sb_peak_retained_payload_bytes := peak; sb_hierarchy := sb_hierarchy self |}.
Definition sb_with_nodes (self : SortedBatchBuilder) (store : St) (nodes : list BuiltNode) (payload : Z)
    : SortedBatchBuilder := {|
  sb_store := store; sb_config := sb_config self;
  sb_publication_batch_items := sb_publication_batch_items self;
  sb_pending_entry := sb_pending_entry self; sb_pending_nodes := nodes;
  sb_pending_nodes_payload_bytes := payload;
  sb_peak_retained_payload_bytes := sb_peak_retained_payload_bytes self;
  sb_hierarchy := sb_hierarchy self |}.

Definition sb_retained_payload_bytes (self : SortedBatchBuilder) : outcome Error Z :=
  pending_entry_bytes ← match sb_pending_entry self with
                        | Some (key, value) => add_usize (len key) (len value)
                        | None => Ok 0
                        end;
  retained ← he_retained_payload_bytes (sb_hierarchy self);
  retained ← add_usize retained pending_entry_bytes;
  add_usize retained (sb_pending_nodes_payload_bytes self).

Definition observe_retained_payload_peak (self : SortedBatchBuilder) : outcome Error SortedBatchBuilder :=
  retained ← sb_retained_payload_bytes self;
  Ok (sb_with_peak self (Z.max (sb_peak_retained_payload_bytes self) retained)).

Definition flush_pending_nodes (self : SortedBatchBuilder) : outcome Error SortedBatchBuilder :=
  store ← persist_nodes (sb_store self) (sb_pending_nodes self);
  Ok (sb_with_nodes self store [] 0).

Definition collect_emitted (self : SortedBatchBuilder) (emitted : list EmittedNode)
    : outcome Error SortedBatchBuilder :=
  emitted_payload_bytes ← foldM (λ n e, add_usize n (em_owned_payload_bytes e)) 0 emitted;
  retained_emitted_payload_bytes ←
    foldM (λ n e, n ← add_usize n (len (sm_first_key (em_summary e)));
                  add_usize n (len (em_bytes e))) 0 emitted;
  retained ← sb_retained_payload_bytes self;
  concurrent_payload_bytes ← add_usize retained emitted_payload_bytes;
  let self := sb_with_peak self (Z.max (sb_peak_retained_payload_bytes self) concurrent_payload_bytes) in
  let nodes := sb_pending_nodes self ++
    ((λ e, {| bn_cid := sm_cid (em_summary e); bn_first_key := sm_first_key (em_summary e);
              bn_count := sm_count (em_summary e); bn_bytes := em_bytes e |}) <$> emitted) in
  payload ← add_usize (sb_pending_nodes_payload_bytes self) retained_emitted_payload_bytes;
  let self := sb_with_nodes self (sb_store self) nodes payload in
  self ← observe_retained_payload_peak self;
  if sb_publication_batch_items self <=? len (sb_pending_nodes self) then flush_pending_nodes self
  else Ok self.

Definition flush_pending_entry (self : SortedBatchBuilder) : outcome Error SortedBatchBuilder :=
  match sb_pending_entry self with
  | None => Ok self
  | Some (key, value) =>
      let self := sb_with_entry self None in
      '(emitted, hierarchy) ← he_push_leaf (sb_hierarchy self) key value;
      collect_emitted (sb_with_hierarchy self hierarchy) emitted
  end.

Definition sb_add (self : SortedBatchBuilder) (key value : bytes) : outcome Error SortedBatchBuilder :=
  let next := flush_pending_entry self ≫= λ self,
              observe_retained_payload_peak (sb_with_entry self (Some (key, value))) in
  match sb_pending_entry self with
  | Some (previous, _) =>
      if bltb key previous then Err (UnsortedInput previous key)
      else if bool_decide (key = previous)
      then observe_retained_payload_peak (sb_with_entry self (Some (previous, value)))
      else next
  | None => next
  end.

Definition build_with_retained_payload_peak (self : SortedBatchBuilder) : outcome Error (Tree * Z * St) :=
  self ← flush_pending_entry self;
  '(root, emitted, hierarchy) ← he_finish (sb_hierarchy self);
  self ← collect_emitted (sb_with_hierarchy self hierarchy) emitted;
  self ← flush_pending_nodes self;
  Ok ({| t_root := sm_cid <$> root; t_config := sb_config self |},
      sb_peak_retained_payload_bytes self, sb_store self).

Definition sb_build (self : SortedBatchBuilder) : outcome Error (Tree * St) :=
  '(tree, _, store) ← build_with_retained_payload_peak self;
  Ok (tree, store).

End hashes.
End Builder.
