(* ===== verification/Entries.v ===== *)
(** * Ordered entries

    What the sorting and the deduplication of [BatchBuilder::build] compute: the
    strictly ascending list of the final map, whatever the order of insertion. *)

From Stdlib Require Import ZArith Lia Strings.Byte.
From stdpp Require Import base tactics numbers list strings option gmap sorting.
From S2P Require Import Prelude Cursor Types Format Boundary Node Sizer Chunks Store Emitter Builder.
Import Store Builder.

Module Entries.

(** Strictly ascending keys. *)
Definition ascending {V} (l : list (bytes * V)) : Prop := StronglySorted blt (fst <$> l).

(** The map that the insertions produce, the last one winning. *)
Definition final_map {V} (l : list (bytes * V)) : gmap bytes V := put_all l ∅.

Definition canonical_entries {V} (raw : list (bytes * V)) : list (bytes * V) :=
  dedup_loop (sort_entries raw) [].

Section entries.
Context {V : Type}.
Implicit Types (l raw unique : list (bytes * V)) (m : gmap bytes V) (e : bytes * V).

Lemma put_all_cons e l m : put_all (e :: l) m = put_all l (<[e.1 := e.2]> m).
Proof. done. Qed.
Lemma put_all_app (a b : list (bytes * V)) m : put_all (a ++ b) m = put_all b (put_all a m).
Proof. apply foldl_app. Qed.

Lemma put_all_snoc l e m : put_all (l ++ [e]) m = <[e.1 := e.2]> (put_all l m).
Proof. unfold put_all. by rewrite foldl_snoc. Qed.

(** ** Sorting *)
Lemma put_all_insert_sorted e l m : put_all (insert_sorted e l) m = put_all (e :: l) m.
Proof.
  revert m; induction l as [|e' l IH]; intros m; [done|]. cbn [insert_sorted].
  destruct (bltb e'.1 e.1) eqn:Hlt; [|done]. apply bltb_lt, blt_neq in Hlt.
  rewrite put_all_cons, IH, !put_all_cons. f_equal. by apply insert_insert_ne.
Qed.

Lemma put_all_sort l m : put_all (sort_entries l) m = put_all l m.
Proof.
  unfold sort_entries. revert m; induction l as [|e l IH]; intros m; [done|]. cbn [foldr].
  by rewrite put_all_insert_sorted, !put_all_cons, IH.
Qed.

Lemma insert_sorted_elem e l (x : bytes * V) : x ∈ insert_sorted e l ↔ x = e ∨ x ∈ l.
Proof.
  induction l as [|e' l IH]; cbn [insert_sorted]; [by rewrite elem_of_cons|].
  destruct (bltb _ _); rewrite !elem_of_cons, ?IH; [|done]. tauto.
Qed.

Abbreviation weakly_sorted l := (StronglySorted ble (fst <$> l)).

Lemma insert_sorted_sorted e l : weakly_sorted l → weakly_sorted (insert_sorted e l).
Proof.
  induction l as [|e' l IH]; intros Hl; cbn [insert_sorted fmap list_fmap] in *; [by repeat constructor|].
  apply StronglySorted_inv in Hl as [Hl Hall]. destruct (bltb e'.1 e.1) eqn:Hlt.
  - cbn [fmap list_fmap]. constructor; [by apply IH|]. apply bltb_lt, blt_le in Hlt.
    rewrite Forall_fmap, Forall_forall in *. intros x [->|Hx]%insert_sorted_elem; [done|]. by apply Hall.
  - apply bltb_ge in Hlt. cbn [fmap list_fmap]. constructor; [by constructor|]. constructor; [done|].
    eapply Forall_impl; [exact Hall|]. intros k Hk. by eapply ble_trans.
Qed.

Lemma sort_sorted l : weakly_sorted (sort_entries l).
Proof. induction l as [|e l IH]; [constructor|]. by apply insert_sorted_sorted. Qed.

(** ** Deduplication *)
Lemma dedup_step unique key value l :
  ascending unique → (∀ k, k ∈ fst <$> unique → (k ≤ key)%key) →
  ∃ unique', ascending unique' ∧ (∀ k, k ∈ fst <$> unique' → (k ≤ key)%key) ∧
    dedup_loop ((key, value) :: l) unique = dedup_loop l unique' ∧
    ∀ m, put_all unique' m = put_all (unique ++ [(key, value)]) m.
Proof.
  intros Hasc Hle. cbn [dedup_loop]. destruct unique as [|[p w] u _] using rev_ind.
  { exists [(key, value)]. split; [by repeat constructor|]. split; [|done]. intros k Hk.
    apply list_elem_of_singleton in Hk as ->. apply ble_refl. }
  rewrite last_snoc. unfold ascending in *. rewrite fmap_app in *. cbn [fmap list_fmap fst] in *.
  case_bool_decide as Hpk.
  - subst p. rewrite removelast_last. exists (u ++ [(key, value)]). rewrite fmap_app.
    split; [exact Hasc|]. split; [exact Hle|]. split; [done|]. intros m. rewrite !put_all_snoc. cbn. by rewrite insert_insert_eq.
  - exists ((u ++ [(p, w)]) ++ [(key, value)]). rewrite !fmap_app. cbn [fmap list_fmap fst].
    assert (p < key)%key as Hp.
    { destruct (proj1 (ble_lt_eq p key)) as [| ->]; [|done..]. apply Hle. apply list_elem_of_In, in_or_app. right. by left. }
    assert (∀ k, k ∈ (fst <$> u) ++ [p] → (k < key)%key) as Hlt.
    { intros k Hk. apply elem_of_app in Hk as [Hk|Hk%list_elem_of_singleton]; [|by subst].
      eapply blt_trans; [|exact Hp]. apply (StronglySorted_app_1_elem_of _ _ _ _ _ Hasc Hk). by apply list_elem_of_singleton. }
    split; [|split; [|done]].
    + apply StronglySorted_app_2; [|done|by repeat constructor]. intros k y Hk Hy.
      apply list_elem_of_singleton in Hy as ->. by apply Hlt.
    + intros k Hk. apply elem_of_app in Hk as [Hk|Hk%list_elem_of_singleton]; [by apply blt_le, Hlt|].
      subst. apply ble_refl.
Qed.

Lemma dedup_loop_spec l unique :
  ascending unique → weakly_sorted l → (∀ k k', k ∈ fst <$> unique → k' ∈ fst <$> l → (k ≤ k')%key) →
  ascending (dedup_loop l unique) ∧ ∀ m, put_all (dedup_loop l unique) m = put_all (unique ++ l) m.
Proof.
  revert unique; induction l as [|[key value] l IH]; intros unique Hasc Hl Hle.
  { cbn [dedup_loop]. by rewrite app_nil_r. }
  cbn [fmap list_fmap fst] in *. apply StronglySorted_inv in Hl as [Hl Hall].
  destruct (dedup_step unique key value l Hasc) as (unique' & Hasc' & Hle' & -> & Hput).
  { intros k Hk. apply Hle; [done|]. apply list_elem_of_here. }
  destruct (IH unique' Hasc' Hl) as [Hres Hm].
  { intros k k' Hk Hk'. eapply ble_trans; [by apply Hle'|]. rewrite Forall_forall in Hall. by apply Hall. }
  split; [done|]. intros m. rewrite Hm, cons_middle, app_assoc. unfold put_all in *. by rewrite foldl_app, Hput, <- foldl_app.
Qed.

Lemma canonical_ascending raw : ascending (canonical_entries raw).
Proof.
  apply dedup_loop_spec; [constructor|apply sort_sorted|]. intros k k' Hk. by apply not_elem_of_nil in Hk.
Qed.

Lemma canonical_map raw : final_map (canonical_entries raw) = final_map raw.
Proof.
  unfold final_map, canonical_entries. edestruct (dedup_loop_spec (sort_entries raw) []) as [_ ->];
    [constructor|apply sort_sorted| |apply put_all_sort]. intros k k' Hk. by apply not_elem_of_nil in Hk.
Qed.

(** ** An ascending list is determined by its map *)
Lemma ascending_nodup l : ascending l → NoDup (fst <$> l).
Proof.
  unfold ascending. induction (fst <$> l) as [|k ks IH]; intros Hs; [constructor|].
  apply StronglySorted_inv in Hs as [Hs Hall]. constructor; [|by apply IH].
  intros Hk. rewrite Forall_forall in Hall. by apply (blt_irrefl k), Hall.
Qed.

Lemma final_map_elem l k v : ascending l → final_map l !! k = Some v ↔ (k, v) ∈ l.
Proof.
  intros Hnd%ascending_nodup. unfold final_map. induction l as [|[k' v'] l IH] using rev_ind; [by rewrite elem_of_nil|].
  rewrite fmap_app in Hnd. apply NoDup_app in Hnd as (Hnd & Hnew & _). specialize (IH Hnd).
  rewrite put_all_snoc, elem_of_app, list_elem_of_singleton. cbn [fst snd fmap list_fmap] in *.
  destruct (decide (k = k')) as [->|Hne].
  - rewrite lookup_insert_eq. split; [intros [= <-]; by right|]. intros [Hin|[= ->]]; [|done].
    exfalso. apply (Hnew k'); [|apply list_elem_of_here]. apply list_elem_of_fmap. by exists (k', v).
  - rewrite lookup_insert_ne, IH by done. split; [by left|]. intros [?|[=]]; [done|by subst].
Qed.

Lemma ascending_unique (l1 l2 : list (bytes * V)) : ascending l1 → ascending l2 → final_map l1 = final_map l2 → l1 = l2.
Proof.
  intros H1 H2 Hmap. assert (l1 ≡ₚ l2) as Hperm.
  { apply NoDup_Permutation; [by apply NoDup_fmap_1 with (f := fst), ascending_nodup..|].
    intros [k v]. by rewrite <- !final_map_elem, Hmap. }
  assert (∀ l, ascending l → StronglySorted (λ a b : bytes * V, (a.1 < b.1)%key) l) as Hsorted.
  { intros l. unfold ascending. induction l as [|e l IH]; intros Hl; [constructor|]. cbn [fmap list_fmap] in Hl.
    apply StronglySorted_inv in Hl as [Hl Hall]. constructor; [by apply IH|]. by rewrite Forall_fmap in Hall. }
  eapply StronglySorted_unique_strong; [|by apply Hsorted..|done]. intros a b _ _ Hab Hba.
  exfalso. by apply (blt_irrefl a.1), (blt_trans _ b.1).
Qed.

(** The entries that a builder builds from depend on the final map only. *)
Lemma canonical_entries_map (raw1 raw2 : list (bytes * V)) :
  final_map raw1 = final_map raw2 → canonical_entries raw1 = canonical_entries raw2.
Proof. intros Hmap. apply ascending_unique; [apply canonical_ascending..|]. by rewrite !canonical_map. Qed.

Lemma canonical_id l : ascending l → canonical_entries l = l.
Proof. intros Hl. apply ascending_unique; [apply canonical_ascending|done|apply canonical_map]. Qed.

Lemma canonical_nil raw : canonical_entries raw = [] ↔ raw = [].
Proof.
  split; [|by intros ->]. intros Hnil. pose proof (canonical_map raw) as Hmap. rewrite Hnil in Hmap.
  destruct raw as [|e raw _] using rev_ind; [done|]. unfold final_map in Hmap. rewrite put_all_snoc in Hmap.
  symmetry in Hmap. change (put_all [] ∅) with (∅ : gmap bytes V) in Hmap. by apply insert_non_empty in Hmap.
Qed.

End entries.
End Entries.
