(* ===== verification/BuilderSpec.v ===== *)
(** * The builders build the specified tree

    One specification of the tree of an ordered map, level by level, and the proofs
    that [BatchBuilder], its serial variant and [SortedBatchBuilder] return its root
    and publish its nodes. *)

From Stdlib Require Import ZArith Lia Strings.Byte.
From stdpp Require Import base tactics numbers list strings option gmap.
From S2P Require Import Prelude Cursor Types Format Boundary Node Sizer Chunks ChunkSpec Store Emitter EmitterSpec Builder Entries.
Import Format Node ChunkSpec Store Emitter EmitterSpec Builder Entries.

Local Open Scope Z_scope.

Module BuilderSpec.

Definition child_entry (s : NodeSummary) : node_entry := (sm_first_key s, sm_cid s, sm_count s).
Definition leaf_entry (e : bytes * bytes) : node_entry := (e.1, e.2, 0).

(** ** The tree of an ordered list of entries *)
Section tree.
Context `{Hashes} (f : TreeFormat).

(** The nodes above a level, and the summaries at the top. *)
Fixpoint tower (fuel : nat) (lv : Z) (nodes : list NodeSummary)
    : outcome Error (list NodeSummary * list (Z * list node_entry)) :=
  match fuel with
  | O => Panic "unreachable"
  | S fuel' =>
      if (1 <? length nodes)%nat then
        if u8_max <? lv + 1 then Panic "attempt to add with overflow"
        else
          chunks ← level_chunks f (lv + 1) (child_entry <$> nodes);
          '(top, above) ← tower fuel' (lv + 1) (summary f (lv + 1) <$> chunks);
          Ok (top, ((λ c, (lv + 1, c)) <$> chunks) ++ above)
      else Ok (nodes, [])
  end.

Definition tree_spec (entries : list (bytes * bytes))
    : outcome Error (option Cid * list (Z * list node_entry)) :=
  chunks ← level_chunks f 0 (leaf_entry <$> entries);
  '(top, above) ← tower levels_fuel 0 (summary f 0 <$> chunks);
  Ok (sm_cid <$> head top, ((λ c, (0, c)) <$> chunks) ++ above).

(** What a node is stored as. *)
Definition stored (n : Z * list node_entry) : bytes * bytes :=
  (Cid_from_bytes (node_bytes f n.1 n.2), node_bytes f n.1 n.2).

Definition built (lv : Z) (c : list node_entry) : BuiltNode := {|
  bn_cid := sm_cid (summary f lv c); bn_first_key := sm_first_key (summary f lv c);
  bn_count := sm_count (summary f lv c); bn_bytes := node_bytes f lv c |}.

End tree.

(** ** Slices of ranges *)
Lemma mapM_ranges {A B} (proj : A → node_entry) (l : list A) (g : Chunks.range → outcome Error B)
    (h : list node_entry → B) chunks pre :
  proj <$> l = pre ++ concat chunks → Forall (λ c, c ≠ []) chunks →
  (∀ r c, c ∈ chunks → proj <$> range_slice l r = c → (r.2 - r.1 + 1)%nat = length c → g r = Ok (h c)) →
  mapM g (ranges_from (length pre) chunks) = Ok (h <$> chunks).
Proof.
  revert pre; induction chunks as [|c chunks IH]; intros pre Hl Hne Hg; [done|].
  apply Forall_cons_1 in Hne as [Hc Hne]. cbn [ranges_from concat fmap list_fmap] in *.
  change (mapM g (?r :: ?rs)) with (y ← g r; ys ← mapM g rs; Ok (y :: ys)).
  assert (0 < length c)%nat as Hlen by (destruct c; [done|cbn; lia]).
  rewrite (Hg _ c).
  - cbn [mbind outcome_bind]. specialize (IH (pre ++ c)). rewrite length_app in IH. rewrite IH; [done| |done|].
    + by rewrite <- app_assoc.
    + intros r c' Hc'. apply Hg. by apply list_elem_of_further.
  - apply list_elem_of_here.
  - unfold range_slice. cbn [fst snd]. rewrite fmap_take, fmap_drop, Hl, drop_app_length.
    replace (length pre + length c - 1 - length pre + 1)%nat with (length c) by lia. apply take_app_length.
  - cbn [fst snd]. lia.
Qed.

Section level.
Context `{Hok : HashesOk} {St : Type} `{HSok : StoreOk St} (config : Config.Config).

Abbreviation f := (Config.format config).
Hypothesis Hwf : TreeFormat_wf f.
Hypothesis Hvalid : validate f = Ok tt.
Hypothesis Hcodec : has_codec f.

Lemma built_node_of lv c count :
  0 ≤ lv ≤ u8_max → fits config lv c → c ≠ [] → count = subtree_count lv c →
  built_node (node_of f lv c) count = Ok (built f lv c).
Proof.
  intros Hlv Hfit Hne ->. unfold built_node.
  destruct (node_bytes_ok config lv Hvalid Hcodec c (fits_level _ _ _ Hfit) (fits_counted _ _ _ Hfit)) as [-> _].
  cbn [mbind outcome_bind]. by destruct c.
Qed.

Lemma fits_chunk lv es chunks c :
  fits config lv es → concat chunks = es → c ∈ chunks → fits config lv c.
Proof.
  intros Hfit Hcat Hc. apply list_elem_of_split in Hc as (l1 & l2 & ->).
  rewrite concat_app in Hcat. cbn [concat] in Hcat. subst es.
  by apply fits_app in Hfit as [_ [? _]%fits_app].
Qed.

Lemma internal_nodes lv children chunks :
  0 < lv ≤ u8_max → fits config lv (child_entry <$> children) → concat chunks = child_entry <$> children →
  Forall (λ c, c ≠ []) chunks →
  mapM (internal_node config lv children) (ranges_from 0 chunks) = Ok (built f lv <$> chunks).
Proof.
  intros Hlv Hfit Hcat Hne. apply (mapM_ranges child_entry children _ _ chunks []); [done..|].
  intros r c Hc Hslice _. pose proof (fits_chunk _ _ _ _ Hfit Hcat Hc) as Hfc.
  assert (c ≠ []) as Hcne by (by apply (proj1 (List.Forall_forall _ _) Hne), list_elem_of_In).
  assert ((lv =? 0) = false) as Hlf by (apply Z.eqb_neq; lia).
  unfold internal_node. set (slice := range_slice children r) in *.
  assert (sm_count <$> slice = snd <$> c) as Hcounts by (rewrite <- Hslice, <- list_fmap_compose; done).
  assert (sum_u64 (sm_count <$> slice) 0 = Ok (subtree_count lv c)) as ->.
  { pose proof (node_of_count config lv ltac:(lia) c Hfc) as Hsum. unfold node_of in Hsum. rewrite Hlf in Hsum.
    cbn [child_counts] in Hsum. by rewrite Hcounts. }
  cbn [mbind outcome_bind].
  match goal with |- built_node ?n _ = _ => assert (n = node_of f lv c) as -> end.
  { unfold node_of, new_builder_node. rewrite Hlf. cbn. rewrite Hcounts, <- Hslice, <- !list_fmap_compose. done. }
  apply built_node_of; [lia|done..].
Qed.

Lemma leaf_nodes entries chunks :
  fits config 0 (leaf_entry <$> entries) → concat chunks = leaf_entry <$> entries →
  Forall (λ c, c ≠ []) chunks →
  mapM (leaf_node config entries) (ranges_from 0 chunks) = Ok (built f 0 <$> chunks).
Proof.
  intros Hfit Hcat Hne. apply (mapM_ranges leaf_entry entries _ _ chunks []); [done..|].
  intros r c Hc Hslice Hlen. pose proof (fits_chunk _ _ _ _ Hfit Hcat Hc) as Hfc.
  assert (c ≠ []) as Hcne by (by apply (proj1 (List.Forall_forall _ _) Hne), list_elem_of_In).
  unfold leaf_node. set (slice := range_slice entries r) in *.
  match goal with |- built_node ?n _ = _ => assert (n = node_of f 0 c) as -> end.
  { unfold node_of, new_builder_node. cbn. rewrite <- Hslice, <- !list_fmap_compose. done. }
  apply built_node_of; [done|done|done|]. rewrite Hlen. done.
Qed.

(** ** Room on every level *)
(** Summaries that a level above can be built from. *)
Record sums_ok (ss : list NodeSummary) : Prop := {
  so_each : Forall (λ s, len (sm_cid s) = 32 ∧ 1 ≤ sm_count s) ss;
  so_room : empty_upper f + 2 * weight (child_entry <$> ss) + 128 ≤ isize_max;
  so_total : foldr Z.add 0 (sm_count <$> ss) ≤ u64_max;
}.

Lemma empty_upper_size lv :
  0 ≤ lv ≤ u8_max → empty_upper f ≤ isize_max → Sizer.node_size f (lv =? 0) lv [] ≤ empty_upper f.
Proof.
  intros Hlv Hup. apply empty_upper_sound; [done|done|].
  pose proof (format_bytes_bound f Hcodec). unfold empty_upper, Sizer.format_len in *.
  case_bool_decide; [vm_compute; discriminate|lia].
Qed.

Lemma empty_upper_pos : 0 < empty_upper f.
Proof. unfold empty_upper. destruct (value_encoding f) as [| | |name]; [lia..|]. pose proof (len_nonneg name). lia. Qed.

Lemma sums_counts (ss : list NodeSummary) : snd <$> (child_entry <$> ss) = sm_count <$> ss.
Proof. rewrite <- list_fmap_compose. done. Qed.

Lemma counts_le (ss : list NodeSummary) s :
  Forall (λ s, 1 ≤ sm_count s) ss → s ∈ ss → sm_count s ≤ foldr Z.add 0 (sm_count <$> ss).
Proof.
  intros Hss Hs. induction Hss as [|x ss Hx Hss IH]; [by apply not_elem_of_nil in Hs|].
  assert (0 ≤ foldr Z.add 0 (sm_count <$> ss)) by (clear -Hss; induction Hss; cbn; lia).
  cbn [fmap list_fmap foldr] in *. apply elem_of_cons in Hs as [->|Hs]; [lia|]. specialize (IH Hs). lia.
Qed.

Lemma key_weight (e : node_entry) es : e ∈ es → len e.1.1 ≤ weight es ∧ len e.1.2 ≤ weight es.
Proof.
  intros He. induction es as [|x es IH]; [by apply not_elem_of_nil in He|].
  unfold weight in *. cbn [foldr] in *. fold (weight es) in *. pose proof (weight_nonneg es).
  pose proof (len_nonneg x.1.1). pose proof (len_nonneg x.1.2).
  apply elem_of_cons in He as [->|He]; [lia|]. specialize (IH He). lia.
Qed.

Lemma sums_fit lv ss : 0 < lv ≤ u8_max → sums_ok ss → fits config lv (child_entry <$> ss).
Proof.
  intros Hlv [Heach Hroom Htotal]. pose proof (weight_nonneg (child_entry <$> ss)). pose proof empty_upper_pos.
  pose proof (empty_upper_size lv ltac:(lia) ltac:(lia)) as Hsize.
  assert ((lv =? 0) = false) as Hlf by (apply Z.eqb_neq; lia).
  constructor; [split| | |].
  - apply List.Forall_forall. intros e He%list_elem_of_In.
    destruct (key_weight e _ He) as [Hk Hv]. apply list_elem_of_fmap in He as (s & -> & Hs).
    cbn [child_entry fst snd] in Hk, Hv. split; [lia|]. split; [lia|]. intros _.
    assert (Forall (λ s, 1 ≤ sm_count s) ss) as Hpos by (eapply Forall_impl; [exact Heach|]; by intros ? [_ ?]).
    pose proof (counts_le ss s Hpos Hs). apply List.Forall_forall with (x := s) in Hpos; [lia|by apply list_elem_of_In].
  - lia.
  - lia.
  - apply List.Forall_forall. intros e _ ->. lia.
  - unfold subtree_count. by rewrite Hlf, sums_counts.
Qed.

Lemma cid_len lv c : len (sm_cid (summary f lv c)) = 32.
Proof. unfold summary, Cid_from_bytes, len. cbn [sm_cid]. by rewrite sha256_len. Qed.

(** A node costs the level above at most what its entries cost. *)
Lemma summaries_ok lv chunks :
  0 < lv ≤ u8_max → Forall (λ c : list node_entry, c ≠ []) chunks →
  Forall (λ e : node_entry, len e.1.2 = 32 ∧ 1 ≤ e.2) (concat chunks) →
  Forall (λ s, len (sm_cid s) = 32 ∧ 1 ≤ sm_count s) (summary f lv <$> chunks) ∧
  weight (child_entry <$> (summary f lv <$> chunks)) ≤ weight (concat chunks) ∧
  foldr Z.add 0 (sm_count <$> (summary f lv <$> chunks)) = foldr Z.add 0 (snd <$> concat chunks).
Proof.
  intros Hlv. assert ((lv =? 0) = false) as Hlf by (apply Z.eqb_neq; lia).
  induction chunks as [|c chunks IH]; intros Hne Hes; [done|].
  apply Forall_cons_1 in Hne as [Hc Hne]. cbn [concat] in Hes. apply Forall_app in Hes as [Hec Hes].
  destruct (IH Hne Hes) as (IH1 & IH2 & IH3). cbn [concat fmap list_fmap] in *.
  assert (∀ l, Forall (λ e : node_entry, len e.1.2 = 32 ∧ 1 ≤ e.2) l → 0 ≤ foldr Z.add 0 (snd <$> l)) as Hnn.
  { intros l Hl. induction Hl as [|x l [_ Hx] _ IHl]; cbn; lia. }
  split; [|split].
  - constructor; [|exact IH1]. split; [apply cid_len|]. unfold summary. cbn [sm_count]. unfold subtree_count.
    rewrite Hlf. destruct c as [|x c]; [done|]. apply Forall_cons_1 in Hec as [[_ Hx] Hec].
    specialize (Hnn c Hec). cbn. lia.
  - rewrite weight_app. destruct c as [|[[k v] n] c]; [done|]. apply Forall_cons_1 in Hec as [[Hv _] _].
    pose proof (cid_len lv ((k, v, n) :: c)). pose proof (weight_nonneg c). cbn [fst snd] in Hv.
    change (weight ((k, v, n) :: c)) with (len k + len v + 64 + weight c).
    change (weight (child_entry (summary f lv ((k, v, n) :: c)) :: ?l)) with
      (len k + len (sm_cid (summary f lv ((k, v, n) :: c))) + 64 + weight l). lia.
  - rewrite fmap_app, foldr_app. cbn [foldr]. rewrite IH3.
    change (sm_count (summary f lv c)) with (subtree_count lv c). unfold subtree_count. rewrite Hlf.
    assert (∀ l a, foldr Z.add a l = foldr Z.add 0 l + a) as Hshift
      by (intros l a; induction l as [|x l IHl]; cbn; lia). by rewrite (Hshift _ (foldr Z.add 0 _)).
Qed.

Lemma sums_next lv ss chunks :
  0 < lv ≤ u8_max → sums_ok ss → level_chunks f lv (child_entry <$> ss) = Ok chunks →
  concat chunks = child_entry <$> ss ∧ Forall (chunk_ok f lv) chunks ∧ sums_ok (summary f lv <$> chunks).
Proof.
  intros Hlv [Heach Hroom Htotal] Hchunks.
  destruct (chunk_from_ok _ _ _ _ _ Hchunks (or_introl eq_refl)) as [Hcat Hok']. split; [done|]. split; [done|].
  destruct (summaries_ok lv chunks Hlv) as (H1 & H2 & H3).
  - eapply Forall_impl; [exact Hok'|]. by intros c [? _].
  - rewrite Hcat. cbn [app]. apply Forall_fmap. eapply Forall_impl; [exact Heach|]. by intros s [? ?].
  - rewrite Hcat in *. cbn [app] in *. rewrite sums_counts in H3. constructor; [done|lia|lia].
Qed.

(** The entries of a tree leave room for all its levels. *)
Definition entries_fit (entries : list (bytes * bytes)) : Prop :=
  empty_upper f + 4 * weight (leaf_entry <$> entries) + 128 ≤ isize_max.

Lemma entries_leaf_fit entries : entries_fit entries → fits config 0 (leaf_entry <$> entries).
Proof.
  unfold entries_fit. intros Hroom. set (es := leaf_entry <$> entries) in *. pose proof (weight_nonneg es).
  pose proof empty_upper_pos. pose proof (empty_upper_size 0 ltac:(done) ltac:(lia)) as Hsize.
  pose proof (weight_len es). pose proof (len_nonneg es). constructor; [split| | |].
  - apply List.Forall_forall. intros [[k v] n] He%list_elem_of_In. destruct (key_weight _ _ He) as [Hk Hv].
    cbn [fst snd] in *. split; [lia|]. split; [lia|done].
  - lia.
  - lia.
  - apply Forall_fmap, Forall_true. by intros [].
  - unfold subtree_count. cbn. unfold isize_max, u64_max in *. lia.
Qed.

Lemma leaf_sums entries chunks :
  entries_fit entries → level_chunks f 0 (leaf_entry <$> entries) = Ok chunks →
  concat chunks = leaf_entry <$> entries ∧ Forall (chunk_ok f 0) chunks ∧ sums_ok (summary f 0 <$> chunks).
Proof.
  unfold entries_fit. intros Hroom Hchunks.
  destruct (chunk_from_ok _ _ _ _ _ Hchunks (or_introl eq_refl)) as [Hcat Hok']. cbn [app] in Hcat.
  split; [done|]. split; [done|]. rewrite <- Hcat in Hroom.
  pose proof (weight_len (concat chunks)). pose proof (weight_nonneg (concat chunks)). pose proof empty_upper_pos.
  assert (Forall (λ s, len (sm_cid s) = 32 ∧ 1 ≤ sm_count s) (summary f 0 <$> chunks) ∧
    2 * weight (child_entry <$> (summary f 0 <$> chunks)) ≤ 3 * weight (concat chunks) ∧
    foldr Z.add 0 (sm_count <$> (summary f 0 <$> chunks)) = len (concat chunks)) as (H1' & H2' & H3').
  { clear Hcat Hroom Hchunks. induction chunks as [|c chunks IH]; [done|].
    apply Forall_cons_1 in Hok' as [[Hc _] Hok']. cbn [concat fmap list_fmap] in *. rewrite weight_app, len_app in *.
    destruct c as [|[[k v] n] c]; [done|].
    destruct IH as (IH1 & IH2 & IH3); [done|apply weight_len|apply weight_nonneg|].
    pose proof (cid_len 0 ((k, v, n) :: c)). pose proof (weight_nonneg c). pose proof (len_nonneg c).
    pose proof (len_nonneg k). pose proof (len_nonneg v).
    assert (sm_count (summary f 0 ((k, v, n) :: c)) = len c + 1) as Hcount by (cbn; rewrite len_cons; lia).
    change (weight ((k, v, n) :: c)) with (len k + len v + 64 + weight c).
    change (weight (child_entry (summary f 0 ((k, v, n) :: c)) :: ?l)) with
      (len k + len (sm_cid (summary f 0 ((k, v, n) :: c))) + 64 + weight l).
    split; [constructor; [lia|done]|]. split; [lia|]. cbn [foldr]. rewrite Hcount, IH3, len_cons. lia. }
  constructor; [done|lia|]. unfold isize_max, u64_max in *. lia.
Qed.

(** ** The batch builder *)
Lemma persist_nodes_ok (store : St) nodes :
  ∃ store', persist_nodes store nodes = Ok store' ∧
    contents store' = put_all ((λ n, (bn_cid n, bn_bytes n)) <$> nodes) (contents store).
Proof.
  unfold persist_nodes, publish_nodes. case_bool_decide as Hn; [|apply batch_put_ok].
  apply nil_length_inv in Hn as ->. by exists store.
Qed.

Definition level_result (r : outcome Error (list NodeSummary * St)) (store : St) (lv : Z)
    (chunks : outcome Error (list (list node_entry))) : Prop :=
  match chunks with
  | Ok chunks => ∃ store', r = Ok (summary f lv <$> chunks, store') ∧
      contents store' = put_all (stored f <$> (pair lv <$> chunks)) (contents store)
  | Err x => r = Err x
  | Panic _ => False
  end.

Lemma persist_level (store : St) lv chunks :
  level_result (store ← persist_nodes store (built f lv <$> chunks);
                Ok (summary_of <$> (built f lv <$> chunks), store)) store lv (Ok chunks).
Proof.
  destruct (persist_nodes_ok store (built f lv <$> chunks)) as (store' & -> & Hs). exists store'.
  split; [by rewrite <- list_fmap_compose|]. by rewrite Hs, <- !list_fmap_compose.
Qed.

Lemma build_level_ok (store : St) lv children :
  0 < lv ≤ u8_max → sums_ok children → children ≠ [] → bounds_agree (chunking f) (len children) →
  level_result (build_level config store children lv) store lv (level_chunks f lv (child_entry <$> children)).
Proof.
  intros Hlv Hsums Hne Hagree. unfold build_level.
  rewrite bool_decide_eq_false_2 by (by destruct children).
  assert ((lv =? 0) = false) as Hlf by (apply Z.eqb_neq; lia).
  pose proof (sums_fit lv children Hlv Hsums) as Hfit.
  pose proof (parallel_level_chunks config lv (child_entry <$> children)) as Hpar.
  rewrite Hlf, sums_counts, <- list_fmap_compose in Hpar.
  change (λ child, (sm_first_key child, sm_cid child)) with (fst ∘ child_entry).
  rewrite Hpar; [|by constructor; [..|apply fits_level]|lia|right; unfold len in *; by rewrite length_fmap].
  destruct (chunk_from_total f lv Hwf Hvalid Hcodec (child_entry <$> children) []) as [[chunks Hc]|(e & _ & _ & Hc)];
    [apply (fits_level _ _ _ Hfit)|by left| |]; unfold level_chunks; rewrite Hc; [|done].
  cbn [fmap outcome_fmap mbind outcome_bind].
  destruct (sums_next lv children chunks Hlv Hsums Hc) as (Hcat & Hok' & _).
  rewrite (internal_nodes lv children chunks); [|done|done|done|by eapply Forall_impl; [exact Hok'|]; intros ? [? _]].
  cbn [mbind outcome_bind]. apply persist_level.
Qed.

Definition same_result {A} (r : outcome Error (A * St)) (store : St)
    (spec : outcome Error (A * list (Z * list node_entry))) : Prop :=
  match spec with
  | Ok (a, nodes) => ∃ store', r = Ok (a, store') ∧
      contents store' = put_all (stored f <$> nodes) (contents store)
  | Err x => r = Err x
  | Panic m => r = Panic m
  end.

(** A level has at most as many nodes as the one below. *)
Lemma chunks_fewer (chunks : list (list node_entry)) es : concat chunks = es → Forall (λ c, c ≠ []) chunks → len chunks ≤ len es.
Proof.
  intros <- Hne. unfold len. induction Hne as [|c chunks Hc _ IH]; [done|]. cbn [concat length]. rewrite length_app.
  destruct c; [done|]. cbn [length]. lia.
Qed.

Lemma build_levels_ok fuel (store : St) lv nodes :
  0 ≤ lv → sums_ok nodes → bounds_agree (chunking f) (len nodes) → same_result (build_levels fuel config store lv nodes) store (tower f fuel lv nodes).
Proof.
  revert store lv nodes; induction fuel as [|fuel IH]; intros store lv nodes Hlv Hsums Hagree; [done|].
  cbn [build_levels tower]. destruct (Nat.ltb_spec 1 (length nodes)) as [Hmany|_]; [|by exists store].
  destruct (Z.ltb_spec u8_max (lv + 1)) as [|Hle]; [done|].
  pose proof (build_level_ok store (lv + 1) nodes ltac:(lia) Hsums ltac:(by destruct nodes; [cbn in Hmany; lia|]) Hagree) as Hlevel.
  destruct (level_chunks f (lv + 1) (child_entry <$> nodes)) as [chunks|x|] eqn:Hc; [|by rewrite Hlevel|done].
  destruct Hlevel as (store1 & -> & Hs1). cbn [mbind outcome_bind].
  destruct (sums_next (lv + 1) nodes chunks ltac:(lia) Hsums Hc) as (Hcat & Hok' & Hnext).
  assert (bounds_agree (chunking f) (len (summary f (lv + 1) <$> chunks))) as Hagree'.
  { eapply bounds_agree_le; [|exact Hagree]. pose proof (chunks_fewer chunks _ Hcat) as Hfew. unfold len in *.
    rewrite !length_fmap in *. apply Hfew. eapply Forall_impl; [exact Hok'|]. by intros ? [? _]. }
  specialize (IH store1 (lv + 1) (summary f (lv + 1) <$> chunks) ltac:(lia) Hnext Hagree').
  destruct (tower f fuel (lv + 1) (summary f (lv + 1) <$> chunks)) as [[top above]|x|]; [|done..].
  destruct IH as (store2 & -> & Hs2). exists store2. split; [done|].
  by rewrite fmap_app, put_all_app, Hs2, Hs1.
Qed.

Lemma build_from_chunks_ok (store : St) nodes :
  sums_ok nodes → bounds_agree (chunking f) (len nodes) →
  same_result (build_from_chunks config store nodes) store
    ('(top, above) ← tower f levels_fuel 0 nodes;
     Ok ({| t_root := sm_cid <$> head top; t_config := config |}, above)).
Proof.
  intros Hsums Hagree. pose proof (build_levels_ok levels_fuel store 0 nodes ltac:(done) Hsums Hagree) as Hlevels.
  unfold build_from_chunks. destruct nodes as [|n1 [|n2 nodes]]; [by exists store|by exists store|].
  fold (INIT_LEVEL) in Hlevels. change INIT_LEVEL with 0 in *.
  destruct (tower f levels_fuel 0 (n1 :: n2 :: nodes)) as [[top above]|x|]; cbn [mbind outcome_bind];
    [|by rewrite Hlevels..].
  destruct Hlevels as (store' & -> & Hs). by exists store'.
Qed.

Lemma parallel_chunk_ok (store : St) entries :
  entries_fit entries → entries ≠ [] →
  level_result (parallel_chunk config store entries) store 0 (level_chunks f 0 (leaf_entry <$> entries)).
Proof.
  intros Hfit Hne. unfold parallel_chunk. rewrite bool_decide_eq_false_2 by (by destruct entries).
  pose proof (entries_leaf_fit entries Hfit) as Hleaf.
  pose proof (parallel_level_chunks config 0 (leaf_entry <$> entries)) as Hpar.
  assert (fst <$> (leaf_entry <$> entries) = entries) as Hentries.
  { rewrite <- list_fmap_compose. rewrite <- (list_fmap_id entries) at 2. apply list_fmap_ext. by intros ? []. }
  rewrite Hentries in Hpar. change INIT_LEVEL with 0. cbn [Z.eqb] in Hpar.
  rewrite Hpar; [|by constructor; [..|apply fits_level]|done|by left].
  destruct (chunk_from_total f 0 Hwf Hvalid Hcodec (leaf_entry <$> entries) []) as [[chunks Hc]|(e & _ & _ & Hc)];
    [apply (fits_level _ _ _ Hleaf)|by left| |]; unfold level_chunks; rewrite Hc; [|done].
  cbn [fmap outcome_fmap mbind outcome_bind].
  destruct (leaf_sums entries chunks Hfit Hc) as (Hcat & Hok' & _).
  rewrite (leaf_nodes entries chunks); [|done|done|by eapply Forall_impl; [exact Hok'|]; intros ? [? _]].
  cbn [mbind outcome_bind]. apply persist_level.
Qed.

(** The batch builder returns the root of the specified tree of the sorted,
    deduplicated entries, and publishes exactly its nodes. *)
Definition tree_result (entries : list (bytes * bytes)) : outcome Error (Tree * list (Z * list node_entry)) :=
  '(root, nodes) ← tree_spec f entries;
  Ok ({| t_root := root; t_config := config |}, nodes).

Lemma leaves_agree entries chunks :
  entries_fit entries → level_chunks f 0 (leaf_entry <$> entries) = Ok chunks →
  bounds_agree (chunking f) (len entries) → bounds_agree (chunking f) (len (summary f 0 <$> chunks)).
Proof.
  intros Hfit Hc. apply bounds_agree_le. destruct (leaf_sums entries chunks Hfit Hc) as (Hcat & Hok' & _).
  pose proof (chunks_fewer chunks _ Hcat) as Hle. unfold len in *. rewrite !length_fmap in *. apply Hle.
  eapply Forall_impl; [exact Hok'|]. by intros ? [? _].
Qed.

Lemma bb_build_ok (store : St) raw :
  bounds_agree (chunking f) (len (canonical_entries raw)) → entries_fit (canonical_entries raw) →
  same_result (bb_build {| bb_store := store; bb_config := config; bb_entries := raw |}) store
    (tree_result (canonical_entries raw)).
Proof.
  intros Hagree Hfit. unfold bb_build. cbn [bb_entries bb_config bb_store].
  destruct (decide (raw = [])) as [->|Hraw]; [by exists store|].
  rewrite bool_decide_eq_false_2 by (by destruct raw). fold (canonical_entries raw).
  assert (canonical_entries raw ≠ []) as Hne by (by rewrite canonical_nil).
  set (entries := canonical_entries raw) in *. unfold tree_result, tree_spec.
  pose proof (parallel_chunk_ok store entries Hfit Hne) as Hleaf.
  destruct (level_chunks f 0 (leaf_entry <$> entries)) as [chunks|x|] eqn:Hc; [|by rewrite Hleaf|done].
  destruct Hleaf as (store1 & -> & Hs1). cbn [mbind outcome_bind].
  destruct (leaf_sums entries chunks Hfit Hc) as (_ & _ & Hsums).
  pose proof (build_from_chunks_ok store1 _ Hsums (leaves_agree entries chunks Hfit Hc Hagree)) as Hup.
  destruct (tower f levels_fuel 0 (summary f 0 <$> chunks)) as [[top above]|x|]; [|done..].
  cbn [mbind outcome_bind] in *. destruct Hup as (store2 & -> & Hs2). exists store2. split; [done|].
  by rewrite fmap_app, put_all_app, Hs2, Hs1.
Qed.

(** ** The serial builder of upper levels *)
Definition deferred_chunk (lv : Z) (c : list node_entry) : DeferredNode := deferred (emitted_of f lv c).

Lemma push_children_at lv children le cur summaries pending :
  0 < lv ≤ u8_max → emitter_at config lv le cur → fits config lv (cur ++ (child_entry <$> children)) →
  cur = [] ∨ chunk_ok f lv cur →
  ('(le, summaries, pending) ← push_children le children summaries pending;
   '(emitted, _) ← le_finish le;
   match emitted with
   | Some e => Ok (summaries ++ [em_summary e], pending ++ [deferred e])
   | None => Ok (summaries, pending)
   end)
  = (λ chunks : list (list node_entry),
       (summaries ++ (summary f lv <$> chunks), pending ++ (deferred_chunk lv <$> chunks)))
    <$> chunk_from f lv cur (child_entry <$> children).
Proof.
  intros Hlv. assert ((lv =? 0) = false) as Hlf by (apply Z.eqb_neq; lia).
  revert le cur summaries pending; induction children as [|s children IH]; intros le cur summaries pending Hle Hfit Hcur.
  { cbn [fmap list_fmap] in Hfit. rewrite app_nil_r in Hfit.
    destruct (finish_at config lv Hvalid Hcodec ltac:(lia) le cur Hle Hfit Hcur) as (le' & Hfin).
    cbn [push_children mbind outcome_bind chunk_from fmap list_fmap]. rewrite Hfin. cbn [mbind outcome_bind].
    case_bool_decide; cbn; by rewrite ?app_nil_r. }
  cbn [fmap list_fmap push_children chunk_from] in *.
  rewrite cons_middle, app_assoc in Hfit. destruct (fits_app _ _ _ _ Hfit) as [Hfit1 _].
  pose proof (push_entry_at config lv Hvalid Hcodec ltac:(lia) le cur (child_entry s) Hle Hfit1 Hcur) as Hpush.
  unfold push_child. rewrite (ba_leaf _ _ _ _ (proj1 Hle)), Hlf in *.
  cbn [child_entry fst snd Sizer.count_opt] in Hpush. change (sm_first_key s, sm_cid s, sm_count s) with (child_entry s) in Hpush.
  destruct (place f lv cur (child_entry s)) as [[closed cur']|x|] eqn:Hplace; [|by rewrite Hpush|done].
  destruct Hpush as (le' & -> & Hle'). cbn [mbind outcome_bind].
  destruct (place_ok _ _ _ _ _ _ Hplace Hcur) as (Hcat & _ & Hcur').
  rewrite <- Hcat, <- app_assoc in Hfit. apply fits_app in Hfit as [_ Hfit].
  rewrite (IH le' cur' _ _ Hle' Hfit Hcur'). destruct (chunk_from f lv cur' (child_entry <$> children)); [|done..].
  cbn. rewrite !fmap_app, <- !list_fmap_compose, <- !app_assoc. done.
Qed.

Lemma build_level_serial_ok lv children pending :
  0 < lv ≤ u8_max → sums_ok children →
  build_level_serial config children lv pending
  = (λ chunks : list (list node_entry), (summary f lv <$> chunks, pending ++ (deferred_chunk lv <$> chunks)))
    <$> level_chunks f lv (child_entry <$> children).
Proof.
  intros Hlv Hsums. assert ((lv =? 0) = false) as Hlf by (apply Z.eqb_neq; lia).
  pose proof (sums_fit lv children Hlv Hsums) as Hfit. unfold build_level_serial.
  destruct (LevelEmitter_new_at config lv Hwf Hvalid Hcodec ltac:(lia)) as (le & Hnew & Hle).
  { pose proof (fits_room _ _ _ Hfit). pose proof (weight_nonneg (child_entry <$> children)). lia. }
  rewrite Hlf in Hnew. rewrite Hnew. cbn [mbind outcome_bind].
  pose proof (push_children_at lv children le [] [] pending Hlv Hle Hfit (or_introl eq_refl)) as Hpush.
  etransitivity; [|etransitivity; [exact Hpush|]].
  - reflexivity.
  - unfold level_chunks. by destruct (chunk_from f lv [] (child_entry <$> children)).
Qed.

Lemma build_levels_serial_ok fuel lv nodes pending :
  0 ≤ lv → sums_ok nodes →
  build_levels_serial fuel config lv nodes pending
  = '(top, above) ← tower f fuel lv nodes;
    Ok (top, pending ++ ((λ n, deferred_chunk n.1 n.2) <$> above)).
Proof.
  revert lv nodes pending; induction fuel as [|fuel IH]; intros lv nodes pending Hlv Hsums; [done|].
  cbn [build_levels_serial tower]. destruct (Nat.ltb_spec 1 (length nodes)); [|cbn; by rewrite app_nil_r].
  destruct (Z.ltb_spec u8_max (lv + 1)) as [|Hle]; [done|].
  rewrite build_level_serial_ok by (done || lia).
  destruct (level_chunks f (lv + 1) (child_entry <$> nodes)) as [chunks|x|] eqn:Hc; [|done..].
  cbn [fmap outcome_fmap mbind outcome_bind].
  destruct (sums_next (lv + 1) nodes chunks ltac:(lia) Hsums Hc) as (_ & _ & Hnext).
  rewrite IH by (done || lia). destruct (tower f fuel (lv + 1) _) as [[top above]|x|]; [|done..].
  cbn [mbind outcome_bind]. rewrite fmap_app, <- list_fmap_compose, <- app_assoc. done.
Qed.

End level.

(** What a build is given: a valid format with a built-in layout, entries that fit a
    machine, and bounds on which the parallel and the serial routine agree: a minimum of
    at least 2, or another rule than hashed entry counts, or fewer than 1,024 entries. *)
Record build_input (config : Config.Config) (entries : list (bytes * bytes)) : Prop := {
  bi_wf : TreeFormat_wf (Config.format config);
  bi_valid : validate (Config.format config) = Ok tt;
  bi_codec : has_codec (Config.format config);
  bi_agree : bounds_agree (chunking (Config.format config)) (len entries);
  bi_fit : entries_fit config entries;
}.

(** C2.  [BatchBuilder::build] builds the specified tree: it sorts and deduplicates
    what was added, and returns the root of that map's tree and publishes exactly
    its nodes, or fails exactly when the specification does.  This is for a format with
    a minimum of at least 2, or with another rule than hashed entry counts, or for fewer
    than 1,024 entries; otherwise the parallel routine may cut the levels above the
    leaves where the specification does not. *)
Theorem batch_build_refines `{HashesOk} `{StoreOk St} config (store : St) raw :
  build_input config (canonical_entries raw) →
  same_result config (bb_build {| bb_store := store; bb_config := config; bb_entries := raw |}) store
    (tree_result config (canonical_entries raw)).
Proof. intros []. by apply bb_build_ok. Qed.

(** C1.  The tree depends on the final contents only: two builders that end with the
    same map return the same tree, whatever was added, overwritten and in which
    order; from stores with equal contents they leave equal contents.  The conditions on
    the format and the entries are those of the theorem above. *)
Theorem build_history_independent `{HashesOk} `{StoreOk St} config (store1 store2 : St) raw1 raw2 :
  build_input config (canonical_entries raw1) → final_map raw1 = final_map raw2 →
  contents store1 = contents store2 →
  let build store raw := bb_build {| bb_store := store; bb_config := config; bb_entries := raw |} in
  match build store1 raw1 with
  | Ok (tree, store1') => ∃ store2', build store2 raw2 = Ok (tree, store2') ∧ contents store1' = contents store2'
  | Err x => build store2 raw2 = Err x
  | Panic m => build store2 raw2 = Panic m
  end.
Proof.
  intros [Hwf Hvalid Hcodec Hmin Hfit] Hmap Hstores build.
  pose proof (bb_build_ok config Hwf Hvalid Hcodec store1 raw1 Hmin Hfit) as Hb1.
  rewrite (canonical_entries_map raw1 raw2 Hmap) in Hb1, Hfit, Hmin.
  pose proof (bb_build_ok config Hwf Hvalid Hcodec store2 raw2 Hmin Hfit) as Hb2. unfold build.
  destruct (tree_result config (canonical_entries raw2)) as [[tree nodes]|x|m]; [|by rewrite Hb1, Hb2..].
  destruct Hb1 as (store1' & -> & Hs1), Hb2 as (store2' & -> & Hs2). exists store2'.
  split; [done|]. by rewrite Hs1, Hs2, Hstores.
Qed.

(** Building the upper levels serially, through the level emitter and without
    persisting, gives the tree that the parallel level-by-level builder gives, and the
    deferred nodes are the nodes which that builder publishes. *)
Theorem serial_levels_eq_batch `{HashesOk} `{StoreOk St} config (store : St) entries chunks :
  build_input config entries →
  level_chunks (Config.format config) 0 (leaf_entry <$> entries) = Ok chunks →
  let leaves := summary (Config.format config) 0 <$> chunks in
  match build_from_chunks_serial_deferred config leaves with
  | Ok (tree, pending) => ∃ store', build_from_chunks config store leaves = Ok (tree, store') ∧
      contents store' = put_all ((λ n, (dn_cid n, dn_bytes n)) <$> pending) (contents store)
  | Err x => build_from_chunks config store leaves = Err x
  | Panic m => build_from_chunks config store leaves = Panic m
  end.
Proof.
  intros [Hwf Hvalid Hcodec Hmin Hfit] Hchunks leaves.
  destruct (leaf_sums config entries chunks Hfit Hchunks) as (_ & _ & Hsums).
  pose proof (build_from_chunks_ok config Hwf Hvalid Hcodec store leaves Hsums (leaves_agree config entries chunks Hfit Hchunks Hmin)) as Hbatch.
  pose proof (build_levels_serial_ok config Hwf Hvalid Hcodec levels_fuel 0 leaves [] ltac:(done) Hsums) as Hserial.
  unfold build_from_chunks_serial_deferred. clear Hsums Hchunks. destruct leaves as [|n1 [|n2 nodes]].
  1, 2: destruct Hbatch as (store' & -> & Hs); by exists store'.
  change INIT_LEVEL with 0. rewrite Hserial.
  destruct (tower _ levels_fuel 0 (n1 :: n2 :: nodes)) as [[top above]|x|m]; [|done..].
  cbn [mbind outcome_bind] in *. destruct Hbatch as (store' & -> & Hs). exists store'. split; [done|].
  rewrite Hs. cbn [app]. by rewrite <- list_fmap_compose.
Qed.

(** Instances of the theorems above. *)
Definition sample_raw : list (bytes * bytes) :=
  [([Byte.x03], [Byte.x0a]); ([Byte.x01], [Byte.x0b]); ([Byte.x02], [Byte.x0c]); ([Byte.x04], []);
   ([Byte.x03], [Byte.x0d]); ([Byte.x05], [])].

Lemma sample_build_input : build_input (sample_config 2 2) (canonical_entries sample_raw).
Proof.
  constructor.
  - constructor; [|exact I|exact I]. destruct ChunkingSpec_default_wf. constructor; try done; split; vm_compute; discriminate.
  - reflexivity.
  - exact I.
  - left. vm_compute. discriminate.
  - vm_compute. discriminate.
Qed.

Lemma batch_build_refines_witness :
  same_result (H := sample_hashes) (sample_config 2 2)
    (bb_build (H := sample_hashes)
       {| bb_store := MemStore_new; bb_config := sample_config 2 2; bb_entries := sample_raw |})
    MemStore_new (tree_result (H := sample_hashes) (sample_config 2 2) (canonical_entries sample_raw)).
Proof.
  exact (batch_build_refines (H0 := sample_hashes_ok) (sample_config 2 2) MemStore_new sample_raw sample_build_input).
Defined.

Lemma build_history_independent_witness :
  let build store raw := bb_build (H := sample_hashes)
    {| bb_store := store; bb_config := sample_config 2 2; bb_entries := raw |} in
  match build MemStore_new sample_raw with
  | Ok (tree, store1') => ∃ store2', build MemStore_new (canonical_entries sample_raw) = Ok (tree, store2') ∧
      contents store1' = contents store2'
  | Err x => build MemStore_new (canonical_entries sample_raw) = Err x
  | Panic m => build MemStore_new (canonical_entries sample_raw) = Panic m
  end.
Proof.
  pose proof (build_history_independent (H := sample_hashes) (H0 := sample_hashes_ok) (sample_config 2 2)
    MemStore_new MemStore_new sample_raw (canonical_entries sample_raw) sample_build_input
    (eq_sym (canonical_map sample_raw)) eq_refl) as Hsame.
  exact Hsame.
Defined.

Lemma serial_levels_eq_batch_witness :
  ∃ chunks, level_chunks (H := sample_hashes) (Config.format (sample_config 2 2)) 0
      (leaf_entry <$> canonical_entries sample_raw) = Ok chunks ∧
    let leaves := summary (H := sample_hashes) (Config.format (sample_config 2 2)) 0 <$> chunks in
    match build_from_chunks_serial_deferred (H := sample_hashes) (sample_config 2 2) leaves with
    | Ok (tree, pending) => ∃ store', build_from_chunks (H := sample_hashes) (sample_config 2 2) MemStore_new leaves
          = Ok (tree, store') ∧
        contents store' = put_all ((λ n, (dn_cid n, dn_bytes n)) <$> pending) (contents MemStore_new)
    | Err x => build_from_chunks (H := sample_hashes) (sample_config 2 2) MemStore_new leaves = Err x
    | Panic m => build_from_chunks (H := sample_hashes) (sample_config 2 2) MemStore_new leaves = Panic m
    end.
Proof.
  destruct (level_chunks (H := sample_hashes) (Config.format (sample_config 2 2)) 0
    (leaf_entry <$> canonical_entries sample_raw)) as [chunks| |] eqn:Hc; [|vm_compute in Hc; discriminate Hc..].
  exists chunks. split; [reflexivity|].
  pose proof (serial_levels_eq_batch (H := sample_hashes) (H0 := sample_hashes_ok) (sample_config 2 2) MemStore_new
    (canonical_entries sample_raw) chunks sample_build_input Hc) as Hsame.
  exact Hsame.
Defined.

End BuilderSpec.
