(* ===== verification/TreeSpec.v ===== *)
(** * Stored trees

    What it means that a store holds a tree: a root identifier, the canonical nodes
    below it and the ordered entries they represent.  The read paths are specified
    by the map of these entries. *)

From Stdlib Require Import ZArith Lia Strings.Byte.
From stdpp Require Import base tactics numbers list strings option gmap sorting.
From S2P Require Import Prelude Cursor Types Format Node ReadNode Store Builder Entries.

Import Format Node ReadNode Store Builder Entries.

Local Open Scope Z_scope.

Module TreeSpec.

Abbreviation kv := (bytes * bytes)%type.

Section trees.
Context `{Hashes} (st : gmap bytes bytes).

(** The store holds the canonical encoding of [n] under its identifier. *)
Definition stored_node (cid : Cid) (n : Node) : Prop :=
  ∃ b, st !! cid = Some b ∧ Cid_from_bytes b = cid ∧ to_bytes n = Ok b ∧ from_bytes b = Ok n ∧ packable b n.

(** The separators of an internal node are the first keys of its children. *)
Definition starts_with (k : bytes) (sub : list kv) : Prop := ∃ v rest, sub = (k, v) :: rest.

Fixpoint subtree (f : TreeFormat) (h : nat) (cid : Cid) (es : list kv) : Prop :=
  ∃ n, stored_node cid n ∧ (format n = f ∧ level n = Z.of_nat h ∧ keys n ≠ []) ∧
    match h with
    | O => leaf n = true ∧ es = zip (keys n) (vals n)
    | S h' => leaf n = false ∧ ∃ subs, Forall2 (subtree f h') (vals n) subs ∧
                Forall2 starts_with (keys n) subs ∧ es = concat subs
    end.

(** A leaf below an identifier. *)
Inductive leaf_under : Cid → Node → Prop :=
| leaf_here cid n : stored_node cid n → leaf n = true → leaf_under cid n
| leaf_below cid n child m :
    stored_node cid n → leaf n = false → child ∈ vals n → leaf_under child m → leaf_under cid m.

Lemma stored_node_unique cid n n' : stored_node cid n → stored_node cid n' → n = n'.
Proof.
  intros (b & Hb & _ & _ & Hn & _) (b' & Hb' & _ & _ & Hn' & _). rewrite Hb in Hb'. injection Hb' as <-.
  rewrite Hn in Hn'. by apply Ok_inj in Hn'.
Qed.

Lemma stored_node_sorted cid n : stored_node cid n → StronglySorted blt (keys n) ∧ length (vals n) = length (keys n).
Proof.
  intros (b & _ & _ & _ & Hn & Hp). destruct (from_bytes_view b n Hn Hp) as (rn & _ & Hv).
  split; [apply (v_sorted _ _ Hv)|apply (v_lens _ _ Hv)].
Qed.
End trees.

(** ** Lookups in ordered entries *)
Lemma put_all_miss {V} (l : list (bytes * V)) m k : k ∉ fst <$> l → put_all l m !! k = m !! k.
Proof.
  induction l as [|e l IH] using rev_ind; [done|]. rewrite fmap_app, elem_of_app, put_all_snoc.
  cbn [fmap list_fmap]. rewrite list_elem_of_singleton. intros Hk.
  rewrite lookup_insert_ne by (intros Heq; apply Hk; right; by rewrite Heq). apply IH. tauto.
Qed.

Lemma put_all_local {V} (l : list (bytes * V)) m m' k : m !! k = m' !! k → put_all l m !! k = put_all l m' !! k.
Proof.
  revert m m'; induction l as [|e l IH]; intros m m' Hm; [done|]. rewrite !put_all_cons. apply IH.
  destruct (decide (k = e.1)) as [->|]; [by rewrite !lookup_insert_eq|by rewrite !lookup_insert_ne].
Qed.

Lemma final_map_middle {V} (a b c : list (bytes * V)) k :
  k ∉ fst <$> a → k ∉ fst <$> c → final_map (a ++ b ++ c) !! k = final_map b !! k.
Proof.
  intros Ha Hc. unfold final_map. rewrite !put_all_app, put_all_miss by done.
  apply put_all_local. by rewrite put_all_miss.
Qed.

Lemma final_map_miss {V} (l : list (bytes * V)) k : k ∉ fst <$> l → final_map l !! k = None.
Proof. intros Hk. unfold final_map. rewrite put_all_miss by done. apply lookup_empty. Qed.

(** ** Where a search leads *)
(** The last key that is not above the searched one. *)
Definition last_at_most (ks : list bytes) (key : bytes) (i : nat) : Prop :=
  ∃ k, ks !! i = Some k ∧ (k ≤ key)%key ∧ ∀ j k', (i < j)%nat → ks !! j = Some k' → (key < k')%key.

Lemma search_descends ks key :
  StronglySorted blt ks →
  match search ks key with
  | Insert O => ∀ j k, ks !! j = Some k → (key < k)%key
  | Found i => ks !! i = Some key ∧ last_at_most ks key i
  | Insert (S i) => last_at_most ks key i ∧ key ∉ ks
  end.
Proof.
  intros Hs. pose proof (search_correct ks key Hs) as Hat. destruct (search ks key) as [i|[|i]]; cbn in Hat.
  - split; [done|]. exists key. split; [done|]. split; [apply ble_refl|]. intros j k' Hj Hk'.
    by apply (sorted_lookup ks i j).
  - destruct Hat as (_ & _ & Hup). intros j k. apply Hup. lia.
  - destruct Hat as (Hi & Hlow & Hup). split.
    + destruct (lookup_lt_is_Some_2 ks i) as [k Hk]; [lia|]. exists k. split; [done|].
      split; [apply blt_le, (Hlow i); [lia|done]|]. intros j k' Hj. apply Hup. lia.
    + intros [j Hj]%list_elem_of_lookup. apply (blt_irrefl key).
      destruct (decide (j < S i)%nat); [by apply (Hlow j)|apply (Hup j); [lia|done]].
Qed.

Lemma starts_with_head k sub : starts_with k sub → k ∈ fst <$> sub.
Proof. intros (v & rest & ->). apply list_elem_of_here. Qed.

Lemma ascending_app {V} (l1 l2 : list (bytes * V)) :
  ascending (l1 ++ l2) → ascending l1 ∧ ascending l2 ∧
  ∀ k1 k2, k1 ∈ fst <$> l1 → k2 ∈ fst <$> l2 → (k1 < k2)%key.
Proof.
  unfold ascending. rewrite fmap_app. intros Hs. split; [by eapply StronglySorted_app_1_l|].
  split; [by eapply StronglySorted_app_1_r|]. intros k1 k2. by apply StronglySorted_app_1_elem_of.
Qed.

Lemma ascending_head {V} k (v : V) rest k' :
  ascending ((k, v) :: rest) → k' ∈ fst <$> (k, v) :: rest → (k ≤ k')%key.
Proof.
  unfold ascending. cbn [fmap list_fmap fst]. intros [_ Hall]%StronglySorted_inv.
  intros [->|Hk]%elem_of_cons; [apply ble_refl|]. rewrite Forall_forall in Hall. by apply blt_le, Hall.
Qed.

(** The child that the search descends to holds the key if any child does. *)
Lemma child_holds ks subs key i sub :
  Forall2 starts_with ks subs → ascending (concat subs) → last_at_most ks key i → subs !! i = Some sub →
  ascending sub ∧ final_map (concat subs) !! key = final_map sub !! key.
Proof.
  intros Hst Hasc (k & Hk & Hle & Hup) Hsub.
  destruct (list_elem_of_split_length subs i sub Hsub) as (pre & post & -> & Hlen).
  rewrite concat_app in *. cbn [concat] in *.
  destruct (ascending_app _ _ Hasc) as (_ & Hasc2 & Hlt1). destruct (ascending_app _ _ Hasc2) as (Hasc' & Hasc3 & Hlt2).
  split; [done|].
  assert (starts_with k sub) as Hk'. { eapply Forall2_lookup_lr; [exact Hst|exact Hk|exact Hsub]. }
  apply final_map_middle.
  - intros Hin. apply (blt_irrefl key). eapply blt_le_trans; [|exact Hle]. apply Hlt1; [done|].
    rewrite fmap_app, elem_of_app. left. by apply starts_with_head.
  - destruct post as [|sub' post].
    { cbn. intros Hin. by apply not_elem_of_nil in Hin. }
    intros Hin. assert ((pre ++ sub :: sub' :: post) !! S i = Some sub') as Hs'.
    { rewrite Hlen, lookup_app_r by lia. by replace (S (length pre) - length pre)%nat with 1%nat by lia. }
    destruct (Forall2_lookup_r _ _ _ _ _ Hst Hs') as (k1 & Hk1 & v1 & rest1 & ->).
    apply (blt_irrefl key). eapply blt_le_trans; [apply (Hup (S i) k1); [lia|exact Hk1]|].
    cbn [concat] in Hin, Hasc3. rewrite <- app_comm_cons in Hin, Hasc3. by eapply ascending_head.
Qed.

Lemma below_first ks subs key :
  Forall2 starts_with ks subs → ascending (concat subs) → (∀ j k, ks !! j = Some k → (key < k)%key) →
  final_map (concat subs) !! key = None.
Proof.
  intros Hst Hasc Hlt. apply final_map_miss. destruct Hst as [|k sub ks subs (v & rest & ->) Hst].
  { cbn. apply not_elem_of_nil. }
  cbn [concat] in *. rewrite <- app_comm_cons in *. intros Hin. apply (blt_irrefl key).
  eapply blt_le_trans; [by apply (Hlt 0%nat k)|]. by eapply ascending_head.
Qed.

(** In a leaf. *)
Lemma leaf_lookup ks (vs : list bytes) key :
  StronglySorted blt ks → length vs = length ks →
  final_map (zip ks vs) !! key = match search ks key with Found i => vs !! i | Insert _ => None end.
Proof.
  intros Hs Hl. assert (fst <$> zip ks vs = ks) as Hfst by (apply fst_zip; lia).
  assert (ascending (zip ks vs)) as Hasc by (unfold ascending; by rewrite Hfst).
  pose proof (search_descends ks key Hs) as Hd. destruct (search ks key) as [i|[|i]].
  - destruct Hd as [Hk _]. destruct (lookup_lt_is_Some_2 vs i) as [v Hv]; [apply lookup_lt_Some in Hk; lia|].
    rewrite Hv. apply final_map_elem; [done|]. apply list_elem_of_lookup. exists i.
    apply lookup_zip_with_Some. by exists key, v.
  - apply final_map_miss. rewrite Hfst. intros [j Hj]%list_elem_of_lookup. apply (blt_irrefl key). by apply (Hd j).
  - apply final_map_miss. rewrite Hfst. by destruct Hd.
Qed.

(** ** Leaves of a tree *)
Lemma leaf_of_subtree `{Hashes} st f h cid es n :
  subtree st f h cid es → leaf_under st cid n → format n = f ∧ ∃ pre post, es = pre ++ zip (keys n) (vals n) ++ post.
Proof.
  revert cid es; induction h as [|h IH]; intros cid es (m & Hm & (Hf & _) & Hes) Hu.
  - destruct Hes as [Hleaf ->]. inversion Hu as [cid' n' Hn _|cid' n' child m' Hn Hl]; subst.
    + rewrite (stored_node_unique _ _ _ _ Hn Hm). split; [done|]. exists [], []. by rewrite app_nil_r.
    + rewrite (stored_node_unique _ _ _ _ Hn Hm) in Hl. congruence.
  - destruct Hes as (Hleaf & subs & Hsubs & _ & ->). inversion Hu as [cid' n' Hn Hl|cid' n' child m' Hn Hl Hc Hu']; subst.
    { rewrite (stored_node_unique _ _ _ _ Hn Hm) in Hl. congruence. }
    rewrite (stored_node_unique _ _ _ _ Hn Hm) in Hc. apply list_elem_of_lookup in Hc as [i Hi].
    destruct (Forall2_lookup_l _ _ _ _ _ Hsubs Hi) as (sub & Hsub & Hst).
    destruct (IH child sub Hst Hu') as (Hfm & pre & post & ->).
    destruct (list_elem_of_split_length subs i _ Hsub) as (pre' & post' & -> & _).
    split; [done|]. exists (concat pre' ++ pre), (post ++ concat post'). rewrite concat_app. cbn [concat].
    by rewrite <- !app_assoc.
Qed.

(** A leaf answers for the keys between its first and its last one. *)
Lemma leaf_covers pre (ks vs : list bytes) post key first final :
  ascending (pre ++ zip ks vs ++ post) → length vs = length ks →
  ks !! 0%nat = Some first → list.last ks = Some final → (first ≤ key)%key → (key ≤ final)%key →
  final_map (pre ++ zip ks vs ++ post) !! key = final_map (zip ks vs) !! key.
Proof.
  intros Hasc Hl H0 Hz Hfirst Hfinal. assert (fst <$> zip ks vs = ks) as Hfst by (apply fst_zip; lia).
  destruct (ascending_app _ _ Hasc) as (_ & Hasc2 & Hlt1). destruct (ascending_app _ _ Hasc2) as (_ & _ & Hlt2).
  apply final_map_middle; intros Hin; apply (blt_irrefl key).
  - eapply blt_le_trans; [|exact Hfirst]. apply Hlt1; [done|]. rewrite fmap_app, Hfst, elem_of_app. left.
    apply list_elem_of_lookup. by exists 0%nat.
  - eapply ble_lt_trans; [exact Hfinal|]. apply Hlt2; [|done]. rewrite Hfst.
    apply list_elem_of_lookup. rewrite last_lookup in Hz. by eexists.
Qed.

End TreeSpec.
