(* ===== verification/Engine.v ===== *)
(** * The read engine (src/prolly/engine/mod.rs, engine/validation.rs, engine/execution.rs)

    Point and batched reads of a tree: cached or stored nodes are validated against
    their content identifier and the tree's format, decoded in packed form and
    searched from the root to a leaf.  The engine's state is its store, the node
    cache, the metrics and the most recent leaf; an operation returns its result and
    the state it leaves, also when it fails. *)

From Stdlib Require Import ZArith Lia Strings.Byte.
From stdpp Require Import base tactics numbers list strings option gmap sorting.
From S2P Require Import Prelude Cursor Types Format Node ReadNode Store NodeCache Builder.

Import Format Config Node ReadNode Store NodeCache Builder.

Local Open Scope Z_scope.

Module Engine.

(** ** Retained reads (src/prolly/store/mod.rs) *)
Record ValidatedSharedRead := { vr_bytes : bytes; vr_cid_verified : bool }.
Definition unverified (b : bytes) : ValidatedSharedRead := {| vr_bytes := b; vr_cid_verified := false |}.

Class ReadStore (St : Type) `{Store St} := {
  store_get_validated_shared : St → bytes → outcome Error (option ValidatedSharedRead);
  store_batch_get_validated : St → list bytes → outcome Error (list (option ValidatedSharedRead));
  store_has_native_shared_reads : St → bool;
}.

(** The provided methods: nothing is verified. *)
Definition default_get_validated_shared {St} `{Store St} (self : St) (key : bytes)
    : outcome Error (option ValidatedSharedRead) :=
  store_get self key ≫= λ value : option bytes, Ok (unverified <$> value).
Definition default_batch_get_validated {St} (batch : St → list bytes → outcome Error (list (option bytes)))
    (self : St) (ks : list bytes) : outcome Error (list (option ValidatedSharedRead)) :=
  batch self ks ≫= λ values : list (option bytes), Ok ((λ value : option bytes, unverified <$> value) <$> values).

Global Instance MemStore_read : ReadStore MemStore := {|
  store_get_validated_shared := default_get_validated_shared;
  store_batch_get_validated := default_batch_get_validated mem_batch_get_ordered_unique;
  store_has_native_shared_reads _ := true;
|}.

(** ** Validation *)
Section validation.
Context `{Hashes}.

Definition validate_cid (expected : Cid) (data : bytes) : outcome Error () :=
  let actual := Cid_from_bytes data in
  if bool_decide (actual = expected) then Ok tt else Err (CidMismatch expected actual).

Definition hide_deserialize (e : Error) : Error :=
  match e with Deserialize _ => InvalidNode | other => other end.

Definition decode_owned (expected_cid : Cid) (expected_format : TreeFormat) (data : bytes) : outcome Error Node :=
  validate_cid expected_cid data ≫= λ _,
  map_err hide_deserialize (from_bytes_with_format data expected_format).

Definition format_mismatch {A} (expected actual : TreeFormat) : outcome Error A :=
  e ← digest expected;
  a ← digest actual;
  Err (FormatMismatch e a).

Definition decode_cid_verified_read (expected_format : TreeFormat) (data : bytes) : outcome Error ReadNode :=
  node ← map_err hide_deserialize (from_shared data);
  if bool_decide (rn_format node = expected_format) then Ok node
  else format_mismatch expected_format (rn_format node).

Definition decode_read (expected_cid : Cid) (expected_format : TreeFormat) (data : bytes)
    : outcome Error ReadNode :=
  validate_cid expected_cid data ≫= λ _,
  decode_cid_verified_read expected_format data.

Definition decode_validated_read (expected_cid : Cid) (expected_format : TreeFormat)
    (read : ValidatedSharedRead) : outcome Error ReadNode :=
  (if negb (vr_cid_verified read) then validate_cid expected_cid (vr_bytes read) else Ok tt) ≫= λ _,
  decode_cid_verified_read expected_format (vr_bytes read).

Definition validate_cached_node (node : Node) (expected_format : TreeFormat) : outcome Error () :=
  if bool_decide (format node = expected_format) then Ok tt
  else format_mismatch expected_format (format node).

Definition validate_cached_read_node (node : ReadNode) (expected_format : TreeFormat) : outcome Error () :=
  if bool_decide (rn_format node = expected_format) then Ok tt
  else format_mismatch expected_format (rn_format node).
End validation.

(** ** Execution limits and metrics *)
Record ExecutionConfig := {
  ex_read_parallelism : positive;
  ex_max_in_flight_bytes : positive;
  ex_node_cache_max_nodes : positive;
  ex_node_cache_max_bytes : positive;
}.

Definition DEFAULT_MAX_IN_FLIGHT_BYTES : Z := 64 * 1024 * 1024.
Definition DEFAULT_NODE_CACHE_MAX_NODES : Z := 16384.
Definition ExecutionConfig_default : ExecutionConfig := {|
  ex_read_parallelism := Z.to_pos DEFAULT_READ_PARALLELISM;
  ex_max_in_flight_bytes := Z.to_pos DEFAULT_MAX_IN_FLIGHT_BYTES;
  ex_node_cache_max_nodes := Z.to_pos DEFAULT_NODE_CACHE_MAX_NODES;
  ex_node_cache_max_bytes := Z.to_pos DEFAULT_NODE_CACHE_MAX_BYTES |}.

Record ProllyMetrics := {
  node_cache_hits : Z;
  node_cache_misses : Z;
  node_cache_evictions : Z;
  nodes_read : Z;
  bytes_read : Z;
  nodes_written : Z;
  bytes_written : Z;
  store_get_calls : Z;
  store_batch_get_calls : Z;
  store_batch_get_keys : Z;
  store_put_calls : Z;
  store_batch_put_calls : Z;
  store_batch_put_nodes : Z;
}.
Definition ProllyMetrics_default : ProllyMetrics := Build_ProllyMetrics 0 0 0 0 0 0 0 0 0 0 0 0 0.

(** [fetch_add] wraps. *)
Definition add_metric (counter value : Z) : Z := if 0 <? value then wrap 64 (counter + value) else counter.

(** Several counters at once; a counter that is not mentioned grows by nothing. *)
Definition add_metrics (d m : ProllyMetrics) : ProllyMetrics := {|
  node_cache_hits := add_metric (node_cache_hits m) (node_cache_hits d);
  node_cache_misses := add_metric (node_cache_misses m) (node_cache_misses d);
  node_cache_evictions := add_metric (node_cache_evictions m) (node_cache_evictions d);
  nodes_read := add_metric (nodes_read m) (nodes_read d);
  bytes_read := add_metric (bytes_read m) (bytes_read d);
  nodes_written := add_metric (nodes_written m) (nodes_written d);
  bytes_written := add_metric (bytes_written m) (bytes_written d);
  store_get_calls := add_metric (store_get_calls m) (store_get_calls d);
  store_batch_get_calls := add_metric (store_batch_get_calls m) (store_batch_get_calls d);
  store_batch_get_keys := add_metric (store_batch_get_keys m) (store_batch_get_keys d);
  store_put_calls := add_metric (store_put_calls m) (store_put_calls d);
  store_batch_put_calls := add_metric (store_batch_put_calls m) (store_batch_put_calls d);
  store_batch_put_nodes := add_metric (store_batch_put_nodes m) (store_batch_put_nodes d) |}.

Definition add_cache_hits (n : Z) : ProllyMetrics → ProllyMetrics :=
  add_metrics (Build_ProllyMetrics n 0 0 0 0 0 0 0 0 0 0 0 0).
Definition add_cache_misses (n : Z) : ProllyMetrics → ProllyMetrics :=
  add_metrics (Build_ProllyMetrics 0 n 0 0 0 0 0 0 0 0 0 0 0).
Definition add_cache_evictions (n : Z) : ProllyMetrics → ProllyMetrics :=
  add_metrics (Build_ProllyMetrics 0 0 n 0 0 0 0 0 0 0 0 0 0).
Definition record_point_read (n : Z) : ProllyMetrics → ProllyMetrics :=
  add_metrics (Build_ProllyMetrics 0 0 0 1 n 0 0 1 0 0 0 0 0).
Definition record_batch_read (ks loaded_bytes loaded_nodes : Z) : ProllyMetrics → ProllyMetrics :=
  add_metrics (Build_ProllyMetrics 0 0 0 loaded_nodes loaded_bytes 0 0 0 1 ks 0 0 0).
Definition record_batch_write (nodes nbytes : Z) (m : ProllyMetrics) : ProllyMetrics :=
  if nodes =? 0 then m
  else add_metrics (Build_ProllyMetrics 0 0 0 0 0 nodes nbytes 0 0 0 0 1 nodes) m.

(** ** The engine *)
Record ProllyEngine (St : Type) := {
  en_store : St;
  en_config : Config;
  en_execution : ExecutionConfig;
  en_cache : NodeCache;
  en_metrics : ProllyMetrics;
  en_recent_leaf : option (Cid * ReadNode);
}.
Arguments en_store {_}. Arguments en_config {_}. Arguments en_execution {_}.
Arguments en_cache {_}. Arguments en_metrics {_}. Arguments en_recent_leaf {_}.

Definition with_execution_config {St} (store : St) (config : Config) (execution : ExecutionConfig)
    : ProllyEngine St := {|
  en_store := store; en_config := config; en_execution := execution;
  en_cache := NodeCache_new (node_cache_max_nodes (runtime config)) (node_cache_max_bytes (runtime config));
  en_metrics := ProllyMetrics_default; en_recent_leaf := None |}.
Definition ProllyEngine_new {St} (store : St) (config : Config) : ProllyEngine St :=
  with_execution_config store config ExecutionConfig_default.

(** An operation: its result and the engine afterwards. *)
Abbreviation eng St A := (action (ProllyEngine St) A).
Definition from_store {St A} (f : St → outcome Error A) : eng St A := λ e, (f (en_store e), e).

Definition set_cache {St} (c : NodeCache) (e : ProllyEngine St) : ProllyEngine St := {|
  en_store := en_store e; en_config := en_config e; en_execution := en_execution e; en_cache := c;
  en_metrics := en_metrics e; en_recent_leaf := en_recent_leaf e |}.
Definition meter {St} (f : ProllyMetrics → ProllyMetrics) : eng St () := λ e, (Ok tt, {|
  en_store := en_store e; en_config := en_config e; en_execution := en_execution e; en_cache := en_cache e;
  en_metrics := f (en_metrics e); en_recent_leaf := en_recent_leaf e |}).
Definition remember_leaf {St} (root : Cid) (node : ReadNode) : eng St () := λ e, (Ok tt, {|
  en_store := en_store e; en_config := en_config e; en_execution := en_execution e; en_cache := en_cache e;
  en_metrics := en_metrics e; en_recent_leaf := Some (root, node) |}).

(** Access to the cache under its lock. *)
Definition cached_read {St} (cid : Cid) : eng St (option ReadNode) := λ e,
  let '(o, c) := get_read (en_cache e) cid in (Ok o, set_cache c e).
Definition cached_owned {St} (cid : Cid) : eng St (option Node) := λ e,
  match cache_get (en_cache e) cid with
  | Ok (o, c) => (Ok o, set_cache c e)
  | Err x => (Err x, e)
  | Panic s => (Panic s, e)
  end.
Definition admit_read {St} (cid : Cid) (node : ReadNode) : eng St Z := λ e,
  let '(evictions, c) := insert_read (en_cache e) cid node in (Ok evictions, set_cache c e).
Definition cache_enabled {St} : eng St bool := λ e, (Ok (negb (is_disabled (en_cache e))), e).

Section reads.
Context `{Hashes} {St : Type} `{ReadStore St}.

(** The repacking of a node that a write admitted. *)
Definition repack (f : TreeFormat) (cid : Cid) (owned : Node) : eng St ReadNode :=
  run (validate_cached_node owned f) ≫= λ _,
  data ← run (to_bytes owned);
  node ← run (decode_read cid f data);
  evictions ← admit_read cid node;
  meter (add_cache_evictions evictions) ≫= λ _,
  meter (add_cache_hits 1) ≫= λ _,
  mret node.

Definition load_stored (f : TreeFormat) (cid : Cid) : eng St ReadNode :=
  meter (add_cache_misses 1) ≫= λ _,
  found ← from_store (λ s : St, store_get_validated_shared s cid);
  read ← run (ok_or (NotFound cid) found);
  meter (record_point_read (len (vr_bytes read))) ≫= λ _,
  node ← run (decode_validated_read cid f read);
  evictions ← admit_read cid node;
  meter (add_cache_evictions evictions) ≫= λ _,
  mret node.

Definition load_read (f : TreeFormat) (cid : Cid) : eng St ReadNode :=
  cached ← cached_read cid;
  match cached with
  | Some node => meter (add_cache_hits 1) ≫= λ _, mret node
  | None =>
      from_store (λ s : St, Ok (store_has_native_shared_reads s)) ≫= λ native : bool,
      if native then load_stored f cid
      else
        owned ← cached_owned cid;
        match owned with
        | Some owned => repack f cid owned
        | None => load_stored f cid
        end
  end.

(** *** [get] *)
Fixpoint get_loop (fuel : nat) (f : TreeFormat) (enabled : bool) (root cid : Cid) (key : bytes)
    : eng St (option bytes) :=
  match fuel with
  | O => run (Panic "out of fuel")
  | S fuel' =>
      node ← load_read f cid;
      run (validate_cached_read_node node f) ≫= λ _,
      found ← run (rn_search node key);
      match found with
      | Insert O => mret None
      | Found index | Insert (S index) =>
          if rn_is_leaf node then
            let result := if bool_decide (rn_key node index = Some key) then rn_value node index else None in
            (if enabled then remember_leaf root node else mret tt) ≫= λ _,
            mret result
          else
            child ← run (rn_child_cid node index);
            get_loop fuel' f enabled root child key
      end
  end.

(** The recent leaf answers for the keys between its first and its last key. *)
Definition recent_covers (leaf : ReadNode) (key : bytes) : bool :=
  match rn_key leaf 0, rn_key leaf (rn_len leaf - 1) with
  | Some first, Some final => bleb first key && bleb key final
  | _, _ => false
  end.

Definition recent_for {St'} (root : Cid) (enabled : bool) : eng St' (option ReadNode) := λ e,
  (Ok (if enabled then
         match en_recent_leaf e with
         | Some (recent_root, leaf) => if bool_decide (recent_root = root) then Some leaf else None
         | None => None
         end
       else None), e).

Definition engine_get (fuel : nat) (tree : Tree) (key : bytes) : eng St (option bytes) :=
  match t_root tree with
  | None => mret None
  | Some root =>
      let f := Config.format (t_config tree) in
      cache_enabled ≫= λ enabled : bool,
      recent_for root enabled ≫= λ recent : option ReadNode,
      match recent with
      | Some leaf =>
          run (validate_cached_read_node leaf f) ≫= λ _,
          if recent_covers leaf key then
            meter (add_cache_hits 1) ≫= λ _,
            found ← run (rn_search leaf key);
            mret match found with Found index => rn_value leaf index | Insert _ => None end
          else get_loop fuel f enabled root root key
      | None => get_loop fuel f enabled root root key
      end
  end.
End reads.

End Engine.
