(* ===== verification/EngineSpec.v ===== *)
(** * Reads are map lookups

    On a store that holds a tree, [ProllyEngine::get] returns the value of the key in
    the tree's map, whatever the node cache and the recent leaf hold from earlier
    reads, and leaves the engine in a state that satisfies the same assumption. *)

From Stdlib Require Import ZArith Lia Strings.Byte.
From stdpp Require Import base tactics numbers list strings option gmap sorting.
From S2P Require Import Prelude Cursor Types Format Node ReadNode Store NodeCache Builder Entries TreeSpec Engine.

Import Format Config Node ReadNode Store NodeCache Builder Entries TreeSpec Engine.

Local Open Scope Z_scope.

Module EngineSpec.

(** What the engine relies on from the retained reads of a store. *)
Definition read_ok `{Hashes} (m : gmap bytes bytes) (key : bytes) (o : option ValidatedSharedRead) : Prop :=
  vr_bytes <$> o = m !! key ∧
  ∀ r, o = Some r → vr_cid_verified r = true → Cid_from_bytes (vr_bytes r) = key.

Class ReadStoreOk `{Hashes} St `{StoreOk St} `{!ReadStore St} : Prop := {
  get_validated_ok s key : ∃ o, store_get_validated_shared s key = Ok o ∧ read_ok (contents s) key o;
  batch_get_validated_ok s ks : NoDup ks →
    ∃ os, store_batch_get_validated s ks = Ok os ∧ Forall2 (read_ok (contents s)) ks os;
}.

Lemma read_ok_unverified `{Hashes} m key : read_ok m key (unverified <$> m !! key).
Proof. split; destruct (m !! key) as [b|]; try done. by intros r [= <-]. Qed.

Global Instance MemStore_read_ok `{Hashes} : ReadStoreOk MemStore.
Proof.
  split.
  - intros s key. exists (unverified <$> ms_data s !! key). split; [done|]. apply read_ok_unverified.
  - intros s ks _. exists ((λ k, unverified <$> ms_data s !! k) <$> ks). split.
    + cbn. unfold default_batch_get_validated, mem_batch_get_ordered_unique. cbn [mbind outcome_bind].
      by rewrite <- list_fmap_compose.
    + induction ks as [|k ks IH]; [constructor|]. constructor; [apply read_ok_unverified|done].
Qed.

Section spec.
Context `{HashesOk} {St : Type} `{StoreOk St} `{!ReadStore St} `{!ReadStoreOk St}.

Implicit Types e : ProllyEngine St.

(** The cache holds nodes of the store; the recent leaf is a leaf of its root. *)
Record engine_ok (st : gmap bytes bytes) (e : ProllyEngine St) : Prop := {
  eo_store : contents (en_store e) = st;
  eo_cache : holds (stored_node st) (en_cache e);
  eo_recent root rl : en_recent_leaf e = Some (root, rl) → ∃ n, view rl n ∧ leaf_under st root n;
}.

Lemma meter_ok st g e : engine_ok st e → ∃ e', meter g e = (Ok tt, e') ∧ engine_ok st e'.
Proof. intros [Hs Hc Hr]. eexists. split; [done|]. by constructor. Qed.

Lemma cached_read_ok st cid e :
  engine_ok st e → ∃ o e', cached_read cid e = (Ok o, e') ∧ engine_ok st e' ∧
    match o with Some rn => ∃ n, view rn n ∧ stored_node st cid n | None => True end.
Proof.
  intros [Hs Hc Hr]. unfold cached_read. destruct (get_read_holds _ _ cid Hc) as [Hh Ho].
  destruct (get_read (en_cache e) cid) as [o c]. cbn [fst snd] in *.
  exists o, (set_cache c e). split; [done|]. split; [by constructor|done].
Qed.

Lemma cached_owned_ok st cid e :
  engine_ok st e → ∃ o e', cached_owned cid e = (Ok o, e') ∧ engine_ok st e' ∧ from_option (stored_node st cid) True o.
Proof.
  intros [Hs Hc Hr]. unfold cached_owned. destruct (cache_get_holds _ _ cid Hc) as (o & c & -> & Hh & Ho).
  exists o, (set_cache c e). split; [done|]. split; [by constructor|done].
Qed.

Lemma admit_read_ok st cid rn n e :
  engine_ok st e → view rn n → stored_node st cid n → ∃ z e', admit_read cid rn e = (Ok z, e') ∧ engine_ok st e'.
Proof.
  intros [Hs Hc Hr] Hv Hn. unfold admit_read, insert_read.
  pose proof (insert_read_holds _ _ cid rn false n Hc Hv Hn) as Hh.
  destruct (insert_read_with_pin _ _ _ _) as [[np ev] c]. cbn [snd] in Hh.
  exists ev, (set_cache c e). split; [done|]. by constructor.
Qed.

(** Decoding the stored bytes. *)
Lemma decode_stored st cid n b :
  Cid_from_bytes b = cid → from_bytes b = Ok n → packable b n →
  ∃ rn, view rn n ∧ decode_cid_verified_read (format n) b = Ok rn ∧ validate_cid cid b = Ok tt ∧
        (stored_node st cid n → validate_cached_read_node rn (format n) = Ok tt).
Proof.
  intros Hcid Hb Hp. destruct (from_bytes_view b n Hb Hp) as (rn & Hrn & Hv). exists rn. split; [done|].
  unfold decode_cid_verified_read, validate_cid, validate_cached_read_node. rewrite Hrn, Hcid.
  cbn [map_err mbind outcome_bind]. rewrite <- (v_format _ _ Hv), !bool_decide_eq_true_2 by done. done.
Qed.

Lemma validate_read_ok rn n : view rn n → validate_cached_read_node rn (format n) = Ok tt.
Proof.
  intros Hv. unfold validate_cached_read_node. by rewrite <- (v_format _ _ Hv), bool_decide_eq_true_2.
Qed.

(** A result that is a packed view of the node, in a good state. *)
Definition loads (st : gmap bytes bytes) (n : Node) (res : outcome Error ReadNode * ProllyEngine St) : Prop :=
  ∃ rn e', res = (Ok rn, e') ∧ view rn n ∧ engine_ok st e'.

Ltac step lem :=
  let e1 := fresh "e" in let Heq := fresh "Heq" in let Hok := fresh "Hok" in
  edestruct lem as (e1 & Heq & Hok); [eassumption|]; rewrite (action_bind_Ok _ _ _ _ _ Heq).

Lemma repack_ok st cid n e :
  engine_ok st e → stored_node st cid n → loads st n (repack (format n) cid n e).
Proof.
  intros He Hn. destruct (Hn) as (b & _ & Hcid & Hto & Hfrom & Hp).
  destruct (decode_stored st cid n b Hcid Hfrom Hp) as (rn & Hv & Hdec & Hval & _). unfold repack.
  assert (validate_cached_node n (format n) = Ok tt) as Hf
    by (unfold validate_cached_node; by rewrite bool_decide_eq_true_2).
  assert (decode_read cid (format n) b = Ok rn) as Hd by (unfold decode_read; by rewrite Hval).
  rewrite (action_bind_Ok (run _) _ e tt e) by (unfold run; by rewrite Hf).
  rewrite (action_bind_Ok (run _) _ e b e) by (unfold run; by rewrite Hto).
  rewrite (action_bind_Ok (run _) _ e rn e) by (unfold run; by rewrite Hd).
  destruct (admit_read_ok st cid rn n e He Hv Hn) as (z & e1 & Ha & He1). rewrite (action_bind_Ok _ _ _ _ _ Ha).
  step (meter_ok st (add_cache_evictions z) e1). step (meter_ok st (add_cache_hits 1) e0).
  eexists rn, _. split; [done|]. done.
Qed.

Lemma load_stored_ok st cid n e :
  engine_ok st e → stored_node st cid n → loads st n (load_stored (format n) cid e).
Proof.
  intros He Hn. destruct (Hn) as (b & Hb & Hcid & Hto & Hfrom & Hp).
  destruct (decode_stored st cid n b Hcid Hfrom Hp) as (rn & Hv & Hdec & Hval & _). unfold load_stored.
  step (meter_ok st (add_cache_misses 1) e).
  destruct (get_validated_ok (en_store e0) cid) as (o & Ho & Hob & _). rewrite (eo_store _ _ Hok), Hb in Hob.
  destruct o as [r|]; [|done]. injection Hob as Hrb.
  rewrite (action_bind_Ok (from_store _) _ e0 (Some r) e0) by (unfold from_store; by rewrite Ho).
  rewrite (action_bind_Ok (run _) _ e0 r e0) by done.
  step (meter_ok st (record_point_read (len (vr_bytes r))) e0).
  assert (decode_validated_read cid (format n) r = Ok rn) as Hd.
  { unfold decode_validated_read. rewrite Hrb, Hval. by destruct (negb _). }
  rewrite (action_bind_Ok (run _) _ e1 rn e1) by (unfold run; by rewrite Hd).
  destruct (admit_read_ok st cid rn n e1 Hok0 Hv Hn) as (z & e2 & Ha & He2). rewrite (action_bind_Ok _ _ _ _ _ Ha).
  step (meter_ok st (add_cache_evictions z) e2).
  eexists rn, _. split; [done|]. done.
Qed.

Lemma load_read_ok st cid n e :
  engine_ok st e → stored_node st cid n → loads st n (load_read (format n) cid e).
Proof.
  intros He Hn. unfold load_read.
  destruct (cached_read_ok st cid e He) as (o & e1 & Hc & He1 & Ho). rewrite (action_bind_Ok _ _ _ _ _ Hc).
  destruct o as [rn|].
  { destruct Ho as (n' & Hv & Hn'). rewrite (stored_node_unique _ _ _ _ Hn' Hn) in Hv.
    step (meter_ok st (add_cache_hits 1) e1). eexists rn, _. split; [done|]. done. }
  rewrite (action_bind_Ok (from_store _) _ e1 (store_has_native_shared_reads (en_store e1)) e1) by done.
  destruct (store_has_native_shared_reads _); [by apply load_stored_ok|].
  destruct (cached_owned_ok st cid e1 He1) as (o & e2 & Hco & He2 & Ho2). rewrite (action_bind_Ok _ _ _ _ _ Hco).
  destruct o as [n'|]; [|by apply load_stored_ok]. cbn in Ho2.
  rewrite (stored_node_unique _ _ _ _ Ho2 Hn). by apply repack_ok.
Qed.

Lemma child_cid_ok rn n i c :
  view rn n → vals n !! i = Some c → length c = 32%nat → rn_child_cid rn i = Ok c.
Proof.
  intros Hv Hi Hlen. unfold rn_child_cid. rewrite (v_vals _ _ Hv), Hi. cbn [ok_or mbind outcome_bind].
  unfold len. by rewrite Hlen.
Qed.

Lemma subtree_cid st f h cid es : subtree st f h cid es → length cid = 32%nat.
Proof. intros Hsub. destruct h; destruct Hsub as (n & (b & _ & <- & _) & _); apply sha256_len. Qed.

(** The last leaf on the way is one of the root's. *)
Definition result_is (st : gmap bytes bytes) (v : option bytes) (res : outcome Error (option bytes) * ProllyEngine St) : Prop :=
  ∃ e', res = (Ok v, e') ∧ engine_ok st e'.

Lemma leaf_result rn n key index :
  view rn n → leaf n = true → keys n !! index = Some key ∨ key ∉ keys n →
  (if bool_decide (rn_key rn index = Some key) then rn_value rn index else None)
    = match search (keys n) key with Found i => vals n !! i | Insert _ => None end.
Proof.
  intros Hv _ Hk. pose proof (v_sorted _ _ Hv) as Hs. rewrite (v_keys _ _ Hv), (v_vals _ _ Hv).
  pose proof (search_descends (keys n) key Hs) as Hd. case_bool_decide as Hi.
  - destruct (search (keys n) key) as [i|[|i]].
    + destruct Hd as [Hd _]. f_equal. assert (Found index = Found i) as [= ->]; [|done].
      by apply (search_at_unique (keys n) key).
    + destruct (blt_irrefl key). by apply (Hd index).
    + destruct Hd as [_ Hd]. destruct Hd. apply list_elem_of_lookup. by exists index.
  - destruct Hk as [Hk|Hk]; [done|]. destruct (search (keys n) key) as [i|]; [|done].
    destruct Hd as [Hd _]. destruct Hk. apply list_elem_of_lookup. by exists i.
Qed.

(** What a search step knows of the index it goes on with. *)
Lemma search_index ks key :
  StronglySorted blt ks →
  match search ks key with
  | Insert O => ∀ j k, ks !! j = Some k → (key < k)%key
  | Found index | Insert (S index) => last_at_most ks key index ∧ (ks !! index = Some key ∨ key ∉ ks)
  end.
Proof.
  intros Hs. pose proof (search_descends ks key Hs) as Hd. destruct (search ks key) as [i|[|i]]; [|done|].
  - split; [apply Hd|left; apply Hd].
  - split; [apply Hd|right; apply Hd].
Qed.

Lemma get_loop_ok st f h fuel enabled root cid key es e :
  engine_ok st e → subtree st f h cid es → ascending es → (h < fuel)%nat →
  (∀ n, leaf_under st cid n → leaf_under st root n) →
  result_is st (final_map es !! key) (get_loop fuel f enabled root cid key e).
Proof.
  intros He Hsub Hasc Hfuel. revert fuel cid es e He Hsub Hasc Hfuel.
  induction h as [|h IH]; intros [|fuel] cid es e He Hsub Hasc Hfuel Hroot; [lia| |lia|];
    destruct Hsub as (n & Hn & (<- & _) & Hes); cbn [get_loop];
    destruct (load_read_ok st cid n e He Hn) as (rn & e1 & Hl & Hv & He1); rewrite (action_bind_Ok _ _ _ _ _ Hl);
    rewrite (action_bind_Ok (run _) _ e1 tt e1) by (unfold run; by rewrite (validate_read_ok rn n Hv));
    rewrite (action_bind_Ok (run _) _ e1 (search (keys n) key) e1) by (unfold run; by rewrite (rn_search_view rn n key Hv));
    destruct (stored_node_sorted _ _ _ Hn) as [Hs Hlen]; pose proof (search_index (keys n) key Hs) as Hix.
  - destruct Hes as [Hleaf ->]. rewrite (leaf_lookup _ _ _ Hs Hlen).
    assert (∀ index, keys n !! index = Some key ∨ key ∉ keys n →
      result_is st (match search (keys n) key with Found i => vals n !! i | Insert _ => None end)
        ((if rn_is_leaf rn then
            (if enabled then remember_leaf root rn else mret tt) ≫= λ _,
            mret (if bool_decide (rn_key rn index = Some key) then rn_value rn index else None)
          else child ← run (rn_child_cid rn index); get_loop fuel (format n) enabled root child key) e1)) as Hres.
    { intros index Hk. unfold rn_is_leaf. rewrite <- (v_leaf _ _ Hv), Hleaf, (leaf_result rn n key index Hv Hleaf Hk).
      destruct enabled; [|by exists e1]. eexists. split; [done|]. destruct He1. constructor; [done|done|].
      intros root' rl [= <- <-]. exists n. split; [done|]. apply Hroot. by constructor. }
    destruct (search (keys n) key) as [i|[|i]] eqn:Hsr; [apply Hres, Hix|by exists e1|apply Hres, Hix].
  - destruct Hes as (Hleaf & subs & Hsubs & Hst & ->).
    assert (∀ index, last_at_most (keys n) key index →
      result_is st (final_map (concat subs) !! key)
        ((if rn_is_leaf rn then
            (if enabled then remember_leaf root rn else mret tt) ≫= λ _,
            mret (if bool_decide (rn_key rn index = Some key) then rn_value rn index else None)
          else child ← run (rn_child_cid rn index); get_loop fuel (format n) enabled root child key) e1)) as Hres.
    { intros index Hlam. unfold rn_is_leaf. rewrite <- (v_leaf _ _ Hv), Hleaf.
      pose proof Hlam as (k & Hk & _). destruct (Forall2_lookup_l _ _ _ _ _ Hst Hk) as (sub & Hsub & _).
      destruct (Forall2_lookup_r _ _ _ _ _ Hsubs Hsub) as (c & Hc & Hcsub).
      destruct (child_holds _ _ _ _ _ Hst Hasc Hlam Hsub) as [Hasc' ->].
      rewrite (action_bind_Ok (run _) _ e1 c e1)
        by (unfold run; by rewrite (child_cid_ok rn n index c Hv Hc (subtree_cid _ _ _ _ _ Hcsub))).
      apply IH; [done|done|done|lia|]. intros m Hm. apply Hroot. econstructor; [exact Hn|done| |exact Hm].
      apply list_elem_of_lookup. by exists index. }
    destruct (search (keys n) key) as [i|[|i]]; [apply Hres, Hix| |apply Hres, Hix].
    rewrite (below_first _ _ _ Hst Hasc Hix). by exists e1.
Qed.

(** A tree handle whose nodes the store holds. *)
Definition tree_holds (st : gmap bytes bytes) (tree : Tree) (h : nat) (es : list kv) : Prop :=
  match t_root tree with
  | None => es = []
  | Some root => subtree st (Config.format (t_config tree)) h root es ∧ ascending es
  end.

Lemma recent_leaf_ok st f h root es n rl key e :
  engine_ok st e → subtree st f h root es → ascending es → leaf_under st root n → view rl n →
  recent_covers rl key = true →
  result_is st (final_map es !! key)
    ((meter (add_cache_hits 1) ≫= λ _,
      found ← run (rn_search rl key);
      mret match found with Found index => rn_value rl index | Insert _ => None end) e).
Proof.
  intros He Hsub Hasc Hu Hv Hc. destruct (meter_ok st (add_cache_hits 1) e He) as (e1 & Hm & He1).
  rewrite (action_bind_Ok _ _ _ _ _ Hm).
  rewrite (action_bind_Ok (run _) _ e1 (search (keys n) key) e1) by (unfold run; by rewrite (rn_search_view rl n key Hv)).
  exists e1. split; [|done]. destruct (leaf_of_subtree _ _ _ _ _ _ Hsub Hu) as (_ & pre & post & ->).
  unfold recent_covers in Hc. rewrite !(v_keys _ _ Hv), (v_len _ _ Hv) in Hc.
  destruct (keys n !! 0%nat) as [first|] eqn:Hfirst; [|done].
  destruct (keys n !! (length (keys n) - 1)%nat) as [final|] eqn:Hfinal; [|done].
  apply andb_true_iff in Hc as [Hlo Hhi].
  rewrite (leaf_covers pre _ _ post key first final);
    [|done|apply (v_lens _ _ Hv)|done|by rewrite last_lookup, <- Hfinal, Nat.sub_1_r|by apply bleb_le..].
  rewrite (leaf_lookup _ _ _ (v_sorted _ _ Hv) (v_lens _ _ Hv)).
  destruct (search (keys n) key); cbn; by rewrite ?(v_vals _ _ Hv).
Qed.

Lemma engine_get_ok st tree h es fuel key e :
  engine_ok st e → tree_holds st tree h es → (h < fuel)%nat →
  result_is st (final_map es !! key) (engine_get fuel tree key e).
Proof.
  unfold tree_holds, engine_get. intros He Hh Hfuel. destruct (t_root tree) as [root|].
  2:{ rewrite Hh. by exists e. }
  destruct Hh as [Hsub Hasc]. set (f := Config.format (t_config tree)) in *.
  rewrite (action_bind_Ok cache_enabled _ e _ e) by done. set (enabled := negb _).
  rewrite (action_bind_Ok (recent_for _ _) _ e _ e) by done.
  assert (result_is st (final_map es !! key) (get_loop fuel f enabled root root key e)) as Hloop
    by (by apply (get_loop_ok st f h)).
  destruct enabled; [|done]. destruct (en_recent_leaf e) as [[root' rl]|] eqn:Hrl; [|done].
  case_bool_decide as Hr; [subst root'|done].
  destruct (eo_recent _ _ He _ _ Hrl) as (n & Hv & Hu).
  destruct (leaf_of_subtree _ _ _ _ _ _ Hsub Hu) as (Hf & _).
  rewrite (action_bind_Ok (run _) _ e tt e) by (unfold run; by rewrite <- Hf, (validate_read_ok rl n Hv)).
  destruct (recent_covers rl key) eqn:Hc; [|done]. by eapply recent_leaf_ok.
Qed.

End spec.

(** C4.  On a store that holds a tree, [ProllyEngine::get] returns the key's value in
    the tree's ordered map, and nothing for an absent key, whatever its cache and its
    recent leaf hold of the same store; and the engine stays in such a state. *)
Theorem get_is_lookup `{HashesOk} {St} `{StoreOk St} `{!ReadStore St} `{!ReadStoreOk St}
    st tree h es fuel key (e : ProllyEngine St) :
  engine_ok st e → tree_holds st tree h es → (h < fuel)%nat →
  ∃ e', engine_get fuel tree key e = (Ok (final_map es !! key), e') ∧ engine_ok st e'.
Proof. apply engine_get_ok. Qed.

End EngineSpec.
