(* ===== verification/BuiltTree.v ===== *)
(** * Built trees are stored trees

    The nodes that the tree specification publishes form a stored tree of the
    entries, provided that the content hash separates them; so what a builder
    returns can be read back. *)

From Stdlib Require Import ZArith Lia Strings.Byte.
From stdpp Require Import base tactics numbers list strings option gmap sorting.
From S2P Require Import Prelude Cursor Types Format Boundary Node ReadNode Sizer Chunks ChunkSpec Store Emitter EmitterSpec NodeCache Builder Entries BuilderSpec TreeSpec Engine EngineSpec.

Import Format Node ReadNode ChunkSpec Store Emitter EmitterSpec Builder Entries BuilderSpec TreeSpec Engine EngineSpec.

Local Open Scope Z_scope.

Module BuiltTree.

(** The hash has no collision among the given byte strings. *)
Definition no_collision `{Hashes} (l : list bytes) : Prop :=
  ∀ a b, a ∈ l → b ∈ l → Cid_from_bytes a = Cid_from_bytes b → a = b.

Lemma put_all_elem {V} (es : list (bytes * V)) m k v :
  (k, v) ∈ es → (∀ v', (k, v') ∈ es → v' = v) → put_all es m !! k = Some v.
Proof.
  intros Hin Huniq. induction es as [|[k' v'] es IH] using rev_ind; [by apply not_elem_of_nil in Hin|].
  rewrite put_all_snoc. cbn [fst snd]. destruct (decide (k' = k)) as [->|Hne].
  - rewrite lookup_insert_eq. f_equal. apply Huniq. apply elem_of_app. right. by apply list_elem_of_singleton.
  - rewrite lookup_insert_ne by done. apply IH.
    + apply elem_of_app in Hin as [?|[= ? ?]%list_elem_of_singleton]; [done|congruence].
    + intros v0 Hv0. apply Huniq. apply elem_of_app. by left.
Qed.

Section built.
Context `{HashesOk} (config : Config.Config) (st : gmap bytes bytes).

Abbreviation f := (Config.format config).
Hypothesis Hwf : TreeFormat_wf f.
Hypothesis Hvalid : validate f = Ok tt.
Hypothesis Hcodec : has_codec f.

(** ** One node *)
Lemma node_of_wf lv c :
  0 ≤ lv ≤ u8_max → fits config lv c → c ≠ [] → StronglySorted blt (ekey <$> c) → node_wf (node_of f lv c).
Proof.
  intros Hlv Hfit Hne Hs. destruct (fits_level _ _ _ Hfit) as [Hent Hroom].
  assert (∀ x, x ∈ c → entry_wf (lv =? 0) x) as Hx by (intros x; rewrite list_elem_of_In; by apply List.Forall_forall).
  constructor; cbn [node_of format level keys vals child_counts]; [|done|done|done|..].
  - apply Node_validate_Ok. cbn [node_of format keys vals leaf child_counts]. split; [done|].
    split; [by rewrite !length_fmap|]. split; [exact Hs|]. destruct (lv =? 0) eqn:Hlf; [done|].
    split; [by destruct c|]. split; [by rewrite !length_fmap|].
    apply Forall_fmap, Forall_forall. intros [[k v] n] Hin. destruct (Hx _ Hin) as (_ & _ & Hn). cbn. specialize (Hn eq_refl). lia.
  - apply Forall_fmap, Forall_forall. intros [[k v] n] Hin. by destruct (Hx _ Hin) as (? & _ & _).
  - apply Forall_fmap, Forall_forall. intros [[k v] n] Hin. by destruct (Hx _ Hin) as (_ & ? & _).
  - destruct (lv =? 0) eqn:Hlf; [constructor|]. apply Forall_fmap, Forall_forall. intros [[k v] n] Hin.
    destruct (Hx _ Hin) as (_ & _ & Hn). specialize (Hn eq_refl). cbn. unfold u64. lia.
  - pose proof (format_bytes_bound f Hcodec). pose proof (format_bytes_name f). pose proof (weight_len c).
    unfold Sizer.node_size, Sizer.header_len in Hroom.
    pose proof (len_nonneg (layout_bytes (node_layout f) (lv =? 0) [])).
    assert (len ((λ e : node_entry, e.1.1) <$> c) = len c) as -> by (unfold len; by rewrite length_fmap).
    pose proof (len_nonneg c). pose proof (Sizer.varint_len_pos COMPACT_VERSION).
    pose proof (Sizer.varint_len_pos (Sizer.format_len f)). pose proof (Sizer.varint_len_pos lv).
    pose proof (Sizer.varint_len_pos (if lv =? 0 then 1 else 0)). pose proof (Sizer.varint_len_pos (len (@nil node_entry))).
    lia.
Qed.

(** The store holds the node of a chunk. *)
Definition published (lv : Z) (c : list node_entry) : Prop :=
  st !! sm_cid (summary f lv c) = Some (node_bytes f lv c) ∧ packable (node_bytes f lv c) (node_of f lv c).

Lemma published_node lv c :
  0 ≤ lv ≤ u8_max → fits config lv c → c ≠ [] → StronglySorted blt (ekey <$> c) → published lv c →
  stored_node st (sm_cid (summary f lv c)) (node_of f lv c).
Proof.
  intros Hlv Hfit Hne Hs [Hst Hp]. exists (node_bytes f lv c). split; [done|]. split; [done|].
  destruct (node_bytes_ok config lv Hvalid Hcodec c (fits_level _ _ _ Hfit) (fits_counted _ _ _ Hfit)) as [Hb _].
  split; [done|]. split; [|done].
  destruct (roundtrip_ok _ (node_of_wf lv c Hlv Hfit Hne Hs)) as (b & Hb' & Hrt).
  rewrite Hb in Hb'. apply Ok_inj in Hb' as <-. apply Hrt. destruct Hp as [Hp _]. unfold vec_wf, u32_max, isize_max in *. lia.
Qed.

(** ** Levels *)
Definition holds_sub (h : nat) (s : NodeSummary) (sub : list kv) : Prop :=
  subtree st f h (sm_cid s) sub ∧ starts_with (sm_first_key s) sub.

Lemma starts_sorted ks subs :
  Forall2 starts_with ks subs → ascending (concat subs) → StronglySorted blt ks.
Proof.
  intros Hst. induction Hst as [|k sub ks subs Hk Hst IH]; intros Hasc; [constructor|].
  cbn [concat] in Hasc. destruct (ascending_app _ _ Hasc) as (_ & Hasc2 & Hlt). constructor; [by apply IH|].
  apply Forall_forall. intros k' Hk'. apply Hlt; [by apply starts_with_head|].
  apply list_elem_of_lookup in Hk' as [i Hi]. destruct (Forall2_lookup_l _ _ _ _ _ Hst Hi) as (sub' & Hs' & Hst').
  apply starts_with_head in Hst'. apply list_elem_of_fmap in Hst' as (e & -> & He).
  apply list_elem_of_fmap. exists e. split; [done|]. apply list_elem_of_In, in_concat.
  exists sub'. split; apply list_elem_of_In; [|done]. apply list_elem_of_lookup. by exists i.
Qed.

(** One internal node over the trees of its children. *)
Lemma internal_holds lv h (ss : list NodeSummary) subs :
  0 < lv ≤ u8_max → lv = Z.of_nat (S h) → fits config lv (child_entry <$> ss) → ss ≠ [] → ascending (concat subs) →
  Forall2 (holds_sub h) ss subs → published lv (child_entry <$> ss) →
  holds_sub (S h) (summary f lv (child_entry <$> ss)) (concat subs).
Proof.
  intros Hlv Hh Hfit Hne Hasc Hsubs Hpub. assert ((lv =? 0) = false) as Hlf by (apply Z.eqb_neq; lia).
  assert (ekey <$> (child_entry <$> ss) = sm_first_key <$> ss) as Hkeys by (by rewrite <- list_fmap_compose).
  assert (Forall2 starts_with (sm_first_key <$> ss) subs) as Hst.
  { apply Forall2_fmap_l. eapply Forall2_impl; [exact Hsubs|]. by intros s sub [_ ?]. }
  split.
  - exists (node_of f lv (child_entry <$> ss)). split.
    { apply published_node; [lia|done|by destruct ss| |done]. rewrite Hkeys. by eapply starts_sorted. }
    split; [split; [done|split; [exact Hh|by destruct ss]]|]. cbn [node_of leaf keys vals]. split; [done|]. exists subs. rewrite <- !list_fmap_compose.
    split; [|done]. apply Forall2_fmap_l. eapply Forall2_impl; [exact Hsubs|]. by intros s sub [? _].
  - destruct Hsubs as [|s sub ss subs [_ (v & rest & ->)] _]; [done|]. cbn. by eexists _, _.
Qed.

Lemma level_holds lv h (ss : list NodeSummary) subs chunks :
  0 < lv ≤ u8_max → lv = Z.of_nat (S h) → fits config lv (child_entry <$> ss) → ascending (concat subs) →
  Forall2 (holds_sub h) ss subs → concat chunks = child_entry <$> ss → Forall (λ c, c ≠ []) chunks →
  Forall (published lv) chunks →
  ∃ subs', Forall2 (holds_sub (S h)) (summary f lv <$> chunks) subs' ∧ concat subs' = concat subs.
Proof.
  intros Hlv Hh. revert ss subs; induction chunks as [|c chunks IH]; intros ss subs Hfit Hasc Hsubs Hcat Hne Hpub.
  { destruct Hsubs; [|done]. exists []. by split. }
  apply Forall_cons_1 in Hne as [Hc Hne]. apply Forall_cons_1 in Hpub as [Hpc Hpub]. cbn [concat] in Hcat.
  symmetry in Hcat. apply fmap_app_inv in Hcat as (s1 & s2 & -> & Hcat2 & ->).
  apply Forall2_app_inv_l in Hsubs as (sub1 & sub2 & Hs1 & Hs2 & ->). rewrite concat_app in *.
  rewrite fmap_app in Hfit. destruct (fits_app _ _ _ _ Hfit) as [Hf1 Hf2].
  destruct (ascending_app _ _ Hasc) as (Ha1 & Ha2 & _).
  destruct (IH s2 sub2 Hf2 Ha2 Hs2 Hcat2 Hne Hpub) as (subs' & Hsubs' & Heq).
  exists (concat sub1 :: subs'). split; [|cbn; by rewrite Heq].
  constructor; [|done]. apply internal_holds; [done|done|done|by destruct s1|done|done|done].
Qed.

Lemma leaf_holds es :
  fits config 0 (leaf_entry <$> es) → es ≠ [] → ascending es → published 0 (leaf_entry <$> es) →
  holds_sub 0 (summary f 0 (leaf_entry <$> es)) es.
Proof.
  intros Hfit Hne Hasc Hpub.
  assert (ekey <$> (leaf_entry <$> es) = fst <$> es) as Hkeys by (by rewrite <- list_fmap_compose).
  split.
  - exists (node_of f 0 (leaf_entry <$> es)). split.
    { apply published_node; [done|done|by destruct es| |done]. by rewrite Hkeys. }
    split; [split; [done|split; [done|by destruct es]]|]. split; [done|]. cbn [node_of keys vals]. rewrite <- !list_fmap_compose.
    symmetry. rewrite <- (zip_fst_snd es) at 3. done.
  - destruct es as [|[k v] es]; [done|]. by eexists _, _.
Qed.

Lemma leaves_hold es chunks :
  fits config 0 (leaf_entry <$> es) → ascending es → concat chunks = leaf_entry <$> es →
  Forall (λ c, c ≠ []) chunks → Forall (published 0) chunks →
  ∃ subs, Forall2 (holds_sub 0) (summary f 0 <$> chunks) subs ∧ concat subs = es.
Proof.
  revert es; induction chunks as [|c chunks IH]; intros es Hfit Hasc Hcat Hne Hpub.
  { exists []. split; [constructor|]. by destruct es. }
  apply Forall_cons_1 in Hne as [Hc Hne]. apply Forall_cons_1 in Hpub as [Hpc Hpub]. cbn [concat] in Hcat.
  symmetry in Hcat. apply fmap_app_inv in Hcat as (es1 & es2 & -> & Hcat2 & ->).
  rewrite fmap_app in Hfit. destruct (fits_app _ _ _ _ Hfit) as [Hf1 Hf2].
  destruct (ascending_app _ _ Hasc) as (Ha1 & Ha2 & _).
  destruct (IH es2 Hf2 Ha2 Hcat2 Hne Hpub) as (subs & Hsubs & Heq).
  exists (es1 :: subs). split; [|cbn; by rewrite Heq].
  constructor; [|done]. apply leaf_holds; [done|by destruct es1|done|done].
Qed.

Lemma tower_holds fuel lv ss subs top above :
  0 ≤ lv ≤ u8_max → sums_ok config ss → Forall2 (holds_sub (Z.to_nat lv)) ss subs → ascending (concat subs) →
  tower f fuel lv ss = Ok (top, above) → Forall (λ n, published n.1 n.2) above →
  ∃ h sub, (h ≤ 255)%nat ∧ concat subs = default [] sub ∧
    match head top, sub with Some s, Some sub => holds_sub h s sub | None, None => True | _, _ => False end.
Proof.
  revert lv ss subs above; induction fuel as [|fuel IH]; intros lv ss subs above Hlv Hsums Hsubs Hasc Htower Hpub;
    [done|]. cbn [tower] in Htower. unfold u8_max in Hlv. destruct (Nat.ltb_spec 1 (length ss)) as [_|Hone].
  - destruct (Z.ltb_spec u8_max (lv + 1)) as [|Hle]; [done|]. unfold u8_max in Hle.
    destruct (level_chunks f (lv + 1) (child_entry <$> ss)) as [chunks|x|] eqn:Hc; [|done..].
    cbn [mbind outcome_bind] in Htower.
    destruct (sums_next config (lv + 1) ss chunks ltac:(unfold u8_max; lia) Hsums Hc) as (Hcat & Hok & Hnext).
    destruct (tower f fuel (lv + 1) _) as [[top' above']|x|] eqn:Hup; [|done..].
    cbn [mbind outcome_bind] in Htower. injection Htower as <- <-. apply Forall_app in Hpub as [Hpub Hpub'].
    destruct (level_holds (lv + 1) (Z.to_nat lv) ss subs chunks) as (subs' & Hsubs' & Heq);
      [unfold u8_max; lia|lia|apply sums_fit; [done..|unfold u8_max; lia|done]|done|done|done| | |].
    { eapply Forall_impl; [exact Hok|]. by intros c [? _]. }
    { apply Forall_fmap in Hpub. exact Hpub. }
    rewrite <- Heq in Hasc |- *. apply (IH (lv + 1) (summary f (lv + 1) <$> chunks) subs' above'); [unfold u8_max; lia|done| |done|done|done].
    by replace (Z.to_nat (lv + 1)) with (S (Z.to_nat lv)) by lia.
  - injection Htower as <- <-. exists (Z.to_nat lv). destruct Hsubs as [|s sub ss subs Hs Hsubs].
    { exists None. split; [lia|done]. }
    destruct Hsubs; [|cbn in Hone; lia]. exists (Some sub). split; [lia|]. split; [|done]. cbn. by rewrite app_nil_r.
Qed.

(** What the specified tree needs so that its nodes can be read back. *)
Definition readable (nodes : list (Z * list node_entry)) : Prop :=
  no_collision ((λ n, node_bytes f n.1 n.2) <$> nodes) ∧
  Forall (λ n, packable (node_bytes f n.1 n.2) (node_of f n.1 n.2)) nodes.

Lemma readable_published nodes m :
  st = put_all (stored f <$> nodes) m → readable nodes → Forall (λ n, published n.1 n.2) nodes.
Proof.
  intros Hst [Hnc Hp]. apply Forall_forall. intros n Hn. split; [|by apply (proj1 (Forall_forall _ _) Hp)].
  rewrite Hst. apply put_all_elem.
  - apply list_elem_of_fmap. by exists n.
  - intros v (n' & [= Hcid ->] & Hn')%list_elem_of_fmap. apply Hnc.
    + apply list_elem_of_fmap. by exists n'.
    + apply list_elem_of_fmap. by exists n.
    + done.
Qed.

Lemma tree_spec_holds entries root nodes m :
  entries_fit config entries → ascending entries → tree_spec f entries = Ok (root, nodes) →
  st = put_all (stored f <$> nodes) m → readable nodes →
  ∃ h, (h ≤ 255)%nat ∧ tree_holds st {| t_root := root; t_config := config |} h entries.
Proof.
  intros Hfit Hasc Hspec Hst Hread. pose proof (readable_published nodes m Hst Hread) as Hpub.
  unfold tree_spec in Hspec. destruct (level_chunks f 0 _) as [chunks|x|] eqn:Hc; [|done..].
  cbn [mbind outcome_bind] in Hspec. destruct (leaf_sums config entries chunks Hfit Hc) as (Hcat & Hok & Hsums).
  destruct (tower f levels_fuel 0 _) as [[top above]|x|] eqn:Hup; [|done..].
  cbn [mbind outcome_bind] in Hspec. injection Hspec as <- <-. apply Forall_app in Hpub as [Hpub Hpub'].
  destruct (leaves_hold entries chunks) as (subs & Hsubs & Heq);
    [by apply entries_leaf_fit|done|done| | |].
  { eapply Forall_impl; [exact Hok|]. by intros c [? _]. }
  { apply Forall_fmap in Hpub. exact Hpub. }
  rewrite <- Heq in Hasc.
  destruct (tower_holds levels_fuel 0 _ subs top above ltac:(done) Hsums Hsubs Hasc Hup Hpub') as (h & sub & Hh & Hcs & Htop).
  exists h. split; [done|]. unfold tree_holds. cbn [t_root t_config].
  rewrite <- Heq, Hcs. rewrite Hcs in Hasc. destruct (head top) as [s|], sub as [sub|]; try done. by destruct Htop.
Qed.

End built.

(** ** Reading what was built *)
(** A sequence of reads by one engine. *)
Definition get_each {St} `{Hashes} `{ReadStore St} (tree : Tree) (ks : list bytes)
    : eng St (list (option bytes)) :=
  mapM (engine_get 256 tree) ks.

Lemma get_each_ok `{HashesOk} {St} `{StoreOk St} `{!ReadStore St} `{!ReadStoreOk St}
    st tree h es ks (e : ProllyEngine St) :
  engine_ok st e → tree_holds st tree h es → (h ≤ 255)%nat →
  ∃ e', get_each tree ks e = (Ok ((λ k, final_map es !! k) <$> ks), e') ∧ engine_ok st e'.
Proof.
  intros He Hh Hle. revert e He; induction ks as [|k ks IH]; intros e He; [by exists e|].
  destruct (engine_get_ok st tree h es 256 k e He Hh ltac:(lia)) as (e1 & Hk & He1).
  destruct (IH e1 He1) as (e2 & Hks & He2). exists e2. split; [|done].
  unfold get_each in *. change (mapM ?g (k :: ks)) with (y ← g k; l ← mapM g ks; mret (y :: l)).
  rewrite (action_bind_Ok _ _ _ _ _ Hk), (action_bind_Ok _ _ _ _ _ Hks). done.
Qed.

Lemma fresh_engine_ok `{HashesOk} {St} `{StoreOk St} `{!ReadStore St} (store : St) config execution :
  engine_ok (contents store) (with_execution_config store config execution).
Proof. constructor; [done| |done]. apply map_Forall_empty. Qed.

Lemma built_tree_holds `{HashesOk} {St} `{StoreOk St} config (store : St) raw tree nodes :
  build_input config (canonical_entries raw) →
  tree_result config (canonical_entries raw) = Ok (tree, nodes) → readable config nodes →
  ∃ store' h, bb_build {| bb_store := store; bb_config := config; bb_entries := raw |} = Ok (tree, store') ∧
    (h ≤ 255)%nat ∧ tree_holds (contents store') tree h (canonical_entries raw).
Proof.
  intros [Hwf Hvalid Hcodec Hmin Hfit] Htree Hread.
  pose proof (bb_build_ok config Hwf Hvalid Hcodec store raw Hmin Hfit) as Hb. rewrite Htree in Hb.
  destruct Hb as (store' & Hb & Hst). unfold tree_result in Htree.
  destruct (tree_spec _ _) as [[root nodes']|x|] eqn:Hspec; [|done..]. injection Htree as <- <-.
  destruct (tree_spec_holds config (contents store') Hwf Hvalid Hcodec (canonical_entries raw) root nodes'
    (contents store) Hfit (canonical_ascending raw) Hspec Hst Hread) as (h & Hh & Hholds).
  by exists store', h.
Qed.

(** C3.  What was added is what is read: [BatchBuilder::build] succeeds when the
    specification does, and on the store it leaves, any sequence of
    [ProllyEngine::get] calls on one engine returns for each key the value added
    last, or nothing for a key that was not added; whatever the cache limits. *)
Theorem build_then_get `{HashesOk} {St} `{StoreOk St} `{!ReadStore St} `{!ReadStoreOk St}
    config (store : St) raw tree nodes read_config execution ks :
  build_input config (canonical_entries raw) →
  tree_result config (canonical_entries raw) = Ok (tree, nodes) → readable config nodes →
  ∃ store', bb_build {| bb_store := store; bb_config := config; bb_entries := raw |} = Ok (tree, store') ∧
    (get_each tree ks (with_execution_config store' read_config execution)).1
      = Ok ((λ k, final_map raw !! k) <$> ks).
Proof.
  intros Hin Htree Hread.
  destruct (built_tree_holds config store raw tree nodes Hin Htree Hread) as (store' & h & Hb & Hh & Hholds).
  exists store'. split; [done|].
  destruct (get_each_ok (contents store') tree h _ ks _ (fresh_engine_ok store' read_config execution) Hholds Hh)
    as (e' & Hget & _). rewrite Hget, canonical_map. done.
Qed.

(** ** Sample *)
Lemma no_collision_NoDup `{Hashes} l : NoDup (Cid_from_bytes <$> l) → no_collision l.
Proof.
  intros Hnd a b (i & Hi)%list_elem_of_lookup (j & Hj)%list_elem_of_lookup Heq.
  assert (i = j) as ->; [|congruence].
  eapply NoDup_lookup; [exact Hnd|rewrite list_lookup_fmap, Hi; done|rewrite list_lookup_fmap, Hj; cbn; by rewrite Heq].
Qed.

Definition packable_b (data : bytes) (n : Node) : bool :=
  (len data <=? u32_max) &&
  (negb (bool_decide (node_layout (format n) = PrefixCompressed)) || (len (concat (keys n)) <=? u32_max)).

Lemma packable_b_ok data n : packable_b data n = true → packable data n.
Proof.
  unfold packable_b. rewrite andb_true_iff, orb_true_iff, negb_true_iff, bool_decide_eq_false, !Z.leb_le.
  intros [? Hk]. split; [done|]. intros Hl. by destruct Hk.
Qed.

Definition sample_build : Tree * list (Z * list node_entry) := Eval vm_compute in
  match tree_result (H := sample_hashes) (sample_config 2 2) (canonical_entries sample_raw) with
  | Ok r => r | _ => ({| t_root := None; t_config := sample_config 2 2 |}, [])
  end.
Definition sample_tree : Tree := sample_build.1.
Definition sample_nodes : list (Z * list node_entry) := sample_build.2.

Lemma sample_result :
  tree_result (H := sample_hashes) (sample_config 2 2) (canonical_entries sample_raw) = Ok (sample_tree, sample_nodes).
Proof. vm_compute. reflexivity. Qed.

Lemma sample_readable : readable (H := sample_hashes) (sample_config 2 2) sample_nodes.
Proof.
  split.
  - apply no_collision_NoDup. apply (bool_decide_eq_true_1 _). vm_compute. reflexivity.
  - apply Forall_forall. intros n Hn. apply packable_b_ok. apply list_elem_of_In in Hn.
    revert n Hn. apply forallb_forall. vm_compute. reflexivity.
Qed.

Lemma build_then_get_witness :
  ∃ store', bb_build (H := sample_hashes)
      {| bb_store := MemStore_new; bb_config := sample_config 2 2; bb_entries := sample_raw |} = Ok (sample_tree, store') ∧
    (get_each (H := sample_hashes) sample_tree (sample_raw.*1 ++ [[]])
      (ProllyEngine_new store' (sample_config 2 2))).1
      = Ok ((λ k, final_map sample_raw !! k) <$> (sample_raw.*1 ++ [[]])).
Proof.
  pose proof (build_then_get (H := sample_hashes) (H0 := sample_hashes_ok) (sample_config 2 2) MemStore_new sample_raw
    sample_tree sample_nodes (sample_config 2 2) ExecutionConfig_default (sample_raw.*1 ++ [[]])
    sample_build_input sample_result sample_readable) as Hx.
  exact Hx.
Defined.

Lemma get_is_lookup_witness :
  ∃ store' e', bb_build (H := sample_hashes)
      {| bb_store := MemStore_new; bb_config := sample_config 2 2; bb_entries := sample_raw |} = Ok (sample_tree, store') ∧
    engine_get (H := sample_hashes) 256 sample_tree [Byte.x03] (ProllyEngine_new store' (sample_config 2 2))
      = (Ok (Some [Byte.x0d]), e').
Proof.
  destruct (built_tree_holds (H := sample_hashes) (H0 := sample_hashes_ok) (sample_config 2 2) MemStore_new sample_raw
    sample_tree sample_nodes sample_build_input sample_result sample_readable) as (store' & h & Hb & Hh & Hholds).
  destruct (get_is_lookup (H := sample_hashes) (H0 := sample_hashes_ok) (contents store') sample_tree h _ 256
    [Byte.x03] _ (fresh_engine_ok (H0 := sample_hashes_ok) store' (sample_config 2 2) ExecutionConfig_default) Hholds
    (proj2 (Nat.lt_succ_r h 255) Hh)) as (e' & Hget & _).
  exists store', e'. split; [exact Hb|]. exact Hget.
Defined.

End BuiltTree.
