(* ===== verification/Write.v ===== *)
(** * Canonical writes (src/prolly/write.rs)

    Batches of mutations on a persistent tree: normalisation, the leaf emitter, the
    interface of the write managers, the collection of the old leaves, their replay
    with resynchronisation, and the publication of the changed nodes.

    A write manager stands for shared state that every operation may change; the
    state of an operation is that manager together with the statistics of the
    write.  The counters wrap at 64 bits. *)

From Stdlib Require Import ZArith Lia Strings.Byte.
From stdpp Require Import base tactics numbers list strings option gmap.
From S2P Require Import Prelude Cursor Types Format Boundary Node Sizer Chunks Store Emitter Builder.
Import Format Node Store Emitter Builder.

Local Open Scope Z_scope.

Module Write.

Definition LOCAL_WRITE_CACHE_LIMIT : nat := 8.

(** ** Mutations *)
Abbreviation NormalizedMutation := (bytes * option bytes)%type.

Definition mutation_parts (m : Mutation) : NormalizedMutation :=
  match m with Upsert key val => (key, Some val) | Delete key => (key, None) end.

(** [windows(2).all(|pair| pair[0].key() <= pair[1].key())] *)
Fixpoint keys_ordered (ms : list Mutation) : bool :=
  match ms with
  | m1 :: (m2 :: _) as rest => bleb (Mutation_key m1) (Mutation_key m2) && keys_ordered rest
  | _ => true
  end.

Definition normalize (ms : list Mutation) : list NormalizedMutation :=
  if keys_ordered ms then dedup_loop (mutation_parts <$> ms) []
  else dedup_loop (sort_entries (mutation_parts <$> ms)) [].

(** ** Statistics *)
Record WriteStats := {
  ws_input_mutations : Z;
  ws_effective_mutations : Z;
  ws_entries_streamed : Z;
  ws_nodes_read : Z;
  ws_nodes_written : Z;
  ws_nodes_reused : Z;
  ws_bytes_read : Z;
  ws_bytes_written : Z;
  ws_resync_distance_entries : Z;
  ws_resync_distance_nodes : Z;
  ws_used_key_stable_fast_path : bool;
  ws_used_batched_value_update_path : bool;
  ws_parallel_width : Z;
  ws_parallel_tasks : Z;
  ws_structural_islands : Z;
  ws_coalesced_islands : Z;
}.
Definition WriteStats_default : WriteStats := {|
  ws_input_mutations := 0; ws_effective_mutations := 0; ws_entries_streamed := 0; ws_nodes_read := 0;
  ws_nodes_written := 0; ws_nodes_reused := 0; ws_bytes_read := 0; ws_bytes_written := 0;
  ws_resync_distance_entries := 0; ws_resync_distance_nodes := 0; ws_used_key_stable_fast_path := false;
  ws_used_batched_value_update_path := false; ws_parallel_width := 0; ws_parallel_tasks := 0;
  ws_structural_islands := 0; ws_coalesced_islands := 0 |}.

Definition add64 (a b : Z) : Z := wrap 64 (a + b).

Definition streamed (n : Z) (s : WriteStats) : WriteStats := {|
  ws_input_mutations := ws_input_mutations s; ws_effective_mutations := ws_effective_mutations s;
  ws_entries_streamed := add64 (ws_entries_streamed s) n; ws_nodes_read := ws_nodes_read s;
  ws_nodes_written := ws_nodes_written s; ws_nodes_reused := ws_nodes_reused s;
  ws_bytes_read := ws_bytes_read s; ws_bytes_written := ws_bytes_written s;
  ws_resync_distance_entries := ws_resync_distance_entries s;
  ws_resync_distance_nodes := ws_resync_distance_nodes s;
  ws_used_key_stable_fast_path := ws_used_key_stable_fast_path s;
  ws_used_batched_value_update_path := ws_used_batched_value_update_path s;
  ws_parallel_width := ws_parallel_width s; ws_parallel_tasks := ws_parallel_tasks s;
  ws_structural_islands := ws_structural_islands s; ws_coalesced_islands := ws_coalesced_islands s |}.
Definition reused (n : Z) (s : WriteStats) : WriteStats := {|
  ws_input_mutations := ws_input_mutations s; ws_effective_mutations := ws_effective_mutations s;
  ws_entries_streamed := ws_entries_streamed s; ws_nodes_read := ws_nodes_read s;
  ws_nodes_written := ws_nodes_written s; ws_nodes_reused := add64 (ws_nodes_reused s) n;
  ws_bytes_read := ws_bytes_read s; ws_bytes_written := ws_bytes_written s;
  ws_resync_distance_entries := ws_resync_distance_entries s;
  ws_resync_distance_nodes := ws_resync_distance_nodes s;
  ws_used_key_stable_fast_path := ws_used_key_stable_fast_path s;
  ws_used_batched_value_update_path := ws_used_batched_value_update_path s;
  ws_parallel_width := ws_parallel_width s; ws_parallel_tasks := ws_parallel_tasks s;
  ws_structural_islands := ws_structural_islands s; ws_coalesced_islands := ws_coalesced_islands s |}.
Definition read_nodes (nodes nbytes : Z) (s : WriteStats) : WriteStats := {|
  ws_input_mutations := ws_input_mutations s; ws_effective_mutations := ws_effective_mutations s;
  ws_entries_streamed := ws_entries_streamed s; ws_nodes_read := add64 (ws_nodes_read s) nodes;
  ws_nodes_written := ws_nodes_written s; ws_nodes_reused := ws_nodes_reused s;
  ws_bytes_read := add64 (ws_bytes_read s) nbytes; ws_bytes_written := ws_bytes_written s;
  ws_resync_distance_entries := ws_resync_distance_entries s;
  ws_resync_distance_nodes := ws_resync_distance_nodes s;
  ws_used_key_stable_fast_path := ws_used_key_stable_fast_path s;
  ws_used_batched_value_update_path := ws_used_batched_value_update_path s;
  ws_parallel_width := ws_parallel_width s; ws_parallel_tasks := ws_parallel_tasks s;
  ws_structural_islands := ws_structural_islands s; ws_coalesced_islands := ws_coalesced_islands s |}.
Definition wrote_nodes (nodes nbytes : Z) (s : WriteStats) : WriteStats := {|
  ws_input_mutations := ws_input_mutations s; ws_effective_mutations := ws_effective_mutations s;
  ws_entries_streamed := ws_entries_streamed s; ws_nodes_read := ws_nodes_read s;
  ws_nodes_written := add64 (ws_nodes_written s) nodes; ws_nodes_reused := ws_nodes_reused s;
  ws_bytes_read := ws_bytes_read s; ws_bytes_written := add64 (ws_bytes_written s) nbytes;
  ws_resync_distance_entries := ws_resync_distance_entries s;
  ws_resync_distance_nodes := ws_resync_distance_nodes s;
  ws_used_key_stable_fast_path := ws_used_key_stable_fast_path s;
  ws_used_batched_value_update_path := ws_used_batched_value_update_path s;
  ws_parallel_width := ws_parallel_width s; ws_parallel_tasks := ws_parallel_tasks s;
  ws_structural_islands := ws_structural_islands s; ws_coalesced_islands := ws_coalesced_islands s |}.
Definition resynced (entries nodes : Z) (s : WriteStats) : WriteStats := {|
  ws_input_mutations := ws_input_mutations s; ws_effective_mutations := ws_effective_mutations s;
  ws_entries_streamed := ws_entries_streamed s; ws_nodes_read := ws_nodes_read s;
  ws_nodes_written := ws_nodes_written s; ws_nodes_reused := ws_nodes_reused s;
  ws_bytes_read := ws_bytes_read s; ws_bytes_written := ws_bytes_written s;
  ws_resync_distance_entries := entries; ws_resync_distance_nodes := nodes;
  ws_used_key_stable_fast_path := ws_used_key_stable_fast_path s;
  ws_used_batched_value_update_path := ws_used_batched_value_update_path s;
  ws_parallel_width := ws_parallel_width s; ws_parallel_tasks := ws_parallel_tasks s;
  ws_structural_islands := ws_structural_islands s; ws_coalesced_islands := ws_coalesced_islands s |}.

(** A tree that was built from nothing counts as one node. *)
Definition first_node (nbytes : Z) (s : WriteStats) : WriteStats := {|
  ws_input_mutations := ws_input_mutations s; ws_effective_mutations := ws_effective_mutations s;
  ws_entries_streamed := ws_entries_streamed s; ws_nodes_read := ws_nodes_read s;
  ws_nodes_written := 1; ws_nodes_reused := ws_nodes_reused s;
  ws_bytes_read := ws_bytes_read s; ws_bytes_written := nbytes;
  ws_resync_distance_entries := ws_resync_distance_entries s; ws_resync_distance_nodes := 1;
  ws_used_key_stable_fast_path := ws_used_key_stable_fast_path s;
  ws_used_batched_value_update_path := ws_used_batched_value_update_path s;
  ws_parallel_width := ws_parallel_width s; ws_parallel_tasks := ws_parallel_tasks s;
  ws_structural_islands := ws_structural_islands s; ws_coalesced_islands := ws_coalesced_islands s |}.

(** ** The leaf emitter *)
Record EmittedLeaf := { el_summary : NodeSummary; el_bytes : bytes; el_node : Node }.
Record EmittedInternal := { ei_cid : Cid; ei_bytes : bytes; ei_node : Node }.

Record LeafEmitter := { lem_emitter : LevelEmitter; lem_emitted : list EmittedLeaf }.

Definition emitted_leaf (e : EmittedNode) : EmittedLeaf :=
  {| el_summary := em_summary e; el_bytes := em_bytes e; el_node := em_node e |}.

Section hashes.
Context `{Hashes}.

Definition LeafEmitter_new (config : Config.Config) : outcome Error LeafEmitter :=
  emitter ← LevelEmitter_new config true 0;
  Ok {| lem_emitter := emitter; lem_emitted := [] |}.

Definition leaf_push (self : LeafEmitter) (key value : bytes) : outcome Error LeafEmitter :=
  '(emitted, emitter) ← le_push_leaf (lem_emitter self) key value;
  Ok {| lem_emitter := emitter; lem_emitted := lem_emitted self ++ (emitted_leaf <$> emitted) |}.

Definition leaf_flush (self : LeafEmitter) : outcome Error LeafEmitter :=
  '(emitted, emitter) ← le_finish (lem_emitter self);
  Ok {| lem_emitter := emitter;
        lem_emitted := match emitted with
                       | Some e => lem_emitted self ++ [emitted_leaf e]
                       | None => lem_emitted self
                       end |}.

Definition is_aligned_with (self : LeafEmitter) (old : NodeSummary) : bool :=
  le_is_empty (lem_emitter self) &&
  match list.last (lem_emitted self) with
  | Some leaf => bool_decide (sm_cid (el_summary leaf) = sm_cid old)
  | None => false
  end.

(** ** Merging mutations into the entries of a leaf *)
(** The mutations that are left, the emitter and the number of entries pushed. *)
Record Stream := { sr_pending : list NormalizedMutation; sr_emitter : LeafEmitter; sr_count : Z }.

Definition stream_push (rest : list NormalizedMutation) (s : Stream) (key : bytes) (value : option bytes)
    : outcome Error Stream :=
  match value with
  | Some v =>
      emitter ← leaf_push (sr_emitter s) key v;
      Ok {| sr_pending := rest; sr_emitter := emitter; sr_count := sr_count s + 1 |}
  | None => Ok {| sr_pending := rest; sr_emitter := sr_emitter s; sr_count := sr_count s |}
  end.

(** The loops over the mutations whose key satisfies the condition. *)
Fixpoint push_while (p : bytes → bool) (pending : list NormalizedMutation) (s : Stream) : outcome Error Stream :=
  match pending with
  | (key, value) :: rest =>
      if p key then s ← stream_push rest s key value; push_while p rest s else Ok s
  | [] => Ok s
  end.
Definition push_mutations (p : bytes → bool) (s : Stream) : outcome Error Stream := push_while p (sr_pending s) s.

Definition stream_entry (s : Stream) (entry : bytes * bytes) : outcome Error Stream :=
  s ← push_mutations (λ k, bltb k entry.1) s;
  match sr_pending s with
  | (key, value) :: rest =>
      if bool_decide (key = entry.1) then stream_push rest s entry.1 value
      else stream_push (sr_pending s) s entry.1 (Some entry.2)
  | [] => stream_push (sr_pending s) s entry.1 (Some entry.2)
  end.

Definition before_next (next : option NodeSummary) (key : bytes) : bool :=
  match next with Some leaf => bltb key (sm_first_key leaf) | None => true end.

Definition stream_leaf (leaf : Node) (next : option NodeSummary) (s : Stream) : outcome Error Stream :=
  s ← foldM stream_entry s (zip (keys leaf) (vals leaf));
  push_mutations (before_next next) s.

End hashes.

(** ** Write managers *)
(** [write_store], through which builders publish, and the operations of the trait.
    The hooks for batched value updates are left to the manager. *)
Class WriteManager (W : Type) {St : Type} `{Store St} := {
  write_store : W → St;
  with_write_store : W → St → W;
  write_config : W → Config.Config;
  write_load_arc : Cid → action W Node;
  write_load_many_ordered : list Cid → action W (list Node);
  write_cache_node : Cid → Node → action W ();
  write_record_batch_metrics : Z → Z → action W ();
}.

(** The state of a write: the manager and the statistics. *)
Abbreviation write W A := (action (W * WriteStats) A).

Definition on_manager {W A} (m : action W A) : write W A := λ s,
  let '(r, w) := m s.1 in (r, (w, s.2)).
Definition tally {W} (g : WriteStats → WriteStats) : write W () := λ s, (Ok tt, (s.1, g s.2)).

Definition Node_encoded_len (n : Node) : outcome Error Z :=
  match try_encoded_len n with
  | Ok v => Ok v
  | _ => Panic "node uses a registered, valid persisted format"
  end.

Section manager.
Context `{Hashes} {W St : Type} `{Store St} `{!WriteManager W}.

(** [manager.write_store().batch_put(..)] *)
Definition store_writes (writes : list (bytes * bytes)) : action W () := λ w,
  match store_batch_put (write_store w) writes with
  | Ok store => (Ok tt, with_write_store w store)
  | Err x => (Err x, w)
  | Panic msg => (Panic msg, w)
  end.

(** A node read by a write, and its statistics. *)
Definition load_counted (measure_read_bytes : bool) (cid : Cid) : write W Node :=
  on_manager (write_load_arc cid) ≫= λ node : Node,
  run (if measure_read_bytes then Node_encoded_len node else Ok 0) ≫= λ nbytes : Z,
  tally (read_nodes 1 nbytes) ≫= λ _,
  mret node.

Definition child_cid (value : bytes) : outcome Error Cid :=
  if bool_decide (length value = 32%nat) then Ok value else Err InvalidNode.

(** ** The old leaves *)
(** Summaries of the leaves in order, and the internal nodes. *)
Abbreviation leaves_found := (list NodeSummary * list Cid)%type.

Fixpoint collect_children (measure : bool) (node : Node) (index : nat) (values : list bytes)
    (leaves : list NodeSummary) : write W (list NodeSummary) :=
  match values with
  | [] => mret leaves
  | value :: values' =>
      run (child_cid value) ≫= λ child : Cid,
      let stored := default 0 (child_counts node !! index) in
      (if stored =? 0 then
         load_counted measure child ≫= λ leaf : Node, mret (len (keys leaf))
       else mret stored) ≫= λ count : Z,
      run (expect "index out of bounds" (keys node !! index)) ≫= λ first : bytes,
      collect_children measure node (S index) values'
        (leaves ++ [{| sm_cid := child; sm_first_key := first; sm_count := count |}])
  end.

Fixpoint visit_all (visit : Cid → leaves_found → write W leaves_found) (values : list bytes)
    (found : leaves_found) : write W leaves_found :=
  match values with
  | [] => mret found
  | value :: values' =>
      run (child_cid value) ≫= λ child : Cid,
      visit child found ≫= λ found : leaves_found,
      visit_all visit values' found
  end.

Fixpoint collect_from_node (fuel : nat) (measure : bool) (expected_format : TreeFormat) (cid : Cid)
    (found : leaves_found) : write W leaves_found :=
  match fuel with
  | O => run (Panic "unreachable")
  | S fuel' =>
      load_counted measure cid ≫= λ node : Node,
      if negb (bool_decide (format node = expected_format)) then
        run (expected ← digest expected_format; actual ← digest (format node);
             Err (FormatMismatch expected actual))
      else if leaf node then
        mret (found.1 ++ [{| sm_cid := cid; sm_first_key := default [] (head (keys node));
                             sm_count := len (keys node) |}], found.2)
      else if negb (length (keys node) =? length (vals node))%nat then run (Err InvalidNode)
      else if level node =? 1 then
        collect_children measure node 0 (vals node) found.1 ≫= λ leaves : list NodeSummary,
        mret (leaves, found.2 ++ [cid])
      else visit_all (collect_from_node fuel' measure expected_format) (vals node) (found.1, found.2 ++ [cid])
  end.

Definition collect_fuel : nat := 256.

Definition collect_leaf_summaries (tree : Tree) (measure : bool) : write W leaves_found :=
  match t_root tree with
  | None => mret ([], [])
  | Some root => collect_from_node collect_fuel measure (Config.format (t_config tree)) root ([], [])
  end.

(** ** Replay of the old leaves *)
(** The leaves from the current one on; the index of the leaf where the emitter is
    aligned with the old tree again. *)
Fixpoint replay_leaves (measure : bool) (leaves : list NodeSummary) (index first_pending : nat) (s : Stream)
    : write W (Stream * option nat) :=
  match leaves with
  | [] => mret (s, None)
  | old :: rest =>
      load_counted measure (sm_cid old) ≫= λ leaf : Node,
      if negb (Node.leaf leaf) || negb (length (keys leaf) =? length (vals leaf))%nat
      then run (Err InvalidNode)
      else
        run (stream_leaf leaf (head rest) s) ≫= λ s : Stream,
        tally (λ st, resynced (ws_resync_distance_entries st) (add64 (ws_resync_distance_nodes st) 1) st) ≫= λ _,
        if (length (sr_pending s) <? first_pending)%nat && is_aligned_with (sr_emitter s) old
        then mret (s, Some index)
        else replay_leaves measure rest (S index) first_pending s
  end.

(** Where the replay for a mutation starts: two leaves before the first one above
    its key, but never before the leaves that were already replayed. *)
Definition replay_start (old_leaves : list NodeSummary) (old_cursor : nat) (key : bytes) : nat :=
  Nat.max (partition_point (λ leaf, bleb (sm_first_key leaf) key) old_leaves - 2) old_cursor.

(** One pass: the leaves emitted, where the pass resynchronised, and the mutations
    that are left. *)
Definition replay_pass (config : Config.Config) (measure : bool) (old_leaves : list NodeSummary) (start : nat)
    (pending : list NormalizedMutation) : write W (list EmittedLeaf * option nat * list NormalizedMutation) :=
  run (LeafEmitter_new config) ≫= λ emitter : LeafEmitter,
  replay_leaves measure (drop start old_leaves) start (length pending)
    {| sr_pending := pending; sr_emitter := emitter; sr_count := 0 |} ≫= λ r : Stream * option nat,
  run (match r.2 with
       | None => push_mutations (λ _, true) r.1
       | Some _ => Ok r.1
       end) ≫= λ s : Stream,
  run (leaf_flush (sr_emitter s)) ≫= λ emitter : LeafEmitter,
  tally (streamed (sr_count s)) ≫= λ _,
  mret (lem_emitted emitter, r.2, sr_pending s).

Fixpoint replay_mutations (fuel : nat) (config : Config.Config) (measure : bool) (old_leaves : list NodeSummary)
    (old_cursor : nat) (pending : list NormalizedMutation) (summaries : list NodeSummary)
    (emitted : list EmittedLeaf) : write W (list NodeSummary * list EmittedLeaf) :=
  match fuel with
  | O => run (Panic "unreachable")
  | S fuel' =>
      let finish old_cursor summaries emitted :=
        tally (reused (Z.of_nat (length old_leaves - old_cursor))) ≫= λ _,
        mret (summaries ++ drop old_cursor old_leaves, emitted) in
      match pending with
      | [] => finish old_cursor summaries emitted
      | (key, _) :: _ =>
          let start := replay_start old_leaves old_cursor key in
          let summaries := summaries ++ take (start - old_cursor) (drop old_cursor old_leaves) in
          tally (reused (Z.of_nat (start - old_cursor))) ≫= λ _,
          replay_pass config measure old_leaves start pending
            ≫= λ r : list EmittedLeaf * option nat * list NormalizedMutation,
          let '(leaves, resynced_at, pending) := r in
          let summaries := summaries ++ (el_summary <$> leaves) in
          let emitted := emitted ++ leaves in
          match resynced_at with
          | Some index => replay_mutations fuel' config measure old_leaves (S index) pending summaries emitted
          | None => finish (length old_leaves) summaries emitted
          end
      end
  end.

(** ** Fixed separators *)
(** The paths to the changed leaves are rewritten, their keys stay as they are. *)
Definition child_index (ks : list bytes) (change : NodeSummary) : nat :=
  partition_point (λ key, bleb key (sm_first_key change)) ks - 1.

(** How many of the changes belong to the child of the given index. *)
Fixpoint group_len (ks : list bytes) (index : nat) (changes : list NodeSummary) : nat :=
  match changes with
  | change :: rest => if (child_index ks change =? index)%nat then S (group_len ks index rest) else 0
  | [] => 0
  end.

Definition with_child (node : Node) (index : nat) (s : NodeSummary) : Node := {|
  keys := <[index := sm_first_key s]> (keys node); vals := <[index := sm_cid s]> (vals node);
  child_counts := <[index := sm_count s]> (child_counts node);
  leaf := leaf node; level := level node; format := format node |}.

Fixpoint rewrite_groups (fuel : nat)
    (rewrite : Cid → list NodeSummary → list EmittedInternal → action W (NodeSummary * list EmittedInternal))
    (node : Node) (changes : list NodeSummary) (pending : list EmittedInternal)
    : action W (Node * list EmittedInternal) :=
  match fuel, changes with
  | O, _ => run (Panic "unreachable")
  | S _, [] => mret (node, pending)
  | S fuel', change :: rest =>
      let index := child_index (keys node) change in
      let n := group_len (keys node) index rest in
      (if level node =? 1 then
         run (expect "index out of bounds" (keys node !! index)) ≫= λ key : bytes,
         if negb (n =? 0)%nat || negb (bool_decide (key = sm_first_key change))
         then run (Err InvalidNode) else mret (change, pending)
       else
         run (expect "index out of bounds" (vals node !! index)) ≫= λ value : bytes,
         run (child_cid value) ≫= λ child : Cid,
         rewrite child (change :: take n rest) pending)
        ≫= λ r : NodeSummary * list EmittedInternal,
      rewrite_groups fuel' rewrite (with_child node index r.1) (drop n rest) r.2
  end.

Fixpoint rewrite_internal_node (fuel : nat) (cid : Cid) (changes : list NodeSummary)
    (pending : list EmittedInternal) : action W (NodeSummary * list EmittedInternal) :=
  match fuel with
  | O => run (Panic "unreachable")
  | S fuel' =>
      write_load_arc cid ≫= λ node : Node,
      if leaf node || bool_decide (keys node = []) || negb (length (keys node) =? length (vals node))%nat
         || negb (length (child_counts node) =? length (keys node))%nat
      then run (Err InvalidNode)
      else
        rewrite_groups (S (length changes)) (rewrite_internal_node fuel') node changes pending
          ≫= λ r : Node * list EmittedInternal,
        let updated := r.1 in
        run (expect "index out of bounds" (keys updated !! 0%nat)) ≫= λ first_key : bytes,
        run (sum_u64 (child_counts updated) 0) ≫= λ count : Z,
        run (to_bytes updated) ≫= λ b : bytes,
        let new_cid := Cid_from_bytes b in
        mret ({| sm_cid := new_cid; sm_first_key := first_key; sm_count := count |},
              if bool_decide (new_cid = cid) then r.2
              else r.2 ++ [{| ei_cid := new_cid; ei_bytes := b; ei_node := updated |}])
  end.

Definition rewrite_fixed_separator_paths (tree : Tree) (changes : list NodeSummary)
    : action W (Tree * list EmittedInternal) :=
  match t_root tree with
  | None => run (Err InvalidNode)
  | Some root =>
      write_load_arc root ≫= λ root_node : Node,
      if leaf root_node then
        match changes with
        | replacement :: _ => mret ({| t_root := Some (sm_cid replacement); t_config := t_config tree |}, [])
        | [] => run (Err InvalidNode)
        end
      else
        rewrite_internal_node collect_fuel root changes [] ≫= λ r : NodeSummary * list EmittedInternal,
        mret ({| t_root := Some (sm_cid r.1); t_config := t_config tree |}, r.2)
  end.

(** ** Publication *)
(** The emitted leaves that the old tree does not have, each once. *)
Definition note_changed (old_cids : list Cid) (acc : list Cid * list EmittedLeaf) (leaf : EmittedLeaf)
    : list Cid * list EmittedLeaf :=
  let cid := sm_cid (el_summary leaf) in
  if bool_decide (cid ∈ old_cids) || bool_decide (cid ∈ acc.1) then acc else (cid :: acc.1, acc.2 ++ [leaf]).
Definition changed_leaves (old_cids : list Cid) (emitted : list EmittedLeaf) : list EmittedLeaf :=
  (foldl (note_changed old_cids) ([], []) emitted).2.

Definition has_fixed_separators (config : Config.Config) (summaries old_leaves : list NodeSummary) : bool :=
  bool_decide (measure (chunking (Config.format config)) = EntryCount)
  && bool_decide (input (chunking (Config.format config)) = Key)
  && match node_layout (Config.format config) with Custom _ _ => false | _ => true end
  && bool_decide (sm_first_key <$> summaries = sm_first_key <$> old_leaves).

Definition cache_all (nodes : list (Cid * Node)) : action W () :=
  foldr (λ n k, write_cache_node n.1 n.2 ≫= λ _, k) (mret tt) nodes.

Definition publish_changes (leaves : list EmittedLeaf) (internal : list EmittedInternal) : write W () :=
  let writes := ((λ l, (sm_cid (el_summary l), el_bytes l)) <$> leaves)
                ++ ((λ n, (ei_cid n, ei_bytes n)) <$> internal) in
  let nbytes := len (concat (snd <$> writes)) in
  on_manager (store_writes writes) ≫= λ _,
  on_manager (write_record_batch_metrics (len writes) nbytes) ≫= λ _,
  tally (wrote_nodes (len writes) nbytes) ≫= λ _,
  if (length writes <=? LOCAL_WRITE_CACHE_LIMIT)%nat then
    on_manager (cache_all (((λ l, (sm_cid (el_summary l), el_node l)) <$> leaves)
                           ++ ((λ n, (ei_cid n, ei_node n)) <$> internal)))
  else mret tt.

Definition emitted_internal (n : DeferredNode) : EmittedInternal :=
  {| ei_cid := dn_cid n; ei_bytes := dn_bytes n; ei_node := dn_node n |}.

(** What follows the replay: nothing when no leaf changed; otherwise the upper levels
    are rewritten or rebuilt and the new nodes are published. *)
Definition finish_write (tree : Tree) (old_leaves : list NodeSummary) (old_internal : list Cid)
    (summaries : list NodeSummary) (emitted : list EmittedLeaf) : write W Tree :=
  tally (λ s, resynced (ws_entries_streamed s) (ws_resync_distance_nodes s) s) ≫= λ _,
  let old_cids := sm_cid <$> old_leaves in
  if bool_decide (sm_cid <$> summaries = old_cids) then mret tree
  else
    let leaves := changed_leaves old_cids emitted in
    let is_new n := bool_decide (ei_cid n ∉ old_internal) in
    if has_fixed_separators (t_config tree) summaries old_leaves then
      on_manager (rewrite_fixed_separator_paths tree (el_summary <$> leaves))
        ≫= λ r : Tree * list EmittedInternal,
      publish_changes leaves (List.filter is_new r.2) ≫= λ _,
      mret r.1
    else
      run (build_from_chunks_serial_deferred (t_config tree) summaries) ≫= λ r : Tree * list DeferredNode,
      let internal := List.filter is_new (emitted_internal <$> r.2) in
      (if bool_decide (leaves = []) && bool_decide (internal = []) then mret tt
       else publish_changes leaves internal) ≫= λ _,
      match t_root r.1 with
      | Some root => on_manager (write_load_arc root) ≫= λ _ : Node, mret r.1
      | None => mret r.1
      end.

(** Builders that publish through the manager's store; what a builder has published
    before it fails is left out. *)
Definition on_store {X} (g : St → outcome Error (X * St)) : action W X := λ w,
  match g (write_store w) with
  | Ok (x, store) => (Ok x, with_write_store w store)
  | Err x => (Err x, w)
  | Panic msg => (Panic msg, w)
  end.

Definition build_empty_base (tree : Tree) (mutations : list NormalizedMutation) : write W Tree :=
  let entries := omap (λ m : NormalizedMutation, (λ v, (m.1, v)) <$> m.2) mutations in
  on_manager (on_store (λ store,
    writer ← SortedBatchBuilder_new store (t_config tree);
    writer ← foldM (λ w (e : bytes * bytes), sb_add w e.1 e.2) writer entries;
    sb_build writer)) ≫= λ tree : Tree,
  tally (streamed (len entries)) ≫= λ _,
  match t_root tree with
  | Some root =>
      on_manager (write_load_arc root) ≫= λ node : Node,
      run (Node_encoded_len node) ≫= λ nbytes : Z,
      on_manager (write_record_batch_metrics 1 nbytes) ≫= λ _,
      tally (first_node nbytes) ≫= λ _,
      mret tree
  | None => mret tree
  end.

(** The general path of a write, where the parallel islands decline: replay the leaves
    around the mutations one after the other and rebuild what is above them. *)
Definition apply_structural (tree : Tree) (mutations : list NormalizedMutation) (measure : bool) : write W Tree :=
  collect_leaf_summaries tree measure ≫= λ found : leaves_found,
  if bool_decide (found.1 = []) then build_empty_base tree mutations
  else
    replay_mutations (S (length mutations)) (t_config tree) measure found.1 0 mutations [] []
      ≫= λ r : list NodeSummary * list EmittedLeaf,
    finish_write tree found.1 found.2 r.1 r.2.

End manager.
End Write.
