(* ===== verification/Updates.v ===== *)
(** * Updated entries

    What a normalised batch of mutations makes of ordered entries: the merge of the
    two lists, which is the canonical list of the updated map, and how it splits at
    the boundary between two leaves. *)

From Stdlib Require Import ZArith Lia Strings.Byte.
From stdpp Require Import base tactics numbers list strings option gmap sorting.
From S2P Require Import Prelude Cursor Types Format Boundary Node Sizer Chunks Store Emitter Builder Entries TreeSpec Write.
Import Store Builder Entries TreeSpec Write.

Module Updates.

(** The map after a batch: a mutation decides on its key, the others keep their
    values. *)
Definition update_map (u : gmap bytes (option bytes)) (m : gmap bytes bytes) : gmap bytes bytes :=
  merge (λ o v, match o with Some w => w | None => v end) u m.

Lemma lookup_update u m k : update_map u m !! k = match u !! k with Some w => w | None => m !! k end.
Proof. unfold update_map. rewrite lookup_merge. by destruct (u !! k), (m !! k). Qed.

(** Applying mutations one by one. *)
Definition apply_mutation (m : gmap bytes bytes) (x : NormalizedMutation) : gmap bytes bytes :=
  match x.2 with Some v => <[x.1 := v]> m | None => delete x.1 m end.

Lemma apply_mutations ms m : foldl apply_mutation m ms = update_map (final_map ms) m.
Proof.
  induction ms as [|[k o] ms IH] using rev_ind; apply map_eq; intros k'.
  { rewrite lookup_update. change (final_map []) with (∅ : gmap bytes (option bytes)). by rewrite lookup_empty. }
  rewrite foldl_snoc, IH, lookup_update. unfold final_map, apply_mutation. rewrite put_all_snoc. cbn [fst snd].
  destruct (decide (k' = k)) as [->|Hne].
  - rewrite lookup_insert_eq. destruct o; [by rewrite lookup_insert_eq|by rewrite lookup_delete_eq].
  - rewrite lookup_insert_ne by done.
    destruct o; [rewrite lookup_insert_ne by done|rewrite lookup_delete_ne by done]; by rewrite lookup_update.
Qed.

(** ** Normalisation *)
Lemma keys_ordered_sorted ms : keys_ordered ms = true → sort_entries (mutation_parts <$> ms) = mutation_parts <$> ms.
Proof.
  assert (∀ m, (mutation_parts m).1 = Mutation_key m) as Hkey by (by intros []).
  induction ms as [|m1 ms IH]; intros Hs; [done|]. unfold sort_entries in *. cbn [fmap list_fmap foldr].
  destruct ms as [|m2 ms]; [done|]. apply andb_true_iff in Hs as [Hle Hs]. rewrite (IH Hs). cbn [fmap list_fmap].
  cbn [insert_sorted]. rewrite !Hkey. by rewrite (proj2 (bltb_ge _ _) (proj1 (bleb_le _ _) Hle)).
Qed.

Lemma normalize_eq ms : normalize ms = canonical_entries (mutation_parts <$> ms).
Proof.
  unfold normalize, canonical_entries. destruct (keys_ordered ms) eqn:Hs; [|done]. by rewrite keys_ordered_sorted.
Qed.

(** ** The merge *)
Definition upsert (x : NormalizedMutation) : list kv := match x.2 with Some v => [(x.1, v)] | None => [] end.
Definition upserts (ms : list NormalizedMutation) : list kv := ms ≫= upsert.

Fixpoint updated (es : list kv) : list NormalizedMutation → list kv :=
  match es with
  | [] => upserts
  | e :: es' =>
      fix go (ms : list NormalizedMutation) : list kv :=
        match ms with
        | [] => e :: es'
        | x :: ms' =>
            match bcmp x.1 e.1 with
            | Lt => upsert x ++ go ms'
            | Eq => upsert x ++ updated es' ms'
            | Gt => e :: updated es' ms
            end
        end
  end.

Lemma updated_nil es : updated es [] = es.
Proof. by destruct es. Qed.

Lemma updated_cons e es x ms :
  updated (e :: es) (x :: ms) =
    match bcmp x.1 e.1 with
    | Lt => upsert x ++ updated (e :: es) ms
    | Eq => upsert x ++ updated es ms
    | Gt => e :: updated es (x :: ms)
    end.
Proof. done. Qed.

(** Mutations below the first entry come first. *)
Lemma updated_below ms1 ms2 e es :
  Forall (λ x : NormalizedMutation, (x.1 < e.1)%key) ms1 →
  updated (e :: es) (ms1 ++ ms2) = upserts ms1 ++ updated (e :: es) ms2.
Proof.
  induction 1 as [|x ms1 Hx _ IH]; [done|]. cbn [app]. rewrite updated_cons. unfold blt in Hx. rewrite Hx, IH.
  unfold upserts. cbn [mbind list_bind]. by rewrite app_assoc.
Qed.

(** Mutations above an entry leave it first. *)
Lemma updated_above ms e es :
  Forall (λ x : NormalizedMutation, (e.1 < x.1)%key) ms → updated (e :: es) ms = e :: updated es ms.
Proof.
  intros Hms. destruct Hms as [|x ms Hx _]; [by rewrite !updated_nil|]. rewrite updated_cons.
  unfold blt in Hx. rewrite bcmp_antisym, Hx. done.
Qed.

(** The merge splits between two leaves. *)
Lemma updated_app es1 es2 ms1 ms2 :
  (∀ e x, e ∈ es2 → x ∈ ms1 → (x.1 < e.1)%key) → (∀ e x, e ∈ es1 → x ∈ ms2 → (e.1 < x.1)%key) →
  updated (es1 ++ es2) (ms1 ++ ms2) = updated es1 ms1 ++ updated es2 ms2.
Proof.
  intros H1 H2. revert ms1 H1; induction es1 as [|e es1 IH]; intros ms1 H1.
  - destruct es2 as [|e es2]; [cbn [app updated]; apply bind_app|]. cbn [app updated]. apply updated_below.
    apply Forall_forall. intros x Hx. apply H1; [apply list_elem_of_here|done].
  - assert (∀ e x, e ∈ es1 → x ∈ ms2 → (e.1 < x.1)%key) as H2' by (intros; apply H2; [by right|done]).
    specialize (IH H2'). cbn [app]. induction ms1 as [|x ms1 IHm].
    + cbn [app]. rewrite updated_nil, updated_above by (apply Forall_forall; intros x Hx; apply H2; [left|done]).
      cbn [app]. f_equal. change ms2 with ([] ++ ms2) at 1. rewrite IH; [by rewrite updated_nil|].
      intros ? x _ Hx. by apply not_elem_of_nil in Hx.
    + cbn [app]. rewrite !updated_cons.
      assert (∀ e x, e ∈ es2 → x ∈ ms1 → (x.1 < e.1)%key) as H1' by (intros; apply H1; [done|by right]).
      destruct (bcmp x.1 e.1).
      * rewrite IH by done. by rewrite app_assoc.
      * rewrite IHm by done. by rewrite app_assoc.
      * cbn [app]. f_equal. change (x :: ms1 ++ ms2) with ((x :: ms1) ++ ms2). by rewrite IH.
Qed.

(** ** The merge is the updated map *)
Lemma updated_after l rest ms :
  (∀ e x, e ∈ l → x ∈ ms → (e.1 < x.1)%key) → updated (l ++ rest) ms = l ++ updated rest ms.
Proof.
  intros Hl. rewrite <- (app_nil_l ms) at 1. rewrite updated_app; [by rewrite updated_nil|by intros ? ? _ ?%not_elem_of_nil|done].
Qed.

Lemma upsert_elem x k v : (k, v) ∈ upsert x ↔ (k, Some v) = x.
Proof.
  destruct x as [k' [v'|]]; unfold upsert; cbn [snd fst].
  - rewrite list_elem_of_singleton. split; by intros [= -> ->].
  - rewrite elem_of_nil. split; [done|]. by intros [=].
Qed.

Lemma upserts_elem ms k v : (k, v) ∈ upserts ms ↔ (k, Some v) ∈ ms.
Proof.
  unfold upserts. rewrite list_elem_of_bind. split.
  - intros (x & Hx & Hin). apply upsert_elem in Hx as <-. done.
  - intros Hin. exists (k, Some v). split; [by apply upsert_elem|done].
Qed.

Lemma updated_elem es ms k v :
  ascending es → ascending ms →
  (k, v) ∈ updated es ms ↔ ((k, Some v) ∈ ms ∨ ((k ∉ ms.*1) ∧ (k, v) ∈ es)).
Proof.
  assert (∀ {V} (e : bytes * V) l k, ascending (e :: l) → k ∈ l.*1 → (e.1 < k)%key) as Hhd.
  { intros V e l k'. unfold ascending. cbn [fmap list_fmap]. intros [_ Hall]%StronglySorted_inv.
    rewrite Forall_forall in Hall. apply Hall. }
  assert (∀ {V} (k : bytes) (v : V) (l : list (bytes * V)), (k, v) ∈ l → k ∈ l.*1) as Hfst.
  { intros V k' v' l Hin. apply list_elem_of_fmap. by exists (k', v'). }
  revert ms; induction es as [|e es IH]; intros ms Hes Hms.
  { cbn [updated]. rewrite upserts_elem, elem_of_nil. tauto. }
  induction ms as [|x ms IHm]; [rewrite updated_nil, !elem_of_nil; tauto|].
  rewrite updated_cons. pose proof Hes as [Hes' _]%StronglySorted_inv. pose proof Hms as [Hms' _]%StronglySorted_inv.
  rewrite !elem_of_cons. cbn [fmap list_fmap]. rewrite not_elem_of_cons. destruct (bcmp x.1 e.1) eqn:Hc.
  - apply bcmp_Eq in Hc. rewrite elem_of_app, upsert_elem, (IH ms Hes' Hms').
    assert ((k, v) = e → k = x.1) by (intros <-; done). split.
    + intros [?|[?|[Hk ?]]]; [by left; left|by left; right|].
      right. split; [split; [|done]|by right]. intros ->. match goal with Hin : (_, v) ∈ es |- _ => apply Hfst in Hin; rewrite Hc in Hin end.
      by apply (blt_irrefl e.1), (Hhd _ e es).
    + intros [[?|?]|[[? ?] [?|?]]]; [by left|by right; left|tauto|by right; right].
  - rewrite elem_of_app, upsert_elem, (IHm Hms'), elem_of_cons.
    assert ((k, v) = e → k ≠ x.1) by (intros <- ->; by apply (blt_irrefl x.1)).
    assert ((k, v) ∈ es → k ≠ x.1).
    { intros Hin ->. apply Hfst in Hin. apply (blt_irrefl x.1). eapply blt_trans; [exact Hc|]. by apply (Hhd _ e es). }
    tauto.
  - assert (e.1 < x.1)%key as Hlt by (unfold blt; by rewrite bcmp_antisym, Hc).
    rewrite elem_of_cons, (IH (x :: ms) Hes' Hms), elem_of_cons. cbn [fmap list_fmap]. rewrite not_elem_of_cons.
    assert ((k, v) = e → k ≠ x.1 ∧ k ∉ ms.*1).
    { intros <-. cbn [fst] in *. split; [by apply blt_neq|]. intros Hin. apply (blt_irrefl k).
      eapply blt_trans; [exact Hlt|]. by apply (Hhd _ x ms). }
    tauto.
Qed.

Lemma updated_keys es ms k : k ∈ (updated es ms).*1 → k ∈ es.*1 ∨ k ∈ ms.*1.
Proof.
  assert (∀ x k, k ∈ (upsert x).*1 → k = x.1) as Hup.
  { intros [k' [v|]] k''; cbn; [by rewrite list_elem_of_singleton|by rewrite elem_of_nil]. }
  revert ms; induction es as [|e es IH]; intros ms.
  { cbn [updated]. intros (? & -> & (x & Hin & Hx)%list_elem_of_bind)%list_elem_of_fmap. right.
    apply list_elem_of_fmap. exists x. split; [|done]. apply Hup. apply list_elem_of_fmap. by eexists. }
  induction ms as [|x ms IHm]; [rewrite updated_nil; tauto|].
  rewrite updated_cons. destruct (bcmp x.1 e.1); cbn [fmap list_fmap]; rewrite ?fmap_app, ?elem_of_app, !elem_of_cons.
  - intros [->%Hup|[|]%IH]; tauto.
  - intros [->%Hup|Hin]; [tauto|]. specialize (IHm Hin). cbn [fmap list_fmap] in IHm. rewrite elem_of_cons in IHm. tauto.
  - intros [->|Hin%IH]; [tauto|]. cbn [fmap list_fmap] in Hin. rewrite elem_of_cons in Hin. tauto.
Qed.

Lemma updated_ascending es ms : ascending es → ascending ms → ascending (updated es ms).
Proof.
  assert (∀ x l, (∀ k, k ∈ l.*1 → (x.1 < k)%key) → ascending l → ascending (upsert x ++ l)) as Hup.
  { intros [k [v|]] l Hl Hasc; [|done]. cbn. constructor; [done|]. apply Forall_forall. apply Hl. }
  unfold ascending in *. revert ms; induction es as [|e es IH]; intros ms Hes Hms.
  { cbn [updated]. unfold upserts. induction ms as [|x ms IHm]; [constructor|]. cbn [mbind list_bind].
    apply StronglySorted_inv in Hms as [Hms Hall]. apply Hup; [|by apply IHm]. intros k Hk.
    apply (updated_keys []) in Hk as [Hk|Hk]; [by apply not_elem_of_nil in Hk|]. by rewrite Forall_forall in Hall; apply Hall. }
  induction ms as [|x ms IHm]; [by rewrite updated_nil|]. rewrite updated_cons.
  pose proof Hes as [Hes' Halle]%StronglySorted_inv. pose proof Hms as [Hms' Hallm]%StronglySorted_inv.
  rewrite Forall_forall in Halle, Hallm. destruct (bcmp x.1 e.1) eqn:Hc.
  - apply bcmp_Eq in Hc. apply Hup; [|by apply IH]. intros k [Hk|Hk]%updated_keys; [|by apply Hallm].
    rewrite Hc. by apply Halle.
  - apply Hup; [|by apply IHm]. intros k [Hk|Hk]%updated_keys; [|by apply Hallm].
    cbn [fmap list_fmap] in Hk. apply elem_of_cons in Hk as [->|Hk]; [done|].
    eapply blt_trans; [exact Hc|]. by apply Halle.
  - assert (e.1 < x.1)%key as Hlt by (unfold blt; by rewrite bcmp_antisym, Hc).
    cbn [fmap list_fmap]. constructor; [by apply (IH (x :: ms))|]. apply Forall_forall.
    intros k [Hk|Hk]%updated_keys; [by apply Halle|]. cbn [fmap list_fmap] in Hk.
    apply elem_of_cons in Hk as [->|Hk]; [done|]. eapply blt_trans; [exact Hlt|]. by apply Hallm.
Qed.

Lemma updated_map es ms :
  ascending es → ascending ms → final_map (updated es ms) = update_map (final_map ms) (final_map es).
Proof.
  intros Hes Hms. apply map_eq. intros k. apply option_eq. intros v.
  rewrite (final_map_elem _ _ _ (updated_ascending _ _ Hes Hms)), (updated_elem _ _ _ _ Hes Hms), lookup_update.
  destruct (final_map ms !! k) as [w|] eqn:Hk.
  - pose proof Hk as Hin. apply (final_map_elem _ _ _ Hms) in Hin.
    assert (k ∈ ms.*1) by (apply list_elem_of_fmap; by exists (k, w)). split; [|intros ->; by left].
    intros [Hv|[? _]]; [|done]. apply (final_map_elem _ _ _ Hms) in Hv. rewrite Hk in Hv. by injection Hv.
  - rewrite <- !(final_map_elem _ _ _ Hes), <- (final_map_elem _ _ _ Hms), Hk. split; [by intros [|[_ ?]]|].
    intros Hv. right. split; [|done]. intros ([? w] & -> & Hin)%list_elem_of_fmap.
    apply (final_map_elem _ _ _ Hms) in Hin. cbn [fst] in Hk. congruence.
Qed.

End Updates.
