(* ===== verification/ReplaySpec.v ===== *)
(** * Replaying leaves rebuilds the level

    The leaf emitter computes the chunks of what is pushed into it; streaming the old
    leaves together with the mutations pushes the updated entries; and since a
    boundary where nothing is open separates the two sides, the leaves that are kept
    and the ones that are emitted are together the chunks of the updated entries. *)

From Stdlib Require Import ZArith Lia Strings.Byte.
From stdpp Require Import base tactics numbers list strings option gmap sorting.
From S2P Require Import Prelude Cursor Types Format Boundary Node Sizer Chunks ChunkSpec Store Emitter EmitterSpec Builder Entries BuilderSpec TreeSpec Write Updates.
Import Format Node ChunkSpec Store Emitter EmitterSpec Builder Entries BuilderSpec TreeSpec Write Updates.

Local Open Scope Z_scope.

Module ReplaySpec.

Abbreviation chunk_of := (fmap (M := list) leaf_entry).

(** ** Splitting mutations *)
Lemma span_list {A} (p : A → bool) l :
  ∃ a b, l = a ++ b ∧ Forall (λ x, p x = true) a ∧ (∀ x, head b = Some x → p x = false).
Proof.
  induction l as [|x l (a & b & -> & Ha & Hb)]; [exists [], []; by split_and!|].
  destruct (p x) eqn:Hx; [exists (x :: a), b; split_and!; [done|by constructor|done]|].
  exists [], (x :: a ++ b). split_and!; [done|done|]. by intros ? [= <-].
Qed.

Lemma last_two {A} (l : list A) : (2 ≤ length l)%nat → ∃ k x y, l = k ++ [x; y].
Proof.
  destruct l as [|y l _] using rev_ind; [cbn; lia|]. destruct l as [|x l _] using rev_ind; [cbn; lia|].
  intros _. exists l, x, y. by rewrite <- app_assoc.
Qed.

(** A condition on keys that holds of all keys below one of which it holds. *)
Definition downward (p : bytes → bool) : Prop := ∀ k k', (k < k')%key → p k' = true → p k = true.

Lemma split_mutations (p : bytes → bool) (ms : list NormalizedMutation) :
  ascending ms → downward p →
  ∃ a b, ms = a ++ b ∧ Forall (λ x : NormalizedMutation, p x.1 = true) a ∧
    Forall (λ x : NormalizedMutation, p x.1 = false) b.
Proof.
  intros Hms Hp. destruct (span_list (λ x : NormalizedMutation, p x.1) ms) as (a & b & -> & Ha & Hb).
  exists a, b. split_and!; [done|done|]. apply ascending_app in Hms as (_ & Hb' & _).
  destruct b as [|x b]; [constructor|]. specialize (Hb x eq_refl). constructor; [done|].
  unfold ascending in Hb'. cbn [fmap list_fmap] in Hb'. apply StronglySorted_inv in Hb' as [_ Hall].
  rewrite Forall_fmap in Hall. eapply Forall_impl; [exact Hall|].
  intros y Hy. destruct (p y.1) eqn:Hpy; [|done]. rewrite (Hp x.1 y.1) in Hb; done.
Qed.

Lemma downward_lt k : downward (λ k', bltb k' k).
Proof. intros a b Hab Hb. apply bltb_lt in Hb. apply bltb_lt. by eapply blt_trans. Qed.
Lemma downward_le k : downward (λ k', bleb k' k).
Proof. intros a b Hab Hb. apply bleb_le in Hb. apply bleb_le, blt_le. by eapply blt_le_trans. Qed.
Lemma downward_next next : downward (before_next next).
Proof. destruct next; [apply downward_lt|done]. Qed.

Section replay.
Context `{HashesOk} (config : Config.Config).

Abbreviation f := (Config.format config).
Hypothesis Hwf : TreeFormat_wf f.
Hypothesis Hvalid : validate f = Ok tt.
Hypothesis Hcodec : has_codec f.

(** ** Chunking in two steps *)
Fixpoint place_all (cur es : list node_entry) : outcome Error (list (list node_entry) * list node_entry) :=
  match es with
  | [] => Ok ([], cur)
  | e :: es' =>
      '(closed, cur) ← place f 0 cur e;
      '(rest, cur) ← place_all cur es';
      Ok (closed ++ rest, cur)
  end.

Lemma chunk_from_app cur a b :
  chunk_from f 0 cur (a ++ b)
    = ('(closed, cur') ← place_all cur a; (λ rest, closed ++ rest) <$> chunk_from f 0 cur' b).
Proof.
  revert cur; induction a as [|e a IH]; intros cur; cbn [app place_all chunk_from mbind outcome_bind].
  { by destruct (chunk_from f 0 cur b). }
  destruct (place f 0 cur e) as [[closed cur']| |]; [|done..]. cbn [mbind outcome_bind]. rewrite IH.
  destruct (place_all cur' a) as [[rest cur'']| |]; [|done..]. cbn [mbind outcome_bind].
  destruct (chunk_from f 0 cur'' b); [|done..]. cbn [fmap outcome_fmap mbind outcome_bind]. by rewrite app_assoc.
Qed.

Definition open_ok (cur : list node_entry) : Prop := cur = [] ∨ chunk_ok f 0 cur.

Lemma place_all_ok cur es closed cur' :
  place_all cur es = Ok (closed, cur') → open_ok cur → concat closed ++ cur' = cur ++ es ∧ open_ok cur'.
Proof.
  revert cur closed; induction es as [|e es IH]; intros cur closed Hp Hcur; cbn [place_all] in Hp.
  { injection Hp as <- <-. by rewrite app_nil_r. }
  destruct (place f 0 cur e) as [[c1 cur1]| |] eqn:H1; [|done..]. cbn [mbind outcome_bind] in Hp.
  destruct (place_all cur1 es) as [[c2 cur2]| |] eqn:H2; [|done..]. injection Hp as <- <-.
  destruct (place_ok _ _ _ _ _ _ H1 Hcur) as (Hcat & _ & Hcur1). destruct (IH _ _ H2 Hcur1) as [Hcat2 ?].
  split; [|done]. by rewrite concat_app, <- app_assoc, Hcat2, app_assoc, Hcat, <- app_assoc.
Qed.

(** Chunks before an entry stay when only what follows the entry changes. *)
Lemma chunk_keep a e b b' ca cb :
  level_chunks f 0 (a ++ e :: b) = Ok (ca ++ cb) → concat ca = a →
  level_chunks f 0 (a ++ e :: b') = (λ rest, ca ++ rest) <$> level_chunks f 0 (e :: b').
Proof.
  unfold level_chunks. intros Hold Hca. pose proof (chunk_from_ok _ _ _ _ _ Hold (or_introl eq_refl)) as [_ Hall].
  rewrite chunk_from_app in Hold. rewrite chunk_from_app.
  destruct (place_all [] a) as [[closed cur]| |] eqn:Hplace; [|done..]. cbn [mbind outcome_bind] in *.
  destruct (chunk_from f 0 cur (e :: b)) as [r| |] eqn:Hr; [|done..]. injection Hold as Heq.
  destruct (place_all_ok _ _ _ _ Hplace (or_introl eq_refl)) as [Hcat Hcur]. cbn [app] in Hcat.
  destruct (app_prefix_le closed r ca cb Heq) as (ca' & -> & ->).
  { eapply Forall_impl; [exact Hall|]. by intros c [? _]. }
  { apply (f_equal length) in Hcat. subst a. rewrite length_app in Hcat. lia. }
  rewrite concat_app, <- Hcat in Hca. apply app_inv_head in Hca.
  destruct (decide (cur = [])) as [->|Hne].
  - assert (ca' = []) as ->.
    { rewrite <- app_assoc in Hall. apply Forall_app in Hall as [_ [Hall _]%Forall_app].
      destruct ca' as [|[|] ?]; [done| |done]. by apply Forall_cons_1 in Hall as [[? _] _]. }
    by rewrite app_nil_r.
  - rewrite (chunk_from_cut _ _ _ _ _ (chunk_from_forced _ _ _ _ _ _ _ Hr Hca Hne)).
    destruct (chunk_from_restart _ _ _ _ _ _ Hr Hca Hcur) as [Hc _]. cbn [chunk_from] in Hc.
    rewrite bool_decide_eq_false_2 in Hc by done. injection Hc as <-.
    destruct (chunk_from f 0 [] (e :: b')); [|done..]. cbn [fmap outcome_fmap]. by rewrite <- app_assoc.
Qed.

(** ** The leaf emitter *)
Definition leaf_of (c : list node_entry) : EmittedLeaf := emitted_leaf (emitted_of f 0 c).

(** The emitter after the chunks [closed], with the chunk [cur] open. *)
Definition leaf_at (em : LeafEmitter) (closed : list (list node_entry)) (cur : list node_entry) : Prop :=
  emitter_at config 0 (lem_emitter em) cur ∧ lem_emitted em = leaf_of <$> closed.

Lemma LeafEmitter_new_at es :
  fits config 0 es → ∃ em, LeafEmitter_new config = Ok em ∧ leaf_at em [] [].
Proof.
  intros Hfit. pose proof (weight_nonneg es). pose proof (fits_room _ _ _ Hfit).
  destruct (LevelEmitter_new_at config 0 Hwf Hvalid Hcodec ltac:(done) ltac:(cbn in *; lia)) as (le & Hle & Hat).
  unfold LeafEmitter_new. change (0 =? 0) with true in Hle. rewrite Hle. cbn [mbind outcome_bind]. by eexists.
Qed.

Lemma leaf_push_at em closed cur e :
  leaf_at em closed cur → fits config 0 (cur ++ [leaf_entry e]) → open_ok cur →
  match place f 0 cur (leaf_entry e) with
  | Ok (c, cur') => ∃ em', leaf_push em e.1 e.2 = Ok em' ∧ leaf_at em' (closed ++ c) cur'
  | Err x => leaf_push em e.1 e.2 = Err x
  | Panic _ => False
  end.
Proof.
  intros [Hat Hem] Hfit Hcur.
  pose proof (push_entry_at config 0 Hvalid Hcodec ltac:(done) (lem_emitter em) cur (leaf_entry e) Hat Hfit Hcur) as Hpush.
  unfold leaf_push, le_push_leaf. rewrite (ba_leaf _ _ _ _ (proj1 Hat)). cbn [negb Z.eqb].
  cbn [leaf_entry fst snd Sizer.count_opt Z.eqb] in Hpush.
  destruct (place f 0 cur (leaf_entry e)) as [[c cur']|x|]; [|by rewrite Hpush|done].
  destruct Hpush as (le' & -> & Hle'). cbn [mbind outcome_bind]. eexists. split; [done|]. split; [done|].
  cbn [lem_emitted]. by rewrite Hem, fmap_app, <- (list_fmap_compose _ emitted_leaf).
Qed.

Lemma leaf_flush_at em closed cur :
  leaf_at em closed cur → fits config 0 cur → open_ok cur →
  ∃ em', leaf_flush em = Ok em' ∧ lem_emitted em' = leaf_of <$> (closed ++ if bool_decide (cur = []) then [] else [cur]).
Proof.
  intros [Hat Hem] Hfit Hcur. unfold leaf_flush.
  destruct (finish_at config 0 Hvalid Hcodec ltac:(done) (lem_emitter em) cur Hat Hfit Hcur) as (le' & ->).
  cbn [mbind outcome_bind]. eexists. split; [done|]. cbn [lem_emitted]. rewrite Hem.
  case_bool_decide; [by rewrite app_nil_r|]. by rewrite fmap_app.
Qed.

(** Several entries. *)
Definition push_list (em : LeafEmitter) (l : list kv) : outcome Error LeafEmitter :=
  foldM (λ em e, leaf_push em e.1 e.2) em l.

Lemma push_list_app em a b : push_list em (a ++ b) = (em ← push_list em a; push_list em b).
Proof.
  unfold push_list. revert em; induction a as [|e a IH]; intros em; [done|]. cbn [app foldM].
  destruct (leaf_push em e.1 e.2); [|done..]. cbn [mbind outcome_bind]. apply IH.
Qed.

Lemma push_list_at l em closed cur :
  leaf_at em closed cur → fits config 0 (cur ++ (leaf_entry <$> l)) → open_ok cur →
  match place_all cur (leaf_entry <$> l) with
  | Ok (c, cur') => ∃ em', push_list em l = Ok em' ∧ leaf_at em' (closed ++ c) cur'
  | Err x => push_list em l = Err x
  | Panic _ => False
  end.
Proof.
  unfold push_list. revert em closed cur; induction l as [|e l IH]; intros em closed cur Hat Hfit Hcur.
  { exists em. by rewrite app_nil_r. }
  cbn [fmap list_fmap place_all foldM] in *. rewrite cons_middle, app_assoc in Hfit.
  destruct (fits_app _ _ _ _ Hfit) as [Hfit1 _]. pose proof (leaf_push_at em closed cur e Hat Hfit1 Hcur) as Hpush.
  destruct (place f 0 cur (leaf_entry e)) as [[c cur']|x|] eqn:Hplace; [|by rewrite Hpush|done].
  destruct Hpush as (em' & -> & Hat'). cbn [mbind outcome_bind].
  destruct (place_ok _ _ _ _ _ _ Hplace Hcur) as (Hcat & _ & Hcur').
  rewrite <- Hcat, <- app_assoc in Hfit. apply fits_app in Hfit as [_ Hfit].
  specialize (IH em' (closed ++ c) cur' Hat' Hfit Hcur'). destruct (place_all cur' _) as [[c2 cur2]|x|]; [|done..].
  destruct IH as (em2 & -> & Hat2). exists em2. cbn [mbind outcome_bind]. by rewrite app_assoc.
Qed.

End replay.

(** ** Streaming pushes the updated entries *)
Section stream.
Context `{Hashes}.

Definition streamed_to (s : Stream) (rest : list NormalizedMutation) (l : list kv) : outcome Error Stream :=
  em ← push_list (sr_emitter s) l;
  Ok {| sr_pending := rest; sr_emitter := em; sr_count := sr_count s + len l |}.

Lemma streamed_nil s : streamed_to s (sr_pending s) [] = Ok s.
Proof. destruct s. unfold streamed_to. cbn. by rewrite Z.add_0_r. Qed.

Lemma streamed_app s r1 r2 a b : (s' ← streamed_to s r1 a; streamed_to s' r2 b) = streamed_to s r2 (a ++ b).
Proof.
  unfold streamed_to. rewrite push_list_app. destruct (push_list (sr_emitter s) a) as [em| |]; [|done..].
  cbn [mbind outcome_bind sr_emitter sr_count]. destruct (push_list em b); [|done..]. cbn [mbind outcome_bind].
  rewrite len_app. by rewrite Z.add_assoc.
Qed.

Lemma stream_push_eq rest s key value : stream_push rest s key value = streamed_to s rest (upsert (key, value)).
Proof.
  destruct value as [v|]; unfold stream_push, streamed_to, upsert; cbn [snd fst push_list foldM].
  - unfold push_list. cbn [foldM fst snd]. by destruct (leaf_push _ _ _).
  - cbn. by rewrite Z.add_0_r.
Qed.

Lemma push_mutations_eq p s a b :
  sr_pending s = a ++ b → Forall (λ x : NormalizedMutation, p x.1 = true) a →
  (∀ x, head b = Some x → p x.1 = false) → push_mutations p s = streamed_to s b (upserts a).
Proof.
  intros Hp Ha Hb. unfold push_mutations. revert s Hp; induction Ha as [|[k v] a Hx _ IH]; intros s Hp.
  { cbn [app] in Hp. subst b. cbn [upserts mbind list_bind]. rewrite streamed_nil.
    destruct (sr_pending s) as [|[k v] rest]; [done|]. specialize (Hb (k, v) eq_refl). cbn [fst] in Hb.
    cbn [push_while]. by rewrite Hb. }
  rewrite Hp. cbn [app push_while] in *. cbn [fst] in Hx. rewrite Hx, stream_push_eq.
  unfold upserts. cbn [mbind list_bind]. fold (upserts a). rewrite <- (streamed_app s (a ++ b) b).
  destruct (streamed_to s (a ++ b) (upsert (k, v))) as [s'| |] eqn:Hs; [|done..]. cbn [mbind outcome_bind].
  assert (sr_pending s' = a ++ b) as Hp'.
  { unfold streamed_to in Hs. destruct (push_list _ _); [|done..]. by injection Hs as <-. }
  specialize (IH s' Hp'). by rewrite Hp' in IH.
Qed.

Lemma streamed_pending s rest l s' : streamed_to s rest l = Ok s' → sr_pending s' = rest.
Proof. unfold streamed_to. destruct (push_list _ _); [|done..]. by intros [= <-]. Qed.

Lemma stream_entry_eq s e m1 m2 :
  sr_pending s = m1 ++ m2 → ascending m1 → Forall (λ x : NormalizedMutation, (x.1 ≤ e.1)%key) m1 →
  Forall (λ x : NormalizedMutation, (e.1 < x.1)%key) m2 →
  stream_entry s e = streamed_to s m2 (updated [e] m1).
Proof.
  intros Hp Hasc Hle Hgt. destruct (split_mutations (λ k, bltb k e.1) m1 Hasc (downward_lt _)) as (a & c & -> & Ha & Hc).
  assert (Forall (λ x : NormalizedMutation, x.1 = e.1) c) as Heq.
  { apply Forall_app in Hle as [_ Hle]. rewrite Forall_forall in *. intros x Hx.
    specialize (Hc x Hx). apply bltb_ge in Hc. specialize (Hle x Hx). apply ble_lt_eq in Hle as [Hlt|]; [|done].
    by apply ble_not_lt in Hc. }
  assert (c = [] ∨ ∃ v, c = [(e.1, v)]) as Hshape.
  { destruct c as [|[k v] c]; [by left|right]. apply Forall_cons_1 in Heq as [Hk Heq]. cbn [fst] in Hk. subst k.
    exists v. destruct c as [|y c]; [done|]. exfalso. apply Forall_cons_1 in Heq as [Hy _].
    apply ascending_app in Hasc as (_ & Hasc & _). apply (blt_irrefl e.1). rewrite <- Hy at 2.
    unfold ascending in Hasc. cbn [fmap list_fmap fst] in Hasc. apply StronglySorted_inv in Hasc as [_ Hall].
    by apply Forall_cons_1 in Hall as [? _]. }
  assert (Forall (λ x : NormalizedMutation, (x.1 < e.1)%key) a) as Hlt
    by (eapply Forall_impl; [exact Ha|]; intros x; apply bltb_lt).
  unfold stream_entry. rewrite <- app_assoc in Hp.
  rewrite (push_mutations_eq (λ k, bltb k e.1) s a (c ++ m2) Hp Ha).
  2:{ intros x Hx. apply bltb_ge. destruct c as [|y c]; cbn in Hx.
      - rewrite head_Some in Hx. destruct Hx as (l & ->). apply Forall_cons_1 in Hgt as [? _]. by apply blt_le.
      - injection Hx as <-. apply Forall_cons_1 in Heq as [-> _]. apply ble_refl. }
  rewrite (updated_below a c e [] Hlt). rewrite <- (streamed_app s (c ++ m2) m2).
  destruct (streamed_to s (c ++ m2) (upserts a)) as [s'| |] eqn:Hs; [|done..]. cbn [mbind outcome_bind].
  rewrite (streamed_pending _ _ _ _ Hs). destruct Hshape as [->|(v & ->)]; cbn [app].
  - rewrite updated_nil. destruct m2 as [|[k v] m2]; [by rewrite stream_push_eq; destruct e|].
    apply Forall_cons_1 in Hgt as [Hk _]. cbn [fst] in Hk.
    rewrite bool_decide_eq_false_2 by (intros ->; by apply (blt_irrefl e.1)). rewrite stream_push_eq. by destruct e.
  - rewrite bool_decide_eq_true_2 by done. rewrite stream_push_eq, updated_cons. cbn [fst].
    rewrite bcmp_refl. cbn [updated]. unfold upserts. cbn [mbind list_bind]. by rewrite app_nil_r.
Qed.

Lemma stream_entries_eq es s a b :
  sr_pending s = a ++ b → ascending a → ascending es →
  Forall (λ x : NormalizedMutation, ∃ e, e ∈ es ∧ (x.1 ≤ e.1)%key) a →
  Forall (λ x : NormalizedMutation, ∀ e, e ∈ es → (e.1 < x.1)%key) b →
  foldM stream_entry s es = streamed_to s b (updated es a).
Proof.
  revert s a; induction es as [|e es IH]; intros s a Hp Ha Hes Hle Hgt.
  { destruct Hle as [|x a (e & He & _) _]; [|by apply not_elem_of_nil in He]. cbn [app] in Hp. subst b.
    by rewrite updated_nil, streamed_nil. }
  pose proof Hes as Hes0. unfold ascending in Hes. cbn [fmap list_fmap] in Hes.
  apply StronglySorted_inv in Hes as [Hes Hall]. rewrite Forall_fmap, Forall_forall in Hall.
  destruct (split_mutations (λ k, bleb k e.1) a Ha (downward_le _)) as (a1 & a2 & -> & Ha1 & Ha2).
  destruct (ascending_app _ _ Ha) as (Hasc1 & Hasc2 & _). apply Forall_app in Hle as [_ Hle].
  rewrite Forall_forall in Ha1, Ha2, Hle, Hgt.
  assert (∀ x, x ∈ a1 → (x.1 ≤ e.1)%key) as Hle1 by (intros x Hx; by apply bleb_le, Ha1).
  assert (∀ x, x ∈ a2 → (e.1 < x.1)%key) as Hgt2 by (intros x Hx; by apply bleb_gt, Ha2).
  cbn [foldM]. rewrite <- app_assoc in Hp. rewrite (stream_entry_eq s e a1 (a2 ++ b) Hp Hasc1).
  2:{ by apply Forall_forall. }
  2:{ apply Forall_forall. intros x [Hx|Hx]%elem_of_app; [by apply Hgt2|]. apply Hgt; [done|left]. }
  change (e :: es) with ([e] ++ es). rewrite updated_app.
  2:{ intros e' x He' Hx. eapply ble_lt_trans; [by apply Hle1|by apply Hall]. }
  2:{ intros e' x ->%list_elem_of_singleton Hx. by apply Hgt2. }
  rewrite <- (streamed_app s (a2 ++ b) b).
  destruct (streamed_to s (a2 ++ b) (updated [e] a1)) as [s'| |] eqn:Hs; [|done..]. cbn [mbind outcome_bind].
  apply IH; [by eapply streamed_pending|done|done| |].
  - apply Forall_forall. intros x Hx. destruct (Hle x Hx) as (e' & [->|He']%elem_of_cons & Hle'); [|by exists e'].
    exfalso. apply (proj1 (ble_not_lt _ _) Hle'). by apply Hgt2.
  - apply Forall_forall. intros x Hx e' He'. apply Hgt; [done|by right].
Qed.

(** A leaf takes the mutations below the first key of the next leaf. *)
Lemma stream_leaf_eq leaf next s m1 m2 :
  sr_pending s = m1 ++ m2 → ascending m1 → ascending (zip (keys leaf) (vals leaf)) →
  Forall (λ x : NormalizedMutation, before_next next x.1 = true) m1 →
  Forall (λ x : NormalizedMutation, before_next next x.1 = false) m2 →
  Forall (λ e : kv, before_next next e.1 = true) (zip (keys leaf) (vals leaf)) →
  stream_leaf leaf next s = streamed_to s m2 (updated (zip (keys leaf) (vals leaf)) m1).
Proof.
  set (es := zip _ _). intros Hp Hasc Hes Hin Hout Hkeys.
  assert (downward (λ k, bool_decide (Exists (λ e : kv, bleb k e.1 = true) es))) as Hdown.
  { intros k k' Hlt Hk'. apply bool_decide_eq_true in Hk'. apply bool_decide_eq_true.
    eapply Exists_impl; [exact Hk'|]. intros e He. by eapply downward_le. }
  destruct (split_mutations _ m1 Hasc Hdown) as (a & a' & -> & Ha & Ha'). apply Forall_app in Hin as [Hin Hin'].
  destruct (ascending_app _ _ Hasc) as (Hasca & _ & _). rewrite <- app_assoc in Hp.
  assert (∀ x, x ∈ a' → ∀ e, e ∈ es → (e.1 < x.1)%key) as Habove.
  { rewrite Forall_forall in Ha'. intros x Hx e He. apply bleb_gt. specialize (Ha' x Hx).
    apply bool_decide_eq_false in Ha'. destruct (bleb x.1 e.1) eqn:Hb; [|done]. destruct Ha'. apply Exists_exists. by exists e. }
  assert (updated es (a ++ a') = updated es a ++ upserts a') as ->.
  { rewrite <- (app_nil_r es) at 1. rewrite updated_app; [done|by intros ? ? ?%not_elem_of_nil|].
    intros e x He Hx. by apply (Habove x). }
  unfold stream_leaf. fold es. rewrite (stream_entries_eq es s a (a' ++ m2) Hp Hasca Hes).
  - rewrite <- (streamed_app s (a' ++ m2) m2).
    destruct (streamed_to s (a' ++ m2) (updated es a)) as [s'| |] eqn:Hs; [|done..].
    cbn [mbind outcome_bind]. apply push_mutations_eq; [by eapply streamed_pending|done|].
    intros x (l & ->)%head_Some. by apply Forall_cons_1 in Hout as [? _].
  - eapply Forall_impl; [exact Ha|]. intros x Hx%bool_decide_eq_true%Exists_exists.
    destruct Hx as (e & He & Hle). exists e. split; [done|]. by apply bleb_le.
  - apply Forall_app. split; [by apply Forall_forall|]. apply Forall_forall. intros x Hx e He.
    pose proof (proj1 (Forall_forall _ _) Hout x Hx) as Hnx. pose proof (proj1 (Forall_forall _ _) Hkeys e He) as Hne. destruct next as [leaf'|]; [|done]. cbn [before_next] in *.
    apply bltb_lt in Hne. apply bltb_ge in Hnx. by eapply blt_le_trans.
Qed.

End stream.
End ReplaySpec.
