(* ===== verification/WriteSpec.v ===== *)
(** * Writes are canonical

    What a write manager promises, and the proofs that the canonical writer, on a
    store that holds the tree of a map, produces the tree of the updated map. *)

From Stdlib Require Import ZArith Lia Strings.Byte.
From stdpp Require Import base tactics numbers list strings option gmap sorting.
From S2P Require Import Prelude Cursor Types Format Boundary Node ReadNode Sizer Chunks ChunkSpec Store Emitter EmitterSpec Builder Entries BuilderSpec TreeSpec BuiltTree Write Updates ReplaySpec.
Import Format Node ReadNode ChunkSpec Store Emitter EmitterSpec Builder Entries BuilderSpec TreeSpec BuiltTree Write Updates ReplaySpec.

Local Open Scope Z_scope.

Module WriteSpec.

(** Writes of content under its own identifier that do not change what is stored. *)
Definition consistent (writes : list (bytes * bytes)) (st : gmap bytes bytes) : Prop :=
  (∀ k b b', (k, b) ∈ writes → (k, b') ∈ writes → b = b') ∧
  ∀ k b b', (k, b) ∈ writes → st !! k = Some b' → b = b'.

Lemma consistent_keep writes st k b : consistent writes st → st !! k = Some b → put_all writes st !! k = Some b.
Proof.
  intros [Huniq Hst] Hk. destruct (decide (k ∈ writes.*1)) as [Hin|Hout]; [|by rewrite put_all_miss].
  apply list_elem_of_fmap in Hin as ([k' b'] & -> & Hin). cbn [fst] in *. rewrite (Hst _ _ _ Hin Hk) in Hin.
  apply put_all_elem; [done|]. intros b0 Hb0. by eapply Huniq.
Qed.

Lemma consistent_sub writes st : consistent writes st → st ⊆ put_all writes st.
Proof. intros Hc. apply map_subseteq_spec. intros k b Hb. by apply consistent_keep. Qed.

Lemma stored_node_keep `{Hashes} writes st cid n : consistent writes st → stored_node st cid n → stored_node (put_all writes st) cid n.
Proof. intros Hc (b & Hb & ?). exists b. split; [by apply consistent_keep|done]. Qed.

(** A manager of format [f] whose store holds [st]: it loads the stored nodes, and
    accepts nodes of the store and consistent writes. *)
Class WriteManagerOk `{Hashes} (W : Type) {St : Type} `{Store St} `{!WriteManager W} := {
  manages : TreeFormat → gmap bytes bytes → W → Prop;
  manages_load f st w cid n :
    manages f st w → stored_node st cid n → format n = f →
    ∃ w', write_load_arc cid w = (Ok n, w') ∧ manages f st w';
  manages_load_many f st w cids ns :
    manages f st w → Forall2 (stored_node st) cids ns → Forall (λ n, format n = f) ns →
    ∃ w', write_load_many_ordered cids w = (Ok ns, w') ∧ manages f st w';
  manages_cache f st w cid n :
    manages f st w → stored_node st cid n → format n = f →
    ∃ w', write_cache_node cid n w = (Ok tt, w') ∧ manages f st w';
  manages_metrics f st w nodes nbytes :
    manages f st w → ∃ w', write_record_batch_metrics nodes nbytes w = (Ok tt, w') ∧ manages f st w';
  manages_writes f st w writes :
    manages f st w → consistent writes st →
    ∃ store, store_batch_put (write_store w) writes = Ok store ∧
      manages f (put_all writes st) (with_write_store w store);
}.

Lemma encoded_len_ok n b : to_bytes n = Ok b → ∃ z, Node_encoded_len n = Ok z.
Proof.
  unfold to_bytes, try_to_bytes, to_compact_bytes, Node_encoded_len, try_encoded_len, try_encoded_len_with_format.
  destruct (node_format_bytes (format n)) as [fb| |]; [|done..]. cbn [mbind outcome_bind].
  destruct (vec_with_capacity _ _); [|done..]. cbn [mbind outcome_bind].
  destruct (node_layout (format n)); [by eexists..| |done]. destruct (offsets_len _ _ _ _). by eexists.
Qed.

Section spec.
Context `{HashesOk} {W St : Type} `{Store St} `{!WriteManager W} `{!WriteManagerOk W}.
Context (config : Config.Config).

Abbreviation f := (Config.format config).
Hypothesis Hwf : TreeFormat_wf f.
Hypothesis Hvalid : validate f = Ok tt.
Hypothesis Hcodec : has_codec f.

Implicit Types (w : W) (stats : WriteStats).

Lemma load_counted_ok st measure cid n w stats :
  manages f st w → stored_node st cid n → format n = f →
  ∃ w' stats', load_counted measure cid (w, stats) = (Ok n, (w', stats')) ∧ manages f st w'.
Proof.
  intros Hw Hn Hf. destruct (manages_load f st w cid n Hw Hn Hf) as (w' & Hl & Hw').
  destruct Hn as (b & _ & _ & Hb & _). destruct (encoded_len_ok n b Hb) as (z & Hz).
  unfold load_counted. rewrite (action_bind_Ok _ _ _ n (w', stats)) by (unfold on_manager; cbn [fst snd]; by rewrite Hl).
  rewrite (action_bind_Ok (run _) _ _ (if measure then z else 0) (w', stats))
    by (unfold run; destruct measure; by rewrite ?Hz).
  eexists _, _. split; [done|done].
Qed.

(** ** One pass over the old leaves *)
Definition leaf_summary (es : list kv) : NodeSummary := summary f 0 (leaf_entry <$> es).

Lemma place_all_app cur a b :
  place_all config cur (a ++ b)
    = ('(c1, cur) ← place_all config cur a; '(c2, cur) ← place_all config cur b; Ok (c1 ++ c2, cur)).
Proof.
  revert cur; induction a as [|e a IH]; intros cur; cbn [app place_all mbind outcome_bind].
  { by destruct (place_all config cur b) as [[]| |]. }
  destruct (place f 0 cur e) as [[c cur1]| |]; [|done..]. cbn [mbind outcome_bind]. rewrite IH.
  destruct (place_all config cur1 a) as [[c1 cur2]| |]; [|done..]. cbn [mbind outcome_bind].
  destruct (place_all config cur2 b) as [[c2 cur3]| |]; [|done..]. cbn [mbind outcome_bind]. by rewrite app_assoc.
Qed.

Lemma leaf_zip es : zip (keys (node_of f 0 (leaf_entry <$> es))) (vals (node_of f 0 (leaf_entry <$> es))) = es.
Proof. cbn [node_of keys vals]. rewrite <- !list_fmap_compose. apply zip_fst_snd. Qed.

(** The result of replaying the leaves [ess] with the mutations [ms]: the leaves
    [e1] and the mutations [m1] are consumed. *)
Definition replayed (ess : list (list kv)) (ms : list NormalizedMutation) (index first : nat)
    (closed : list (list node_entry)) (cur : list node_entry) (s : Stream) (r : option nat) : Prop :=
  ∃ e1 e2 m1 m2 c cur', ess = e1 ++ e2 ∧ ms = m1 ++ m2 ∧ sr_pending s = m2 ∧
    updated (concat ess) ms = updated (concat e1) m1 ++ updated (concat e2) m2 ∧
    place_all config cur (leaf_entry <$> updated (concat e1) m1) = Ok (c, cur') ∧
    leaf_at config (sr_emitter s) (closed ++ c) cur' ∧
    (∀ x e, x ∈ m2 → e ∈ concat e1 → (e.1 < x.1)%key) ∧
    match r with
    | Some i => S i = (index + length e1)%nat ∧ cur' = [] ∧ (length m2 < first)%nat
    | None => e2 = []
    end.

Lemma aligned_empty em closed cur old : leaf_at config em closed cur → is_aligned_with em old = true → cur = [].
Proof.
  intros [Hat _] [Hempty _]%andb_true_iff. rewrite (le_is_empty_at config 0 _ _ (proj1 Hat)) in Hempty.
  by apply bool_decide_eq_true in Hempty.
Qed.

(** The old leaves are nodes of the store. *)
Definition leaves_stored (st : gmap bytes bytes) (ess : list (list kv)) : Prop :=
  Forall (λ es, es ≠ [] ∧ stored_node st (sm_cid (leaf_summary es)) (node_of f 0 (leaf_entry <$> es))) ess.

Lemma next_splits ess es :
  ascending (es ++ concat ess) → Forall (λ l : list kv, l ≠ []) ess →
  Forall (λ e : kv, before_next (head (leaf_summary <$> ess)) e.1 = true) es ∧
  ∀ k, before_next (head (leaf_summary <$> ess)) k = true → ∀ e, e ∈ concat ess → (k < e.1)%key.
Proof.
  intros Hasc Hne. destruct ess as [|[|[k v] l] ess]; [|by apply Forall_cons_1 in Hne as [? _]|].
  - split; [by apply Forall_true|]. by intros ? _ e ?%not_elem_of_nil.
  - destruct (ascending_app _ _ Hasc) as (_ & Hasc2 & Hlt). cbn [fmap list_fmap head before_next concat app] in *.
    cbn [leaf_summary summary sm_first_key fmap list_fmap head default id fst leaf_entry] in *. split.
    + apply Forall_forall. intros e He. apply bltb_lt, Hlt; [apply list_elem_of_fmap; by exists e|left].
    + intros k' Hk' e He. apply bltb_lt in Hk'. eapply blt_le_trans; [exact Hk'|].
      apply (ascending_head k v (l ++ concat ess)); [done|]. apply list_elem_of_fmap. by exists e.
Qed.

Lemma replayed_cons es ess m1 m2 index first closed cur c cur1 s r :
  (∀ x e, x ∈ m1 → e ∈ concat ess → (x.1 < e.1)%key) → (∀ x e, x ∈ m2 → e ∈ es → (e.1 < x.1)%key) →
  place_all config cur (leaf_entry <$> updated es m1) = Ok (c, cur1) →
  replayed ess m2 (S index) first (closed ++ c) cur1 s r →
  replayed (es :: ess) (m1 ++ m2) index first closed cur s r.
Proof.
  intros Hlow Hgt Hplace (e1 & e2 & n1 & n2 & c' & cur' & -> & -> & Hp & Hupd & Hpl & Hat & Hgt' & Hr).
  rewrite concat_app in Hlow. setoid_rewrite elem_of_app in Hlow. setoid_rewrite elem_of_app in Hgt.
  assert (updated (es ++ concat e1) (m1 ++ n1) = updated es m1 ++ updated (concat e1) n1) as Hsplit
    by (apply updated_app; intros; [apply Hlow; auto|apply Hgt; auto]).
  exists (es :: e1), e2, (m1 ++ n1), n2, (c ++ c'), cur'. cbn [concat app length]. rewrite Hsplit.
  split; [done|]. split; [by rewrite app_assoc|]. split; [done|]. split.
  { rewrite <- app_assoc, <- Hupd. apply updated_app; intros e x; rewrite ?concat_app, ?elem_of_app; intros; [by apply Hlow|by apply Hgt]. }
  split; [rewrite fmap_app, place_all_app, Hplace; cbn [mbind outcome_bind]; by rewrite Hpl|].
  split; [by rewrite app_assoc|]. split; [|destruct r; [|done]; by rewrite Nat.add_succ_r].
  intros x e Hx [He|He]%elem_of_app; [by apply Hgt; [right|]|by apply Hgt'].
Qed.

Lemma replay_leaves_ok st measure first ess ms index closed cur s w stats :
  manages f st w → leaves_stored st ess → ascending (concat ess) → ascending ms → sr_pending s = ms →
  leaf_at config (sr_emitter s) closed cur → open_ok config cur →
  fits config 0 (cur ++ (leaf_entry <$> updated (concat ess) ms)) →
  (∃ x, (replay_leaves measure (leaf_summary <$> ess) index first s (w, stats)).1 = Err x ∧
        place_all config cur (leaf_entry <$> updated (concat ess) ms) = Err x) ∨
  (∃ s' r w' stats', replay_leaves measure (leaf_summary <$> ess) index first s (w, stats) = (Ok (s', r), (w', stats')) ∧
     manages f st w' ∧ replayed ess ms index first closed cur s' r).
Proof.
  revert ms index closed cur s w stats; induction ess as [|es ess IH];
    intros ms index closed cur s w stats Hw Hst Hes Hms Hp Hat Hcur Hfit.
  { right. exists s, None, w, stats. split; [done|]. split; [done|].
    exists [], [], [], ms, [], cur. split_and!; try done; [by rewrite app_nil_r|]. by intros ? ? _ ?%not_elem_of_nil. }
  apply Forall_cons_1 in Hst as [[Hne Hn] Hst]. cbn [concat fmap list_fmap replay_leaves] in *.
  destruct (load_counted_ok st measure _ _ w stats Hw Hn eq_refl) as (w1 & stats1 & Hload & Hw1).
  rewrite (action_bind_Ok _ _ _ _ _ Hload). cbn [node_of leaf Z.eqb negb orb].
  assert (length (keys (node_of f 0 (leaf_entry <$> es))) = length (vals (node_of f 0 (leaf_entry <$> es)))) as ->
    by (cbn [node_of keys vals]; by rewrite !length_fmap).
  rewrite Nat.eqb_refl. cbn [negb].
  destruct (ascending_app _ _ Hes) as (Hasc1 & Hasc2 & Hlt).
  destruct (next_splits ess es Hes) as [Hin Habove]; [eapply Forall_impl; [exact Hst|]; by intros ? [? _]|].
  destruct (split_mutations _ ms Hms (downward_next (head (leaf_summary <$> ess)))) as (m1 & m2 & -> & Hm1 & Hm2).
  destruct (ascending_app _ _ Hms) as (Hms1 & Hms2 & _).
  assert (∀ x e, x ∈ m2 → e ∈ es → (e.1 < x.1)%key) as Hgt.
  { intros x e Hx He. rewrite Forall_forall in Hm2. specialize (Hm2 x Hx).
    pose proof (proj1 (Forall_forall _ _) Hin e He) as Hine. destruct (head (leaf_summary <$> ess)); [|done].
    cbn [before_next] in *. apply bltb_lt in Hine. apply bltb_ge in Hm2. by eapply blt_le_trans. }
  assert (∀ x e, x ∈ m1 → e ∈ concat ess → (x.1 < e.1)%key) as Hlow.
  { intros x e Hx He. rewrite Forall_forall in Hm1. apply (Habove x.1); [by apply Hm1|done]. }
  assert (updated (es ++ concat ess) (m1 ++ m2) = updated es m1 ++ updated (concat ess) m2) as Hsplit
    by (apply updated_app; intros; [by apply Hlow|by apply Hgt]).
  rewrite Hsplit, fmap_app in *. rewrite app_assoc in Hfit. destruct (fits_app _ _ _ _ Hfit) as [Hfit1 _].
  pose proof (stream_leaf_eq (node_of f 0 (leaf_entry <$> es)) (head (leaf_summary <$> ess)) s m1 m2 Hp Hms1) as Hstream.
  rewrite leaf_zip in Hstream. specialize (Hstream Hasc1 Hm1 Hm2 Hin).
  pose proof (push_list_at config Hvalid Hcodec (updated es m1) (sr_emitter s) closed cur Hat Hfit1 Hcur) as Hpush.
  unfold streamed_to in Hstream. rewrite place_all_app.
  destruct (place_all config cur (leaf_entry <$> updated es m1)) as [[c cur1]|x|] eqn:Hplace; [| |done].
  2:{ left. exists x. split; [|done]. rewrite Hpush in Hstream. cbn [mbind outcome_bind] in Hstream.
      rewrite (action_bind_Err (run _) _ (w1, stats1) x (w1, stats1)) by (unfold run; by rewrite Hstream). done. }
  destruct Hpush as (em & Hpush & Hat1). rewrite Hpush in Hstream. cbn [mbind outcome_bind] in Hstream.
  set (s1 := {| sr_pending := m2; sr_emitter := em; sr_count := _ |}) in Hstream.
  rewrite (action_bind_Ok (run _) _ (w1, stats1) s1 (w1, stats1)) by (unfold run; by rewrite Hstream).
  rewrite (action_bind_Ok (tally _) _ (w1, stats1) tt _ eq_refl). cbn [sr_pending sr_emitter fst snd mbind outcome_bind].
  destruct (place_all_ok _ _ _ _ _ Hplace Hcur) as [Hcat Hcur1].
  set (stats2 := resynced _ _ _). set (stop := (_ <? _)%nat && _). destruct stop eqn:Hstop.
  - apply andb_true_iff in Hstop as [Hlen%Nat.ltb_lt Hal]. right. eexists s1, (Some index), w1, _.
    split; [done|]. split; [done|]. pose proof (aligned_empty _ _ _ _ Hat1 Hal) as ->.
    exists [es], ess, m1, m2, c, []. cbn [concat]. rewrite app_nil_r.
    split_and!; try done. cbn. lia.
  - rewrite <- Hcat, <- app_assoc in Hfit. apply fits_app in Hfit as [_ Hfit].
    destruct (IH m2 (S index) (closed ++ c) cur1 s1 w1 stats2 Hw1 Hst Hasc2 Hms2 eq_refl Hat1 Hcur1 Hfit)
      as [(x & Hx & Hpx)|(s' & r & w' & stats' & Hr & Hw' & Hres)].
    + left. exists x. split; [done|]. by rewrite Hpx.
    + right. exists s', r, w', stats'. split; [done|]. split; [done|].
      by eapply replayed_cons.
Qed.

(** ** All passes *)
Lemma chunk_of_concat ess : chunk_of (concat ess) = concat (chunk_of <$> ess).
Proof. apply (concat_map leaf_entry). Qed.

(** The first keys of the leaves are sorted. *)
Lemma first_keys_split ess key :
  ascending (concat ess) → Forall (λ l : list kv, l ≠ []) ess →
  ∃ a b, ess = a ++ b ∧ Forall (λ l, bleb (sm_first_key (leaf_summary l)) key = true) a ∧
    Forall (λ l, bleb (sm_first_key (leaf_summary l)) key = false) b.
Proof.
  induction ess as [|es ess IH]; intros Hasc Hne; [exists [], []; by split_and!|].
  apply Forall_cons_1 in Hne as [Hes Hne]. destruct es as [|[k v] es]; [done|].
  cbn [concat] in Hasc. destruct (ascending_app _ _ Hasc) as (_ & Hasc2 & Hlt).
  destruct (bleb k key) eqn:Hk.
  - destruct IH as (a & b & -> & Ha & Hb); [done|done|]. exists (((k, v) :: es) :: a), b. split_and!; [done|by constructor|done].
  - exists [], (((k, v) :: es) :: ess). split_and!; [done|done|]. constructor; [done|].
    apply Forall_forall. intros l Hl. pose proof (proj1 (Forall_forall _ _) Hne l Hl) as Hlne.
    destruct l as [|[k' v'] l]; [done|]. apply bleb_gt. apply bleb_gt in Hk. eapply blt_trans; [exact Hk|].
    cbn [leaf_summary summary sm_first_key fmap list_fmap head default id fst leaf_entry].
    apply Hlt; [left|]. apply list_elem_of_fmap. exists (k', v'). split; [done|].
    apply list_elem_of_In, in_concat. exists ((k', v') :: l). split; [by apply list_elem_of_In|by left].
Qed.

(** The leaves before the start of a pass are chunks of the updated entries. *)
Lemma replay_start_ok e0 e1 key v ms :
  ascending (concat (e0 ++ e1)) → Forall (λ l : list kv, l ≠ []) (e0 ++ e1) → ascending ((key, v) :: ms) →
  level_chunks f 0 (chunk_of (concat (e0 ++ e1))) = Ok (chunk_of <$> e0 ++ e1) →
  ∃ k r, e1 = k ++ r ∧
    replay_start (leaf_summary <$> e0 ++ e1) (length e0) key = (length e0 + length k)%nat ∧
    updated (concat e1) ((key, v) :: ms) = concat k ++ updated (concat r) ((key, v) :: ms) ∧
    level_chunks f 0 (chunk_of (updated (concat e1) ((key, v) :: ms)))
      = (λ rest, (chunk_of <$> k) ++ rest) <$> level_chunks f 0 (chunk_of (updated (concat r) ((key, v) :: ms))).
Proof.
  intros Hasc Hne Hms Hold. destruct (first_keys_split _ key Hasc Hne) as (a & b & Hab & Ha & Hb).
  assert (replay_start (leaf_summary <$> e0 ++ e1) (length e0) key = Nat.max (length a - 2) (length e0)) as ->.
  { unfold replay_start. rewrite Hab, fmap_app, partition_point_app by (by apply Forall_fmap). by rewrite length_fmap. }
  destruct (decide (length a - 2 ≤ length e0)%nat) as [Hle|Hgt].
  { exists [], e1. split; [done|]. split; [cbn; lia|]. split; [done|]. cbn [fmap list_fmap app]. by destruct (level_chunks f 0 (chunk_of (updated _ _))). }
  apply Nat.nle_gt in Hgt. destruct (app_eq_inv _ _ _ _ Hab) as [(t & -> & ->)|(t & -> & ->)].
  { rewrite length_app in Hgt. lia. }
  rewrite length_app in Hgt. destruct (last_two t ltac:(lia)) as (k & x & y & ->).
  rewrite <- !app_assoc in *. cbn [app] in *. exists k, (x :: y :: b).
  split; [done|]. rewrite !length_app. cbn [length]. split; [lia|].
  apply Forall_app in Ha as [_ [_ [_ [Hy _]%Forall_cons_1]%Forall_cons_1]%Forall_app].
  rewrite !Forall_app, !Forall_cons in Hne. destruct Hne as (_ & _ & Hx & Hyne & _).
  destruct x as [|ex x]; [done|]. destruct y as [|[ky vy] y]; [done|]. apply bleb_le in Hy.
  rewrite concat_app in Hasc. destruct (ascending_app _ _ Hasc) as (_ & Hasc1 & _).
  rewrite concat_app in Hasc1. cbn [concat] in Hasc1. rewrite app_assoc in Hasc1.
  destruct (ascending_app _ _ Hasc1) as (_ & _ & Hlt).
  assert (∀ e z, e ∈ concat k ++ ex :: x → z ∈ (key, v) :: ms → (e.1 < z.1)%key) as Hbelow.
  { intros e z He Hz. eapply blt_le_trans; [apply (Hlt e.1 ky); [apply list_elem_of_fmap; by exists e|left]|].
    eapply ble_trans; [exact Hy|]. apply (ascending_head key v ms); [exact Hms|]. apply list_elem_of_fmap. by exists z. }
  set (M := (key, v) :: ms) in *. rewrite concat_app. cbn [concat].
  rewrite (updated_after (concat k)) by (intros; apply Hbelow; [by apply elem_of_app; left|done]).
  split; [done|].
  rewrite (updated_after (ex :: x)) by (intros; apply Hbelow; [by apply elem_of_app; right|done]).
  rewrite concat_app, fmap_app in Hold. rewrite (fmap_app chunk_of) in Hold.
  unfold level_chunks in Hold. apply chunk_from_split in Hold as [_ Hold]; [|by rewrite chunk_of_concat|by left].
  rewrite concat_app in Hold. cbn [concat] in Hold. rewrite (fmap_app chunk_of), (fmap_app leaf_entry) in Hold.
  rewrite (fmap_app leaf_entry). cbn [app fmap list_fmap] in *.
  eapply chunk_keep; [exact Hold|]. by rewrite chunk_of_concat.
Qed.

(** The leaves of the updated entries, kept or emitted. *)
Definition replay_result (st : gmap bytes bytes) (e1 : list (list kv)) (ms : list NormalizedMutation)
    (found : list NodeSummary) (emitted : list EmittedLeaf)
    (r : outcome Error (list NodeSummary * list EmittedLeaf) * (W * WriteStats)) : Prop :=
  let chunks := level_chunks f 0 (chunk_of (updated (concat e1) ms)) in
  (∃ x, r.1 = Err x ∧ chunks = Err x) ∨
  (∃ new cs w stats, r = (Ok (found ++ (summary f 0 <$> new), emitted ++ (leaf_of config <$> cs)), (w, stats)) ∧
     manages f st w ∧ chunks = Ok new ∧ cs `sublist_of` new ∧ ∀ c, c ∈ new → c ∈ cs ∨ c ∈ chunk_of <$> e1).

Lemma replay_result_app st k r ms found emitted cs0 e1 ms1 pre res :
  level_chunks f 0 (chunk_of (updated (concat e1) ms1))
    = (λ rest, pre ++ rest) <$> level_chunks f 0 (chunk_of (updated (concat r) ms)) →
  e1 = k ++ r → cs0 `sublist_of` pre → (∀ c, c ∈ pre → c ∈ cs0 ∨ c ∈ chunk_of <$> k) →
  replay_result st r ms (found ++ (summary f 0 <$> pre)) (emitted ++ (leaf_of config <$> cs0)) res →
  replay_result st e1 ms1 found emitted res.
Proof.
  intros Heq -> Hsub Hcover [(x & Hx & Hc)|(new & cs & w & stats & -> & Hw & Hc & Hcs & Hnew)]; rewrite Hc in Heq.
  - left. by exists x.
  - right. exists (pre ++ new), (cs0 ++ cs), w, stats. rewrite !fmap_app, !app_assoc.
    split; [done|]. split; [done|]. split; [done|]. split; [by apply sublist_app|].
    intros c [Hin|Hin]%elem_of_app; [destruct (Hcover c Hin)|destruct (Hnew c Hin)]; rewrite !elem_of_app; tauto.
Qed.

Lemma replay_rest_ok st measure first e0 e1 ms w stats :
  manages f st w → leaves_stored st e1 → ascending (concat e1) → ascending ms →
  fits config 0 (chunk_of (updated (concat e1) ms)) →
  ∃ emitter, LeafEmitter_new config = Ok emitter ∧
  let s := {| sr_pending := ms; sr_emitter := emitter; sr_count := 0 |} in
  let run := replay_leaves measure (leaf_summary <$> e1) e0 first s (w, stats) in
  (∃ x ws, run = (Err x, ws) ∧ level_chunks f 0 (chunk_of (updated (concat e1) ms)) = Err x) ∨
  ∃ s r w' stats', run = (Ok (s, r), (w', stats')) ∧ manages f st w' ∧ replayed e1 ms e0 first [] [] s r.
Proof.
  intros Hw Hst Hasc Hms Hfit. destruct (LeafEmitter_new_at config Hwf Hvalid Hcodec _ Hfit) as (em & Hem & Hat).
  exists em. split; [done|]. cbn zeta. set (s := {| sr_pending := ms |}).
  destruct (replay_leaves_ok st measure first e1 ms e0 [] [] s w stats Hw Hst Hasc Hms eq_refl Hat (or_introl eq_refl) Hfit)
    as [(x & Hx & Hp)|Hok]; [left|by right]. destruct (replay_leaves _ _ _ _ _ _) as [o ws]. cbn [fst] in Hx. subst o.
  exists x, ws. split; [done|].
  unfold level_chunks. rewrite <- (app_nil_r (chunk_of _)), chunk_from_app, Hp. done.
Qed.

(** The end of a pass that reached the end of the old leaves. *)
Lemma replay_tail_ok ms s closed cur :
  sr_pending s = ms → leaf_at config (sr_emitter s) closed cur → open_ok config cur →
  fits config 0 (cur ++ chunk_of (upserts ms)) →
  match chunk_from f 0 cur (chunk_of (upserts ms)) with
  | Ok new => ∃ s' em, push_mutations (λ _, true) s = Ok s' ∧ leaf_flush (sr_emitter s') = Ok em ∧
      lem_emitted em = leaf_of config <$> closed ++ new
  | Err x => push_mutations (λ _, true) s = Err x
  | Panic _ => False
  end.
Proof.
  intros Hp Hat Hcur Hfit. rewrite (push_mutations_eq (λ _, true) s ms []); [|by rewrite app_nil_r|by apply Forall_true|done].
  pose proof (push_list_at config Hvalid Hcodec (upserts ms) (sr_emitter s) closed cur Hat Hfit Hcur) as Hpush.
  rewrite <- (app_nil_r (chunk_of (upserts ms))), chunk_from_app. unfold streamed_to.
  destruct (place_all config cur (chunk_of (upserts ms))) as [[c cur']|x|] eqn:Hplace; [|by rewrite Hpush|done].
  destruct Hpush as (em & -> & Hat'). cbn [mbind outcome_bind sr_emitter].
  destruct (place_all_ok _ _ _ _ _ Hplace Hcur) as [Hcat Hcur']. rewrite <- Hcat in Hfit. apply fits_app in Hfit as [_ Hfit].
  destruct (leaf_flush_at config Hvalid Hcodec em (closed ++ c) cur' Hat' Hfit Hcur') as (em' & Hflush & Hem).
  cbn [mbind outcome_bind chunk_from]. rewrite <- app_assoc in Hem. by case_bool_decide; eexists _, em'.
Qed.

(** One pass from the leaves [r] on: everything is emitted, or the pass stops after
    the leaves [e1] with nothing open. *)
Definition pass_result (st : gmap bytes bytes) (start : nat) (r : list (list kv)) (ms : list NormalizedMutation)
    (res : outcome Error (list EmittedLeaf * option nat * list NormalizedMutation) * (W * WriteStats)) : Prop :=
  let chunks ess ms := level_chunks f 0 (chunk_of (updated (concat ess) ms)) in
  (∃ x ws, res = (Err x, ws) ∧ chunks r ms = Err x) ∨
  (∃ c m2 w stats, res = (Ok (leaf_of config <$> c, None, m2), (w, stats)) ∧ manages f st w ∧ chunks r ms = Ok c) ∨
  (∃ c i e1 e2 m2 w stats, res = (Ok (leaf_of config <$> c, Some i, m2), (w, stats)) ∧ manages f st w ∧
     r = e1 ++ e2 ∧ S i = (start + length e1)%nat ∧ chunks r ms = (λ rest, c ++ rest) <$> chunks e2 m2 ∧
     ascending m2 ∧ (length m2 < length ms)%nat ∧ fits config 0 (chunk_of (updated (concat e2) m2))).

Lemma replay_pass_ok st measure e0 r ms w stats :
  manages f st w → leaves_stored st r → ascending (concat r) → ascending ms →
  fits config 0 (chunk_of (updated (concat r) ms)) →
  pass_result st (length e0) r ms
    (replay_pass config measure (leaf_summary <$> e0 ++ r) (length e0) ms (w, stats)).
Proof.
  intros Hw Hst Hasc Hms Hfit. unfold replay_pass.
  destruct (replay_rest_ok st measure (length ms) (length e0) r ms w stats Hw Hst Hasc Hms Hfit)
    as (em & Hem & [(x & ws & Hx & Hc)|(s & at_leaf & w' & stats' & Hpass & Hw' & Hrep)]);
    rewrite (action_bind_Ok (run _) _ _ em (w, stats)) by (unfold run; by rewrite Hem);
    rewrite fmap_app, drop_app_length' by (by rewrite length_fmap).
  { left. exists x, ws. split; [|done]. by rewrite (action_bind_Err _ _ _ _ _ Hx). }
  rewrite (action_bind_Ok _ _ _ _ _ Hpass). cbn [fst snd].
  destruct Hrep as (e1 & e2 & m1 & m2 & c & cur & -> & -> & Hp & Hupd & Hplace & Hat & Hgt & Hr).
  rewrite Hupd, fmap_app in Hfit. pose proof (place_all_ok _ _ _ _ _ Hplace (or_introl eq_refl)) as [Hcat Hcur].
  cbn [app] in Hcat, Hat. destruct (ascending_app _ _ Hms) as (_ & Hms2 & _).
  assert (level_chunks f 0 (chunk_of (updated (concat (e1 ++ e2)) (m1 ++ m2)))
    = (λ rest, c ++ rest) <$> chunk_from f 0 cur (chunk_of (updated (concat e2) m2))) as Hnew
    by (unfold level_chunks; by rewrite Hupd, fmap_app, chunk_from_app, Hplace).
  destruct at_leaf as [i|].
  - right; right. destruct Hr as (Hi & -> & Hlen). rewrite (action_bind_Ok (run _) _ _ s _ eq_refl).
    destruct (leaf_flush_at config Hvalid Hcodec (sr_emitter s) c [] Hat) as (em' & Hflush & Hem');
      [by apply (fits_app config 0 [] _) in Hfit as [? _]|by left|].
    rewrite (action_bind_Ok (run _) _ _ em' (w', stats')) by (unfold run; by rewrite Hflush).
    rewrite (action_bind_Ok (tally _) _ _ tt _ eq_refl). rewrite bool_decide_eq_true_2, app_nil_r in Hem' by done.
    rewrite Hem', Hp. exists c, i, e1, e2, m2, w'. eexists. split; [done|].
    apply fits_app in Hfit as [_ Hfit]. by split_and!.
  - subst e2. cbn [concat updated] in Hnew, Hfit. rewrite <- Hcat, <- app_assoc in Hfit. apply fits_app in Hfit as [_ Hfit].
    pose proof (replay_tail_ok m2 s c cur Hp Hat Hcur Hfit) as Htail.
    destruct (chunk_from f 0 cur (chunk_of (upserts m2))) as [new|x|]; [| |done].
    2:{ left. exists x, (w', stats'). split; [|done]. cbv match.
        by rewrite (action_bind_Err (run _) _ _ x (w', stats')) by (unfold run; by rewrite Htail). }
    right; left. destruct Htail as (s' & em' & Hpush & Hflush & Hem'). cbv match.
    rewrite (action_bind_Ok (run _) _ _ s' (w', stats')) by (unfold run; by rewrite Hpush).
    rewrite (action_bind_Ok (run _) _ _ em' (w', stats')) by (unfold run; by rewrite Hflush).
    rewrite !(action_bind_Ok (tally _) _ _ tt _ eq_refl), Hem'.
    by eexists (c ++ new), _, w', _.
Qed.

Lemma replay_mutations_ok st measure fuel e0 e1 ms found emitted w stats :
  manages f st w → leaves_stored st (e0 ++ e1) → ascending (concat (e0 ++ e1)) → ascending ms → (length ms < fuel)%nat →
  level_chunks f 0 (chunk_of (concat (e0 ++ e1))) = Ok (chunk_of <$> e0 ++ e1) →
  fits config 0 (chunk_of (updated (concat e1) ms)) →
  replay_result st e1 ms found emitted
    (replay_mutations fuel config measure (leaf_summary <$> e0 ++ e1) (length e0) ms found emitted (w, stats)).
Proof.
  revert e0 e1 ms found emitted w stats; induction fuel as [|fuel IH];
    intros e0 e1 ms found emitted w stats Hw Hst Hasc Hms Hfuel Hold Hfit; [lia|]. cbn [replay_mutations].
  destruct ms as [|[key v] ms].
  { rewrite concat_app, fmap_app, (fmap_app chunk_of) in Hold.
    apply chunk_from_split in Hold as [_ Hold]; [|by rewrite chunk_of_concat|by left].
    rewrite (action_bind_Ok (tally _) _ _ tt _ eq_refl). right. exists (chunk_of <$> e1), [], w.
    rewrite fmap_app, drop_app_length' by (by rewrite length_fmap). rewrite updated_nil, app_nil_r.
    rewrite <- list_fmap_compose. eexists. split; [done|]. split; [done|]. split; [done|].
    split; [apply sublist_nil_l|by right]. }
  destruct (replay_start_ok e0 e1 key v ms) as (k & r & -> & -> & Hupd & Hchunks);
    [done|eapply Forall_impl; [exact Hst|]; by intros ? [? _]|done|done|].
  set (M := (key, v) :: ms) in *. rewrite (app_assoc e0) in *. set (old := leaf_summary <$> (e0 ++ k) ++ r).
  assert (take (length e0 + length k - length e0) (drop (length e0) old) = leaf_summary <$> k) as ->.
  { unfold old. rewrite <- app_assoc, fmap_app, drop_app_length' by (by rewrite length_fmap).
    by rewrite fmap_app, take_app_length' by (rewrite length_fmap; lia). }
  rewrite (action_bind_Ok (tally _) _ (w, stats) tt (w, reused (Z.of_nat (length e0 + length k - length e0)) stats) eq_refl).
  apply (replay_result_app st k r M found emitted [] _ M (chunk_of <$> k));
    [done|done|apply sublist_nil_l|by right|]. rewrite <- list_fmap_compose.
  change (leaf_of config <$> []) with (@nil EmittedLeaf). rewrite (app_nil_r emitted), <- length_app.
  change (summary f 0 ∘ chunk_of <$> k) with (leaf_summary <$> k).
  rewrite Hupd, fmap_app in Hfit. apply fits_app in Hfit as [_ Hfit].
  pose proof Hst as [_ Hstr]%Forall_app. pose proof Hasc as Hasc'. rewrite concat_app in Hasc'.
  destruct (ascending_app _ _ Hasc') as (_ & Hascr & _).
  destruct (replay_pass_ok st measure (e0 ++ k) r M w (reused (Z.of_nat (length (e0 ++ k) - length e0)) stats) Hw Hstr Hascr Hms Hfit)
    as [(x & ws & Hx & Hc)|[(c & m2 & w' & stats' & Hp & Hw' & Hc)
       |(c & i & e1 & e2 & m2 & w' & stats' & Hp & Hw' & -> & Hi & Hc & Hms2 & Hlen & Hfit2)]].
  - left. exists x. split; [|done]. by rewrite (action_bind_Err _ _ _ _ _ Hx).
  - right. rewrite (action_bind_Ok _ _ _ _ _ Hp). rewrite (action_bind_Ok (tally _) _ _ tt _ eq_refl).
    exists c, c, w'. eexists. rewrite drop_all, app_nil_r, <- list_fmap_compose.
    split; [done|]. split; [done|]. split; [done|]. split; [done|by left].
  - rewrite (action_bind_Ok _ _ _ _ _ Hp), Hi. apply (replay_result_app st e1 e2 m2 _ _ c _ M c); [done|done|done|by left|].
    rewrite <- (list_fmap_compose (leaf_of config) el_summary c).
    change (el_summary ∘ leaf_of config <$> c) with (summary f 0 <$> c). unfold old. rewrite <- length_app.
    rewrite (app_assoc (e0 ++ k)) in *. apply IH; [done..|cbn [length] in *; lia|done|done].
Qed.

End spec.
End WriteSpec.
