(* ===== verification/RebuildSpec.v ===== *)
(** * Rebuilding above the leaves

    The canonical tree of a map in a store; the collection of its leaves and internal
    nodes; and the last part of a write, which builds the levels above the new leaves
    and publishes what is new.  Together with the replay of the leaves: a write
    turns the canonical tree of a map into the canonical tree of the updated map. *)

From Stdlib Require Import ZArith Lia Strings.Byte.
From stdpp Require Import base tactics numbers list strings option gmap sorting.
From S2P Require Import Prelude Cursor Types Format Boundary Node ReadNode Sizer Chunks ChunkSpec Store Emitter EmitterSpec Builder Entries BuilderSpec TreeSpec BuiltTree Write Updates ReplaySpec WriteSpec.
Import Format Node ReadNode ChunkSpec Store Emitter EmitterSpec Builder Entries BuilderSpec TreeSpec BuiltTree Write Updates ReplaySpec WriteSpec.

Local Open Scope Z_scope.

Module RebuildSpec.

Section canonical.
Context `{HashesOk} (config : Config.Config).

Abbreviation f := (Config.format config).
Hypothesis Hwf : TreeFormat_wf f.
Hypothesis Hvalid : validate f = Ok tt.
Hypothesis Hcodec : has_codec f.

(** ** The nodes of a specified tree *)
Record node_good (n : Z * list node_entry) : Prop := {
  ng_level : 0 ≤ n.1 ≤ u8_max;
  ng_fits : fits config n.1 n.2;
  ng_some : n.2 ≠ [];
  ng_sorted : StronglySorted blt (ekey <$> n.2);
}.

Lemma chunks_sorted lv chunks :
  StronglySorted blt (ekey <$> concat chunks) → Forall (λ c : list node_entry, c ≠ []) chunks →
  Forall (λ c, StronglySorted blt (ekey <$> c)) chunks ∧
  StronglySorted blt (sm_first_key <$> (summary f lv <$> chunks)).
Proof.
  intros Hs Hne. induction Hne as [|c chunks Hc Hne IH]; [split; constructor|].
  cbn [concat] in Hs. rewrite fmap_app in Hs.
  destruct (IH (StronglySorted_app_1_r _ _ _ Hs)) as [Hall Hfirst]. split; constructor; try done.
  { by eapply StronglySorted_app_1_l. }
  apply Forall_forall. intros k (s & -> & (c' & -> & Hc')%list_elem_of_fmap)%list_elem_of_fmap.
  pose proof (proj1 (Forall_forall _ _) Hne c' Hc') as Hc'ne.
  destruct c as [|e c]; [done|]. destruct c' as [|e' c']; [done|].
  change (e.1.1 < e'.1.1)%key. eapply StronglySorted_app_1_elem_of; [exact Hs|apply list_elem_of_here|].
  apply list_elem_of_fmap. exists e'. split; [done|]. apply list_elem_of_In, in_concat.
  exists (e' :: c'). split; [by apply list_elem_of_In|by left].
Qed.

Lemma tower_good fuel lv ss top above :
  0 ≤ lv ≤ u8_max → sums_ok config ss → StronglySorted blt (sm_first_key <$> ss) →
  tower f fuel lv ss = Ok (top, above) → Forall node_good above.
Proof.
  revert lv ss above; induction fuel as [|fuel IH]; intros lv ss above Hlv Hsums Hs Htower; [done|].
  cbn [tower] in Htower. destruct (Nat.ltb_spec 1 (length ss)) as [_|]; [|by injection Htower as <- <-].
  destruct (Z.ltb_spec u8_max (lv + 1)) as [|Hle]; [done|].
  destruct (level_chunks f (lv + 1) (child_entry <$> ss)) as [chunks| |] eqn:Hc; [|done..]. cbn [mbind outcome_bind] in Htower.
  destruct (sums_next config (lv + 1) ss chunks ltac:(lia) Hsums Hc) as (Hcat & Hok & Hnext).
  destruct (tower f fuel (lv + 1) _) as [[top' above']| |] eqn:Hup; [|done..].
  cbn [mbind outcome_bind] in Htower. injection Htower as <- <-.
  assert (Forall (λ c : list node_entry, c ≠ []) chunks) as Hne by (eapply Forall_impl; [exact Hok|]; by intros ? [? _]).
  destruct (chunks_sorted (lv + 1) chunks) as [Hall Hfirst]; [rewrite Hcat, <- list_fmap_compose; exact Hs|done|].
  pose proof (sums_fit config Hcodec (lv + 1) ss ltac:(lia) Hsums) as Hfit.
  apply Forall_app. split; [|by apply (IH (lv + 1) (summary f (lv + 1) <$> chunks)); [lia|..]].
  apply Forall_fmap, Forall_forall. intros c Hin. rewrite Forall_forall in Hne, Hall.
  constructor; cbn [fst snd]; [lia| |by apply Hne|by apply Hall]. by eapply fits_chunk.
Qed.

Lemma spec_good es root nodes :
  entries_fit config es → ascending es → tree_spec f es = Ok (root, nodes) → Forall node_good nodes.
Proof.
  intros Hfit Hasc Hspec. unfold tree_spec in Hspec.
  destruct (level_chunks f 0 _) as [chunks| |] eqn:Hc; [|done..]. cbn [mbind outcome_bind] in Hspec.
  destruct (leaf_sums config es chunks Hfit Hc) as (Hcat & Hok & Hsums).
  destruct (tower f levels_fuel 0 _) as [[top above]| |] eqn:Hup; [|done..].
  cbn [mbind outcome_bind] in Hspec. injection Hspec as <- <-.
  assert (Forall (λ c : list node_entry, c ≠ []) chunks) as Hne by (eapply Forall_impl; [exact Hok|]; by intros ? [? _]).
  destruct (chunks_sorted 0 chunks) as [Hall Hfirst]; [rewrite Hcat, <- list_fmap_compose; exact Hasc|done|].
  apply Forall_app. split; [|by eapply tower_good].
  apply Forall_fmap, Forall_forall. intros c Hin. rewrite Forall_forall in Hne, Hall.
  constructor; cbn [fst snd]; [done| |by apply Hne|by apply Hall].
  eapply fits_chunk; [by apply entries_leaf_fit|done|done].
Qed.

(** ** Trees with their leaves *)
Section spans.
Context (st : gmap bytes bytes).

Definition node_stored (n : Z * list node_entry) : Prop :=
  stored_node st (sm_cid (summary f n.1 n.2)) (node_of f n.1 n.2).

(** The subtree of a summary, with its leaves in order and its internal nodes. *)
Fixpoint spans (h : nat) (s : NodeSummary) (leaves : list (list kv)) (inner : list (Z * list node_entry)) : Prop :=
  match h with
  | O => ∃ es, leaves = [es] ∧ inner = [] ∧ es ≠ [] ∧ s = leaf_summary config es ∧
           node_stored (0, leaf_entry <$> es)
  | S h' => ∃ ss parts, ss ≠ [] ∧ s = summary f (Z.of_nat h) (child_entry <$> ss) ∧
           node_stored (Z.of_nat h, child_entry <$> ss) ∧
           Forall2 (λ s part, spans h' s part.1 part.2) ss parts ∧
           leaves = concat (fst <$> parts) ∧ inner = (Z.of_nat h, child_entry <$> ss) :: concat (snd <$> parts)
  end.

Lemma level_spans lv ss parts chunks :
  0 ≤ lv → Forall2 (λ s part, spans (Z.to_nat lv) s part.1 part.2) ss parts →
  concat chunks = child_entry <$> ss → Forall (λ c, c ≠ []) chunks →
  Forall node_stored ((λ c, (lv + 1, c)) <$> chunks) →
  ∃ parts', Forall2 (λ s part, spans (Z.to_nat (lv + 1)) s part.1 part.2) (summary f (lv + 1) <$> chunks) parts' ∧
    concat (fst <$> parts') = concat (fst <$> parts) ∧
    (∀ n, n ∈ concat (snd <$> parts') → n ∈ concat (snd <$> parts) ∨ n ∈ (λ c, (lv + 1, c)) <$> chunks).
Proof.
  intros Hlv. replace (Z.to_nat (lv + 1)) with (S (Z.to_nat lv)) by lia.
  revert ss parts; induction chunks as [|c chunks IH]; intros ss parts Hsub Hcat Hne Hst.
  { destruct ss; [|done]. inversion Hsub; subst. exists []. split; [constructor|]. split; [done|]. by intros ? ?%not_elem_of_nil. }
  apply Forall_cons_1 in Hne as [Hc Hne]. cbn [fmap list_fmap] in Hst. apply Forall_cons_1 in Hst as [Hstc Hst].
  cbn [concat] in Hcat. symmetry in Hcat. apply fmap_app_inv in Hcat as (s1 & s2 & -> & Hcat2 & ->).
  apply Forall2_app_inv_l in Hsub as (p1 & p2 & Hp1 & Hp2 & ->).
  destruct (IH s2 p2 Hp2 Hcat2 Hne Hst) as (parts' & Hparts & Hleaves & Hinner).
  exists ((concat (fst <$> p1), (lv + 1, child_entry <$> s1) :: concat (snd <$> p1)) :: parts'). split; [|split].
  - constructor; [|done]. cbn [fst snd spans]. replace (Z.of_nat (S (Z.to_nat lv))) with (lv + 1) by lia.
    exists s1, p1. split; [by destruct s1|]. done.
  - cbn [fmap list_fmap concat fst]. by rewrite Hleaves, fmap_app, concat_app.
  - intros n. cbn [fmap list_fmap concat snd]. rewrite fmap_app, concat_app, !elem_of_app, elem_of_cons.
    intros [[->|Hn]|Hn]; [right; left|by left; left|]. destruct (Hinner n Hn); [by left; right|by right; right].
Qed.

Lemma tower_spans fuel lv ss parts top above :
  0 ≤ lv ≤ u8_max → sums_ok config ss → Forall2 (λ s part, spans (Z.to_nat lv) s part.1 part.2) ss parts →
  tower f fuel lv ss = Ok (top, above) → Forall node_stored above → ss ≠ [] →
  ∃ h s leaves inner, (h ≤ 255)%nat ∧ top = [s] ∧ spans h s leaves inner ∧ leaves = concat (fst <$> parts) ∧
    ∀ n, n ∈ inner → n ∈ concat (snd <$> parts) ∨ n ∈ above.
Proof.
  revert lv ss parts above; induction fuel as [|fuel IH]; intros lv ss parts above Hlv Hsums Hsub Htower Hst Hne;
    [done|]. cbn [tower] in Htower. unfold u8_max in Hlv. destruct (Nat.ltb_spec 1 (length ss)) as [_|Hone].
  - destruct (Z.ltb_spec u8_max (lv + 1)) as [|Hle]; [done|]. unfold u8_max in Hle.
    destruct (level_chunks f (lv + 1) (child_entry <$> ss)) as [chunks| |] eqn:Hc; [|done..].
    cbn [mbind outcome_bind] in Htower.
    destruct (sums_next config (lv + 1) ss chunks ltac:(unfold u8_max; lia) Hsums Hc) as (Hcat & Hok & Hnext).
    destruct (tower f fuel (lv + 1) _) as [[top' above']| |] eqn:Hup; [|done..].
    cbn [mbind outcome_bind] in Htower. injection Htower as <- <-. apply Forall_app in Hst as [Hst Hst'].
    destruct (level_spans lv ss parts chunks ltac:(lia) Hsub Hcat) as (parts' & Hsub' & Hleaves & Hinner); [|done|].
    { eapply Forall_impl; [exact Hok|]. by intros c [? _]. }
    destruct (IH (lv + 1) _ parts' above' ltac:(unfold u8_max; lia) Hnext Hsub' Hup Hst')
      as (h & s & leaves & inner & Hh & -> & Hspan & -> & Hin).
    { destruct chunks; [by destruct ss|done]. }
    exists h, s, (concat (fst <$> parts')), inner. split; [done|]. split; [done|]. split; [exact Hspan|]. split; [done|].
    intros n Hn. rewrite elem_of_app. destruct (Hin n Hn) as [Hn'|]; [|by right; right].
    destruct (Hinner n Hn'); [by left|by right; left].
  - injection Htower as <- <-. destruct Hsub as [|s part ss parts Hs Hsub]; [done|].
    destruct Hsub; [|cbn in Hone; lia]. exists (Z.to_nat lv), s, part.1, part.2. cbn. rewrite !app_nil_r.
    split; [lia|]. split; [done|]. split; [done|]. split; [done|]. by left.
Qed.

Lemma unmap_chunks chunks (es : list kv) :
  concat chunks = chunk_of es → ∃ ess, chunks = chunk_of <$> ess ∧ concat ess = es.
Proof.
  revert es; induction chunks as [|c chunks IH]; intros es Hcat.
  { exists []. by destruct es. }
  cbn [concat] in Hcat. symmetry in Hcat. apply fmap_app_inv in Hcat as (e1 & e2 & -> & Hcat & ->).
  destruct (IH e2 Hcat) as (ess & -> & <-). by exists (e1 :: ess).
Qed.

(** The tree that a store holds canonically. *)
Definition canonical (tree : Tree) (es : list kv) (nodes : list (Z * list node_entry)) : Prop :=
  t_config tree = config ∧ tree_spec f es = Ok (t_root tree, nodes) ∧ Forall node_stored nodes.

Lemma canonical_spans tree es nodes :
  entries_fit config es → es ≠ [] → canonical tree es nodes →
  ∃ h s leaves inner, (h ≤ 255)%nat ∧ t_root tree = Some (sm_cid s) ∧ spans h s leaves inner ∧
    concat leaves = es ∧ level_chunks f 0 (leaf_entry <$> es) = Ok (chunk_of <$> leaves) ∧
    leaves_stored config st leaves ∧ (∀ n, n ∈ inner → n ∈ nodes).
Proof.
  intros Hfit Hne (_ & Hspec & Hst). unfold tree_spec in Hspec.
  destruct (level_chunks f 0 (leaf_entry <$> es)) as [chunks| |] eqn:Hc; [|done..]. cbn [mbind outcome_bind] in Hspec.
  destruct (leaf_sums config es chunks Hfit Hc) as (Hcat & Hok & Hsums).
  destruct (tower f levels_fuel 0 _) as [[top above]| |] eqn:Hup; [|done..].
  cbn [mbind outcome_bind] in Hspec. injection Hspec as Hroot Hnodes. subst nodes. apply Forall_app in Hst as [Hst0 Hst].
  destruct (unmap_chunks chunks es Hcat) as (leaves & -> & Hcat').
  assert (Forall (λ l : list kv, l ≠ []) leaves) as Hlne.
  { apply Forall_forall. intros l Hl ->. destruct (proj1 (Forall_forall _ _) Hok (chunk_of [])) as [? _]; [|done].
    apply list_elem_of_fmap. by exists []. }
  assert (Forall (λ l, node_stored (0, leaf_entry <$> l)) leaves) as Hst1 by (by rewrite !Forall_fmap in Hst0).
  assert (Forall2 (λ s part, spans (Z.to_nat 0) s part.1 part.2) (summary f 0 <$> (chunk_of <$> leaves))
    ((λ l, ([l], [])) <$> leaves)) as Hsub.
  { apply Forall2_fmap, Forall2_fmap_l, Forall_Forall2_diag. apply Forall_forall. intros l Hl. exists l.
    rewrite Forall_forall in Hlne, Hst1. by split_and!; [..|apply Hlne|done|apply Hst1]. }
  destruct (tower_spans levels_fuel 0 _ _ top above ltac:(done) Hsums Hsub Hup Hst)
    as (h & s & ls & inner & Hh & -> & Hspan & -> & Hin); [by destruct leaves; [subst es|]|].
  assert (concat (fst <$> ((λ l : list kv, ([l], @nil (Z * list node_entry))) <$> leaves)) = leaves) as Heq.
  { clear. induction leaves as [|l ls IH]; [done|]. cbn in *. by rewrite IH. }
  rewrite Heq in Hspan. exists h, s, leaves, inner. cbn [head fmap option_fmap option_map] in Hroot.
  split; [done|]. split; [done|]. split; [done|]. split; [done|]. split; [done|]. split.
  - apply Forall_forall. intros l Hl. rewrite Forall_forall in Hlne, Hst1. split; [by apply Hlne|by apply (Hst1 l)].
  - intros n Hn. apply elem_of_app. destruct (Hin n Hn) as [Hn'|]; [|by right]. exfalso.
    clear -Hn'. induction leaves as [|l ls IH]; [by apply not_elem_of_nil in Hn'|by apply IH].
Qed.

End spans.
End canonical.
(** ** Collecting the leaves *)
Section collect.
Context `{HashesOk} {W St : Type} `{Store St} `{!WriteManager W} `{!WriteManagerOk W}.
Context (config : Config.Config).

Abbreviation f := (Config.format config).

Implicit Types (w : W) (stats : WriteStats).

Lemma child_cid_32 s c lv : s = summary f lv c → child_cid (sm_cid s) = Ok (sm_cid s).
Proof. intros ->. unfold child_cid. by rewrite bool_decide_eq_true_2 by apply sha256_len. Qed.

Lemma collect_children_ok measure (pre post : list NodeSummary) leaves (ws : W * WriteStats) :
  Forall (λ s, ∃ es, es ≠ [] ∧ s = leaf_summary config es) post →
  collect_children measure (node_of f 1 (child_entry <$> pre ++ post)) (length pre) (sm_cid <$> post) leaves ws
    = (Ok (leaves ++ post), ws).
Proof.
  revert pre leaves; induction post as [|s post IH]; intros pre leaves Hpost; [by rewrite !app_nil_r|].
  apply Forall_cons_1 in Hpost as [(es & Hne & Hs) Hpost]. cbn [fmap list_fmap collect_children].
  assert (len es ≠ 0) by (destruct es; [done|unfold len; cbn; lia]).
  rewrite (action_bind_Ok (run _) _ ws (sm_cid s) ws) by (unfold run; by rewrite (child_cid_32 s (chunk_of es) 0 Hs)).
  assert (child_counts (node_of f 1 (child_entry <$> pre ++ s :: post)) !! length pre = Some (sm_count s)) as ->.
  { cbn [node_of child_counts Z.eqb]. by rewrite !list_lookup_fmap, list_lookup_middle. }
  assert (keys (node_of f 1 (child_entry <$> pre ++ s :: post)) !! length pre = Some (sm_first_key s)) as ->.
  { cbn [node_of keys]. by rewrite !list_lookup_fmap, list_lookup_middle. }
  cbn [default id from_option]. assert (sm_count s = len es) as Hcount by (subst s; unfold leaf_summary, summary, subtree_count, len; cbn [sm_count Z.eqb]; by rewrite length_fmap).
  rewrite (proj2 (Z.eqb_neq (sm_count s) 0)) by lia. rewrite (action_bind_Ok (mret _) _ ws _ ws eq_refl).
  rewrite (action_bind_Ok (run _) _ ws (sm_first_key s) ws eq_refl).
  specialize (IH (pre ++ [s]) (leaves ++ [s]) Hpost). rewrite <- !app_assoc, length_app in IH. cbn [app length] in IH.
  rewrite Nat.add_1_r in IH. by destruct s.
Qed.

Lemma leaf_parts st ss parts :
  Forall2 (λ s part, spans config st 0 s part.1 part.2) ss parts →
  Forall (λ s, ∃ es, es ≠ [] ∧ s = leaf_summary config es) ss ∧ leaf_summary config <$> concat (fst <$> parts) = ss ∧
  concat (snd <$> parts) = [].
Proof.
  induction 1 as [|s [ls inner] ss parts (es & Hl & Hi & Hne & Hs & _) _ (IH1 & IH2 & IH3)]; [by split_and!|].
  cbn [fst snd] in *. subst ls inner. cbn. rewrite IH2, IH3, Hs. split; [|done]. constructor; [by exists es|done].
Qed.

Lemma visit_all_ok st visit h ss parts found w stats :
  (∀ s leaves inner found w stats, spans config st h s leaves inner → manages f st w →
     ∃ w' stats', visit (sm_cid s) found (w, stats)
       = (Ok (found.1 ++ (leaf_summary config <$> leaves),
              found.2 ++ ((λ n, sm_cid (summary f n.1 n.2)) <$> inner)), (w', stats')) ∧ manages f st w') →
  Forall2 (λ s part, spans config st h s part.1 part.2) ss parts → manages f st w →
  ∃ w' stats', visit_all visit (sm_cid <$> ss) found (w, stats)
      = (Ok (found.1 ++ (leaf_summary config <$> concat (fst <$> parts)),
             found.2 ++ ((λ n, sm_cid (summary f n.1 n.2)) <$> concat (snd <$> parts))), (w', stats')) ∧
    manages f st w'.
Proof.
  intros Hvisit Hsub. revert found w stats; induction Hsub as [|s part ss parts Hs Hsub IH]; intros found w stats Hw.
  { exists w, stats. cbn. rewrite !app_nil_r. by destruct found. }
  cbn [fmap list_fmap visit_all]. assert (child_cid (sm_cid s) = Ok (sm_cid s)) as Hc.
  { destruct h; [destruct Hs as (es & _ & _ & _ & Hs & _)|destruct Hs as (ss' & _ & _ & Hs & _)]; by eapply child_cid_32. }
  rewrite (action_bind_Ok (run _) _ (w, stats) (sm_cid s) (w, stats)) by (unfold run; by rewrite Hc).
  destruct (Hvisit s _ _ found w stats Hs Hw) as (w1 & stats1 & Hv & Hw1). rewrite (action_bind_Ok _ _ _ _ _ Hv).
  set (found1 := (_, _)). destruct (IH found1 w1 stats1 Hw1) as (w2 & stats2 & -> & Hw2). exists w2, stats2.
  split; [|done]. unfold found1. cbn [concat fst snd]. by rewrite !fmap_app, !app_assoc.
Qed.

Lemma collect_from_node_ok st measure h fuel s leaves inner found w stats :
  spans config st h s leaves inner → (h < fuel)%nat → manages f st w →
  ∃ w' stats', collect_from_node fuel measure f (sm_cid s) found (w, stats)
      = (Ok (found.1 ++ (leaf_summary config <$> leaves),
             found.2 ++ ((λ n, sm_cid (summary f n.1 n.2)) <$> inner)), (w', stats')) ∧
    manages f st w'.
Proof.
  revert fuel s leaves inner found w stats; induction h as [|h IH];
    intros fuel s leaves inner found w stats Hs Hfuel Hw; (destruct fuel as [|fuel]; [lia|]); cbn [collect_from_node].
  - destruct Hs as (es & -> & -> & Hne & -> & Hst).
    destruct (load_counted_ok config st measure _ _ w stats Hw Hst eq_refl) as (w' & stats' & Hl & Hw').
    rewrite (action_bind_Ok _ _ _ _ _ Hl). cbn [fst node_of format leaf keys Z.eqb]. rewrite bool_decide_eq_true_2 by done.
    eexists w', stats'. split; [|done]. cbn [negb fmap list_fmap]. unfold leaf_summary, summary, subtree_count. cbn [Z.eqb].
    rewrite app_nil_r. unfold len. cbn [fst snd sm_cid]. by rewrite !length_fmap.
  - destruct Hs as (ss & parts & Hne & -> & Hst & Hsub & -> & ->).
    destruct (load_counted_ok config st measure _ _ w stats Hw Hst eq_refl) as (w' & stats' & Hl & Hw').
    rewrite (action_bind_Ok _ _ _ _ _ Hl). cbn [fst snd].
    set (n := node_of f (Z.of_nat (S h)) (child_entry <$> ss)).
    assert (leaf n = false) as -> by (unfold n; cbn [node_of leaf]; apply Z.eqb_neq; lia).
    rewrite bool_decide_eq_true_2 by done. cbn [negb].
    assert (length (keys n) = length (vals n)) as -> by (unfold n; cbn [node_of keys vals]; by rewrite !length_fmap).
    rewrite Nat.eqb_refl. cbn [negb].
    assert (vals n = sm_cid <$> ss) as -> by (unfold n; cbn [node_of vals]; by rewrite <- list_fmap_compose).
    destruct h as [|h].
    + change (level n =? 1) with true. destruct (leaf_parts st ss parts Hsub) as (Hss & Hin & Hnil).
      rewrite (action_bind_Ok _ _ _ _ _ (collect_children_ok measure [] ss found.1 (w', stats') Hss)).
      exists w', stats'. by rewrite Hin, Hnil.
    + assert ((level n =? 1) = false) as -> by (unfold n; cbn [node_of level]; apply Z.eqb_neq; lia).
      destruct (visit_all_ok st (collect_from_node fuel measure f) (S h) ss parts (found.1, found.2 ++ [sm_cid (summary f (Z.of_nat (S (S h))) (child_entry <$> ss))]) w' stats')
        as (w2 & stats2 & Hv & Hw2); [|done|done|].
      { intros s leaves inner found0 w0 stats0 Hs Hw0. apply IH; [done|lia|done]. }
      exists w2, stats2. rewrite Hv. cbn [fst snd fmap list_fmap]. by rewrite <- app_assoc.
Qed.

Lemma collect_leaf_summaries_ok st measure tree h s leaves inner w stats :
  t_root tree = Some (sm_cid s) → t_config tree = config → spans config st h s leaves inner → (h ≤ 255)%nat →
  manages f st w →
  ∃ w' stats', collect_leaf_summaries tree measure (w, stats)
      = (Ok (leaf_summary config <$> leaves, (λ n, sm_cid (summary f n.1 n.2)) <$> inner), (w', stats')) ∧
    manages f st w'.
Proof.
  intros Hroot Hconf Hs Hh Hw. unfold collect_leaf_summaries. rewrite Hroot, Hconf.
  destruct (collect_from_node_ok st measure h collect_fuel s leaves inner ([], []) w stats Hs ltac:(unfold collect_fuel; lia) Hw)
    as (w' & stats' & Hc & Hw'). by exists w', stats'.
Qed.

End collect.

(** ** Publishing *)
Section publish.
Context `{HashesOk} {W St : Type} `{Store St} `{!WriteManager W} `{!WriteManagerOk W}.
Context (config : Config.Config).

Abbreviation f := (Config.format config).
Hypothesis Hwf : TreeFormat_wf f.
Hypothesis Hvalid : validate f = Ok tt.
Hypothesis Hcodec : has_codec f.

Implicit Types (w : W) (stats : WriteStats) (st : gmap bytes bytes).

Abbreviation node_cid n := (sm_cid (summary f n.1 n.2)).

(** Nodes that a store can take: the hash separates them, also from what is stored. *)
Definition publishable st (nodes : list (Z * list node_entry)) : Prop :=
  readable config nodes ∧ ∀ n b, n ∈ nodes → st !! node_cid n = Some b → b = node_bytes f n.1 n.2.

Lemma publishable_sub st nodes nodes' : nodes' ⊆ nodes → publishable st nodes → publishable st nodes'.
Proof.
  intros Hsub [[Hnc Hp] Hst]. split; [split|].
  - intros a b (n & -> & Hn)%list_elem_of_fmap (n' & -> & Hn')%list_elem_of_fmap.
    apply Hnc; apply list_elem_of_fmap; [exists n|exists n']; (split; [done|by apply Hsub]).
  - rewrite Forall_forall in *. intros n Hn. by apply Hp, Hsub.
  - intros n b Hn. by apply Hst, Hsub.
Qed.

Lemma publishable_consistent st nodes : publishable st nodes → consistent (stored f <$> nodes) st.
Proof.
  intros [[Hnc _] Hst]. split.
  - intros k b b' (n & [= -> ->] & Hn)%list_elem_of_fmap (n' & [= Hcid ->] & Hn')%list_elem_of_fmap.
    apply Hnc; [apply list_elem_of_fmap; by exists n|apply list_elem_of_fmap; by exists n'|done].
  - intros k b b' (n & [= -> ->] & Hn)%list_elem_of_fmap Hb'. symmetry. by apply Hst.
Qed.

Lemma good_stored st nodes n :
  publishable st nodes → n ∈ nodes → node_good config n → is_Some (st !! node_cid n) → node_stored config st n.
Proof.
  intros [[_ Hp] Hst] Hn [Hlv Hfit Hne Hs] [b Hb]. rewrite (Hst n b Hn Hb) in Hb.
  apply published_node; [done..|]. split; [done|]. by apply (proj1 (Forall_forall _ _) Hp).
Qed.

(** Nodes that are written, or have an identifier that is stored already, are stored
    afterwards. *)
Lemma written_stored st nodes written n :
  publishable st nodes → n ∈ nodes → node_good config n → written ⊆ nodes →
  (∃ n', n' ∈ written ∧ node_cid n' = node_cid n) ∨ is_Some (st !! node_cid n) →
  node_stored config (put_all (stored f <$> written) st) n.
Proof.
  intros Hpub Hn Hgood Hsub Hcase. pose proof (publishable_consistent _ _ (publishable_sub _ _ _ Hsub Hpub)) as Hcons.
  destruct Hcase as [(n' & Hn' & Hcid)|Hst].
  2: { apply stored_node_keep; [done|]. by eapply good_stored. }
  destruct Hpub as [[Hnc Hp] Hst]. destruct Hgood as [Hlv Hfit Hne Hs].
  apply published_node; [done..|]. split; [|by apply (proj1 (Forall_forall _ _) Hp)].
  assert (node_bytes f n'.1 n'.2 = node_bytes f n.1 n.2) as Hb.
  { apply Hnc; [apply list_elem_of_fmap; exists n'; split; [done|by apply Hsub]|apply list_elem_of_fmap; by exists n|done]. }
  apply put_all_elem.
  - apply list_elem_of_fmap. exists n'. unfold stored. by rewrite Hb.
  - intros b (n2 & [= Hcid2 ->] & Hn2)%list_elem_of_fmap.
    apply Hnc; [apply list_elem_of_fmap; exists n2; split; [done|by apply Hsub]|apply list_elem_of_fmap; by exists n|done].
Qed.

(** Two chunks with the same identifier. *)
Lemma same_cid st nodes n n' :
  publishable st nodes → n ∈ nodes → node_good config n → node_good config n' → node_stored config st n' →
  n.1 = n'.1 → node_cid n = node_cid n' → n = n'.
Proof.
  intros Hpub Hn Hgood Hgood' Hst Hlv Hcid. assert (node_stored config st n) as Hst'.
  { eapply good_stored; [done..|]. destruct Hst as (b & Hb & _). rewrite Hcid. by eexists. }
  unfold node_stored in *. rewrite <- Hcid in Hst. pose proof (stored_node_unique _ _ _ _ Hst Hst') as Heq.
  destruct n as [lv c], n' as [lv' c']. cbn [fst snd] in *. subst lv'. f_equal.
  rewrite <- (node_entries_of f lv c) by apply (fits_counted _ _ _ (ng_fits _ _ Hgood)).
  rewrite <- (node_entries_of f lv c') by apply (fits_counted _ _ _ (ng_fits _ _ Hgood')). by rewrite Heq.
Qed.

(** The changed leaves. *)
Lemma changed_leaves_ok old cs :
  ∃ ch, changed_leaves old (leaf_of config <$> cs) = leaf_of config <$> ch ∧ ch ⊆ cs ∧
    (∀ c, c ∈ ch → sm_cid (summary f 0 c) ∉ old) ∧
    (∀ c, c ∈ cs → sm_cid (summary f 0 c) ∈ old ∨ ∃ c', c' ∈ ch ∧ sm_cid (summary f 0 c') = sm_cid (summary f 0 c)).
Proof.
  unfold changed_leaves.
  assert (∃ ch, foldl (note_changed old) ([], []) (leaf_of config <$> cs)
      = (reverse (sm_cid ∘ summary f 0 <$> ch), leaf_of config <$> ch) ∧ ch ⊆ cs ∧
    (∀ c, c ∈ ch → sm_cid (summary f 0 c) ∉ old) ∧
    (∀ c, c ∈ cs → sm_cid (summary f 0 c) ∈ old ∨ ∃ c', c' ∈ ch ∧ sm_cid (summary f 0 c') = sm_cid (summary f 0 c)))
    as (ch & -> & ?); [|by exists ch].
  induction cs as [|c cs (ch & Heq & Hsub & Hnew & Hall)] using rev_ind.
  { exists []. split; [done|]. split; [done|]. split; by intros ? ?%not_elem_of_nil. }
  rewrite fmap_app, foldl_app, Heq. cbn [foldl fmap list_fmap]. unfold note_changed. cbn [fst snd leaf_of emitted_leaf el_summary].
  change (em_summary (emitted_of f 0 c)) with (summary f 0 c).
  destruct (bool_decide (sm_cid (summary f 0 c) ∈ old)) eqn:Hold;
    [apply bool_decide_eq_true in Hold|apply bool_decide_eq_false in Hold]; cbn [orb].
  { exists ch. split; [done|]. split; [by apply list_subseteq_app_l|]. split; [done|].
    intros c' [Hc'| ->%list_elem_of_singleton]%elem_of_app; [by apply Hall|by left]. }
  case_bool_decide as Hseen.
  - apply elem_of_reverse, list_elem_of_fmap in Hseen as (c0 & Hc0 & Hin). exists ch.
    split; [done|]. split; [by apply list_subseteq_app_l|]. split; [done|].
    intros c' [Hc'| ->%list_elem_of_singleton]%elem_of_app; [by apply Hall|]. right. by exists c0.
  - exists (ch ++ [c]). rewrite !fmap_app, reverse_app. split; [done|]. split; [|split].
    + apply list_subseteq_app_iff_l. split; [by apply list_subseteq_app_l|by apply list_subseteq_app_r].
    + intros c' [Hc'| ->%list_elem_of_singleton]%elem_of_app; [by apply Hnew|done].
    + intros c' [Hc'| ->%list_elem_of_singleton]%elem_of_app.
      * destruct (Hall c' Hc') as [|(c0 & Hin & Hcid)]; [by left|]. right. exists c0. rewrite elem_of_app. tauto.
      * right. exists c. rewrite elem_of_app, list_elem_of_singleton. tauto.
Qed.

Definition inner_of (n : Z * list node_entry) : EmittedInternal := emitted_internal (deferred_chunk config n.1 n.2).

Lemma cache_all_ok st (nodes : list (Cid * Node)) w :
  manages f st w → Forall (λ n, stored_node st n.1 n.2 ∧ format n.2 = f) nodes →
  ∃ w', cache_all nodes w = (Ok tt, w') ∧ manages f st w'.
Proof.
  intros Hw Hall. revert w Hw; induction Hall as [|[cid n] nodes [Hn Hf] _ IH]; intros w Hw; [by exists w|].
  destruct (manages_cache f st w cid n Hw Hn Hf) as (w1 & Hc & Hw1). destruct (IH w1 Hw1) as (w2 & Hrest & Hw2).
  exists w2. split; [|done]. unfold cache_all. cbn [foldr fst snd]. by rewrite (action_bind_Ok _ _ _ _ _ Hc).
Qed.

Lemma on_manager_Ok {A} (m : action W A) w w' stats (a : A) :
  m w = (Ok a, w') → on_manager m (w, stats) = (Ok a, (w', stats)).
Proof. intros Hm. unfold on_manager. cbn [fst snd]. by rewrite Hm. Qed.

Lemma publish_changes_ok st ch ns w stats :
  manages f st w → let written := ((λ c, (0, c)) <$> ch) ++ ns in
  publishable st written → Forall (node_good config) written →
  ∃ w' stats', publish_changes (leaf_of config <$> ch) (inner_of <$> ns) (w, stats) = (Ok tt, (w', stats')) ∧
    manages f (put_all (stored f <$> written) st) w'.
Proof.
  intros Hw written Hpub Hgood. unfold publish_changes. set (writes := _ ++ _ : list (bytes * bytes)).
  assert (writes = stored f <$> written) as -> by (unfold writes, written; by rewrite fmap_app, <- !list_fmap_compose).
  destruct (manages_writes f st w _ Hw (publishable_consistent st written Hpub)) as (store & Hput & Hw1).
  set (st' := put_all (stored f <$> written) st) in *.
  rewrite (action_bind_Ok _ _ _ tt (with_write_store w store, stats))
    by (apply on_manager_Ok; unfold store_writes; by rewrite Hput).
  set (nbytes := len (concat _)). destruct (manages_metrics f st' _ (len (stored f <$> written)) nbytes Hw1) as (w2 & Hm & Hw2).
  rewrite (action_bind_Ok _ _ _ tt (w2, stats)) by (by apply on_manager_Ok).
  rewrite (action_bind_Ok (tally _) _ _ tt _ eq_refl). destruct (_ <=? _)%nat; [|by eexists _, _].
  set (cached := _ ++ _ : list (Cid * Node)).
  assert (cached = (λ n, (node_cid n, node_of f n.1 n.2)) <$> written) as ->
    by (unfold cached, written; by rewrite fmap_app, <- !list_fmap_compose).
  destruct (cache_all_ok st' ((λ n, (node_cid n, node_of f n.1 n.2)) <$> written) w2 Hw2) as (w3 & Hc & Hw3).
  { apply Forall_fmap, Forall_forall. intros n Hn. split; [|done]. cbn [fst snd].
    apply (written_stored st written written n); [done|done|by apply (proj1 (Forall_forall _ _) Hgood)|done|]. left. by exists n. }
  eexists w3, _. split; [|done]. by apply on_manager_Ok.
Qed.

Lemma serial_deferred_ok es root nodes chunks :
  entries_fit config es → level_chunks f 0 (leaf_entry <$> es) = Ok chunks → tree_spec f es = Ok (root, nodes) →
  ∃ above, nodes = ((λ c, (0, c)) <$> chunks) ++ above ∧
    build_from_chunks_serial_deferred config (summary f 0 <$> chunks)
      = Ok ({| t_root := root; t_config := config |}, (λ n, deferred_chunk config n.1 n.2) <$> above).
Proof.
  intros Hfit Hc Hspec. unfold tree_spec in Hspec. rewrite Hc in Hspec. cbn [mbind outcome_bind] in Hspec.
  destruct (leaf_sums config es chunks Hfit Hc) as (_ & _ & Hsums).
  pose proof (build_levels_serial_ok config Hwf Hvalid Hcodec levels_fuel 0 _ [] ltac:(done) Hsums) as Hserial.
  destruct (tower f levels_fuel 0 (summary f 0 <$> chunks)) as [[top above]| |] eqn:Hup; [|done..].
  cbn [mbind outcome_bind] in Hspec, Hserial. injection Hspec as <- <-. exists above. split; [done|].
  unfold build_from_chunks_serial_deferred. destruct (summary f 0 <$> chunks) as [|n1 [|n2 ns]] eqn:Hn.
  - by injection Hup as <- <-.
  - by injection Hup as <- <-.
  - change INIT_LEVEL with 0. by rewrite Hserial.
Qed.

(** ** The end of a write *)
(** The write made [tree'] of the entries [es'] canonical, and kept what was stored. *)
Definition wrote st (tree' : Tree) (es' : list kv) nodes' (r : outcome Error Tree * (W * WriteStats)) : Prop :=
  ∃ st' w stats, r = (Ok tree', (w, stats)) ∧ manages f st' w ∧ st ⊆ st' ∧ canonical config st' tree' es' nodes'.

Lemma filter_fmap_list {A B} (p : B → bool) (g : A → B) l : List.filter p (g <$> l) = g <$> List.filter (λ x, p (g x)) l.
Proof. induction l as [|x l IH]; [done|]. cbn. destruct (p (g x)); cbn; by rewrite IH. Qed.

(** The old tree, and the chunks of the new entries. *)
Record rebuilt st (tree : Tree) (es : list kv) (leaves : list (list kv)) (inner : list (Z * list node_entry))
    (es' : list kv) (new cs : list (list node_entry)) (root' : option Cid) (nodes' : list (Z * list node_entry)) : Prop := {
  rb_config : t_config tree = config;
  rb_old : ∃ nodes, tree_spec f es = Ok (t_root tree, nodes) ∧ Forall (node_stored config st) nodes ∧
             (∀ n, n ∈ inner → n ∈ nodes) ∧ (∀ l, l ∈ leaves → (0, chunk_of l) ∈ nodes);
  rb_fit : entries_fit config es; rb_asc : ascending es;
  rb_leaves : concat leaves = es;
  rb_fit' : entries_fit config es'; rb_asc' : ascending es';
  rb_new : level_chunks f 0 (chunk_of es') = Ok new;
  rb_spec : tree_spec f es' = Ok (root', nodes');
  rb_emitted : cs `sublist_of` new; rb_cover : ∀ c, c ∈ new → c ∈ cs ∨ c ∈ chunk_of <$> leaves;
  rb_pub : publishable st nodes';
  rb_chunks : level_chunks f 0 (chunk_of es) = Ok (chunk_of <$> leaves);
}.

Lemma rebuilt_good st tree es leaves inner es' new cs root' nodes' :
  rebuilt st tree es leaves inner es' new cs root' nodes' →
  Forall (node_good config) nodes' ∧ Forall (λ l, node_good config (0, chunk_of l) ∧ node_stored config st (0, chunk_of l)) leaves.
Proof.
  intros [Hconf (nodes & Hspec & Hst & Hin & Hl) Hfit Hasc Hcat Hfit' Hasc' Hnew Hspec' Hcs Hcover Hpub _].
  split; [by eapply spec_good|]. apply Forall_forall. intros l Hll.
  split; [|by apply (proj1 (Forall_forall _ _) Hst), Hl].
  apply (proj1 (Forall_forall _ _) (spec_good config Hcodec es _ nodes Hfit Hasc Hspec)), Hl; done.
Qed.

Lemma same_chunks st nodes (new old : list (list node_entry)) :
  publishable st nodes → Forall (λ c, (0, c) ∈ nodes ∧ node_good config (0, c)) new →
  Forall (λ c, node_good config (0, c) ∧ node_stored config st (0, c)) old →
  sm_cid <$> (summary f 0 <$> new) = sm_cid <$> (summary f 0 <$> old) → new = old.
Proof.
  intros Hpub Hnew. revert old; induction Hnew as [|c new [Hin Hg] _ IH]; intros old Hold Heq; [by destruct old|].
  destruct Hold as [|c' old [Hg' Hs'] Hold]; [done|]. cbn [fmap list_fmap] in Heq. injection Heq as Hc Heq.
  pose proof (same_cid st nodes (0, c) (0, c') Hpub Hin Hg Hg' Hs' eq_refl Hc) as [= ->]. f_equal. by apply IH.
Qed.

(** No leaf changed: the entries are the old ones. *)
Lemma unchanged_eq st tree es leaves inner es' new cs root' nodes' :
  rebuilt st tree es leaves inner es' new cs root' nodes' →
  sm_cid <$> (summary f 0 <$> new) = sm_cid <$> (leaf_summary config <$> leaves) → es' = es.
Proof.
  intros Hrb Heq. destruct (rebuilt_good _ _ _ _ _ _ _ _ _ _ Hrb) as [Hgood Hold].
  destruct Hrb as [Hconf _ Hfit Hasc Hcat Hfit' Hasc' Hnew Hspec' Hcs Hcover Hpub _].
  destruct (leaf_sums config es' new Hfit' Hnew) as (Hcat' & _ & _).
  destruct (serial_deferred_ok es' root' nodes' new Hfit' Hnew Hspec') as (above & -> & _).
  assert (new = chunk_of <$> leaves) as ->.
  { eapply same_chunks; [exact Hpub| |by apply Forall_fmap|by rewrite Heq, <- !list_fmap_compose].
    apply Forall_forall. intros c Hc. rewrite Forall_forall in Hgood.
    assert ((0, c) ∈ ((λ c, (0, c)) <$> new) ++ above) as Hin by (apply elem_of_app; left; apply list_elem_of_fmap; by exists c).
    split; [done|by apply Hgood]. }
  rewrite <- chunk_of_concat, Hcat in Hcat'. assert (Inj (=) (=) leaf_entry) as Hinj by (by intros [] [] [= -> ->]).
  by apply (inj chunk_of) in Hcat'.
Qed.

Lemma unchanged_wrote st tree es leaves inner es' new cs root' nodes' w stats :
  manages f st w → rebuilt st tree es leaves inner es' new cs root' nodes' →
  sm_cid <$> (summary f 0 <$> new) = sm_cid <$> (leaf_summary config <$> leaves) →
  wrote st {| t_root := root'; t_config := config |} es' nodes' (Ok tree, (w, stats)).
Proof.
  intros Hw Hrb Heq. pose proof (unchanged_eq _ _ _ _ _ _ _ _ _ _ Hrb Heq) as ->.
  destruct Hrb as [Hconf (nodes & Hspec & Hst & _) _ _ _ _ _ _ Hspec' _ _ _ _]. rewrite Hspec in Hspec'.
  injection Hspec' as <- <-. exists st, w, stats. destruct tree as [root conf]. cbn [t_config t_root] in *.
  rewrite Hconf. by split_and!.
Qed.

(** What the write publishes, and why all new nodes are stored then. *)
Lemma covered_stored st tree es leaves inner es' new cs root' above ch ns :
  rebuilt st tree es leaves inner es' new cs root' (((λ c, (0, c)) <$> new) ++ above) →
  ch ⊆ cs →
  (∀ c, c ∈ cs → sm_cid (summary f 0 c) ∈ sm_cid <$> (leaf_summary config <$> leaves) ∨
     ∃ c', c' ∈ ch ∧ sm_cid (summary f 0 c') = sm_cid (summary f 0 c)) →
  ns ⊆ above → (∀ n, n ∈ above → n ∈ ns ∨ is_Some (st !! node_cid n)) →
  let written := ((λ c, (0, c)) <$> ch) ++ ns in
  publishable st written ∧ Forall (node_good config) written ∧
  Forall (node_stored config (put_all (stored f <$> written) st)) (((λ c, (0, c)) <$> new) ++ above).
Proof.
  intros Hrb Hch Hseen Hns Habove written. destruct (rebuilt_good _ _ _ _ _ _ _ _ _ _ Hrb) as [Hgood Hold].
  destruct Hrb as [_ _ _ _ _ _ _ _ _ Hcs Hcover Hpub _]. set (nodes' := _ ++ above) in *.
  assert (written ⊆ nodes') as Hsub.
  { intros n [Hn|Hn]%elem_of_app; apply elem_of_app; [left|right; by apply Hns].
    apply list_elem_of_fmap in Hn as (c & -> & Hc). apply list_elem_of_fmap. exists c. split; [done|]. by eapply elem_of_sublist; [apply Hch|]. }
  assert (∀ l, l ∈ leaves → is_Some (st !! sm_cid (leaf_summary config l))) as Hleaf.
  { intros l Hl. destruct (proj1 (Forall_forall _ _) Hold l Hl) as [_ (b & Hb & _)]. by exists b. }
  rewrite Forall_forall in Hgood. split; [by eapply publishable_sub|].
  split; [apply Forall_forall; intros n Hn; by apply Hgood, Hsub|].
  apply Forall_forall. intros n Hn. apply (written_stored st nodes'); [done|done|by apply Hgood|done|].
  apply elem_of_app in Hn as [(c & -> & Hc)%list_elem_of_fmap|Hn].
  - destruct (Hcover c Hc) as [Hcs'|(l & -> & Hl)%list_elem_of_fmap]; [|right; by apply Hleaf].
    destruct (Hseen c Hcs') as [(s & Hcid & (l & -> & Hl)%list_elem_of_fmap)%list_elem_of_fmap|(c' & Hc' & Hcid)].
    + right. cbn [fst snd]. rewrite Hcid. by apply Hleaf.
    + left. exists (0, c'). split; [|done]. apply elem_of_app. left. apply list_elem_of_fmap. by exists c'.
  - destruct (Habove n Hn) as [Hin|Hin]; [left; exists n; split; [|done]; apply elem_of_app; by right|by right].
Qed.

Lemma load_root_ok st tree es nodes w stats :
  manages f st w → entries_fit config es → canonical config st tree es nodes →
  ∃ w', match t_root tree with
        | Some root => on_manager (write_load_arc root) ≫= λ _ : Node, mret tree
        | None => mret tree
        end (w, stats) = (Ok tree, (w', stats)) ∧ manages f st w'.
Proof.
  intros Hw Hfit Hcan. destruct (decide (es = [])) as [->|Hne].
  { destruct Hcan as (_ & Hspec & _). cbn in Hspec. injection Hspec as <- <-. by exists w. }
  destruct (canonical_spans config st tree es nodes Hfit Hne Hcan) as (h & s & leaves & inner & _ & -> & Hs & _).
  assert (∃ n, stored_node st (sm_cid s) n ∧ format n = f) as (n & Hn & Hf).
  { destruct h; [destruct Hs as (es' & _ & _ & _ & -> & Hst)|destruct Hs as (ss & _ & _ & -> & Hst & _)]; by eexists. }
  destruct (manages_load f st w _ n Hw Hn Hf) as (w' & Hl & Hw'). exists w'. split; [|done].
  by rewrite (action_bind_Ok _ _ _ n (w', stats)) by (by apply on_manager_Ok).
Qed.

(** Nothing is published when nothing changed. *)
Lemma publish_any_ok st ch ns w stats :
  manages f st w → let written := ((λ c, (0, c)) <$> ch) ++ ns in
  publishable st written → Forall (node_good config) written →
  ∃ w' stats', (if bool_decide (leaf_of config <$> ch = []) && bool_decide (inner_of <$> ns = []) then mret tt
    else publish_changes (leaf_of config <$> ch) (inner_of <$> ns)) (w, stats) = (Ok tt, (w', stats')) ∧
    manages f (put_all (stored f <$> written) st) w'.
Proof.
  intros Hw written Hpub Hgood.
  destruct (bool_decide (leaf_of config <$> ch = []) && bool_decide (inner_of <$> ns = [])) eqn:Hnone.
  - apply andb_true_iff in Hnone as [Hch0%bool_decide_eq_true Hns0%bool_decide_eq_true].
    apply fmap_nil_inv in Hch0, Hns0. exists w, stats. split; [done|]. unfold written. by rewrite Hch0, Hns0.
  - by apply publish_changes_ok.
Qed.

(** The upper levels are rebuilt. *)
Lemma finish_rebuild_ok st tree es leaves inner es' new cs root' nodes' w stats :
  manages f st w → rebuilt st tree es leaves inner es' new cs root' nodes' →
  has_fixed_separators config (summary f 0 <$> new) (leaf_summary config <$> leaves) = false →
  wrote st {| t_root := root'; t_config := config |} es' nodes'
    (finish_write tree (leaf_summary config <$> leaves) ((λ n, node_cid n) <$> inner) (summary f 0 <$> new)
       (leaf_of config <$> cs) (w, stats)).
Proof.
  intros Hw Hrb Hfixed. unfold finish_write. rewrite (action_bind_Ok (tally _) _ _ tt _ eq_refl).
  case_bool_decide as Heq.
  { by eapply unchanged_wrote. }
  destruct (rebuilt_good _ _ _ _ _ _ _ _ _ _ Hrb) as [Hgood Hold].
  pose proof Hrb as [Hconf (nodes & _ & Hst & Hinner & Hleaves) _ _ _ Hfit' Hasc' Hnew Hspec' Hcs Hcover Hpub _].
  rewrite Hconf, Hfixed. destruct (serial_deferred_ok es' root' nodes' new Hfit' Hnew Hspec') as (above & -> & Hserial).
  cbn [fst snd]. set (stats1 := resynced _ _ stats).
  rewrite (action_bind_Ok (run _) _ (w, stats1) _ (w, stats1)) by (unfold run; by rewrite Hserial). cbn [fst snd].
  destruct (changed_leaves_ok (sm_cid <$> (leaf_summary config <$> leaves)) cs) as (ch & -> & Hch & _ & Hseen).
  rewrite <- (list_fmap_compose _ emitted_internal). change (emitted_internal ∘ _) with inner_of.
  rewrite filter_fmap_list. set (ns := List.filter _ above).
  destruct (covered_stored st tree es leaves inner es' new cs root' above ch ns Hrb Hch Hseen) as (Hpubw & Hgoodw & Hall).
  { intros n (Hn & _)%list_elem_of_In%filter_In. by apply list_elem_of_In. }
  { intros n Hn. destruct (decide (node_cid n ∈ (λ n, node_cid n) <$> inner)) as [Hin|Hout].
    - right. apply list_elem_of_fmap in Hin as (n' & -> & Hin').
      destruct (proj1 (Forall_forall _ _) Hst n' (Hinner n' Hin')) as (b & Hb & _). by exists b.
    - left. apply list_elem_of_In, filter_In. split; [by apply list_elem_of_In|]. by apply bool_decide_eq_true. }
  set (written := ((λ c, (0, c)) <$> ch) ++ ns) in *. set (st' := put_all (stored f <$> written) st) in *.
  destruct (publish_any_ok st ch ns w stats1 Hw Hpubw Hgoodw) as (w' & stats' & Hp & Hw').
  fold written in Hw'. fold st' in Hw'.
  rewrite (action_bind_Ok _ _ _ _ _ Hp).
  assert (canonical config st' {| t_root := root'; t_config := config |} es' (((λ c, (0, c)) <$> new) ++ above)) as Hcan by done.
  destruct (load_root_ok st' _ es' _ w' stats' Hw' Hfit' Hcan) as (w2 & Hl & Hw2).
  exists st', w2, stats'. split; [exact Hl|]. split; [done|]. split; [|done].
  by apply consistent_sub, publishable_consistent.
Qed.

End publish.
End RebuildSpec.
