(* ===== verification/FixedSpec.v ===== *)
(** * Rewriting with fixed separators

    When chunks are measured in entries and cut by their keys, new leaves with the
    first keys of the old ones give upper levels of the old shape, unless the byte
    limit of a node cuts somewhere.  Then rewriting the paths to the changed leaves
    gives the nodes of the new tree. *)

From Stdlib Require Import ZArith Lia Strings.Byte.
From stdpp Require Import base tactics numbers list strings option gmap sorting.
From S2P Require Import Prelude Cursor Types Format Boundary Node ReadNode Sizer Chunks ChunkSpec Store Emitter EmitterSpec Builder Entries BuilderSpec TreeSpec BuiltTree Write Updates ReplaySpec WriteSpec RebuildSpec.
Import Format Node ReadNode ChunkSpec Store Emitter EmitterSpec Builder Entries BuilderSpec TreeSpec BuiltTree Write Updates ReplaySpec WriteSpec RebuildSpec.

Local Open Scope Z_scope.

Module FixedSpec.

(** ** Levels without cuts by the byte limit *)
Section free.
Context `{HashesOk} (f : TreeFormat).

Fixpoint free_from (lv : Z) (cur es : list node_entry) : bool :=
  match es with
  | [] => true
  | e :: es' =>
      negb (forced f lv cur e) &&
      match place f lv cur e with Ok (_, cur') => free_from lv cur' es' | _ => true end
  end.

Fixpoint tower_free (fuel : nat) (lv : Z) (nodes : list NodeSummary) : bool :=
  match fuel with
  | O => true
  | S fuel' =>
      if (1 <? length nodes)%nat then
        free_from (lv + 1) [] (child_entry <$> nodes) &&
        match level_chunks f (lv + 1) (child_entry <$> nodes) with
        | Ok chunks => tower_free fuel' (lv + 1) (summary f (lv + 1) <$> chunks)
        | _ => true
        end
      else true
  end.

(** No node above the leaves was cut by the byte limit. *)
Definition uncapped (es : list kv) : bool :=
  match level_chunks f 0 (leaf_entry <$> es) with
  | Ok chunks => tower_free levels_fuel 0 (summary f 0 <$> chunks)
  | _ => true
  end.

Hypothesis Hmeasure : measure (chunking f) = EntryCount.
Hypothesis Hinput : input (chunking f) = Key.

Definition same_key (e e' : node_entry) : Prop := e.1.1 = e'.1.1.

Lemma observed_feed lv cur cur' :
  Forall2 same_key cur cur' →
  Boundary.entry_feed Key <$> observed f lv cur = Boundary.entry_feed Key <$> observed f lv cur'.
Proof.
  unfold observed. generalize (@nil node_entry) at 1 as a. generalize (@nil node_entry) as b.
  intros b a Hs. revert a b; induction Hs as [|e e' cur cur' He Hs IH]; intros b a; [done|].
  cbn [observed_from fmap list_fmap]. f_equal; [|apply IH]. unfold observed_entry, Boundary.entry_feed. by rewrite He.
Qed.

Lemma below_limit lv cur :
  Sizer.node_size f (lv =? 0) lv cur ≤ hard_max_node_bytes (chunking f) →
  (hard_max_node_bytes (chunking f) <=? Boundary.chunk_size EncodedBytes (observed f lv cur)) = false.
Proof.
  intros Hsize. apply Z.leb_gt. unfold Boundary.chunk_size. rewrite observed_sum.
  assert (0 < Sizer.node_size f (lv =? 0) lv []) as Hpos; [|lia].
  unfold Sizer.node_size. pose proof (Sizer.header_len_nonneg f (lv =? 0) lv (len (@nil node_entry))).
  pose proof (len_nonneg (layout_bytes (node_layout f) (lv =? 0) [])). lia.
Qed.

Lemma soft_cut_keys lv cur cur' e e' :
  Forall2 same_key cur cur' → same_key e e' →
  Sizer.node_size f (lv =? 0) lv (cur ++ [e]) ≤ hard_max_node_bytes (chunking f) →
  Sizer.node_size f (lv =? 0) lv (cur' ++ [e']) ≤ hard_max_node_bytes (chunking f) →
  soft_cut f lv cur e = soft_cut f lv cur' e'.
Proof.
  intros Hs He Hsize Hsize'. unfold soft_cut, Boundary.cut_spec.
  assert (measure (level_spec f lv) = EntryCount ∧ input (level_spec f lv) = Key ∧
    hard_max_node_bytes (level_spec f lv) = hard_max_node_bytes (chunking f)) as (-> & -> & ->)
    by (unfold level_spec, Boundary.raise_min; by destruct (_ && _)).
  rewrite <- !observed_snoc, !below_limit by done.
  assert (len cur = len cur') as Hlen by (unfold len; by rewrite (Forall2_length _ _ _ Hs)).
  rewrite !Boundary.chunk_size_entries, !observed_length, !len_app, Hlen. change (len [e]) with (len [e']).
  assert (Forall2 same_key (cur ++ [e]) (cur' ++ [e'])) as Hs' by (apply Forall2_app; [done|by repeat constructor]).
  rewrite (observed_feed lv _ _ Hs').
  assert (Boundary.entry_feed Key (observed_entry f lv cur e) = Boundary.entry_feed Key (observed_entry f lv cur' e')) as ->
    by (unfold observed_entry, Boundary.entry_feed; by rewrite He).
  done.
Qed.

Lemma chunks_shape lv cur cur' es es' r r' :
  Forall2 same_key cur cur' → Forall2 same_key es es' → free_from lv cur es = true → free_from lv cur' es' = true →
  chunk_from f lv cur es = Ok r → chunk_from f lv cur' es' = Ok r' → Forall2 (Forall2 same_key) r r'.
Proof.
  intros Hcur Hes. revert cur cur' r r' Hcur; induction Hes as [|e e' es es' He Hes IH];
    intros cur cur' r r' Hcur Hfree Hfree' Hr Hr'; cbn [chunk_from free_from] in *.
  { injection Hr as <-. injection Hr' as <-. destruct Hcur; by repeat constructor. }
  apply andb_true_iff in Hfree as [Hf%negb_true_iff Hfree], Hfree' as [Hf'%negb_true_iff Hfree'].
  destruct (place f lv cur e) as [[closed cur1]| |] eqn:Hp; [|done..]. cbn [mbind outcome_bind] in Hr.
  destruct (place f lv cur' e') as [[closed' cur1']| |] eqn:Hp'; [|done..]. cbn [mbind outcome_bind] in Hr'.
  destruct (chunk_from f lv cur1 es) as [rest| |] eqn:Hrest; [|done..]. injection Hr as <-.
  destruct (chunk_from f lv cur1' es') as [rest'| |] eqn:Hrest'; [|done..]. injection Hr' as <-.
  destruct (place_free f lv _ _ _ _ Hf Hp) as [Hsize _]. destruct (place_free f lv _ _ _ _ Hf' Hp') as [Hsize' _].
  unfold place in Hp, Hp'. fold (forced f lv cur e) in Hp. fold (forced f lv cur' e') in Hp'. rewrite Hf in Hp. rewrite Hf' in Hp'.
  rewrite (proj2 (Z.ltb_ge _ _) Hsize) in Hp. rewrite (proj2 (Z.ltb_ge _ _) Hsize') in Hp'.
  rewrite (soft_cut_keys lv cur cur' e e' Hcur He Hsize Hsize') in Hp.
  assert (Forall2 same_key (cur ++ [e]) (cur' ++ [e'])) as Hs' by (apply Forall2_app; [done|by repeat constructor]).
  destruct (soft_cut f lv cur' e') as [[]| |]; [| |done..]; cbn in Hp, Hp'; injection Hp as <- <-; injection Hp' as <- <-.
  - cbn [app]. constructor; [done|]. by eapply IH; [constructor|..].
  - by eapply IH.
Qed.

End free.
(** ** Two trees of the same shape *)
Abbreviation node := (Z * list node_entry)%type.

(** A subtree of the old tree and the one of the new tree in its place: summaries,
    leaves and internal nodes. *)
Record part := {
  p_old : NodeSummary; p_new : NodeSummary;
  p_olds : list NodeSummary; p_news : list NodeSummary;
  p_inner : list node; p_inner' : list node;
}.

Section paired.
Context `{HashesOk} (config : Config.Config).

Abbreviation f := (Config.format config).

Fixpoint paired (h : nat) (p : part) : Prop :=
  match h with
  | O => p_olds p = [p_old p] ∧ p_news p = [p_new p] ∧ p_inner p = [] ∧ p_inner' p = [] ∧
         sm_first_key (p_old p) = sm_first_key (p_new p)
  | S h' => ∃ ps, ps ≠ [] ∧ Forall (paired h') ps ∧
         p_old p = summary f (Z.of_nat h) (child_entry <$> (p_old <$> ps)) ∧
         p_new p = summary f (Z.of_nat h) (child_entry <$> (p_new <$> ps)) ∧
         p_olds p = concat (p_olds <$> ps) ∧ p_news p = concat (p_news <$> ps) ∧
         p_inner p = (Z.of_nat h, child_entry <$> (p_old <$> ps)) :: concat (p_inner <$> ps) ∧
         p_inner' p = (Z.of_nat h, child_entry <$> (p_new <$> ps)) :: concat (p_inner' <$> ps)
  end.

Lemma paired_key h p : paired h p → sm_first_key (p_old p) = sm_first_key (p_new p).
Proof.
  revert p; induction h as [|h IH]; intros p; [by intros (_ & _ & _ & _ & ?)|].
  intros (ps & Hne & Hps & -> & -> & _). destruct ps as [|q ps]; [done|]. apply Forall_cons_1 in Hps as [Hq _].
  cbn. by rewrite (IH q Hq).
Qed.

(** Equal leaves below equal trees. *)
Lemma paired_same h p : paired h p → p_olds p = p_news p → p_old p = p_new p ∧ p_inner p = p_inner' p.
Proof.
  assert (∀ h p, paired h p → length (p_olds p) = length (p_news p)) as Hlen.
  { clear. intros h; induction h as [|h IH]; intros p; [by intros (-> & -> & _)|].
    intros (ps & _ & Hps & _ & _ & -> & -> & _). induction Hps as [|q ps Hq _ IHps]; [done|].
    cbn [fmap list_fmap concat]. rewrite !length_app. by rewrite (IH q Hq), IHps. }
  revert p; induction h as [|h IH]; intros p.
  { intros (-> & -> & -> & -> & _). by intros [= ->]. }
  intros (ps & _ & Hps & -> & -> & -> & -> & -> & ->) Heq.
  assert (p_old <$> ps = p_new <$> ps ∧ concat (p_inner <$> ps) = concat (p_inner' <$> ps)) as [-> ->]; [|done].
  induction Hps as [|q ps Hq _ IHps]; [done|]. cbn [fmap list_fmap concat] in *.
  apply app_inj_1 in Heq as [Hq' Heq]; [|by eapply Hlen]. destruct (IH q Hq Hq') as [-> ->].
  destruct (IHps Heq) as [-> ->]. done.
Qed.

Hypothesis Hmeasure : measure (chunking f) = EntryCount.
Hypothesis Hinput : input (chunking f) = Key.

Lemma level_paired lv (ps : list part) chunks chunks' :
  0 ≤ lv → Forall (paired (Z.to_nat lv)) ps → Forall2 (Forall2 same_key) chunks chunks' →
  concat chunks = child_entry <$> (p_old <$> ps) → concat chunks' = child_entry <$> (p_new <$> ps) →
  Forall (λ c, c ≠ []) chunks →
  ∃ qs, Forall (paired (Z.to_nat (lv + 1))) qs ∧ p_old <$> qs = summary f (lv + 1) <$> chunks ∧
    p_new <$> qs = summary f (lv + 1) <$> chunks' ∧
    concat (p_olds <$> qs) = concat (p_olds <$> ps) ∧ concat (p_news <$> qs) = concat (p_news <$> ps) ∧
    (∀ n, n ∈ concat (p_inner <$> qs) → n ∈ concat (p_inner <$> ps) ∨ n ∈ (λ c, (lv + 1, c)) <$> chunks) ∧
    (∀ n, n ∈ concat (p_inner' <$> qs) ↔ n ∈ concat (p_inner' <$> ps) ∨ n ∈ (λ c, (lv + 1, c)) <$> chunks').
Proof.
  intros Hlv. replace (Z.to_nat (lv + 1)) with (S (Z.to_nat lv)) by lia.
  intros Hps Hs. revert ps Hps; induction Hs as [|c c' chunks chunks' Hc Hs IH]; intros ps Hps Hcat Hcat' Hne.
  { destruct ps; [|done]. exists []. split_and!; try done; intros n; cbn; rewrite ?elem_of_nil; tauto. }
  apply Forall_cons_1 in Hne as [Hcne Hne]. cbn [concat] in Hcat, Hcat'.
  symmetry in Hcat. rewrite <- list_fmap_compose in Hcat. apply fmap_app_inv in Hcat as (p1 & p2 & Hc1 & Hcat & ->).
  apply Forall_app in Hps as [Hp1 Hp2]. rewrite !fmap_app in Hcat'.
  apply app_inj_1 in Hcat' as [-> Hcat']; [|rewrite !length_fmap; rewrite <- (Forall2_length _ _ _ Hc), Hc1; by rewrite length_fmap].
  destruct (IH p2 Hp2) as (qs & Hqs & Hold & Hnew & Holds & Hnews & Hin & Hin'); [by rewrite <- list_fmap_compose|done|done|].
  subst c. exists ({| p_old := summary f (lv + 1) (child_entry <$> (p_old <$> p1));
    p_new := summary f (lv + 1) (child_entry <$> (p_new <$> p1));
    p_olds := concat (p_olds <$> p1); p_news := concat (p_news <$> p1);
    p_inner := (lv + 1, child_entry <$> (p_old <$> p1)) :: concat (p_inner <$> p1);
    p_inner' := (lv + 1, child_entry <$> (p_new <$> p1)) :: concat (p_inner' <$> p1) |} :: qs).
  split; [|cbn [fmap list_fmap concat p_old p_new p_olds p_news p_inner p_inner']; rewrite Hold, Hnew, Holds, Hnews, !fmap_app, !concat_app;
    rewrite list_fmap_compose; split_and!; [done..| |]].
  - constructor; [|done]. exists p1. replace (Z.of_nat (S (Z.to_nat lv))) with (lv + 1) by lia.
    split; [by destruct p1|]. by split_and!.
  - intros n. rewrite !elem_of_app, !elem_of_cons. specialize (Hin n). tauto.
  - intros n. rewrite !elem_of_app, !elem_of_cons. specialize (Hin' n). tauto.
Qed.

Lemma tower_paired fuel lv (ps : list part) top above top' above' :
  0 ≤ lv ≤ u8_max → ps ≠ [] → Forall (paired (Z.to_nat lv)) ps →
  sums_ok config (p_old <$> ps) → sums_ok config (p_new <$> ps) →
  tower f fuel lv (p_old <$> ps) = Ok (top, above) → tower f fuel lv (p_new <$> ps) = Ok (top', above') →
  tower_free f fuel lv (p_old <$> ps) = true → tower_free f fuel lv (p_new <$> ps) = true →
  ∃ h p, (h ≤ 255)%nat ∧ paired h p ∧ top = [p_old p] ∧ top' = [p_new p] ∧
    p_olds p = concat (p_olds <$> ps) ∧ p_news p = concat (p_news <$> ps) ∧
    (∀ n, n ∈ p_inner p → n ∈ concat (p_inner <$> ps) ∨ n ∈ above) ∧
    (∀ n, n ∈ p_inner' p ↔ n ∈ concat (p_inner' <$> ps) ∨ n ∈ above').
Proof.
  revert lv ps above above'; induction fuel as [|fuel IH];
    intros lv ps above above' Hlv Hne Hps Hsums Hsums' Ht Ht' Hfree Hfree'; [done|].
  cbn [tower tower_free] in *. rewrite !length_fmap in *. unfold u8_max in Hlv.
  destruct (Nat.ltb_spec 1 (length ps)) as [_|Hone].
  - destruct (Z.ltb_spec u8_max (lv + 1)) as [|Hle]; [done|]. unfold u8_max in Hle.
    apply andb_true_iff in Hfree as [Hf Hfree], Hfree' as [Hf' Hfree'].
    destruct (level_chunks _ (lv + 1) (child_entry <$> (p_old <$> ps))) as [chunks| |] eqn:Hc; [|done..].
    destruct (level_chunks _ (lv + 1) (child_entry <$> (p_new <$> ps))) as [chunks'| |] eqn:Hc'; [|done..].
    cbn [mbind outcome_bind] in Ht, Ht'.
    destruct (sums_next config (lv + 1) _ chunks ltac:(unfold u8_max; lia) Hsums Hc) as (Hcat & Hok & Hnext).
    destruct (sums_next config (lv + 1) _ chunks' ltac:(unfold u8_max; lia) Hsums' Hc') as (Hcat' & _ & Hnext').
    destruct (tower _ fuel (lv + 1) (_ <$> chunks)) as [[t1 a1]| |] eqn:Hup; [|done..]. injection Ht as <- <-.
    destruct (tower _ fuel (lv + 1) (_ <$> chunks')) as [[t2 a2]| |] eqn:Hup'; [|done..]. injection Ht' as <- <-.
    assert (Forall2 (Forall2 same_key) chunks chunks') as Hshape.
    { eapply chunks_shape; [done|done|constructor| |exact Hf|exact Hf'|exact Hc|exact Hc'].
      apply Forall2_fmap, Forall2_fmap, Forall_Forall2_diag. eapply Forall_impl; [exact Hps|].
      intros p Hp. by eapply paired_key. }
    assert (Forall (λ c : list node_entry, c ≠ []) chunks) as Hcne by (eapply Forall_impl; [exact Hok|]; by intros ? [? _]).
    destruct (level_paired lv ps chunks chunks' ltac:(lia) Hps Hshape Hcat Hcat' Hcne)
      as (qs & Hqs & Hold & Hnew & Holds & Hnews & Hin & Hin').
    rewrite <- Hold in *. rewrite <- Hnew in *.
    destruct (IH (lv + 1) qs a1 a2 ltac:(unfold u8_max; lia)) as (h & p & Hh & Hp & -> & -> & H1 & H2 & Hi & Hi'); try done.
    { intros ->. destruct chunks; [by destruct ps|done]. }
    exists h, p. rewrite H1, H2, Holds, Hnews. split_and!; try done.
    + intros n Hn. rewrite elem_of_app. destruct (Hi n Hn) as [Hn'|]; [destruct (Hin n Hn')|]; tauto.
    + intros n. rewrite elem_of_app, Hi', Hin'. tauto.
  - injection Ht as <- <-. injection Ht' as <- <-. destruct ps as [|p [|q ps]]; [done| |cbn in Hone; lia].
    apply Forall_cons_1 in Hps as [Hp _]. exists (Z.to_nat lv), p. cbn. rewrite !app_nil_r.
    split_and!; try done; [lia|by left|]. intros n. rewrite elem_of_nil. tauto.
Qed.

End paired.
(** ** The changes of a subtree *)
#[local] Instance NodeSummary_eq_dec : EqDecision NodeSummary.
Proof. solve_decision. Defined.

Definition differs (x : NodeSummary * NodeSummary) : bool := negb (bool_decide (x.1 = x.2)).
Definition diff (olds news : list NodeSummary) : list NodeSummary := snd <$> List.filter differs (zip olds news).
Definition p_changes (p : part) : list NodeSummary := diff (p_olds p) (p_news p).

Lemma diff_app a a' b b' : length a = length a' → diff (a ++ b) (a' ++ b') = diff a a' ++ diff b b'.
Proof.
  intros Hlen. unfold diff. rewrite zip_with_app by done. by rewrite List.filter_app, fmap_app.
Qed.

Lemma diff_nil a b : length a = length b → diff a b = [] → a = b.
Proof.
  revert b; induction a as [|x a IH]; intros [|y b] Hlen Hd; [done..|]. unfold diff in Hd. cbn [zip zip_with List.filter] in Hd.
  change (zip_with pair a b) with (zip a b) in Hd. unfold differs at 1 in Hd. cbn [fst snd] in Hd.
  case_bool_decide; [|done]. subst. f_equal. apply IH; [by injection Hlen|done].
Qed.

Lemma diff_elem a b c : c ∈ diff a b → ∃ i o, a !! i = Some o ∧ b !! i = Some c ∧ o ≠ c.
Proof.
  intros ([o c'] & -> & [Hin Hd]%list_elem_of_In%filter_In)%list_elem_of_fmap.
  apply list_elem_of_In, list_elem_of_lookup in Hin as [i Hi]. apply lookup_zip_with_Some in Hi as (x & y & [= -> ->] & Hx & Hy).
  exists i, x. split; [done|]. split; [done|]. apply negb_true_iff in Hd. by apply bool_decide_eq_false in Hd.
Qed.

Section rewriting.
Context `{HashesOk} {W St : Type} `{Store St} `{!WriteManager W} `{!WriteManagerOk W}.
Context (config : Config.Config).

Abbreviation f := (Config.format config).
Hypothesis Hwf : TreeFormat_wf f.
Hypothesis Hvalid : validate f = Ok tt.
Hypothesis Hcodec : has_codec f.

Implicit Types (w : W) (st : gmap bytes bytes) (p q : part) (ps : list part).

Abbreviation node_cid n := (sm_cid (summary f n.1 n.2)).
Abbreviation paired := (paired config).

Lemma paired_leaves h p :
  paired h p → Forall2 (λ a b, sm_first_key a = sm_first_key b) (p_olds p) (p_news p).
Proof.
  revert p; induction h as [|h IH]; intros p; [intros (-> & -> & _ & _ & ?); by repeat constructor|].
  intros (ps & _ & Hps & _ & _ & -> & -> & _). induction Hps as [|q ps Hq _ IHps]; [constructor|].
  cbn [fmap list_fmap concat]. apply Forall2_app; [by apply IH|done].
Qed.

Lemma paired_first h p : paired h p → ∃ s rest, p_olds p = s :: rest ∧ sm_first_key s = sm_first_key (p_old p).
Proof.
  revert p; induction h as [|h IH]; intros p; [intros (-> & _); by eexists _, _|].
  intros (ps & Hne & Hps & -> & _ & -> & _). destruct ps as [|q ps]; [done|]. apply Forall_cons_1 in Hps as [Hq _].
  destruct (IH q Hq) as (s & rest & Heq & Hkey). cbn [fmap list_fmap concat]. rewrite Heq. by eexists _, _.
Qed.

Lemma changes_concat h ps : Forall (paired h) ps → diff (concat (p_olds <$> ps)) (concat (p_news <$> ps)) = concat (p_changes <$> ps).
Proof.
  induction 1 as [|q ps Hq _ IH]; [done|]. cbn [fmap list_fmap concat]. rewrite diff_app, IH; [done|].
  by eapply Forall2_length, paired_leaves.
Qed.

Lemma change_key h p c :
  paired h p → c ∈ p_changes p → sm_first_key c ∈ sm_first_key <$> p_olds p.
Proof.
  intros Hp (i & o & Ho & Hc & _)%diff_elem. pose proof (Forall2_lookup_lr _ _ _ _ _ _ (paired_leaves h p Hp) Ho Hc) as Hkey.
  cbn in Hkey. rewrite <- Hkey. apply list_elem_of_fmap. exists o. split; [done|]. apply list_elem_of_lookup. by exists i.
Qed.

(** The child that a change belongs to. *)
Lemma change_index h (p1 p2 : list part) q c :
  Forall (paired h) (p1 ++ q :: p2) → StronglySorted blt (sm_first_key <$> concat (p_olds <$> p1 ++ q :: p2)) →
  c ∈ p_changes q → child_index (sm_first_key <$> (p_old <$> p1 ++ q :: p2)) c = length p1.
Proof.
  intros Hps Hs Hc. unfold child_index. set (k := sm_first_key c).
  apply Forall_app in Hps as [Hp1 [Hq Hp2]%Forall_cons_1].
  pose proof (change_key h q c Hq Hc) as Hk. fold k in Hk.
  rewrite fmap_app, concat_app, fmap_app in Hs. cbn [fmap list_fmap concat] in Hs.
  assert (∀ r l, r ∈ l → Forall (paired h) l → sm_first_key (p_old r) ∈ sm_first_key <$> concat (p_olds <$> l)) as Hfirst.
  { intros r l Hr Hl. destruct (paired_first h r (proj1 (Forall_forall _ _) Hl r Hr)) as (s & rest & Heq & <-).
    apply list_elem_of_fmap. exists s. split; [done|]. apply list_elem_of_In, in_concat. exists (p_olds r).
    split; [|rewrite Heq; by left]. apply list_elem_of_In, list_elem_of_fmap. by exists r. }
  change (p_old <$> p1 ++ q :: p2) with (p_old <$> p1 ++ [q] ++ p2). rewrite app_assoc, !fmap_app.
  rewrite partition_point_app; [by rewrite length_app, !length_fmap, Nat.add_sub| |].
  - apply Forall_app. split; [|constructor; [|constructor]].
    + apply Forall_forall. intros k' (s & -> & (r & -> & Hr)%list_elem_of_fmap)%list_elem_of_fmap.
      apply bleb_le, blt_le. eapply (StronglySorted_app_1_elem_of _ _ _); [exact Hs|by apply Hfirst|].
      rewrite fmap_app. apply elem_of_app. by left.
    + apply bleb_le. destruct (paired_first h q Hq) as (s & rest & Heq & <-). rewrite Heq in Hk, Hs.
      apply StronglySorted_app_1_r in Hs. cbn [app fmap list_fmap] in Hs, Hk.
      apply StronglySorted_inv in Hs as [_ Hall]. apply elem_of_cons in Hk as [->|Hk]; [apply ble_refl|].
      apply blt_le, (proj1 (Forall_forall _ _) Hall). rewrite fmap_app. apply elem_of_app. by left.
  - apply Forall_forall. intros k' (s & -> & (r & -> & Hr)%list_elem_of_fmap)%list_elem_of_fmap.
    apply bleb_gt. apply StronglySorted_app_1_r in Hs. rewrite fmap_app in Hs.
    eapply (StronglySorted_app_1_elem_of _ _ _); [exact Hs|exact Hk|by apply Hfirst].
Qed.

(** The changes of one child are taken together. *)
Lemma group_len_ok h (p1 p2 : list part) q a b :
  Forall (paired h) (p1 ++ q :: p2) → StronglySorted blt (sm_first_key <$> concat (p_olds <$> p1 ++ q :: p2)) →
  Forall (λ c, c ∈ p_changes q) a → Forall (λ c, c ∈ concat (p_changes <$> p2)) b →
  group_len (sm_first_key <$> (p_old <$> p1 ++ q :: p2)) (length p1) (a ++ b) = length a.
Proof.
  intros Hps Hs Ha Hb. induction Ha as [|c a Hc _ IH]; cbn [app group_len length].
  - destruct Hb as [|c b Hc _]; [done|]. cbn [group_len].
    apply list_elem_of_In, in_concat in Hc as (l & Hl & Hc). apply list_elem_of_In, list_elem_of_fmap in Hl as (r & -> & Hr).
    apply list_elem_of_split in Hr as (a2 & b2 & ->). rewrite app_comm_cons, app_assoc in *.
    rewrite (change_index h _ b2 r c Hps Hs) by (by apply list_elem_of_In).
    rewrite length_app. cbn [length]. destruct (Nat.eqb_spec (length p1 + S (length a2)) (length p1)); [lia|done].
  - rewrite (change_index h p1 p2 q c Hps Hs Hc), Nat.eqb_refl. by rewrite IH.
Qed.

Lemma insert_middle {A} (l1 l2 : list A) x y : <[length l1 := y]> (l1 ++ x :: l2) = l1 ++ y :: l2.
Proof. induction l1 as [|z l1 IH]; [done|]. cbn [app length]. change (z :: <[length l1 := y]> (l1 ++ x :: l2) = z :: l1 ++ y :: l2). by rewrite IH. Qed.

Lemma with_child_ok lv (a b : list NodeSummary) s s' :
  (lv =? 0) = false →
  with_child (node_of f lv (child_entry <$> a ++ s :: b)) (length a) s' = node_of f lv (child_entry <$> a ++ s' :: b).
Proof.
  intros Hlv. unfold with_child, node_of. cbn [keys vals child_counts leaf level format]. rewrite Hlv, <- !list_fmap_compose, !fmap_app.
  cbn [fmap list_fmap]. f_equal; (erewrite <- (length_fmap _ a); by rewrite insert_middle).
Qed.

(** What a rewritten subtree leaves to publish. *)
Definition rewrites st (inner' : list node) (pending : list EmittedInternal) (pending' : list EmittedInternal) : Prop :=
  ∃ ns, pending' = pending ++ (inner_of config <$> ns) ∧ ns ⊆ inner' ∧
    ∀ n, n ∈ inner' → n ∈ ns ∨ is_Some (st !! node_cid n).

Lemma rewrites_app st a b l1 l2 l3 : rewrites st a l1 l2 → rewrites st b l2 l3 → rewrites st (a ++ b) l1 l3.
Proof.
  intros (n1 & -> & Hs1 & H1') (n2 & -> & Hs2 & H2'). exists (n1 ++ n2). rewrite fmap_app, app_assoc. split; [done|].
  split; [by apply list_subseteq_app_iff_l; split; [apply list_subseteq_app_l|apply list_subseteq_app_r]|].
  intros n. rewrite !elem_of_app. intros [Hn|Hn]; [destruct (H1' n Hn)|destruct (H2' n Hn)]; tauto.
Qed.

Lemma rewrites_equiv st a b l1 l2 : (∀ n, n ∈ a ↔ n ∈ b) → rewrites st a l1 l2 → rewrites st b l1 l2.
Proof.
  intros Hab (ns & -> & Hsub & Hall). exists ns. split; [done|]. split; [intros n Hn; by apply Hab, Hsub|].
  intros n Hn. by apply Hall, Hab.
Qed.

Lemma rewrites_same st inner pending : Forall (node_stored config st) inner → rewrites st inner pending pending.
Proof.
  intros Hst. exists []. rewrite app_nil_r. split; [done|]. split; [apply list_subseteq_nil|].
  intros n Hn. right. destruct (proj1 (Forall_forall _ _) Hst n Hn) as (b & Hb & _). by exists b.
Qed.

(** A subtree with its old nodes stored, whose new nodes are nodes of the format. *)
Record ready st (h : nat) p : Prop := {
  rd_paired : paired h p;
  rd_stored : Forall (node_stored config st) (p_inner p);
  rd_good : Forall (node_good config) (p_inner' p);
}.

Definition rewriter st (h : nat) (R : Cid → list NodeSummary → list EmittedInternal → action W (NodeSummary * list EmittedInternal)) : Prop :=
  ∀ p w pending, ready st h p → StronglySorted blt (sm_first_key <$> p_olds p) → manages f st w →
  ∃ w' pending', R (sm_cid (p_old p)) (p_changes p) pending w = (Ok (p_new p, pending'), w') ∧
    manages f st w' ∧ rewrites st (p_inner' p) pending pending'.

(** One child. *)
Lemma rewrite_child_ok st h R (node : Node) q c cs rest i w pending :
  (0 < h → rewriter st h R)%nat → ready st h q → StronglySorted blt (sm_first_key <$> p_olds q) → manages f st w →
  p_changes q = c :: cs → level node = Z.of_nat (S h) →
  keys node !! i = Some (sm_first_key (p_old q)) → vals node !! i = Some (sm_cid (p_old q)) →
  ∃ w' pending',
    (if level node =? 1 then
       run (expect "index out of bounds" (keys node !! i)) ≫= λ key : bytes,
       if negb (length cs =? 0)%nat || negb (bool_decide (key = sm_first_key c))
       then run (Err InvalidNode) else mret (c, pending)
     else
       run (expect "index out of bounds" (vals node !! i)) ≫= λ value : bytes,
       run (child_cid value) ≫= λ child : Cid,
       R child (c :: take (length cs) (cs ++ rest)) pending) w = (Ok (p_new q, pending'), w') ∧
    manages f st w' ∧ rewrites st (p_inner' q) pending pending'.
Proof.
  intros HR Hq Hs Hw Hch Hlv Hk Hv. rewrite Hlv, Hk, Hv. destruct h as [|h].
  - destruct Hq as [(Holds & Hnews & Hi & Hi' & Hkey) _ _]. unfold p_changes in Hch. rewrite Holds, Hnews in Hch.
    unfold diff in Hch. cbn in Hch. destruct (differs _); [|done]. injection Hch as <- <-.
    exists w, pending. change (Z.of_nat 1 =? 1) with true. cbn [expect length Nat.eqb negb orb].
    rewrite (action_bind_Ok (run _) _ w _ w eq_refl), bool_decide_eq_true_2 by done.
    split; [done|]. split; [done|]. rewrite Hi'. exists []. rewrite app_nil_r. split; [done|]. split; [done|].
    by intros n ?%not_elem_of_nil.
  - assert ((Z.of_nat (S (S h)) =? 1) = false) as -> by (apply Z.eqb_neq; lia). cbn [expect].
    rewrite (action_bind_Ok (run _) _ w _ w eq_refl).
    assert (child_cid (sm_cid (p_old q)) = Ok (sm_cid (p_old q))) as Hcid.
    { destruct (rd_paired _ _ _ Hq) as (qs & _ & _ & Heq & _). by eapply child_cid_32. }
    rewrite (action_bind_Ok (run _) _ w _ w) by (unfold run; by rewrite Hcid).
    rewrite take_app_length. rewrite <- Hch. by apply HR; [lia|..].
Qed.

Lemma rewrite_groups_ok st h R fuel (dn rest : list part) w pending :
  (0 < h → rewriter st h R)%nat → Forall (ready st h) (dn ++ rest) →
  StronglySorted blt (sm_first_key <$> concat (p_olds <$> dn ++ rest)) → manages f st w →
  (length (concat (p_changes <$> rest)) < fuel)%nat →
  ∃ w' pending',
    rewrite_groups fuel R (node_of f (Z.of_nat (S h)) (child_entry <$> (p_new <$> dn) ++ (p_old <$> rest)))
      (concat (p_changes <$> rest)) pending w
    = (Ok (node_of f (Z.of_nat (S h)) (child_entry <$> (p_new <$> dn ++ rest)), pending'), w') ∧
    manages f st w' ∧ rewrites st (concat (p_inner' <$> rest)) pending pending'.
Proof.
  intros HR. revert fuel dn w pending; induction rest as [|q rest IH]; intros fuel dn w pending Hready Hs Hw Hfuel.
  { destruct fuel as [|fuel]; [cbn in Hfuel; lia|]. exists w, pending. cbn. rewrite !app_nil_r. split; [done|]. split; [done|].
    by apply rewrites_same. }
  assert (Forall (paired h) (dn ++ q :: rest)) as Hps by (eapply Forall_impl; [exact Hready|]; by intros ? [? _ _]).
  pose proof Hready as [_ [Hq _]%Forall_cons_1]%Forall_app.
  assert (sm_first_key <$> (p_new <$> dn) = sm_first_key <$> (p_old <$> dn)) as Hkeys.
  { apply Forall_app in Hps as [Hps _]. clear -Hps. induction Hps as [|r dn Hr _ IH]; [done|]. cbn. by rewrite IH, (paired_key config h r Hr). }
  replace (dn ++ q :: rest) with ((dn ++ [q]) ++ rest) in * by (by rewrite <- app_assoc).
  cbn [fmap list_fmap concat] in *. destruct (p_changes q) as [|c cs] eqn:Hch.
  - destruct (paired_same config h q (rd_paired _ _ _ Hq)) as [Heq Hin].
    { apply diff_nil; [by eapply Forall2_length, paired_leaves, rd_paired|done]. }
    destruct (IH fuel (dn ++ [q]) w pending Hready Hs Hw Hfuel) as (w' & pending' & Hrun & Hw' & Hrw).
    exists w', pending'. rewrite (fmap_app p_new dn [q]), <- app_assoc in Hrun. cbn [fmap list_fmap app] in Hrun. rewrite <- Heq in Hrun.
    split; [exact Hrun|]. split; [done|]. eapply rewrites_app; [|exact Hrw]. apply rewrites_same. rewrite <- Hin. apply Hq.
  - destruct fuel as [|fuel]; [lia|]. cbn [app rewrite_groups]. rewrite <- app_assoc in Hps, Hs. cbn [app] in Hps, Hs.
    assert (∀ r, r ∈ c :: cs → r ∈ p_changes q) as Hmem by (by rewrite Hch).
    set (nd := node_of f _ _).
    assert (keys nd = sm_first_key <$> (p_old <$> dn ++ q :: rest)) as Hk.
    { unfold nd. cbn [node_of keys]. rewrite <- list_fmap_compose, !fmap_app. cbn. by rewrite <- Hkeys. }
    rewrite Hk, (change_index h dn rest q c Hps Hs) by (apply Hmem; left).
    rewrite (group_len_ok h dn rest q cs (concat (p_changes <$> rest)) Hps Hs)
      by (apply Forall_forall; intros; (done || by apply Hmem; right)).
    assert (StronglySorted blt (sm_first_key <$> p_olds q)) as Hsq.
    { rewrite fmap_app, concat_app in Hs. cbn [fmap list_fmap concat] in Hs. rewrite !fmap_app in Hs.
      by apply StronglySorted_app_1_r, StronglySorted_app_1_l in Hs. }
    assert (vals nd !! length dn = Some (sm_cid (p_old q))) as Hv.
    { unfold nd. cbn [node_of vals]. rewrite <- list_fmap_compose, fmap_app. rewrite lookup_app_r by (by rewrite !length_fmap).
      by rewrite !length_fmap, Nat.sub_diag. }
    assert (keys nd !! length dn = Some (sm_first_key (p_old q))) as Hkn.
    { rewrite Hk. by rewrite !list_lookup_fmap, list_lookup_middle. }
    destruct (rewrite_child_ok st h R nd q c cs (concat (p_changes <$> rest)) (length dn) w pending HR Hq Hsq Hw Hch eq_refl Hkn Hv)
      as (w1 & pending1 & Hrun1 & Hw1 & Hrw1). rewrite Hk in Hrun1.
    rewrite (action_bind_Ok _ _ _ _ _ Hrun1). cbn [fst snd]. rewrite drop_app_length.
    assert (with_child nd (length dn) (p_new q) = node_of f (Z.of_nat (S h)) (child_entry <$> (p_new <$> dn ++ [q]) ++ (p_old <$> rest))) as ->.
    { unfold nd. rewrite <- (length_fmap p_new dn), with_child_ok by (apply Z.eqb_neq; lia). by rewrite (fmap_app p_new dn [q]), <- app_assoc. }
    destruct (IH fuel (dn ++ [q]) w1 pending1 Hready) as (w' & pending' & Hrun & Hw' & Hrw);
      [by rewrite <- app_assoc|done|rewrite length_app in Hfuel; cbn [length] in Hfuel; lia|].
    exists w', pending'. split; [exact Hrun|]. split; [done|]. by eapply rewrites_app.
Qed.

Lemma rewrite_internal_ok st fuel h :
  (h < fuel)%nat → rewriter st (S h) (rewrite_internal_node fuel).
Proof.
  revert h; induction fuel as [|fuel IH]; intros h Hfuel p w pending Hp Hs Hw; [lia|]. cbn [rewrite_internal_node].
  destruct Hp as [(ps & Hne & Hps & Hold & Hnew & Holds & Hnews & Hin & Hin') Hst Hgood].
  rewrite Hin in Hst. apply Forall_cons_1 in Hst as [Hn Hst]. rewrite Hin' in Hgood. apply Forall_cons_1 in Hgood as [Hg Hgood].
  set (lv := Z.of_nat (S h)) in *. assert ((lv =? 0) = false) as Hlv by (apply Z.eqb_neq; lia).
  destruct (manages_load f st w _ _ Hw Hn eq_refl) as (w1 & Hl & Hw1). cbn [fst snd] in Hl. rewrite Hold.
  rewrite (action_bind_Ok _ _ _ _ _ Hl). set (nd := node_of f lv _).
  assert ((leaf nd || bool_decide (keys nd = []) || negb (length (keys nd) =? length (vals nd))%nat
           || negb (length (child_counts nd) =? length (keys nd))%nat) = false) as ->.
  { unfold nd. cbn [node_of leaf keys vals child_counts]. rewrite Hlv, !length_fmap, !Nat.eqb_refl.
    rewrite bool_decide_eq_false_2; [done|]. by destruct ps. }
  unfold p_changes. rewrite Holds, Hnews, (changes_concat h ps Hps).
  assert (Forall (ready st h) ps) as Hready.
  { rewrite Forall_forall in Hps. apply Forall_forall. intros q Hq. constructor; [by apply Hps| |].
    - eapply Forall_forall. intros n Hnq. apply (proj1 (Forall_forall _ _) Hst). apply list_elem_of_In, in_concat.
      exists (p_inner q). split; apply list_elem_of_In; [apply list_elem_of_fmap; by exists q|done].
    - eapply Forall_forall. intros n Hnq. apply (proj1 (Forall_forall _ _) Hgood). apply list_elem_of_In, in_concat.
      exists (p_inner' q). split; apply list_elem_of_In; [apply list_elem_of_fmap; by exists q|done]. }
  rewrite Holds in Hs.
  destruct (rewrite_groups_ok st h (rewrite_internal_node fuel) (S (length (concat (p_changes <$> ps)))) [] ps w1 pending)
    as (w2 & pending2 & Hrun & Hw2 & Hrw); [|done|done|done|lia|].
  { destruct h as [|h]; [lia|]. intros _. apply IH. lia. }
  cbn [fmap list_fmap app] in Hrun. fold lv in Hrun. rewrite (action_bind_Ok _ _ _ _ _ Hrun). cbn [fst snd].
  set (c := child_entry <$> (p_new <$> ps)) in *. destruct Hg as [Hglv Hgfit Hgne Hgs]. cbn [fst snd] in *.
  rewrite (action_bind_Ok (run _) _ w2 (sm_first_key (p_new p)) w2) by (rewrite Hnew; destruct ps; [done|reflexivity]).
  pose proof (node_of_count config lv ltac:(lia) c Hgfit) as Hcount. rewrite Hlv in Hcount.
  rewrite (action_bind_Ok (run _) _ w2 (sm_count (p_new p)) w2) by (rewrite Hnew; unfold run; by rewrite Hcount).
  destruct (node_bytes_ok config lv Hvalid Hcodec c (fits_level _ _ _ Hgfit) (fits_counted _ _ _ Hgfit)) as [Hb _].
  rewrite (action_bind_Ok (run _) _ w2 (node_bytes f lv c) w2) by (unfold run; by rewrite Hb).
  assert (∀ x y, {| sm_cid := Cid_from_bytes (node_bytes f lv c); sm_first_key := x; sm_count := y |}
    = {| sm_cid := sm_cid (p_new p); sm_first_key := x; sm_count := y |}) as -> by (intros; by rewrite Hnew).
  eexists w2, _. split; [by destruct (p_new p)|]. split; [done|].
  rewrite Hin'. eapply rewrites_equiv; [|eapply (rewrites_app st _ [(lv, c)] _ _ _ Hrw)].
  { intros n. rewrite elem_of_app, list_elem_of_singleton, elem_of_cons. tauto. }
  case_bool_decide as Hsame.
  - exists []. rewrite app_nil_r. split; [done|]. split; [apply list_subseteq_nil|].
    intros n ->%list_elem_of_singleton. right. destruct Hn as (b & Hb' & _). exists b. cbn [fst snd] in *. by rewrite <- Hb', <- Hsame.
  - exists [(lv, c)]. split; [done|]. split; [done|]. by left.
Qed.

(** ** The changes of a write *)
Lemma node_bytes_inj (nodes : list node) n n' :
  Forall (node_good config) nodes → readable config nodes → n ∈ nodes → n' ∈ nodes →
  n.1 = n'.1 → node_cid n = node_cid n' → n = n'.
Proof.
  intros Hgood [Hnc Hp] Hn Hn' Hlv Hcid. rewrite Forall_forall in Hgood, Hp.
  assert (publishable config {[node_cid n := node_bytes f n.1 n.2]} nodes) as Hpub.
  { split; [split; [done|by apply Forall_forall]|]. intros n0 b Hn0 (Heq & <-)%lookup_singleton_Some.
    apply Hnc; [apply list_elem_of_fmap; by exists n|apply list_elem_of_fmap; by exists n0|done]. }
  eapply (same_cid config Hwf Hvalid Hcodec _ nodes n n' Hpub Hn (Hgood n Hn) (Hgood n' Hn')); [|done|done].
  eapply good_stored; [done..|exact Hpub|done|by apply Hgood|]. rewrite <- Hcid, lookup_singleton_eq. by eexists.
Qed.

Lemma changed_filter old cs :
  NoDup ((λ c, sm_cid (summary f 0 c)) <$> cs) →
  changed_leaves old (leaf_of config <$> cs)
    = leaf_of config <$> List.filter (λ c, bool_decide (sm_cid (summary f 0 c) ∉ old)) cs.
Proof.
  intros Hnd. unfold changed_leaves.
  assert (foldl (note_changed old) ([], []) (leaf_of config <$> cs)
    = (reverse ((λ c, sm_cid (summary f 0 c)) <$> List.filter (λ c, bool_decide (sm_cid (summary f 0 c) ∉ old)) cs),
       leaf_of config <$> List.filter (λ c, bool_decide (sm_cid (summary f 0 c) ∉ old)) cs)) as ->; [|done].
  induction cs as [|c cs IH] using rev_ind; [done|]. rewrite fmap_app in Hnd. apply NoDup_app in Hnd as (Hnd & Hout & _).
  rewrite fmap_app, foldl_app, (IH Hnd). cbn [foldl fmap list_fmap]. unfold note_changed. cbn [fst snd].
  change (sm_cid (el_summary (leaf_of config c))) with (sm_cid (summary f 0 c)).
  rewrite List.filter_app. cbn [List.filter]. destruct (decide (sm_cid (summary f 0 c) ∈ old)) as [Hin|Hin].
  - rewrite (bool_decide_eq_true_2 _ Hin), (bool_decide_eq_false_2 (sm_cid (summary f 0 c) ∉ old)) by tauto. cbn [orb]. by rewrite app_nil_r.
  - rewrite (bool_decide_eq_false_2 _ Hin), (bool_decide_eq_true_2 _ Hin), bool_decide_eq_false_2; cbn [orb].
    + by rewrite !fmap_app, reverse_app.
    + intros (c' & Hc & Hc')%elem_of_reverse%list_elem_of_fmap. apply (Hout (sm_cid (summary f 0 c))); [|by apply list_elem_of_singleton]. rewrite Hc.
      apply list_elem_of_In, filter_In in Hc' as [Hc' _]. apply list_elem_of_fmap. exists c'. split; [done|by apply list_elem_of_In].
Qed.

Lemma filter_sublist {A} (P : A → bool) (l k : list A) :
  l `sublist_of` k → NoDup k → (∀ x, x ∈ k → P x = true → x ∈ l) → List.filter P l = List.filter P k.
Proof.
  induction 1 as [|x l k Hs IH|x l k Hs IH]; intros Hnd Hall; [done|..]; apply NoDup_cons in Hnd as [Hx Hnd]; cbn [List.filter].
  - rewrite IH; [done|done|]. intros y Hy HP. pose proof (Hall y (list_elem_of_further _ _ _ Hy) HP) as Hy'.
    by apply elem_of_cons in Hy' as [->|].
  - destruct (P x) eqn:HP.
    + exfalso. apply Hx. eapply elem_of_sublist; [|exact Hs]. apply Hall; [left|done].
    + apply IH; [done|]. intros y Hy. by apply Hall; right.
Qed.

Lemma diff_filter (P : list node_entry → bool) olds new :
  Forall2 (λ o c, P c = differs (o, summary f 0 c)) olds new →
  diff olds (summary f 0 <$> new) = summary f 0 <$> List.filter P new.
Proof.
  unfold diff. induction 1 as [|o c olds new Hoc _ IH]; [done|]. cbn [fmap list_fmap zip zip_with List.filter].
  change (zip_with pair ?a ?b) with (zip a b). rewrite Hoc. destruct (differs _); cbn [fmap list_fmap]; by rewrite IH.
Qed.

Lemma sorted_nodup (l : list bytes) : StronglySorted blt l → NoDup l.
Proof.
  induction 1 as [|x l _ IH Hx]; [constructor|]. constructor; [|done]. intros Hin.
  apply (blt_irrefl x). by apply (proj1 (Forall_forall _ _) Hx).
Qed.

Lemma first_keys_sorted es chunks :
  entries_fit config es → ascending es → level_chunks f 0 (chunk_of es) = Ok chunks →
  StronglySorted blt (sm_first_key <$> (summary f 0 <$> chunks)).
Proof.
  intros Hfit Hasc Hc. destruct (leaf_sums config es chunks Hfit Hc) as (Hcat & Hok & _).
  apply chunks_sorted; [rewrite Hcat, <- list_fmap_compose; exact Hasc|].
  eapply Forall_impl; [exact Hok|]. by intros ? [? _].
Qed.

(** A new leaf has the identifier of an old one exactly when it is the old leaf in
    its place. *)
Lemma changed_in_place st tree es leaves inner es' new cs root' nodes' :
  rebuilt config st tree es leaves inner es' new cs root' nodes' →
  sm_first_key <$> (summary f 0 <$> new) = sm_first_key <$> (leaf_summary config <$> leaves) →
  Forall2 (λ o c, bool_decide (sm_cid (summary f 0 c) ∉ sm_cid <$> (leaf_summary config <$> leaves))
                  = differs (o, summary f 0 c)) (leaf_summary config <$> leaves) new.
Proof.
  intros Hrb Hkeys. destruct (rebuilt_good config Hcodec _ _ _ _ _ _ _ _ _ _ Hrb) as [Hgood Hold].
  destruct Hrb as [_ _ Hfit Hasc _ Hfit' _ Hnew Hspec' _ _ Hpub Hchunks].
  destruct (serial_deferred_ok config Hwf Hvalid Hcodec es' root' nodes' new Hfit' Hnew Hspec') as (above & -> & _).
  pose proof (first_keys_sorted es _ Hfit Hasc Hchunks) as Hs.
  rewrite <- (list_fmap_compose chunk_of) in Hs. apply sorted_nodup in Hs.
  change (summary f 0 ∘ chunk_of) with (leaf_summary config) in Hs.
  assert (length leaves = length new) as Hlen by (apply (f_equal length) in Hkeys; rewrite !length_fmap in Hkeys; done).
  apply Forall2_fmap_l, Forall2_same_length_lookup. split; [done|]. intros i l c Hl Hc. unfold differs, compose. cbn [fst snd].
  rewrite <- bool_decide_not. apply bool_decide_ext. split.
  - intros Hout Heq. apply Hout. rewrite <- Heq. apply list_elem_of_fmap. exists (leaf_summary config l). split; [done|].
    apply list_elem_of_fmap. exists l. split; [done|]. apply list_elem_of_lookup. by exists i.
  - intros Hne (s & Hcid & (l' & -> & Hl')%list_elem_of_fmap)%list_elem_of_fmap. apply Hne.
    pose proof (proj1 (Forall_forall _ _) Hold l' Hl') as [Hgl Hsl].
    assert ((0, c) ∈ ((λ c, (0, c)) <$> new) ++ above) as Hin.
    { apply elem_of_app. left. apply list_elem_of_fmap. exists c. split; [done|]. apply list_elem_of_lookup. by exists i. }
    pose proof (same_cid config Hwf Hvalid Hcodec st _ (0, c) (0, chunk_of l') Hpub Hin
      (proj1 (Forall_forall _ _) Hgood _ Hin) Hgl Hsl eq_refl Hcid) as [= ->].
    apply list_elem_of_lookup in Hl' as [j Hj]. assert (i = j) as <-; [|rewrite Hl in Hj; by injection Hj as ->].
    eapply NoDup_lookup; [exact Hs|rewrite <- Hkeys, !list_lookup_fmap, Hc; done|].
    rewrite !list_lookup_fmap, Hj. done.
Qed.

Lemma changes_diff st tree es leaves inner es' new cs root' nodes' :
  rebuilt config st tree es leaves inner es' new cs root' nodes' →
  sm_first_key <$> (summary f 0 <$> new) = sm_first_key <$> (leaf_summary config <$> leaves) →
  ∃ ch, changed_leaves (sm_cid <$> (leaf_summary config <$> leaves)) (leaf_of config <$> cs) = leaf_of config <$> ch ∧
    summary f 0 <$> ch = diff (leaf_summary config <$> leaves) (summary f 0 <$> new) ∧ ch ⊆ cs ∧
    (∀ c, c ∈ cs → sm_cid (summary f 0 c) ∈ sm_cid <$> (leaf_summary config <$> leaves) ∨
       ∃ c', c' ∈ ch ∧ sm_cid (summary f 0 c') = sm_cid (summary f 0 c)).
Proof.
  intros Hrb Hkeys. pose proof (changed_in_place _ _ _ _ _ _ _ _ _ _ Hrb Hkeys) as Hplace.
  destruct (rebuilt_good config Hcodec _ _ _ _ _ _ _ _ _ _ Hrb) as [Hgood _].
  destruct Hrb as [_ _ _ _ _ Hfit' Hasc' Hnew Hspec' Hcs Hcover [Hread _] _].
  destruct (serial_deferred_ok config Hwf Hvalid Hcodec es' root' nodes' new Hfit' Hnew Hspec') as (above & -> & _).
  set (old := sm_cid <$> (leaf_summary config <$> leaves)) in *.
  set (P := λ c, bool_decide (sm_cid (summary f 0 c) ∉ old)) in *.
  pose proof (first_keys_sorted es' new Hfit' Hasc' Hnew) as Hs%sorted_nodup.
  rewrite <- list_fmap_compose in Hs. pose proof (NoDup_fmap_1 _ _ Hs) as Hnd.
  assert (NoDup ((λ c, sm_cid (summary f 0 c)) <$> cs)) as Hcids.
  { apply NoDup_fmap_2_strong; [|by eapply sublist_NoDup].
    intros c c' Hc%(elem_of_sublist _ new) Hc'%(elem_of_sublist _ new) Heq; [|done..]. assert (∀ c, c ∈ new → (0, c) ∈ ((λ c, (0, c)) <$> new) ++ above) as Hin.
    { intros x Hx. apply elem_of_app. left. apply list_elem_of_fmap. by exists x. }
    by pose proof (node_bytes_inj _ (0, c) (0, c') Hgood Hread (Hin c Hc) (Hin c' Hc') eq_refl Heq) as [= ->]. }
  exists (List.filter P cs). split; [by apply changed_filter|]. split; [|split].
  - rewrite (diff_filter P _ _ Hplace). f_equal. apply filter_sublist; [done|done|].
    intros c Hc HP%bool_decide_eq_true. destruct (Hcover c Hc) as [|(l & -> & Hl)%list_elem_of_fmap]; [done|].
    destruct HP. apply list_elem_of_fmap. exists (leaf_summary config l). split; [done|]. apply list_elem_of_fmap. by exists l.
  - intros c (Hc & _)%list_elem_of_In%filter_In. by apply list_elem_of_In.
  - intros c Hc. destruct (decide (sm_cid (summary f 0 c) ∈ old)); [by left|right]. exists c. split; [|done].
    apply list_elem_of_In, filter_In. split; [by apply list_elem_of_In|by apply bool_decide_eq_true].
Qed.

(** ** The two trees *)
Definition leaf_part (o n : NodeSummary) : part :=
  {| p_old := o; p_new := n; p_olds := [o]; p_news := [n]; p_inner := []; p_inner' := [] |}.

Lemma leaf_part_lists (olds news : list NodeSummary) :
  length olds = length news → let ps := zip_with leaf_part olds news in
  p_old <$> ps = olds ∧ p_new <$> ps = news ∧ concat (p_olds <$> ps) = olds ∧ concat (p_news <$> ps) = news ∧
  concat (p_inner <$> ps) = [] ∧ concat (p_inner' <$> ps) = [].
Proof.
  revert news; induction olds as [|o olds IH]; intros [|n news] Hlen; [done..|].
  destruct (IH news ltac:(by injection Hlen)) as (H1' & H2' & H3' & H4' & H5' & H6'). cbn [zip_with fmap list_fmap concat].
  cbn in *. by rewrite H1', H2', H3', H4', H5', H6'.
Qed.

Lemma spec_tower es root nodes chunks :
  level_chunks f 0 (chunk_of es) = Ok chunks → tree_spec f es = Ok (root, nodes) →
  ∃ top above, tower f levels_fuel 0 (summary f 0 <$> chunks) = Ok (top, above) ∧ root = sm_cid <$> head top ∧
    nodes = ((λ c, (0, c)) <$> chunks) ++ above.
Proof.
  unfold tree_spec. intros -> Hspec. cbn [mbind outcome_bind] in Hspec.
  destruct (tower f levels_fuel 0 _) as [[top above]| |]; [|done..]. injection Hspec as <- <-. by exists top, above.
Qed.

Lemma trees_paired st tree es leaves inner es' new cs root' nodes' :
  rebuilt config st tree es leaves inner es' new cs root' nodes' → es ≠ [] →
  measure (chunking f) = EntryCount → input (chunking f) = Key →
  sm_first_key <$> (summary f 0 <$> new) = sm_first_key <$> (leaf_summary config <$> leaves) →
  uncapped f es = true → uncapped f es' = true →
  ∃ h p above, (h ≤ 255)%nat ∧ ready st h p ∧ t_root tree = Some (sm_cid (p_old p)) ∧ root' = Some (sm_cid (p_new p)) ∧
    p_olds p = leaf_summary config <$> leaves ∧ p_news p = summary f 0 <$> new ∧
    nodes' = ((λ c, (0, c)) <$> new) ++ above ∧ (∀ n, n ∈ p_inner' p ↔ n ∈ above).
Proof.
  intros Hrb Hne Hm Hi Hkeys Hu Hu'. destruct (rebuilt_good config Hcodec _ _ _ _ _ _ _ _ _ _ Hrb) as [Hgood _].
  destruct Hrb as [_ (nodes & Hspec & Hst & _) Hfit Hasc Hcat Hfit' _ Hnew Hspec' _ _ _ Hchunks].
  destruct (spec_tower es _ nodes _ Hchunks Hspec) as (top & above & Ht & Hroot & ->).
  destruct (spec_tower es' _ nodes' _ Hnew Hspec') as (top' & above' & Ht' & Hroot' & ->).
  unfold uncapped in Hu, Hu'. rewrite Hchunks in Hu. rewrite Hnew in Hu'.
  destruct (leaf_sums config es _ Hfit Hchunks) as (_ & _ & Hsums). destruct (leaf_sums config es' _ Hfit' Hnew) as (_ & _ & Hsums').
  rewrite <- (list_fmap_compose chunk_of) in Ht, Hu, Hsums. change (summary f 0 ∘ chunk_of) with (leaf_summary config) in Ht, Hu, Hsums.
  set (olds := leaf_summary config <$> leaves) in *. set (news := summary f 0 <$> new) in *.
  assert (length olds = length news) as Hlen by (apply (f_equal length) in Hkeys; by rewrite !length_fmap in Hkeys).
  destruct (leaf_part_lists olds news Hlen) as (Ho & Hn & Hos & Hns & Hin & Hin'). set (ps := zip_with leaf_part olds news) in *.
  rewrite <- Ho in Ht, Hu, Hsums. rewrite <- Hn in Ht', Hu', Hsums'.
  destruct (tower_paired config Hm Hi levels_fuel 0 ps top above top' above') as (h & p & Hh & Hp & -> & -> & H1' & H2' & Hi1 & Hi2);
    try done.
  { intros Hps. rewrite Hps in Ho. cbn in Ho. destruct leaves; [by subst es|done]. }
  { apply Forall_forall. intros q Hq. apply list_elem_of_lookup in Hq as [i Hq].
    apply lookup_zip_with_Some in Hq as (o & n & -> & Hoi & Hni). repeat split.
    apply (f_equal (λ l, l !! i)) in Hkeys. rewrite !list_lookup_fmap, Hoi, Hni in Hkeys. cbn in Hkeys |- *. congruence. }
  exists h, p, above'. rewrite Hos in H1'. rewrite Hns in H2'. rewrite Hin in Hi1. rewrite Hin' in Hi2.
  split; [done|]. split; [constructor; [done|..]|].
  - apply Forall_forall. intros n [Hnil|Hab]%Hi1; [by apply not_elem_of_nil in Hnil|].
    apply (proj1 (Forall_forall _ _) Hst), elem_of_app. by right.
  - apply Forall_forall. intros n [Hnil|Hab]%Hi2; [by apply not_elem_of_nil in Hnil|].
    apply (proj1 (Forall_forall _ _) Hgood), elem_of_app. by right.
  - split_and!; try done. intros n. rewrite Hi2, elem_of_nil. tauto.
Qed.

Lemma rewrite_paths_ok st tree h p leaves w :
  manages f st w → t_config tree = config → t_root tree = Some (sm_cid (p_old p)) → ready st h p → (h ≤ 255)%nat →
  p_olds p = leaf_summary config <$> leaves → Forall (λ l, node_stored config st (0, chunk_of l)) leaves →
  StronglySorted blt (sm_first_key <$> p_olds p) → p_changes p ≠ [] →
  ∃ w' pending, rewrite_fixed_separator_paths tree (p_changes p) w
      = (Ok ({| t_root := Some (sm_cid (p_new p)); t_config := config |}, pending), w') ∧
    manages f st w' ∧ rewrites st (p_inner' p) [] pending.
Proof.
  intros Hw Hconf Hroot Hready Hh Holds Hst Hs Hch. unfold rewrite_fixed_separator_paths. rewrite Hroot, Hconf. destruct h as [|h].
  - destruct (rd_paired _ _ _ Hready) as (Ho & Hn & Hin & Hin' & _).
    assert (∃ l, l ∈ leaves ∧ p_old p = leaf_summary config l) as (l & Hl & Hpl).
    { rewrite Ho in Holds. destruct leaves as [|l [|]]; [done| |done]. exists l. split; [left|]. by injection Holds. }
    destruct (manages_load f st w _ _ Hw (proj1 (Forall_forall _ _) Hst l Hl) eq_refl) as (w' & Hload & Hw').
    rewrite Hpl. rewrite (action_bind_Ok _ _ _ _ _ Hload). cbn [fst node_of leaf Z.eqb].
    unfold p_changes, diff in *. rewrite Ho, Hn in *. cbn in *. destruct (differs _); [|done].
    exists w', []. split; [done|]. split; [done|]. rewrite Hin'. by apply rewrites_same.
  - pose proof Hready as [(ps & Hne & Hps & Hold & _ & _ & _ & Hin & _) Hsto _].
    rewrite Hin in Hsto. apply Forall_cons_1 in Hsto as [Hn _].
    destruct (manages_load f st w _ _ Hw Hn eq_refl) as (w1 & Hload & Hw1). cbn [fst snd] in Hload. rewrite <- Hold in Hload.
    rewrite (action_bind_Ok _ _ _ _ _ Hload).
    assert (leaf (node_of f (Z.of_nat (S h)) (child_entry <$> (p_old <$> ps))) = false) as -> by (cbn [node_of leaf]; apply Z.eqb_neq; lia).
    destruct (rewrite_internal_ok st collect_fuel h ltac:(unfold collect_fuel; lia) p w1 [] Hready Hs Hw1)
      as (w2 & pending & Hrun & Hw2 & Hrw).
    rewrite (action_bind_Ok _ _ _ _ _ Hrun). by exists w2, pending.
Qed.

Lemma finish_fixed_ok st tree es leaves inner es' new cs root' nodes' w stats :
  manages f st w → rebuilt config st tree es leaves inner es' new cs root' nodes' → es ≠ [] →
  has_fixed_separators config (summary f 0 <$> new) (leaf_summary config <$> leaves) = true →
  uncapped f es = true → uncapped f es' = true →
  wrote config st {| t_root := root'; t_config := config |} es' nodes'
    (finish_write tree (leaf_summary config <$> leaves) ((λ n, node_cid n) <$> inner) (summary f 0 <$> new)
       (leaf_of config <$> cs) (w, stats)).
Proof.
  intros Hw Hrb Hne Hfixed Hu Hu'. unfold finish_write. rewrite (action_bind_Ok (tally _) _ _ tt _ eq_refl).
  case_bool_decide as Heq; [by eapply unchanged_wrote|].
  pose proof Hfixed as [[[Hm%bool_decide_eq_true Hi%bool_decide_eq_true]%andb_true_iff _]%andb_true_iff
    Hkeys%bool_decide_eq_true]%andb_true_iff.
  destruct (trees_paired _ _ _ _ _ _ _ _ _ _ Hrb Hne Hm Hi Hkeys Hu Hu')
    as (h & p & above & Hh & Hready & Hroot & -> & Holds & Hnews & -> & Hinner').
  destruct (changes_diff _ _ _ _ _ _ _ _ _ _ Hrb Hkeys) as (ch & Hch & Hdiff & Hsub & Hseen).
  destruct (rebuilt_good config Hcodec _ _ _ _ _ _ _ _ _ _ Hrb) as [_ Hold].
  pose proof Hrb as [Hconf (nodes & _ & Hst & Hinner & _) Hfit Hasc _ Hfit' _ _ Hspec' _ _ _ Hchunks].
  rewrite Hconf, Hfixed, Hch, <- list_fmap_compose. change (el_summary ∘ leaf_of config) with (summary f 0).
  rewrite Hdiff, <- Holds, <- Hnews. fold (p_changes p). set (stats1 := resynced _ _ _).
  destruct (rewrite_paths_ok st tree h p leaves w Hw Hconf Hroot Hready Hh Holds) as (w1 & pending & Hrun & Hw1 & ns & -> & Hns & Hall).
  { eapply Forall_impl; [exact Hold|]. by intros l [_ ?]. }
  { pose proof (first_keys_sorted es _ Hfit Hasc Hchunks) as Hs. rewrite <- (list_fmap_compose chunk_of) in Hs. by rewrite Holds. }
  { intros Hnil. apply Heq. rewrite <- Hnews, <- Holds. f_equal. symmetry. apply diff_nil; [|done].
    by eapply Forall2_length, paired_leaves, rd_paired. }
  rewrite (action_bind_Ok _ _ _ _ _ (on_manager_Ok _ _ _ _ _ Hrun)). cbn [fst snd app]. rewrite filter_fmap_list.
  set (ms := List.filter _ ns). destruct (covered_stored config Hwf Hvalid Hcodec st tree es leaves inner es' new cs _ above ch ms Hrb Hsub Hseen)
    as (Hpubw & Hgoodw & Hallw).
  { intros n (Hn & _)%list_elem_of_In%filter_In. apply Hinner', Hns. by apply list_elem_of_In. }
  { intros n Hn. destruct (Hall n) as [Hin|]; [by apply Hinner'| |by right].
    destruct (decide (node_cid n ∈ (λ n, node_cid n) <$> inner)) as [Hold'|Hout].
    - right. apply list_elem_of_fmap in Hold' as (n' & -> & Hin').
      destruct (proj1 (Forall_forall _ _) Hst n' (Hinner n' Hin')) as (b & Hb & _). by exists b.
    - left. apply list_elem_of_In, filter_In. split; [by apply list_elem_of_In|]. by apply bool_decide_eq_true. }
  destruct (publish_changes_ok config Hwf Hvalid Hcodec st ch ms w1 stats1 Hw1 Hpubw Hgoodw) as (w2 & stats2 & Hp & Hw2).
  rewrite (action_bind_Ok _ _ _ _ _ Hp). eexists _, w2, stats2. split; [done|]. split; [done|].
  split; [by apply consistent_sub, publishable_consistent|done].
Qed.

End rewriting.
End FixedSpec.
