(* ===== verification/Loader.v ===== *)
(** * Owned nodes of the engine (src/prolly/mod.rs)

    Loading nodes for writes: through the node cache or from the store, one at a
    time or many in order with each missing node read once; the admission of
    written nodes; and the engine as the manager of canonical writes
    ([impl CanonicalWriteManager for Prolly]).  The locks of the cache are never
    poisoned in the model. *)

From Stdlib Require Import ZArith Lia Strings.Byte.
From stdpp Require Import base tactics numbers list strings option gmap sorting.
From S2P Require Import Prelude Cursor Types Format Node ReadNode Store NodeCache Emitter Builder Engine Write.

Import Format Config Node ReadNode Store NodeCache Emitter Builder Engine Write.

Local Open Scope Z_scope.

Module Loader.

(** ** Planning a batch of reads *)
(** The identifiers that are not cached, each once, and the slots that wait for them. *)
Record MissingNodeBatch := {
  mb_indexes : gmap Cid nat;
  mb_cids : list Cid;
  mb_positions : list (list nat);
}.
Definition MissingNodeBatch_empty : MissingNodeBatch := {| mb_indexes := ∅; mb_cids := []; mb_positions := [] |}.

Definition mb_record (self : MissingNodeBatch) (cid : Cid) (position : nat) : MissingNodeBatch :=
  match mb_indexes self !! cid with
  | Some index => {|
      mb_indexes := mb_indexes self; mb_cids := mb_cids self;
      mb_positions := alter (λ ps, ps ++ [position]) index (mb_positions self) |}
  | None => {|
      mb_indexes := <[cid := length (mb_cids self)]> (mb_indexes self);
      mb_cids := mb_cids self ++ [cid]; mb_positions := mb_positions self ++ [[position]] |}
  end.

Section plan.
Context {S T : Type} (lookup : Cid → action S (option T)).

Fixpoint plan_from (position : nat) (cids : list Cid) (nodes : list (option T)) (missing : MissingNodeBatch)
    (hits : Z) : action S (list (option T) * MissingNodeBatch * Z) :=
  match cids with
  | [] => mret (nodes, missing, hits)
  | cid :: cids' =>
      lookup cid ≫= λ found : option T,
      match found with
      | Some node => plan_from (Datatypes.S position) cids' (nodes ++ [Some node]) missing (hits + 1)
      | None => plan_from (Datatypes.S position) cids' (nodes ++ [None]) (mb_record missing cid position) hits
      end
  end.

Definition plan_cached_nodes (cids : list Cid) : action S (list (option T) * MissingNodeBatch * Z) :=
  plan_from 0 cids [] MissingNodeBatch_empty 0.

(** [collect::<Option<Vec<_>>>()] over lookups: stops at the first miss. *)
Fixpoint lookup_all (cids : list Cid) : action S (option (list T)) :=
  match cids with
  | [] => mret (Some [])
  | cid :: cids' =>
      lookup cid ≫= λ found : option T,
      match found with
      | Some node => lookup_all cids' ≫= λ rest : option (list T), mret (cons node <$> rest)
      | None => mret None
      end
  end.
End plan.

(** The slots of one node. *)
Definition fill_slots {T} (nodes : list (option T)) (node : T) (positions : list nat) : list (option T) :=
  foldl (λ ns i, <[i := Some node]> ns) nodes positions.

Definition collect {T} (nodes : list (option T)) : outcome Error (list T) := ok_or InvalidNode (mapM id nodes).

(** ** Owned nodes *)
Section owned.
Context `{Hashes} {St : Type} `{Store St}.

Definition cached_peek (cid : Cid) : eng St (option Node) := λ e,
  match peek (en_cache e) cid with
  | Ok (o, c) => (Ok o, set_cache c e)
  | Err x => (Err x, e)
  | Panic s => (Panic s, e)
  end.
Definition cache_unbounded : eng St bool := λ e, (Ok (is_unbounded (en_cache e)), e).
Definition admit_owned (cid : Cid) (node : Node) (weight : Z) : eng St Z := λ e,
  let '(evictions, c) := cache_insert (en_cache e) cid node weight in (Ok evictions, set_cache c e).

(** The lookup of a cache that keeps no recency, or of one that does. *)
Definition cached_node (unbounded : bool) (cid : Cid) : eng St (option Node) :=
  if unbounded then cached_peek cid else cached_owned cid.

Definition load_arc_for_format (cid : Cid) (expected_format : TreeFormat) : eng St Node :=
  cache_unbounded ≫= λ unbounded : bool,
  cached_node unbounded cid ≫= λ cached : option Node,
  match cached with
  | Some node =>
      meter (add_cache_hits 1) ≫= λ _,
      run (validate_cached_node node expected_format) ≫= λ _,
      mret node
  | None =>
      meter (add_cache_misses 1) ≫= λ _,
      from_store (λ s : St, store_get s cid) ≫= λ found : option bytes,
      run (ok_or (NotFound cid) found) ≫= λ data : bytes,
      meter (record_point_read (len data)) ≫= λ _,
      run (decode_owned cid expected_format data) ≫= λ node : Node,
      admit_owned cid node (len data) ≫= λ evictions : Z,
      meter (add_cache_evictions evictions) ≫= λ _,
      mret node
  end.

Definition load_arc (cid : Cid) : eng St Node := λ e,
  load_arc_for_format cid (Config.format (en_config e)) e.

Definition decode_each (expected_format : TreeFormat) (reads : list (Cid * option bytes))
    : outcome Error (list (Cid * Node)) :=
  mapM (λ r : Cid * option bytes,
    data ← ok_or (NotFound r.1) r.2;
    node ← decode_owned r.1 expected_format data;
    Ok (r.1, node)) reads.

(** The decoded nodes enter the cache and their slots. *)
Fixpoint place_decoded (decoded : list (Cid * Node)) (positions : list (list nat)) (nodes : list (option Node))
    (evictions : Z) : eng St (list (option Node) * Z) :=
  match decoded, positions with
  | (cid, node) :: decoded', slots :: positions' =>
      run (Node_encoded_len node) ≫= λ weight : Z,
      admit_owned cid node weight ≫= λ evicted : Z,
      place_decoded decoded' positions' (fill_slots nodes node slots) (evictions + evicted)
  | _, _ => mret (nodes, evictions)
  end.

Definition validate_all (expected_format : TreeFormat) (nodes : list Node) : outcome Error () :=
  foldM (λ _ node, validate_cached_node node expected_format) tt nodes.

Definition load_batch (missing : MissingNodeBatch) (nodes : list (option Node)) (expected_format : TreeFormat)
    : eng St (list Node) :=
  let ks := mb_cids missing in
  meter (add_cache_misses (len ks)) ≫= λ _,
  from_store (λ s : St, batch_get_ordered_unique s ks) ≫= λ loaded : list (option bytes),
  if negb (length loaded =? length ks)%nat then run (Err InvalidNode)
  else
    let found := omap id loaded in
    meter (record_batch_read (len ks) (len (concat found)) (len found)) ≫= λ _,
    run (decode_each expected_format (zip ks loaded)) ≫= λ decoded : list (Cid * Node),
    place_decoded decoded (mb_positions missing) nodes 0 ≫= λ r : list (option Node) * Z,
    meter (add_cache_evictions r.2) ≫= λ _,
    run (collect r.1) ≫= λ nodes : list Node,
    run (validate_all expected_format nodes) ≫= λ _,
    mret nodes.

Definition load_many_ordered_for_format (cids : list Cid) (expected_format : TreeFormat) : eng St (list Node) :=
  if bool_decide (cids = []) then mret []
  else
    lookup_all cached_peek cids ≫= λ cached : option (list Node),
    match cached with
    | Some nodes =>
        run (validate_all expected_format nodes) ≫= λ _,
        meter (add_cache_hits (len nodes)) ≫= λ _,
        mret nodes
    | None =>
        cache_unbounded ≫= λ unbounded : bool,
        plan_cached_nodes (cached_node unbounded) cids ≫= λ plan : list (option Node) * MissingNodeBatch * Z,
        let '(nodes, missing, cache_hits) := plan in
        meter (add_cache_hits cache_hits) ≫= λ _,
        from_store (λ s : St, Ok (store_prefers_batch_reads s)) ≫= λ prefers : bool,
        match mb_cids missing with
        | [] =>
            run (collect nodes) ≫= λ nodes : list Node,
            run (validate_all expected_format nodes) ≫= λ _,
            mret nodes
        | [cid] =>
            if prefers then load_batch missing nodes expected_format
            else
              load_arc_for_format cid expected_format ≫= λ node : Node,
              run (ok_or InvalidNode (head (mb_positions missing))) ≫= λ slots : list nat,
              run (collect (fill_slots nodes node slots))
        | _ => load_batch missing nodes expected_format
        end
    end.

Definition load_many_ordered (cids : list Cid) : eng St (list Node) := λ e,
  load_many_ordered_for_format cids (Config.format (en_config e)) e.

Definition cache_node (cid : Cid) (node : Node) : eng St () :=
  run (Node_encoded_len node) ≫= λ weight : Z,
  admit_owned cid node weight ≫= λ evictions : Z,
  meter (add_cache_evictions evictions).

Definition with_store (e : ProllyEngine St) (store : St) : ProllyEngine St := {|
  en_store := store; en_config := en_config e; en_execution := en_execution e; en_cache := en_cache e;
  en_metrics := en_metrics e; en_recent_leaf := en_recent_leaf e |}.

(** [impl CanonicalWriteManager for Prolly] *)
#[export] Instance engine_manager : WriteManager (ProllyEngine St) := {|
  write_store := en_store;
  with_write_store := with_store;
  write_config := en_config;
  write_load_arc := load_arc;
  write_load_many_ordered := load_many_ordered;
  write_cache_node := cache_node;
  write_record_batch_metrics nodes nbytes := meter (record_batch_write nodes nbytes);
|}.

End owned.
End Loader.
