(* ===== verification/LoaderSpec.v ===== *)
(** * Loading owned nodes is reading the store

    Ordered batch loads return the node of every identifier in its slot, whatever is
    cached and however often an identifier is asked for; so the engine is a manager
    that canonical writes can rely on. *)

From Stdlib Require Import ZArith Lia Strings.Byte.
From stdpp Require Import base tactics numbers list strings option gmap sorting.
From S2P Require Import Prelude Cursor Types Format Node ReadNode Store NodeCache Emitter Builder Entries TreeSpec Engine EngineSpec BuiltTree Write WriteSpec Loader.
Import Format Config Node ReadNode Store NodeCache Emitter Builder Entries TreeSpec Engine EngineSpec BuiltTree Write WriteSpec Loader.

Local Open Scope Z_scope.

Module LoaderSpec.

(** ** Plans *)
Section plan.
Context {T : Type} (R : Cid → T → Prop).

(** A plan for [cids]: the slots that are filled, and those that wait for one of the
    missing identifiers. *)
Record plan_inv (cids : list Cid) (nodes : list (option T)) (m : MissingNodeBatch) : Prop := {
  pi_len : length nodes = length cids;
  pi_found i t cid : nodes !! i = Some (Some t) → cids !! i = Some cid → R cid t;
  pi_nodup : NoDup (mb_cids m);
  pi_lens : length (mb_positions m) = length (mb_cids m);
  pi_index cid j : mb_indexes m !! cid = Some j ↔ mb_cids m !! j = Some cid;
  pi_missing i cid : cids !! i = Some cid → nodes !! i = Some None →
    ∃ j ps, mb_cids m !! j = Some cid ∧ mb_positions m !! j = Some ps ∧ i ∈ ps;
  pi_slots j ps i : mb_positions m !! j = Some ps → i ∈ ps → ∃ cid, mb_cids m !! j = Some cid ∧ cids !! i = Some cid;
  pi_members cid : cid ∈ mb_cids m → cid ∈ cids;
}.

Lemma plan_inv_nil : plan_inv [] [] MissingNodeBatch_empty.
Proof.
  constructor; cbn; try done. constructor.
Qed.

Lemma snoc_lookup {A} (l : list A) x i y : (l ++ [x]) !! i = Some y → l !! i = Some y ∨ i = length l ∧ y = x.
Proof. intros [Hl|[Hi Hx]]%lookup_snoc_Some; [left; tauto|right; by split]. Qed.

Lemma plan_found cids nodes m cid t :
  plan_inv cids nodes m → R cid t → plan_inv (cids ++ [cid]) (nodes ++ [Some t]) m.
Proof.
  intros [Hl Hf Hnd Hls Hi Hm Hs Hmem] Ht. constructor; try done.
  - by rewrite !length_app, Hl.
  - intros i t' c [Hn|[-> [= ->]]]%snoc_lookup Hc.
    + apply (Hf i); [done|]. rewrite lookup_app_l in Hc; [done|]. rewrite <- Hl. by eapply lookup_lt_Some.
    + rewrite Hl, list_lookup_middle in Hc by done. by injection Hc as <-.
  - intros i c [Hc|[-> ->]]%snoc_lookup Hn.
    + apply Hm; [done|]. rewrite lookup_app_l in Hn; [done|]. rewrite Hl. by eapply lookup_lt_Some.
    + rewrite <- Hl, list_lookup_middle in Hn by done. done.
  - intros j ps i Hj Hin. destruct (Hs j ps i Hj Hin) as (c & Hc & Hci). exists c. split; [done|].
    by apply lookup_app_l_Some.
  - intros c Hc. apply elem_of_app. left. by apply Hmem.
Qed.

Lemma slot_append (positions : list (list nat)) j p i ps :
  alter (λ ps, ps ++ [p]) j positions !! i = Some ps →
  ∃ qs, positions !! i = Some qs ∧ (ps = qs ∨ i = j ∧ ps = qs ++ [p]).
Proof.
  destruct (decide (i = j)) as [->|Hne].
  - rewrite list_lookup_alter_eq. intros (qs & -> & ->)%fmap_Some. exists qs. auto.
  - rewrite list_lookup_alter_ne by done. intros Hi. exists ps. auto.
Qed.

Lemma plan_again cids nodes m cid j :
  plan_inv cids nodes m → mb_cids m !! j = Some cid →
  plan_inv (cids ++ [cid]) (nodes ++ [None])
    {| mb_indexes := mb_indexes m; mb_cids := mb_cids m;
       mb_positions := alter (λ ps, ps ++ [length cids]) j (mb_positions m) |}.
Proof.
  intros [Hl Hf Hnd Hls Hi Hm Hs Hmem] Hj. constructor; cbn [mb_indexes mb_cids mb_positions]; try done.
  - by rewrite !length_app, Hl.
  - intros i t c [Hn|[_ ?]]%snoc_lookup Hc; [|done]. apply (Hf i); [done|].
    rewrite lookup_app_l in Hc; [done|]. rewrite <- Hl. by eapply lookup_lt_Some.
  - by rewrite length_alter.
  - intros i c [Hc|[-> ->]]%snoc_lookup Hn.
    + rewrite lookup_app_l in Hn by (rewrite Hl; by eapply lookup_lt_Some).
      destruct (Hm i c Hc Hn) as (k & ps & Hk & Hps & Hin). destruct (decide (k = j)) as [->|Hne].
      * exists j, (ps ++ [length cids]). split; [done|]. rewrite list_lookup_alter_eq, Hps. split; [done|]. apply elem_of_app. by left.
      * exists k, ps. rewrite list_lookup_alter_ne by done. done.
    + destruct (lookup_lt_is_Some_2 (mb_positions m) j) as [ps Hps]; [rewrite Hls; by eapply lookup_lt_Some|].
      exists j, (ps ++ [length cids]). split; [done|]. rewrite list_lookup_alter_eq, Hps. split; [done|].
      apply elem_of_app. right. by apply list_elem_of_singleton.
  - intros i ps p (qs & Hqs & Hps)%slot_append Hin. destruct (decide (p ∈ qs)) as [Hin'|Hout].
    + destruct (Hs i qs p Hqs Hin') as (c & Hc & Hp). exists c. split; [done|]. by apply lookup_app_l_Some.
    + destruct Hps as [->|[-> ->]]; [done|]. apply elem_of_app in Hin as [?| ->%list_elem_of_singleton]; [done|].
      exists cid. split; [done|]. by rewrite list_lookup_middle.
  - intros c Hc. apply elem_of_app. left. by apply Hmem.
Qed.

Lemma plan_first cids nodes m cid :
  plan_inv cids nodes m → mb_indexes m !! cid = None →
  plan_inv (cids ++ [cid]) (nodes ++ [None])
    {| mb_indexes := <[cid := length (mb_cids m)]> (mb_indexes m);
       mb_cids := mb_cids m ++ [cid]; mb_positions := mb_positions m ++ [[length cids]] |}.
Proof.
  intros [Hl Hf Hnd Hls Hi Hm Hs Hmem] Hnone.
  assert (cid ∉ mb_cids m) as Hout by (intros [j Hj]%list_elem_of_lookup; apply Hi in Hj; congruence).
  constructor; cbn [mb_indexes mb_cids mb_positions].
  - by rewrite !length_app, Hl.
  - intros i t c [Hn|[_ ?]]%snoc_lookup Hc; [|done]. apply (Hf i); [done|].
    rewrite lookup_app_l in Hc; [done|]. rewrite <- Hl. by eapply lookup_lt_Some.
  - apply NoDup_app. split; [done|]. split; [by intros x Hx ->%list_elem_of_singleton|]. apply NoDup_singleton.
  - by rewrite !length_app, Hls.
  - intros c j. destruct (decide (c = cid)) as [->|Hne].
    + rewrite lookup_insert_eq. split; [intros [= <-]; by rewrite list_lookup_middle|].
      intros [Hj|[-> _]]%snoc_lookup; [|done]. destruct Hout. apply list_elem_of_lookup. by exists j.
    + rewrite lookup_insert_ne by done. rewrite Hi. split; [apply lookup_app_l_Some|].
      by intros [Hj|[_ ->]]%snoc_lookup.
  - intros i c [Hc|[-> ->]]%snoc_lookup Hn.
    + rewrite lookup_app_l in Hn by (rewrite Hl; by eapply lookup_lt_Some).
      destruct (Hm i c Hc Hn) as (k & ps & Hk & Hps & Hin). exists k, ps.
      split; [by apply lookup_app_l_Some|]. split; [by apply lookup_app_l_Some|done].
    + exists (length (mb_cids m)), [length cids]. rewrite list_lookup_middle by done.
      rewrite <- Hls, list_lookup_middle by done. split; [done|]. split; [done|]. by apply list_elem_of_singleton.
  - intros j ps i [Hj|[-> ->]]%snoc_lookup Hin.
    + destruct (Hs j ps i Hj Hin) as (c & Hc & Hp). exists c. split; by apply lookup_app_l_Some.
    + apply list_elem_of_singleton in Hin as ->. exists cid. rewrite Hls, !list_lookup_middle by done. done.
  - intros c [Hc|Hc]%elem_of_app; apply elem_of_app; [left; by apply Hmem|by right].
Qed.

Lemma plan_missing cids nodes m cid :
  plan_inv cids nodes m → plan_inv (cids ++ [cid]) (nodes ++ [None]) (mb_record m cid (length cids)).
Proof.
  intros Hinv. unfold mb_record. destruct (mb_indexes m !! cid) as [j|] eqn:Hj.
  - apply (pi_index _ _ _ Hinv) in Hj. by apply plan_again.
  - by apply plan_first.
Qed.

(** The plan of a lookup that finds right values. *)
Lemma plan_ok {S} (lookup : Cid → action S (option T)) (Inv : S → Prop) cids :
  (∀ cid s, cid ∈ cids → Inv s → ∃ o s', lookup cid s = (Ok o, s') ∧ Inv s' ∧ from_option (R cid) True o) →
  ∀ s, Inv s → ∃ nodes m hits s', plan_cached_nodes lookup cids s = (Ok (nodes, m, hits), s') ∧ Inv s' ∧ plan_inv cids nodes m.
Proof.
  intros Hlookup. unfold plan_cached_nodes.
  assert (∀ rest pre nodes m hits s, cids = pre ++ rest → plan_inv pre nodes m → Inv s →
    ∃ nodes' m' hits' s', plan_from lookup (length pre) rest nodes m hits s = (Ok (nodes', m', hits'), s') ∧ Inv s' ∧
      plan_inv cids nodes' m') as Hplan; [|intros s Hs; by apply (Hplan cids []); [|apply plan_inv_nil|]].
  induction rest as [|cid rest IH]; intros pre nodes m hits s Heq Hinv Hs.
  { rewrite app_nil_r in Heq. subst cids. by eexists nodes, m, hits, s. }
  destruct (Hlookup cid s) as (o & s1 & Hl & Hs1 & Ho); [rewrite Heq, elem_of_app; right; left|done|].
  cbn [plan_from]. rewrite (action_bind_Ok _ _ _ _ _ Hl).
  replace (Datatypes.S (length pre)) with (length (pre ++ [cid])) by (rewrite length_app; cbn; lia).
  destruct o as [t|]; (apply IH; [by rewrite <- app_assoc| |done]); [by apply plan_found|by apply plan_missing].
Qed.

(** ** Filling the slots *)
Fixpoint fill_all (nodes : list (option T)) (values : list T) (positions : list (list nat)) : list (option T) :=
  match values, positions with
  | v :: values', slots :: positions' => fill_all (fill_slots nodes v slots) values' positions'
  | _, _ => nodes
  end.

Lemma fill_slots_length (nodes : list (option T)) v slots : length (fill_slots nodes v slots) = length nodes.
Proof. unfold fill_slots. revert nodes; induction slots as [|p slots IH]; intros nodes; [done|]. cbn. by rewrite IH, length_insert. Qed.

Lemma fill_slots_lookup (nodes : list (option T)) v slots i :
  (i < length nodes)%nat →
  fill_slots nodes v slots !! i = if decide (i ∈ slots) then Some (Some v) else nodes !! i.
Proof.
  unfold fill_slots. revert nodes; induction slots as [|p slots IH]; intros nodes Hi; [by case_decide as Hin; [apply not_elem_of_nil in Hin|]|].
  cbn [foldl]. rewrite IH by (by rewrite length_insert). destruct (decide (i ∈ slots)) as [Hin|Hout].
  - rewrite decide_True; [done|]. by right.
  - destruct (decide (i = p)) as [->|Hne].
    + rewrite list_lookup_insert_eq by done. rewrite decide_True; [done|left].
    + rewrite list_lookup_insert_ne by done. rewrite decide_False; [done|]. by intros [?|?]%elem_of_cons.
Qed.

Lemma fill_all_lookup (nodes : list (option T)) values positions i :
  (i < length nodes)%nat →
  (∃ j ps v, positions !! j = Some ps ∧ i ∈ ps ∧ values !! j = Some v ∧ fill_all nodes values positions !! i = Some (Some v)) ∨
  fill_all nodes values positions !! i = nodes !! i ∧
    (∀ j ps v, positions !! j = Some ps → values !! j = Some v → i ∉ ps).
Proof.
  revert nodes positions; induction values as [|v values IH]; intros nodes positions Hi; [by right|].
  destruct positions as [|slots positions]; [by right|]. cbn [fill_all].
  destruct (IH (fill_slots nodes v slots) positions) as [(j & ps & u & Hj & Hin & Hv & Hr)|[Hr Hnone]];
    [by rewrite fill_slots_length|by left; exists (S j), ps, u|].
  rewrite (fill_slots_lookup nodes v slots i Hi) in Hr. case_decide as Hin.
  - left. by exists 0%nat, slots, v.
  - right. split; [done|]. intros [|j] ps u Hj Hu; [by injection Hj as <-|by eapply Hnone].
Qed.

Lemma fill_all_length nodes values positions : length (fill_all nodes values positions) = length nodes.
Proof.
  revert nodes positions; induction values as [|v values IH]; intros nodes [|slots positions]; [done..|]. cbn.
  by rewrite IH, fill_slots_length.
Qed.

Lemma collect_ok cids (nodes : list (option T)) :
  length nodes = length cids → (∀ i cid, cids !! i = Some cid → ∃ t, nodes !! i = Some (Some t) ∧ R cid t) →
  ∃ ns, collect nodes = Ok ns ∧ Forall2 R cids ns.
Proof.
  revert nodes; induction cids as [|cid cids IH]; intros [|o nodes] Hlen Hall; [by exists []|done..|].
  destruct (IH nodes) as (ns & Hns & Hall'); [by injection Hlen|intros i; apply (Hall (S i))|].
  destruct (Hall 0%nat cid eq_refl) as (t & Ht & HR). injection Ht as ->. exists (t :: ns). split; [|by constructor].
  unfold collect in *. change (mapM id (Some t :: nodes)) with (y ← Some t; l ← mapM id nodes; Some (y :: l)).
  cbn [mbind option_bind]. destruct (mapM id nodes); [|done]. injection Hns as ->. done.
Qed.

Lemma fill_all_ok cids nodes m values :
  plan_inv cids nodes m → Forall2 R (mb_cids m) values →
  ∃ ns, collect (fill_all nodes values (mb_positions m)) = Ok ns ∧ Forall2 R cids ns.
Proof.
  intros [Hl Hf Hnd Hls Hi Hm Hs Hmem] Hv. apply collect_ok; [by rewrite fill_all_length|]. intros i cid Hcid.
  assert (i < length nodes)%nat as Hlt by (rewrite Hl; by eapply lookup_lt_Some).
  destruct (fill_all_lookup nodes values (mb_positions m) i Hlt) as [(j & ps & v & Hj & Hin & Hvj & ->)|[-> Hnone]].
  - exists v. split; [done|]. destruct (Hs j ps i Hj Hin) as (c & Hc & Hci). rewrite Hcid in Hci. injection Hci as <-.
    by eapply Forall2_lookup_lr.
  - destruct (lookup_lt_is_Some_2 nodes i Hlt) as [[t|] Ht]; [exists t; split; [done|by eapply Hf]|].
    destruct (Hm i cid Hcid Ht) as (j & ps & Hj & Hps & Hin).
    destruct (Forall2_lookup_l _ _ _ _ _ Hv Hj) as (v & Hvj & _). by destruct (Hnone j ps v Hps Hvj).
Qed.

End plan.
(** ** The engine *)
Section engine.
Context `{HashesOk} {St : Type} `{StoreOk St}.

Implicit Types (e : ProllyEngine St) (st : gmap bytes bytes).

(** An engine of format [f] over the store [st]. *)
Definition engine_manages (f : TreeFormat) st e : Prop := engine_ok st e ∧ Config.format (en_config e) = f.

Lemma meter_manages f st g e : engine_manages f st e → ∃ e', meter g e = (Ok tt, e') ∧ engine_manages f st e'.
Proof. intros [He Hf]. destruct (meter_ok st g e He) as (e' & Hm & He'). exists e'. split; [done|]. split; [done|]. by injection Hm as <-. Qed.

Lemma peek_manages f st cid e :
  engine_manages f st e →
  ∃ o e', cached_peek cid e = (Ok o, e') ∧ engine_manages f st e' ∧ from_option (stored_node st cid) True o.
Proof.
  intros [[Hs Hc Hr] Hf]. unfold cached_peek. destruct (peek_holds _ _ cid Hc) as (o & c & -> & Hh & Ho).
  exists o, (set_cache c e). split; [done|]. split; [|done]. by split; [constructor|].
Qed.

Lemma owned_manages f st cid e :
  engine_manages f st e →
  ∃ o e', cached_owned cid e = (Ok o, e') ∧ engine_manages f st e' ∧ from_option (stored_node st cid) True o.
Proof.
  intros [[Hs Hc Hr] Hf]. unfold cached_owned. destruct (cache_get_holds _ _ cid Hc) as (o & c & -> & Hh & Ho).
  exists o, (set_cache c e). split; [done|]. split; [|done]. by split; [constructor|].
Qed.

Lemma cached_node_manages f st unbounded cid e :
  engine_manages f st e →
  ∃ o e', cached_node unbounded cid e = (Ok o, e') ∧ engine_manages f st e' ∧ from_option (stored_node st cid) True o.
Proof. destruct unbounded; [apply peek_manages|apply owned_manages]. Qed.

Lemma admit_manages f st cid n weight e :
  engine_manages f st e → stored_node st cid n →
  ∃ z e', admit_owned cid n weight e = (Ok z, e') ∧ engine_manages f st e'.
Proof.
  intros [[Hs Hc Hr] Hf] Hn. unfold admit_owned, cache_insert.
  pose proof (insert_owned_holds _ _ cid n weight false Hc Hn) as Hh.
  destruct (insert_owned_with_pin _ _ _ _ _) as [[np ev] c]. cbn [snd] in Hh.
  exists ev, (set_cache c e). split; [done|]. by split; [constructor|].
Qed.

Lemma validate_format_ok n : validate_cached_node n (format n) = Ok tt.
Proof. unfold validate_cached_node. by rewrite bool_decide_eq_true_2. Qed.

Lemma decode_owned_ok st cid n b :
  stored_node st cid n → st !! cid = Some b → decode_owned cid (format n) b = Ok n.
Proof.
  intros (b' & Hb' & Hcid & _ & Hfrom & _) Hb. rewrite Hb' in Hb. injection Hb as ->.
  unfold decode_owned, validate_cid, from_bytes_with_format. rewrite Hcid, bool_decide_eq_true_2 by done. cbn [mbind outcome_bind].
  rewrite Hfrom. cbn [mbind outcome_bind]. by rewrite bool_decide_eq_true_2.
Qed.

Ltac mstep lem :=
  let e1 := fresh "e" in let Heq := fresh "Heq" in let Hok := fresh "Hok" in
  edestruct lem as (e1 & Heq & Hok); [eassumption|]; rewrite (action_bind_Ok _ _ _ _ _ Heq).

Lemma load_arc_manages f st cid n e :
  engine_manages f st e → stored_node st cid n →
  ∃ e', load_arc_for_format cid (format n) e = (Ok n, e') ∧ engine_manages f st e'.
Proof.
  intros He Hn. unfold load_arc_for_format. rewrite (action_bind_Ok cache_unbounded _ _ _ _ eq_refl).
  destruct (cached_node_manages f st (is_unbounded (en_cache e)) cid e He) as (o & e1 & Hc & He1 & Ho).
  rewrite (action_bind_Ok _ _ _ _ _ Hc). destruct o as [n'|].
  - cbn in Ho. rewrite (stored_node_unique _ _ _ _ Ho Hn). mstep (meter_manages f st (add_cache_hits 1) e1).
    rewrite (action_bind_Ok (run _) _ e0 tt e0) by (unfold run; by rewrite validate_format_ok). by exists e0.
  - mstep (meter_manages f st (add_cache_misses 1) e1). destruct (Hn) as (b & Hb & _).
    rewrite (action_bind_Ok (from_store _) _ e0 (Some b) e0)
      by (unfold from_store; rewrite get_ok; destruct Hok as [[-> _ _] _]; by rewrite Hb).
    rewrite (action_bind_Ok (run _) _ e0 b e0) by done. mstep (meter_manages f st (record_point_read (len b)) e0).
    rewrite (action_bind_Ok (run _) _ e2 n e2) by (unfold run; by erewrite decode_owned_ok).
    destruct (admit_manages f st cid n (len b) e2 Hok0 Hn) as (z & e3 & Ha & He3). rewrite (action_bind_Ok _ _ _ _ _ Ha).
    mstep (meter_manages f st (add_cache_evictions z) e3). by exists e4.
Qed.

Lemma validate_all_ok g ns : Forall (λ n, format n = g) ns → validate_all g ns = Ok tt.
Proof. induction 1 as [|n ns <- _ IH]; [done|]. unfold validate_all in *. cbn [foldM]. by rewrite validate_format_ok. Qed.

Lemma lookup_all_manages f st cids ns e :
  engine_manages f st e → Forall2 (stored_node st) cids ns →
  ∃ o e', lookup_all cached_peek cids e = (Ok o, e') ∧ engine_manages f st e' ∧ (o = None ∨ o = Some ns).
Proof.
  intros He Hall. revert e He; induction Hall as [|cid n cids ns Hn _ IH]; intros e He; [exists (Some []), e; auto|].
  cbn [lookup_all]. destruct (peek_manages f st cid e He) as (o & e1 & Hc & He1 & Ho). rewrite (action_bind_Ok _ _ _ _ _ Hc).
  destruct o as [n'|]; [|exists None, e1; auto]. cbn in Ho. rewrite (stored_node_unique _ _ _ _ Ho Hn).
  destruct (IH e1 He1) as (o & e2 & Hl & He2 & Hns). rewrite (action_bind_Ok _ _ _ _ _ Hl).
  exists (cons n <$> o), e2. split; [done|]. split; [done|]. destruct Hns as [-> | ->]; auto.
Qed.

Lemma place_decoded_manages f st cids ns positions nodes z e :
  engine_manages f st e → Forall2 (stored_node st) cids ns →
  ∃ z' e', place_decoded (zip cids ns) positions nodes z e = (Ok (fill_all nodes ns positions, z'), e') ∧ engine_manages f st e'.
Proof.
  intros He Hall. revert positions nodes z e He; induction Hall as [|cid n cids ns Hn _ IH]; intros positions nodes z e He.
  { by exists z, e. }
  destruct positions as [|slots positions]; [by exists z, e|].
  cbn [zip zip_with place_decoded fill_all]. destruct (Hn) as (b & _ & _ & Hb & _). destruct (encoded_len_ok n b Hb) as (w & Hw).
  rewrite (action_bind_Ok (run _) _ e w e) by (unfold run; by rewrite Hw).
  destruct (admit_manages f st cid n w e He Hn) as (z1 & e1 & Ha & He1). rewrite (action_bind_Ok _ _ _ _ _ Ha).
  by apply IH.
Qed.

Lemma stored_unique st cids ns ns' : Forall2 (stored_node st) cids ns → Forall2 (stored_node st) cids ns' → ns = ns'.
Proof.
  intros Hall. revert ns'; induction Hall as [|cid n cids ns Hn _ IH]; intros ns' Hall'; inversion Hall'; subst; [done|].
  f_equal; [by eapply stored_node_unique|by apply IH].
Qed.

Lemma stored_some st cids ns ks :
  Forall2 (stored_node st) cids ns → (∀ k, k ∈ ks → k ∈ cids) →
  ∃ vs, Forall2 (stored_node st) ks vs ∧ vs ⊆ ns.
Proof.
  intros Hall. induction ks as [|k ks IH]; intros Hsub; [exists []; split; [constructor|apply list_subseteq_nil]|].
  destruct IH as (vs & Hvs & Hin); [intros k' Hk'; apply Hsub; by right|].
  destruct (proj1 (list_elem_of_lookup _ _) (Hsub k (list_elem_of_here _ _))) as [i Hi].
  destruct (Forall2_lookup_l _ _ _ _ _ Hall Hi) as (n & Hni & Hn). exists (n :: vs). split; [by constructor|].
  intros x [->|Hx]%elem_of_cons; [apply list_elem_of_lookup; by exists i|by apply Hin].
Qed.

Lemma decode_each_ok st g ks vs :
  Forall2 (stored_node st) ks vs → Forall (λ n, format n = g) vs →
  decode_each g (zip ks ((λ k, st !! k) <$> ks)) = Ok (zip ks vs).
Proof.
  intros Hall. induction Hall as [|k n ks vs Hn _ IH]; intros Hf; [done|]. apply Forall_cons_1 in Hf as [<- Hf].
  cbn [fmap list_fmap zip zip_with]. unfold decode_each in *.
  change (mapM ?g (?x :: ?l)) with (y ← g x; ys ← mapM g l; Ok (y :: ys)). cbn [fst snd].
  destruct (Hn) as (b & Hb & _). rewrite Hb. cbn [ok_or mbind outcome_bind].
  rewrite (decode_owned_ok st k n b Hn Hb). cbn [mbind outcome_bind]. change (zip_with pair ?a ?b) with (zip a b). by rewrite IH.
Qed.

Lemma batch_unique_ok (store : St) ks : batch_get_ordered_unique store ks = Ok ((λ k, contents store !! k) <$> ks).
Proof.
  unfold batch_get_ordered_unique. case_bool_decide as Hnil; [by subst|]. clear Hnil.
  destruct (negb _); [|apply batch_get_ordered_ok]. induction ks as [|k ks IH]; [done|].
  change (mapM ?g (?x :: ?l)) with (y ← g x; ys ← mapM g l; Ok (y :: ys)). by rewrite get_ok, IH.
Qed.

Lemma load_batch_manages f st g cids ns nodes m e :
  engine_manages f st e → plan_inv (stored_node st) cids nodes m →
  Forall2 (stored_node st) cids ns → Forall (λ n, format n = g) ns →
  ∃ e', load_batch m nodes g e = (Ok ns, e') ∧ engine_manages f st e'.
Proof.
  intros He Hinv Hall Hf. unfold load_batch. mstep (meter_manages f st (add_cache_misses (len (mb_cids m))) e).
  destruct (stored_some st cids ns (mb_cids m) Hall (pi_members _ _ _ _ Hinv)) as (vs & Hvs & Hsub).
  assert (Forall (λ n, format n = g) vs) as Hfv.
  { apply Forall_forall. intros n Hn. by apply (proj1 (Forall_forall _ _) Hf), Hsub. }
  rewrite (action_bind_Ok (from_store _) _ e0 ((λ k, st !! k) <$> mb_cids m) e0).
  2: { unfold from_store. rewrite batch_unique_ok. by destruct Hok as [[-> _ _] _]. }
  rewrite length_fmap, Nat.eqb_refl. cbn [negb]. set (found := omap id _).
  mstep (meter_manages f st (record_batch_read (len (mb_cids m)) (len (concat found)) (len found)) e0).
  rewrite (action_bind_Ok (run _) _ e1 (zip (mb_cids m) vs) e1) by (unfold run; by rewrite (decode_each_ok st g _ vs)).
  destruct (place_decoded_manages f st (mb_cids m) vs (mb_positions m) nodes 0 e1 Hok0 Hvs) as (z & e2 & Hp & He2).
  rewrite (action_bind_Ok _ _ _ _ _ Hp). cbn [fst snd]. mstep (meter_manages f st (add_cache_evictions z) e2).
  destruct (fill_all_ok _ _ _ _ vs Hinv Hvs) as (ns' & Hns & Hall'). rewrite (stored_unique _ _ _ _ Hall' Hall) in Hns.
  rewrite (action_bind_Ok (run _) _ e3 ns e3) by (unfold run; by rewrite Hns).
  rewrite (action_bind_Ok (run _) _ e3 tt e3) by (unfold run; by rewrite validate_all_ok). by exists e3.
Qed.

Lemma load_many_manages f st g cids ns e :
  engine_manages f st e → Forall2 (stored_node st) cids ns → Forall (λ n, format n = g) ns →
  ∃ e', load_many_ordered_for_format cids g e = (Ok ns, e') ∧ engine_manages f st e'.
Proof.
  intros He Hall Hf. unfold load_many_ordered_for_format.
  destruct (bool_decide (cids = [])) eqn:Hnil; [apply bool_decide_eq_true in Hnil as ->; inversion Hall; subst; by exists e|].
  destruct (lookup_all_manages f st cids ns e He Hall) as (o & e1 & Hl & He1 & Ho). rewrite (action_bind_Ok _ _ _ _ _ Hl).
  destruct Ho as [-> | ->].
  2: { rewrite (action_bind_Ok (run _) _ e1 tt e1) by (unfold run; by rewrite validate_all_ok).
       mstep (meter_manages f st (add_cache_hits (len ns)) e1). by exists e0. }
  rewrite (action_bind_Ok cache_unbounded _ _ _ _ eq_refl).
  destruct (plan_ok (stored_node st) (cached_node (is_unbounded (en_cache e1))) (engine_manages f st) cids) with (s := e1)
    as (nodes & m & hits & e2 & Hp & He2 & Hinv); [intros cid s _; apply cached_node_manages|done|].
  rewrite (action_bind_Ok _ _ _ _ _ Hp). mstep (meter_manages f st (add_cache_hits hits) e2).
  rewrite (action_bind_Ok (from_store _) _ e0 (store_prefers_batch_reads (en_store e0)) e0) by done.
  pose proof (load_batch_manages f st g cids ns nodes m e0 Hok Hinv Hall Hf) as Hbatch.
  destruct (mb_cids m) as [|cid [|]] eqn:Hm.
  - destruct (fill_all_ok _ _ _ _ [] Hinv) as (ns' & Hns & Hall'); [rewrite Hm; constructor|].
    rewrite (stored_unique _ _ _ _ Hall' Hall) in Hns. cbn [fill_all] in Hns.
    rewrite (action_bind_Ok (run _) _ e0 ns e0) by (unfold run; by rewrite Hns).
    rewrite (action_bind_Ok (run _) _ e0 tt e0) by (unfold run; by rewrite validate_all_ok). by exists e0.
  - destruct (store_prefers_batch_reads (en_store e0)); [done|].
    destruct (stored_some st cids ns (mb_cids m) Hall (pi_members _ _ _ _ Hinv)) as (vs & Hvs & Hsub). rewrite Hm in Hvs.
    inversion Hvs as [|? n ? vs' Hn Hvs']; subst. inversion Hvs'; subst.
    assert (format n = g) as Hg by (apply (proj1 (Forall_forall _ _) Hf), Hsub; left).
    destruct (load_arc_manages f st cid n e0 Hok Hn) as (e3 & Hla & He3). rewrite Hg in Hla. rewrite (action_bind_Ok _ _ _ _ _ Hla).
    destruct (fill_all_ok _ _ _ _ [n] Hinv) as (ns' & Hns & Hall'); [rewrite Hm; by repeat constructor|].
    rewrite (stored_unique _ _ _ _ Hall' Hall) in Hns. pose proof (pi_lens _ _ _ _ Hinv) as Hlen. rewrite Hm in Hlen.
    destruct (mb_positions m) as [|slots [|]]; [done| |done]. cbn [fill_all] in Hns.
    rewrite (action_bind_Ok (run _) _ e3 slots e3) by done. exists e3. split; [|done]. unfold run. by rewrite Hns.
  - done.
Qed.

Lemma leaf_under_keep writes st root n : consistent writes st → leaf_under st root n → leaf_under (put_all writes st) root n.
Proof.
  intros Hc. induction 1 as [cid n Hn Hl|cid n child m Hn Hl Hin _ IH].
  - apply leaf_here; [by apply stored_node_keep|done].
  - eapply leaf_below; [by apply stored_node_keep|done|done|done].
Qed.

Lemma writes_manages f st e writes :
  engine_manages f st e → consistent writes st →
  ∃ store, store_batch_put (en_store e) writes = Ok store ∧ engine_manages f (put_all writes st) (with_store e store).
Proof.
  intros [[Hs Hc Hr] Hf] Hcons. destruct (batch_put_ok (en_store e) writes) as (store & Hput & Hst).
  exists store. split; [done|]. split; [|done]. constructor; cbn [with_store en_store en_cache en_recent_leaf].
  - by rewrite Hst, Hs.
  - intros cid entry He. destruct (Hc cid entry He) as (n & Hn & ?). exists n. split; [by apply stored_node_keep|done].
  - intros root rl Hrl. destruct (Hr root rl Hrl) as (n & Hv & Hu). exists n. split; [done|]. by apply leaf_under_keep.
Qed.

(** The engine keeps what canonical writes expect of their manager. *)
#[export] Instance engine_manager_ok : WriteManagerOk (ProllyEngine St).
Proof.
  refine {| manages := engine_manages |}.
  - intros f st e cid n He Hn Hf. destruct (load_arc_manages f st cid n e He Hn) as (e' & Hl & He').
    exists e'. split; [|done]. cbn [write_load_arc engine_manager]. unfold load_arc. destruct He as [_ ->]. by rewrite <- Hf.
  - intros f st e cids ns He Hns Hf. destruct (load_many_manages f st f cids ns e He Hns Hf) as (e' & Hl & He').
    exists e'. split; [|done]. cbn [write_load_many_ordered engine_manager]. unfold load_many_ordered. by destruct He as [_ ->].
  - intros f st e cid n He Hn _. cbn [write_cache_node engine_manager]. unfold cache_node.
    destruct (Hn) as (b & _ & _ & Hb & _). destruct (encoded_len_ok n b Hb) as (w & Hw).
    rewrite (action_bind_Ok (run _) _ e w e) by (unfold run; by rewrite Hw).
    destruct (admit_manages f st cid n w e He Hn) as (z & e1 & Ha & He1). rewrite (action_bind_Ok _ _ _ _ _ Ha).
    by apply meter_manages.
  - intros f st e nodes nbytes He. by apply meter_manages.
  - intros f st e writes He Hc. by apply writes_manages.
Defined.

End engine.
End LoaderSpec.
