(* ===== verification/CanonicalWrite.v ===== *)
(** * Canonical writes

    The general path of a write, from the old leaves to the published nodes, against
    the specification of trees: on a store that holds the tree of a map, the write
    returns the tree of the updated map and leaves it in the store, and reads of the
    new tree see the update. *)

From Stdlib Require Import ZArith Lia Strings.Byte.
From stdpp Require Import base tactics numbers list strings option gmap sorting.
From S2P Require Import Prelude Cursor Types Format Boundary Node ReadNode Sizer Chunks ChunkSpec Store NodeCache Emitter EmitterSpec Builder Entries BuilderSpec TreeSpec Engine EngineSpec BuiltTree Write Updates ReplaySpec WriteSpec RebuildSpec FixedSpec Loader LoaderSpec.
Import Format Node ReadNode ChunkSpec Store NodeCache Emitter EmitterSpec Builder Entries BuilderSpec TreeSpec Engine EngineSpec BuiltTree Write Updates ReplaySpec WriteSpec RebuildSpec FixedSpec Loader LoaderSpec.

Local Open Scope Z_scope.

Module CanonicalWrite.

(** ** Mutations *)
(** The map after the mutations, in their order. *)
Definition mutate (m : gmap bytes bytes) (muts : list Mutation) : gmap bytes bytes :=
  foldl apply_mutation m (mutation_parts <$> muts).

Lemma normalize_ascending muts : ascending (normalize muts).
Proof. rewrite normalize_eq. apply canonical_ascending. Qed.

Lemma normalize_map es muts :
  ascending es → final_map (updated es (normalize muts)) = mutate (final_map es) muts.
Proof.
  intros Hes. rewrite updated_map by (done || apply normalize_ascending). unfold mutate.
  by rewrite apply_mutations, normalize_eq, canonical_map.
Qed.

Section write.
Context `{HashesOk} {W St : Type} `{Store St} `{!WriteManager W} `{!WriteManagerOk W}.

(** A write to the tree of [es] that gives the tree of [es'].  The old tree is not empty (a
    write to an empty one never reaches the general path) and is the one that building
    its map gives; the new tree exists (no entry is over the byte limit), and its nodes do
    not collide with what is stored.  Where chunks are measured in entries and cut by keys, the write may
    keep the shape above the leaves; there the byte limit has cut no node above the
    leaves of the old tree or of the new one. *)
Record write_input (config : Config.Config) (st : gmap bytes bytes) (tree : Tree) (es es' : list kv)
    (nodes nodes' : list (Z * list node_entry)) (root' : option Cid) : Prop := {
  wi_wf : TreeFormat_wf (Config.format config);
  wi_valid : validate (Config.format config) = Ok tt;
  wi_codec : has_codec (Config.format config);
  wi_old : canonical config st tree es nodes;
  wi_some : es ≠ [];
  wi_asc : ascending es; wi_fit : entries_fit config es;
  wi_asc' : ascending es'; wi_fit' : entries_fit config es';
  wi_new : tree_spec (Config.format config) es' = Ok (root', nodes');
  wi_pub : publishable config st nodes';
  wi_cap : measure (chunking (Config.format config)) = EntryCount → input (chunking (Config.format config)) = Key →
           uncapped (Config.format config) es = true ∧ uncapped (Config.format config) es' = true;
}.

Lemma apply_structural_ok config st tree es ms nodes nodes' root' measure (w : W) stats :
  write_input config st tree es (updated es ms) nodes nodes' root' → ascending ms →
  manages (Config.format config) st w →
  wrote config st {| t_root := root'; t_config := config |} (updated es ms) nodes'
    (apply_structural tree ms measure (w, stats)).
Proof.
  intros [Hwf Hvalid Hcodec Hold Hne Hasc Hfit Hasc' Hfit' Hnew Hpub Hcap] Hms Hw. unfold apply_structural.
  destruct (canonical_spans config st tree es nodes Hfit Hne Hold)
    as (h & s & leaves & inner & Hh & Hroot & Hspan & Hcat & Hchunks & Hst & Hinner).
  destruct Hold as (Hconf & Hspec & Hstored).
  destruct (collect_leaf_summaries_ok config st measure tree h s leaves inner w stats Hroot Hconf Hspan Hh Hw)
    as (w1 & stats1 & Hcol & Hw1).
  rewrite (action_bind_Ok _ _ _ _ _ Hcol). cbn [fst snd].
  rewrite bool_decide_eq_false_2 by (destruct leaves; [by subst es|done]).
  rewrite <- Hcat in Hasc, Hchunks.
  pose proof (replay_mutations_ok config Hwf Hvalid Hcodec st measure (S (length ms)) [] leaves ms [] [] w1 stats1
    Hw1 Hst Hasc Hms ltac:(lia) Hchunks) as Hreplay. cbn [app length] in Hreplay. rewrite Hcat in *. rewrite Hconf.
  destruct Hreplay as [(x & _ & Hx)|(new & cs & w2 & stats2 & Hrun & Hw2 & Hnewc & Hcs & Hcover)].
  { by apply entries_leaf_fit. }
  { unfold tree_spec in Hnew. rewrite Hcat in Hx. by rewrite Hx in Hnew. }
  cbn [app] in Hrun. rewrite (action_bind_Ok _ _ _ _ _ Hrun). cbn [fst snd]. rewrite Hcat in Hnewc.
  assert (rebuilt config st tree es leaves inner (updated es ms) new cs root' nodes') as Hrb.
  { constructor; try done. exists nodes. split; [done|]. split; [done|]. split; [done|].
    intros l Hl. unfold tree_spec in Hspec. rewrite Hchunks in Hspec. cbn [mbind outcome_bind] in Hspec.
    destruct (tower _ _ _ _) as [[top above]| |]; [|done..]. injection Hspec as _ <-.
    apply elem_of_app. left. apply list_elem_of_fmap. exists (chunk_of l). split; [done|].
    apply list_elem_of_fmap. by exists l. }
  destruct (has_fixed_separators config (summary (Config.format config) 0 <$> new) (leaf_summary config <$> leaves)) eqn:Hfixed.
  - pose proof Hfixed as [[[Hm%bool_decide_eq_true Hi%bool_decide_eq_true]%andb_true_iff _]%andb_true_iff _]%andb_true_iff.
    destruct (Hcap Hm Hi). eapply finish_fixed_ok; eauto.
  - eapply finish_rebuild_ok; eauto.
Qed.

Lemma updated_entries config st tree es es' muts nodes nodes' root' :
  write_input config st tree es es' nodes nodes' root' → final_map es' = mutate (final_map es) muts →
  es' = updated es (normalize muts).
Proof.
  intros Hin Hmap.
  apply ascending_unique; [apply Hin|apply updated_ascending; [apply Hin|apply normalize_ascending]|].
  rewrite Hmap. symmetry. apply normalize_map, Hin.
Qed.

(** C6. The general path of a write is canonical: from a store that holds the tree that
    building a non-empty map gives, with any manager that keeps its interface, the
    sequential replay returns the tree of the map after the mutations, the one that
    building that map from nothing gives; it leaves all its nodes in the store, and
    nothing that was stored changes.  The updated map has a tree (no entry is over the
    byte limit) whose nodes do not collide with stored ones.  For formats that measure chunks in entries and cut
    them by keys this is under the condition that the byte limit cut no node above the
    leaves of the old and of the new tree.  The fast paths that are tried before, and
    the parallel replay, are not part of it. *)
Theorem structural_write_canonical config st tree es es' muts nodes nodes' root' measure (w : W) stats :
  write_input config st tree es es' nodes nodes' root' → final_map es' = mutate (final_map es) muts →
  manages (Config.format config) st w →
  wrote config st {| t_root := root'; t_config := config |} es' nodes'
    (apply_structural tree (normalize muts) measure (w, stats)).
Proof.
  intros Hin Hmap Hw. pose proof (updated_entries _ _ _ _ _ _ _ _ _ Hin Hmap) as ->.
  apply (apply_structural_ok config st tree es (normalize muts) nodes nodes'); [done|apply normalize_ascending|done].
Qed.

End write.

(** ** Reading what was written *)
Lemma spans_subtree `{HashesOk} config st h s leaves inner :
  spans config st h s leaves inner →
  subtree st (Config.format config) h (sm_cid s) (concat leaves) ∧ starts_with (sm_first_key s) (concat leaves).
Proof.
  revert s leaves inner; induction h as [|h IH]; intros s leaves inner.
  - intros (es & -> & _ & Hne & -> & Hst). cbn [concat]. rewrite app_nil_r. split.
    + exists (node_of (Config.format config) 0 (chunk_of es)). split; [done|]. split; [split; [done|split; [done|by destruct es]]|]. split; [done|]. by rewrite leaf_zip.
    + destruct es as [|[k v] es]; [done|]. by eexists _, _.
  - intros (ss & parts & Hne & -> & Hst & Hsub & -> & _).
    assert (∃ subs, Forall2 (subtree st (Config.format config) h) (sm_cid <$> ss) subs ∧
      Forall2 starts_with (sm_first_key <$> ss) subs ∧ concat (concat (fst <$> parts)) = concat subs) as (subs & Hsubs & Hstart & ->).
    { clear Hne Hst. induction Hsub as [|s part ss parts Hs _ (subs & Hsubs & Hstart & Heq)]; [exists []; by repeat constructor|].
      destruct (IH _ _ _ Hs) as [Hs1 Hs2]. exists (concat part.1 :: subs). cbn [fmap list_fmap concat].
      split; [by constructor|]. split; [by constructor|]. by rewrite concat_app, Heq. }
    split.
    + exists (node_of (Config.format config) (Z.of_nat (S h)) (child_entry <$> ss)). split; [done|]. split; [split; [done|split; [done|by destruct ss]]|].
      split; [cbn [node_of leaf]; apply Z.eqb_neq; lia|]. exists subs.
      cbn [node_of vals keys]. rewrite <- !list_fmap_compose. done.
    + destruct ss as [|s ss]; [done|]. cbn [fmap list_fmap] in Hstart.
      inversion Hstart as [|k sub ks subs' (v & rest & ->) _ Hk]; subst. by eexists _, _.
Qed.

Lemma canonical_holds `{HashesOk} config st tree es nodes :
  entries_fit config es → ascending es → canonical config st tree es nodes →
  ∃ h, (h ≤ 255)%nat ∧ tree_holds st tree h es.
Proof.
  intros Hfit Hasc Hcan. destruct (decide (es = [])) as [->|Hne].
  { exists 0%nat. split; [lia|]. destruct Hcan as (_ & Hspec & _). cbn in Hspec. injection Hspec as Hroot _.
    unfold tree_holds. by rewrite <- Hroot. }
  destruct (canonical_spans config st tree es nodes Hfit Hne Hcan) as (h & s & leaves & inner & Hh & Hroot & Hs & Hcat & _).
  exists h. split; [done|]. unfold tree_holds. rewrite Hroot. destruct Hcan as (-> & _).
  rewrite <- Hcat. split; [by apply (spans_subtree config st h s leaves inner)|by rewrite Hcat].
Qed.

Lemma canonical_sub `{HashesOk} config st st' tree es nodes :
  st ⊆ st' → canonical config st tree es nodes → canonical config st' tree es nodes.
Proof.
  intros Hsub (Hc & Hspec & Hst). split; [done|]. split; [done|]. eapply Forall_impl; [exact Hst|].
  intros n (b & Hb & ?). exists b. split; [by eapply lookup_weaken|done].
Qed.

(** C7. Snapshots: after a write that the engine makes by the general path, to the tree that
    building a non-empty map gives, any sequence of reads of the new tree sees the map
    after the mutations, and any sequence of reads of the old tree still sees the old
    map.  The conditions are those of the canonical write above, the one on the byte
    limit included. *)
Theorem write_then_get `{HashesOk} {St} `{StoreOk St} `{!ReadStore St} `{!ReadStoreOk St}
    config st tree es es' muts nodes nodes' root' measure (e : ProllyEngine St) stats ks :
  write_input config st tree es es' nodes nodes' root' → final_map es' = mutate (final_map es) muts →
  engine_manages (Config.format config) st e →
  ∃ tree' e' stats', apply_structural tree (normalize muts) measure (e, stats) = (Ok tree', (e', stats')) ∧
    (get_each tree' ks e').1 = Ok ((λ k, mutate (final_map es) muts !! k) <$> ks) ∧
    (get_each tree ks e').1 = Ok ((λ k, final_map es !! k) <$> ks).
Proof.
  intros Hin Hmap He. pose proof (updated_entries _ _ _ _ _ _ _ _ _ Hin Hmap) as ->.
  assert (manages (Config.format config) st e) as Hm by exact He.
  destruct (apply_structural_ok config st tree es (normalize muts) nodes nodes' root' measure e stats Hin
    (normalize_ascending muts) Hm) as (st' & e' & stats' & Hrun & [He' _] & Hsub & Hcan').
  destruct Hin as [_ _ _ Hold _ Hasc Hfit Hasc' Hfit' _ _ _].
  destruct (canonical_holds config st' _ _ nodes' Hfit' Hasc' Hcan') as (h' & Hh' & Hholds').
  destruct (canonical_holds config st' _ _ nodes Hfit Hasc (canonical_sub _ _ _ _ _ _ Hsub Hold)) as (h & Hh & Hholds).
  destruct (get_each_ok st' _ h' _ ks e' He' Hholds' Hh') as (e1 & Hg1 & _).
  destruct (get_each_ok st' _ h _ ks e' He' Hholds Hh) as (e2 & Hg2 & _).
  eexists _, e', stats'. split; [exact Hrun|]. rewrite Hg1, Hg2, Hmap. done.
Qed.

(** ** Sample *)
Lemma put_all_in {V} (l : list (bytes * V)) k v : put_all l ∅ !! k = Some v → (k, v) ∈ l.
Proof.
  induction l as [|[k' v'] l IH] using rev_ind; [done|]. rewrite put_all_snoc, elem_of_app. cbn [fst snd].
  intros [[-> ->]|[_ Hl]]%lookup_insert_Some; [right; by apply list_elem_of_singleton|left; by apply IH].
Qed.

Section fresh.
Context `{HashesOk} (config : Config.Config).
Abbreviation f := (Config.format config).
Hypothesis Hwf : TreeFormat_wf f.
Hypothesis Hvalid : validate f = Ok tt.
Hypothesis Hcodec : has_codec f.

(** A tree that was built into an empty store. *)
Lemma built_canonical es root nodes :
  entries_fit config es → ascending es → tree_spec f es = Ok (root, nodes) → readable config nodes →
  canonical config (put_all (stored f <$> nodes) ∅) {| t_root := root; t_config := config |} es nodes.
Proof.
  intros Hfit Hasc Hspec Hread. split; [done|]. split; [done|]. apply Forall_forall. intros n Hn.
  eapply (written_stored config Hwf Hvalid Hcodec ∅ nodes nodes n); [by split|done| |done|left; by exists n].
  by apply (proj1 (Forall_forall _ _) (spec_good config Hcodec es root nodes Hfit Hasc Hspec)).
Qed.

Lemma publishable_built nodes nodes' :
  readable config (nodes ++ nodes') → publishable config (put_all (stored f <$> nodes) ∅) nodes'.
Proof.
  intros [Hnc Hp]. apply Forall_app in Hp as [_ Hp]. rewrite fmap_app in Hnc. split; [split|].
  - intros a b Ha Hb. apply Hnc; apply elem_of_app; by right.
  - done.
  - intros n b Hn (n' & [= Hcid ->] & Hn')%put_all_in%list_elem_of_fmap.
    apply Hnc; [apply elem_of_app; left|apply elem_of_app; right|done]; apply list_elem_of_fmap; [by exists n'|by exists n].
Qed.
End fresh.

Lemma no_collision_dups `{Hashes} l : NoDup (Cid_from_bytes <$> remove_dups l) → no_collision l.
Proof.
  intros Hnd%no_collision_NoDup a b Ha Hb. apply Hnd; by apply elem_of_remove_dups.
Qed.

#[local] Existing Instance sample_hashes.
#[local] Existing Instance sample_hashes_ok.

Definition sample_es : list kv := canonical_entries sample_raw.
Definition sample_muts : list Mutation :=
  [Upsert [Byte.x06] [Byte.x01]; Delete [Byte.x02]; Upsert [Byte.x03] [Byte.x07]; Upsert [Byte.x06] [Byte.x02]].
Definition sample_es' : list kv := updated sample_es (normalize sample_muts).
Definition sample_spec (es : list kv) : option Cid * list (Z * list node_entry) :=
  match tree_spec (Config.format (sample_config 2 2)) es with Ok r => r | _ => (None, []) end.
Definition sample_built : option Cid * list (Z * list node_entry) := Eval vm_compute in sample_spec sample_es.
Definition sample_written : option Cid * list (Z * list node_entry) := Eval vm_compute in sample_spec sample_es'.
Definition sample_store : gmap bytes bytes :=
  put_all (stored (Config.format (sample_config 2 2)) <$> sample_built.2) ∅.

Lemma sample_pack nodes :
  forallb (λ n, packable_b (node_bytes (Config.format (sample_config 2 2)) n.1 n.2)
    (node_of (Config.format (sample_config 2 2)) n.1 n.2)) nodes = true →
  Forall (λ n, packable (node_bytes (Config.format (sample_config 2 2)) n.1 n.2)
    (node_of (Config.format (sample_config 2 2)) n.1 n.2)) nodes.
Proof.
  intros Hall. apply Forall_forall. intros n Hn. apply packable_b_ok. apply list_elem_of_In in Hn.
  revert n Hn. exact (proj1 (forallb_forall _ _) Hall).
Qed.

Lemma sample_both_readable :
  readable (sample_config 2 2) (sample_built.2 ++ sample_written.2).
Proof.
  split; [apply no_collision_dups; apply (bool_decide_eq_true_1 _); vm_compute; reflexivity|].
  apply sample_pack. vm_compute. reflexivity.
Qed.

Lemma sample_es_spec :
  tree_spec (Config.format (sample_config 2 2)) sample_es = Ok sample_built.
Proof. vm_compute. reflexivity. Qed.

Lemma sample_es_spec' :
  tree_spec (Config.format (sample_config 2 2)) sample_es' = Ok sample_written.
Proof. vm_compute. reflexivity. Qed.

(** A write to the sample tree. *)
Lemma sample_input muts (written : option Cid * list (Z * list node_entry)) :
  let es' := updated sample_es (normalize muts) in
  readable (sample_config 2 2) (sample_built.2 ++ written.2) →
  tree_spec (Config.format (sample_config 2 2)) es' = Ok written → entries_fit (sample_config 2 2) es' →
  uncapped (Config.format (sample_config 2 2)) sample_es = true ∧ uncapped (Config.format (sample_config 2 2)) es' = true →
  write_input (sample_config 2 2) sample_store {| t_root := sample_built.1; t_config := sample_config 2 2 |}
    sample_es es' sample_built.2 written.2 written.1.
Proof.
  intros es' Hread Hspec' Hfit' Hcap. destruct sample_build_input as [Hwf Hvalid Hcodec _ Hfit].
  assert (ascending sample_es) as Hasc by apply canonical_ascending.
  constructor; [exact Hwf|exact Hvalid|exact Hcodec| | |exact Hasc|exact Hfit| |exact Hfit'| | |intros _ _; exact Hcap].
  - apply (built_canonical (sample_config 2 2) Hwf Hvalid Hcodec _ _ _ Hfit Hasc sample_es_spec).
    destruct Hread as [Hnc Hp]. apply Forall_app in Hp as [Hp _]. split; [|exact Hp].
    intros a b Ha Hb. apply Hnc; rewrite fmap_app; apply elem_of_app; left; [exact Ha|exact Hb].
  - vm_compute. discriminate.
  - apply updated_ascending; [exact Hasc|apply normalize_ascending].
  - rewrite Hspec'. by destruct written.
  - exact (publishable_built _ _ _ Hread).
Qed.

Lemma sample_write_input :
  write_input (sample_config 2 2) sample_store {| t_root := sample_built.1; t_config := sample_config 2 2 |}
    sample_es sample_es' sample_built.2 sample_written.2 sample_written.1.
Proof.
  apply (sample_input sample_muts sample_written sample_both_readable sample_es_spec').
  - vm_compute. discriminate.
  - split; vm_compute; reflexivity.
Qed.

Definition sample_engine : ProllyEngine MemStore :=
  ProllyEngine_new {| ms_data := sample_store |} (sample_config 2 2).
Definition sample_old : Tree := {| t_root := sample_built.1; t_config := sample_config 2 2 |}.

Lemma sample_engine_manages : engine_manages (Config.format (sample_config 2 2)) sample_store sample_engine.
Proof. split; [|reflexivity]. exact (fresh_engine_ok {| ms_data := sample_store |} (sample_config 2 2) ExecutionConfig_default). Qed.

Lemma sample_mutated : final_map sample_es' = mutate (final_map sample_es) sample_muts.
Proof. apply normalize_map, canonical_ascending. Qed.

Lemma structural_write_canonical_witness :
  wrote (sample_config 2 2) sample_store {| t_root := sample_written.1; t_config := sample_config 2 2 |}
    sample_es' sample_written.2
    (apply_structural sample_old (normalize sample_muts) false (sample_engine, WriteStats_default)).
Proof.
  exact (structural_write_canonical (sample_config 2 2) sample_store sample_old sample_es sample_es' sample_muts
    sample_built.2 sample_written.2 sample_written.1 false sample_engine WriteStats_default
    sample_write_input sample_mutated sample_engine_manages).
Defined.

Lemma write_then_get_witness :
  ∃ tree' e' stats', apply_structural sample_old (normalize sample_muts) false (sample_engine, WriteStats_default)
      = (Ok tree', (e', stats')) ∧
    (get_each tree' [[Byte.x02]; [Byte.x06]] e').1
      = Ok ((λ k, mutate (final_map sample_es) sample_muts !! k) <$> [[Byte.x02]; [Byte.x06]]) ∧
    (get_each sample_old [[Byte.x02]; [Byte.x06]] e').1
      = Ok ((λ k, final_map sample_es !! k) <$> [[Byte.x02]; [Byte.x06]]).
Proof.
  exact (write_then_get (sample_config 2 2) sample_store sample_old sample_es sample_es' sample_muts
    sample_built.2 sample_written.2 sample_written.1 false sample_engine WriteStats_default
    [[Byte.x02]; [Byte.x06]] sample_write_input sample_mutated sample_engine_manages).
Defined.

End CanonicalWrite.
