(* ===== verification/Append.v ===== *)
(** * Appending writes (src/prolly/write.rs)

    The fast path of a write whose keys all come after the tree: only the last leaf is
    streamed again, followed by the new entries, and of the internal nodes only those
    on the right edge are rebuilt, level by level from the leaf up. *)

From Stdlib Require Import ZArith Lia Strings.Byte.
From stdpp Require Import base tactics numbers list strings option gmap.
From S2P Require Import Prelude Cursor Types Format Boundary Node Sizer Chunks Store Emitter Builder Write.
Import Format Node Store Emitter Builder Write.

Local Open Scope Z_scope.

Module Append.

Section append.
Context `{Hashes} {W St : Type} `{Store St} `{!WriteManager W}.

(** The loop of [rightmost_internal_path]. *)
Fixpoint rightmost_loop (fuel : nat) (cid : Cid) (path : list (Cid * Node)) : action W (list (Cid * Node)) :=
  match fuel with
  | O => run (Panic "unreachable")
  | S fuel' =>
      write_load_arc cid ≫= λ node : Node,
      if leaf node then mret path
      else
        run (ok_or InvalidNode (list.last (vals node))) ≫= λ child : bytes,
        run (child_cid child) ≫= λ next : Cid,
        rightmost_loop fuel' next (path ++ [(cid, node)])
  end.

Definition rightmost_internal_path (tree : Tree) : action W (list (Cid * Node)) :=
  match t_root tree with
  | None => mret []
  | Some root => rightmost_loop collect_fuel root []
  end.

Definition child_summary (e : bytes * bytes * Z) : outcome Error NodeSummary :=
  cid ← child_cid e.1.2;
  Ok {| sm_cid := cid; sm_first_key := e.1.1; sm_count := e.2 |}.

Definition internal_child_summaries (node : Node) : outcome Error (list NodeSummary) :=
  if leaf node || negb (length (keys node) =? length (vals node))%nat
     || negb (length (child_counts node) =? length (keys node))%nat
  then Err InvalidNode
  else mapM child_summary (zip (zip (keys node) (vals node)) (child_counts node)).

(** The levels of the old right edge, from the lowest one up: the summaries at the top,
    the level reached and the nodes emitted. *)
Fixpoint rebuild_edge (config : Config.Config) (path : list (Cid * Node)) (current : list NodeSummary) (lv : Z)
    (internal : list DeferredNode) : outcome Error (list NodeSummary * Z * list DeferredNode) :=
  match path with
  | [] => Ok (current, lv, internal)
  | (_, node) :: path' =>
      children ← internal_child_summaries node;
      _ ← ok_or InvalidNode (list.last children);
      '(summaries, pending) ← build_level_serial config (removelast children ++ current) (level node) [];
      rebuild_edge config path' summaries (level node) (internal ++ pending)
  end.

(** Further levels while there is more than one node. *)
Fixpoint raise_root (fuel : nat) (config : Config.Config) (current : list NodeSummary) (lv : Z)
    (internal : list DeferredNode) : outcome Error (list NodeSummary * list DeferredNode) :=
  match fuel with
  | O => Panic "unreachable"
  | S fuel' =>
      if (1 <? length current)%nat then
        lv ← ok_or InvalidNode (checked_add u8_max lv 1);
        '(summaries, pending) ← build_level_serial config current lv [];
        raise_root fuel' config summaries lv (internal ++ pending)
      else Ok (current, internal)
  end.

Definition push_entries (emitter : LeafEmitter) (entries : list (bytes * bytes)) : outcome Error LeafEmitter :=
  foldM (λ emitter (e : bytes * bytes), leaf_push emitter e.1 e.2) emitter entries.

Definition push_upserts (emitter : LeafEmitter) (mutations : list NormalizedMutation) : outcome Error LeafEmitter :=
  foldM (λ emitter (m : NormalizedMutation),
    v ← expect "append path rejects deletes before streaming" m.2;
    leaf_push emitter m.1 v) emitter mutations.

(** The last leaf and the mutations, emitted again. *)
Definition stream_suffix (config : Config.Config) (last_leaf : Node) (mutations : list NormalizedMutation)
    : outcome Error (list EmittedLeaf) :=
  emitter ← LeafEmitter_new config;
  emitter ← push_entries emitter (zip (keys last_leaf) (vals last_leaf));
  emitter ← push_upserts emitter mutations;
  emitter ← leaf_flush emitter;
  Ok (lem_emitted emitter).

Definition rebuild_right_edge (config : Config.Config) (path : list (Cid * Node)) (current : list NodeSummary)
    : outcome Error (Cid * list DeferredNode) :=
  '(current, lv, internal) ← rebuild_edge config (reverse path) current 0 [];
  '(current, internal) ← raise_root levels_fuel config current lv internal;
  root ← ok_or InvalidNode (head current);
  Ok (sm_cid root, internal).

(** The mutations after the last leaf, and the publication of what changed. *)
Definition append_suffix (tree : Tree) (path : list (Cid * Node)) (last_cid : Cid) (last_leaf : Node)
    (mutations : list NormalizedMutation) : write W Tree :=
  run (stream_suffix (t_config tree) last_leaf mutations) ≫= λ emitted : list EmittedLeaf,
  tally (streamed (len (keys last_leaf) + len mutations)) ≫= λ _,
  run (rebuild_right_edge (t_config tree) path (el_summary <$> emitted)) ≫= λ r : Cid * list DeferredNode,
  let changed := List.filter (λ l, negb (bool_decide (sm_cid (el_summary l) = last_cid))) emitted in
  let internal := List.filter (λ n, bool_decide (ei_cid n ∉ path.*1)) (emitted_internal <$> r.2) in
  (if bool_decide (changed = []) && bool_decide (internal = []) then mret tt
   else publish_changes changed internal) ≫= λ _,
  tally (λ s, resynced (ws_entries_streamed s) 1 s) ≫= λ _,
  mret {| t_root := Some r.1; t_config := t_config tree |}.

(** [None]: the mutations are not an append, and nothing was written. *)
Definition try_append (tree : Tree) (mutations : list NormalizedMutation) (measure : bool) : write W (option Tree) :=
  if existsb (λ m : NormalizedMutation, bool_decide (m.2 = None)) mutations then mret None
  else
    on_manager (rightmost_internal_path tree) ≫= λ path : list (Cid * Node),
    run (match list.last path with
         | Some (_, node) => value ← ok_or InvalidNode (list.last (vals node)); child_cid value
         | None => ok_or InvalidNode (t_root tree)
         end) ≫= λ last_cid : Cid,
    load_counted measure last_cid ≫= λ last_leaf : Node,
    if negb (leaf last_leaf) || negb (length (keys last_leaf) =? length (vals last_leaf))%nat
    then run (Err InvalidNode)
    else
      run (ok_or InvalidNode (list.last (keys last_leaf))) ≫= λ max_key : bytes,
      if match mutations with [] => true | (key, _) :: _ => bleb key max_key end then mret None
      else append_suffix tree path last_cid last_leaf mutations ≫= λ tree' : Tree, mret (Some tree').

End append.
End Append.
