(* ===== verification/AppendSpec.v ===== *)
(** * Appending keeps trees canonical

    The chunks before the last node of a level do not change when entries are appended
    to it, so rebuilding the right edge of a canonical tree gives the canonical tree of
    the longer map. *)

From Stdlib Require Import ZArith Lia Strings.Byte.
From stdpp Require Import base tactics numbers list strings option gmap sorting.
From S2P Require Import Prelude Cursor Types Format Boundary Node ReadNode Sizer Chunks ChunkSpec Store NodeCache Emitter EmitterSpec Builder Entries BuilderSpec TreeSpec Engine EngineSpec BuiltTree Write Updates ReplaySpec WriteSpec RebuildSpec FixedSpec Loader LoaderSpec CanonicalWrite Append.
Import Format Node ReadNode ChunkSpec Store NodeCache Emitter EmitterSpec Builder Entries BuilderSpec TreeSpec Engine EngineSpec BuiltTree Write Updates ReplaySpec WriteSpec RebuildSpec FixedSpec Loader LoaderSpec CanonicalWrite Append.

Local Open Scope Z_scope.

Module AppendSpec.

(** ** Chunks of a longer level *)
Section boundary.
Context `{HashesOk} (f : TreeFormat) (lv : Z).

(** Where the byte limit did not cut, the chunks before a boundary are settled. *)
Lemma free_boundary cur a b ca cb r :
  chunk_from f lv cur (a ++ b) = Ok (ca ++ cb) → b ≠ [] → concat ca = cur ++ a → cur = [] ∨ chunk_ok f lv cur →
  free_from f lv cur (a ++ b) = true →
  chunk_from f lv cur (a ++ r) = app ca <$> chunk_from f lv [] r.
Proof.
  intros Hfrom Hb. revert cur ca Hfrom; induction a as [|e a IH]; intros cur ca Hfrom Hca Hcur Hfree.
  - rewrite app_nil_r in Hca. destruct b as [|x b]; [done|]. cbn [app] in *.
    assert (cur = []) as ->.
    { destruct (decide (cur = [])) as [|Hne]; [done|]. pose proof (chunk_from_forced _ _ _ _ _ _ _ Hfrom Hca Hne) as Hf.
      cbn [free_from] in Hfree. by rewrite Hf in Hfree. }
    destruct (chunk_from_ok _ _ _ _ _ Hfrom (or_introl eq_refl)) as [_ [Hall _]%Forall_app].
    destruct ca as [|c ca]; [by destruct (chunk_from f lv [] r)|].
    apply Forall_cons_1 in Hall as [[Hc _] _]. by destruct c.
  - destruct (chunk_from_ok _ _ _ _ _ Hfrom Hcur) as [_ Hall]. cbn [app chunk_from free_from] in *.
    destruct (place f lv cur e) as [[closed cur']| |] eqn:Hplace; [|done..]. cbn [mbind outcome_bind] in *.
    destruct (chunk_from f lv cur' (a ++ b)) as [rest| |] eqn:Hrest; [|done..]. injection Hfrom as Heq.
    destruct (place_ok _ _ _ _ _ _ Hplace Hcur) as (Hcat & _ & Hcur'). apply andb_true_iff in Hfree as [_ Hfree].
    destruct (app_prefix_le closed rest ca cb Heq) as (ca' & -> & ->).
    { eapply Forall_impl; [exact Hall|]. by intros c [? _]. }
    { apply (f_equal length) in Hcat, Hca. rewrite !length_app in *. cbn [length] in *. lia. }
    rewrite concat_app, cons_middle, (app_assoc cur), <- Hcat, <- app_assoc in Hca. apply app_inv_head in Hca.
    rewrite (IH cur' ca' Hrest Hca Hcur' Hfree). destruct (chunk_from f lv [] r); [|done..]. cbn. by rewrite app_assoc.
Qed.

End boundary.

(** ** Towers *)
Section tower.
Context `{HashesOk} (f : TreeFormat).

Lemma tower_more fuel fuel' lv ss r : tower f fuel lv ss = Ok r → (fuel ≤ fuel')%nat → tower f fuel' lv ss = Ok r.
Proof.
  revert fuel' lv ss r; induction fuel as [|fuel IH]; intros fuel' lv ss r Ht Hle; [done|].
  destruct fuel' as [|fuel']; [lia|]. cbn [tower] in *. destruct (1 <? length ss)%nat; [|done].
  destruct (u8_max <? lv + 1); [done|]. destruct (level_chunks f (lv + 1) _) as [chunks| |]; [|done..].
  cbn [mbind outcome_bind] in *. destruct (tower f fuel (lv + 1) _) as [[top above]| |] eqn:Hup; [|done..].
  by rewrite (IH fuel' _ _ _ Hup) by lia.
Qed.

Lemma sums_part (config : Config.Config) a b : sums_ok config (a ++ b) → sums_ok config b.
Proof.
  intros [Heach Hroom Htotal]. apply Forall_app in Heach as [Ha Hb]. constructor; [done| |].
  - rewrite fmap_app, weight_app in Hroom. pose proof (weight_nonneg (child_entry <$> a)). lia.
  - rewrite fmap_app, foldr_app in Htotal. assert (∀ z, z ≤ foldr Z.add z (sm_count <$> a)) as Hge.
    { clear -Ha. intros z. induction Ha as [|s a [_ Hs] _ IH]; [cbn; lia|]. cbn [fmap list_fmap foldr] in *. lia. }
    specialize (Hge (foldr Z.add 0 (sm_count <$> b))). lia.
Qed.

End tower.

(** ** The right edge *)
Section edge.
Context `{HashesOk} {W St : Type} `{Store St} `{!WriteManager W} `{!WriteManagerOk W}.
Context (config : Config.Config).

Abbreviation f := (Config.format config).
Hypothesis Hwf : TreeFormat_wf f.
Hypothesis Hvalid : validate f = Ok tt.
Hypothesis Hcodec : has_codec f.

Implicit Types (w : W) (stats : WriteStats) (st : gmap bytes bytes).

Abbreviation node_cid n := (sm_cid (summary f n.1 n.2)).

(** The children of the nodes on the right edge, from the top, and the last leaf. *)
Fixpoint right_edge st (h : nat) (s : NodeSummary) (path : list (list NodeSummary)) (l : list kv) : Prop :=
  match h with
  | O => path = [] ∧ l ≠ [] ∧ s = leaf_summary config l ∧ node_stored config st (0, leaf_entry <$> l)
  | S h' => ∃ init c rest, path = (init ++ [c]) :: rest ∧ s = summary f (Z.of_nat h) (child_entry <$> init ++ [c]) ∧
      node_stored config st (Z.of_nat h, child_entry <$> init ++ [c]) ∧ right_edge st h' c rest l
  end.

(** The nodes of the edge below a level, from the top. *)
Fixpoint edge_nodes (h : nat) (path : list (list NodeSummary)) : list (Cid * Node) :=
  match h, path with
  | S h', ss :: rest => (node_cid (Z.of_nat h, child_entry <$> ss), node_of f (Z.of_nat h) (child_entry <$> ss)) :: edge_nodes h' rest
  | _, _ => []
  end.

(** The nodes of the edge above a level, from the lowest one. *)
Fixpoint edge_up (lv : Z) (ups : list (list NodeSummary)) : list (Cid * Node) :=
  match ups with
  | [] => []
  | ss :: ups' => (node_cid (lv + 1, child_entry <$> ss), node_of f (lv + 1) (child_entry <$> ss)) :: edge_up (lv + 1) ups'
  end.

Lemma edge_up_snoc lv ups ss :
  edge_up lv (ups ++ [ss])
    = edge_up lv ups ++ [(node_cid (lv + Z.of_nat (S (length ups)), child_entry <$> ss),
                          node_of f (lv + Z.of_nat (S (length ups))) (child_entry <$> ss))].
Proof.
  revert lv; induction ups as [|s ups IH]; intros lv; [done|]. cbn [app edge_up length]. rewrite IH. cbn [app].
  by replace (lv + Z.of_nat (S (S (length ups)))) with (lv + 1 + Z.of_nat (S (length ups))) by lia.
Qed.

Lemma edge_reverse h path : length path = h → reverse (edge_nodes h path) = edge_up 0 (reverse path).
Proof.
  revert path; induction h as [|h IH]; intros [|ss path] Hlen; try done. injection Hlen as Hlen.
  cbn [edge_nodes]. rewrite !reverse_cons, (IH path Hlen), edge_up_snoc, length_reverse, Hlen. done.
Qed.

Lemma right_edge_length st h s path l : right_edge st h s path l → length path = h.
Proof.
  revert s path; induction h as [|h IH]; intros s path; [by intros (-> & _)|].
  intros (init & c & rest & -> & _ & _ & Hr). cbn. f_equal. by eapply IH.
Qed.

Lemma right_edge_cid st h s path l : right_edge st h s path l → child_cid (sm_cid s) = Ok (sm_cid s).
Proof.
  destruct h; [intros (_ & _ & -> & _)|intros (init & c & rest & _ & -> & _)]; by eapply child_cid_32.
Qed.

Lemma last_child (init : list NodeSummary) c lv :
  list.last (vals (node_of f lv (child_entry <$> init ++ [c]))) = Some (sm_cid c).
Proof. cbn [node_of vals]. rewrite <- list_fmap_compose, fmap_app. apply last_snoc. Qed.

Lemma rightmost_loop_ok st h fuel s path l acc w :
  right_edge st h s path l → (h < fuel)%nat → manages f st w →
  ∃ w', rightmost_loop fuel (sm_cid s) acc w = (Ok (acc ++ edge_nodes h path), w') ∧ manages f st w'.
Proof.
  revert h s path acc w; induction fuel as [|fuel IH]; intros h s path acc w Hr Hfuel Hw; [lia|]. cbn [rightmost_loop].
  destruct h as [|h].
  - destruct Hr as (-> & _ & -> & Hst). destruct (manages_load f st w _ _ Hw Hst eq_refl) as (w' & Hl & Hw').
    rewrite (action_bind_Ok _ _ _ _ _ Hl). exists w'. cbn. by rewrite app_nil_r.
  - destruct Hr as (init & c & rest & -> & -> & Hst & Hr).
    destruct (manages_load f st w _ _ Hw Hst eq_refl) as (w1 & Hl & Hw1). rewrite (action_bind_Ok _ _ _ _ _ Hl).
    cbn [fst snd]. replace (leaf (node_of f (Z.of_nat (S h)) _)) with false by (symmetry; cbn [node_of leaf]; apply Z.eqb_neq; lia).
    rewrite last_child. rewrite (action_bind_Ok (run _) _ w1 (sm_cid c) w1 eq_refl).
    rewrite (action_bind_Ok (run _) _ w1 (sm_cid c) w1) by (unfold run; by rewrite (right_edge_cid _ _ _ _ _ Hr)).
    destruct (IH h c rest (acc ++ [(sm_cid (summary f (Z.of_nat (S h)) (child_entry <$> init ++ [c])),
      node_of f (Z.of_nat (S h)) (child_entry <$> init ++ [c]))]) w1 Hr ltac:(lia) Hw1) as (w2 & Hloop & Hw2).
    exists w2. split; [|done]. rewrite Hloop. by rewrite <- app_assoc.
Qed.

Lemma edge_last st h s path l : 
  right_edge st h s path l →
  match list.last (edge_nodes h path) with
  | Some (_, node) => value ← ok_or InvalidNode (list.last (vals node)); child_cid value
  | None => Ok (sm_cid s)
  end = Ok (sm_cid (leaf_summary config l)) ∧ node_stored config st (0, leaf_entry <$> l) ∧ l ≠ [].
Proof.
  revert s path; induction h as [|h IH]; intros s path; [by intros (-> & Hne & -> & Hst)|].
  intros (init & c & rest & -> & -> & Hst & Hr). destruct (IH c rest Hr) as [Hlast Hl]. split; [|done].
  cbn [edge_nodes]. destruct (list.last (edge_nodes h rest)) as [[cid n]|] eqn:He.
  - destruct (edge_nodes h rest) as [|x xs]; [done|]. rewrite last_cons_cons, He. done.
  - apply last_None in He. rewrite He. cbn [list.last]. rewrite last_child. cbn [ok_or mbind outcome_bind].
    by rewrite (right_edge_cid _ _ _ _ _ Hr).
Qed.

Lemma child_summaries_ok lv ss :
  (lv =? 0) = false → Forall (λ s, len (sm_cid s) = 32 ∧ 1 ≤ sm_count s) ss →
  internal_child_summaries (node_of f lv (child_entry <$> ss)) = Ok ss.
Proof.
  intros Hlv Hss. unfold internal_child_summaries. cbn [node_of leaf keys vals child_counts]. rewrite Hlv, !length_fmap, !Nat.eqb_refl.
  cbn [negb orb]. clear Hlv. induction Hss as [|s ss [Hs _] _ IH]; [done|]. cbn [fmap list_fmap zip zip_with mapM].
  assert (child_summary (sm_first_key s, sm_cid s, sm_count s) = Ok s) as Hc.
  { unfold child_summary, child_cid. cbn [fst snd]. rewrite bool_decide_eq_true_2 by (unfold len in Hs; lia). by destruct s. }
  cbn [fst snd child_entry]. rewrite Hc. cbn [mbind outcome_bind]. by rewrite IH.
Qed.

Abbreviation deferred_node := (λ n : Z * list node_entry, deferred_chunk config n.1 n.2).

Lemma raise_root_ok fuel cur lv internal top above :
  0 ≤ lv → sums_ok config cur → tower f fuel lv cur = Ok (top, above) →
  raise_root fuel config cur lv internal = Ok (top, internal ++ (deferred_node <$> above)).
Proof.
  revert cur lv internal above; induction fuel as [|fuel IH]; intros cur lv internal above Hlv Hsums Ht; [done|].
  cbn [tower raise_root] in *. destruct (1 <? length cur)%nat; [|injection Ht as <- <-; by rewrite app_nil_r].
  destruct (Z.ltb_spec u8_max (lv + 1)) as [|Hle]; [done|]. rewrite checked_add_le by done. cbn [ok_or mbind outcome_bind].
  rewrite (build_level_serial_ok config Hwf Hvalid Hcodec (lv + 1) cur [] ltac:(lia) Hsums).
  destruct (level_chunks f (lv + 1) (child_entry <$> cur)) as [chunks| |] eqn:Hc; [|done..].
  cbn [fmap outcome_fmap mbind outcome_bind app] in *.
  destruct (sums_next config (lv + 1) cur chunks ltac:(lia) Hsums Hc) as (_ & _ & Hnext).
  destruct (tower f fuel (lv + 1) _) as [[top' above']| |] eqn:Hup; [|done..]. injection Ht as <- <-.
  rewrite (IH _ (lv + 1) _ above' ltac:(lia) Hnext Hup). rewrite fmap_app, <- app_assoc. by rewrite <- (list_fmap_compose _ deferred_node).
Qed.

(** What the rebuilt edge gives: the top of the new tower, and the new nodes but for
    those that the old tower has. *)
Definition edge_rebuilt (lv : Z) (ups : list (list NodeSummary)) (cur top' : list NodeSummary)
    (above above' : list (Z * list node_entry)) : Prop :=
  ∃ mid lv' ns1 ns2,
    (∀ internal, rebuild_edge config (edge_up lv ups) cur lv internal = Ok (mid, lv', internal ++ (deferred_node <$> ns1))) ∧
    (∀ internal, raise_root levels_fuel config mid lv' internal = Ok (top', internal ++ (deferred_node <$> ns2))) ∧
    (∀ n, n ∈ ns1 ++ ns2 → n ∈ above') ∧ (∀ n, n ∈ above' → n ∈ ns1 ++ ns2 ∨ n ∈ above).

(** The chunks of a level whose last child is replaced. *)
Lemma level_append lv (init : list NodeSummary) s cur chunks :
  level_chunks f lv (child_entry <$> init ++ [s]) = Ok chunks → free_from f lv [] (child_entry <$> init ++ [s]) = true →
  ∃ cs i1 i2, chunks = cs ++ [child_entry <$> i2 ++ [s]] ∧ init = i1 ++ i2 ∧
    level_chunks f lv (child_entry <$> init ++ cur) = app cs <$> level_chunks f lv (child_entry <$> i2 ++ cur).
Proof.
  unfold level_chunks. intros Hc Hfree. destruct (chunk_from_ok _ _ _ _ _ Hc (or_introl eq_refl)) as [Hcat Hall].
  cbn [app] in Hcat. destruct chunks as [|c cs _] using rev_ind; [by destruct init|].
  apply Forall_app in Hall as [_ [[Hne _] _]%Forall_cons_1]. rewrite concat_app in Hcat. cbn [concat] in Hcat. rewrite app_nil_r in Hcat.
  symmetry in Hcat. pose proof Hcat as Hcat0. apply fmap_app_inv in Hcat as (a & b & Ha & -> & Hab).
  destruct b as [|x b _] using rev_ind; [done|]. rewrite app_assoc in Hab. apply app_inj_tail in Hab as [-> ->].
  exists cs, a, b. split; [done|]. split; [done|].
  rewrite <- app_assoc, fmap_app. rewrite <- app_assoc, fmap_app in Hc, Hfree.
  eapply free_boundary; [exact Hc|by destruct b|done|by left|done].
Qed.

Lemma append_tower st fuel lv (init : list NodeSummary) s cur path l top above top' above' :
  0 ≤ lv ≤ u8_max → (fuel ≤ levels_fuel)%nat → sums_ok config (init ++ [s]) → sums_ok config (init ++ cur) → cur ≠ [] →
  tower f fuel lv (init ++ [s]) = Ok (top, above) → tower_free f fuel lv (init ++ [s]) = true →
  tower f fuel lv (init ++ cur) = Ok (top', above') → Forall (node_stored config st) above →
  right_edge st (Z.to_nat lv) s path l →
  ∃ h t ups, (h ≤ 255)%nat ∧ top = [t] ∧ right_edge st h t (reverse ups ++ path) l ∧ edge_rebuilt lv ups cur top' above above'.
Proof.
  revert lv init s cur path above above'; induction fuel as [|fuel IH];
    intros lv init s cur path above above' Hlv Hfuel Hs Hs' Hne Ht Hfree Ht' Hst Hr; [done|].
  destruct (decide (init = [])) as [->|Hinit].
  - cbn [tower app length Nat.ltb Nat.leb] in Ht. injection Ht as <- <-. exists (Z.to_nat lv), s, [].
    split; [unfold u8_max in Hlv; lia|]. split; [done|]. split; [done|]. exists cur, lv, [], above'.
    split; [intros; cbn; by rewrite app_nil_r|]. split; [|split; [done|by left]]. intros internal.
    apply raise_root_ok; [lia|done|]. by eapply tower_more.
  - cbn [tower tower_free] in *.
    assert ((1 <? length (init ++ [s]))%nat = true) as Hlen by (apply Nat.ltb_lt; rewrite length_app; destruct init; [done|cbn; lia]).
    assert ((1 <? length (init ++ cur))%nat = true) as Hlen' by (apply Nat.ltb_lt; rewrite length_app; destruct init, cur; try done; cbn; lia).
    rewrite Hlen in Ht, Hfree. rewrite Hlen' in Ht'. destruct (Z.ltb_spec u8_max (lv + 1)) as [|Hle]; [done|].
    apply andb_true_iff in Hfree as [Hf Hfree].
    destruct (level_chunks f (lv + 1) (child_entry <$> init ++ [s])) as [chunks| |] eqn:Hc; [|done..].
    destruct (level_append (lv + 1) init s cur chunks Hc Hf) as (cs & i1 & i2 & -> & -> & Hnew).
    rewrite Hnew in Ht'. destruct (sums_next config (lv + 1) _ _ ltac:(lia) Hs Hc) as (_ & _ & Hnext).
    rewrite <- app_assoc in Hs'. pose proof (sums_part config _ _ Hs') as Hsub. rewrite app_assoc in Hs'.
    destruct (level_chunks f (lv + 1) (child_entry <$> i2 ++ cur)) as [ds| |] eqn:Hd; [|done..].
    cbn [fmap outcome_fmap mbind outcome_bind] in Ht, Ht', Hnew. rewrite (fmap_app (summary f (lv + 1))) in Ht, Hfree, Hnext, Ht'.
    destruct (sums_next config (lv + 1) _ _ ltac:(lia) Hs' Hnew) as (_ & _ & Hnext').
    rewrite (fmap_app (summary f (lv + 1))) in Hnext'. change (summary f (lv + 1) <$> [child_entry <$> i2 ++ [s]])
      with [summary f (lv + 1) (child_entry <$> i2 ++ [s])] in *.
    destruct (sums_next config (lv + 1) _ _ ltac:(lia) Hsub Hd) as (Hcatd & _ & _).
    destruct (tower f fuel (lv + 1) (_ ++ [_])) as [[top1 above1]| |] eqn:Hup; [|done..]. injection Ht as <- <-.
    destruct (tower f fuel (lv + 1) (_ ++ (_ <$> ds))) as [[top2 above2]| |] eqn:Hup'; [|done..]. injection Ht' as <- <-.
    apply Forall_app in Hst as [Hst1 Hst2]. rewrite fmap_app in Hst1. apply Forall_app in Hst1 as [_ [Hstc _]%Forall_cons_1].
    destruct (IH (lv + 1) (summary f (lv + 1) <$> cs) (summary f (lv + 1) (child_entry <$> i2 ++ [s])) (summary f (lv + 1) <$> ds)
      ((i2 ++ [s]) :: path) above1 above2) as (h & t & ups & Hh & -> & Hedge & Hre); try done; [lia|lia| | |].
    { destruct ds; [|done]. by destruct i2, cur. }
    { replace (Z.to_nat (lv + 1)) with (S (Z.to_nat lv)) by lia. exists i2, s, path.
      replace (Z.of_nat (S (Z.to_nat lv))) with (lv + 1) by lia. done. }
    exists h, t, ((i2 ++ [s]) :: ups). split; [done|]. split; [done|]. rewrite reverse_cons, <- app_assoc. split; [done|].
    destruct Hre as (mid & lv' & ns1 & ns2 & Hedge1 & Hraise & Hsub1 & Hsub2).
    exists mid, lv', (((λ c, (lv + 1, c)) <$> ds) ++ ns1), ns2. split_and!; [|done| |].
    + intros internal. cbn [edge_up rebuild_edge]. apply so_each in Hs.
      rewrite child_summaries_ok; [|apply Z.eqb_neq; lia|by rewrite <- app_assoc in Hs; apply Forall_app in Hs as [_ ?]].
      cbn [mbind outcome_bind]. rewrite last_snoc, removelast_last. cbn [ok_or mbind outcome_bind].
      cbn [node_of level]. rewrite (build_level_serial_ok config Hwf Hvalid Hcodec (lv + 1) _ [] ltac:(lia) Hsub), Hd.
      cbn [fmap outcome_fmap mbind outcome_bind app]. rewrite Hedge1, <- app_assoc, (fmap_app _ (_ <$> ds)), <- (list_fmap_compose _ deferred_node). done.
    + intros n. rewrite !fmap_app, !elem_of_app. specialize (Hsub1 n). rewrite elem_of_app in Hsub1. tauto.
    + intros n. rewrite !fmap_app, !elem_of_app. specialize (Hsub2 n). rewrite elem_of_app in Hsub2. tauto.
Qed.

(** ** The last leaf *)
Lemma push_upserts_eq em news :
  push_upserts em ((λ e : kv, (e.1, Some e.2)) <$> news) = push_list em news.
Proof.
  unfold push_upserts, push_list. revert em; induction news as [|e news IH]; intros em; [done|]. cbn [fmap list_fmap foldM].
  cbn [fst snd expect mbind outcome_bind]. destruct (leaf_push em e.1 e.2); [|done..]. apply IH.
Qed.

Lemma stream_suffix_ok l news ds :
  fits config 0 (leaf_entry <$> l ++ news) → level_chunks f 0 (leaf_entry <$> l ++ news) = Ok ds →
  stream_suffix config (node_of f 0 (leaf_entry <$> l)) ((λ e : kv, (e.1, Some e.2)) <$> news) = Ok (leaf_of config <$> ds).
Proof.
  intros Hfit Hd. unfold stream_suffix. destruct (LeafEmitter_new_at config Hwf Hvalid Hcodec _ Hfit) as (em & -> & Hem).
  cbn [mbind outcome_bind]. rewrite leaf_zip. change (push_entries em l) with (push_list em l).
  pose proof (push_list_at config Hvalid Hcodec (l ++ news) em [] [] Hem Hfit (or_introl eq_refl)) as Hpush.
  unfold level_chunks in Hd. rewrite <- (app_nil_r (leaf_entry <$> l ++ news)), chunk_from_app in Hd.
  destruct (place_all config [] (leaf_entry <$> l ++ news)) as [[closed cur]| |] eqn:Hp; [|done..].
  cbn [mbind outcome_bind] in Hd. destruct Hpush as (em' & Hpush & Hat). rewrite push_list_app in Hpush.
  destruct (push_list em l) as [em1| |]; [|done..]. cbn [mbind outcome_bind] in *. rewrite push_upserts_eq, Hpush. cbn [mbind outcome_bind].
  destruct (place_all_ok _ _ _ _ _ Hp (or_introl eq_refl)) as [Hcat Hopen]. cbn [app] in Hcat, Hat.
  rewrite <- Hcat in Hfit. destruct (fits_app _ _ _ _ Hfit) as [_ Hfit2].
  destruct (leaf_flush_at config Hvalid Hcodec em' closed cur Hat Hfit2 Hopen) as (em2 & -> & He).
  cbn [mbind outcome_bind]. rewrite He. cbn [chunk_from] in Hd. cbn [fmap outcome_fmap] in Hd. by apply Ok_inj in Hd as <-.
Qed.

Lemma tower_some fuel lv ss top above : tower f fuel lv ss = Ok (top, above) → ss ≠ [] → top ≠ [].
Proof.
  revert lv ss above; induction fuel as [|fuel IH]; intros lv ss above Ht Hne; [done|]. cbn [tower] in Ht.
  destruct (1 <? length ss)%nat eqn:Hlen; [|by injection Ht as <- _]. destruct (u8_max <? lv + 1); [done|].
  destruct (level_chunks f (lv + 1) _) as [chunks| |] eqn:Hc; [|done..]. cbn [mbind outcome_bind] in Ht.
  destruct (tower f fuel (lv + 1) _) as [[top' above']| |] eqn:Hup; [|done..]. injection Ht as <- _.
  eapply IH; [exact Hup|]. destruct chunks; [|done]. destruct (chunk_from_ok _ _ _ _ _ Hc (or_introl eq_refl)) as [Hcat _].
  by destruct ss.
Qed.

(** The old tree and the new one, seen from the right edge. *)
Record append_plan st (tree : Tree) (news : list kv) (root' : option Cid) (nodes' : list (Z * list node_entry))
    (h : nat) (ups : list (list NodeSummary)) (l : list kv) (ds : list (list node_entry))
    (kept : list (Z * list node_entry)) (top' : list NodeSummary) (above' : list (Z * list node_entry)) : Prop := {
  ap_height : (h ≤ 255)%nat;
  ap_edge : ∃ t, t_root tree = Some (sm_cid t) ∧ right_edge st h t (reverse ups) l;
  ap_chunks : level_chunks f 0 (leaf_entry <$> l ++ news) = Ok ds;
  ap_fit : fits config 0 (leaf_entry <$> l ++ news);
  ap_top : top' ≠ [] ∧ root' = sm_cid <$> head top';
  ap_above : ∃ above, edge_rebuilt 0 ups (summary f 0 <$> ds) top' above above' ∧ Forall (node_stored config st) above;
  ap_kept : Forall (node_stored config st) kept;
  ap_nodes : nodes' = (kept ++ ((λ c, (0, c)) <$> ds)) ++ above';
}.

Lemma leaf_boundary (a l news : list kv) cs :
  level_chunks f 0 (leaf_entry <$> a ++ l) = Ok (cs ++ [leaf_entry <$> l]) → concat cs = leaf_entry <$> a → l ≠ [] →
  level_chunks f 0 (leaf_entry <$> (a ++ l) ++ news) = app cs <$> level_chunks f 0 (leaf_entry <$> l ++ news).
Proof.
  intros Hc Hcs Hne. destruct l as [|e l]; [done|]. rewrite <- app_assoc, !fmap_app in *. by eapply chunk_keep.
Qed.

Lemma append_plan_ok st tree es news nodes nodes' root' :
  write_input config st tree es (es ++ news) nodes nodes' root' → uncapped f es = true →
  ∃ h ups linit l ds kept top' above', es = linit ++ l ∧ l ≠ [] ∧
    append_plan st tree news root' nodes' h ups l ds kept top' above'.
Proof.
  intros [_ _ _ (_ & Hspec & Hst) Hne _ Hfit _ Hfit' Hnew _ _] Hfree. unfold tree_spec in Hspec, Hnew. unfold uncapped in Hfree.
  destruct (level_chunks f 0 (leaf_entry <$> es)) as [chunks| |] eqn:Hc; [|done..]. cbn [mbind outcome_bind] in Hspec.
  destruct (leaf_sums config es chunks Hfit Hc) as (Hcat & Hok & Hsums).
  destruct (tower f levels_fuel 0 (summary f 0 <$> chunks)) as [[top above]| |] eqn:Hup; [|done..]. injection Hspec as Hroot <-.
  destruct (unmap_chunks chunks es Hcat) as (leaves & -> & Hleaves).
  destruct leaves as [|l linit _] using rev_ind; [by subst es|]. rewrite concat_app in Hleaves. cbn [concat] in Hleaves. rewrite app_nil_r in Hleaves.
  rewrite fmap_app in Hc, Hok, Hst. apply Forall_app in Hok as [_ [[Hlne _] _]%Forall_cons_1].
  assert (l ≠ []) as Hl by (by intros ->). subst es.
  assert (concat (chunk_of <$> linit) = leaf_entry <$> concat linit) as Hinit by (by rewrite chunk_of_concat).
  rewrite (leaf_boundary _ _ _ _ Hc Hinit Hl) in Hnew. destruct (level_chunks f 0 (leaf_entry <$> l ++ news)) as [ds| |] eqn:Hd; [|done..].
  cbn [fmap outcome_fmap mbind outcome_bind] in Hnew.
  destruct (tower f levels_fuel 0 (summary f 0 <$> (chunk_of <$> linit) ++ ds)) as [[top' above']| |] eqn:Hup'; [|done..].
  injection Hnew as Hroot' <-. pose proof (leaf_boundary _ _ news _ Hc Hinit Hl) as Hnew. rewrite Hd in Hnew.
  rewrite !fmap_app in Hsums. rewrite !fmap_app in Hup. rewrite (fmap_app (summary f 0)) in Hup'. rewrite !fmap_app in Hfree.
  rewrite fmap_app in Hst. cbn [fmap list_fmap] in Hsums, Hup, Hfree, Hst.
  destruct (leaf_sums config _ _ Hfit' Hnew) as (_ & _ & Hsums'). rewrite fmap_app in Hsums'.
  assert (ds ≠ []) as Hds.
  { intros ->. destruct (chunk_from_ok _ _ _ _ _ Hd (or_introl eq_refl)) as [Hcatd _]. by destruct l. }
  apply Forall_app in Hst as [[Hk [Hsl _]%Forall_cons_1]%Forall_app Hst].
  destruct (append_tower st levels_fuel 0 _ (summary f 0 (leaf_entry <$> l)) (summary f 0 <$> ds) [] l _ _ _ _
    ltac:(done) ltac:(done) Hsums Hsums' ltac:(by destruct ds) Hup Hfree Hup' Hst ltac:(by split_and!))
    as (h & t & ups & Hh & -> & Hedge & Hre).
  rewrite app_nil_r in Hedge. eexists h, ups, (concat linit), l, ds, _, top', above'. split; [done|]. split; [done|].
  constructor; [done|by exists t|done| | |by exists above|exact Hk|by rewrite fmap_app].
  - eapply fits_app. rewrite <- fmap_app, app_assoc. by apply entries_leaf_fit.
  - split; [|done]. eapply tower_some; [exact Hup'|]. destruct ds; [done|]. by destruct linit.
Qed.

(** ** Running an append *)
(** All mutations are upserts of keys after the entries. *)
Definition appends (es : list kv) (ms : list NormalizedMutation) : bool :=
  forallb (λ m : NormalizedMutation, bool_decide (is_Some m.2)) ms &&
  match ms, list.last es with (key, _) :: _, Some e => bltb e.1 key | _, _ => false end.

Lemma appends_news es ms :
  ascending es → ascending ms → appends es ms = true →
  ∃ news, ms = (λ e : kv, (e.1, Some e.2)) <$> news ∧ news ≠ [] ∧ updated es ms = es ++ news.
Proof.
  intros Hes Hms [Hall Hafter]%andb_true_iff.
  assert (∃ news : list kv, ms = (λ e : kv, (e.1, Some e.2)) <$> news) as (news & ->).
  { clear -Hall. induction ms as [|[k [v|]] ms IH]; [by exists []| |done].
    destruct (IH Hall) as (news & ->). by exists ((k, v) :: news). }
  exists news. split; [done|]. destruct news as [|[k v] news]; [done|]. split; [done|].
  destruct (list.last es) as [e|] eqn:Hlast; [|done]. cbn [fmap list_fmap fst] in Hafter. apply bltb_lt in Hafter.
  rewrite <- (app_nil_r es) at 1. rewrite updated_after.
  - f_equal. cbn [updated]. unfold upserts. clear. generalize ((k, v) :: news). intros l.
    induction l as [|[k' v'] l IH]; [done|]. cbn [fmap list_fmap mbind list_bind]. by rewrite IH.
  - intros e' x He' Hx. apply last_Some in Hlast as [es' ->].
    assert (ble e'.1 e.1) as Hle.
    { apply elem_of_app in He' as [He'| ->%list_elem_of_singleton]; [|apply ble_refl]. apply blt_le.
      apply ascending_app in Hes as (_ & _ & Hlt). apply Hlt; [apply list_elem_of_fmap; by exists e'|by left]. }
    eapply ble_lt_trans; [exact Hle|]. eapply blt_le_trans; [exact Hafter|].
    apply (ascending_head k (Some v) _ x.1 Hms). apply list_elem_of_fmap. by exists x.
Qed.

Lemma spans_edge st h s leaves inner :
  spans config st h s leaves inner → ∃ path linit l, leaves = linit ++ [l] ∧ right_edge st h s path l.
Proof.
  revert s leaves inner; induction h as [|h IH]; intros s leaves inner.
  - intros (es & -> & _ & Hne & -> & Hst). exists [], [], es. done.
  - intros (ss & parts & Hne & -> & Hst & Hsub & -> & _). destruct ss as [|c init _] using rev_ind; [done|].
    apply Forall2_app_inv_l in Hsub as (p1 & p2 & _ & Hp & ->).
    inversion Hp as [|? [ls ins] ? ? Hc Hnil]; subst. inversion Hnil; subst. cbn [fst snd] in *.
    destruct (IH c ls ins Hc) as (path & linit & l & -> & Hr). exists ((init ++ [c]) :: path), (concat (fst <$> p1) ++ linit), l.
    split; [|by exists init, c, path]. rewrite fmap_app, concat_app. cbn. by rewrite app_nil_r, app_assoc.
Qed.

Lemma try_append_prefix st tree h t path l ms measure w stats :
  existsb (λ m : NormalizedMutation, bool_decide (m.2 = None)) ms = false →
  t_root tree = Some (sm_cid t) → right_edge st h t path l → (h ≤ 255)%nat → manages f st w →
  ∃ w' stats' e, manages f st w' ∧ list.last l = Some e ∧
    try_append tree ms measure (w, stats)
    = (if match ms with [] => true | (key, _) :: _ => bleb key e.1 end then mret None
       else append_suffix tree (edge_nodes h path) (sm_cid (leaf_summary config l)) (node_of f 0 (leaf_entry <$> l)) ms
              ≫= λ tree' : Tree, mret (Some tree')) (w', stats').
Proof.
  intros Hdel Hroot Hr Hh Hw. unfold try_append. rewrite Hdel.
  destruct (rightmost_loop_ok st h collect_fuel t path l [] w Hr ltac:(unfold collect_fuel; lia) Hw) as (w1 & Hpath & Hw1).
  rewrite (action_bind_Ok _ _ _ (edge_nodes h path) (w1, stats))
    by (apply on_manager_Ok; unfold rightmost_internal_path; rewrite Hroot; exact Hpath).
  destruct (edge_last st h t path l Hr) as (Hlast & Hst & Hne).
  rewrite (action_bind_Ok (run _) _ (w1, stats) (sm_cid (leaf_summary config l)) (w1, stats)).
  2:{ unfold run. rewrite <- Hlast. rewrite Hroot. by destruct (list.last (edge_nodes h path)) as [[]|]. }
  destruct (load_counted_ok config st measure _ _ w1 stats Hw1 Hst eq_refl) as (w2 & stats2 & Hl & Hw2).
  rewrite (action_bind_Ok _ _ _ _ _ Hl). cbn [fst snd node_of leaf keys vals]. rewrite !length_fmap, Nat.eqb_refl. cbn [negb orb Z.eqb].
  destruct (list.last l) as [e|] eqn:He; [|by apply last_None in He].
  exists w2, stats2, e. split; [done|]. split; [done|].
  rewrite (action_bind_Ok (run _) _ (w2, stats2) e.1 (w2, stats2)); [done|].
  rewrite <- list_fmap_compose, fmap_last, He. done.
Qed.

Lemma rebuild_right_edge_ok lv0 ups ds top' above above' h path :
  lv0 = 0 → edge_rebuilt lv0 ups (summary f 0 <$> ds) top' above above' → top' ≠ [] → length path = h → reverse path = ups →
  ∃ root ns, head top' = Some root ∧
    rebuild_right_edge config (edge_nodes h path) (summary f 0 <$> ds) = Ok (sm_cid root, deferred_node <$> ns) ∧
    (∀ n, n ∈ ns → n ∈ above') ∧ (∀ n, n ∈ above' → n ∈ ns ∨ n ∈ above).
Proof.
  intros -> (mid & lv' & ns1 & ns2 & Hedge & Hraise & H1' & H2') Htop Hlen Hups.
  destruct top' as [|root top']; [done|]. exists root, (ns1 ++ ns2). split; [done|]. split; [|done].
  unfold rebuild_right_edge. rewrite (edge_reverse h path Hlen), Hups, Hedge. cbn [app mbind outcome_bind].
  rewrite Hraise. cbn [mbind outcome_bind head ok_or]. by rewrite fmap_app.
Qed.

Lemma edge_nodes_stored st h s path l cid :
  right_edge st h s path l → cid ∈ (edge_nodes h path).*1 → is_Some (st !! cid).
Proof.
  revert s path; induction h as [|h IH]; intros s path; [intros (-> & _) []%not_elem_of_nil|].
  intros (init & c & rest & -> & -> & (b & Hb & _) & Hr). cbn [edge_nodes fmap list_fmap fst].
  intros [->|Hin]%elem_of_cons; [by exists b|by eapply IH].
Qed.

(** Of the nodes of the new tree, those that are not written were there. *)
Lemma append_covered st tree news root' nodes' h ups l ds kept top' above' ns (p : list node_entry → bool) (q : Z * list node_entry → bool) :
  append_plan st tree news root' nodes' h ups l ds kept top' above' → publishable config st nodes' → Forall (node_good config) nodes' →
  (∀ n, n ∈ ns → n ∈ above') → (∀ n, n ∈ above' → n ∈ ns ∨ is_Some (st !! node_cid n)) →
  (∀ c, p c = false → is_Some (st !! node_cid (0, c))) → (∀ n, q n = false → is_Some (st !! node_cid n)) →
  let written := ((λ c, (0, c)) <$> List.filter p ds) ++ List.filter q ns in
  publishable config st written ∧ Forall (node_good config) written ∧
  Forall (node_stored config (put_all (stored f <$> written) st)) nodes'.
Proof.
  intros [_ _ _ _ _ _ Hkept ->] Hpub Hgood Hns Habove Hp Hq written.
  assert (written ⊆ (kept ++ ((λ c, (0, c)) <$> ds)) ++ above') as Hsub.
  { intros n [(c & -> & [Hc _]%list_elem_of_In%filter_In)%list_elem_of_fmap|[Hn _]%list_elem_of_In%filter_In]%elem_of_app;
      rewrite !elem_of_app; [left; right|right; by apply Hns, list_elem_of_In].
    apply list_elem_of_fmap. exists c. split; [done|by apply list_elem_of_In]. }
  rewrite Forall_forall in Hgood. split; [by eapply publishable_sub|].
  split; [apply Forall_forall; intros n Hn; by apply Hgood, Hsub|].
  apply Forall_forall. intros n Hn. eapply (written_stored config Hwf Hvalid Hcodec); [exact Hpub|done|by apply Hgood|done|].
  apply elem_of_app in Hn as [[Hn|(c & -> & Hc)%list_elem_of_fmap]%elem_of_app|Hn].
  - right. destruct (proj1 (Forall_forall _ _) Hkept n Hn) as (b & Hb & _). by exists b.
  - destruct (p c) eqn:Hpc; [left|right; by apply Hp]. exists (0, c). split; [|done]. apply elem_of_app. left.
    apply list_elem_of_fmap. exists c. split; [done|]. apply list_elem_of_In, filter_In. split; [by apply list_elem_of_In|done].
  - destruct (Habove n Hn) as [Hin|Hin]; [|by right]. destruct (q n) eqn:Hqn; [left|right; by apply Hq].
    exists n. split; [|done]. apply elem_of_app. right. apply list_elem_of_In, filter_In. split; [by apply list_elem_of_In|done].
Qed.

Lemma append_suffix_ok st tree es news nodes' root' h ups l ds kept top' above' w stats :
  append_plan st tree news root' nodes' h ups l ds kept top' above' → t_config tree = config →
  entries_fit config (es ++ news) → ascending (es ++ news) → tree_spec f (es ++ news) = Ok (root', nodes') →
  publishable config st nodes' → manages f st w →
  wrote config st {| t_root := root'; t_config := config |} (es ++ news) nodes'
    (append_suffix tree (edge_nodes h (reverse ups)) (sm_cid (leaf_summary config l)) (node_of f 0 (leaf_entry <$> l))
       ((λ e : kv, (e.1, Some e.2)) <$> news) (w, stats)).
Proof.
  intros Hplan Hconf Hfit Hasc Hspec Hpub Hw. pose proof (spec_good config Hcodec _ _ _ Hfit Hasc Hspec) as Hgood.
  pose proof Hplan as [_ (t & _ & Hr) Hd Hfitl [Htop ->] (above & Hre & Hst) _ _]. unfold append_suffix. rewrite Hconf.
  rewrite (action_bind_Ok (run _) _ (w, stats) (leaf_of config <$> ds) (w, stats))
    by (unfold run; by rewrite (stream_suffix_ok _ _ _ Hfitl Hd)).
  rewrite (action_bind_Ok (tally _) _ _ tt _ eq_refl). cbn [fst snd]. match goal with |- context [(w, ?s)] => set (stats1 := s) end.
  destruct (rebuild_right_edge_ok 0 ups ds top' above above' h (reverse ups) eq_refl Hre Htop (right_edge_length _ _ _ _ _ Hr)
    (reverse_involutive ups)) as (root & ns & Hhead & Hrebuild & Hns & Habove).
  rewrite (action_bind_Ok (run _) _ (w, stats1) (sm_cid root, deferred_node <$> ns) (w, stats1)).
  2:{ unfold run. rewrite <- Hrebuild. rewrite <- list_fmap_compose. done. }
  cbn [fst snd]. rewrite <- (list_fmap_compose _ emitted_internal). change (emitted_internal ∘ deferred_node) with (inner_of config).
  rewrite !filter_fmap_list.
  match goal with |- context [List.filter ?p ds] => set (ch := List.filter p ds) end.
  match goal with |- context [List.filter ?q ns] => set (ins := List.filter q ns) end.
  assert (publishable config st (((λ c, (0, c)) <$> ch) ++ ins) ∧ Forall (node_good config) (((λ c, (0, c)) <$> ch) ++ ins) ∧
    Forall (node_stored config (put_all (stored f <$> ((λ c, (0, c)) <$> ch) ++ ins) st)) nodes') as (Hpubw & Hgoodw & Hall).
  { eapply append_covered; [exact Hplan|done|done|done|..].
    - intros n Hn. destruct (Habove n Hn) as [|Hin]; [by left|right].
      destruct (proj1 (Forall_forall _ _) Hst n Hin) as (b & Hb & _). by exists b.
    - intros c Hc%negb_false_iff%bool_decide_eq_true. cbn [fst snd]. destruct (edge_last st h t _ l Hr) as (_ & (b & Hb & _) & _).
      exists b. rewrite <- Hb. f_equal. exact Hc.
    - intros n Hn%bool_decide_eq_false%dec_stable. eapply edge_nodes_stored; [exact Hr|exact Hn]. }
  destruct (publish_any_ok config Hwf Hvalid Hcodec st ch ins w stats1 Hw Hpubw Hgoodw) as (w' & stats' & Hp & Hw').
  rewrite (action_bind_Ok _ _ _ _ _ Hp), (action_bind_Ok (tally _) _ _ tt _ eq_refl). rewrite Hhead in *.
  eexists _, w', _. split; [reflexivity|]. split; [exact Hw'|].
  split; [by apply consistent_sub, publishable_consistent|done].
Qed.

End edge.

(** ** The fast path *)
Section fast.
Context `{HashesOk} {W St : Type} `{Store St} `{!WriteManager W} `{!WriteManagerOk W}.

Lemma not_appending config st tree es nodes ms measure (w : W) stats :
  entries_fit config es → es ≠ [] → canonical config st tree es nodes → appends es ms = false →
  manages (Config.format config) st w →
  ∃ w' stats', try_append tree ms measure (w, stats) = (Ok None, (w', stats')) ∧ manages (Config.format config) st w'.
Proof.
  intros Hfit Hne Hcan Happ Hw.
  destruct (existsb (λ m : NormalizedMutation, bool_decide (m.2 = None)) ms) eqn:Hdel.
  { exists w, stats. unfold try_append. by rewrite Hdel. }
  destruct (canonical_spans config st tree es nodes Hfit Hne Hcan) as (h & s & leaves & inner & Hh & Hroot & Hs & Hcat & _).
  destruct (spans_edge config st h s leaves inner Hs) as (path & linit & l & -> & Hr).
  destruct (try_append_prefix config st tree h s path l ms measure w stats Hdel Hroot Hr Hh Hw) as (w' & stats' & e & Hw' & He & Hrun).
  exists w', stats'. rewrite Hrun. split; [|done]. replace (match ms with [] => _ | _ => _ end) with true; [done|].
  symmetry. revert Happ. unfold appends. rewrite concat_app in Hcat. cbn [concat] in Hcat. rewrite app_nil_r in Hcat.
  assert (list.last es = Some e) as ->. { apply last_Some in He as [l' ->]. rewrite <- Hcat, app_assoc. apply last_snoc. }
  assert (forallb (λ m : NormalizedMutation, bool_decide (is_Some m.2)) ms = true) as ->.
  { clear -Hdel. induction ms as [|[k [v|]] ms IH]; [done|by apply IH|done]. }
  destruct ms as [|[key v] ms]; [done|]. cbn [andb]. intros Hle%bltb_ge. by apply bleb_le.
Qed.

Lemma appending config st tree es news nodes nodes' root' measure (w : W) stats :
  write_input config st tree es (es ++ news) nodes nodes' root' → uncapped (Config.format config) es = true →
  appends es ((λ e : kv, (e.1, Some e.2)) <$> news) = true → manages (Config.format config) st w →
  ∃ w' stats', try_append tree ((λ e : kv, (e.1, Some e.2)) <$> news) measure (w, stats)
      = (Ok (Some {| t_root := root'; t_config := config |}), (w', stats')) ∧
    wrote config st {| t_root := root'; t_config := config |} (es ++ news) nodes'
      (Ok {| t_root := root'; t_config := config |}, (w', stats')).
Proof.
  intros Hin Hcap Happ Hw. pose proof Hin as [Hwf Hvalid Hcodec [Hconf _] _ _ _ Hasc' Hfit' Hnew Hpub _].
  destruct (append_plan_ok config Hwf Hvalid Hcodec st tree es news nodes nodes' root' Hin Hcap)
    as (h & ups & linit & l & ds & kept & top' & above' & -> & Hne & Hplan).
  pose proof Hplan as [Hh (t & Hroot & Hr) _ _ _ _ _ _].
  assert (existsb (λ m : NormalizedMutation, bool_decide (m.2 = None)) ((λ e : kv, (e.1, Some e.2)) <$> news) = false) as Hdel.
  { clear. by induction news. }
  destruct (try_append_prefix config st tree h t _ l _ measure w stats Hdel Hroot Hr Hh Hw) as (w1 & stats1 & e & Hw1 & He & Hrun).
  rewrite Hrun. replace (match _ <$> news with [] => _ | _ => _ end) with false.
  2:{ symmetry. unfold appends in Happ. apply andb_true_iff in Happ as [_ Happ]. apply last_Some in He as [l' ->].
      rewrite app_assoc, last_snoc in Happ. destruct news as [|[k v] news]; [done|]. cbn [fmap list_fmap fst] in *.
      by apply bleb_gt, bltb_lt. }
  destruct (append_suffix_ok config Hwf Hvalid Hcodec st tree (linit ++ l) news nodes' root' h ups l ds kept top' above' w1 stats1
    Hplan Hconf Hfit' Hasc' Hnew Hpub Hw1) as (st' & w' & stats' & Hsuf & Hwrote).
  exists w', stats'. rewrite (action_bind_Ok _ _ _ _ _ Hsuf). split; [done|]. by exists st', w', stats'.
Qed.

(** C8. Appending to the tree that building a non-empty map gives, in which the byte limit
    cut no node above the leaves: when every mutation upserts a key after the last one
    of the tree, the fast path writes the tree of the map after the mutations, as
    building it from nothing would; for any other mutations it declines and stores
    nothing.  The updated map has a tree whose nodes do not collide with stored ones.
    Where chunks are measured in entries and cut by keys, the byte limit has
    cut no node above the leaves of the new tree either. *)
Theorem append_canonical config st tree es es' muts nodes nodes' root' measure (w : W) stats :
  write_input config st tree es es' nodes nodes' root' → final_map es' = mutate (final_map es) muts →
  uncapped (Config.format config) es = true → manages (Config.format config) st w →
  let tree' := {| t_root := root'; t_config := config |} in
  ∃ w' stats', try_append tree (normalize muts) measure (w, stats)
      = (Ok (if appends es (normalize muts) then Some tree' else None), (w', stats')) ∧
    if appends es (normalize muts) then wrote config st tree' es' nodes' (Ok tree', (w', stats'))
    else manages (Config.format config) st w'.
Proof.
  intros Hin Hmap Hcap Hw tree'. pose proof (updated_entries _ _ _ _ _ _ _ _ _ Hin Hmap) as ->.
  destruct (appends es (normalize muts)) eqn:Happ.
  - destruct (appends_news es (normalize muts) (wi_asc _ _ _ _ _ _ _ _ Hin) (normalize_ascending muts) Happ)
      as (news & Hms & _ & Hup). rewrite Hup in *. rewrite Hms in *. by apply (appending config st tree es news nodes nodes').
  - destruct Hin as [_ _ _ Hold Hne _ Hfit _ _ _ _ _]. by apply (not_appending config st tree es nodes).
Qed.

End fast.
(** ** Sample *)
#[local] Existing Instance sample_hashes.
#[local] Existing Instance sample_hashes_ok.

Definition sample_news : list Mutation := [Upsert [Byte.xf1] [Byte.x01]; Upsert [Byte.xf0] [Byte.x02]; Upsert [Byte.xf2] [Byte.x03]].
Definition sample_longer : list kv := updated sample_es (normalize sample_news).
Definition sample_appended : option Cid * list (Z * list node_entry) := Eval vm_compute in sample_spec sample_longer.

Lemma sample_append_input :
  write_input (sample_config 2 2) sample_store sample_old sample_es sample_longer sample_built.2 sample_appended.2 sample_appended.1.
Proof.
  apply (sample_input sample_news sample_appended).
  - split; [apply no_collision_dups; apply (bool_decide_eq_true_1 _); vm_compute; reflexivity|].
    apply sample_pack. vm_compute. reflexivity.
  - vm_compute. reflexivity.
  - vm_compute. discriminate.
  - split; vm_compute; reflexivity.
Qed.

Lemma append_canonical_witness :
  appends sample_es (normalize sample_news) = true ∧
  let tree' := {| t_root := sample_appended.1; t_config := sample_config 2 2 |} in
  ∃ w' stats', try_append sample_old (normalize sample_news) false (sample_engine, WriteStats_default)
      = (Ok (if appends sample_es (normalize sample_news) then Some tree' else None), (w', stats')) ∧
    if appends sample_es (normalize sample_news) then wrote (sample_config 2 2) sample_store tree' sample_longer sample_appended.2 (Ok tree', (w', stats'))
    else manages (Config.format (sample_config 2 2)) sample_store w'.
Proof.
  split; [vm_compute; reflexivity|].
  exact (append_canonical (sample_config 2 2) sample_store sample_old sample_es sample_longer sample_news
    sample_built.2 sample_appended.2 sample_appended.1 false sample_engine WriteStats_default
    sample_append_input (normalize_map _ _ (canonical_ascending _)) ltac:(vm_compute; reflexivity) sample_engine_manages).
Defined.

End AppendSpec.
