(* ===== verification/Key.v ===== *)
(** * Ordered byte keys (src/prolly/key.rs)

    Prefix ranges, order-preserving numeric keys, escaped composite keys and
    the readable debug form.  A Rust [Vec<u8>] or [&[u8]] is a list of bytes, a
    loop over a vector a structural recursion over what is left of it. *)

From Stdlib Require Import ZArith Lia Strings.Byte.
From stdpp Require Import base tactics numbers list strings option.
From S2P Require Import Prelude.

Local Open Scope Z_scope.

Module Key.

(** ** Prefix ranges *)

(** The [while let Some(last) = end.last_mut()] loop of [prefix_end]; the
    argument is the vector [end], last byte first. *)
Fixpoint prefix_end_loop (rev_end : bytes) : option bytes :=
  match rev_end with
  | [] => None
  | last :: init =>
      if bval last =? u8_max then prefix_end_loop init
      else Some (reverse (byte_of (bval last + 1) :: init))
  end.

Definition prefix_end (prefix : bytes) : option bytes :=
  match prefix with
  | [] => None
  | _ => prefix_end_loop (reverse prefix)
  end.

Definition prefix_range (prefix : bytes) : bytes * option bytes :=
  (prefix, prefix_end prefix).

(** ** Numeric keys *)
Definition u64_key (value : Z) : bytes := be_bytes 8 value.
Definition u128_key (value : Z) : bytes := be_bytes 16 value.
(** [value as u64] is the two's complement residue. *)
Definition i64_key (value : Z) : bytes :=
  be_bytes 8 (Z.lxor (wrap 64 value) (Z.shiftl 1 63)).
Definition i128_key (value : Z) : bytes :=
  be_bytes 16 (Z.lxor (wrap 128 value) (Z.shiftl 1 127)).
Definition timestamp_millis_key (value : Z) : bytes := u64_key value.

(** ** Escaped segments *)
Definition escape_byte (b : byte) : bytes :=
  if bval b =? 0 then [Byte.x00; Byte.xff] else [b].

(** [encode_segment_into] appends to the output vector. *)
Definition encode_segment_into (segment out : bytes) : bytes :=
  foldl (λ out b, out ++ escape_byte b) out segment ++ [Byte.x00; Byte.x00].

Definition encode_segment (segment : bytes) : bytes := encode_segment_into segment [].

Definition encode_segment_prefix (segment : bytes) : bytes :=
  foldl (λ out b, out ++ escape_byte b) [] segment.

Inductive KeyDecodeError :=
| UnexpectedEnd (offset : Z)
| InvalidEscape (offset : Z) (marker : byte).

(** The scanning loop: [rest] is [key[offset..]]. *)
Fixpoint decode_segments_loop (rest : bytes) (offset : Z) (segments : list bytes)
    (current : bytes) : outcome KeyDecodeError (list bytes) :=
  match rest with
  | [] =>
      match current with
      | [] => Ok segments
      | _ => Err (UnexpectedEnd offset)
      end
  | b :: rest' =>
      if negb (bval b =? 0) then
        decode_segments_loop rest' (offset + 1) segments (current ++ [b])
      else
        match rest' with
        | [] => Err (UnexpectedEnd offset)
        | marker :: rest'' =>
            if bval marker =? 0 then
              decode_segments_loop rest'' (offset + 2) (segments ++ [current]) []
            else if bval marker =? 255 then
              decode_segments_loop rest'' (offset + 2) segments (current ++ [Byte.x00])
            else Err (InvalidEscape offset marker)
        end
  end.

Definition decode_segments (key : bytes) : outcome KeyDecodeError (list bytes) :=
  decode_segments_loop key 0 [] [].

(** ** The composite key builder *)
Record KeyBuilder := { kb_bytes : bytes }.

Definition new : KeyBuilder := {| kb_bytes := [] |}.
Definition from_prefix (prefix : bytes) : KeyBuilder := {| kb_bytes := prefix |}.
Definition push_raw (self : KeyBuilder) (raw : bytes) : KeyBuilder :=
  {| kb_bytes := kb_bytes self ++ raw |}.
Definition push_segment (self : KeyBuilder) (segment : bytes) : KeyBuilder :=
  {| kb_bytes := encode_segment_into segment (kb_bytes self) |}.
Definition push_u64 (self : KeyBuilder) (value : Z) : KeyBuilder :=
  push_segment self (u64_key value).
Definition push_u128 (self : KeyBuilder) (value : Z) : KeyBuilder :=
  push_segment self (u128_key value).
Definition push_i64 (self : KeyBuilder) (value : Z) : KeyBuilder :=
  push_segment self (i64_key value).
Definition push_i128 (self : KeyBuilder) (value : Z) : KeyBuilder :=
  push_segment self (i128_key value).
Definition push_timestamp_millis (self : KeyBuilder) (value : Z) : KeyBuilder :=
  push_segment self (timestamp_millis_key value).
Definition finish (self : KeyBuilder) : bytes := kb_bytes self.

(** ** Debug form *)

(** One lower-case hexadecimal digit. *)
Definition hex_digit (d : Z) : byte :=
  if d <? 10 then byte_of (48 + d) else byte_of (87 + d).

Definition debug_byte (b : byte) : bytes :=
  let v := bval b in
  if v =? 92 then [Byte.x5c; Byte.x5c]
  else if v =? 34 then [Byte.x5c; Byte.x22]
  else if v =? 10 then [Byte.x5c; Byte.x6e]
  else if v =? 13 then [Byte.x5c; Byte.x72]
  else if v =? 9 then [Byte.x5c; Byte.x74]
  else if (32 <=? v) && (v <=? 126) then [b]
  else [Byte.x5c; Byte.x78; hex_digit (v / 16); hex_digit (v mod 16)].

Definition debug_key (key : bytes) : bytes :=
  foldl (λ out b, out ++ debug_byte b) [Byte.x22] key ++ [Byte.x22].

(** ** Reference notions *)

(** The key a builder produces for a tuple of segments. *)
Definition composite (segments : list bytes) : bytes :=
  finish (foldl push_segment new segments).

(** Lexicographic order of segment tuples. *)
Fixpoint segments_cmp (s t : list bytes) : comparison :=
  match s, t with
  | [], [] => Eq
  | [], _ :: _ => Lt
  | _ :: _, [] => Gt
  | a :: s', b :: t' =>
      match bcmp a b with Eq => segments_cmp s' t' | c => c end
  end.

Definition in_range (r : bytes * option bytes) (key : bytes) : Prop :=
  (r.1 ≤ key)%key ∧ match r.2 with Some e => (key < e)%key | None => True end.

(** ** Lemmas *)

Lemma foldl_app_out (f : byte → bytes) l out :
  foldl (λ out b, out ++ f b) out l = out ++ concat (f <$> l).
Proof.
  revert out; induction l as [|b l IH]; intros out; cbn.
  - by rewrite app_nil_r.
  - by rewrite IH, <- app_assoc.
Qed.

Lemma encode_segment_into_eq segment out :
  encode_segment_into segment out = out ++ encode_segment segment.
Proof. unfold encode_segment, encode_segment_into. rewrite !foldl_app_out; cbn. by rewrite app_assoc. Qed.

Lemma encode_segment_eq segment :
  encode_segment segment = encode_segment_prefix segment ++ [Byte.x00; Byte.x00].
Proof. reflexivity. Qed.

Lemma encode_segment_prefix_cons b s :
  encode_segment_prefix (b :: s) = escape_byte b ++ encode_segment_prefix s.
Proof. unfold encode_segment_prefix; by rewrite !foldl_app_out. Qed.

Lemma encode_segment_cons b s : encode_segment (b :: s) = escape_byte b ++ encode_segment s.
Proof. by rewrite !encode_segment_eq, encode_segment_prefix_cons, app_assoc. Qed.

Lemma composite_eq segments : composite segments = concat (encode_segment <$> segments).
Proof.
  unfold composite, finish.
  assert (∀ kb, kb_bytes (foldl push_segment kb segments) =
                kb_bytes kb ++ concat (encode_segment <$> segments)) as ->; [|done].
  induction segments as [|s ss IH]; intros kb; cbn; [by rewrite app_nil_r|].
  by rewrite IH; cbn; rewrite encode_segment_into_eq, app_assoc.
Qed.

Lemma composite_cons s ss : composite (s :: ss) = encode_segment s ++ composite ss.
Proof. by rewrite !composite_eq. Qed.

Lemma prefix_end_loop_snoc l x :
  prefix_end_loop (l ++ [x]) =
    match prefix_end_loop l with
    | Some e => Some (x :: e)
    | None => if bval x =? u8_max then None else Some [byte_of (bval x + 1)]
    end.
Proof.
  induction l as [|y l IH]; cbn [app prefix_end_loop]; [by repeat case_bool|].
  case_bool; [done|]. by rewrite !reverse_cons, reverse_snoc.
Qed.

(** [prefix_end] by recursion from the front. *)
Lemma prefix_end_cons x p :
  prefix_end (x :: p) =
    match prefix_end p with
    | Some e => Some (x :: e)
    | None => if bval x =? u8_max then None else Some [byte_of (bval x + 1)]
    end.
Proof.
  unfold prefix_end; rewrite reverse_cons, prefix_end_loop_snoc.
  by destruct p.
Qed.

(** What [prefix_end] gives above a first byte: nothing when the byte is 0xff,
    its successor otherwise. *)
Lemma byte_succ x : bval x ≠ u8_max → bval (byte_of (bval x + 1)) = bval x + 1.
Proof. unfold u8_max; intros; apply bval_byte_of_small; pose proof (bval_range x); lia. Qed.

(** [prefix_end] is above every key with the prefix. *)
Lemma prefix_end_above p s e : prefix_end p = Some e → (p ++ s < e)%key.
Proof.
  unfold blt. revert e; induction p as [|x p IH]; intros e; [done|].
  rewrite prefix_end_cons. destruct (prefix_end p) as [e'|].
  - intros [= <-]. cbn [app bcmp]. rewrite Z.compare_refl. by apply IH.
  - case_bool; [done|]. intros [= <-]. cbn [app bcmp]. rewrite byte_succ by done.
    by rewrite (proj2 (Z.compare_lt_iff _ _)) by lia.
Qed.

Lemma prefix_range_in p k : in_range (prefix_range p) k ↔ p `prefix_of` k.
Proof.
  unfold in_range, prefix_range, ble, blt; cbn [fst snd].
  revert k; induction p as [|x p IH]; intros k.
  { split; [intros _; apply prefix_nil|]; intros _; by destruct k. }
  rewrite prefix_end_cons; destruct k as [|y k].
  { split; [by intros [H _]|]; intros H; by apply prefix_nil_not in H. }
  rewrite prefix_cons_iff; cbn [bcmp].
  destruct (Z.compare_spec (bval x) (bval y)) as [Hxy|Hxy|Hxy].
  - apply bval_inj in Hxy as <-. rewrite <- IH.
    destruct (prefix_end p) as [e|]; cbn [bcmp]; [rewrite Z.compare_refl; tauto|].
    case_bool; [tauto|]. cbn [bcmp]. rewrite byte_succ by done.
    rewrite (proj2 (Z.compare_lt_iff _ _)) by lia. tauto.
  - split; [intros [_ H]; exfalso|intros [-> _]; lia].
    destruct (prefix_end p) as [e|]; [|case_bool]; cbn [bcmp] in H.
    + rewrite (proj2 (Z.compare_gt_iff _ _)) in H by lia; done.
    + unfold u8_max in *; pose proof (bval_range y); lia.
    + rewrite byte_succ in H by done.
      destruct (Z.compare_spec (bval y) (bval x + 1)); [by destruct k|lia|done].
  - split; [by intros [? _]|intros [-> _]; lia].
Qed.

(** [prefix_range p] delimits exactly the keys that start with [p]: a key is
    in the half-open range iff [p] is one of its prefixes, including the carry
    over trailing 0xff bytes and the unbounded cases. *)
Theorem prefix_range_spec p k : in_range (prefix_range p) k ↔ p `prefix_of` k.
Proof. apply prefix_range_in. Qed.

(** [prefix_end p] is the least exclusive upper bound of the keys that start
    with [p], and it is [None] exactly when no key bounds them all. *)
Theorem prefix_end_least p b :
  (∀ s, (p ++ s < b)%key) ↔ match prefix_end p with Some e => (e ≤ b)%key | None => False end.
Proof.
  split; unfold blt, ble.
  - revert b; induction p as [|x p IH]; intros b Hb.
    { cbn. specialize (Hb b); cbn in Hb. by rewrite bcmp_refl in Hb. }
    rewrite prefix_end_cons. destruct b as [|y b]; [by specialize (Hb [])|].
    cbn [app bcmp] in Hb.
    destruct (Z.compare_spec (bval x) (bval y)) as [Hxy|Hxy|Hxy]; [| |by specialize (Hb [])].
    + specialize (IH b Hb). destruct (prefix_end p) as [e|]; [|done].
      cbn [bcmp]; by rewrite Hxy, Z.compare_refl.
    + destruct (prefix_end p) as [e|]; [|case_bool]; cbn [bcmp].
      * by rewrite (proj2 (Z.compare_lt_iff _ _)).
      * unfold u8_max in *; pose proof (bval_range y); lia.
      * rewrite byte_succ by done.
        destruct (Z.compare_spec (bval x + 1) (bval y)); [by destruct b|done|lia].
  - intros H s. destruct (prefix_end p) as [e|] eqn:He; [|done].
    exact (blt_le_trans _ _ _ (prefix_end_above p s e He) H).
Qed.

(** *** Numeric keys *)

(** Flipping the sign bit of a two's complement residue adds the bias. *)
Lemma flip_sign w v :
  0 < w → - 2 ^ (w - 1) ≤ v < 2 ^ (w - 1) →
  Z.lxor (wrap w v) (Z.shiftl 1 (w - 1)) = v + 2 ^ (w - 1).
Proof.
  intros Hw Hv. unfold wrap. rewrite Z.shiftl_1_l.
  assert (2 ^ w = 2 * 2 ^ (w - 1)) as Hp by (rewrite <- Z.pow_succ_r by lia; f_equal; lia).
  assert (∀ x, 0 ≤ x < 2 ^ (w - 1) → Z.lxor x (2 ^ (w - 1)) = x + 2 ^ (w - 1)) as Hlow.
  { intros x Hx. symmetry. apply Z.add_nocarry_lxor.
    rewrite <- (Z.mod_small x (2 ^ (w - 1))), <- Z.land_ones by lia.
    rewrite <- Z.land_assoc, (Z.land_comm (Z.ones _)), Z.land_ones, Z.mod_same by lia.
    apply Z.land_0_r. }
  destruct (Z.lt_ge_cases v 0).
  - rewrite <- (Z.mod_add v 1) by lia. rewrite Z.mod_small by lia.
    replace (v + 1 * 2 ^ w) with ((v + 2 ^ (w - 1)) + 2 ^ (w - 1)) by lia.
    rewrite <- (Hlow (v + 2 ^ (w - 1))) by lia.
    by rewrite Z.lxor_assoc, Z.lxor_nilpotent, Z.lxor_0_r.
  - rewrite Z.mod_small by lia. apply Hlow; lia.
Qed.

Lemma bcmp_be_bytes n a b :
  0 ≤ a < 256 ^ Z.of_nat n → 0 ≤ b < 256 ^ Z.of_nat n →
  bcmp (be_bytes n a) (be_bytes n b) = Z.compare a b.
Proof.
  intros. rewrite bcmp_be_val by (by rewrite !length_be_bytes).
  by rewrite !be_val_be_bytes_small.
Qed.

(** Numeric keys sort like the numbers they encode: for the unsigned and the
    signed widths, comparing two encodings bytewise is comparing the values. *)
Theorem numeric_keys_order :
  (∀ a b, 0 ≤ a < 2 ^ 64 → 0 ≤ b < 2 ^ 64 →
     bcmp (u64_key a) (u64_key b) = Z.compare a b ∧
     bcmp (timestamp_millis_key a) (timestamp_millis_key b) = Z.compare a b) ∧
  (∀ a b, 0 ≤ a < 2 ^ 128 → 0 ≤ b < 2 ^ 128 →
     bcmp (u128_key a) (u128_key b) = Z.compare a b) ∧
  (∀ a b, - 2 ^ 63 ≤ a < 2 ^ 63 → - 2 ^ 63 ≤ b < 2 ^ 63 →
     bcmp (i64_key a) (i64_key b) = Z.compare a b) ∧
  (∀ a b, - 2 ^ 127 ≤ a < 2 ^ 127 → - 2 ^ 127 ≤ b < 2 ^ 127 →
     bcmp (i128_key a) (i128_key b) = Z.compare a b).
Proof.
  unfold timestamp_millis_key, u64_key, u128_key, i64_key, i128_key.
  split_and!; intros a b Ha Hb; [split|..].
  1-3: by apply bcmp_be_bytes.
  - pose proof (flip_sign 64) as F; change (64 - 1) with 63 in F.
    rewrite !(F a), !(F b) by done. rewrite bcmp_be_bytes by (change (256 ^ Z.of_nat 8) with (2 ^ 64); lia).
    by rewrite !(Z.add_comm _ (2 ^ _)), Z.add_compare_mono_l.
  - pose proof (flip_sign 128) as F; change (128 - 1) with 127 in F.
    rewrite !(F a), !(F b) by done. rewrite bcmp_be_bytes by (change (256 ^ Z.of_nat 16) with (2 ^ 128); lia).
    by rewrite !(Z.add_comm _ (2 ^ _)), Z.add_compare_mono_l.
Qed.

(** *** Composite keys *)

Lemma escape_byte_zero b : bval b = 0 → escape_byte b = [Byte.x00; Byte.xff].
Proof. intros H; unfold escape_byte; by rewrite H. Qed.
Lemma escape_byte_nonzero b : bval b ≠ 0 → escape_byte b = [b].
Proof. intros H; unfold escape_byte; by case_bool. Qed.

Lemma escape_byte_head b : ∃ t, escape_byte b = b :: t.
Proof.
  unfold escape_byte; destruct (Z.eqb_spec (bval b) 0) as [H|H]; [|by exists []].
  exists [Byte.xff]; by rewrite (bval_inj b Byte.x00 H).
Qed.

(** The first differing byte of two segments decides between their encodings. *)
Lemma encode_segment_cmp a b x y :
  bcmp (encode_segment a ++ x) (encode_segment b ++ y) =
    match bcmp a b with Eq => bcmp x y | c => c end.
Proof.
  revert b; induction a as [|p a IH]; intros [|q b]; cbn [bcmp]; try rewrite !encode_segment_cons.
  - done.
  - destruct (decide (bval q = 0)) as [Hq|Hq];
      [by rewrite escape_byte_zero | rewrite escape_byte_nonzero by done].
    change (encode_segment []) with [Byte.x00; Byte.x00]; cbn [app bcmp].
    pose proof (bval_range q); change (bval Byte.x00) with 0.
    by rewrite (proj2 (Z.compare_lt_iff _ _)) by lia.
  - destruct (decide (bval p = 0)) as [Hp|Hp];
      [by rewrite escape_byte_zero | rewrite escape_byte_nonzero by done].
    change (encode_segment []) with [Byte.x00; Byte.x00]; cbn [app bcmp].
    pose proof (bval_range p); change (bval Byte.x00) with 0.
    by rewrite (proj2 (Z.compare_gt_iff _ _)) by lia.
  - rewrite <- !app_assoc.
    destruct (decide (bval p = bval q)) as [Hpq|Hpq].
    { apply bval_inj in Hpq as <-. by rewrite bcmp_app, IH, Z.compare_refl. }
    destruct (escape_byte_head p) as [tp ->], (escape_byte_head q) as [tq ->]; cbn [app bcmp].
    by destruct (Z.compare_spec (bval p) (bval q)).
Qed.

Lemma encode_segment_nonempty s rest : ∃ x l, encode_segment s ++ rest = x :: l.
Proof.
  destruct s as [|b s]; [by eexists _, _|].
  rewrite encode_segment_cons. destruct (escape_byte_head b) as [t ->]. by eexists _, _.
Qed.

(** Composite keys sort like the tuples of their segments: comparing two
    built keys bytewise is comparing the segment tuples lexicographically. *)
Theorem composite_order s t : bcmp (composite s) (composite t) = segments_cmp s t.
Proof.
  revert t; induction s as [|a s IH]; intros [|b t]; rewrite ?composite_cons; cbn [segments_cmp].
  - done.
  - by destruct (encode_segment_nonempty b (composite t)) as (x & l & ->).
  - by destruct (encode_segment_nonempty a (composite s)) as (x & l & ->).
  - by rewrite encode_segment_cmp, IH.
Qed.

Lemma decode_loop_segment s rest off segs cur :
  decode_segments_loop (encode_segment s ++ rest) off segs cur =
  decode_segments_loop rest (off + len (encode_segment s)) (segs ++ [cur ++ s]) [].
Proof.
  revert off cur; induction s as [|b s IH]; intros off cur.
  { cbn. by rewrite app_nil_r. }
  rewrite encode_segment_cons, <- app_assoc, len_app.
  destruct (decide (bval b = 0)) as [Hb|Hb];
    [rewrite escape_byte_zero by done | rewrite escape_byte_nonzero by done]; cbn [app].
  - cbn [decode_segments_loop]. change (negb (bval Byte.x00 =? 0)) with false; cbn iota.
    change (bval Byte.xff =? 0) with false; change (bval Byte.xff =? 255) with true; cbn iota.
    rewrite IH, <- app_assoc. assert (b = Byte.x00) as -> by (apply bval_inj; exact Hb).
    f_equal; len_lia.
  - cbn [decode_segments_loop]. rewrite (proj2 (Z.eqb_neq _ _)) by done; cbn [negb].
    rewrite IH, <- app_assoc. f_equal; len_lia.
Qed.

Lemma decode_loop_composite ss off segs :
  decode_segments_loop (composite ss) off segs [] = Ok (segs ++ ss).
Proof.
  revert off segs; induction ss as [|s ss IH]; intros off segs; [cbn; by rewrite app_nil_r|].
  by rewrite composite_cons, decode_loop_segment, IH, <- app_assoc.
Qed.

(** A successful decode accounts for every byte it consumed. *)
Lemma decode_loop_inv n : ∀ rest off segs cur out,
  (length rest < n)%nat →
  decode_segments_loop rest off segs cur = Ok out →
  ∃ ss, out = segs ++ ss ∧ encode_segment_prefix cur ++ rest = composite ss.
Proof.
  induction n as [|n IH]; intros rest off segs cur out Hn; [lia|].
  destruct rest as [|b rest]; cbn [decode_segments_loop].
  { destruct cur; [|done]. intros [= <-]. exists []. by rewrite app_nil_r. }
  cbn [length] in Hn.
  assert (∀ l z, encode_segment_prefix (l ++ [z]) = encode_segment_prefix l ++ escape_byte z) as Hsnoc.
  { intros; unfold encode_segment_prefix; by rewrite foldl_app. }
  destruct (Z.eqb_spec (bval b) 0) as [Hb|Hb]; cbn [negb].
  - assert (b = Byte.x00) as -> by (apply bval_inj; exact Hb).
    destruct rest as [|m rest]; [done|]. cbn [length] in Hn.
    destruct (Z.eqb_spec (bval m) 0) as [Hm|Hm]; [|destruct (Z.eqb_spec (bval m) 255) as [Hm'|Hm']; [|done]].
    + assert (m = Byte.x00) as -> by (apply bval_inj; exact Hm).
      intros (ss & -> & Hss)%IH; [|lia]. exists (cur :: ss).
      rewrite <- app_assoc, composite_cons, encode_segment_eq, <- app_assoc, <- Hss. done.
    + assert (m = Byte.xff) as -> by (apply bval_inj; exact Hm').
      intros (ss & -> & Hss)%IH; [|lia]. exists ss; split; [done|].
      by rewrite Hsnoc, <- app_assoc in Hss.
  - intros (ss & -> & Hss)%IH; [|lia]. exists ss; split; [done|].
    rewrite Hsnoc, escape_byte_nonzero, <- app_assoc in Hss; done.
Qed.

(** [decode_segments] is the exact inverse of building a composite key: it
    succeeds on a byte string with the segments [ss] iff that string is the key
    built from [ss]; every other byte string is rejected with an error. *)
Theorem decode_segments_iff key ss : decode_segments key = Ok ss ↔ key = composite ss.
Proof.
  unfold decode_segments; split.
  - intros (ss' & -> & H)%(decode_loop_inv (S (length key))); [exact H | lia].
  - intros ->. exact (decode_loop_composite ss 0 []).
Qed.

(** An escaped partial segment selects, by byte prefix, exactly the composite
    keys whose first segment starts with that partial segment. *)
Theorem encode_segment_prefix_spec p s rest :
  encode_segment_prefix p `prefix_of` encode_segment s ++ rest ↔ p `prefix_of` s.
Proof.
  revert s; induction p as [|b p IH]; intros s.
  { split; intros _; apply prefix_nil. }
  rewrite encode_segment_prefix_cons. destruct s as [|c s].
  - split; [|intros H; by apply prefix_nil_not in H]. cbn [encode_segment encode_segment_into foldl app].
    destruct (decide (bval b = 0)) as [Hb|Hb];
      [rewrite escape_byte_zero by done | rewrite escape_byte_nonzero by done]; cbn [app];
      rewrite !prefix_cons_iff; [by intros (_ & ? & _)|intros [-> _]; done].
  - rewrite encode_segment_cons, prefix_cons_iff, <- IH.
    destruct (decide (bval b = 0)) as [Hb|Hb];
      [rewrite (escape_byte_zero b) by done | rewrite (escape_byte_nonzero b) by done];
      (destruct (decide (bval c = 0)) as [Hc|Hc];
      [rewrite (escape_byte_zero c) by done | rewrite (escape_byte_nonzero c) by done]);
      cbn [app]; rewrite !prefix_cons_iff.
    + assert (b = c) as -> by (apply bval_inj; lia). tauto.
    + split; [intros [<- _]; done|]. intros [-> _]; lia.
    + split; [intros [-> _]; done|]. intros [-> _]; lia.
    + tauto.
Qed.

(** *** The debug form *)

(** No escape of one byte starts the escape of another. *)
Lemma debug_byte_prefix_free a b s t : debug_byte a ++ s = debug_byte b ++ t → a = b.
Proof.
  intros H.
  assert (∀ a b, bool_decide (a = b) || negb (bool_decide (debug_byte a `prefix_of` debug_byte b)) = true)
    as Hfree.
  { intros a' b'; revert b'; apply forall_bytes; revert a'. apply forall_bytes. by vm_compute. }
  destruct (prefix_weak_total (debug_byte a) (debug_byte b) (debug_byte b ++ t)) as [Hp|Hp].
  - rewrite <- H. by apply prefix_app_r.
  - by apply prefix_app_r.
  - specialize (Hfree a b). rewrite (bool_decide_true (_ `prefix_of` _)) in Hfree by done.
    rewrite orb_false_r in Hfree. by apply bool_decide_eq_true in Hfree.
  - specialize (Hfree b a). rewrite (bool_decide_true (_ `prefix_of` _)) in Hfree by done.
    rewrite orb_false_r in Hfree. by apply bool_decide_eq_true in Hfree.
Qed.

Lemma debug_byte_not_quote b s t : debug_byte b ++ s ≠ Byte.x22 :: t.
Proof.
  assert (∀ b, match debug_byte b with x :: _ => negb (bool_decide (x = Byte.x22)) | [] => false end = true)
    as H by (apply forall_bytes; by vm_compute).
  specialize (H b). destruct (debug_byte b) as [|x l]; [done|].
  cbn. intros [= -> _]. by rewrite bool_decide_true in H.
Qed.

(** The debug form is unambiguous: distinct keys never print alike. *)
Theorem debug_key_inj k1 k2 : debug_key k1 = debug_key k2 → k1 = k2.
Proof.
  unfold debug_key. rewrite !foldl_app_out; cbn [app]. intros [= H].
  revert k2 H; induction k1 as [|a k1 IH]; intros [|b k2]; cbn [fmap list_fmap concat app].
  - done.
  - rewrite <- app_assoc. by intros H%eq_sym%debug_byte_not_quote.
  - rewrite <- app_assoc. by intros H%debug_byte_not_quote.
  - rewrite <- !app_assoc. intros H. pose proof (debug_byte_prefix_free _ _ _ _ H) as ->.
    apply app_inv_head, IH in H. by f_equal.
Qed.

(** *** Witnesses *)

Lemma numeric_keys_order_witness :
  bcmp (u64_key 1) (u64_key 256) = Lt ∧ bcmp (u128_key (2 ^ 100)) (u128_key 7) = Gt ∧
  bcmp (i64_key (-42)) (i64_key 42) = Lt ∧ bcmp (i128_key (-1)) (i128_key (- 2 ^ 127)) = Gt.
Proof.
  destruct numeric_keys_order as (H1 & H2 & H3 & H4).
  split; [|split; [|split]].
  - apply (H1 1 256); lia.
  - apply (H2 (2 ^ 100) 7); lia.
  - apply (H3 (-42) 42); lia.
  - apply (H4 (-1) (- 2 ^ 127)); lia.
Defined.

Lemma debug_key_inj_witness :
  debug_key [Byte.x61; Byte.x0a] = debug_key [Byte.x61; Byte.x0a] ∧
  [Byte.x61; Byte.x0a] = [Byte.x61; Byte.x0a].
Proof. split; [reflexivity|]. apply (debug_key_inj [Byte.x61; Byte.x0a]). reflexivity. Defined.

End Key.
