(* ===== verification/Crdt.v ===== *)
(** * Conflict-free values (src/prolly/crdt.rs)

    Timestamped values, sets of concurrent values, and the resolution of a conflict by
    the strategies of a [CrdtConfig].  A function that returns a Rust [Option] and
    indexes slices has an outcome whose error is [tt]: [Err tt] is [None], and [Panic]
    is an index out of range.  At the end: the built-in strategies resolve every
    conflict, without a panic, to a value that does not depend on the order in which
    concurrent values are combined. *)

From Stdlib Require Import ZArith Lia Strings.Byte.
From stdpp Require Import base tactics numbers list strings option gmap sorting.
From S2P Require Import Prelude Types.

Local Open Scope Z_scope.

Module Crdt.

Abbreviation optional := (outcome ()).

(** ** Timestamped values *)
Record TimestampedValue := { tv_value : bytes; tv_timestamp : Z }.

Definition TimestampedValue_to_bytes (self : TimestampedValue) : bytes :=
  tv_value self ++ be_bytes 8 (tv_timestamp self).

Definition TimestampedValue_from_bytes (bs : bytes) : option TimestampedValue :=
  if len bs <? 8 then None
  else
    let at_ := (length bs - 8)%nat in
    Some {| tv_value := take at_ bs; tv_timestamp := be_val (drop at_ bs) |}.

(** ** Sets of concurrent values *)
Record MultiValueSet := { values : list bytes }.

Definition single (value : bytes) : MultiValueSet := {| values := [value] |}.

(** [Vec::dedup]. *)
Fixpoint dedup (l : list bytes) : list bytes :=
  match l with
  | x :: l' =>
      match l' with
      | y :: _ => if bool_decide (x = y) then dedup l' else x :: dedup l'
      | [] => [x]
      end
  | [] => []
  end.

Definition from_values (vs : list bytes) : MultiValueSet := {| values := dedup (merge_sort ble vs) |}.

Definition merge (self other : MultiValueSet) : optional MultiValueSet :=
  _ ← vec_with_capacity (saturating_add usize_max (len (values self)) (len (values other))) 24;
  Ok (from_values (values self ++ values other)).

Definition encode_value (v : bytes) : bytes := be_bytes 4 (wrap 32 (len v)) ++ v.

Definition MultiValueSet_to_bytes (self : MultiValueSet) : bytes :=
  let canonical := from_values (values self) in
  be_bytes 4 (wrap 32 (len (values canonical))) ++ concat (encode_value <$> values canonical).

(** The loop of [from_bytes]: the values read and the offset reached. *)
Fixpoint read_values (count : nat) (bs : bytes) (vs : list bytes) (offset : Z) : optional (list bytes * Z) :=
  match count with
  | O => Ok (vs, offset)
  | S count' =>
      stop ← expect "attempt to add with overflow" (checked_add usize_max offset 4);
      if len bs <? stop then Err tt
      else
        head ← expect "range end index out of range" (slice bs offset stop);
        end_ ← ok_or tt (checked_add usize_max stop (be_val head));
        if len bs <? end_ then Err tt
        else
          v ← expect "range end index out of range" (slice bs stop end_);
          read_values count' bs (vs ++ [v]) end_
  end.

Definition MultiValueSet_from_bytes (bs : bytes) : optional MultiValueSet :=
  if len bs <? 4 then Err tt
  else
    head ← expect "range end index out of range" (slice bs 0 4);
    let count := be_val head in
    if (len bs - 4) / 4 <? count then Err tt
    else
      _ ← vec_with_capacity count 24;
      '(vs, offset) ← read_values (Z.to_nat count) bs [] 4;
      if negb (offset =? len bs) then Err tt else Ok (from_values vs).

(** ** Strategies *)
Inductive CrdtResolution :=
| CrdtValue (value : bytes)
| CrdtDelete.

Inductive MergeStrategy :=
| LastWriterWins
| MultiValue
| Custom (merge_fn : Conflict → CrdtResolution).

Inductive DeletePolicy := DeleteWins | UpdateWins.

Record CrdtConfig := {
  strategy : MergeStrategy;
  delete_policy : DeletePolicy;
  timestamp_extractor : option (bytes → Z);
}.

Definition CrdtConfig_default : CrdtConfig :=
  {| strategy := LastWriterWins; delete_policy := UpdateWins; timestamp_extractor := None |}.
Definition lww : CrdtConfig := CrdtConfig_default.
Definition multi_value : CrdtConfig :=
  {| strategy := MultiValue; delete_policy := delete_policy CrdtConfig_default;
     timestamp_extractor := timestamp_extractor CrdtConfig_default |}.
Definition custom (merge_fn : Conflict → CrdtResolution) : CrdtConfig :=
  {| strategy := Custom merge_fn; delete_policy := delete_policy CrdtConfig_default;
     timestamp_extractor := timestamp_extractor CrdtConfig_default |}.
Definition with_delete_policy (self : CrdtConfig) (policy : DeletePolicy) : CrdtConfig :=
  {| strategy := strategy self; delete_policy := policy; timestamp_extractor := timestamp_extractor self |}.
Definition with_timestamp_extractor (self : CrdtConfig) (extractor : bytes → Z) : CrdtConfig :=
  {| strategy := strategy self; delete_policy := delete_policy self; timestamp_extractor := Some extractor |}.

(** ** Resolution *)
Definition extract_timestamp (value : bytes) (config : CrdtConfig) : Z :=
  match timestamp_extractor config with
  | Some extractor => extractor value
  | None => default 0 (tv_timestamp <$> TimestampedValue_from_bytes value)
  end.

Definition resolve_lww (left right : bytes) (config : CrdtConfig) : bytes :=
  let left_ts := extract_timestamp left config in
  let right_ts := extract_timestamp right config in
  if right_ts <? left_ts then left
  else if left_ts <? right_ts then right
  else if bleb right left then left else right.

(** [from_bytes(..).unwrap_or_else(|| single(..))]. *)
Definition set_of (value : bytes) : optional MultiValueSet :=
  match MultiValueSet_from_bytes value with
  | Err _ => Ok (single value)
  | other => other
  end.

Definition resolve_mv (left right : bytes) : optional bytes :=
  left_set ← set_of left;
  right_set ← set_of right;
  merged ← merge left_set right_set;
  Ok (MultiValueSet_to_bytes merged).

Definition resolve_custom (conflict : Conflict) (merge_fn : Conflict → CrdtResolution) : option bytes :=
  match merge_fn conflict with CrdtValue value => Some value | CrdtDelete => None end.

Definition resolve_delete_conflict (existing_value : bytes) (policy : DeletePolicy) : option bytes :=
  match policy with DeleteWins => None | UpdateWins => Some existing_value end.

(** [Ok None] deletes the key. *)
Definition resolve_values (key : bytes) (base left right : option bytes) (config : CrdtConfig)
    : optional (option bytes) :=
  match strategy config with
  | Custom f =>
      Ok (resolve_custom {| conflict_key := key; conflict_base := base; conflict_left := left; conflict_right := right |} f)
  | LastWriterWins | MultiValue =>
      match left, right with
      | Some l, Some r =>
          resolved ← match strategy config with
                     | LastWriterWins => Ok (resolve_lww l r config)
                     | MultiValue => resolve_mv l r
                     | Custom _ => Panic "custom strategy returned above"
                     end;
          Ok (Some resolved)
      | Some l, None => Ok (resolve_delete_conflict l (delete_policy config))
      | None, Some r => Ok (resolve_delete_conflict r (delete_policy config))
      | None, None => Ok None
      end
  end.

Definition resolve_conflict (config : CrdtConfig) (conflict : Conflict) : optional (option bytes) :=
  resolve_values (conflict_key conflict) (conflict_base conflict) (conflict_left conflict)
    (conflict_right conflict) config.

(** ** error.rs *)
Inductive Resolution :=
| Value (value : bytes)
| ResolveDelete
| Unresolved.

Definition resolver (config : CrdtConfig) (conflict : Conflict) : optional Resolution :=
  resolved ← resolve_conflict config conflict;
  Ok (match resolved with Some value => Value value | None => ResolveDelete end).

(** ** Sorted sets of byte strings *)
Lemma ble_total a b : (a ≤ b)%key ∨ (b ≤ a)%key.
Proof. destruct (blt_total a b) as [?|[->|?]]; eauto with key. Qed.

Lemma elem_of_dedup x l : x ∈ dedup l ↔ x ∈ l.
Proof.
  induction l as [|y [|z l] IH]; [done..|]. change (dedup (y :: z :: l)) with
    (if bool_decide (y = z) then dedup (z :: l) else y :: dedup (z :: l)).
  case_bool_decide as Hyz; [subst|]; rewrite ?(elem_of_cons _ _ y), IH, ?elem_of_cons; tauto.
Qed.

Lemma dedup_sorted l : StronglySorted ble l → StronglySorted blt (dedup l).
Proof.
  induction 1 as [|y [|z l] Hs IH Hall]; [constructor|by repeat constructor|].
  change (dedup (y :: z :: l)) with (if bool_decide (y = z) then dedup (z :: l) else y :: dedup (z :: l)).
  case_bool_decide as Hyz; [done|]. constructor; [done|].
  apply Forall_forall. intros x Hx%(proj1 (elem_of_dedup _ _)).
  assert (y < z)%key as Hlt.
  { apply Forall_cons_1 in Hall as [[?|?]%ble_lt_eq _]; [done|by subst]. }
  apply StronglySorted_inv in Hs as [_ Hs]. apply elem_of_cons in Hx as [->|Hx]; [done|].
  eapply blt_le_trans; [exact Hlt|]. by eapply Forall_forall in Hs.
Qed.

Lemma sorted_ext a b : StronglySorted blt a → StronglySorted blt b → (∀ x, x ∈ a ↔ x ∈ b) → a = b.
Proof.
  intros Ha. revert b; induction Ha as [|x a Ha IH Hx]; intros b Hb Heq.
  { destruct b as [|y b]; [done|]. destruct (not_elem_of_nil y). apply Heq. by left. }
  destruct Hb as [|y b Hb Hy]; [destruct (not_elem_of_nil x); apply Heq; by left|].
  rewrite Forall_forall in Hx, Hy.
  assert (x = y) as ->.
  { destruct (proj1 (elem_of_cons _ _ _) (proj1 (Heq x) ltac:(left))) as [?|Hxb]; [done|].
    destruct (proj1 (elem_of_cons _ _ _) (proj2 (Heq y) ltac:(left))) as [?|Hya]; [done|].
    destruct (blt_irrefl x). eapply blt_trans; [apply Hx|apply Hy]; done. }
  f_equal. apply IH; [done|]. intros z. specialize (Heq z). rewrite !elem_of_cons in Heq.
  split; intros Hz; [destruct (proj1 Heq (or_intror Hz))|destruct (proj2 Heq (or_intror Hz))]; subst; try done;
    destruct (blt_irrefl y); auto.
Qed.

Lemma elem_of_norm x l : x ∈ values (from_values l) ↔ x ∈ l.
Proof. cbn. by rewrite elem_of_dedup, merge_sort_Permutation. Qed.

Lemma norm_sorted l : StronglySorted blt (values (from_values l)).
Proof. apply dedup_sorted, StronglySorted_merge_sort; [exact ble_trans|exact ble_total]. Qed.

Lemma norm_ext l k : (∀ x, x ∈ l ↔ x ∈ k) → from_values l = from_values k.
Proof.
  intros Heq. assert (values (from_values l) = values (from_values k)) as Hv; [|cbn in Hv; unfold from_values; by rewrite Hv].
  apply sorted_ext; [apply norm_sorted..|]. intros x. by rewrite !elem_of_norm.
Qed.

Lemma norm_norm l : from_values (values (from_values l)) = from_values l.
Proof. apply norm_ext. intros x. apply elem_of_norm. Qed.

(** ** The encoding of a set *)

(** The bytes that the values take after the count. *)
Definition set_weight (vs : list bytes) : Z := len (concat (encode_value <$> vs)).

Lemma set_weight_cons v vs : set_weight (v :: vs) = len v + 4 + set_weight vs.
Proof. unfold set_weight, encode_value. cbn [fmap list_fmap concat]. autorewrite with len. lia. Qed.
Lemma set_weight_nonneg vs : 0 ≤ set_weight vs.
Proof. apply len_nonneg. Qed.
Lemma set_weight_app a b : set_weight (a ++ b) = set_weight a + set_weight b.
Proof. unfold set_weight. by rewrite fmap_app, concat_app, len_app. Qed.
Lemma set_weight_len vs : 4 * len vs ≤ set_weight vs.
Proof. induction vs as [|v vs IH]; [done|]. rewrite set_weight_cons, len_cons. pose proof (len_nonneg v). lia. Qed.
Lemma set_weight_elem v vs : v ∈ vs → len v + 4 ≤ set_weight vs.
Proof.
  induction 1 as [v vs|v w vs _ IH]; rewrite set_weight_cons; [pose proof (set_weight_nonneg vs); lia|].
  pose proof (len_nonneg w). lia.
Qed.

Lemma set_weight_submseteq a b : a ⊆+ b → set_weight a ≤ set_weight b.
Proof.
  induction 1 as [|x a b _ IH|x y a|x a b _ IH|a b c _ IH1 _ IH2]; rewrite ?set_weight_cons; try lia.
  pose proof (len_nonneg x). lia.
Qed.

Lemma dedup_sublist l : dedup l `sublist_of` l.
Proof.
  induction l as [|x [|y l] IH]; [done..|].
  change (dedup (x :: y :: l)) with (if bool_decide (x = y) then dedup (y :: l) else x :: dedup (y :: l)).
  case_bool_decide; by constructor.
Qed.

Lemma set_weight_norm l : set_weight (values (from_values l)) ≤ set_weight l.
Proof.
  apply set_weight_submseteq. cbn. rewrite <- (merge_sort_Permutation ble l) at 2.
  apply sublist_submseteq, dedup_sublist.
Qed.

Lemma read_values_ok p ws q vs :
  len (p ++ concat (encode_value <$> ws) ++ q) ≤ isize_max → Forall (λ w, len w ≤ u32_max) ws →
  read_values (length ws) (p ++ concat (encode_value <$> ws) ++ q) vs (len p) = Ok (vs ++ ws, len p + set_weight ws).
Proof.
  revert p vs; induction ws as [|w ws IH]; intros p vs Hlen Hws; cbn [length read_values].
  { rewrite app_nil_r. change (set_weight []) with 0. by rewrite Z.add_0_r. }
  apply Forall_cons_1 in Hws as [Hw Hws]. cbn [fmap list_fmap concat] in *. change (encode_value w) with (be_bytes 4 (wrap 32 (len w)) ++ w) in *.
  set (head := be_bytes 4 (wrap 32 (len w))) in *. set (rest := concat (encode_value <$> ws) ++ q) in *.
  assert (len head = 4) as Hh by (unfold head; by rewrite len_be_bytes).
  assert (be_val head = len w) as Hv.
  { unfold head, wrap. rewrite Z.mod_small by (pose proof (len_nonneg w); unfold u32_max in Hw; lia).
    apply be_val_be_bytes_small. pose proof (len_nonneg w). unfold u32_max in Hw. lia. }
  rewrite <- !app_assoc in Hlen |- *. fold rest in Hlen |- *. pose proof (len_nonneg p). pose proof (len_nonneg rest). pose proof (len_nonneg w).
  rewrite !len_app in Hlen. unfold isize_max in Hlen.
  rewrite checked_add_le by (unfold usize_max, u64_max; lia). cbn [expect mbind outcome_bind].
  rewrite (proj2 (Z.ltb_ge _ _)) by (rewrite !len_app; lia).
  rewrite <- Hh. rewrite slice_app. cbn [expect mbind outcome_bind]. rewrite Hv.
  rewrite checked_add_le by (unfold usize_max, u64_max; lia). cbn [ok_or mbind outcome_bind].
  rewrite (proj2 (Z.ltb_ge _ _)) by (rewrite !len_app; lia).
  pose proof (slice_app (p ++ head) w rest) as Hs. rewrite len_app, <- app_assoc in Hs. rewrite Hs.
  cbn [expect mbind outcome_bind].
  specialize (IH (p ++ head ++ w) (vs ++ [w])). rewrite !len_app, <- !app_assoc in IH.
  fold rest in IH. replace (len p + len head + len w) with (len p + (len head + len w)) by lia.
  rewrite set_weight_cons. cbn [app] in IH. rewrite IH; [|unfold isize_max; lia|done].
  do 2 f_equal. lia.
Qed.

Lemma len_to_bytes s : len (MultiValueSet_to_bytes s) = 4 + set_weight (values (from_values (values s))).
Proof. unfold MultiValueSet_to_bytes, set_weight. by rewrite len_app, len_be_bytes. Qed.

Lemma mv_bytes_ok l :
  set_weight l ≤ u32_max → MultiValueSet_from_bytes (MultiValueSet_to_bytes {| values := l |}) = Ok (from_values l).
Proof.
  intros Hw. pose proof (set_weight_norm l) as Hn. pose proof (set_weight_len (values (from_values l))) as Hl.
  unfold MultiValueSet_from_bytes. rewrite len_to_bytes. cbn [values]. transitivity (Ok (E:=()) (from_values (values (from_values l)))); [|by rewrite norm_norm].
  set (vs := values (from_values l)) in *. pose proof (set_weight_nonneg vs). pose proof (len_nonneg vs).
  unfold u32_max in Hw.
  rewrite (proj2 (Z.ltb_ge _ _)) by lia. unfold MultiValueSet_to_bytes. cbn [values]. fold vs.
  set (head := be_bytes 4 (wrap 32 (len vs))). assert (len head = 4) as Hh by (unfold head; by rewrite len_be_bytes).
  assert (slice (head ++ concat (encode_value <$> vs)) 0 4 = Some head) as ->.
  { rewrite <- Hh. apply (slice_app [] head). }
  cbn [expect mbind outcome_bind].
  assert (be_val head = len vs) as ->.
  { unfold head, wrap. rewrite Z.mod_small by lia. apply be_val_be_bytes_small. lia. }
  rewrite (proj2 (Z.ltb_ge _ _)) by (apply Z.div_le_lower_bound; lia).
  rewrite vec_with_capacity_ok by (unfold isize_max; lia). cbn [mbind outcome_bind]. rewrite len_to_nat.
  pose proof (read_values_ok head vs [] []) as Hr. rewrite app_nil_r, Hh in Hr. rewrite Hr; [|rewrite len_app; change (len (concat (encode_value <$> vs))) with (set_weight vs); unfold isize_max; lia|].
  - cbn [app mbind outcome_bind]. by rewrite Z.eqb_refl.
  - apply Forall_forall. intros v Hv%set_weight_elem. unfold u32_max. lia.
Qed.

(** ** Reading untrusted bytes *)
Lemma read_values_safe count bs vs offset :
  0 ≤ offset ≤ len bs → len bs ≤ isize_max →
  match read_values count bs vs offset with
  | Ok (ws, stop) => ∃ us, ws = vs ++ us ∧ length us = count ∧ offset + set_weight us = stop
  | Err _ => True
  | Panic _ => False
  end.
Proof.
  revert vs offset; induction count as [|count IH]; intros vs offset Hoff Hlen; cbn [read_values].
  { exists []. rewrite app_nil_r. change (set_weight []) with 0. split_and!; [done..|lia]. }
  unfold isize_max in Hlen. rewrite checked_add_le by (unfold usize_max, u64_max; lia). cbn [expect mbind outcome_bind].
  destruct (Z.ltb_spec (len bs) (offset + 4)) as [|Hstop]; [done|].
  destruct (slice bs offset (offset + 4)) as [head|] eqn:Hh;
    [|unfold slice in Hh; rewrite (proj2 (Z.leb_le _ _)), (proj2 (Z.leb_le _ _)) in Hh by lia; done].
  cbn [expect mbind outcome_bind]. destruct (checked_add _ _ _) as [stop|] eqn:Hs; [|done].
  apply checked_add_Some in Hs as [-> _]. cbn [ok_or mbind outcome_bind]. pose proof (be_val_range head).
  destruct (Z.ltb_spec (len bs) (offset + 4 + be_val head)) as [|Hend]; [done|].
  destruct (slice bs (offset + 4) _) as [v|] eqn:Hv;
    [|unfold slice in Hv; rewrite (proj2 (Z.leb_le _ _)), (proj2 (Z.leb_le _ _)) in Hv by lia; done].
  apply slice_Some in Hv as (_ & Hvl & _); [|lia]. cbn [expect mbind outcome_bind].
  specialize (IH (vs ++ [v]) (offset + 4 + be_val head) ltac:(lia) Hlen).
  destruct (read_values count bs (vs ++ [v]) _) as [[ws stop]| |]; [|done..].
  destruct IH as (us & -> & Hus & Hst). exists (v :: us). rewrite <- app_assoc, set_weight_cons. cbn. split_and!; [done|lia|lia].
Qed.

Lemma from_bytes_safe bs :
  len bs ≤ isize_max →
  match MultiValueSet_from_bytes bs with
  | Ok s => ∃ vs, s = from_values vs ∧ set_weight vs + 4 = len bs ∧ len vs ≤ u32_max
  | Err _ => True
  | Panic _ => False
  end.
Proof.
  intros Hlen. unfold MultiValueSet_from_bytes. destruct (Z.ltb_spec (len bs) 4) as [|H4]; [done|].
  destruct (slice bs 0 4) as [head|] eqn:Hh; [|unfold slice in Hh; rewrite (proj2 (Z.leb_le 4 _)) in Hh by lia; done].
  apply slice_Some in Hh as (_ & Hhl & _); [|lia]. cbn [expect mbind outcome_bind].
  destruct (Z.ltb_spec ((len bs - 4) / 4) (be_val head)) as [|Hc]; [done|].
  pose proof (be_val_range head) as Hr. rewrite Hhl in Hr. change (256 ^ (4 - 0)) with (2 ^ 32) in Hr.
  rewrite vec_with_capacity_ok by (unfold isize_max; lia). cbn [mbind outcome_bind].
  pose proof (read_values_safe (Z.to_nat (be_val head)) bs [] 4 ltac:(lia) Hlen) as Hs.
  destruct (read_values _ bs [] 4) as [[ws stop]| |]; [|done..]. cbn [mbind outcome_bind].
  destruct Hs as (us & -> & Hus & Hst). destruct (Z.eqb_spec stop (len bs)) as [->|]; [|done]. cbn [negb].
  exists us. cbn. split_and!; [done|lia|]. unfold len, u32_max. lia.
Qed.

(** The values that a stored value stands for. *)
Definition members (value : bytes) : list bytes :=
  match set_of value with Ok s => values s | _ => [] end.

Lemma set_of_ok v :
  len v ≤ isize_max →
  set_of v = Ok {| values := members v |} ∧ len (members v) ≤ u32_max ∧ set_weight (members v) ≤ len v + 4.
Proof.
  intros Hlen. pose proof (from_bytes_safe v Hlen) as Hs. unfold members, set_of.
  destruct (MultiValueSet_from_bytes v) as [s| |]; [| |done].
  2:{ cbn [single values]. split; [done|]. rewrite set_weight_cons. change (set_weight []) with 0.
      change (len [v]) with 1. unfold u32_max. lia. }
  destruct Hs as (vs & -> & Hw & Hc). split; [done|]. pose proof (set_weight_norm vs).
  split; [|lia]. etrans; [|exact Hc]. unfold len. apply inj_le. cbn.
  rewrite <- (merge_sort_Permutation ble vs) at 2. apply sublist_length, dedup_sublist.
Qed.

Lemma resolve_mv_ok a b :
  len a ≤ isize_max → len b ≤ isize_max →
  resolve_mv a b = Ok (MultiValueSet_to_bytes {| values := members a ++ members b |}).
Proof.
  intros Ha Hb. destruct (set_of_ok a Ha) as (Hsa & Hca & _), (set_of_ok b Hb) as (Hsb & Hcb & _).
  unfold resolve_mv. rewrite Hsa, Hsb. cbn [mbind outcome_bind]. unfold merge. cbn [values].
  unfold saturating_add, usize_max, u64_max, u32_max in *.
  rewrite vec_with_capacity_ok by (unfold isize_max; lia). cbn [mbind outcome_bind].
  unfold MultiValueSet_to_bytes. by rewrite norm_norm.
Qed.

Lemma members_encoded l :
  set_weight l ≤ u32_max → members (MultiValueSet_to_bytes {| values := l |}) = values (from_values l).
Proof. intros Hw. unfold members, set_of. by rewrite mv_bytes_ok. Qed.

(** ** Concurrent writes and deletes *)
Section concurrent.
Context (config : CrdtConfig).

Abbreviation ts v := (extract_timestamp v config).
Definition builtin : bool := match strategy config with Custom _ => false | _ => true end.
Definition deletes_win : bool := match delete_policy config with DeleteWins => true | UpdateWins => false end.

(** Concurrent states of one key, combined one after another. *)
Fixpoint resolve_all (key : bytes) (base : option bytes) (acc : option bytes) (os : list (option bytes))
    : optional (option bytes) :=
  match os with
  | [] => Ok acc
  | o :: os' => acc' ← resolve_values key base acc o config; resolve_all key base acc' os'
  end.

(** What is left of them: nothing, the latest value, or all values. *)
Definition keeps (os : list (option bytes)) (r : option bytes) : Prop :=
  match r with
  | None => (∀ v, Some v ∉ os) ∨ deletes_win = true ∧ None ∈ os
  | Some v =>
      (deletes_win = true → None ∉ os) ∧
      match strategy config with
      | MultiValue => ∀ x, x ∈ members v ↔ ∃ w, Some w ∈ os ∧ x ∈ members w
      | _ => Some v ∈ os ∧ ∀ w, Some w ∈ os → ts w < ts v ∨ ts w = ts v ∧ (w ≤ v)%key
      end
  end.

Definition joined_values (v : bytes) (vs : list bytes) : bytes :=
  match strategy config with
  | MultiValue => match vs with [] => v | _ => MultiValueSet_to_bytes {| values := concat (members <$> v :: vs) |} end
  | _ => foldl (λ a b, resolve_lww a b config) v vs
  end.

Definition joined (os : list (option bytes)) : option bytes :=
  if deletes_win && bool_decide (None ∈ os) then None
  else match omap id os with [] => None | v :: vs => Some (joined_values v vs) end.

Lemma resolve_lww_max a b :
  let r := resolve_lww a b config in
  (r = a ∨ r = b) ∧ ∀ x, x = a ∨ x = b → ts x < ts r ∨ ts x = ts r ∧ (x ≤ r)%key.
Proof.
  unfold resolve_lww. destruct (Z.ltb_spec (ts b) (ts a)); [|destruct (Z.ltb_spec (ts a) (ts b))].
  - split; [by left|]. intros x [-> | ->]; [right|left]; eauto with key.
  - split; [by right|]. intros x [-> | ->]; [left|right]; eauto with key.
  - assert (ts a = ts b) as Heq by lia. destruct (bleb b a) eqn:Hba; [apply bleb_le in Hba|apply bleb_gt in Hba].
    + split; [by left|]. intros x [-> | ->]; right; eauto with key.
    + split; [by right|]. intros x [-> | ->]; right; eauto with key.
Qed.

Lemma lww_fold_max v vs :
  let r := foldl (λ a b, resolve_lww a b config) v vs in
  r ∈ v :: vs ∧ ∀ x, x ∈ v :: vs → ts x < ts r ∨ ts x = ts r ∧ (x ≤ r)%key.
Proof.
  induction vs as [|w vs IH] using rev_ind; cbn zeta.
  { cbn. split; [by left|]. intros x ->%list_elem_of_singleton. right. eauto with key. }
  rewrite foldl_app. cbn [foldl]. cbn zeta in IH. set (a := foldl _ v vs) in *. destruct IH as [Hin Hmax].
  destruct (resolve_lww_max a w) as [Hr Hm]. rewrite app_comm_cons. split.
  - apply elem_of_app. destruct Hr as [-> | ->]; [by left|right; left].
  - intros x [Hx| ->%list_elem_of_singleton]%elem_of_app; [|by apply Hm; right].
    destruct (Hm a (or_introl eq_refl)) as [|[]], (Hmax x Hx) as [|[]]; [left; lia..|]. right. split; [lia|]. eauto with key.
Qed.

Lemma omap_snoc (os : list (option bytes)) o :
  omap id (os ++ [o]) = omap id os ++ match o with Some v => [v] | None => [] end.
Proof. rewrite omap_app. by destruct o. Qed.

Lemma elem_of_present (os : list (option bytes)) v : v ∈ omap id os ↔ Some v ∈ os.
Proof. rewrite list_elem_of_omap. split; [intros (x & Hx & Heq); cbn in Heq; by subst|by exists (Some v)]. Qed.

Lemma members_weight vs : Forall (λ v, len v ≤ isize_max) vs → set_weight (concat (members <$> vs)) ≤ set_weight vs.
Proof.
  induction 1 as [|v vs Hv _ IH]; [done|]. cbn [fmap list_fmap concat]. rewrite set_weight_app, set_weight_cons.
  destruct (set_of_ok v Hv) as (_ & _ & Hw). lia.
Qed.

Lemma small_values vs : set_weight vs ≤ u32_max → Forall (λ v, len v ≤ isize_max) vs.
Proof. intros Hw. apply Forall_forall. intros v Hv%set_weight_elem. unfold u32_max, isize_max in *. lia. Qed.

Lemma joined_encoded v vs :
  strategy config = MultiValue → vs ≠ [] →
  joined_values v vs = MultiValueSet_to_bytes {| values := concat (members <$> v :: vs) |}.
Proof. intros Hs Hne. unfold joined_values. rewrite Hs. by destruct vs. Qed.

Lemma joined_members v vs :
  strategy config = MultiValue → set_weight (v :: vs) ≤ u32_max →
  len (joined_values v vs) ≤ isize_max ∧ ∀ x, x ∈ members (joined_values v vs) ↔ x ∈ concat (members <$> v :: vs).
Proof.
  intros Hs Hw. pose proof (small_values _ Hw) as Hsm. pose proof (members_weight _ Hsm) as Hm.
  destruct (decide (vs = [])) as [->|Hne].
  { unfold joined_values. rewrite Hs. apply Forall_cons_1 in Hsm as [Hv _]. split; [done|]. cbn. by rewrite app_nil_r. }
  rewrite joined_encoded, members_encoded by (done || lia). split.
  - rewrite len_to_bytes. cbn [values]. pose proof (set_weight_norm (concat (members <$> v :: vs))). unfold isize_max, u32_max in *. lia.
  - intros x. apply elem_of_norm.
Qed.

Lemma joined_values_step key base v vs w :
  builtin = true → set_weight (v :: vs ++ [w]) ≤ u32_max →
  resolve_values key base (Some (joined_values v vs)) (Some w) config = Ok (Some (joined_values v (vs ++ [w]))).
Proof.
  unfold builtin, resolve_values. intros Hb Hw. destruct (strategy config) eqn:Hs; [| |done]; cbn [mbind outcome_bind].
  - unfold joined_values. by rewrite Hs, foldl_app.
  - rewrite app_comm_cons, set_weight_app in Hw. pose proof (set_weight_nonneg [w]). pose proof (set_weight_nonneg (v :: vs)).
    pose proof (Forall_inv (small_values [w] ltac:(lia))) as Hsm.
    destruct (joined_members v vs Hs ltac:(lia)) as [Hl Hm]. rewrite resolve_mv_ok by done. cbn [mbind outcome_bind].
    rewrite (joined_encoded v (vs ++ [w]) Hs) by (by destruct vs). unfold MultiValueSet_to_bytes. cbn [values].
    rewrite (norm_ext (members (joined_values v vs) ++ members w) (concat (members <$> v :: vs ++ [w]))); [done|].
    intros x. rewrite app_comm_cons, fmap_app, concat_app, !elem_of_app, Hm. cbn. by rewrite app_nil_r.
Qed.

Lemma joined_step key base os o :
  builtin = true → os ≠ [] → set_weight (omap id (os ++ [o])) ≤ u32_max →
  resolve_values key base (joined os) o config = Ok (joined (os ++ [o])).
Proof.
  intros Hb Hne Hw. unfold joined. rewrite omap_snoc in *.
  assert (∀ l, (∀ v, l ≠ Some v) → resolve_values key base l o config
    = Ok (match o with Some r => if deletes_win then None else Some r | None => None end)) as Hnone.
  { intros [v|] Hl; [by destruct (Hl v)|]. unfold resolve_values, builtin, deletes_win in *.
    destruct (strategy config), o, (delete_policy config); done. }
  assert (∀ v, resolve_values key base (Some v) None config = Ok (if deletes_win then None else Some v)) as Hdel.
  { intros v. unfold resolve_values, builtin, deletes_win in *. destruct (strategy config), (delete_policy config); done. }
  destruct deletes_win eqn:Hd; cbn [andb].
  - destruct (decide (None ∈ os)) as [Hin|Hin].
    + rewrite (bool_decide_eq_true_2 _ Hin), bool_decide_eq_true_2, Hnone by (done || apply elem_of_app; by left). by destruct o.
    + rewrite (bool_decide_eq_false_2 _ Hin). destruct (omap id os) as [|v vs] eqn:Hos.
      { destruct os as [|[v|] os]; [done..|]. destruct Hin. left. }
      destruct o as [w|]; [|by rewrite Hdel, bool_decide_eq_true_2 by (apply elem_of_app; right; left)].
      rewrite bool_decide_eq_false_2 by (rewrite elem_of_app, list_elem_of_singleton; naive_solver).
      by apply joined_values_step.
  - destruct (omap id os) as [|v vs] eqn:Hos; [rewrite Hnone by done; unfold joined_values, builtin in *; by destruct o, (strategy config)|].
    destruct o as [w|]; [by apply joined_values_step|]. rewrite app_nil_r. by rewrite Hdel.
Qed.

Lemma resolve_all_ok key base os done_ :
  builtin = true → done_ ≠ [] → set_weight (omap id (done_ ++ os)) ≤ u32_max →
  resolve_all key base (joined done_) os = Ok (joined (done_ ++ os)).
Proof.
  intros Hb. revert done_; induction os as [|o os IH]; intros dn Hne Hw; cbn [resolve_all]; [by rewrite app_nil_r|].
  replace (dn ++ o :: os) with ((dn ++ [o]) ++ os) in * by (by rewrite <- app_assoc).
  rewrite joined_step by (done || rewrite omap_app, set_weight_app in Hw; pose proof (set_weight_nonneg (omap id os)); lia).
  cbn [mbind outcome_bind]. apply IH; [by destruct dn|done].
Qed.

Lemma joined_keeps os : set_weight (omap id os) ≤ u32_max → builtin = true → keeps os (joined os).
Proof.
  intros Hw Hb. unfold joined, keeps. destruct (deletes_win && _) eqn:Hd.
  { apply andb_true_iff in Hd as [Hd Hin%bool_decide_eq_true]. by right. }
  assert (∀ v, v ∈ omap id os ↔ Some v ∈ os) as Hpr by (intros; apply elem_of_present).
  destruct (omap id os) as [|v vs]; [left; intros v; rewrite <- Hpr; apply not_elem_of_nil|].
  split; [intros Hdw; rewrite Hdw in Hd; by apply bool_decide_eq_false in Hd|].
  unfold builtin in Hb. destruct (strategy config) eqn:Hs; [| |done].
  - unfold joined_values. rewrite Hs. destruct (lww_fold_max v vs) as [Hin Hmax]. rewrite <- Hpr. split; [done|].
    intros w. rewrite <- Hpr. apply Hmax.
  - destruct (joined_members v vs Hs Hw) as [_ Hm]. intros x. rewrite Hm, list_elem_of_In, in_concat. split.
    + intros (l & (w & -> & Hw')%list_elem_of_In%list_elem_of_fmap & Hx%list_elem_of_In). exists w. by rewrite <- Hpr.
    + intros (w & Hw'%Hpr & Hx). exists (members w). rewrite <- !list_elem_of_In. split; [|done]. apply list_elem_of_fmap. eauto.
Qed.

Lemma joined_perm os os' : builtin = true → os ≡ₚ os' → joined os = joined os'.
Proof.
  intros Hb Hp. unfold joined. rewrite (bool_decide_ext (None ∈ os) (None ∈ os')) by (by rewrite Hp).
  destruct (deletes_win && _); [done|]. assert (omap id os ≡ₚ omap id os') as Hvs by (by rewrite Hp).
  destruct (omap id os) as [|v vs], (omap id os') as [|w ws];
    [done|by apply Permutation_nil_l in Hvs|by symmetry in Hvs; apply Permutation_nil_l in Hvs|].
  f_equal. unfold builtin in Hb. unfold joined_values. destruct (strategy config); [| |done].
  - destruct (lww_fold_max v vs) as [Hin Hmax], (lww_fold_max w ws) as [Hin' Hmax'].
    set (a := foldl _ v vs) in *. set (b := foldl _ w ws) in *. rewrite Hvs in Hin. rewrite <- Hvs in Hin'.
    destruct (Hmax' a Hin) as [|[? Hab]], (Hmax b Hin') as [|[? Hba]]; try lia.
    apply ble_lt_eq in Hab as [Hab|Hab]; [|done]. by apply ble_not_lt in Hba.
  - destruct vs as [|v2 vs].
    { apply Permutation_singleton_l in Hvs as Hvs. by simplify_eq. }
    destruct ws as [|w2 ws]; [by apply Permutation_length in Hvs|].
    unfold MultiValueSet_to_bytes. cbn [values]. by rewrite (norm_ext _ (concat (members <$> w :: w2 :: ws))) by (intros x; by rewrite Hvs).
Qed.

End concurrent.

(** C27. Built-in strategies converge: whichever way the concurrent writes and deletes of
    a key are combined one after another, the result is the same, nothing panics, and
    what is kept is the latest value (ties by byte order) or the set of all values, or
    nothing when there was no value or a delete wins. *)
Theorem crdt_converges config key base o os o' os' :
  builtin config = true → o :: os ≡ₚ o' :: os' → set_weight (omap id (o :: os)) ≤ u32_max →
  ∃ r, resolve_all config key base o os = Ok r ∧ resolve_all config key base o' os' = Ok r ∧
       keeps config (o :: os) r.
Proof.
  intros Hb Hp Hw. exists (joined config (o :: os)).
  assert (∀ x, joined config [x] = x) as Hone.
  { intros [v|]; unfold joined, joined_values; cbn; rewrite ?andb_false_r; destruct (strategy config), (deletes_win config); done. }
  assert (set_weight (omap id (o' :: os')) ≤ u32_max) as Hw'.
  { etrans; [|exact Hw]. apply set_weight_submseteq. by rewrite Hp. }
  pose proof (resolve_all_ok config key base os [o] Hb ltac:(done) Hw) as H1.
  pose proof (resolve_all_ok config key base os' [o'] Hb ltac:(done) Hw') as H2.
  rewrite Hone in H1, H2. cbn [app] in H1, H2. rewrite <- (joined_perm config _ _ Hb Hp) in H2.
  split_and!; [done..|]. by apply joined_keeps.
Qed.

(** Two writes and a delete, in two orders. *)
Lemma crdt_converges_witness :
  ∃ r, resolve_all multi_value [Byte.x61] None (Some [Byte.x01]) [None; Some [Byte.x02]] = Ok r ∧
       resolve_all multi_value [Byte.x61] None (Some [Byte.x02]) [Some [Byte.x01]; None] = Ok r ∧
       keeps multi_value [Some [Byte.x01]; None; Some [Byte.x02]] r.
Proof.
  apply (crdt_converges multi_value [Byte.x61] None (Some [Byte.x01]) [None; Some [Byte.x02]]
    (Some [Byte.x02]) [Some [Byte.x01]; None]).
  - reflexivity.
  - symmetry. apply (Permutation_cons_append [Some [Byte.x01]; None] (Some [Byte.x02])).
  - by vm_compute.
Defined.

End Crdt.
