(* ===== verification/Envelope.v ===== *)
(** * Value envelopes (src/prolly/tombstone.rs, src/prolly/value.rs)

    Tombstones and versioned values: the byte envelopes that mark a logical deletion or
    name the schema of a value, their encoders and their decoders.  A [String] is its
    bytes, a [BTreeMap] the list of its entries in key order.  Numbers that the code
    formats into an error message are left out of it; the JSON and CBOR payloads come
    from serde and are bytes here.  At the end: what is encoded is decoded again, and a
    versioned value has one encoding. *)

From Stdlib Require Import ZArith Lia Strings.Byte.
From stdpp Require Import base tactics numbers list strings option gmap sorting.
From S2P Require Import Prelude Types.

Local Open Scope Z_scope.

(** ** Reads at an offset

    The two files have the same helpers, up to the prefix of their errors. *)
Module EnvelopeReader.
Section reader.
Context (invalid : string → Error).

Definition checked_u32_len (n : Z) (field : string) : outcome Error Z :=
  if n <=? u32_max then Ok n else Err (invalid (field +:+ " is too large")).

Definition checked_u64_len (n : Z) (field : string) : outcome Error Z :=
  if n <=? u64_max then Ok n else Err (invalid (field +:+ " is too large")).

Definition add_len (base n : Z) (field : string) : outcome Error Z :=
  ok_or (invalid (field +:+ " length overflows usize")) (checked_add usize_max base n).

(** [bytes.get(offset..offset + n)]. *)
Definition read_uint_at (what : string) (n : nat) (bs : bytes) (offset : Z) : outcome Error Z :=
  stop ← expect "attempt to add with overflow" (checked_add usize_max offset (Z.of_nat n));
  value ← ok_or (invalid (what +:+ " header is truncated")) (slice bs offset stop);
  Ok (be_val value).

Definition decode_utf8 (bs : bytes) (field : string) : outcome Error bytes :=
  if utf8_valid bs then Ok bs else Err (invalid (field +:+ " is not valid UTF-8")).

(** [bytes[a..b]]. *)
Definition index_range (bs : bytes) (a b : Z) : outcome Error bytes :=
  expect "range end index out of range" (slice bs a b).

End reader.
End EnvelopeReader.

(** ** tombstone.rs *)
Module Tombstone.
Import EnvelopeReader.

Definition TOMBSTONE_MAGIC : bytes := [Byte.x50; Byte.x4c; Byte.x54; Byte.x44].
Definition TOMBSTONE_WIRE_VERSION : byte := Byte.x01.
Definition HEADER_LEN : Z := 4 + 1 + 8 + 4 + 4.
Definition TIMESTAMP_OFFSET : Z := 5.
Definition ACTOR_LEN_OFFSET : Z := 13.
Definition METADATA_COUNT_OFFSET : Z := 17.
Definition METADATA_ENTRY_HEADER_LEN : Z := 4 + 8.

Record Tombstone := {
  actor : bytes;
  timestamp_millis : Z;
  causal_metadata : list (bytes * bytes);
}.

Definition invalid_tombstone (message : string) : Error := Deserialize ("invalid tombstone: " +:+ message).
Definition read_u32 : bytes → Z → outcome Error Z := read_uint_at invalid_tombstone "tombstone" 4.
Definition read_u64 : bytes → Z → outcome Error Z := read_uint_at invalid_tombstone "tombstone" 8.

(** [BTreeMap::insert]: whether the key was there, and the map. *)
Fixpoint btree_insert (key value : bytes) (m : list (bytes * bytes)) : bool * list (bytes * bytes) :=
  match m with
  | [] => (false, [(key, value)])
  | (k, v) :: m' =>
      match bcmp key k with
      | Lt => (false, (key, value) :: m)
      | Eq => (true, (key, value) :: m')
      | Gt => let '(old, m'') := btree_insert key value m' in (old, (k, v) :: m'')
      end
  end.

Definition btree_get (key : bytes) (m : list (bytes * bytes)) : option bytes :=
  snd <$> head (List.filter (λ e, bool_decide (e.1 = key)) m).

Definition Tombstone_new (actor : bytes) (timestamp_millis : Z) : Tombstone :=
  {| actor := actor; timestamp_millis := timestamp_millis; causal_metadata := [] |}.

Definition insert_causal_metadata (self : Tombstone) (key value : bytes) : Tombstone :=
  {| actor := actor self; timestamp_millis := timestamp_millis self;
     causal_metadata := (btree_insert key value (causal_metadata self)).2 |}.

Definition get_causal_metadata (self : Tombstone) (key : bytes) : option bytes :=
  btree_get key (causal_metadata self).

Definition metadata_encoded_len (metadata : list (bytes * bytes)) : Z :=
  foldl (λ n e, saturating_add usize_max
                  (saturating_add usize_max (saturating_add usize_max n METADATA_ENTRY_HEADER_LEN) (len e.1))
                  (len e.2)) 0 metadata.

Fixpoint encode_metadata (out : bytes) (metadata : list (bytes * bytes)) : outcome Error bytes :=
  match metadata with
  | [] => Ok out
  | (key, value) :: metadata' =>
      key_len ← checked_u32_len invalid_tombstone (len key) "causal metadata key";
      value_len ← checked_u64_len invalid_tombstone (len value) "causal metadata value";
      encode_metadata ((((out ++ be_bytes 4 key_len) ++ be_bytes 8 value_len) ++ key) ++ value) metadata'
  end.

Definition Tombstone_to_bytes (self : Tombstone) : outcome Error bytes :=
  actor_len ← checked_u32_len invalid_tombstone (len (actor self)) "actor";
  metadata_count ← checked_u32_len invalid_tombstone (len (causal_metadata self)) "causal metadata count";
  _ ← vec_with_capacity
        (saturating_add usize_max (saturating_add usize_max HEADER_LEN (len (actor self)))
           (metadata_encoded_len (causal_metadata self))) 1;
  let out := TOMBSTONE_MAGIC ++ [TOMBSTONE_WIRE_VERSION] in
  let out := out ++ be_bytes 8 (timestamp_millis self) in
  let out := out ++ be_bytes 4 actor_len in
  let out := out ++ be_bytes 4 metadata_count in
  encode_metadata (out ++ actor self) (causal_metadata self).

(** The loop of [decode_tombstone]. *)
Fixpoint decode_metadata (count : nat) (bs : bytes) (offset : Z) (metadata : list (bytes * bytes))
    : outcome Error (list (bytes * bytes) * Z) :=
  match count with
  | O => Ok (metadata, offset)
  | S count' =>
      entry_header_end ← add_len invalid_tombstone offset METADATA_ENTRY_HEADER_LEN "metadata header";
      if len bs <? entry_header_end then Err (invalid_tombstone "metadata entry header is truncated")
      else
        key_len ← read_u32 bs offset;
        value_offset ← expect "attempt to add with overflow" (checked_add usize_max offset 4);
        value_len ← read_u64 bs value_offset;
        key_end ← add_len invalid_tombstone entry_header_end key_len "metadata key";
        value_end ← add_len invalid_tombstone key_end value_len "metadata value";
        if len bs <? value_end then Err (invalid_tombstone "metadata key/value length exceeds envelope length")
        else
          key_bytes ← index_range bs entry_header_end key_end;
          key ← decode_utf8 invalid_tombstone key_bytes "metadata key";
          value ← index_range bs key_end value_end;
          let '(old, metadata) := btree_insert key value metadata in
          if (old : bool) then Err (invalid_tombstone "duplicate metadata key")
          else decode_metadata count' bs value_end metadata
  end.

Definition is_tombstone_value (bs : bytes) : bool := bool_decide (TOMBSTONE_MAGIC `prefix_of` bs).

Definition decode_tombstone (bs : bytes) : outcome Error Tombstone :=
  if len bs <? HEADER_LEN then Err (invalid_tombstone "tombstone envelope is too short")
  else if negb (is_tombstone_value bs) then Err (invalid_tombstone "tombstone missing PLTD magic")
  else
    wire_version ← expect "index out of bounds" (bs !! 4%nat);
    if negb (bool_decide (wire_version = TOMBSTONE_WIRE_VERSION))
    then Err (invalid_tombstone "unsupported tombstone wire version")
    else
      timestamp_millis ← read_u64 bs TIMESTAMP_OFFSET;
      actor_len ← read_u32 bs ACTOR_LEN_OFFSET;
      metadata_count ← read_u32 bs METADATA_COUNT_OFFSET;
      actor_end ← add_len invalid_tombstone HEADER_LEN actor_len "actor";
      if len bs <? actor_end then Err (invalid_tombstone "actor length exceeds envelope length")
      else
        actor ← index_range bs HEADER_LEN actor_end;
        '(metadata, offset) ← decode_metadata (Z.to_nat metadata_count) bs actor_end [];
        if negb (offset =? len bs) then Err (invalid_tombstone "tombstone has trailing bytes")
        else Ok {| actor := actor; timestamp_millis := timestamp_millis; causal_metadata := metadata |}.

Definition from_stored_bytes (bs : bytes) : outcome Error (option Tombstone) :=
  if is_tombstone_value bs then Some <$> decode_tombstone bs else Ok None.

Definition tombstone_upsert (key : bytes) (tombstone : Tombstone) : outcome Error Mutation :=
  val ← Tombstone_to_bytes tombstone; Ok (Upsert key val).

Definition tombstone_compaction (key stored_value : bytes) : outcome Error (option Mutation) :=
  stored ← from_stored_bytes stored_value;
  Ok (match stored with Some _ => Some (Delete key) | None => None end).

End Tombstone.

(** ** value.rs *)
Module Versioned.
Import EnvelopeReader.

Definition VERSIONED_VALUE_MAGIC : bytes := [Byte.x50; Byte.x4c; Byte.x56; Byte.x56].
Definition VERSIONED_VALUE_WIRE_VERSION : byte := Byte.x01.
Definition ENCODING_RAW : byte := Byte.x00.
Definition ENCODING_CBOR : byte := Byte.x01.
Definition ENCODING_JSON : byte := Byte.x02.
Definition ENCODING_CUSTOM : byte := Byte.x03.
Definition HEADER_LEN : Z := 4 + 1 + 1 + 8 + 4 + 4 + 8.

Record VersionedValue := {
  schema : bytes;
  version : Z;
  encoding : Encoding;
  payload : bytes;
}.

Definition invalid_value (message : string) : Error := Deserialize ("invalid versioned value: " +:+ message).
Definition read_u32 : bytes → Z → outcome Error Z := read_uint_at invalid_value "versioned value" 4.
Definition read_u64 : bytes → Z → outcome Error Z := read_uint_at invalid_value "versioned value" 8.

Definition with_encoding (schema : bytes) (version : Z) (encoding : Encoding) (payload : bytes) : VersionedValue :=
  {| schema := schema; version := version; encoding := encoding; payload := payload |}.
Definition raw (schema : bytes) (version : Z) (payload : bytes) : VersionedValue :=
  with_encoding schema version EncRaw payload.

Definition custom_encoding_name (e : Encoding) : bytes :=
  match e with EncCustom name => name | _ => [] end.

Definition encoding_tag (e : Encoding) : byte :=
  match e with
  | EncRaw => ENCODING_RAW | EncCbor => ENCODING_CBOR | EncJson => ENCODING_JSON | EncCustom _ => ENCODING_CUSTOM
  end.

Definition VersionedValue_to_bytes (self : VersionedValue) : outcome Error bytes :=
  let custom := custom_encoding_name (encoding self) in
  schema_len ← checked_u32_len invalid_value (len (schema self)) "schema";
  custom_len ← checked_u32_len invalid_value (len custom) "custom encoding";
  _ ← vec_with_capacity (HEADER_LEN + len (schema self) + len custom + len (payload self)) 1;
  let out := VERSIONED_VALUE_MAGIC ++ [VERSIONED_VALUE_WIRE_VERSION] ++ [encoding_tag (encoding self)] in
  let out := out ++ be_bytes 8 (version self) in
  let out := out ++ be_bytes 4 schema_len in
  let out := out ++ be_bytes 4 custom_len in
  let out := out ++ be_bytes 8 (len (payload self)) in
  Ok (((out ++ schema self) ++ custom) ++ payload self).

Definition require_no_custom (custom : bytes) (e : Encoding) : outcome Error Encoding :=
  match custom with
  | [] => Ok e
  | _ => Err (invalid_value "non-custom encoding included custom encoding name")
  end.

Definition decode_encoding (tag : byte) (custom : bytes) : outcome Error Encoding :=
  if bool_decide (tag = ENCODING_RAW) then require_no_custom custom EncRaw
  else if bool_decide (tag = ENCODING_CBOR) then require_no_custom custom EncCbor
  else if bool_decide (tag = ENCODING_JSON) then require_no_custom custom EncJson
  else if bool_decide (tag = ENCODING_CUSTOM) then Ok (EncCustom custom)
  else Err (invalid_value "unknown value encoding tag").

Definition decode_versioned_value (bs : bytes) : outcome Error VersionedValue :=
  if len bs <? HEADER_LEN then Err (invalid_value "versioned value envelope is too short")
  else if negb (bool_decide (VERSIONED_VALUE_MAGIC `prefix_of` bs))
  then Err (invalid_value "versioned value missing PLVV magic")
  else
    wire_version ← expect "index out of bounds" (bs !! 4%nat);
    if negb (bool_decide (wire_version = VERSIONED_VALUE_WIRE_VERSION))
    then Err (invalid_value "unsupported versioned value wire version")
    else
      tag ← expect "index out of bounds" (bs !! 5%nat);
      version ← read_u64 bs 6;
      schema_len ← read_u32 bs 14;
      custom_len ← read_u32 bs 18;
      payload_len ← read_u64 bs 22;
      custom_start ← add_len invalid_value HEADER_LEN schema_len "schema";
      payload_start ← add_len invalid_value custom_start custom_len "custom encoding";
      expected_len ← add_len invalid_value payload_start payload_len "payload";
      if negb (expected_len =? len bs) then Err (invalid_value "versioned value length mismatch")
      else
        schema_bytes ← index_range bs HEADER_LEN custom_start;
        schema ← decode_utf8 invalid_value schema_bytes "schema";
        custom_bytes ← index_range bs custom_start payload_start;
        custom ← decode_utf8 invalid_value custom_bytes "custom encoding";
        encoding ← decode_encoding tag custom;
        payload ← index_range bs payload_start expected_len;
        Ok {| schema := schema; version := version; encoding := encoding; payload := payload |}.

Definition matches_schema (self : VersionedValue) (s : bytes) (v : Z) : bool :=
  bool_decide (schema self = s) && (version self =? v).

Definition require_schema (self : VersionedValue) (s : bytes) (v : Z) : outcome Error () :=
  if bool_decide (schema self = s) && (version self =? v) then Ok tt
  else Err (invalid_value "schema/version mismatch").

End Versioned.

(** ** Proofs *)
Module EnvelopeSpec.
Import EnvelopeReader.

(** What stands at an offset: the bytes from there on. *)
Definition at_offset (bs : bytes) (a : Z) (rest : bytes) : Prop := 0 ≤ a ∧ drop (Z.to_nat a) bs = rest.

Lemma at_start bs : at_offset bs 0 bs.
Proof. done. Qed.

Lemma at_next bs a b m r : at_offset bs a (m ++ r) → b = a + len m → at_offset bs b r.
Proof.
  intros [Ha Hd] ->. pose proof (len_nonneg m). split; [lia|].
  rewrite Z2Nat.inj_add, <- drop_drop, Hd by lia. by rewrite len_to_nat, drop_app_length.
Qed.

Lemma at_slice bs a b m r : at_offset bs a (m ++ r) → b = a + len m → m ++ r ≠ [] ∨ a ≤ len bs → slice bs a b = Some m.
Proof.
  intros [Ha Hd] -> Hne. pose proof (len_nonneg m). unfold slice.
  assert (len (drop (Z.to_nat a) bs) = len m + len r) as Hl by (rewrite Hd; apply len_app). rewrite len_drop in Hl.
  pose proof (len_nonneg r).
  assert (a ≤ len bs) as Hle.
  { destruct Hne as [Hne|]; [|done]. destruct (Z.le_gt_cases a (len bs)); [done|]. destruct Hne. rewrite <- Hd.
    apply drop_ge. unfold len in *. lia. }
  rewrite (proj2 (Z.leb_le _ _)), (proj2 (Z.leb_le _ _)) by lia. cbn [andb].
  replace (a + len m - a) with (len m) by lia. by rewrite Hd, len_to_nat, take_app_length.
Qed.

Lemma slice_at bs a b m : 0 ≤ a → slice bs a b = Some m → at_offset bs a (m ++ drop (Z.to_nat b) bs) ∧ b = a + len m.
Proof.
  intros Ha Hs. pose proof (slice_Some _ _ _ _ Ha Hs) as (Hab & Hm & Heq). split; [|lia]. split; [done|].
  rewrite Heq at 1. rewrite drop_app_ge by (rewrite length_take; lia).
  replace (Z.to_nat a - length (take (Z.to_nat a) bs))%nat with 0%nat; [done|].
  rewrite length_take. unfold len in Hab. lia.
Qed.

Section reader.
Context (invalid : string → Error).

Lemma read_uint_ok what n bs a z r :
  at_offset bs a (be_bytes n z ++ r) → 0 ≤ z < 256 ^ Z.of_nat n → (0 < n)%nat → len bs ≤ isize_max → a ≤ len bs →
  read_uint_at invalid what n bs a = Ok z.
Proof.
  intros Hat Hz Hn Hlen Hle. unfold read_uint_at. unfold isize_max in Hlen.
  assert (slice bs a (a + Z.of_nat n) = Some (be_bytes n z)) as Hs.
  { eapply at_slice; [exact Hat|by rewrite len_be_bytes|by right]. }
  pose proof (slice_Some _ _ _ _ (proj1 Hat) Hs) as (Hb & _).
  rewrite checked_add_le by (unfold usize_max, u64_max; lia). cbn [expect mbind outcome_bind].
  rewrite Hs. cbn [ok_or mbind outcome_bind]. by rewrite be_val_be_bytes_small.
Qed.

Lemma read_uint_inv what n bs a z :
  0 ≤ a → read_uint_at invalid what n bs a = Ok z →
  at_offset bs a (be_bytes n z ++ drop (Z.to_nat (a + Z.of_nat n)) bs) ∧ 0 ≤ z < 256 ^ Z.of_nat n.
Proof.
  unfold read_uint_at. intros Ha Hr. destruct (checked_add _ _ _) as [stop|] eqn:Hc; [|done].
  apply checked_add_Some in Hc as [-> _]. cbn [expect mbind outcome_bind] in Hr.
  destruct (slice _ _ _) as [m|] eqn:Hs; [|done]. cbn [ok_or mbind outcome_bind] in Hr. apply Ok_inj in Hr as <-.
  pose proof (slice_Some _ _ _ _ Ha Hs) as (_ & Hm & _). apply slice_at in Hs as [Hat _]; [|done].
  assert (length m = n) as Hn by (unfold len in Hm; lia). subst n. rewrite be_bytes_be_val.
  split; [done|]. apply be_val_range.
Qed.

Lemma add_len_ok a n field : a + n ≤ isize_max → add_len invalid a n field = Ok (a + n).
Proof. intros. unfold add_len. rewrite checked_add_le by (unfold isize_max, usize_max, u64_max in *; lia). done. Qed.
Lemma add_len_inv a n field b : add_len invalid a n field = Ok b → b = a + n.
Proof. unfold add_len. by intros [-> _]%ok_or_Ok%checked_add_Some. Qed.

Lemma index_ok bs a b m r : at_offset bs a (m ++ r) → b = a + len m → a ≤ len bs → index_range bs a b = Ok m.
Proof. intros Hat -> Hle. unfold index_range. erewrite at_slice; [done|exact Hat|done|by right]. Qed.
Lemma index_inv bs a b m : 0 ≤ a → index_range bs a b = Ok m → at_offset bs a (m ++ drop (Z.to_nat b) bs) ∧ b = a + len m.
Proof.
  unfold index_range. intros Ha Hi. destruct (slice bs a b) eqn:Hs; [|done]. cbn in Hi. apply Ok_inj in Hi as <-. by apply slice_at.
Qed.

End reader.

(** ** Versioned values *)
Section versioned.
Import Versioned.

(** What the Rust types guarantee of a value. *)
Record versioned_wf (v : VersionedValue) : Prop := {
  vv_schema : utf8_valid (schema v) = true;
  vv_custom : utf8_valid (custom_encoding_name (encoding v)) = true;
  vv_version : 0 ≤ version v ≤ u64_max;
}.

Definition envelope (v : VersionedValue) : bytes :=
  (VERSIONED_VALUE_MAGIC ++ [VERSIONED_VALUE_WIRE_VERSION; encoding_tag (encoding v)]) ++ be_bytes 8 (version v) ++
  be_bytes 4 (len (schema v)) ++ be_bytes 4 (len (custom_encoding_name (encoding v))) ++ be_bytes 8 (len (payload v)) ++
  schema v ++ custom_encoding_name (encoding v) ++ payload v.

Lemma len_envelope v :
  len (envelope v) = HEADER_LEN + len (schema v) + len (custom_encoding_name (encoding v)) + len (payload v).
Proof.
  unfold envelope. rewrite len_app. change (len (_ ++ [_; _])) with 6. rewrite !len_app, !len_be_bytes.
  unfold HEADER_LEN. lia.
Qed.

Lemma to_bytes_iff v bs :
  VersionedValue_to_bytes v = Ok bs ↔
  bs = envelope v ∧ len bs ≤ isize_max ∧ len (schema v) ≤ u32_max ∧ len (custom_encoding_name (encoding v)) ≤ u32_max.
Proof.
  unfold VersionedValue_to_bytes, checked_u32_len.
  destruct (Z.leb_spec (len (schema v)) u32_max); [|split; [done|lia]]. cbn [mbind outcome_bind].
  destruct (Z.leb_spec (len (custom_encoding_name (encoding v))) u32_max); [|split; [done|lia]]. cbn [mbind outcome_bind].
  unfold vec_with_capacity. rewrite Z.mul_1_r, <- len_envelope.
  match goal with |- context [Ok (?x ++ payload v)] => assert (x ++ payload v = envelope v) as -> end.
  { unfold envelope. by rewrite <- !app_assoc. }
  destruct (Z.leb_spec (len (envelope v)) isize_max); cbn [mbind outcome_bind].
  - split; [intros <-%Ok_inj; done|by intros (-> & _)].
  - split; [done|]. intros (-> & ? & _). lia.
Qed.

Lemma encoding_decoded e :
  decode_encoding (encoding_tag e) (custom_encoding_name e) = Ok e.
Proof. by destruct e. Qed.

Lemma decoded_encoding tag custom e :
  decode_encoding tag custom = Ok e → encoding_tag e = tag ∧ custom_encoding_name e = custom.
Proof.
  unfold decode_encoding, require_no_custom. repeat case_bool_decide; subst; destruct custom; try done; by intros [= <-].
Qed.

Lemma decode_envelope v :
  versioned_wf v → len (envelope v) ≤ isize_max → len (schema v) ≤ u32_max →
  len (custom_encoding_name (encoding v)) ≤ u32_max → decode_versioned_value (envelope v) = Ok v.
Proof.
  intros [Hu1 Hu2 Hver] Hlen Hsl Hcl. pose proof (len_envelope v) as Henv. unfold HEADER_LEN in Henv.
  pose proof (len_nonneg (schema v)). pose proof (len_nonneg (custom_encoding_name (encoding v))).
  pose proof (len_nonneg (payload v)). unfold u32_max, u64_max, isize_max in *.
  pose proof (at_start (envelope v)) as Hb0. unfold envelope in Hb0 at 2.
  pose proof (at_next _ 0 6 _ _ Hb0 eq_refl) as H6. pose proof (at_next _ 6 14 _ _ H6 ltac:(by rewrite len_be_bytes)) as H14.
  pose proof (at_next _ 14 18 _ _ H14 ltac:(by rewrite len_be_bytes)) as H18.
  pose proof (at_next _ 18 22 _ _ H18 ltac:(by rewrite len_be_bytes)) as H22.
  pose proof (at_next _ 22 30 _ _ H22 ltac:(by rewrite len_be_bytes)) as H30.
  pose proof (at_next _ 30 _ _ _ H30 eq_refl) as Hc. pose proof (at_next _ _ _ _ _ Hc eq_refl) as Hp.
  unfold decode_versioned_value, HEADER_LEN. rewrite (proj2 (Z.ltb_ge _ _)) by lia.
  assert (VERSIONED_VALUE_MAGIC `prefix_of` envelope v) as Hm by (unfold envelope; rewrite <- app_assoc; by eexists).
  rewrite (bool_decide_eq_true_2 _ Hm). change (envelope v !! 4%nat) with (Some VERSIONED_VALUE_WIRE_VERSION).
  change (envelope v !! 5%nat) with (Some (encoding_tag (encoding v))). cbn [negb expect mbind outcome_bind].
  unfold read_u64, read_u32.
  erewrite (read_uint_ok _ _ _ _ 6); [|exact H6|change (256 ^ _) with (2 ^ 64); lia|unfold isize_max; lia..]. cbn [mbind outcome_bind].
  erewrite (read_uint_ok _ _ _ _ 14); [|exact H14|change (256 ^ _) with (2 ^ 32); lia|unfold isize_max; lia..]. cbn [mbind outcome_bind].
  erewrite (read_uint_ok _ _ _ _ 18); [|exact H18|change (256 ^ _) with (2 ^ 32); lia|unfold isize_max; lia..]. cbn [mbind outcome_bind].
  erewrite (read_uint_ok _ _ _ _ 22); [|exact H22|change (256 ^ _) with (2 ^ 64); lia|unfold isize_max; lia..]. cbn [mbind outcome_bind].
  change (4 + 1 + 1 + 8 + 4 + 4 + 8) with 30.
  repeat (rewrite add_len_ok by (unfold isize_max; lia); cbn [mbind outcome_bind]).
  rewrite Henv, Z.eqb_refl. cbn [negb]. rewrite (index_ok _ _ _ _ _ H30 eq_refl) by lia. cbn [mbind outcome_bind].
  unfold decode_utf8. rewrite Hu1. cbn [mbind outcome_bind]. rewrite (index_ok _ _ _ _ _ Hc eq_refl) by lia.
  cbn [mbind outcome_bind]. rewrite Hu2. cbn [mbind outcome_bind]. rewrite encoding_decoded. cbn [mbind outcome_bind].
  rewrite <- (app_nil_r (payload v)) in Hp. rewrite (index_ok _ _ _ _ _ Hp eq_refl) by lia. by destruct v.
Qed.

Lemma decoded_envelope bs v :
  decode_versioned_value bs = Ok v →
  bs = envelope v ∧ versioned_wf v ∧ len (schema v) ≤ u32_max ∧ len (custom_encoding_name (encoding v)) ≤ u32_max.
Proof.
  unfold decode_versioned_value. destruct (Z.ltb_spec (len bs) HEADER_LEN) as [|Hhead]; [done|]. unfold HEADER_LEN in *.
  case_bool_decide as Hmagic; [|done]. cbn [negb]. destruct Hmagic as [bs' Hbs].
  destruct bs' as [|w [|t rest]]; [subst bs; by vm_compute in Hhead..|].
  replace (bs !! 4%nat) with (Some w) by (by rewrite Hbs). replace (bs !! 5%nat) with (Some t) by (by rewrite Hbs).
  cbn [expect mbind outcome_bind]. case_bool_decide as Hw; [|done]. cbn [negb]. intros Hd.
  assert (at_offset bs 6 rest) as [_ Hrest] by (by rewrite Hbs).
  apply outcome_bind_Ok in Hd as (ver & Hver & Hd). apply read_uint_inv in Hver as [[_ H6] Hver]; [|lia].
  apply outcome_bind_Ok in Hd as (sl & Hsl & Hd). apply read_uint_inv in Hsl as [[_ H14] Hsl]; [|lia].
  apply outcome_bind_Ok in Hd as (cl & Hcl & Hd). apply read_uint_inv in Hcl as [[_ H18] Hcl]; [|lia].
  apply outcome_bind_Ok in Hd as (pl & Hpl & Hd). apply read_uint_inv in Hpl as [[_ H22] Hpl]; [|lia].
  apply outcome_bind_Ok in Hd as (cs & ->%add_len_inv & Hd). apply outcome_bind_Ok in Hd as (ps & ->%add_len_inv & Hd).
  apply outcome_bind_Ok in Hd as (el & ->%add_len_inv & Hd). change (4 + 1 + 1 + 8 + 4 + 4 + 8) with 30 in Hd.
  destruct (Z.eqb_spec (30 + sl + cl + pl) (len bs)) as [Hend|]; [|done]. cbn [negb] in Hd.
  apply outcome_bind_Ok in Hd as (sb & Hsb & Hd). apply index_inv in Hsb as [[_ H30] Hsb]; [|lia].
  apply outcome_bind_Ok in Hd as (s & Hs & Hd). unfold decode_utf8 in Hs. destruct (utf8_valid sb) eqn:Hu1; [|done]. apply Ok_inj in Hs as <-.
  apply outcome_bind_Ok in Hd as (cb & Hcb & Hd). apply index_inv in Hcb as [[_ Hc] Hcb]; [|lia].
  apply outcome_bind_Ok in Hd as (c & Hc' & Hd). unfold decode_utf8 in Hc'. destruct (utf8_valid cb) eqn:Hu2; [|done]. apply Ok_inj in Hc' as <-.
  apply outcome_bind_Ok in Hd as (e & [<- He]%decoded_encoding & Hd).
  apply outcome_bind_Ok in Hd as (p & Hp & Hd). apply index_inv in Hp as [[_ Hp'] Hp]; [|lia]. apply Ok_inj in Hd as <-.
  assert (sl = len sb) as -> by lia. assert (cl = len cb) as -> by lia. assert (pl = len p) as -> by lia.
  subst cb w. cbn [schema version encoding payload]. unfold u32_max. split; [|split; [constructor|]; cbn; unfold u64_max; try done; lia].
  rewrite Hend, len_to_nat, drop_all, app_nil_r in Hp'.
  unfold envelope. cbn [schema version encoding payload]. rewrite Hbs, <- app_assoc. do 2 f_equal. cbn [app]. do 2 f_equal.
  rewrite <- Hrest, H6. f_equal. change (6 + Z.of_nat 8) with 14. rewrite H14. f_equal. change (14 + Z.of_nat 4) with 18.
  rewrite H18. f_equal. change (18 + Z.of_nat 4) with 22. rewrite H22. f_equal. change (22 + Z.of_nat 8) with 30.
  by rewrite H30, Hc, Hp'.
Qed.
End versioned.

(** ** Tombstones *)
Section tombstone.
Import Tombstone.

(** What the Rust types guarantee of a tombstone. *)
Record tombstone_wf (t : Tombstone) : Prop := {
  ts_time : 0 ≤ timestamp_millis t ≤ u64_max;
  ts_sorted : StronglySorted blt (fst <$> causal_metadata t);
  ts_utf8 : Forall (λ e, utf8_valid e.1 = true) (causal_metadata t);
}.

Definition entry_bytes (e : bytes * bytes) : bytes :=
  be_bytes 4 (len e.1) ++ be_bytes 8 (len e.2) ++ e.1 ++ e.2.

Lemma btree_append key value m :
  Forall (λ e, (e.1 < key)%key) m → btree_insert key value m = (false, m ++ [(key, value)]).
Proof.
  induction 1 as [|[k v] m Hk _ IH]; [done|]. cbn [btree_insert app fst] in *. unfold blt in Hk.
  rewrite bcmp_antisym, Hk. cbn [CompOpp]. by rewrite IH.
Qed.

Lemma encode_metadata_inv out md bs :
  encode_metadata out md = Ok bs →
  bs = out ++ concat (entry_bytes <$> md) ∧ Forall (λ e, len e.1 ≤ u32_max ∧ len e.2 ≤ u64_max) md.
Proof.
  revert out; induction md as [|[key value] md IH]; intros out; cbn [encode_metadata].
  { intros <-%Ok_inj. split; [by rewrite app_nil_r|done]. }
  unfold checked_u32_len, checked_u64_len. destruct (Z.leb_spec (len key) u32_max); [|done]. cbn [mbind outcome_bind].
  destruct (Z.leb_spec (len value) u64_max); [|done]. cbn [mbind outcome_bind]. intros [-> Hmd]%IH.
  split; [|by constructor]. cbn [fmap list_fmap concat]. unfold entry_bytes at 2. cbn [fst snd]. by rewrite <- !app_assoc.
Qed.

Lemma metadata_len_ok md n :
  0 ≤ n → foldl (λ n e, saturating_add usize_max
             (saturating_add usize_max (saturating_add usize_max n METADATA_ENTRY_HEADER_LEN) (len e.1)) (len e.2))
           (Z.min n usize_max) md
    = Z.min (n + len (concat (entry_bytes <$> md))) usize_max.
Proof.
  revert n; induction md as [|[key value] md IH]; intros n Hn; cbn [foldl fmap list_fmap concat].
  { by rewrite Z.add_0_r. }
  cbn [fst snd]. pose proof (len_nonneg key). pose proof (len_nonneg value).
  assert (saturating_add usize_max (saturating_add usize_max (saturating_add usize_max (Z.min n usize_max)
    METADATA_ENTRY_HEADER_LEN) (len key)) (len value) = Z.min (n + (12 + len key + len value)) usize_max) as ->.
  { unfold saturating_add, METADATA_ENTRY_HEADER_LEN. lia. }
  rewrite IH by lia. rewrite len_app. unfold entry_bytes at 2. cbn [fst snd]. rewrite !len_app, !len_be_bytes. f_equal. lia.
Qed.

Lemma decode_metadata_ok bs md acc a :
  at_offset bs a (concat (entry_bytes <$> md)) → a ≤ len bs → len bs ≤ isize_max →
  StronglySorted blt (fst <$> acc ++ md) → Forall (λ e, utf8_valid e.1 = true) md →
  Forall (λ e, len e.1 ≤ u32_max ∧ len e.2 ≤ u64_max) md →
  decode_metadata (length md) bs a acc = Ok (acc ++ md, len bs).
Proof.
  revert acc a; induction md as [|[key value] md IH]; intros acc a Hat Ha Hlen Hs Hu Hl; cbn [length decode_metadata].
  { destruct Hat as [Hnn Hd]. rewrite app_nil_r. do 2 f_equal. assert (len (drop (Z.to_nat a) bs) = 0) as Hz by (by rewrite Hd).
    rewrite len_drop in Hz. lia. }
  apply Forall_cons_1 in Hu as [Hu Hus], Hl as [[Hk Hv] Hls]. cbn [fst snd] in *. cbn [fmap list_fmap concat] in Hat.
  change (entry_bytes (key, value)) with (be_bytes 4 (len key) ++ be_bytes 8 (len value) ++ key ++ value) in Hat.
  rewrite <- !app_assoc in Hat. set (rest := concat (entry_bytes <$> md)) in *.
  pose proof (at_next _ _ (a + 4) _ _ Hat ltac:(by rewrite len_be_bytes)) as H4.
  pose proof (at_next _ _ (a + 12) _ _ H4 ltac:(rewrite len_be_bytes; lia)) as H12.
  pose proof (at_next _ _ _ _ _ H12 eq_refl) as Hval. pose proof (at_next _ _ _ _ _ Hval eq_refl) as Hnext.
  assert (a + 12 + len key + len value + len rest = len bs) as Hend.
  { destruct Hat as [Hnn Hd]. apply (f_equal len) in Hd. rewrite len_drop, !len_app, !len_be_bytes in Hd. lia. }
  pose proof (len_nonneg key). pose proof (len_nonneg value). pose proof (len_nonneg rest). pose proof (proj1 Hat).
  unfold isize_max, u32_max, u64_max, METADATA_ENTRY_HEADER_LEN in *. change (4 + 8) with 12.
  rewrite add_len_ok by (unfold isize_max; lia). cbn [mbind outcome_bind]. rewrite (proj2 (Z.ltb_ge _ _)) by lia.
  unfold read_u32, read_u64. erewrite read_uint_ok; [|exact Hat|change (256 ^ _) with (2 ^ 32); lia|unfold isize_max; lia..].
  cbn [mbind outcome_bind]. rewrite checked_add_le by (unfold usize_max, u64_max; lia). cbn [expect mbind outcome_bind].
  erewrite read_uint_ok; [|exact H4|change (256 ^ _) with (2 ^ 64); lia|unfold isize_max; lia..]. cbn [mbind outcome_bind].
  repeat (rewrite add_len_ok by (unfold isize_max; lia); cbn [mbind outcome_bind]).
  rewrite (proj2 (Z.ltb_ge _ _)) by lia. rewrite (index_ok _ _ _ _ _ H12 eq_refl) by lia. cbn [mbind outcome_bind].
  unfold decode_utf8. rewrite Hu. cbn [mbind outcome_bind]. rewrite (index_ok _ _ _ _ _ Hval eq_refl) by lia.
  cbn [mbind outcome_bind]. rewrite btree_append.
  - rewrite (IH (acc ++ [(key, value)]) _ Hnext) by (done || rewrite <- ?app_assoc; done || (unfold isize_max; lia)).
    by rewrite <- app_assoc.
  - rewrite fmap_app in Hs. apply Forall_forall. intros e He.
    eapply (StronglySorted_app_1_elem_of _ _ _); [exact Hs|apply list_elem_of_fmap; by exists e|left].
Qed.

Definition tombstone_bytes (t : Tombstone) : bytes :=
  (TOMBSTONE_MAGIC ++ [TOMBSTONE_WIRE_VERSION]) ++ be_bytes 8 (timestamp_millis t) ++ be_bytes 4 (len (actor t)) ++
  be_bytes 4 (len (causal_metadata t)) ++ actor t ++ concat (entry_bytes <$> causal_metadata t).

Lemma len_tombstone_bytes t :
  len (tombstone_bytes t) = 21 + len (actor t) + len (concat (entry_bytes <$> causal_metadata t)).
Proof.
  unfold tombstone_bytes. rewrite len_app. change (len (TOMBSTONE_MAGIC ++ _)) with 5. rewrite !len_app, !len_be_bytes. lia.
Qed.

Lemma tombstone_to_bytes_inv t bs :
  Tombstone_to_bytes t = Ok bs →
  bs = tombstone_bytes t ∧ len bs ≤ isize_max ∧ len (actor t) ≤ u32_max ∧ len (causal_metadata t) ≤ u32_max ∧
  Forall (λ e, len e.1 ≤ u32_max ∧ len e.2 ≤ u64_max) (causal_metadata t).
Proof.
  unfold Tombstone_to_bytes, checked_u32_len.
  destruct (Z.leb_spec (len (actor t)) u32_max) as [Hal|]; [|done]. cbn [mbind outcome_bind].
  destruct (Z.leb_spec (len (causal_metadata t)) u32_max) as [Hml|]; [|done]. cbn [mbind outcome_bind].
  unfold vec_with_capacity.
  assert (metadata_encoded_len (causal_metadata t) = Z.min (len (concat (entry_bytes <$> causal_metadata t))) usize_max) as ->
    by apply (metadata_len_ok (causal_metadata t) 0 ltac:(done)).
  case_bool; [|done]. cbn [mbind outcome_bind]. intros [-> Hmd]%encode_metadata_inv.
  assert (∀ x, x = tombstone_bytes t → x = tombstone_bytes t ∧ len x ≤ isize_max) as Hshape.
  { intros x ->. split; [done|]. rewrite len_tombstone_bytes. unfold saturating_add, HEADER_LEN in *.
    pose proof (len_nonneg (actor t)). pose proof (len_nonneg (concat (entry_bytes <$> causal_metadata t))).
    unfold isize_max, usize_max, u64_max in *. lia. }
  match goal with |- ?x = _ ∧ _ => destruct (Hshape x) as [-> Hle] end; [|done].
  unfold tombstone_bytes. by rewrite <- !app_assoc.
Qed.

Lemma decode_tombstone_ok t :
  tombstone_wf t → len (tombstone_bytes t) ≤ isize_max → len (actor t) ≤ u32_max → len (causal_metadata t) ≤ u32_max →
  Forall (λ e, len e.1 ≤ u32_max ∧ len e.2 ≤ u64_max) (causal_metadata t) →
  decode_tombstone (tombstone_bytes t) = Ok t.
Proof.
  intros [Ht Hs Hu] Hlen Hal Hml Hmd. pose proof (len_tombstone_bytes t) as Hl.
  pose proof (len_nonneg (actor t)). pose proof (len_nonneg (causal_metadata t)).
  pose proof (len_nonneg (concat (entry_bytes <$> causal_metadata t))). unfold u32_max, u64_max in *.
  pose proof (at_start (tombstone_bytes t)) as Hb0. unfold tombstone_bytes in Hb0 at 2.
  pose proof (at_next _ 0 5 _ _ Hb0 eq_refl) as H5. pose proof (at_next _ 5 13 _ _ H5 ltac:(by rewrite len_be_bytes)) as H13.
  pose proof (at_next _ 13 17 _ _ H13 ltac:(by rewrite len_be_bytes)) as H17.
  pose proof (at_next _ 17 21 _ _ H17 ltac:(by rewrite len_be_bytes)) as H21.
  pose proof (at_next _ 21 _ _ _ H21 eq_refl) as Hm.
  unfold decode_tombstone, HEADER_LEN, TIMESTAMP_OFFSET, ACTOR_LEN_OFFSET, METADATA_COUNT_OFFSET.
  rewrite (proj2 (Z.ltb_ge _ _)) by lia.
  assert (is_tombstone_value (tombstone_bytes t) = true) as ->.
  { apply bool_decide_eq_true_2. unfold tombstone_bytes. rewrite <- app_assoc. by eexists. }
  change (tombstone_bytes t !! 4%nat) with (Some TOMBSTONE_WIRE_VERSION). cbn [negb expect mbind outcome_bind].
  rewrite bool_decide_eq_true_2 by done. cbn [negb]. unfold read_u64, read_u32.
  erewrite (read_uint_ok _ _ _ _ 5); [|exact H5|change (256 ^ _) with (2 ^ 64); lia|lia..]. cbn [mbind outcome_bind].
  erewrite (read_uint_ok _ _ _ _ 13); [|exact H13|change (256 ^ _) with (2 ^ 32); lia|lia..]. cbn [mbind outcome_bind].
  erewrite (read_uint_ok _ _ _ _ 17); [|exact H17|change (256 ^ _) with (2 ^ 32); lia|lia..]. cbn [mbind outcome_bind].
  change (4 + 1 + 8 + 4 + 4) with 21. rewrite add_len_ok by lia. cbn [mbind outcome_bind].
  rewrite (proj2 (Z.ltb_ge _ _)) by lia. rewrite (index_ok _ _ _ _ _ H21 eq_refl) by lia. cbn [mbind outcome_bind].
  rewrite len_to_nat, decode_metadata_ok by (done || lia). cbn [mbind outcome_bind app]. rewrite Z.eqb_refl. by destruct t.
Qed.

End tombstone.

(** C28. A versioned value has exactly one envelope: on byte strings of a size that Rust
    allows, [from_bytes] accepts the bytes that [to_bytes] produces and no others, and
    returns the value they were made from; what it returns is a value of the Rust type. *)
Theorem versioned_value_canonical bs v :
  len bs ≤ isize_max →
  Versioned.decode_versioned_value bs = Ok v ↔ versioned_wf v ∧ Versioned.VersionedValue_to_bytes v = Ok bs.
Proof.
  intros Hlen. rewrite to_bytes_iff. split.
  - by intros (-> & Hwf & ? & ?)%decoded_envelope.
  - intros (Hwf & -> & ? & ? & ?). by apply decode_envelope.
Qed.

Lemma versioned_value_canonical_witness :
  Versioned.decode_versioned_value (envelope (Versioned.raw [Byte.x6d] 2 [Byte.xff]))
    = Ok (Versioned.raw [Byte.x6d] 2 [Byte.xff]).
Proof.
  apply (versioned_value_canonical (envelope (Versioned.raw [Byte.x6d] 2 [Byte.xff])) (Versioned.raw [Byte.x6d] 2 [Byte.xff])).
  - by vm_compute.
  - split; [constructor; by vm_compute|reflexivity].
Defined.

(** A tombstone that is written is read back as it was, and compaction of the stored
    bytes deletes the key. *)
Theorem tombstone_roundtrip t bs key :
  tombstone_wf t → Tombstone.Tombstone_to_bytes t = Ok bs →
  Tombstone.from_stored_bytes bs = Ok (Some t) ∧
  Tombstone.tombstone_compaction key bs = Ok (Some (Delete key)).
Proof.
  intros Hwf (-> & Hlen & Hal & Hml & Hmd)%tombstone_to_bytes_inv.
  pose proof (decode_tombstone_ok t Hwf Hlen Hal Hml Hmd) as Hd.
  assert (Tombstone.from_stored_bytes (tombstone_bytes t) = Ok (Some t)) as Hok;
    [|split; [done|]; unfold Tombstone.tombstone_compaction; by rewrite Hok].
  unfold Tombstone.from_stored_bytes, Tombstone.is_tombstone_value.
  rewrite bool_decide_eq_true_2 by (unfold tombstone_bytes; rewrite <- app_assoc; by eexists). by rewrite Hd.
Qed.

Definition sample_tombstone : Tombstone.Tombstone :=
  Tombstone.insert_causal_metadata
    (Tombstone.insert_causal_metadata (Tombstone.Tombstone_new [Byte.x61] 7) [Byte.x72] [Byte.x01]) [Byte.x6c] [Byte.x02].

Lemma tombstone_roundtrip_witness :
  Tombstone.from_stored_bytes (tombstone_bytes sample_tombstone) = Ok (Some sample_tombstone) ∧
  Tombstone.tombstone_compaction [Byte.x6b] (tombstone_bytes sample_tombstone) = Ok (Some (Delete [Byte.x6b])).
Proof.
  apply (tombstone_roundtrip sample_tombstone (tombstone_bytes sample_tombstone) [Byte.x6b]).
  - constructor; [by vm_compute|repeat constructor|by repeat constructor].
  - reflexivity.
Defined.

End EnvelopeSpec.
