(* ===== verification/Range.v ===== *)
(** * Range iteration (src/prolly/range.rs, the range operations of src/prolly/mod.rs)

    Loads of packed nodes, the path to a key, and the iterator that walks the leaves in
    key order with a stack of nodes and positions; ranges, prefixes and pages.

    The stack has its top first.  An operation on an iterator returns the iterator it
    leaves; the item of [next] may be an error, after which the iterator is still there. *)

From Stdlib Require Import ZArith Lia Strings.Byte.
From stdpp Require Import base tactics numbers list strings option gmap.
From S2P Require Import Prelude Cursor Types Format Node ReadNode Store NodeCache Builder Engine Write Loader Key.
Import Format Config Node ReadNode Store NodeCache Builder Engine Loader.

Local Open Scope Z_scope.

Module Range.

(** ** Cursors and pages *)
Record RangeCursor := { rc_after : option bytes }.
Definition RangeCursor_start : RangeCursor := {| rc_after := None |}.
Definition after_key (key : bytes) : RangeCursor := {| rc_after := Some key |}.
Definition is_start (self : RangeCursor) : bool := bool_decide (rc_after self = None).

Record RangePage := { pg_entries : list (bytes * bytes); pg_next_cursor : option RangeCursor }.

Definition RANGE_CHILD_PREFETCH_PARALLELISM : nat := 16.

(** ** Packed nodes *)
Inductive ReadCacheMode := Admit | ObserveOnly.
Global Instance ReadCacheMode_eq_dec : EqDecision ReadCacheMode.
Proof. solve_decision. Defined.

Section loads.
Context `{Hashes} {St : Type} `{ReadStore St}.

Definition engine_format : eng St TreeFormat := λ e, (Ok (Config.format (en_config e)), e).
Definition cached_peek_read (cid : Cid) : eng St (option ReadNode) := λ e, (Ok (peek_read (en_cache e) cid), e).

(** An admission that the mode asks for. *)
Definition admit_when (admission : bool) (cid : Cid) (node : ReadNode) : eng St () :=
  if admission then
    admit_read cid node ≫= λ evictions : Z,
    meter (add_cache_evictions evictions)
  else mret tt.

Definition load_read_arc_with_cache_mode (cid : Cid) (mode : ReadCacheMode) : eng St ReadNode :=
  cached_peek_read cid ≫= λ cached : option ReadNode,
  match cached with
  | Some node => meter (add_cache_hits 1) ≫= λ _, mret node
  | None =>
      cache_unbounded ≫= λ unbounded : bool,
      let admission := bool_decide (mode = Admit) || unbounded in
      engine_format ≫= λ f : TreeFormat,
      from_store (λ s : St, Ok (store_has_native_shared_reads s)) ≫= λ native : bool,
      (if native then mret None
       else if bool_decide (mode = ObserveOnly) then cached_peek cid
       else cached_owned cid) ≫= λ owned : option Node,
      match owned with
      | Some owned =>
          run (to_bytes owned) ≫= λ data : bytes,
          run (decode_read cid f data) ≫= λ packed : ReadNode,
          admit_when admission cid packed ≫= λ _,
          meter (add_cache_hits 1) ≫= λ _,
          mret packed
      | None =>
          meter (add_cache_misses 1) ≫= λ _,
          from_store (λ s : St, store_get_validated_shared s cid) ≫= λ found : option ValidatedSharedRead,
          run (ok_or (NotFound cid) found) ≫= λ read : ValidatedSharedRead,
          meter (record_point_read (len (vr_bytes read))) ≫= λ _,
          run (decode_validated_read cid f read) ≫= λ node : ReadNode,
          admit_when admission cid node ≫= λ _,
          mret node
      end
  end.

Definition load_read_arc (cid : Cid) : eng St ReadNode := load_read_arc_with_cache_mode cid Admit.

Definition load_scan_read_arc (cid : Cid) (observe_only : bool) : eng St ReadNode :=
  load_read_arc_with_cache_mode cid (if observe_only then ObserveOnly else Admit).

Definition cached_packed (unbounded : bool) (cid : Cid) : eng St (option ReadNode) :=
  if unbounded then cached_peek_read cid else cached_read cid.

Definition decode_each_read (f : TreeFormat) (reads : list (Cid * option ValidatedSharedRead))
    : outcome Error (list (Cid * ReadNode)) :=
  mapM (λ r : Cid * option ValidatedSharedRead,
    read ← ok_or (NotFound r.1) r.2;
    node ← decode_validated_read r.1 f read;
    Ok (r.1, node)) reads.

Fixpoint place_decoded_read (decoded : list (Cid * ReadNode)) (positions : list (list nat))
    (nodes : list (option ReadNode)) (evictions : Z) : eng St (list (option ReadNode) * Z) :=
  match decoded, positions with
  | (cid, node) :: decoded', slots :: positions' =>
      admit_read cid node ≫= λ evicted : Z,
      place_decoded_read decoded' positions' (fill_slots nodes node slots) (evictions + evicted)
  | _, _ => mret (nodes, evictions)
  end.

Definition load_missing_read (missing : MissingNodeBatch) (nodes : list (option ReadNode))
    : eng St (list (option ReadNode)) :=
  let ks := mb_cids missing in
  meter (add_cache_misses (len ks)) ≫= λ _,
  from_store (λ s : St, store_batch_get_validated s ks) ≫= λ loaded : list (option ValidatedSharedRead),
  if negb (length loaded =? length ks)%nat then run (Err InvalidNode)
  else
    let found := omap id loaded in
    meter (record_batch_read (len ks) (len (concat (vr_bytes <$> found))) (len found)) ≫= λ _,
    engine_format ≫= λ f : TreeFormat,
    run (decode_each_read f (zip ks loaded)) ≫= λ decoded : list (Cid * ReadNode),
    place_decoded_read decoded (mb_positions missing) nodes 0 ≫= λ r : list (option ReadNode) * Z,
    meter (add_cache_evictions r.2) ≫= λ _,
    mret r.1.

Definition load_many_read_ordered (cids : list Cid) : eng St (list ReadNode) :=
  if bool_decide (cids = []) then mret []
  else
    lookup_all cached_peek_read cids ≫= λ cached : option (list ReadNode),
    match cached with
    | Some nodes => meter (add_cache_hits (len nodes)) ≫= λ _, mret nodes
    | None =>
        cache_unbounded ≫= λ unbounded : bool,
        plan_cached_nodes (cached_packed unbounded) cids
          ≫= λ plan : list (option ReadNode) * MissingNodeBatch * Z,
        let '(nodes, missing, hits) := plan in
        meter (add_cache_hits hits) ≫= λ _,
        (if bool_decide (mb_cids missing = []) then mret nodes else load_missing_read missing nodes)
          ≫= λ nodes : list (option ReadNode),
        run (collect nodes)
    end.

(** The nodes from the root to the leaf where the key belongs, the leaf first. *)
Fixpoint read_path (fuel : nat) (cid : Cid) (key : bytes) (path : list (ReadNode * nat))
    : eng St (list (ReadNode * nat)) :=
  match fuel with
  | O => run (Panic "out of fuel")
  | S fuel' =>
      load_read_arc cid ≫= λ node : ReadNode,
      if rn_is_empty node then
        if rn_is_leaf node then mret ((node, 0%nat) :: path) else run (Err InvalidNode)
      else
        run (rn_search node key) ≫= λ found : search_result,
        let index := match found with Found index => index | Insert index => (index - 1)%nat end in
        let path := (node, index) :: path in
        if rn_is_leaf node then mret path
        else
          run (rn_child_cid node index) ≫= λ child : Cid,
          read_path fuel' child key path
  end.

Definition find_read_path_arcs (fuel : nat) (tree : Tree) (key : bytes) : eng St (list (ReadNode * nat)) :=
  match t_root tree with
  | None => mret []
  | Some root_cid => read_path fuel root_cid key []
  end.

End loads.

(** ** The iterator *)
Record RangeIter := {
  it_stack : list (ReadNode * nat);
  it_end : option bytes;
  it_started : bool;
  it_start_key : bytes;
  it_skip_start_key : bool;
  it_last_location : option (ReadNode * nat);
  it_leaf_end : option nat;
}.

Definition RangeIter_new (stack : list (ReadNode * nat)) (start : bytes) (end_ : option bytes) : RangeIter := {|
  it_stack := stack; it_end := end_; it_started := false; it_start_key := start; it_skip_start_key := false;
  it_last_location := None; it_leaf_end := None |}.
Definition RangeIter_new_after (stack : list (ReadNode * nat)) (after_key : bytes) (end_ : option bytes) : RangeIter := {|
  it_stack := stack; it_end := end_; it_started := false; it_start_key := after_key; it_skip_start_key := true;
  it_last_location := None; it_leaf_end := None |}.

Definition set_position (it : RangeIter) (stack : list (ReadNode * nat)) (leaf_end : option nat) : RangeIter := {|
  it_stack := stack; it_end := it_end it; it_started := it_started it; it_start_key := it_start_key it;
  it_skip_start_key := it_skip_start_key it; it_last_location := it_last_location it; it_leaf_end := leaf_end |}.
Definition set_started (it : RangeIter) : RangeIter := {|
  it_stack := it_stack it; it_end := it_end it; it_started := true; it_start_key := it_start_key it;
  it_skip_start_key := it_skip_start_key it; it_last_location := it_last_location it; it_leaf_end := it_leaf_end it |}.
Definition set_last (it : RangeIter) (location : option (ReadNode * nat)) : RangeIter := {|
  it_stack := it_stack it; it_end := it_end it; it_started := it_started it; it_start_key := it_start_key it;
  it_skip_start_key := it_skip_start_key it; it_last_location := location; it_leaf_end := it_leaf_end it |}.

Inductive RangeStep := StepEntry | StepNeedsChild | StepFinished | StepError (error : Error).

Definition child_starts_at_or_after_end (end_ : option bytes) (node : ReadNode) (child_index : nat)
    : outcome Error bool :=
  match end_ with
  | None => Ok false
  | Some end_ =>
      first_key ← ok_or InvalidNode (rn_key node child_index);
      Ok (bleb end_ first_key)
  end.

(** Where the keys of a leaf leave the range. *)
Definition leaf_end_index (node : ReadNode) (end_ : option bytes) : outcome Error nat :=
  match end_ with
  | None => Ok (rn_len node)
  | Some end_ =>
      found ← rn_search node end_;
      Ok match found with Found index | Insert index => index end
  end.

Definition position_at_start (it : RangeIter) : outcome Error RangeIter :=
  if it_started it then Ok it
  else
    let it := set_started it in
    match it_stack it with
    | [] => Ok it
    | (node, _) :: below =>
        if rn_is_leaf node then
          found ← rn_search node (it_start_key it);
          let idx := match found with
                     | Found i => if it_skip_start_key it then (i + 1)%nat else i
                     | Insert i => i
                     end in
          leaf_end ← leaf_end_index node (it_end it);
          Ok (set_position it ((node, idx) :: below) (Some leaf_end))
        else Ok it
    end.

(** The loop of [advance_to_next_sibling] after a pop: whether a sibling was found
    inside the range, and the stack. *)
Fixpoint next_sibling (end_ : option bytes) (stack : list (ReadNode * nat))
    : outcome Error bool * list (ReadNode * nat) :=
  match stack with
  | [] => (Ok false, [])
  | (parent, idx) :: below =>
      let parent_idx := S idx in
      let stack := (parent, parent_idx) :: below in
      if (parent_idx <? rn_len parent)%nat then
        match child_starts_at_or_after_end end_ parent parent_idx with
        | Ok past => (Ok (negb past), stack)
        | Err error => (Err error, stack)
        | Panic m => (Panic m, stack)
        end
      else next_sibling end_ below
  end.

Definition advance_to_next_sibling (it : RangeIter) : outcome Error bool * RangeIter :=
  let '(found, stack) := next_sibling (it_end it) (tail (it_stack it)) in
  (found, set_position it stack None).

(** The location of the entry that is yielded from the leaf at the top. *)
Definition locate (it : RangeIter) (entering_leaf : bool) (node : ReadNode) (index : nat) : RangeIter :=
  set_last it match it_last_location it with
              | Some (last, _) => if negb entering_leaf then Some (last, index) else Some (node, index)
              | None => Some (node, index)
              end.

(** Every round that goes on has shortened the stack. *)
Fixpoint ready_loop (fuel : nat) (it : RangeIter) : outcome Error (RangeStep * RangeIter) :=
  match fuel with
  | O => Panic "out of fuel"
  | S fuel' =>
      match it_stack it with
      | [] => Ok (StepFinished, it)
      | (node, idx) :: below =>
          if (rn_len node <=? idx)%nat then
            match advance_to_next_sibling it with
            | (Ok true, it') => ready_loop fuel' it'
            | (Ok false, it') => Ok (StepFinished, it')
            | (Err error, it') => Ok (StepError error, it')
            | (Panic m, _) => Panic m
            end
          else if rn_is_leaf node then
            let entering_leaf := bool_decide (it_leaf_end it = None) in
            leaf_end ← match it_leaf_end it with
                       | Some leaf_end => Ok leaf_end
                       | None => leaf_end_index node (it_end it)
                       end;
            if (leaf_end <=? idx)%nat then Ok (StepFinished, set_position it (it_stack it) (Some leaf_end))
            else
              let it := set_position it ((node, S idx) :: below) (Some leaf_end) in
              Ok (StepEntry, locate it entering_leaf node idx)
          else
            match child_starts_at_or_after_end (it_end it) node idx with
            | Ok true => Ok (StepFinished, it)
            | Ok false => Ok (StepNeedsChild, it)
            | Err error => Ok (StepError error, it)
            | Panic m => Panic m
            end
      end
  end.

Definition ready_step (it : RangeIter) : outcome Error (RangeStep * RangeIter) :=
  it ← position_at_start it;
  ready_loop (S (length (it_stack it))) it.

Definition resume_cursor (it : RangeIter) : RangeCursor :=
  match it_last_location it with
  | Some (node, index) =>
      match rn_key node index with Some key => after_key key | None => RangeCursor_start end
  | None => RangeCursor_start
  end.

(** The children to read together: the one to descend to and those after it that start
    inside the range. *)
Fixpoint prefetch_from (end_ : option bytes) (node : ReadNode) (child_idx count : nat) : list Cid :=
  match count with
  | O => []
  | S count' =>
      match child_starts_at_or_after_end end_ node child_idx with
      | Ok false =>
          match rn_child_cid node child_idx with
          | Ok cid => cid :: prefetch_from end_ node (S child_idx) count'
          | _ => []
          end
      | _ => []
      end
  end.

(** [Result] as a value. *)
Definition caught {S A} (a : action S A) : action S (outcome Error A) := λ s,
  match a s with
  | (Panic m, s') => (Panic m, s')
  | (r, s') => (Ok r, s')
  end.

Abbreviation RangeItem := (outcome Error (bytes * bytes)) (only parsing).

Section iteration.
Context `{Hashes} {St : Type} `{ReadStore St}.

Definition load_child_for_descent (it : RangeIter) (node : ReadNode) (idx : nat) : eng St ReadNode :=
  run (rn_child_cid node idx) ≫= λ child_cid : Cid,
  from_store (λ s : St, Ok (store_prefers_batch_reads s)) ≫= λ prefers : bool,
  if negb prefers then load_read_arc child_cid
  else
    let max_child_idx := Nat.min (rn_len node) (idx + RANGE_CHILD_PREFETCH_PARALLELISM) in
    let child_cids := child_cid :: prefetch_from (it_end it) node (S idx) (max_child_idx - S idx) in
    if (length child_cids =? 1)%nat then load_read_arc child_cid
    else
      load_many_read_ordered child_cids ≫= λ children : list ReadNode,
      run (ok_or InvalidNode (head children)).

Definition descend_next_child (it : RangeIter) : eng St RangeIter :=
  run (ok_or InvalidNode (head (it_stack it))) ≫= λ top : ReadNode * nat,
  load_child_for_descent it top.1 top.2 ≫= λ child : ReadNode,
  mret (set_position it ((child, 0%nat) :: it_stack it) None).

Fixpoint next_loop (fuel : nat) (it : RangeIter) : eng St (option RangeItem * RangeIter) :=
  match fuel with
  | O => run (Panic "out of fuel")
  | S fuel' =>
      run (ready_step it) ≫= λ r : RangeStep * RangeIter,
      let '(step, it) := r in
      match step with
      | StepEntry =>
          mret match it_last_location it with
               | None => (Some (Err InvalidNode), it)
               | Some (node, index) => (Some (ok_or InvalidNode (rn_entry node index)), it)
               end
      | StepNeedsChild =>
          caught (descend_next_child it) ≫= λ r : outcome Error RangeIter,
          match r with
          | Ok it' => next_loop fuel' it'
          | Err error => mret (Some (Err error), it)
          | Panic m => run (Panic m)
          end
      | StepFinished => mret (None, it)
      | StepError error => mret (Some (Err error), it)
      end
  end.

(** Inside a leaf the next entry is read at once. *)
Definition next_in_leaf (it : RangeIter) : option (RangeItem * RangeIter) :=
  match it_stack it, it_leaf_end it with
  | (node, index) :: below, Some leaf_end =>
      if rn_is_leaf node && (index <? leaf_end)%nat then
        let it' := set_position it ((node, S index) :: below) (Some leaf_end) in
        let it' := set_last it' ((λ l : ReadNode * nat, (l.1, index)) <$> it_last_location it') in
        Some (ok_or InvalidNode (rn_entry node index), it')
      else None
  | _, _ => None
  end.

Definition next (fuel : nat) (it : RangeIter) : eng St (option RangeItem * RangeIter) :=
  match next_in_leaf it with
  | Some (item, it') => mret (Some item, it')
  | None => next_loop fuel it
  end.

(** The blocking iterator repeats this body. *)
Definition RangeIter_next : nat → RangeIter → eng St (option RangeItem * RangeIter) := next.

(** A visit of the next entry in place. *)
Definition next_with {R} (fuel : nat) (read : bytes → bytes → R) (it : RangeIter)
    : eng St (option (outcome Error R) * RangeIter) :=
  next fuel it ≫= λ r : option RangeItem * RangeIter,
  mret ((λ item : RangeItem, entry ← item; Ok (read entry.1 entry.2)) <$> r.1, r.2).

(** [collect]; [rounds] bounds the items. *)
Fixpoint collect_items (fuel rounds : nat) (it : RangeIter) (entries : list (bytes * bytes))
    : eng St (list (bytes * bytes)) :=
  match rounds with
  | O => run (Panic "out of fuel")
  | S rounds' =>
      next fuel it ≫= λ r : option RangeItem * RangeIter,
      match r.1 with
      | None => mret entries
      | Some item => run item ≫= λ entry : bytes * bytes, collect_items fuel rounds' r.2 (entries ++ [entry])
      end
  end.
Definition RangeIter_collect (fuel rounds : nat) (it : RangeIter) : eng St (list (bytes * bytes)) :=
  collect_items fuel rounds it [].

(** ** Ranges of a tree *)
Definition ends_at_or_before (end_ : option bytes) (key : bytes) : bool :=
  match end_ with Some e => bleb e key | None => false end.

Definition create_range_iter (fuel : nat) (tree : Tree) (start : bytes) (end_ : option bytes) : eng St RangeIter :=
  if ends_at_or_before end_ start then mret (RangeIter_new [] start end_)
  else
    find_read_path_arcs fuel tree start ≫= λ path : list (ReadNode * nat),
    mret (RangeIter_new path start end_).

Definition create_range_after_iter (fuel : nat) (tree : Tree) (after_key : bytes) (end_ : option bytes) : eng St RangeIter :=
  if ends_at_or_before end_ after_key then mret (RangeIter_new_after [] after_key end_)
  else
    find_read_path_arcs fuel tree after_key ≫= λ path : list (ReadNode * nat),
    mret (RangeIter_new_after path after_key end_).

Definition range (fuel : nat) (tree : Tree) (start : bytes) (end_ : option bytes) : eng St RangeIter :=
  create_range_iter fuel tree start end_.
Definition range_after (fuel : nat) (tree : Tree) (after_key : bytes) (end_ : option bytes) : eng St RangeIter :=
  create_range_after_iter fuel tree after_key end_.
Definition prefix (fuel : nat) (tree : Tree) (p : bytes) : eng St RangeIter :=
  let '(start, end_) := Key.prefix_range p in
  range fuel tree start end_.

Definition range_from_cursor (fuel : nat) (tree : Tree) (cursor : RangeCursor) (end_ : option bytes) : eng St RangeIter :=
  match rc_after cursor with
  | Some after_key => range_after fuel tree after_key end_
  | None => range fuel tree [] end_
  end.

(** The loop of a page: whether the iterator still had entries. *)
Fixpoint take_items (fuel limit : nat) (it : RangeIter) (entries : list (bytes * bytes))
    : eng St (bool * list (bytes * bytes) * RangeIter) :=
  match limit with
  | O => mret (true, entries, it)
  | S limit' =>
      next fuel it ≫= λ r : option RangeItem * RangeIter,
      match r.1 with
      | None => mret (false, entries, r.2)
      | Some item => run item ≫= λ entry : bytes * bytes, take_items fuel limit' r.2 (entries ++ [entry])
      end
  end.

Definition page_of (fuel : nat) (limit : Z) (it : RangeIter) : eng St RangePage :=
  run (vec_with_capacity limit 48) ≫= λ _,
  take_items fuel (Z.to_nat limit) it [] ≫= λ r : bool * list (bytes * bytes) * RangeIter,
  let '(more, entries, _) := r in
  mret {| pg_entries := entries;
          pg_next_cursor := if more then (λ e : bytes * bytes, after_key e.1) <$> last entries else None |}.

Definition range_page (fuel : nat) (tree : Tree) (cursor : RangeCursor) (end_ : option bytes) (limit : Z)
    : eng St RangePage :=
  if limit =? 0 then mret {| pg_entries := []; pg_next_cursor := Some cursor |}
  else
    range_from_cursor fuel tree cursor end_ ≫= λ iter : RangeIter,
    page_of fuel limit iter.

Definition prefix_page (fuel : nat) (tree : Tree) (p : bytes) (cursor : RangeCursor) (limit : Z) : eng St RangePage :=
  if limit =? 0 then mret {| pg_entries := []; pg_next_cursor := Some cursor |}
  else
    let '(start, end_) := Key.prefix_range p in
    match rc_after cursor with
    | Some after_key => if bleb start after_key then range_after fuel tree after_key end_ else range fuel tree start end_
    | None => range fuel tree start end_
    end ≫= λ iter : RangeIter,
    page_of fuel limit iter.

End iteration.
End Range.
