(* ===== verification/Proof.v ===== *)
(** * Proofs of keys and ranges (src/prolly/proof.rs)

    Self-contained proofs of lookups, ranges and pages of differences: how the engine
    collects them and how they are verified without a store.

    Verification recomputes the identifiers of nodes it is given; encoding a node of an
    unregistered format panics, so verification returns an outcome.  The stack of
    identifiers that the range verifier maintains is the set passed down: every way
    out of a call restores it.  The two range verifiers and the two collectors of the
    source differ in the window only, and share their definition over a window. *)

From Stdlib Require Import ZArith Lia Strings.Byte.
From stdpp Require Import base tactics numbers list strings option gmap.
From S2P Require Import Prelude Cursor Types Format Node Store Builder NodeCache Engine Write Loader Key Range.
Import Format Node Store Builder NodeCache Engine Write Loader.
Import Range(RangeCursor(..), rc_after, RangeCursor_start, after_key, RangePage(..), pg_entries, pg_next_cursor, RangeIter, range_from_cursor, take_items).

Local Open Scope Z_scope.

Module Proof.

(** ** Proofs and verdicts *)
Record KeyProof := { kp_root : option Cid; kp_key : bytes; kp_path : list Node }.
Record KeyProofVerification := {
  kv_valid : bool; kv_root : option Cid; kv_key : bytes; kv_value : option bytes }.

Record MultiKeyProof := { mp_root : option Cid; mp_keys : list bytes; mp_path : list Node }.
Record MultiKeyProofVerification := {
  mv_valid : bool; mv_root : option Cid; mv_results : list KeyProofVerification }.

Record RangeProof := {
  rp_root : option Cid; rp_start : bytes; rp_end : option bytes; rp_path : list Node }.
Record RangeProofVerification := {
  rv_valid : bool; rv_root : option Cid; rv_start : bytes; rv_end : option bytes;
  rv_entries : list (bytes * bytes) }.

Record RangePageProof := {
  pp_root : option Cid; pp_after : option bytes; pp_end : option bytes; pp_path : list Node }.
Record RangePageProofVerification := {
  pv_valid : bool; pv_root : option Cid; pv_after : option bytes; pv_end : option bytes;
  pv_entries : list (bytes * bytes) }.

Record DiffPageProof := {
  dp_base : RangePageProof; dp_other : RangePageProof;
  dp_lookahead_base : option KeyProof; dp_lookahead_other : option KeyProof;
  dp_requested_end : option bytes; dp_limit : Z }.
Record DiffPageProofVerification := {
  dv_valid : bool; dv_base_valid : bool; dv_other_valid : bool; dv_lookahead_valid : bool;
  dv_base_root : option Cid; dv_other_root : option Cid; dv_after : option bytes;
  dv_requested_end : option bytes; dv_proof_end : option bytes; dv_limit : Z;
  dv_diffs : list Diff; dv_next_cursor : option RangeCursor }.

Definition exists_ (v : KeyProofVerification) : bool := kv_valid v && bool_decide (is_Some (kv_value v)).
Definition is_absence (v : KeyProofVerification) : bool := kv_valid v && bool_decide (kv_value v = None).
Definition all_valid (v : MultiKeyProofVerification) : bool := mv_valid v && forallb kv_valid (mv_results v).

Record ProvedRangePage := { pr_page : RangePage; pr_proof : RangePageProof }.

(** [from_node_bytes] of the four kinds of proof. *)
Definition path_from_bytes : list bytes → outcome Error (list Node) := mapM from_bytes.
Definition KeyProof_from_node_bytes (root : option Cid) (key : bytes) (path : list bytes) : outcome Error KeyProof :=
  path ← path_from_bytes path; Ok {| kp_root := root; kp_key := key; kp_path := path |}.
Definition MultiKeyProof_from_node_bytes (root : option Cid) (ks path : list bytes) : outcome Error MultiKeyProof :=
  path ← path_from_bytes path; Ok {| mp_root := root; mp_keys := ks; mp_path := path |}.
Definition RangeProof_from_node_bytes (root : option Cid) (start : bytes) (end_ : option bytes) (path : list bytes)
    : outcome Error RangeProof :=
  path ← path_from_bytes path; Ok {| rp_root := root; rp_start := start; rp_end := end_; rp_path := path |}.
Definition RangePageProof_from_node_bytes (root : option Cid) (after end_ : option bytes) (path : list bytes)
    : outcome Error RangePageProof :=
  path ← path_from_bytes path; Ok {| pp_root := root; pp_after := after; pp_end := end_; pp_path := path |}.

(** [path_node_bytes] *)
Definition path_node_bytes (path : list Node) : outcome Error (list bytes) := mapM to_bytes path.

(** ** Nodes of a proof *)
Definition node_shape_is_valid (node : Node) : bool :=
  if bool_decide (keys node = []) || negb (length (keys node) =? length (vals node))%nat then false
  else if negb (sorted_keys (keys node)) then false
  else leaf node || forallb (λ value, (length value =? 32)%nat) (vals node).

Definition path_child_index (node : Node) (key : bytes) : nat :=
  partition_point (λ candidate, bleb candidate key) (keys node) - 1.

Definition cid_from_child_bytes (data : bytes) : option Cid :=
  if (length data =? 32)%nat then Some data else None.

Definition verified_leaf_value (leaf : option Node) (key : bytes) : option bytes :=
  leaf ← leaf;
  if Node.leaf leaf then
    match Node_search leaf key with Found index => vals leaf !! index | Insert _ => None end
  else None.

(** ** Windows *)
Definition ends_before_or_at (end_ : option bytes) (start : bytes) : bool :=
  match end_ with Some e => bleb e start | None => false end.
Definition span_ends_before_or_at : option bytes → bytes → bool := ends_before_or_at.
Definition range_ends_before_or_at : option bytes → bytes → bool := ends_before_or_at.

Definition range_is_empty_by_bounds (start : bytes) (end_ : option bytes) : bool := ends_before_or_at end_ start.

Definition page_range_is_empty_by_bounds (after end_ : option bytes) : bool :=
  match after, end_ with
  | Some a, Some e => bleb e a
  | None, Some e => bool_decide (e = [])
  | _, None => false
  end.

Definition before_end (key : bytes) (end_ : option bytes) : bool :=
  match end_ with Some e => bltb key e | None => true end.
Definition key_in_range (key start : bytes) (end_ : option bytes) : bool := bleb start key && before_end key end_.
Definition key_in_page_range (key : bytes) (after end_ : option bytes) : bool :=
  match after with Some a => bltb a key | None => true end && before_end key end_.

Definition span_overlaps_range (span_start : bytes) (span_end : option bytes) (range_start : bytes)
    (range_end : option bytes) : bool :=
  negb (span_ends_before_or_at span_end range_start) && negb (range_ends_before_or_at range_end span_start).

Definition span_overlaps_page_range (span_start : bytes) (span_end after end_ : option bytes) : bool :=
  negb (match after with Some a => span_ends_before_or_at span_end a | None => false end)
  && negb (range_ends_before_or_at end_ span_start).

Definition overlapping_child_index_range (node : Node) (range_start : bytes) (range_end : option bytes) : list nat :=
  let start := (partition_point (λ candidate, bltb candidate range_start) (keys node) - 1)%nat in
  let end_ := match range_end with
              | None => length (keys node)
              | Some e => partition_point (λ candidate, bltb candidate e) (keys node)
              end in
  seq start (Nat.min (Nat.max end_ start) (length (keys node)) - start).

Definition child_span_end (node : Node) (idx : nat) (span_end : option bytes) : option bytes :=
  match keys node !! S idx with Some k => Some k | None => span_end end.

(** What a traversal asks of its window. *)
Record Window := {
  w_start : bytes;
  w_end : option bytes;
  w_in : bytes → bool;
  w_overlaps : bytes → option bytes → bool;
}.

Definition range_window (start : bytes) (end_ : option bytes) : Window := {|
  w_start := start; w_end := end_;
  w_in key := key_in_range key start end_;
  w_overlaps lo hi := span_overlaps_range lo hi start end_ |}.

Definition page_window (after end_ : option bytes) : Window := {|
  w_start := default [] after; w_end := end_;
  w_in key := key_in_page_range key after end_;
  w_overlaps lo hi := span_overlaps_page_range lo hi after end_ |}.

(** The children whose span meets the window, in order. *)
Fixpoint overlapping_children (w : Window) (node : Node) (idxs : list nat) : outcome Error (list nat) :=
  match idxs with
  | [] => Ok []
  | idx :: idxs' =>
      child_start ← expect "index out of bounds" (keys node !! idx);
      if negb (w_overlaps w child_start (child_span_end node idx None)) then
        if range_ends_before_or_at (w_end w) child_start then Ok []
        else overlapping_children w node idxs'
      else
        rest ← overlapping_children w node idxs';
        Ok (idx :: rest)
  end.

(** ** Verification *)
Section verify.
Context `{Hashes}.

(** The nodes of a proof by identifier; none when one is malformed. *)
Fixpoint collect_node_map (path : list Node) (acc : gmap Cid Node) : outcome Error (option (gmap Cid Node)) :=
  match path with
  | [] => Ok (Some acc)
  | node :: path' =>
      if negb (node_shape_is_valid node) then Ok None
      else cid ← Node_cid node; collect_node_map path' (<[cid := node]> acc)
  end.
Definition proof_node_map (proof : MultiKeyProof) := collect_node_map (mp_path proof) ∅.
Definition range_proof_node_map (proof : RangeProof) := collect_node_map (rp_path proof) ∅.
Definition range_page_proof_node_map (proof : RangePageProof) := collect_node_map (pp_path proof) ∅.

(** The nodes of a path from the root down. *)
Fixpoint path_is_consistent (key : bytes) (path : list Node) : outcome Error bool :=
  match path with
  | [] => Ok false
  | node :: path' =>
      if negb (node_shape_is_valid node) then Ok false
      else
        match path' with
        | [] => Ok (leaf node)
        | next :: _ =>
            if leaf node then Ok false
            else if negb (level node =? saturating_add u8_max (level next) 1) then Ok false
            else
              match vals node !! path_child_index node key ≫= cid_from_child_bytes with
              | None => Ok false
              | Some child_cid =>
                  next_cid ← Node_cid next;
                  if bool_decide (next_cid = child_cid) then path_is_consistent key path' else Ok false
              end
        end
  end.

Definition proof_is_consistent (proof : KeyProof) : outcome Error bool :=
  match kp_root proof, kp_path proof with
  | None, [] => Ok true
  | None, _ | Some _, [] => Ok false
  | Some root, first :: _ =>
      first_cid ← Node_cid first;
      if bool_decide (first_cid = root) then path_is_consistent (kp_key proof) (kp_path proof) else Ok false
  end.

Definition verify_key_proof (proof : KeyProof) : outcome Error KeyProofVerification :=
  valid ← proof_is_consistent proof;
  Ok {| kv_valid := valid; kv_root := kp_root proof; kv_key := kp_key proof;
        kv_value := if valid : bool then verified_leaf_value (list.last (kp_path proof)) (kp_key proof) else None |}.

(** [for _ in 0..=node_map.len()] *)
Fixpoint value_from_node_set (rounds : nat) (cid : Cid) (visited : gset Cid) (key : bytes) (node_map : gmap Cid Node)
    : option (option bytes) :=
  match rounds with
  | O => None
  | S rounds' =>
      if bool_decide (cid ∈ visited) then None
      else
        node ← node_map !! cid;
        if leaf node then Some (verified_leaf_value (Some node) key)
        else
          child_bytes ← vals node !! path_child_index node key;
          child_cid ← cid_from_child_bytes child_bytes;
          child ← node_map !! child_cid;
          if negb (level node =? saturating_add u8_max (level child) 1) then None
          else value_from_node_set rounds' child_cid ({[cid]} ∪ visited) key node_map
  end.

Definition verified_value_from_node_set (root : Cid) (key : bytes) (node_map : gmap Cid Node)
    : option (option bytes) :=
  value_from_node_set (S (size node_map)) root ∅ key node_map.

Definition key_result (proof : MultiKeyProof) (valid : bool) (value : option bytes) (key : bytes)
    : KeyProofVerification :=
  {| kv_valid := valid; kv_root := mp_root proof; kv_key := key; kv_value := value |}.

Definition verify_multi_key_proof (proof : MultiKeyProof) : outcome Error MultiKeyProofVerification :=
  let result valid results := {| mv_valid := valid; mv_root := mp_root proof; mv_results := results |} in
  node_map ← proof_node_map proof;
  Ok match node_map with
     | None => result false (key_result proof false None <$> mp_keys proof)
     | Some node_map =>
         match mp_root proof with
         | None =>
             let valid := bool_decide (mp_path proof = []) in
             result valid (key_result proof valid None <$> mp_keys proof)
         | Some root =>
             if bool_decide (mp_keys proof = []) then
               result (bool_decide (mp_path proof = []) || bool_decide (is_Some (node_map !! root))) []
             else
               let values := (λ key, (key, verified_value_from_node_set root key node_map)) <$> mp_keys proof in
               result (forallb (λ kv, bool_decide (is_Some kv.2)) values)
                 ((λ kv, match kv.2 with
                         | Some value => key_result proof true value kv.1
                         | None => key_result proof false None kv.1
                         end) <$> values)
         end
     end.

(** A subtree: the verdict, and the entries found so far. *)
Abbreviation found := (bool * list (bytes * bytes))%type.

Fixpoint visit_verified (verify : Cid → list (bytes * bytes) → outcome Error found) (node : Node)
    (node_map : gmap Cid Node) (idxs : list nat) (entries : list (bytes * bytes)) : outcome Error found :=
  match idxs with
  | [] => Ok (true, entries)
  | idx :: idxs' =>
      match vals node !! idx ≫= cid_from_child_bytes with
      | None => Ok (false, entries)
      | Some child_cid =>
          match node_map !! child_cid with
          | None => Ok (false, entries)
          | Some child =>
              if negb (level node =? saturating_add u8_max (level child) 1) then Ok (false, entries)
              else
                r ← verify child_cid entries;
                if r.1 : bool then visit_verified verify node node_map idxs' r.2 else Ok r
          end
      end
  end.

Fixpoint verify_window_node (fuel : nat) (w : Window) (node_map : gmap Cid Node) (stack : gset Cid) (cid : Cid)
    (entries : list (bytes * bytes)) : outcome Error found :=
  match fuel with
  | O => Panic "unreachable"
  | S fuel' =>
      if bool_decide (cid ∈ stack) then Ok (false, entries)
      else
        match node_map !! cid with
        | None => Ok (false, entries)
        | Some node =>
            if leaf node then
              Ok (true, entries ++ List.filter (λ e, w_in w e.1) (zip (keys node) (vals node)))
            else
              idxs ← overlapping_children w node (overlapping_child_index_range node (w_start w) (w_end w));
              visit_verified (verify_window_node fuel' w node_map ({[cid]} ∪ stack)) node node_map idxs entries
        end
  end.

Definition verify_range_node (start : bytes) (end_ : option bytes) (node_map : gmap Cid Node) (root : Cid) :=
  verify_window_node (S (size node_map)) (range_window start end_) node_map ∅ root [].
Definition verify_range_page_node (after end_ : option bytes) (node_map : gmap Cid Node) (root : Cid) :=
  verify_window_node (S (size node_map)) (page_window after end_) node_map ∅ root [].

Definition verify_range_proof (proof : RangeProof) : outcome Error RangeProofVerification :=
  let result valid entries := {|
    rv_valid := valid; rv_root := rp_root proof; rv_start := rp_start proof; rv_end := rp_end proof;
    rv_entries := entries |} in
  if range_is_empty_by_bounds (rp_start proof) (rp_end proof)
  then Ok (result (bool_decide (rp_path proof = [])) [])
  else
    node_map ← range_proof_node_map proof;
    match node_map with
    | None => Ok (result false [])
    | Some node_map =>
        r ← match rp_root proof with
            | None => Ok (bool_decide (rp_path proof = []), [])
            | Some root => verify_range_node (rp_start proof) (rp_end proof) node_map root
            end;
        Ok (result r.1 (if r.1 : bool then r.2 else []))
    end.

Definition verify_range_page_proof (proof : RangePageProof) : outcome Error RangePageProofVerification :=
  let result valid entries := {|
    pv_valid := valid; pv_root := pp_root proof; pv_after := pp_after proof; pv_end := pp_end proof;
    pv_entries := entries |} in
  if page_range_is_empty_by_bounds (pp_after proof) (pp_end proof)
  then Ok (result (bool_decide (pp_path proof = [])) [])
  else
    node_map ← range_page_proof_node_map proof;
    match node_map with
    | None => Ok (result false [])
    | Some node_map =>
        r ← match pp_root proof with
            | None => Ok (bool_decide (pp_path proof = []), [])
            | Some root => verify_range_page_node (pp_after proof) (pp_end proof) node_map root
            end;
        Ok (result r.1 (if r.1 : bool then r.2 else []))
    end.

(** ** Pages of differences *)
Definition removed (e : bytes * bytes) : Diff := Removed e.1 e.2.
Definition added (e : bytes * bytes) : Diff := Added e.1 e.2.

(** The merge of two ordered lists; the loop advances one of them in each round. *)
Fixpoint diff_verified_entries (base : list (bytes * bytes)) : list (bytes * bytes) → list Diff :=
  fix go (other : list (bytes * bytes)) : list Diff :=
    match base, other with
    | [], _ => added <$> other
    | _, [] => removed <$> base
    | (bk, bv) :: base', (ok, ov) :: other' =>
        match bcmp bk ok with
        | Lt => Removed bk bv :: diff_verified_entries base' other
        | Gt => Added ok ov :: go other'
        | Eq =>
            (if bool_decide (bv = ov) then [] else [Changed bk bv ov]) ++ diff_verified_entries base' other'
        end
    end.

Definition verify_diff_page_lookahead (base other : KeyProofVerification) (after requested_end proof_end : option bytes)
    : bool :=
  if negb (kv_valid base) || negb (kv_valid other) || negb (bool_decide (kv_key base = kv_key other)) then false
  else
    let key := kv_key base in
    if negb (bool_decide (proof_end = Some key)) || negb (key_in_page_range key after requested_end) then false
    else match kv_value base, kv_value other with
         | None, None => false
         | Some l, Some r => negb (bool_decide (l = r))
         | _, _ => true
         end.

Definition verify_diff_page_proof (proof : DiffPageProof) : outcome Error DiffPageProofVerification :=
  base ← verify_range_page_proof (dp_base proof);
  other ← verify_range_page_proof (dp_other proof);
  let same_bounds := bool_decide (pp_after (dp_base proof) = pp_after (dp_other proof))
                     && bool_decide (pp_end (dp_base proof) = pp_end (dp_other proof)) in
  let after := pp_after (dp_base proof) in
  let proof_end := pp_end (dp_base proof) in
  let result valid lookahead_valid diffs next_cursor := {|
    dv_valid := valid; dv_base_valid := pv_valid base; dv_other_valid := pv_valid other;
    dv_lookahead_valid := lookahead_valid; dv_base_root := pv_root base; dv_other_root := pv_root other;
    dv_after := after; dv_requested_end := dp_requested_end proof; dv_proof_end := proof_end;
    dv_limit := dp_limit proof; dv_diffs := if valid : bool then diffs else [];
    dv_next_cursor := if valid : bool then next_cursor else None |} in
  if negb (pv_valid base && pv_valid other && same_bounds) then Ok (result false false [] None)
  else
    let diffs := diff_verified_entries (pv_entries base) (pv_entries other) in
    match dp_lookahead_base proof, dp_lookahead_other proof with
    | Some base_lookahead, Some other_lookahead =>
        base_lookahead ← verify_key_proof base_lookahead;
        other_lookahead ← verify_key_proof other_lookahead;
        let lookahead_valid :=
          verify_diff_page_lookahead base_lookahead other_lookahead after (dp_requested_end proof) proof_end in
        Ok (result (lookahead_valid && (0 <? dp_limit proof) && (len diffs =? dp_limit proof)) lookahead_valid diffs
              ((λ d, after_key (Diff_key d)) <$> list.last diffs))
    | None, None =>
        if dp_limit proof =? 0 then
          Ok (result (bool_decide (diffs = [])) true diffs
                (Some match after with Some key => after_key key | None => RangeCursor_start end))
        else
          Ok (result (bool_decide (proof_end = dp_requested_end proof) && (len diffs <=? dp_limit proof)) true diffs None)
    | _, _ => Ok (result false false [] None)
    end.

End verify.

(** ** Collection *)
Section prove.
Context `{Hashes} {St : Type} `{Store St}.

Fixpoint key_path (fuel : nat) (key : bytes) (cid : Cid) (path : list Node) : eng St (list Node) :=
  match fuel with
  | O => run (Panic "unreachable")
  | S fuel' =>
      load_arc cid ≫= λ node : Node,
      let path := path ++ [node] in
      if leaf node then mret path
      else
        run (ok_or InvalidNode (vals node !! path_child_index node key)) ≫= λ child_bytes : bytes,
        run (ok_or InvalidNode (cid_from_child_bytes child_bytes)) ≫= λ child : Cid,
        key_path fuel' key child path
  end.

Definition prove_key (fuel : nat) (tree : Tree) (key : bytes) : eng St KeyProof :=
  match t_root tree with
  | None => mret {| kp_root := None; kp_key := key; kp_path := [] |}
  | Some root =>
      key_path fuel key root [] ≫= λ path : list Node,
      mret {| kp_root := Some root; kp_key := key; kp_path := path |}
  end.

(** The nodes that were not seen before, by their identifiers. *)
Fixpoint add_unseen (nodes : list Node) (seen : gset Cid) (path : list Node) : outcome Error (gset Cid * list Node) :=
  match nodes with
  | [] => Ok (seen, path)
  | node :: nodes' =>
      cid ← Node_cid node;
      if bool_decide (cid ∈ seen) then add_unseen nodes' seen path
      else add_unseen nodes' ({[cid]} ∪ seen) (path ++ [node])
  end.

Fixpoint prove_each (fuel : nat) (tree : Tree) (ks : list bytes) (seen : gset Cid) (path : list Node)
    : eng St (list Node) :=
  match ks with
  | [] => mret path
  | key :: ks' =>
      prove_key fuel tree key ≫= λ key_proof : KeyProof,
      run (add_unseen (kp_path key_proof) seen path) ≫= λ r : gset Cid * list Node,
      prove_each fuel tree ks' r.1 r.2
  end.

Definition prove_keys (fuel : nat) (tree : Tree) (ks : list bytes) : eng St MultiKeyProof :=
  match t_root tree with
  | None => mret {| mp_root := None; mp_keys := ks; mp_path := [] |}
  | Some root =>
      if bool_decide (ks = []) then mret {| mp_root := Some root; mp_keys := ks; mp_path := [] |}
      else
        prove_each fuel tree ks ∅ [] ≫= λ path : list Node,
        mret {| mp_root := Some root; mp_keys := ks; mp_path := path |}
  end.

(** One node of the traversal: its children that meet the window. *)
Definition child_cids (w : Window) (node : Node) : outcome Error (list Cid) :=
  idxs ← overlapping_children w node (overlapping_child_index_range node (w_start w) (w_end w));
  mapM (λ idx, child_bytes ← ok_or InvalidNode (vals node !! idx); ok_or InvalidNode (cid_from_child_bytes child_bytes)) idxs.

(** The top of the stack is the head of the list. *)
Fixpoint collect_window_nodes (fuel : nat) (w : Window) (stack : list Cid) (seen : gset Cid) (path : list Node)
    : eng St (list Node) :=
  match fuel, stack with
  | O, _ => run (Panic "unreachable")
  | S _, [] => mret path
  | S fuel', cid :: stack' =>
      if bool_decide (cid ∈ seen) then collect_window_nodes fuel' w stack' seen path
      else
        load_arc cid ≫= λ node : Node,
        if leaf node then collect_window_nodes fuel' w stack' ({[cid]} ∪ seen) (path ++ [node])
        else
          run (child_cids w node) ≫= λ children : list Cid,
          collect_window_nodes fuel' w (children ++ stack') ({[cid]} ∪ seen) (path ++ [node])
  end.

Definition collect_range_proof_nodes (fuel : nat) (cid : Cid) (start : bytes) (end_ : option bytes) : eng St (list Node) :=
  collect_window_nodes fuel (range_window start end_) [cid] ∅ [].
Definition collect_range_page_proof_nodes (fuel : nat) (cid : Cid) (after end_ : option bytes) : eng St (list Node) :=
  collect_window_nodes fuel (page_window after end_) [cid] ∅ [].

Definition prove_range (fuel : nat) (tree : Tree) (start : bytes) (end_ : option bytes) : eng St RangeProof :=
  let proof path := {| rp_root := t_root tree; rp_start := start; rp_end := end_; rp_path := path |} in
  match t_root tree with
  | None => mret (proof [])
  | Some root =>
      if range_is_empty_by_bounds start end_ then mret (proof [])
      else collect_range_proof_nodes fuel root start end_ ≫= λ path : list Node, mret (proof path)
  end.

Definition prove_prefix (fuel : nat) (tree : Tree) (prefix : bytes) : eng St RangeProof :=
  let '(start, end_) := Key.prefix_range prefix in prove_range fuel tree start end_.

Definition prove_range_page_window (fuel : nat) (tree : Tree) (after end_ : option bytes) : eng St RangePageProof :=
  let proof path := {| pp_root := t_root tree; pp_after := after; pp_end := end_; pp_path := path |} in
  match t_root tree with
  | None => mret (proof [])
  | Some root =>
      if page_range_is_empty_by_bounds after end_ then mret (proof [])
      else collect_range_page_proof_nodes fuel root after end_ ≫= λ path : list Node, mret (proof path)
  end.

End prove.

(** A page of entries together with a proof of exactly these entries: the proof ends where
    the next entry begins. *)
Section pages.
Context `{Hashes} {St : Type} `{ReadStore St}.

Definition prove_range_page (fuel collect_fuel : nat) (tree : Tree) (cursor : RangeCursor) (end_ : option bytes) (limit : Z)
    : eng St ProvedRangePage :=
  let after := rc_after cursor in
  if limit =? 0 then
    mret {| pr_page := {| pg_entries := []; pg_next_cursor := Some cursor |};
            pr_proof := {| pp_root := t_root tree; pp_after := after; pp_end := Some (default [] after); pp_path := [] |} |}
  else
    range_from_cursor fuel tree cursor end_ ≫= λ iter : RangeIter,
    run (vec_with_capacity limit 48) ≫= λ _,
    take_items fuel (Z.to_nat limit) iter [] ≫= λ r : bool * list (bytes * bytes) * RangeIter,
    let '(more, entries, iter) := r in
    if negb more then
      prove_range_page_window collect_fuel tree after end_ ≫= λ proof : RangePageProof,
      mret {| pr_page := {| pg_entries := entries; pg_next_cursor := None |}; pr_proof := proof |}
    else
      Range.next fuel iter ≫= λ r : option (outcome Error (bytes * bytes)) * RangeIter,
      match r.1 with
      | None => mret None
      | Some item => run item ≫= λ entry : bytes * bytes, mret (Some entry)
      end ≫= λ lookahead : option (bytes * bytes),
      let proof_end := match lookahead with Some entry => Some entry.1 | None => end_ end in
      prove_range_page_window collect_fuel tree after proof_end ≫= λ proof : RangePageProof,
      mret {| pr_page := {| pg_entries := entries;
                            pg_next_cursor := match lookahead with
                                              | Some _ => (λ e : bytes * bytes, after_key e.1) <$> last entries
                                              | None => None
                                              end |};
              pr_proof := proof |}.

End pages.
End Proof.
