(* ===== verification/ProofSpec.v ===== *)
(** * Proofs are sound and complete

    A proof that verifies against the root of a stored tree tells the truth about the
    tree's map, whoever made it, as long as no node of the proof collides with a stored
    one; and the proofs the engine collects verify.  Lookups first, then windows of
    keys. *)

From Stdlib Require Import ZArith Lia Strings.Byte.
From stdpp Require Import base tactics numbers list strings option gmap sorting.
From S2P Require Import Prelude Cursor Types Format Node ReadNode Store NodeCache Emitter Builder Entries TreeSpec Engine EngineSpec BuiltTree Write WriteSpec Loader LoaderSpec Key Proof.
Import Format Node ReadNode Store NodeCache Builder Entries TreeSpec Engine EngineSpec BuiltTree Write Loader LoaderSpec Proof.

Local Open Scope Z_scope.

Module ProofSpec.

(** ** Binary searches over sorted keys *)
Lemma partition_point_sorted (p : bytes → bool) ks :
  StronglySorted blt ks → (∀ a b, (a < b)%key → p b = true → p a = true) →
  partitioned p ks (partition_point p ks).
Proof.
  intros Hs Hp. assert (∃ n, partitioned p ks n) as (n & Hn).
  { induction Hs as [|k ks _ (n & Hn & Hall) Hk]; [by exists 0%nat|]. destruct (p k) eqn:Hpk.
    - exists (S n). split; [cbn; lia|]. intros [|i] x Hx; cbn in Hx.
      + injection Hx as <-. by rewrite Hpk.
      + rewrite (Hall i x Hx). apply bool_decide_ext. lia.
    - exists 0%nat. split; [lia|]. intros [|i] x Hx; cbn in Hx; [by injection Hx as <-|].
      rewrite bool_decide_eq_false_2 by lia. destruct (p x) eqn:Hpx; [|done].
      rewrite (Hp k x) in Hpk; [done| |done]. eapply Forall_lookup_1 in Hx; [|exact Hk]. done. }
  by rewrite (partition_point_spec p ks n Hn).
Qed.

Lemma below_at_most key a b : (a < b)%key → bleb b key = true → bleb a key = true.
Proof. rewrite !bleb_le. intros Hab Hb. apply blt_le. by eapply blt_le_trans. Qed.
Lemma below_before key a b : (a < b)%key → bltb b key = true → bltb a key = true.
Proof. rewrite !bltb_lt. intros Hab Hb. by eapply blt_trans. Qed.

(** ** Parts of ordered entries *)
Lemma ascending_part (subs : list (list kv)) i sub :
  ascending (concat subs) → subs !! i = Some sub → ascending sub.
Proof.
  intros Hasc Hi. destruct (list_elem_of_split_length subs i sub Hi) as (pre & post & -> & _).
  rewrite concat_app in Hasc. destruct (ascending_app _ _ Hasc) as (_ & Hasc2 & _). cbn [concat] in Hasc2.
  by destruct (ascending_app _ _ Hasc2).
Qed.

(** A child's keys lie between its separator and the next one. *)
Lemma part_above ks subs i k sub key :
  Forall2 starts_with ks subs → ascending (concat subs) → ks !! i = Some k → subs !! i = Some sub →
  key ∈ fst <$> sub → (k ≤ key)%key.
Proof.
  intros Hst Hasc Hk Hsub. destruct (Forall2_lookup_lr _ _ _ _ _ _ Hst Hk Hsub) as (v & rest & ->).
  apply (ascending_head k v rest). by eapply ascending_part.
Qed.

Lemma part_below ks subs i k sub key :
  Forall2 starts_with ks subs → ascending (concat subs) → ks !! S i = Some k → subs !! i = Some sub →
  key ∈ fst <$> sub → (key < k)%key.
Proof.
  intros Hst Hasc Hk Hsub Hkey. destruct (list_elem_of_split_length subs i sub Hsub) as (pre & post & -> & Hlen).
  rewrite concat_app in Hasc. destruct (ascending_app _ _ Hasc) as (_ & Hasc2 & _). cbn [concat] in Hasc2.
  destruct (ascending_app _ _ Hasc2) as (_ & _ & Hlt). apply Hlt; [done|].
  destruct (Forall2_lookup_l _ _ _ _ _ Hst Hk) as (sub' & Hsub' & Hk').
  rewrite lookup_app_r in Hsub' by lia. replace (S i - length pre)%nat with 1%nat in Hsub' by lia.
  destruct post as [|sub'' post]; [done|]. injection Hsub' as ->. cbn [concat]. rewrite fmap_app, elem_of_app. left.
  by apply starts_with_head.
Qed.

(** The child on the way of a key. *)
Lemma path_child_holds ks subs key sub :
  Forall2 starts_with ks subs → ascending (concat subs) → StronglySorted blt ks →
  subs !! (partition_point (λ c, bleb c key) ks - 1)%nat = Some sub →
  ascending sub ∧ final_map (concat subs) !! key = final_map sub !! key.
Proof.
  intros Hst Hasc Hs Hsub. destruct (partition_point_sorted (λ c, bleb c key) ks Hs (below_at_most key)) as [Hle Hall].
  set (n := partition_point _ ks) in *. destruct n as [|i] eqn:Hn.
  - split; [by eapply ascending_part|]. assert (∀ j k, ks !! j = Some k → (key < k)%key) as Hlow.
    { intros j k Hk. apply bleb_gt. rewrite (Hall j k Hk). apply bool_decide_eq_false_2. lia. }
    rewrite (below_first ks subs key Hst Hasc Hlow). symmetry. apply final_map_miss. intros Hkey.
    destruct (Forall2_lookup_r _ _ _ _ _ Hst Hsub) as (k & Hk & _).
    apply (blt_irrefl key). eapply blt_le_trans; [by eapply Hlow|]. by eapply part_above.
  - replace (S i - 1)%nat with i in Hsub by lia. apply (child_holds ks subs key i); [done|done| |done].
    destruct (lookup_lt_is_Some_2 ks i) as [k Hk]; [lia|]. exists k. split; [done|]. split.
    + apply bleb_le. rewrite (Hall i k Hk). apply bool_decide_eq_true_2. lia.
    + intros j k' Hj Hk'. apply bleb_gt. rewrite (Hall j k' Hk'). apply bool_decide_eq_false_2. lia.
Qed.

Section sound.
Context `{HashesOk} (st : gmap bytes bytes) (f : TreeFormat).

(** A node with the identifier of a stored node is that node. *)
Definition genuine (n : Node) : Prop := ∀ cid m, Node_cid n = Ok cid → stored_node st cid m → n = m.

(** What the Rust types and the address space guarantee of any node. *)
Record node_typed (n : Node) : Prop := {
  nt_format : TreeFormat_wf (format n);
  nt_level : 0 ≤ level n ≤ u8_max;
  nt_keys : Forall vec_wf (keys n);
  nt_vals : Forall vec_wf (vals n);
  nt_counts : Forall u64 (child_counts n);
  nt_room : len (format_bytes (format n)) + 36 + 48 * len (keys n) ≤ isize_max;
}.

(** No node of a path has the identifier of other stored bytes. *)
Definition no_forgery (path : list Node) : Prop :=
  ∀ n b cid b', n ∈ path → to_bytes n = Ok b → Cid_from_bytes b = cid → st !! cid = Some b' → b = b'.

Lemma to_bytes_codec n b : to_bytes n = Ok b → has_codec (format n).
Proof.
  unfold to_bytes, try_to_bytes, to_compact_bytes, has_codec. destruct (node_format_bytes (format n)); [|done..].
  cbn [mbind outcome_bind]. destruct (vec_with_capacity _ _); [|done..]. cbn [mbind outcome_bind].
  by destruct (node_layout (format n)).
Qed.

Lemma Node_cid_Ok n cid : Node_cid n = Ok cid → ∃ b, to_bytes n = Ok b ∧ Cid_from_bytes b = cid.
Proof. unfold Node_cid. destruct (to_bytes n) as [b| |]; [|done..]. intros [= <-]. by exists b. Qed.

Lemma stored_cid cid n : stored_node st cid n → Node_cid n = Ok cid.
Proof. intros (b & _ & <- & Hb & _). unfold Node_cid. by rewrite Hb. Qed.

(** Transported nodes are genuine. *)
Lemma decoded_genuine bs path :
  path_from_bytes bs = Ok path → Forall vec_wf bs → Forall node_typed path → no_forgery path → Forall genuine path.
Proof.
  intros Hpath Hbs Htyped Hforge. apply Forall_forall. intros n Hn cid m (b & Hb & Hcid)%Node_cid_Ok (b' & Hst & Hc & Hm & Hd & [Hp _]).
  assert (b = b') as -> by (by eapply Hforge). assert (Node_validate n = Ok tt) as Hv.
  { clear -Hpath Hbs Hn. revert path Hpath Hn. induction Hbs as [|d bs Hd _ IH]; intros path Hpath Hn.
    - injection Hpath as <-. by apply not_elem_of_nil in Hn.
    - unfold path_from_bytes in Hpath. cbn [mapM] in Hpath. apply outcome_bind_Ok in Hpath as (n' & Hn' & Hpath).
      apply outcome_bind_Ok in Hpath as (rest & Hrest & [= <-]).
      apply elem_of_cons in Hn as [->|Hn]; [by eapply decoded_validates|by eapply IH]. }
  eapply Forall_forall in Htyped; [|exact Hn]. destruct Htyped. destruct (roundtrip_ok n) as (b & Hb2 & Hdec).
  { constructor; try done. by eapply to_bytes_codec. }
  rewrite Hb in Hb2. injection Hb2 as <-.
  rewrite Hdec in Hd; [by injection Hd|]. unfold vec_wf, isize_max, u32_max in *. lia.
Qed.
(** ** Lookups *)
(** The node of a subtree, from its identifier. *)
Lemma subtree_node h cid es n :
  subtree st f h cid es → genuine n → Node_cid n = Ok cid → subtree st f h cid es ∧ stored_node st cid n.
Proof.
  intros Hsub Hg Hcid. split; [done|].
  destruct h; destruct Hsub as (m & Hm & _); by rewrite (Hg cid m Hcid Hm).
Qed.

(** A subtree through its node. *)
Lemma subtree_at h cid es n :
  subtree st f h cid es → stored_node st cid n →
  (format n = f ∧ level n = Z.of_nat h ∧ keys n ≠ []) ∧
  StronglySorted blt (keys n) ∧ length (vals n) = length (keys n) ∧
  match h with
  | O => leaf n = true ∧ es = zip (keys n) (vals n)
  | S h' => leaf n = false ∧ ∃ subs, Forall2 (subtree st f h') (vals n) subs ∧
              Forall2 starts_with (keys n) subs ∧ es = concat subs
  end.
Proof.
  intros Hsub Hn. destruct (stored_node_sorted _ _ _ Hn) as [Hs Hl].
  destruct h; destruct Hsub as (m & Hm & Hf & Hes); rewrite (stored_node_unique _ _ _ _ Hm Hn) in Hf, Hes; done.
Qed.

Lemma leaf_value n key :
  leaf n = true → StronglySorted blt (keys n) → length (vals n) = length (keys n) →
  verified_leaf_value (Some n) key = final_map (zip (keys n) (vals n)) !! key.
Proof. intros Hl Hs Hlen. rewrite (leaf_lookup _ _ _ Hs Hlen). unfold verified_leaf_value. cbn. by rewrite Hl. Qed.

Lemma cid_from_child_Some b c : cid_from_child_bytes b = Some c ↔ c = b ∧ length b = 32%nat.
Proof.
  unfold cid_from_child_bytes. destruct (Nat.eqb_spec (length b) 32); split; try done; [by intros [= ->]|by intros [-> _]|tauto].
Qed.

(** The child on the way of a key, in a stored internal node. *)
Lemma key_child h n subs key c :
  Forall2 (subtree st f h) (vals n) subs → Forall2 starts_with (keys n) subs → StronglySorted blt (keys n) →
  ascending (concat subs) → vals n !! path_child_index n key = Some c →
  ∃ sub, subtree st f h c sub ∧ ascending sub ∧ final_map (concat subs) !! key = final_map sub !! key.
Proof.
  intros Hsubs Hst Hs Hasc Hc. destruct (Forall2_lookup_l _ _ _ _ _ Hsubs Hc) as (sub & Hsub & Hcsub).
  exists sub. split; [done|]. by eapply path_child_holds.
Qed.

Lemma path_sound key path h cid es :
  subtree st f h cid es → ascending es → Forall genuine path →
  (∃ first rest, path = first :: rest ∧ Node_cid first = Ok cid) → path_is_consistent key path = Ok true →
  verified_leaf_value (list.last path) key = final_map es !! key.
Proof.
  revert h cid es; induction path as [|node path IH]; intros h cid es Hsub Hasc Hg (first & rest & Heq & Hcid) Hok;
    [done|]. injection Heq as <- <-. apply Forall_cons in Hg as [Hnode Hg].
  destruct (subtree_node _ _ _ _ Hsub Hnode Hcid) as [_ Hst].
  destruct (subtree_at _ _ _ _ Hsub Hst) as (_ & Hs & Hl & Hes). cbn [path_is_consistent] in Hok.
  destruct (negb (node_shape_is_valid node)); [done|]. destruct path as [|next path].
  { injection Hok as Hleaf. destruct h as [|h]; [|destruct Hes; congruence]. destruct Hes as [_ ->]. by apply leaf_value. }
  destruct (leaf node) eqn:Hleaf; [done|]. destruct (negb (level node =? _)); [done|].
  destruct h as [|h]; [by destruct Hes|]. destruct Hes as (_ & subs & Hsubs & Hks & ->).
  destruct (vals node !! path_child_index node key) as [b|] eqn:Hb; [|done]. cbn [mbind option_bind] in Hok.
  destruct (cid_from_child_bytes b) as [c|] eqn:Hc; [|done]. apply cid_from_child_Some in Hc as [-> _].
  destruct (Node_cid next) as [nc| |] eqn:Hnc; [|done..]. cbn [mbind outcome_bind] in Hok. case_bool_decide as Hbc; [|done].
  subst nc. destruct (key_child h node subs key b Hsubs Hks Hs Hasc Hb) as (sub & Hbs & Hasc' & ->).
  change (list.last (node :: next :: path)) with (list.last (next :: path)).
  apply (IH h b sub); [done|done|done|by exists next, path|done].
Qed.

Lemma key_proof_value tree h es proof v :
  tree_holds st tree h es → Config.format (t_config tree) = f → kp_root proof = t_root tree → Forall genuine (kp_path proof) →
  verify_key_proof proof = Ok v → kv_valid v = true → kv_value v = final_map es !! kp_key proof.
Proof.
  unfold tree_holds, verify_key_proof, proof_is_consistent. intros Hh Hf Hroot Hg Hv Hvalid. rewrite Hf, <- Hroot in Hh.
  destruct (kp_root proof) as [root|], (kp_path proof) as [|first rest] eqn:Hp; try (injection Hv as <-; done).
  - destruct (Node_cid first) as [fc| |] eqn:Hfc; [|done..]. cbn [mbind outcome_bind] in Hv.
    case_bool_decide as Heq; [subst fc|by injection Hv as <-].
    destruct (path_is_consistent _ _) as [[]| |] eqn:Hok; [|by injection Hv as <-|done..]. injection Hv as <-. cbn [kv_value].
    destruct Hh as [Hsub Hasc]. eapply path_sound; [done|done|done|by exists first, rest|done].
  - injection Hv as <-. cbn. by rewrite Hh.
Qed.
Lemma stored_genuine cid n : stored_node st cid n → genuine n.
Proof.
  intros Hn cid' m Hcid Hm. rewrite (stored_cid cid n Hn) in Hcid. injection Hcid as <-. by eapply stored_node_unique.
Qed.

Lemma stored_shape h cid es n : subtree st f h cid es → stored_node st cid n → node_shape_is_valid n = true.
Proof.
  intros Hsub Hn. destruct (subtree_at _ _ _ _ Hsub Hn) as ((_ & _ & Hne) & Hs & Hl & Hes).
  unfold node_shape_is_valid. rewrite bool_decide_eq_false_2 by done. rewrite Hl, Nat.eqb_refl.
  rewrite (proj2 (sorted_keys_iff _) Hs). cbn [negb orb]. destruct h as [|h].
  - destruct Hes as [-> _]. done.
  - destruct Hes as (-> & subs & Hsubs & _). cbn [orb]. apply forallb_forall. intros c Hc%list_elem_of_In.
    apply list_elem_of_lookup in Hc as [i Hi]. destruct (Forall2_lookup_l _ _ _ _ _ Hsubs Hi) as (sub & _ & Hc).
    apply Nat.eqb_eq. by eapply subtree_cid.
Qed.

(** Identifiers of children have the width of identifiers, and their nodes the level below. *)
Lemma subtree_child_cid h c sub : subtree st f h c sub → cid_from_child_bytes c = Some c.
Proof. intros Hc%subtree_cid. by apply cid_from_child_Some. Qed.

Lemma subtree_level h h' c sub n m :
  subtree st f h c sub → stored_node st c m → level n = Z.of_nat (S h) → h' = S h → (h' ≤ 255)%nat →
  (level n =? saturating_add u8_max (level m) 1) = true.
Proof.
  intros Hc Hm Hn -> Hle. destruct (subtree_at _ _ _ _ Hc Hm) as ((_ & Hlm & _) & _).
  apply Z.eqb_eq. unfold saturating_add, u8_max. lia.
Qed.

Lemma subtree_stored h cid es : subtree st f h cid es → ∃ n, stored_node st cid n.
Proof. destruct h; intros (n & Hn & _); by exists n. Qed.

(** The position that [path_child_index] picks exists. *)
Lemma path_child_exists n key : keys n ≠ [] → length (vals n) = length (keys n) → ∃ c, vals n !! path_child_index n key = Some c.
Proof.
  intros Hne Hl. apply lookup_lt_is_Some_2. rewrite Hl. unfold path_child_index.
  pose proof (partition_point_le (λ c, bleb c key) (keys n)). destruct (keys n); [done|cbn in *; lia].
Qed.

(** The identifiers on the way of a key. *)
Inductive on_path (key : bytes) (root : Cid) : Cid → Prop :=
| on_path_root : on_path key root root
| on_path_child c n c' :
    on_path key root c → stored_node st c n → leaf n = false → vals n !! path_child_index n key = Some c' →
    on_path key root c'.

Lemma on_path_down key root n c' c :
  stored_node st root n → leaf n = false → vals n !! path_child_index n key = Some c' → on_path key root c →
  c = root ∨ on_path key c' c.
Proof.
  intros Hn Hleaf Hc' Hc. induction Hc as [|c m c'' _ IH Hm Hl Hv]; [by left|]. right. destruct IH as [->|Hon].
  - rewrite (stored_node_unique _ _ _ _ Hm Hn) in Hv. rewrite Hc' in Hv. injection Hv as ->. constructor.
  - by eapply on_path_child.
Qed.

Lemma on_path_leaf key root n c : stored_node st root n → leaf n = true → on_path key root c → c = root.
Proof.
  intros Hn Hleaf Hc. induction Hc as [|c m c'' _ -> Hm Hl]; [done|].
  rewrite (stored_node_unique _ _ _ _ Hm Hn) in Hl. congruence.
Qed.

Definition stores_path (key : bytes) (root : Cid) (nodes : list Node) : Prop :=
  ∀ c, on_path key root c → ∃ n, n ∈ nodes ∧ stored_node st c n.

Section engine.
Context {St : Type} `{StoreOk St}.

Lemma load_arc_ok cid n (e : ProllyEngine St) :
  engine_manages f st e → stored_node st cid n → format n = f →
  ∃ e', load_arc cid e = (Ok n, e') ∧ engine_manages f st e'.
Proof. intros He Hn Hf. pose proof He as [_ Hc]. unfold load_arc. rewrite Hc, <- Hf. apply load_arc_manages; [by rewrite Hf|done]. Qed.

Lemma key_path_ok key fuel h cid es pre (e : ProllyEngine St) :
  engine_manages f st e → subtree st f h cid es → (h < fuel)%nat → (h ≤ 255)%nat →
  ∃ nodes e', key_path fuel key cid pre e = (Ok (pre ++ nodes), e') ∧ engine_manages f st e' ∧
    path_is_consistent key nodes = Ok true ∧ (∃ first rest, nodes = first :: rest ∧ stored_node st cid first) ∧
    Forall (λ n, ∃ c h es, subtree st f h c es ∧ stored_node st c n) nodes ∧ stores_path key cid nodes.
Proof.
  revert fuel cid es pre e; induction h as [|h IH]; intros [|fuel] cid es pre e He Hsub Hfuel Hh; [lia| |lia|];
    cbn [key_path]; destruct (subtree_stored _ _ _ Hsub) as (n & Hn); pose proof (stored_shape _ _ _ _ Hsub Hn) as Hshape;
    destruct (subtree_at _ _ _ _ Hsub Hn) as ((Hf & Hlev & Hne) & Hs & Hl & Hes);
    destruct (load_arc_ok cid n e He Hn Hf) as (e1 & Hload & He1); rewrite (action_bind_Ok _ _ _ _ _ Hload).
  - destruct Hes as [Hleaf _]. rewrite Hleaf. exists [n], e1. split; [done|]. split; [done|].
    cbn [path_is_consistent]. rewrite Hshape, Hleaf. split; [done|]. split; [by exists n, []|].
    split; [constructor; [by exists cid, 0%nat, es|done]|]. intros c ->%(on_path_leaf key cid n c Hn Hleaf). exists n. split; [by left|done].
  - destruct Hes as (Hleaf & subs & Hsubs & Hst & ->). rewrite Hleaf.
    destruct (path_child_exists n key Hne Hl) as (c & Hc). rewrite Hc. cbn [ok_or].
    destruct (Forall2_lookup_l _ _ _ _ _ Hsubs Hc) as (sub & _ & Hsub'). pose proof (subtree_child_cid _ _ _ Hsub') as Hcc.
    rewrite (action_bind_Ok (run _) _ e1 c e1 eq_refl), (action_bind_Ok (run _) _ e1 c e1) by (unfold run; by rewrite Hcc).
    destruct (IH fuel c sub (pre ++ [n]) e1 He1 Hsub' ltac:(lia) ltac:(lia))
      as (nodes & e2 & Hrun & He2 & Hok & (first & rest & -> & Hfirst) & Hall & Hpath).
    exists (n :: first :: rest), e2. split; [by rewrite Hrun, <- app_assoc|]. split; [done|]. split; [|split; [|split]].
    + cbn [path_is_consistent] in Hok |- *. rewrite Hshape, Hleaf. cbn [negb].
      rewrite (subtree_level h (S h) c sub n first) by done. cbn [negb]. rewrite Hc. cbn [mbind option_bind]. rewrite Hcc.
      rewrite (stored_cid c first Hfirst). cbn [mbind outcome_bind]. by rewrite bool_decide_eq_true_2.
    + by exists n, (first :: rest).
    + constructor; [by eexists cid, (S h), _|done].
    + intros c' Hc'. destruct (on_path_down key cid n c c' Hn Hleaf Hc Hc') as [->|Hd]; [exists n; split; [by left|done]|].
      destruct (Hpath c' Hd) as (m & Hm & ?). exists m. split; [by right|done].
Qed.

Lemma prove_key_ok tree h es fuel key (e : ProllyEngine St) :
  engine_manages f st e → tree_holds st tree h es → Config.format (t_config tree) = f → (h < fuel)%nat → (h ≤ 255)%nat →
  ∃ proof e', prove_key fuel tree key e = (Ok proof, e') ∧ engine_manages f st e' ∧
    kp_root proof = t_root tree ∧ kp_key proof = key ∧ Forall (λ n, ∃ c h es, subtree st f h c es ∧ stored_node st c n) (kp_path proof) ∧
    (∀ root, t_root tree = Some root → stores_path key root (kp_path proof)) ∧ proof_is_consistent proof = Ok true.
Proof.
  unfold tree_holds, prove_key. intros He Hh Hf Hfuel Hle. rewrite Hf in Hh. destruct (t_root tree) as [root|].
  2:{ eexists _, e. split; [done|]. split; [done|]. cbn. by repeat constructor. }
  destruct Hh as [Hsub _]. destruct (key_path_ok key fuel h root es [] e He Hsub Hfuel Hle)
    as (nodes & e1 & Hrun & He1 & Hok & (first & rest & -> & Hfirst) & Hall & Hpath).
  rewrite (action_bind_Ok _ _ _ _ _ Hrun). eexists _, e1. split; [done|]. split; [done|]. split; [done|]. split; [done|].
  split; [done|]. split; [by intros root' [= <-]|]. unfold proof_is_consistent. cbn [kp_root kp_path app]. rewrite (stored_cid root first Hfirst).
  cbn [mbind outcome_bind]. by rewrite bool_decide_eq_true_2.
Qed.
End engine.
End sound.
End ProofSpec.
