(* ===== verification/WindowSpec.v ===== *)
(** * Proofs of windows of keys

    The verifiers of ranges and pages against stored trees: what they accept is the
    part of the map inside the window, they always come to a verdict, and the nodes
    that the engine collects for a window are enough. *)

From Stdlib Require Import ZArith Lia Strings.Byte.
From stdpp Require Import base tactics numbers list strings option gmap sorting.
From S2P Require Import Prelude Cursor Types Format Node ReadNode Store NodeCache Emitter Builder Entries TreeSpec Engine EngineSpec BuiltTree Write WriteSpec Loader LoaderSpec Key Proof ProofSpec.
Import Format Node ReadNode Store NodeCache Builder Entries TreeSpec Engine EngineSpec BuiltTree Write Loader LoaderSpec Proof ProofSpec.

Local Open Scope Z_scope.

Module WindowSpec.

(** ** Windows *)
(** The keys of a window lie between its bounds, and a span that does not meet it has
    none of them. *)
Record window_ok (w : Window) : Prop := {
  wo_start k : w_in w k = true → (w_start w ≤ k)%key;
  wo_end k : w_in w k = true → before_end k (w_end w) = true;
  wo_apart lo hi : w_overlaps w lo hi = false →
    range_ends_before_or_at (w_end w) lo = true ∨ ∃ h, hi = Some h ∧ ∀ k, (k < h)%key → w_in w k = false;
}.

Lemma range_window_ok start end_ : window_ok (range_window start end_).
Proof.
  constructor; cbn [range_window w_start w_end w_in w_overlaps].
  - intros k [Hk _]%andb_true_iff. by apply bleb_le.
  - by intros k [_ Hk]%andb_true_iff.
  - intros lo hi [Hhi%negb_false_iff|Hlo%negb_false_iff]%andb_false_iff; [right|by left].
    destruct hi as [h|]; [|done]. exists h. split; [done|]. intros k Hk. apply bleb_le in Hhi.
    unfold key_in_range. apply andb_false_iff. left. apply bleb_gt. by eapply blt_le_trans.
Qed.

Lemma page_window_ok after end_ : window_ok (page_window after end_).
Proof.
  constructor; cbn [page_window w_start w_end w_in w_overlaps].
  - intros k [Hk _]%andb_true_iff. destruct after as [a|]; cbn; [by apply blt_le, bltb_lt|]. apply (ble_prefix [] k).
  - by intros k [_ Hk]%andb_true_iff.
  - intros lo hi [Hhi%negb_false_iff|Hlo%negb_false_iff]%andb_false_iff; [right|by left].
    destruct after as [a|], hi as [h|]; try done. exists h. split; [done|]. intros k Hk. apply bleb_le in Hhi.
    unfold key_in_page_range. apply andb_false_iff. left. apply bltb_ge. apply blt_le. by eapply blt_le_trans.
Qed.

(** The entries of a window. *)
Definition inside (w : Window) (es : list kv) : list kv := List.filter (λ e, w_in w e.1) es.

Lemma inside_app w a b : inside w (a ++ b) = inside w a ++ inside w b.
Proof. apply List.filter_app. Qed.
Lemma inside_concat w subs : inside w (concat subs) = concat (inside w <$> subs).
Proof. induction subs as [|sub subs IH]; [done|]. cbn [concat fmap list_fmap]. by rewrite inside_app, IH. Qed.
Lemma inside_none w es : (∀ k, k ∈ fst <$> es → w_in w k = false) → inside w es = [].
Proof.
  induction es as [|e es IH]; intros Hno; [done|]. unfold inside in *. cbn [List.filter].
  rewrite (Hno e.1) by apply list_elem_of_here. apply IH. intros k Hk. apply Hno. by apply list_elem_of_further.
Qed.

(** Past the end. *)
Lemma past_end w lo k : window_ok w → range_ends_before_or_at (w_end w) lo = true → (lo ≤ k)%key → w_in w k = false.
Proof.
  intros Hw Hlo Hk. destruct (w_in w k) eqn:Hin; [|done]. apply (wo_end w Hw) in Hin.
  unfold range_ends_before_or_at, ends_before_or_at, before_end in *. destruct (w_end w) as [e|]; [|done].
  apply bleb_le in Hlo. apply bltb_lt in Hin. destruct (blt_irrefl k). eapply blt_le_trans; [exact Hin|]. by eapply ble_trans.
Qed.

(** ** The children that meet the window *)
Lemma overlapping_Ok w n idxs :
  (∀ i, i ∈ idxs → (i < length (keys n))%nat) → ∃ js, overlapping_children w n idxs = Ok js ∧ js `sublist_of` idxs.
Proof.
  induction idxs as [|i idxs IH]; intros Hlt; [by exists []|]. cbn [overlapping_children].
  destruct (lookup_lt_is_Some_2 (keys n) i) as [k Hk]; [apply Hlt; by left|]. rewrite Hk. cbn [expect mbind outcome_bind].
  destruct IH as (js & Hjs & Hsub); [intros j Hj; apply Hlt; by right|].
  destruct (w_overlaps w k _); cbn [negb].
  - rewrite Hjs. cbn [mbind outcome_bind]. exists (i :: js). split; [done|by constructor].
  - destruct (range_ends_before_or_at _ _); [exists []; split; [done|apply sublist_nil_l]|].
    exists js. split; [done|by constructor].
Qed.

Lemma index_range_lt n lo hi i : i ∈ overlapping_child_index_range n lo hi → (i < length (keys n))%nat.
Proof. unfold overlapping_child_index_range. rewrite elem_of_seq. lia. Qed.

Section tree.
Context (w : Window) (Hw : window_ok w) (n : Node) (subs : list (list kv)).
Context (Hst : Forall2 starts_with (keys n) subs) (Hasc : ascending (concat subs)) (Hs : StronglySorted blt (keys n)).

Lemma after_end i k j sub :
  keys n !! i = Some k → range_ends_before_or_at (w_end w) k = true → (i ≤ j)%nat → subs !! j = Some sub → inside w sub = [].
Proof.
  intros Hk Hend Hij Hsub. apply inside_none. intros key Hkey. eapply past_end; [exact Hw|exact Hend|].
  destruct (Forall2_lookup_r _ _ _ _ _ Hst Hsub) as (kj & Hkj & _).
  eapply ble_trans; [|by eapply part_above]. destruct (decide (i = j)) as [->|]; [simplify_eq; apply ble_refl|].
  apply blt_le. apply (sorted_lookup (keys n) i j); [done|lia|done..].
Qed.

Lemma overlapping_misses a m js :
  overlapping_children w n (seq a m) = Ok js →
  ∀ i sub, (a ≤ i < a + m)%nat → subs !! i = Some sub → i ∉ js → inside w sub = [].
Proof.
  revert a js; induction m as [|m IH]; intros a js Hjs i sub Hi Hsub Hnot; [lia|]. cbn [seq overlapping_children] in Hjs.
  destruct (keys n !! a) as [k|] eqn:Hk; [|done]. cbn [expect mbind outcome_bind] in Hjs.
  destruct (w_overlaps w k _) eqn:Hov; cbn [negb] in Hjs.
  - destruct (overlapping_children w n (seq (S a) m)) as [js'| |] eqn:Hjs'; [|done..]. injection Hjs as <-.
    apply not_elem_of_cons in Hnot as [Hne Hnot]. apply (IH (S a) js' Hjs' i); [lia|done|done].
  - destruct (range_ends_before_or_at (w_end w) k) eqn:Hend; [apply (after_end a k i); [done|done|lia|done]|].
    destruct (decide (i = a)) as [->|Hne]; [|apply (IH (S a) js Hjs i); [lia|done|done]].
    destruct (wo_apart w Hw _ _ Hov) as [|(h & Hh & Hno)]; [congruence|].
    unfold child_span_end in Hh. destruct (keys n !! S a) as [h'|] eqn:Hk'; [|done]. injection Hh as <-.
    apply inside_none. intros key Hkey. apply Hno. by apply (part_below (keys n) subs a h' sub).
Qed.

Lemma index_range_misses i sub :
  subs !! i = Some sub → i ∉ overlapping_child_index_range n (w_start w) (w_end w) → inside w sub = [].
Proof.
  intros Hsub. unfold overlapping_child_index_range. rewrite elem_of_seq. intros Hnot.
  destruct (Forall2_lookup_r _ _ _ _ _ Hst Hsub) as (k & Hk & _). pose proof (lookup_lt_Some _ _ _ Hk).
  destruct (partition_point_sorted (λ c, bltb c (w_start w)) (keys n) Hs (below_before _)) as [Hple Hpall].
  set (p := partition_point _ (keys n)) in *. destruct (decide (i < p - 1)%nat) as [Hlt|Hge].
  - destruct (lookup_lt_is_Some_2 (keys n) (S i)) as [k' Hk']; [lia|]. apply inside_none. intros key Hkey.
    destruct (w_in w key) eqn:Hin; [|done]. apply (wo_start w Hw) in Hin. destruct (blt_irrefl key).
    eapply blt_le_trans; [|exact Hin]. eapply blt_trans; [by apply (part_below (keys n) subs i k' sub)|].
    apply bltb_lt. rewrite (Hpall (S i) k' Hk'). apply bool_decide_eq_true_2. lia.
  - apply (after_end i k i sub); [done| |done|done]. unfold range_ends_before_or_at, ends_before_or_at.
    destruct (w_end w) as [e|] eqn:He; [|lia].
    destruct (partition_point_sorted (λ c, bltb c e) (keys n) Hs (below_before _)) as [Hqle Hqall].
    set (q := partition_point _ (keys n)) in *. apply bleb_le, bltb_ge. rewrite (Hqall i k Hk).
    apply bool_decide_eq_false_2. lia.
Qed.

(** The children found are those that matter. *)
Lemma overlapping_ok :
  ∃ js, overlapping_children w n (overlapping_child_index_range n (w_start w) (w_end w)) = Ok js ∧
    js `sublist_of` seq 0 (length subs) ∧ ∀ i sub, subs !! i = Some sub → i ∉ js → inside w sub = [].
Proof.
  destruct (overlapping_Ok w n (overlapping_child_index_range n (w_start w) (w_end w))) as (js & Hjs & Hsl);
    [intros i; apply index_range_lt|]. exists js. split; [done|].
  assert (∀ i, i ∈ overlapping_child_index_range n (w_start w) (w_end w) → (i < length subs)%nat) as Hlt.
  { intros i Hi%index_range_lt. by rewrite <- (Forall2_length _ _ _ Hst). }
  unfold overlapping_child_index_range in *. set (a := (partition_point _ _ - 1)%nat) in *. set (m := (_ - a)%nat) in *.
  split.
  - etrans; [exact Hsl|]. destruct m as [|m]; [apply sublist_nil_l|].
    replace (length subs) with (a + (S m + (length subs - a - S m)))%nat.
    2:{ specialize (Hlt (a + m)%nat). rewrite elem_of_seq in Hlt. lia. }
    rewrite !seq_app. apply sublist_inserts_l, sublist_inserts_r. done.
  - intros i sub Hsub Hnot. destruct (decide (i ∈ seq a m)) as [Hin|Hout].
    + apply elem_of_seq in Hin. by apply (overlapping_misses a m js Hjs i sub).
    + apply (index_range_misses i sub Hsub). exact Hout.
Qed.
End tree.

(** Summing over the children that matter is summing over all. *)
Lemma concat_sublist {A} (g : list kv → list A) a (subs : list (list kv)) js :
  js `sublist_of` seq a (length subs) → (∀ i sub, subs !! i = Some sub → (a + i)%nat ∉ js → g sub = []) →
  concat ((λ j, g (default [] (subs !! (j - a)%nat))) <$> js) = concat (g <$> subs).
Proof.
  revert a js; induction subs as [|sub subs IH]; intros a js Hsl Hmiss.
  { apply sublist_nil_r in Hsl as ->. done. }
  cbn [length seq] in Hsl. assert (∀ js', js' `sublist_of` seq (S a) (length subs) →
    (λ j, g (default [] ((sub :: subs) !! (j - a)%nat))) <$> js' = (λ j, g (default [] (subs !! (j - S a)%nat))) <$> js') as Hshift.
  { intros js' Hjs'. apply list_fmap_ext. intros i j Hj. apply list_elem_of_lookup_2 in Hj.
    eapply elem_of_sublist, elem_of_seq in Hj; [|exact Hjs']. by replace (j - a)%nat with (S (j - S a)) by lia. }
  apply sublist_cons_r in Hsl as [Hsl|(js' & -> & Hsl)].
  - rewrite (Hshift js Hsl). cbn [fmap list_fmap concat]. rewrite (Hmiss 0%nat sub eq_refl); cbn [app].
    + apply IH; [done|]. intros i s Hi Hnot. apply (Hmiss (S i) s Hi). by replace (a + S i)%nat with (S a + i)%nat by lia.
    + rewrite Nat.add_0_r. intros Ha. eapply elem_of_sublist, elem_of_seq in Ha; [|exact Hsl]. lia.
  - rewrite fmap_cons, Nat.sub_diag, (Hshift js' Hsl). cbn [fmap list_fmap concat lookup list_lookup default from_option id].
    f_equal. apply IH; [done|]. intros i s Hi Hnot. apply (Hmiss (S i) s Hi).
    replace (a + S i)%nat with (S a + i)%nat by lia. apply not_elem_of_cons. split; [lia|done].
Qed.

(** ** Verdicts *)
Section verify.
Context `{HashesOk} (st : gmap bytes bytes) (f : TreeFormat) (w : Window) (Hw : window_ok w) (node_map : gmap Cid Node).

(** The identifiers that a traversal of the window visits. *)
Inductive needed (root : Cid) : Cid → Prop :=
| needed_root : needed root root
| needed_child c n cs c' :
    needed root c → stored_node st c n → leaf n = false → child_cids w n = Ok cs → c' ∈ cs → needed root c'.

Lemma needed_trans a b c : needed a b → needed b c → needed a c.
Proof. intros Hab Hbc. induction Hbc; [done|]. by eapply needed_child. Qed.

(** What a stored internal node gives the traversal. *)
Lemma children_ok h cid es n :
  subtree st f (S h) cid es → ascending es → stored_node st cid n →
  ∃ (subs : list (list kv)) js, overlapping_children w n (overlapping_child_index_range n (w_start w) (w_end w)) = Ok js ∧
    inside w es = concat ((λ j, inside w (default [] (subs !! j))) <$> js) ∧
    (∀ j, j ∈ js → ∃ c sub, vals n !! j = Some c ∧ subs !! j = Some sub ∧ subtree st f h c sub ∧ ascending sub) ∧
    ∃ cs, child_cids w n = Ok cs ∧ ∀ j c, j ∈ js → vals n !! j = Some c → c ∈ cs.
Proof.
  intros Hsub Hasc Hn. destruct (subtree_at _ _ _ _ _ _ Hsub Hn) as (_ & Hs & Hl & _ & subs & Hsubs & Hst & ->).
  destruct (overlapping_ok w Hw n subs Hst Hasc Hs) as (js & Hjs & Hsl & Hmiss). exists subs, js. split; [done|].
  assert (∀ j, j ∈ js → ∃ c sub, vals n !! j = Some c ∧ subs !! j = Some sub ∧ subtree st f h c sub ∧ ascending sub) as Hin.
  { intros j Hj. eapply elem_of_sublist, elem_of_seq in Hj; [|exact Hsl].
    destruct (lookup_lt_is_Some_2 subs j) as [sub Hsub']; [lia|].
    destruct (Forall2_lookup_r _ _ _ _ _ Hsubs Hsub') as (c & Hc & Hcs). exists c, sub. split; [done|]. split; [done|]. split; [done|].
    by eapply ascending_part. }
  split; [|split; [done|]].
  - rewrite inside_concat, <- (concat_sublist (inside w) 0 subs js Hsl Hmiss). f_equal. apply list_fmap_ext.
    intros i j _. by rewrite Nat.sub_0_r.
  - unfold child_cids. rewrite Hjs. cbn [mbind outcome_bind]. clear Hjs Hsl Hmiss.
    induction js as [|j js IH]; [exists []; split; [done|]; by intros j c ?%not_elem_of_nil|]. destruct IH as (cs & Hcs & Hall); [intros i Hi; apply Hin; by right|].
    destruct (Hin j) as (c & sub & Hc & _ & Hcsub & _); [by left|].
    exists (c :: cs). cbn [mapM]. rewrite Hc. cbn [ok_or mbind outcome_bind].
    rewrite (subtree_child_cid _ _ _ _ _ Hcsub). cbn [ok_or mbind outcome_bind]. rewrite Hcs. split; [done|].
    intros i c' [->|Hi]%elem_of_cons Hc'; [rewrite Hc in Hc'; injection Hc' as <-; by left|right; by eapply Hall].
Qed.

Lemma visit_sound verify n (g : nat → list kv) js entries r :
  (∀ j c ent out, j ∈ js → vals n !! j = Some c → verify c ent = Ok (true, out) → out = ent ++ g j) →
  visit_verified verify n node_map js entries = Ok (true, r) → r = entries ++ concat (g <$> js).
Proof.
  revert entries; induction js as [|j js IH]; intros entries Hv Hr; cbn [visit_verified] in Hr.
  { injection Hr as <-. by rewrite app_nil_r. }
  destruct (vals n !! j) as [c|] eqn:Hc; [|done]. cbn [mbind option_bind] in Hr.
  destruct (cid_from_child_bytes c) as [c'|] eqn:Hcc; [|done]. apply cid_from_child_Some in Hcc as [-> _].
  destruct (node_map !! c) as [child|]; [|done]. destruct (negb _); [done|].
  destruct (verify c entries) as [[[] out]| |] eqn:Hver; [|done..]. cbn [mbind outcome_bind fst snd] in Hr.
  apply IH in Hr as ->; [|intros i c' ent out' Hi; apply Hv; by right].
  rewrite (Hv j c entries out); [|by left|done|done]. cbn [fmap list_fmap concat]. by rewrite app_assoc.
Qed.

Lemma verify_sound fuel h stack cid es entries r :
  (∀ c n m, node_map !! c = Some n → stored_node st c m → n = m) →
  subtree st f h cid es → ascending es →
  verify_window_node fuel w node_map stack cid entries = Ok (true, r) → r = entries ++ inside w es.
Proof.
  intros Hmap. revert h stack cid es entries r; induction fuel as [|fuel IH]; intros h stack cid es entries r Hsub Hasc Hr; [done|].
  cbn [verify_window_node] in Hr. case_bool_decide; [done|]. destruct (node_map !! cid) as [n|] eqn:Hn; [|done].
  destruct (subtree_stored _ _ _ _ _ Hsub) as (m & Hm). pose proof (Hmap _ _ _ Hn Hm) as ->.
  destruct (subtree_at _ _ _ _ _ _ Hsub Hm) as (_ & _ & _ & Hes). destruct h as [|h].
  - destruct Hes as [Hleaf ->]. rewrite Hleaf in Hr. by injection Hr as <-.
  - destruct Hes as [Hleaf _]. rewrite Hleaf in Hr.
    destruct (children_ok h cid es m Hsub Hasc Hm) as (subs & js & Hjs & -> & Hin & _).
    rewrite Hjs in Hr. cbn [mbind outcome_bind] in Hr. apply (visit_sound _ _ (λ j, inside w (default [] (subs !! j)))) in Hr; [done|].
    intros j c ent out Hj Hc Hver. destruct (Hin j Hj) as (c' & sub & Hc' & Hsub' & Hcs & Hasc').
    rewrite Hc in Hc'. injection Hc' as <-. rewrite Hsub'. by eapply IH.
Qed.

Lemma visit_complete verify n js entries b r :
  (∀ j, j ∈ js → ∃ c m, vals n !! j = Some c ∧ cid_from_child_bytes c = Some c ∧ node_map !! c = Some m ∧
     (level n =? saturating_add u8_max (level m) 1) = true ∧ ∀ ent b out, verify c ent = Ok (b, out) → b = true) →
  visit_verified verify n node_map js entries = Ok (b, r) → b = true.
Proof.
  revert entries; induction js as [|j js IH]; intros entries Hv Hr; cbn [visit_verified] in Hr; [by injection Hr|].
  destruct (Hv j) as (c & m & Hc & Hcc & Hm & Hlev & Hb); [by left|]. rewrite Hc in Hr. cbn [mbind option_bind] in Hr.
  rewrite Hcc, Hm, Hlev in Hr. cbn [negb] in Hr. destruct (verify c entries) as [[b' out]| |] eqn:Hver; [|done..].
  pose proof (Hb _ _ _ Hver) as ->. cbn [mbind outcome_bind fst snd] in Hr.
  apply (IH out); [|done]. intros i Hi. apply Hv. by right.
Qed.

Lemma verify_complete fuel h stack cid es entries b r :
  (∀ c n m, node_map !! c = Some n → stored_node st c m → n = m) →
  (∀ c, needed cid c → is_Some (node_map !! c)) →
  (∀ c, c ∈ stack → ∃ m, stored_node st c m ∧ Z.of_nat h < level m) →
  subtree st f h cid es → ascending es → (h ≤ 255)%nat →
  verify_window_node fuel w node_map stack cid entries = Ok (b, r) → b = true.
Proof.
  intros Hmap. revert h stack cid es entries b r;
    induction fuel as [|fuel IH]; intros h stack cid es entries b r Hneed Hstack Hsub Hasc Hh Hr; [done|].
  cbn [verify_window_node] in Hr. destruct (subtree_stored _ _ _ _ _ Hsub) as (m & Hm).
  destruct (subtree_at _ _ _ _ _ _ Hsub Hm) as ((_ & Hlev & _) & _ & _ & Hes).
  rewrite bool_decide_eq_false_2 in Hr.
  2:{ intros Hin. destruct (Hstack cid Hin) as (m' & Hm' & Hlt). rewrite (stored_node_unique _ _ _ _ Hm' Hm) in Hlt. lia. }
  destruct (Hneed cid) as [n Hn]; [constructor|]. rewrite Hn in Hr. pose proof (Hmap _ _ _ Hn Hm) as ->.
  destruct h as [|h]; [destruct Hes as [Hleaf _]; rewrite Hleaf in Hr; by injection Hr|].
  destruct Hes as [Hleaf _]. rewrite Hleaf in Hr.
  destruct (children_ok h cid es m Hsub Hasc Hm) as (subs & js & Hjs & _ & Hin & cs & Hcs & Hincs).
  rewrite Hjs in Hr. cbn [mbind outcome_bind] in Hr. eapply visit_complete; [|exact Hr]. intros j Hj.
  destruct (Hin j Hj) as (c & sub & Hc & _ & Hcsub & Hcasc). destruct (subtree_stored _ _ _ _ _ Hcsub) as (cm & Hcm).
  assert (needed cid c) as Hneedc by (eapply needed_child; [constructor|exact Hm|done|exact Hcs|by eapply Hincs]).
  destruct (Hneed c Hneedc) as [cn Hcn]. pose proof (Hmap _ _ _ Hcn Hcm) as ->. exists c, cm.
  split; [done|]. split; [by eapply subtree_child_cid|]. split; [done|]. split; [by eapply subtree_level|].
  intros ent b' out Hver. apply (IH h ({[cid]} ∪ stack) c sub ent b' out); [|intros c'|done|done|lia|done].
  - intros c' Hc'. apply Hneed. by eapply needed_trans.
  - intros [->%elem_of_singleton|Hc']%elem_of_union; [exists m; split; [done|lia]|].
    destruct (Hstack c' Hc') as (m' & Hm' & Hlt). exists m'. split; [done|lia].
Qed.

(** Every call puts another of the given nodes on the stack. *)
Lemma verify_total fuel stack cid entries :
  (size (dom node_map ∖ stack) < fuel)%nat → ∃ r, verify_window_node fuel w node_map stack cid entries = Ok r.
Proof.
  revert stack cid entries; induction fuel as [|fuel IH]; intros stack cid entries Hsize; [lia|]. cbn [verify_window_node].
  case_bool_decide as Hin; [by eexists|]. destruct (node_map !! cid) as [n|] eqn:Hn; [|by eexists].
  destruct (leaf n); [by eexists|].
  destruct (overlapping_Ok w n (overlapping_child_index_range n (w_start w) (w_end w))) as (js & -> & _);
    [intros i; apply index_range_lt|]. cbn [mbind outcome_bind].
  assert (∀ c ent, ∃ r, verify_window_node fuel w node_map ({[cid]} ∪ stack) c ent = Ok r) as Hall.
  { intros c ent. apply IH. assert (cid ∈ dom node_map) by (apply elem_of_dom; by exists n).
    assert (size (dom node_map ∖ ({[cid]} ∪ stack)) < size (dom node_map ∖ stack))%nat; [|lia].
    apply subset_size. set_solver. }
  revert entries; induction js as [|j js IHj]; intros entries; cbn [visit_verified]; [by eexists|].
  destruct (vals n !! j ≫= cid_from_child_bytes) as [c|]; [|by eexists].
  destruct (node_map !! c) as [child|]; [|by eexists]. destruct (negb _); [by eexists|].
  destruct (Hall c entries) as ([[] out] & ->); cbn [mbind outcome_bind fst snd]; [apply IHj|by eexists].
Qed.
End verify.

(** ** The nodes of a proof *)
Section nodes.
Context `{HashesOk} (st : gmap bytes bytes) (f : TreeFormat).

Lemma node_map_in path acc m c n :
  collect_node_map path acc = Ok (Some m) → m !! c = Some n → (n ∈ path ∧ Node_cid n = Ok c) ∨ acc !! c = Some n.
Proof.
  revert acc; induction path as [|p path IH]; intros acc Hm Hc; cbn [collect_node_map] in Hm; [injection Hm as ->; by right|].
  destruct (negb _); [done|]. destruct (Node_cid p) as [pc| |] eqn:Hpc; [|done..]. cbn [mbind outcome_bind] in Hm.
  destruct (IH _ Hm Hc) as [[Hin Hcid]|Hins]; [left; split; [by right|done]|].
  apply lookup_insert_Some in Hins as [[-> ->]|[_ Hacc]]; [left; split; [by left|done]|by right].
Qed.

Lemma node_map_genuine path m c n n' :
  Forall (genuine st) path → collect_node_map path ∅ = Ok (Some m) → m !! c = Some n → stored_node st c n' → n = n'.
Proof.
  intros Hg Hm Hc Hn'. destruct (node_map_in _ _ _ _ _ Hm Hc) as [[Hin Hcid]|Hempty]; [|by rewrite lookup_empty in Hempty].
  eapply Forall_forall in Hg; [|exact Hin]. by apply (Hg c n').
Qed.

(** Nodes of the stored tree. *)
Definition of_tree (n : Node) : Prop := ∃ c h es, subtree st f h c es ∧ stored_node st c n.

Lemma of_tree_genuine path : Forall of_tree path → Forall (genuine st) path.
Proof. intros Hp. eapply Forall_impl; [exact Hp|]. intros n (c & h & es & _ & Hn). by eapply stored_genuine. Qed.

Lemma node_map_total path acc :
  Forall of_tree path → (∀ c n, acc !! c = Some n → stored_node st c n) →
  ∃ m, collect_node_map path acc = Ok (Some m) ∧
    ∀ c n, stored_node st c n → n ∈ path ∨ acc !! c = Some n → m !! c = Some n.
Proof.
  intros Hp. revert acc; induction Hp as [|p path (pc & h & es & Hsub & Hst) _ IH]; intros acc Hacc; cbn [collect_node_map].
  { exists acc. split; [done|]. intros c n _ [Hn|Hn]; [by apply not_elem_of_nil in Hn|done]. }
  rewrite (stored_shape _ _ _ _ _ _ Hsub Hst), (stored_cid _ _ _ Hst). cbn [negb mbind outcome_bind].
  destruct (IH (<[pc := p]> acc)) as (m & Hm & Hall).
  { intros c n [[-> ->]|[_ Hc]]%lookup_insert_Some; [done|by apply Hacc]. }
  exists m. split; [done|]. intros c n Hn [[->|Hin]%elem_of_cons|Hc]; apply Hall; try done.
  - right. apply lookup_insert_Some. left. split; [|done]. pose proof (stored_cid _ _ _ Hn) as Heq.
    rewrite (stored_cid _ _ _ Hst) in Heq. by injection Heq.
  - by left.
  - right. apply lookup_insert_Some. destruct (decide (pc = c)) as [->|]; [left|by right].
    split; [done|]. by eapply stored_node_unique.
Qed.
End nodes.

(** ** Collection *)
Section collect.
Context `{HashesOk} (st : gmap bytes bytes) (f : TreeFormat) (w : Window) (Hw : window_ok w) {St : Type} `{StoreOk St}.

(** What is on the stack and what was seen, for the nodes collected so far. *)
Record collecting (root : Cid) (stack : list Cid) (seen : gset Cid) (path : list Node) : Prop := {
  co_stack c : c ∈ stack → ∃ h es, subtree st f h c es ∧ ascending es;
  co_seen c : c ∈ seen → ∃ n, stored_node st c n ∧ n ∈ path ∧
    ∀ cs c', leaf n = false → child_cids w n = Ok cs → c' ∈ cs → c' ∈ seen ∨ c' ∈ stack;
  co_path : Forall (of_tree st f) path;
  co_root : root ∈ seen ∨ root ∈ stack;
}.

Lemma collected_all root seen path c :
  collecting root [] seen path → needed st w root c → ∃ n, stored_node st c n ∧ n ∈ path.
Proof.
  intros [_ Hseen _ Hroot] Hc. assert (c ∈ seen) as Hin.
  { induction Hc as [|c n cs c' _ IH Hn Hleaf Hcs Hc']; [by destruct Hroot as [|?%not_elem_of_nil]|].
    destruct (Hseen c IH) as (n' & Hn' & _ & Hnext). rewrite (stored_node_unique _ _ _ _ Hn' Hn) in Hnext.
    by destruct (Hnext cs c' Hleaf Hcs Hc') as [|?%not_elem_of_nil]. }
  destruct (Hseen c Hin) as (n & Hn & Hp & _). by exists n.
Qed.

Lemma collecting_skip root c stack seen path :
  c ∈ seen → collecting root (c :: stack) seen path → collecting root stack seen path.
Proof.
  intros Hc [Hstack Hseen Hpath Hroot]. constructor; [intros c' Hc'; apply Hstack; by right| |done|].
  - intros c' (n & Hn & Hp & Hnext)%Hseen. exists n. split; [done|]. split; [done|]. intros cs c'' Hl Hcs Hc''.
    destruct (Hnext cs c'' Hl Hcs Hc'') as [|[->|]%elem_of_cons]; tauto.
  - destruct Hroot as [|[->|]%elem_of_cons]; tauto.
Qed.

(** The node of [c], whose children that matter come on the stack. *)
Lemma collecting_step root c stack seen path h es n children :
  subtree st f h c es → ascending es → stored_node st c n →
  (if leaf n then children = [] else child_cids w n = Ok children) →
  (∀ c', c' ∈ children → ∃ h es, subtree st f h c' es ∧ ascending es) →
  collecting root (c :: stack) seen path → collecting root (children ++ stack) ({[c]} ∪ seen) (path ++ [n]).
Proof.
  intros Hsub Hasc Hn Hch Hchs [Hstack Hseen Hpath Hroot]. constructor.
  - intros c' [Hc'|Hc']%elem_of_app; [by apply Hchs|apply Hstack; by right].
  - intros c' [->%elem_of_singleton|Hc']%elem_of_union.
    + exists n. split; [done|]. split; [apply elem_of_app; right; by apply list_elem_of_singleton|].
      intros cs c'' Hleaf Hcs Hc''. rewrite Hleaf in Hch. rewrite Hch in Hcs. injection Hcs as ->.
      right. apply elem_of_app. by left.
    + destruct (Hseen c' Hc') as (n' & Hn' & Hp & Hnext). exists n'. split; [done|].
      split; [apply elem_of_app; by left|]. intros cs c'' Hl Hcs Hc''.
      destruct (Hnext cs c'' Hl Hcs Hc'') as [|[->|]%elem_of_cons]; [set_solver..|].
      right. apply elem_of_app. by right.
  - apply Forall_app. split; [done|]. constructor; [by exists c, h, es|done].
  - destruct Hroot as [|[->|]%elem_of_cons]; [set_solver..|]. right. apply elem_of_app. by right.
Qed.

Lemma child_subtrees h c es n cs c' :
  subtree st f (S h) c es → ascending es → stored_node st c n → child_cids w n = Ok cs → c' ∈ cs →
  ∃ sub, subtree st f h c' sub ∧ ascending sub.
Proof.
  intros Hsub Hasc Hn Hcs Hc'. destruct (children_ok st f w Hw h c es n Hsub Hasc Hn) as (subs & js & Hjs & _ & Hin & _).
  unfold child_cids in Hcs. rewrite Hjs in Hcs. cbn [mbind outcome_bind] in Hcs. clear Hjs. revert cs Hcs Hc'.
  induction js as [|j js IH]; intros cs Hcs Hc'; cbn [mapM] in Hcs; [injection Hcs as <-; by apply not_elem_of_nil in Hc'|].
  destruct (Hin j) as (cj & sub & Hj & _ & Hcj & Hascj); [by left|]. rewrite Hj in Hcs. cbn [ok_or mbind outcome_bind] in Hcs.
  rewrite (subtree_child_cid _ _ _ _ _ Hcj) in Hcs. cbn [ok_or mbind outcome_bind] in Hcs.
  destruct (mapM _ js) as [cs'| |] eqn:Hcs'; [|done..]. injection Hcs as <-.
  apply elem_of_cons in Hc' as [->|Hc']; [by exists sub|]. apply (IH (λ i Hi, Hin i (list_elem_of_further _ _ _ Hi)) cs'); done.
Qed.

Definition collects (root : Cid) (stack : list Cid) (seen : gset Cid) (path : list Node) (e : ProllyEngine St) : Prop :=
  ∃ bound path' e', engine_manages f st e' ∧ (∃ seen', collecting root [] seen' path') ∧
    ∀ fuel, (bound ≤ fuel)%nat → collect_window_nodes fuel w stack seen path e = (Ok path', e').

Lemma collect_window_ok root u stack seen path (e : ProllyEngine St) :
  (size (dom st ∖ seen) < u)%nat → engine_manages f st e → collecting root stack seen path → collects root stack seen path e.
Proof.
  revert stack seen path e; induction u as [|u IHu]; intros stack seen path e Hu He Hco; [lia|].
  revert path e He Hco; induction stack as [|c stack IHs]; intros path e He Hco.
  { exists 1%nat, path, e. split; [done|]. split; [by exists seen|]. intros [|fuel] Hfuel; [lia|done]. }
  destruct (decide (c ∈ seen)) as [Hin|Hout].
  { destruct (IHs path e He (collecting_skip _ _ _ _ _ Hin Hco)) as (b & path' & e' & He' & Hdone & Hrun).
    exists (S b), path', e'. split; [done|]. split; [done|]. intros [|fuel] Hfuel; [lia|]. cbn [collect_window_nodes].
    rewrite bool_decide_eq_true_2 by done. apply Hrun. lia. }
  destruct (co_stack _ _ _ _ Hco c) as (h & es & Hsub & Hasc); [by left|].
  destruct (subtree_stored _ _ _ _ _ Hsub) as (n & Hn). destruct (subtree_at _ _ _ _ _ _ Hsub Hn) as ((Hf & _) & _ & _ & Hes).
  destruct (load_arc_ok st f c n e He Hn Hf) as (e1 & Hload & He1).
  assert (∃ children, (if leaf n then children = [] else child_cids w n = Ok children) ∧
    ∀ c', c' ∈ children → ∃ h es, subtree st f h c' es ∧ ascending es) as (children & Hch & Hchs).
  { destruct h as [|h]; destruct Hes as [-> _]; [exists []; split; [done|by intros c' ?%not_elem_of_nil]|].
    destruct (children_ok st f w Hw h c es n Hsub Hasc Hn) as (_ & _ & _ & _ & _ & cs & Hcs & _).
    exists cs. split; [done|]. intros c' Hc'. exists h. by apply (child_subtrees h c es n cs). }
  destruct (IHu (children ++ stack) ({[c]} ∪ seen) (path ++ [n]) e1) as (b & path' & e' & He' & Hdone & Hrun).
  - assert (c ∈ dom st) by (destruct Hn as (d & Hd & _); by apply elem_of_dom_2 in Hd).
    assert (size (dom st ∖ ({[c]} ∪ seen)) < size (dom st ∖ seen))%nat; [|lia]. apply subset_size. set_solver.
  - done.
  - by apply (collecting_step root c stack seen path h es).
  - exists (S b), path', e'. split; [done|]. split; [done|]. intros [|fuel] Hfuel; [lia|]. cbn [collect_window_nodes].
    rewrite bool_decide_eq_false_2 by done. rewrite (action_bind_Ok _ _ _ _ _ Hload). destruct (leaf n).
    + subst children. apply Hrun. lia.
    + rewrite (action_bind_Ok (run _) _ e1 children e1) by (unfold run; by rewrite Hch). apply Hrun. lia.
Qed.
End collect.

End WindowSpec.
