(* ===== verification/ProofTheorems.v ===== *)
(** * What verified proofs establish

    The contract of the proofs of src/prolly/proof.rs: soundness of verified lookups,
    ranges, pages and pages of differences against the trees a store holds, and that
    the proofs the engine makes verify. *)

From Stdlib Require Import ZArith Lia Strings.Byte.
From stdpp Require Import base tactics numbers list strings option gmap sorting.
From S2P Require Import Prelude Cursor Types Format Node ReadNode Store NodeCache Emitter Builder Entries TreeSpec Engine EngineSpec BuiltTree Write WriteSpec Loader LoaderSpec Key Proof ProofSpec WindowSpec.
Import Format Node ReadNode Store NodeCache Builder Entries TreeSpec Engine EngineSpec BuiltTree Write Loader LoaderSpec Proof ProofSpec WindowSpec.

Local Open Scope Z_scope.

Module ProofTheorems.

(** ** Windows of ordered entries *)
Lemma final_map_cons (k v : bytes) l x :
  ascending ((k, v) :: l) → final_map ((k, v) :: l) !! x = if decide (x = k) then Some v else final_map l !! x.
Proof.
  intros Hasc. case_decide as Hx.
  - subst x. apply final_map_elem; [done|by left].
  - unfold final_map. rewrite put_all_cons. cbn [fst snd]. apply put_all_local. by rewrite lookup_insert_ne.
Qed.

Lemma ascending_tail (k v : bytes) l :
  ascending ((k, v) :: l) → ascending l ∧ ∀ x, x ∈ fst <$> l → (k < x)%key.
Proof.
  unfold ascending. cbn [fmap list_fmap fst]. intros [Hs Hall]%StronglySorted_inv. split; [done|].
  by apply Forall_forall.
Qed.

Lemma final_map_none (l : list kv) x : (∀ y, y ∈ fst <$> l → (x < y)%key) → final_map l !! x = None.
Proof. intros Hl. apply final_map_miss. intros Hx%Hl. by apply blt_irrefl in Hx. Qed.

Lemma inside_ascending w es : ascending es → ascending (inside w es).
Proof.
  induction es as [|[k v] es IH]; [done|]. intros [Hasc Hlt]%ascending_tail. unfold inside in *. cbn [List.filter fst].
  destruct (w_in w k); [|by apply IH]. unfold ascending. cbn [fmap list_fmap fst]. constructor; [by apply IH|].
  apply Forall_forall. intros x Hx. apply Hlt. apply list_elem_of_fmap in Hx as (e & -> & He).
  apply list_elem_of_fmap. exists e. split; [done|]. apply list_elem_of_In, filter_In in He as [He _]. by apply list_elem_of_In.
Qed.

Lemma inside_lookup w es k :
  ascending es → final_map (inside w es) !! k = if w_in w k then final_map es !! k else None.
Proof.
  induction es as [|[k' v] es IH]; [by destruct (w_in w k)|]. intros Hasc. rewrite final_map_cons by done.
  pose proof (ascending_tail _ _ _ Hasc) as [Hasc' _]. pose proof (inside_ascending w _ Hasc) as Hin.
  change (inside w ((k', v) :: es)) with (if w_in w k' then (k', v) :: inside w es else inside w es) in Hin |- *.
  destruct (w_in w k') eqn:Hk'.
  - rewrite final_map_cons by done. rewrite (IH Hasc'). case_decide; [subst; by rewrite Hk'|done].
  - rewrite (IH Hasc'). case_decide; [subst; by rewrite Hk'|done].
Qed.

Lemma inside_empty w es : (∀ k, w_in w k = false) → inside w es = [].
Proof. intros Hw. apply inside_none. intros k _. apply Hw. Qed.

Lemma range_empty start end_ k : range_is_empty_by_bounds start end_ = true → key_in_range k start end_ = false.
Proof.
  unfold range_is_empty_by_bounds, ends_before_or_at, key_in_range, before_end. destruct end_ as [e|]; [|done].
  rewrite bleb_le. intros He. apply andb_false_iff. destruct (bleb start k) eqn:Hk; [right|by left].
  apply bleb_le in Hk. apply bltb_ge. by eapply ble_trans.
Qed.

Lemma page_empty after end_ k : page_range_is_empty_by_bounds after end_ = true → key_in_page_range k after end_ = false.
Proof.
  unfold page_range_is_empty_by_bounds, key_in_page_range, before_end. destruct after as [a|], end_ as [e|]; try done.
  - rewrite bleb_le. intros He. apply andb_false_iff. destruct (bltb a k) eqn:Hk; [right|by left].
    apply bltb_lt in Hk. apply bltb_ge. eapply ble_trans; [exact He|by apply blt_le].
  - rewrite bool_decide_eq_true. intros ->. cbn [andb]. apply bltb_ge. apply (ble_prefix [] k).
Qed.

Section sound.
Context `{HashesOk} (st : gmap bytes bytes).
Abbreviation fmt tree := (Config.format (t_config tree)).

(** The verdict on a tree's window. *)
Lemma window_sound w tree h es root path m r :
  window_ok w → tree_holds st tree h es → t_root tree = Some root → Forall (genuine st) path →
  collect_node_map path ∅ = Ok (Some m) →
  verify_window_node (S (size m)) w m ∅ root [] = Ok (true, r) → r = inside w es.
Proof.
  unfold tree_holds. intros Hw Hh Hroot Hg Hm Hr. rewrite Hroot in Hh. destruct Hh as [Hsub Hasc].
  eapply (verify_sound st (fmt tree) w Hw m) in Hr; [done| |exact Hsub|done].
  intros c n n'. by apply (node_map_genuine st path).
Qed.

Lemma range_sound tree h es proof v :
  tree_holds st tree h es → rp_root proof = t_root tree → Forall (genuine st) (rp_path proof) →
  verify_range_proof proof = Ok v → rv_valid v = true →
  rv_entries v = inside (range_window (rp_start proof) (rp_end proof)) es.
Proof.
  intros Hh Hroot Hg Hv Hvalid. unfold verify_range_proof in Hv.
  destruct (range_is_empty_by_bounds _ _) eqn:Hempty.
  { injection Hv as <-. symmetry. apply inside_empty. intros k. by apply range_empty. }
  unfold range_proof_node_map in Hv. destruct (collect_node_map _ _) as [[m|]| |] eqn:Hm; [|by injection Hv as <-|done..].
  cbn [mbind outcome_bind] in Hv. destruct (rp_root proof) as [root|] eqn:Hr.
  - destruct (verify_range_node _ _ _ _) as [[[] out]| |] eqn:Hout; [|by injection Hv as <-|done..].
    injection Hv as <-. cbn [rv_entries fst snd]. by eapply window_sound; [apply range_window_ok|..].
  - cbn [mbind outcome_bind fst snd] in Hv. injection Hv as <-. unfold tree_holds in Hh. rewrite <- Hroot in Hh. subst es.
    cbn [rv_entries]. by destruct (bool_decide _).
Qed.

Lemma page_sound tree h es proof v :
  tree_holds st tree h es → pp_root proof = t_root tree → Forall (genuine st) (pp_path proof) →
  verify_range_page_proof proof = Ok v → pv_valid v = true →
  pv_entries v = inside (page_window (pp_after proof) (pp_end proof)) es.
Proof.
  intros Hh Hroot Hg Hv Hvalid. unfold verify_range_page_proof in Hv.
  destruct (page_range_is_empty_by_bounds _ _) eqn:Hempty.
  { injection Hv as <-. symmetry. apply inside_empty. intros k. by apply page_empty. }
  unfold range_page_proof_node_map in Hv. destruct (collect_node_map _ _) as [[m|]| |] eqn:Hm; [|by injection Hv as <-|done..].
  cbn [mbind outcome_bind] in Hv. destruct (pp_root proof) as [root|] eqn:Hr.
  - destruct (verify_range_page_node _ _ _ _) as [[[] out]| |] eqn:Hout; [|by injection Hv as <-|done..].
    injection Hv as <-. cbn [pv_entries fst snd]. by eapply window_sound; [apply page_window_ok|..].
  - cbn [mbind outcome_bind fst snd] in Hv. injection Hv as <-. unfold tree_holds in Hh. rewrite <- Hroot in Hh. subst es.
    cbn [pv_entries]. by destruct (bool_decide _).
Qed.
End sound.

(** ** What the engine collects *)
Section complete.
Context `{HashesOk} (st : gmap bytes bytes) {St : Type} `{StoreOk St}.
Abbreviation fmt tree := (Config.format (t_config tree)).

Lemma window_complete w tree h es root seen path :
  window_ok w → tree_holds st tree h es → (h ≤ 255)%nat → t_root tree = Some root →
  collecting st (fmt tree) w root [] seen path →
  ∃ m, collect_node_map path ∅ = Ok (Some m) ∧ verify_window_node (S (size m)) w m ∅ root [] = Ok (true, inside w es).
Proof.
  unfold tree_holds. intros Hw Hh Hle Hroot Hco. rewrite Hroot in Hh. destruct Hh as [Hsub Hasc].
  pose proof (co_path _ _ _ _ _ _ _ Hco) as Htree.
  destruct (node_map_total st (fmt tree) path ∅ Htree) as (m & Hm & Hin); [by intros c n ?%lookup_empty_Some|].
  exists m. split; [done|].
  assert (∀ c n n', m !! c = Some n → stored_node st c n' → n = n') as Hmap.
  { intros c n n'. apply (node_map_genuine st path); [by apply (of_tree_genuine st (fmt tree))|done]. }
  destruct (verify_total w Hw m (S (size m)) ∅ root []) as ([b r] & Hr).
  { rewrite difference_empty_L, size_dom. lia. }
  assert (b = true) as ->.
  { eapply (verify_complete st (fmt tree) w Hw m); [exact Hmap| | |exact Hsub|done|done|exact Hr].
    - intros c Hc. destruct (collected_all st (fmt tree) w root seen path c Hco Hc) as (n & Hn & Hp).
      exists n. apply Hin; [done|by left].
    - intros c Hc. by apply not_elem_of_empty in Hc. }
  rewrite Hr. by rewrite (verify_sound st (fmt tree) w Hw m _ h ∅ root es [] r Hmap Hsub Hasc Hr).
Qed.

(** The traversal that collects a window's nodes ends, with enough of them. *)
Lemma collect_window w tree h es root (e : ProllyEngine St) :
  window_ok w → tree_holds st tree h es → t_root tree = Some root → engine_manages (fmt tree) st e →
  ∃ bound path e' seen, engine_manages (fmt tree) st e' ∧ collecting st (fmt tree) w root [] seen path ∧
    ∀ fuel, (bound ≤ fuel)%nat → collect_window_nodes fuel w [root] ∅ [] e = (Ok path, e').
Proof.
  unfold tree_holds. intros Hw Hh Hroot He. rewrite Hroot in Hh. destruct Hh as [Hsub Hasc].
  destruct (collect_window_ok st (fmt tree) w Hw root (S (size (dom st))) [root] ∅ [] e) as (b & path & e' & He' & (seen & Hco) & Hrun).
  - rewrite difference_empty_L. lia.
  - done.
  - constructor; [|by intros c ?%not_elem_of_empty|done|right; by left].
    intros c ->%list_elem_of_singleton. by exists h, es.
  - by exists b, path, e', seen.
Qed.

Lemma prove_range_ok tree h es start end_ (e : ProllyEngine St) :
  engine_manages (fmt tree) st e → tree_holds st tree h es → (h ≤ 255)%nat →
  ∃ bound proof e' v, (∀ fuel, (bound ≤ fuel)%nat → prove_range fuel tree start end_ e = (Ok proof, e')) ∧
    engine_manages (fmt tree) st e' ∧ rp_root proof = t_root tree ∧
    verify_range_proof proof = Ok v ∧ rv_valid v = true ∧ rv_entries v = inside (range_window start end_) es.
Proof.
  intros He Hh Hle. unfold prove_range. destruct (t_root tree) as [root|] eqn:Hroot.
  2:{ eexists 0%nat, _, e, _. split; [done|]. split; [done|]. split; [done|]. unfold verify_range_proof. cbn [rp_start rp_end rp_path rp_root].
      unfold tree_holds in Hh. rewrite Hroot in Hh. subst es. destruct (range_is_empty_by_bounds start end_); by repeat split. }
  destruct (range_is_empty_by_bounds start end_) eqn:Hempty.
  { eexists 0%nat, _, e, _. split; [done|]. split; [done|]. split; [done|]. unfold verify_range_proof.
    cbn [rp_start rp_end rp_path rp_root]. rewrite Hempty. split; [done|]. split; [done|]. symmetry. apply inside_empty. intros k. by apply range_empty. }
  destruct (collect_window (range_window start end_) tree h es root e (range_window_ok _ _) Hh Hroot He)
    as (b & path & e' & seen & He' & Hco & Hrun).
  destruct (window_complete _ tree h es root seen path (range_window_ok start end_) Hh Hle Hroot Hco) as (m & Hm & Hver).
  eexists b, _, e', _. split.
  { intros fuel Hfuel. unfold collect_range_proof_nodes. rewrite (action_bind_Ok _ _ _ _ _ (Hrun fuel Hfuel)). done. }
  split; [done|]. split; [done|]. unfold verify_range_proof, range_proof_node_map, verify_range_node.
  cbn [rp_start rp_end rp_path rp_root]. rewrite Hempty, Hm. cbn [mbind outcome_bind]. rewrite Hver. done.
Qed.

Lemma prove_page_ok tree h es after end_ (e : ProllyEngine St) :
  engine_manages (fmt tree) st e → tree_holds st tree h es → (h ≤ 255)%nat →
  ∃ bound proof e' v, (∀ fuel, (bound ≤ fuel)%nat → prove_range_page_window fuel tree after end_ e = (Ok proof, e')) ∧
    engine_manages (fmt tree) st e' ∧ pp_root proof = t_root tree ∧
    verify_range_page_proof proof = Ok v ∧ pv_valid v = true ∧ pv_entries v = inside (page_window after end_) es.
Proof.
  intros He Hh Hle. unfold prove_range_page_window. destruct (t_root tree) as [root|] eqn:Hroot.
  2:{ eexists 0%nat, _, e, _. split; [done|]. split; [done|]. split; [done|]. unfold verify_range_page_proof. cbn [pp_after pp_end pp_path pp_root].
      unfold tree_holds in Hh. rewrite Hroot in Hh. subst es. destruct (page_range_is_empty_by_bounds after end_); by repeat split. }
  destruct (page_range_is_empty_by_bounds after end_) eqn:Hempty.
  { eexists 0%nat, _, e, _. split; [done|]. split; [done|]. split; [done|]. unfold verify_range_page_proof.
    cbn [pp_after pp_end pp_path pp_root]. rewrite Hempty. split; [done|]. split; [done|]. symmetry. apply inside_empty. intros k. by apply page_empty. }
  destruct (collect_window (page_window after end_) tree h es root e (page_window_ok _ _) Hh Hroot He)
    as (b & path & e' & seen & He' & Hco & Hrun).
  destruct (window_complete _ tree h es root seen path (page_window_ok after end_) Hh Hle Hroot Hco) as (m & Hm & Hver).
  eexists b, _, e', _. split.
  { intros fuel Hfuel. unfold collect_range_page_proof_nodes. rewrite (action_bind_Ok _ _ _ _ _ (Hrun fuel Hfuel)). done. }
  split; [done|]. split; [done|]. unfold verify_range_page_proof, range_page_proof_node_map, verify_range_page_node.
  cbn [pp_after pp_end pp_path pp_root]. rewrite Hempty, Hm. cbn [mbind outcome_bind]. rewrite Hver. done.
Qed.
End complete.

(** ** Several keys *)
Section many.
Context `{HashesOk} (st : gmap bytes bytes) (f : TreeFormat) (m : gmap Cid Node).
Context (Hmap : ∀ c n n', m !! c = Some n → stored_node st c n' → n = n').

Lemma value_sound rounds h cid visited key es v :
  subtree st f h cid es → ascending es → value_from_node_set rounds cid visited key m = Some v → v = final_map es !! key.
Proof.
  revert h cid visited es; induction rounds as [|rounds IH]; intros h cid visited es Hsub Hasc Hv; [done|].
  cbn [value_from_node_set] in Hv. case_bool_decide; [done|]. destruct (m !! cid) as [n|] eqn:Hn; [|done].
  cbn [mbind option_bind] in Hv. destruct (subtree_stored _ _ _ _ _ Hsub) as (n' & Hn'). pose proof (Hmap _ _ _ Hn Hn') as ->.
  destruct (subtree_at _ _ _ _ _ _ Hsub Hn') as (_ & Hs & Hl & Hes). destruct h as [|h].
  - destruct Hes as [Hleaf ->]. rewrite Hleaf in Hv. injection Hv as <-. by apply leaf_value.
  - destruct Hes as (Hleaf & subs & Hsubs & Hst & ->). rewrite Hleaf in Hv.
    destruct (vals n' !! path_child_index n' key) as [c|] eqn:Hc; [|done]. cbn [mbind option_bind] in Hv.
    destruct (cid_from_child_bytes c) as [c'|] eqn:Hcc; [|done]. apply cid_from_child_Some in Hcc as [-> _].
    cbn [mbind option_bind] in Hv. destruct (m !! c); [|done]. cbn [mbind option_bind] in Hv. destruct (negb _); [done|].
    destruct (key_child st f h n' subs key c Hsubs Hst Hs Hasc Hc) as (sub & Hcs & Hasc' & ->). by eapply IH.
Qed.

Lemma value_complete rounds h cid visited key es :
  subtree st f h cid es → (h ≤ 255)%nat → (∀ c, on_path st key cid c → is_Some (m !! c)) →
  (∀ c, c ∈ visited → c ∈ dom m ∧ ∃ n, stored_node st c n ∧ Z.of_nat h < level n) →
  (rounds + size visited = S (size m))%nat → is_Some (value_from_node_set rounds cid visited key m).
Proof.
  revert h cid visited es; induction rounds as [|rounds IH]; intros h cid visited es Hsub Hh Hon Hvis Hsize.
  { assert (size visited ≤ size (dom m))%nat; [|rewrite size_dom in *; cbn in Hsize; lia].
    apply subseteq_size. intros c Hc. by apply Hvis. }
  cbn [value_from_node_set]. destruct (subtree_stored _ _ _ _ _ Hsub) as (n & Hn).
  destruct (subtree_at _ _ _ _ _ _ Hsub Hn) as ((_ & Hlev & Hne) & Hs & Hl & Hes).
  assert (cid ∉ visited) as Hfresh.
  { intros Hc. destruct (Hvis cid Hc) as (_ & n' & Hn' & Hlt). rewrite (stored_node_unique _ _ _ _ Hn' Hn) in Hlt. lia. }
  rewrite bool_decide_eq_false_2 by done. destruct (Hon cid) as [n' Hn']; [constructor|]. rewrite Hn'. cbn [mbind option_bind].
  pose proof (Hmap _ _ _ Hn' Hn) as ->. destruct h as [|h]; [destruct Hes as [-> _]; by eexists|].
  destruct Hes as (Hleaf & subs & Hsubs & Hst & _). rewrite Hleaf.
  destruct (path_child_exists n key Hne Hl) as (c & Hc). rewrite Hc. cbn [mbind option_bind].
  destruct (Forall2_lookup_l _ _ _ _ _ Hsubs Hc) as (sub & _ & Hcs). rewrite (subtree_child_cid _ _ _ _ _ Hcs).
  cbn [mbind option_bind]. assert (on_path st key cid c) as Honc by (eapply on_path_child; [constructor|exact Hn|done|done]).
  destruct (Hon c Honc) as [cn Hcn]. rewrite Hcn. cbn [mbind option_bind].
  destruct (subtree_stored _ _ _ _ _ Hcs) as (cn' & Hcn'). pose proof (Hmap _ _ _ Hcn Hcn') as ->.
  rewrite (subtree_level st f h (S h) c sub n cn') by done. cbn [negb]. apply (IH h c _ sub); [done|lia| | |].
  - intros c' Hc'. apply Hon. clear -Hc' Honc. induction Hc'; [done|]. by eapply on_path_child.
  - intros c' [->%elem_of_singleton|Hc']%elem_of_union.
    + split; [apply elem_of_dom; by exists n|]. exists n. split; [done|lia].
    + destruct (Hvis c' Hc') as (Hd & n' & ? & Hlt). split; [done|]. exists n'. split; [done|lia].
  - rewrite size_union by set_solver. rewrite size_singleton. lia.
Qed.
End many.

Section multi.
Context `{HashesOk} (st : gmap bytes bytes).
Abbreviation fmt tree := (Config.format (t_config tree)).

Lemma multi_sound tree h es proof v :
  tree_holds st tree h es → mp_root proof = t_root tree → Forall (genuine st) (mp_path proof) →
  verify_multi_key_proof proof = Ok v →
  Forall (λ r, kv_valid r = true → kv_value r = final_map es !! kv_key r) (mv_results v) ∧
  kv_key <$> mv_results v = mp_keys proof.
Proof.
  intros Hh Hroot Hg Hv. unfold verify_multi_key_proof, proof_node_map in Hv.
  destruct (collect_node_map _ _) as [nm| |] eqn:Hm; [|done..]. cbn [mbind outcome_bind] in Hv. injection Hv as <-.
  assert (∀ ks b, (b = true → es = []) →
    Forall (λ r, kv_valid r = true → kv_value r = final_map es !! kv_key r) (key_result proof b None <$> ks) ∧
    kv_key <$> (key_result proof b None <$> ks) = ks) as Hnone.
  { intros ks b Hb. split; [|rewrite <- list_fmap_compose; by apply list_fmap_id].
    apply Forall_fmap, Forall_forall. intros k _ Hk. cbn in Hk |- *. by rewrite (Hb Hk). }
  destruct nm as [m|]; [|by apply Hnone]. unfold tree_holds in Hh. rewrite <- Hroot in Hh. destruct (mp_root proof) as [root|].
  2:{ apply Hnone. by intros _. }
  destruct Hh as [Hsub Hasc]. case_bool_decide as Hks; [cbn [mv_results]; split; [constructor|by rewrite Hks]|].
  cbn [mv_results]. rewrite <- !list_fmap_compose. split.
  - apply Forall_fmap, Forall_forall. intros k _. unfold compose. cbn [fst snd].
    destruct (verified_value_from_node_set root k m) as [v|] eqn:Hv; [|done]. intros _. cbn [key_result kv_value kv_key].
    eapply (value_sound st (fmt tree) m); [|exact Hsub|done|exact Hv].
    intros c n n'. by apply (node_map_genuine st (mp_path proof)).
  - erewrite list_fmap_ext; [apply list_fmap_id|]. intros i k _. unfold compose. cbn [fst snd]. by destruct (verified_value_from_node_set root k m).
Qed.

Context {St : Type} `{StoreOk St}.

Lemma add_unseen_ok f nodes seen path :
  Forall (of_tree st f) nodes → Forall (of_tree st f) path →
  (∀ c, c ∈ seen → ∃ n, n ∈ path ∧ stored_node st c n) →
  ∃ seen' path', add_unseen nodes seen path = Ok (seen', path') ∧ Forall (of_tree st f) path' ∧
    (∀ c, c ∈ seen' → ∃ n, n ∈ path' ∧ stored_node st c n) ∧ (∀ n, n ∈ nodes ∨ n ∈ path → n ∈ path').
Proof.
  intros Hnodes. revert seen path; induction Hnodes as [|n nodes (c & h & es & Hsub & Hn) _ IH]; intros seen path Hpath Hseen.
  { exists seen, path. split; [done|]. split; [done|]. split; [done|]. by intros n [?%not_elem_of_nil|]. }
  cbn [add_unseen]. rewrite (stored_cid _ _ _ Hn). cbn [mbind outcome_bind]. case_bool_decide as Hc.
  - destruct (IH seen path Hpath Hseen) as (seen' & path' & Hrun & Hp' & Hs' & Hall). exists seen', path'.
    split; [done|]. split; [done|]. split; [done|]. intros n' [[->|Hn']%elem_of_cons|Hn']; [|apply Hall; by left|apply Hall; by right].
    destruct (Hseen c Hc) as (n' & Hin & Hn'). rewrite (stored_node_unique _ _ _ _ Hn Hn'). apply Hall. by right.
  - destruct (IH ({[c]} ∪ seen) (path ++ [n])) as (seen' & path' & Hrun & Hp' & Hs' & Hall).
    + apply Forall_app. split; [done|]. constructor; [by exists c, h, es|done].
    + intros c' [->%elem_of_singleton|Hc']%elem_of_union.
      * exists n. split; [apply elem_of_app; right; by apply list_elem_of_singleton|done].
      * destruct (Hseen c' Hc') as (n' & Hin & ?). exists n'. split; [apply elem_of_app; by left|done].
    + exists seen', path'. split; [done|]. split; [done|]. split; [done|].
      intros n' [[->|Hn']%elem_of_cons|Hn']; apply Hall; [right; apply elem_of_app; right; by apply list_elem_of_singleton|by left|].
      right. apply elem_of_app. by left.
Qed.

Lemma prove_each_ok tree h es root fuel ks seen path (e : ProllyEngine St) :
  engine_manages (fmt tree) st e → tree_holds st tree h es → t_root tree = Some root → (h < fuel)%nat → (h ≤ 255)%nat →
  Forall (of_tree st (fmt tree)) path → (∀ c, c ∈ seen → ∃ n, n ∈ path ∧ stored_node st c n) →
  ∃ path' e', prove_each fuel tree ks seen path e = (Ok path', e') ∧ engine_manages (fmt tree) st e' ∧
    Forall (of_tree st (fmt tree)) path' ∧ (∀ n, n ∈ path → n ∈ path') ∧ ∀ key, key ∈ ks → stores_path st key root path'.
Proof.
  intros He Hh Hroot Hfuel Hle. revert seen path e He; induction ks as [|key ks IH]; intros seen path e He Hpath Hseen.
  { exists path, e. split; [done|]. split; [done|]. split; [done|]. split; [done|]. by intros key ?%not_elem_of_nil. }
  cbn [prove_each]. destruct (prove_key_ok st (fmt tree) tree h es fuel key e He Hh eq_refl Hfuel Hle)
    as (proof & e1 & Hrun & He1 & _ & _ & Hof & Hon & _). rewrite (action_bind_Ok _ _ _ _ _ Hrun).
  destruct (add_unseen_ok (fmt tree) (kp_path proof) seen path Hof Hpath Hseen) as (seen' & path1 & Hadd & Hp1 & Hs1 & Hall1).
  rewrite (action_bind_Ok (run _) _ e1 (seen', path1) e1) by (unfold run; by rewrite Hadd).
  destruct (IH seen' path1 e1 He1 Hp1 Hs1) as (path' & e2 & Hrun2 & He2 & Hp' & Hsub & Hks).
  exists path', e2. split; [done|]. split; [done|]. split; [done|]. split; [intros n Hn; apply Hsub, Hall1; by right|].
  intros key' [->|Hk]%elem_of_cons; [|by apply Hks]. intros c Hc. destruct (Hon root Hroot c Hc) as (n & Hn & Hst).
  exists n. split; [apply Hsub, Hall1; by left|done].
Qed.

Lemma prove_keys_ok tree h es fuel ks (e : ProllyEngine St) :
  engine_manages (fmt tree) st e → tree_holds st tree h es → (h < fuel)%nat → (h ≤ 255)%nat →
  ∃ proof e' v, prove_keys fuel tree ks e = (Ok proof, e') ∧ engine_manages (fmt tree) st e' ∧
    mp_root proof = t_root tree ∧ mp_keys proof = ks ∧ verify_multi_key_proof proof = Ok v ∧
    mv_valid v = true ∧ mv_results v = (λ k, {| kv_valid := true; kv_root := t_root tree; kv_key := k;
                                                kv_value := final_map es !! k |}) <$> ks.
Proof.
  intros He Hh Hfuel Hle. unfold prove_keys. destruct (t_root tree) as [root|] eqn:Hroot.
  2:{ eexists _, e, _. split; [done|]. split; [done|]. split; [done|]. split; [done|]. split; [done|]. cbn.
      unfold tree_holds in Hh. rewrite Hroot in Hh. subst es. split; [done|]. apply list_fmap_ext. intros i k _. done. }
  case_bool_decide as Hks.
  { subst ks. eexists _, e, _. split; [done|]. split; [done|]. split; [done|]. split; [done|]. by split. }
  destruct (prove_each_ok tree h es root fuel ks ∅ [] e He Hh Hroot Hfuel Hle) as (path & e1 & Hrun & He1 & Hof & _ & Hon);
    [done|by intros c ?%not_elem_of_empty|]. rewrite (action_bind_Ok _ _ _ _ _ Hrun).
  destruct (node_map_total st (fmt tree) path ∅ Hof) as (m & Hm & Hin); [by intros c n ?%lookup_empty_Some|].
  eexists _, e1, _. split; [done|]. split; [done|]. split; [done|]. split; [done|].
  unfold verify_multi_key_proof, proof_node_map. cbn [mp_path mp_root mp_keys]. rewrite Hm. cbn [mbind outcome_bind].
  rewrite bool_decide_eq_false_2 by done. split; [done|]. cbn [mv_valid mv_results].
  unfold tree_holds in Hh. rewrite Hroot in Hh. destruct Hh as [Hsub Hasc].
  assert (∀ c n n', m !! c = Some n → stored_node st c n' → n = n') as Hmap.
  { intros c n n'. apply (node_map_genuine st path); [by apply (of_tree_genuine st (fmt tree))|done]. }
  assert (∀ k, k ∈ ks → verified_value_from_node_set root k m = Some (final_map es !! k)) as Hval.
  { intros k Hk. unfold verified_value_from_node_set.
    destruct (value_complete st (fmt tree) m Hmap (S (size m)) h root ∅ k es Hsub Hle) as [v Hv].
    - intros c Hc. destruct (Hon k Hk c Hc) as (n & Hn & Hst). exists n. apply Hin; [done|by left].
    - by intros c ?%not_elem_of_empty.
    - rewrite size_empty. lia.
    - rewrite Hv. f_equal. by eapply (value_sound st (fmt tree) m Hmap). }
  split.
  - apply forallb_forall. intros kv' (k & -> & Hk)%list_elem_of_In%list_elem_of_fmap. cbn [snd]. by rewrite (Hval k Hk).
  - rewrite <- list_fmap_compose. apply list_fmap_ext. intros i k Hk%list_elem_of_lookup_2. unfold compose. cbn [fst snd]. by rewrite (Hval k Hk).
Qed.
End multi.

End ProofTheorems.
