(* ===== verification/RangeSpec.v ===== *)
(** * Scans list the entries of the map

    Packed loads return the nodes of the store; the stack of an iterator over a stored
    tree stands for the entries that are still ahead, and [next] takes them one by one
    up to the end of the range. *)

From Stdlib Require Import ZArith Lia Strings.Byte.
From stdpp Require Import base tactics numbers list strings option gmap sorting.
From S2P Require Import Prelude Cursor Types Format Node ReadNode Store NodeCache Builder Entries TreeSpec Engine EngineSpec BuiltTree Write Loader LoaderSpec Range Proof ProofSpec WindowSpec ProofTheorems.
Import Format Config Node ReadNode Store NodeCache Builder Entries TreeSpec Engine EngineSpec BuiltTree Loader LoaderSpec Range Proof ProofSpec WindowSpec ProofTheorems.

Local Open Scope Z_scope.

Module RangeSpec.

(** ** Packed loads *)
Section loads.
Context `{HashesOk} {St : Type} `{StoreOk St} `{!ReadStore St} `{!ReadStoreOk St}.
Context (f : TreeFormat) (st : gmap bytes bytes).

Implicit Types e : ProllyEngine St.

(** A packed form of the node stored under an identifier. *)
Definition packed (cid : Cid) (rn : ReadNode) : Prop := ∃ n, stored_node st cid n ∧ view rn n.

Lemma packed_view cid rn n : packed cid rn → stored_node st cid n → view rn n.
Proof. intros (n' & Hn' & Hv) Hn. by rewrite (stored_node_unique _ _ _ _ Hn Hn'). Qed.

Lemma peek_packed cid e :
  engine_manages f st e → from_option (packed cid) True (peek_read (en_cache e) cid).
Proof.
  intros [[_ Hc _] _]. unfold peek_read. destruct (nc_nodes (en_cache e) !! cid) as [ce|] eqn:Hce; [|done].
  cbn [mbind option_bind]. destruct (Hc cid ce Hce) as (n & HP & _ & Hr & _).
  destruct (ce_read ce) as [rn|]; [|done]. exists n. split; [done|]. by apply Hr.
Qed.

Lemma cached_packed_ok unbounded cid e :
  engine_manages f st e →
  ∃ o e', cached_packed unbounded cid e = (Ok o, e') ∧ engine_manages f st e' ∧ from_option (packed cid) True o.
Proof.
  intros He. destruct unbounded.
  - exists (peek_read (en_cache e) cid), e. split; [done|]. split; [done|]. by apply peek_packed.
  - destruct He as [He Hf]. destruct (cached_read_ok st cid e He) as (o & e' & Hc & He' & Ho). exists o, e'.
    split; [done|]. split; [split; [done|]|].
    + unfold cached_read in Hc. destruct (get_read _ _). by injection Hc as _ <-.
    + destruct o as [rn|]; [|done]. destruct Ho as (n & Hv & Hn). by exists n.
Qed.

Lemma admit_packed_ok cid rn e :
  engine_manages f st e → packed cid rn → ∃ z e', admit_read cid rn e = (Ok z, e') ∧ engine_manages f st e'.
Proof.
  intros [He Hf] (n & Hn & Hv). destruct (admit_read_ok st cid rn n e He Hv Hn) as (z & e' & Ha & He').
  exists z, e'. split; [done|]. split; [done|]. unfold admit_read in Ha. destruct (insert_read _ _ _).
  by injection Ha as _ <-.
Qed.

Ltac mstep lem :=
  let e1 := fresh "e" in let Heq := fresh "Heq" in let Hok := fresh "Hok" in
  edestruct lem as (e1 & Heq & Hok); [eassumption|]; rewrite (action_bind_Ok _ _ _ _ _ Heq).

Lemma admit_when_ok b cid rn e :
  engine_manages f st e → packed cid rn → ∃ e', admit_when b cid rn e = (Ok tt, e') ∧ engine_manages f st e'.
Proof.
  intros He Hp. unfold admit_when. destruct b; [|by exists e].
  destruct (admit_packed_ok cid rn e He Hp) as (z & e1 & Ha & He1). rewrite (action_bind_Ok _ _ _ _ _ Ha).
  by apply meter_manages.
Qed.

(** Decoding the stored bytes of a node. *)
Lemma decode_packed cid n b :
  stored_node st cid n → st !! cid = Some b →
  ∃ rn, view rn n ∧ decode_read cid (format n) b = Ok rn ∧ to_bytes n = Ok b ∧
    (∀ r, vr_bytes r = b → decode_validated_read cid (format n) r = Ok rn).
Proof.
  intros (b' & Hb' & Hcid & Hto & Hfrom & Hp) Hb. rewrite Hb' in Hb. injection Hb as ->.
  destruct (decode_stored st cid n b Hcid Hfrom Hp) as (rn & Hv & Hdec & Hval & _). exists rn. split; [done|].
  split; [unfold decode_read; by rewrite Hval|]. split; [done|]. intros r Hr.
  unfold decode_validated_read. rewrite Hr, Hval. by destruct (negb _).
Qed.

Lemma owned_choice_ok (native : bool) mode cid e :
  engine_manages f st e →
  ∃ o e', (if native then mret None
           else if bool_decide (mode = ObserveOnly) then cached_peek cid else cached_owned cid) e = (Ok o, e') ∧
    engine_manages f st e' ∧ from_option (stored_node st cid) True o.
Proof.
  intros He. destruct native; [by exists None, e|]. case_bool_decide; [by apply peek_manages|by apply owned_manages].
Qed.

Lemma load_read_mode_ok mode cid n e :
  engine_manages f st e → stored_node st cid n → format n = f →
  ∃ rn e', load_read_arc_with_cache_mode cid mode e = (Ok rn, e') ∧ view rn n ∧ engine_manages f st e'.
Proof.
  intros He Hn Hfmt. unfold load_read_arc_with_cache_mode. pose proof (peek_packed cid e He) as Hpk.
  rewrite (action_bind_Ok (cached_peek_read cid) _ e _ e eq_refl).
  destruct (peek_read (en_cache e) cid) as [rn|].
  { mstep (meter_manages f st (add_cache_hits 1) e). exists rn, e0. split; [done|]. split; [|done]. by eapply packed_view. }
  rewrite (action_bind_Ok cache_unbounded _ _ _ _ eq_refl). set (admission := _ || _).
  rewrite (action_bind_Ok engine_format _ e f e) by (unfold engine_format; by destruct He as [_ ->]).
  rewrite (action_bind_Ok (from_store _) _ e (store_has_native_shared_reads (en_store e)) e) by done.
  destruct (owned_choice_ok (store_has_native_shared_reads (en_store e)) mode cid e He) as (o & e1 & Ho & He1 & Hon).
  rewrite (action_bind_Ok _ _ _ _ _ Ho). destruct (Hn) as (b & Hb & _).
  destruct (decode_packed cid n b Hn Hb) as (rn & Hv & Hd & Hto & Hdv). rewrite Hfmt in *.
  assert (packed cid rn) as Hp by (by exists n). destruct o as [n'|].
  - cbn in Hon. rewrite (stored_node_unique _ _ _ _ Hon Hn).
    rewrite (action_bind_Ok (run _) _ e1 b e1) by (unfold run; by rewrite Hto).
    rewrite (action_bind_Ok (run _) _ e1 rn e1) by (unfold run; by rewrite Hd).
    destruct (admit_when_ok admission cid rn e1 He1 Hp) as (e2 & Ha & He2). rewrite (action_bind_Ok _ _ _ _ _ Ha).
    mstep (meter_manages f st (add_cache_hits 1) e2). by exists rn, e0.
  - mstep (meter_manages f st (add_cache_misses 1) e1).
    destruct (get_validated_ok (en_store e0) cid) as (o & Hget & Hob & _). destruct Hok as [Hok Hf0].
    rewrite (eo_store _ _ Hok), Hb in Hob. destruct o as [r|]; [|done]. injection Hob as Hrb.
    rewrite (action_bind_Ok (from_store _) _ e0 (Some r) e0) by (unfold from_store; by rewrite Hget).
    rewrite (action_bind_Ok (run _) _ e0 r e0) by done. assert (engine_manages f st e0) as Hok0 by done.
    mstep (meter_manages f st (record_point_read (len (vr_bytes r))) e0).
    rewrite (action_bind_Ok (run _) _ e2 rn e2) by (unfold run; by rewrite (Hdv r Hrb)).
    destruct (admit_when_ok admission cid rn e2 Hok1 Hp) as (e3 & Ha & He3). rewrite (action_bind_Ok _ _ _ _ _ Ha). by exists rn, e3.
Qed.

(** *** Many at once *)
Lemma lookup_all_packed cids ns e :
  engine_manages f st e → Forall2 (stored_node st) cids ns →
  ∃ o, lookup_all cached_peek_read cids e = (Ok o, e) ∧ from_option (λ rns, Forall2 view rns ns) True o.
Proof.
  intros He Hall. induction Hall as [|cid n cids ns Hn _ IH]; [exists (Some []); split; [done|constructor]|].
  cbn [lookup_all]. rewrite (action_bind_Ok (cached_peek_read cid) _ e _ e eq_refl).
  pose proof (peek_packed cid e He) as Hpk. destruct (peek_read (en_cache e) cid) as [rn|]; [|by exists None].
  destruct IH as (o & Hl & Ho). rewrite (action_bind_Ok _ _ _ _ _ Hl). exists (cons rn <$> o). split; [done|].
  destruct o as [rns|]; [|done]. cbn. constructor; [by eapply packed_view|done].
Qed.

Lemma decode_each_read_ok ks vs os :
  Forall2 (stored_node st) ks vs → Forall (λ n, format n = f) vs → Forall2 (read_ok st) ks os →
  ∃ rns, decode_each_read f (zip ks os) = Ok (zip ks rns) ∧ Forall2 packed ks rns.
Proof.
  intros Hall. revert os. induction Hall as [|k n ks vs Hn _ IH]; intros os Hf Hos; inversion Hos as [|? o ? os' Ho Hos']; subst.
  { exists []. split; [done|constructor]. }
  apply Forall_cons_1 in Hf as [Hfn Hf]. destruct (IH os' Hf Hos') as (rns & Hd & Hp).
  destruct (Hn) as (b & Hb & _). destruct (decode_packed k n b Hn Hb) as (rn & Hv & _ & _ & Hdv).
  destruct Ho as [Hob _]. rewrite Hb in Hob. destruct o as [r|]; [|done]. injection Hob as Hrb.
  exists (rn :: rns). split; [|constructor; [by exists n|done]].
  unfold decode_each_read in *. cbn [zip zip_with].
  change (mapM ?g (?x :: ?l)) with (y ← g x; ys ← mapM g l; Ok (y :: ys)). cbn [fst snd ok_or mbind outcome_bind].
  rewrite <- Hfn, (Hdv r Hrb). cbn [mbind outcome_bind]. rewrite Hfn. change (zip_with pair ?a ?b) with (zip a b). by rewrite Hd.
Qed.

Lemma place_decoded_read_ok cids rns positions nodes z e :
  engine_manages f st e → Forall2 packed cids rns →
  ∃ z' e', place_decoded_read (zip cids rns) positions nodes z e = (Ok (fill_all nodes rns positions, z'), e') ∧
    engine_manages f st e'.
Proof.
  intros He Hall. revert positions nodes z e He; induction Hall as [|cid rn cids rns Hp _ IH]; intros positions nodes z e He.
  { by exists z, e. }
  destruct positions as [|slots positions]; [by exists z, e|]. cbn [zip zip_with place_decoded_read fill_all].
  destruct (admit_packed_ok cid rn e He Hp) as (z1 & e1 & Ha & He1). rewrite (action_bind_Ok _ _ _ _ _ Ha). by apply IH.
Qed.

Lemma packed_views cids rns ns : Forall2 packed cids rns → Forall2 (stored_node st) cids ns → Forall2 view rns ns.
Proof.
  intros Hp. revert ns; induction Hp as [|cid rn cids rns Hp _ IH]; intros ns Hns; inversion Hns; subst; [constructor|].
  constructor; [by eapply packed_view|by apply IH].
Qed.

Lemma load_missing_read_ok cids ns nodes m e :
  engine_manages f st e → plan_inv packed cids nodes m → Forall2 (stored_node st) cids ns → Forall (λ n, format n = f) ns →
  ∃ rns e', load_missing_read m nodes e = (Ok (fill_all nodes rns (mb_positions m)), e') ∧
    engine_manages f st e' ∧ Forall2 packed (mb_cids m) rns.
Proof.
  intros He Hinv Hall Hf. unfold load_missing_read. mstep (meter_manages f st (add_cache_misses (len (mb_cids m))) e).
  destruct (stored_some st cids ns (mb_cids m) Hall (pi_members _ _ _ _ Hinv)) as (vs & Hvs & Hsub).
  assert (Forall (λ n, format n = f) vs) as Hfv.
  { apply Forall_forall. intros n Hn. by apply (proj1 (Forall_forall _ _) Hf), Hsub. }
  destruct (batch_get_validated_ok (en_store e0) (mb_cids m) (pi_nodup _ _ _ _ Hinv)) as (os & Hget & Hos).
  rewrite (eo_store _ _ (proj1 Hok)) in Hos.
  rewrite (action_bind_Ok (from_store _) _ e0 os e0) by (unfold from_store; by rewrite Hget).
  rewrite <- (Forall2_length _ _ _ Hos), Nat.eqb_refl. cbn [negb]. set (found := omap id os).
  mstep (meter_manages f st (record_batch_read (len (mb_cids m)) (len (concat (vr_bytes <$> found))) (len found)) e0).
  rewrite (action_bind_Ok engine_format _ e1 f e1) by (unfold engine_format; by destruct Hok0 as [_ ->]).
  destruct (decode_each_read_ok _ _ _ Hvs Hfv Hos) as (rns & Hd & Hp).
  rewrite (action_bind_Ok (run _) _ e1 (zip (mb_cids m) rns) e1) by (unfold run; by rewrite Hd).
  destruct (place_decoded_read_ok (mb_cids m) rns (mb_positions m) nodes 0 e1 Hok0 Hp) as (z & e2 & Hpl & He2).
  rewrite (action_bind_Ok _ _ _ _ _ Hpl). cbn [fst snd]. mstep (meter_manages f st (add_cache_evictions z) e2).
  by exists rns, e3.
Qed.

Lemma load_many_read_ok cids ns e :
  engine_manages f st e → Forall2 (stored_node st) cids ns → Forall (λ n, format n = f) ns →
  ∃ rns e', load_many_read_ordered cids e = (Ok rns, e') ∧ Forall2 view rns ns ∧ engine_manages f st e'.
Proof.
  intros He Hall Hf. unfold load_many_read_ordered.
  case_bool_decide as Hnil.
  { subst cids. inversion Hall; subst. exists [], e. split; [done|]. by split; [constructor|]. }
  destruct (lookup_all_packed cids ns e He Hall) as (o & Hl & Ho). rewrite (action_bind_Ok _ _ _ _ _ Hl).
  destruct o as [rns|]; [mstep (meter_manages f st (add_cache_hits (len rns)) e); by exists rns, e0|].
  rewrite (action_bind_Ok cache_unbounded _ _ _ _ eq_refl).
  destruct (plan_ok packed (cached_packed (is_unbounded (en_cache e))) (engine_manages f st) cids) with (s := e)
    as (nodes & m & hits & e1 & Hp & He1 & Hinv); [intros cid s _; apply cached_packed_ok|done|].
  rewrite (action_bind_Ok _ _ _ _ _ Hp). mstep (meter_manages f st (add_cache_hits hits) e1).
  assert (∃ rns e2, (if bool_decide (mb_cids m = []) then mret nodes else load_missing_read m nodes) e0
      = (Ok (fill_all nodes rns (mb_positions m)), e2) ∧ engine_manages f st e2 ∧ Forall2 packed (mb_cids m) rns)
    as (rns & e2 & Hm & He2 & Hps).
  { clear Hnil. case_bool_decide as Hm; [|by eapply load_missing_read_ok]. exists [], e0. rewrite Hm. split; [done|]. split; [done|constructor]. }
  rewrite (action_bind_Ok _ _ _ _ _ Hm). destruct (fill_all_ok _ _ _ _ rns Hinv Hps) as (rs & Hrs & Hall').
  exists rs, e2. split; [unfold run; by rewrite Hrs|]. split; [by eapply packed_views|done].
Qed.
End loads.

(** ** The entries ahead *)
Section walk.
Context `{HashesOk} (f : TreeFormat) (st : gmap bytes bytes) (top : nat).

(** An internal node above subtrees of height [h], and the entries of its children. *)
Record inner (h : nat) (rn : ReadNode) (n : Node) (subs : list (list kv)) : Prop := {
  in_view : view rn n;
  in_leaf : leaf n = false;
  in_height : (S h ≤ top)%nat;
  in_subs : Forall2 (subtree st f h) (vals n) subs;
  in_starts : Forall2 starts_with (keys n) subs;
}.

(** The ancestors of a node of height [h], with the entries after the one it is below. *)
Inductive climbs : nat → list (ReadNode * nat) → list kv → Prop :=
| climbs_nil h : climbs h [] []
| climbs_cons h rn idx below n subs rest :
    inner h rn n subs → (idx < length subs)%nat → climbs (S h) below rest →
    climbs h ((rn, idx) :: below) (concat (drop (S idx) subs) ++ rest).

Definition leaf_entries (n : Node) : list kv := zip (keys n) (vals n).

(** The bound cached for a leaf, and that the last location is in it when it has more. *)
Definition leaf_bound (it : RangeIter) (rn : ReadNode) (idx : nat) : Prop :=
  match it_leaf_end it with
  | None => True
  | Some le => leaf_end_index rn (it_end it) = Ok le ∧
      ((idx < le)%nat → match it_last_location it with None => True | Some (last, _) => last = rn end)
  end.

(** What the stack of an iterator stands for; the height is that of its top. *)
Inductive ahead (it : RangeIter) : nat → list kv → Prop :=
| ahead_end : it_stack it = [] → it_leaf_end it = None → ahead it 0 []
| ahead_leaf rn idx below n rest :
    it_stack it = (rn, idx) :: below → view rn n → leaf n = true → leaf_bound it rn idx → climbs 0 below rest →
    ahead it 0 (drop idx (leaf_entries n) ++ rest)
| ahead_inner h rn idx below n subs rest :
    it_stack it = (rn, idx) :: below → inner h rn n subs → (idx < length subs)%nat → it_leaf_end it = None →
    climbs (S h) below rest →
    ahead it (S h) (concat (drop idx subs) ++ rest).

(** The part of the entries before the end of a range. *)
Definition upto (end_ : option bytes) : list kv → list kv := inside (page_window None end_).

Lemma upto_head k v rest end_ : ascending ((k, v) :: rest) → before_end k end_ = false → upto end_ ((k, v) :: rest) = [].
Proof.
  intros Hasc Hk. apply inside_none. intros x Hx. cbn.
  pose proof (ascending_head _ _ _ _ Hasc Hx) as Hle. destruct end_ as [e|]; [|done]. cbn in *.
  apply bltb_ge in Hk. apply bltb_ge. by eapply ble_trans.
Qed.

Lemma upto_cons k v rest end_ :
  before_end k end_ = true → upto end_ ((k, v) :: rest) = (k, v) :: upto end_ rest.
Proof. intros Hk. unfold upto, inside. cbn. by rewrite Hk. Qed.

Lemma inner_len h rn n subs : inner h rn n subs → rn_len rn = length subs.
Proof. intros Hi. rewrite (v_len _ _ (in_view _ _ _ _ Hi)). apply (Forall2_length _ _ _ (in_starts _ _ _ _ Hi)). Qed.

(** The entries from a child on start with its separator. *)
Lemma inner_at h rn n subs idx :
  inner h rn n subs → (idx < length subs)%nat →
  ∃ k v sub, rn_key rn idx = Some k ∧ subs !! idx = Some ((k, v) :: sub) ∧
    concat (drop idx subs) = (k, v) :: sub ++ concat (drop (S idx) subs).
Proof.
  intros Hi Hidx. destruct (lookup_lt_is_Some_2 subs idx Hidx) as [sub Hsub].
  destruct (Forall2_lookup_r _ _ _ _ _ (in_starts _ _ _ _ Hi) Hsub) as (k & Hk & v & rest & ->).
  exists k, v, rest. rewrite (v_keys _ _ (in_view _ _ _ _ Hi)). split; [done|]. split; [done|].
  by rewrite (drop_S _ _ _ Hsub).
Qed.

Lemma child_starts_ok h rn n subs idx end_ :
  inner h rn n subs → (idx < length subs)%nat →
  ∃ k v sub, concat (drop idx subs) = (k, v) :: sub ∧ child_starts_at_or_after_end end_ rn idx = Ok (negb (before_end k end_)).
Proof.
  intros Hi Hidx. destruct (inner_at _ _ _ _ _ Hi Hidx) as (k & v & sub & Hk & _ & Hc). eexists k, v, _. split; [done|].
  unfold child_starts_at_or_after_end. destruct end_ as [e|]; [|done]. rewrite Hk. cbn [ok_or mbind outcome_bind before_end].
  f_equal. destruct (bltb k e) eqn:Hlt; cbn [negb].
  - apply bleb_gt. by apply bltb_lt.
  - apply bleb_le. by apply bltb_ge.
Qed.

(** After a pop. *)
Lemma next_sibling_ok end_ h stack rest :
  climbs h stack rest → ascending rest →
  ∃ b stack', next_sibling end_ stack = (Ok b, stack') ∧
    match stack' with
    | [] => b = false ∧ rest = []
    | (rn, idx) :: below =>
        ∃ h' n subs rest', inner h' rn n subs ∧ (idx < length subs)%nat ∧ climbs (S h') below rest' ∧
          rest = concat (drop idx subs) ++ rest' ∧ (b = false → upto end_ rest = [])
    end.
Proof.
  induction 1 as [h|h rn idx below n subs rest Hi Hidx Hcl IH]; intros Hasc; [by exists false, []|].
  cbn [next_sibling]. rewrite (inner_len _ _ _ _ Hi). destruct (Nat.ltb_spec (S idx) (length subs)) as [Hlt|Hge].
  - destruct (child_starts_ok _ _ _ _ (S idx) end_ Hi Hlt) as (k & v & sub & Hc & ->). eexists _, _. split; [done|].
    exists h, n, subs, rest. do 4 (split; [done|]). rewrite negb_involutive. intros Hb.
    rewrite Hc in *. by apply upto_head.
  - rewrite drop_ge in * by lia. cbn [concat app] in *. by apply IH.
Qed.

(** *** Leaves *)
Lemma rn_entry_view rn n i : view rn n → rn_entry rn i = leaf_entries n !! i.
Proof.
  intros Hv. pose proof (v_keys _ _ Hv i) as Hk. pose proof (v_vals _ _ Hv i) as Hx.
  unfold rn_entry, rn_key, rn_value, leaf_entries in *. rewrite lookup_zip_with, <- Hk, <- Hx.
  destruct (rn_entries rn !! i) as [m|]; [|done]. cbn [mbind option_bind].
  destruct (meta_key _ m); [|done]. cbn [mbind option_bind]. by destruct (meta_value _ m).
Qed.

Lemma leaf_entries_at rn n i :
  view rn n → (i < rn_len rn)%nat → ∃ k v, leaf_entries n !! i = Some (k, v) ∧ keys n !! i = Some k.
Proof.
  intros Hv Hi. rewrite (v_len _ _ Hv) in Hi. destruct (lookup_lt_is_Some_2 (keys n) i Hi) as [k Hk].
  destruct (lookup_lt_is_Some_2 (vals n) i) as [v Hx]; [by rewrite (v_lens _ _ Hv)|].
  exists k, v. split; [|done]. unfold leaf_entries. by rewrite lookup_zip_with, Hk, Hx.
Qed.

Lemma leaf_entries_length rn n : view rn n → length (leaf_entries n) = rn_len rn.
Proof. intros Hv. unfold leaf_entries. rewrite length_zip_with, (v_len _ _ Hv), (v_lens _ _ Hv). lia. Qed.

(** The position of a key among ordered ones. *)
Lemma search_bound ks key i k :
  StronglySorted blt ks → ks !! i = Some k →
  (k < key)%key ↔ (i < match search ks key with Found j | Insert j => j end)%nat.
Proof.
  intros Hs Hk. pose proof (search_correct ks key Hs) as Hat. destruct (search ks key) as [j|j]; cbn in Hat.
  - split.
    + intros Hlt. destruct (decide (i < j)%nat); [done|]. exfalso. apply (blt_irrefl key).
      destruct (decide (i = j)) as [->|]; [congruence|]. eapply blt_trans; [|exact Hlt]. apply (sorted_lookup ks j i); [done..|lia|done|done].
    + intros Hi. by apply (sorted_lookup ks i j).
  - destruct Hat as (_ & Hlow & Hup). split; [|intros Hi; by apply (Hlow i)].
    intros Hlt. destruct (decide (i < j)%nat); [done|]. exfalso. apply (blt_irrefl key). eapply blt_trans; [|exact Hlt].
    apply (Hup i); [lia|done].
Qed.

Lemma leaf_end_ok rn n end_ :
  view rn n → ∃ le, leaf_end_index rn end_ = Ok le ∧ (le ≤ rn_len rn)%nat ∧
    ∀ i k, keys n !! i = Some k → before_end k end_ = bool_decide (i < le)%nat.
Proof.
  intros Hv. unfold leaf_end_index. destruct end_ as [e|].
  - rewrite (rn_search_view rn n e Hv). cbn [mbind outcome_bind]. eexists. split; [done|]. rewrite (v_len _ _ Hv). split.
    { unfold Node_search. pose proof (search_correct (keys n) e (v_sorted _ _ Hv)) as Hat. destruct (search (keys n) e); cbn in Hat; [|by destruct Hat as (? & _)].
      apply lookup_lt_Some in Hat. lia. }
    intros i k Hk. cbn [before_end].
    pose proof (search_bound (keys n) e i k (v_sorted _ _ Hv) Hk) as Hb. case_bool_decide as Hi.
    + by apply bltb_lt, Hb.
    + apply bltb_ge. apply ble_not_lt. tauto.
  - exists (rn_len rn). split; [done|]. split; [done|]. intros i k Hk. symmetry. apply bool_decide_eq_true_2.
    rewrite (v_len _ _ Hv). by eapply lookup_lt_Some.
Qed.

(** *** Steps *)
Definition same_range (it it' : RangeIter) : Prop := it_end it' = it_end it ∧ it_started it' = it_started it.

(** The last entry yielded. *)
Definition last_is (it : RangeIter) (x : kv) : Prop :=
  ∃ rn j, it_last_location it = Some (rn, j) ∧ rn_entry rn j = Some x ∧ rn_key rn j = Some x.1.

(** What a step does with the entries ahead; [k] is the height of the top afterwards. *)
Definition stepped (it : RangeIter) (rem : list kv) (k : nat) (step : RangeStep) (it' : RangeIter) : Prop :=
  same_range it it' ∧
  match step with
  | StepEntry => ∃ x rem', rem = x :: rem' ∧ before_end x.1 (it_end it) = true ∧ ahead it' 0 rem' ∧ last_is it' x
  | StepNeedsChild => (∃ h, k = S h) ∧ ahead it' k rem
  | StepFinished => (∃ k', ahead it' k' rem) ∧ upto (it_end it) rem = []
  | StepError _ => False
  end.

(** The top has a position inside its node. *)
Definition here (it : RangeIter) : Prop := ∀ rn idx below, it_stack it = (rn, idx) :: below → (idx < rn_len rn)%nat.

(** Taking the entry of a leaf at a position inside the range. *)
Lemma take_entry it it' rn idx below n rest le :
  view rn n → leaf n = true → climbs 0 below rest → (idx < rn_len rn)%nat → (idx < le)%nat →
  leaf_end_index rn (it_end it) = Ok le → it_end it' = it_end it →
  it_stack it' = (rn, S idx) :: below → it_leaf_end it' = Some le → it_last_location it' = Some (rn, idx) →
  ∃ x rem', drop idx (leaf_entries n) ++ rest = x :: rem' ∧ before_end x.1 (it_end it) = true ∧ ahead it' 0 rem' ∧
    last_is it' x ∧ rn_entry rn idx = Some x.
Proof.
  intros Hv Hl Hcl Hlen Hle Hbound Hend Hst Hlend Hlast.
  destruct (leaf_entries_at rn n idx Hv Hlen) as (k & v & Hx & Hk). exists (k, v), (drop (S idx) (leaf_entries n) ++ rest).
  split; [by rewrite (drop_S _ _ _ Hx)|]. destruct (leaf_end_ok rn n (it_end it) Hv) as (le' & Hle' & _ & Hb).
  rewrite Hbound in Hle'. apply Ok_inj in Hle' as <-.
  split; [cbn [fst]; rewrite (Hb idx k Hk); by apply bool_decide_eq_true_2|].
  split; [|split; [|by rewrite (rn_entry_view rn n)]].
  - eapply ahead_leaf; [done|done|done| |done]. unfold leaf_bound. rewrite Hlend, Hlast, Hend. done.
  - exists rn, idx. split; [done|]. rewrite (rn_entry_view rn n idx Hv). split; [done|]. by rewrite (v_keys _ _ Hv).
Qed.

Lemma leaf_past it rn idx n rest le :
  view rn n → (idx < rn_len rn)%nat → (le ≤ idx)%nat → leaf_end_index rn (it_end it) = Ok le →
  ascending (drop idx (leaf_entries n) ++ rest) → upto (it_end it) (drop idx (leaf_entries n) ++ rest) = [].
Proof.
  intros Hv Hlen Hle Hbound. destruct (leaf_entries_at rn n idx Hv Hlen) as (k & v & Hx & Hk).
  rewrite (drop_S _ _ _ Hx). cbn [app]. intros Hasc. apply upto_head; [done|].
  destruct (leaf_end_ok rn n (it_end it) Hv) as (le' & Hle' & _ & Hb). rewrite Hbound in Hle'. apply Ok_inj in Hle' as <-.
  rewrite (Hb idx k Hk). apply bool_decide_eq_false_2. lia.
Qed.

Lemma ready_leaf m it rn idx below n rest :
  it_stack it = (rn, idx) :: below → view rn n → leaf n = true → leaf_bound it rn idx → climbs 0 below rest →
  (idx < rn_len rn)%nat → ascending (drop idx (leaf_entries n) ++ rest) →
  ∃ step it', ready_loop (S m) it = Ok (step, it') ∧ stepped it (drop idx (leaf_entries n) ++ rest) 0 step it'.
Proof.
  intros Hst Hv Hl Hlb Hcl Hidx Hasc. cbn [ready_loop]. rewrite Hst.
  destruct (Nat.leb_spec (rn_len rn) idx) as [Hge|_]; [lia|]. unfold rn_is_leaf. rewrite <- (v_leaf _ _ Hv), Hl.
  assert (∃ le, match it_leaf_end it with Some le => Ok le | None => leaf_end_index rn (it_end it) end = Ok le ∧
    leaf_end_index rn (it_end it) = Ok le) as (le & -> & Hle).
  { unfold leaf_bound in Hlb. destruct (it_leaf_end it) as [le|]; [by exists le; destruct Hlb|].
    destruct (leaf_end_ok rn n (it_end it) Hv) as (le & Hle & _). by exists le. }
  cbn [mbind outcome_bind]. destruct (Nat.leb_spec le idx) as [Hpast|Hin].
  - eexists _, _. split; [done|]. split; [done|]. split; [|by eapply leaf_past].
    exists 0%nat. eapply ahead_leaf; [done|done|done| |done]. unfold leaf_bound in *.
    cbn [it_leaf_end it_end it_last_location set_position]. split; [done|lia].
  - eexists _, _. split; [done|]. split; [done|].
    destruct (take_entry it (locate (set_position it ((rn, S idx) :: below) (Some le)) (bool_decide (it_leaf_end it = None)) rn idx)
      rn idx below n rest le) as (x & rem' & Heq & Hb & Ha & Hlast & _); [done..| |by exists x, rem'].
    unfold locate. cbn [set_last it_last_location set_position]. unfold leaf_bound in Hlb.
    destruct (it_last_location it) as [[last j]|]; [|done]. destruct (it_leaf_end it); [|done].
    destruct Hlb as [Hle' Hlast]. rewrite Hle in Hle'. apply Ok_inj in Hle' as <-. by rewrite (Hlast Hin).
Qed.

Lemma ready_here m it k rem :
  ahead it k rem → ascending rem → here it →
  ∃ step it', ready_loop (S m) it = Ok (step, it') ∧ stepped it rem k step it'.
Proof.
  intros Ha Hasc Hh. destruct Ha as [Hst Hle|rn idx below n rest Hst Hv Hl Hlb Hcl|h rn idx below n subs rest Hst Hi Hidx Hle Hcl].
  - exists StepFinished, it. cbn [ready_loop]. rewrite Hst. split; [done|]. split; [done|]. split; [|done].
    exists 0%nat. by constructor.
  - eapply ready_leaf; eauto.
  - cbn [ready_loop]. rewrite Hst, (inner_len _ _ _ _ Hi). destruct (Nat.leb_spec (length subs) idx) as [Hge|_]; [lia|].
    unfold rn_is_leaf. rewrite <- (v_leaf _ _ (in_view _ _ _ _ Hi)), (in_leaf _ _ _ _ Hi).
    destruct (child_starts_ok _ _ _ _ idx (it_end it) Hi Hidx) as (key & v & sub & Hc & ->).
    assert (ahead it (S h) (concat (drop idx subs) ++ rest)) as Ha by (by eapply ahead_inner).
    destruct (before_end key (it_end it)) eqn:Hb; cbn [negb]; (eexists _, _; split; [done|]); (split; [done|]).
    + split; [by exists h|done].
    + split; [by exists (S h)|]. rewrite Hc in *. by apply upto_head.
Qed.

(** An exhausted leaf. *)
Lemma advance_ok it rn idx below rest :
  it_stack it = (rn, idx) :: below → climbs 0 below rest → ascending rest →
  ∃ b it', advance_to_next_sibling it = (Ok b, it') ∧ same_range it it' ∧ here it' ∧ it_leaf_end it' = None ∧
    (∃ k, ahead it' k rest) ∧ (b = false → upto (it_end it) rest = []).
Proof.
  intros Hst Hcl Hasc. unfold advance_to_next_sibling. rewrite Hst. cbn [tail].
  destruct (next_sibling_ok (it_end it) 0 below rest Hcl Hasc) as (b & stack' & -> & Hs). eexists b, _. split; [done|].
  split; [done|]. destruct stack' as [|[rn' idx'] below'].
  - destruct Hs as [-> ->]. split; [intros ??? [=]|]. split; [done|]. split; [exists 0%nat; by constructor|done].
  - destruct Hs as (h' & n & subs & rest' & Hi & Hidx & Hcl' & -> & Hb).
    split; [intros ??? [= <- <- <-]; by rewrite (inner_len _ _ _ _ Hi)|]. split; [done|]. split; [|done].
    exists (S h'). by eapply ahead_inner.
Qed.

Lemma ready_ok it k rem :
  ahead it k rem → ascending rem →
  ∃ step it' k', ready_loop (S (length (it_stack it))) it = Ok (step, it') ∧ stepped it rem k' step it'.
Proof.
  intros Ha Hasc. assert (here it ∨ ∃ rn idx below n rest, it_stack it = (rn, idx) :: below ∧ view rn n ∧
    (rn_len rn ≤ idx)%nat ∧ climbs 0 below rest ∧ rem = rest) as [Hh|(rn & idx & below & n & rest & Hst & Hv & Hge & Hcl & ->)].
  { destruct Ha as [Hst _|rn idx below n rest Hst Hv _ _ Hcl|h rn idx below n subs rest Hst Hi Hidx _ _].
    - left. intros ???. by rewrite Hst.
    - destruct (decide (idx < rn_len rn)%nat); [left; intros ???; by rewrite Hst; intros [= <- <- <-]|].
      right. exists rn, idx, below, n, rest. do 2 (split; [done|]). split; [lia|]. split; [done|].
      rewrite drop_ge; [done|]. rewrite (leaf_entries_length rn n Hv). lia.
    - left. intros ???. rewrite Hst. intros [= <- <- <-]. by rewrite (inner_len _ _ _ _ Hi). }
  { destruct (ready_here (length (it_stack it)) it k rem Ha Hasc Hh) as (step & it' & Hr & Hs). by exists step, it', k. }
  rewrite Hst. cbn [ready_loop length]. rewrite Hst. destruct (Nat.leb_spec (rn_len rn) idx) as [_|]; [|lia].
  destruct (advance_ok it rn idx below rest Hst Hcl Hasc) as (b & it1 & -> & [He Hsd] & Hh & _ & (k1 & Ha1) & Hb).
  destruct b; [|exists StepFinished, it1, 0%nat; split; [done|]; split; [done|]; split; [by exists k1|by apply Hb]].
  destruct (ready_here (length below) it1 k1 rest Ha1 Hasc Hh) as (step & it' & Hr & [Hsame Hs]).
  exists step, it', k1. split; [done|]. unfold stepped, same_range in *. rewrite He, Hsd in *. done.
Qed.
End walk.

(** ** Iteration *)
Section iteration.
Context `{HashesOk} {St : Type} `{StoreOk St} `{!ReadStore St} `{!ReadStoreOk St}.
Context (f : TreeFormat) (st : gmap bytes bytes) (top : nat).

Implicit Types e : ProllyEngine St.

Abbreviation ahead := (ahead f st top).
Abbreviation inner := (inner f st top).
Abbreviation climbs := (climbs f st top).

Lemma inner_child h rn n subs i c :
  inner h rn n subs → vals n !! i = Some c → rn_child_cid rn i = Ok c.
Proof.
  intros Hi Hc. destruct (Forall2_lookup_l _ _ _ _ _ (in_subs _ _ _ _ _ _ _ Hi) Hc) as (sub & _ & Hsub).
  apply (child_cid_ok rn n); [apply (in_view _ _ _ _ _ _ _ Hi)|done|by eapply subtree_cid].
Qed.

Lemma prefetch_children end_ h rn n subs i count :
  inner h rn n subs → ∀ c, c ∈ prefetch_from end_ rn i count → c ∈ vals n.
Proof.
  intros Hi. revert i; induction count as [|count IH]; intros i c; [by intros ?%not_elem_of_nil|]. cbn [prefetch_from].
  destruct (child_starts_at_or_after_end end_ rn i) as [[]| |]; [by intros ?%not_elem_of_nil| |by intros ?%not_elem_of_nil..].
  destruct (vals n !! i) as [c'|] eqn:Hc'.
  - rewrite (inner_child _ _ _ _ _ _ Hi Hc'). intros [->|Hin]%elem_of_cons; [apply list_elem_of_lookup; by exists i|by eapply IH].
  - unfold rn_child_cid. rewrite (v_vals _ _ (in_view _ _ _ _ _ _ _ Hi)), Hc'. by intros ?%not_elem_of_nil.
Qed.

Lemma stored_all cids :
  (∀ c, c ∈ cids → ∃ n, stored_node st c n ∧ format n = f) →
  ∃ ns, Forall2 (stored_node st) cids ns ∧ Forall (λ n, format n = f) ns.
Proof.
  induction cids as [|c cids IH]; intros Hall; [by exists []; split; constructor|].
  destruct (Hall c) as (n & Hn & Hf); [left|]. destruct IH as (ns & Hns & Hfs); [intros c' Hc'; apply Hall; by right|].
  exists (n :: ns). by split; constructor.
Qed.

Lemma inner_stored h rn n subs c : inner h rn n subs → c ∈ vals n → ∃ m, stored_node st c m ∧ format m = f.
Proof.
  intros Hi [i Hc]%list_elem_of_lookup. destruct (Forall2_lookup_l _ _ _ _ _ (in_subs _ _ _ _ _ _ _ Hi) Hc) as (sub & _ & Hsub).
  destruct h; destruct Hsub as (m & Hm & (Hf & _) & _); by exists m.
Qed.

Lemma load_child_ok it h rn n subs idx c m e :
  engine_manages f st e → inner h rn n subs → vals n !! idx = Some c → stored_node st c m →
  ∃ rm e', load_child_for_descent it rn idx e = (Ok rm, e') ∧ view rm m ∧ engine_manages f st e'.
Proof.
  intros He Hi Hc Hm. assert (c ∈ vals n) as Hin by (apply list_elem_of_lookup; by exists idx).
  assert (format m = f) as Hf.
  { destruct (inner_stored _ _ _ _ _ Hi Hin) as (m' & Hm' & Hf). by rewrite (stored_node_unique _ _ _ _ Hm Hm'). }
  unfold load_child_for_descent. rewrite (action_bind_Ok (run _) _ e c e) by (unfold run; by rewrite (inner_child _ _ _ _ _ _ Hi Hc)).
  rewrite (action_bind_Ok (from_store _) _ e (store_prefers_batch_reads (en_store e)) e) by done.
  pose proof (load_read_mode_ok f st Admit c m e He Hm Hf) as Hone.
  destruct (store_prefers_batch_reads _); [|done]. cbn [negb]. set (cids := prefetch_from _ _ _ _). cbn [length].
  destruct (_ =? 1)%nat; [done|].
  destruct (stored_all (c :: cids)) as (ns & Hns & Hfs).
  { intros c' [->|Hc']%elem_of_cons; [by eapply inner_stored|]. eapply inner_stored; [done|]. by eapply prefetch_children. }
  destruct (load_many_read_ok f st (c :: cids) ns e He Hns Hfs) as (rns & e' & Hl & Hv & He').
  rewrite (action_bind_Ok _ _ _ _ _ Hl). inversion Hns as [|? n0 ? ns' Hn0 _]; subst.
  inversion Hv as [|rm ? rns' ? Hrm _]; subst. exists rm, e'. split; [done|]. split; [|done].
  by rewrite (stored_node_unique _ _ _ _ Hm Hn0).
Qed.

Lemma descend_ok it h rem e :
  engine_manages f st e → ahead it (S h) rem →
  ∃ it' e', descend_next_child it e = (Ok it', e') ∧ engine_manages f st e' ∧ same_range it it' ∧ ahead it' h rem ∧ here it'.
Proof.
  intros He Ha. inversion Ha as [| |h' rn idx below n subs rest Hst Hi Hidx Hle Hcl]; subst.
  destruct (lookup_lt_is_Some_2 subs idx Hidx) as [sub Hsub].
  destruct (Forall2_lookup_r _ _ _ _ _ (in_subs _ _ _ _ _ _ _ Hi) Hsub) as (c & Hc & Hst').
  assert (∃ m, stored_node st c m ∧ (format m = f ∧ level m = Z.of_nat h ∧ keys m ≠ []) ∧
    match h with
    | O => leaf m = true ∧ sub = zip (keys m) (vals m)
    | S h' => leaf m = false ∧ ∃ subs, Forall2 (subtree st f h') (vals m) subs ∧ Forall2 starts_with (keys m) subs ∧ sub = concat subs
    end) as (m & Hm & (_ & _ & Hne) & Hes) by (by destruct h).
  destruct (load_child_ok it h rn n subs idx c m e He Hi Hc Hm) as (rm & e' & Hl & Hv & He').
  unfold descend_next_child. rewrite (action_bind_Ok (run _) _ e (rn, idx) e) by (unfold run; by rewrite Hst).
  cbn [fst snd]. rewrite (action_bind_Ok _ _ _ _ _ Hl). eexists _, e'. split; [done|]. split; [done|]. split; [done|].
  assert (climbs h ((rn, idx) :: below) (concat (drop (S idx) subs) ++ rest)) as Hcl' by (by eapply climbs_cons).
  rewrite (drop_S _ _ _ Hsub). cbn [concat]. rewrite <- app_assoc. cbn [set_position].
  assert (0 < length (keys m))%nat as Hpos by (destruct (keys m); [done|cbn; lia]). split.
  - destruct h as [|h].
    + destruct Hes as [Hlf ->]. change (zip (keys m) (vals m)) with (drop 0 (leaf_entries m)).
      eapply ahead_leaf; [cbn; by rewrite Hst|done|done|done|done].
    + destruct Hes as (Hlf & subs' & Hsubs' & Hst'' & ->). change (concat subs') with (concat (drop 0 subs')).
      eapply ahead_inner; [cbn; by rewrite Hst| |by rewrite <- (Forall2_length _ _ _ Hst'')|done|done].
      constructor; [done|done| |done|done]. pose proof (in_height _ _ _ _ _ _ _ Hi). lia.
  - intros rn' idx' below'. cbn. intros [= <- <- _]. by rewrite (v_len _ _ Hv).
Qed.

(** *** [next] *)
(** Inside a leaf there is an entry to take. *)
Lemma in_leaf_entry it k rem r :
  ahead it k rem → next_in_leaf it = Some r →
  ∃ rn idx below n rest le, it_stack it = (rn, idx) :: below ∧ it_leaf_end it = Some le ∧ view rn n ∧ leaf n = true ∧
    climbs 0 below rest ∧ (idx < rn_len rn)%nat ∧ (idx < le)%nat ∧ leaf_bound it rn idx ∧
    rem = drop idx (leaf_entries n) ++ rest.
Proof.
  intros Ha Hr. unfold next_in_leaf in Hr.
  destruct Ha as [Hst Hle|rn idx below n rest Hst Hv Hl Hlb Hcl|h rn idx below n subs rest Hst Hi Hidx Hle Hcl];
    rewrite Hst in Hr; [done| |by rewrite Hle in Hr].
  destruct (it_leaf_end it) as [le|] eqn:Hle; [|done]. destruct (Nat.ltb_spec idx le) as [Hlt|]; [|by rewrite andb_false_r in Hr].
  exists rn, idx, below, n, rest, le. do 5 (split; [done|]). split; [|done].
  unfold leaf_bound in Hlb. rewrite Hle in Hlb. destruct Hlb as [Hle' _].
  destruct (leaf_end_ok rn n (it_end it) Hv) as (le' & Hle'' & Hlen & _). rewrite Hle' in Hle''. apply Ok_inj in Hle'' as <-. lia.
Qed.

(** An iterator that will yield [out]. *)
Definition yields (it : RangeIter) (out : list kv) : Prop :=
  ∃ it0 k rem, position_at_start it = Ok it0 ∧ it_started it0 = true ∧ it_end it0 = it_end it ∧
    ahead it0 k rem ∧ ascending rem ∧ upto (it_end it) rem = out ∧
    (∀ r, next_in_leaf it = Some r → it_started it = true ∧ it_last_location it ≠ None).

Lemma started_yields it k rem :
  it_started it = true → ahead it k rem → ascending rem → (∃ x, last_is it x) ∨ upto (it_end it) rem = [] →
  yields it (upto (it_end it) rem).
Proof.
  intros Hs Ha Hasc Hlast. exists it, k, rem. unfold position_at_start. rewrite Hs. do 6 (split; [done|]).
  intros r Hr. split; [done|]. destruct Hlast as [(x & rn & j & -> & _)|Hnil]; [done|].
  destruct (in_leaf_entry it k rem r Ha Hr) as (rn & idx & below & n & rest & le & _ & Hle & Hv & _ & _ & Hlen & Hlt & Hlb & ->).
  unfold leaf_bound in Hlb. rewrite Hle in Hlb. destruct Hlb as [Hle' _].
  destruct (leaf_entries_at rn n idx Hv Hlen) as (key & v & Hx & Hk). rewrite (drop_S _ _ _ Hx) in Hnil. cbn [app] in Hnil.
  destruct (leaf_end_ok rn n (it_end it) Hv) as (le' & Hle'' & _ & Hb). rewrite Hle' in Hle''. apply Ok_inj in Hle'' as <-.
  rewrite upto_cons in Hnil; [done|]. rewrite (Hb idx key Hk). by apply bool_decide_eq_true_2.
Qed.

(** The result of [next] of an iterator with the end [end_] that will yield [out]. *)
Definition next_result (end_ : option bytes) (out : list kv)
    (res : outcome Error (option (outcome Error kv) * RangeIter) * ProllyEngine St) : Prop :=
  ∃ it' e', engine_manages f st e' ∧ it_end it' = end_ ∧
    match out with
    | [] => res = (Ok (None, it'), e') ∧ yields it' []
    | x :: out' => res = (Ok (Some (Ok x), it'), e') ∧ yields it' out' ∧ last_is it' x
    end.

Lemma next_round fuel it it' rem k step e :
  engine_manages f st e → it_started it = true → ascending rem → ready_step it = Ok (step, it') →
  stepped f st top it rem k step it' → (k ≤ fuel)%nat →
  (∀ it1 h e1, ahead it1 h rem → here it1 → it_started it1 = true → it_end it1 = it_end it → (h < fuel)%nat →
    engine_manages f st e1 → next_result (it_end it) (upto (it_end it) rem) (next_loop fuel it1 e1)) →
  next_result (it_end it) (upto (it_end it) rem) (next_loop (S fuel) it e).
Proof.
  intros He Hs Hasc Hr [[Hend Hst] Hstep] Hk IH. cbn [next_loop].
  rewrite (action_bind_Ok (run _) _ e (step, it') e) by (unfold run; by rewrite Hr). rewrite Hs in Hst.
  destruct step as [| | |error]; [| | |done].
  - destruct Hstep as (x & rem' & -> & Hb & Ha & Hlast). destruct x as [key v]. rewrite upto_cons by done.
    pose proof Hlast as (rn & j & -> & Hx & _). rewrite Hx. exists it', e. do 2 (split; [done|]). split; [done|].
    split; [|done]. rewrite <- Hend. eapply started_yields; [done|done|by eapply ascending_app with (l1 := [_])|eauto].
  - destruct Hstep as [(h & ->) Ha]. destruct (descend_ok it' h rem e He Ha) as (it1 & e1 & Hd & He1 & [Hend1 Hst1] & Ha1 & Hh).
    rewrite (action_bind_Ok (caught _) _ e (Ok it1) e1) by (unfold caught; by rewrite Hd).
    apply IH with (h := h); [done|done|congruence|congruence|lia|done].
  - destruct Hstep as [(k' & Ha) Hnil]. rewrite Hnil. exists it', e. do 2 (split; [done|]). split; [done|].
    rewrite <- Hend in Hnil. rewrite <- Hnil. eapply started_yields; [done|done|done|by right].
Qed.

Lemma ready_step_started it : it_started it = true → ready_step it = ready_loop (S (length (it_stack it))) it.
Proof. intros Hs. unfold ready_step, position_at_start. by rewrite Hs. Qed.

Lemma next_loop_here fuel it h rem e :
  ahead it h rem → here it → it_started it = true → ascending rem → (h < fuel)%nat → engine_manages f st e →
  next_result (it_end it) (upto (it_end it) rem) (next_loop fuel it e).
Proof.
  revert it h e. induction fuel as [|fuel IH]; intros it h e Ha Hh Hs Hasc Hlt He; [lia|].
  destruct (ready_here f st top (length (it_stack it)) it h rem Ha Hasc Hh) as (step & it' & Hr & Hstep).
  eapply next_round; [done|done|done|by rewrite ready_step_started|done|lia|].
  intros it1 h1 e1 Ha1 Hh1 Hs1 Hend1 Hlt1 He1. rewrite <- Hend1. by apply IH with (h := h1).
Qed.

Lemma next_loop_ok fuel it it0 k rem e :
  position_at_start it = Ok it0 → ahead it0 k rem → it_started it0 = true → ascending rem → (top < fuel)%nat →
  engine_manages f st e → next_result (it_end it0) (upto (it_end it0) rem) (next_loop fuel it e).
Proof.
  intros Hpos Ha Hs Hasc Hlt He. destruct fuel as [|fuel]; [lia|].
  assert (next_loop (S fuel) it e = next_loop (S fuel) it0 e) as ->.
  { cbn [next_loop]. assert (ready_step it = ready_step it0) as ->; [|done]. rewrite (ready_step_started it0 Hs).
    unfold ready_step. by rewrite Hpos. }
  destruct (ready_ok f st top it0 k rem Ha Hasc) as (step & it' & k' & Hr & Hstep).
  assert (step = StepNeedsChild → k' ≤ top)%nat as Hk'.
  { intros ->. destruct Hstep as [_ [(h & ->) Ha']]. inversion Ha' as [| |? rn idx below n subs rest _ Hi]; subst.
    apply (in_height _ _ _ _ _ _ _ Hi). }
  eapply next_round with (k := match step with StepNeedsChild => k' | _ => 0%nat end);
    [done|done|done|by rewrite ready_step_started| | |].
  - by destruct step.
  - destruct step; [lia|pose proof (Hk' eq_refl); lia|lia|lia].
  - intros it1 h1 e1 Ha1 Hh1 Hs1 Hend1 Hlt1 He1. rewrite <- Hend1. by eapply next_loop_here.
Qed.

Lemma next_ok fuel it out e :
  engine_manages f st e → yields it out → (top < fuel)%nat → next_result (it_end it) out (next fuel it e).
Proof.
  intros He (it0 & k & rem & Hpos & Hs0 & Hend & Ha & Hasc & <- & Hin) Hlt. unfold next.
  destruct (next_in_leaf it) as [[item it']|] eqn:Hn; [|rewrite <- Hend; by eapply next_loop_ok].
  destruct (Hin _ eq_refl) as [Hs Hlast]. clear Hin. unfold position_at_start in Hpos. rewrite Hs in Hpos. apply Ok_inj in Hpos as <-.
  destruct (in_leaf_entry it k rem _ Ha Hn) as (rn & idx & below & n & rest & le & Hst & Hle & Hv & Hl & Hcl & Hlen & Hlt' & Hlb & ->).
  unfold next_in_leaf in Hn. rewrite Hst, Hle in Hn. destruct (_ && _); [|done]. injection Hn as <- <-.
  unfold leaf_bound in Hlb. rewrite Hle in Hlb. destruct Hlb as [Hle' Hlb]. specialize (Hlb Hlt').
  set (it' := set_last _ _).
  destruct (take_entry f st top it it' rn idx below n rest le) as (x & rem' & Heq & Hb & Ha' & Hlast' & Hx); [done..| |].
  { cbn. destruct (it_last_location it) as [[last j]|]; [|done]. by rewrite Hlb. }
  rewrite Heq in *. destruct x as [key v]. rewrite upto_cons by done. rewrite Hx. exists it', e. do 2 (split; [done|]).
  split; [done|]. split; [|done].
  eapply (started_yields it'); [done|done|by eapply ascending_app with (l1 := [_])|eauto].
Qed.

(** *** Positioning *)
(** Where the way to a key splits the children of a node. *)
Lemma way_splits ks subs key idx sub :
  Forall2 starts_with ks subs → ascending (concat subs) → StronglySorted blt ks →
  idx = match search ks key with Found i => i | Insert i => (i - 1)%nat end → subs !! idx = Some sub →
  (∀ k, k ∈ fst <$> concat (take idx subs) → (k < key)%key) ∧ (∀ k, k ∈ fst <$> concat (drop (S idx) subs) → (key < k)%key).
Proof.
  intros Hst Hasc Hs Hidx Hsub. pose proof (search_index ks key Hs) as Hix.
  assert ((idx = 0%nat ∨ last_at_most ks key idx) ∧ (∀ j k, (idx < j)%nat → ks !! j = Some k → (key < k)%key)) as [Hlow Hup].
  { destruct (search ks key) as [i|[|i]]; subst idx.
    - split; [by right; apply Hix|]. destruct Hix as [(_ & _ & _ & Hup) _]. exact Hup.
    - split; [by left|]. intros j k _. apply Hix.
    - replace (S i - 1)%nat with i by lia. split; [by right; apply Hix|]. destruct Hix as [(_ & _ & _ & Hup) _]. exact Hup. }
  destruct (list_elem_of_split_length subs idx sub Hsub) as (pre & post & -> & Hlen).
  rewrite Hlen, take_app_length, drop_app_ge by lia. replace (S (length pre) - length pre)%nat with 1%nat by lia. cbn [drop]. split.
  - intros k Hk. destruct Hlow as [->|(k0 & Hk0 & Hle & _)]; [destruct pre; [by apply not_elem_of_nil in Hk|done]|].
    eapply blt_le_trans; [|exact Hle]. rewrite concat_app in Hasc. destruct (ascending_app _ _ Hasc) as (_ & _ & Hlt).
    apply Hlt; [done|]. cbn [concat]. rewrite fmap_app, elem_of_app. left. apply starts_with_head. by eapply Forall2_lookup_lr.
  - intros k Hk. destruct post as [|sub' post]; [by apply not_elem_of_nil in Hk|].
    assert ((pre ++ sub :: sub' :: post) !! S idx = Some sub') as Hs'.
    { rewrite Hlen, lookup_app_r by lia. by replace (S (length pre) - length pre)%nat with 1%nat by lia. }
    destruct (Forall2_lookup_r _ _ _ _ _ Hst Hs') as (k1 & Hk1 & v1 & rest1 & ->).
    eapply blt_le_trans; [apply (Hup (S idx) k1); [lia|exact Hk1]|].
    rewrite concat_app in Hasc. destruct (ascending_app _ _ Hasc) as (_ & Hasc2 & _). cbn [concat app] in Hasc2, Hk.
    destruct (ascending_app _ _ Hasc2) as (_ & Hasc3 & _). by eapply ascending_head.
Qed.

Lemma read_path_ok fuel h cid key path es rest e :
  engine_manages f st e → subtree st f h cid es → ascending es → (h < fuel)%nat → (h ≤ top)%nat →
  climbs h path rest → (∀ k, k ∈ fst <$> rest → (key < k)%key) →
  ∃ rn n idx below pre rest' e', read_path fuel cid key path e = (Ok ((rn, idx) :: below), e') ∧ engine_manages f st e' ∧
    view rn n ∧ leaf n = true ∧ climbs 0 below rest' ∧ es ++ rest = pre ++ leaf_entries n ++ rest' ∧
    (∀ k, k ∈ fst <$> pre → (k < key)%key) ∧ (∀ k, k ∈ fst <$> rest' → (key < k)%key).
Proof.
  intros He Hsub Hasc Hfuel Htop Hcl Hrest. revert fuel cid path es rest e He Hsub Hasc Hfuel Htop Hcl Hrest.
  induction h as [|h IH]; intros [|fuel] cid path es rest e He Hsub Hasc Hfuel Htop Hcl Hrest; [lia| |lia|];
    destruct Hsub as (n & Hn & (Hf & _ & Hne) & Hes); cbn [read_path]; unfold load_read_arc;
    destruct (load_read_mode_ok f st Admit cid n e He Hn Hf) as (rn & e1 & Hl & Hv & He1); rewrite (action_bind_Ok _ _ _ _ _ Hl);
    (assert (rn_is_empty rn = false) as ->;
      [apply bool_decide_eq_false_2; intros Hnil; apply Hne, length_zero_iff_nil; rewrite <- (v_len _ _ Hv); unfold rn_len; by rewrite Hnil|]);
    rewrite (action_bind_Ok (run _) _ e1 (search (keys n) key) e1) by (unfold run; by rewrite (rn_search_view rn n key Hv));
    set (idx := match search (keys n) key with Found i => i | Insert i => (i - 1)%nat end);
    unfold rn_is_leaf; rewrite <- (v_leaf _ _ Hv).
  - destruct Hes as [Hlf ->]. rewrite Hlf. exists rn, n, idx, path, [], rest, e1. split; [done|]. split; [done|]. split; [done|].
    split; [done|]. split; [done|]. split; [done|]. split; [by intros k ?%not_elem_of_nil|done].
  - destruct Hes as (Hlf & subs & Hsubs & Hst & ->). rewrite Hlf. destruct (stored_node_sorted _ _ _ Hn) as [Hs Hlen].
    assert (idx < length subs)%nat as Hidx.
    { rewrite <- (Forall2_length _ _ _ Hst). assert (0 < length (keys n))%nat by (destruct (keys n); [done|cbn; lia]).
      pose proof (search_correct (keys n) key Hs) as Hat. subst idx. destruct (search (keys n) key) as [i|i]; cbn in Hat.
      - by eapply lookup_lt_Some.
      - destruct Hat as [Hi _]. lia. }
    destruct (lookup_lt_is_Some_2 subs idx Hidx) as [sub Hsub].
    destruct (Forall2_lookup_r _ _ _ _ _ Hsubs Hsub) as (c & Hc & Hcsub).
    destruct (way_splits (keys n) subs key idx sub Hst Hasc Hs eq_refl Hsub) as [Hlow Hup].
    assert (inner h rn n subs) as Hi by (constructor; [done|done|lia|done|done]).
    rewrite (action_bind_Ok (run _) _ e1 c e1) by (unfold run; by rewrite (inner_child _ _ _ _ _ _ Hi Hc)).
    destruct (IH fuel c ((rn, idx) :: path) sub (concat (drop (S idx) subs) ++ rest) e1)
      as (rn' & n' & i' & below & pre & rest' & e' & Hrun & He' & Hv' & Hl' & Hcl' & Heq & Hpre & Hpost);
      [done|done|by eapply ascending_part|lia|lia|by eapply climbs_cons| |].
    { intros k. rewrite fmap_app, elem_of_app. intros [Hk|Hk]; [by apply Hup|by apply Hrest]. }
    exists rn', n', i', below, (concat (take idx subs) ++ pre), rest', e'. do 5 (split; [done|]). split.
    + rewrite <- (take_drop idx subs) at 1. rewrite concat_app, <- !app_assoc. f_equal.
      rewrite (drop_S _ _ _ Hsub). cbn [concat]. rewrite <- app_assoc. exact Heq.
    + split; [|done]. intros k. rewrite fmap_app, elem_of_app. intros [Hk|Hk]; [by apply Hlow|by apply Hpre].
Qed.

(** *** New iterators *)
Definition iter_of (skip : bool) (stack : list (ReadNode * nat)) (start : bytes) (end_ : option bytes) : RangeIter :=
  if skip then RangeIter_new_after stack start end_ else RangeIter_new stack start end_.
Definition from_start (skip : bool) (start k : bytes) : bool := if skip then bltb start k else bleb start k.
Definition scan_window (skip : bool) (start : bytes) (end_ : option bytes) : Window :=
  if skip then page_window (Some start) end_ else range_window start end_.

Lemma scan_window_in skip start end_ k :
  w_in (scan_window skip start end_) k = from_start skip start k && before_end k end_.
Proof. by destruct skip. Qed.

Lemma inside_ext w w' es : (∀ k, k ∈ fst <$> es → w_in w k = w_in w' k) → inside w es = inside w' es.
Proof.
  induction es as [|e es IH]; intros Heq; [done|]. unfold inside in *. cbn [List.filter].
  rewrite (Heq e.1) by apply list_elem_of_here. rewrite IH; [done|]. intros k Hk. apply Heq. by apply list_elem_of_further.
Qed.

Lemma inside_upto skip start end_ es :
  (∀ k, k ∈ fst <$> es → from_start skip start k = true) → inside (scan_window skip start end_) es = upto end_ es.
Proof. intros Hall. apply inside_ext. intros k Hk. by rewrite scan_window_in, (Hall k Hk). Qed.

Lemma outside_start skip start end_ es :
  (∀ k, k ∈ fst <$> es → from_start skip start k = false) → inside (scan_window skip start end_) es = [].
Proof. intros Hall. apply inside_none. intros k Hk. by rewrite scan_window_in, (Hall k Hk). Qed.

Lemma from_start_lt skip start k : (k < start)%key → from_start skip start k = false.
Proof. intros Hlt. destruct skip; cbn; [by apply bltb_ge, blt_le|by apply bleb_gt]. Qed.
Lemma from_start_gt skip start k : (start < k)%key → from_start skip start k = true.
Proof. intros Hlt. destruct skip; cbn; [by apply bltb_lt|by apply bleb_le, blt_le]. Qed.

Definition start_index (skip : bool) (ks : list bytes) (start : bytes) : nat :=
  match search ks start with Found i => if skip then (i + 1)%nat else i | Insert i => i end.

Lemma start_index_bound skip ks start j k :
  StronglySorted blt ks → ks !! j = Some k → from_start skip start k = bool_decide (start_index skip ks start ≤ j)%nat.
Proof.
  intros Hs Hk. pose proof (search_correct ks start Hs) as Hat. unfold start_index.
  destruct (search ks start) as [i|i]; cbn in Hat.
  - destruct (Nat.lt_trichotomy i j) as [Hlt|[<-|Hgt]].
    + rewrite from_start_gt by (by apply (sorted_lookup ks i j)). symmetry. apply bool_decide_eq_true_2. destruct skip; lia.
    + rewrite Hk in Hat. injection Hat as ->. destruct skip; cbn [from_start]; symmetry.
      * rewrite (proj2 (bltb_ge start start)) by apply ble_refl. apply bool_decide_eq_false_2. lia.
      * rewrite (proj2 (bleb_le start start)) by apply ble_refl. by apply bool_decide_eq_true_2.
    + rewrite from_start_lt by (by apply (sorted_lookup ks j i)). symmetry. apply bool_decide_eq_false_2. destruct skip; lia.
  - destruct Hat as (_ & Hlow & Hup). case_bool_decide as Hj.
    + apply from_start_gt. by apply (Hup j).
    + apply from_start_lt. apply (Hlow j); [lia|done].
Qed.

Lemma leaf_from_start skip start end_ rn n :
  view rn n → inside (scan_window skip start end_) (leaf_entries n) = upto end_ (drop (start_index skip (keys n) start) (leaf_entries n)).
Proof.
  intros Hv. set (idx := start_index _ _ _). rewrite <- (take_drop idx (leaf_entries n)) at 1. rewrite inside_app.
  assert (∀ j x, leaf_entries n !! j = Some x → from_start skip start x.1 = bool_decide (idx ≤ j)%nat) as Hb.
  { intros j x He. apply (start_index_bound skip (keys n) start j); [apply (v_sorted _ _ Hv)|].
    unfold leaf_entries in He. apply lookup_zip_with_Some in He as (k & v & -> & Hk & _). done. }
  rewrite outside_start, inside_upto; [done| |].
  - intros k (x & -> & [j He]%list_elem_of_lookup)%list_elem_of_fmap. rewrite lookup_drop in He.
    rewrite (Hb _ x He). apply bool_decide_eq_true_2. lia.
  - intros k (x & -> & [j He]%list_elem_of_lookup)%list_elem_of_fmap. apply lookup_take_Some in He as [He Hj].
    rewrite (Hb _ x He). apply bool_decide_eq_false_2. lia.
Qed.

Lemma fresh_yields skip start end_ rn i below n pre rest :
  view rn n → leaf n = true → climbs 0 below rest → ascending (pre ++ leaf_entries n ++ rest) →
  (∀ k, k ∈ fst <$> pre → (k < start)%key) → (∀ k, k ∈ fst <$> rest → (start < k)%key) →
  yields (iter_of skip ((rn, i) :: below) start end_) (inside (scan_window skip start end_) (pre ++ leaf_entries n ++ rest)).
Proof.
  intros Hv Hl Hcl Hasc Hpre Hrest. rewrite !inside_app, outside_start, (leaf_from_start _ _ _ rn n Hv), (inside_upto _ _ _ rest).
  2: { intros k Hk. by apply from_start_gt, Hrest. }
  2: { intros k Hk. by apply from_start_lt, Hpre. }
  cbn [app]. unfold upto. rewrite <- inside_app. set (idx := start_index _ _ _). set (it := iter_of _ _ _ _).
  destruct (leaf_end_ok rn n end_ Hv) as (le & Hle & _).
  exists (set_position (set_started it) ((rn, idx) :: below) (Some le)), 0%nat, (drop idx (leaf_entries n) ++ rest).
  split.
  { unfold position_at_start, it, iter_of, idx, start_index. destruct skip;
      cbn [RangeIter_new RangeIter_new_after it_started set_started it_stack it_start_key it_skip_start_key it_end];
      unfold rn_is_leaf; rewrite <- (v_leaf _ _ Hv), Hl, (rn_search_view rn n start Hv); cbn [mbind outcome_bind]; by rewrite Hle. }
  split; [done|]. split; [done|]. split.
  { eapply ahead_leaf; [done|done|done| |done]. unfold leaf_bound, it, iter_of. by destruct skip. }
  split; [|split; [by unfold it, iter_of; destruct skip|]].
  - destruct (ascending_app _ _ Hasc) as (_ & Hasc2 & _). rewrite <- (take_drop idx (leaf_entries n)) in Hasc2.
    rewrite <- app_assoc in Hasc2. by destruct (ascending_app _ _ Hasc2) as (_ & ? & _).
  - intros r. unfold next_in_leaf, it, iter_of. by destruct skip.
Qed.

Lemma empty_yields skip start end_ : yields (iter_of skip [] start end_) [].
Proof.
  exists (set_started (iter_of skip [] start end_)), 0%nat, []. destruct skip; (split; [done|]); (split; [done|]); (split; [done|]);
    (split; [by constructor|]); (split; [constructor|]); done.
Qed.
End iteration.

(** ** Scans of a stored tree *)
Section scans.
Context `{HashesOk} {St : Type} `{StoreOk St} `{!ReadStore St} `{!ReadStoreOk St}.
Context (st : gmap bytes bytes) (tree : Tree) (h : nat) (es : list kv).
Context (Hh : tree_holds st tree h es).

Implicit Types e : ProllyEngine St.
Abbreviation f := (Config.format (t_config tree)).
Abbreviation yields := (yields f st h).

Definition create_iter (skip : bool) (fuel : nat) (start : bytes) (end_ : option bytes) : eng St RangeIter :=
  if skip then create_range_after_iter fuel tree start end_ else create_range_iter fuel tree start end_.

Lemma create_ok skip fuel start end_ e :
  engine_manages f st e → (h < fuel)%nat →
  ∃ it e', create_iter skip fuel start end_ e = (Ok it, e') ∧ engine_manages f st e' ∧ it_end it = end_ ∧
    yields it (inside (scan_window skip start end_) es).
Proof.
  intros He Hfuel.
  assert (create_iter skip fuel start end_ e =
    ((if ends_at_or_before end_ start then mret (iter_of skip [] start end_)
      else find_read_path_arcs fuel tree start ≫= λ path : list (ReadNode * nat), mret (iter_of skip path start end_)) : eng St RangeIter) e) as ->
    by (by destruct skip).
  destruct (ends_at_or_before end_ start) eqn:Hends.
  { exists (iter_of skip [] start end_), e. split; [done|]. split; [done|]. split; [by destruct skip|].
    rewrite inside_empty; [apply empty_yields|]. intros k. destruct skip; [by apply page_empty|by apply range_empty]. }
  unfold find_read_path_arcs, tree_holds in *. destruct (t_root tree) as [root|].
  - destruct Hh as [Hsub Hasc].
    destruct (read_path_ok f st h fuel h root start [] es [] e) as (rn & n & idx & below & pre & rest & e' & Hrun & He' & Hv & Hl & Hcl & Heq & Hpre & Hrest);
      [done|done|done|done|done|constructor|by intros k ?%not_elem_of_nil|].
    rewrite (action_bind_Ok _ _ _ _ _ Hrun). eexists _, e'. split; [done|]. split; [done|]. split; [by destruct skip|].
    rewrite app_nil_r in Heq. rewrite Heq in *. by apply fresh_yields.
  - rewrite Hh. exists (iter_of skip [] start end_), e. split; [done|]. split; [done|]. split; [by destruct skip|]. apply empty_yields.
Qed.

Lemma collect_items_ok fuel rounds it out acc e :
  engine_manages f st e → yields it out → (h < fuel)%nat → (length out < rounds)%nat →
  ∃ e', collect_items fuel rounds it acc e = (Ok (acc ++ out), e') ∧ engine_manages f st e'.
Proof.
  intros He Hy Hfuel. revert rounds it acc e He Hy; induction out as [|x out IH]; intros [|rounds] it acc e He Hy Hr; cbn in Hr; try lia;
    cbn [collect_items]; destruct (next_ok f st h fuel it _ e He Hy Hfuel) as (it' & e' & He' & _ & Hres).
  - destruct Hres as [Hn _]. rewrite (action_bind_Ok _ _ _ _ _ Hn). exists e'. by rewrite app_nil_r.
  - destruct Hres as (Hn & Hy' & _). rewrite (action_bind_Ok _ _ _ _ _ Hn). cbn [fst snd].
    rewrite (action_bind_Ok (run _) _ e' x e') by done.
    destruct (IH rounds it' (acc ++ [x]) e' He' Hy') as (e2 & Hc & He2); [lia|]. exists e2. by rewrite Hc, <- app_assoc.
Qed.

Lemma take_items_ok fuel limit it out acc e :
  engine_manages f st e → yields it out → (h < fuel)%nat →
  ∃ it' e', take_items fuel limit it acc e = (Ok (bool_decide (limit ≤ length out)%nat, acc ++ take limit out, it'), e') ∧
    engine_manages f st e' ∧ it_end it' = it_end it ∧ yields it' (drop limit out) ∧
    (∀ x, (limit ≤ length out)%nat → list.last (take limit out) = Some x → last_is it' x).
Proof.
  intros He Hy Hfuel. revert it out acc e He Hy; induction limit as [|limit IH]; intros it out acc e He Hy.
  { exists it, e. cbn. rewrite app_nil_r, drop_0. by rewrite bool_decide_eq_true_2 by lia. }
  cbn [take_items]. destruct (next_ok f st h fuel it _ e He Hy Hfuel) as (it' & e' & He' & Hend & Hres).
  destruct out as [|x out].
  - destruct Hres as [Hn Hy']. rewrite (action_bind_Ok _ _ _ _ _ Hn). exists it', e'. cbn. by rewrite app_nil_r.
  - destruct Hres as (Hn & Hy' & Hlast). rewrite (action_bind_Ok _ _ _ _ _ Hn). cbn [fst snd].
    rewrite (action_bind_Ok (run _) _ e' x e') by done.
    destruct (IH it' out (acc ++ [x]) e' He' Hy') as (it2 & e2 & Ht & He2 & Hend2 & Hy2 & Hlast2). exists it2, e2.
    rewrite Ht, <- app_assoc. cbn [length take drop app]. split; [|split; [done|split; [congruence|split; [done|]]]].
    + do 3 f_equal. do 2 f_equal. apply bool_decide_ext. lia.
    + intros y Hlen Hy0. destruct limit as [|limit]; [|destruct out as [|z out]; [cbn in Hlen; lia|]].
      * injection Hy0 as <-. assert (it2 = it') as -> by (unfold take_items, mret, action_ret in Ht; congruence). done.
      * apply Hlast2; [cbn in *; lia|]. by rewrite <- Hy0.
Qed.
End scans.
End RangeSpec.
