(* ===== verification/DiffSpec.v ===== *)
(** * Differences of two maps

    The differences between two maps, in the order of their keys, as what the merge of
    two ordered lists of entries computes; and what a verified page of them says. *)

From Stdlib Require Import ZArith Lia Strings.Byte.
From stdpp Require Import base tactics numbers list strings option gmap sorting.
From S2P Require Import Prelude Cursor Types Format Node ReadNode Store NodeCache Emitter Builder Entries TreeSpec Engine EngineSpec BuiltTree Write WriteSpec Loader LoaderSpec Key Range Proof ProofSpec WindowSpec ProofTheorems.
Import Format Node ReadNode Store NodeCache Builder Entries TreeSpec Engine EngineSpec BuiltTree Write Loader LoaderSpec Proof ProofSpec WindowSpec ProofTheorems.
Import Range(RangeCursor(..), rc_after, RangeCursor_start, after_key).

Local Open Scope Z_scope.

Module DiffSpec.

(** ** Differences *)
Definition diff_between (base other : gmap bytes bytes) (d : Diff) : Prop :=
  match d with
  | Added k v => base !! k = None ∧ other !! k = Some v
  | Removed k v => base !! k = Some v ∧ other !! k = None
  | Changed k old new => base !! k = Some old ∧ other !! k = Some new ∧ old ≠ new
  end.

(** In the order of their keys. *)
Definition in_key_order (ds : list Diff) : Prop := StronglySorted blt (Diff_key <$> ds).

(** The differences with the given property of their keys. *)
Definition differences (p : bytes → Prop) (base other : gmap bytes bytes) (ds : list Diff) : Prop :=
  in_key_order ds ∧ ∀ d, d ∈ ds ↔ diff_between base other d ∧ p (Diff_key d).

Lemma in_key_order_cons d ds :
  in_key_order (d :: ds) ↔ in_key_order ds ∧ ∀ d', d' ∈ ds → (Diff_key d < Diff_key d')%key.
Proof.
  unfold in_key_order. cbn [fmap list_fmap]. split.
  - intros [Hs Hall]%StronglySorted_inv. split; [done|]. intros d' Hd'. rewrite Forall_fmap, Forall_forall in Hall. by apply Hall.
  - intros [Hs Hall]. constructor; [done|]. apply Forall_fmap, Forall_forall. exact Hall.
Qed.

(** Ordered lists of differences are determined by their elements. *)
Lemma in_key_order_unique a b :
  in_key_order a → in_key_order b → (∀ d, d ∈ a ↔ d ∈ b) → a = b.
Proof.
  revert b; induction a as [|x a IH]; intros [|y b] Ha Hb Hab; [done| | |].
  - destruct (not_elem_of_nil y). apply Hab. by left.
  - destruct (not_elem_of_nil x). apply Hab. by left.
  - apply in_key_order_cons in Ha as [Ha Hxa], Hb as [Hb Hyb].
    assert (x = y) as ->.
    { assert (x ∈ y :: b) as [|Hx]%elem_of_cons by (apply Hab; by left); [done|].
      assert (y ∈ x :: a) as [|Hy]%elem_of_cons by (apply Hab; by left); [done|].
      destruct (blt_irrefl (Diff_key x)). eapply blt_trans; [by apply Hxa|by apply Hyb]. }
    f_equal. apply IH; [done|done|]. intros d. split; intros Hd.
    + assert (d ∈ y :: b) as [->|]%elem_of_cons by (apply Hab; by right); [|done].
      destruct (blt_irrefl (Diff_key y)). by apply Hxa.
    + assert (d ∈ y :: a) as [->|]%elem_of_cons by (apply Hab; by right); [|done].
      destruct (blt_irrefl (Diff_key y)). by apply Hyb.
Qed.

Lemma differences_unique p base other a b : differences p base other a → differences p base other b → a = b.
Proof. intros [Ha Hina] [Hb Hinb]. apply in_key_order_unique; [done|done|]. intros d. by rewrite Hina, Hinb. Qed.

(** ** The merge *)
Abbreviation diffs_of a b ds := (differences (λ _, True) (final_map a) (final_map b) ds).

Lemma diff_eq base other :
  diff_verified_entries base other =
  match base, other with
  | [], _ => added <$> other
  | _, [] => removed <$> base
  | (bk, bv) :: base', (ok, ov) :: other' =>
      match bcmp bk ok with
      | Lt => Removed bk bv :: diff_verified_entries base' other
      | Gt => Added ok ov :: diff_verified_entries base other'
      | Eq => (if bool_decide (bv = ov) then [] else [Changed bk bv ov]) ++ diff_verified_entries base' other'
      end
  end.
Proof. by destruct base, other. Qed.

Lemma ascending_lt (l : list kv) k x v : (∀ y, y ∈ fst <$> l → (k < y)%key) → final_map l !! x = Some v → ascending l → (k < x)%key.
Proof.
  intros Hl Hx Hasc. apply Hl. apply (final_map_elem l x v Hasc) in Hx. apply list_elem_of_fmap. by exists (x, v).
Qed.

Lemma final_map_at (l : list kv) k v x : (∀ y, y ∈ fst <$> l → (k < y)%key) → ascending l →
  final_map l !! x = Some v → x ≠ k ∧ (k < x)%key.
Proof. intros Hl Hasc Hx. pose proof (ascending_lt l k x v Hl Hx Hasc) as Hlt. split; [|done]. by apply not_eq_sym, blt_neq. Qed.

(** The key of a difference is above a bound of both sides. *)
Lemma diff_above a b k d :
  ascending a → ascending b → (∀ y, y ∈ fst <$> a → (k < y)%key) → (∀ y, y ∈ fst <$> b → (k < y)%key) →
  diff_between (final_map a) (final_map b) d → (k < Diff_key d)%key.
Proof.
  intros Ha Hb Hla Hlb Hd. destruct d; cbn in Hd |- *.
  - destruct Hd. by eapply (ascending_lt b).
  - destruct Hd. by eapply (ascending_lt a).
  - destruct Hd. by eapply (ascending_lt a).
Qed.

(** The difference at a key. *)
Definition diff_at (k : bytes) (oa ob : option bytes) : list Diff :=
  match oa, ob with
  | Some v, None => [Removed k v]
  | None, Some v => [Added k v]
  | Some v, Some v' => if bool_decide (v = v') then [] else [Changed k v v']
  | None, None => []
  end.

Lemma diff_at_iff base other k d :
  d ∈ diff_at k (base !! k) (other !! k) ↔ diff_between base other d ∧ Diff_key d = k.
Proof.
  unfold diff_at. destruct (base !! k) as [v|] eqn:Ha, (other !! k) as [v'|] eqn:Hb; [case_bool_decide|..];
    rewrite ?list_elem_of_singleton, ?elem_of_nil; (split; [intros Hd; subst; try done|intros [Hd <-]; destruct d; cbn in *; naive_solver]).
Qed.

(** One step: the smallest key of both sides, and what follows. *)
Lemma diff_step a b k (oa ob : option bytes) rest a' b' :
  ascending a' → ascending b' → (∀ y, y ∈ fst <$> a' → (k < y)%key) → (∀ y, y ∈ fst <$> b' → (k < y)%key) →
  (∀ x, final_map a !! x = if decide (x = k) then oa else final_map a' !! x) →
  (∀ x, final_map b !! x = if decide (x = k) then ob else final_map b' !! x) →
  diffs_of a' b' rest → diffs_of a b (diff_at k oa ob ++ rest).
Proof.
  intros Ha' Hb' Hla Hlb Hxa Hxb [Hord Hin].
  assert (∀ d, d ∈ diff_at k oa ob ↔ diff_between (final_map a) (final_map b) d ∧ Diff_key d = k) as Hhd.
  { assert (final_map a !! k = oa) as <- by (by rewrite Hxa, decide_True).
    assert (final_map b !! k = ob) as <- by (by rewrite Hxb, decide_True). apply diff_at_iff. }
  assert (∀ d, Diff_key d ≠ k → diff_between (final_map a) (final_map b) d ↔ diff_between (final_map a') (final_map b') d) as Hne.
  { intros d Hd. destruct d; cbn in Hd |- *; by rewrite Hxa, Hxb, !decide_False by done. }
  assert (∀ d, d ∈ rest → (k < Diff_key d)%key) as Habove.
  { intros d [Hd _]%Hin. by apply (diff_above a' b' k d). }
  split.
  - assert (∀ h, (∀ d, d ∈ h → Diff_key d = k) → (length h ≤ 1)%nat → in_key_order (h ++ rest)) as Hcat.
    { intros [|d [|]] Hh Hl; [done| |cbn in Hl; lia]. cbn [app]. apply in_key_order_cons. split; [done|].
      intros d' Hd'. rewrite (Hh d) by (by left). by apply Habove. }
    apply Hcat; [intros d Hd; by apply Hhd|]. unfold diff_at. destruct oa, ob; [case_bool_decide|..]; cbn; lia.
  - intros d. rewrite elem_of_app, Hhd, Hin. destruct (decide (Diff_key d = k)) as [Hk|Hk].
    + split; [intros [[? _]|[Hd _]]; [done|]|tauto]. assert (d ∈ rest) as Hr by (by apply Hin).
      apply Habove in Hr. rewrite Hk in Hr. by apply blt_irrefl in Hr.
    + rewrite (Hne d Hk). tauto.
Qed.

Lemma merge_diffs a b : ascending a → ascending b → diffs_of a b (diff_verified_entries a b).
Proof.
  remember (length a + length b)%nat as n eqn:Hn. revert a b Hn; induction n as [n IH] using lt_wf_ind; intros a b -> Ha Hb.
  assert (∀ l : list kv, ascending l → diffs_of l [] (removed <$> l)) as Hrem.
  { clear. induction l as [|[k v] l IHl]; intros Hl; [split; [constructor|]; intros d; split; [by intros ?%not_elem_of_nil|]|].
    { intros [Hd _]. destruct d; cbn in Hd; rewrite ?lookup_empty in Hd; naive_solver. }
    pose proof (ascending_tail _ _ _ Hl) as [Hl' Hlt].
    apply (diff_step _ _ k (Some v) None _ l []); try done; [constructor|by intros y ?%not_elem_of_nil| | |by apply IHl].
    - intros x. by apply final_map_cons.
    - intros x. by case_decide. }
  assert (∀ l : list kv, ascending l → diffs_of [] l (added <$> l)) as Hadd.
  { clear. induction l as [|[k v] l IHl]; intros Hl; [split; [constructor|]; intros d; split; [by intros ?%not_elem_of_nil|]|].
    { intros [Hd _]. destruct d; cbn in Hd; rewrite ?lookup_empty in Hd; naive_solver. }
    pose proof (ascending_tail _ _ _ Hl) as [Hl' Hlt].
    apply (diff_step _ _ k None (Some v) _ [] l); try done; [constructor|by intros y ?%not_elem_of_nil| | |by apply IHl].
    - intros x. by case_decide.
    - intros x. by apply final_map_cons. }
  rewrite diff_eq. destruct a as [|[ak av] a]; [by apply Hadd|]. destruct b as [|[bk bv] b]; [by apply Hrem|].
  pose proof (ascending_tail _ _ _ Ha) as [Ha' Hla]. pose proof (ascending_tail _ _ _ Hb) as [Hb' Hlb].
  destruct (bcmp ak bk) eqn:Hcmp.
  - apply bcmp_Eq in Hcmp as ->.
    apply (diff_step _ _ bk (Some av) (Some bv) _ a b); try done; [intros x; by apply final_map_cons..|].
    apply (IH (length a + length b)%nat); [cbn; lia|done..].
  - assert (∀ y, y ∈ fst <$> (bk, bv) :: b → (ak < y)%key) as Hlt.
    { intros y [->|Hy]%elem_of_cons; [done|]. eapply blt_trans; [exact Hcmp|by apply Hlb]. }
    apply (diff_step _ _ ak (Some av) None _ a ((bk, bv) :: b)); try done; [by intros x; apply final_map_cons| |].
    + intros x. case_decide; [subst; by apply final_map_none|done].
    + apply (IH (length a + length ((bk, bv) :: b))%nat); [cbn; lia|done..].
  - assert (bk < ak)%key as Hgt by (unfold blt; by rewrite bcmp_antisym, Hcmp).
    assert (∀ y, y ∈ fst <$> (ak, av) :: a → (bk < y)%key) as Hlt.
    { intros y [->|Hy]%elem_of_cons; [done|]. eapply blt_trans; [exact Hgt|by apply Hla]. }
    apply (diff_step _ _ bk None (Some bv) _ ((ak, av) :: a) b); try done; [|by intros x; apply final_map_cons|].
    + intros x. case_decide; [subst; by apply final_map_none|done].
    + apply (IH (length ((ak, av) :: a) + length b)%nat); [cbn; lia|done..].
Qed.

(** ** Pages *)
Lemma window_diffs w a b :
  ascending a → ascending b →
  differences (λ k, w_in w k = true) (final_map a) (final_map b) (diff_verified_entries (inside w a) (inside w b)).
Proof.
  intros Ha Hb. destruct (merge_diffs (inside w a) (inside w b)) as [Hord Hin]; [by apply inside_ascending..|].
  split; [done|]. intros d. rewrite Hin. destruct d; cbn [diff_between Diff_key]; rewrite !inside_lookup by done;
    destruct (w_in w _); naive_solver.
Qed.

Lemma split_at_key ds k :
  in_key_order ds → ∃ ds1 ds2, ds = ds1 ++ ds2 ∧ in_key_order ds1 ∧
    (∀ d, d ∈ ds1 → (Diff_key d < k)%key) ∧ (∀ d, d ∈ ds2 → (k ≤ Diff_key d)%key).
Proof.
  induction ds as [|d ds IH]; intros Hord.
  { exists [], []. split; [done|]. split; [constructor|]. split; intros d Hd; by apply not_elem_of_nil in Hd. }
  pose proof Hord as [Hds Hlt]%in_key_order_cons. destruct (bltb (Diff_key d) k) eqn:Hk.
  - destruct (IH Hds) as (ds1 & ds2 & -> & Ho & H1 & H2). exists (d :: ds1), ds2. split; [done|]. split; [|split; [|done]].
    + apply in_key_order_cons. split; [done|]. intros d' Hd'. apply Hlt. apply elem_of_app. by left.
    + intros d' [->|Hd']%elem_of_cons; [by apply bltb_lt|by apply H1].
  - apply bltb_ge in Hk. exists [], (d :: ds). split; [done|]. split; [constructor|].
    split; [by intros d' ?%not_elem_of_nil|]. intros d' [->|Hd']%elem_of_cons; [done|]. eapply ble_trans; [exact Hk|]. by apply blt_le, Hlt.
Qed.

(** The differences below a key come first. *)
Lemma differences_below (p q : bytes → Prop) k base other all ds :
  (∀ x, q x ↔ p x ∧ (x < k)%key) → differences p base other all → differences q base other ds → ∃ rest, all = ds ++ rest.
Proof.
  intros Hq [Hord Hin] Hds. destruct (split_at_key all k Hord) as (ds1 & ds2 & -> & Ho1 & Hlt & Hge). exists ds2. f_equal.
  eapply differences_unique; [|exact Hds]. split; [done|]. intros d. rewrite Hq. split.
  - intros Hd. split_and!; [apply Hin, elem_of_app; by left|apply Hin, elem_of_app; by left|by apply Hlt].
  - intros (Hd & Hp & Hk). assert (d ∈ ds1 ++ ds2) as [|Hd2]%elem_of_app by (by apply Hin); [done|].
    destruct (blt_irrefl (Diff_key d)). eapply blt_le_trans; [exact Hk|by apply Hge].
Qed.

Lemma page_below after end_ k x :
  key_in_page_range k after end_ = true → key_in_page_range x after (Some k) = true ↔ key_in_page_range x after end_ = true ∧ (x < k)%key.
Proof.
  unfold key_in_page_range. cbn [before_end]. rewrite !andb_true_iff, bltb_lt. intros [_ Hk]. split; [|tauto].
  intros [Ha Hx]. split_and!; [done| |done]. destruct end_ as [e|]; [|done]. cbn in Hk |- *. rewrite bltb_lt in *. by eapply blt_trans.
Qed.

Section pages.
Context `{HashesOk} (st : gmap bytes bytes).

(** The differences that a page verifies, against all that the caller asked for. *)
Lemma diff_page_ok tb hb esb to_ ho eso proof v all :
  tree_holds st tb hb esb → tree_holds st to_ ho eso → ascending esb → ascending eso →
  pp_root (dp_base proof) = t_root tb → pp_root (dp_other proof) = t_root to_ →
  Forall (genuine st) (pp_path (dp_base proof)) → Forall (genuine st) (pp_path (dp_other proof)) →
  0 ≤ dp_limit proof → verify_diff_page_proof proof = Ok v → dv_valid v = true →
  differences (λ k, key_in_page_range k (dv_after v) (dp_requested_end proof) = true) (final_map esb) (final_map eso) all →
  dv_diffs v = take (Z.to_nat (dp_limit proof)) all ∧
  match dv_next_cursor v with
  | None => dv_diffs v = all
  | Some c => dp_limit proof = 0 ∨ ∃ d, list.last (dv_diffs v) = Some d ∧ c = after_key (Diff_key d)
  end.
Proof.
  intros Hb Ho Hasb Haso Hrb Hro Hgb Hgo Hlim Hv Hvalid Hall. unfold verify_diff_page_proof in Hv.
  destruct (verify_range_page_proof (dp_base proof)) as [vb| |] eqn:Hvb; [|done..]. cbn [mbind outcome_bind] in Hv.
  destruct (verify_range_page_proof (dp_other proof)) as [vo| |] eqn:Hvo; [|done..]. cbn [mbind outcome_bind] in Hv.
  destruct (pv_valid vb && pv_valid vo && _) eqn:Hok; cbn [negb] in Hv; [|by injection Hv as <-].
  rewrite !andb_true_iff, !bool_decide_eq_true in Hok. destruct Hok as [[Hokb Hoko] [Hafter Hend]].
  pose proof (page_sound st tb hb esb _ _ Hb Hrb Hgb Hvb Hokb) as Heb.
  pose proof (page_sound st to_ ho eso _ _ Ho Hro Hgo Hvo Hoko) as Heo. rewrite <- Hafter, <- Hend in Heo.
  rewrite Heb, Heo in Hv. pose proof (window_diffs (page_window (pp_after (dp_base proof)) (pp_end (dp_base proof))) esb eso Hasb Haso) as Hw.
  set (ds := diff_verified_entries _ _) in *. cbn [page_window w_in] in Hw.
  destruct (dp_lookahead_base proof) as [lb|], (dp_lookahead_other proof) as [lo|].
  - destruct (verify_key_proof lb) as [kb| |]; [|done..]. cbn [mbind outcome_bind] in Hv.
    destruct (verify_key_proof lo) as [ko| |]; [|done..]. cbn [mbind outcome_bind] in Hv. injection Hv as <-.
    cbn [dv_valid dv_diffs dv_next_cursor dv_after] in Hvalid, Hall |- *. rewrite Hvalid.
    rewrite !andb_true_iff, Z.ltb_lt, Z.eqb_eq in Hvalid. destruct Hvalid as [[Hla Hpos] Hlen].
    unfold verify_diff_page_lookahead in Hla. destruct (_ || _); [done|]. destruct (_ || _) eqn:Hk; [done|].
    apply orb_false_iff in Hk as [Hpe Hk]. apply negb_false_iff in Hpe, Hk. apply bool_decide_eq_true in Hpe. rewrite Hpe in Hw.
    destruct (differences_below _ _ _ _ _ _ _ (λ x, page_below _ _ _ x Hk) Hall Hw) as (rest & ->).
    unfold len in Hlen. rewrite <- Hlen, Nat2Z.id, take_app_length. split; [done|].
    destruct (list.last ds) as [d|] eqn:Hlast; [right; by exists d|]. apply last_None in Hlast. rewrite Hlast in Hlen. cbn in Hlen. lia.
  - by injection Hv as <-.
  - by injection Hv as <-.
  - destruct (Z.eqb_spec (dp_limit proof) 0) as [Hz|Hnz]; injection Hv as <-;
      cbn [dv_valid dv_diffs dv_next_cursor dv_after] in Hvalid, Hall |- *; rewrite Hvalid.
    + apply bool_decide_eq_true in Hvalid. rewrite Hvalid, Hz. split; [done|by left].
    + rewrite andb_true_iff, bool_decide_eq_true, Z.leb_le in Hvalid. destruct Hvalid as [Hpe Hlen]. rewrite Hpe in Hw.
      rewrite (differences_unique _ _ _ _ _ Hall Hw). unfold len in Hlen. split; [|done]. rewrite take_ge by lia. done.
Qed.
End pages.

End DiffSpec.
