(* ===== verification/ProofContract.v ===== *)
(** * The contract of proofs

    Soundness against any maker of proofs, completeness of the engine's proofs,
    termination of verification, and the continuation cursor of pages of differences,
    which the lookahead proofs do not tie to the compared trees. *)

From Stdlib Require Import ZArith Lia Strings.Byte.
From stdpp Require Import base tactics numbers list strings option gmap sorting.
From S2P Require Import Prelude Cursor Types Format Boundary Node ReadNode Sizer Chunks ChunkSpec Store NodeCache Emitter EmitterSpec Builder Entries BuilderSpec TreeSpec Engine EngineSpec BuiltTree Write WriteSpec RebuildSpec FixedSpec Loader LoaderSpec CanonicalWrite Key Range Proof ProofSpec WindowSpec ProofTheorems DiffSpec.
Import Format Node ReadNode Store NodeCache Builder Entries BuilderSpec TreeSpec Engine EngineSpec BuiltTree Write Loader LoaderSpec CanonicalWrite Proof ProofSpec WindowSpec ProofTheorems DiffSpec.
Import Range(RangeCursor(..), rc_after, RangeCursor_start, after_key).

Local Open Scope Z_scope.

Module ProofContract.

(** Nodes that came in as bytes, none of them a forgery of a stored node. *)
Definition transported `{Hashes} (st : gmap bytes bytes) (path : list Node) : Prop :=
  (∃ bs, path_from_bytes bs = Ok path ∧ Forall vec_wf bs) ∧ Forall node_typed path ∧ no_forgery st path.

(** Every node of the path has a codec and fits the encoder's buffer. *)
Definition encodable (path : list Node) : Prop := Forall (λ n, ∃ b, to_bytes n = Ok b) path.

(** The entries of a range, and of a page. *)
Definition entries_in_range (es : list kv) (start : bytes) (end_ : option bytes) : list kv :=
  List.filter (λ e, key_in_range e.1 start end_) es.
Definition entries_in_page (es : list kv) (after end_ : option bytes) : list kv :=
  List.filter (λ e, key_in_page_range e.1 after end_) es.

Lemma transported_genuine `{HashesOk} st path : transported st path → Forall (genuine st) path.
Proof. intros ((bs & Hbs & Hwf) & Hty & Hno). by eapply decoded_genuine. Qed.

Lemma tree_holds_ascending `{Hashes} st tree h es : tree_holds st tree h es → ascending es.
Proof. unfold tree_holds. destruct (t_root tree); [by intros [_ ?]|intros ->; constructor]. Qed.

(** C9. Verified lookups are true, whoever made the proof: if decoded proofs verify
    against the root of a stored tree, each value that the verdict gives, or its
    absence, is what the tree's map says; for single and for shared proofs. *)
Theorem key_proofs_sound `{HashesOk} st tree h es proof proofs v vs :
  tree_holds st tree h es → kp_root proof = t_root tree → mp_root proofs = t_root tree →
  transported st (kp_path proof) → transported st (mp_path proofs) →
  verify_key_proof proof = Ok v → verify_multi_key_proof proofs = Ok vs →
  (kv_valid v = true → kv_value v = final_map es !! kp_key proof) ∧
  Forall (λ r, kv_valid r = true → kv_value r = final_map es !! kv_key r) (mv_results vs) ∧
  kv_key <$> mv_results vs = mp_keys proofs.
Proof.
  intros Hh Hr Hrs Hp%transported_genuine Hps%transported_genuine Hv Hvs. split.
  - by apply (key_proof_value st _ tree h es proof v Hh eq_refl).
  - by apply (multi_sound st tree h es proofs vs).
Qed.

(** C10. Verified windows are complete and true: the entries of a verified range or
    page proof are exactly the entries of the tree's map inside the window, in the
    order of their keys; none is left out and none is made up. *)
Theorem range_proofs_sound `{HashesOk} st tree h es range page rv pv :
  tree_holds st tree h es → rp_root range = t_root tree → pp_root page = t_root tree →
  transported st (rp_path range) → transported st (pp_path page) →
  verify_range_proof range = Ok rv → verify_range_page_proof page = Ok pv →
  (rv_valid rv = true → rv_entries rv = entries_in_range es (rp_start range) (rp_end range)) ∧
  (pv_valid pv = true → pv_entries pv = entries_in_page es (pp_after page) (pp_end page)).
Proof.
  intros Hh Hr Hp Htr%transported_genuine Htp%transported_genuine Hrv Hpv. split; intros Hvalid.
  - by apply (range_sound st tree h es range rv).
  - by apply (page_sound st tree h es page pv).
Qed.

(** C29. The engine's proofs verify: over a stored tree, proofs of one key, of several
    keys, of a range and of a page are made, without an error, and their verification
    returns the map's answers. *)
Theorem engine_proofs_verify `{HashesOk} {St} `{StoreOk St} st tree h es key ks start after end_ (e : ProllyEngine St) :
  engine_manages (Config.format (t_config tree)) st e → tree_holds st tree h es → (h ≤ 255)%nat →
  ∃ bound, ∀ fuel, (bound ≤ fuel)%nat →
    (∃ proof e' v, prove_key fuel tree key e = (Ok proof, e') ∧ verify_key_proof proof = Ok v ∧
       kv_valid v = true ∧ kv_value v = final_map es !! key) ∧
    (∃ proof e' v, prove_keys fuel tree ks e = (Ok proof, e') ∧ verify_multi_key_proof proof = Ok v ∧
       mv_valid v = true ∧ kv_value <$> mv_results v = (λ k, final_map es !! k) <$> ks) ∧
    (∃ proof e' v, prove_range fuel tree start end_ e = (Ok proof, e') ∧ verify_range_proof proof = Ok v ∧
       rv_valid v = true ∧ rv_entries v = entries_in_range es start end_) ∧
    (∃ proof e' v, prove_range_page_window fuel tree after end_ e = (Ok proof, e') ∧ verify_range_page_proof proof = Ok v ∧
       pv_valid v = true ∧ pv_entries v = entries_in_page es after end_).
Proof.
  intros He Hh Hle.
  destruct (prove_range_ok st tree h es start end_ e He Hh Hle) as (b1 & p1 & e1 & v1 & Hrun1 & _ & _ & Hv1 & Hok1 & Hes1).
  destruct (prove_page_ok st tree h es after end_ e He Hh Hle) as (b2 & p2 & e2 & v2 & Hrun2 & _ & _ & Hv2 & Hok2 & Hes2).
  exists (S h + b1 + b2)%nat. intros fuel Hfuel. split; [|split; [|split]].
  - destruct (prove_key_ok st _ tree h es fuel key e He Hh eq_refl ltac:(lia) Hle) as (p & e' & Hrun & _ & Hroot & <- & Hof & _ & Hok).
    eexists p, e', _. split; [done|]. unfold verify_key_proof. rewrite Hok. split; [done|]. split; [done|].
    eapply (key_proof_value st _ tree h es p); [exact Hh|done|done| |unfold verify_key_proof; by rewrite Hok|done].
    by apply (of_tree_genuine st (Config.format (t_config tree))).
  - destruct (prove_keys_ok st tree h es fuel ks e He Hh ltac:(lia) Hle) as (p & e' & v & Hrun & _ & _ & _ & Hv & Hok & Hres).
    exists p, e', v. split; [done|]. split; [done|]. split; [done|]. rewrite Hres, <- list_fmap_compose. done.
  - exists p1, e1, v1. split; [apply Hrun1; lia|done].
  - exists p2, e2, v2. split; [apply Hrun2; lia|done].
Qed.

Lemma collect_total `{Hashes} path acc :
  encodable path → ∃ nm, collect_node_map path acc = Ok nm.
Proof.
  intros Hp. revert acc; induction Hp as [|n path (b & Hb) _ IH]; intros acc; cbn [collect_node_map]; [by eexists|].
  destruct (negb _); [by eexists|]. unfold Node_cid. rewrite Hb. cbn. apply IH.
Qed.

(** Verification of ranges and pages ends with a verdict on every proof whose nodes
    encode, also when its nodes point at each other in ways that no tree has: each
    call puts another of the given nodes on the stack. *)
Theorem range_verification_total `{HashesOk} range page :
  encodable (rp_path range) → encodable (pp_path page) →
  (∃ v, verify_range_proof range = Ok v) ∧ (∃ v, verify_range_page_proof page = Ok v).
Proof.
  intros Hr Hp. split.
  - unfold verify_range_proof. destruct (range_is_empty_by_bounds _ _); [by eexists|].
    destruct (collect_total (rp_path range) ∅ Hr) as ([m|] & Hm); unfold range_proof_node_map; rewrite Hm; [|by eexists].
    cbn [mbind outcome_bind]. destruct (rp_root range) as [root|]; [|by eexists]. unfold verify_range_node.
    destruct (verify_total _ (range_window_ok (rp_start range) (rp_end range)) m (S (size m)) ∅ root []) as (r & ->);
      [rewrite difference_empty_L, size_dom; lia|by eexists].
  - unfold verify_range_page_proof. destruct (page_range_is_empty_by_bounds _ _); [by eexists|].
    destruct (collect_total (pp_path page) ∅ Hp) as ([m|] & Hm); unfold range_page_proof_node_map; rewrite Hm; [|by eexists].
    cbn [mbind outcome_bind]. destruct (pp_root page) as [root|]; [|by eexists]. unfold verify_range_page_node.
    destruct (verify_total _ (page_window_ok (pp_after page) (pp_end page)) m (S (size m)) ∅ root []) as (r & ->);
      [rewrite difference_empty_L, size_dom; lia|by eexists].
Qed.

(** C11. Verified pages of differences are true: they hold the first differences, in
    the order of their keys, between the two trees' maps in the requested window, as
    many as the limit allows; and without a continuation cursor, all of them. *)
Theorem diff_page_sound `{HashesOk} st base other hb ho esb eso proof v all :
  tree_holds st base hb esb → tree_holds st other ho eso →
  pp_root (dp_base proof) = t_root base → pp_root (dp_other proof) = t_root other →
  transported st (pp_path (dp_base proof)) → transported st (pp_path (dp_other proof)) →
  0 ≤ dp_limit proof → verify_diff_page_proof proof = Ok v → dv_valid v = true →
  differences (λ k, key_in_page_range k (dv_after v) (dp_requested_end proof) = true) (final_map esb) (final_map eso) all →
  dv_diffs v = take (Z.to_nat (dp_limit proof)) all ∧
  match dv_next_cursor v with
  | None => dv_diffs v = all
  | Some c => dp_limit proof = 0 ∨ ∃ d, list.last (dv_diffs v) = Some d ∧ c = after_key (Diff_key d)
  end.
Proof.
  intros Hb Ho Hrb Hro Htb%transported_genuine Hto%transported_genuine Hlim Hv Hvalid Hall.
  by apply (diff_page_ok st base hb esb other ho eso proof v all Hb Ho (tree_holds_ascending _ _ _ _ Hb) (tree_holds_ascending _ _ _ _ Ho)).
Qed.

(** ** Samples *)
#[local] Existing Instance sample_hashes.
#[local] Existing Instance sample_hashes_ok.

Definition one_leaf (key value : bytes) : Node := {|
  keys := [key]; vals := [value]; child_counts := []; leaf := true; level := 0; format := TreeFormat_default |}.
Definition one_bytes (key value : bytes) : bytes := match to_bytes (one_leaf key value) with Ok b => b | _ => [] end.
Definition one_cid (key value : bytes) : Cid := Cid_from_bytes (one_bytes key value).
Definition one_tree (key value : bytes) : Tree := {| t_root := Some (one_cid key value); t_config := Config.Config_default |}.

Definition k1 : bytes := [Byte.x01].
Definition k2 : bytes := [Byte.x02].
Definition old1 : bytes := [Byte.x0a].
Definition new1 : bytes := [Byte.x0b].
Definition two_leaves : gmap bytes bytes :=
  {[one_cid k1 old1 := one_bytes k1 old1; one_cid k1 new1 := one_bytes k1 new1]}.

Lemma one_typed key value : length key = 1%nat → length value = 1%nat → node_typed (one_leaf key value).
Proof.
  intros Hk Hv. constructor; cbn [one_leaf format level keys vals child_counts].
  - apply default_format_wf.
  - done.
  - constructor; [unfold vec_wf, len; rewrite Hk; done|done].
  - constructor; [unfold vec_wf, len; rewrite Hv; done|done].
  - constructor.
  - vm_compute. discriminate.
Qed.

Lemma one_transported value : value = old1 ∨ value = new1 → transported two_leaves [one_leaf k1 value].
Proof.
  intros Hv. split; [|split].
  - exists [one_bytes k1 value]. split; [destruct Hv as [-> | ->]; vm_compute; reflexivity|].
    constructor; [|done]. destruct Hv as [-> | ->]; vm_compute; discriminate.
  - constructor; [|done]. destruct Hv as [-> | ->]; by apply one_typed.
  - intros n b cid b' ->%list_elem_of_singleton Hb <- Hst. destruct Hv as [-> | ->];
      vm_compute in Hb; injection Hb as <-; vm_compute in Hst; by injection Hst as <-.
Qed.

Lemma one_holds value : value = old1 ∨ value = new1 → tree_holds two_leaves (one_tree k1 value) 0 [(k1, value)].
Proof.
  intros Hv. split; [|repeat constructor]. exists (one_leaf k1 value). split; [|by split].
  exists (one_bytes k1 value). destruct Hv as [-> | ->]; (split; [vm_compute; reflexivity|split; [reflexivity|]];
    split; [vm_compute; reflexivity|split; [vm_compute; reflexivity|split; vm_compute; done]]).
Qed.

Definition one_key_proof (value key : bytes) : KeyProof :=
  {| kp_root := Some (one_cid k1 value); kp_key := key; kp_path := [one_leaf k1 value] |}.
Definition one_page (value : bytes) (end_ : option bytes) : RangePageProof :=
  {| pp_root := Some (one_cid k1 value); pp_after := None; pp_end := end_; pp_path := [one_leaf k1 value] |}.
Definition one_range (value : bytes) : RangeProof :=
  {| rp_root := Some (one_cid k1 value); rp_start := []; rp_end := None; rp_path := [one_leaf k1 value] |}.

Lemma key_proofs_sound_witness :
  (true = true → Some old1 = final_map [(k1, old1)] !! k1) ∧
  Forall (λ r, kv_valid r = true → kv_value r = final_map [(k1, old1)] !! kv_key r)
    [{| kv_valid := true; kv_root := Some (one_cid k1 old1); kv_key := k2; kv_value := None |}] ∧ [k2] = [k2].
Proof.
  exact (key_proofs_sound two_leaves (one_tree k1 old1) 0 [(k1, old1)] (one_key_proof old1 k1)
    {| mp_root := Some (one_cid k1 old1); mp_keys := [k2]; mp_path := [one_leaf k1 old1] |}
    {| kv_valid := true; kv_root := Some (one_cid k1 old1); kv_key := k1; kv_value := Some old1 |}
    {| mv_valid := true; mv_root := Some (one_cid k1 old1);
       mv_results := [{| kv_valid := true; kv_root := Some (one_cid k1 old1); kv_key := k2; kv_value := None |}] |}
    (one_holds old1 (or_introl eq_refl)) eq_refl eq_refl
    (one_transported old1 (or_introl eq_refl)) (one_transported old1 (or_introl eq_refl))
    ltac:(vm_compute; reflexivity) ltac:(vm_compute; reflexivity)).
Defined.

Definition one_range_verdict : RangeProofVerification := {|
  rv_valid := true; rv_root := Some (one_cid k1 old1); rv_start := []; rv_end := None; rv_entries := [(k1, old1)] |}.
Definition one_page_verdict : RangePageProofVerification := {|
  pv_valid := true; pv_root := Some (one_cid k1 old1); pv_after := None; pv_end := None; pv_entries := [(k1, old1)] |}.

Lemma range_proofs_sound_witness :
  (true = true → [(k1, old1)] = entries_in_range [(k1, old1)] [] None) ∧
  (true = true → [(k1, old1)] = entries_in_page [(k1, old1)] None None).
Proof.
  exact (range_proofs_sound two_leaves (one_tree k1 old1) 0 [(k1, old1)] (one_range old1) (one_page old1 None)
    one_range_verdict one_page_verdict (one_holds old1 (or_introl eq_refl)) eq_refl eq_refl
    (one_transported old1 (or_introl eq_refl)) (one_transported old1 (or_introl eq_refl))
    ltac:(vm_compute; reflexivity) ltac:(vm_compute; reflexivity)).
Defined.

Lemma sample_tree_holds : ∃ h, (h ≤ 255)%nat ∧ tree_holds sample_store sample_old h sample_es.
Proof.
  destruct sample_write_input as [_ _ _ Hold _ Hasc Hfit _ _ _ _ _]. exact (canonical_holds _ _ _ _ _ Hfit Hasc Hold).
Qed.

Lemma engine_proofs_verify_witness :
  ∃ bound, ∀ fuel, (bound ≤ fuel)%nat →
    (∃ proof e' v, prove_key fuel sample_old k1 sample_engine = (Ok proof, e') ∧ verify_key_proof proof = Ok v ∧
       kv_valid v = true ∧ kv_value v = final_map sample_es !! k1) ∧
    (∃ proof e' v, prove_keys fuel sample_old [k1; k2] sample_engine = (Ok proof, e') ∧ verify_multi_key_proof proof = Ok v ∧
       mv_valid v = true ∧ kv_value <$> mv_results v = (λ k, final_map sample_es !! k) <$> [k1; k2]) ∧
    (∃ proof e' v, prove_range fuel sample_old k1 (Some k2) sample_engine = (Ok proof, e') ∧ verify_range_proof proof = Ok v ∧
       rv_valid v = true ∧ rv_entries v = entries_in_range sample_es k1 (Some k2)) ∧
    (∃ proof e' v, prove_range_page_window fuel sample_old (Some k1) (Some k2) sample_engine = (Ok proof, e') ∧
       verify_range_page_proof proof = Ok v ∧
       pv_valid v = true ∧ pv_entries v = entries_in_page sample_es (Some k1) (Some k2)).
Proof.
  destruct sample_tree_holds as (h & Hh & Hholds).
  exact (engine_proofs_verify sample_store sample_old h sample_es k1 [k1; k2] k1 (Some k1) (Some k2) sample_engine
    sample_engine_manages Hholds Hh).
Defined.

Lemma one_encodes : encodable [one_leaf k1 old1].
Proof. constructor; [|done]. exists (one_bytes k1 old1). vm_compute. reflexivity. Qed.

Lemma range_verification_total_witness :
  (∃ v, verify_range_proof (one_range old1) = Ok v) ∧ (∃ v, verify_range_page_proof (one_page old1 None) = Ok v).
Proof. exact (range_verification_total (one_range old1) (one_page old1 None) one_encodes one_encodes). Defined.

Definition one_diff_page : DiffPageProof := {|
  dp_base := one_page old1 None; dp_other := one_page new1 None; dp_lookahead_base := None; dp_lookahead_other := None;
  dp_requested_end := None; dp_limit := 5 |}.
Definition one_diff_verdict : DiffPageProofVerification := {|
  dv_valid := true; dv_base_valid := true; dv_other_valid := true; dv_lookahead_valid := true;
  dv_base_root := Some (one_cid k1 old1); dv_other_root := Some (one_cid k1 new1); dv_after := None;
  dv_requested_end := None; dv_proof_end := None; dv_limit := 5; dv_diffs := [Changed k1 old1 new1]; dv_next_cursor := None |}.

Lemma one_differences :
  differences (λ k, key_in_page_range k None None = true) (final_map [(k1, old1)]) (final_map [(k1, new1)]) [Changed k1 old1 new1].
Proof. apply (window_diffs (page_window None None) [(k1, old1)] [(k1, new1)]); repeat constructor. Qed.

Lemma diff_page_sound_witness :
  [Changed k1 old1 new1] = take 5 [Changed k1 old1 new1] ∧ [Changed k1 old1 new1] = [Changed k1 old1 new1].
Proof.
  exact (diff_page_sound two_leaves (one_tree k1 old1) (one_tree k1 new1) 0 0 [(k1, old1)] [(k1, new1)] one_diff_page
    one_diff_verdict [Changed k1 old1 new1] (one_holds old1 (or_introl eq_refl)) (one_holds new1 (or_intror eq_refl)) eq_refl eq_refl
    (one_transported old1 (or_introl eq_refl)) (one_transported new1 (or_intror eq_refl))
    ltac:(vm_compute; discriminate) ltac:(vm_compute; reflexivity) eq_refl one_differences).
Defined.

(** The lookahead proofs of a page of differences are verified against the roots
    they carry themselves: a page over two trees with a single difference verifies
    with a continuation cursor when its lookahead proofs come from two other trees. *)
Theorem diff_page_cursor_unbound :
  ∃ proof v, pp_root (dp_base proof) = t_root (one_tree k1 old1) ∧ pp_root (dp_other proof) = t_root (one_tree k1 new1) ∧
    transported two_leaves (pp_path (dp_base proof)) ∧ transported two_leaves (pp_path (dp_other proof)) ∧
    verify_diff_page_proof proof = Ok v ∧ dv_valid v = true ∧ dp_requested_end proof = None ∧
    dv_next_cursor v = Some (after_key k1) ∧
    differences (λ k, key_in_page_range k None None = true) (final_map [(k1, old1)]) (final_map [(k1, new1)]) (dv_diffs v).
Proof.
  pose (lookahead := λ value, {| kp_root := Some (one_cid k2 value); kp_key := k2; kp_path := [one_leaf k2 value] |}).
  exists {| dp_base := one_page old1 (Some k2); dp_other := one_page new1 (Some k2);
            dp_lookahead_base := Some (lookahead old1); dp_lookahead_other := Some (lookahead new1);
            dp_requested_end := None; dp_limit := 1 |}.
  exists {| dv_valid := true; dv_base_valid := true; dv_other_valid := true; dv_lookahead_valid := true;
            dv_base_root := Some (one_cid k1 old1); dv_other_root := Some (one_cid k1 new1); dv_after := None;
            dv_requested_end := None; dv_proof_end := Some k2; dv_limit := 1; dv_diffs := [Changed k1 old1 new1];
            dv_next_cursor := Some (after_key k1) |}.
  split; [reflexivity|]. split; [reflexivity|]. split; [by apply one_transported; left|].
  split; [by apply one_transported; right|]. split; [vm_compute; reflexivity|]. split; [reflexivity|]. split; [reflexivity|].
  split; [reflexivity|]. exact one_differences.
Qed.

End ProofContract.
