(* ===== verification/RangeContract.v ===== *)
(** * The contract of scans and pages

    Scans list exactly the entries of their range; an interrupted scan resumes where it
    stopped; pages together give the whole range; and a page with a proof is proved to be
    exactly what it shows. *)

From Stdlib Require Import ZArith Lia Strings.Byte.
From stdpp Require Import base tactics numbers list strings option gmap sorting.
From S2P Require Import Prelude Cursor Types Format Node ReadNode Store NodeCache Builder Entries TreeSpec Engine EngineSpec BuiltTree Write Loader LoaderSpec CanonicalWrite Key Range Proof ProofSpec WindowSpec ProofTheorems RangeSpec DiffSpec ProofContract.
Import Format Node ReadNode Store NodeCache Builder Entries TreeSpec Engine EngineSpec BuiltTree Loader LoaderSpec CanonicalWrite Range Proof ProofSpec WindowSpec ProofTheorems RangeSpec ProofContract.

Local Open Scope Z_scope.

Module RangeContract.

(** A scan to the end; [rounds] bounds the number of entries. *)
Definition scan `{Hashes} {St} `{ReadStore St} (fuel rounds : nat) (create : eng St RangeIter) : eng St (list kv) :=
  create ≫= λ it : RangeIter, RangeIter_collect fuel rounds it.

(** The entries whose keys start with a prefix. *)
Definition entries_with_prefix (es : list kv) (p : bytes) : list kv :=
  List.filter (λ x, bool_decide (p `prefix_of` x.1)) es.

(** A first page, the page after it, and so on to the last one. *)
Fixpoint all_pages `{Hashes} {St} `{ReadStore St} (fuel rounds : nat) (tree : Tree) (cursor : RangeCursor)
    (end_ : option bytes) (limit : Z) : eng St (list kv) :=
  match rounds with
  | O => run (Panic "out of fuel")
  | S rounds' =>
      range_page fuel tree cursor end_ limit ≫= λ page : RangePage,
      match pg_next_cursor page with
      | None => mret (pg_entries page)
      | Some cursor' =>
          all_pages fuel rounds' tree cursor' end_ limit ≫= λ rest : list kv,
          mret (pg_entries page ++ rest)
      end
  end.

(** The first entries of a range with the cursor of the page after them. *)
Definition first_page (out : list kv) (limit : Z) (page : RangePage) : Prop :=
  pg_entries page = take (Z.to_nat limit) out ∧
  pg_next_cursor page = if bool_decide (Z.to_nat limit ≤ length out)%nat
                        then (λ x : kv, after_key x.1) <$> list.last (pg_entries page) else None.

(** The cursor of a proved page: the last key of the page, exactly when more follows. *)
Definition cursor_if_more (limit : Z) (out entries : list kv) : option RangeCursor :=
  if bool_decide (Z.to_nat limit < length out)%nat then (λ x : kv, after_key x.1) <$> list.last entries else None.

(** The answer to a page request: a request for no entries is a no-op that gives its own
    cursor back. *)
Definition page_answer (cursor : RangeCursor) (out : list kv) (limit : Z) (page : RangePage) : Prop :=
  if limit =? 0 then page = {| pg_entries := []; pg_next_cursor := Some cursor |} else first_page out limit page.
Definition proved_cursor (cursor : RangeCursor) (limit : Z) (out entries : list kv) : option RangeCursor :=
  if limit =? 0 then Some cursor else cursor_if_more limit out entries.

(** ** Windows *)
Lemma scan_prefix p es : inside (range_window p (Key.prefix_range p).2) es = entries_with_prefix es p.
Proof.
  unfold entries_with_prefix, inside. induction es as [|x es IH]; [done|]. cbn [List.filter]. rewrite IH.
  assert (w_in (range_window p (Key.prefix_range p).2) x.1 = bool_decide (p `prefix_of` x.1)) as ->; [|done].
  cbn [range_window w_in]. pose proof (Key.prefix_range_in p x.1) as Hin. unfold Key.in_range in Hin.
  unfold key_in_range, before_end. cbn [Key.prefix_range fst snd] in *. apply eq_bool_prop_intro. rewrite Is_true_true.
  rewrite Is_true_true, bool_decide_eq_true, <- Hin, andb_true_iff, bleb_le.
  destruct (Key.prefix_end p); [by rewrite bltb_lt|]. tauto.
Qed.

Lemma inside_inside w w' es : (∀ k, w_in w k = true → w_in w' k = true) → inside w (inside w' es) = inside w es.
Proof.
  intros Himp. unfold inside. induction es as [|x es IH]; [done|]. cbn [List.filter].
  destruct (w_in w x.1) eqn:Hw; [rewrite (Himp _ Hw); cbn [List.filter]; by rewrite Hw, IH|].
  destruct (w_in w' x.1); [|done]. cbn [List.filter]. by rewrite Hw.
Qed.

Lemma inside_all w es : (∀ k, k ∈ fst <$> es → w_in w k = true) → inside w es = es.
Proof.
  unfold inside. induction es as [|x es IH]; intros Hall; [done|]. cbn [List.filter].
  rewrite (Hall x.1) by apply list_elem_of_here. f_equal. apply IH. intros k Hk. apply Hall. by apply list_elem_of_further.
Qed.

Lemma inside_in w es k : k ∈ fst <$> inside w es → w_in w k = true.
Proof.
  intros (x & -> & Hx)%list_elem_of_fmap. unfold inside in Hx. by apply list_elem_of_In, filter_In in Hx as [_ ?].
Qed.

(** What a scan yields after one of its entries is what a scan from that key yields. *)
Lemma scan_continues skip start end_ es a x b :
  ascending es → inside (scan_window skip start end_) es = a ++ x :: b → inside (page_window (Some x.1) end_) es = b.
Proof.
  intros Hasc Heq. pose proof (inside_ascending (scan_window skip start end_) es Hasc) as Hin.
  assert (∀ k, k ∈ fst <$> a ++ x :: b → w_in (scan_window skip start end_) k = true) as Hall
    by (intros k; rewrite <- Heq; apply inside_in).
  assert (w_in (scan_window skip start end_) x.1 = true) as Hx.
  { apply Hall. rewrite fmap_app, elem_of_app. right. left. }
  rewrite <- (inside_inside _ (scan_window skip start end_)).
  - rewrite Heq in *. destruct (ascending_app _ _ Hin) as (_ & Hxb & Hax). destruct x as [k v]. cbn [fst] in *.
    destruct (ascending_tail _ _ _ Hxb) as [_ Hb]. change ((k, v) :: b) with ([(k, v)] ++ b). rewrite !inside_app.
    rewrite (inside_none _ a), (inside_none _ [_]), inside_all; [done| | |].
    + intros k' Hk'. cbn. unfold key_in_page_range. rewrite (proj2 (bltb_lt k k')) by (by apply Hb). cbn [andb].
      specialize (Hall k'). rewrite scan_window_in in Hall. apply andb_true_iff in Hall as [_ ?]; [done|].
      rewrite fmap_app, elem_of_app. right. by right.
    + intros k' ->%list_elem_of_singleton. cbn. unfold key_in_page_range. apply andb_false_iff. left. apply bltb_ge, ble_refl.
    + intros k' Hk'. cbn. unfold key_in_page_range. apply andb_false_iff. left. apply bltb_ge, blt_le, Hax; [done|left].
  - intros k. rewrite scan_window_in. cbn. unfold key_in_page_range. intros [Hlt%bltb_lt ->]%andb_true_iff.
    rewrite scan_window_in in Hx. apply andb_true_iff in Hx as [Hx _]. rewrite andb_true_r.
    destruct skip; cbn in *; [apply bltb_lt in Hx; apply bltb_lt; by eapply blt_trans|].
    apply bleb_le in Hx. apply bleb_le. eapply ble_trans; [done|by apply blt_le].
Qed.

(** The entries before one of them are those of the page that ends at its key. *)
Lemma page_ends_at after end_ es a x b :
  ascending es → inside (page_window after end_) es = a ++ x :: b → inside (page_window after (Some x.1)) es = a.
Proof.
  intros Hasc Heq. pose proof (inside_ascending (page_window after end_) es Hasc) as Hin.
  assert (∀ k, k ∈ fst <$> a ++ x :: b → w_in (page_window after end_) k = true) as Hall
    by (intros k; rewrite <- Heq; apply inside_in).
  assert (w_in (page_window after end_) x.1 = true) as Hx.
  { apply Hall. rewrite fmap_app, elem_of_app. right. left. }
  cbn in Hx. unfold key_in_page_range in Hx. apply andb_true_iff in Hx as [_ Hx].
  rewrite <- (inside_inside _ (page_window after end_)).
  - rewrite Heq in *. destruct (ascending_app _ _ Hin) as (_ & Hxb & Hax). destruct x as [k v]. cbn [fst] in *.
    rewrite inside_app, inside_all, (inside_none _ ((k, v) :: b)); [apply app_nil_r| |].
    + intros k' Hk'. cbn. unfold key_in_page_range. apply andb_false_iff. right. cbn. apply bltb_ge. by eapply ascending_head.
    + intros k' Hk'. cbn. unfold key_in_page_range. apply andb_true_iff. split.
      * assert (w_in (page_window after end_) k' = true) as Hk by (apply Hall; rewrite fmap_app, elem_of_app; by left).
        by apply andb_true_iff in Hk as [? _].
      * apply bltb_lt, Hax; [done|left].
  - intros k. cbn. unfold key_in_page_range. intros [-> Hlt]%andb_true_iff. cbn [andb before_end] in *.
    destruct end_ as [end_|]; [|done]. cbn in *. apply bltb_lt in Hlt, Hx. apply bltb_lt. by eapply blt_trans.
Qed.

(** ** Scans *)
Section scans.
Context `{HashesOk} {St : Type} `{StoreOk St} `{!ReadStore St} `{!ReadStoreOk St}.
Context (st : gmap bytes bytes) (tree : Tree) (h : nat) (es : list kv).
Context (Hh : tree_holds st tree h es).

Implicit Types e : ProllyEngine St.
Abbreviation f := (Config.format (t_config tree)).

Lemma scan_ok skip fuel rounds start end_ e :
  engine_manages f st e → (h < fuel)%nat → (length es < rounds)%nat →
  ∃ e', scan fuel rounds (create_iter tree skip fuel start end_) e = (Ok (inside (scan_window skip start end_) es), e') ∧
    engine_manages f st e'.
Proof.
  intros He Hfuel Hr. unfold scan. destruct (create_ok st tree h es Hh skip fuel start end_ e He Hfuel) as (it & e1 & Hc & He1 & _ & Hy).
  rewrite (action_bind_Ok _ _ _ _ _ Hc).
  destruct (collect_items_ok st tree h fuel rounds it _ [] e1 He1 Hy Hfuel) as (e2 & Hl & He2); [|by exists e2].
  eapply Nat.le_lt_trans; [|exact Hr]. apply List.filter_length_le.
Qed.

(** A cursor is a scan after a key, or from the beginning. *)
Definition cursor_skips (cursor : RangeCursor) : bool := negb (is_start cursor).
Definition cursor_start (cursor : RangeCursor) : bytes := default [] (rc_after cursor).

Lemma from_cursor_eq fuel cursor end_ :
  range_from_cursor (St := St) fuel tree cursor end_ = create_iter tree (cursor_skips cursor) fuel (cursor_start cursor) end_.
Proof. by destruct cursor as [[a|]]. Qed.

Lemma cursor_window cursor end_ : inside (scan_window (cursor_skips cursor) (cursor_start cursor) end_) es = entries_in_page es (rc_after cursor) end_.
Proof.
  destruct cursor as [[a|]]; [done|]. apply (inside_ext (range_window [] end_) (page_window None end_)). intros k _. cbn.
  unfold key_in_range. rewrite (proj2 (bleb_le [] k)); [done|]. apply (ble_prefix [] k).
Qed.

Lemma page_of_ok fuel limit it out e :
  engine_manages f st e → yields f st h it out → (h < fuel)%nat → 0 < limit → limit * 48 ≤ isize_max →
  ∃ page e', page_of fuel limit it e = (Ok page, e') ∧ engine_manages f st e' ∧ first_page out limit page.
Proof.
  intros He Hy Hfuel Hl Hcap. unfold page_of.
  rewrite (action_bind_Ok (run _) _ e tt e) by (unfold run; by rewrite vec_with_capacity_ok).
  destruct (take_items_ok st tree h fuel (Z.to_nat limit) it out [] e He Hy Hfuel) as (it' & e' & Ht & He' & _).
  rewrite (action_bind_Ok _ _ _ _ _ Ht). eexists _, e'. split; [done|]. split; [done|]. split; [done|].
  cbn [pg_next_cursor pg_entries app]. by case_bool_decide.
Qed.

Lemma range_page_ok fuel cursor end_ limit e :
  engine_manages f st e → (h < fuel)%nat → 0 < limit → limit * 48 ≤ isize_max →
  ∃ page e', range_page fuel tree cursor end_ limit e = (Ok page, e') ∧ engine_manages f st e' ∧
    first_page (entries_in_page es (rc_after cursor) end_) limit page.
Proof.
  intros He Hfuel Hl Hcap. unfold range_page. destruct (Z.eqb_spec limit 0) as [|_]; [lia|]. rewrite from_cursor_eq.
  destruct (create_ok st tree h es Hh (cursor_skips cursor) fuel (cursor_start cursor) end_ e He Hfuel) as (it & e1 & Hc & He1 & _ & Hy).
  rewrite (action_bind_Ok _ _ _ _ _ Hc). rewrite cursor_window in Hy. by apply page_of_ok.
Qed.

(** The rest of a page's range is the range of its cursor. *)
Lemma page_rest cursor end_ limit page cursor' :
  ascending es → 0 < limit → first_page (entries_in_page es (rc_after cursor) end_) limit page →
  pg_next_cursor page = Some cursor' →
  entries_in_page es (rc_after cursor') end_ = drop (Z.to_nat limit) (entries_in_page es (rc_after cursor) end_) ∧
  (Z.to_nat limit ≤ length (entries_in_page es (rc_after cursor) end_))%nat.
Proof.
  intros Hasc Hl [Hes Hc] Hc'. rewrite Hc' in Hc. clear Hc'. case_bool_decide as Hle; [|done]. split; [|done].
  symmetry in Hc. apply fmap_Some in Hc as (x & Hx & ->). cbn [rc_after]. set (out := entries_in_page es (rc_after cursor) end_) in *.
  rewrite Hes in Hx. apply last_Some in Hx as [a Ha].
  eapply (scan_continues (cursor_skips cursor) (cursor_start cursor) end_ es a x); [done|]. rewrite cursor_window. fold out.
  rewrite <- (take_drop (Z.to_nat limit) out), Ha, <- app_assoc at 1. done.
Qed.
End scans.

(** C24. Scans list exactly their range: over a stored tree the iterators of [range],
    [range_after], [range_from_cursor] and [prefix] yield, one by one, the entries of the
    tree's map inside the range in the order of their keys, then end; whatever is cached,
    and whether children are read one at a time or ahead in batches. *)
Theorem range_scan_exact `{HashesOk} {St} `{StoreOk St} `{!ReadStore St} `{!ReadStoreOk St}
    st tree h es fuel rounds start after cursor p end_ (e : ProllyEngine St) :
  tree_holds st tree h es → engine_manages (Config.format (t_config tree)) st e →
  (h < fuel)%nat → (length es < rounds)%nat →
  (∃ e', scan fuel rounds (range fuel tree start end_) e = (Ok (entries_in_range es start end_), e')) ∧
  (∃ e', scan fuel rounds (range_after fuel tree after end_) e = (Ok (entries_in_page es (Some after) end_), e')) ∧
  (∃ e', scan fuel rounds (range_from_cursor fuel tree cursor end_) e = (Ok (entries_in_page es (rc_after cursor) end_), e')) ∧
  (∃ e', scan fuel rounds (prefix fuel tree p) e = (Ok (entries_with_prefix es p), e')).
Proof.
  intros Hh He Hfuel Hr. split; [|split; [|split]].
  - destruct (scan_ok st tree h es Hh false fuel rounds start end_ e He Hfuel Hr) as (e' & Hs & _). by exists e'.
  - destruct (scan_ok st tree h es Hh true fuel rounds after end_ e He Hfuel Hr) as (e' & Hs & _). by exists e'.
  - rewrite from_cursor_eq, <- cursor_window.
    destruct (scan_ok st tree h es Hh (cursor_skips cursor) fuel rounds (cursor_start cursor) end_ e He Hfuel Hr) as (e' & Hs & _).
    by exists e'.
  - rewrite <- scan_prefix. destruct (scan_ok st tree h es Hh false fuel rounds p (Key.prefix_range p).2 e He Hfuel Hr) as (e' & Hs & _).
    by exists e'.
Qed.

(** An interrupted scan resumes where it stopped: after [n] entries of a range the
    cursor of the iterator, used for a new scan to the same end, gives the entries that
    were left. *)
Theorem scan_resumes `{HashesOk} {St} `{StoreOk St} `{!ReadStore St} `{!ReadStoreOk St}
    st tree h es fuel rounds start end_ n (e : ProllyEngine St) :
  tree_holds st tree h es → engine_manages (Config.format (t_config tree)) st e →
  (h < fuel)%nat → (length es < rounds)%nat → (0 < n ≤ length (entries_in_range es start end_))%nat →
  ∃ it it' e1 e2, range fuel tree start end_ e = (Ok it, e1) ∧
    take_items fuel n it [] e1 = (Ok (true, take n (entries_in_range es start end_), it'), e2) ∧
    ∃ e3, scan fuel rounds (range_from_cursor fuel tree (resume_cursor it') end_) e2
      = (Ok (drop n (entries_in_range es start end_)), e3).
Proof.
  intros Hh He Hfuel Hr [Hpos Hle]. destruct (create_ok st tree h es Hh false fuel start end_ e He Hfuel) as (it & e1 & Hc & He1 & _ & Hy).
  change (inside (scan_window false start end_) es) with (entries_in_range es start end_) in Hy.
  set (out := entries_in_range es start end_) in *.
  destruct (take_items_ok st tree h fuel n it out [] e1 He1 Hy Hfuel) as (it' & e2 & Ht & He2 & _ & _ & Hlast).
  exists it, it', e1, e2. split; [done|]. split; [by rewrite Ht, bool_decide_eq_true_2|].
  destruct (list.last (take n out)) as [x|] eqn:Hx.
  2: { apply last_None in Hx. apply (f_equal length) in Hx. rewrite length_take in Hx. cbn in Hx. lia. }
  destruct (Hlast x Hle eq_refl) as (rn & j & Hloc & _ & Hk). unfold resume_cursor. rewrite Hloc, Hk.
  apply last_Some in Hx as [a Ha]. rewrite <- (scan_continues false start end_ es a x (drop n out)).
  - destruct (scan_ok st tree h es Hh true fuel rounds x.1 end_ e2 He2 Hfuel Hr) as (e3 & Hs & _). by exists e3.
  - by eapply tree_holds_ascending.
  - change (inside (scan_window false start end_) es) with out. rewrite <- (take_drop n out), Ha, <- app_assoc at 1. done.
Qed.

Lemma all_pages_ok `{HashesOk} {St} `{StoreOk St} `{!ReadStore St} `{!ReadStoreOk St}
    st tree h es fuel rounds cursor end_ limit (e : ProllyEngine St) :
  tree_holds st tree h es → engine_manages (Config.format (t_config tree)) st e →
  (h < fuel)%nat → 0 < limit → limit * 48 ≤ isize_max → (length es < rounds)%nat →
  ∃ e', all_pages fuel rounds tree cursor end_ limit e = (Ok (entries_in_page es (rc_after cursor) end_), e').
Proof.
  intros Hh He Hfuel Hl Hcap Hr.
  assert (length (entries_in_page es (rc_after cursor) end_) < rounds)%nat as Hlen
    by (eapply Nat.le_lt_trans; [apply List.filter_length_le|done]).
  clear Hr. revert cursor e He Hlen. induction rounds as [|rounds IH]; intros cursor e He Hlen; [lia|]. cbn [all_pages].
  destruct (range_page_ok st tree h es Hh fuel cursor end_ limit e He Hfuel Hl Hcap) as (page & e1 & Hp & He1 & Hf).
  rewrite (action_bind_Ok _ _ _ _ _ Hp). set (out := entries_in_page es (rc_after cursor) end_) in *.
  destruct (pg_next_cursor page) as [cursor'|] eqn:Hnext.
  - destruct (page_rest es cursor end_ limit page cursor' (tree_holds_ascending _ _ _ _ Hh) Hl Hf Hnext) as [Hrest Hle].
    fold out in Hrest, Hle. destruct (IH cursor' e1 He1) as (e2 & Ha). { rewrite Hrest, length_drop. lia. }
    rewrite (action_bind_Ok _ _ _ _ _ Ha). exists e2. destruct Hf as [-> _]. rewrite Hrest. fold out.
    by rewrite take_drop.
  - exists e1. destruct Hf as [Hes Hc]. rewrite Hes in *. rewrite Hnext in Hc. case_bool_decide as Hle.
    + destruct (list.last (take (Z.to_nat limit) out)) as [x|] eqn:Hx; [done|]. apply last_None in Hx.
      apply (f_equal length) in Hx. rewrite length_take in Hx. cbn in Hx. lia.
    + rewrite take_ge by lia. done.
Qed.

(** C25. Pages make up the range: [range_page] answers every limit that a vector can hold.
    With limit zero the page is empty and its cursor is the one given.  With a positive
    limit the page holds the first [limit] entries after the cursor, and following the
    cursors from page to page gives every entry after the first cursor and before the
    end, once and in order, and comes to a last page. *)
Theorem range_pages_exact `{HashesOk} {St} `{StoreOk St} `{!ReadStore St} `{!ReadStoreOk St}
    st tree h es fuel rounds cursor end_ limit (e : ProllyEngine St) :
  tree_holds st tree h es → engine_manages (Config.format (t_config tree)) st e →
  (h < fuel)%nat → 0 ≤ limit → limit * 48 ≤ isize_max → (length es < rounds)%nat →
  (∃ page e', range_page fuel tree cursor end_ limit e = (Ok page, e') ∧
    page_answer cursor (entries_in_page es (rc_after cursor) end_) limit page) ∧
  (limit ≠ 0 →
   ∃ e', all_pages fuel rounds tree cursor end_ limit e = (Ok (entries_in_page es (rc_after cursor) end_), e')).
Proof.
  intros Hh He Hfuel Hl Hcap Hr. unfold page_answer. destruct (Z.eqb_spec limit 0) as [->|Hne]; [split; [by eexists _, e|done]|].
  assert (0 < limit) as Hpos by lia. split; [|intros _; by apply (all_pages_ok st tree h)].
  destruct (range_page_ok st tree h es Hh fuel cursor end_ limit e He Hfuel Hpos Hcap) as (page & e' & Hp & _ & Hf). by exists page, e'.
Qed.

(** A page with a proof: the page is read first, then the window that it covers is proved. *)
Lemma page_read `{HashesOk} {St} `{StoreOk St} `{!ReadStore St} `{!ReadStoreOk St}
    st tree h es fuel cursor end_ limit (e : ProllyEngine St) :
  tree_holds st tree h es → engine_manages (Config.format (t_config tree)) st e →
  (h < fuel)%nat → 0 < limit → limit * 48 ≤ isize_max →
  let out := entries_in_page es (rc_after cursor) end_ in
  ∃ page proof_end e', engine_manages (Config.format (t_config tree)) st e' ∧
    (∀ collect_fuel, prove_range_page fuel collect_fuel tree cursor end_ limit e
      = (prove_range_page_window collect_fuel tree (rc_after cursor) proof_end ≫= λ proof,
         mret {| pr_page := page; pr_proof := proof |}) e') ∧
    pg_entries page = take (Z.to_nat limit) out ∧
    pg_next_cursor page = cursor_if_more limit out (pg_entries page) ∧
    entries_in_page es (rc_after cursor) proof_end = pg_entries page.
Proof.
  intros Hh He Hfuel Hl Hcap out. unfold prove_range_page. destruct (Z.eqb_spec limit 0) as [|_]; [lia|].
  destruct (create_ok st tree h es Hh (cursor_skips cursor) fuel (cursor_start cursor) end_ e He Hfuel) as (it & e1 & Hc & He1 & _ & Hy).
  rewrite cursor_window in Hy. fold out in Hy.
  destruct (take_items_ok st tree h fuel (Z.to_nat limit) it out [] e1 He1 Hy Hfuel) as (it' & e2 & Ht & He2 & _ & Hy2 & _).
  cbn [app] in Ht. set (n := Z.to_nat limit) in *.
  destruct (next_ok _ st h fuel it' _ e2 He2 Hy2 Hfuel) as (it3 & e3 & He3 & _ & Hres).
  destruct (decide (n ≤ length out)%nat) as [Hle|Hgt].
  2: { eexists {| pg_entries := take n out; pg_next_cursor := None |}, end_, e2. split; [done|]. split.
       { intros cf. rewrite from_cursor_eq, (action_bind_Ok _ _ _ _ _ Hc).
         rewrite (action_bind_Ok (run _) _ e1 tt e1) by (unfold run; by rewrite vec_with_capacity_ok).
         rewrite (action_bind_Ok _ _ _ _ _ Ht), bool_decide_eq_false_2 by done. done. }
       unfold cursor_if_more. cbn [pg_entries pg_next_cursor]. rewrite bool_decide_eq_false_2 by (fold n; lia). do 2 (split; [done|]). by rewrite take_ge by lia. }
  assert (∃ look : option kv, head (drop n out) = look ∧ ∀ cf, prove_range_page fuel cf tree cursor end_ limit e
      = (prove_range_page_window cf tree (rc_after cursor) (match look with Some x => Some x.1 | None => end_ end) ≫= λ proof,
         mret {| pr_page := {| pg_entries := take n out; pg_next_cursor := match look with
                   | Some _ => (λ x : kv, after_key x.1) <$> list.last (take n out) | None => None end |}; pr_proof := proof |}) e3)
    as (look & Hlook & Hrun).
  { eexists. split; [done|]. intros cf. unfold prove_range_page. destruct (Z.eqb_spec limit 0) as [|_]; [lia|].
    rewrite from_cursor_eq, (action_bind_Ok _ _ _ _ _ Hc).
    rewrite (action_bind_Ok (run _) _ e1 tt e1) by (unfold run; by rewrite vec_with_capacity_ok).
    rewrite (action_bind_Ok _ _ _ _ _ Ht), bool_decide_eq_true_2 by done. cbn [negb].
    destruct (drop n out) as [|y rest]; destruct Hres as [Hn _]; by rewrite (action_bind_Ok _ _ _ _ _ Hn). }
  unfold prove_range_page in Hrun. destruct (Z.eqb_spec limit 0) as [|_]; [lia|].
  eexists _, _, e3. split; [done|]. split; [exact Hrun|]. unfold cursor_if_more. cbn [pg_entries pg_next_cursor]. fold n. split; [done|].
  destruct (drop n out) as [|y rest] eqn:Hd; cbn in Hlook; subst look;
    pose proof (f_equal length Hd) as Hlen; rewrite length_drop in Hlen; cbn [length] in Hlen.
  - rewrite bool_decide_eq_false_2 by lia. split; [done|]. by rewrite take_ge by lia.
  - rewrite bool_decide_eq_true_2 by lia. split; [done|].
    apply (page_ends_at (rc_after cursor) end_ es (take n out) y rest); [by eapply tree_holds_ascending|].
    rewrite <- Hd. symmetry. apply take_drop.
Qed.

(** A page of no entries: its proof is for an empty window. *)
Lemma no_page_ok `{HashesOk} {St} `{StoreOk St} `{!ReadStore St} `{!ReadStoreOk St} fuel cf tree cursor end_ (e : ProllyEngine St) :
  ∃ proof v, prove_range_page fuel cf tree cursor end_ 0 e
      = (Ok {| pr_page := {| pg_entries := []; pg_next_cursor := Some cursor |}; pr_proof := proof |}, e) ∧
    pp_root proof = t_root tree ∧ verify_range_page_proof proof = Ok v ∧ pv_valid v = true ∧ pv_entries v = [].
Proof.
  eexists _, _. split; [done|]. split; [done|]. unfold verify_range_page_proof. cbn [pp_after pp_end pp_path pp_root].
  assert (page_range_is_empty_by_bounds (rc_after cursor) (Some (default [] (rc_after cursor))) = true) as ->; [|done].
  destruct (rc_after cursor) as [a|]; [|done]. apply bleb_le, ble_refl.
Qed.

(** C26. Proved pages show what they prove: for every limit that a vector can hold
    [prove_range_page] returns the first [limit] entries after the cursor (none for
    limit zero) and a proof for the tree's root that verifies with exactly the entries
    of the page; the page has a cursor after its last entry exactly when more entries
    follow, and the given cursor when the limit is zero. *)
Theorem proved_page_exact `{HashesOk} {St} `{StoreOk St} `{!ReadStore St} `{!ReadStoreOk St}
    st tree h es fuel cursor end_ limit (e : ProllyEngine St) :
  tree_holds st tree h es → engine_manages (Config.format (t_config tree)) st e →
  (h < fuel)%nat → (h ≤ 255)%nat → 0 ≤ limit → limit * 48 ≤ isize_max →
  let out := entries_in_page es (rc_after cursor) end_ in
  ∃ bound, ∀ collect_fuel, (bound ≤ collect_fuel)%nat →
  ∃ page proof e' v, prove_range_page fuel collect_fuel tree cursor end_ limit e
      = (Ok {| pr_page := page; pr_proof := proof |}, e') ∧
    pg_entries page = take (Z.to_nat limit) out ∧
    pg_next_cursor page = proved_cursor cursor limit out (pg_entries page) ∧
    pp_root proof = t_root tree ∧ verify_range_page_proof proof = Ok v ∧ pv_valid v = true ∧
    pv_entries v = pg_entries page.
Proof.
  intros Hh He Hfuel Hh255 Hl Hcap out. unfold proved_cursor. destruct (Z.eqb_spec limit 0) as [->|Hne].
  { exists 0%nat. intros cf _. destruct (no_page_ok fuel cf tree cursor end_ e) as (proof & v & Hp & Hroot & Hv & Hok & Hes).
    eexists _, proof, e, v. split; [exact Hp|]. done. }
  assert (0 < limit) as Hpos by lia.
  destruct (page_read st tree h es fuel cursor end_ limit e Hh He Hfuel Hpos Hcap) as (page & proof_end & e1 & He1 & Hread & Hes & Hnext & Hwin).
  destruct (prove_page_ok st tree h es (rc_after cursor) proof_end e1 He1 Hh Hh255) as (b & proof & e2 & v & Hrun & _ & Hroot & Hv & Hok & Hpv).
  exists b. intros cf Hcf. exists page, proof, e2, v. rewrite Hread, (action_bind_Ok _ _ _ _ _ (Hrun cf Hcf)).
  do 6 (split; [done|]). rewrite Hpv. exact Hwin.
Qed.

(** ** Witnesses *)
#[local] Existing Instance sample_hashes.
#[local] Existing Instance sample_hashes_ok.

Lemma range_scan_exact_witness :
  (∃ e', scan 256 20 (range 256 sample_old k1 (Some [Byte.x04])) sample_engine
     = (Ok (entries_in_range sample_es k1 (Some [Byte.x04])), e')) ∧
  (∃ e', scan 256 20 (range_after 256 sample_old k1 (Some [Byte.x04])) sample_engine
     = (Ok (entries_in_page sample_es (Some k1) (Some [Byte.x04])), e')) ∧
  (∃ e', scan 256 20 (range_from_cursor 256 sample_old RangeCursor_start (Some [Byte.x04])) sample_engine
     = (Ok (entries_in_page sample_es None (Some [Byte.x04])), e')) ∧
  (∃ e', scan 256 20 (prefix 256 sample_old k2) sample_engine = (Ok (entries_with_prefix sample_es k2), e')).
Proof.
  destruct sample_tree_holds as (h & Hle & Hh).
  exact (range_scan_exact sample_store sample_old h sample_es 256 20 k1 k1 RangeCursor_start k2 (Some [Byte.x04]) sample_engine Hh
    sample_engine_manages (proj2 (Nat.lt_succ_r h 255) Hle) (proj1 (Nat.ltb_lt (length sample_es) 20) eq_refl)).
Defined.

Lemma scan_resumes_witness :
  ∃ it it' e1 e2, range 256 sample_old k2 None sample_engine = (Ok it, e1) ∧
    take_items 256 2 it [] e1 = (Ok (true, take 2 (entries_in_range sample_es k2 None), it'), e2) ∧
    ∃ e3, scan 256 20 (range_from_cursor 256 sample_old (resume_cursor it') None) e2
      = (Ok (drop 2 (entries_in_range sample_es k2 None)), e3).
Proof.
  destruct sample_tree_holds as (h & Hle & Hh).
  apply (scan_resumes sample_store sample_old h sample_es 256 20 k2 None 2 sample_engine Hh
    sample_engine_manages (proj2 (Nat.lt_succ_r h 255) Hle) (proj1 (Nat.ltb_lt (length sample_es) 20) eq_refl)).
  assert (length (entries_in_range sample_es k2 None) = 4%nat) as -> by (vm_compute; reflexivity). lia.
Defined.

Lemma range_pages_exact_witness :
  (∃ page e', range_page 256 sample_old RangeCursor_start None 2 sample_engine = (Ok page, e') ∧
    page_answer RangeCursor_start (entries_in_page sample_es None None) 2 page) ∧
  ∃ e', all_pages 256 20 sample_old RangeCursor_start None 2 sample_engine = (Ok (entries_in_page sample_es None None), e').
Proof.
  destruct sample_tree_holds as (h & Hle & Hh).
  destruct (range_pages_exact sample_store sample_old h sample_es 256 20 RangeCursor_start None 2 sample_engine Hh
    sample_engine_manages (proj2 (Nat.lt_succ_r h 255) Hle)) as [Hpage Hall]; [lia|unfold isize_max; lia| |].
  - exact (proj1 (Nat.ltb_lt (length sample_es) 20) eq_refl).
  - split; [exact Hpage|]. apply Hall. lia.
Defined.

Lemma proved_page_exact_witness :
  ∃ bound, ∀ collect_fuel, (bound ≤ collect_fuel)%nat →
  ∃ page proof e' v, prove_range_page 256 collect_fuel sample_old (after_key k1) None 2 sample_engine
      = (Ok {| pr_page := page; pr_proof := proof |}, e') ∧
    pg_entries page = take 2 (entries_in_page sample_es (Some k1) None) ∧
    pg_next_cursor page = proved_cursor (after_key k1) 2 (entries_in_page sample_es (Some k1) None) (pg_entries page) ∧
    pp_root proof = t_root sample_old ∧ verify_range_page_proof proof = Ok v ∧ pv_valid v = true ∧
    pv_entries v = pg_entries page.
Proof.
  destruct sample_tree_holds as (h & Hle & Hh).
  apply (proved_page_exact sample_store sample_old h sample_es 256 (after_key k1) None 2 sample_engine Hh
    sample_engine_manages (proj2 (Nat.lt_succ_r h 255) Hle) Hle); [lia|unfold isize_max; lia].
Defined.

End RangeContract.
