(* ===== verification/TreeDiff.v ===== *)
(** * Structural differences of trees (src/prolly/diff.rs)

    The traversal that compares two trees: equal identifiers are skipped, aligned children
    are compared pair by pair, children without a counterpart are listed as a whole, and
    where the two nodes do not line up their entries are collected and merged, unless the
    one extends the other.

    A stack has its top first.  The vectors that the functions of the source extend are
    returned as what they add; the counters are threaded when they are asked for. *)

From Stdlib Require Import ZArith Lia Strings.Byte.
From stdpp Require Import base tactics numbers list strings option gmap.
From S2P Require Import Prelude Cursor Types Format Node Store NodeCache Builder Engine Write Loader Range Proof.
Import Format Config Node Store NodeCache Builder Engine Loader.
Import Proof(added, removed, ends_before_or_at).

Local Open Scope Z_scope.

Module TreeDiff.

(** ** Counters *)
Record DiffTraversalStats := {
  compared_nodes : Z; reused_subtrees : Z; added_subtrees : Z; removed_subtrees : Z; collected_fallbacks : Z;
  emitted_diffs : Z }.
Definition DiffTraversalStats_default : DiffTraversalStats := Build_DiffTraversalStats 0 0 0 0 0 0.

(** The counters are machine words, and counting is checked. *)
Definition count_in (value by_ : Z) : outcome Error Z :=
  if value + by_ <=? usize_max then Ok (value + by_) else Panic "attempt to add with overflow".

Definition add_stats (compared reused added_ removed_ fallbacks : Z) (stats : option DiffTraversalStats)
    : outcome Error (option DiffTraversalStats) :=
  match stats with
  | None => Ok None
  | Some s =>
      c ← count_in (compared_nodes s) compared;
      r ← count_in (reused_subtrees s) reused;
      a ← count_in (added_subtrees s) added_;
      d ← count_in (removed_subtrees s) removed_;
      f ← count_in (collected_fallbacks s) fallbacks;
      Ok (Some (Build_DiffTraversalStats c r a d f (emitted_diffs s)))
  end.

(** ** Frames *)
Inductive DiffFrame :=
| FrameCompare (base_cid other_cid : Cid) (span_end : option bytes)
| FrameAdded (cid : Cid)
| FrameRemoved (cid : Cid).

Inductive DiffFrameKind := KindAdded | KindRemoved.
Definition kind_frame (kind : DiffFrameKind) (cid : Cid) : DiffFrame :=
  match kind with KindAdded => FrameAdded cid | KindRemoved => FrameRemoved cid end.
Definition kind_diff (kind : DiffFrameKind) : bytes * bytes → Diff :=
  match kind with KindAdded => added | KindRemoved => removed end.

Definition initial_diff_stack (base other : Tree) : list DiffFrame :=
  match t_root base, t_root other with
  | Some base_cid, Some other_cid =>
      if bool_decide (base_cid = other_cid) then [] else [FrameCompare base_cid other_cid None]
  | Some base_cid, None => [FrameRemoved base_cid]
  | None, Some other_cid => [FrameAdded other_cid]
  | None, None => []
  end.

(** ** Nodes *)
Definition ensure_node_value_count (node : Node) : outcome Error () :=
  if (length (keys node) =? length (vals node))%nat then Ok tt else Err InvalidNode.
Definition child_cid_from_bytes (child : bytes) : outcome Error Cid :=
  if (length child =? 32)%nat then Ok child else Err InvalidNode.
Definition child_cid_validated (node : Node) (idx : nat) : outcome Error Cid :=
  child ← ok_or InvalidNode (vals node !! idx);
  child_cid_from_bytes child.
Definition child_cids (node : Node) : outcome Error (list Cid) :=
  ensure_node_value_count node ≫= λ _,
  mapM child_cid_from_bytes (vals node).
Definition child_diff_frames (node : Node) (kind : DiffFrameKind) : outcome Error (list DiffFrame) :=
  child_cids node ≫= λ cids : list Cid,
  Ok (kind_frame kind <$> cids).

(** The entries of a leaf. *)
Definition leaf_pairs (node : Node) : outcome Error (list (bytes * bytes)) :=
  ensure_node_value_count node ≫= λ _,
  Ok (zip (keys node) (vals node)).

(** The merge of two ordered lists of entries. *)
Fixpoint diff_entry_slices (base : list (bytes * bytes)) : list (bytes * bytes) → list Diff :=
  fix go (other : list (bytes * bytes)) : list Diff :=
    match base, other with
    | [], _ => added <$> other
    | _, [] => removed <$> base
    | (base_key, base_val) :: base', (other_key, other_val) :: other' =>
        match bcmp base_key other_key with
        | Lt => Removed base_key base_val :: diff_entry_slices base' other
        | Gt => Added other_key other_val :: go other'
        | Eq =>
            (if bool_decide (base_val = other_val) then [] else [Changed base_key base_val other_val])
              ++ diff_entry_slices base' other'
        end
    end.

(** The same merge over the entries of two leaves. *)
Definition diff_leaf_nodes (base other : Node) : outcome Error (list Diff) :=
  base ← leaf_pairs base;
  other ← leaf_pairs other;
  Ok (diff_entry_slices base other).

(** ** Aligning children *)
(** The first key that is not in the child before the given ones any more. *)
Definition span_before (children : list (bytes * bytes)) (span_end : option bytes) : option bytes :=
  match children with (k, _) :: _ => Some k | [] => span_end end.

Definition push_frame (frame : DiffFrame) (r : Z * option (list DiffFrame)) : Z * option (list DiffFrame) :=
  (r.1, cons frame <$> r.2).

(** The loop over the children of both nodes: how many pairs are shared and the frames of
    the others, or nothing when two children overlap without being aligned. *)
Fixpoint align_children (span_end : option bytes) (base : list (bytes * bytes))
    : list (bytes * bytes) → outcome Error (Z * option (list DiffFrame)) :=
  fix go (other : list (bytes * bytes)) : outcome Error (Z * option (list DiffFrame)) :=
    match base, other with
    | [], _ =>
        mapM (λ c : bytes * bytes, child_cid_from_bytes c.2) other ≫= λ cids : list Cid,
        Ok (0, Some (FrameAdded <$> cids))
    | _, [] =>
        mapM (λ c : bytes * bytes, child_cid_from_bytes c.2) base ≫= λ cids : list Cid,
        Ok (0, Some (FrameRemoved <$> cids))
    | (base_start, base_child) :: base', (other_start, other_child) :: other' =>
        let base_end := span_before base' span_end in
        let other_end := span_before other' span_end in
        if bool_decide (base_start = other_start) && bool_decide (base_end = other_end) then
          base_cid ← child_cid_from_bytes base_child;
          other_cid ← child_cid_from_bytes other_child;
          r ← align_children span_end base' other';
          Ok (if bool_decide (base_cid = other_cid) then (r.1 + 1, r.2)
              else push_frame (FrameCompare base_cid other_cid base_end) r)
        else if ends_before_or_at base_end other_start then
          cid ← child_cid_from_bytes base_child;
          r ← align_children span_end base' other;
          Ok (push_frame (FrameRemoved cid) r)
        else if ends_before_or_at other_end base_start then
          cid ← child_cid_from_bytes other_child;
          r ← go other';
          Ok (push_frame (FrameAdded cid) r)
        else Ok (0, None)
    end.

(** Whether the children at some positions are the same. *)
Fixpoint same_children (base other : Node) (idxs : list nat) : outcome Error bool :=
  match idxs with
  | [] => Ok true
  | idx :: idxs' =>
      if bool_decide (keys base !! idx = keys other !! idx) then
        base_cid ← child_cid_validated base idx;
        other_cid ← child_cid_validated other idx;
        if bool_decide (base_cid = other_cid) then same_children base other idxs' else Ok false
      else Ok false
  end.

(** [chunks] of a slice. *)
Fixpoint slice_chunks {A} (fuel : nat) (n : nat) (l : list A) : list (list A) :=
  match fuel, l with
  | S fuel', _ :: _ => take n l :: slice_chunks fuel' n (drop n l)
  | _, _ => []
  end.

Definition ASYNC_NODE_PREFETCH_BATCH_SIZE : Z := 64.

(** What a step leaves to do, what it found, and its counters. *)
Abbreviation processed := (list DiffFrame * list Diff * option DiffTraversalStats)%type (only parsing).

Section traversal.
Context `{Hashes} {St : Type} `{Store St}.

(** ** Frontiers *)
(** Batches complete before the first error among them is returned. *)
Fixpoint load_partitions (batches : list (list Cid)) (f : TreeFormat) : eng St (list (outcome Error (list Node))) :=
  match batches with
  | [] => mret []
  | batch :: batches' =>
      Range.caught (load_many_ordered_for_format batch f) ≫= λ partition : outcome Error (list Node),
      load_partitions batches' f ≫= λ partitions : list (outcome Error (list Node)),
      mret (partition :: partitions)
  end.

Definition all_cached (cids : list Cid) : eng St bool := λ e,
  (Ok (forallb (λ cid, bool_decide (is_Some (nc_nodes (en_cache e) !! cid))) cids), e).

Definition load_child_frontier_ordered_for_format (cids : list Cid) (f : TreeFormat) : eng St (list Node) :=
  if bool_decide (cids = []) then mret []
  else
    all_cached cids ≫= λ cached : bool,
    if cached then load_many_ordered_for_format cids f
    else λ e,
      let parallelism := Z.min (Z.pos (ex_read_parallelism (en_execution e))) (len cids) in
      if (parallelism =? 1) || (len cids <=? parallelism) then load_many_ordered_for_format cids f e
      else
        let chunk_size := Z.min ((len cids + parallelism - 1) / parallelism) ASYNC_NODE_PREFETCH_BATCH_SIZE in
        (load_partitions (slice_chunks (length cids) (Z.to_nat chunk_size) cids) f
           ≫= λ partitions : list (outcome Error (list Node)),
         run (nodes ← mapM id partitions; Ok (concat nodes))) e.

Definition load_child_frontier_ordered (cids : list Cid) : eng St (list Node) := λ e,
  load_child_frontier_ordered_for_format cids (Config.format (en_config e)) e.

Definition frame_cids (frame : DiffFrame) : list Cid :=
  match frame with
  | FrameCompare base_cid other_cid _ => [base_cid; other_cid]
  | FrameAdded cid | FrameRemoved cid => [cid]
  end.

(** The first occurrences. *)
Fixpoint unseen (seen : gset Cid) (cids : list Cid) : list Cid :=
  match cids with
  | [] => []
  | cid :: cids' => if bool_decide (cid ∈ seen) then unseen seen cids' else cid :: unseen ({[cid]} ∪ seen) cids'
  end.

Definition prefetch_async_diff_frame_roots (frames : list DiffFrame) : eng St () :=
  from_store (λ s : St, Ok (store_prefers_batch_reads s)) ≫= λ prefers : bool,
  if (length frames <=? 1)%nat || negb prefers then mret tt
  else
    let cids := unseen ∅ (mjoin (frame_cids <$> frames)) in
    if bool_decide (cids = []) then mret tt
    else load_child_frontier_ordered cids ≫= λ _, mret tt.

(** ** Whole subtrees *)
Fixpoint collect_entries_loop (fuel : nat) (stack : list Node) (entries : list (bytes * bytes))
    : eng St (list (bytes * bytes)) :=
  match fuel, stack with
  | O, _ => run (Panic "out of fuel")
  | S _, [] => mret entries
  | S fuel', node :: stack' =>
      if leaf node then
        run (leaf_pairs node) ≫= λ pairs : list (bytes * bytes),
        collect_entries_loop fuel' stack' (entries ++ pairs)
      else
        run (child_cids node) ≫= λ cids : list Cid,
        load_child_frontier_ordered cids ≫= λ child_nodes : list Node,
        collect_entries_loop fuel' (child_nodes ++ stack') entries
  end.
Definition collect_entries_from_node_async (fuel : nat) (node : Node) : eng St (list (bytes * bytes)) :=
  collect_entries_loop fuel [node] [].

Definition diff_collected_nodes_async (fuel : nat) (base other : Node) : eng St (list Diff) :=
  collect_entries_from_node_async fuel base ≫= λ base_entries : list (bytes * bytes),
  collect_entries_from_node_async fuel other ≫= λ other_entries : list (bytes * bytes),
  mret (diff_entry_slices base_entries other_entries).

Fixpoint collect_added_cids_async (fuel : nat) (cids : list Cid) (diffs : list Diff) : eng St (list Diff) :=
  match fuel, cids with
  | O, _ => run (Panic "out of fuel")
  | S _, [] => mret diffs
  | S fuel', cid :: cids' =>
      load_arc cid ≫= λ node : Node,
      if leaf node then
        run (leaf_pairs node) ≫= λ pairs : list (bytes * bytes),
        collect_added_cids_async fuel' cids' (diffs ++ (added <$> pairs))
      else
        run (child_cids node) ≫= λ children : list Cid,
        collect_added_cids_async fuel' (children ++ cids') diffs
  end.

(** ** Extensions at the end *)
(** Down the right edge of the base: what the leaf adds, and the children of the other tree
    that are beyond it on the levels above; nothing when the base is not a prefix. *)
Fixpoint append_only_loop (fuel : nat) (base other : Node) (pending_added : list (list Cid))
    : eng St (option (list Diff * list (list Cid))) :=
  match fuel with
  | O => run (Panic "out of fuel")
  | S fuel' =>
      if level base <? level other then
        if leaf other || bool_decide (keys other = []) then mret None
        else
          run (ensure_node_value_count other) ≫= λ _,
          run (child_cid_validated other 0) ≫= λ first_child : Cid,
          run (mapM (child_cid_validated other) (seq 1 (length (keys other) - 1))) ≫= λ rest : list Cid,
          load_arc first_child ≫= λ other' : Node,
          append_only_loop fuel' base other' (pending_added ++ [rest])
      else if negb (level base =? level other) || negb (bool_decide (leaf base = leaf other))
              || (length (keys other) <? length (keys base))%nat then mret None
      else if leaf base then
        run (leaf_pairs base) ≫= λ base_pairs : list (bytes * bytes),
        run (leaf_pairs other) ≫= λ other_pairs : list (bytes * bytes),
        if bool_decide (take (length base_pairs) other_pairs = base_pairs) then
          mret (Some (added <$> drop (length base_pairs) other_pairs, pending_added))
        else mret None
      else if bool_decide (keys base = []) then
        run (child_cids other) ≫= λ cids : list Cid,
        mret (Some ([], pending_added ++ [cids]))
      else
        run (ensure_node_value_count base) ≫= λ _,
        run (ensure_node_value_count other) ≫= λ _,
        let right_edge := (length (keys base) - 1)%nat in
        run (same_children base other (seq 0 right_edge)) ≫= λ same : bool,
        if negb same then mret None
        else if negb (bool_decide (keys base !! right_edge = keys other !! right_edge)) then mret None
        else
          run (mapM (child_cid_validated other) (seq (length (keys base)) (length (keys other) - length (keys base))))
            ≫= λ rest : list Cid,
          run (child_cid_validated base right_edge) ≫= λ base_child : Cid,
          run (child_cid_validated other right_edge) ≫= λ other_child : Cid,
          if bool_decide (base_child = other_child) then mret (Some ([], pending_added ++ [rest]))
          else
            load_many_ordered [base_child; other_child] ≫= λ nodes : list Node,
            run (ok_or InvalidNode (nodes !! 0%nat)) ≫= λ base' : Node,
            run (ok_or InvalidNode (nodes !! 1%nat)) ≫= λ other' : Node,
            append_only_loop fuel' base' other' (pending_added ++ [rest])
  end.

Fixpoint collect_pending (fuel : nat) (pending : list (list Cid)) (diffs : list Diff) : eng St (list Diff) :=
  match pending with
  | [] => mret diffs
  | cids :: pending' =>
      collect_added_cids_async fuel cids diffs ≫= λ diffs : list Diff,
      collect_pending fuel pending' diffs
  end.

Definition append_only_diff_nodes_async (fuel : nat) (base other : Node) : eng St (option (list Diff)) :=
  append_only_loop fuel base other [] ≫= λ r : option (list Diff * list (list Cid)),
  match r with
  | None => mret None
  | Some (diffs, pending_added) =>
      collect_pending fuel (rev pending_added) diffs ≫= λ diffs : list Diff,
      mret (Some diffs)
  end.

(** ** Frames *)
(** The way out when children do not line up. *)
Definition diff_fallback (fuel : nat) (base other : Node) (stats : option DiffTraversalStats) : eng St processed :=
  append_only_diff_nodes_async fuel base other ≫= λ appended : option (list Diff),
  match appended with
  | Some diffs => mret ([], diffs, stats)
  | None =>
      run (add_stats 0 0 0 0 1 stats) ≫= λ stats : option DiffTraversalStats,
      diff_collected_nodes_async fuel base other ≫= λ diffs : list Diff,
      mret ([], diffs, stats)
  end.

Definition enqueue_async_internal_diff (fuel : nat) (base other : Node) (span_end : option bytes)
    (stats : option DiffTraversalStats) : eng St processed :=
  run (ensure_node_value_count base) ≫= λ _,
  run (ensure_node_value_count other) ≫= λ _,
  run (align_children span_end (zip (keys base) (vals base)) (zip (keys other) (vals other)))
    ≫= λ r : Z * option (list DiffFrame),
  run (add_stats 0 r.1 0 0 0 stats) ≫= λ stats : option DiffTraversalStats,
  match r.2 with
  | Some frames => prefetch_async_diff_frame_roots frames ≫= λ _, mret (frames, [], stats)
  | None => diff_fallback fuel base other stats
  end.

Definition process_async_diff_compare (fuel : nat) (base_cid other_cid : Cid) (span_end : option bytes)
    (stats : option DiffTraversalStats) : eng St processed :=
  if bool_decide (base_cid = other_cid) then
    run (add_stats 0 1 0 0 0 stats) ≫= λ stats : option DiffTraversalStats,
    mret ([], [], stats)
  else
    run (add_stats 1 0 0 0 0 stats) ≫= λ stats : option DiffTraversalStats,
    load_many_ordered [base_cid; other_cid] ≫= λ nodes : list Node,
    run (ok_or InvalidNode (nodes !! 0%nat)) ≫= λ base : Node,
    run (ok_or InvalidNode (nodes !! 1%nat)) ≫= λ other : Node,
    if leaf base && leaf other then
      run (diff_leaf_nodes base other) ≫= λ diffs : list Diff,
      mret ([], diffs, stats)
    else if negb (leaf base) && negb (leaf other) && (level base =? level other) then
      enqueue_async_internal_diff fuel base other span_end stats
    else diff_fallback fuel base other stats.

(** [process_async_added] and [process_async_removed], which differ in the kind. *)
Definition process_async_subtree (kind : DiffFrameKind) (cid : Cid) (stats : option DiffTraversalStats) : eng St processed :=
  run (match kind with KindAdded => add_stats 0 0 1 0 0 stats | KindRemoved => add_stats 0 0 0 1 0 stats end)
    ≫= λ stats : option DiffTraversalStats,
  load_arc cid ≫= λ node : Node,
  if leaf node then
    run (leaf_pairs node) ≫= λ pairs : list (bytes * bytes),
    mret ([], kind_diff kind <$> pairs, stats)
  else
    run (child_diff_frames node kind) ≫= λ frames : list DiffFrame,
    prefetch_async_diff_frame_roots frames ≫= λ _,
    mret (frames, [], stats).
Definition process_async_added : Cid → option DiffTraversalStats → eng St processed := process_async_subtree KindAdded.
Definition process_async_removed : Cid → option DiffTraversalStats → eng St processed := process_async_subtree KindRemoved.

Definition process_frame (fuel : nat) (frame : DiffFrame) (stats : option DiffTraversalStats) : eng St processed :=
  match frame with
  | FrameCompare base_cid other_cid span_end => process_async_diff_compare fuel base_cid other_cid span_end stats
  | FrameAdded cid => process_async_added cid stats
  | FrameRemoved cid => process_async_removed cid stats
  end.

(** ** The difference of two trees *)
Fixpoint diff_loop (rounds fuel : nat) (stack : list DiffFrame) (diffs : list Diff) : eng St (list Diff) :=
  match rounds, stack with
  | O, _ => run (Panic "out of fuel")
  | S _, [] => mret diffs
  | S rounds', frame :: stack' =>
      process_frame fuel frame None ≫= λ r : processed,
      diff_loop rounds' fuel (r.1.1 ++ stack') (diffs ++ r.1.2)
  end.

Definition compute_async_diff (fuel : nat) (base other : Tree) : eng St (list Diff) :=
  diff_loop fuel fuel (initial_diff_stack base other) [].

Definition diff (fuel : nat) (base other : Tree) : eng St (list Diff) := compute_async_diff fuel base other.

Definition try_append_only_diff_async (fuel : nat) (base other : Tree) : eng St (option (list Diff)) :=
  if bool_decide (t_root base = t_root other) then mret (Some [])
  else
    match t_root base, t_root other with
    | None, Some other_cid =>
        collect_added_cids_async fuel [other_cid] [] ≫= λ diffs : list Diff, mret (Some diffs)
    | Some _, None => mret None
    | Some base_cid, Some other_cid =>
        load_many_ordered [base_cid; other_cid] ≫= λ nodes : list Node,
        run (ok_or InvalidNode (nodes !! 0%nat)) ≫= λ base : Node,
        run (ok_or InvalidNode (nodes !! 1%nat)) ≫= λ other : Node,
        append_only_diff_nodes_async fuel base other
    | None, None => mret (Some [])
    end.

End traversal.
End TreeDiff.
