(* ===== verification/TreeDiffSpec.v ===== *)
(** * The difference of two trees is the difference of their maps

    The merge of ordered entries splits where both sides split; so the frames of the
    traversal, in their order, give the merge of all entries of the two trees. *)

From Stdlib Require Import ZArith Lia Strings.Byte.
From stdpp Require Import base tactics numbers list strings option gmap sorting.
From S2P Require Import Prelude Cursor Types Format Node ReadNode Store NodeCache Builder Entries TreeSpec Engine EngineSpec BuiltTree Write Loader LoaderSpec Range Proof ProofSpec WindowSpec ProofTheorems DiffSpec TreeDiff.
Import Format Config Node ReadNode Store NodeCache Builder Entries TreeSpec Engine EngineSpec BuiltTree Loader LoaderSpec ProofSpec ProofTheorems DiffSpec TreeDiff.
Import Proof(added, removed, diff_verified_entries, ends_before_or_at).

Local Open Scope Z_scope.

Module TreeDiffSpec.

(** ** The merge *)
Lemma slices_eq a b : diff_entry_slices a b = diff_verified_entries a b.
Proof. reflexivity. Qed.

Lemma slices_step base other :
  diff_entry_slices base other =
  match base, other with
  | [], _ => added <$> other
  | _, [] => removed <$> base
  | (bk, bv) :: base', (ok, ov) :: other' =>
      match bcmp bk ok with
      | Lt => Removed bk bv :: diff_entry_slices base' other
      | Gt => Added ok ov :: diff_entry_slices base other'
      | Eq => (if bool_decide (bv = ov) then [] else [Changed bk bv ov]) ++ diff_entry_slices base' other'
      end
  end.
Proof. by destruct base, other. Qed.

Lemma slices_nil_l es : diff_entry_slices [] es = added <$> es.
Proof. by destruct es. Qed.
Lemma slices_nil_r es : diff_entry_slices es [] = removed <$> es.
Proof. by destruct es as [|[]]. Qed.

Lemma slices_same es : diff_entry_slices es es = [].
Proof.
  induction es as [|[k v] es IH]; [done|]. rewrite slices_step.
  by rewrite bcmp_refl, bool_decide_eq_true_2, IH.
Qed.

(** All keys of the one before all keys of the other. *)
Definition before (a b : list kv) : Prop := ∀ x y, x ∈ fst <$> a → y ∈ fst <$> b → (x < y)%key.

Lemma before_cons x a b : before (x :: a) b → before a b.
Proof. intros Hb k y Hk. apply Hb. by apply list_elem_of_further. Qed.

(** Where both sides split, so does the merge. *)
Lemma slices_app a1 a2 b1 b2 :
  before a1 b2 → before a2 b1 → before a1 b1 → before a2 b2 →
  diff_entry_slices (a1 ++ b1) (a2 ++ b2) = diff_entry_slices a1 a2 ++ diff_entry_slices b1 b2.
Proof.
  intros H12 H21 H11 H22. remember (length a1 + length a2)%nat as n eqn:Hn. revert a1 a2 H12 H21 H11 H22 Hn.
  induction n as [n IH] using lt_wf_ind; intros a1 a2 H12 H21 H11 H22 Hn.
  destruct a1 as [|[k1 v1] a1], a2 as [|[k2 v2] a2]; [done| | |]; cbn [length] in Hn.
  - rewrite (slices_nil_l ((k2, v2) :: a2)). cbn [app]. destruct b1 as [|[k v] b1].
    + rewrite !slices_nil_l. cbn [fmap list_fmap app]. by rewrite fmap_app.
    + rewrite slices_step. assert (bcmp k k2 = Gt) as ->.
      { rewrite bcmp_antisym. assert (bcmp k2 k = Lt) as -> by (apply H21; apply list_elem_of_here). done. }
      cbn [fmap list_fmap app]. f_equal. rewrite <- slices_nil_l.
      apply (IH (length a2) ltac:(lia) [] a2); [done|by eapply before_cons|done|by eapply before_cons|done].
  - rewrite (slices_nil_r ((k1, v1) :: a1)). cbn [app]. destruct b2 as [|[k v] b2].
    + rewrite !slices_nil_r. cbn [fmap list_fmap app]. by rewrite fmap_app.
    + rewrite slices_step. assert (bcmp k1 k = Lt) as -> by (apply H12; apply list_elem_of_here).
      cbn [fmap list_fmap app]. f_equal. rewrite <- slices_nil_r.
      apply (IH (length a1 + 0)%nat ltac:(lia) a1 []); [by eapply before_cons|done|by eapply before_cons|done|done].
  - rewrite (slices_step ((k1, v1) :: a1)). cbn [app]. rewrite slices_step. destruct (bcmp k1 k2).
    + rewrite <- app_assoc. f_equal. apply (IH (length a1 + length a2)%nat); [lia|by eapply before_cons..|done].
    + cbn [app]. f_equal. apply (IH (length a1 + S (length a2))%nat ltac:(lia) a1 ((k2, v2) :: a2)); [ |done| |done|done];
        by eapply before_cons.
    + cbn [app]. f_equal. apply (IH (S (length a1) + length a2)%nat ltac:(lia) ((k1, v1) :: a1) a2); [done| |done| |done];
        by eapply before_cons.
Qed.

Lemma ascending_before (a b : list kv) : ascending (a ++ b) → before a b.
Proof. intros Hasc. destruct (ascending_app _ _ Hasc) as (_ & _ & Hlt). intros x y. apply Hlt. Qed.

(** Keys below a bound, and keys that are not. *)
Definition below (bound : option bytes) (a : list kv) : Prop := ∀ x, x ∈ fst <$> a → Proof.before_end x bound = true.
Definition above (bound : option bytes) (b : list kv) : Prop := ∀ y, y ∈ fst <$> b → ∃ e, bound = Some e ∧ (e ≤ y)%key.

Lemma below_above bound a b : below bound a → above bound b → before a b.
Proof.
  intros Ha Hb x y Hx Hy. destruct (Hb y Hy) as (e & -> & He). specialize (Ha x Hx). cbn in Ha. apply bltb_lt in Ha.
  by eapply blt_le_trans.
Qed.

Lemma above_nil bound : above bound [].
Proof. intros y Hy. by apply not_elem_of_nil in Hy. Qed.
Lemma before_nil_l b : before [] b.
Proof. intros x y Hx. by apply not_elem_of_nil in Hx. Qed.

(** The merge splits at a bound of both sides. *)
Lemma slices_bound bound a1 a2 b1 b2 :
  below bound a1 → below bound a2 → above bound b1 → above bound b2 →
  diff_entry_slices (a1 ++ b1) (a2 ++ b2) = diff_entry_slices a1 a2 ++ diff_entry_slices b1 b2.
Proof. intros H1 H2 H3 H4. apply slices_app; by eapply below_above. Qed.

(** A map that extends another at its end. *)
Lemma slices_extend a ext : ascending (a ++ ext) → diff_entry_slices a (a ++ ext) = added <$> ext.
Proof.
  intros Hasc%ascending_before. rewrite <- (app_nil_r a) at 1. rewrite slices_app; [|done| |  |done].
  - by rewrite slices_same, slices_nil_l.
  - intros x y _ Hy. by apply not_elem_of_nil in Hy.
  - intros x y _ Hy. by apply not_elem_of_nil in Hy.
Qed.

(** ** Nodes with their entries *)
Section trees.
Context `{HashesOk} (st : gmap bytes bytes) (f : TreeFormat).

Definition node_tree (h : nat) (n : Node) (es : list kv) : Prop :=
  (format n = f ∧ level n = Z.of_nat h ∧ keys n ≠ [] ∧ length (vals n) = length (keys n)) ∧
  match h with
  | O => leaf n = true ∧ es = zip (keys n) (vals n)
  | S h' => leaf n = false ∧ ∃ subs, Forall2 (subtree st f h') (vals n) subs ∧
              Forall2 starts_with (keys n) subs ∧ es = concat subs
  end.

Lemma subtree_node_tree h cid es : subtree st f h cid es → ∃ n, stored_node st cid n ∧ node_tree h n es.
Proof.
  intros Hsub. assert (∃ n, stored_node st cid n) as (n & Hn) by (destruct h; destruct Hsub as (n & Hn & _); by exists n).
  destruct (stored_node_sorted _ _ _ Hn) as [_ Hl]. exists n. split; [done|].
  destruct h; destruct Hsub as (m & Hm & (Hf & Hlev & Hne) & Hes); rewrite (stored_node_unique _ _ _ _ Hn Hm) in *; by split.
Qed.

Lemma subtree_same h h' cid es es' : subtree st f h cid es → subtree st f h' cid es' → h = h' ∧ es = es'.
Proof.
  revert h' cid es es'; induction h as [|h IH]; intros [|h'] cid es es' (n & Hn & (_ & Hlev & _) & Hes) (n' & Hn' & (_ & Hlev' & _) & Hes');
    rewrite (stored_node_unique _ _ _ _ Hn' Hn) in *; try lia.
  - destruct Hes as [_ ->], Hes' as [_ ->]. done.
  - destruct Hes as (_ & subs & Hsubs & _ & ->), Hes' as (_ & subs' & Hsubs' & _ & ->).
    assert (h = h') as <- by lia. split; [done|]. f_equal. clear -Hsubs Hsubs' IH. revert subs' Hsubs'.
    induction Hsubs as [|c sub cs subs Hc _ IHs]; intros subs' Hsubs'; inversion Hsubs' as [|? sub' ? subs'' Hc' Hs']; subst; [done|].
    f_equal; [by eapply IH|by apply IHs].
Qed.

Lemma value_count_ok h n es : node_tree h n es → ensure_node_value_count n = Ok tt.
Proof. intros ((_ & _ & _ & Hl) & _). unfold ensure_node_value_count. by rewrite Hl, Nat.eqb_refl. Qed.

Lemma leaf_pairs_ok n es : node_tree 0 n es → leaf_pairs n = Ok es.
Proof. intros Hn. unfold leaf_pairs. rewrite (value_count_ok _ _ _ Hn). destruct Hn as (_ & _ & ->). done. Qed.

Lemma child_bytes_ok h c sub : subtree st f h c sub → child_cid_from_bytes c = Ok c.
Proof. intros Hc%subtree_cid. unfold child_cid_from_bytes. by rewrite Hc. Qed.

Lemma children_bytes_ok h cs subs : Forall2 (subtree st f h) cs subs → mapM child_cid_from_bytes cs = Ok cs.
Proof.
  induction 1 as [|c sub cs subs Hc _ IH]; [done|]. change (mapM ?g (?x :: ?l)) with (y ← g x; ys ← mapM g l; Ok (y :: ys)).
  by rewrite (child_bytes_ok _ _ _ Hc), IH.
Qed.

Lemma child_cids_ok h n es subs :
  node_tree (S h) n es → Forall2 (subtree st f h) (vals n) subs → child_cids n = Ok (vals n).
Proof. intros Hn Hs. unfold child_cids. rewrite (value_count_ok _ _ _ Hn). cbn [mbind outcome_bind]. by eapply children_bytes_ok. Qed.

Lemma child_validated_ok h cs subs n i c :
  vals n = cs → Forall2 (subtree st f h) cs subs → cs !! i = Some c → child_cid_validated n i = Ok c.
Proof.
  intros <- Hs Hc. unfold child_cid_validated. rewrite Hc. cbn [ok_or mbind outcome_bind].
  destruct (Forall2_lookup_l _ _ _ _ _ Hs Hc) as (sub & _ & Hsub). by eapply child_bytes_ok.
Qed.

(** Consecutive children. *)
Lemma children_validated_ok h subs n i m :
  Forall2 (subtree st f h) (vals n) subs → (i + m ≤ length (vals n))%nat →
  mapM (child_cid_validated n) (seq i m) = Ok (take m (drop i (vals n))).
Proof.
  intros Hs. revert i; induction m as [|m IH]; intros i Hle; [done|]. cbn [seq].
  change (mapM ?g (?x :: ?l)) with (y ← g x; ys ← mapM g l; Ok (y :: ys)).
  destruct (lookup_lt_is_Some_2 (vals n) i) as [c Hc]; [lia|].
  rewrite (child_validated_ok h (vals n) subs n i c eq_refl Hs Hc). cbn [mbind outcome_bind].
  rewrite IH by lia. cbn [mbind outcome_bind]. by rewrite (drop_S _ _ _ Hc).
Qed.

(** ** Aligned children *)
(** The children of a node, each with its separator and its entries. *)
Definition children_of (h : nat) : list (bytes * bytes) → list (list kv) → Prop :=
  Forall2 (λ c sub, subtree st f h c.2 sub ∧ starts_with c.1 sub).

Lemma children_from h cs subs k rest : children_of h ((k, rest) :: cs) subs → ascending (concat subs) →
  ∀ y, y ∈ fst <$> concat subs → (k ≤ y)%key.
Proof.
  intros Hc Hasc y Hy. inversion Hc as [|? sub ? subs' [_ (v & l & ->)] _]; subst. cbn [concat app] in *. by eapply ascending_head.
Qed.

Lemma children_above h cs subs bound : children_of h cs subs → ascending (concat subs) → above (span_before cs bound) (concat subs).
Proof.
  intros Hc Hasc y Hy. destruct cs as [|[k c] cs]; [inversion Hc; subst; by apply not_elem_of_nil in Hy|].
  exists k. split; [done|]. by eapply children_from.
Qed.

Lemma children_below h cs sub subs bound :
  children_of h cs subs → ascending (sub ++ concat subs) → below bound (sub ++ concat subs) → below (span_before cs bound) sub.
Proof.
  intros Hc Hasc Hb x Hx. destruct cs as [|[k c] cs].
  - apply Hb. rewrite fmap_app, elem_of_app. by left.
  - cbn. apply bltb_lt. inversion Hc as [|? sub' ? subs' [_ Hs] _]; subst. destruct (ascending_app _ _ Hasc) as (_ & _ & Hlt).
    apply Hlt; [done|]. cbn [concat]. rewrite fmap_app, elem_of_app. left. by apply starts_with_head.
Qed.

(** What a frame stands for. *)
Definition frame_diff (h : nat) (frame : DiffFrame) (ds : list Diff) : Prop :=
  match frame with
  | FrameCompare c1 c2 bound => ∃ h2 es1 es2, subtree st f h c1 es1 ∧ subtree st f h2 c2 es2 ∧ ascending es1 ∧ ascending es2 ∧
      below bound es1 ∧ below bound es2 ∧ ds = diff_entry_slices es1 es2
  | FrameAdded c => ∃ es, subtree st f h c es ∧ ds = added <$> es
  | FrameRemoved c => ∃ es, subtree st f h c es ∧ ds = removed <$> es
  end.

Lemma children_bytes h cs subs : children_of h cs subs →
  mapM (λ c : bytes * bytes, child_cid_from_bytes c.2) cs = Ok cs.*2 ∧ Forall2 (subtree st f h) cs.*2 subs.
Proof.
  induction 1 as [|c sub cs subs [Hc _] _ [IH IHf]]; [by split|]. split; [|by constructor].
  change (mapM ?g (?x :: ?l)) with (y ← g x; ys ← mapM g l; Ok (y :: ys)). cbn beta. by rewrite (child_bytes_ok h _ sub Hc), IH.
Qed.

Lemma whole_frames (frame : Cid → DiffFrame) (g : kv → Diff) h cs subs :
  (∀ c es, subtree st f h c es → frame_diff h (frame c) (g <$> es)) → Forall2 (subtree st f h) cs subs →
  ∃ dss, Forall2 (frame_diff h) (frame <$> cs) dss ∧ concat dss = g <$> concat subs.
Proof.
  intros Hg Hs. exists (map (fmap g) subs). split.
  - induction Hs as [|c sub cs subs Hc _ IH]; [constructor|]. constructor; [by apply Hg|done].
  - induction subs as [|sub subs IH] in cs, Hs |- *; [done|]. inversion Hs; subst. cbn [fmap list_fmap concat]. rewrite fmap_app. cbn [map concat]. f_equal. by eapply IH.
Qed.

Definition frames_are (h : nat) (r : outcome Error (Z * option (list DiffFrame))) (ds : list Diff) : Prop :=
  ∃ z o, r = Ok (z, o) ∧ match o with None => True | Some frames => ∃ dss, Forall2 (frame_diff h) frames dss ∧ concat dss = ds end.

Lemma frames_are_push h r ds frame d : frames_are h r ds → frame_diff h frame d → frames_are h (x ← r; Ok (push_frame frame x)) (d ++ ds).
Proof.
  intros (z & o & -> & Ho) Hf. cbn [mbind outcome_bind]. eexists z, _. split; [done|]. destruct o as [frames|]; [|done].
  destruct Ho as (dss & Hall & <-). exists (d :: dss). split; [by constructor|done].
Qed.

Lemma align_step bound base other :
  align_children bound base other =
  match base, other with
  | [], _ =>
      mapM (λ c : bytes * bytes, child_cid_from_bytes c.2) other ≫= λ cids : list Cid, Ok (0, Some (FrameAdded <$> cids))
  | _, [] =>
      mapM (λ c : bytes * bytes, child_cid_from_bytes c.2) base ≫= λ cids : list Cid, Ok (0, Some (FrameRemoved <$> cids))
  | (base_start, base_child) :: base', (other_start, other_child) :: other' =>
      let base_end := span_before base' bound in
      let other_end := span_before other' bound in
      if bool_decide (base_start = other_start) && bool_decide (base_end = other_end) then
        base_cid ← child_cid_from_bytes base_child;
        other_cid ← child_cid_from_bytes other_child;
        r ← align_children bound base' other';
        Ok (if bool_decide (base_cid = other_cid) then (r.1 + 1, r.2)
            else push_frame (FrameCompare base_cid other_cid base_end) r)
      else if ends_before_or_at base_end other_start then
        cid ← child_cid_from_bytes base_child;
        r ← align_children bound base' other;
        Ok (push_frame (FrameRemoved cid) r)
      else if ends_before_or_at other_end base_start then
        cid ← child_cid_from_bytes other_child;
        r ← align_children bound base other';
        Ok (push_frame (FrameAdded cid) r)
      else Ok (0, None)
  end.
Proof. by destruct base as [|[]], other as [|[]]. Qed.

(** A child that another side starts at or after is a whole frame. *)
Lemma align_removed h bound k1 c1 cs1 k2 c2 cs2 sub1 subs1 subs2 :
  children_of h ((k1, c1) :: cs1) (sub1 :: subs1) → children_of h ((k2, c2) :: cs2) subs2 →
  ascending (sub1 ++ concat subs1) → ascending (concat subs2) → below bound (sub1 ++ concat subs1) →
  ends_before_or_at (span_before cs1 bound) k2 = true →
  diff_entry_slices (sub1 ++ concat subs1) (concat subs2) = (removed <$> sub1) ++ diff_entry_slices (concat subs1) (concat subs2).
Proof.
  intros Hc1 Hc2 Ha1 Ha2 Hb1 Hend. inversion Hc1 as [|? ? ? ? _ Hcs1]; subst. rewrite <- slices_nil_r.
  change (concat subs2) with ([] ++ concat subs2) at 1. destruct (ascending_app _ _ Ha1) as (_ & Hasc1 & _).
  apply (slices_bound (span_before cs1 bound)); [by eapply children_below| | by eapply children_above|].
  - intros x Hx. by apply not_elem_of_nil in Hx.
  - intros y Hy. destruct (span_before cs1 bound) as [b|]; [|done]. exists b. split; [done|]. cbn in Hend. apply bleb_le in Hend.
    eapply ble_trans; [exact Hend|]. by eapply children_from.
Qed.

Lemma align_added h bound k1 c1 cs1 k2 c2 cs2 subs1 sub2 subs2 :
  children_of h ((k1, c1) :: cs1) subs1 → children_of h ((k2, c2) :: cs2) (sub2 :: subs2) →
  ascending (concat subs1) → ascending (sub2 ++ concat subs2) → below bound (sub2 ++ concat subs2) →
  ends_before_or_at (span_before cs2 bound) k1 = true →
  diff_entry_slices (concat subs1) (sub2 ++ concat subs2) = (added <$> sub2) ++ diff_entry_slices (concat subs1) (concat subs2).
Proof.
  intros Hc1 Hc2 Ha1 Ha2 Hb2 Hend. inversion Hc2 as [|? ? ? ? _ Hcs2]; subst. rewrite <- slices_nil_l.
  change (concat subs1) with ([] ++ concat subs1) at 1. destruct (ascending_app _ _ Ha2) as (_ & Hasc2 & _).
  apply (slices_bound (span_before cs2 bound)); [|by eapply children_below| |by eapply children_above].
  - intros x Hx. by apply not_elem_of_nil in Hx.
  - intros y Hy. destruct (span_before cs2 bound) as [b|]; [|done]. exists b. split; [done|]. cbn in Hend. apply bleb_le in Hend.
    eapply ble_trans; [exact Hend|]. by eapply children_from.
Qed.

(** Children with the same span: the same subtree, or a comparison within the span. *)
Lemma align_paired h bound k1 c1 cs1 k2 c2 cs2 sub1 subs1 sub2 subs2 r :
  children_of h ((k1, c1) :: cs1) (sub1 :: subs1) → children_of h ((k2, c2) :: cs2) (sub2 :: subs2) →
  ascending (sub1 ++ concat subs1) → ascending (sub2 ++ concat subs2) →
  below bound (sub1 ++ concat subs1) → below bound (sub2 ++ concat subs2) → span_before cs1 bound = span_before cs2 bound →
  frames_are h r (diff_entry_slices (concat subs1) (concat subs2)) →
  frames_are h (x ← r; Ok (if bool_decide (c1 = c2) then (x.1 + 1, x.2) else push_frame (FrameCompare c1 c2 (span_before cs1 bound)) x))
    (diff_entry_slices (sub1 ++ concat subs1) (sub2 ++ concat subs2)).
Proof.
  intros Hc1 Hc2 Ha1 Ha2 Hb1 Hb2 Hend Hr. inversion Hc1 as [|? ? ? ? [Hs1 _] Hcs1]; subst. inversion Hc2 as [|? ? ? ? [Hs2 _] Hcs2]; subst.
  destruct (ascending_app _ _ Ha1) as (Hl1 & Hr1 & _), (ascending_app _ _ Ha2) as (Hl2 & Hr2 & _).
  pose proof (children_below h cs1 sub1 subs1 bound Hcs1 Ha1 Hb1) as Hlow1.
  pose proof (children_below h cs2 sub2 subs2 bound Hcs2 Ha2 Hb2) as Hlow2. rewrite <- Hend in Hlow2.
  rewrite (slices_bound (span_before cs1 bound)); [|done|done|by eapply children_above|rewrite Hend; by eapply children_above].
  case_bool_decide as Hc.
  - cbn in Hc. subst c2. destruct (subtree_same _ _ _ _ _ Hs1 Hs2) as [_ <-]. rewrite slices_same.
    destruct Hr as (z & o & -> & Ho). by exists (z + 1), o.
  - apply frames_are_push; [done|]. by exists h, sub1, sub2.
Qed.

Lemma align_ok h bound cs1 cs2 subs1 subs2 :
  children_of h cs1 subs1 → children_of h cs2 subs2 → ascending (concat subs1) → ascending (concat subs2) →
  below bound (concat subs1) → below bound (concat subs2) →
  frames_are h (align_children bound cs1 cs2) (diff_entry_slices (concat subs1) (concat subs2)).
Proof.
  remember (length cs1 + length cs2)%nat as n eqn:Hn. revert cs1 cs2 subs1 subs2 Hn.
  induction n as [n IH] using lt_wf_ind; intros cs1 cs2 subs1 subs2 Hn Hc1 Hc2 Ha1 Ha2 Hb1 Hb2. rewrite align_step.
  destruct cs1 as [|[k1 c1] cs1]; [|destruct cs2 as [|[k2 c2] cs2]].
  - inversion Hc1; subst. destruct (children_bytes h cs2 subs2 Hc2) as [-> Hs]. cbn [mbind outcome_bind concat]. rewrite slices_nil_l.
    eexists _, _. split; [done|]. apply (whole_frames FrameAdded added h _ subs2); [|done]. intros c es Hce. by exists es.
  - inversion Hc2; subst. destruct (children_bytes h _ subs1 Hc1) as [-> Hs]. cbn [mbind outcome_bind concat]. rewrite slices_nil_r.
    eexists _, _. split; [done|]. apply (whole_frames FrameRemoved removed h _ subs1); [|done]. intros c es Hce. by exists es.
  - inversion Hc1 as [|? sub1 ? subs1' [Hs1 _] Hcs1]; subst. inversion Hc2 as [|? sub2 ? subs2' [Hs2 _] Hcs2]; subst. cbn [snd] in *.
    rewrite (child_bytes_ok h c1 sub1 Hs1), (child_bytes_ok h c2 sub2 Hs2). cbn [mbind outcome_bind concat] in *.
    destruct (ascending_app _ _ Ha1) as (_ & Hr1 & _), (ascending_app _ _ Ha2) as (_ & Hr2 & _).
    assert (below bound (concat subs1')) as Hb1' by (intros x Hx; apply Hb1; rewrite fmap_app, elem_of_app; by right).
    assert (below bound (concat subs2')) as Hb2' by (intros x Hx; apply Hb2; rewrite fmap_app, elem_of_app; by right).
    cbv zeta. destruct (_ && _) eqn:Heq; [|destruct (ends_before_or_at (span_before cs1 bound) k2) eqn:Hrm;
      [|destruct (ends_before_or_at (span_before cs2 bound) k1) eqn:Had]].
    + apply andb_true_iff in Heq as [_ Heq%bool_decide_eq_true]. eapply align_paired; try done.
      apply (IH (length cs1 + length cs2)%nat); try done; cbn; lia.
    + pose proof (align_removed h bound k1 c1 cs1 k2 c2 cs2 sub1 subs1' (sub2 :: subs2')) as Heqd. cbn [concat] in Heqd. rewrite Heqd by done.
      apply frames_are_push; [|by exists sub1].
      apply (IH (length cs1 + length ((k2, c2) :: cs2))%nat ltac:(cbn; lia) _ _ subs1' (sub2 :: subs2')); done.
    + pose proof (align_added h bound k1 c1 cs1 k2 c2 cs2 (sub1 :: subs1') sub2 subs2') as Heqd. cbn [concat] in Heqd. rewrite Heqd by done.
      apply frames_are_push; [|by exists sub2].
      apply (IH (length ((k1, c1) :: cs1) + length cs2)%nat ltac:(cbn; lia) _ _ (sub1 :: subs1') subs2'); done.
    + by eexists _, None.
Qed.

(** ** Loads *)
Section loads.
Context {St : Type} `{StoreOk St}.

Implicit Types e : ProllyEngine St.

Lemma load_subtree h cid es e :
  engine_manages f st e → subtree st f h cid es →
  ∃ n e', load_arc cid e = (Ok n, e') ∧ engine_manages f st e' ∧ stored_node st cid n ∧ node_tree h n es.
Proof.
  intros He Hsub. destruct (subtree_node_tree h cid es Hsub) as (n & Hn & Ht).
  destruct (load_arc_ok st f cid n e He Hn) as (e' & Hl & He'); [apply Ht|]. by exists n, e'.
Qed.

(** Identifiers of stored nodes of the format, with the nodes. *)
Definition nodes_of (cids : list Cid) (ns : list Node) : Prop :=
  Forall2 (stored_node st) cids ns ∧ Forall (λ n, format n = f) ns.

(** Nodes of a format are loaded also by an engine for trees of another one. *)
Lemma load_many_nodes g cids ns e :
  engine_manages g st e → nodes_of cids ns →
  ∃ e', load_many_ordered_for_format cids f e = (Ok ns, e') ∧ engine_manages g st e'.
Proof. intros He [Hns Hf]. by apply load_many_manages. Qed.

Lemma load_partitions_ok g batches nss e :
  engine_manages g st e → Forall2 nodes_of batches nss →
  ∃ e', load_partitions batches f e = (Ok (Ok <$> nss), e') ∧ engine_manages g st e'.
Proof.
  intros He Hall. revert e He; induction Hall as [|cids ns batches nss Hc _ IH]; intros e He; [by exists e|].
  cbn [load_partitions]. destruct (load_many_nodes g cids ns e He Hc) as (e1 & Hl & He1).
  rewrite (action_bind_Ok (Range.caught _) _ e (Ok ns) e1) by (unfold Range.caught; by rewrite Hl).
  destruct (IH e1 He1) as (e2 & Hp & He2). rewrite (action_bind_Ok _ _ _ _ _ Hp). by exists e2.
Qed.

Lemma mapM_oks {A} (l : list A) : mapM (M := outcome Error) id (Ok <$> l) = Ok l.
Proof.
  induction l as [|x l IH]; [done|]. cbn [fmap list_fmap]. change (mapM ?g (?x :: ?l)) with (y ← g x; ys ← mapM g l; Ok (y :: ys)).
  cbn [id mbind outcome_bind]. by rewrite IH.
Qed.

Lemma slice_chunks_nodes fuel m cids ns :
  (0 < m)%nat → (length cids ≤ fuel)%nat → nodes_of cids ns →
  ∃ nss, Forall2 nodes_of (slice_chunks fuel m cids) nss ∧ concat nss = ns.
Proof.
  intros Hm. revert cids ns; induction fuel as [|fuel IH]; intros cids ns Hle [Hns Hf].
  { destruct cids; [|cbn in Hle; lia]. inversion Hns; subst. exists []. split; [constructor|done]. }
  destruct cids as [|c cids]; [inversion Hns; subst; exists []; split; [constructor|done]|].
  cbn [slice_chunks]. destruct (IH (drop m (c :: cids)) (drop m ns)) as (nss & Hall & Hcat).
  - rewrite length_drop. cbn [length] in *. lia.
  - split; [by apply Forall2_drop|by apply Forall_drop].
  - exists (take m ns :: nss). split; [|cbn [concat]; by rewrite Hcat, take_drop].
    constructor; [|done]. split; [by apply Forall2_take|by apply Forall_take].
Qed.

Lemma frontier_for_ok g cids ns e :
  engine_manages g st e → nodes_of cids ns →
  ∃ e', load_child_frontier_ordered_for_format cids f e = (Ok ns, e') ∧ engine_manages g st e'.
Proof.
  intros He Hns. unfold load_child_frontier_ordered_for_format.
  case_bool_decide as Hnil; [subst cids; destruct Hns as [Hns _]; inversion Hns; subst; by exists e|].
  rewrite (action_bind_Ok (all_cached cids) _ e _ e eq_refl). set (cached := forallb _ _).
  pose proof (load_many_nodes g cids ns e He Hns) as Hmany. destruct cached; [done|].
  set (par := Z.min _ _). destruct ((par =? 1) || (len cids <=? par)) eqn:Hpar; [done|].
  apply orb_false_iff in Hpar as [Hone%Z.eqb_neq Hmore%Z.leb_gt]. set (size := Z.min _ _).
  assert (0 < size) as Hsize.
  { assert (1 ≤ len cids) by (unfold len; destruct cids; [done|cbn [length]; lia]).
    assert (1 ≤ (len cids + par - 1) / par) by (apply Z.div_le_lower_bound; lia).
    unfold size, ASYNC_NODE_PREFETCH_BATCH_SIZE. lia. }
  destruct (slice_chunks_nodes (length cids) (Z.to_nat size) cids ns) as (nss & Hnss & Hcat); [lia|lia|done|].
  destruct (load_partitions_ok g _ nss e He Hnss) as (e1 & Hp & He1). rewrite (action_bind_Ok _ _ _ _ _ Hp).
  exists e1. split; [|done]. unfold run. rewrite mapM_oks. cbn [mbind outcome_bind]. by rewrite Hcat.
Qed.

Lemma frontier_ok cids ns e :
  engine_manages f st e → nodes_of cids ns →
  ∃ e', load_child_frontier_ordered cids e = (Ok ns, e') ∧ engine_manages f st e'.
Proof. intros He Hns. unfold load_child_frontier_ordered. rewrite (proj2 He). by apply frontier_for_ok. Qed.

(** What stands for a tree in a store. *)
Definition rooted (cid : Cid) (es : list kv) : Prop := ∃ h, subtree st f h cid es.

Lemma rooted_nodes cids ess : Forall2 rooted cids ess → ∃ ns, nodes_of cids ns.
Proof.
  induction 1 as [|c es cids ess (h & Hc) _ (ns & Hns & Hf)]; [by exists []; split|].
  destruct (subtree_node_tree h c es Hc) as (n & Hn & (Hfn & _) & _). exists (n :: ns). split; by constructor.
Qed.

Lemma nodes_of_sub cids ns cids' : nodes_of cids ns → (∀ c, c ∈ cids' → c ∈ cids) → ∃ ns', nodes_of cids' ns'.
Proof.
  intros [Hns Hf] Hsub. destruct (stored_some st cids ns cids' Hns Hsub) as (vs & Hvs & Hin). exists vs. split; [done|].
  apply Forall_forall. intros n Hn. by apply (proj1 (Forall_forall _ _) Hf), Hin.
Qed.

Lemma unseen_in seen cids c : c ∈ unseen seen cids → c ∈ cids.
Proof.
  revert seen; induction cids as [|c' cids IH]; intros seen; [done|]. cbn [unseen]. case_bool_decide.
  - intros Hc. right. by eapply IH.
  - intros [->|Hc]%elem_of_cons; [by left|right; by eapply IH].
Qed.

Lemma prefetch_ok frames ns e :
  engine_manages f st e → nodes_of (mjoin (frame_cids <$> frames)) ns →
  ∃ e', prefetch_async_diff_frame_roots frames e = (Ok tt, e') ∧ engine_manages f st e'.
Proof.
  intros He Hns. unfold prefetch_async_diff_frame_roots.
  rewrite (action_bind_Ok (from_store _) _ e (store_prefers_batch_reads (en_store e)) e) by done.
  destruct (_ || _); [by exists e|]. case_bool_decide; [by exists e|].
  destruct (nodes_of_sub _ ns (unseen ∅ (mjoin (frame_cids <$> frames))) Hns) as (ns' & Hns'); [intros c; apply unseen_in|].
  destruct (frontier_ok _ ns' e He Hns') as (e1 & Hl & He1). rewrite (action_bind_Ok _ _ _ _ _ Hl). by exists e1.
Qed.

(** ** Whole subtrees *)
(** A loop that ends in a result, whatever more fuel it gets. *)
Definition ends {A} (loop : nat → eng St A) (e : ProllyEngine St) (a : A) : Prop :=
  ∃ bound e', engine_manages f st e' ∧ ∀ fuel, (bound ≤ fuel)%nat → loop fuel e = (Ok a, e').

(** Part of a loop: it comes to another point of it. *)
Definition goes {A} (loop loop' : nat → eng St A) (e e' : ProllyEngine St) : Prop :=
  ∃ k, ∀ fuel, loop (k + fuel)%nat e = loop' fuel e'.

Lemma goes_refl {A} (loop : nat → eng St A) e : goes loop loop e e.
Proof. by exists 0%nat. Qed.
Lemma goes_trans {A} (a b c : nat → eng St A) e1 e2 e3 : goes a b e1 e2 → goes b c e2 e3 → goes a c e1 e3.
Proof. intros [k Hk] [k' Hk']. exists (k + k')%nat. intros fuel. by rewrite <- Nat.add_assoc, Hk, Hk'. Qed.
Lemma goes_step {A} (a b : nat → eng St A) e e' : (∀ fuel, a (S fuel) e = b fuel e') → goes a b e e'.
Proof. intros Hs. exists 1%nat. exact Hs. Qed.

Lemma goes_ends {A} (loop loop' : nat → eng St A) e e' a :
  goes loop loop' e e' → ends loop' e' a → ends loop e a.
Proof.
  intros [k Hk] (b & e2 & He2 & Hr). exists (k + b)%nat, e2. split; [done|]. intros fuel Hfuel.
  replace fuel with (k + (fuel - k))%nat by lia. rewrite Hk. apply Hr. lia.
Qed.

(** Entries of a subtree are collected in order. *)
Lemma collect_node h n es rest acc e :
  engine_manages f st e → node_tree h n es →
  ∃ e', engine_manages f st e' ∧
    goes (λ fuel, collect_entries_loop fuel (n :: rest) acc) (λ fuel, collect_entries_loop fuel rest (acc ++ es)) e e'.
Proof.
  revert n es rest acc e; induction h as [|h IH]; intros n es rest acc e He Hn.
  - exists e. split; [done|]. apply goes_step. intros fuel. cbn [collect_entries_loop]. rewrite (proj1 (proj2 Hn)).
    by rewrite (action_bind_Ok (run _) _ e es e) by (unfold run; by rewrite (leaf_pairs_ok n es Hn)).
  - destruct (Hn) as (_ & Hleaf & subs & Hsubs & _ & ->).
    assert (∃ ns, nodes_of (vals n) ns ∧ Forall2 (node_tree h) ns subs) as (ns & Hns & Htrees).
    { clear -Hsubs H0. induction Hsubs as [|c sub cs subs Hc _ (ns & [Hns Hf] & Ht)]; [exists []; repeat constructor|].
      destruct (subtree_node_tree h c sub Hc) as (m & Hm & Ht'). exists (m :: ns).
      split; [split; constructor; try done; apply Ht'|by constructor]. }
    destruct (frontier_ok (vals n) ns e He Hns) as (e1 & Hl & He1).
    assert (∀ ns subs acc e, engine_manages f st e → Forall2 (node_tree h) ns subs → ∃ e', engine_manages f st e' ∧
      goes (λ fuel, collect_entries_loop fuel (ns ++ rest) acc) (λ fuel, collect_entries_loop fuel rest (acc ++ concat subs)) e e') as Hlist.
    { clear -IH. intros ns subs acc e He Ht. revert acc e He; induction Ht as [|n sub ns subs Hn _ IHs]; intros acc e He.
      - exists e. split; [done|]. cbn [concat app]. rewrite app_nil_r. apply goes_refl.
      - destruct (IH n sub (ns ++ rest) acc e He Hn) as (e1 & He1 & Hg1). destruct (IHs (acc ++ sub) e1 He1) as (e2 & He2 & Hg2).
        exists e2. split; [done|]. cbn [concat app]. rewrite app_assoc. by eapply goes_trans. }
    destruct (Hlist ns subs acc e1 He1 Htrees) as (e2 & He2 & Hg). exists e2. split; [done|].
    eapply goes_trans; [|exact Hg]. apply goes_step. intros fuel. cbn [collect_entries_loop]. rewrite Hleaf.
    rewrite (action_bind_Ok (run _) _ e (vals n) e) by (unfold run; by rewrite (child_cids_ok h n _ subs Hn Hsubs)).
    by rewrite (action_bind_Ok _ _ _ _ _ Hl).
Qed.

Lemma collect_entries_ok h n es e :
  engine_manages f st e → node_tree h n es → ends (λ fuel, collect_entries_from_node_async fuel n) e es.
Proof.
  intros He Hn. destruct (collect_node h n es [] [] e He Hn) as (e1 & He1 & Hg). eapply goes_ends; [exact Hg|].
  exists 1%nat, e1. split; [done|]. intros [|fuel] Hfuel; [lia|]. done.
Qed.

Lemma ends_bind {A B} (a : nat → eng St A) (k : A → nat → eng St B) e x y :
  ends a e x → (∀ e', engine_manages f st e' → ends (k x) e' y) → ends (λ fuel, a fuel ≫= λ x, k x fuel) e y.
Proof.
  intros (b & e1 & He1 & Ha) Hk. destruct (Hk e1 He1) as (b' & e2 & He2 & Hk'). exists (b + b')%nat, e2. split; [done|].
  intros fuel Hfuel. rewrite (action_bind_Ok _ _ _ _ _ (Ha fuel ltac:(lia))). apply Hk'. lia.
Qed.

Lemma ends_ret {A} (a : A) e : engine_manages f st e → ends (λ _, mret a) e a.
Proof. intros He. exists 0%nat, e. done. Qed.

Lemma diff_collected_ok h1 h2 n1 n2 es1 es2 e :
  engine_manages f st e → node_tree h1 n1 es1 → node_tree h2 n2 es2 →
  ends (λ fuel, diff_collected_nodes_async fuel n1 n2) e (diff_entry_slices es1 es2).
Proof.
  intros He H1' H2'. unfold diff_collected_nodes_async. eapply ends_bind; [by eapply collect_entries_ok|]. intros e1 He1.
  eapply ends_bind; [by eapply collect_entries_ok|]. intros e2 He2. by apply ends_ret.
Qed.

(** Added subtrees are listed in order. *)
Lemma collect_added_cid h c es rest acc e :
  engine_manages f st e → subtree st f h c es →
  ∃ e', engine_manages f st e' ∧
    goes (λ fuel, collect_added_cids_async fuel (c :: rest) acc)
         (λ fuel, collect_added_cids_async fuel rest (acc ++ (added <$> es))) e e'.
Proof.
  revert c es rest acc e; induction h as [|h IH]; intros c es rest acc e He Hc;
    destruct (load_subtree _ c es e He Hc) as (n & e1 & Hl & He1 & _ & Hn).
  - exists e1. split; [done|]. apply goes_step. intros fuel. cbn [collect_added_cids_async].
    rewrite (action_bind_Ok _ _ _ _ _ Hl), (proj1 (proj2 Hn)).
    by rewrite (action_bind_Ok (run _) _ e1 es e1) by (unfold run; by rewrite (leaf_pairs_ok n es Hn)).
  - destruct (Hn) as (_ & Hleaf & subs & Hsubs & _ & ->).
    assert (∀ cs subs acc e, engine_manages f st e → Forall2 (subtree st f h) cs subs → ∃ e', engine_manages f st e' ∧
      goes (λ fuel, collect_added_cids_async fuel (cs ++ rest) acc)
           (λ fuel, collect_added_cids_async fuel rest (acc ++ (added <$> concat subs))) e e') as Hlist.
    { clear -IH. intros cs subs acc e He Ht. revert acc e He; induction Ht as [|c sub cs subs Hc _ IHs]; intros acc e He.
      - exists e. split; [done|]. cbn [concat app fmap list_fmap]. rewrite app_nil_r. apply goes_refl.
      - destruct (IH c sub (cs ++ rest) acc e He Hc) as (e1 & He1 & Hg1). destruct (IHs (acc ++ (added <$> sub)) e1 He1) as (e2 & He2 & Hg2).
        exists e2. split; [done|]. cbn [concat app]. rewrite fmap_app, app_assoc. by eapply goes_trans. }
    destruct (Hlist (vals n) subs acc e1 He1 Hsubs) as (e2 & He2 & Hg). exists e2. split; [done|].
    eapply goes_trans; [|exact Hg]. apply goes_step. intros fuel. cbn [collect_added_cids_async].
    rewrite (action_bind_Ok _ _ _ _ _ Hl), Hleaf.
    by rewrite (action_bind_Ok (run _) _ e1 (vals n) e1) by (unfold run; by rewrite (child_cids_ok h n _ subs Hn Hsubs)).
Qed.

Lemma collect_added_ok cids ess acc e :
  engine_manages f st e → Forall2 rooted cids ess →
  ends (λ fuel, collect_added_cids_async fuel cids acc) e (acc ++ (added <$> concat ess)).
Proof.
  intros He Hall. revert acc e He; induction Hall as [|c es cids ess (h & Hc) _ IH]; intros acc e He.
  - exists 1%nat, e. split; [done|]. intros [|fuel] Hfuel; [lia|]. cbn. by rewrite app_nil_r.
  - destruct (collect_added_cid h c es cids acc e He Hc) as (e1 & He1 & Hg). eapply goes_ends; [exact Hg|].
    cbn [concat]. rewrite fmap_app, app_assoc. by apply IH.
Qed.

(** ** Extensions *)
Lemma ends_now {A} (loop : nat → eng St A) e e' a :
  engine_manages f st e' → (∀ fuel, loop (S fuel) e = (Ok a, e')) → ends loop e a.
Proof. intros He Hs. exists 1%nat, e'. split; [done|]. intros [|fuel] Hfuel; [lia|apply Hs]. Qed.
Lemma ends_step {A} (loop loop' : nat → eng St A) e e' a :
  (∀ fuel, loop (S fuel) e = loop' fuel e') → ends loop' e' a → ends loop e a.
Proof. intros Hs. apply goes_ends. by apply goes_step. Qed.

Lemma subs_same h cs subs subs' : Forall2 (subtree st f h) cs subs → Forall2 (subtree st f h) cs subs' → subs = subs'.
Proof.
  intros Hs. revert subs'; induction Hs as [|c sub cs subs Hc _ IH]; intros subs' Hs'; inversion Hs' as [|? sub' ? subs'' Hc' Hs'']; subst; [done|].
  f_equal; [by eapply subtree_same|by apply IH].
Qed.

Lemma same_children_ok h n1 n2 subs1 subs2 i m :
  Forall2 (subtree st f h) (vals n1) subs1 → Forall2 (subtree st f h) (vals n2) subs2 →
  (i + m ≤ length (vals n1))%nat → (i + m ≤ length (vals n2))%nat →
  ∃ b, same_children n1 n2 (seq i m) = Ok b ∧ (b = true → take m (drop i (vals n1)) = take m (drop i (vals n2))).
Proof.
  intros Hs1 Hs2. revert i; induction m as [|m IH]; intros i Hi1 Hi2; [by exists true|]. cbn [seq same_children].
  case_bool_decide; [|by exists false].
  destruct (lookup_lt_is_Some_2 (vals n1) i) as [c1 Hc1]; [lia|]. destruct (lookup_lt_is_Some_2 (vals n2) i) as [c2 Hc2]; [lia|].
  rewrite (child_validated_ok h (vals n1) subs1 n1 i c1 eq_refl Hs1 Hc1), (child_validated_ok h (vals n2) subs2 n2 i c2 eq_refl Hs2 Hc2).
  cbn [mbind outcome_bind]. case_bool_decide as Heq; [subst c2|by exists false].
  destruct (IH (S i)) as (b & Hb & Hsame); [lia|lia|]. exists b. split; [done|]. intros Hbt.
  rewrite (drop_S _ _ _ Hc1), (drop_S _ _ _ Hc2). cbn [take]. f_equal. by apply Hsame.
Qed.

(** Children that were put aside, and their entries. *)
Definition put_aside (cids : list Cid) (ext : list kv) : Prop := ∃ ess, Forall2 rooted cids ess ∧ ext = concat ess.

Lemma put_aside_subs h cs subs : Forall2 (subtree st f h) cs subs → put_aside cs (concat subs).
Proof. intros Hs. exists subs. split; [|done]. eapply Forall2_impl; [exact Hs|]. intros c sub Hc. by exists h. Qed.

(** The answer of the walk down the right edge. *)
Definition extends (es1 es2 : list kv) (exts : list (list kv)) (r : option (list Diff * list (list Cid))) : Prop :=
  match r with
  | None => True
  | Some (ds, pend) => ∃ lext exts', ds = added <$> lext ∧ Forall2 put_aside pend exts' ∧
      es2 ++ concat (rev exts) = es1 ++ lext ++ concat (rev exts')
  end.

Lemma concat_rev_snoc (exts : list (list kv)) ext : concat (rev (exts ++ [ext])) = ext ++ concat (rev exts).
Proof. by rewrite rev_unit. Qed.

Lemma load_pair h1 h2 c1 c2 es1 es2 e :
  engine_manages f st e → subtree st f h1 c1 es1 → subtree st f h2 c2 es2 →
  ∃ n1 n2 e', load_many_ordered [c1; c2] e = (Ok [n1; n2], e') ∧ engine_manages f st e' ∧ node_tree h1 n1 es1 ∧ node_tree h2 n2 es2.
Proof.
  intros He Hc1 Hc2. destruct (subtree_node_tree h1 c1 es1 Hc1) as (n1 & Hn1 & Ht1), (subtree_node_tree h2 c2 es2 Hc2) as (n2 & Hn2 & Ht2).
  destruct (load_many_nodes f [c1; c2] [n1; n2] e He) as (e' & Hl & He').
  { split; [by repeat constructor|]. constructor; [apply Ht1|constructor; [apply Ht2|done]]. }
  exists n1, n2, e'. unfold load_many_ordered. by rewrite (proj2 He).
Qed.

(** The entries on both sides of a right edge. *)
Lemma edge_split h vals1 vals2 subs1 subs2 r c1 c2 :
  Forall2 (subtree st f h) vals1 subs1 → Forall2 (subtree st f h) vals2 subs2 →
  take r vals1 = take r vals2 → length vals1 = S r → vals1 !! r = Some c1 → vals2 !! r = Some c2 →
  ∃ pre sub1 sub2, subtree st f h c1 sub1 ∧ subtree st f h c2 sub2 ∧
    concat subs1 = pre ++ sub1 ∧ concat subs2 = pre ++ sub2 ++ concat (drop (S r) subs2).
Proof.
  intros Hs1 Hs2 Hsame Hlen Hc1 Hc2. destruct (Forall2_lookup_l _ _ _ _ _ Hs1 Hc1) as (sub1 & Hsub1 & Ht1).
  destruct (Forall2_lookup_l _ _ _ _ _ Hs2 Hc2) as (sub2 & Hsub2 & Ht2).
  exists (concat (take r subs1)), sub1, sub2. split; [done|]. split; [done|]. split.
  - rewrite <- (take_drop_middle subs1 r sub1 Hsub1) at 1. rewrite concat_app. cbn [concat].
    rewrite drop_ge by (rewrite <- (Forall2_length _ _ _ Hs1); lia). by rewrite app_nil_r.
  - rewrite <- (take_drop_middle subs2 r sub2 Hsub2) at 1. rewrite concat_app. cbn [concat]. do 2 f_equal.
    eapply (subs_same h (take r vals1)); [rewrite Hsame|]; by apply Forall2_take.
Qed.

(** Equal levels above the leaves: what a round of the walk does. *)
Lemma append_inner_round h n1 n2 subs1 subs2 pend e :
  node_tree (S h) n1 (concat subs1) → node_tree (S h) n2 (concat subs2) →
  Forall2 (subtree st f h) (vals n1) subs1 → Forall2 (subtree st f h) (vals n2) subs2 →
  let r := (length (keys n1) - 1)%nat in
  let rest := drop (S r) (vals n2) in
  (∀ fuel, append_only_loop (S fuel) n1 n2 pend e = (Ok None, e)) ∨
  ∃ c1 c2, (length (vals n1) = S r)%nat ∧ take r (vals n1) = take r (vals n2) ∧ vals n1 !! r = Some c1 ∧ vals n2 !! r = Some c2 ∧
    ∀ fuel, append_only_loop (S fuel) n1 n2 pend e =
      (if bool_decide (c1 = c2) then mret (Some ([], pend ++ [rest]))
       else
         load_many_ordered [c1; c2] ≫= λ nodes : list Node,
         run (ok_or InvalidNode (nodes !! 0%nat)) ≫= λ base' : Node,
         run (ok_or InvalidNode (nodes !! 1%nat)) ≫= λ other' : Node,
         append_only_loop fuel base' other' (pend ++ [rest])) e.
Proof.
  intros Hn1 Hn2 Hs1 Hs2 r rest. pose proof (value_count_ok _ _ _ Hn1) as Hvc1. pose proof (value_count_ok _ _ _ Hn2) as Hvc2.
  destruct Hn1 as ((_ & Hlev1 & Hne1 & Hlen1) & Hl1 & _), Hn2 as ((_ & Hlev2 & _ & Hlen2) & Hl2 & _).
  assert (0 < length (keys n1))%nat as Hpos by (destruct (keys n1); [done|cbn; lia]).
  destruct (Nat.ltb_spec (length (keys n2)) (length (keys n1))) as [Hlt%Nat.ltb_lt|Hge].
  { left. intros fuel. cbn [append_only_loop]. rewrite Hlev1, Hlev2, Hl1, Hl2, Z.ltb_irrefl, Z.eqb_refl, bool_decide_eq_true_2 by done.
    cbn [negb orb]. by rewrite Hlt. }
  destruct (same_children_ok h n1 n2 subs1 subs2 0 r Hs1 Hs2) as (b & Hb & Hsame); [lia|lia|]. rewrite !drop_0 in Hsame.
  destruct (b && bool_decide (keys n1 !! r = keys n2 !! r)) eqn:Hgo.
  - right. apply andb_true_iff in Hgo as [-> Hk]. specialize (Hsame eq_refl).
    destruct (lookup_lt_is_Some_2 (vals n1) r) as [c1 Hc1]; [lia|]. destruct (lookup_lt_is_Some_2 (vals n2) r) as [c2 Hc2]; [lia|].
    exists c1, c2. split; [lia|]. split; [done|]. split; [done|]. split; [done|]. intros fuel.
    cbn [append_only_loop]. rewrite Hlev1, Hlev2, Hl1, Hl2, Z.ltb_irrefl, Z.eqb_refl, bool_decide_eq_true_2 by done.
    cbn [negb orb]. rewrite (proj2 (Nat.ltb_ge _ _) Hge), bool_decide_eq_false_2 by done.
    rewrite (action_bind_Ok (run _) _ e tt e) by (unfold run; by rewrite Hvc1).
    rewrite (action_bind_Ok (run _) _ e tt e) by (unfold run; by rewrite Hvc2). fold r.
    rewrite (action_bind_Ok (run _) _ e true e) by (unfold run; by rewrite Hb). rewrite Hk. cbn [negb].
    rewrite (action_bind_Ok (run _) _ e rest e).
    2: { unfold run. rewrite (children_validated_ok h subs2 n2 _ _ Hs2) by lia. rewrite take_ge by (rewrite length_drop; lia).
         unfold rest, r. do 3 f_equal. lia. }
    rewrite (action_bind_Ok (run _) _ e c1 e) by (unfold run; by rewrite (child_validated_ok h _ subs1 n1 r c1 eq_refl Hs1 Hc1)).
    by rewrite (action_bind_Ok (run _) _ e c2 e) by (unfold run; by rewrite (child_validated_ok h _ subs2 n2 r c2 eq_refl Hs2 Hc2)).
  - left. intros fuel. cbn [append_only_loop]. rewrite Hlev1, Hlev2, Hl1, Hl2, Z.ltb_irrefl, Z.eqb_refl, bool_decide_eq_true_2 by done.
    cbn [negb orb]. rewrite (proj2 (Nat.ltb_ge _ _) Hge), bool_decide_eq_false_2 by done.
    rewrite (action_bind_Ok (run _) _ e tt e) by (unfold run; by rewrite Hvc1).
    rewrite (action_bind_Ok (run _) _ e tt e) by (unfold run; by rewrite Hvc2). fold r.
    rewrite (action_bind_Ok (run _) _ e b e) by (unfold run; by rewrite Hb). destruct b; [|done]. cbn in Hgo. by rewrite Hgo.
Qed.

Lemma append_inner h n1 n2 es1 es2 pend exts e :
  engine_manages f st e → node_tree (S h) n1 es1 → node_tree (S h) n2 es2 → Forall2 put_aside pend exts →
  (∀ n1 n2 es1 es2 pend exts e, engine_manages f st e → node_tree h n1 es1 → node_tree h n2 es2 → Forall2 put_aside pend exts →
    ∃ r, ends (λ fuel, append_only_loop fuel n1 n2 pend) e r ∧ extends es1 es2 exts r) →
  ∃ r, ends (λ fuel, append_only_loop fuel n1 n2 pend) e r ∧ extends es1 es2 exts r.
Proof.
  intros He Hn1 Hn2 Hp IH. destruct (Hn1) as (_ & _ & subs1 & Hs1 & _ & ->), (Hn2) as (_ & _ & subs2 & Hs2 & _ & ->).
  destruct (append_inner_round h n1 n2 subs1 subs2 pend e Hn1 Hn2 Hs1 Hs2) as [Hnone|(c1 & c2 & Hlen & Hsame & Hc1 & Hc2 & Hstep)].
  { exists None. split; [by apply ends_now with e|done]. }
  set (r := (length (keys n1) - 1)%nat) in *. set (rest := drop (S r) (vals n2)) in *. set (ext := concat (drop (S r) subs2)) in *.
  destruct (edge_split h (vals n1) (vals n2) subs1 subs2 r c1 c2 Hs1 Hs2 Hsame Hlen Hc1 Hc2) as (pre & sub1 & sub2 & Ht1 & Ht2 & -> & Heq2).
  fold ext in Heq2. assert (Forall2 put_aside (pend ++ [rest]) (exts ++ [ext])) as Hp'.
  { apply Forall2_app; [done|]. constructor; [|done]. by apply (put_aside_subs h), Forall2_drop. }
  case_bool_decide as Hcc.
  - subst c2. destruct (subtree_same _ _ _ _ _ Ht1 Ht2) as [_ <-]. exists (Some ([], pend ++ [rest])). split; [by apply ends_now with e|].
    exists [], (exts ++ [ext]). split; [done|]. split; [done|]. rewrite concat_rev_snoc, Heq2, <- !app_assoc. done.
  - destruct (load_pair h h c1 c2 sub1 sub2 e He Ht1 Ht2) as (m1 & m2 & e1 & Hl & He1 & Hm1 & Hm2).
    destruct (IH m1 m2 sub1 sub2 (pend ++ [rest]) (exts ++ [ext]) e1 He1 Hm1 Hm2 Hp') as (res & Hends & Hext).
    exists res. split.
    + eapply ends_step; [|exact Hends]. intros fuel. rewrite Hstep. by rewrite (action_bind_Ok _ _ _ _ _ Hl).
    + destruct res as [[ds pend']|]; [|done]. destruct Hext as (lext & exts' & Hds & Hp'' & Heq). exists lext, exts'.
      split; [done|]. split; [done|]. rewrite concat_rev_snoc in Heq. rewrite Heq2, <- !app_assoc, Heq. done.
Qed.

(** The other tree is higher: down its left edge. *)
Lemma append_left h1 h2 n1 n2 es1 es2 pend exts e :
  engine_manages f st e → node_tree h1 n1 es1 → node_tree (S h2) n2 es2 → (h1 < S h2)%nat → Forall2 put_aside pend exts →
  (∀ n2 es2 pend exts e, engine_manages f st e → node_tree h2 n2 es2 → Forall2 put_aside pend exts →
    ∃ r, ends (λ fuel, append_only_loop fuel n1 n2 pend) e r ∧ extends es1 es2 exts r) →
  ∃ r, ends (λ fuel, append_only_loop fuel n1 n2 pend) e r ∧ extends es1 es2 exts r.
Proof.
  intros He Hn1 Hn2 Hlt Hp IH. pose proof (value_count_ok _ _ _ Hn2) as Hvc.
  destruct (Hn1) as ((_ & Hlev1 & _) & _), (Hn2) as ((_ & Hlev2 & Hne2 & Hlen2) & Hl2 & subs & Hs & _ & ->).
  assert (0 < length (keys n2))%nat as Hpos by (destruct (keys n2); [done|cbn; lia]).
  destruct (lookup_lt_is_Some_2 (vals n2) 0) as [c Hc]; [lia|].
  destruct (Forall2_lookup_l _ _ _ _ _ Hs Hc) as (sub & Hsub & Ht). destruct (load_subtree h2 c sub e He Ht) as (m & e1 & Hl & He1 & _ & Hm).
  assert (put_aside (drop 1 (vals n2)) (concat (drop 1 subs))) as Hrest by (apply (put_aside_subs h2), Forall2_drop, Hs).
  destruct (IH m sub (pend ++ [drop 1 (vals n2)]) (exts ++ [concat (drop 1 subs)]) e1 He1 Hm) as (r & Hends & Hext).
  { apply Forall2_app; [done|by constructor]. }
  exists r. split.
  - eapply ends_step; [|exact Hends]. intros fuel. cbn [append_only_loop]. rewrite Hlev1, Hlev2.
    destruct (Z.ltb_spec (Z.of_nat h1) (Z.of_nat (S h2))) as [_|]; [|lia]. rewrite Hl2, bool_decide_eq_false_2 by done. cbn [orb].
    rewrite (action_bind_Ok (run _) _ e tt e) by (unfold run; by rewrite Hvc).
    rewrite (action_bind_Ok (run _) _ e c e) by (unfold run; by rewrite (child_validated_ok h2 _ subs n2 0 c eq_refl Hs Hc)).
    rewrite (action_bind_Ok (run _) _ e (drop 1 (vals n2)) e).
    2: { unfold run. rewrite (children_validated_ok h2 subs n2 _ _ Hs) by lia. by rewrite take_ge by (rewrite length_drop; lia). }
    by rewrite (action_bind_Ok _ _ _ _ _ Hl).
  - destruct r as [[ds pend']|]; [|done]. destruct Hext as (lext & exts' & Hds & Hp' & Heq). exists lext, exts'.
    split; [done|]. split; [done|]. rewrite concat_rev_snoc in Heq. rewrite <- Heq, app_assoc. f_equal.
    destruct subs as [|sub' subs]; [done|]. by injection Hsub as ->.
Qed.

(** The base is higher. *)
Lemma append_lower h1 h2 n1 n2 es1 es2 pend e :
  engine_manages f st e → node_tree h1 n1 es1 → node_tree h2 n2 es2 → (h2 < h1)%nat →
  ends (λ fuel, append_only_loop fuel n1 n2 pend) e None.
Proof.
  intros He ((_ & Hlev1 & _) & _) ((_ & Hlev2 & _) & _) Hlt. apply ends_now with e; [done|]. intros fuel.
  cbn [append_only_loop]. rewrite Hlev1, Hlev2. destruct (Z.ltb_spec (Z.of_nat h1) (Z.of_nat h2)) as [|_]; [lia|].
  by destruct (Z.eqb_spec (Z.of_nat h1) (Z.of_nat h2)) as [|_]; [lia|].
Qed.

(** Two leaves. *)
Lemma append_leaf n1 n2 es1 es2 pend exts e :
  engine_manages f st e → node_tree 0 n1 es1 → node_tree 0 n2 es2 → Forall2 put_aside pend exts →
  ∃ r, ends (λ fuel, append_only_loop fuel n1 n2 pend) e r ∧ extends es1 es2 exts r.
Proof.
  intros He Hn1 Hn2 Hp. pose proof (leaf_pairs_ok n1 es1 Hn1) as Hp1. pose proof (leaf_pairs_ok n2 es2 Hn2) as Hp2.
  destruct Hn1 as ((_ & Hlev1 & _) & Hl1 & _), Hn2 as ((_ & Hlev2 & _) & Hl2 & _).
  set (r := if (length (keys n2) <? length (keys n1))%nat then None
            else if bool_decide (take (length es1) es2 = es1) then Some (added <$> drop (length es1) es2, pend) else None).
  exists r. split.
  - apply ends_now with e; [done|]. intros fuel. cbn [append_only_loop].
    rewrite Hlev1, Hlev2, Hl1, Hl2, Z.ltb_irrefl, Z.eqb_refl, bool_decide_eq_true_2 by done. cbn [negb orb]. unfold r.
    destruct (_ <? _)%nat; [done|]. rewrite (action_bind_Ok (run _) _ e es1 e) by (unfold run; by rewrite Hp1).
    rewrite (action_bind_Ok (run _) _ e es2 e) by (unfold run; by rewrite Hp2). by case_bool_decide.
  - unfold r. destruct (_ <? _)%nat; [done|]. case_bool_decide as Heq; [|done].
    exists (drop (length es1) es2), exts. split; [done|]. split; [done|]. rewrite app_assoc. f_equal. rewrite <- Heq at 1.
    symmetry. apply take_drop.
Qed.

Lemma append_loop_ok h2 h1 n1 n2 es1 es2 pend exts e :
  engine_manages f st e → node_tree h1 n1 es1 → node_tree h2 n2 es2 → Forall2 put_aside pend exts →
  ∃ r, ends (λ fuel, append_only_loop fuel n1 n2 pend) e r ∧ extends es1 es2 exts r.
Proof.
  revert h1 n1 n2 es1 es2 pend exts e; induction h2 as [|h2 IH]; intros h1 n1 n2 es1 es2 pend exts e He Hn1 Hn2 Hp.
  - destruct h1 as [|h1]; [by apply append_leaf|]. exists None. split; [|done]. eapply append_lower; [done|done|done|lia].
  - destruct (Nat.lt_trichotomy h1 (S h2)) as [Hlt|[->|Hgt]].
    + eapply append_left; [done|done|done|done|done|]. intros m es pend' exts' e' He' Hm Hp'. by eapply IH.
    + eapply append_inner; [done|done|done|done|]. intros m1 m2 es es' pend' exts' e' He' Hm1 Hm2 Hp'. by eapply IH.
    + exists None. split; [|done]. by eapply append_lower.
Qed.

Lemma collect_pending_ok pend exts acc e :
  engine_manages f st e → Forall2 put_aside pend exts →
  ends (λ fuel, collect_pending fuel pend acc) e (acc ++ (added <$> concat exts)).
Proof.
  intros He Hp. revert acc e He; induction Hp as [|cids ext pend exts (ess & Hess & ->) _ IH]; intros acc e He.
  - cbn. rewrite app_nil_r. by apply ends_ret.
  - cbn [collect_pending concat]. rewrite fmap_app, app_assoc. eapply ends_bind; [by apply collect_added_ok|].
    intros e' He'. by apply IH.
Qed.

Lemma append_only_ok h1 h2 n1 n2 es1 es2 e :
  engine_manages f st e → node_tree h1 n1 es1 → node_tree h2 n2 es2 → ascending es2 →
  ∃ r, ends (λ fuel, append_only_diff_nodes_async fuel n1 n2) e r ∧
    match r with Some ds => ds = diff_entry_slices es1 es2 | None => True end.
Proof.
  intros He Hn1 Hn2 Hasc. destruct (append_loop_ok h2 h1 n1 n2 es1 es2 [] [] e He Hn1 Hn2 ltac:(constructor)) as (r & Hends & Hext).
  unfold append_only_diff_nodes_async. destruct r as [[ds pend]|].
  - destruct Hext as (lext & exts & -> & Hp & Heq). cbn [rev concat] in Heq. rewrite app_nil_r in Heq.
    exists (Some (diff_entry_slices es1 es2)). split; [|done]. eapply ends_bind; [exact Hends|]. intros e1 He1. cbn beta iota.
    eapply (ends_bind (λ fuel, collect_pending fuel (rev pend) (added <$> lext)) (λ ds _, mret (Some ds))).
    { apply (collect_pending_ok (rev pend) (rev exts)); [done|]. rewrite !rev_alt. by apply Forall2_reverse. }
    intros e2 He2. rewrite Heq in *. rewrite slices_extend, fmap_app by done. by apply ends_ret.
  - exists None. split; [|done]. eapply ends_bind; [exact Hends|]. intros e1 He1. by apply ends_ret.
Qed.
End loads.
End trees.
End TreeDiffSpec.
