(* ===== verification/TreeDiffContract.v ===== *)
(** * The contract of differences

    The traversal of two trees gives exactly the differences of their maps: each frame
    gives the merge of the entries that it stands for, and what it leaves on the stack
    gives the rest. *)

From Stdlib Require Import ZArith Lia Strings.Byte.
From stdpp Require Import base tactics numbers list strings option gmap sorting.
From S2P Require Import Prelude Cursor Types Format Node ReadNode ChunkSpec Store NodeCache Builder Entries BuilderSpec TreeSpec Engine EngineSpec BuiltTree Write WriteSpec RebuildSpec Loader LoaderSpec CanonicalWrite Range Proof ProofSpec ProofTheorems DiffSpec ProofContract TreeDiff TreeDiffSpec.
Import Format Config Node ReadNode ChunkSpec Store NodeCache Builder Entries TreeSpec Engine EngineSpec BuilderSpec BuiltTree Write WriteSpec RebuildSpec Loader LoaderSpec CanonicalWrite ProofSpec ProofTheorems DiffSpec ProofContract TreeDiff TreeDiffSpec.
Import Proof(added, removed).

Local Open Scope Z_scope.

Module TreeDiffContract.

(** All differences of two maps, in the order of their keys. *)
Definition map_difference (base other : gmap bytes bytes) (ds : list Diff) : Prop := differences (λ _, True) base other ds.

Section frames.
Context `{HashesOk} {St : Type} `{StoreOk St}.
Context (st : gmap bytes bytes) (f : TreeFormat).

Implicit Types e : ProllyEngine St.
Abbreviation ends := (ends (St := St) st f).

(** ** A frame *)
(** A step of the traversal gives the first of some differences, and frames for the rest. *)
Definition gives (h : nat) (step : nat → eng St processed) (e : ProllyEngine St) (ds : list Diff) : Prop :=
  ∃ frames d dss, ends step e (frames, d, None) ∧ (frames ≠ [] → (0 < h)%nat) ∧
    Forall2 (frame_diff st f (pred h)) frames dss ∧ d ++ concat dss = ds.

Lemma gives_now h step e ds : ends step e ([], ds, None) → gives h step e ds.
Proof. intros He. exists [], ds, []. repeat split; [done|done|constructor|by rewrite app_nil_r]. Qed.

Lemma fallback_ok h1 h2 n1 n2 es1 es2 e :
  engine_manages f st e → node_tree st f h1 n1 es1 → node_tree st f h2 n2 es2 → ascending es2 →
  ends (λ fuel, diff_fallback fuel n1 n2 None) e ([], diff_entry_slices es1 es2, None).
Proof.
  intros He Hn1 Hn2 Hasc. destruct (append_only_ok st f h1 h2 n1 n2 es1 es2 e He Hn1 Hn2 Hasc) as (r & Hends & Hr).
  unfold diff_fallback. eapply ends_bind; [exact Hends|]. intros e1 He1. destruct r as [ds|]; [subst ds; by apply ends_ret|].
  eapply (ends_bind st f (λ _, run (add_stats 0 0 0 0 1 None)) (λ stats fuel,
    diff_collected_nodes_async fuel n1 n2 ≫= λ diffs : list Diff, mret ([], diffs, stats))); [by apply ends_ret|].
  intros e2 He2. eapply (ends_bind st f _ (λ ds _, mret ([], ds, None))); [by eapply diff_collected_ok|].
  intros e3 He3. by apply ends_ret.
Qed.

(** The identifiers that frames hold are those of stored nodes. *)
Lemma frames_nodes h frames dss :
  Forall2 (frame_diff st f h) frames dss → ∃ ns, nodes_of st f (mjoin (frame_cids <$> frames)) ns.
Proof.
  intros Hall. assert (∃ ess, Forall2 (rooted st f) (mjoin (frame_cids <$> frames)) ess) as (ess & Hess); [|by eapply rooted_nodes].
  induction Hall as [|frame ds frames dss Hf _ (ess & IH)]; [by exists []|].
  destruct frame as [c1 c2 b|c|c]; cbn in Hf.
  - destruct Hf as (h2 & es1 & es2 & Hc1 & Hc2 & _). exists (es1 :: es2 :: ess). constructor; [by exists h|]. constructor; [by exists h2|done].
  - destruct Hf as (es & Hc & _). exists (es :: ess). constructor; [by exists h|done].
  - destruct Hf as (es & Hc & _). exists (es :: ess). constructor; [by exists h|done].
Qed.

Lemma prefetched h frames dss e :
  engine_manages f st e → Forall2 (frame_diff st f h) frames dss →
  ends (λ _, prefetch_async_diff_frame_roots frames ≫= λ _, mret ((frames, [], None) : processed)) e (frames, [], None).
Proof.
  intros He Hall. destruct (frames_nodes h frames dss Hall) as (ns & Hns). destruct (prefetch_ok st f frames ns e He Hns) as (e1 & Hp & He1).
  exists 0%nat, e1. split; [done|]. intros fuel _. by rewrite (action_bind_Ok _ _ _ _ _ Hp).
Qed.

Lemma inner_children h n es : node_tree st f (S h) n es → ∃ subs, children_of st f h (zip (keys n) (vals n)) subs ∧ es = concat subs.
Proof.
  intros ((_ & _ & _ & Hlen) & _ & subs & Hs & Hk & ->). exists subs. split; [|done]. clear -Hs Hk.
  revert Hk. generalize (keys n). induction Hs as [|c sub cs subs Hc _ IH]; intros ks Hk; inversion Hk; subst; [constructor|].
  constructor; [done|by apply IH].
Qed.

Lemma internal_ok h n1 n2 es1 es2 bound e :
  engine_manages f st e → node_tree st f (S h) n1 es1 → node_tree st f (S h) n2 es2 → ascending es1 → ascending es2 →
  below bound es1 → below bound es2 →
  gives (S h) (λ fuel, enqueue_async_internal_diff fuel n1 n2 bound None) e (diff_entry_slices es1 es2).
Proof.
  intros He Hn1 Hn2 Ha1 Ha2 Hb1 Hb2. destruct (inner_children h n1 es1 Hn1) as (subs1 & Hc1 & ->), (inner_children h n2 es2 Hn2) as (subs2 & Hc2 & ->).
  destruct (align_ok st f h bound _ _ _ _ Hc1 Hc2 Ha1 Ha2 Hb1 Hb2) as (z & o & Hal & Ho).
  assert (∀ fuel, enqueue_async_internal_diff fuel n1 n2 bound None e =
    match o with
    | Some frames => prefetch_async_diff_frame_roots frames ≫= λ _, mret (frames, [], None)
    | None => diff_fallback fuel n1 n2 None
    end e) as Hrun.
  { intros fuel. unfold enqueue_async_internal_diff.
    rewrite (action_bind_Ok (run _) _ e tt e) by (unfold run; by rewrite (value_count_ok _ _ _ _ _ Hn1)).
    rewrite (action_bind_Ok (run _) _ e tt e) by (unfold run; by rewrite (value_count_ok _ _ _ _ _ Hn2)).
    rewrite (action_bind_Ok (run _) _ e (z, o) e) by (unfold run; by rewrite Hal). done. }
  destruct o as [frames|].
  - destruct Ho as (dss & Hall & Hds). destruct (prefetched h frames dss e He Hall) as (b & e1 & He1 & Hp).
    exists frames, [], dss. split; [exists b, e1; split; [done|]; intros fuel Hfuel; rewrite Hrun; by apply (Hp fuel)|].
    split; [lia|]. split; [done|]. done.
  - apply gives_now. destruct (fallback_ok (S h) (S h) n1 n2 _ _ e He Hn1 Hn2 Ha2) as (b & e1 & He1 & Hp). exists b, e1.
    split; [done|]. intros fuel Hfuel. rewrite Hrun. by apply Hp.
Qed.

Lemma node_leaf h n es : node_tree st f h n es → leaf n = (h =? 0)%nat ∧ level n = Z.of_nat h.
Proof. intros ((_ & Hl & _) & Hes). split; [|done]. destruct h; by destruct Hes. Qed.

Lemma compare_ok h1 h2 c1 c2 es1 es2 bound e :
  engine_manages f st e → subtree st f h1 c1 es1 → subtree st f h2 c2 es2 → ascending es1 → ascending es2 →
  below bound es1 → below bound es2 →
  gives h1 (λ fuel, process_async_diff_compare fuel c1 c2 bound None) e (diff_entry_slices es1 es2).
Proof.
  intros He Hc1 Hc2 Ha1 Ha2 Hb1 Hb2. unfold process_async_diff_compare. case_bool_decide as Hcc.
  { subst c2. destruct (subtree_same _ _ _ _ _ _ _ Hc1 Hc2) as [_ <-]. rewrite slices_same. apply gives_now. by apply ends_ret. }
  destruct (load_pair st f h1 h2 c1 c2 es1 es2 e He Hc1 Hc2) as (n1 & n2 & e1 & Hl & He1 & Hn1 & Hn2).
  destruct (node_leaf _ _ _ Hn1) as [Hl1 Hv1], (node_leaf _ _ _ Hn2) as [Hl2 Hv2].
  set (step fuel := if leaf n1 && leaf n2 then
      run (diff_leaf_nodes n1 n2) ≫= λ diffs : list Diff, mret ([], diffs, None)
    else if negb (leaf n1) && negb (leaf n2) && (level n1 =? level n2) then enqueue_async_internal_diff fuel n1 n2 bound None
    else diff_fallback fuel n1 n2 None).
  assert (gives h1 step e1 (diff_entry_slices es1 es2)) as (frames & d & dss & (b & e2 & He2 & Hr) & Hrest).
  - unfold step. rewrite Hl1, Hl2, Hv1, Hv2. destruct h1 as [|h1], h2 as [|h2]; cbn [Nat.eqb andb negb].
    + apply gives_now. exists 0%nat, e1. split; [done|]. intros fuel _. unfold diff_leaf_nodes.
      rewrite (leaf_pairs_ok _ _ _ _ Hn1), (leaf_pairs_ok _ _ _ _ Hn2). done.
    + apply gives_now. by eapply fallback_ok.
    + apply gives_now. by eapply fallback_ok.
    + destruct (Z.eqb_spec (Z.of_nat (S h1)) (Z.of_nat (S h2))) as [Heq|_]; [|apply gives_now; by eapply fallback_ok].
      assert (h2 = h1) as -> by lia. by apply internal_ok.
  - exists frames, d, dss. split; [|done]. exists b, e2. split; [done|]. intros fuel Hfuel.
    rewrite (action_bind_Ok (run _) _ e None e) by done. rewrite (action_bind_Ok _ _ _ _ _ Hl). by apply Hr.
Qed.

Lemma whole_ok kind h c es e :
  engine_manages f st e → subtree st f h c es →
  gives h (λ _, process_async_subtree kind c None) e (kind_diff kind <$> es).
Proof.
  intros He Hc. destruct (load_subtree st f h c es e He Hc) as (n & e1 & Hl & He1 & _ & Hn).
  destruct (node_leaf _ _ _ Hn) as [Hlf _].
  assert (∀ fuel : nat, process_async_subtree kind c None e =
    (if leaf n then run (leaf_pairs n) ≫= λ pairs : list (bytes * bytes), mret ([], kind_diff kind <$> pairs, None)
     else run (child_diff_frames n kind) ≫= λ frames : list DiffFrame,
          prefetch_async_diff_frame_roots frames ≫= λ _, mret (frames, [], None)) e1) as Hrun.
  { intros _. unfold process_async_subtree. rewrite (action_bind_Ok (run _) _ e None e) by (by destruct kind).
    by rewrite (action_bind_Ok _ _ _ _ _ Hl). }
  rewrite Hlf in Hrun. destruct h as [|h]; cbn [Nat.eqb] in Hrun.
  - apply gives_now. exists 0%nat, e1. split; [done|]. intros fuel _. rewrite (Hrun fuel).
    by rewrite (action_bind_Ok (run _) _ e1 es e1) by (unfold run; by rewrite (leaf_pairs_ok _ _ _ _ Hn)).
  - destruct (Hn) as (_ & _ & subs & Hs & _ & ->).
    destruct (whole_frames st f (kind_frame kind) (kind_diff kind) h (vals n) subs) as (dss & Hall & Hds); [|done|].
    { intros c' es' Hc'. destruct kind; by exists es'. }
    destruct (prefetched h _ dss e1 He1 Hall) as (b & e2 & He2 & Hp). exists (kind_frame kind <$> vals n), [], dss.
    split; [|split; [lia|done]]. exists b, e2. split; [done|]. intros fuel Hfuel. rewrite (Hrun fuel).
    rewrite (action_bind_Ok (run _) _ e1 (kind_frame kind <$> vals n) e1); [by apply (Hp fuel)|].
    unfold run, child_diff_frames. by rewrite (child_cids_ok st f h n _ subs Hn Hs).
Qed.

Lemma frame_ok h frame ds e :
  engine_manages f st e → frame_diff st f h frame ds → gives h (λ fuel, process_frame fuel frame None) e ds.
Proof.
  intros He Hf. destruct frame as [c1 c2 b|c|c]; cbn in Hf.
  - destruct Hf as (h2 & es1 & es2 & Hc1 & Hc2 & Ha1 & Ha2 & Hb1 & Hb2 & ->). by eapply compare_ok.
  - destruct Hf as (es & Hc & ->). by apply (whole_ok KindAdded).
  - destruct Hf as (es & Hc & ->). by apply (whole_ok KindRemoved).
Qed.

(** ** The traversal *)
(** The loop comes to another point of it, with enough fuel for the frames on the way. *)
Definition reaches (stack : list DiffFrame) (acc : list Diff) (e : ProllyEngine St)
    (stack' : list DiffFrame) (acc' : list Diff) (e' : ProllyEngine St) : Prop :=
  ∃ k bound, ∀ rounds fuel, (bound ≤ fuel)%nat →
    diff_loop (k + rounds) fuel stack acc e = diff_loop rounds fuel stack' acc' e'.

Lemma reaches_trans s1 a1 e1 s2 a2 e2 s3 a3 e3 :
  reaches s1 a1 e1 s2 a2 e2 → reaches s2 a2 e2 s3 a3 e3 → reaches s1 a1 e1 s3 a3 e3.
Proof.
  intros (k & b & Hk) (k' & b' & Hk'). exists (k + k')%nat, (b + b')%nat. intros rounds fuel Hfuel.
  rewrite <- Nat.add_assoc, Hk, Hk' by lia. done.
Qed.

Definition handles (frames : list DiffFrame) (ds : list Diff) : Prop :=
  ∀ stack acc e, engine_manages f st e → ∃ e', engine_manages f st e' ∧ reaches (frames ++ stack) acc e stack (acc ++ ds) e'.

Lemma handles_nil : handles [] [].
Proof. intros stack acc e He. exists e. split; [done|]. exists 0%nat, 0%nat. intros rounds fuel _. by rewrite app_nil_r. Qed.

Lemma handles_all h frames dss :
  (∀ frame ds, frame_diff st f h frame ds → handles [frame] ds) → Forall2 (frame_diff st f h) frames dss → handles frames (concat dss).
Proof.
  intros Hone. induction 1 as [|frame ds frames dss Hf _ IH]; [apply handles_nil|]. intros stack acc e He.
  destruct (Hone frame ds Hf (frames ++ stack) acc e He) as (e1 & He1 & Hr1).
  destruct (IH stack (acc ++ ds) e1 He1) as (e2 & He2 & Hr2). exists e2. split; [done|].
  cbn [concat]. rewrite app_assoc. by eapply reaches_trans.
Qed.

Lemma handles_frame h frame ds : frame_diff st f h frame ds → handles [frame] ds.
Proof.
  revert frame ds; induction h as [h IH] using lt_wf_ind; intros frame ds Hf stack acc e He.
  destruct (frame_ok h frame ds e He Hf) as (frames & d & dss & (b & e1 & He1 & Hstep) & Hpos & Hall & <-).
  assert (handles frames (concat dss)) as Hrest.
  { destruct frames as [|fr frames]; [inversion Hall; subst; apply handles_nil|].
    apply (handles_all (pred h)); [|done]. intros frame' ds'. apply IH. specialize (Hpos ltac:(done)). lia. }
  destruct (Hrest stack (acc ++ d) e1 He1) as (e2 & He2 & Hr). exists e2. split; [done|]. rewrite app_assoc.
  eapply reaches_trans; [|exact Hr]. exists 1%nat, b. intros rounds fuel Hfuel. cbn [Nat.add app diff_loop].
  by rewrite (action_bind_Ok _ _ _ _ _ (Hstep fuel Hfuel)).
Qed.
End frames.

(** The first frames stand for the two trees. *)
Lemma initial_ok `{HashesOk} st f base other h1 h2 es1 es2 :
  Config.format (t_config base) = f → Config.format (t_config other) = f →
  tree_holds st base h1 es1 → tree_holds st other h2 es2 →
  ∃ h dss, Forall2 (frame_diff st f h) (initial_diff_stack base other) dss ∧ concat dss = diff_entry_slices es1 es2.
Proof.
  unfold tree_holds, initial_diff_stack. intros Hfb Hfo Hb Ho. rewrite Hfb in Hb. rewrite Hfo in Ho.
  destruct (t_root base) as [c1|], (t_root other) as [c2|].
  - destruct Hb as [Hc1 Ha1], Ho as [Hc2 Ha2]. case_bool_decide as Hcc.
    + subst c2. destruct (subtree_same _ _ _ _ _ _ _ Hc1 Hc2) as [_ <-]. rewrite slices_same. by exists 0%nat, [].
    + exists h1, [diff_entry_slices es1 es2]. split; [|apply app_nil_r]. constructor; [|done]. by exists h2, es1, es2.
  - destruct Hb as [Hc1 _]. subst es2. exists h1, [removed <$> es1]. split; [|by rewrite slices_nil_r; apply app_nil_r].
    constructor; [by exists es1|done].
  - destruct Ho as [Hc2 _]. subst es1. exists h2, [added <$> es2]. split; [|by rewrite slices_nil_l; apply app_nil_r].
    constructor; [by exists es2|done].
  - subst. by exists 0%nat, [].
Qed.

Section trees.
Context `{HashesOk} {St : Type} `{StoreOk St}.
Context (st : gmap bytes bytes) (base other : Tree) (h1 h2 : nat) (es1 es2 : list kv).
Context (Hf : Config.format (t_config base) = Config.format (t_config other)).
Context (Hb : tree_holds st base h1 es1) (Ho : tree_holds st other h2 es2).

Implicit Types e : ProllyEngine St.
Abbreviation f := (Config.format (t_config base)).

Lemma diff_ok e : engine_manages f st e → ends st f (λ fuel, diff fuel base other) e (diff_entry_slices es1 es2).
Proof.
  intros He. destruct (initial_ok st f base other h1 h2 es1 es2 eq_refl (eq_sym Hf) Hb Ho) as (h & dss & Hall & <-).
  destruct (handles_all st f h _ dss (handles_frame st f h) Hall [] [] e He) as (e' & He' & k & b & Hr).
  exists (b + S k)%nat, e'. split; [done|]. intros fuel Hfuel. unfold diff, compute_async_diff.
  rewrite app_nil_r in Hr. replace fuel with (k + S (fuel - S k))%nat at 1 by lia. rewrite Hr by lia. done.
Qed.

(** The differences, when the other tree only extends the first one. *)
Lemma append_only_diff_ok e : engine_manages f st e →
  ∃ r, ends st f (λ fuel, try_append_only_diff_async fuel base other) e r ∧
    match r with Some ds => ds = diff_entry_slices es1 es2 | None => True end.
Proof.
  intros He. unfold try_append_only_diff_async. revert Hb Ho. unfold tree_holds. rewrite <- Hf. intros Hb' Ho'.
  case_bool_decide as Hcc.
  { rewrite <- Hcc in Ho'. exists (Some []). split; [by apply ends_ret|]. destruct (t_root base) as [c|]; [|by subst].
    destruct Hb' as [Hc1 _], Ho' as [Hc2 _]. destruct (subtree_same _ _ _ _ _ _ _ Hc1 Hc2) as [_ <-]. by rewrite slices_same. }
  destruct (t_root base) as [c1|], (t_root other) as [c2|]; [| | |done].
  - destruct Hb' as [Hc1 Ha1], Ho' as [Hc2 Ha2].
    destruct (load_pair st f h1 h2 c1 c2 es1 es2 e He Hc1 Hc2) as (n1 & n2 & e1 & Hl & He1 & Hn1 & Hn2).
    destruct (append_only_ok st f h1 h2 n1 n2 es1 es2 e1 He1 Hn1 Hn2 Ha2) as (r & (b & e2 & He2 & Hr) & Hres).
    exists r. split; [|done]. exists b, e2. split; [done|]. intros fuel Hfuel. rewrite (action_bind_Ok _ _ _ _ _ Hl). by apply Hr.
  - exists None. split; [by apply ends_ret|done].
  - destruct Ho' as [Hc2 _]. subst es1. exists (Some (added <$> es2)). split; [|by rewrite slices_nil_l].
    eapply (ends_bind st f (λ fuel, collect_added_cids_async fuel [c2] []) (λ ds _, mret (Some ds)) e (added <$> es2)).
    + rewrite <- (app_nil_r es2). apply (collect_added_ok st f [c2] [es2] [] e He). constructor; [by exists h2|done].
    + intros e' He'. by apply ends_ret.
Qed.
End trees.

(** C12. The difference of two trees is the difference of their maps: over two stored trees
    of one format [diff] returns, in the order of their keys and each once, exactly the
    keys that were added, removed or changed, with their values; however the trees were
    chunked and whatever is cached.  The shortcut for trees that only grew at their end
    returns the same differences or declines. *)
Theorem diff_exact `{HashesOk} {St} `{StoreOk St} st base other h1 h2 es1 es2 (e : ProllyEngine St) :
  Config.format (t_config base) = Config.format (t_config other) → engine_manages (Config.format (t_config base)) st e →
  tree_holds st base h1 es1 → tree_holds st other h2 es2 →
  ∃ bound ds, map_difference (final_map es1) (final_map es2) ds ∧
  ∀ fuel, (bound ≤ fuel)%nat →
    (∃ e', diff fuel base other e = (Ok ds, e')) ∧
    ∃ r e', try_append_only_diff_async fuel base other e = (Ok r, e') ∧ (r = Some ds ∨ r = None).
Proof.
  intros Hf He Hb Ho. destruct (diff_ok st base other h1 h2 es1 es2 Hf Hb Ho e He) as (b & e1 & _ & Hd).
  destruct (append_only_diff_ok st base other h1 h2 es1 es2 Hf Hb Ho e He) as (r & (b' & e2 & _ & Ha) & Hr).
  exists (b + b')%nat, (diff_entry_slices es1 es2). split.
  { rewrite slices_eq. apply merge_diffs; by eapply tree_holds_ascending. }
  intros fuel Hfuel. split; [exists e1; apply Hd; lia|]. exists r, e2. split; [apply Ha; lia|].
  destruct r as [ds|]; [left; by rewrite Hr|by right].
Qed.

(** ** Witnesses *)
#[local] Existing Instance sample_hashes.
#[local] Existing Instance sample_hashes_ok.

(** A store with the trees before and after a batch of mutations. *)
Definition sample_versions : gmap bytes bytes :=
  put_all (stored (Config.format (sample_config 2 2)) <$> sample_built.2 ++ sample_written.2) ∅.
Definition sample_new : Tree := {| t_root := sample_written.1; t_config := sample_config 2 2 |}.
Definition versions_engine : ProllyEngine MemStore := ProllyEngine_new {| ms_data := sample_versions |} (sample_config 2 2).

Lemma versions_engine_manages : engine_manages (Config.format (sample_config 2 2)) sample_versions versions_engine.
Proof. split; [|reflexivity]. exact (fresh_engine_ok {| ms_data := sample_versions |} (sample_config 2 2) ExecutionConfig_default). Qed.

Lemma version_holds es root nodes :
  entries_fit (sample_config 2 2) es → ascending es → tree_spec (Config.format (sample_config 2 2)) es = Ok (root, nodes) →
  nodes ⊆ sample_built.2 ++ sample_written.2 →
  ∃ h, tree_holds sample_versions {| t_root := root; t_config := sample_config 2 2 |} h es.
Proof.
  intros Hfit Hasc Hspec Hsub. destruct sample_build_input as [Hwf Hvalid Hcodec _ _].
  destruct (canonical_holds (sample_config 2 2) sample_versions {| t_root := root; t_config := sample_config 2 2 |} es nodes Hfit Hasc)
    as (h & _ & Hh); [|by exists h]. split; [done|]. split; [done|]. apply Forall_forall. intros n Hn.
  eapply (written_stored (sample_config 2 2) Hwf Hvalid Hcodec ∅ (sample_built.2 ++ sample_written.2) _ n);
    [|by apply Hsub| |done|left; exists n; split; [by apply Hsub|done]].
  - split; [exact sample_both_readable|done].
  - by apply (proj1 (Forall_forall _ _) (spec_good (sample_config 2 2) Hcodec es root nodes Hfit Hasc Hspec)).
Qed.

Lemma diff_exact_witness :
  ∃ bound ds, map_difference (final_map sample_es) (final_map sample_es') ds ∧
  ∀ fuel, (bound ≤ fuel)%nat →
    (∃ e', diff fuel sample_old sample_new versions_engine = (Ok ds, e')) ∧
    ∃ r e', try_append_only_diff_async fuel sample_old sample_new versions_engine = (Ok r, e') ∧ (r = Some ds ∨ r = None).
Proof.
  destruct sample_write_input as [_ _ _ _ _ Hasc Hfit Hasc' Hfit' _ _ _].
  destruct (version_holds sample_es sample_built.1 sample_built.2 Hfit Hasc sample_es_spec) as (h1 & Hh1); [set_solver|].
  destruct (version_holds sample_es' sample_written.1 sample_written.2) as (h2 & Hh2); [done|done|exact sample_es_spec'|set_solver|].
  exact (diff_exact sample_versions sample_old sample_new h1 h2 sample_es sample_es' versions_engine eq_refl
    versions_engine_manages Hh1 Hh2).
Defined.

End TreeDiffContract.
