(* ===== verification/GetMany.v ===== *)
(** * Point reads of many keys (src/prolly/engine/mod.rs, src/prolly/mod.rs)

    [ProllyEngine::get_many] sorts the positions of the keys, walks the tree level by level
    with one frame for each node that some key leads to, and fills the values in the order
    of the request.  A frame is routed to the children key by key, or by the separators
    when it has many keys. *)

From Stdlib Require Import ZArith Lia Strings.Byte.
From stdpp Require Import base tactics numbers list strings option gmap sorting.
From S2P Require Import Prelude Cursor Types Format Node ReadNode Store NodeCache Emitter Builder Engine Write Loader Range TreeDiff.
Import Format Config Node ReadNode Store NodeCache Builder Engine Loader.
Import Emitter(foldM).
Import Range(decode_each_read, place_decoded_read).
Import TreeDiff(ASYNC_NODE_PREFETCH_BATCH_SIZE, slice_chunks).

Local Open Scope Z_scope.

Module GetMany.

Definition GET_MANY_BOUNDARY_ROUTE_MIN_POSITIONS : nat := 32.

(** ** Positions *)
(** At least one position. *)
Record InlinePositions := { ip_first : nat; ip_rest : list nat }.
Definition InlinePositions_new (first : nat) : InlinePositions := {| ip_first := first; ip_rest := [] |}.
Definition InlinePositions_from_vec (positions : list nat) : option InlinePositions :=
  match positions with [] => None | first :: rest => Some {| ip_first := first; ip_rest := rest |} end.
Definition ip_push (self : InlinePositions) (position : nat) : InlinePositions :=
  {| ip_first := ip_first self; ip_rest := ip_rest self ++ [position] |}.
Definition ip_len (self : InlinePositions) : nat := 1 + length (ip_rest self).
Definition ip_at (self : InlinePositions) (offset : nat) : outcome Error nat :=
  match offset with
  | O => Ok (ip_first self)
  | S offset' => expect "index out of bounds" (ip_rest self !! offset')
  end.
Definition ip_iter (self : InlinePositions) : list nat := ip_first self :: ip_rest self.

Record KeyLookupFrame := { kf_cid : Cid; kf_positions : InlinePositions }.

Section keys.
Context (ks : list bytes).

Definition key_at (position : nat) : outcome Error bytes := expect "index out of bounds" (ks !! position).

(** ** The order of the positions *)
Fixpoint sorted_from (previous : bytes) (l : list bytes) : bool :=
  match l with [] => true | key :: l' => bleb previous key && sorted_from key l' end.
Definition keys_are_sorted : bool := match ks with [] => true | key :: l => sorted_from key l end.

(** The key first, then the position; the positions are in range. *)
Definition key_of (position : nat) : bytes := default [] (ks !! position).
Definition position_le (left right : nat) : Prop :=
  (key_of left < key_of right)%key ∨ key_of left = key_of right ∧ (left ≤ right)%nat.
#[export] Instance position_le_dec : RelDecision position_le.
Proof. intros left right. unfold position_le. apply _. Defined.

Definition sorted_key_positions : list nat :=
  let positions := seq 0 (length ks) in
  if keys_are_sorted then positions else merge_sort position_le positions.

(** ** Leaves *)
(** The first key of the leaf that is not below the searched one. *)
Fixpoint advance_leaf (fuel : nat) (node : ReadNode) (key : bytes) (leaf_index : nat) : outcome Error nat :=
  match fuel with
  | O => Panic "out of fuel"
  | S fuel' =>
      if (leaf_index <? rn_len node)%nat then
        here ← ok_or InvalidNode (rn_key node leaf_index);
        if bltb here key then advance_leaf fuel' node key (S leaf_index) else Ok leaf_index
      else Ok leaf_index
  end.

Definition set_value (values : list (option bytes)) (position : nat) (value : option bytes)
    : outcome Error (list (option bytes)) :=
  if (position <? length values)%nat then Ok (<[position := value]> values) else Panic "index out of bounds".

(** [next_if] on the following positions: those that ask for the same key. *)
Fixpoint fill_same (key : bytes) (found : option bytes) (positions : list nat) (values : list (option bytes))
    : outcome Error (list nat * list (option bytes)) :=
  match positions with
  | [] => Ok ([], values)
  | next :: rest =>
      next_key ← key_at next;
      if bool_decide (next_key = key) then
        values ← set_value values next found;
        fill_same key found rest values
      else Ok (positions, values)
  end.

Fixpoint fill_loop (fuel : nat) (node : ReadNode) (leaf_index : nat) (positions : list nat)
    (values : list (option bytes)) : outcome Error (list (option bytes)) :=
  match positions with
  | [] => Ok values
  | position :: rest =>
      match fuel with
      | O => Panic "out of fuel"
      | S fuel' =>
          key ← key_at position;
          leaf_index ← advance_leaf (S (rn_len node - leaf_index)) node key leaf_index;
          let found :=
            if (leaf_index <? rn_len node)%nat && bool_decide (rn_key node leaf_index = Some key)
            then rn_value node leaf_index else None in
          values ← set_value values position found;
          '(rest, values) ← fill_same key found rest values;
          fill_loop fuel' node leaf_index rest values
      end
  end.

Definition fill_read_leaf_lookup_values (node : ReadNode) (positions : InlinePositions)
    (values : list (option bytes)) : outcome Error (list (option bytes)) :=
  fill_loop (ip_len positions) node 0 (ip_iter positions) values.

(** ** Internal nodes *)
Definition read_child_index (node : ReadNode) (key : bytes) : outcome Error nat :=
  found ← rn_search node key;
  Ok match found with Found index => index | Insert index => (index - 1)%nat end.

(** The child of a key, from a child that is not after it. *)
Fixpoint advance_child (fuel : nat) (node : ReadNode) (key : bytes) (child_index : nat) : outcome Error nat :=
  match fuel with
  | O => Panic "out of fuel"
  | S fuel' =>
      if (child_index + 1 <? rn_len node)%nat then
        next ← ok_or InvalidNode (rn_key node (child_index + 1));
        if bleb next key then advance_child fuel' node key (child_index + 1) else Ok child_index
      else Ok child_index
  end.

(** The frames so far, the child, and the child of the last frame. *)
Definition route_position (node : ReadNode) (state : list KeyLookupFrame * nat * option nat) (position : nat)
    : outcome Error (list KeyLookupFrame * nat * option nat) :=
  let '(frames, child_index, last_child_index) := state in
  key ← key_at position;
  child_index ← advance_child (S (rn_len node - child_index)) node key child_index;
  if bool_decide (last_child_index = Some child_index) then
    last_frame ← ok_or InvalidNode (last frames);
    Ok (removelast frames ++ [{| kf_cid := kf_cid last_frame; kf_positions := ip_push (kf_positions last_frame) position |}],
        child_index, last_child_index)
  else
    c ← rn_child_cid node child_index;
    Ok (frames ++ [{| kf_cid := c; kf_positions := InlinePositions_new position |}], child_index, Some child_index).

Fixpoint lower_bound_loop (fuel : nat) (positions : InlinePositions) (key : bytes) (left right : nat) : outcome Error nat :=
  match fuel with
  | O => Panic "out of fuel"
  | S fuel' =>
      if (left <? right)%nat then
        let mid := (left + (right - left) / 2)%nat in
        position ← ip_at positions mid;
        here ← key_at position;
        if bltb here key then lower_bound_loop fuel' positions key (mid + 1) right
        else lower_bound_loop fuel' positions key left mid
      else Ok left
  end.

Definition lower_bound_position_key (positions : InlinePositions) (start stop : nat) (key : bytes) : outcome Error nat :=
  lower_bound_loop (S (stop - start)) positions key start stop.

(** Every call has [start < stop]. *)
Definition inline_positions_from_range (positions : InlinePositions) (start stop : nat) : outcome Error InlinePositions :=
  first ← ip_at positions start;
  foldM (λ bucket offset,
    position ← ip_at positions offset;
    Ok (ip_push bucket position)) (InlinePositions_new first) (seq (start + 1) (stop - (start + 1))).

(** One round for each child before the last. *)
Fixpoint boundary_loop (rounds : nat) (node : ReadNode) (positions : InlinePositions) (child_index bucket_start : nat)
    (frames : list KeyLookupFrame) : outcome Error (nat * list KeyLookupFrame) :=
  match rounds with
  | O => Ok (bucket_start, frames)
  | S rounds' =>
      boundary ← ok_or InvalidNode (rn_key node (child_index + 1));
      bucket_end ← lower_bound_position_key positions bucket_start (ip_len positions) boundary;
      frames ← (if (bucket_start <? bucket_end)%nat then
                  c ← rn_child_cid node child_index;
                  bucket ← inline_positions_from_range positions bucket_start bucket_end;
                  Ok (frames ++ [{| kf_cid := c; kf_positions := bucket |}])
                else Ok frames);
      boundary_loop rounds' node positions (child_index + 1) bucket_end frames
  end.

Definition route_read_key_positions_to_children_by_boundary (node : ReadNode) (positions : InlinePositions)
    : outcome Error (list KeyLookupFrame) :=
  let position_count := ip_len positions in
  first_key ← (position ← ip_at positions 0; key_at position);
  child_index ← read_child_index node first_key;
  last_key ← (position ← ip_at positions (position_count - 1); key_at position);
  last_child_index ← read_child_index node last_key;
  '(bucket_start, frames) ← boundary_loop (last_child_index - child_index) node positions child_index 0 [];
  if (bucket_start <? position_count)%nat then
    c ← rn_child_cid node last_child_index;
    bucket ← inline_positions_from_range positions bucket_start position_count;
    Ok (frames ++ [{| kf_cid := c; kf_positions := bucket |}])
  else Ok frames.

Definition route_read_key_positions_to_children (node : ReadNode) (positions : InlinePositions)
    : outcome Error (list KeyLookupFrame) :=
  if rn_is_empty node then Err InvalidNode
  else if (GET_MANY_BOUNDARY_ROUTE_MIN_POSITIONS <=? ip_len positions)%nat && (1 <? rn_len node)%nat
  then route_read_key_positions_to_children_by_boundary node positions
  else
    first_key ← key_at (ip_first positions);
    child_index ← read_child_index node first_key;
    state ← foldM (route_position node) ([], child_index, None) (ip_iter positions);
    Ok state.1.1.

(** ** The engine *)
Context `{Hashes} {St : Type} `{ReadStore St}.

Definition load_missing_engine_read (f : TreeFormat) (missing : MissingNodeBatch) (nodes : list (option ReadNode))
    : eng St (list (option ReadNode)) :=
  let cids := mb_cids missing in
  meter (add_cache_misses (len cids)) ≫= λ _,
  from_store (λ s : St, store_batch_get_validated s cids) ≫= λ loaded : list (option ValidatedSharedRead),
  if negb (length loaded =? length cids)%nat then run (Err InvalidNode)
  else
    run (decode_each_read f (zip cids loaded)) ≫= λ decoded : list (Cid * ReadNode),
    let found := omap id loaded in
    meter (record_batch_read (len cids) (len (concat (vr_bytes <$> found))) (len decoded)) ≫= λ _,
    place_decoded_read decoded (mb_positions missing) nodes 0 ≫= λ r : list (option ReadNode) * Z,
    meter (add_cache_evictions r.2) ≫= λ _,
    mret r.1.

Definition load_many_engine_read_ordered (f : TreeFormat) (cids : list Cid) : eng St (list ReadNode) :=
  plan_cached_nodes cached_read cids ≫= λ plan : list (option ReadNode) * MissingNodeBatch * Z,
  let '(nodes, missing, hits) := plan in
  meter (add_cache_hits hits) ≫= λ _,
  (if bool_decide (mb_cids missing = []) then mret nodes else load_missing_engine_read f missing nodes)
    ≫= λ nodes : list (option ReadNode),
  run (collect nodes).

(** The loads of a level, a chunk at a time. *)
Fixpoint load_chunks (f : TreeFormat) (chunks : list (list Cid)) : eng St (list ReadNode) :=
  match chunks with
  | [] => mret []
  | chunk :: chunks' =>
      load_many_engine_read_ordered f chunk ≫= λ nodes : list ReadNode,
      load_chunks f chunks' ≫= λ rest : list ReadNode,
      mret (nodes ++ rest)
  end.

Definition lookup_chunk_size (prefers : bool) (parallelism count : Z) : Z :=
  if prefers then Z.min count (Z.max (saturating_mul usize_max parallelism ASYNC_NODE_PREFETCH_BATCH_SIZE) 1)
  else if count <=? parallelism then count
  else Z.min ((count + parallelism - 1) / parallelism) ASYNC_NODE_PREFETCH_BATCH_SIZE.

(** A leaf fills its values, an internal node gives the frames of the next level. *)
Definition visit_frame (f : TreeFormat) (state : list KeyLookupFrame * list (option bytes))
    (item : KeyLookupFrame * ReadNode) : outcome Error (list KeyLookupFrame * list (option bytes)) :=
  let '(next_frames, values) := state in
  let '(frame, node) := item in
  validate_cached_read_node node f ≫= λ _,
  if rn_is_leaf node then
    values ← fill_read_leaf_lookup_values node (kf_positions frame) values;
    Ok (next_frames, values)
  else
    routed ← route_read_key_positions_to_children node (kf_positions frame);
    Ok (next_frames ++ routed, values).

Fixpoint get_many_loop (fuel : nat) (f : TreeFormat) (frames : list KeyLookupFrame) (values : list (option bytes))
    : eng St (list (option bytes)) :=
  match fuel with
  | O => run (Panic "out of fuel")
  | S fuel' =>
      match frames with
      | [] => mret values
      | _ => λ e,
          let cids := kf_cid <$> frames in
          let chunk_size := lookup_chunk_size (store_prefers_batch_reads (en_store e))
                              (Z.pos (ex_read_parallelism (en_execution e))) (len cids) in
          (load_chunks f (slice_chunks (length cids) (Z.to_nat (Z.max chunk_size 1)) cids) ≫= λ nodes : list ReadNode,
           run (foldM (visit_frame f) ([], values) (zip frames nodes))
             ≫= λ state : list KeyLookupFrame * list (option bytes),
           get_many_loop fuel' f state.1 state.2) e
      end
  end.

Definition get_many (fuel : nat) (tree : Tree) : eng St (list (option bytes)) :=
  let values := replicate (length ks) None in
  match t_root tree with
  | None => mret values
  | Some root =>
      if bool_decide (ks = []) then mret values
      else
        run (expect "keys is non-empty after early return" (InlinePositions_from_vec sorted_key_positions))
          ≫= λ positions : InlinePositions,
        get_many_loop fuel (Config.format (t_config tree)) [{| kf_cid := root; kf_positions := positions |}] values
  end.
End keys.
End GetMany.
