(* ===== verification/GetManySpec.v ===== *)
(** * Reading many keys is reading each key

    The positions of a frame are in the order of their keys, so one pass over a leaf finds
    the value of each, and each goes to the child that a search for its key alone would
    take; [get_many] returns the lookups of the keys in the order of the request. *)

From Stdlib Require Import ZArith Lia Strings.Byte.
From stdpp Require Import base tactics numbers list strings option gmap sorting.
From S2P Require Import Prelude Cursor Types Format Node ReadNode ChunkSpec Store NodeCache Emitter Builder Entries TreeSpec Engine EngineSpec BuiltTree Write Loader LoaderSpec CanonicalWrite Range Proof ProofSpec ProofTheorems RangeSpec DiffSpec ProofContract TreeDiff TreeDiffSpec GetMany.
Import Format Config Node ReadNode Store NodeCache Builder Entries TreeSpec Engine EngineSpec Loader LoaderSpec GetMany.
Import Emitter(foldM).
Import Range(decode_each_read, place_decoded_read).
Import RangeSpec(packed, cached_packed_ok, decode_each_read_ok, place_decoded_read_ok, packed_views).
Import TreeDiff(ASYNC_NODE_PREFETCH_BATCH_SIZE, slice_chunks).
Import ChunkSpec(sample_config).
Import CanonicalWrite(sample_es, sample_engine, sample_old, sample_store, sample_engine_manages).
Import ProofContract(k1, k2, sample_tree_holds).
Import TreeDiffSpec(nodes_of, slice_chunks_nodes, subtree_node_tree).

Local Open Scope Z_scope.

Module GetManySpec.

Lemma ordered_lookup {A} (R : A → A → Prop) l i j a b :
  StronglySorted R l → (i < j)%nat → l !! i = Some a → l !! j = Some b → R a b.
Proof.
  intros Hs. revert i j; induction Hs as [|x l _ IH Hall]; intros i j Hij Ha Hb; [done|].
  destruct j as [|j]; [lia|]. destruct i as [|i]; [|by apply (IH i j); [lia|..]].
  injection Ha as ->. cbn in Hb. by eapply Forall_lookup_1 in Hall.
Qed.

Section keys.
Context (ks : list bytes).
Local Abbreviation key_of := (key_of ks).

(** ** The order of positions *)
Definition in_order (ps : list nat) : Prop := StronglySorted (λ p q, (key_of p ≤ key_of q)%key) ps.
Definition in_range (p : nat) : Prop := (p < length ks)%nat.

Lemma key_at_ok p : in_range p → key_at ks p = Ok (key_of p).
Proof. intros [k Hk]%lookup_lt_is_Some. unfold key_at, GetMany.key_of. by rewrite Hk. Qed.

Lemma sorted_from_ok k l : sorted_from k l = true → StronglySorted ble (k :: l).
Proof.
  revert k; induction l as [|k' l IH]; intros k; [by repeat constructor|]. cbn [sorted_from]. intros [Hle%bleb_le Hs%IH]%andb_true_iff.
  constructor; [done|]. apply StronglySorted_inv in Hs as [_ Hall]. constructor; [done|].
  eapply Forall_impl; [exact Hall|]. intros x Hx. by eapply ble_trans.
Qed.

#[local] Instance position_le_trans : Transitive (position_le ks).
Proof.
  intros a b c. unfold position_le. intros [H1|[H1 ?]] [H2|[H2 ?]].
  - left. by eapply blt_trans.
  - left. by rewrite <- H2.
  - left. by rewrite H1.
  - right. split; [congruence|lia].
Qed.
#[local] Instance position_le_total : Total (position_le ks).
Proof.
  intros a b. unfold position_le. destruct (blt_total (key_of a) (key_of b)) as [?|[?|?]]; [by left; left| |by right; left].
  destruct (Nat.le_ge_cases a b); [left|right]; right; by split.
Qed.

Lemma seq_sorted (R : nat → nat → Prop) i k : (∀ p q, (i ≤ p < q)%nat → (q < i + k)%nat → R p q) → StronglySorted R (seq i k).
Proof.
  revert i; induction k as [|k IH]; intros i HR; [constructor|]. cbn [seq]. constructor; [apply IH; intros; apply HR; lia|].
  apply Forall_forall. intros q [? ?]%elem_of_seq. apply HR; lia.
Qed.

Lemma sorted_positions_ok : sorted_key_positions ks ≡ₚ seq 0 (length ks) ∧ in_order (sorted_key_positions ks).
Proof.
  unfold sorted_key_positions. destruct (keys_are_sorted ks) eqn:Hs.
  - split; [done|]. apply seq_sorted. intros p q Hpq Hq. unfold GetMany.key_of.
    destruct (lookup_lt_is_Some_2 ks p) as [a Ha]; [lia|]. destruct (lookup_lt_is_Some_2 ks q) as [b Hb]; [lia|]. rewrite Ha, Hb. cbn.
    assert (StronglySorted ble ks) as Hks by (unfold keys_are_sorted in Hs; destruct ks; [constructor|by apply sorted_from_ok]).
    by apply (ordered_lookup ble ks p q); [|lia|..].
  - split; [apply merge_sort_Permutation|]. pose proof (StronglySorted_merge_sort (position_le ks) (seq 0 (length ks))) as Hm.
    induction Hm as [|p l _ IH Hall]; [constructor|]. constructor; [done|]. eapply Forall_impl; [exact Hall|].
    intros q [?|[-> _]]; [by apply blt_le|apply ble_refl].
Qed.

(** ** Leaves *)
(** Where a key is, or would be, in a leaf. *)
Definition found_at (n : Node) (key : bytes) (i : nat) : Prop :=
  (i ≤ length (keys n))%nat ∧ (∀ j k, (j < i)%nat → keys n !! j = Some k → (k < key)%key) ∧
  (∀ k, keys n !! i = Some k → (key ≤ k)%key).

Lemma advance_leaf_ok fuel rn n key i :
  view rn n → (i ≤ length (keys n))%nat → (∀ j k, (j < i)%nat → keys n !! j = Some k → (k < key)%key) →
  (length (keys n) - i < fuel)%nat → ∃ i', advance_leaf fuel rn key i = Ok i' ∧ found_at n key i'.
Proof.
  intros Hv. revert i; induction fuel as [|fuel IH]; intros i Hi Hlow Hfuel; [lia|]. cbn [advance_leaf]. rewrite (v_len _ _ Hv).
  destruct (Nat.ltb_spec i (length (keys n))) as [Hlt|Hge].
  2: { exists i. split; [done|]. split; [done|]. split; [done|]. intros k Hk%lookup_lt_Some. lia. }
  rewrite (v_keys _ _ Hv). destruct (lookup_lt_is_Some_2 (keys n) i Hlt) as [k Hk]. rewrite Hk. cbn [ok_or mbind outcome_bind].
  destruct (bltb k key) eqn:Hkk; [apply bltb_lt in Hkk|apply bltb_ge in Hkk].
  - apply IH; [lia| |lia]. intros j k' Hj Hk'. destruct (decide (j = i)) as [->|]; [congruence|apply (Hlow j); [lia|done]].
  - exists i. split; [done|]. split; [lia|]. split; [done|]. intros k' Hk'. congruence.
Qed.

Lemma leaf_found rn n key i :
  view rn n → found_at n key i →
  (if (i <? rn_len rn)%nat && bool_decide (rn_key rn i = Some key) then rn_value rn i else None)
    = final_map (zip (keys n) (vals n)) !! key.
Proof.
  intros Hv (Hi & Hlow & Hup). rewrite (v_len _ _ Hv), (v_keys _ _ Hv), (v_vals _ _ Hv).
  pose proof (v_sorted _ _ Hv) as Hs. pose proof (v_lens _ _ Hv) as Hl.
  assert (fst <$> zip (keys n) (vals n) = keys n) as Hfst by (apply fst_zip; lia). case_bool_decide as Hk.
  - pose proof (lookup_lt_Some _ _ _ Hk) as Hlt. rewrite (proj2 (Nat.ltb_lt _ _) Hlt). cbn [andb].
    destruct (lookup_lt_is_Some_2 (vals n) i) as [v Hvi]; [lia|]. rewrite Hvi. symmetry.
    apply final_map_elem; [unfold ascending; by rewrite Hfst|]. apply list_elem_of_lookup. exists i.
    apply lookup_zip_with_Some. by exists key, v.
  - rewrite andb_false_r. symmetry. apply final_map_miss. rewrite Hfst. intros [j Hj]%list_elem_of_lookup.
    destruct (Nat.lt_trichotomy j i) as [Hlt|[->|Hgt]]; [|done|].
    + apply (blt_irrefl key). by apply (Hlow j).
    + destruct (lookup_lt_is_Some_2 (keys n) i) as [k Hki]; [apply lookup_lt_Some in Hj; lia|].
      apply (blt_irrefl key). eapply ble_lt_trans; [by apply Hup|]. by apply (sorted_lookup (keys n) i j).
Qed.

(** Some positions got their value, the others kept theirs. *)
Definition filled (m : gmap bytes bytes) (ps : list nat) (values values' : list (option bytes)) : Prop :=
  length values' = length values ∧ ∀ p, in_range p → values' !! p = if decide (p ∈ ps) then Some (m !! key_of p) else values !! p.

Lemma filled_nil m values : filled m [] values values.
Proof. split; [done|]. intros p _. by rewrite decide_False by apply not_elem_of_nil. Qed.
Lemma filled_app m ps qs v1 v2 v3 : filled m ps v1 v2 → filled m qs v2 v3 → filled m (ps ++ qs) v1 v3.
Proof.
  intros [Hl1 H1] [Hl2 H2]. split; [congruence|]. intros p Hp. rewrite H2, H1 by done.
  destruct (decide (p ∈ qs)), (decide (p ∈ ps)), (decide (p ∈ ps ++ qs)) as [Hin|Hin]; rewrite elem_of_app in Hin; tauto.
Qed.

Lemma set_value_ok m p values :
  in_range p → length values = length ks →
  ∃ values', set_value values p (m !! key_of p) = Ok values' ∧ filled m [p] values values'.
Proof.
  intros Hp Hlen. unfold in_range in Hp. unfold set_value. destruct (Nat.ltb_spec p (length values)) as [Hlt|]; [|lia].
  eexists. split; [done|]. split; [by rewrite length_insert|]. intros q Hq. destruct (decide (q ∈ [p])) as [->%list_elem_of_singleton|Hne].
  - by rewrite list_lookup_insert_eq.
  - rewrite list_lookup_insert_ne; [done|]. intros ->. apply Hne. by left.
Qed.

Lemma fill_same_ok m key ps values :
  Forall (in_range) ps → length values = length ks →
  ∃ same rest values', ps = same ++ rest ∧ fill_same ks key (m !! key) ps values = Ok (rest, values') ∧ filled m same values values'.
Proof.
  intros Hps. revert values; induction Hps as [|p ps Hp Hps IH]; intros values Hlen.
  { exists [], [], values. split; [done|]. split; [done|]. apply filled_nil. }
  cbn [fill_same]. rewrite key_at_ok by done. cbn [mbind outcome_bind]. case_bool_decide as Hk.
  - rewrite <- Hk. destruct (set_value_ok m p values Hp Hlen) as (v1 & -> & Hf1). cbn [mbind outcome_bind].
    destruct (IH v1) as (same & rest & v2 & -> & Hs & Hf2); [by rewrite (proj1 Hf1)|]. rewrite Hk in *.
    exists (p :: same), rest, v2. split; [done|]. split; [done|]. by apply (filled_app m [p] same values v1 v2).
  - exists [], (p :: ps), values. split; [done|]. split; [done|]. apply filled_nil.
Qed.

Lemma in_order_app ps qs : in_order (ps ++ qs) → in_order ps ∧ in_order qs ∧ ∀ p q, p ∈ ps → q ∈ qs → (key_of p ≤ key_of q)%key.
Proof.
  intros Hs. split; [by eapply StronglySorted_app_1_l|]. split; [by eapply StronglySorted_app_1_r|].
  intros p q Hp Hq. by apply (StronglySorted_app_1_elem_of (λ p q, (key_of p ≤ key_of q)%key) ps qs p q).
Qed.

Lemma fill_loop_ok fuel rn n i ps values :
  view rn n → in_order ps → Forall (in_range) ps → length values = length ks → (length ps ≤ fuel)%nat →
  (i ≤ length (keys n))%nat → (∀ p j k, p ∈ ps → (j < i)%nat → keys n !! j = Some k → (k < key_of p)%key) →
  ∃ values', fill_loop ks fuel rn i ps values = Ok values' ∧ filled (final_map (zip (keys n) (vals n))) ps values values'.
Proof.
  intros Hv. set (m := final_map _). revert i ps values; induction fuel as [|fuel IH]; intros i ps values Hord Hps Hlen Hfuel Hi Hlow.
  { destruct ps; [|cbn in Hfuel; lia]. exists values. split; [done|apply filled_nil]. }
  destruct ps as [|p ps]; [exists values; split; [done|apply filled_nil]|]. apply Forall_cons_1 in Hps as [Hp Hps].
  cbn [fill_loop]. rewrite key_at_ok by done. cbn [mbind outcome_bind]. rewrite (v_len _ _ Hv).
  destruct (advance_leaf_ok (S (length (keys n) - i)) rn n (key_of p) i Hv Hi) as (i' & -> & Hat); [intros j k; apply Hlow; by left|lia|].
  cbn [mbind outcome_bind]. pose proof (leaf_found rn n (key_of p) i' Hv Hat) as Hfound. rewrite (v_len _ _ Hv) in Hfound. rewrite Hfound. fold m.
  destruct (set_value_ok m p values Hp Hlen) as (v1 & -> & Hf1). cbn [mbind outcome_bind].
  destruct (fill_same_ok m (key_of p) ps v1 Hps) as (same & rest & v2 & -> & -> & Hf2); [by rewrite (proj1 Hf1)|]. cbn [mbind outcome_bind].
  apply Forall_app in Hps as [_ Hrest]. apply (in_order_app [p]) in Hord as (_ & Hord & Hle). apply in_order_app in Hord as (_ & Hord & _).
  destruct Hat as (Hi' & Hlow' & _).
  destruct (IH i' rest v2) as (v3 & -> & Hf3); [done|done|by rewrite (proj1 Hf2), (proj1 Hf1)|cbn in Hfuel; rewrite length_app in Hfuel; lia|done| |].
  - intros q j k Hq Hj Hk. eapply blt_le_trans; [by apply (Hlow' j)|]. apply Hle; [by left|]. apply elem_of_app. by right.
  - exists v3. split; [done|]. apply (filled_app m [p] (same ++ rest) values v1 v3); [done|]. by eapply filled_app.
Qed.

(** ** Children *)
(** The child that a key belongs to: the last one that does not start after it, or the first. *)
Definition routes (n : Node) (key : bytes) (i : nat) : Prop :=
  (i < length (keys n))%nat ∧ (∀ j k, (i < j)%nat → keys n !! j = Some k → (key < k)%key) ∧
  (i = 0%nat ∨ ∃ k, keys n !! i = Some k ∧ (k ≤ key)%key).

Lemma routes_lookup n subs key i sub :
  Forall2 starts_with (keys n) subs → ascending (concat subs) → routes n key i → subs !! i = Some sub →
  ascending sub ∧ final_map (concat subs) !! key = final_map sub !! key.
Proof.
  intros Hst Hasc (Hi & Hup & Hlow) Hsub. destruct (lookup_lt_is_Some_2 (keys n) i Hi) as [k Hk].
  destruct (bleb k key) eqn:Hle; [apply bleb_le in Hle|apply bleb_gt in Hle].
  { apply (child_holds (keys n) subs key i sub Hst Hasc); [|done]. by exists k. }
  assert (i = 0%nat) as -> by (destruct Hlow as [?|(k' & Hk' & Hle')]; [done|]; rewrite Hk in Hk'; injection Hk' as <-; by apply ble_not_lt in Hle').
  assert (∀ j k', keys n !! j = Some k' → (key < k')%key) as Hall by (intros [|j] k' Hk'; [congruence|by apply (Hup (S j)); [lia|]]).
  rewrite (below_first _ _ _ Hst Hasc Hall). destruct subs as [|sub' subs]; [done|]. injection Hsub as ->. cbn [concat] in Hasc.
  split; [by apply ascending_app in Hasc as [? _]|]. symmetry. apply final_map_miss. intros Hin.
  destruct (keys n) as [|k0 ks'] eqn:Hks; [done|]. inversion Hst as [|? ? ? ? (v & rest & ->) _]; subst. injection Hk as ->.
  apply ascending_app in Hasc as [Hasc _]. apply (blt_irrefl key). eapply blt_le_trans; [exact Hle|]. by eapply ascending_head.
Qed.

Lemma routes_mono n k1 k2 i1 i2 : routes n k1 i1 → routes n k2 i2 → (k1 ≤ k2)%key → (i1 ≤ i2)%nat.
Proof.
  intros (_ & _ & Hlow) (_ & Hup & _) Hle. destruct (Nat.le_gt_cases i1 i2) as [|Hgt]; [done|]. exfalso.
  destruct Hlow as [?|(k & Hk & Hk1)]; [lia|]. pose proof (Hup i1 k Hgt Hk) as Hlt.
  apply (blt_irrefl k). eapply ble_lt_trans; [|exact Hlt]. by eapply ble_trans.
Qed.

Lemma advance_child_ok fuel rn n key i :
  view rn n → (i < length (keys n))%nat → (i = 0%nat ∨ ∃ k, keys n !! i = Some k ∧ (k ≤ key)%key) → (length (keys n) - i < fuel)%nat →
  ∃ i', advance_child fuel rn key i = Ok i' ∧ routes n key i'.
Proof.
  intros Hv. revert i; induction fuel as [|fuel IH]; intros i Hi Hlow Hfuel; [lia|]. cbn [advance_child]. rewrite (v_len _ _ Hv).
  destruct (Nat.ltb_spec (i + 1) (length (keys n))) as [Hlt|Hge].
  2: { exists i. split; [done|]. split; [done|]. split; [|done]. intros j k Hj Hk%lookup_lt_Some. lia. }
  rewrite (v_keys _ _ Hv). destruct (lookup_lt_is_Some_2 (keys n) (i + 1) Hlt) as [k Hk]. rewrite Hk. cbn [ok_or mbind outcome_bind].
  destruct (bleb k key) eqn:Hle; [apply bleb_le in Hle|apply bleb_gt in Hle].
  - apply IH; [done|right; by exists k|lia].
  - exists i. split; [done|]. split; [done|]. split; [|done]. intros j k' Hj Hk'. destruct (decide (j = i + 1)%nat) as [->|]; [congruence|].
    eapply blt_trans; [exact Hle|]. by apply (sorted_lookup (keys n) (i + 1) j); [apply (v_sorted _ _ Hv)|lia|..].
Qed.

Lemma read_child_index_ok rn n key : view rn n → keys n ≠ [] → ∃ i, read_child_index rn key = Ok i ∧ routes n key i.
Proof.
  intros Hv Hne. unfold read_child_index. rewrite (rn_search_view rn n key Hv). cbn [mbind outcome_bind]. unfold Node_search.
  pose proof (search_descends (keys n) key (v_sorted _ _ Hv)) as Hd. eexists. split; [done|].
  destruct (search (keys n) key) as [i|[|i]]; cbn [Nat.sub].
  - destruct Hd as [_ (k & Hk & Hle & Hup)]. split; [by eapply lookup_lt_Some|]. split; [done|]. right. by exists k.
  - split; [destruct (keys n); [done|cbn; lia]|]. split; [|by left]. intros j k _. apply Hd.
  - destruct Hd as [(k & Hk & Hle & Hup) _]. rewrite Nat.sub_0_r. split; [by eapply lookup_lt_Some|]. split; [done|]. right. by exists k.
Qed.

(** A frame for the child at some index. *)
Definition child_frame (n : Node) (i : nat) (fr : KeyLookupFrame) : Prop :=
  vals n !! i = Some (kf_cid fr) ∧ in_order (ip_iter (kf_positions fr)) ∧
  Forall (λ p, in_range p ∧ routes n (key_of p) i) (ip_iter (kf_positions fr)).

Definition covers (frames : list KeyLookupFrame) (ps : list nat) : Prop :=
  ∀ p, p ∈ ps ↔ ∃ fr, fr ∈ frames ∧ p ∈ ip_iter (kf_positions fr).

Lemma covers_nil : covers [] [].
Proof. intros p. split; [by intros ?%not_elem_of_nil|by intros (fr & ?%not_elem_of_nil & _)]. Qed.
Lemma covers_snoc frames fr ps qs :
  covers frames ps → (∀ p, p ∈ ip_iter (kf_positions fr) ↔ p ∈ qs) → covers (frames ++ [fr]) (ps ++ qs).
Proof.
  intros Hcov Hqs p. rewrite elem_of_app, (Hcov p), <- Hqs. split.
  - intros [(fr' & Hin & Hp)|Hp]; [exists fr'|exists fr]; rewrite elem_of_app, list_elem_of_singleton; auto.
  - intros (fr' & [Hin|Hin%list_elem_of_singleton]%elem_of_app & Hp); [left; by exists fr'|right; by subst].
Qed.

Definition routed (n : Node) (frames : list KeyLookupFrame) (ps : list nat) : Prop :=
  Forall (λ fr, ∃ i, child_frame n i fr) frames ∧ covers frames ps.

Lemma routed_snoc n frames ps i fr qs :
  routed n frames ps → child_frame n i fr → ip_iter (kf_positions fr) = qs → routed n (frames ++ [fr]) (ps ++ qs).
Proof.
  intros [Hall Hcov] Hfr <-. split; [apply Forall_app; split; [done|]; constructor; [by exists i|constructor]|]. by apply covers_snoc.
Qed.

(** *** Key by key *)
(** The last frame is the one of the current child. *)
Definition routing (n : Node) (past : list nat) (state : list KeyLookupFrame * nat * option nat) : Prop :=
  let '(frames, i, last) := state in
  routed n frames past ∧
  match last with
  | None => past = [] ∧ frames = []
  | Some l => l = i ∧ ∃ init fr, frames = init ++ [fr] ∧ child_frame n i fr ∧ ∀ p, p ∈ ip_iter (kf_positions fr) → p ∈ past
  end.

Lemma ip_push_iter ps p : ip_iter (ip_push ps p) = ip_iter ps ++ [p].
Proof. done. Qed.

Lemma in_order_snoc ps p : in_order ps → (∀ q, q ∈ ps → (key_of q ≤ key_of p)%key) → in_order (ps ++ [p]).
Proof.
  intros Hs Hle. induction Hs as [|q ps Hs IH Hall]; [repeat constructor|]. cbn [app]. constructor.
  - apply IH. intros q' Hq'. apply Hle. by right.
  - apply Forall_app. split; [done|]. constructor; [apply Hle; by left|constructor].
Qed.

Lemma child_frame_push n i fr p :
  child_frame n i fr → in_range p → routes n (key_of p) i → (∀ q, q ∈ ip_iter (kf_positions fr) → (key_of q ≤ key_of p)%key) →
  child_frame n i {| kf_cid := kf_cid fr; kf_positions := ip_push (kf_positions fr) p |}.
Proof.
  intros (Hc & Hord & Hall) Hp Hr Hle. split; [done|]. cbn [kf_positions]. rewrite ip_push_iter. split; [by apply in_order_snoc|].
  apply Forall_app. split; [done|]. constructor; [done|constructor].
Qed.

Lemma child_frame_new n i c p : vals n !! i = Some c → in_range p → routes n (key_of p) i →
  child_frame n i {| kf_cid := c; kf_positions := InlinePositions_new p |}.
Proof. intros Hc Hp Hr. split; [done|]. split; [repeat constructor|]. constructor; [done|constructor]. Qed.

(** The children are identifiers. *)
Definition links (n : Node) : Prop := Forall (λ c, length c = 32%nat) (vals n).

Lemma child_link rn n i : view rn n → links n → (i < length (keys n))%nat → ∃ c, rn_child_cid rn i = Ok c ∧ vals n !! i = Some c.
Proof.
  intros Hv Hl Hi. destruct (lookup_lt_is_Some_2 (vals n) i) as [c Hc]; [by rewrite (v_lens _ _ Hv)|]. exists c. split; [|done].
  apply (child_cid_ok rn n i c Hv Hc). by eapply Forall_lookup_1 in Hl.
Qed.

Lemma route_position_ok rn n past p frames i last :
  view rn n → links n → in_range p → (∀ q, q ∈ past → (key_of q ≤ key_of p)%key) →
  (i < length (keys n))%nat → (i = 0%nat ∨ ∃ k, keys n !! i = Some k ∧ (k ≤ key_of p)%key) → routing n past (frames, i, last) →
  ∃ frames' i', route_position ks rn (frames, i, last) p = Ok (frames', i', Some i') ∧ routes n (key_of p) i' ∧
    routing n (past ++ [p]) (frames', i', Some i').
Proof.
  intros Hv Hl Hp Hle Hi Hlow [Hrt Hlast]. unfold route_position. rewrite key_at_ok by done. cbn [mbind outcome_bind]. rewrite (v_len _ _ Hv).
  destruct (advance_child_ok (S (length (keys n) - i)) rn n (key_of p) i Hv Hi Hlow) as (i' & -> & Hr); [lia|]. cbn [mbind outcome_bind].
  case_bool_decide as Hsame.
  - subst last. destruct Hlast as [-> (init & fr & -> & Hfr & Hpast)]. rewrite last_snoc, removelast_last. cbn [ok_or mbind outcome_bind].
    eexists _, _. split; [done|]. split; [done|].
    assert (child_frame n i {| kf_cid := kf_cid fr; kf_positions := ip_push (kf_positions fr) p |}) as Hfr'
      by (apply child_frame_push; [done|done|done|intros q Hq; by apply Hle, Hpast]).
    split; [|split; [done|]; eexists init, _; split; [done|]; split; [done|]].
    + destruct Hrt as [Hall Hcov]. apply Forall_app in Hall as [Hall _]. split; [apply Forall_app; split; [done|]; constructor; [by exists i|constructor]|].
      intros q. rewrite elem_of_app, (Hcov q). setoid_rewrite elem_of_app. setoid_rewrite list_elem_of_singleton. split.
      * intros [(fr' & [Hin| ->] & Hq)|Hq]; eexists; (split; [first [by left|by right]|]); [done|..]; cbn [kf_positions]; rewrite ip_push_iter; apply elem_of_app; [by left|right; by apply list_elem_of_singleton].
      * intros (fr' & [Hin| ->] & Hq); [left; exists fr'; auto|]. cbn [kf_positions] in Hq. rewrite ip_push_iter in Hq.
        apply elem_of_app in Hq as [Hq|Hq%list_elem_of_singleton]; [left; exists fr; auto|by right].
    + cbn [kf_positions]. rewrite ip_push_iter. intros q [Hq|Hq]%elem_of_app; apply elem_of_app; [left; by apply Hpast|by right].
  - destruct (child_link rn n i' Hv Hl (proj1 Hr)) as (c & -> & Hc). cbn [mbind outcome_bind]. eexists _, _. split; [done|]. split; [done|].
    pose proof (child_frame_new n i' c p Hc Hp Hr) as Hfr. split; [by apply (routed_snoc n frames past i')|]. split; [done|].
    eexists frames, _. split; [done|]. split; [done|]. intros q Hq. apply elem_of_app. by right.
Qed.

Lemma route_fold_ok rn n ps past frames i last :
  view rn n → links n → Forall in_range ps → in_order (past ++ ps) → (i < length (keys n))%nat →
  (∀ p, p ∈ ps → i = 0%nat ∨ ∃ k, keys n !! i = Some k ∧ (k ≤ key_of p)%key) → routing n past (frames, i, last) →
  ∃ state, foldM (route_position ks rn) (frames, i, last) ps = Ok state ∧ routed n state.1.1 (past ++ ps).
Proof.
  intros Hv Hl Hps. revert past frames i last; induction Hps as [|p ps Hp Hps IH]; intros past frames i last Hord Hi Hlow Hrt.
  { eexists. split; [done|]. rewrite app_nil_r. by destruct Hrt. }
  pose proof (in_order_app _ _ Hord) as (_ & Hord2 & Hle). apply (in_order_app [p]) in Hord2 as (_ & _ & Hnext).
  cbn [foldM]. destruct (route_position_ok rn n past p frames i last Hv Hl Hp) as (frames' & i' & -> & Hr & Hrt');
    [intros q Hq; apply Hle; [done|by left]|done|apply Hlow; by left|done|].
  cbn [mbind outcome_bind]. destruct (IH (past ++ [p]) frames' i' (Some i')) as (state & Hf & Hdone);
    [by rewrite <- app_assoc|apply Hr| |done|exists state; split; [done|by rewrite <- app_assoc in Hdone]].
  intros q Hq. destruct Hr as (_ & _ & [?|(k & Hk & Hkp)]); [by left|right]. exists k. split; [done|].
  eapply ble_trans; [exact Hkp|]. apply Hnext; [by left|done].
Qed.

(** *** By separators *)
Lemma ip_at_ok ps i p : ip_iter ps !! i = Some p → ip_at ps i = Ok p.
Proof. intros Hp. destruct i as [|i]; [cbn in Hp |- *; congruence|]. change (ip_rest ps !! i = Some p) in Hp. unfold ip_at. by rewrite Hp. Qed.
Lemma ip_len_ok ps : ip_len ps = length (ip_iter ps).
Proof. done. Qed.

(** The positions before [i] ask for keys below [key], the others do not. *)
Definition cuts (ps : list nat) (key : bytes) (i : nat) : Prop :=
  (∀ j p, (j < i)%nat → ps !! j = Some p → (key_of p < key)%key) ∧ (∀ j p, (i ≤ j)%nat → ps !! j = Some p → (key ≤ key_of p)%key).

Lemma order_lookup ps i j p q : in_order ps → (i ≤ j)%nat → ps !! i = Some p → ps !! j = Some q → (key_of p ≤ key_of q)%key.
Proof.
  intros Ho Hij Hp Hq. destruct (decide (i = j)) as [->|]; [rewrite Hp in Hq; injection Hq as ->; apply ble_refl|].
  by apply (ordered_lookup (λ p q, (key_of p ≤ key_of q)%key) ps i j p q Ho); [lia|..].
Qed.

Lemma lower_bound_ok fuel ps key left right :
  in_order (ip_iter ps) → Forall in_range (ip_iter ps) → (left ≤ right ≤ length (ip_iter ps))%nat → (right - left < fuel)%nat →
  (∀ j p, (j < left)%nat → ip_iter ps !! j = Some p → (key_of p < key)%key) →
  (∀ j p, (right ≤ j)%nat → ip_iter ps !! j = Some p → (key ≤ key_of p)%key) →
  ∃ i, lower_bound_loop ks fuel ps key left right = Ok i ∧ (left ≤ i ≤ right)%nat ∧ cuts (ip_iter ps) key i.
Proof.
  intros Ho Hr. revert left right; induction fuel as [|fuel IH]; intros left right Hlr Hfuel Hlow Hup; [lia|]. cbn [lower_bound_loop].
  destruct (Nat.ltb_spec left right) as [Hlt|Hge].
  2: { exists left. assert (left = right) as -> by lia. by split. }
  set (mid := (left + (right - left) / 2)%nat).
  assert (left ≤ mid < right)%nat as Hmid by (unfold mid; pose proof (Nat.div_lt (right - left) 2); lia).
  destruct (lookup_lt_is_Some_2 (ip_iter ps) mid) as [p Hp]; [lia|]. rewrite (ip_at_ok ps mid p Hp). cbn [mbind outcome_bind].
  rewrite key_at_ok by (by eapply Forall_lookup_1 in Hr). cbn [mbind outcome_bind].
  destruct (bltb (key_of p) key) eqn:Hk; [apply bltb_lt in Hk|apply bltb_ge in Hk].
  - destruct (IH (mid + 1)%nat right) as (i & Hi & Hb & Hc); [lia|lia| |done|exists i; split; [done|]; split; [lia|done]].
    intros j q Hj Hq. eapply ble_lt_trans; [|exact Hk]. by apply (order_lookup (ip_iter ps) j mid); [|lia|..].
  - destruct (IH left mid) as (i & Hi & Hb & Hc); [lia|lia|done| |exists i; split; [done|]; split; [lia|done]].
    intros j q Hj Hq. eapply ble_trans; [exact Hk|]. by apply (order_lookup (ip_iter ps) mid j).
Qed.

Lemma bucket_fold ps offsets bucket :
  Forall (λ i, (i < length (ip_iter ps))%nat) offsets →
  ∃ bucket', foldM (λ bucket offset, position ← ip_at ps offset; Ok (ip_push bucket position)) bucket offsets = Ok bucket' ∧
    ip_iter bucket' = ip_iter bucket ++ omap (λ i, ip_iter ps !! i) offsets.
Proof.
  intros Hall. revert bucket; induction Hall as [|i offsets Hi _ IH]; intros bucket; [exists bucket; by rewrite app_nil_r|].
  destruct (lookup_lt_is_Some_2 (ip_iter ps) i Hi) as [p Hp]. cbn [foldM omap list_omap]. rewrite (ip_at_ok ps i p Hp), Hp. cbn [mbind outcome_bind].
  destruct (IH (ip_push bucket p)) as (b & Hb & Hi'). exists b. split; [done|]. by rewrite Hi', ip_push_iter, <- app_assoc.
Qed.

Lemma omap_seq {A} (l : list A) i k : (i + k ≤ length l)%nat → omap (λ j, l !! j) (seq i k) = take k (drop i l).
Proof.
  revert i; induction k as [|k IH]; intros i Hle; [by rewrite take_0|]. cbn [seq omap list_omap].
  destruct (lookup_lt_is_Some_2 l i) as [x Hx]; [lia|]. rewrite Hx, (drop_S l x i Hx). cbn [take]. f_equal. apply IH. lia.
Qed.

Lemma bucket_ok ps start stop :
  (start < stop ≤ length (ip_iter ps))%nat →
  ∃ bucket, inline_positions_from_range ps start stop = Ok bucket ∧ ip_iter bucket = take (stop - start) (drop start (ip_iter ps)).
Proof.
  intros Hle. unfold inline_positions_from_range. destruct (lookup_lt_is_Some_2 (ip_iter ps) start) as [p Hp]; [lia|].
  rewrite (ip_at_ok ps start p Hp). cbn [mbind outcome_bind].
  destruct (bucket_fold ps (seq (start + 1) (stop - (start + 1))) (InlinePositions_new p)) as (b & Hb & Hi).
  { apply Forall_forall. intros i [? ?]%elem_of_seq. lia. }
  exists b. split; [done|]. rewrite Hi, omap_seq by lia. rewrite (drop_S _ p start Hp). replace (stop - start)%nat with (S (stop - (start + 1))) by lia.
  cbn [take]. by rewrite Nat.add_1_r.
Qed.

Lemma order_slice ps a b : in_order ps → in_order (take a (drop b ps)).
Proof.
  intros Ho. rewrite <- (take_drop b ps) in Ho. apply in_order_app in Ho as (_ & Ho & _).
  rewrite <- (take_drop a (drop b ps)) in Ho. by apply in_order_app in Ho as (Ho & _).
Qed.

Lemma slice_elem {A} (l : list A) a b x : x ∈ take a (drop b l) → ∃ j, (b ≤ j < b + a)%nat ∧ l !! j = Some x.
Proof.
  intros [i Hi]%list_elem_of_lookup. pose proof (lookup_lt_Some _ _ _ Hi) as Hlt. rewrite length_take in Hlt.
  rewrite lookup_take_lt, lookup_drop in Hi by lia. exists (b + i)%nat. split; [lia|done].
Qed.

(** The frame of the positions between two offsets. *)
Lemma bucket_frame rn n ps i start stop :
  view rn n → links n → in_order (ip_iter ps) → Forall in_range (ip_iter ps) → (start < stop ≤ length (ip_iter ps))%nat →
  (i < length (keys n))%nat → (∀ j p, (start ≤ j < stop)%nat → ip_iter ps !! j = Some p → routes n (key_of p) i) →
  ∃ c bucket, rn_child_cid rn i = Ok c ∧ inline_positions_from_range ps start stop = Ok bucket ∧
    child_frame n i {| kf_cid := c; kf_positions := bucket |} ∧ ip_iter bucket = take (stop - start) (drop start (ip_iter ps)).
Proof.
  intros Hv Hl Ho Hr Hle Hi Hroutes. destruct (child_link rn n i Hv Hl Hi) as (c & Hc & Hcv). destruct (bucket_ok ps start stop Hle) as (b & Hb & Hib).
  exists c, b. split; [done|]. split; [done|]. split; [|done]. split; [done|]. cbn [kf_positions]. rewrite Hib. split; [by apply order_slice|].
  apply Forall_forall. intros p (j & Hj & Hp)%slice_elem. split; [by eapply Forall_lookup_1 in Hr|]. apply (Hroutes j); [lia|done].
Qed.

Lemma boundary_loop_ok rounds rn n ps i start frames :
  view rn n → links n → in_order (ip_iter ps) → Forall in_range (ip_iter ps) → (i + rounds < length (keys n))%nat →
  (start ≤ length (ip_iter ps))%nat → routed n frames (take start (ip_iter ps)) →
  (∀ j p k, (j < start)%nat → ip_iter ps !! j = Some p → keys n !! i = Some k → (key_of p < k)%key) →
  (∀ j p, (start ≤ j)%nat → ip_iter ps !! j = Some p → i = 0%nat ∨ ∃ k, keys n !! i = Some k ∧ (k ≤ key_of p)%key) →
  ∃ start' frames', boundary_loop ks rounds rn ps i start frames = Ok (start', frames') ∧ (start' ≤ length (ip_iter ps))%nat ∧
    routed n frames' (take start' (ip_iter ps)) ∧
    ∀ j p, (start' ≤ j)%nat → ip_iter ps !! j = Some p → (i + rounds = 0)%nat ∨ ∃ k, keys n !! (i + rounds)%nat = Some k ∧ (k ≤ key_of p)%key.
Proof.
  intros Hv Hl Ho Hr. revert i start frames; induction rounds as [|rounds IH]; intros i start frames Hi Hst Hrt Hlow Hup.
  { exists start, frames. split; [done|]. split; [done|]. split; [done|]. by rewrite Nat.add_0_r. }
  cbn [boundary_loop]. rewrite (v_keys _ _ Hv). destruct (lookup_lt_is_Some_2 (keys n) (i + 1)) as [k Hk]; [lia|]. rewrite Hk. cbn [ok_or mbind outcome_bind].
  unfold lower_bound_position_key. rewrite ip_len_ok. pose proof (v_sorted _ _ Hv) as Hsort.
  destruct (lower_bound_ok (S (length (ip_iter ps) - start)) ps k start (length (ip_iter ps)) Ho Hr) as (stop & -> & Hb & Hbelow & Habove); [lia|lia| | |].
  { intros j p Hj Hp. destruct (lookup_lt_is_Some_2 (keys n) i) as [k0 Hk0]; [lia|]. eapply blt_trans; [by apply (Hlow j p k0)|].
    by apply (sorted_lookup (keys n) i (i + 1)); [|lia|..]. }
  { intros j p Hj Hp%lookup_lt_Some. lia. }
  cbn [mbind outcome_bind].
  assert (∃ frames', (if (start <? stop)%nat then
      c ← rn_child_cid rn i; bucket ← inline_positions_from_range ps start stop; Ok (frames ++ [{| kf_cid := c; kf_positions := bucket |}])
    else Ok frames) = Ok frames' ∧ routed n frames' (take stop (ip_iter ps))) as (frames' & -> & Hrt').
  { destruct (Nat.ltb_spec start stop) as [Hlt|Hge]; [|exists frames; assert (stop = start) as -> by lia; by split].
    destruct (bucket_frame rn n ps i start stop Hv Hl Ho Hr) as (c & b & -> & Hbk & Hfr & Hib); [lia|lia| |].
    - intros j p Hj Hp. split; [lia|]. split; [|apply (Hup j); [lia|done]]. intros j' k' Hj' Hk'.
      eapply blt_le_trans; [apply (Hbelow j); [lia|done]|]. destruct (decide (j' = i + 1)%nat) as [->|]; [rewrite Hk in Hk'; injection Hk' as ->; apply ble_refl|].
      apply blt_le. by apply (sorted_lookup (keys n) (i + 1) j'); [|lia|..].
    - cbn [mbind outcome_bind]. rewrite Hbk. eexists. split; [done|].
      replace (take stop (ip_iter ps)) with (take start (ip_iter ps) ++ take (stop - start) (drop start (ip_iter ps)))
        by (rewrite take_take_drop; f_equal; lia).
      apply (routed_snoc n frames _ i); [done|done|]. cbn [kf_positions]. by rewrite Hib. }
  cbn [mbind outcome_bind]. destruct (IH (i + 1)%nat stop frames') as (s' & f' & Hf & Hs' & Hrt2 & Hup2); [lia|lia|done| | |].
  - intros j p k' Hj Hp Hk'. rewrite Hk in Hk'. injection Hk' as <-. by apply (Hbelow j).
  - intros j p Hj Hp. right. exists k. split; [done|]. by apply (Habove j).
  - exists s', f'. split; [done|]. split; [done|]. split; [done|].
    by replace (i + S rounds)%nat with (i + 1 + rounds)%nat by lia.
Qed.

Lemma route_by_boundary_ok rn n ps :
  view rn n → links n → keys n ≠ [] → in_order (ip_iter ps) → Forall in_range (ip_iter ps) →
  ∃ frames, route_read_key_positions_to_children_by_boundary ks rn ps = Ok frames ∧ routed n frames (ip_iter ps).
Proof.
  intros Hv Hl Hne Ho Hr. unfold route_read_key_positions_to_children_by_boundary. set (count := ip_len ps).
  assert (0 < count)%nat as Hpos by (unfold count, ip_len; lia). assert (length (ip_iter ps) = count) as Hlen by done.
  destruct (lookup_lt_is_Some_2 (ip_iter ps) 0) as [p0 Hp0]; [lia|]. destruct (lookup_lt_is_Some_2 (ip_iter ps) (count - 1)) as [pz Hpz]; [lia|].
  rewrite (ip_at_ok ps 0 p0 Hp0), (ip_at_ok ps _ pz Hpz). cbn [mbind outcome_bind].
  rewrite !key_at_ok by (by eapply Forall_lookup_1 in Hr). cbn [mbind outcome_bind].
  destruct (read_child_index_ok rn n (key_of p0) Hv Hne) as (i & -> & Hi). destruct (read_child_index_ok rn n (key_of pz) Hv Hne) as (z & -> & Hz).
  cbn [mbind outcome_bind].
  assert (i ≤ z)%nat as Hiz by (apply (routes_mono n (key_of p0) (key_of pz)); [done|done|by apply (order_lookup (ip_iter ps) 0 (count - 1)); [|lia|..]]).
  destruct (boundary_loop_ok (z - i) rn n ps i 0 []) as (start & frames & -> & Hst & Hrt & Hup); [done|done|done|done| |lia| | | |].
  - destruct Hz as (Hz & _). lia.
  - rewrite take_0. split; [constructor|]. apply covers_nil.
  - intros j p k Hj. lia.
  - intros j p _ Hp. destruct Hi as (_ & _ & [?|(k & Hk & Hle)]); [by left|right]. exists k. split; [done|].
    eapply ble_trans; [exact Hle|]. by apply (order_lookup (ip_iter ps) 0 j); [|lia|..].
  - cbn [mbind outcome_bind]. replace (i + (z - i))%nat with z in Hup by lia. destruct (Nat.ltb_spec start count) as [Hlt|Hge].
    2: { exists frames. split; [done|]. by rewrite take_ge in Hrt by lia. }
    destruct (bucket_frame rn n ps z start count Hv Hl Ho Hr) as (c & b & -> & Hb & Hfr & Hib); [lia|apply Hz| |].
    { intros j p Hj Hp. split; [apply Hz|]. split; [|by apply (Hup j); [lia|]]. intros j' k' Hj' Hk'. destruct Hz as (_ & Hz & _).
      eapply ble_lt_trans; [|by apply (Hz j')]. by apply (order_lookup (ip_iter ps) j (count - 1)); [|lia|..]. }
    cbn [mbind outcome_bind]. rewrite Hb. eexists. split; [done|].
    rewrite <- (take_drop start (ip_iter ps)). apply (routed_snoc n frames _ z); [done|done|]. cbn [kf_positions].
    rewrite Hib, take_ge; [done|]. rewrite length_drop. lia.
Qed.

Lemma route_ok rn n ps :
  view rn n → links n → keys n ≠ [] → in_order (ip_iter ps) → Forall in_range (ip_iter ps) →
  ∃ frames, route_read_key_positions_to_children ks rn ps = Ok frames ∧ routed n frames (ip_iter ps).
Proof.
  intros Hv Hl Hne Ho Hr. unfold route_read_key_positions_to_children.
  assert (rn_is_empty rn = false) as ->.
  { unfold rn_is_empty. apply bool_decide_eq_false. intros Hnil. pose proof (v_len _ _ Hv) as Hlen. unfold rn_len in Hlen. rewrite Hnil in Hlen.
    by destruct (keys n). }
  destruct (_ && _); [by apply route_by_boundary_ok|]. pose proof Hr as [Hp0 _]%Forall_cons_1. rewrite key_at_ok by done. cbn [mbind outcome_bind].
  destruct (read_child_index_ok rn n (key_of (ip_first ps)) Hv Hne) as (i & -> & Hi). cbn [mbind outcome_bind].
  destruct (route_fold_ok rn n (ip_iter ps) [] [] i None Hv Hl Hr Ho (proj1 Hi)) as (state & -> & Hrt).
  - intros p Hp. destruct Hi as (_ & _ & [?|(k & Hk & Hle)]); [by left|right]. exists k. split; [done|]. eapply ble_trans; [exact Hle|].
    apply list_elem_of_lookup in Hp as [j Hj]. by apply (order_lookup (ip_iter ps) 0 j); [|lia|..].
  - split; [|done]. split; [constructor|]. apply covers_nil.
  - cbn [mbind outcome_bind]. by eexists.
Qed.
End keys.

(** ** Loads *)
Section loads.
Context `{HashesOk} {St : Type} `{StoreOk St} `{!ReadStore St} `{!ReadStoreOk St} (g : TreeFormat) (st : gmap bytes bytes).
Implicit Types e : ProllyEngine St.

Ltac mstep lem :=
  let e1 := fresh "e" in let Heq := fresh "Heq" in let Hok := fresh "Hok" in
  edestruct lem as (e1 & Heq & Hok); [eassumption|]; rewrite (action_bind_Ok _ _ _ _ _ Heq).

Lemma load_missing_engine_ok f cids ns nodes m e :
  engine_manages g st e → plan_inv (packed st) cids nodes m → nodes_of st f cids ns →
  ∃ rns e', load_missing_engine_read f m nodes e = (Ok (fill_all nodes rns (mb_positions m)), e') ∧
    engine_manages g st e' ∧ Forall2 (packed st) (mb_cids m) rns.
Proof.
  intros He Hinv [Hall Hf]. unfold load_missing_engine_read. mstep (meter_manages g st (add_cache_misses (len (mb_cids m))) e).
  destruct (stored_some st cids ns (mb_cids m) Hall (pi_members _ _ _ _ Hinv)) as (vs & Hvs & Hsub).
  assert (Forall (λ n, format n = f) vs) as Hfv.
  { apply Forall_forall. intros n Hn. by apply (proj1 (Forall_forall _ _) Hf), Hsub. }
  destruct (batch_get_validated_ok (en_store e0) (mb_cids m) (pi_nodup _ _ _ _ Hinv)) as (os & Hget & Hos).
  rewrite (eo_store _ _ (proj1 Hok)) in Hos.
  rewrite (action_bind_Ok (from_store _) _ e0 os e0) by (unfold from_store; by rewrite Hget).
  rewrite <- (Forall2_length _ _ _ Hos), Nat.eqb_refl. cbn [negb].
  destruct (decode_each_read_ok f st _ _ _ Hvs Hfv Hos) as (rns & Hd & Hp).
  rewrite (action_bind_Ok (run _) _ e0 (zip (mb_cids m) rns) e0) by (unfold run; by rewrite Hd).
  match goal with |- context [meter ?u ≫= _] => mstep (meter_manages g st u e0) end.
  destruct (place_decoded_read_ok g st (mb_cids m) rns (mb_positions m) nodes 0 e1 Hok0 Hp) as (z & e2 & Hpl & He2).
  rewrite (action_bind_Ok _ _ _ _ _ Hpl). cbn [fst snd]. mstep (meter_manages g st (add_cache_evictions z) e2).
  by exists rns, e3.
Qed.

Lemma load_many_engine_ok f cids ns e :
  engine_manages g st e → nodes_of st f cids ns →
  ∃ rns e', load_many_engine_read_ordered f cids e = (Ok rns, e') ∧ Forall2 view rns ns ∧ engine_manages g st e'.
Proof.
  intros He Hns. unfold load_many_engine_read_ordered.
  destruct (plan_ok (packed st) cached_read (engine_manages g st) cids) with (s := e)
    as (nodes & m & hits & e1 & Hp & He1 & Hinv); [intros cid s _; apply (cached_packed_ok g st false)|done|].
  rewrite (action_bind_Ok _ _ _ _ _ Hp). mstep (meter_manages g st (add_cache_hits hits) e1).
  assert (∃ rns e2, (if bool_decide (mb_cids m = []) then mret nodes else load_missing_engine_read f m nodes) e0
      = (Ok (fill_all nodes rns (mb_positions m)), e2) ∧ engine_manages g st e2 ∧ Forall2 (packed st) (mb_cids m) rns)
    as (rns & e2 & Hm & He2 & Hps).
  { case_bool_decide as Hm; [|by eapply load_missing_engine_ok]. exists [], e0. rewrite Hm. split; [done|]. split; [done|constructor]. }
  rewrite (action_bind_Ok _ _ _ _ _ Hm). destruct (fill_all_ok _ _ _ _ rns Hinv Hps) as (rs & Hrs & Hall').
  exists rs, e2. split; [unfold run; by rewrite Hrs|]. split; [|done]. by apply (packed_views st cids rs ns Hall'), Hns.
Qed.

Lemma load_chunks_ok f chunks nss e :
  engine_manages g st e → Forall2 (nodes_of st f) chunks nss →
  ∃ rns e', load_chunks f chunks e = (Ok rns, e') ∧ Forall2 view rns (concat nss) ∧ engine_manages g st e'.
Proof.
  intros He Hall. revert e He; induction Hall as [|chunk ns chunks nss Hns _ IH]; intros e He; [exists [], e; split; [done|]; split; [constructor|done]|].
  cbn [load_chunks]. destruct (load_many_engine_ok f chunk ns e He Hns) as (r1 & e1 & Hl & Hv & He1). rewrite (action_bind_Ok _ _ _ _ _ Hl).
  destruct (IH e1 He1) as (r2 & e2 & Hl2 & Hv2 & He2). rewrite (action_bind_Ok _ _ _ _ _ Hl2).
  exists (r1 ++ r2), e2. split; [done|]. split; [|done]. cbn [concat]. by apply Forall2_app.
Qed.
End loads.

(** ** The levels *)
Section levels.
Context `{HashesOk} (ks : list bytes) (f : TreeFormat) (st : gmap bytes bytes) (es : list kv).
Local Abbreviation key_of := (key_of ks).

(** A frame whose node answers for its keys. *)
Definition frame_good (h : nat) (fr : KeyLookupFrame) : Prop :=
  in_order ks (ip_iter (kf_positions fr)) ∧ Forall (in_range ks) (ip_iter (kf_positions fr)) ∧
  ∃ sub, subtree st f h (kf_cid fr) sub ∧ ascending sub ∧
    ∀ p, p ∈ ip_iter (kf_positions fr) → final_map es !! key_of p = final_map sub !! key_of p.

(** A position has its value, or is in a frame. *)
Definition answered (values : list (option bytes)) (p : nat) : Prop := values !! p = Some (final_map es !! key_of p).
Definition pending (frames : list KeyLookupFrame) (p : nat) : Prop := ∃ fr, fr ∈ frames ∧ p ∈ ip_iter (kf_positions fr).

Lemma frame_node h fr : frame_good h fr → ∃ n, stored_node st (kf_cid fr) n ∧ format n = f.
Proof. intros (_ & _ & sub & Hs & _). destruct (subtree_node_tree st f h _ sub Hs) as (n & Hn & (Hf & _) & _). by exists n. Qed.

Lemma visit_leaf_ok next values fr rn n :
  frame_good 0 fr → stored_node st (kf_cid fr) n → view rn n → length values = length ks →
  ∃ values', visit_frame ks f (next, values) (fr, rn) = Ok (next, values') ∧ length values' = length ks ∧
    ∀ p, in_range ks p → p ∈ ip_iter (kf_positions fr) ∨ answered values p → answered values' p.
Proof.
  intros (Ho & Hr & sub & (n' & Hn' & (Hf & _) & Hlf & ->) & _ & Heq) Hn Hv Hlen. rewrite (stored_node_unique _ _ _ _ Hn' Hn) in *.
  unfold visit_frame. rewrite <- Hf, (validate_read_ok rn n Hv). cbn [mbind outcome_bind]. unfold rn_is_leaf. rewrite <- (v_leaf _ _ Hv), Hlf.
  unfold fill_read_leaf_lookup_values.
  destruct (fill_loop_ok ks (ip_len (kf_positions fr)) rn n 0 (ip_iter (kf_positions fr)) values Hv Ho Hr Hlen) as (v' & -> & Hl & Hf'); [done|lia|intros; lia|].
  exists v'. split; [done|]. split; [congruence|]. intros p Hp Ha. unfold answered. rewrite Hf' by done.
  destruct (decide (p ∈ ip_iter (kf_positions fr))) as [Hin|Hin]; [by rewrite Heq|]. by destruct Ha.
Qed.

Lemma visit_inner_ok h next values fr rn n :
  frame_good (S h) fr → stored_node st (kf_cid fr) n → view rn n →
  ∃ frames, visit_frame ks f (next, values) (fr, rn) = Ok (next ++ frames, values) ∧ Forall (frame_good h) frames ∧
    ∀ p, p ∈ ip_iter (kf_positions fr) → pending frames p.
Proof.
  intros (Ho & Hr & sub & (n' & Hn' & (Hf & _ & Hne) & Hlf & subs & Hsubs & Hst & ->) & Hasc & Heq) Hn Hv. rewrite (stored_node_unique _ _ _ _ Hn' Hn) in *.
  unfold visit_frame. rewrite <- Hf, (validate_read_ok rn n Hv). cbn [mbind outcome_bind]. unfold rn_is_leaf. rewrite <- (v_leaf _ _ Hv), Hlf.
  assert (links n) as Hlinks.
  { apply Forall_lookup. intros i c Hc. destruct (Forall2_lookup_l _ _ _ _ _ Hsubs Hc) as (s & _ & Hs). by eapply subtree_cid. }
  destruct (route_ok ks rn n (kf_positions fr) Hv Hlinks Hne Ho Hr) as (frames & -> & Hall & Hcov). cbn [mbind outcome_bind].
  exists frames. split; [done|]. split; [|intros p Hp; by apply Hcov].
  apply Forall_forall. intros fr' Hin. destruct (proj1 (Forall_forall _ _) Hall fr' Hin) as (i & Hc & Ho' & Hr').
  split; [done|]. split; [eapply Forall_impl; [exact Hr'|]; by intros p [? _]|].
  destruct (Forall2_lookup_l _ _ _ _ _ Hsubs Hc) as (s & Hs & Hsub). exists s. split; [done|].
  split; [destruct (Forall_cons_1 _ _ _ Hr') as [[_ Hroute] _]; by destruct (routes_lookup n subs _ i s Hst Hasc Hroute Hs)|].
  intros p Hp. pose proof (proj1 (Forall_forall _ _) Hr' p Hp) as [_ Hroute]. destruct (routes_lookup n subs _ i s Hst Hasc Hroute Hs) as [_ <-].
  apply Heq, Hcov. by exists fr'.
Qed.

(** The nodes of the frames. *)
Definition read_for (fr : KeyLookupFrame) (rn : ReadNode) : Prop := ∃ n, stored_node st (kf_cid fr) n ∧ view rn n.

Lemma frame_nodes h frames : Forall (frame_good h) frames → ∃ ns, nodes_of st f (kf_cid <$> frames) ns.
Proof.
  induction 1 as [|fr frames (n & Hn & Hf)%frame_node _ (ns & Hns & Hfs)]; [exists []; split; constructor|]. exists (n :: ns).
  split; by constructor.
Qed.
Lemma frames_read frames ns rns : nodes_of st f (kf_cid <$> frames) ns → Forall2 view rns ns → Forall2 read_for frames rns.
Proof.
  intros [Hns _]. revert ns rns Hns. induction frames as [|fr frames IH]; intros ns rns Hns Hv;
    [inversion Hns; subst; inversion Hv; constructor|].
  inversion Hns as [|? n ? ns' Hn Hns']; subst. inversion Hv as [|rn ? rns' ? Hvn Hvs]; subst. constructor; [by exists n|by eapply IH].
Qed.

Lemma visit_leaves_ok frames rns next values :
  Forall (frame_good 0) frames → Forall2 read_for frames rns → length values = length ks →
  ∃ values', foldM (visit_frame ks f) (next, values) (zip frames rns) = Ok (next, values') ∧ length values' = length ks ∧
    ∀ p, in_range ks p → pending frames p ∨ answered values p → answered values' p.
Proof.
  intros Hall Hrd. revert values; induction Hrd as [|fr rn frames rns (n & Hn & Hv) _ IH]; intros values Hlen.
  { exists values. split; [done|]. split; [done|]. by intros p _ [(fr & ?%not_elem_of_nil & _)|]. }
  apply Forall_cons_1 in Hall as [Hfr Hall]. cbn [zip zip_with foldM].
  destruct (visit_leaf_ok next values fr rn n Hfr Hn Hv Hlen) as (v1 & -> & Hl1 & H1). cbn [mbind outcome_bind].
  destruct (IH Hall v1 Hl1) as (v2 & Hv2 & Hl2 & H2). exists v2. split; [done|]. split; [done|]. intros p Hp Hor. apply H2; [done|].
  destruct Hor as [(fr' & [->|Hin]%elem_of_cons & Hin')|Ha]; [right; apply H1; auto|left; by exists fr'|right; apply H1; auto].
Qed.

Lemma visit_inners_ok h frames rns next values :
  Forall (frame_good (S h)) frames → Forall2 read_for frames rns → Forall (frame_good h) next →
  ∃ next', foldM (visit_frame ks f) (next, values) (zip frames rns) = Ok (next', values) ∧ Forall (frame_good h) next' ∧
    ∀ p, pending frames p ∨ pending next p → pending next' p.
Proof.
  intros Hall Hrd. revert next; induction Hrd as [|fr rn frames rns (n & Hn & Hv) _ IH]; intros next Hnext.
  { exists next. split; [done|]. split; [done|]. by intros p [(fr & ?%not_elem_of_nil & _)|]. }
  apply Forall_cons_1 in Hall as [Hfr Hall]. cbn [zip zip_with foldM].
  destruct (visit_inner_ok h next values fr rn n Hfr Hn Hv) as (new & -> & Hg & Hc). cbn [mbind outcome_bind].
  destruct (IH Hall (next ++ new)) as (n2 & Hn2 & Hg2 & H2); [by apply Forall_app|]. exists n2. split; [done|]. split; [done|].
  intros p Hor. apply H2. unfold pending in *. setoid_rewrite elem_of_app.
  destruct Hor as [(fr' & [->|Hin]%elem_of_cons & Hin')|(fr' & ? & ?)]; [|left; by exists fr'|right; exists fr'; auto].
  destruct (Hc p Hin') as (fr2 & ? & ?). right. exists fr2. auto.
Qed.

Context {St : Type} `{StoreOk St} `{!ReadStore St} `{!ReadStoreOk St} (g : TreeFormat).
Implicit Types e : ProllyEngine St.

Lemma answers_all values :
  length values = length ks → (∀ p, in_range ks p → answered values p) → values = (λ k, final_map es !! k) <$> ks.
Proof.
  intros Hlen Hall. apply list_eq. intros p. destruct (decide (p < length ks)%nat) as [Hp|Hp].
  - rewrite (Hall p Hp), list_lookup_fmap. destruct (lookup_lt_is_Some_2 ks p Hp) as [k Hk]. unfold GetMany.key_of. by rewrite Hk.
  - rewrite !lookup_ge_None_2; [done|rewrite length_fmap; lia|lia].
Qed.

Lemma get_many_done fuel values e :
  (0 < fuel)%nat → length values = length ks → (∀ p, in_range ks p → answered values p) →
  get_many_loop ks fuel f [] values e = (Ok ((λ k, final_map es !! k) <$> ks), e).
Proof. intros Hf Hlen Hall. destruct fuel; [lia|]. cbn [get_many_loop]. by rewrite <- (answers_all values Hlen Hall). Qed.

Lemma get_many_loop_ok fuel h frames values e :
  engine_manages g st e → Forall (frame_good h) frames → length values = length ks →
  (∀ p, in_range ks p → pending frames p ∨ answered values p) → (S h < fuel)%nat →
  ∃ e', get_many_loop ks fuel f frames values e = (Ok ((λ k, final_map es !! k) <$> ks), e') ∧ engine_manages g st e'.
Proof.
  revert h frames values e; induction fuel as [|fuel IH]; intros h frames values e He Hall Hlen Hor Hfuel; [lia|].
  destruct frames as [|fr frames].
  { exists e. split; [|done]. apply get_many_done; [lia|done|]. intros p Hp. by destruct (Hor p Hp) as [(fr & ?%not_elem_of_nil & _)|]. }
  cbn [get_many_loop]. set (frs := fr :: frames) in *. clearbody frs. set (chunk := lookup_chunk_size _ _ _). clearbody chunk.
  destruct (frame_nodes h frs Hall) as (ns & Hns).
  destruct (slice_chunks_nodes st f (length (kf_cid <$> frs)) (Z.to_nat (Z.max chunk 1)) (kf_cid <$> frs) ns) as (nss & Hch & <-); [lia|lia|done|].
  destruct (load_chunks_ok g st f _ nss e He Hch) as (rns & e1 & Hl & Hv & He1). rewrite (action_bind_Ok _ _ _ _ _ Hl).
  pose proof (frames_read frs _ rns Hns Hv) as Hrd. destruct h as [|h].
  - destruct (visit_leaves_ok frs rns [] values Hall Hrd Hlen) as (v' & Hf' & Hl' & Ha).
    rewrite (action_bind_Ok (run _) _ e1 ([], v') e1) by (unfold run; by rewrite Hf'). exists e1. split; [|done].
    apply get_many_done; [lia|done|]. intros p Hp. by apply Ha, Hor.
  - destruct (visit_inners_ok h frs rns [] values Hall Hrd (Forall_nil_2 _)) as (next & Hf' & Hg & Hp).
    rewrite (action_bind_Ok (run _) _ e1 (next, values) e1) by (unfold run; by rewrite Hf').
    apply (IH h); [done|done|done| |lia]. intros p Hr. destruct (Hor p Hr) as [Hpend|]; [left; apply Hp; by left|by right].
Qed.
End levels.

Lemma get_many_ok `{HashesOk} {St} `{StoreOk St} `{!ReadStore St} `{!ReadStoreOk St}
    g st tree h es fuel ks (e : ProllyEngine St) :
  engine_manages g st e → tree_holds st tree h es → (S h < fuel)%nat →
  ∃ e', get_many ks fuel tree e = (Ok ((λ k, final_map es !! k) <$> ks), e') ∧ engine_manages g st e'.
Proof.
  intros He Hh Hfuel. unfold get_many, tree_holds in *. destruct (t_root tree) as [root|].
  2: { exists e. split; [|done]. subst es. rewrite (const_fmap (λ k, final_map [] !! k) ks None) by done. done. }
  destruct Hh as [Hsub Hasc]. case_bool_decide as Hnil; [subst ks; by exists e|].
  destruct (sorted_positions_ok ks) as [Hperm Hord]. destruct (sorted_key_positions ks) as [|p ps] eqn:Hsorted.
  { apply Permutation_length in Hperm. rewrite length_seq in Hperm. by destruct ks. }
  cbn [InlinePositions_from_vec]. rewrite (action_bind_Ok (run _) _ e {| ip_first := p; ip_rest := ps |} e) by done.
  assert (∀ q, q ∈ p :: ps ↔ in_range ks q) as Hin by (intros q; rewrite Hperm, elem_of_seq; unfold in_range; lia).
  apply (get_many_loop_ok ks (Config.format (t_config tree)) st es g fuel h); [done| |by rewrite length_replicate| |done].
  - constructor; [|constructor]. split; [done|]. split; [apply Forall_forall; intros q Hq; by apply Hin|]. by exists es.
  - intros q Hq. left. eexists. split; [by left|]. by apply Hin.
Qed.

(** C5.  On a store that holds a tree, [ProllyEngine::get_many] returns, for every list of
    keys, sorted or not and with repeated or absent keys, the value of each key in the
    tree's ordered map at the position of the key in the request, whatever the engine has
    cached of the same store; and the engine stays in such a state. *)
Theorem get_many_is_lookup `{HashesOk} {St} `{StoreOk St} `{!ReadStore St} `{!ReadStoreOk St}
    g st tree h es fuel ks (e : ProllyEngine St) :
  engine_manages g st e → tree_holds st tree h es → (S h < fuel)%nat →
  ∃ e', get_many ks fuel tree e = (Ok ((λ k, final_map es !! k) <$> ks), e') ∧ engine_manages g st e'.
Proof. apply get_many_ok. Qed.

(** ** A witness *)
#[local] Existing Instance sample_hashes.
#[local] Existing Instance sample_hashes_ok.

(** Keys out of order, one of them twice and one absent. *)
Definition asked : list bytes := [k2; k1; [Byte.xff]; k2].

Lemma get_many_is_lookup_witness :
  ∃ e', get_many asked 257 sample_old sample_engine = (Ok ((λ k, final_map sample_es !! k) <$> asked), e') ∧
    engine_manages (Config.format (sample_config 2 2)) sample_store e'.
Proof.
  destruct sample_tree_holds as (h & Hle & Hh).
  exact (get_many_is_lookup (Config.format (sample_config 2 2)) sample_store sample_old h sample_es 257 asked sample_engine
    sample_engine_manages Hh (proj1 (Nat.succ_lt_mono h 256) (proj2 (Nat.lt_succ_r h 255) Hle))).
Defined.
End GetManySpec.
