(* ===== verification/Reach.v ===== *)
(** * Reachability, garbage collection and synchronisation (src/prolly/gc.rs, sync.rs, mod.rs)

    The nodes that some trees reach; the collection of nodes that they do not reach; and
    the copy of what another store lacks of a tree.

    A traversal marks a node once for every format that it is expected in.  The sets of the
    source that only answer whether they contain an element are finite sets here, and the
    vectors that it also fills keep their order. *)

From Stdlib Require Import ZArith Lia Strings.Byte.
From stdpp Require Import base tactics numbers list strings option gmap sorting.
From S2P Require Import Prelude Cursor Types Format Node Store NodeCache Emitter Builder Engine Write Loader Range TreeDiff.
Import Format Config Node Store NodeCache Emitter Builder Engine Write Loader.
Import TreeDiff(count_in, load_child_frontier_ordered_for_format, ASYNC_NODE_PREFETCH_BATCH_SIZE, slice_chunks).

Local Open Scope Z_scope.

Module Reach.

(** ** Reports *)
Record GcTraversalLimits := { max_nodes : Z; max_node_bytes : Z }.

Record GcReachability := {
  live_cids : list Cid; live_nodes : Z; live_bytes : Z; leaf_nodes : Z; internal_nodes : Z }.

Record GcPlan := {
  gp_reachability : GcReachability;
  candidate_nodes : Z;
  reclaimable_cids : list Cid;
  reclaimable_nodes : Z;
  reclaimable_bytes : Z;
  missing_candidates : Z }.

Definition retained_candidate_nodes (self : GcPlan) : Z :=
  saturating_sub (saturating_sub (candidate_nodes self) (reclaimable_nodes self)) (missing_candidates self).

Record GcSweep := { gs_plan : GcPlan; deleted_nodes : Z; deleted_bytes : Z }.

Record MissingNodePlan := {
  required_cids : list Cid; required_nodes : Z; required_bytes : Z;
  missing_cids : list Cid; missing_nodes : Z; missing_bytes : Z }.
Record MissingNodeCopy := { mc_plan : MissingNodePlan; copied_nodes : Z; copied_bytes : Z }.

(** [sort_by] on the bytes of the identifiers. *)
Definition sort_cids : list Cid → list Cid := merge_sort ble.

(** A [BTreeMap] in the order of its keys. *)
Definition entry_le {V} (a b : bytes * V) : Prop := ble a.1 b.1.
Global Instance entry_le_dec {V} : RelDecision (@entry_le V).
Proof. intros a b. unfold entry_le. apply _. Defined.
Definition btree_iter {V} (m : gmap bytes V) : list (bytes * V) := merge_sort entry_le (map_to_list m).

Lemma btree_iter_perm {V} (m : gmap bytes V) : btree_iter m ≡ₚ map_to_list m.
Proof. apply merge_sort_Permutation. Qed.

(** ** Marking *)
Definition enforce_content_graph_limit (resource : string) (limit actual : Z) : outcome Error () :=
  if limit <? actual then Err (ContentGraphResourceLimitExceeded resource limit actual) else Ok tt.

Definition child_cid_at (node : Node) (idx : nat) : outcome Error Cid :=
  child ← ok_or InvalidNode (vals node !! idx);
  if (length child =? 32)%nat then Ok child else Err InvalidNode.

(** What a traversal has seen, what it has to load, and what it found. *)
Record Marking := {
  seen_paths : gset (Cid * Cid);
  frontier : list (Cid * TreeFormat * Cid);
  live_seen : gset Cid;
  mk_live : list Cid;
  mk_bytes : Z;
  mk_leaves : Z;
  mk_internals : Z }.
Definition Marking_empty : Marking := {|
  seen_paths := ∅; frontier := []; live_seen := ∅; mk_live := []; mk_bytes := 0; mk_leaves := 0; mk_internals := 0 |}.
Definition set_frontier (m : Marking) (fr : list (Cid * TreeFormat * Cid)) : Marking := {|
  seen_paths := seen_paths m; frontier := fr; live_seen := live_seen m; mk_live := mk_live m;
  mk_bytes := mk_bytes m; mk_leaves := mk_leaves m; mk_internals := mk_internals m |}.

Section marking.
Context `{Hashes} (limits : GcTraversalLimits).

(** A path that was not seen before is put on the frontier. *)
Definition mark_path (cid : Cid) (f : TreeFormat) (format_digest : Cid) (m : Marking) : outcome Error Marking :=
  if decide ((cid, format_digest) ∈ seen_paths m) then Ok m
  else
    let seen := {[(cid, format_digest)]} ∪ seen_paths m in
    enforce_content_graph_limit "nodes" (max_nodes limits) (Z.of_nat (size seen)) ≫= λ _,
    Ok {| seen_paths := seen; frontier := frontier m ++ [(cid, f, format_digest)];
          live_seen := live_seen m; mk_live := mk_live m;
          mk_bytes := mk_bytes m; mk_leaves := mk_leaves m; mk_internals := mk_internals m |}.

Definition mark_root (m : Marking) (tree : Tree) : outcome Error Marking :=
  match t_root tree with
  | None => Ok m
  | Some root_cid =>
      format_digest ← digest (Config.format (t_config tree));
      mark_path root_cid (Config.format (t_config tree)) format_digest m
  end.

(** A node counts once. *)
Definition mark_live (cid : Cid) (node : Node) (m : Marking) : outcome Error Marking :=
  if decide (cid ∈ live_seen m) then Ok m
  else
    weight ← Node_encoded_len node;
    nbytes ← ok_or (ContentGraphResourceLimitExceeded "node bytes" (max_node_bytes limits) usize_max)
               (checked_add usize_max (mk_bytes m) weight);
    enforce_content_graph_limit "node bytes" (max_node_bytes limits) nbytes ≫= λ _,
    leaves ← (if leaf node then count_in (mk_leaves m) 1 else Ok (mk_leaves m));
    internals ← (if leaf node then Ok (mk_internals m) else count_in (mk_internals m) 1);
    Ok {| seen_paths := seen_paths m; frontier := frontier m;
          live_seen := {[cid]} ∪ live_seen m; mk_live := mk_live m ++ [cid];
          mk_bytes := nbytes; mk_leaves := leaves; mk_internals := internals |}.

Definition mark_children (f : TreeFormat) (node : Node) (m : Marking) : outcome Error Marking :=
  format_digest ← digest f;
  foldM (λ m idx,
    child_cid ← child_cid_at node idx;
    mark_path child_cid f format_digest m) m (seq 0 (length (keys node))).

Definition mark_node (f : TreeFormat) (m : Marking) (item : Cid * Node) : outcome Error Marking :=
  if negb (length (keys item.2) =? length (vals item.2))%nat then Err InvalidNode
  else
    m ← mark_live item.1 item.2 m;
    if leaf item.2 then Ok m else mark_children f item.2 m.

Context {St : Type} `{Store St}.

(** Every round loads the part of the frontier in the format of its first path. *)
Fixpoint mark_loop (fuel : nat) (m : Marking) : eng St Marking :=
  match fuel with
  | O => run (Panic "out of fuel")
  | S fuel' =>
      match frontier m with
      | [] => mret m
      | (_, expected_format, _) :: _ =>
          let here (p : Cid * TreeFormat * Cid) := bool_decide (p.1.2 = expected_format) in
          let current := (λ p : Cid * TreeFormat * Cid, p.1.1) <$> List.filter here (frontier m) in
          let deferred := List.filter (λ p, negb (here p)) (frontier m) in
          load_child_frontier_ordered_for_format current expected_format ≫= λ nodes : list Node,
          run (foldM (mark_node expected_format) (set_frontier m deferred) (zip current nodes)) ≫= λ m : Marking,
          mark_loop fuel' m
      end
  end.

Definition mark_reachable_with_limits (fuel : nat) (roots : list Tree) : eng St GcReachability :=
  if (max_nodes limits =? 0) || (max_node_bytes limits =? 0)
  then run (Err (InvalidExecutionConfig "gc traversal limits" 0))
  else
    run (foldM mark_root Marking_empty roots) ≫= λ m : Marking,
    mark_loop fuel m ≫= λ m : Marking,
    mret {| live_cids := sort_cids (mk_live m); live_nodes := len (mk_live m);
            live_bytes := mk_bytes m; leaf_nodes := mk_leaves m; internal_nodes := mk_internals m |}.
End marking.

(** ** Reads in bounded batches *)
Fixpoint read_batches {St} `{Store St} (store : St) (batches : list (list bytes)) : outcome Error (list (option bytes)) :=
  match batches with
  | [] => Ok []
  | batch :: batches' =>
      values ← batch_get_ordered_unique store batch;
      if negb (length values =? length batch)%nat then Err InvalidNode
      else
        rest ← read_batches store batches';
        Ok (values ++ rest)
  end.

Definition async_batch_get_ordered_unique_bounded {St} `{Store St} (store : St) (ks : list bytes) (max_batch_len : Z)
    : outcome Error (list (option bytes)) :=
  if bool_decide (ks = []) then Ok []
  else
    let max_batch_len := Z.max max_batch_len 1 in
    if len ks <=? max_batch_len then
      values ← batch_get_ordered_unique store ks;
      if negb (length values =? length ks)%nat then Err InvalidNode else Ok values
    else read_batches store (slice_chunks (length ks) (Z.to_nat max_batch_len) ks).

Section store.
Context `{Hashes} {St : Type} `{Store St}.

Definition unlimited : GcTraversalLimits := {| max_nodes := usize_max; max_node_bytes := usize_max |}.

Definition mark_reachable (fuel : nat) (roots : list Tree) : eng St GcReachability :=
  mark_reachable_with_limits unlimited fuel roots.

(** ** Garbage collection *)
(** The distinct candidates, and those of them that are not live. *)
Definition sift_candidates (live : gset Cid) (candidates : list Cid) : outcome Error (gset Cid * Z * list Cid) :=
  foldM (λ (acc : gset Cid * Z * list Cid) cid,
    let '(seen, count, unreachable) := acc in
    if decide (cid ∈ seen) then Ok acc
    else
      count ← count_in count 1;
      Ok ({[cid]} ∪ seen, count, if decide (cid ∈ live) then unreachable else unreachable ++ [cid]))
    (∅, 0, []) candidates.

(** Candidates that the store has, their size, and how many it does not have. *)
Definition weigh_candidates (reads : list (Cid * option bytes)) : outcome Error (list Cid * Z * Z) :=
  foldM (λ '(cids, nbytes, missing) '(cid, value),
    match value with
    | Some b => nbytes ← count_in nbytes (len b); Ok (cids ++ [cid], nbytes, missing)
    | None => missing ← count_in missing 1; Ok (cids, nbytes, missing)
    end) ([], 0, 0) reads.

Definition plan_gc (fuel : nat) (roots : list Tree) (candidates : list Cid) : eng St GcPlan :=
  mark_reachable fuel roots ≫= λ reachability : GcReachability,
  run (sift_candidates (list_to_set (live_cids reachability)) candidates) ≫= λ sifted : gset Cid * Z * list Cid,
  let unreachable := sifted.2 in
  from_store (λ s : St, async_batch_get_ordered_unique_bounded s unreachable ASYNC_NODE_PREFETCH_BATCH_SIZE)
    ≫= λ values : list (option bytes),
  run (weigh_candidates (zip unreachable values)) ≫= λ weighed : list Cid * Z * Z,
  mret {| gp_reachability := reachability; candidate_nodes := sifted.1.2;
          reclaimable_cids := sort_cids weighed.1.1; reclaimable_nodes := len weighed.1.1;
          reclaimable_bytes := weighed.1.2; missing_candidates := weighed.2 |}.

(** The caches of the engine. *)
Definition clear_cache : eng St () := λ e,
  let '(evictions, cache) := cache_clear (en_cache e) in
  (Ok tt, {| en_store := en_store e; en_config := en_config e; en_execution := en_execution e; en_cache := cache;
             en_metrics := add_cache_evictions evictions (en_metrics e); en_recent_leaf := None |}).

Definition store_batch_ops (ops : list BatchOp) : eng St () := λ e,
  match store_batch (en_store e) ops with
  | Ok store => (Ok tt, with_store e store)
  | Err err => (Err err, e)
  | Panic msg => (Panic msg, e)
  end.

Definition sweep_gc (fuel : nat) (roots : list Tree) (candidates : list Cid) : eng St GcSweep :=
  plan_gc fuel roots candidates ≫= λ plan : GcPlan,
  (if bool_decide (reclaimable_cids plan = []) then mret tt
   else store_batch_ops (BatchDelete <$> reclaimable_cids plan) ≫= λ _, clear_cache) ≫= λ _,
  mret {| gs_plan := plan; deleted_nodes := reclaimable_nodes plan; deleted_bytes := reclaimable_bytes plan |}.

(** ** Synchronisation *)
Definition verify_node_bytes (expected : Cid) (b : bytes) : outcome Error () :=
  let actual := Cid_from_bytes b in
  if bool_decide (actual = expected) then Ok tt else Err (CidMismatch expected actual).

(** The required identifiers that the destination does not have. *)
Fixpoint absent_cids (reads : list (Cid * option bytes)) : outcome Error (list Cid) :=
  match reads with
  | [] => Ok []
  | (cid, Some b) :: reads' => verify_node_bytes cid b ≫= λ _, absent_cids reads'
  | (cid, None) :: reads' => rest ← absent_cids reads'; Ok (cid :: rest)
  end.

Fixpoint source_nodes (reads : list (Cid * option bytes)) (nbytes : Z) : outcome Error (Z * list (Cid * bytes)) :=
  match reads with
  | [] => Ok (nbytes, [])
  | (cid, value) :: reads' =>
      b ← ok_or (NotFound cid) value;
      verify_node_bytes cid b ≫= λ _,
      nbytes ← count_in nbytes (len b);
      rest ← source_nodes reads' nbytes;
      Ok (rest.1, (cid, b) :: rest.2)
  end.

Context {D : Type} `{Store D}.

Definition prepare_missing_nodes (fuel : nat) (tree : Tree) (destination : D) : eng St (MissingNodePlan * list (Cid * bytes)) :=
  mark_reachable fuel [tree] ≫= λ reachability : GcReachability,
  let required := live_cids reachability in
  if bool_decide (required = []) then
    mret ({| required_cids := required; required_nodes := live_nodes reachability;
             required_bytes := live_bytes reachability; missing_cids := []; missing_nodes := 0; missing_bytes := 0 |}, [])
  else
    run (async_batch_get_ordered_unique_bounded destination required ASYNC_NODE_PREFETCH_BATCH_SIZE)
      ≫= λ values : list (option bytes),
    run (absent_cids (zip required values)) ≫= λ missing : list Cid,
    from_store (λ s : St, async_batch_get_ordered_unique_bounded s missing ASYNC_NODE_PREFETCH_BATCH_SIZE)
      ≫= λ source_values : list (option bytes),
    run (source_nodes (zip missing source_values) 0) ≫= λ r : Z * list (Cid * bytes),
    mret ({| required_cids := required; required_nodes := live_nodes reachability;
             required_bytes := live_bytes reachability;
             missing_cids := missing; missing_nodes := len missing; missing_bytes := r.1 |}, r.2).

Definition plan_missing_nodes (fuel : nat) (tree : Tree) (destination : D) : eng St MissingNodePlan :=
  prepare_missing_nodes fuel tree destination ≫= λ r : MissingNodePlan * list (Cid * bytes), mret r.1.

(** The report and the destination. *)
Definition copy_missing_nodes (fuel : nat) (tree : Tree) (destination : D) : eng St (MissingNodeCopy * D) :=
  prepare_missing_nodes fuel tree destination ≫= λ r : MissingNodePlan * list (Cid * bytes),
  run (foldM (λ n (e : Cid * bytes), count_in n (len e.2)) 0 r.2) ≫= λ nbytes : Z,
  run (if bool_decide (r.2 = []) then Ok destination else publish_nodes destination r.2) ≫= λ destination : D,
  mret ({| mc_plan := r.1; copied_nodes := len r.2; copied_bytes := nbytes |}, destination).
End store.
End Reach.
