(* ===== verification/ReachSpec.v ===== *)
(** * What marking finds

    The traversal marks exactly the nodes that the given trees reach, each once, and ends
    after at most one round for each node of the store. *)

From Stdlib Require Import ZArith Lia Strings.Byte.
From stdpp Require Import base tactics numbers list strings option gmap sorting.
From S2P Require Import Prelude Cursor Types Format Node ReadNode Store NodeCache Emitter Builder Entries TreeSpec Engine EngineSpec BuiltTree Write WriteSpec Loader LoaderSpec TreeDiff TreeDiffSpec Reach.
Import Format Config Node ReadNode Store NodeCache Emitter Builder Entries TreeSpec Engine EngineSpec BuiltTree Write WriteSpec Loader LoaderSpec Reach.
Import TreeDiff(count_in, load_child_frontier_ordered_for_format, ASYNC_NODE_PREFETCH_BATCH_SIZE, slice_chunks).
Import TreeDiffSpec(nodes_of, frontier_for_ok, node_tree, subtree_node_tree, subtree_same, child_bytes_ok).

Local Open Scope Z_scope.

Module ReachSpec.

(** ** Reachable nodes *)
Section spec.
Context `{HashesOk} (st : gmap bytes bytes) (roots : list Tree).

Definition child_of (cid c : Cid) : Prop := ∃ n, stored_node st cid n ∧ leaf n = false ∧ c ∈ vals n.

Inductive reachable : Cid → Prop :=
| reach_root tree root : tree ∈ roots → t_root tree = Some root → reachable root
| reach_child cid c : reachable cid → child_of cid c → reachable c.

(** The store holds all the trees. *)
Definition held : Prop := ∀ tree, tree ∈ roots → ∃ h es, tree_holds st tree h es.

(** The nodes of the store fit the address space. *)
Definition fits (B : Z) : Prop :=
  1 ≤ B ∧ Z.of_nat (size st) * B ≤ usize_max ∧ (∀ cid b, st !! cid = Some b → len b ≤ B) ∧
  (∀ cid n z, stored_node st cid n → Node_encoded_len n = Ok z → 0 ≤ z ≤ B).

Definition weight (n : Node) : Z := match Node_encoded_len n with Ok z => z | _ => 0 end.
Definition total_weight (ns : list Node) : Z := foldr (λ n s, weight n + s) 0 ns.
Definition count_leaves (lf : bool) (ns : list Node) : Z := len (List.filter (λ n, eqb (leaf n) lf) ns).

Lemma total_snoc ns n : total_weight (ns ++ [n]) = total_weight ns + weight n.
Proof. induction ns as [|m ns IH]; cbn; [lia|]. unfold total_weight in IH. rewrite IH. lia. Qed.
Lemma count_snoc lf ns n : count_leaves lf (ns ++ [n]) = count_leaves lf ns + (if eqb (leaf n) lf then 1 else 0).
Proof. unfold count_leaves. rewrite List.filter_app, len_app. cbn. by destruct (eqb (leaf n) lf). Qed.
Lemma count_le lf ns : 0 ≤ count_leaves lf ns ≤ len ns.
Proof. unfold count_leaves. split; [apply len_nonneg|]. unfold len. pose proof (List.filter_length_le (λ n, eqb (leaf n) lf) ns). lia. Qed.

(** ** Sizes *)
Lemma stored_is_some cid n : stored_node st cid n → is_Some (st !! cid).
Proof. intros (b & Hb & _). by exists b. Qed.

Lemma distinct_le (cids : list Cid) : NoDup cids → (∀ c, c ∈ cids → is_Some (st !! c)) → (length cids ≤ size st)%nat.
Proof.
  intros Hnd Hin. rewrite <- size_dom. change (length cids ≤ size (dom st))%nat.
  rewrite <- (size_list_to_set (C := gset Cid) cids Hnd). apply subseteq_size. intros c Hc.
  apply elem_of_dom, Hin. by apply elem_of_list_to_set in Hc.
Qed.

(** A set of paths that is a function of the node. *)
Definition functional (X : gset (Cid * Cid)) : Prop :=
  ∀ c d, (c, d) ∈ X → ∃ n, stored_node st c n ∧ digest (format n) = Ok d.

Lemma functional_size X : functional X → (size X ≤ size st)%nat.
Proof.
  intros Hf. change (size X) with (length (elements X)). rewrite <- (length_fmap fst). apply distinct_le.
  - apply NoDup_fmap_2_strong; [|apply NoDup_elements]. intros [c d] [c' d'] H1 H2 Heq. cbn in Heq. subst c'.
    apply elem_of_elements in H1, H2. destruct (Hf _ _ H1) as (n & Hn & Hd), (Hf _ _ H2) as (n' & Hn' & Hd').
    rewrite (stored_node_unique _ _ _ _ Hn Hn') in Hd. congruence.
  - intros c ([c' d] & -> & Hin)%list_elem_of_fmap. apply elem_of_elements in Hin. destruct (Hf _ _ Hin) as (n & Hn & _).
    by eapply stored_is_some.
Qed.

Lemma total_le B cids ns : fits B → Forall2 (stored_node st) cids ns → total_weight ns ≤ Z.of_nat (length cids) * B.
Proof.
  intros (HB & _ & _ & Hw). induction 1 as [|c n cids ns Hn _ IH]; [done|]. cbn [total_weight foldr length].
  assert (weight n ≤ B). { unfold weight. destruct (Node_encoded_len n) eqn:Hz; [|lia..]. by apply (Hw c n). }
  unfold total_weight in IH. lia.
Qed.

(** ** The invariant of marking *)
(** [pend] are the nodes that a round has loaded and not yet looked at. *)
Record mk_inv (pend : list Cid) (m : Marking) : Prop := {
  mi_frontier cid f d : (cid, f, d) ∈ frontier m → reachable cid ∧ digest f = Ok d ∧ ∃ h es, subtree st f h cid es;
  mi_seen cid d : (cid, d) ∈ seen_paths m →
    (∃ n, stored_node st cid n ∧ digest (format n) = Ok d) ∧ (cid ∈ live_seen m ∨ cid ∈ pend ∨ ∃ f, (cid, f, d) ∈ frontier m);
  mi_live cid : cid ∈ live_seen m → reachable cid;
  mi_closed cid c : cid ∈ live_seen m → cid ∉ pend → child_of cid c → ∃ d, (c, d) ∈ seen_paths m;
  mi_list : NoDup (mk_live m) ∧ ∀ cid, cid ∈ mk_live m ↔ cid ∈ live_seen m;
  mi_counts : ∃ ns, Forall2 (stored_node st) (mk_live m) ns ∧ mk_bytes m = total_weight ns ∧
    mk_leaves m = count_leaves true ns ∧ mk_internals m = count_leaves false ns;
}.

(** What a step keeps, and the room it leaves. *)
Definition grows (m m' : Marking) : Prop :=
  seen_paths m ⊆ seen_paths m' ∧ live_seen m ⊆ live_seen m' ∧
  (length (frontier m') + size (seen_paths m) = length (frontier m) + size (seen_paths m'))%nat.

Lemma grows_refl m : grows m m.
Proof. done. Qed.
Lemma grows_trans m1 m2 m3 : grows m1 m2 → grows m2 m3 → grows m1 m3.
Proof. intros (? & ? & ?) (? & ? & ?). split; [by etransitivity|]. split; [by etransitivity|lia]. Qed.

Lemma inv_functional pend m : mk_inv pend m → functional (seen_paths m).
Proof. intros Hinv c d Hin. by apply (mi_seen _ _ Hinv). Qed.

Lemma inv_seen_size pend m : mk_inv pend m → (size (seen_paths m) ≤ size st)%nat.
Proof. intros Hinv. by eapply functional_size, inv_functional. Qed.

Definition good_path (cid : Cid) (f : TreeFormat) (d : Cid) : Prop :=
  reachable cid ∧ digest f = Ok d ∧ ∃ h es, subtree st f h cid es.

Lemma subtree_format f h cid es : subtree st f h cid es → ∃ n, stored_node st cid n ∧ format n = f.
Proof. intros Hs. destruct (subtree_node_tree st f h cid es Hs) as (n & Hn & (Hf & _) & _). by exists n. Qed.

Lemma mark_path_ok B pend cid f d m :
  fits B → mk_inv pend m → good_path cid f d →
  ∃ m', mark_path unlimited cid f d m = Ok m' ∧ mk_inv pend m' ∧ grows m m' ∧ (cid, d) ∈ seen_paths m' ∧ live_seen m' = live_seen m.
Proof.
  intros (HB & Hfit & _) Hinv (Hr & Hd & h & es & Hs). unfold mark_path. destruct (decide _) as [Hin|Hnin]; [by exists m|].
  destruct (subtree_format f h cid es Hs) as (n & Hn & Hfn).
  set (seen := {[(cid, d)]} ∪ seen_paths m).
  assert (functional seen) as Hfun.
  { intros c d' [Heq%elem_of_singleton|Hin]%elem_of_union; [|by apply (inv_functional _ _ Hinv)].
    injection Heq as -> ->. exists n. by rewrite Hfn. }
  pose proof (functional_size seen Hfun) as Hsize. unfold enforce_content_graph_limit. cbn [max_nodes unlimited].
  destruct (Z.ltb_spec usize_max (Z.of_nat (size seen))) as [Hlt|_]; [exfalso; nia|]. cbn [mbind outcome_bind].
  eexists. split; [done|]. split; [|split; [|split; [cbn; apply elem_of_union_l, elem_of_singleton_2; done|done]]].
  - destruct Hinv as [Hfr Hse Hli Hcl Hls Hco]. constructor; cbn [frontier seen_paths live_seen mk_live mk_bytes mk_leaves mk_internals]; [| | |  |done|done].
    + intros c g d' [Hin|Heq%list_elem_of_singleton]%elem_of_app; [by apply Hfr|]. injection Heq as -> -> ->. split; [done|]. split; [done|]. by exists h, es.
    + intros c d' Hin. split; [by apply Hfun|]. apply elem_of_union in Hin as [Heq%elem_of_singleton|Hin].
      * injection Heq as -> ->. right; right. exists f. apply elem_of_app. right. by left.
      * destruct (Hse c d' Hin) as [_ [?|[?|[g ?]]]]; [by left|by right; left|right; right]. exists g. apply elem_of_app. by left.
    + done.
    + intros c c' Hc Hp Hch. destruct (Hcl c c' Hc Hp Hch) as (d' & Hd'). exists d'. by apply elem_of_union_r.
  - split; [cbn; apply union_subseteq_r|]. split; [done|]. cbn [frontier seen_paths]. rewrite length_app. cbn [length].
    unfold seen. rewrite size_union by (apply disjoint_singleton_l; done). rewrite size_singleton. lia.
Qed.
(** The roots. *)
Lemma stored_digest cid n : stored_node st cid n → ∃ d, digest (format n) = Ok d.
Proof.
  intros (b & _ & _ & Hb & _). unfold to_bytes, try_to_bytes, to_compact_bytes, node_format_bytes in Hb. unfold digest.
  destruct (canonical_bytes (format n)) as [fb| |] eqn:Hc; [by eexists|..];
    (destruct (bool_decide (format n = TreeFormat_default)) eqn:Hd; [apply bool_decide_eq_true in Hd; rewrite Hd in Hc; vm_compute in Hc|]; done).
Qed.

Lemma mark_roots_ok B rs m :
  fits B → held → (∀ tree, tree ∈ rs → tree ∈ roots) → mk_inv [] m →
  ∃ m', foldM (mark_root unlimited) m rs = Ok m' ∧ mk_inv [] m' ∧ grows m m' ∧ live_seen m' = live_seen m ∧
    ∀ tree root, tree ∈ rs → t_root tree = Some root → ∃ d, (root, d) ∈ seen_paths m'.
Proof.
  intros Hfit Hheld. revert m; induction rs as [|tree rs IH]; intros m Hrs Hinv.
  { exists m. split; [done|]. split; [done|]. split; [done|]. split; [done|]. intros tree root Hin. by apply not_elem_of_nil in Hin. }
  assert (tree ∈ roots) as Htree by (apply Hrs; by left). cbn [foldM].
  assert (∃ m1, mark_root unlimited m tree = Ok m1 ∧ mk_inv [] m1 ∧ grows m m1 ∧ live_seen m1 = live_seen m ∧
    ∀ root, t_root tree = Some root → ∃ d, (root, d) ∈ seen_paths m1) as (m1 & -> & Hinv1 & Hg1 & Hl1 & Hr1).
  { unfold mark_root. destruct (t_root tree) as [root|] eqn:Hroot; [|by exists m].
    destruct (Hheld tree Htree) as (h & es & Hh). unfold tree_holds in Hh. rewrite Hroot in Hh. destruct Hh as [Hs _].
    destruct (subtree_format _ _ _ _ Hs) as (n & Hn & Hfn). destruct (stored_digest root n Hn) as (d & Hd). rewrite Hfn in Hd.
    rewrite Hd. cbn [mbind outcome_bind].
    destruct (mark_path_ok B [] root (Config.format (t_config tree)) d m Hfit Hinv) as (m' & Hm & Hi & Hg & Hin & Hl).
    { split; [by eapply reach_root|]. split; [done|]. by exists h, es. }
    exists m'. split; [done|]. split; [done|]. split; [done|]. split; [done|]. intros root' [= <-]. by exists d. }
  cbn [mbind outcome_bind]. destruct (IH m1) as (m2 & Hm2 & Hinv2 & Hg2 & Hl2 & Hr2); [intros t Ht; apply Hrs; by right|done|].
  exists m2. split; [done|]. split; [done|]. split; [by eapply grows_trans|]. split; [congruence|].
  intros t root [->|Hin]%elem_of_cons Hroot; [|by eapply Hr2]. destruct (Hr1 root Hroot) as (d' & Hd'). exists d'. by apply Hg2.
Qed.

(** A node that was loaded. *)
Lemma count_in_ok a b : a + b ≤ usize_max → count_in a b = Ok (a + b).
Proof. intros Hle. unfold count_in. destruct (Z.leb_spec (a + b) usize_max); [done|lia]. Qed.

Lemma stored_weight cid n : stored_node st cid n → Node_encoded_len n = Ok (weight n).
Proof. intros (b & _ & _ & Hb & _). destruct (encoded_len_ok n b Hb) as (z & Hz). unfold weight. by rewrite Hz. Qed.

Lemma mark_live_ok B pend cid n m :
  fits B → mk_inv pend m → cid ∈ pend → reachable cid → stored_node st cid n →
  ∃ m', mark_live unlimited cid n m = Ok m' ∧ mk_inv pend m' ∧ grows m m' ∧ cid ∈ live_seen m' ∧ seen_paths m' = seen_paths m.
Proof.
  intros Hfit Hinv Hpend Hr Hn. unfold mark_live. destruct (decide _) as [Hin|Hnin]; [by exists m|].
  rewrite (stored_weight cid n Hn). cbn [mbind outcome_bind].
  destruct (Hinv) as [Hfr Hse Hli Hcl [Hnd Hls] (ns & Hns & Hb & Hlv & Hiv)].
  assert (Forall2 (stored_node st) (mk_live m ++ [cid]) (ns ++ [n])) as Hns' by (apply Forall2_app; [done|by repeat constructor]).
  assert (NoDup (mk_live m ++ [cid])) as Hnd'.
  { apply NoDup_app. split; [done|]. split; [|apply NoDup_singleton]. intros c Hc ->%list_elem_of_singleton. by apply Hnin, Hls. }
  assert (length (mk_live m ++ [cid]) ≤ size st)%nat as Hlen.
  { apply distinct_le; [done|]. intros c Hc. destruct (list_elem_of_lookup_1 _ _ Hc) as [i Hi].
    destruct (Forall2_lookup_l _ _ _ _ _ Hns' Hi) as (x & _ & Hx). by eapply stored_is_some. }
  pose proof (total_le B _ _ Hfit Hns') as Htot. rewrite total_snoc, <- Hb in Htot. destruct Hfit as (HB & Hsize & _ & _).
  assert (mk_bytes m + weight n ≤ usize_max) as Hroom by nia.
  rewrite checked_add_le by done. cbn [ok_or mbind outcome_bind]. unfold enforce_content_graph_limit. cbn [max_node_bytes unlimited].
  destruct (Z.ltb_spec usize_max (mk_bytes m + weight n)) as [|_]; [lia|]. cbn [mbind outcome_bind].
  pose proof (Forall2_length _ _ _ Hns) as Hl. rewrite length_app in Hlen. cbn [length] in Hlen.
  pose proof (count_le true ns) as Hct. pose proof (count_le false ns) as Hcf. unfold len in Hct, Hcf.
  assert (Z.of_nat (length ns) + 1 ≤ usize_max) as Hcnt by nia.
  assert (∃ m', (leaves ← (if leaf n then count_in (mk_leaves m) 1 else Ok (mk_leaves m));
    internals ← (if leaf n then Ok (mk_internals m) else count_in (mk_internals m) 1);
    Ok {| seen_paths := seen_paths m; frontier := frontier m; live_seen := {[cid]} ∪ live_seen m; mk_live := mk_live m ++ [cid];
          mk_bytes := mk_bytes m + weight n; mk_leaves := leaves; mk_internals := internals |}) = Ok m' ∧
    m' = {| seen_paths := seen_paths m; frontier := frontier m; live_seen := {[cid]} ∪ live_seen m; mk_live := mk_live m ++ [cid];
          mk_bytes := total_weight (ns ++ [n]); mk_leaves := count_leaves true (ns ++ [n]);
          mk_internals := count_leaves false (ns ++ [n]) |}) as (m' & -> & Hm').
  { eexists. split; [|done]. rewrite total_snoc, !count_snoc, <- Hb, <- Hlv, <- Hiv.
    destruct (leaf n); rewrite count_in_ok by lia; cbn [mbind outcome_bind eqb]; by rewrite Z.add_0_r. }
  exists m'. split; [done|]. subst m'. split; [|split; [|split; [cbn; by apply elem_of_union_l, elem_of_singleton_2|done]]].
  - constructor; cbn [frontier seen_paths live_seen mk_live mk_bytes mk_leaves mk_internals]; [done| | | | |by exists (ns ++ [n])].
    + intros c d Hin. destruct (Hse c d Hin) as [? [?|?]]; split; [done|left; by apply elem_of_union_r|done|by right].
    + intros c [->%elem_of_singleton|Hin]%elem_of_union; [done|by apply Hli].
    + intros c c' [->%elem_of_singleton|Hin]%elem_of_union Hp; [done|by apply Hcl].
    + split; [done|]. intros c. rewrite elem_of_app, list_elem_of_singleton, elem_of_union, elem_of_singleton, Hls. tauto.
  - split; [done|]. split; [cbn; apply union_subseteq_r|done].
Qed.
(** The children of a node. *)
Lemma child_cid_at_ok f h n subs i c :
  Forall2 (subtree st f h) (vals n) subs → vals n !! i = Some c → child_cid_at n i = Ok c.
Proof.
  intros Hs Hc. unfold child_cid_at. rewrite Hc. cbn [ok_or mbind outcome_bind].
  destruct (Forall2_lookup_l _ _ _ _ _ Hs Hc) as (sub & _ & Hsub). by rewrite (subtree_cid _ _ _ _ _ Hsub).
Qed.

Lemma mark_children_loop B f h cid n subs d pend i k m :
  fits B → mk_inv pend m → reachable cid → stored_node st cid n → leaf n = false →
  Forall2 (subtree st f h) (vals n) subs → digest f = Ok d → (i + k ≤ length (vals n))%nat →
  ∃ m', foldM (λ m idx, child_cid ← child_cid_at n idx; mark_path unlimited child_cid f d m) m (seq i k) = Ok m' ∧
    mk_inv pend m' ∧ grows m m' ∧ live_seen m' = live_seen m ∧ ∀ j c, (i ≤ j < i + k)%nat → vals n !! j = Some c → (c, d) ∈ seen_paths m'.
Proof.
  intros Hfit Hinv Hr Hn Hlf Hs Hd. revert i m Hinv; induction k as [|k IH]; intros i m Hinv Hle.
  { exists m. split; [done|]. split; [done|]. split; [done|]. split; [done|]. intros; lia. }
  cbn [seq foldM]. destruct (lookup_lt_is_Some_2 (vals n) i) as [c Hc]; [lia|]. rewrite (child_cid_at_ok f h n subs i c Hs Hc).
  cbn [mbind outcome_bind]. destruct (Forall2_lookup_l _ _ _ _ _ Hs Hc) as (sub & _ & Hsub).
  destruct (mark_path_ok B pend c f d m Hfit Hinv) as (m1 & -> & Hinv1 & Hg1 & Hin1 & Hl1).
  { split; [|split; [done|by exists h, sub]]. apply (reach_child cid); [done|]. exists n. split; [done|]. split; [done|].
    by eapply list_elem_of_lookup_2. }
  cbn [mbind outcome_bind]. destruct (IH (S i) m1 Hinv1) as (m2 & -> & Hinv2 & Hg2 & Hl2 & Hall); [lia|].
  exists m2. split; [done|]. split; [done|]. split; [by eapply grows_trans|]. split; [congruence|].
  intros j c' Hj Hc'. destruct (decide (j = i)) as [->|]; [|apply (Hall j); [lia|done]].
  rewrite Hc in Hc'. injection Hc' as <-. by apply Hg2.
Qed.

(** A node is done: it is live, and its children were seen. *)
Lemma mk_inv_done cid pend m :
  mk_inv (cid :: pend) m → cid ∈ live_seen m → (∀ c, child_of cid c → ∃ d, (c, d) ∈ seen_paths m) → mk_inv pend m.
Proof.
  intros [Hfr Hse Hli Hcl Hls Hco] Hlive Hch. constructor; [done| |done| |done|done].
  - intros c d Hin. destruct (Hse c d Hin) as [? [?|[[->|?]%elem_of_cons|?]]]; (split; [done|]); [by left|by left|by right; left|by right; right].
  - intros c c' Hc Hp Hcc. destruct (decide (c = cid)) as [->|Hne]; [by apply Hch|]. apply (Hcl c c'); [done| |done].
    by intros [->|?]%elem_of_cons.
Qed.

Lemma mark_node_ok B f d cid n h es pend m :
  fits B → mk_inv (cid :: pend) m → reachable cid → digest f = Ok d → subtree st f h cid es → stored_node st cid n →
  ∃ m', mark_node unlimited f m (cid, n) = Ok m' ∧ mk_inv pend m' ∧ grows m m'.
Proof.
  intros Hfit Hinv Hr Hd Hs Hn. destruct (subtree_node_tree st f h cid es Hs) as (n' & Hn' & (Hf & _ & _ & Hlen) & Htree).
  rewrite (stored_node_unique _ _ _ _ Hn' Hn) in *. clear n' Hn'. unfold mark_node. cbn [fst snd].
  rewrite Hlen, Nat.eqb_refl. cbn [negb].
  destruct (mark_live_ok B (cid :: pend) cid n m Hfit Hinv) as (m1 & -> & Hinv1 & Hg1 & Hin1 & Hse1); [by left|done|done|].
  cbn [mbind outcome_bind]. destruct h as [|h].
  - destruct Htree as [Hlf _]. rewrite Hlf. exists m1. split; [done|]. split; [|done]. apply (mk_inv_done cid); [done|done|].
    intros c (n' & Hn' & Hlf' & _). rewrite (stored_node_unique _ _ _ _ Hn' Hn) in Hlf'. congruence.
  - destruct Htree as (Hlf & subs & Hsubs & _ & _). rewrite Hlf. unfold mark_children. rewrite Hd. cbn [mbind outcome_bind].
    destruct (mark_children_loop B f h cid n subs d (cid :: pend) 0 (length (keys n)) m1 Hfit Hinv1 Hr Hn Hlf Hsubs Hd)
      as (m2 & -> & Hinv2 & Hg2 & Hl2 & Hall); [lia|].
    exists m2. split; [done|]. split; [|by eapply grows_trans]. apply (mk_inv_done cid); [done|by rewrite Hl2|].
    intros c (n' & Hn' & _ & Hc). rewrite (stored_node_unique _ _ _ _ Hn' Hn) in Hc. apply list_elem_of_lookup in Hc as [j Hj].
    exists d. apply (Hall j); [|done]. pose proof (lookup_lt_Some _ _ _ Hj). lia.
Qed.

(** A round. *)
Lemma mark_nodes_ok B f d cids ns m :
  fits B → digest f = Ok d → mk_inv cids m → Forall2 (stored_node st) cids ns →
  Forall (λ cid, reachable cid ∧ ∃ h es, subtree st f h cid es) cids →
  ∃ m', foldM (mark_node unlimited f) m (zip cids ns) = Ok m' ∧ mk_inv [] m' ∧ grows m m'.
Proof.
  intros Hfit Hd Hinv Hns. revert m Hinv; induction Hns as [|cid n cids ns Hn _ IH]; intros m Hinv Hall; [by exists m|].
  apply Forall_cons_1 in Hall as [(Hr & h & es & Hs) Hall]. cbn [zip zip_with foldM].
  destruct (mark_node_ok B f d cid n h es cids m Hfit Hinv Hr Hd Hs Hn) as (m1 & -> & Hinv1 & Hg1). cbn [mbind outcome_bind].
  destruct (IH m1 Hinv1 Hall) as (m2 & Hm2 & Hinv2 & Hg2). exists m2. split; [done|]. split; [done|]. by eapply grows_trans.
Qed.

(** Taking the paths of one format off the frontier. *)
Definition in_format (f : TreeFormat) (p : Cid * TreeFormat * Cid) : bool := bool_decide (p.1.2 = f).
Definition current (f : TreeFormat) (m : Marking) : list Cid :=
  (λ p : Cid * TreeFormat * Cid, p.1.1) <$> List.filter (in_format f) (frontier m).
Definition deferred (f : TreeFormat) (m : Marking) : Marking := set_frontier m (List.filter (λ p, negb (in_format f p)) (frontier m)).

Lemma split_inv f m : mk_inv [] m → mk_inv (current f m) (deferred f m).
Proof.
  intros [Hfr Hse Hli Hcl Hls Hco].
  constructor; cbn [deferred set_frontier frontier seen_paths live_seen mk_live mk_bytes mk_leaves mk_internals]; [| |done| |done|done].
  - intros c g d Hin%list_elem_of_In%filter_In. apply Hfr. apply list_elem_of_In, Hin.
  - intros c d Hin. destruct (Hse c d Hin) as [? [?|[?%not_elem_of_nil|[g Hg]]]]; (split; [done|]); [by left|done|]. right.
    destruct (in_format f (c, g, d)) eqn:Hf; [left|right].
    + apply list_elem_of_fmap. exists (c, g, d). split; [done|]. apply list_elem_of_In, filter_In. split; [by apply list_elem_of_In|done].
    + exists g. apply list_elem_of_In, filter_In. split; [by apply list_elem_of_In|]. by rewrite Hf.
  - intros c c' Hc _ Hch. apply (Hcl c c'); [done|apply not_elem_of_nil|done].
Qed.

Lemma split_length {A} (p : A → bool) (l : list A) :
  length l = (length (List.filter p l) + length (List.filter (λ x, negb (p x)) l))%nat.
Proof. induction l as [|x l IH]; [done|]. cbn [List.filter length]. destruct (p x); cbn [negb length]; lia. Qed.

Lemma current_paths f d m : mk_inv [] m → digest f = Ok d → Forall (λ cid, reachable cid ∧ ∃ h es, subtree st f h cid es) (current f m).
Proof.
  intros Hinv Hd. apply Forall_forall. intros cid ([[c g] d'] & -> & Hin)%list_elem_of_fmap.
  apply list_elem_of_In, filter_In in Hin as [Hin%list_elem_of_In Hf]. unfold in_format in Hf. cbn in Hf.
  apply bool_decide_eq_true in Hf as ->. destruct (mi_frontier _ _ Hinv c f d' Hin) as (Hr & _ & Hs). done.
Qed.
End spec.

Section loop.
Context `{HashesOk} {St : Type} `{StoreOk St} (st : gmap bytes bytes) (roots : list Tree).
Implicit Types e : ProllyEngine St.

Lemma paths_nodes f cids :
  Forall (λ cid, reachable st roots cid ∧ ∃ h es, subtree st f h cid es) cids → ∃ ns, nodes_of st f cids ns.
Proof.
  induction 1 as [|cid cids (_ & h & es & Hs) _ (ns & Hns & Hf)]; [by exists []; split|].
  destruct (subtree_format st f h cid es Hs) as (n & Hn & Hfn). exists (n :: ns). split; by constructor.
Qed.

(** Every round takes a path off the frontier, and a path comes on it only once. *)
Lemma mark_loop_ok g B fuel m e :
  fits st B → engine_manages g st e → mk_inv st roots [] m →
  (length (frontier m) + (size st - size (seen_paths m)) < fuel)%nat →
  ∃ m' e', mark_loop unlimited fuel m e = (Ok m', e') ∧ engine_manages g st e' ∧ mk_inv st roots [] m' ∧
    seen_paths m ⊆ seen_paths m' ∧ frontier m' = [].
Proof.
  intros Hfit. revert m e; induction fuel as [|fuel IH]; intros m e He Hinv Hfuel; [lia|]. cbn [mark_loop].
  destruct (frontier m) as [|[[c f] d] rest] eqn:Hfr; [by exists m, e|]. rewrite <- Hfr.
  change (List.filter (λ p, negb _) (frontier m)) with (List.filter (λ p, negb (in_format f p)) (frontier m)).
  change (fmap _ (List.filter _ (frontier m))) with (current f m).
  destruct (mi_frontier _ _ _ _ Hinv c f d) as (_ & Hd & _); [rewrite Hfr; left|].
  pose proof (current_paths st roots f d m Hinv Hd) as Hpaths. destruct (paths_nodes f _ Hpaths) as (ns & Hns).
  destruct (frontier_for_ok st f g (current f m) ns e He Hns) as (e1 & Hl & He1). rewrite (action_bind_Ok _ _ _ _ _ Hl).
  destruct (mark_nodes_ok st roots B f d (current f m) ns (deferred f m) Hfit Hd (split_inv st roots f m Hinv) (proj1 Hns) Hpaths)
    as (m1 & Hm1 & Hinv1 & Hse & Hli & Hgrow).
  rewrite (action_bind_Ok (run _) _ e1 m1 e1) by (unfold run; fold (deferred f m); by rewrite Hm1).
  cbn [deferred set_frontier frontier seen_paths] in Hse, Hgrow.
  pose proof (split_length (in_format f) (frontier m)) as Hsplit.
  assert (0 < length (List.filter (in_format f) (frontier m)))%nat as Hpos.
  { rewrite Hfr. cbn [List.filter]. unfold in_format at 1. cbn. rewrite bool_decide_eq_true_2 by done. cbn. lia. }
  pose proof (inv_seen_size st roots [] m1 Hinv1) as Hsz. pose proof (inv_seen_size st roots [] m Hinv) as Hsz0.
  destruct (IH m1 e1 He1 Hinv1) as (m2 & e2 & Hr & He2 & Hinv2 & Hse2 & Hfr2).
  { apply subseteq_size in Hse. rewrite Hfr in *. lia. }
  exists m2, e2. split; [done|]. split; [done|]. split; [done|]. split; [by etransitivity|done].
Qed.

(** ** The report *)
Definition reports (r : GcReachability) : Prop :=
  (∀ cid, cid ∈ live_cids r ↔ reachable st roots cid) ∧ StronglySorted ble (live_cids r) ∧ NoDup (live_cids r) ∧
  live_nodes r = len (live_cids r) ∧
  ∃ cids ns, cids ≡ₚ live_cids r ∧ Forall2 (stored_node st) cids ns ∧ live_bytes r = total_weight ns ∧
    leaf_nodes r = count_leaves true ns ∧ internal_nodes r = count_leaves false ns.

Lemma inv_empty : mk_inv st roots [] Marking_empty.
Proof.
  constructor; cbn; [by intros cid f d ?%not_elem_of_nil|by intros|by intros|by intros| |by exists []].
  split; [constructor|]. intros cid. by rewrite elem_of_nil, elem_of_empty.
Qed.

Lemma mark_ok g B fuel e :
  fits st B → held st roots → engine_manages g st e → (size st < fuel)%nat →
  ∃ r e', mark_reachable fuel roots e = (Ok r, e') ∧ engine_manages g st e' ∧ reports r.
Proof.
  intros Hfit Hheld He Hfuel. unfold mark_reachable, mark_reachable_with_limits. cbn [max_nodes max_node_bytes unlimited].
  change (usize_max =? 0) with false. cbn [orb].
  destruct (mark_roots_ok st roots B roots Marking_empty Hfit Hheld (λ t Ht, Ht) inv_empty) as (m & Hm & Hinv & (_ & _ & Hg) & _ & Hroots).
  rewrite (action_bind_Ok (run _) _ e m e) by (unfold run; by rewrite Hm). cbn [Marking_empty frontier seen_paths length] in Hg.
  rewrite size_empty in Hg. pose proof (inv_seen_size st roots [] m Hinv) as Hsz.
  destruct (mark_loop_ok g B fuel m e Hfit He Hinv) as (m' & e' & Hl & He' & Hinv' & Hse & Hfr); [lia|].
  rewrite (action_bind_Ok _ _ _ _ _ Hl). eexists _, e'. split; [done|]. split; [done|].
  destruct Hinv' as [_ Hseen Hli Hcl [Hnd Hls] (ns & Hns & Hb & Hlv & Hiv)].
  assert (∀ cid d, (cid, d) ∈ seen_paths m' → cid ∈ live_seen m') as Hdone.
  { intros cid d Hin. destruct (Hseen cid d Hin) as [_ [?|[?%not_elem_of_nil|[f Hf]]]]; [done|done|].
    rewrite Hfr in Hf. by apply not_elem_of_nil in Hf. }
  pose proof (merge_sort_Permutation ble (mk_live m')) as Hperm.
  split; [|split; [|split; [|split]]]; cbn [live_cids live_nodes live_bytes leaf_nodes internal_nodes].
  - intros cid. unfold sort_cids. rewrite Hperm, Hls. split; [apply Hli|]. induction 1 as [tree root Ht Hr|c c' _ IH Hch].
    + destruct (Hroots tree root Ht Hr) as (d & Hd). eapply Hdone, Hse, Hd.
    + destruct (Hcl c c' IH (not_elem_of_nil c) Hch) as (d & Hd). by eapply Hdone.
  - apply StronglySorted_merge_sort.
    + intros a b c. apply ble_trans.
    + intros a b. destruct (bltb a b) eqn:Hab; [left; apply blt_le; by apply bltb_lt|right; by apply bltb_ge].
  - unfold sort_cids. by rewrite Hperm.
  - unfold len, sort_cids. by rewrite Hperm.
  - exists (mk_live m'), ns. split; [by symmetry|done].
Qed.
End loop.
End ReachSpec.
