(* ===== verification/ReachContract.v ===== *)
(** * The contract of garbage collection and synchronisation

    A sweep deletes exactly the candidates that no retained tree reaches, so that every
    retained tree is read as before; and after a copy the destination holds the tree. *)

From Stdlib Require Import ZArith Lia Strings.Byte.
From stdpp Require Import base tactics numbers list strings option gmap sorting.
From S2P Require Import Prelude Cursor Types Format Node ReadNode ChunkSpec Store NodeCache Emitter Builder Entries BuilderSpec TreeSpec Engine EngineSpec BuiltTree Write WriteSpec RebuildSpec Loader LoaderSpec CanonicalWrite ProofContract TreeDiff TreeDiffSpec TreeDiffContract Reach ReachSpec.
Import Format Config Node ReadNode ChunkSpec Store NodeCache Emitter Builder Entries BuilderSpec TreeSpec Engine EngineSpec BuiltTree Write WriteSpec RebuildSpec Loader LoaderSpec CanonicalWrite ProofContract TreeDiffContract Reach ReachSpec.
Import TreeDiff(count_in, ASYNC_NODE_PREFETCH_BATCH_SIZE, slice_chunks).

Local Open Scope Z_scope.

Module ReachContract.

(** ** Reads in batches *)
Lemma slice_chunks_concat {A} fuel n (l : list A) : (0 < n)%nat → (length l ≤ fuel)%nat → concat (slice_chunks fuel n l) = l.
Proof.
  intros Hn. revert l; induction fuel as [|fuel IH]; intros l Hle; [destruct l; [done|cbn in Hle; lia]|].
  destruct l as [|x l]; [done|]. cbn [slice_chunks concat]. rewrite IH; [apply take_drop|]. rewrite length_drop. cbn [length] in *. lia.
Qed.

Section reads.
Context {St : Type} `{StoreOk St}.

Lemma read_batches_ok (store : St) batches :
  read_batches store batches = Ok ((λ k, contents store !! k) <$> concat batches).
Proof.
  induction batches as [|batch batches IH]; [done|]. cbn [read_batches]. rewrite batch_unique_ok. cbn [mbind outcome_bind].
  rewrite length_fmap, Nat.eqb_refl. cbn [negb]. rewrite IH. cbn [mbind outcome_bind concat]. by rewrite fmap_app.
Qed.

Lemma bounded_read_ok (store : St) ks n :
  async_batch_get_ordered_unique_bounded store ks n = Ok ((λ k, contents store !! k) <$> ks).
Proof.
  unfold async_batch_get_ordered_unique_bounded. case_bool_decide as Hnil; [by subst|]. cbv zeta.
  destruct (len ks <=? _).
  - rewrite batch_unique_ok. cbn [mbind outcome_bind]. by rewrite length_fmap, Nat.eqb_refl.
  - rewrite read_batches_ok, slice_chunks_concat; [done|lia|lia].
Qed.
End reads.

(** ** Candidates *)
Section candidates.
Implicit Types (live seen : gset Cid) (l : list Cid) (x : Cid).

Lemma cons_seen x seen l : x ∈ seen → list_to_set (x :: l) ∪ seen = list_to_set l ∪ seen.
Proof. set_solver. Qed.
Lemma cons_unseen x seen l : list_to_set (x :: l) ∪ seen = list_to_set l ∪ ({[x]} ∪ seen).
Proof. set_solver. Qed.
Lemma new_seen x seen l : x ∈ seen → list_to_set (x :: l) ∖ seen = (list_to_set l ∖ seen : gset Cid).
Proof. set_solver. Qed.
Lemma new_unseen x seen l : x ∉ seen → size (list_to_set (x :: l) ∖ seen : gset Cid) = S (size (list_to_set l ∖ ({[x]} ∪ seen) : gset Cid)).
Proof.
  intros Hx. replace (list_to_set (x :: l) ∖ seen) with ({[x]} ∪ (list_to_set l ∖ ({[x]} ∪ seen)) : gset Cid).
  - rewrite size_union by set_solver. by rewrite size_singleton.
  - apply set_eq. intros y. destruct (decide (y = x)) as [->|]; set_solver.
Qed.

(** What one candidate after another adds. *)
Lemma sift_from live l seen count (unreachable : list Cid) :
  count + len l ≤ usize_max →
  ∃ fresh,
    foldM (λ (acc : gset Cid * Z * list Cid) cid,
      let '(seen, count, unreachable) := acc in
      if decide (cid ∈ seen) then Ok acc
      else
        count ← count_in count 1;
        Ok ({[cid]} ∪ seen, count, if decide (cid ∈ live) then unreachable else unreachable ++ [cid]))
      (seen, count, unreachable) l
    = Ok (list_to_set l ∪ seen, count + Z.of_nat (size (list_to_set l ∖ seen : gset Cid)), unreachable ++ fresh) ∧
    NoDup fresh ∧ ∀ c, c ∈ fresh ↔ c ∈ l ∧ c ∉ live ∧ c ∉ seen.
Proof.
  revert seen count unreachable; induction l as [|x l IH]; intros seen count unreachable Hle; cbn [foldM].
  { exists []. rewrite app_nil_r, list_to_set_nil, union_empty_l_L, empty_difference_L, size_empty, Z.add_0_r by set_solver.
    split; [done|]. split; [constructor|]. set_solver. }
  change (len (x :: l)) with (Z.of_nat (S (length l))) in Hle. unfold len in IH. destruct (decide (x ∈ seen)) as [Hin|Hnin].
  - cbn [mbind outcome_bind]. rewrite cons_seen, new_seen by done.
    destruct (IH seen count unreachable) as (fresh & -> & Hnd & Hf); [lia|]. exists fresh. split; [done|]. split; [done|].
    intros c. rewrite Hf, elem_of_cons. naive_solver.
  - rewrite count_in_ok by lia. cbn [mbind outcome_bind]. rewrite cons_unseen, new_unseen by done.
    replace (count + Z.of_nat (S _)) with (count + 1 + Z.of_nat (size (list_to_set l ∖ ({[x]} ∪ seen) : gset Cid))) by lia.
    destruct (decide (x ∈ live)) as [Hx|Hx].
    + destruct (IH ({[x]} ∪ seen) (count + 1) unreachable) as (fresh & -> & Hnd & Hf); [lia|]. exists fresh. split; [done|]. split; [done|].
      intros c. rewrite Hf, elem_of_cons, not_elem_of_union, not_elem_of_singleton. naive_solver.
    + destruct (IH ({[x]} ∪ seen) (count + 1) (unreachable ++ [x])) as (fresh & -> & Hnd & Hf); [lia|].
      exists (x :: fresh). rewrite <- app_assoc. split; [done|]. split.
      * constructor; [|done]. rewrite Hf, not_elem_of_union, not_elem_of_singleton. naive_solver.
      * intros c. rewrite !elem_of_cons, Hf, not_elem_of_union, not_elem_of_singleton.
        destruct (decide (c = x)) as [->|]; naive_solver.
Qed.

Lemma sift_ok live l :
  len l ≤ usize_max →
  ∃ unreachable, sift_candidates live l = Ok (list_to_set l, Z.of_nat (size (list_to_set l : gset Cid)), unreachable) ∧
    NoDup unreachable ∧ ∀ c, c ∈ unreachable ↔ c ∈ l ∧ c ∉ live.
Proof.
  intros Hle. destruct (sift_from live l ∅ 0 []) as (fresh & Hs & Hnd & Hf); [lia|].
  rewrite union_empty_r_L, difference_empty_L in Hs. exists fresh. split; [exact Hs|]. split; [done|].
  intros x. rewrite Hf. set_solver.
Qed.
End candidates.

Definition in_store (st : gmap bytes bytes) (cid : Cid) : bool := bool_decide (is_Some (st !! cid)).

(** What is in a store is not more than the store holds. *)
Lemma present_le `{HashesOk} st (cids : list Cid) :
  NoDup cids → (length (List.filter (in_store st) cids) ≤ size st)%nat.
Proof.
  intros Hnd. apply distinct_le.
  - by apply NoDup_ListNoDup, List.NoDup_filter, NoDup_ListNoDup.
  - intros c Hc. apply list_elem_of_In, filter_In in Hc as [_ Hc]. by apply bool_decide_eq_true in Hc.
Qed.
(** The bytes that a store has under some identifiers. *)
Definition stored_bytes (st : gmap bytes bytes) (cids : list Cid) : Z :=
  foldr (λ c s, len (default [] (st !! c)) + s) 0 cids.

Lemma stored_bytes_nonneg st cids : 0 ≤ stored_bytes st cids.
Proof. induction cids as [|c cids IH]; cbn; [lia|]. pose proof (len_nonneg (default [] (st !! c))). unfold stored_bytes in IH. lia. Qed.

Lemma stored_bytes_le `{HashesOk} st B cids : fits st B → NoDup cids → stored_bytes st cids ≤ usize_max.
Proof.
  intros (HB & Hsize & Hlen & _) Hnd. pose proof (present_le st cids Hnd) as Hle.
  assert (stored_bytes st cids ≤ Z.of_nat (length (List.filter (in_store st) cids)) * B) as Hb; [|nia].
  clear -HB Hlen. induction cids as [|c cids IH]; [done|]. cbn [stored_bytes foldr List.filter]. unfold in_store at 1.
  unfold stored_bytes in IH. destruct (st !! c) as [b|] eqn:Hc.
  - rewrite bool_decide_eq_true_2 by done. cbn [length default]. pose proof (Hlen c b Hc). cbn. lia.
  - rewrite bool_decide_eq_false_2 by (intros [? ?]; congruence). cbn [default]. change (len (@nil byte)) with 0. lia.
Qed.

Lemma weigh_from st cids (cs : list Cid) nbytes missing :
  0 ≤ nbytes → nbytes + stored_bytes st cids ≤ usize_max → missing + len cids ≤ usize_max →
  foldM (λ '(cids, nbytes, missing) '(cid, value),
    match value with
    | Some b => nbytes ← count_in nbytes (len b); Ok (cids ++ [cid], nbytes, missing)
    | None => missing ← count_in missing 1; Ok (cids, nbytes, missing)
    end) (cs, nbytes, missing) (zip cids ((λ k, st !! k) <$> cids))
  = Ok (cs ++ List.filter (in_store st) cids, nbytes + stored_bytes st cids,
        missing + (len cids - len (List.filter (in_store st) cids))).
Proof.
  revert cs nbytes missing; induction cids as [|c cids IH]; intros cs nbytes missing Hn Hb Hm.
  { cbn. rewrite app_nil_r. f_equal; f_equal; [f_equal|]; lia. }
  cbn [stored_bytes foldr] in Hb. fold (stored_bytes st cids) in Hb. pose proof (stored_bytes_nonneg st cids) as Hnn.
  change (len (c :: cids)) with (Z.of_nat (S (length cids))) in *. unfold len in IH.
  cbn [fmap list_fmap zip zip_with foldM List.filter stored_bytes foldr].
  fold (stored_bytes st cids). destruct (st !! c) as [b|] eqn:Hc; cbn [default] in Hb.
  - assert (in_store st c = true) as -> by (apply bool_decide_eq_true_2; by rewrite Hc). pose proof (len_nonneg b). cbn in Hb. rewrite count_in_ok by lia. cbn [mbind outcome_bind].
    rewrite IH by lia. rewrite <- app_assoc. cbn [app default id]. unfold len. cbn [length]. f_equal; f_equal; [f_equal|]; lia.
  - assert (in_store st c = false) as -> by (apply bool_decide_eq_false_2; rewrite Hc; by intros [? ?]). rewrite count_in_ok by lia. cbn [mbind outcome_bind].
    rewrite IH by (try change (len (@nil byte)) with 0 in Hb; lia). cbn [default]. unfold len. cbn [length]. f_equal. f_equal. lia.
Qed.

(** ** Deletion *)
Lemma deletes_lookup st (cids : list Cid) k :
  foldl apply_op st (BatchDelete <$> cids) !! k = if decide (k ∈ cids) then None else st !! k.
Proof.
  revert st; induction cids as [|c cids IH]; intros st; [by rewrite decide_False by apply not_elem_of_nil|].
  cbn [fmap list_fmap foldl apply_op]. rewrite IH. destruct (decide (k ∈ cids)) as [Hin|Hnin].
  - by rewrite decide_True by (by right).
  - destruct (decide (k = c)) as [->|Hne].
    + rewrite decide_True by (by left). apply lookup_delete_eq.
    + rewrite decide_False by (by intros [?|?]%elem_of_cons). by apply lookup_delete_ne.
Qed.

(** A tree needs only what it reaches. *)
Lemma subtree_keep `{HashesOk} st st' roots f h cid es :
  (∀ c, reachable st roots c → st' !! c = st !! c) → reachable st roots cid → subtree st f h cid es → subtree st' f h cid es.
Proof.
  intros Hkeep. revert cid es; induction h as [|h IH]; intros cid es Hr (n & Hn & Hshape & Hes).
  all: assert (stored_node st' cid n) as Hn' by (destruct Hn as (b & Hb & Hrest); exists b; split; [by rewrite Hkeep|exact Hrest]).
  all: exists n; split; [done|]; split; [done|].
  - done.
  - destruct Hes as (Hlf & subs & Hs & Hk & ->). split; [done|]. exists subs. split; [|done].
    apply Forall2_lookup. intros i. pose proof (proj1 (Forall2_lookup _ _ _) Hs i) as Hi.
    destruct (vals n !! i) as [c|] eqn:Hc; inversion Hi as [? sub Hsub|]; constructor. apply IH; [|done].
    apply (reach_child _ _ cid); [done|]. exists n. split; [done|]. split; [done|]. by eapply list_elem_of_lookup_2.
Qed.

Lemma tree_keep `{HashesOk} st st' roots tree h es :
  (∀ c, reachable st roots c → st' !! c = st !! c) → tree ∈ roots → tree_holds st tree h es → tree_holds st' tree h es.
Proof.
  intros Hkeep Hin Hh. unfold tree_holds in *. destruct (t_root tree) as [root|] eqn:Hr; [|done].
  destruct Hh as [Hs Ha]. split; [|done]. eapply subtree_keep; [exact Hkeep| |done]. by eapply reach_root.
Qed.

(** ** Plans *)
Section gc.
Context `{HashesOk} {St : Type} `{StoreOk St}.
Context (st : gmap bytes bytes) (roots : list Tree) (B : Z) (Hfit : fits st B) (Hheld : held st roots).
Implicit Types e : ProllyEngine St.

(** The plan names the candidates that the store has and no retained tree reaches. *)
Definition plans (candidates : list Cid) (plan : GcPlan) : Prop :=
  reports st roots (gp_reachability plan) ∧
  (∀ cid, cid ∈ reclaimable_cids plan ↔ cid ∈ candidates ∧ ¬ reachable st roots cid ∧ is_Some (st !! cid)) ∧
  NoDup (reclaimable_cids plan) ∧ reclaimable_nodes plan = len (reclaimable_cids plan) ∧
  candidate_nodes plan = Z.of_nat (size (list_to_set candidates : gset Cid)).

Lemma gc_plan_ok g fuel candidates e :
  engine_manages g st e → (size st < fuel)%nat → len candidates ≤ usize_max →
  ∃ plan e', plan_gc fuel roots candidates e = (Ok plan, e') ∧ engine_manages g st e' ∧ plans candidates plan.
Proof.
  intros He Hfuel Hlen. unfold plan_gc. destruct (mark_ok st roots g B fuel e Hfit Hheld He Hfuel) as (r & e1 & Hm & He1 & Hr).
  rewrite (action_bind_Ok _ _ _ _ _ Hm).
  destruct (sift_ok (list_to_set (live_cids r)) candidates Hlen) as (un & Hs & Hnd & Hun).
  rewrite (action_bind_Ok (run _) _ e1 _ e1) by (unfold run; by rewrite Hs). cbn [snd fst].
  rewrite (action_bind_Ok (from_store _) _ e1 ((λ k, st !! k) <$> un) e1)
    by (unfold from_store; rewrite bounded_read_ok; destruct He1 as [[-> _ _] _]; done).
  pose proof (stored_bytes_le st B un Hfit Hnd) as Hbytes. pose proof (stored_bytes_nonneg st un) as Hnn.
  assert (len un ≤ usize_max) as Hulen.
  { unfold len in *. assert (length un ≤ length candidates)%nat; [|lia]. apply submseteq_length, NoDup_submseteq; [done|].
    intros c Hc. by apply Hun in Hc as [? _]. }
  rewrite (action_bind_Ok (run _) _ e1 _ e1) by (unfold run, weigh_candidates; rewrite weigh_from by lia; reflexivity).
  eexists _, e1. split; [done|]. split; [done|]. cbn [fst snd app].
  pose proof (merge_sort_Permutation ble (List.filter (in_store st) un)) as Hperm.
  split; [done|]. split; [|split; [|split]]; cbn [reclaimable_cids reclaimable_nodes candidate_nodes gp_reachability]; [| | |done].
  - intros cid. unfold sort_cids. rewrite Hperm. rewrite list_elem_of_In, filter_In, <- list_elem_of_In, Hun.
    unfold in_store. rewrite bool_decide_eq_true, elem_of_list_to_set, (proj1 Hr). tauto.
  - unfold sort_cids. rewrite Hperm. by apply NoDup_ListNoDup, List.NoDup_filter, NoDup_ListNoDup.
  - unfold len, sort_cids. by rewrite Hperm.
Qed.
(** Deleting and clearing. *)
Lemma clear_cache_ok g st' e :
  contents (en_store e) = st' → Config.format (en_config e) = g →
  ∃ e', clear_cache e = (Ok tt, e') ∧ engine_manages g st' e'.
Proof.
  intros Hs Hg. unfold clear_cache, cache_clear. eexists. split; [done|]. split; [|done]. constructor; [done| |done].
  intros cid entry Hin. cbn in Hin. by apply lookup_empty_Some in Hin.
Qed.

Lemma sweep_ok g fuel candidates e :
  engine_manages g st e → (size st < fuel)%nat → len candidates ≤ usize_max →
  ∃ sweep e', sweep_gc fuel roots candidates e = (Ok sweep, e') ∧ plans candidates (gs_plan sweep) ∧
    deleted_nodes sweep = len (reclaimable_cids (gs_plan sweep)) ∧
    engine_manages g (foldl apply_op st (BatchDelete <$> reclaimable_cids (gs_plan sweep))) e'.
Proof.
  intros He Hfuel Hlen. unfold sweep_gc. destruct (gc_plan_ok g fuel candidates e He Hfuel Hlen) as (plan & e1 & Hp & He1 & Hplan).
  rewrite (action_bind_Ok _ _ _ _ _ Hp). pose proof (proj1 (proj2 (proj2 (proj2 Hplan)))) as Hcount.
  case_bool_decide as Hnil.
  - rewrite (action_bind_Ok _ _ e1 tt e1) by done. eexists _, e1. split; [done|]. cbn [gs_plan deleted_nodes]. split; [done|].
    split; [done|]. by rewrite Hnil.
  - destruct (He1) as [[Hs _ _] Hg].
    destruct (batch_ok (en_store e1) (BatchDelete <$> reclaimable_cids plan)) as (store & Hb & Hc). rewrite Hs in Hc.
    destruct (clear_cache_ok g _ (with_store e1 store) Hc Hg) as (e2 & Hcl & He2).
    rewrite (action_bind_Ok _ _ e1 tt e2).
    + eexists _, e2. split; [done|]. cbn [gs_plan deleted_nodes]. split; [done|]. by split.
    + rewrite (action_bind_Ok _ _ e1 tt (with_store e1 store)) by (unfold store_batch_ops; by rewrite Hb). done.
Qed.
End gc.

(** ** Copies *)
Section sync.
Context `{HashesOk}.

(** Nodes under other bytes with their identifier. *)
Definition agrees (st : gmap bytes bytes) (roots : list Tree) (dst : gmap bytes bytes) : Prop :=
  ∀ cid b b', reachable st roots cid → st !! cid = Some b → dst !! cid = Some b' → Cid_from_bytes b' = cid → b' = b.

Lemma absent_ok dst cids :
  (absent_cids (zip cids ((λ k, dst !! k) <$> cids)) = Ok (List.filter (λ c, negb (in_store dst c)) cids) ∧
   ∀ c b, c ∈ cids → dst !! c = Some b → Cid_from_bytes b = c) ∨
  ∃ c b, c ∈ cids ∧ dst !! c = Some b ∧ Cid_from_bytes b ≠ c ∧
    absent_cids (zip cids ((λ k, dst !! k) <$> cids)) = Err (CidMismatch c (Cid_from_bytes b)).
Proof.
  induction cids as [|c cids IH]; [left; split; [done|]; by intros c b ?%not_elem_of_nil|].
  cbn [fmap list_fmap zip zip_with absent_cids List.filter]. unfold in_store at 1. destruct (dst !! c) as [b|] eqn:Hc.
  - rewrite bool_decide_eq_true_2 by done. cbn [negb]. unfold verify_node_bytes. case_bool_decide as Hcid; cbn [mbind outcome_bind].
    + destruct IH as [[-> Hall]|(c' & b' & Hin & Hb' & Hne & ->)]; [left|right].
      * split; [done|]. intros c' b' [->|Hin]%elem_of_cons Hb'; [congruence|by apply Hall].
      * exists c', b'. split; [by right|done].
    + right. exists c, b. split; [by left|done].
  - rewrite bool_decide_eq_false_2 by (by intros [? ?]). cbn [negb].
    destruct IH as [[-> Hall]|(c' & b' & Hin & Hb' & Hne & ->)]; cbn [mbind outcome_bind]; [left|right].
    + split; [done|]. intros c' b' [->|Hin]%elem_of_cons Hb'; [congruence|by apply Hall].
    + exists c', b'. split; [by right|done].
Qed.

(** The nodes of some identifiers. *)
Definition nodes_under (st : gmap bytes bytes) (cids : list Cid) : list (Cid * bytes) := (λ c, (c, default [] (st !! c))) <$> cids.

Lemma source_ok st cids nbytes :
  0 ≤ nbytes → nbytes + stored_bytes st cids ≤ usize_max → (∀ c, c ∈ cids → ∃ b, st !! c = Some b ∧ Cid_from_bytes b = c) →
  source_nodes (zip cids ((λ k, st !! k) <$> cids)) nbytes = Ok (nbytes + stored_bytes st cids, nodes_under st cids).
Proof.
  revert nbytes; induction cids as [|c cids IH]; intros nbytes Hn Hb Hall.
  { cbn. do 2 f_equal. lia. }
  destruct (Hall c) as (b & Hc & Hcid); [by left|]. cbn [fmap list_fmap zip zip_with source_nodes nodes_under stored_bytes foldr] in *.
  rewrite Hc in *. cbn [default ok_or mbind outcome_bind] in *. unfold verify_node_bytes. rewrite Hcid, bool_decide_eq_true_2 by done.
  cbn [mbind outcome_bind]. fold (stored_bytes st cids) in *. pose proof (stored_bytes_nonneg st cids). pose proof (len_nonneg b).
  cbn in Hb. rewrite count_in_ok by lia. cbn [mbind outcome_bind]. rewrite IH; [|lia|lia|intros c' Hc'; apply Hall; by right].
  cbn [mbind outcome_bind fst snd id]. unfold nodes_under. do 2 f_equal. lia.
Qed.

Lemma sum_under st cids nbytes :
  0 ≤ nbytes → nbytes + stored_bytes st cids ≤ usize_max →
  foldM (λ n (e : Cid * bytes), count_in n (len e.2)) nbytes (nodes_under st cids) = Ok (nbytes + stored_bytes st cids).
Proof.
  revert nbytes; induction cids as [|c cids IH]; intros nbytes Hn Hb; [cbn; f_equal; lia|].
  cbn [nodes_under fmap list_fmap foldM stored_bytes foldr snd] in *. fold (stored_bytes st cids) in *.
  pose proof (stored_bytes_nonneg st cids). pose proof (len_nonneg (default [] (st !! c))).
  rewrite count_in_ok by lia. cbn [mbind outcome_bind]. rewrite IH by lia. f_equal. lia.
Qed.

Lemma under_lookup st cids dst c :
  put_all (nodes_under st cids) dst !! c = if decide (c ∈ cids) then Some (default [] (st !! c)) else dst !! c.
Proof.
  destruct (decide (c ∈ cids)) as [Hin|Hnin].
  - apply put_all_elem.
    + apply list_elem_of_fmap. by exists c.
    + intros v (c' & [= -> ->] & _)%list_elem_of_fmap. done.
  - apply put_all_miss. intros ([c' v] & -> & (c'' & [= -> ->] & Hin)%list_elem_of_fmap)%list_elem_of_fmap. done.
Qed.

(** What the destination lacked is put into it. *)
Lemma copied_holds st dst tree h es cids :
  tree_holds st tree h es → agrees st [tree] dst →
  (∀ c, c ∈ cids ↔ reachable st [tree] c ∧ dst !! c = None) →
  (∀ c b, reachable st [tree] c → dst !! c = Some b → Cid_from_bytes b = c) →
  (∀ c, reachable st [tree] c → is_Some (st !! c)) →
  tree_holds (put_all (nodes_under st cids) dst) tree h es.
Proof.
  intros Hh Hag Hin Hok Hst. apply (tree_keep st _ [tree]); [|by left|done]. intros c Hc. rewrite under_lookup.
  destruct (Hst c Hc) as [b Hb]. destruct (decide _) as [_|Hn]; [by rewrite Hb|]. rewrite Hin in Hn.
  destruct (dst !! c) as [b'|] eqn:Hd; [|destruct Hn; by split]. rewrite Hb. f_equal. by eapply Hag, Hok.
Qed.

Lemma reachable_stored st roots c : held st roots → reachable st roots c → ∃ f h es, subtree st f h c es.
Proof.
  intros Hheld. induction 1 as [tree root Ht Hr|cid c Hr IH (n & Hn & Hlf & Hc)].
  - destruct (Hheld tree Ht) as (h & es & Hh). unfold tree_holds in Hh. rewrite Hr in Hh. destruct Hh as [Hs _]. by eexists _, _, _.
  - destruct IH as (f & h & es & Hs). destruct (TreeDiffSpec.subtree_node_tree st f h cid es Hs) as (n' & Hn' & _ & Htree).
    rewrite (stored_node_unique _ _ _ _ Hn' Hn) in Htree. destruct h as [|h]; [destruct Htree; congruence|].
    destruct Htree as (_ & subs & Hsubs & _). apply list_elem_of_lookup in Hc as [i Hi].
    destruct (Forall2_lookup_l _ _ _ _ _ Hsubs Hi) as (sub & _ & Hsub). by eexists f, h, sub.
Qed.

Lemma reachable_bytes st roots c : held st roots → reachable st roots c → ∃ b, st !! c = Some b ∧ Cid_from_bytes b = c.
Proof.
  intros Hheld Hc. destruct (reachable_stored st roots c Hheld Hc) as (f & h & es & Hs).
  destruct (subtree_format st f h c es Hs) as (n & (b & Hb & Hcid & _) & _). by exists b.
Qed.
End sync.

Lemma sweep_exact `{HashesOk} {St} `{StoreOk St} st roots B g fuel candidates (e : ProllyEngine St) :
  fits st B → held st roots → engine_manages g st e → (size st < fuel)%nat → len candidates ≤ usize_max →
  ∃ sweep e' st', sweep_gc fuel roots candidates e = (Ok sweep, e') ∧ engine_manages g st' e' ∧
    plans st roots candidates (gs_plan sweep) ∧ deleted_nodes sweep = len (reclaimable_cids (gs_plan sweep)) ∧
    (∀ cid, cid ∈ candidates → ¬ reachable st roots cid → st' !! cid = None) ∧
    (∀ cid, reachable st roots cid ∨ cid ∉ candidates → st' !! cid = st !! cid) ∧
    (∀ tree h es, tree ∈ roots → tree_holds st tree h es → tree_holds st' tree h es).
Proof.
  intros Hfit Hheld He Hfuel Hlen.
  destruct (sweep_ok st roots B Hfit Hheld g fuel candidates e He Hfuel Hlen) as (sweep & e' & Hs & Hplan & Hdel & He').
  exists sweep, e', (foldl apply_op st (BatchDelete <$> reclaimable_cids (gs_plan sweep))).
  split; [done|]. split; [done|]. split; [done|]. split; [done|]. pose proof (proj1 (proj2 Hplan)) as Hin.
  assert (∀ cid, reachable st roots cid ∨ cid ∉ candidates →
    foldl apply_op st (BatchDelete <$> reclaimable_cids (gs_plan sweep)) !! cid = st !! cid) as Hkeep.
  { intros cid Hc. rewrite deletes_lookup, decide_False; [done|]. rewrite Hin. tauto. }
  split; [|split; [done|]].
  - intros cid Hc Hr. rewrite deletes_lookup. destruct (decide _) as [|Hn]; [done|]. rewrite Hin in Hn.
    destruct (st !! cid) as [b|] eqn:Hb; [|done]. destruct Hn. by split.
  - intros tree h es Ht Hh. apply (tree_keep st _ roots); [|done|done]. intros c Hc. apply Hkeep. by left.
Qed.

(** C15. Garbage collection deletes exactly what no retained tree reaches: a sweep over any
    candidates succeeds, deletes the candidates that are unreachable from the retained
    roots and nothing else, and leaves every retained tree with all its entries and an
    engine whose caches agree with what is left. *)
Theorem gc_sweep_exact `{HashesOk} {St} `{StoreOk St} st roots B g fuel candidates (e : ProllyEngine St) :
  fits st B → held st roots → engine_manages g st e → (size st < fuel)%nat → len candidates ≤ usize_max →
  ∃ sweep e' st', sweep_gc fuel roots candidates e = (Ok sweep, e') ∧ engine_manages g st' e' ∧
    plans st roots candidates (gs_plan sweep) ∧ deleted_nodes sweep = len (reclaimable_cids (gs_plan sweep)) ∧
    (∀ cid, cid ∈ candidates → ¬ reachable st roots cid → st' !! cid = None) ∧
    (∀ cid, reachable st roots cid ∨ cid ∉ candidates → st' !! cid = st !! cid) ∧
    (∀ tree h es, tree ∈ roots → tree_holds st tree h es → tree_holds st' tree h es).
Proof. apply sweep_exact. Qed.

(** The copy of one tree. *)
Section copy.
Context `{HashesOk} {St : Type} `{StoreOk St} {D : Type} `{StoreOk D}.
Context (st : gmap bytes bytes) (tree : Tree) (h : nat) (es : list kv) (B : Z).
Context (Hfit : fits st B) (Hh : tree_holds st tree h es).
Implicit Types (e : ProllyEngine St) (dest : D).

Lemma one_held : held st [tree].
Proof. intros t ->%list_elem_of_singleton. by exists h, es. Qed.

(** The copy ends with the missing nodes, or at a node that the destination has wrong. *)
Definition lacking (dst : gmap bytes bytes) (cids : list Cid) : Prop :=
  NoDup cids ∧ ∀ c, c ∈ cids ↔ reachable st [tree] c ∧ dst !! c = None.

Lemma prepare_ok g fuel dest e :
  engine_manages g st e → (size st < fuel)%nat →
  (∃ plan e', prepare_missing_nodes fuel tree dest e = (Ok (plan, nodes_under st (missing_cids plan)), e') ∧
     engine_manages g st e' ∧ lacking (contents dest) (missing_cids plan) ∧
     ∀ c b, reachable st [tree] c → contents dest !! c = Some b → Cid_from_bytes b = c) ∨
  (∃ cid b e', reachable st [tree] cid ∧ contents dest !! cid = Some b ∧ Cid_from_bytes b ≠ cid ∧
     prepare_missing_nodes fuel tree dest e = (Err (CidMismatch cid (Cid_from_bytes b)), e')).
Proof.
  intros He Hfuel. unfold prepare_missing_nodes.
  destruct (mark_ok st [tree] g B fuel e Hfit one_held He Hfuel) as (r & e1 & Hm & He1 & Hlive & _ & Hnd & _).
  rewrite (action_bind_Ok _ _ _ _ _ Hm). case_bool_decide as Hnil.
  { left. exists {| required_cids := live_cids r; required_nodes := live_nodes r; required_bytes := live_bytes r;
                    missing_cids := []; missing_nodes := 0; missing_bytes := 0 |}, e1.
    split; [done|]. split; [done|]. cbn [missing_cids]. rewrite Hnil in Hlive.
    assert (∀ c, ¬ reachable st [tree] c) as Hno by (intros c Hc%Hlive; by apply not_elem_of_nil in Hc). split; [split|].
    - constructor.
    - intros c. split; [by intros ?%not_elem_of_nil|]. intros [Hc _]. by destruct (Hno c).
    - intros c b Hc. by destruct (Hno c). }
  rewrite (action_bind_Ok (run _) _ e1 ((λ k, contents dest !! k) <$> live_cids r) e1) by (unfold run; by rewrite bounded_read_ok).
  destruct (absent_ok (contents dest) (live_cids r)) as [[Hab Hall]|(c & b & Hin & Hb & Hne & Hab)].
  - left. set (missing := List.filter _ _) in Hab. rewrite (action_bind_Ok (run _) _ e1 missing e1) by (unfold run; by rewrite Hab).
    rewrite (action_bind_Ok (from_store _) _ e1 ((λ k, st !! k) <$> missing) e1)
      by (unfold from_store; rewrite bounded_read_ok; destruct He1 as [[-> _ _] _]; done).
    assert (lacking (contents dest) missing) as [Hndm Hinm].
    { split; [by apply NoDup_ListNoDup, List.NoDup_filter, NoDup_ListNoDup|]. intros c. unfold missing.
      rewrite list_elem_of_In, filter_In, <- list_elem_of_In, Hlive. unfold in_store.
      rewrite negb_true_iff, bool_decide_eq_false, <- eq_None_not_Some. done. }
    pose proof (stored_bytes_le st B missing Hfit Hndm).
    rewrite (action_bind_Ok (run _) _ e1 (0 + stored_bytes st missing, nodes_under st missing) e1).
    2: { unfold run. rewrite source_ok; [done|lia|lia|]. intros c [Hc _]%Hinm. by apply (reachable_bytes st [tree] c one_held). }
    exists {| required_cids := live_cids r; required_nodes := live_nodes r; required_bytes := live_bytes r;
              missing_cids := missing; missing_nodes := len missing; missing_bytes := 0 + stored_bytes st missing |}, e1.
    split; [done|]. split; [done|]. cbn [missing_cids fst snd]. split; [done|].
    intros c b Hc%Hlive. by apply Hall.
  - right. exists c, b, e1. split; [by apply Hlive|]. split; [done|]. split; [done|]. unfold run. by rewrite Hab.
Qed.
End copy.

(** C16. A copy makes the destination hold the tree: the nodes that it lacks are exactly the
    reachable ones that it does not have; afterwards the destination has these, with
    the bytes of the source, and under every other identifier what it had before, and
    the tree is held by it with the same entries; unless a node that the destination
    has does not match its identifier, which is reported. *)
Theorem copy_missing_exact `{HashesOk} {St} `{StoreOk St} {D} `{StoreOk D} st tree h es B g fuel (dest : D) (e : ProllyEngine St) :
  fits st B → tree_holds st tree h es → engine_manages g st e → (size st < fuel)%nat → agrees st [tree] (contents dest) →
  (∃ copy dest' e', copy_missing_nodes fuel tree dest e = (Ok (copy, dest'), e') ∧ engine_manages g st e' ∧
     lacking st tree (contents dest) (missing_cids (mc_plan copy)) ∧ copied_nodes copy = len (missing_cids (mc_plan copy)) ∧
     (∀ c, contents dest' !! c = if decide (c ∈ missing_cids (mc_plan copy)) then st !! c else contents dest !! c) ∧
     tree_holds (contents dest') tree h es) ∨
  (∃ cid b e', reachable st [tree] cid ∧ contents dest !! cid = Some b ∧ Cid_from_bytes b ≠ cid ∧
     copy_missing_nodes fuel tree dest e = (Err (CidMismatch cid (Cid_from_bytes b)), e')).
Proof.
  intros Hfit Hh He Hfuel Hag. unfold copy_missing_nodes.
  destruct (prepare_ok st tree h es B Hfit Hh g fuel dest e He Hfuel) as [(plan & e1 & Hp & He1 & [Hnd Hin] & Hok)|(c & b & e1 & Hc & Hb & Hne & Hp)].
  2: { right. exists c, b, e1. split; [done|]. split; [done|]. split; [done|]. by rewrite (action_bind_Err _ _ _ _ _ Hp). }
  left. rewrite (action_bind_Ok _ _ _ _ _ Hp). cbn [fst snd]. set (cids := missing_cids plan) in *.
  pose proof (stored_bytes_le st B cids Hfit Hnd).
  rewrite (action_bind_Ok (run _) _ e1 (0 + stored_bytes st cids) e1) by (unfold run; rewrite sum_under by lia; done).
  assert (∃ dest', (if bool_decide (nodes_under st cids = []) then Ok dest else publish_nodes dest (nodes_under st cids)) = Ok dest' ∧
    contents dest' = put_all (nodes_under st cids) (contents dest)) as (dest' & Hpub & Hcont).
  { case_bool_decide as Hnil; [rewrite Hnil; by exists dest|]. apply batch_put_ok. }
  rewrite (action_bind_Ok (run _) _ e1 dest' e1) by (unfold run; by rewrite Hpub).
  eexists _, dest', e1. split; [done|]. split; [done|]. cbn [mc_plan copied_nodes]. split; [done|]. split.
  { unfold len, nodes_under. by rewrite length_fmap. }
  assert (∀ c, reachable st [tree] c → is_Some (st !! c)) as Hsrc.
  { intros c Hc. destruct (reachable_bytes st [tree] c (one_held st tree h es Hh) Hc) as (b & Hb & _). by exists b. }
  rewrite Hcont. split; [|by apply copied_holds]. intros c. fold cids. rewrite under_lookup.
  destruct (decide (c ∈ cids)) as [[Hc _]%Hin|]; [|done]. by destruct (Hsrc c Hc) as [b ->].
Qed.

(** ** Witnesses *)
#[local] Existing Instance sample_hashes.
#[local] Existing Instance sample_hashes_ok.

Definition fits_entry (B : Z) (x : bytes * bytes) : bool :=
  (len x.2 <=? B) &&
  match from_bytes x.2 with
  | Ok n => match Node_encoded_len n with Ok z => (0 <=? z) && (z <=? B) | _ => true end
  | _ => true
  end.

Lemma fits_check st B :
  (1 <=? B) && (Z.of_nat (size st) * B <=? usize_max) && forallb (fits_entry B) (map_to_list st) = true → fits st B.
Proof.
  rewrite !andb_true_iff, !Z.leb_le, forallb_forall. intros [[HB Hsize] Hall].
  assert (∀ cid b, st !! cid = Some b → fits_entry B (cid, b) = true) as He.
  { intros cid b Hb. apply Hall, list_elem_of_In. by apply elem_of_map_to_list. }
  split; [done|]. split; [done|]. split.
  - intros cid b Hb. specialize (He cid b Hb). unfold fits_entry in He. apply andb_true_iff in He as [He _]. by apply Z.leb_le in He.
  - intros cid n z (b & Hb & _ & _ & Hfrom & _) Hz. specialize (He cid b Hb). unfold fits_entry in He. cbn [snd] in He.
    rewrite Hfrom, Hz in He. apply andb_true_iff in He as [_ He]. by rewrite andb_true_iff, !Z.leb_le in He.
Qed.

Lemma versions_fit : fits sample_versions 1000.
Proof. apply fits_check. vm_compute. reflexivity. Qed.

Lemma new_version_holds : ∃ h, tree_holds sample_versions sample_new h sample_es'.
Proof.
  destruct sample_write_input as [_ _ _ _ _ _ _ Hasc' Hfit' _ _ _].
  destruct (version_holds sample_es' sample_written.1 sample_written.2) as (h & Hh);
    [done|done|exact sample_es_spec'|set_solver|by exists h].
Qed.

Lemma versions_size : (size sample_versions < 100)%nat.
Proof. apply Nat.ltb_lt. vm_compute. reflexivity. Qed.

(** The old version is collected, the new one is retained. *)
Definition old_cids : list Cid := fst <$> (stored (Config.format (sample_config 2 2)) <$> sample_built.2).

Lemma gc_sweep_exact_witness :
  ∃ sweep e' st', sweep_gc 100 [sample_new] old_cids versions_engine = (Ok sweep, e') ∧
    engine_manages (Config.format (sample_config 2 2)) st' e' ∧
    plans sample_versions [sample_new] old_cids (gs_plan sweep) ∧
    deleted_nodes sweep = len (reclaimable_cids (gs_plan sweep)) ∧
    (∀ cid, cid ∈ old_cids → ¬ reachable sample_versions [sample_new] cid → st' !! cid = None) ∧
    (∀ cid, reachable sample_versions [sample_new] cid ∨ cid ∉ old_cids → st' !! cid = sample_versions !! cid) ∧
    (∀ tree h es, tree ∈ [sample_new] → tree_holds sample_versions tree h es → tree_holds st' tree h es).
Proof.
  apply (gc_sweep_exact sample_versions [sample_new] 1000 (Config.format (sample_config 2 2)) 100 old_cids versions_engine
    versions_fit); [|exact versions_engine_manages|exact versions_size|].
  - intros t ->%list_elem_of_singleton. destruct new_version_holds as (h & Hh). by exists h, sample_es'.
  - apply Z.leb_le. vm_compute. reflexivity.
Defined.

Definition within (a b : gmap bytes bytes) : bool := forallb (λ x, bool_decide (b !! x.1 = Some x.2)) (map_to_list a).

Lemma within_ok a b : within a b = true → a ⊆ b.
Proof.
  unfold within. rewrite forallb_forall. intros Hall. apply map_subseteq_spec. intros k v Hv.
  apply (bool_decide_eq_true_1 _), (Hall (k, v)), list_elem_of_In. by apply elem_of_map_to_list.
Qed.

Lemma old_within : sample_store ⊆ sample_versions.
Proof. apply within_ok. vm_compute. reflexivity. Qed.

Lemma copy_missing_exact_witness :
  ∃ h, (∃ copy dest' e', copy_missing_nodes 100 sample_new {| ms_data := sample_store |} versions_engine = (Ok (copy, dest'), e') ∧
     engine_manages (Config.format (sample_config 2 2)) sample_versions e' ∧
     lacking sample_versions sample_new sample_store (missing_cids (mc_plan copy)) ∧
     copied_nodes copy = len (missing_cids (mc_plan copy)) ∧
     (∀ c, contents dest' !! c = if decide (c ∈ missing_cids (mc_plan copy)) then sample_versions !! c else sample_store !! c) ∧
     tree_holds (contents dest') sample_new h sample_es') ∨
  (∃ cid b e', reachable sample_versions [sample_new] cid ∧ sample_store !! cid = Some b ∧ Cid_from_bytes b ≠ cid ∧
     copy_missing_nodes 100 sample_new {| ms_data := sample_store |} versions_engine = (Err (CidMismatch cid (Cid_from_bytes b)), e')).
Proof.
  destruct new_version_holds as (h & Hh). exists h.
  assert (agrees sample_versions [sample_new] sample_store) as Hag.
  { intros cid b b' _ Hb Hb' _. pose proof (lookup_weaken _ _ _ _ Hb' old_within) as Hb2. congruence. }
  pose proof (copy_missing_exact sample_versions sample_new h sample_es' 1000 (Config.format (sample_config 2 2)) 100
    ({| ms_data := sample_store |} : MemStore) versions_engine versions_fit Hh versions_engine_manages versions_size) as Hcopy.
  exact (Hcopy Hag).
Defined.

End ReachContract.
