(* ===== verification/Manifest.v ===== *)
(** * Named roots (src/prolly/manifest.rs, store/memory.rs, mod.rs)

    Manifests give durable names to trees.  A manifest store keeps them beside the
    nodes and updates one name atomically; the operations of the engine load, list,
    publish and compare-and-swap trees by name, and select the names that a retention
    policy keeps.  Timestamps are arguments; the system clock is not modelled. *)

From Stdlib Require Import ZArith Lia Strings.Byte.
From stdpp Require Import base tactics numbers list strings option gmap sorting.
From S2P Require Import Prelude Cursor Types Format Node Store NodeCache Emitter Builder Engine Write Loader Reach.

Import Format Config Node Store NodeCache Emitter Builder Engine Write Loader Reach.

Local Open Scope Z_scope.

Module Manifest.

Global Instance RuntimeConfig_eq_dec : EqDecision RuntimeConfig.
Proof. solve_decision. Defined.
Global Instance Config_eq_dec : EqDecision Config.
Proof. solve_decision. Defined.
Global Instance Tree_eq_dec : EqDecision Tree.
Proof. solve_decision. Defined.

(** ** Manifests *)
Record RootManifest := {
  mf_root : option Cid;
  mf_config : Config;
  created_at_millis : option Z;
  updated_at_millis : option Z;
}.
Global Instance RootManifest_eq_dec : EqDecision RootManifest.
Proof. solve_decision. Defined.

Definition RootManifest_new (root : option Cid) (config : Config) : RootManifest :=
  {| mf_root := root; mf_config := config; created_at_millis := None; updated_at_millis := None |}.
Definition with_timestamps_millis (self : RootManifest) (created updated : option Z) : RootManifest :=
  {| mf_root := mf_root self; mf_config := mf_config self; created_at_millis := created; updated_at_millis := updated |}.
Definition with_created_at_millis (self : RootManifest) (created : Z) : RootManifest :=
  with_timestamps_millis self (Some created) (updated_at_millis self).
Definition with_updated_at_millis (self : RootManifest) (updated : Z) : RootManifest :=
  with_timestamps_millis self (created_at_millis self) (Some updated).
Definition from_tree_with_timestamps_millis (tree : Tree) (created updated : option Z) : RootManifest :=
  {| mf_root := t_root tree; mf_config := t_config tree; created_at_millis := created; updated_at_millis := updated |}.
Definition from_tree (tree : Tree) : RootManifest := from_tree_with_timestamps_millis tree None None.
Definition into_tree (self : RootManifest) : Tree := {| t_root := mf_root self; t_config := mf_config self |}.

(** The payload that is serialised, with its version. *)
Definition ROOT_MANIFEST_VERSION : Z := 1.
Record RootManifestWire := {
  wire_version : Z;
  wire_root : option Cid;
  wire_config : Config;
  wire_created : option Z;
  wire_updated : option Z;
}.

Section wire.
(** The encoder and the decoder of serde_cbor for the payload. *)
Context (to_vec_packed : RootManifestWire → outcome string bytes) (from_slice : bytes → outcome string RootManifestWire).

Definition RootManifest_to_bytes (self : RootManifest) : outcome Error bytes :=
  map_err Deserialize (to_vec_packed {|
    wire_version := ROOT_MANIFEST_VERSION; wire_root := mf_root self; wire_config := mf_config self;
    wire_created := created_at_millis self; wire_updated := updated_at_millis self |}).

Definition RootManifest_from_bytes (b : bytes) : outcome Error RootManifest :=
  wire ← map_err Deserialize (from_slice b);
  if negb (wire_version wire =? ROOT_MANIFEST_VERSION) then Err (Deserialize "unsupported root manifest version")
  else Ok {| mf_root := wire_root wire; mf_config := wire_config wire;
             created_at_millis := wire_created wire; updated_at_millis := wire_updated wire |}.
End wire.

Record NamedRootManifest := { nm_name : bytes; nm_manifest : RootManifest }.
Record NamedRootManifestPage := { mp_roots : list NamedRootManifest; mp_next_after : option bytes }.
Record NamedRoot := { nr_name : bytes; nr_tree : Tree }.
Definition into_named_root (self : NamedRootManifest) : NamedRoot :=
  {| nr_name := nm_name self; nr_tree := into_tree (nm_manifest self) |}.

Record NamedRootSelection := { sel_roots : list NamedRoot; sel_missing_names : list bytes }.
Definition is_complete (self : NamedRootSelection) : bool := bool_decide (sel_missing_names self = []).
Definition trees (self : NamedRootSelection) : list Tree := nr_tree <$> sel_roots self.

(** [sort_by] on the names. *)
Definition name_le (a b : NamedRootManifest) : Prop := ble (nm_name a) (nm_name b).
Global Instance name_le_dec : RelDecision name_le.
Proof. intros a b. unfold name_le. apply _. Defined.
Definition sort_named_root_manifests : list NamedRootManifest → list NamedRootManifest := merge_sort name_le.

(** ** Retention policies *)
Inductive NamedRootRetention :=
| RetainAll
| RetainExact (names : list bytes)
| RetainPrefix (prefix : bytes)
| RetainNewestByName (prefix : bytes) (count : Z)
| RetainUpdatedSince (prefix : bytes) (min_updated_at_millis : Z).

Definition updated_within_millis (prefix : bytes) (now_millis window_millis : Z) : NamedRootRetention :=
  RetainUpdatedSince prefix (saturating_sub now_millis window_millis).
Definition updated_within (prefix : bytes) (now_millis max_age_millis : Z) : NamedRootRetention :=
  updated_within_millis prefix now_millis (Z.min max_age_millis u64_max).
Definition updated_within_days (prefix : bytes) (now_millis days : Z) : NamedRootRetention :=
  updated_within_millis prefix now_millis (saturating_mul u64_max days 86400000).

(** ** Updates *)
Inductive ManifestUpdate :=
| MU_Applied
| MU_Conflict (current : option RootManifest).

Inductive NamedRootUpdate :=
| NR_Applied
| NR_Conflict (current : option Tree).

Definition NamedRootUpdate_from (update : ManifestUpdate) : NamedRootUpdate :=
  match update with
  | MU_Applied => NR_Applied
  | MU_Conflict current => NR_Conflict (into_tree <$> current)
  end.

(** ** Manifest stores *)
Class ManifestStore (R : Type) := {
  get_root : bytes → action R (option RootManifest);
  put_root : bytes → RootManifest → action R ();
  delete_root : bytes → action R ();
  compare_and_swap_root : bytes → option RootManifest → option RootManifest → action R ManifestUpdate;
  get_roots_ordered : list bytes → action R (list (option RootManifest));
}.
Class ManifestStoreScan (R : Type) := { list_roots : action R (list NamedRootManifest) }.
Class NodeStoreScan (R : Type) := { list_node_cids : R → outcome Error (list Cid) }.

(** The provided methods. *)
Definition default_get_roots_ordered {R} (get : bytes → action R (option RootManifest)) (names : list bytes)
    : action R (list (option RootManifest)) := mapM get names.

(** [name.starts_with(prefix)] *)
Definition name_under (prefix name : bytes) : bool := bool_decide (prefix `prefix_of` name).

Definition list_roots_page {R} `{ManifestStoreScan R} (prefix : bytes) (after : option bytes) (limit : Z)
    : action R NamedRootManifestPage :=
  if limit =? 0 then mret {| mp_roots := []; mp_next_after := None |}
  else
    list_roots ≫= λ roots : list NamedRootManifest,
    let wanted := List.filter (λ root, name_under prefix (nm_name root) &&
      match after with None => true | Some after => bltb after (nm_name root) end) roots in
    let roots := take (Z.to_nat (saturating_add usize_max limit 1)) wanted in
    let has_more := limit <? len roots in
    let roots := if has_more then removelast roots else roots in
    run (if has_more then root ← expect "nonzero page limit" (list.last roots); Ok (Some (nm_name root))
         else Ok None) ≫= λ next_after : option bytes,
    mret {| mp_roots := roots; mp_next_after := next_after |}.

(** *** The in-memory store with its named roots *)
Record MemBackend := { be_nodes : MemStore; be_roots : gmap bytes RootManifest }.
Definition MemBackend_new : MemBackend := {| be_nodes := MemStore_new; be_roots := ∅ |}.

Definition with_nodes (self : MemBackend) (nodes : outcome Error MemStore) : outcome Error MemBackend :=
  nodes ← nodes; Ok {| be_nodes := nodes; be_roots := be_roots self |}.
Definition with_roots (self : MemBackend) (roots : gmap bytes RootManifest) : MemBackend :=
  {| be_nodes := be_nodes self; be_roots := roots |}.

Global Instance MemBackend_store : Store MemBackend := {|
  store_get self key := mem_get (be_nodes self) key;
  store_put self key value := with_nodes self (mem_put (be_nodes self) key value);
  store_delete self key := with_nodes self (mem_delete (be_nodes self) key);
  store_batch self ops := with_nodes self (mem_batch (be_nodes self) ops);
  store_batch_put self entries := with_nodes self (mem_batch_put (be_nodes self) entries);
  store_batch_get_ordered self ks := mem_batch_get_ordered (be_nodes self) ks;
  store_prefers_batch_reads _ := true;
|}.

Global Instance MemBackend_read : ReadStore MemBackend := {|
  store_get_validated_shared := default_get_validated_shared;
  store_batch_get_validated := default_batch_get_validated (λ self, mem_batch_get_ordered_unique (be_nodes self));
  store_has_native_shared_reads _ := true;
|}.

Definition mem_get_root (name : bytes) : action MemBackend (option RootManifest) :=
  λ self, (Ok (be_roots self !! name), self).
Definition mem_put_root (name : bytes) (manifest : RootManifest) : action MemBackend () :=
  λ self, (Ok tt, with_roots self (<[name := manifest]> (be_roots self))).
Definition mem_delete_root (name : bytes) : action MemBackend () :=
  λ self, (Ok tt, with_roots self (delete name (be_roots self))).

Definition set_root (name : bytes) (new : option RootManifest) (roots : gmap bytes RootManifest) : gmap bytes RootManifest :=
  match new with Some manifest => <[name := manifest]> roots | None => delete name roots end.

Definition mem_compare_and_swap_root (name : bytes) (expected new : option RootManifest) : action MemBackend ManifestUpdate :=
  λ self,
  let current := be_roots self !! name in
  if negb (bool_decide (current = expected)) then (Ok (MU_Conflict current), self)
  else (Ok MU_Applied, with_roots self (set_root name new (be_roots self))).

Global Instance MemBackend_manifests : ManifestStore MemBackend := {|
  get_root := mem_get_root;
  put_root := mem_put_root;
  delete_root := mem_delete_root;
  compare_and_swap_root := mem_compare_and_swap_root;
  get_roots_ordered := default_get_roots_ordered mem_get_root;
|}.

Definition mem_list_roots : action MemBackend (list NamedRootManifest) := λ self,
  (Ok (sort_named_root_manifests
    ((λ r, {| nm_name := r.1; nm_manifest := r.2 |}) <$> map_to_list (be_roots self))), self).
Global Instance MemBackend_scan : ManifestStoreScan MemBackend := {| list_roots := mem_list_roots |}.

Definition cid_from_store_key (key : bytes) : outcome Error Cid :=
  if negb (len key =? 32) then Err (StoreError "key has invalid CID length") else Ok key.

Definition mem_list_node_cids (self : MemBackend) : outcome Error (list Cid) :=
  cids ← mapM (λ e : bytes * bytes, cid_from_store_key e.1) (map_to_list (ms_data (be_nodes self)));
  Ok (sort_cids cids).
Global Instance MemBackend_node_scan : NodeStoreScan MemBackend := {| list_node_cids := mem_list_node_cids |}.

(** ** Named roots of the engine *)
Section named.
Context {R : Type} `{ManifestStore R}.

Definition load_named_root (name : bytes) : action R (option Tree) :=
  get_root name ≫= λ manifest : option RootManifest, mret (into_tree <$> manifest).

Definition load_named_roots_ordered (names : list bytes) : action R (list (option Tree)) :=
  get_roots_ordered names ≫= λ roots : list (option RootManifest),
  mret ((λ manifest : option RootManifest, into_tree <$> manifest) <$> roots).

Fixpoint load_named_roots_loop (names : list bytes) (seen : gset bytes) (roots : list NamedRoot) (missing_names : list bytes)
    : action R NamedRootSelection :=
  match names with
  | [] => mret {| sel_roots := roots; sel_missing_names := missing_names |}
  | name :: names' =>
      if bool_decide (name ∈ seen) then load_named_roots_loop names' seen roots missing_names
      else
        load_named_root name ≫= λ found : option Tree,
        match found with
        | Some tree => load_named_roots_loop names' ({[name]} ∪ seen) (roots ++ [{| nr_name := name; nr_tree := tree |}]) missing_names
        | None => load_named_roots_loop names' ({[name]} ∪ seen) roots (missing_names ++ [name])
        end
  end.
Definition load_named_roots (names : list bytes) : action R NamedRootSelection := load_named_roots_loop names ∅ [] [].

Definition created_or (manifest : option RootManifest) (timestamp_millis : Z) : Z :=
  default timestamp_millis (manifest ≫= created_at_millis).

Definition publish_named_root_at_millis (name : bytes) (tree : Tree) (timestamp_millis : Z) : action R () :=
  get_root name ≫= λ current : option RootManifest,
  put_root name (from_tree_with_timestamps_millis tree (Some (created_or current timestamp_millis)) (Some timestamp_millis)).

Definition delete_named_root (name : bytes) : action R () := delete_root name.

(** The manifest that the backend must still hold, or the tree that conflicts. *)
Definition expected_manifest (expected : option Tree) (current : option RootManifest)
    : option RootManifest + option Tree :=
  match expected, current with
  | None, None => inl None
  | None, Some current => inr (Some (into_tree current))
  | Some expected_tree, Some manifest =>
      if bool_decide (into_tree manifest = expected_tree) then inl (Some manifest) else inr (Some (into_tree manifest))
  | Some _, None => inr None
  end.

Definition compare_and_swap_named_root_at_millis (name : bytes) (expected new : option Tree) (timestamp_millis : Z)
    : action R NamedRootUpdate :=
  get_root name ≫= λ current : option RootManifest,
  match expected_manifest expected current with
  | inr current => mret (NR_Conflict current)
  | inl manifest =>
      let new_manifest := (λ tree, from_tree_with_timestamps_millis tree
        (Some (created_or manifest timestamp_millis)) (Some timestamp_millis)) <$> new in
      compare_and_swap_root name manifest new_manifest ≫= λ update : ManifestUpdate,
      mret (NamedRootUpdate_from update)
  end.

Context `{!ManifestStoreScan R}.

Definition list_named_root_manifests : action R (list NamedRootManifest) := list_roots.
Definition list_named_roots : action R (list NamedRoot) :=
  list_named_root_manifests ≫= λ roots : list NamedRootManifest, mret (into_named_root <$> roots).

Definition selected (roots : list NamedRoot) : NamedRootSelection := {| sel_roots := roots; sel_missing_names := [] |}.
Definition under (prefix : bytes) (roots : list NamedRoot) : list NamedRoot :=
  List.filter (λ root, name_under prefix (nr_name root)) roots.
Definition updated_since (min_updated_at_millis : Z) (root : NamedRootManifest) : bool :=
  match updated_at_millis (nm_manifest root) with Some updated_at => min_updated_at_millis <=? updated_at | None => false end.

Definition load_retained_named_roots (retention : NamedRootRetention) : action R NamedRootSelection :=
  match retention with
  | RetainAll => list_named_roots ≫= λ roots : list NamedRoot, mret (selected roots)
  | RetainExact names => load_named_roots names
  | RetainPrefix prefix => list_named_roots ≫= λ roots : list NamedRoot, mret (selected (under prefix roots))
  | RetainNewestByName prefix count =>
      if count =? 0 then mret (selected [])
      else
        list_named_roots ≫= λ roots : list NamedRoot,
        let roots := under prefix roots in
        mret (selected (if count <? len roots then drop (length roots - Z.to_nat count)%nat roots else roots))
  | RetainUpdatedSince prefix min_updated_at_millis =>
      list_named_root_manifests ≫= λ roots : list NamedRootManifest,
      mret (selected (into_named_root <$> List.filter (updated_since min_updated_at_millis)
        (List.filter (λ root, name_under prefix (nm_name root)) roots)))
  end.

Definition ensure_retention_selection_complete (selection : NamedRootSelection) : outcome Error () :=
  if is_complete selection then Ok tt else Err (MissingNamedRoots (sel_missing_names selection)).
End named.

(** ** Collection under a retention policy *)
Section retention.
Context `{Hashes} {R : Type} `{Store R} `{ManifestStore R} `{!ManifestStoreScan R} `{!NodeStoreScan R}.

Definition on_store {A} (m : action R A) : eng R A := λ e,
  let '(r, store) := m (en_store e) in (r, with_store e store).

Definition plan_store_gc (fuel : nat) (roots : list Tree) : eng R GcPlan :=
  from_store list_node_cids ≫= λ candidates : list Cid, plan_gc fuel roots candidates.
Definition sweep_store_gc (fuel : nat) (roots : list Tree) : eng R GcSweep :=
  from_store list_node_cids ≫= λ candidates : list Cid, sweep_gc fuel roots candidates.

Definition plan_store_gc_for_retention (fuel : nat) (retention : NamedRootRetention) : eng R GcPlan :=
  on_store (load_retained_named_roots retention) ≫= λ selection : NamedRootSelection,
  run (ensure_retention_selection_complete selection) ≫= λ _,
  plan_store_gc fuel (trees selection).
Definition sweep_store_gc_for_retention (fuel : nat) (retention : NamedRootRetention) : eng R GcSweep :=
  on_store (load_retained_named_roots retention) ≫= λ selection : NamedRootSelection,
  run (ensure_retention_selection_complete selection) ≫= λ _,
  sweep_store_gc fuel (trees selection).
End retention.

End Manifest.
