(* ===== verification/Snapshot.v ===== *)
(** * Snapshot bundles (src/prolly/sync.rs, src/prolly/mod.rs)

    A tree with the bytes of every node it reaches, as one value to carry from a store to
    another: the export of a tree under limits on its nodes and bytes, the canonical order
    of the nodes, the verification that a bundle is complete and has nothing else, its
    transport bytes and the import.  An identifier or a number that the code formats into a
    message is left out of it; the encoder of serde_cbor is an argument. *)

From Stdlib Require Import ZArith Lia Strings.Byte.
From stdpp Require Import base tactics numbers list strings option gmap sorting.
From S2P Require Import Prelude Types Key Format Node Store Emitter Builder Engine Loader TreeDiff Reach.
Import Format Config Node Store Builder Engine Loader.
Import Emitter(foldM).
Import Key(hex_digit).
Import TreeDiff(count_in, load_child_frontier_ordered_for_format, ASYNC_NODE_PREFETCH_BATCH_SIZE).
Import Reach(verify_node_bytes, child_cid_at, sort_cids, entry_le, entry_le_dec, btree_iter).

Local Open Scope Z_scope.

Module Snapshot.

Definition SNAPSHOT_BUNDLE_FORMAT_VERSION : Z := 1.
Definition SNAPSHOT_BUNDLE_BYTES_VERSION : Z := SNAPSHOT_BUNDLE_FORMAT_VERSION.

Record SnapshotExportLimits := { max_nodes : Z; max_bytes : Z }.

Record SnapshotBundleNode := { cid : Cid; node_bytes : bytes }.
Record SnapshotBundle := { format_version : Z; tree : Tree; nodes : list SnapshotBundleNode }.

Record SnapshotBundleSummary := {
  sm_format_version : Z;
  sm_root : option Cid;
  sm_node_count : Z;
  sm_byte_count : Z;
  min_node_bytes : Z;
  max_node_bytes : Z;
}.

Record SnapshotBundleVerification := {
  valid : bool;
  summary_of : SnapshotBundleSummary;
  reachable_nodes : Z;
  reachable_bytes : Z;
  missing_cids : list Cid;
  extra_cids : list Cid;
}.

Record SnapshotBundleNodeWire := { wire_cid : bytes; wire_bytes : bytes }.
Record SnapshotBundleWire := { wire_version : Z; wire_tree : Tree; wire_nodes : list SnapshotBundleNodeWire }.

Definition SnapshotBundle_new (tree : Tree) (nodes : list SnapshotBundleNode) : SnapshotBundle :=
  {| format_version := SNAPSHOT_BUNDLE_FORMAT_VERSION; tree := tree; nodes := nodes |}.

(** ** Canonical nodes *)
Definition hex_bytes (bs : bytes) : string :=
  text (foldr (λ b s, hex_digit (bval b / 16) :: hex_digit (bval b mod 16) :: s) [] bs).

Definition cid_from_wire_bytes (bs : bytes) : outcome Error Cid :=
  if (length bs =? 32)%nat then Ok bs else Err (InvalidSnapshotBundle "CID must be exactly 32 bytes").

Section bundles.
Context `{Hashes}.

(** A node comes in once; a second one with its identifier must have the same bytes. *)
Definition collect_node (by_cid : gmap bytes bytes) (node : SnapshotBundleNode) : outcome Error (gmap bytes bytes) :=
  verify_node_bytes (cid node) (node_bytes node) ≫= λ _,
  match by_cid !! cid node with
  | Some existing =>
      if bool_decide (existing = node_bytes node) then Ok by_cid
      else Err (InvalidSnapshotBundle ("bundle contains conflicting duplicate node CID " +:+ hex_bytes (cid node)))
  | None => Ok (<[cid node := node_bytes node]> by_cid)
  end.

Definition canonical_snapshot_nodes (nodes : list SnapshotBundleNode) : outcome Error (list SnapshotBundleNode) :=
  by_cid ← foldM collect_node ∅ nodes;
  mapM (λ e : bytes * bytes, c ← cid_from_wire_bytes e.1; Ok {| cid := c; node_bytes := e.2 |}) (btree_iter by_cid).

Definition validate_format_version (self : SnapshotBundle) : outcome Error () :=
  if format_version self =? SNAPSHOT_BUNDLE_FORMAT_VERSION then Ok tt
  else Err (InvalidSnapshotBundle "unsupported format version").

Definition node_count (self : SnapshotBundle) : Z := len (nodes self).
Definition total_bytes (nodes : list SnapshotBundleNode) : outcome Error Z :=
  foldM (λ n node, count_in n (len (node_bytes node))) 0 nodes.
Definition byte_count (self : SnapshotBundle) : outcome Error Z := total_bytes (nodes self).

(** [Iterator::min] and [Iterator::max]. *)
Definition least (l : list Z) : option Z :=
  match l with [] => None | n :: l' => Some (foldl Z.min n l') end.
Definition greatest (l : list Z) : option Z :=
  match l with [] => None | n :: l' => Some (foldl Z.max n l') end.

Definition snapshot_bundle_summary (bundle : SnapshotBundle) (nodes : list SnapshotBundleNode)
    : outcome Error SnapshotBundleSummary :=
  byte_count ← total_bytes nodes;
  let lens := (λ node, len (node_bytes node)) <$> nodes in
  Ok {| sm_format_version := format_version bundle; sm_root := t_root (tree bundle); sm_node_count := len nodes;
        sm_byte_count := byte_count; min_node_bytes := default 0 (least lens); max_node_bytes := default 0 (greatest lens) |}.

Definition summary (self : SnapshotBundle) : outcome Error SnapshotBundleSummary :=
  validate_format_version self ≫= λ _,
  nodes ← canonical_snapshot_nodes (nodes self);
  snapshot_bundle_summary self nodes.

(** ** Verification *)
(** What the walk over the supplied nodes has seen, what it did not find and what is queued. *)
Record Walk := { w_seen : gset bytes; w_missing : gset bytes; w_frontier : list bytes; w_bytes : Z }.

Definition queue_child (seen : gset bytes) (frontier : list bytes) (child : bytes) : outcome Error (list bytes) :=
  if negb (length child =? 32)%nat then Err InvalidNode
  else Ok (if decide (child ∈ seen) then frontier else frontier ++ [child]).

Definition walk_node (nodes_by_cid : gmap bytes bytes) (c : bytes) (w : Walk) : outcome Error Walk :=
  let seen := {[c]} ∪ w_seen w in
  match nodes_by_cid !! c with
  | None => Ok {| w_seen := seen; w_missing := {[c]} ∪ w_missing w; w_frontier := w_frontier w; w_bytes := w_bytes w |}
  | Some bs =>
      node ← from_bytes bs;
      if negb (length (keys node) =? length (vals node))%nat then Err InvalidNode
      else
        nbytes ← count_in (w_bytes w) (len bs);
        frontier ← (if leaf node then Ok (w_frontier w) else foldM (queue_child seen) (w_frontier w) (vals node));
        Ok {| w_seen := seen; w_missing := w_missing w; w_frontier := frontier; w_bytes := nbytes |}
  end.

Fixpoint walk_loop (nodes_by_cid : gmap bytes bytes) (fuel : nat) (w : Walk) : outcome Error Walk :=
  match fuel with
  | O => Panic "out of fuel"
  | S fuel' =>
      match w_frontier w with
      | [] => Ok w
      | c :: rest =>
          let w := {| w_seen := w_seen w; w_missing := w_missing w; w_frontier := rest; w_bytes := w_bytes w |} in
          if decide (c ∈ w_seen w) then walk_loop nodes_by_cid fuel' w
          else w ← walk_node nodes_by_cid c w; walk_loop nodes_by_cid fuel' w
      end
  end.

(** Every identifier is looked into once, and queues at most its children. *)
Definition child_count (bs : bytes) : nat :=
  match from_bytes bs with Ok node => length (vals node) | _ => 0%nat end.
Definition walk_fuel (nodes_by_cid : gmap bytes bytes) : nat :=
  (2 + foldr (λ e n, child_count e.2 + n) 0 (map_to_list nodes_by_cid))%nat.

Definition reachable_snapshot_nodes (tree : Tree) (nodes_by_cid : gmap bytes bytes) : outcome Error (list bytes * Z) :=
  let frontier := match t_root tree with Some root => [root] | None => [] end in
  w ← walk_loop nodes_by_cid (walk_fuel nodes_by_cid)
        {| w_seen := ∅; w_missing := ∅; w_frontier := frontier; w_bytes := 0 |};
  let reachable_cids :=
    foldl (λ cids c, if decide (c ∈ cids) then cids else cids ++ [c]) (sort_cids (elements (w_seen w)))
      (sort_cids (elements (w_missing w))) in
  Ok (sort_cids reachable_cids, w_bytes w).

Definition verify (self : SnapshotBundle) : outcome Error SnapshotBundleVerification :=
  validate_format_version self ≫= λ _,
  nodes ← canonical_snapshot_nodes (nodes self);
  summary ← snapshot_bundle_summary self nodes;
  let nodes_by_cid : gmap bytes bytes := list_to_map ((λ node, (cid node, node_bytes node)) <$> nodes) in
  reachability ← reachable_snapshot_nodes (tree self) nodes_by_cid;
  let provided_cids := (btree_iter nodes_by_cid).*1 in
  missing ← mapM cid_from_wire_bytes
              (List.filter (λ c, negb (bool_decide (is_Some (nodes_by_cid !! c)))) reachability.1);
  extra ← mapM cid_from_wire_bytes
            (List.filter (λ c, negb (bool_decide (c ∈ reachability.1))) provided_cids);
  Ok {| valid := bool_decide (missing = []) && bool_decide (extra = []); summary_of := summary;
        reachable_nodes := len reachability.1; reachable_bytes := reachability.2;
        missing_cids := missing; extra_cids := extra |}.

(** ** Transport bytes *)
Section wire.
(** The encoder and the decoder of serde_cbor for the payload. *)
Context (to_vec_packed : SnapshotBundleWire → outcome string bytes) (from_slice : bytes → outcome string SnapshotBundleWire).

Definition SnapshotBundle_to_bytes (self : SnapshotBundle) : outcome Error bytes :=
  validate_format_version self ≫= λ _,
  nodes ← canonical_snapshot_nodes (nodes self);
  map_err Serialize (to_vec_packed {|
    wire_version := SNAPSHOT_BUNDLE_BYTES_VERSION; wire_tree := tree self;
    wire_nodes := (λ node, {| wire_cid := cid node; wire_bytes := node_bytes node |}) <$> nodes |}).

Definition snapshot_bundle_deserialize (error : string) : Error :=
  InvalidSnapshotBundle ("could not decode bundle bytes: " +:+ error).

Definition SnapshotBundle_from_bytes (bs : bytes) : outcome Error SnapshotBundle :=
  wire ← map_err snapshot_bundle_deserialize (from_slice bs);
  if negb (wire_version wire =? SNAPSHOT_BUNDLE_BYTES_VERSION)
  then Err (InvalidSnapshotBundle "unsupported bytes version")
  else
    nodes ← mapM (λ node,
      c ← cid_from_wire_bytes (wire_cid node);
      verify_node_bytes c (wire_bytes node) ≫= λ _,
      Ok {| cid := c; node_bytes := wire_bytes node |}) (wire_nodes wire);
    nodes ← canonical_snapshot_nodes nodes;
    Ok {| format_version := SNAPSHOT_BUNDLE_FORMAT_VERSION; tree := wire_tree wire; nodes := nodes |}.

Definition SnapshotBundle_digest (self : SnapshotBundle) : outcome Error Cid :=
  bs ← SnapshotBundle_to_bytes self; Ok (Cid_from_bytes bs).
End wire.

(** ** Export *)
Record Export := { x_seen : gset Cid; x_frontier : list Cid; x_nodes : list SnapshotBundleNode; x_bytes : Z }.

Section export.
Context (limits : SnapshotExportLimits).

Definition export_child (node : Node) (x : Export) (idx : nat) : outcome Error Export :=
  child ← child_cid_at node idx;
  if decide (child ∈ x_seen x) then Ok x
  else
    let seen := {[child]} ∪ x_seen x in
    if max_nodes limits <? Z.of_nat (size seen)
    then Err (SnapshotExportLimitExceeded "nodes" (max_nodes limits) (Z.of_nat (size seen)))
    else Ok {| x_seen := seen; x_frontier := x_frontier x ++ [child]; x_nodes := x_nodes x; x_bytes := x_bytes x |}.

Definition export_node (x : Export) (item : Cid * Node) : outcome Error Export :=
  let '(c, node) := item in
  if negb (length (keys node) =? length (vals node))%nat then Err InvalidNode
  else
    bs ← to_bytes node;
    verify_node_bytes c bs ≫= λ _,
    nbytes ← ok_or (SnapshotExportLimitExceeded "bytes" (max_bytes limits) usize_max)
               (checked_add usize_max (x_bytes x) (len bs));
    if max_bytes limits <? nbytes then Err (SnapshotExportLimitExceeded "bytes" (max_bytes limits) nbytes)
    else
      let x := {| x_seen := x_seen x; x_frontier := x_frontier x; x_nodes := x_nodes x; x_bytes := nbytes |} in
      x ← (if leaf node then Ok x else foldM (export_child node) x (seq 0 (length (keys node))));
      Ok {| x_seen := x_seen x; x_frontier := x_frontier x;
            x_nodes := x_nodes x ++ [{| cid := c; node_bytes := bs |}]; x_bytes := x_bytes x |}.

Context {St : Type} `{Store St}.

Fixpoint export_loop (f : TreeFormat) (fuel : nat) (x : Export) : eng St Export :=
  match fuel with
  | O => run (Panic "out of fuel")
  | S fuel' =>
      if bool_decide (x_frontier x = []) then mret x
      else
        let batch_len := Z.to_nat (Z.min (len (x_frontier x)) ASYNC_NODE_PREFETCH_BATCH_SIZE) in
        let current := take batch_len (x_frontier x) in
        load_child_frontier_ordered_for_format current f ≫= λ loaded : list Node,
        run (foldM export_node
               {| x_seen := x_seen x; x_frontier := drop batch_len (x_frontier x); x_nodes := x_nodes x; x_bytes := x_bytes x |}
               (zip current loaded)) ≫= λ x : Export,
        export_loop f fuel' x
  end.

(** [sort_by] on the identifiers. *)
Definition node_le (a b : SnapshotBundleNode) : Prop := ble (cid a) (cid b).
#[export] Instance node_le_dec : RelDecision node_le.
Proof. intros a b. unfold node_le. apply _. Defined.

Definition export_snapshot_with_limits (fuel : nat) (tree : Tree) : eng St SnapshotBundle :=
  if max_nodes limits =? 0 then run (Err (InvalidExecutionConfig "snapshot_export.max_nodes" 0))
  else if max_bytes limits =? 0 then run (Err (InvalidExecutionConfig "snapshot_export.max_bytes" 0))
  else
    match t_root tree with
    | None => mret (SnapshotBundle_new tree [])
    | Some root =>
        export_loop (Config.format (t_config tree)) fuel
          {| x_seen := {[root]}; x_frontier := [root]; x_nodes := []; x_bytes := 0 |} ≫= λ x : Export,
        mret (SnapshotBundle_new tree (merge_sort node_le (x_nodes x)))
    end.
End export.

Section store.
Context {St : Type} `{Store St}.

Definition export_snapshot (fuel : nat) (tree : Tree) : eng St SnapshotBundle :=
  export_snapshot_with_limits {| max_nodes := usize_max; max_bytes := usize_max |} fuel tree.

(** ** Import *)
Definition publish_replicated (entries : list (bytes * bytes)) : eng St () := λ e,
  match publish_nodes (en_store e) entries with
  | Ok store => (Ok tt, with_store e store)
  | Err err => (Err err, e)
  | Panic msg => (Panic msg, e)
  end.

Definition import_snapshot (bundle : SnapshotBundle) : eng St Tree :=
  run (verify bundle) ≫= λ verification : SnapshotBundleVerification,
  if negb (valid verification) then
    run (Err (InvalidSnapshotBundle
      match missing_cids verification, extra_cids verification with
      | _ :: _, _ => "bundle missing reachable node CID"
      | [], _ :: _ => "bundle contains unreachable node CID"
      | [], [] => "bundle failed self-contained verification"
      end))
  else
    (if bool_decide (nodes bundle = []) then mret tt
     else publish_replicated ((λ node, (cid node, node_bytes node)) <$> nodes bundle)) ≫= λ _,
    mret (tree bundle).
End store.
End bundles.
End Snapshot.
