(* ===== verification/SnapshotSpec.v ===== *)
(** * What a snapshot bundle proves

    The canonical nodes of a bundle are a map; verification compares this map with what
    the root reaches in it; an import that succeeds makes the destination hold the tree
    that the root identifies, whoever made the bundle. *)

From Stdlib Require Import ZArith Lia Strings.Byte.
From stdpp Require Import base tactics numbers list strings option gmap sorting.
From S2P Require Import Prelude Types Format Node Store Emitter Builder TreeSpec BuiltTree Engine EngineSpec Loader TreeDiff Reach ReachSpec ReachContract Snapshot.
Import Format Config Node Store Builder TreeSpec Engine EngineSpec Loader Snapshot.
Import Emitter(foldM).
Import TreeDiff(count_in).
Import Reach(verify_node_bytes, child_cid_at, sort_cids, entry_le, entry_le_dec, btree_iter, btree_iter_perm).
Import ReachSpec(reachable, reach_root, reach_child, child_of, held, count_in_ok).
Import ReachContract(tree_keep, reachable_bytes, one_held).
Import BuiltTree(put_all_elem).

Local Open Scope Z_scope.

Module SnapshotSpec.

(** ** The map of a bundle *)
Definition node_of (e : bytes * bytes) : SnapshotBundleNode := {| cid := e.1; node_bytes := e.2 |}.
Definition pair_of (n : SnapshotBundleNode) : bytes * bytes := (cid n, node_bytes n).
Lemma pair_node e : pair_of (node_of e) = e.
Proof. by destruct e. Qed.
Lemma pairs_nodes (l : list (bytes * bytes)) : pair_of <$> (node_of <$> l) = l.
Proof. induction l as [|e l IH]; [done|]. cbn [fmap list_fmap]. rewrite pair_node. by f_equal. Qed.
Lemma nodes_pairs (l : list SnapshotBundleNode) : node_of <$> (pair_of <$> l) = l.
Proof. induction l as [|n l IH]; [done|]. cbn [fmap list_fmap]. by destruct n; f_equal. Qed.

Definition bundled (ns : list SnapshotBundleNode) (m : gmap bytes bytes) : Prop :=
  ∀ c b, m !! c = Some b ↔ node_of (c, b) ∈ ns.

Lemma bundled_unique ns m m' : bundled ns m → bundled ns m' → m = m'.
Proof. intros Hm Hm'. apply map_eq. intros c. apply option_eq. intros b. by rewrite (Hm c b), (Hm' c b). Qed.

Lemma bundled_put ns m st c b : bundled ns m → m !! c = Some b → put_all (pair_of <$> ns) st !! c = Some b.
Proof.
  intros Hm Hc. apply put_all_elem.
  - apply list_elem_of_fmap. exists (node_of (c, b)). split; [done|]. by apply Hm.
  - intros b' (n & Heq & Hn)%list_elem_of_fmap. destruct n as [c' d]. injection Heq as -> ->. apply Hm in Hn. congruence.
Qed.

Lemma bundled_miss ns m st c : bundled ns m → m !! c = None → put_all (pair_of <$> ns) st !! c = st !! c.
Proof.
  intros Hm Hc. apply put_all_miss. intros (e & -> & (n & -> & Hn)%list_elem_of_fmap)%list_elem_of_fmap.
  destruct n as [c' d]. apply Hm in Hn. cbn in Hc. congruence.
Qed.

Global Instance entry_le_trans {V} : Transitive (@entry_le V).
Proof. intros a b c. unfold entry_le. apply ble_trans. Qed.
Global Instance entry_le_total {V} : Total (@entry_le V).
Proof.
  intros a b. unfold entry_le. destruct (bltb a.1 b.1) eqn:Hab; [left; apply blt_le; by apply bltb_lt|right; by apply bltb_ge].
Qed.

Lemma btree_iter_sorted {V} (m : gmap bytes V) : StronglySorted entry_le (btree_iter m).
Proof. apply StronglySorted_merge_sort; apply _. Qed.

Lemma elem_btree {V} (m : gmap bytes V) k v : (k, v) ∈ btree_iter m ↔ m !! k = Some v.
Proof. by rewrite btree_iter_perm, elem_of_map_to_list. Qed.

(** The entries of a map are the one ordered list of them. *)
Lemma btree_iter_unique {V} (m : gmap bytes V) (l : list (bytes * V)) :
  NoDup l → StronglySorted entry_le l → (∀ k v, (k, v) ∈ l ↔ m !! k = Some v) → btree_iter m = l.
Proof.
  intros Hnd Hs Hl. apply (StronglySorted_unique_strong entry_le); [|apply btree_iter_sorted|done|].
  - intros [k v] [k' v'] H1%elem_btree H2%Hl. unfold entry_le. cbn [fst]. intros Ha Hb.
    apply ble_lt_eq in Ha as [Ha| ->]; [|congruence]. by apply ble_not_lt in Hb.
  - apply NoDup_Permutation; [rewrite btree_iter_perm; apply NoDup_map_to_list|done|].
    intros [k v]. by rewrite elem_btree, Hl.
Qed.

(** ** Canonical nodes *)
Section canonical.
Context `{HashesOk}.

Definition checked (ns : list SnapshotBundleNode) : Prop := ∀ n, n ∈ ns → Cid_from_bytes (node_bytes n) = cid n.

Lemma verify_bytes_ok c b : Cid_from_bytes b = c → verify_node_bytes c b = Ok tt.
Proof. intros Hc. unfold verify_node_bytes. by rewrite bool_decide_eq_true_2. Qed.
Lemma verify_bytes_inv c b r : verify_node_bytes c b = Ok r → Cid_from_bytes b = c.
Proof. unfold verify_node_bytes. by case_bool_decide. Qed.

Definition joins (m : gmap bytes bytes) (ns : list SnapshotBundleNode) (m' : gmap bytes bytes) : Prop :=
  ∀ c b, m' !! c = Some b ↔ m !! c = Some b ∨ node_of (c, b) ∈ ns.

Lemma collect_node_iff m n m1 :
  collect_node m n = Ok m1 ↔ Cid_from_bytes (node_bytes n) = cid n ∧ m1 = <[cid n := node_bytes n]> m ∧
    ∀ b, m !! cid n = Some b → b = node_bytes n.
Proof.
  unfold collect_node. split.
  - destruct (verify_node_bytes (cid n) (node_bytes n)) as [u| |] eqn:Hv; [|done|done]. apply verify_bytes_inv in Hv.
    cbn [mbind outcome_bind]. destruct (m !! cid n) as [d|] eqn:Hd; [case_bool_decide as Heq; [|done]|];
      intros [= <-]; (split; [done|]); [|done]. subst d. rewrite insert_id by done. naive_solver.
  - intros (Hv & -> & Hd). rewrite verify_bytes_ok by done. cbn [mbind outcome_bind].
    destruct (m !! cid n) as [d|] eqn:Hm; [|done]. rewrite (Hd d eq_refl) in *.
    rewrite bool_decide_eq_true_2 by done. by rewrite insert_id.
Qed.

(** The map of the rest, with the first node in it. *)
Lemma joins_cons m n ns m' :
  (∀ b, m !! cid n = Some b → b = node_bytes n) →
  joins (<[cid n := node_bytes n]> m) ns m' ↔ joins m (n :: ns) m' .
Proof.
  intros Hn. destruct n as [k d]. cbn [cid node_bytes] in *.
  assert (∀ c b, <[k := d]> m !! c = Some b ↔ m !! c = Some b ∨ node_of (c, b) = {| cid := k; node_bytes := d |}) as Hi.
  { intros c b. unfold node_of. cbn [fst snd]. destruct (decide (c = k)) as [->|Hne].
    - rewrite lookup_insert_eq. split; [intros [= ->]; by right|]. intros [Hb|[= ->]]; [by rewrite (Hn b Hb)|done].
    - rewrite lookup_insert_ne by done. split; [by left|]. by intros [?|[= ? ?]]. }
  split; intros Hj c b; specialize (Hj c b); rewrite elem_of_cons in *; rewrite Hi in *; tauto.
Qed.

Lemma collect_nodes_inv m ns m' : foldM collect_node m ns = Ok m' → checked ns ∧ joins m ns m'.
Proof.
  revert m; induction ns as [|n ns IH]; intros m.
  { intros [= <-]. split; [by intros n ?%not_elem_of_nil|]. intros c b. rewrite elem_of_nil. tauto. }
  cbn [foldM]. destruct (collect_node m n) as [m1| |] eqn:Hn; [|done|done]. apply collect_node_iff in Hn as (Hc & -> & Hd).
  cbn [mbind outcome_bind]. intros [Hch Hj]%IH. split; [|by apply joins_cons].
  intros n' [->|Hn']%elem_of_cons; [done|by apply Hch].
Qed.

Lemma collect_nodes_ok m ns m' : checked ns → joins m ns m' → foldM collect_node m ns = Ok m'.
Proof.
  revert m; induction ns as [|n ns IH]; intros m Hch Hj.
  { cbn. f_equal. apply map_eq. intros c. apply option_eq. intros b. rewrite (Hj c b), elem_of_nil. tauto. }
  assert (∀ b, m !! cid n = Some b → b = node_bytes n) as Hn.
  { intros b Hb. assert (m' !! cid n = Some b) as H1 by (apply Hj; by left).
    assert (m' !! cid n = Some (node_bytes n)) as H2; [|congruence]. apply Hj. right. destruct n. by left. }
  cbn [foldM]. rewrite (proj2 (collect_node_iff m n _)) by (split; [apply Hch; by left|done]). cbn [mbind outcome_bind].
  apply IH; [intros n' Hn'; apply Hch; by right|by apply joins_cons].
Qed.

Lemma joins_empty ns m : joins ∅ ns m ↔ bundled ns m.
Proof. split; intros Hm c b; rewrite (Hm c b); rewrite lookup_empty; naive_solver. Qed.

Lemma cid_wire_ok b c : Cid_from_bytes b = c → cid_from_wire_bytes c = Ok c.
Proof.
  intros <-. unfold cid_from_wire_bytes. unfold Cid_from_bytes. by rewrite sha256_len, Nat.eqb_refl.
Qed.

Lemma mapM_each {A B} (g : A → outcome Error B) (h : A → B) l : (∀ a, a ∈ l → g a = Ok (h a)) → mapM g l = Ok (h <$> l).
Proof.
  induction l as [|a l IH]; intros Hg; [done|].
  change (mapM g (a :: l)) with (y ← g a; l' ← mapM g l; Ok (y :: l')). rewrite Hg by (by left). cbn [mbind outcome_bind].
  by rewrite IH by (intros; apply Hg; by right).
Qed.

Lemma canonical_ok ns m : checked ns → bundled ns m → canonical_snapshot_nodes ns = Ok (node_of <$> btree_iter m).
Proof.
  intros Hch Hm. unfold canonical_snapshot_nodes. rewrite (collect_nodes_ok _ _ m Hch) by (by apply joins_empty).
  cbn [mbind outcome_bind]. apply (mapM_each _ node_of). intros [c b] Hin%elem_btree%Hm. apply Hch in Hin.
  cbn [fst snd]. by rewrite (cid_wire_ok b c Hin).
Qed.

Lemma canonical_inv ns l : canonical_snapshot_nodes ns = Ok l → ∃ m, checked ns ∧ bundled ns m ∧ l = node_of <$> btree_iter m.
Proof.
  intros Hc. assert (∃ m, foldM collect_node ∅ ns = Ok m) as (m & Hm).
  { unfold canonical_snapshot_nodes in Hc. destruct (foldM _ _ _) as [m| |]; [by exists m|done|done]. }
  apply collect_nodes_inv in Hm as [Hch Hj%joins_empty]. exists m. split; [done|]. split; [done|].
  rewrite (canonical_ok ns m Hch Hj) in Hc. by injection Hc.
Qed.

Lemma map_of_canonical m : list_to_map (pair_of <$> (node_of <$> btree_iter m)) = (m : gmap bytes bytes).
Proof.
  rewrite pairs_nodes, (list_to_map_proper _ (map_to_list m)); [apply list_to_map_to_list| |apply btree_iter_perm].
  rewrite btree_iter_perm. apply NoDup_fst_map_to_list.
Qed.
End canonical.

(** ** The walk of verification *)
Section walk.
Context `{HashesOk} (m : gmap bytes bytes) (start : option Cid).

(** What the root reaches through the supplied nodes. *)
Inductive linked : bytes → Prop :=
| linked_root root : start = Some root → linked root
| linked_child c b n child :
    linked c → m !! c = Some b → from_bytes b = Ok n → leaf n = false → child ∈ vals n → linked child.

(** A sum over the entries of a map. *)
Definition sum_of (g : bytes → nat) (r : gmap bytes bytes) : nat := foldr (λ e n, (g e.2 + n)%nat) 0%nat (map_to_list r).

Lemma sum_delete g r c b : r !! c = Some b → (sum_of g r = g b + sum_of g (delete c r))%nat.
Proof.
  intros Hc. unfold sum_of. rewrite <- (insert_delete_id r c b Hc) at 1.
  rewrite (foldr_permutation (=) _ _ _ ((c, b) :: map_to_list (delete c r))); [done|intros; lia|].
  apply map_to_list_insert, lookup_delete_eq.
Qed.

Definition unseen (seen : gset bytes) : gmap bytes bytes := filter (λ e, e.1 ∉ seen) m.

Lemma unseen_step seen c : unseen ({[c]} ∪ seen) = delete c (unseen seen).
Proof.
  apply map_eq. intros k. apply option_eq. intros v. unfold unseen. rewrite map_lookup_filter_Some, lookup_delete_Some, map_lookup_filter_Some.
  cbn [fst]. rewrite elem_of_union, elem_of_singleton. naive_solver.
Qed.

Lemma unseen_lookup seen c : c ∉ seen → unseen seen !! c = m !! c.
Proof. intros Hc. apply option_eq. intros b. unfold unseen. rewrite map_lookup_filter_Some. naive_solver. Qed.

Record walked (w : Walk) : Prop := {
  wk_linked c : c ∈ w_seen w ∨ c ∈ w_frontier w → linked c;
  wk_start root : start = Some root → root ∈ w_seen w ∨ root ∈ w_frontier w;
  wk_closed c b n child : c ∈ w_seen w → m !! c = Some b → from_bytes b = Ok n → leaf n = false → child ∈ vals n →
    child ∈ w_seen w ∨ child ∈ w_frontier w;
  wk_missing c : c ∈ w_missing w → c ∈ w_seen w;
  wk_bytes : w_bytes w + Z.of_nat (sum_of length (unseen (w_seen w))) = Z.of_nat (sum_of length m);
}.

Lemma queue_children_inv seen l fr fr' :
  foldM (queue_child seen) fr l = Ok fr' →
  (∀ c, c ∈ fr' → c ∈ fr ∨ c ∈ l) ∧ (∀ c, c ∈ fr → c ∈ fr') ∧ (∀ c, c ∈ l → c ∈ seen ∨ c ∈ fr') ∧
  (length fr' ≤ length fr + length l)%nat.
Proof.
  revert fr; induction l as [|child l IH]; intros fr.
  { intros [= <-]. split; [by left|]. split; [done|]. split; [by intros c ?%not_elem_of_nil|]. cbn. lia. }
  cbn [foldM]. unfold queue_child at 2. destruct (length child =? 32)%nat; [|done]. cbn [negb mbind outcome_bind].
  intros (Hb & Hf & Hl & Hlen)%IH. destruct (decide (child ∈ seen)) as [Hin|Hin].
  - split; [intros c Hc; rewrite elem_of_cons; apply Hb in Hc; tauto|]. split; [done|]. split; [|cbn; lia].
    intros c [->|Hc]%elem_of_cons; [by left|by apply Hl].
  - rewrite length_app in Hlen. cbn [length] in *. split; [|split; [|split; [|lia]]].
    + intros c [Hc|Hc]%Hb; rewrite elem_of_cons; [|tauto]. apply elem_of_app in Hc. rewrite list_elem_of_singleton in Hc. tauto.
    + intros c Hc. apply Hf, elem_of_app. by left.
    + intros c [->|Hc]%elem_of_cons; [right|by apply Hl]. apply Hf, elem_of_app. right. by left.
Qed.

Lemma queue_children_ok seen l fr : Forall (λ c, length c = 32%nat) l → ∃ fr', foldM (queue_child seen) fr l = Ok fr'.
Proof.
  intros Hl. revert fr; induction Hl as [|child l Hc _ IH]; intros fr; [by exists fr|].
  cbn [foldM]. unfold queue_child at 2. rewrite Hc. cbn [Nat.eqb negb mbind outcome_bind]. apply IH.
Qed.

Definition popped (w : Walk) (rest : list bytes) : Walk :=
  {| w_seen := w_seen w; w_missing := w_missing w; w_frontier := rest; w_bytes := w_bytes w |}.

Lemma walked_skip w c rest : walked w → w_frontier w = c :: rest → c ∈ w_seen w → walked (popped w rest).
Proof.
  intros [Hl Hs Hc Hm Hb] Hfr Hin. rewrite Hfr in *. constructor; cbn [popped w_seen w_frontier w_missing w_bytes]; [| | |done|done].
  - intros k Hk. apply Hl. rewrite elem_of_cons. tauto.
  - intros root Hr. destruct (Hs root Hr) as [?|[->|?]%elem_of_cons]; tauto.
  - intros k b n child H1 H2 H3 H4 H5. destruct (Hc k b n child H1 H2 H3 H4 H5) as [?|[->|?]%elem_of_cons]; tauto.
Qed.

Lemma walked_node w c rest w' :
  walked w → w_frontier w = c :: rest → c ∉ w_seen w → walk_node m c (popped w rest) = Ok w' →
  walked w' ∧ w_seen w' = {[c]} ∪ w_seen w.
Proof.
  intros [Hl Hs Hc Hm Hb] Hfr Hin Hw. rewrite Hfr in *. unfold walk_node in Hw. cbn [popped w_seen w_frontier w_missing w_bytes] in Hw.
  assert (linked c) as Hlc by (apply Hl; right; by left). pose proof (unseen_lookup _ _ Hin) as Hu.
  destruct (m !! c) as [b|] eqn:Hmc.
  - destruct (from_bytes b) as [n| |] eqn:Hn; [|done|done]. cbn [mbind outcome_bind] in Hw.
    destruct (length (keys n) =? length (vals n))%nat; [|done]. cbn [negb] in Hw.
    destruct (count_in (w_bytes w) (len b)) as [nb| |] eqn:Hnb; [|done|done]. cbn [mbind outcome_bind] in Hw.
    assert (nb = w_bytes w + len b) as -> by (unfold count_in in Hnb; destruct (_ <=? _); [by injection Hnb|done]).
    assert (∃ fr', (if leaf n then Ok rest else foldM (queue_child ({[c]} ∪ w_seen w)) rest (vals n)) = Ok fr' ∧
      w' = {| w_seen := {[c]} ∪ w_seen w; w_missing := w_missing w; w_frontier := fr'; w_bytes := w_bytes w + len b |}) as (fr' & Hq & ->).
    { destruct (if leaf n then _ else _) as [fr'| |]; [|done|done]. injection Hw as <-. by exists fr'. }
    assert ((∀ k, k ∈ fr' → k ∈ rest ∨ leaf n = false ∧ k ∈ vals n) ∧ (∀ k, k ∈ rest → k ∈ fr') ∧
      (leaf n = false → ∀ k, k ∈ vals n → k ∈ {[c]} ∪ w_seen w ∨ k ∈ fr')) as (Hback & Hfwd & Hch).
    { destruct (leaf n) eqn:Hlf; [injection Hq as <-; naive_solver|]. apply queue_children_inv in Hq. naive_solver. }
    split; [|done]. constructor; cbn [w_seen w_frontier w_missing w_bytes].
    + intros k [Hk|Hk]; [apply elem_of_union in Hk as [->%elem_of_singleton|Hk]; [done|apply Hl; by left]|].
      destruct (Hback k Hk) as [?|[? ?]]; [apply Hl; right; by right|by eapply linked_child].
    + intros root Hr. rewrite elem_of_union, elem_of_singleton. destruct (Hs root Hr) as [?|[->|?]%elem_of_cons]; auto.
    + intros k b' n' child Hk Hkb Hkn Hklf Hkc. apply elem_of_union in Hk as [->%elem_of_singleton|Hk].
      * assert (n' = n) as -> by congruence. by apply Hch.
      * rewrite elem_of_union, elem_of_singleton.
        destruct (Hc k b' n' child Hk Hkb Hkn Hklf Hkc) as [?|[->|?]%elem_of_cons]; auto.
    + intros k Hk. apply elem_of_union_r. by apply Hm.
    + rewrite unseen_step. rewrite (sum_delete _ _ _ _ Hu) in Hb. unfold len. lia.
  - injection Hw as <-. split; [|done]. constructor; cbn [w_seen w_frontier w_missing w_bytes].
    + intros k [[->%elem_of_singleton|Hk]%elem_of_union|Hk]; [done|apply Hl; by left|apply Hl; right; by right].
    + intros root Hr. rewrite elem_of_union, elem_of_singleton. destruct (Hs root Hr) as [?|[->|?]%elem_of_cons]; auto.
    + intros k b' n' child Hk Hkb Hkn Hklf Hkc. apply elem_of_union in Hk as [->%elem_of_singleton|Hk]; [congruence|].
      rewrite elem_of_union, elem_of_singleton. destruct (Hc k b' n' child Hk Hkb Hkn Hklf Hkc) as [?|[->|?]%elem_of_cons]; auto.
    + intros k [->%elem_of_singleton|Hk]%elem_of_union; [by apply elem_of_union_l, elem_of_singleton_2|apply elem_of_union_r; by apply Hm].
    + rewrite unseen_step, delete_id by done. done.
Qed.

Lemma walk_loop_inv fuel w w' : walked w → walk_loop m fuel w = Ok w' → walked w' ∧ w_frontier w' = [].
Proof.
  revert w; induction fuel as [|fuel IH]; intros w Hw; [done|]. cbn [walk_loop].
  destruct (w_frontier w) as [|c rest] eqn:Hfr; [by intros [= <-]|]. cbn [w_seen]. change {| w_seen := _ |} with (popped w rest).
  destruct (decide (c ∈ w_seen w)) as [Hin|Hin]; [by apply IH, (walked_skip w c)|].
  destruct (walk_node m c (popped w rest)) as [w1| |] eqn:Hn; [|done|done]. cbn [mbind outcome_bind].
  apply IH. by apply (walked_node w c rest w1).
Qed.

(** Nodes that decode to what the walk accepts. *)
Definition decodes : Prop :=
  ∀ c b, m !! c = Some b → ∃ n, from_bytes b = Ok n ∧ length (keys n) = length (vals n) ∧
    (leaf n = false → Forall (λ child, length child = 32%nat) (vals n)).

Lemma walk_node_ok w c rest :
  decodes → Z.of_nat (sum_of length m) ≤ usize_max → walked w → w_frontier w = c :: rest → c ∉ w_seen w →
  ∃ w', walk_node m c (popped w rest) = Ok w' ∧
    (length (w_frontier w') + sum_of child_count (unseen (w_seen w')) ≤ length rest + sum_of child_count (unseen (w_seen w)))%nat.
Proof.
  intros Hd Hb Hw Hfr Hin. unfold walk_node. cbn [popped w_seen w_frontier w_missing w_bytes].
  pose proof (unseen_lookup _ _ Hin) as Hu. destruct (m !! c) as [b|] eqn:Hmc.
  2: { eexists. split; [done|]. cbn [w_frontier w_seen]. rewrite unseen_step, delete_id by done. lia. }
  destruct (Hd c b Hmc) as (n & Hn & Hlen & Hch). rewrite Hn. cbn [mbind outcome_bind]. rewrite Hlen, Nat.eqb_refl. cbn [negb].
  pose proof (wk_bytes w Hw) as Hbytes. rewrite (sum_delete _ _ _ _ Hu) in Hbytes.
  rewrite count_in_ok by (unfold len; lia). cbn [mbind outcome_bind].
  assert (∃ fr', (if leaf n then Ok rest else foldM (queue_child ({[c]} ∪ w_seen w)) rest (vals n)) = Ok fr' ∧
    (length fr' ≤ length rest + length (vals n))%nat) as (fr' & -> & Hfr').
  { destruct (leaf n); [exists rest; split; [done|lia]|]. destruct (queue_children_ok ({[c]} ∪ w_seen w) (vals n) rest (Hch eq_refl)) as (fr' & Hq).
    exists fr'. split; [done|]. apply queue_children_inv in Hq. tauto. }
  eexists. split; [done|]. cbn [w_frontier w_seen]. rewrite unseen_step, (sum_delete child_count _ _ _ Hu).
  unfold child_count at 2. rewrite Hn. lia.
Qed.

Lemma walk_loop_ok fuel w :
  decodes → Z.of_nat (sum_of length m) ≤ usize_max → walked w →
  (length (w_frontier w) + sum_of child_count (unseen (w_seen w)) < fuel)%nat → ∃ w', walk_loop m fuel w = Ok w'.
Proof.
  intros Hd Hb. revert w; induction fuel as [|fuel IH]; intros w Hw Hfuel; [lia|]. cbn [walk_loop].
  destruct (w_frontier w) as [|c rest] eqn:Hfr; [by exists w|]. cbn [w_seen length] in *. change {| w_seen := _ |} with (popped w rest).
  destruct (decide (c ∈ w_seen w)) as [Hin|Hin]; [apply IH; [by apply (walked_skip w c)|cbn; lia]|].
  destruct (walk_node_ok w c rest Hd Hb Hw Hfr Hin) as (w1 & Hn & Hle). rewrite Hn. cbn [mbind outcome_bind].
  apply IH; [by apply (walked_node w c rest w1)|lia].
Qed.

Definition walk_start : Walk :=
  {| w_seen := ∅; w_missing := ∅; w_frontier := match start with Some root => [root] | None => [] end; w_bytes := 0 |}.

Lemma unseen_none : unseen ∅ = m.
Proof. apply map_eq. intros c. by rewrite unseen_lookup by set_solver. Qed.

Lemma walked_start : walked walk_start.
Proof.
  constructor; cbn [walk_start w_seen w_frontier w_missing w_bytes]; [| | |done|by rewrite unseen_none].
  - intros c [?|Hc]; [set_solver|]. destruct start as [root|] eqn:Hs; [|by apply not_elem_of_nil in Hc].
    apply list_elem_of_singleton in Hc as ->. by apply linked_root.
  - intros root ->. right. by left.
  - set_solver.
Qed.

Lemma walk_fuel_enough : (length (w_frontier walk_start) + sum_of child_count (unseen ∅) < walk_fuel m)%nat.
Proof. rewrite unseen_none. unfold walk_fuel, sum_of. cbn [walk_start w_frontier]. destruct start; cbn [length]; lia. Qed.

Lemma walked_done w c : walked w → w_frontier w = [] → c ∈ w_seen w ↔ linked c.
Proof.
  intros Hw Hfr. split; [intros Hc; apply (wk_linked w Hw); by left|].
  assert (∀ k, k ∈ w_seen w ∨ k ∈ w_frontier w → k ∈ w_seen w) as Hdone by (rewrite Hfr; intros k [?|?%not_elem_of_nil]; done).
  induction 1 as [root Hr|k b n child _ IH Hk Hn Hlf Hch]; apply Hdone; [by apply (wk_start w Hw)|by eapply (wk_closed w Hw)].
Qed.
End walk.

Lemma push_all_incl (l acc : list bytes) : (∀ c, c ∈ l → c ∈ acc) →
  foldl (λ cids c, if decide (c ∈ cids) then cids else cids ++ [c]) acc l = acc.
Proof. induction l as [|c l IH]; intros Hl; [done|]. cbn [foldl]. rewrite decide_True by (apply Hl; by left). apply IH. intros; apply Hl. by right. Qed.

Lemma reachable_nodes_inv `{HashesOk} tree m r :
  reachable_snapshot_nodes tree m = Ok r → ∀ c, c ∈ r.1 ↔ linked m (t_root tree) c.
Proof.
  unfold reachable_snapshot_nodes. fold (walk_start (t_root tree)).
  destruct (walk_loop _ _ _) as [w| |] eqn:Hw; [|done|done]. apply (walk_loop_inv m (t_root tree)) in Hw as [Hw Hfr]; [|apply walked_start].
  cbn [mbind outcome_bind]. intros [= <-] c. cbn [fst]. rewrite <- (walked_done m (t_root tree) w c Hw Hfr).
  unfold sort_cids. rewrite push_all_incl; rewrite ?merge_sort_Permutation; [apply elem_of_elements|].
  intros k. rewrite !merge_sort_Permutation, !elem_of_elements. apply (wk_missing m _ w Hw).
Qed.

Lemma reachable_nodes_ok `{HashesOk} tree m :
  decodes m → Z.of_nat (sum_of length m) ≤ usize_max → ∃ r, reachable_snapshot_nodes tree m = Ok r.
Proof.
  intros Hd Hb. unfold reachable_snapshot_nodes. fold (walk_start (t_root tree)).
  destruct (walk_loop_ok m (t_root tree) (walk_fuel m) (walk_start (t_root tree)) Hd Hb) as (w & ->);
    [apply walked_start|apply walk_fuel_enough|]. by eexists.
Qed.

(** ** Verification *)
Section verification.
Context `{HashesOk}.
Implicit Types (self : SnapshotBundle) (m : gmap bytes bytes).

(** A bundle with exactly the nodes that its root reaches in it. *)
Definition complete (m : gmap bytes bytes) (root : option Cid) : Prop := ∀ c, linked m root c ↔ is_Some (m !! c).

Lemma total_bytes_ok ns a :
  a + foldr (λ n s, len (node_bytes n) + s) 0 ns ≤ usize_max →
  foldM (λ n node, count_in n (len (node_bytes node))) a ns = Ok (a + foldr (λ n s, len (node_bytes n) + s) 0 ns).
Proof.
  assert (∀ ns, 0 ≤ foldr (λ n s, len (node_bytes n) + s) 0 ns) as Hpos.
  { clear. intros ns. induction ns as [|n ns IH]; cbn; [lia|]. pose proof (len_nonneg (node_bytes n)). lia. }
  revert a; induction ns as [|n ns IH]; intros a Ha; [cbn; f_equal; lia|]. cbn [foldr foldM] in *.
  specialize (Hpos ns). rewrite count_in_ok by lia. cbn [mbind outcome_bind]. rewrite IH by lia. f_equal. lia.
Qed.

Lemma node_sum m : foldr (λ n s, len (node_bytes n) + s) 0 (node_of <$> btree_iter m) = Z.of_nat (sum_of length m).
Proof.
  unfold sum_of. rewrite <- (foldr_permutation (=) (λ (e : bytes * bytes) n, (length e.2 + n)%nat) 0%nat (btree_iter m));
    [|intros; lia|apply btree_iter_perm].
  induction (btree_iter m) as [|e l IH]; [done|]. cbn [fmap list_fmap foldr node_of node_bytes]. rewrite IH. unfold len. lia.
Qed.

Lemma filter_nil {A} (p : A → bool) l : List.filter p l = [] ↔ ∀ x, x ∈ l → p x = false.
Proof.
  induction l as [|x l IH]; [split; [by intros _ x ?%not_elem_of_nil|done]|]. cbn [List.filter]. setoid_rewrite elem_of_cons.
  destruct (p x) eqn:Hp; [split; [done|]; intros Hall; rewrite Hall in Hp by (by left); done|]. rewrite IH. naive_solver.
Qed.

Lemma mapM_wire_nil l : mapM cid_from_wire_bytes l = Ok [] ↔ l = [].
Proof.
  destruct l as [|c l]; [done|]. change (mapM cid_from_wire_bytes (c :: l)) with (y ← cid_from_wire_bytes c; l' ← mapM cid_from_wire_bytes l; Ok (y :: l')).
  split; [|done]. destruct (cid_from_wire_bytes c); [|done|done]. cbn [mbind outcome_bind]. by destruct (mapM _ l).
Qed.

(** The two lists that verification looks at are empty when the bundle is complete. *)
Lemma complete_lists m root (r : list bytes) :
  (∀ c, c ∈ r ↔ linked m root c) →
  complete m root ↔ List.filter (λ c, negb (bool_decide (is_Some (m !! c)))) r = [] ∧
    List.filter (λ c, negb (bool_decide (c ∈ r))) (btree_iter m).*1 = [].
Proof.
  intros Hr. rewrite !filter_nil. setoid_rewrite negb_false_iff. setoid_rewrite bool_decide_eq_true. setoid_rewrite Hr.
  assert (∀ c, c ∈ (btree_iter m).*1 ↔ is_Some (m !! c)) as Hdom.
  { intros c. rewrite list_elem_of_fmap. split; [intros ([k v] & -> & Hin%elem_btree); by exists v|].
    intros [v Hv]. exists (c, v). by rewrite elem_btree. }
  setoid_rewrite Hdom. unfold complete. split; [intros Hc; split; intros c; apply Hc|]. intros [H1 H2] c. split; auto.
Qed.

Lemma verify_inv self v :
  verify self = Ok v → ∃ m, format_version self = 1 ∧ checked (nodes self) ∧ bundled (nodes self) m ∧
    (valid v = true ↔ complete m (t_root (tree self))).
Proof.
  unfold verify, validate_format_version. destruct (Z.eqb_spec (format_version self) SNAPSHOT_BUNDLE_FORMAT_VERSION) as [Hver|]; [|done].
  cbn [mbind outcome_bind]. destruct (canonical_snapshot_nodes (nodes self)) as [l| |] eqn:Hl; [|done|done].
  apply canonical_inv in Hl as (m & Hch & Hm & ->). cbn [mbind outcome_bind].
  destruct (snapshot_bundle_summary self _) as [sm| |]; [|done|done]. cbn [mbind outcome_bind].
  fold pair_of. change (λ node, (cid node, node_bytes node)) with pair_of. rewrite map_of_canonical.
  destruct (reachable_snapshot_nodes (tree self) m) as [r| |] eqn:Hr; [|done|done].
  pose proof (reachable_nodes_inv _ _ _ Hr) as Hin. cbn [mbind outcome_bind].
  pose proof (complete_lists m (t_root (tree self)) r.1 Hin) as Hc.
  destruct (mapM cid_from_wire_bytes (List.filter _ r.1)) as [mi| |] eqn:Hmi; [|done|done]. cbn [mbind outcome_bind].
  destruct (mapM cid_from_wire_bytes (List.filter _ (btree_iter m).*1)) as [ex| |] eqn:Hex; [|done|done]. cbn [mbind outcome_bind].
  intros [= <-]. exists m. split; [done|]. split; [done|]. split; [done|]. cbn [valid].
  rewrite andb_true_iff, !bool_decide_eq_true, Hc, <- !mapM_wire_nil, Hmi, Hex.
  rewrite !mapM_wire_nil. split; intros [H1 H2]; [by subst|]. injection H1 as ->. by injection H2 as ->.
Qed.

Lemma verify_ok self m :
  format_version self = 1 → checked (nodes self) → bundled (nodes self) m → decodes m →
  Z.of_nat (sum_of length m) ≤ usize_max → complete m (t_root (tree self)) → ∃ v, verify self = Ok v ∧ valid v = true.
Proof.
  intros Hver Hch Hm Hd Hb Hc. unfold verify, validate_format_version. rewrite Hver. cbn [Z.eqb Pos.eqb SNAPSHOT_BUNDLE_FORMAT_VERSION mbind outcome_bind].
  rewrite (canonical_ok _ m Hch Hm). cbn [mbind outcome_bind]. unfold snapshot_bundle_summary, total_bytes.
  rewrite total_bytes_ok by (rewrite node_sum; lia). cbn [mbind outcome_bind].
  change (λ node, (cid node, node_bytes node)) with pair_of. rewrite map_of_canonical.
  destruct (reachable_nodes_ok (tree self) m Hd Hb) as (r & Hr). rewrite Hr. cbn [mbind outcome_bind].
  destruct (proj1 (complete_lists m _ r.1 (reachable_nodes_inv _ _ _ Hr)) Hc) as [Hmi Hex]. rewrite Hmi, Hex. by eexists.
Qed.
End verification.
End SnapshotSpec.
