(* ===== verification/SnapshotContract.v ===== *)
(** * The contract of snapshot bundles

    What an import guarantees about a bundle of any origin, that the transport bytes of a
    bundle depend on its contents only, and that an export under limits is either the whole
    tree or an error that shows the limit too small. *)

From Stdlib Require Import ZArith Lia Strings.Byte.
From stdpp Require Import base tactics numbers list strings option gmap sorting.
From S2P Require Import Prelude Types Format Node ChunkSpec Store Emitter Builder TreeSpec BuiltTree Engine EngineSpec Write WriteSpec Loader LoaderSpec CanonicalWrite TreeDiff TreeDiffSpec TreeDiffContract Reach ReachSpec ReachContract Manifest Snapshot SnapshotSpec.
Import Format Config Node Store Builder TreeSpec Engine EngineSpec Loader LoaderSpec Snapshot SnapshotSpec.
Import Emitter(foldM).
Import TreeDiff(count_in, load_child_frontier_ordered_for_format, ASYNC_NODE_PREFETCH_BATCH_SIZE).
Import TreeDiffSpec(nodes_of, frontier_for_ok, subtree_node_tree).
Import Reach(verify_node_bytes, child_cid_at, sort_cids, entry_le, entry_le_dec, btree_iter, btree_iter_perm).
Import ReachSpec(reachable, reach_root, reach_child, child_of, held, fits, count_in_ok, subtree_format, child_cid_at_ok, distinct_le, paths_nodes).
Import ReachContract(tree_keep, reachable_bytes, reachable_stored, one_held, stored_bytes, stored_bytes_le, versions_fit, versions_size, new_version_holds).
Import TreeDiffContract(sample_versions, sample_new, versions_engine, versions_engine_manages).
Import CanonicalWrite(sample_es').
Import ChunkSpec(sample_config).
Import Manifest(Tree_eq_dec).

Local Open Scope Z_scope.

Module SnapshotContract.

(** ** Import *)
Section import.
Context `{HashesOk} {D : Type} `{StoreOk D}.
Implicit Types (d : ProllyEngine D) (bundle : SnapshotBundle).

Lemma publish_replicated_ok (es : list (bytes * bytes)) d :
  ∃ d', publish_replicated es d = (Ok tt, d') ∧ d' = with_store d (en_store d') ∧ contents (en_store d') = put_all es (contents (en_store d)).
Proof.
  unfold publish_replicated, publish_nodes. destruct (batch_put_ok (en_store d) es) as (s & -> & Hs).
  exists (with_store d s). by repeat split.
Qed.

Lemma put_nodes_ok (ns : list SnapshotBundleNode) d :
  ∃ d', (if bool_decide (ns = []) then mret tt else publish_replicated ((λ node, (cid node, node_bytes node)) <$> ns)) d = (Ok tt, d') ∧
    d' = with_store d (en_store d') ∧ contents (en_store d') = put_all (pair_of <$> ns) (contents (en_store d)).
Proof.
  case_bool_decide as Hnil; [|apply publish_replicated_ok]. subst ns. exists d. split; [done|]. by destruct d.
Qed.

Lemma import_ok bundle v d :
  verify bundle = Ok v → valid v = true →
  ∃ d', import_snapshot bundle d = (Ok (tree bundle), d') ∧ d' = with_store d (en_store d') ∧
    contents (en_store d') = put_all (pair_of <$> nodes bundle) (contents (en_store d)).
Proof.
  intros Hv Hval. unfold import_snapshot. rewrite (action_bind_Ok (run _) _ d v d) by (unfold run; by rewrite Hv). rewrite Hval. cbn [negb].
  destruct (put_nodes_ok (nodes bundle) d) as (d' & Hp & Hd & Hc). rewrite (action_bind_Ok _ _ _ _ _ Hp). by exists d'.
Qed.

(** An import that fails leaves the destination as it is. *)
Lemma import_inv bundle d r d' :
  import_snapshot bundle d = (r, d') →
  (∃ m, r = Ok (tree bundle) ∧ checked (nodes bundle) ∧ bundled (nodes bundle) m ∧ complete m (t_root (tree bundle)) ∧
     contents (en_store d') = put_all (pair_of <$> nodes bundle) (contents (en_store d))) ∨
  (d' = d ∧ ∀ t, r ≠ Ok t).
Proof.
  intros Hi. destruct (verify bundle) as [v| |] eqn:Hv; [|right..].
  2,3: unfold import_snapshot, run, mbind, action_bind in Hi; rewrite Hv in Hi; by injection Hi as <- <-.
  destruct (valid v) eqn:Hval; [left|right].
  - destruct (import_ok bundle v d Hv Hval) as (d1 & Hd1 & _ & Hc). rewrite Hd1 in Hi. injection Hi as <- <-.
    destruct (verify_inv bundle v Hv) as (m & _ & Hch & Hm & Hcomp). exists m. apply Hcomp in Hval. done.
  - unfold import_snapshot in Hi. rewrite (action_bind_Ok (run _) _ d v d) in Hi by (unfold run; by rewrite Hv).
    rewrite Hval in Hi. cbn [negb] in Hi. by injection Hi as <- <-.
Qed.

(** The supplied nodes and the stored ones do not collide. *)
Definition no_collision (st : gmap bytes bytes) (ns : list SnapshotBundleNode) : Prop :=
  ∀ n b, n ∈ ns → st !! cid n = Some b → Cid_from_bytes (node_bytes n) = Cid_from_bytes b → node_bytes n = b.

(** The links of a bundle are those of the store. *)
Lemma linked_reachable st t m :
  held st [t] → (∀ c b b', m !! c = Some b → reachable st [t] c → st !! c = Some b' → b = b') →
  (∀ c, reachable st [t] c → linked m (t_root t) c → is_Some (m !! c)) →
  ∀ c, linked m (t_root t) c ↔ reachable st [t] c.
Proof.
  intros Hheld Hag Hcomp c. split.
  - induction 1 as [root Hr|c b n child _ IH Hc Hn Hlf Hch]; [by apply (reach_root _ _ t root); [left|]|].
    destruct (reachable_stored st [t] c Hheld IH) as (f & h & es & Hs). destruct (subtree_format st f h c es Hs) as (n' & Hn' & _).
    apply (reach_child _ _ c); [done|]. exists n'. split; [done|]. destruct Hn' as (b' & Hb' & _ & _ & Hfrom & _).
    assert (n = n') as <-; [|done]. rewrite (Hag c b b' Hc IH Hb') in Hn. congruence.
  - induction 1 as [t' root Ht Hr|c child Hrc IH (n & (b' & Hb' & _ & _ & Hfrom & _) & Hlf & Hch)].
    + apply list_elem_of_singleton in Ht as ->. by apply linked_root.
    + destruct (Hcomp c Hrc IH) as [b Hb]. apply (linked_child _ _ c b n); [done|done| |done|done].
      by rewrite (Hag c b b' Hb Hrc Hb').
Qed.

Lemma import_holds st h es bundle m d' d :
  tree_holds st (tree bundle) h es → no_collision st (nodes bundle) →
  checked (nodes bundle) → bundled (nodes bundle) m → complete m (t_root (tree bundle)) →
  contents (en_store d') = put_all (pair_of <$> nodes bundle) (contents (en_store d)) →
  (∀ c, c ∈ cid <$> nodes bundle ↔ reachable st [tree bundle] c) ∧ tree_holds (contents (en_store d')) (tree bundle) h es ∧
  ∀ c, ¬ reachable st [tree bundle] c → contents (en_store d') !! c = contents (en_store d) !! c.
Proof.
  intros Hh Hno Hch Hm Hcomp Hc. pose proof (one_held st (tree bundle) h es Hh) as Hheld.
  assert (∀ c b b', m !! c = Some b → reachable st [tree bundle] c → st !! c = Some b' → b = b') as Hag'.
  { intros c b b' Hb%Hm Hr Hb'. destruct (reachable_bytes st _ c Hheld Hr) as (b2 & Hb2 & Hcid).
    rewrite Hb' in Hb2. injection Hb2 as <-. pose proof (Hch _ Hb) as Hcb. cbn [node_of cid node_bytes fst snd] in Hcb.
    apply (Hno _ b' Hb Hb'). cbn [node_of node_bytes snd]. congruence. }
  pose proof (linked_reachable st (tree bundle) m Hheld Hag' (λ c _, proj1 (Hcomp c))) as Hl. unfold complete in Hcomp.
  assert (∀ c, is_Some (m !! c) ↔ reachable st [tree bundle] c) as Hdom by (intros c; by rewrite <- Hcomp).
  split; [|split].
  - intros c. rewrite <- Hdom, list_elem_of_fmap. split.
    + intros ([c' b] & -> & Hn). exists b. by apply Hm.
    + intros [b Hb%Hm]. by exists (node_of (c, b)).
  - apply (tree_keep st _ [tree bundle]); [|by left|done]. intros c Hr. destruct (proj2 (Hdom c) Hr) as [b Hb].
    rewrite Hc, (bundled_put _ m _ c b Hm Hb). destruct (reachable_bytes st _ c Hheld Hr) as (b' & Hb' & _).
    by rewrite Hb', (Hag' c b b' Hb Hr Hb').
  - intros c Hr. rewrite Hc. apply (bundled_miss _ m); [done|]. apply eq_None_not_Some. by rewrite Hdom.
Qed.
End import.

(** C17. What an import guarantees about a bundle of any origin: if it succeeds, the bundle has
    exactly the nodes of the tree that its root identifies, the destination holds that
    tree with the entries it has elsewhere, and no other node of the destination changed;
    if it fails, the destination is as it was. *)
Theorem snapshot_import_sound `{HashesOk} {D} `{StoreOk D} st h es bundle (d d' : ProllyEngine D) r :
  tree_holds st (tree bundle) h es → no_collision st (nodes bundle) → import_snapshot bundle d = (r, d') →
  match r with
  | Ok t => t = tree bundle ∧ (∀ c, c ∈ cid <$> nodes bundle ↔ reachable st [t] c) ∧ tree_holds (contents (en_store d')) t h es ∧
      ∀ c, ¬ reachable st [t] c → contents (en_store d') !! c = contents (en_store d) !! c
  | _ => d' = d
  end.
Proof.
  intros Hh Hno [(m & -> & Hch & Hm & Hcomp & Hc)|[-> Hr]]%import_inv; [|destruct r as [t| |]; [by destruct (Hr t)|done|done]].
  split; [done|]. by eapply import_holds.
Qed.

(** ** Export *)
Section export.
Context `{HashesOk} (limits : SnapshotExportLimits) (st : gmap bytes bytes) (t : Tree) (B : Z) (Hfit : fits st B).
Let f := Config.format (t_config t).
Implicit Types x : Export.

Definition on_path (c : Cid) : Prop := reachable st [t] c ∧ ∃ h es, subtree st f h c es.

(** Some nodes of the tree are already more than the limits allow. *)
Definition exceeded : Prop :=
  ∃ cids, NoDup cids ∧ (∀ c, c ∈ cids → reachable st [t] c) ∧
    (max_nodes limits < len cids ∨ max_bytes limits < stored_bytes st cids).

Definition limit_error {A} (o : outcome Error A) : Prop :=
  exceeded ∧ ∃ resource limit actual, limit < actual ∧ o = Err (SnapshotExportLimitExceeded resource limit actual).

Lemma limit_error_bind {A C} (o : outcome Error A) (k : A → outcome Error C) : limit_error o → limit_error (o ≫= k).
Proof. intros [He (r & l & a & Hla & ->)]. split; [done|]. by exists r, l, a. Qed.

Lemma exceeded_nodes (seen : gset Cid) : (∀ c, c ∈ seen → on_path c) → max_nodes limits < Z.of_nat (size seen) → exceeded.
Proof.
  intros Hs Hlt. exists (elements seen). split; [apply NoDup_elements|]. split; [intros c Hc%elem_of_elements; by apply Hs|by left].
Qed.

Lemma stored_bytes_snoc cids c : stored_bytes st (cids ++ [c]) = stored_bytes st cids + len (default [] (st !! c)).
Proof. unfold stored_bytes. induction cids as [|k cids IH]; cbn [app foldr]; [lia|]. rewrite IH. lia. Qed.

#[local] Instance stored_bytes_perm : Proper ((≡ₚ) ==> (=)) (stored_bytes st).
Proof. unfold stored_bytes. induction 1; cbn [foldr]; lia. Qed.

Definition queued (x : Export) (new : list Cid) : Export :=
  {| x_seen := list_to_set new ∪ x_seen x; x_frontier := x_frontier x ++ new; x_nodes := x_nodes x; x_bytes := x_bytes x |}.

Lemma export_children c n h subs i k x :
  stored_node st c n → leaf n = false → reachable st [t] c → Forall2 (subtree st f h) (vals n) subs → (i + k ≤ length (vals n))%nat →
  (∀ c, c ∈ x_seen x → on_path c) → Z.of_nat (size (x_seen x)) ≤ max_nodes limits →
  limit_error (foldM (export_child limits n) x (seq i k)) ∨
  ∃ new, foldM (export_child limits n) x (seq i k) = Ok (queued x new) ∧ NoDup new ∧ (∀ c, c ∈ new → c ∉ x_seen x ∧ on_path c) ∧
    Z.of_nat (size (list_to_set new ∪ x_seen x)) ≤ max_nodes limits ∧
    ∀ j child, (i ≤ j < i + k)%nat → vals n !! j = Some child → child ∈ new ∨ child ∈ x_seen x.
Proof.
  intros Hn Hlf Hr Hsubs. revert i x; induction k as [|k IH]; intros i x Hle Hpath Hsize.
  { right. exists []. assert (list_to_set [] ∪ x_seen x = x_seen x) as Hx by set_solver. unfold queued. rewrite Hx, app_nil_r. split; [by destruct x|].
    split; [constructor|]. split; [by intros c' ?%not_elem_of_nil|]. split; [done|lia]. }
  cbn [seq foldM]. unfold export_child at 2 4. destruct (lookup_lt_is_Some_2 (vals n) i) as [child Hc]; [lia|].
  rewrite (child_cid_at_ok st f h n subs i child Hsubs Hc). cbn [mbind outcome_bind].
  assert (on_path child) as Hchild.
  { destruct (Forall2_lookup_l _ _ _ _ _ Hsubs Hc) as (sub & _ & Hsub). split; [|by exists h, sub].
    apply (reach_child _ _ c); [done|]. exists n. split; [done|]. split; [done|]. by eapply list_elem_of_lookup_2. }
  destruct (decide (child ∈ x_seen x)) as [Hin|Hnin].
  { cbn [mbind outcome_bind]. destruct (IH (S i) x) as [?|(new & ? & ? & ? & ? & Hall)]; [lia|done|done|by left|right].
    exists new. do 4 (split; [done|]). intros j child' Hj Hj'. destruct (decide (j = i)) as [->|]; [right; congruence|apply (Hall j); [lia|done]]. }
  set (x1 := {| x_seen := {[child]} ∪ x_seen x; x_frontier := x_frontier x ++ [child]; x_nodes := x_nodes x; x_bytes := x_bytes x |}).
  assert (∀ c', c' ∈ x_seen x1 → on_path c') as Hpath1 by (intros c' [->%elem_of_singleton|?]%elem_of_union; [done|by apply Hpath]).
  destruct (Z.ltb_spec (max_nodes limits) (Z.of_nat (size ({[child]} ∪ x_seen x)))) as [Hlt|Hge]; cbn [mbind outcome_bind].
  { left. split; [by apply (exceeded_nodes (x_seen x1))|by eexists _, _, _]. }
  destruct (IH (S i) x1) as [?|(new & Hf & Hnd & Hnew & Hsz & Hall)]; [lia|done|done|by left|right].
  exists (child :: new). assert (list_to_set (child :: new) ∪ x_seen x = list_to_set new ∪ x_seen x1) as Heq by (cbn; set_solver).
  split; [rewrite Hf; unfold queued; rewrite Heq; cbn [x1 x_frontier x_nodes x_bytes]; by rewrite <- app_assoc|].
  split; [constructor; [intros Hc'; apply Hnew in Hc' as [Hc' _]; apply Hc'; cbn; set_solver|done]|].
  split; [intros c' [->|Hc']%elem_of_cons; [done|]; destruct (Hnew c' Hc') as [Hc1 ?]; split; [cbn in Hc1; set_solver|done]|].
  split; [by rewrite Heq|]. intros j child' Hj Hj'. destruct (decide (j = i)) as [->|]; [rewrite Hc in Hj'; injection Hj' as <-; left; by left|].
  destruct (Hall j child') as [?|Hs]; [lia|done|left; by right|]. cbn [x1 x_seen] in Hs. rewrite elem_of_cons. set_solver.
Qed.

(** ** The invariant of the export *)
(** [pend] are the nodes that a round has loaded and not yet looked at. *)
Record exporting (root : Cid) (pend : list Cid) (x : Export) : Prop := {
  xi_nodup : NoDup (pend ++ x_frontier x ++ (cid <$> x_nodes x));
  xi_seen c : c ∈ x_seen x ↔ c ∈ pend ++ x_frontier x ++ (cid <$> x_nodes x);
  xi_path c : c ∈ x_seen x → on_path c;
  xi_nodes n : n ∈ x_nodes x → st !! cid n = Some (node_bytes n);
  xi_closed c child : c ∈ cid <$> x_nodes x → child_of st c child → child ∈ x_seen x;
  xi_root : root ∈ x_seen x;
  xi_bytes : x_bytes x = stored_bytes st (cid <$> x_nodes x);
  xi_limits : Z.of_nat (size (x_seen x)) ≤ max_nodes limits ∧ x_bytes x ≤ max_bytes limits;
}.

Definition exported_node (x : Export) (c : Cid) (b : bytes) (new : list Cid) : Export :=
  {| x_seen := list_to_set new ∪ x_seen x; x_frontier := x_frontier x ++ new;
     x_nodes := x_nodes x ++ [{| cid := c; node_bytes := b |}]; x_bytes := x_bytes x + len b |}.

Lemma export_permutation (pend fr new cids : list Cid) c :
  pend ++ (fr ++ new) ++ (cids ++ [c]) ≡ₚ new ++ (c :: pend) ++ fr ++ cids.
Proof.
  rewrite <- app_assoc, (Permutation_app_comm cids [c]), (Permutation_app_swap_app fr new), (Permutation_app_swap_app pend new).
  cbn [app]. rewrite <- (Permutation_middle fr cids c), <- (Permutation_middle pend (fr ++ cids) c). done.
Qed.

Lemma exporting_node root pend c n b x new :
  exporting root (c :: pend) x → st !! c = Some b → stored_node st c n →
  NoDup new → (∀ k, k ∈ new → k ∉ x_seen x ∧ on_path k) →
  Z.of_nat (size (list_to_set new ∪ x_seen x)) ≤ max_nodes limits → x_bytes x + len b ≤ max_bytes limits →
  (leaf n = false → ∀ child, child ∈ vals n → child ∈ new ∨ child ∈ x_seen x) →
  exporting root pend (exported_node x c b new).
Proof.
  intros [Hnd Hse Hpa Hno Hcl Hro Hby Hli] Hb Hn Hnnd Hnew Hsz Hmax Hch.
  constructor; cbn [exported_node x_seen x_frontier x_nodes x_bytes]; rewrite ?fmap_app; cbn [fmap list_fmap cid].
  - rewrite export_permutation. apply NoDup_app. split; [done|]. split; [|done]. intros k Hk Hk2. apply (Hnew k Hk). by apply Hse.
  - intros k. rewrite export_permutation, (elem_of_app new), <- Hse, elem_of_union, elem_of_list_to_set. done.
  - intros k [Hk%elem_of_list_to_set|Hk]%elem_of_union; [by apply Hnew|by apply Hpa].
  - intros n' [Hn'| ->%list_elem_of_singleton]%elem_of_app; [by apply Hno|done].
  - intros k child [Hk| ->%list_elem_of_singleton]%elem_of_app Hc; rewrite elem_of_union, elem_of_list_to_set; [right; by apply (Hcl k)|].
    destruct Hc as (n' & Hn' & Hlf & Hc). rewrite (stored_node_unique _ _ _ _ Hn' Hn) in *. by apply Hch.
  - by apply elem_of_union_r.
  - rewrite stored_bytes_snoc, Hb, Hby. done.
  - done.
Qed.

Definition weighed (x : Export) (b : bytes) : Export :=
  {| x_seen := x_seen x; x_frontier := x_frontier x; x_nodes := x_nodes x; x_bytes := x_bytes x + len b |}.

Lemma export_links root pend c n b x :
  exporting root (c :: pend) x → stored_node st c n → st !! c = Some b → x_bytes x + len b ≤ max_bytes limits →
  let links := if leaf n then Ok (weighed x b) else foldM (export_child limits n) (weighed x b) (seq 0 (length (keys n))) in
  limit_error links ∨ ∃ new, links = Ok (queued (weighed x b) new) ∧ exporting root pend (exported_node x c b new).
Proof.
  intros Hx Hn Hb Hge links. subst links. destruct (stored_node_sorted st c n Hn) as [_ Hlen].
  assert (c ∈ x_seen x) as Hin by (apply (xi_seen _ _ _ Hx); by left). destruct (xi_path _ _ _ Hx c Hin) as [Hr (h & es & Hs)].
  destruct (leaf n) eqn:Hlf.
  - right. exists []. assert (list_to_set [] ∪ x_seen x = x_seen x) as Heq by set_solver.
    split; [unfold queued; cbn [weighed x_seen x_frontier x_nodes x_bytes]; by rewrite Heq, app_nil_r|].
    apply (exporting_node root pend c n); [done|done|done|constructor|by intros k ?%not_elem_of_nil| |done|congruence].
    rewrite Heq. apply (xi_limits _ _ _ Hx).
  - destruct (subtree_node_tree st f h c es Hs) as (n' & Hn' & _ & Htree). rewrite (stored_node_unique _ _ _ _ Hn' Hn) in *.
    destruct h as [|h]; [destruct Htree; congruence|]. destruct Htree as (_ & subs & Hsubs & _).
    destruct (export_children c n h subs 0 (length (keys n)) (weighed x b) Hn Hlf Hr Hsubs) as [?|(new & Hf & Hnn & Hnew & Hsz & Hall)];
      [lia|apply (xi_path _ _ _ Hx)|apply (xi_limits _ _ _ Hx)|by left|right].
    exists new. split; [done|]. apply (exporting_node root pend c n); [done..|]. intros _ child Hc.
    apply list_elem_of_lookup in Hc as [j Hj]. apply (Hall j); [|done]. pose proof (lookup_lt_Some _ _ _ Hj). lia.
Qed.

Lemma export_node_ok root pend c n x :
  exporting root (c :: pend) x → stored_node st c n →
  limit_error (export_node limits x (c, n)) ∨
  ∃ x', export_node limits x (c, n) = Ok x' ∧ exporting root pend x' ∧ length (x_nodes x') = S (length (x_nodes x)).
Proof.
  intros Hx Hn. destruct (stored_node_sorted st c n Hn) as [_ Hlen]. pose proof Hn as (b & Hb & Hcid & Hto & _).
  assert (c ∈ x_seen x) as Hin by (apply (xi_seen _ _ _ Hx); by left). 
  unfold export_node. rewrite Hlen, Nat.eqb_refl, Hto. cbn [negb mbind outcome_bind]. rewrite verify_bytes_ok by done. cbn [mbind outcome_bind].
  assert (NoDup ((cid <$> x_nodes x) ++ [c])) as Hnd.
  { pose proof (xi_nodup _ _ _ Hx) as Hnd. cbn [app] in Hnd. apply NoDup_cons in Hnd as [Hc Hnd]. rewrite !elem_of_app in Hc.
    apply NoDup_app in Hnd as (_ & _ & (_ & _ & Hnd)%NoDup_app). apply NoDup_app. split; [done|]. split; [|apply NoDup_singleton].
    intros k Hk ->%list_elem_of_singleton. tauto. }
  pose proof (stored_bytes_le st B _ Hfit Hnd) as Hle. rewrite stored_bytes_snoc, Hb, <- (xi_bytes _ _ _ Hx) in Hle. cbn [default] in Hle.
  rewrite checked_add_le by (cbn in Hle; lia). cbn [ok_or mbind outcome_bind].
  destruct (Z.ltb_spec (max_bytes limits) (x_bytes x + len b)) as [Hlt|Hge].
  { left. split; [|by eexists _, _, _]. exists ((cid <$> x_nodes x) ++ [c]). split; [done|]. split.
    - intros k Hk. apply (xi_path _ _ _ Hx), (xi_seen _ _ _ Hx). rewrite !elem_of_app in *. rewrite list_elem_of_singleton in Hk.
      destruct Hk as [?| ->]; [tauto|left; by left].
    - right. by rewrite stored_bytes_snoc, Hb, <- (xi_bytes _ _ _ Hx). }
  fold (weighed x b). destruct (export_links root pend c n b x Hx Hn Hb Hge) as [He|(new & -> & Hx')].
  - left. by apply limit_error_bind.
  - right. cbn [mbind outcome_bind]. eexists. split; [done|]. split; [exact Hx'|]. cbn. rewrite length_app. cbn. lia.
Qed.

Lemma export_nodes_ok root pend ns x :
  exporting root pend x → Forall2 (stored_node st) pend ns →
  limit_error (foldM (export_node limits) x (zip pend ns)) ∨
  ∃ x', foldM (export_node limits) x (zip pend ns) = Ok x' ∧ exporting root [] x' ∧
    length (x_nodes x') = (length (x_nodes x) + length pend)%nat.
Proof.
  intros Hx Hns. revert x Hx; induction Hns as [|c n pend ns Hn _ IH]; intros x Hx.
  { right. exists x. split; [done|]. split; [done|]. cbn. lia. }
  cbn [zip zip_with foldM]. destruct (export_node_ok root pend c n x Hx Hn) as [He|(x1 & -> & Hx1 & Hl1)]; [left; by apply limit_error_bind|].
  cbn [mbind outcome_bind]. destruct (IH x1 Hx1) as [?|(x2 & Hf & Hx2 & Hl2)]; [by left|right].
  exists x2. split; [done|]. split; [done|]. cbn [length]. lia.
Qed.

Lemma exporting_take root k x :
  exporting root [] x →
  exporting root (take k (x_frontier x))
    {| x_seen := x_seen x; x_frontier := drop k (x_frontier x); x_nodes := x_nodes x; x_bytes := x_bytes x |}.
Proof.
  intros [Hnd Hse Hpa Hno Hcl Hro Hby Hli]. constructor; cbn [x_seen x_frontier x_nodes x_bytes]; [| |done..].
  - by rewrite app_assoc, take_drop.
  - intros c. by rewrite app_assoc, take_drop.
Qed.

(** Every node was exported at most once. *)
Lemma exporting_size root x : exporting root [] x → (length (x_frontier x) + length (x_nodes x) ≤ size st)%nat.
Proof.
  intros Hx. rewrite <- (length_fmap cid), <- length_app. apply distinct_le; [apply (xi_nodup _ _ _ Hx)|].
  intros c Hc. apply (xi_seen _ _ _ Hx), (xi_path _ _ _ Hx) in Hc as [_ (h & es & Hs)].
  destruct (subtree_format st f h c es Hs) as (n & (b & Hb & _) & _). by exists b.
Qed.

Section loop.
Context {St : Type} `{StoreOk St}.
Implicit Types e : ProllyEngine St.

Lemma export_loop_ok g root fuel x e :
  engine_manages g st e → exporting root [] x → (size st - length (x_nodes x) < fuel)%nat →
  (∃ e' o, export_loop limits f fuel x e = (o, e') ∧ limit_error o) ∨
  ∃ x' e', export_loop limits f fuel x e = (Ok x', e') ∧ engine_manages g st e' ∧ exporting root [] x' ∧ x_frontier x' = [].
Proof.
  revert x e; induction fuel as [|fuel IH]; intros x e He Hx Hfuel; [lia|]. cbn [export_loop].
  case_bool_decide as Hnil; [right; by exists x, e|]. set (k := Z.to_nat _).
  assert (0 < k)%nat as Hk.
  { unfold k, len. destruct (x_frontier x) as [|c l] eqn:Hfr; [done|]. cbn [length].
    assert (0 < ASYNC_NODE_PREFETCH_BATCH_SIZE) by done. lia. }
  pose proof (exporting_take root k x Hx) as Hxt. set (current := take k (x_frontier x)) in *.
  assert (Forall (λ c, reachable st [t] c ∧ ∃ h es, subtree st f h c es) current) as Hpaths.
  { apply Forall_forall. intros c Hc. apply (xi_path _ _ _ Hxt), (xi_seen _ _ _ Hxt), elem_of_app. by left. }
  destruct (paths_nodes st [t] f current Hpaths) as (ns & Hns).
  destruct (frontier_for_ok st f g current ns e He Hns) as (e1 & Hl & He1). rewrite (action_bind_Ok _ _ _ _ _ Hl).
  destruct (export_nodes_ok root current ns _ Hxt (proj1 Hns)) as [Herr|(x1 & Hf & Hx1 & Hl1)].
  { left. destruct Herr as [Hex (r & l & a & Hla & Herr)]. exists e1, (Err (SnapshotExportLimitExceeded r l a)).
    rewrite (action_bind_Err (run _) _ e1 (SnapshotExportLimitExceeded r l a) e1) by (unfold run; by rewrite Herr). split; [done|]. split; [done|]. by exists r, l, a. }
  rewrite (action_bind_Ok (run _) _ e1 x1 e1) by (unfold run; by rewrite Hf).
  cbn [x_nodes] in Hl1. pose proof (exporting_size root x1 Hx1). assert (0 < length current)%nat.
  { unfold current. rewrite length_take. destruct (x_frontier x); [done|]. cbn [length]. lia. }
  apply (IH x1 e1 He1 Hx1). lia.
Qed.

(** The nodes of the tree, each once, in the order of their identifiers. *)
Definition whole (ns : list SnapshotBundleNode) : Prop :=
  NoDup (cid <$> ns) ∧ StronglySorted node_le ns ∧ ∀ c b, node_of (c, b) ∈ ns ↔ reachable st [t] c ∧ st !! c = Some b.

Definition within_limits (ns : list SnapshotBundleNode) : Prop :=
  len ns ≤ max_nodes limits ∧ stored_bytes st (cid <$> ns) ≤ max_bytes limits.

Global Instance node_le_trans : Transitive node_le.
Proof. intros a b c. unfold node_le. apply ble_trans. Qed.
Global Instance node_le_total : Total node_le.
Proof.
  intros a b. unfold node_le. destruct (bltb (cid a) (cid b)) eqn:Hab; [left; apply blt_le; by apply bltb_lt|right; by apply bltb_ge].
Qed.

Lemma exporting_done root x :
  exporting root [] x → t_root t = Some root → x_frontier x = [] →
  whole (merge_sort node_le (x_nodes x)) ∧ within_limits (merge_sort node_le (x_nodes x)).
Proof.
  intros [Hnd Hse Hpa Hno Hcl Hro Hby [Hl1 Hl2]] Hroot Hfr. rewrite Hfr in *. cbn [app] in *.
  assert (∀ c, c ∈ cid <$> x_nodes x ↔ reachable st [t] c) as Hreach.
  { intros c. rewrite <- Hse. split; [apply Hpa|]. induction 1 as [t' root' Ht Hr'|c child _ IH Hc].
    - apply list_elem_of_singleton in Ht as ->. rewrite Hroot in Hr'. by injection Hr' as <-.
    - apply (Hcl c); [by apply Hse|done]. }
  split; [split; [|split]|].
  - by rewrite merge_sort_Permutation.
  - apply StronglySorted_merge_sort; apply _.
  - intros c b. rewrite merge_sort_Permutation, <- Hreach. split.
    + intros Hn. split; [apply list_elem_of_fmap; by exists (node_of (c, b))|by apply (Hno _ Hn)].
    + intros [([c' b'] & -> & Hn)%list_elem_of_fmap Hb]. pose proof (Hno _ Hn) as Hb'. cbn [cid node_bytes] in *.
      rewrite Hb in Hb'. by injection Hb' as ->.
  - assert (size (x_seen x) = length (x_nodes x)) as Hsize.
    { rewrite <- (length_fmap cid), <- (size_list_to_set (C := gset Cid) _ Hnd). f_equal. apply set_eq. intros c. by rewrite Hse, elem_of_list_to_set. }
    unfold within_limits, len. rewrite merge_sort_Permutation, <- Hsize. split; [done|]. by rewrite <- Hby.
Qed.

Lemma export_ok g fuel h es e :
  0 < max_nodes limits → 0 < max_bytes limits → tree_holds st t h es → engine_manages g st e → (size st < fuel)%nat →
  (∃ e' o, export_snapshot_with_limits limits fuel t e = (o, e') ∧ limit_error o) ∨
  ∃ ns e', export_snapshot_with_limits limits fuel t e = (Ok (SnapshotBundle_new t ns), e') ∧ engine_manages g st e' ∧ whole ns ∧ within_limits ns.
Proof.
  intros Hmn Hmb Hh He Hfuel. unfold export_snapshot_with_limits.
  destruct (Z.eqb_spec (max_nodes limits) 0) as [|_]; [lia|]. destruct (Z.eqb_spec (max_bytes limits) 0) as [|_]; [lia|].
  destruct (t_root t) as [root|] eqn:Hroot.
  - unfold tree_holds in Hh. rewrite Hroot in Hh. destruct Hh as [Hs _].
    set (x0 := {| x_seen := {[root]}; x_frontier := [root]; x_nodes := []; x_bytes := 0 |}).
    assert (exporting root [] x0) as Hx0.
    { assert (on_path root) as Hp by (split; [by apply (reach_root _ _ t root); [left|]|by exists h, es]).
      constructor; cbn [x0 x_seen x_frontier x_nodes x_bytes app fmap list_fmap]; [apply NoDup_singleton| | |by intros n ?%not_elem_of_nil|
        by intros c ch ?%not_elem_of_nil|set_solver|done|rewrite size_singleton; lia].
      - intros c. by rewrite elem_of_singleton, list_elem_of_singleton.
      - by intros c ->%elem_of_singleton. }
    destruct (export_loop_ok g root fuel x0 e He Hx0) as [(e' & o & Ho & Herr)|(x & e' & Ho & He' & Hx & Hfr)]; [cbn; lia|left|right].
    + exists e', (o ≫= λ x, Ok (SnapshotBundle_new t (merge_sort node_le (x_nodes x)))).
      split; [|by apply limit_error_bind]. destruct Herr as [_ (r & l & a & Hla & ->)]. by rewrite (action_bind_Err _ _ _ _ _ Ho).
    + destruct (exporting_done root x Hx Hroot Hfr). eexists _, e'. rewrite (action_bind_Ok _ _ _ _ _ Ho). by split.
  - right. exists [], e. split; [done|]. split; [done|]. split; [|split; [change (0 ≤ max_nodes limits)|change (0 ≤ max_bytes limits)]; lia].
    split; [constructor|]. split; [constructor|]. intros c b. split; [by intros ?%not_elem_of_nil|]. intros [Hr _]. exfalso.
    induction Hr as [t' root Ht Hr|]; [|done]. apply list_elem_of_singleton in Ht as ->. congruence.
Qed.
End loop.
End export.

(** ** What was exported can be imported *)
Section roundtrip.
Context `{HashesOk} (st : gmap bytes bytes) (t : Tree) (h : nat) (es : list kv) (B : Z).
Context (Hfit : fits st B) (Hh : tree_holds st t h es) (ns : list SnapshotBundleNode) (Hw : whole st t ns).

Definition tree_map : gmap bytes bytes := list_to_map (pair_of <$> ns).

Lemma pair_fst : (pair_of <$> ns).*1 = cid <$> ns.
Proof. by rewrite <- list_fmap_compose. Qed.

Lemma tree_bundled : bundled ns tree_map.
Proof.
  destruct Hw as (Hnd & _ & _). intros c b. unfold tree_map. rewrite <- elem_of_list_to_map by (by rewrite pair_fst).
  rewrite list_elem_of_fmap. split; [intros ([c' b'] & [= -> ->] & Hn); done|]. intros Hn. by exists (node_of (c, b)).
Qed.

Lemma tree_lookup c b : tree_map !! c = Some b ↔ reachable st [t] c ∧ st !! c = Some b.
Proof. destruct Hw as (_ & _ & Hin). by rewrite (tree_bundled c b), Hin. Qed.

Lemma tree_checked : checked ns.
Proof.
  intros [c b] Hn. destruct Hw as (_ & _ & Hin). apply (Hin c b) in Hn as [Hr Hb]. cbn [cid node_bytes].
  destruct (reachable_bytes st [t] c (one_held st t h es Hh) Hr) as (b' & Hb' & Hc). congruence.
Qed.

Lemma tree_canonical : canonical_snapshot_nodes ns = Ok ns.
Proof.
  rewrite (canonical_ok ns tree_map tree_checked tree_bundled), (btree_iter_unique tree_map (pair_of <$> ns)); [by rewrite nodes_pairs| | |].
  - destruct Hw as (Hnd & _ & _). rewrite <- pair_fst in Hnd. by eapply NoDup_fmap_1.
  - destruct Hw as (_ & Hs & _). clear -Hs. induction Hs as [|n l _ IH Hall]; [constructor|]. cbn [fmap list_fmap]. constructor; [done|].
    apply Forall_fmap. eapply Forall_impl; [exact Hall|]. done.
  - intros c b. rewrite (tree_bundled c b), list_elem_of_fmap. split; [intros ([c' b'] & [= -> ->] & Hn); done|].
    intros Hn. by exists (node_of (c, b)).
Qed.

Lemma tree_decodes : decodes tree_map.
Proof.
  intros c b [Hr Hb]%tree_lookup. destruct (reachable_stored st [t] c (one_held st t h es Hh) Hr) as (f & h' & es' & Hs).
  destruct (subtree_node_tree st f h' c es' Hs) as (n & Hn & _ & Htree). exists n.
  destruct (stored_node_sorted st c n Hn) as [_ Hlen]. destruct Hn as (b' & Hb' & _ & _ & Hfrom & _).
  rewrite Hb in Hb'. injection Hb' as <-. split; [done|]. split; [done|]. intros Hlf.
  destruct h' as [|h']; [destruct Htree; congruence|]. destruct Htree as (_ & subs & Hsubs & _).
  apply Forall_lookup. intros i child Hc. destruct (Forall2_lookup_l _ _ _ _ _ Hsubs Hc) as (sub & _ & Hsub). by eapply subtree_cid.
Qed.

Lemma tree_complete : complete tree_map (t_root t).
Proof.
  pose proof (one_held st t h es Hh) as Hheld. unfold complete. intros c. rewrite (linked_reachable st t tree_map Hheld).
  - split; [|intros [b [Hr _]%tree_lookup]; done]. intros Hr. destruct (reachable_bytes st [t] c Hheld Hr) as (b & Hb & _).
    exists b. by apply tree_lookup.
  - intros k b b' [_ Hb]%tree_lookup _ Hb'. congruence.
  - intros k Hr _. destruct (reachable_bytes st [t] k Hheld Hr) as (b & Hb & _). exists b. by apply tree_lookup.
Qed.

Lemma tree_sum : Z.of_nat (sum_of length tree_map) ≤ usize_max.
Proof.
  pose proof tree_canonical as Hc. rewrite (canonical_ok ns tree_map tree_checked tree_bundled) in Hc. injection Hc as Hc.
  rewrite <- node_sum, Hc. destruct Hw as (Hnd & _ & Hin). pose proof (stored_bytes_le st B _ Hfit Hnd) as Hle.
  assert (foldr (λ n s, len (node_bytes n) + s) 0 ns = stored_bytes st (cid <$> ns)) as ->; [|done].
  assert (∀ n, n ∈ ns → st !! cid n = Some (node_bytes n)) as Hst by (intros [c b] Hn; by apply (Hin c b)).
  clear -Hst. induction ns as [|n l IH]; [done|]. cbn [foldr fmap list_fmap stored_bytes]. rewrite Hst by (by left). cbn [default].
  rewrite IH by (intros; apply Hst; by right). done.
Qed.

Lemma whole_import {D} `{StoreOk D} (d : ProllyEngine D) :
  ∃ d', import_snapshot (SnapshotBundle_new t ns) d = (Ok t, d') ∧ tree_holds (contents (en_store d')) t h es ∧
    ∀ c, ¬ reachable st [t] c → contents (en_store d') !! c = contents (en_store d) !! c.
Proof.
  destruct (verify_ok (SnapshotBundle_new t ns) tree_map) as (v & Hv & Hval);
    [done|apply tree_checked|apply tree_bundled|apply tree_decodes|apply tree_sum|apply tree_complete|].
  destruct (import_ok _ v d Hv Hval) as (d' & Hi & _ & Hc). exists d'. split; [done|].
  apply (import_holds st h es (SnapshotBundle_new t ns) tree_map d' d);
    [done| |apply tree_checked|apply tree_bundled|apply tree_complete|done].
  intros [c b] b' Hn%(tree_bundled c b)%tree_lookup Hb' _. cbn [cid node_bytes] in *. destruct Hn. congruence.
Qed.
End roundtrip.

(** C18. Export and import are inverse, within limits: an export of a tree that the store holds
    either is an error, and then some nodes of the tree alone exceed a limit, or has
    exactly the nodes of the tree in canonical order and within the limits; such a bundle
    is accepted by every destination, which then holds the tree with the same entries and
    has no other change. *)
Theorem snapshot_roundtrip `{HashesOk} {St} `{StoreOk St} {D} `{StoreOk D} limits st t h es B g fuel (e : ProllyEngine St) (d : ProllyEngine D) :
  fits st B → tree_holds st t h es → engine_manages g st e → (size st < fuel)%nat →
  0 < max_nodes limits → 0 < max_bytes limits →
  (∃ e' o, export_snapshot_with_limits limits fuel t e = (o, e') ∧ limit_error limits st t o) ∨
  ∃ bundle e', export_snapshot_with_limits limits fuel t e = (Ok bundle, e') ∧ engine_manages g st e' ∧
    whole st t (nodes bundle) ∧ within_limits limits st (nodes bundle) ∧
    canonical_snapshot_nodes (nodes bundle) = Ok (nodes bundle) ∧
    ∃ d', import_snapshot bundle d = (Ok t, d') ∧ tree_holds (contents (en_store d')) t h es ∧
      ∀ c, ¬ reachable st [t] c → contents (en_store d') !! c = contents (en_store d) !! c.
Proof.
  intros Hfit Hh He Hfuel Hmn Hmb.
  destruct (export_ok limits st t B Hfit g fuel h es e Hmn Hmb Hh He Hfuel) as [?|(ns & e' & Ho & He' & Hw & Hl)]; [by left|right].
  exists (SnapshotBundle_new t ns), e'. do 4 (split; [done|]). split; [by apply (tree_canonical st t h es)|].
  by apply (whole_import st t h es B Hfit Hh ns Hw).
Qed.

(** ** Transport *)
Section transport.
Context `{HashesOk} (to_vec_packed : SnapshotBundleWire → outcome string bytes) (from_slice : bytes → outcome string SnapshotBundleWire).

Lemma canonical_bundled m : bundled (node_of <$> btree_iter m) m.
Proof.
  intros c b. rewrite list_elem_of_fmap. split; [intros Hb; exists (c, b); by rewrite elem_btree|].
  by intros ([c' b'] & [= -> ->] & Hin%elem_btree).
Qed.

Lemma sorted_nodes l : StronglySorted entry_le l → StronglySorted node_le (node_of <$> l).
Proof.
  induction 1 as [|e l _ IH Hall]; [constructor|]. cbn [fmap list_fmap]. constructor; [done|].
  apply Forall_fmap. eapply Forall_impl; [exact Hall|]. done.
Qed.

Lemma to_bytes_inv b x :
  SnapshotBundle_to_bytes to_vec_packed b = Ok x → ∃ m, format_version b = 1 ∧ checked (nodes b) ∧ bundled (nodes b) m ∧
    to_vec_packed {| wire_version := 1; wire_tree := tree b;
      wire_nodes := (λ e, {| wire_cid := e.1; wire_bytes := e.2 |}) <$> btree_iter m |} = Ok x.
Proof.
  unfold SnapshotBundle_to_bytes, validate_format_version. destruct (Z.eqb_spec (format_version b) SNAPSHOT_BUNDLE_FORMAT_VERSION) as [Hver|]; [|done].
  cbn [mbind outcome_bind]. destruct (canonical_snapshot_nodes (nodes b)) as [l| |] eqn:Hl; [|done|done].
  apply canonical_inv in Hl as (m & Hch & Hm & ->). cbn [mbind outcome_bind]. rewrite <- list_fmap_compose. intros Hx.
  exists m. split; [done|]. split; [done|]. split; [done|].
  match type of Hx with context [to_vec_packed ?w] => change (map_err Serialize (to_vec_packed w) = Ok x) in Hx end.
  by destruct (to_vec_packed _) as [y| |]; [injection Hx as ->| |].
Qed.

Lemma to_bytes_ok b m :
  format_version b = 1 → checked (nodes b) → bundled (nodes b) m →
  SnapshotBundle_to_bytes to_vec_packed b = map_err Serialize (to_vec_packed {| wire_version := 1; wire_tree := tree b;
    wire_nodes := (λ e, {| wire_cid := e.1; wire_bytes := e.2 |}) <$> btree_iter m |}).
Proof.
  intros Hver Hch Hm. unfold SnapshotBundle_to_bytes, validate_format_version. rewrite Hver.
  cbn [Z.eqb Pos.eqb SNAPSHOT_BUNDLE_FORMAT_VERSION mbind outcome_bind]. rewrite (canonical_ok _ m Hch Hm). cbn [mbind outcome_bind].
  by rewrite <- list_fmap_compose.
Qed.

Lemma from_bytes_ok t m x :
  from_slice x = Ok {| wire_version := 1; wire_tree := t; wire_nodes := (λ e, {| wire_cid := e.1; wire_bytes := e.2 |}) <$> btree_iter m |} →
  checked (node_of <$> btree_iter m) → SnapshotBundle_from_bytes from_slice x = Ok (SnapshotBundle_new t (node_of <$> btree_iter m)).
Proof.
  intros Hx Hch. unfold SnapshotBundle_from_bytes. rewrite Hx. cbn [map_err mbind outcome_bind wire_version].
  cbn [Z.eqb Pos.eqb negb SNAPSHOT_BUNDLE_BYTES_VERSION SNAPSHOT_BUNDLE_FORMAT_VERSION wire_nodes wire_tree].
  rewrite (mapM_each _ (λ node, {| cid := wire_cid node; node_bytes := wire_bytes node |})).
  - cbn [mbind outcome_bind]. rewrite <- list_fmap_compose. change (compose _ _) with node_of. rewrite (canonical_ok _ m Hch); [done|apply canonical_bundled].
  - intros w ([c b] & -> & Hin)%list_elem_of_fmap. cbn [wire_cid wire_bytes fst snd].
    assert (Cid_from_bytes b = c) as Hc by (apply (Hch (node_of (c, b))), list_elem_of_fmap; by exists (c, b)).
    rewrite (cid_wire_ok b c Hc). cbn [mbind outcome_bind]. by rewrite (verify_bytes_ok c b Hc).
Qed.
End transport.

(** C19. The bytes of a bundle, and so its digest, depend on its tree and on the set of its nodes
    only, and decode to the canonical bundle of that set: ordered, without duplicates, with
    the same bytes and digest. *)
Theorem snapshot_bytes_canonical `{HashesOk} to_vec_packed from_slice b x :
  (∀ w y, to_vec_packed w = Ok y → from_slice y = Ok w) → SnapshotBundle_to_bytes to_vec_packed b = Ok x →
  (∀ b2, format_version b2 = format_version b → tree b2 = tree b → (∀ n, n ∈ nodes b2 ↔ n ∈ nodes b) →
     SnapshotBundle_to_bytes to_vec_packed b2 = Ok x) ∧
  ∃ b', SnapshotBundle_from_bytes from_slice x = Ok b' ∧ tree b' = tree b ∧ (∀ n, n ∈ nodes b' ↔ n ∈ nodes b) ∧
    NoDup (cid <$> nodes b') ∧ StronglySorted node_le (nodes b') ∧
    SnapshotBundle_to_bytes to_vec_packed b' = Ok x ∧ SnapshotBundle_digest to_vec_packed b' = SnapshotBundle_digest to_vec_packed b.
Proof.
  intros Hlaw Hb. pose proof Hb as (m & Hver & Hch & Hm & Hx)%to_bytes_inv.
  assert (∀ b2, format_version b2 = format_version b → tree b2 = tree b → (∀ n, n ∈ nodes b2 ↔ n ∈ nodes b) →
    SnapshotBundle_to_bytes to_vec_packed b2 = Ok x) as Hsame.
  { intros b2 Hv Ht Hn. rewrite (to_bytes_ok _ b2 m); [by rewrite Ht, Hx|congruence|intros n Hin; by apply Hch, Hn|].
    intros c d. by rewrite (Hm c d), Hn. }
  split; [done|]. assert (∀ n, n ∈ node_of <$> btree_iter m ↔ n ∈ nodes b) as Hset.
  { intros [c d]. rewrite <- (canonical_bundled m c d). apply Hm. }
  exists (SnapshotBundle_new (tree b) (node_of <$> btree_iter m)).
  split; [apply from_bytes_ok; [by apply Hlaw|intros n Hn; by apply Hch, Hset]|]. split; [done|]. split; [done|].
  assert (SnapshotBundle_to_bytes to_vec_packed (SnapshotBundle_new (tree b) (node_of <$> btree_iter m)) = Ok x) as Hx'
    by (apply Hsame; [by rewrite Hver|done|done]).
  split; [|split; [|split; [done|unfold SnapshotBundle_digest; by rewrite Hx', Hb]]]; cbn [nodes SnapshotBundle_new].
  - rewrite <- list_fmap_compose. change (compose cid node_of) with (@fst bytes bytes). rewrite btree_iter_perm. apply NoDup_fst_map_to_list.
  - apply sorted_nodes, btree_iter_sorted.
Qed.

(** ** Witnesses *)
#[local] Existing Instance sample_hashes.
#[local] Existing Instance sample_hashes_ok.

Definition no_limits : SnapshotExportLimits := {| max_nodes := usize_max; max_bytes := usize_max |}.
Definition fresh_engine : ProllyEngine MemStore := ProllyEngine_new MemStore_new (sample_config 2 2).
Definition sample_bundle : SnapshotBundle := SnapshotBundle_new sample_new
  match (export_snapshot_with_limits no_limits 100 sample_new versions_engine).1 with Ok bundle => nodes bundle | _ => [] end.

Definition collision_free (st : gmap bytes bytes) (ns : list SnapshotBundleNode) : bool :=
  forallb (λ n, match st !! cid n with Some b => bool_decide (node_bytes n = b) | None => true end) ns.

Lemma collision_free_ok `{Hashes} st ns : collision_free st ns = true → no_collision st ns.
Proof.
  unfold collision_free. rewrite forallb_forall. intros Hall n b Hn Hb _. apply list_elem_of_In in Hn. specialize (Hall n Hn).
  rewrite Hb in Hall. by apply bool_decide_eq_true in Hall.
Qed.

Definition imports (bundle : SnapshotBundle) : bool :=
  match (import_snapshot bundle fresh_engine).1 with Ok _ => true | _ => false end.
Definition has_nodes (bundle : SnapshotBundle) : bool := (1 <? length (nodes bundle))%nat.

Lemma sample_bundle_ok : collision_free sample_versions (nodes sample_bundle) && has_nodes sample_bundle && imports sample_bundle = true.
Proof. vm_compute. reflexivity. Qed.

Lemma snapshot_import_sound_witness :
  ∃ h d', import_snapshot sample_bundle fresh_engine = (Ok (tree sample_bundle), d') ∧
    (∀ c, c ∈ cid <$> nodes sample_bundle ↔ reachable sample_versions [tree sample_bundle] c) ∧
    tree_holds (contents (en_store d')) (tree sample_bundle) h sample_es'.
Proof.
  destruct new_version_holds as (h & Hh). pose proof sample_bundle_ok as Hok.
  apply andb_true_iff in Hok as [[Hno _]%andb_true_iff Himp]. unfold imports in Himp.
  destruct (import_snapshot sample_bundle fresh_engine) as [r d'] eqn:Hi. cbn [fst] in Himp. exists h, d'.
  pose proof (snapshot_import_sound sample_versions h sample_es' sample_bundle fresh_engine d' r Hh (collision_free_ok _ _ Hno) Hi) as Hs.
  destruct r as [t| |]; [|done|done]. destruct Hs as (-> & Hc & Hd & _). exact (conj eq_refl (conj Hc Hd)).
Defined.

Lemma snapshot_roundtrip_witness :
  ∃ h, (∃ e' o, export_snapshot_with_limits no_limits 100 sample_new versions_engine = (o, e') ∧ limit_error no_limits sample_versions sample_new o) ∨
  ∃ bundle e', export_snapshot_with_limits no_limits 100 sample_new versions_engine = (Ok bundle, e') ∧
    engine_manages (Config.format (sample_config 2 2)) sample_versions e' ∧
    whole sample_versions sample_new (nodes bundle) ∧ within_limits no_limits sample_versions (nodes bundle) ∧
    canonical_snapshot_nodes (nodes bundle) = Ok (nodes bundle) ∧
    ∃ d', import_snapshot bundle fresh_engine = (Ok sample_new, d') ∧ tree_holds (contents (en_store d')) sample_new h sample_es' ∧
      ∀ c, ¬ reachable sample_versions [sample_new] c → contents (en_store d') !! c = contents (en_store fresh_engine) !! c.
Proof.
  destruct new_version_holds as (h & Hh). exists h.
  apply (snapshot_roundtrip no_limits sample_versions sample_new h sample_es' 1000 (Config.format (sample_config 2 2)) 100
    versions_engine fresh_engine versions_fit Hh versions_engine_manages versions_size); reflexivity.
Defined.

(** A codec for the payload of one bundle. *)
#[local] Instance SnapshotBundleNodeWire_eq_dec : EqDecision SnapshotBundleNodeWire.
Proof. solve_decision. Defined.
#[local] Instance SnapshotBundleWire_eq_dec : EqDecision SnapshotBundleWire.
Proof. solve_decision. Defined.
Definition sample_wire : SnapshotBundleWire := {|
  wire_version := 1; wire_tree := tree sample_bundle;
  wire_nodes := (λ n, {| wire_cid := cid n; wire_bytes := node_bytes n |}) <$> nodes sample_bundle |}.
Definition wire_eqb (v w : SnapshotBundleWire) : bool := bool_decide (v = w).
Definition sample_to_vec (w : SnapshotBundleWire) : outcome string bytes :=
  if wire_eqb w sample_wire then Ok [Byte.x01] else Err "unsupported".
Definition sample_from_slice (b : bytes) : outcome string SnapshotBundleWire :=
  if decide (b = [Byte.x01]) then Ok sample_wire else Err "unsupported".

(** The nodes in the other order. *)
Definition reversed_bundle : SnapshotBundle := SnapshotBundle_new (tree sample_bundle) (reverse (nodes sample_bundle)).

Lemma reversed_bytes : SnapshotBundle_to_bytes sample_to_vec reversed_bundle = Ok [Byte.x01].
Proof. vm_compute. reflexivity. Qed.

Lemma snapshot_bytes_canonical_witness :
  ∃ b', SnapshotBundle_from_bytes sample_from_slice [Byte.x01] = Ok b' ∧ tree b' = tree reversed_bundle ∧
    (∀ n, n ∈ nodes b' ↔ n ∈ nodes reversed_bundle) ∧ StronglySorted node_le (nodes b') ∧
    SnapshotBundle_digest sample_to_vec b' = SnapshotBundle_digest sample_to_vec reversed_bundle.
Proof.
  assert (∀ w y, sample_to_vec w = Ok y → sample_from_slice y = Ok w) as Hlaw.
  { intros w y. unfold sample_to_vec. destruct (wire_eqb w sample_wire) eqn:Hw; [|done]. apply bool_decide_eq_true in Hw as ->. by intros [= <-]. }
  destruct (snapshot_bytes_canonical sample_to_vec sample_from_slice reversed_bundle [Byte.x01] Hlaw reversed_bytes)
    as (_ & b' & Hb & Ht & Hn & _ & Hs & _ & Hd). exists b'. exact (conj Hb (conj Ht (conj Hn (conj Hs Hd)))).
Defined.
End SnapshotContract.
