(* ===== verification/Transaction.v ===== *)
(** * Optimistic transactions (src/prolly/transaction.rs, store/memory.rs)

    A transaction runs the engine over an overlay of the store: written nodes and named
    roots are staged, and the roots that are read are remembered.  A commit hands all
    three to the store, which checks that the roots read are still the current ones
    and applies the writes, or reports a conflict and applies nothing. *)

From Stdlib Require Import ZArith Lia Strings.Byte.
From stdpp Require Import base tactics numbers list strings option gmap sorting.
From S2P Require Import Prelude Cursor Types Format Boundary Node Store NodeCache Emitter Builder TreeSpec Engine Write Loader Reach Manifest.

Import Format Config Node Store NodeCache Emitter Builder TreeSpec Engine Write Loader Reach Manifest.

Local Open Scope Z_scope.

Module Transaction.

Record RootCondition := { rc_name : bytes; rc_expected : option RootManifest }.

Inductive RootWrite :=
| RootPut (name : bytes) (manifest : RootManifest)
| RootDelete (name : bytes).
Definition write_name (self : RootWrite) : bytes := match self with RootPut name _ | RootDelete name => name end.
Definition replacement (self : RootWrite) : option RootManifest :=
  match self with RootPut _ manifest => Some manifest | RootDelete _ => None end.

Inductive TransactionNodeWrite :=
| NodeUpsert (key value : bytes)
| NodeDelete (key : bytes).

Record TransactionConflict := {
  tc_name : bytes;
  tc_expected : option RootManifest;
  tc_current : option RootManifest;
}.

Inductive TransactionUpdate :=
| TU_Applied (nodes_written roots_written : Z)
| TU_Conflict (conflict : TransactionConflict).
Definition is_applied (self : TransactionUpdate) : bool := match self with TU_Applied _ _ => true | TU_Conflict _ => false end.

(** ** Transactional stores *)
Class TransactionalStore (B : Type) := {
  supports_transactions : B → bool;
  commit_transaction : list TransactionNodeWrite → list RootCondition → list RootWrite → action B TransactionUpdate;
}.

(** *** The in-memory store *)
Fixpoint first_conflict (roots : gmap bytes RootManifest) (root_conditions : list RootCondition) : option TransactionConflict :=
  match root_conditions with
  | [] => None
  | condition :: root_conditions' =>
      let current := roots !! rc_name condition in
      if negb (bool_decide (current = rc_expected condition))
      then Some {| tc_name := rc_name condition; tc_expected := rc_expected condition; tc_current := current |}
      else first_conflict roots root_conditions'
  end.

Definition apply_node_write (data : gmap bytes bytes) (write : TransactionNodeWrite) : gmap bytes bytes :=
  match write with NodeUpsert key value => <[key := value]> data | NodeDelete key => delete key data end.
Definition apply_root_write (roots : gmap bytes RootManifest) (write : RootWrite) : gmap bytes RootManifest :=
  match write with RootPut name manifest => <[name := manifest]> roots | RootDelete name => delete name roots end.

Definition mem_commit_transaction (node_writes : list TransactionNodeWrite) (root_conditions : list RootCondition)
    (root_writes : list RootWrite) : action MemBackend TransactionUpdate := λ self,
  match first_conflict (be_roots self) root_conditions with
  | Some conflict => (Ok (TU_Conflict conflict), self)
  | None =>
      (Ok (TU_Applied (len node_writes) (len root_writes)),
       {| be_nodes := {| ms_data := foldl apply_node_write (ms_data (be_nodes self)) node_writes |};
          be_roots := foldl apply_root_write (be_roots self) root_writes |})
  end.

Global Instance MemBackend_transactions : TransactionalStore MemBackend := {|
  supports_transactions _ := true;
  commit_transaction := mem_commit_transaction;
|}.

(** ** What a transaction stages *)
Record TransactionState := {
  tx_node_writes : gmap bytes (option bytes);
  tx_root_reads : gmap bytes (option RootManifest);
  tx_root_writes : gmap bytes RootWrite;
}.
Definition TransactionState_default : TransactionState :=
  {| tx_node_writes := ∅; tx_root_reads := ∅; tx_root_writes := ∅ |}.

Definition node_writes (self : TransactionState) : list TransactionNodeWrite :=
  (λ w : bytes * option bytes, match w.2 with Some value => NodeUpsert w.1 value | None => NodeDelete w.1 end)
    <$> btree_iter (tx_node_writes self).
Definition root_conditions (self : TransactionState) : list RootCondition :=
  (λ r : bytes * option RootManifest, {| rc_name := r.1; rc_expected := r.2 |}) <$> btree_iter (tx_root_reads self).
Definition root_writes (self : TransactionState) : list RootWrite := snd <$> btree_iter (tx_root_writes self).

Definition stage_node (key : bytes) (value : option bytes) (self : TransactionState) : TransactionState := {|
  tx_node_writes := <[key := value]> (tx_node_writes self); tx_root_reads := tx_root_reads self;
  tx_root_writes := tx_root_writes self |}.
Definition stage_op (self : TransactionState) (op : BatchOp) : TransactionState :=
  match op with
  | BatchUpsert key value => stage_node key (Some value) self
  | BatchDelete key => stage_node key None self
  end.
Definition stage_root (write : RootWrite) (self : TransactionState) : TransactionState := {|
  tx_node_writes := tx_node_writes self; tx_root_reads := tx_root_reads self;
  tx_root_writes := <[write_name write := write]> (tx_root_writes self) |}.

(** A root that the transaction wrote or read before. *)
Definition staged_root (self : TransactionState) (name : bytes) : option (option RootManifest) :=
  match tx_root_writes self !! name with
  | Some write => Some (replacement write)
  | None => tx_root_reads self !! name
  end.

(** What was read from the base is remembered, unless the name was written or read in
    the meantime. *)
Definition observe_root (name : bytes) (current : option RootManifest) (self : TransactionState)
    : option RootManifest * TransactionState :=
  match staged_root self name with
  | Some root => (root, self)
  | None => (current, {|
      tx_node_writes := tx_node_writes self; tx_root_reads := <[name := current]> (tx_root_reads self);
      tx_root_writes := tx_root_writes self |})
  end.

(** ** The overlay store *)
Section overlay.
Context `{Hashes} {B : Type} `{StoreOk B} `{!ManifestStore B}.

(** The base is shared: the transaction reads it and does not write it.  The cache of
    the engine that the transaction was begun on holds nodes of the base. *)
Record Overlay := {
  ov_base : B;
  ov_state : TransactionState;
  ov_cache : option NodeCache;
  ov_sound cache : ov_cache = Some cache → holds (stored_node (contents ov_base)) cache;
}.

Definition with_state (self : Overlay) (state : TransactionState) : Overlay :=
  {| ov_base := ov_base self; ov_state := state; ov_cache := ov_cache self; ov_sound := ov_sound self |}.

(** The lookup keeps the materialised node in the entry, which no later lookup can see. *)
Definition cached_node_bytes (cache : option NodeCache) (key : bytes) : outcome Error (option bytes) :=
  match cid_from_store_key key, cache with
  | Ok cid, Some cache =>
      '(found, _) ← peek cache cid;
      match found with
      | Some node => b ← to_bytes node; Ok (if bool_decide (Cid_from_bytes b = cid) then Some b else None)
      | None => Ok None
      end
  | _, _ => Ok None
  end.

Definition overlay_get (self : Overlay) (key : bytes) : outcome Error (option bytes) :=
  match tx_node_writes (ov_state self) !! key with
  | Some value => Ok value
  | None =>
      cached ← cached_node_bytes (ov_cache self) key;
      match cached with
      | Some value => Ok (Some value)
      | None => store_get (ov_base self) key
      end
  end.

Definition overlay_put (self : Overlay) (key value : bytes) : outcome Error Overlay :=
  Ok (with_state self (stage_node key (Some value) (ov_state self))).
Definition overlay_delete (self : Overlay) (key : bytes) : outcome Error Overlay :=
  Ok (with_state self (stage_node key None (ov_state self))).
Definition overlay_batch (self : Overlay) (ops : list BatchOp) : outcome Error Overlay :=
  Ok (with_state self (foldl stage_op (ov_state self) ops)).

(** The loop over the positions: what is staged or cached, and what the base is asked. *)
Fixpoint overlay_plan (self : Overlay) (position : nat) (ks : list bytes) (results : list (option bytes))
    (missing_keys : list bytes) (missing_positions : list nat) : outcome Error (list (option bytes) * list bytes * list nat) :=
  match ks with
  | [] => Ok (results, missing_keys, missing_positions)
  | key :: ks' =>
      match tx_node_writes (ov_state self) !! key with
      | Some value => overlay_plan self (S position) ks' (<[position := value]> results) missing_keys missing_positions
      | None =>
          cached ← cached_node_bytes (ov_cache self) key;
          match cached with
          | Some value => overlay_plan self (S position) ks' (<[position := Some value]> results) missing_keys missing_positions
          | None => overlay_plan self (S position) ks' results (missing_keys ++ [key]) (missing_positions ++ [position])
          end
      end
  end.

Definition overlay_batch_get_ordered (self : Overlay) (ks : list bytes) : outcome Error (list (option bytes)) :=
  '(results, missing_keys, missing_positions) ← overlay_plan self 0 ks (replicate (length ks) None) [] [];
  if bool_decide (missing_keys = []) then Ok results
  else
    let plan := plan_new missing_keys in
    unique_values ← batch_get_ordered_unique (ov_base self) (unique_keys plan);
    missing_values ← expand_owned plan unique_values;
    Ok (foldl (λ rs p, <[p.1 := p.2]> rs) results (zip missing_positions missing_values)).

#[global] Instance overlay_store : Store Overlay := {|
  store_get := overlay_get;
  store_put := overlay_put;
  store_delete := overlay_delete;
  store_batch := overlay_batch;
  store_batch_put := default_batch_put overlay_batch;
  store_batch_get_ordered := overlay_batch_get_ordered;
  store_prefers_batch_reads self := store_prefers_batch_reads (ov_base self);
|}.

#[global] Instance overlay_read : ReadStore Overlay := {|
  store_get_validated_shared := default_get_validated_shared;
  store_batch_get_validated := default_batch_get_validated overlay_batch_get_ordered;
  store_has_native_shared_reads _ := false;
|}.

(** *** Named roots *)
Definition overlay_get_root (name : bytes) : action Overlay (option RootManifest) := λ self,
  match staged_root (ov_state self) name with
  | Some root => (Ok root, self)
  | None =>
      match (get_root name (ov_base self)).1 with
      | Ok current =>
          let '(root, state) := observe_root name current (ov_state self) in (Ok root, with_state self state)
      | Err x => (Err x, self)
      | Panic s => (Panic s, self)
      end
  end.

Definition overlay_put_root (name : bytes) (manifest : RootManifest) : action Overlay () := λ self,
  (Ok tt, with_state self (stage_root (RootPut name manifest) (ov_state self))).
Definition overlay_delete_root (name : bytes) : action Overlay () := λ self,
  (Ok tt, with_state self (stage_root (RootDelete name) (ov_state self))).

Definition overlay_compare_and_swap_root (name : bytes) (expected new : option RootManifest) : action Overlay ManifestUpdate :=
  overlay_get_root name ≫= λ current : option RootManifest,
  if negb (bool_decide (current = expected)) then mret (MU_Conflict current)
  else
    match new with
    | Some manifest => overlay_put_root name manifest
    | None => overlay_delete_root name
    end ≫= λ _, mret MU_Applied.

(** The roots that are not staged are read in one batch. *)
Fixpoint roots_plan (state : TransactionState) (position : nat) (names : list bytes) (results : list (option RootManifest))
    (missing : list (nat * bytes)) : list (option RootManifest) * list (nat * bytes) :=
  match names with
  | [] => (results, missing)
  | name :: names' =>
      match staged_root state name with
      | Some root => roots_plan state (S position) names' (<[position := root]> results) missing
      | None => roots_plan state (S position) names' results (missing ++ [(position, name)])
      end
  end.

Fixpoint observe_roots (missing : list (nat * bytes)) (observed : list (option RootManifest))
    (results : list (option RootManifest)) (state : TransactionState) : list (option RootManifest) * TransactionState :=
  match missing, observed with
  | (position, name) :: missing', current :: observed' =>
      let '(root, state) := observe_root name current state in
      observe_roots missing' observed' (<[position := root]> results) state
  | _, _ => (results, state)
  end.

Definition overlay_get_roots_ordered (names : list bytes) : action Overlay (list (option RootManifest)) := λ self,
  let '(results, missing) := roots_plan (ov_state self) 0 names (replicate (length names) None) [] in
  if bool_decide (missing = []) then (Ok results, self)
  else
    match (get_roots_ordered missing.*2 (ov_base self)).1 with
    | Ok observed =>
        if negb (length observed =? length missing)%nat
        then (Err (StoreError "base manifest batch returned the wrong result count"), self)
        else
          let '(results, state) := observe_roots missing observed results (ov_state self) in
          (Ok results, with_state self state)
    | Err x => (Err x, self)
    | Panic s => (Panic s, self)
    end.

#[global] Instance overlay_manifests : ManifestStore Overlay := {|
  get_root := overlay_get_root;
  put_root := overlay_put_root;
  delete_root := overlay_delete_root;
  compare_and_swap_root := overlay_compare_and_swap_root;
  get_roots_ordered := overlay_get_roots_ordered;
|}.
End overlay.
Arguments Overlay {_} B {_ _}.

(** ** Transactions *)
Section transaction.
Context `{Hashes} {B : Type} `{StoreOk B} `{!ManifestStore B} `{!TransactionalStore B}.

(** The engine over the overlay: the transaction's [get], [put], [batch] and named-root
    operations are those of this engine. *)
Abbreviation Transaction := (ProllyEngine (Overlay B)).

Definition begin_transaction (base : ProllyEngine B) (sound : holds (stored_node (contents (en_store base))) (en_cache base))
    : outcome Error Transaction :=
  if negb (supports_transactions (en_store base)) then Err UnsupportedTransactions
  else
    let overlay := {| ov_base := en_store base; ov_state := TransactionState_default; ov_cache := Some (en_cache base);
      ov_sound := λ cache (Hcache : Some (en_cache base) = Some cache),
        eq_ind (en_cache base) (holds (stored_node (contents (en_store base)))) sound cache
          (f_equal (default cache) Hcache) |} in
    Ok (ProllyEngine_new overlay (en_config base)).

(** The committed nodes enter the cache of the base. *)
Fixpoint promoted (expected : TreeFormat) (writes : list TransactionNodeWrite) : outcome Error (list (Cid * Node * Z) * bool) :=
  match writes with
  | [] => Ok ([], false)
  | NodeUpsert key value :: writes' =>
      match cid_from_store_key key with
      | Ok cid =>
          match decode_owned cid expected value with
          | Ok node => '(decoded, contains_delete) ← promoted expected writes'; Ok ((cid, node, len value) :: decoded, contains_delete)
          | _ => Boundary.debug_assert false ≫= λ _, promoted expected writes'
          end
      | _ => Boundary.debug_assert false ≫= λ _, promoted expected writes'
      end
  | NodeDelete _ :: writes' => '(decoded, _) ← promoted expected writes'; Ok (decoded, true)
  end.

Fixpoint insert_promoted (decoded : list (Cid * Node * Z)) (evictions : Z) : eng B Z :=
  match decoded with
  | [] => mret evictions
  | (cid, node, weight) :: decoded' =>
      admit_owned cid node weight ≫= λ evicted : Z, insert_promoted decoded' (evictions + evicted)
  end.

Definition clear_node_cache : eng B Z := λ e,
  let '(evictions, cache) := cache_clear (en_cache e) in (Ok evictions, set_cache cache e).

Definition promote_committed_nodes (writes : list TransactionNodeWrite) : eng B () := λ e,
  (run (promoted (Config.format (en_config e)) writes) ≫= λ p : list (Cid * Node * Z) * bool,
   (if p.2 then clear_node_cache else mret 0) ≫= λ evictions : Z,
   insert_promoted p.1 evictions ≫= λ evictions : Z,
   meter (add_cache_evictions evictions)) e.

(** [commit], run on the base engine. *)
Definition commit (self : Transaction) : eng B TransactionUpdate :=
  let state := ov_state (en_store self) in
  let writes := node_writes state in
  on_store (commit_transaction writes (root_conditions state) (root_writes state)) ≫= λ update : TransactionUpdate,
  (if is_applied update then promote_committed_nodes writes else mret tt) ≫= λ _,
  mret update.

(** [transaction]: a conflict is an error of its own. *)
Definition transaction {T} (f : eng (Overlay B) T) (base : ProllyEngine B)
    (sound : holds (stored_node (contents (en_store base))) (en_cache base))
    : outcome Error (T + TransactionConflict) * ProllyEngine B :=
  match begin_transaction base sound with
  | Ok tx =>
      match f tx with
      | (Ok value, tx) =>
          (commit tx ≫= λ update : TransactionUpdate,
           mret (match update with TU_Applied _ _ => inl value | TU_Conflict conflict => inr conflict end)) base
      | (Err x, _) => (Err x, base)
      | (Panic s, _) => (Panic s, base)
      end
  | Err x => (Err x, base)
  | Panic s => (Panic s, base)
  end.
End transaction.

End Transaction.
