(* ===== verification/TransactionSpec.v ===== *)
(** * What the overlay and the commit of a transaction do

    The overlay is a store: its contents are those of the base with the staged writes
    over them, so everything proved of engines holds of a transaction's engine.  What a
    backend promises of its named roots and of commits is the class [BackendOk]; the
    in-memory store is an instance. *)

From Stdlib Require Import ZArith Lia Strings.Byte.
From stdpp Require Import base tactics numbers list strings option gmap sorting.
From S2P Require Import Prelude Cursor Types Format Boundary Node Store NodeCache Emitter Builder TreeSpec Engine EngineSpec Write Loader LoaderSpec Reach Manifest Transaction.

Import Format Config Node Store NodeCache Emitter Builder TreeSpec Engine EngineSpec Write Loader LoaderSpec Reach Manifest Transaction.

Local Open Scope Z_scope.

Module TransactionSpec.

(** ** Writes over a map *)
(** [Some None] deletes. *)
Definition overlaid {V} (m : gmap bytes V) (ws : gmap bytes (option V)) : gmap bytes V :=
  merge (λ a b, match b with Some o => o | None => a end) m ws.

Lemma overlaid_lookup {V} (m : gmap bytes V) ws k :
  overlaid m ws !! k = match ws !! k with Some o => o | None => m !! k end.
Proof. unfold overlaid. rewrite lookup_merge. by destruct (m !! k), (ws !! k). Qed.

Lemma overlaid_empty {V} (m : gmap bytes V) : overlaid m ∅ = m.
Proof. apply map_eq. intros k. by rewrite overlaid_lookup, lookup_empty. Qed.

Definition apply_write {V} (m : gmap bytes V) (w : bytes * option V) : gmap bytes V :=
  match w.2 with Some v => <[w.1 := v]> m | None => delete w.1 m end.

Lemma apply_write_lookup {V} (m : gmap bytes V) w k :
  apply_write m w !! k = if decide (w.1 = k) then w.2 else m !! k.
Proof.
  unfold apply_write. destruct w as [k' [v|]]; cbn [fst snd]; case_decide as Hk; subst.
  - by rewrite lookup_insert_eq.
  - by rewrite lookup_insert_ne.
  - by rewrite lookup_delete_eq.
  - by rewrite lookup_delete_ne.
Qed.

Lemma apply_writes_lookup {V} (l : list (bytes * option V)) m k :
  NoDup l.*1 → foldl apply_write m l !! k = match (list_to_map l : gmap bytes (option V)) !! k with Some o => o | None => m !! k end.
Proof.
  revert m; induction l as [|w l IH]; intros m Hnd; [done|]. cbn [fmap list_fmap] in Hnd. apply NoDup_cons in Hnd as [Hw Hnd].
  destruct w as [k' o]. cbn [fst snd] in *. cbn [foldl]. rewrite list_to_map_cons, IH, apply_write_lookup by done. cbn [fst snd].
  case_decide as Hk.
  - subst k. rewrite lookup_insert_eq, not_elem_of_list_to_map_1 by done. done.
  - by rewrite lookup_insert_ne.
Qed.

(** Writing the entries one by one, in the order of the tree. *)
Lemma apply_btree {V W} (g : W → option V) (ws : gmap bytes W) m :
  foldl apply_write m ((λ e, (e.1, g e.2)) <$> btree_iter ws) = overlaid m (g <$> ws).
Proof.
  apply map_eq. intros k. rewrite overlaid_lookup, lookup_fmap.
  assert (((λ e : bytes * W, (e.1, g e.2)) <$> btree_iter ws).*1 = (btree_iter ws).*1) as Hfst by (by rewrite <- list_fmap_compose).
  assert (NoDup (btree_iter ws).*1) as Hnd by (rewrite btree_iter_perm; apply NoDup_fst_map_to_list).
  rewrite apply_writes_lookup by (by rewrite Hfst).
  assert ((list_to_map ((λ e : bytes * W, (e.1, g e.2)) <$> btree_iter ws) : gmap bytes (option V)) = g <$> ws) as ->.
  { change (λ e : bytes * W, (e.1, g e.2)) with (prod_map (id : bytes → bytes) g).
    rewrite list_to_map_fmap, (list_to_map_proper _ (map_to_list ws)), list_to_map_to_list; [done|done|apply btree_iter_perm]. }
  by rewrite lookup_fmap.
Qed.

(** Every entry of [root_writes] is under its own name. *)
Definition state_ok (s : TransactionState) : Prop := map_Forall (λ name w, write_name w = name) (tx_root_writes s).

Definition staged_writes (s : TransactionState) : gmap bytes (option RootManifest) := replacement <$> tx_root_writes s.

Lemma apply_root_writes s R :
  state_ok s → foldl apply_root_write R (root_writes s) = overlaid R (staged_writes s).
Proof.
  intros Hok. unfold staged_writes. rewrite <- apply_btree. unfold root_writes.
  assert (Forall (λ e : bytes * RootWrite, write_name e.2 = e.1) (btree_iter (tx_root_writes s))) as Hall.
  { rewrite btree_iter_perm. apply Forall_forall. intros [name w] Hin%elem_of_map_to_list. by apply (Hok name w). }
  revert R. induction Hall as [|[name w] l Hw _ IH]; intros R; [done|]. cbn [fmap list_fmap foldl fst snd]. rewrite <- IH. f_equal.
  cbn in Hw. subst name. by destruct w.
Qed.

Lemma apply_node_writes s data : foldl apply_node_write data (node_writes s) = overlaid data (tx_node_writes s).
Proof.
  assert (tx_node_writes s = id <$> tx_node_writes s) as Hid by (symmetry; apply map_fmap_id).
  rewrite Hid, <- (apply_btree id). unfold node_writes. clear Hid.
  revert data. induction (btree_iter (tx_node_writes s)) as [|[k [v|]] l IH]; intros data; [done|cbn; apply IH..].
Qed.

Lemma conditions_elem s c :
  c ∈ root_conditions s ↔ tx_root_reads s !! rc_name c = Some (rc_expected c).
Proof.
  unfold root_conditions. rewrite list_elem_of_fmap. split.
  - intros ([name r] & -> & Hin). rewrite btree_iter_perm in Hin. by apply elem_of_map_to_list in Hin.
  - intros Hr. exists (rc_name c, rc_expected c). split; [by destruct c|]. rewrite btree_iter_perm. by apply elem_of_map_to_list.
Qed.

(** ** Backends *)
Class BackendOk (B : Type) `{StoreOk B} `{!ManifestStore B} `{!TransactionalStore B} := {
  roots : B → gmap bytes RootManifest;
  get_root_ok b name : get_root name b = (Ok (roots b !! name), b);
  get_roots_ok b names : get_roots_ordered names b = (Ok ((λ name, roots b !! name) <$> names), b);
  put_root_ok b name manifest : ∃ b', put_root name manifest b = (Ok tt, b') ∧
    roots b' = <[name := manifest]> (roots b) ∧ contents b' = contents b;
  delete_root_ok b name : ∃ b', delete_root name b = (Ok tt, b') ∧
    roots b' = delete name (roots b) ∧ contents b' = contents b;
  swap_root_ok b name expected new : ∃ u b', compare_and_swap_root name expected new b = (Ok u, b') ∧ contents b' = contents b ∧
    if decide (roots b !! name = expected) then u = MU_Applied ∧ roots b' = set_root name new (roots b)
    else u = MU_Conflict (roots b !! name) ∧ roots b' = roots b;
  batch_roots b ops b' : store_batch b ops = Ok b' → roots b' = roots b;
  batch_put_roots b es b' : store_batch_put b es = Ok b' → roots b' = roots b;
  supports_ok b : supports_transactions b = true;
  commit_ok b nodes conditions writes : ∃ u b', commit_transaction nodes conditions writes b = (Ok u, b') ∧
    match u with
    | TU_Applied _ _ => Forall (λ c, roots b !! rc_name c = rc_expected c) conditions ∧
        roots b' = foldl apply_root_write (roots b) writes ∧ contents b' = foldl apply_node_write (contents b) nodes
    | TU_Conflict x => (∃ c, c ∈ conditions ∧ rc_name c = tc_name x ∧ rc_expected c = tc_expected x ∧
          roots b !! rc_name c = tc_current x ∧ tc_current x ≠ tc_expected x) ∧
        roots b' = roots b ∧ contents b' = contents b
    end;
}.

Lemma first_conflict_spec roots conditions :
  match first_conflict roots conditions with
  | None => Forall (λ c, roots !! rc_name c = rc_expected c) conditions
  | Some x => ∃ c, c ∈ conditions ∧ rc_name c = tc_name x ∧ rc_expected c = tc_expected x ∧
      roots !! rc_name c = tc_current x ∧ tc_current x ≠ tc_expected x
  end.
Proof.
  induction conditions as [|c cs IH]; [constructor|]. cbn [first_conflict]. case_bool_decide as Hc; cbn [negb].
  - destruct (first_conflict roots cs); [|by constructor]. destruct IH as (c' & Hin & ?). exists c'. split; [by right|done].
  - exists c. split; [by left|]. done.
Qed.

#[global] Program Instance MemBackend_store_ok : StoreOk MemBackend := {| contents b := ms_data (be_nodes b) |}.
Next Obligation. done. Qed.
Next Obligation. intros s k v. by eexists. Qed.
Next Obligation. intros s k. by eexists. Qed.
Next Obligation. intros s ops. eexists. split; [done|]. cbn. by rewrite mem_batch_loop_eq. Qed.
Next Obligation. intros s es. eexists. split; [done|]. cbn. by rewrite mem_batch_put_loop_eq. Qed.
Next Obligation. intros s ks. apply plan_expand. Qed.

#[global] Instance MemBackend_read_ok `{Hashes} : ReadStoreOk MemBackend.
Proof.
  split.
  - intros s key. exists (unverified <$> contents s !! key). split; [done|]. apply read_ok_unverified.
  - intros s ks _. exists ((λ k, unverified <$> contents s !! k) <$> ks). split.
    + cbn. unfold default_batch_get_validated, mem_batch_get_ordered_unique. cbn [mbind outcome_bind]. by rewrite <- list_fmap_compose.
    + induction ks as [|k ks IH]; [constructor|]. constructor; [apply read_ok_unverified|done].
Qed.

#[global] Program Instance MemBackend_ok : BackendOk MemBackend := {| roots := be_roots |}.
Next Obligation. done. Qed.
Next Obligation.
  intros b names. cbn. unfold default_get_roots_ordered. induction names as [|name names IH]; [done|].
  change (mapM mem_get_root (name :: names)) with (y ← mem_get_root name; l ← mapM mem_get_root names; mret (y :: l)).
  rewrite (action_bind_Ok (mem_get_root name) _ b (be_roots b !! name) b eq_refl). by rewrite (action_bind_Ok _ _ _ _ _ IH).
Qed.
Next Obligation. intros b name m. by eexists. Qed.
Next Obligation. intros b name. by eexists. Qed.
Next Obligation.
  intros b name expected new. cbn. unfold mem_compare_and_swap_root. case_bool_decide; cbn [negb]; eexists _, _; split; [done| |done|];
    (split; [done|]); by case_decide.
Qed.
Next Obligation. by intros b ops b' [= <-]. Qed.
Next Obligation. by intros b es b' [= <-]. Qed.
Next Obligation. done. Qed.
Next Obligation.
  intros b nodes conditions writes. cbn. unfold mem_commit_transaction. pose proof (first_conflict_spec (be_roots b) conditions) as Hc.
  destruct (first_conflict _ _); eexists _, _; (split; [done|]); done.
Qed.

(** ** The overlay is a store *)
Lemma fills_ok {A} (T rs : list A) pvs :
  length rs = length T → Forall (λ p : nat * A, T !! p.1 = Some p.2) pvs →
  (∀ i, (i < length T)%nat → i ∈ pvs.*1 ∨ rs !! i = T !! i) →
  foldl (λ rs p, <[p.1 := p.2]> rs) rs pvs = T.
Proof.
  intros Hlen Hall. revert rs Hlen; induction Hall as [|[p v] pvs Hp _ IH]; intros rs Hlen Hin; cbn [foldl fst snd] in *.
  { apply list_eq. intros i. destruct (decide (i < length T)%nat) as [Hi|Hi]; [|by rewrite !lookup_ge_None_2 by lia].
    destruct (Hin i Hi) as [[]%not_elem_of_nil|]; done. }
  apply IH; [by rewrite length_insert|]. intros i Hi. destruct (decide (i = p)) as [->|Hne].
  - right. rewrite list_lookup_insert_eq by lia. done.
  - rewrite list_lookup_insert_ne by done. destruct (Hin i Hi) as [[->|?]%elem_of_cons|?]; [done|by left|by right].
Qed.

Section overlay.
Context `{HashesOk} {B : Type} `{StoreOk B}.
Implicit Types (o : Overlay B) (k : bytes).

Definition overlay_contents o : gmap bytes bytes := overlaid (contents (ov_base o)) (tx_node_writes (ov_state o)).

Lemma cached_bytes_ok o k :
  ∃ c, cached_node_bytes (ov_cache o) k = Ok c ∧ ∀ b, c = Some b → contents (ov_base o) !! k = Some b.
Proof.
  unfold cached_node_bytes, cid_from_store_key. destruct (negb (len k =? 32)); [by exists None|].
  destruct (ov_cache o) as [cache|] eqn:Hc; [|by exists None].
  destruct (peek_holds _ cache k (ov_sound o cache Hc)) as (found & cache' & -> & _ & Hf). cbn [mbind outcome_bind].
  destruct found as [n|]; [|by exists None]. destruct Hf as (b & Hb & Hcid & Hto & _). rewrite Hto. cbn [mbind outcome_bind].
  rewrite bool_decide_eq_true_2 by done. exists (Some b). split; [done|]. by intros ? [= <-].
Qed.

Lemma overlay_get_eq o k : overlay_get o k = Ok (overlay_contents o !! k).
Proof.
  unfold overlay_get, overlay_contents. rewrite overlaid_lookup. destruct (tx_node_writes (ov_state o) !! k); [done|].
  destruct (cached_bytes_ok o k) as (c & -> & Hc). cbn [mbind outcome_bind]. destruct c as [b|]; [by rewrite (Hc b)|]. apply get_ok.
Qed.

Lemma staged_contents o key value :
  overlay_contents (with_state o (stage_node key value (ov_state o))) = apply_write (overlay_contents o) (key, value).
Proof.
  apply map_eq. intros k. unfold overlay_contents. rewrite apply_write_lookup, !overlaid_lookup. cbn [with_state ov_state ov_base stage_node tx_node_writes fst snd].
  case_decide as Hk; [subst; by rewrite lookup_insert_eq|by rewrite lookup_insert_ne].
Qed.

Lemma stage_ops_contents o ops :
  overlay_contents (with_state o (foldl stage_op (ov_state o) ops)) = foldl apply_op (overlay_contents o) ops.
Proof.
  revert o; induction ops as [|op ops IH]; intros o; [by destruct o|]. cbn [foldl].
  assert (overlay_contents (with_state o (stage_op (ov_state o) op)) = apply_op (overlay_contents o) op) as <-
    by (destruct op; apply staged_contents).
  by rewrite <- IH.
Qed.

(** The positions before [length seen] are settled, or wait for the base. *)
Record planned o (seen ks : list bytes) (results : list (option bytes)) (missing : list bytes) (slots : list nat) : Prop := {
  pl_length : length results = length (seen ++ ks);
  pl_missing : Forall2 (λ p k, (seen ++ ks) !! p = Some k ∧ tx_node_writes (ov_state o) !! k = None) slots missing;
  pl_settled i k : seen !! i = Some k → i ∈ slots ∨ results !! i = Some (overlay_contents o !! k);
}.

Lemma planned_settle o seen k ks results missing slots value :
  planned o seen (k :: ks) results missing slots → overlay_contents o !! k = value →
  planned o (seen ++ [k]) ks (<[length seen := value]> results) missing slots.
Proof.
  intros [Hlen Hmiss Hset] Hv. constructor; rewrite <- ?app_assoc; cbn [app]; [by rewrite length_insert|done|].
  intros i k' Hi. rewrite length_app in Hlen. cbn [length] in Hlen.
  apply lookup_snoc_Some in Hi as [[Hlt Hi]|[-> ->]].
  - rewrite list_lookup_insert_ne by lia. by apply Hset.
  - right. rewrite list_lookup_insert_eq by lia. by rewrite Hv.
Qed.

Lemma overlay_plan_ok o seen ks results missing slots :
  planned o seen ks results missing slots →
  ∃ results' missing' slots', overlay_plan o (length seen) ks results missing slots = Ok (results', missing', slots') ∧
    planned o (seen ++ ks) [] results' missing' slots'.
Proof.
  revert seen results missing slots; induction ks as [|k ks IH]; intros seen results missing slots Hp.
  { eexists _, _, _. split; [done|]. by rewrite app_nil_r. }
  cbn [overlay_plan]. assert (seen ++ k :: ks = (seen ++ [k]) ++ ks) as -> by (by rewrite <- app_assoc). replace (S (length seen)) with (length (seen ++ [k])) by (rewrite length_app; cbn; lia).
  destruct (tx_node_writes (ov_state o) !! k) as [value|] eqn:Hk.
  { apply IH, planned_settle; [done|]. unfold overlay_contents. by rewrite overlaid_lookup, Hk. }
  destruct (cached_bytes_ok o k) as (c & -> & Hc). cbn [mbind outcome_bind]. destruct c as [b|].
  { apply IH, planned_settle; [done|]. unfold overlay_contents. by rewrite overlaid_lookup, Hk, (Hc b). }
  destruct Hp as [Hlen Hmiss Hset]. apply IH. constructor; rewrite <- ?app_assoc; cbn [app].
  - done.
  - apply Forall2_app; [done|]. constructor; [|constructor]. split; [|done]. by rewrite lookup_app_r, Nat.sub_diag by lia.
  - intros i k' Hi. rewrite elem_of_app, list_elem_of_singleton. apply lookup_snoc_Some in Hi as [[Hlt Hi]|[-> ->]]; [|by left; right].
    destruct (Hset i k' Hi); [by left; left|by right].
Qed.

Lemma overlay_batch_get_eq o ks : overlay_batch_get_ordered o ks = Ok ((λ k, overlay_contents o !! k) <$> ks).
Proof.
  unfold overlay_batch_get_ordered.
  destruct (overlay_plan_ok o [] ks (replicate (length ks) None) [] []) as (results & missing & slots & Hplan & [Hlen Hmiss Hset]).
  { constructor; [by rewrite length_replicate|constructor|done]. }
  cbn [length] in Hplan. rewrite Hplan. cbn [mbind outcome_bind app] in *. rewrite app_nil_r in *.
  assert (foldl (λ rs p, <[p.1 := p.2]> rs) results (zip slots ((λ k, contents (ov_base o) !! k) <$> missing))
    = (λ k, overlay_contents o !! k) <$> ks) as Hfill.
  { apply fills_ok; [by rewrite length_fmap| |].
    - clear -Hmiss. induction Hmiss as [|p k slots missing [Hp Hk] _ IH]; [constructor|]. cbn [fmap list_fmap zip zip_with].
      constructor; [|done]. cbn [fst snd]. rewrite list_lookup_fmap, Hp. cbn. f_equal. unfold overlay_contents. by rewrite overlaid_lookup, Hk.
    - intros i Hi. rewrite length_fmap in Hi. destruct (lookup_lt_is_Some_2 ks i Hi) as [k Hk].
      rewrite fst_zip by (rewrite length_fmap; apply Forall2_length in Hmiss; lia).
      rewrite list_lookup_fmap, Hk. by apply Hset. }
  case_bool_decide as Hnil; [subst missing; inversion Hmiss; subst; by rewrite <- Hfill|].
  rewrite batch_unique_ok. cbn [mbind outcome_bind]. rewrite plan_expand. cbn [mbind outcome_bind]. by rewrite Hfill.
Qed.

#[global] Program Instance overlay_store_ok : StoreOk (Overlay B) := {| contents := overlay_contents |}.
Next Obligation. apply overlay_get_eq. Qed.
Next Obligation. intros o k v. eexists. split; [done|]. apply (staged_contents o k (Some v)). Qed.
Next Obligation. intros o k. eexists. split; [done|]. apply (staged_contents o k None). Qed.
Next Obligation. intros o ops. eexists. split; [done|]. apply stage_ops_contents. Qed.
Next Obligation.
  intros o es. eexists. split; [done|]. rewrite stage_ops_contents. unfold put_all. generalize (overlay_contents o).
  induction es as [|e es IH]; intros m; [done|]. cbn [fmap list_fmap foldl]. apply IH.
Qed.
Next Obligation. apply overlay_batch_get_eq. Qed.

#[global] Instance overlay_read_ok : ReadStoreOk (Overlay B).
Proof.
  split.
  - intros o k. exists (unverified <$> contents o !! k). split; [|apply read_ok_unverified].
    cbn [store_get_validated_shared overlay_read]. unfold default_get_validated_shared. by rewrite get_ok.
  - intros o ks _. exists ((λ k, unverified <$> contents o !! k) <$> ks). split.
    + cbn [store_batch_get_validated overlay_read]. unfold default_batch_get_validated. rewrite overlay_batch_get_eq.
      cbn [mbind outcome_bind]. by rewrite <- list_fmap_compose.
    + induction ks as [|k ks IH]; [constructor|]. constructor; [apply read_ok_unverified|done].
Qed.
End overlay.

End TransactionSpec.
