(* ===== verification/TransactionHistory.v ===== *)
(** * Transactions are serializable

    Any number of transactions and direct updates of named roots interleave on one
    store.  A transaction's read of a root is two steps, the read of the base and its
    entry in the read set, between which anything can happen.  The roots that result,
    and everything a committed transaction read, are as if the committed transactions
    had run one after the other, in the order of their commits. *)

From Stdlib Require Import ZArith Lia Strings.Byte.
From stdpp Require Import base tactics numbers list strings option gmap sorting relations.
From S2P Require Import Prelude Cursor Types Format Builder Store Manifest Transaction TransactionSpec.

Import Format Config Builder Store Manifest Transaction TransactionSpec.

Local Open Scope Z_scope.

Module TransactionHistory.

(** ** What a client did to named roots *)
Inductive RootEvent :=
| ReadRoot (name : bytes) (root : option RootManifest)
| WriteRoot (write : RootWrite).

(** The events alone on some roots: each read must see what it saw. *)
Fixpoint replay (R : gmap bytes RootManifest) (log : list RootEvent) : option (gmap bytes RootManifest) :=
  match log with
  | [] => Some R
  | ReadRoot name root :: log' => if decide (R !! name = root) then replay R log' else None
  | WriteRoot write :: log' => replay (apply_root_write R write) log'
  end.

Lemma replay_app R l l' : replay R (l ++ l') = R' ← replay R l; replay R' l'.
Proof.
  revert R; induction l as [|[name root|write] l IH]; intros R; cbn [app replay]; [done| |apply IH].
  case_decide; [apply IH|done].
Qed.

(** ** The system *)
(** A transaction in progress: its state, the reads that the base has answered and that
    are not entered yet, and what it did. *)
Record Client := {
  cl_state : TransactionState;
  cl_pending : list (bytes * option RootManifest);
  cl_log : list RootEvent;
}.

Section system.
Context {B : Type} `{StoreOk B} `{!ManifestStore B} `{!TransactionalStore B}.

(** The store, the transactions in progress, and what was committed, in order. *)
Record World := {
  w_base : B;
  w_clients : gmap nat Client;
  w_history : list (list RootEvent);
}.

Definition with_client (w : World) (t : nat) (c : Client) : World :=
  {| w_base := w_base w; w_clients := <[t := c]> (w_clients w); w_history := w_history w |}.
Definition updated_base (w : World) (b : B) (events : list (list RootEvent)) : World :=
  {| w_base := b; w_clients := w_clients w; w_history := w_history w ++ events |}.

Definition swap_events (name : bytes) (expected new : option RootManifest) (u : ManifestUpdate) : list RootEvent :=
  match u with
  | MU_Applied => [ReadRoot name expected; WriteRoot (match new with Some manifest => RootPut name manifest | None => RootDelete name end)]
  | MU_Conflict current => [ReadRoot name current]
  end.

Inductive step : World → World → Prop :=
| step_begin w t :
    w_clients w !! t = None → supports_transactions (w_base w) = true →
    step w (with_client w t {| cl_state := TransactionState_default; cl_pending := []; cl_log := [] |})
| step_known w t c name root (Hclient : w_clients w !! t = Some c) : staged_root (cl_state c) name = Some root →
    step w (with_client w t {| cl_state := cl_state c; cl_pending := cl_pending c; cl_log := cl_log c ++ [ReadRoot name root] |})
| step_ask w t c name current (Hclient : w_clients w !! t = Some c) : staged_root (cl_state c) name = None → (get_root name (w_base w)).1 = Ok current →
    step w (with_client w t {| cl_state := cl_state c; cl_pending := (name, current) :: cl_pending c; cl_log := cl_log c |})
| step_answer w t c name current before after (Hclient : w_clients w !! t = Some c) : cl_pending c = before ++ (name, current) :: after →
    step w (with_client w t {|
      cl_state := (observe_root name current (cl_state c)).2; cl_pending := before ++ after;
      cl_log := cl_log c ++ [ReadRoot name (observe_root name current (cl_state c)).1] |})
| step_write w t c write (Hclient : w_clients w !! t = Some c) :
    step w (with_client w t {|
      cl_state := stage_root write (cl_state c); cl_pending := cl_pending c; cl_log := cl_log c ++ [WriteRoot write] |})
| step_node w t c key value (Hclient : w_clients w !! t = Some c) :
    step w (with_client w t {| cl_state := stage_node key value (cl_state c); cl_pending := cl_pending c; cl_log := cl_log c |})
| step_commit w t c u b (Hclient : w_clients w !! t = Some c) :
    commit_transaction (node_writes (cl_state c)) (root_conditions (cl_state c)) (root_writes (cl_state c)) (w_base w) = (Ok u, b) →
    step w {| w_base := b; w_clients := delete t (w_clients w);
              w_history := w_history w ++ (if is_applied u then [cl_log c] else []) |}
| step_rollback w t :
    step w {| w_base := w_base w; w_clients := delete t (w_clients w); w_history := w_history w |}
| step_put_root w name manifest b :
    put_root name manifest (w_base w) = (Ok tt, b) → step w (updated_base w b [[WriteRoot (RootPut name manifest)]])
| step_delete_root w name b :
    delete_root name (w_base w) = (Ok tt, b) → step w (updated_base w b [[WriteRoot (RootDelete name)]])
| step_swap_root w name expected new u b :
    compare_and_swap_root name expected new (w_base w) = (Ok u, b) → step w (updated_base w b [swap_events name expected new u])
| step_batch w ops b (Hbatch : store_batch (w_base w) ops = Ok b) :
    step w (updated_base w b [])
| step_batch_put w es b (Hbatch : store_batch_put (w_base w) es = Ok b) :
    step w (updated_base w b []).

Context `{!BackendOk B}.

(** ** The invariant *)
(** The roots that a transaction read, as far as it read them from the base. *)
Definition agrees (s : TransactionState) (R : gmap bytes RootManifest) : Prop :=
  ∀ name root, tx_root_reads s !! name = Some root → R !! name = root.

(** On any roots that agree with its reads, the transaction would do what it did, and
    leave its writes. *)
Definition client_ok (c : Client) : Prop :=
  state_ok (cl_state c) ∧
  ∀ R, agrees (cl_state c) R → replay R (cl_log c) = Some (overlaid R (staged_writes (cl_state c))).

Lemma staged_root_sees s R name root :
  agrees s R → staged_root s name = Some root → overlaid R (staged_writes s) !! name = root.
Proof.
  intros Hag. unfold staged_root, staged_writes. rewrite overlaid_lookup, lookup_fmap.
  destruct (tx_root_writes s !! name) as [write|]; cbn; [congruence|]. apply Hag.
Qed.

Lemma client_read c name root pending :
  client_ok c → staged_root (cl_state c) name = Some root →
  client_ok {| cl_state := cl_state c; cl_pending := pending; cl_log := cl_log c ++ [ReadRoot name root] |}.
Proof.
  intros [Hok Hrun] Hst. split; [done|]. intros R Hag. cbn [cl_state cl_log] in *. rewrite replay_app, (Hrun R Hag). cbn.
  by rewrite decide_True by (by apply staged_root_sees).
Qed.

Lemma client_observe c name current pending :
  client_ok c →
  client_ok {| cl_state := (observe_root name current (cl_state c)).2; cl_pending := pending;
               cl_log := cl_log c ++ [ReadRoot name (observe_root name current (cl_state c)).1] |}.
Proof.
  intros Hc. unfold observe_root. destruct (staged_root (cl_state c) name) as [root|] eqn:Hst; cbn [fst snd]; [by apply client_read|].
  unfold staged_root in Hst. destruct (tx_root_writes (cl_state c) !! name) eqn:Hw; [done|].
  destruct Hc as [Hok Hrun]. split; [done|]. intros R Hag. cbn [cl_state cl_log] in *.
  assert (agrees (cl_state c) R) as Hag0.
  { intros n r Hr. apply Hag. cbn. rewrite lookup_insert_ne; [done|]. intros ->. by rewrite Hst in Hr. }
  rewrite replay_app, (Hrun R Hag0). cbn. rewrite decide_True; [done|]. unfold staged_writes.
  rewrite overlaid_lookup, lookup_fmap, Hw. apply Hag. cbn. by rewrite lookup_insert_eq.
Qed.

Lemma overlaid_stage R s write :
  overlaid R (staged_writes (stage_root write s)) = apply_root_write (overlaid R (staged_writes s)) write.
Proof.
  apply map_eq. intros k. unfold staged_writes. cbn [stage_root tx_root_writes].
  rewrite fmap_insert, overlaid_lookup. destruct write as [name m|name]; cbn [write_name replacement apply_root_write];
    (destruct (decide (name = k)) as [->|Hk]; [rewrite !lookup_insert_eq|rewrite !lookup_insert_ne by done]);
    rewrite ?lookup_delete_eq, ?lookup_delete_ne by done; by rewrite ?overlaid_lookup.
Qed.

Lemma client_write c write :
  client_ok c →
  client_ok {| cl_state := stage_root write (cl_state c); cl_pending := cl_pending c; cl_log := cl_log c ++ [WriteRoot write] |}.
Proof.
  intros [Hok Hrun]. split.
  - unfold state_ok. cbn. apply map_Forall_insert_2; [done|exact Hok].
  - intros R Hag. cbn [cl_state cl_log] in *. rewrite replay_app, (Hrun R Hag), overlaid_stage. done.
Qed.

Record world_ok (R0 : gmap bytes RootManifest) (w : World) : Prop := {
  wo_clients : map_Forall (λ _, client_ok) (w_clients w);
  wo_history : replay R0 (concat (w_history w)) = Some (roots (w_base w));
}.

Lemma world_client R0 w t c :
  world_ok R0 w → client_ok c → world_ok R0 (with_client w t c).
Proof. intros [Hc Hh] Hok. constructor; [|done]. by apply map_Forall_insert_2. Qed.

Lemma world_updated R0 w b events :
  world_ok R0 w → replay (roots (w_base w)) (concat events) = Some (roots b) → world_ok R0 (updated_base w b events).
Proof. intros [Hc Hh] Hr. constructor; [done|]. cbn. by rewrite concat_app, replay_app, Hh. Qed.

Lemma commit_world R0 w t c u b :
  world_ok R0 w → w_clients w !! t = Some c →
  commit_transaction (node_writes (cl_state c)) (root_conditions (cl_state c)) (root_writes (cl_state c)) (w_base w) = (Ok u, b) →
  world_ok R0 {| w_base := b; w_clients := delete t (w_clients w);
                 w_history := w_history w ++ (if is_applied u then [cl_log c] else []) |}.
Proof.
  intros [Hc Hh] Ht Hcommit. destruct (Hc t c Ht) as [Hok Hrun].
  destruct (commit_ok (w_base w) (node_writes (cl_state c)) (root_conditions (cl_state c)) (root_writes (cl_state c)))
    as (u' & b' & Heq & Hu). rewrite Hcommit in Heq. injection Heq as <- <-.
  constructor; cbn [w_clients w_history w_base]; [by apply map_Forall_delete|].
  destruct u as [n m|x]; cbn [is_applied].
  - destruct Hu as (Hcond & Hroots & _). rewrite concat_app, replay_app, Hh. cbn. rewrite app_nil_r, Hroots, apply_root_writes by done.
    apply Hrun. intros name root Hr. apply (proj1 (Forall_forall _ _) Hcond {| rc_name := name; rc_expected := root |}).
    by apply conditions_elem.
  - destruct Hu as (_ & Hroots & _). by rewrite app_nil_r, Hroots.
Qed.

Lemma swap_world R0 w name expected new u b :
  world_ok R0 w → compare_and_swap_root name expected new (w_base w) = (Ok u, b) →
  world_ok R0 (updated_base w b [swap_events name expected new u]).
Proof.
  intros Hw Hswap. apply world_updated; [done|]. cbn [concat]. rewrite app_nil_r.
  destruct (swap_root_ok (w_base w) name expected new) as (u' & b' & Heq & _ & Hu). rewrite Hswap in Heq. injection Heq as <- <-.
  case_decide as Hcur; destruct Hu as [-> ->]; cbn; rewrite decide_True by done; [|done]. by destruct new.
Qed.

Lemma step_world R0 w w' : world_ok R0 w → step w w' → world_ok R0 w'.
Proof.
  intros Hw Hstep. pose proof (wo_clients _ _ Hw) as Hc. destruct Hstep.
  - apply world_client; [done|]. split; [apply map_Forall_empty|]. intros R _. cbn. unfold staged_writes.
    cbn. by rewrite fmap_empty, overlaid_empty.
  - apply world_client; [done|]. apply client_read; [by eapply Hc|done].
  - apply world_client; [done|]. exact (Hc t c Hclient).
  - apply world_client; [done|]. apply client_observe. by eapply Hc.
  - apply world_client; [done|]. apply client_write. by eapply Hc.
  - apply world_client; [done|]. exact (Hc t c Hclient).
  - by eapply commit_world.
  - destruct Hw as [_ Hh]. constructor; [by apply map_Forall_delete|done].
  - apply world_updated; [done|]. destruct (put_root_ok (w_base w) name manifest) as (b' & Heq & Hr & _).
    assert (b' = b) as -> by congruence. cbn. by rewrite Hr.
  - apply world_updated; [done|]. destruct (delete_root_ok (w_base w) name) as (b' & Heq & Hr & _).
    assert (b' = b) as -> by congruence. cbn. by rewrite Hr.
  - by eapply swap_world.
  - apply world_updated; [done|]. cbn. by rewrite (batch_roots _ _ _ Hbatch).
  - apply world_updated; [done|]. cbn. by rewrite (batch_put_roots _ _ _ Hbatch).
Qed.

(** C20. Transactions are serializable: however transactions, their reads and writes, and
    direct updates of named roots interleave on a store, the roots that are left, and
    every root that a committed transaction saw, are those of an execution in which
    the committed transactions and the direct updates run one after the other, in the
    order in which they took effect; a transaction that was rolled back or met a
    conflict leaves no trace. *)
Theorem transactions_serializable b w :
  rtc step {| w_base := b; w_clients := ∅; w_history := [] |} w →
  replay (roots b) (concat (w_history w)) = Some (roots (w_base w)).
Proof.
  intros Hsteps. cut (world_ok (roots b) w); [by intros [_ Hh]|].
  eapply (rtc_ind_r (world_ok (roots b))); [|intros; by eapply step_world|exact Hsteps].
  by constructor; [apply map_Forall_empty|].
Qed.
End system.

(** ** Sample *)
(** Two transactions read a name that is absent and publish it; the second to commit
    entered its read after the first had committed. *)
Definition main : bytes := [Byte.x6d].
Definition manifest_at (time : Z) : RootManifest := with_updated_at_millis (RootManifest_new None Config_default) time.

Definition asked : Client := {| cl_state := TransactionState_default; cl_pending := [(main, None)]; cl_log := [] |}.
Definition answered : Client := {|
  cl_state := (observe_root main None TransactionState_default).2; cl_pending := []; cl_log := [ReadRoot main None] |}.
Definition wrote_main (time : Z) : Client := {|
  cl_state := stage_root (RootPut main (manifest_at time)) (cl_state answered); cl_pending := [];
  cl_log := [ReadRoot main None; WriteRoot (RootPut main (manifest_at time))] |}.
Definition committed_main : MemBackend := with_roots MemBackend_new {[ main := manifest_at 1 ]}.

Definition fresh : Client := {| cl_state := TransactionState_default; cl_pending := []; cl_log := [] |}.
Definition finished : World := {| w_base := committed_main; w_clients := ∅; w_history := [cl_log (wrote_main 1)] |}.

Tactic Notation "walk" uconstr(e) := eapply rtc_l; [refine e; vm_compute; reflexivity|].

Lemma sample_steps : rtc step {| w_base := MemBackend_new; w_clients := ∅; w_history := [] |} finished.
Proof.
  walk (step_begin _ 0 _ _). walk (step_begin _ 1 _ _).
  walk (step_ask _ 0 fresh main None _ _ _). walk (step_ask _ 1 fresh main None _ _ _).
  walk (step_answer _ 1 asked main None [] [] _ _). walk (step_write _ 1 answered (RootPut main (manifest_at 1)) _).
  walk (step_commit _ 1 (wrote_main 1) (TU_Applied 0 1) committed_main _ _).
  walk (step_answer _ 0 asked main None [] [] _ _). walk (step_write _ 0 answered (RootPut main (manifest_at 2)) _).
  walk (step_commit _ 0 (wrote_main 2)
    (TU_Conflict {| tc_name := main; tc_expected := None; tc_current := Some (manifest_at 1) |}) committed_main _ _).
  match goal with |- rtc _ ?w _ => replace w with finished by (vm_compute; reflexivity) end. apply rtc_refl.
Qed.

Lemma transactions_serializable_witness :
  rtc step {| w_base := MemBackend_new; w_clients := ∅; w_history := [] |} finished ∧
  replay (roots MemBackend_new) (concat (w_history finished)) = Some (roots (w_base finished)).
Proof. split; [exact sample_steps|]. exact (transactions_serializable MemBackend_new finished sample_steps). Defined.

End TransactionHistory.
