(* ===== verification/TransactionContract.v ===== *)
(** * What a commit gives its readers

    A commit either publishes all that the transaction staged, and the engine it was
    begun on then reads the published roots and every tree that the transaction could
    read; or it names a root that changed since the transaction read it, and leaves
    the roots and the nodes of the store exactly as they were. *)

From Stdlib Require Import ZArith Lia Strings.Byte.
From stdpp Require Import base tactics numbers list strings option gmap sorting.
From S2P Require Import Prelude Cursor Types Format Boundary Node ReadNode ChunkSpec Store NodeCache Emitter EmitterSpec Builder Entries BuilderSpec TreeSpec Engine EngineSpec BuiltTree Write WriteSpec RebuildSpec Loader LoaderSpec CanonicalWrite Reach ReachSpec ReachContract Manifest Transaction TransactionSpec TransactionHistory.

Import Format Config Node ReadNode ChunkSpec Store NodeCache Emitter EmitterSpec Builder Entries BuilderSpec TreeSpec Engine EngineSpec BuiltTree Write WriteSpec RebuildSpec Loader LoaderSpec CanonicalWrite Reach ReachSpec ReachContract Manifest Transaction TransactionSpec TransactionHistory.

Local Open Scope Z_scope.

Module TransactionContract.

(** ** Stores that grow *)
Section grow.
Context `{HashesOk}.
Implicit Types (st : gmap bytes bytes).

Lemma stored_node_grow st st' cid n : st ⊆ st' → stored_node st cid n → stored_node st' cid n.
Proof. intros Hsub (b & Hb & ?). exists b. split; [by eapply lookup_weaken|done]. Qed.

Lemma leaf_under_grow st st' root n : st ⊆ st' → leaf_under st root n → leaf_under st' root n.
Proof.
  intros Hsub. induction 1 as [cid n Hn Hl|cid n child m Hn Hl Hin _ IH].
  - apply leaf_here; [by eapply stored_node_grow|done].
  - eapply leaf_below; [by eapply stored_node_grow|done|done|done].
Qed.

Lemma tree_grow st st' tree h es : st ⊆ st' → tree_holds st tree h es → tree_holds st' tree h es.
Proof.
  intros Hsub Hh. apply (tree_keep st st' [tree]); [|by left|done]. intros c Hc.
  destruct (reachable_bytes st [tree] c) as (b & Hb & _); [|done|].
  - intros t ->%list_elem_of_singleton. by exists h, es.
  - rewrite Hb. by eapply lookup_weaken.
Qed.

Context {St : Type} `{StoreOk St}.

Lemma engine_grow g st (e : ProllyEngine St) store :
  engine_manages g st e → st ⊆ contents store → engine_manages g (contents store) (with_store e store).
Proof.
  intros [[Hs Hc Hr] Hf] Hsub. split; [|done]. constructor; cbn [with_store en_store en_cache en_recent_leaf].
  - done.
  - intros cid entry He. destruct (Hc cid entry He) as (n & Hn & ?). exists n. split; [by eapply stored_node_grow|done].
  - intros root rl Hrl. destruct (Hr root rl Hrl) as (n & Hv & Hu). exists n. split; [done|]. by eapply leaf_under_grow.
Qed.
End grow.

Lemma overlaid_mono {V} (m m' : gmap bytes V) ws : m ⊆ m' → overlaid m ws ⊆ overlaid m' ws.
Proof.
  intros Hsub. apply map_subseteq_spec. intros k v. rewrite !overlaid_lookup. destruct (ws !! k); [done|]. intros Hk. by eapply lookup_weaken.
Qed.

(** ** The nodes of a commit *)
Section nodes.
Context `{HashesOk} {B : Type} `{StoreOk B} `{!ManifestStore B} `{!TransactionalStore B}.

(** What is staged under a key is a node with that identifier, and the store has no
    other bytes there. *)
Definition staged_node (g : TreeFormat) (st : gmap bytes bytes) (k : bytes) (v : option bytes) : Prop :=
  ∃ b n, v = Some b ∧ stored_node {[ k := b ]} k n ∧ format n = g ∧ ∀ b', st !! k = Some b' → b' = b.
Definition staged_nodes (g : TreeFormat) (st : gmap bytes bytes) (s : TransactionState) : Prop :=
  map_Forall (staged_node g st) (tx_node_writes s).

Lemma staged_grow g st s : staged_nodes g st s → st ⊆ overlaid st (tx_node_writes s).
Proof.
  intros Hst. apply map_subseteq_spec. intros k b' Hb'. rewrite overlaid_lookup.
  destruct (tx_node_writes s !! k) as [v|] eqn:Hv; [|done]. destruct (Hst k v Hv) as (b & n & -> & _ & _ & Hb). by rewrite (Hb b' Hb').
Qed.

Lemma promoted_ok g st s :
  staged_nodes g st s →
  ∃ decoded, promoted g (node_writes s) = Ok (decoded, false) ∧
    Forall (λ d, stored_node (overlaid st (tx_node_writes s)) d.1.1 d.1.2) decoded.
Proof.
  intros Hst. unfold node_writes. set (st' := overlaid _ _).
  assert (Forall (λ w : bytes * option bytes, staged_node g st w.1 w.2 ∧ st' !! w.1 = w.2) (btree_iter (tx_node_writes s))) as Hall.
  { rewrite btree_iter_perm. apply Forall_forall. intros [k v] Hk%elem_of_map_to_list. split; [by apply Hst|].
    unfold st'. cbn [fst snd]. by rewrite overlaid_lookup, Hk. }
  clearbody st'. induction Hall as [|[k v] l [(b & n & Hv & Hn & Hg & _) Hk] _ (decoded & Hd & Hds)]; [by exists []|].
  cbn [fst snd fmap list_fmap] in *. subst v. cbn [promoted fst snd]. destruct (Hn) as (b' & Hb' & Hcid & Hrest). rewrite lookup_singleton_eq in Hb'. injection Hb' as <-.
  assert (cid_from_store_key k = Ok k) as ->.
  { unfold cid_from_store_key. rewrite <- Hcid at 1. unfold len. unfold Cid_from_bytes. by rewrite sha256_len. }
  assert (decode_owned k g b = Ok n) as -> by (subst g; apply (decode_owned_ok {[ k := b ]}); [done|by rewrite lookup_singleton_eq]).
  rewrite Hd. cbn [mbind outcome_bind]. eexists. split; [done|]. constructor; [|done]. cbn [fst snd]. exists b. by split.
Qed.

Lemma insert_promoted_ok g st decoded z (e : ProllyEngine B) :
  engine_manages g st e → Forall (λ d : Cid * Node * Z, stored_node st d.1.1 d.1.2) decoded →
  ∃ z' e', insert_promoted decoded z e = (Ok z', e') ∧ engine_manages g st e' ∧ en_store e' = en_store e.
Proof.
  intros He Hall. revert z e He; induction Hall as [|[[cid n] weight] decoded Hn _ IH]; intros z e He; [by exists z, e|].
  cbn [insert_promoted]. destruct (admit_manages g st cid n weight e He Hn) as (z1 & e1 & Ha & He1).
  rewrite (action_bind_Ok _ _ _ _ _ Ha). destruct (IH (z + z1) e1 He1) as (z2 & e2 & Hi & He2 & Hs). exists z2, e2.
  split; [done|]. split; [done|]. rewrite Hs. unfold admit_owned in Ha. destruct (cache_insert _ _ _ _). by injection Ha as _ <-.
Qed.

Lemma promote_ok g st s (e : ProllyEngine B) :
  staged_nodes g st s → engine_manages g (overlaid st (tx_node_writes s)) e →
  ∃ e', promote_committed_nodes (node_writes s) e = (Ok tt, e') ∧
    engine_manages g (overlaid st (tx_node_writes s)) e' ∧ en_store e' = en_store e.
Proof.
  intros Hst He. unfold promote_committed_nodes. destruct He as [He Hf]. rewrite Hf.
  destruct (promoted_ok g st s Hst) as (decoded & Hd & Hds).
  rewrite (action_bind_Ok (run _) _ e (decoded, false) e) by (unfold run; by rewrite Hd). cbn [fst snd].
  rewrite (action_bind_Ok _ _ e 0 e) by done.
  destruct (insert_promoted_ok g _ decoded 0 e (conj He Hf) Hds) as (z & e1 & Hi & He1 & Hs1). rewrite (action_bind_Ok _ _ _ _ _ Hi).
  destruct (meter_manages g _ (add_cache_evictions z) e1 He1) as (e2 & Hm & He2). exists e2. split; [done|]. split; [done|].
  rewrite <- Hs1. by injection Hm as <-.
Qed.
End nodes.

(** Nodes of a tree that are staged. *)
Section staged.
Context `{HashesOk} (config : Config.Config).
Abbreviation f := (Config.format config).

Lemma staged_upserts l s k v :
  tx_node_writes (foldl stage_op s ((λ e : bytes * bytes, BatchUpsert e.1 e.2) <$> l)) !! k = Some v →
  tx_node_writes s !! k = Some v ∨ ∃ b, v = Some b ∧ (k, b) ∈ l.
Proof.
  revert s; induction l as [|[k' b'] l IH]; intros s; [by left|]. cbn [fmap list_fmap foldl]. intros Hv.
  destruct (IH _ Hv) as [Hs|(b & -> & Hb)]; [|right; exists b; split; [done|by right]]. cbn in Hs.
  destruct (decide (k' = k)) as [->|Hk]; [rewrite lookup_insert_eq in Hs|rewrite lookup_insert_ne in Hs by done; by left].
  injection Hs as <-. right. exists b'. split; [done|by left].
Qed.

Lemma staged_built st nodes s :
  Forall (node_stored config st) nodes → tx_node_writes s = ∅ →
  staged_nodes f ∅ (foldl stage_op s ((λ e, BatchUpsert e.1 e.2) <$> (stored f <$> nodes))).
Proof.
  intros Hst Hs k v Hv. destruct (staged_upserts _ _ _ _ Hv) as [Hv'|(b & -> & (n & Heq & Hn)%list_elem_of_fmap)]; [by rewrite Hs in Hv'|].
  injection Heq as -> ->. destruct (proj1 (Forall_forall _ _) Hst n Hn) as (b & Hb & Hcid & Hto & Hrest).
  assert (node_bytes f n.1 n.2 = b) as -> by (unfold node_bytes; by rewrite Hto).
  exists b, (node_of f n.1 n.2). split; [done|]. split; [|done]. exists b. by rewrite lookup_singleton_eq.
Qed.

Lemma staged_root_nodes g st write s : staged_nodes g st s → staged_nodes g st (stage_root write s).
Proof. done. Qed.
End staged.

(** ** Commits *)
Section commits.
Context `{HashesOk} {B : Type} `{StoreOk B} `{!ReadStore B} `{!ReadStoreOk B}.
Context `{!ManifestStore B} `{!TransactionalStore B} `{!BackendOk B}.

(** The engine reads the roots [R] by name, and every tree that a store [st] holds. *)
Definition serves (R : gmap bytes RootManifest) (st : gmap bytes bytes) (e : ProllyEngine B) : Prop :=
  (∀ name, on_store (load_named_root name) e = (Ok (into_tree <$> R !! name), e)) ∧
  ∀ tree h es ks, tree_holds st tree h es → (h ≤ 255)%nat →
    (get_each tree ks e).1 = Ok ((λ k, final_map es !! k) <$> ks).

Lemma engine_serves g st st' (e : ProllyEngine B) :
  engine_manages g st' e → st ⊆ st' → serves (roots (en_store e)) st e.
Proof.
  intros [He _] Hsub. split.
  - intros name. unfold on_store, load_named_root. rewrite (action_bind_Ok _ _ _ _ _ (get_root_ok (en_store e) name)). by destruct e.
  - intros tree h es ks Hh Hle. destruct (get_each_ok st' tree h es ks e He (tree_grow st st' tree h es Hsub Hh) Hle) as (e' & -> & _). done.
Qed.

(** Nothing changed: the store has the same named roots and the same nodes, and the
    rest of the engine (its caches and its counters) is the same. *)
Definition as_before (base base' : ProllyEngine B) : Prop :=
  ∃ b, base' = with_store base b ∧ roots b = roots (en_store base) ∧ contents b = contents (en_store base).

Lemma commit_run g st (tx : ProllyEngine (Overlay B)) (base : ProllyEngine B) :
  let s := ov_state (en_store tx) in
  engine_manages g st base → state_ok s → staged_nodes g st s →
  ∃ u base', commit tx base = (Ok u, base') ∧
    match u with
    | TU_Applied _ _ => agrees s (roots (en_store base)) ∧
        roots (en_store base') = overlaid (roots (en_store base)) (staged_writes s) ∧
        engine_manages g (overlaid st (tx_node_writes s)) base'
    | TU_Conflict x => tx_root_reads s !! tc_name x = Some (tc_expected x) ∧
        roots (en_store base) !! tc_name x = tc_current x ∧ tc_current x ≠ tc_expected x ∧
        as_before base base' ∧ engine_manages g st base'
    end.
Proof.
  intros s He Hok Hst. unfold commit. fold s. pose proof He as [[Hs _ _] _].
  destruct (commit_ok (en_store base) (node_writes s) (root_conditions s) (root_writes s)) as (u & b & Hc & Hu).
  rewrite (action_bind_Ok (on_store _) _ base u (with_store base b)) by (unfold on_store; by rewrite Hc).
  destruct u as [n m|x]; cbn [is_applied].
  - destruct Hu as (Hcond & Hroots & Hcont). rewrite apply_node_writes, Hs in Hcont. rewrite apply_root_writes in Hroots by done.
    assert (engine_manages g (overlaid st (tx_node_writes s)) (with_store base b)) as He1.
    { rewrite <- Hcont. apply (engine_grow g st); [done|]. rewrite Hcont. by eapply staged_grow. }
    destruct (promote_ok g st s (with_store base b) Hst He1) as (e2 & Hp & He2 & Hs2). rewrite (action_bind_Ok _ _ _ _ _ Hp).
    eexists _, e2. split; [done|]. split; [|split; [by rewrite Hs2|done]].
    intros name root Hr. apply (proj1 (Forall_forall _ _) Hcond {| rc_name := name; rc_expected := root |}). by apply conditions_elem.
  - destruct Hu as ((c & Hin & Hn & Hx & Hcur & Hne) & Hroots & Hcont). apply conditions_elem in Hin. rewrite Hn, Hx in Hin. rewrite Hn in Hcur.
    rewrite (action_bind_Ok (mret tt) _ _ tt _ eq_refl). eexists _, (with_store base b). split; [done|].
    split; [done|]. split; [done|]. split; [done|]. split; [by exists b|]. rewrite Hs in Hcont. rewrite <- Hcont.
    apply (engine_grow g st); [done|by rewrite Hcont].
Qed.

(** C21. A commit is atomic and durable: on an engine whose store may have moved on since
    the transaction was begun, it returns.  Either every root that the transaction
    read is still the current one; then the roots are the old ones overlaid with the
    staged ones, the nodes are the old ones with the staged ones and no others, and the
    engine serves these roots and every tree that was readable in the transaction or in
    the store.  Or the reported root differs from what the transaction read; then the
    store has exactly the roots and the nodes that it had, none of the staged nodes
    among them, and the rest of the engine is unchanged. *)
Theorem commit_atomic g st (tx : ProllyEngine (Overlay B)) (base : ProllyEngine B) :
  let s := ov_state (en_store tx) in
  engine_manages g st base → contents (ov_base (en_store tx)) ⊆ st → state_ok s → staged_nodes g st s →
  ∃ u base', commit tx base = (Ok u, base') ∧
    match u with
    | TU_Applied _ _ => agrees s (roots (en_store base)) ∧
        roots (en_store base') = overlaid (roots (en_store base)) (staged_writes s) ∧
        contents (en_store base') = overlaid st (tx_node_writes s) ∧
        serves (roots (en_store base')) (contents (en_store tx)) base' ∧
        serves (roots (en_store base')) st base'
    | TU_Conflict x => tx_root_reads s !! tc_name x = Some (tc_expected x) ∧
        roots (en_store base) !! tc_name x = tc_current x ∧ tc_current x ≠ tc_expected x ∧
        as_before base base' ∧ serves (roots (en_store base)) st base'
    end.
Proof.
  intros s He Hbase Hok Hst. destruct (commit_run g st tx base He Hok Hst) as (u & base' & Hc & Hu).
  exists u, base'. split; [exact Hc|]. fold s in Hu. destruct u as [n m|x].
  - destruct Hu as (Hag & Hroots & He'). split; [done|]. split; [done|]. split; [by destruct He' as [[Hs' _ _] _]|].
    split; eapply engine_serves; [exact He'| |exact He'|by eapply staged_grow]. by apply overlaid_mono.
  - destruct Hu as (Hr & Hcur & Hne & Hb & He'). split; [done|]. split; [done|]. split; [done|]. split; [done|].
    destruct Hb as (b & -> & Hroots & _). rewrite <- Hroots. change b with (en_store (with_store base b)) at 1. by eapply engine_serves.
Qed.
End commits.

(** ** Sample *)
#[local] Existing Instance sample_hashes.
#[local] Existing Instance sample_hashes_ok.

Definition empty_engine : ProllyEngine MemBackend := ProllyEngine_new MemBackend_new (sample_config 2 2).

Lemma empty_manages : engine_manages (Config.format (sample_config 2 2)) ∅ empty_engine.
Proof. split; [|reflexivity]. exact (fresh_engine_ok MemBackend_new (sample_config 2 2) ExecutionConfig_default). Qed.

Lemma empty_sound : holds (stored_node (contents (en_store empty_engine))) (en_cache empty_engine).
Proof. apply map_Forall_empty. Qed.

(** A transaction that found no root, stored the nodes of a tree and published it. *)
Definition sample_state : TransactionState :=
  stage_root (RootPut main (from_tree sample_old))
    (foldl stage_op (observe_root main None TransactionState_default).2
       ((λ e, BatchUpsert e.1 e.2) <$> (stored (Config.format (sample_config 2 2)) <$> sample_built.2))).

Definition sample_tx : outcome Error (ProllyEngine (Overlay MemBackend)) :=
  tx ← begin_transaction empty_engine empty_sound;
  Ok (with_store tx (with_state (en_store tx) sample_state)).

Lemma sample_staged : staged_nodes (Config.format (sample_config 2 2)) ∅ sample_state.
Proof.
  apply staged_root_nodes, (staged_built (sample_config 2 2) sample_store); [|done].
  by destruct sample_write_input as [_ _ _ (_ & _ & Hst) _ _ _ _ _ _ _ _].
Qed.

Lemma sample_reads : tx_root_reads sample_state = {[ main := None ]}.
Proof. vm_compute. reflexivity. Qed.

Lemma sample_state_ok : state_ok sample_state.
Proof.
  assert (tx_root_writes sample_state = {[ main := RootPut main (from_tree sample_old) ]}) as Hw by (vm_compute; reflexivity).
  unfold state_ok. rewrite Hw. by apply map_Forall_singleton.
Qed.

Lemma commit_atomic_witness :
  ∃ tx n m base', sample_tx = Ok tx ∧ commit tx empty_engine = (Ok (TU_Applied n m), base') ∧
    roots (en_store base') = overlaid (roots (en_store empty_engine)) (staged_writes sample_state) ∧
    contents (en_store base') = overlaid ∅ (tx_node_writes sample_state) ∧
    serves (roots (en_store base')) (contents (en_store tx)) base'.
Proof.
  destruct sample_tx as [tx| |] eqn:Htx; [|discriminate Htx..].
  assert (ov_state (en_store tx) = sample_state ∧ ov_base (en_store tx) = MemBackend_new) as [Hs Hb] by (by injection Htx as <-).
  destruct (commit_atomic (Config.format (sample_config 2 2)) ∅ tx empty_engine empty_manages) as (u & base' & Hc & Hu).
  - rewrite Hb. reflexivity.
  - rewrite Hs. exact sample_state_ok.
  - rewrite Hs. exact sample_staged.
  - rewrite Hs in Hu. destruct u as [n m|x].
    + exists tx, n, m, base'. split; [reflexivity|]. split; [exact Hc|]. destruct Hu as (_ & Hr & Hn & Hserves & _). auto.
    + destruct Hu as (Hr & Hcur & Hne & _). rewrite sample_reads in Hr.
      apply lookup_singleton_Some in Hr as [Hn Hx]. destruct Hne. rewrite <- Hx, <- Hcur, <- Hn. reflexivity.
Defined.

End TransactionContract.
