(* ===== verification/RetentionSpec.v ===== *)
(** * Named roots and collection under a retention policy

    Compare-and-swap of a named tree; the selection of named roots by each policy, and
    that a sweep of the whole store then deletes exactly the nodes that no selected
    tree reaches. *)

From Stdlib Require Import ZArith Lia Strings.Byte.
From stdpp Require Import base tactics numbers list strings option gmap sorting.
From S2P Require Import Prelude Cursor Types Format Node ReadNode ChunkSpec Store NodeCache Emitter Builder Entries BuilderSpec TreeSpec Engine EngineSpec BuiltTree Write WriteSpec RebuildSpec Loader LoaderSpec CanonicalWrite TreeDiffContract Reach ReachSpec ReachContract Manifest Transaction TransactionSpec.

Import Format Config Node ReadNode ChunkSpec Store NodeCache Emitter Builder Entries BuilderSpec TreeSpec Engine EngineSpec BuiltTree Write WriteSpec RebuildSpec Loader LoaderSpec CanonicalWrite TreeDiffContract Reach ReachSpec ReachContract Manifest Transaction TransactionSpec.

Local Open Scope Z_scope.

Module RetentionSpec.

(** ** Listings *)
(** The names of a map in order. *)
Record lists_roots (R : gmap bytes RootManifest) (l : list NamedRootManifest) : Prop := {
  lr_elem name m : {| nm_name := name; nm_manifest := m |} ∈ l ↔ R !! name = Some m;
  lr_sorted : StronglySorted blt (nm_name <$> l);
}.

Class ScanOk (B : Type) `{StoreOk B} `{!ManifestStore B} `{!TransactionalStore B} `{!BackendOk B}
    `{!ManifestStoreScan B} `{!NodeStoreScan B} : Prop := {
  list_roots_ok b : ∃ l, list_roots b = (Ok l, b) ∧ lists_roots (roots b) l;
  list_cids_ok b : map_Forall (λ k _, length k = 32%nat) (contents b) →
    ∃ l, list_node_cids b = Ok l ∧ NoDup l ∧ ∀ k, k ∈ l ↔ is_Some (contents b !! k);
}.

Lemma sorted_strict (l : list bytes) : StronglySorted ble l → NoDup l → StronglySorted blt l.
Proof.
  induction 1 as [|k l _ IH Hk]; intros Hnd; [constructor|]. apply NoDup_cons in Hnd as [Hnk Hnd]. constructor; [by apply IH|].
  apply Forall_forall. intros k' Hk'. rewrite Forall_forall in Hk. destruct (proj1 (ble_lt_eq k k') (Hk k' Hk')) as [?| ->]; [done|by destruct Hnk].
Qed.

Lemma name_le_total a b : name_le a b ∨ name_le b a.
Proof. unfold name_le. destruct (blt_total (nm_name a) (nm_name b)) as [?|[->|?]]; [left; by apply blt_le|left; apply ble_refl|right; by apply blt_le]. Qed.

#[global] Instance MemBackend_scan_ok : ScanOk MemBackend.
Proof.
  split.
  - intros b. eexists. split; [done|]. unfold sort_named_root_manifests. set (l := _ <$> _ : list NamedRootManifest).
    pose proof (merge_sort_Permutation name_le l) as Hperm. constructor.
    + intros name m. rewrite Hperm. unfold l. rewrite list_elem_of_fmap. split.
      * intros ([name' m'] & Heq & Hin%elem_of_map_to_list). by injection Heq as -> ->.
      * intros Hm. exists (name, m). split; [done|]. by apply elem_of_map_to_list.
    + apply sorted_strict.
      * assert (StronglySorted name_le (merge_sort name_le l)) as Hs.
        { apply StronglySorted_merge_sort; [intros ???; apply ble_trans|exact name_le_total]. }
        clear -Hs. induction Hs as [|r l' _ IH Hr]; [constructor|]. constructor; [done|]. apply Forall_fmap. exact Hr.
      * rewrite Hperm. unfold l. rewrite <- list_fmap_compose. apply (NoDup_fst_map_to_list (be_roots b)).
  - intros b Hall. cbn. unfold mem_list_node_cids.
    assert (∀ l : list (bytes * bytes), (∀ e, e ∈ l → length e.1 = 32%nat) → mapM (λ e : bytes * bytes, cid_from_store_key e.1) l = Ok l.*1) as Hm.
    { induction l as [|e l IH]; intros Hl; [done|].
      change (mapM ?g (e :: l)) with (y ← g e; ys ← mapM g l; Ok (y :: ys)). rewrite IH by (intros e' He'; apply Hl; by right).
      unfold cid_from_store_key, len. by rewrite (Hl e) by left. }
    rewrite Hm. 2:{ intros [k v] Hin%elem_of_map_to_list. by apply (Hall k v). }
    cbn [mbind outcome_bind]. eexists. split; [done|]. unfold sort_cids. pose proof (merge_sort_Permutation ble (map_to_list (ms_data (be_nodes b))).*1) as Hperm.
    split; [rewrite Hperm; apply NoDup_fst_map_to_list|]. intros k. rewrite Hperm, list_elem_of_fmap. split.
    + intros ([k' v] & -> & Hin%elem_of_map_to_list). by exists v.
    + intros [v Hv]. exists (k, v). split; [done|]. by apply elem_of_map_to_list.
Qed.

(** ** What a policy selects *)
(** The names under a prefix that come after one. *)
Definition newer (R : gmap bytes RootManifest) (prefix name : bytes) : gset bytes :=
  filter (λ n, prefix `prefix_of` n ∧ blt name n) (dom R).

Definition retained (R : gmap bytes RootManifest) (retention : NamedRootRetention) (name : bytes) (m : RootManifest) : Prop :=
  R !! name = Some m ∧
  match retention with
  | RetainAll => True
  | RetainExact names => name ∈ names
  | RetainPrefix prefix => prefix `prefix_of` name
  | RetainNewestByName prefix count => prefix `prefix_of` name ∧ Z.of_nat (size (newer R prefix name)) < count
  | RetainUpdatedSince prefix t => prefix `prefix_of` name ∧ ∃ u, updated_at_millis m = Some u ∧ t ≤ u
  end.

Definition absent (R : gmap bytes RootManifest) (retention : NamedRootRetention) (name : bytes) : Prop :=
  match retention with RetainExact names => name ∈ names ∧ R !! name = None | _ => False end.

Record selects (R : gmap bytes RootManifest) (retention : NamedRootRetention) (sel : NamedRootSelection) : Prop := {
  se_roots name tree : {| nr_name := name; nr_tree := tree |} ∈ sel_roots sel ↔ ∃ m, retained R retention name m ∧ tree = into_tree m;
  se_missing name : name ∈ sel_missing_names sel ↔ absent R retention name;
}.

Lemma named_elem (l : list NamedRootManifest) name tree :
  {| nr_name := name; nr_tree := tree |} ∈ into_named_root <$> l ↔ ∃ m, {| nm_name := name; nm_manifest := m |} ∈ l ∧ tree = into_tree m.
Proof.
  rewrite list_elem_of_fmap. split.
  - intros ([n m] & Heq & Hin). injection Heq as -> ->. by exists m.
  - intros (m & Hin & ->). by exists {| nm_name := name; nm_manifest := m |}.
Qed.

Lemma filter_elem {A} (p : A → bool) l x : x ∈ List.filter p l ↔ x ∈ l ∧ p x = true.
Proof. by rewrite !list_elem_of_In, filter_In. Qed.

Lemma name_under_ok prefix name : name_under prefix name = true ↔ prefix `prefix_of` name.
Proof. apply bool_decide_eq_true. Qed.

(** *** The newest names *)
Lemma newest_sorted (l : list NamedRootManifest) c r :
  StronglySorted blt (nm_name <$> l) → r ∈ l → (0 < c)%nat →
  r ∈ drop (length l - c) l ↔ (length (List.filter (λ r', bltb (nm_name r) (nm_name r')) l) < c)%nat.
Proof.
  intros Hs Hr Hc. apply list_elem_of_split in Hr as (l1 & l2 & ->). rewrite fmap_app in Hs.
  assert (List.filter (λ r', bltb (nm_name r) (nm_name r')) (l1 ++ r :: l2) = l2) as ->.
  { apply StronglySorted_app in Hs as (Hlt & _ & Hs2). cbn [fmap list_fmap] in *. apply StronglySorted_inv in Hs2 as [_ Hall].
    rewrite List.filter_app. cbn [List.filter].
    assert (∀ l', (∀ r', r' ∈ l' → ¬ blt (nm_name r) (nm_name r')) → List.filter (λ r', bltb (nm_name r) (nm_name r')) l' = []) as Hno.
    { induction l' as [|r' l' IH]; intros Hl; [done|]. cbn [List.filter]. replace (bltb _ _) with false.
      - apply IH. intros r2 H2. apply Hl. by right.
      - symmetry. apply not_true_iff_false. rewrite bltb_lt. apply Hl. by left. }
    assert (∀ l', (∀ r', r' ∈ l' → blt (nm_name r) (nm_name r')) → List.filter (λ r', bltb (nm_name r) (nm_name r')) l' = l') as Hyes.
    { induction l' as [|r' l' IH]; intros Hl; [done|]. cbn [List.filter]. replace (bltb _ _) with true; [|symmetry; apply bltb_lt, Hl; by left].
      f_equal. apply IH. intros r2 H2. apply Hl. by right. }
    rewrite (Hno l1), (Hyes l2).
    - replace (bltb (nm_name r) (nm_name r)) with false; [done|]. symmetry. apply not_true_iff_false. rewrite bltb_lt. apply blt_irrefl.
    - intros r' Hr'. apply (proj1 (Forall_forall _ _) Hall). apply list_elem_of_fmap. by exists r'.
    - intros r' Hr' Hb. apply (blt_irrefl (nm_name r)). eapply blt_trans; [exact Hb|].
      apply Hlt; [apply list_elem_of_fmap; by exists r'|by left]. }
  rewrite length_app. cbn [length]. split.
  - intros Hin. apply Nat.nle_gt. intros Hle. rewrite drop_app_ge in Hin by lia.
    destruct (length l1 + S (length l2) - c - length l1)%nat as [|n] eqn:Hn; [lia|]. cbn [drop] in Hin.
    apply StronglySorted_app in Hs as (_ & _ & Hs2). cbn [fmap list_fmap] in Hs2. apply StronglySorted_inv in Hs2 as [_ Hall].
    apply (blt_irrefl (nm_name r)), (proj1 (Forall_forall _ _) Hall), list_elem_of_fmap. exists r. split; [done|].
    rewrite <- (take_drop n l2). apply elem_of_app. by right.
  - intros Hlt. rewrite drop_app_le by lia. apply elem_of_app. right. by left.
Qed.

Lemma newer_size R prefix l name :
  lists_roots R l →
  length (List.filter (λ r, bltb name (nm_name r)) (List.filter (λ r, name_under prefix (nm_name r)) l)) = size (newer R prefix name).
Proof.
  intros [Helem Hs]. set (l' := List.filter _ _).
  assert (NoDup (nm_name <$> l')) as Hnd.
  { assert (NoDup (nm_name <$> l)) as Hl.
    { clear -Hs. induction Hs as [|k ks _ IH Hk]; [constructor|]. constructor; [|done]. intros Hin.
      rewrite Forall_forall in Hk. by apply (blt_irrefl k), Hk. }
    unfold l'. clear -Hl. revert Hl. induction l as [|r l IH]; [done|]. cbn [fmap list_fmap]. intros [Hr Hnd]%NoDup_cons.
    cbn [List.filter]. destruct (name_under prefix (nm_name r)); [|by apply IH]. cbn [List.filter]. destruct (bltb name (nm_name r)); [|by apply IH].
    cbn [fmap list_fmap]. constructor; [|by apply IH]. intros (r' & Hr' & Hin)%list_elem_of_fmap. apply filter_elem in Hin as [[Hin _]%filter_elem _].
    apply Hr. apply list_elem_of_fmap. by exists r'. }
  assert (newer R prefix name = list_to_set (nm_name <$> l')) as ->.
  { apply set_eq. intros n. unfold newer. rewrite elem_of_filter, elem_of_dom, elem_of_list_to_set, list_elem_of_fmap. split.
    - intros [[Hp Hlt] [m Hm]]. exists {| nm_name := n; nm_manifest := m |}. split; [done|]. unfold l'. rewrite !filter_elem. cbn [nm_name].
      rewrite name_under_ok, bltb_lt. split; [|done]. split; [by apply Helem|done].
    - intros ([n' m] & -> & Hin). unfold l' in Hin. rewrite !filter_elem in Hin. cbn [nm_name] in *. rewrite name_under_ok, bltb_lt in Hin.
      destruct Hin as [[Hin Hp] Hlt]. split; [done|]. exists m. by apply Helem. }
  by rewrite size_list_to_set, length_fmap.
Qed.

(** ** The selection *)
Section selection.
Context {B : Type} `{StoreOk B} `{!ManifestStore B} `{!TransactionalStore B} `{!BackendOk B}.
Context `{!ManifestStoreScan B} `{!NodeStoreScan B} `{!ScanOk B}.
Implicit Types (b : B).

Lemma named_root_ok b name : load_named_root name b = (Ok (into_tree <$> roots b !! name), b).
Proof. unfold load_named_root. by rewrite (action_bind_Ok _ _ _ _ _ (get_root_ok b name)). Qed.

(** What a swap leaves under its name. *)
Definition swapped (old : option RootManifest) (new : option Tree) (t : Z) : option RootManifest :=
  (λ tree, from_tree_with_timestamps_millis tree (Some (created_or old t)) (Some t)) <$> new.

Lemma set_root_lookup name new R other : set_root name new R !! other = if decide (other = name) then new else R !! other.
Proof.
  unfold set_root. case_decide as Hn; [subst|]; destruct new as [m|]; by rewrite ?lookup_insert_eq, ?lookup_delete_eq, ?lookup_insert_ne, ?lookup_delete_ne.
Qed.

(** C23. Compare-and-swap of a named tree: it is applied exactly when the name holds the
    expected tree, whatever timestamps its manifest has; then the name holds the new
    tree with the old creation time, or is gone, and no other name changes.
    Otherwise the current tree is reported and nothing changes. *)
Theorem named_swap_exact b name expected new t :
  ∃ u b', compare_and_swap_named_root_at_millis name expected new t b = (Ok u, b') ∧ contents b' = contents b ∧
    if decide (into_tree <$> roots b !! name = expected)
    then u = NR_Applied ∧ load_named_root name b' = (Ok new, b') ∧
         ∀ other, roots b' !! other = if decide (other = name) then swapped (roots b !! name) new t else roots b !! other
    else u = NR_Conflict (into_tree <$> roots b !! name) ∧ roots b' = roots b.
Proof.
  unfold compare_and_swap_named_root_at_millis. rewrite (action_bind_Ok _ _ _ _ _ (get_root_ok b name)). set (old := roots b !! name).
  assert (expected_manifest expected old = if decide (into_tree <$> old = expected) then inl old else inr (into_tree <$> old)) as ->.
  { unfold expected_manifest. destruct expected as [tree|], old as [m|]; cbn; repeat case_decide; try case_bool_decide; congruence. }
  case_decide as Hexp; [|by eexists _, b].
  destruct (swap_root_ok b name old (swapped old new t)) as (u & b' & Hswap & Hcont & Hu). rewrite decide_True in Hu by done.
  destruct Hu as [-> Hroots]. rewrite (action_bind_Ok _ _ _ _ _ Hswap). eexists _, b'. split; [done|]. split; [done|]. split; [done|].
  assert (∀ other, roots b' !! other = if decide (other = name) then swapped old new t else roots b !! other) as Hall
    by (intros other; by rewrite Hroots, set_root_lookup).
  split; [|exact Hall]. rewrite named_root_ok, Hall, decide_True by done. by destruct new as [[]|].
Qed.

Lemma load_named_roots_ok b names seen rs ms :
  ∃ rs' ms', load_named_roots_loop names seen rs ms b = (Ok {| sel_roots := rs ++ rs'; sel_missing_names := ms ++ ms' |}, b) ∧
    (∀ name tree, {| nr_name := name; nr_tree := tree |} ∈ rs' ↔
       ∃ m, (name ∈ names ∧ name ∉ seen) ∧ roots b !! name = Some m ∧ tree = into_tree m) ∧
    (∀ name, name ∈ ms' ↔ (name ∈ names ∧ name ∉ seen) ∧ roots b !! name = None).
Proof.
  revert seen rs ms; induction names as [|n names IH]; intros seen rs ms.
  { exists [], []. rewrite !app_nil_r. split; [done|]. split; [intros name tree|intros name]; set_solver. }
  cbn [load_named_roots_loop]. case_bool_decide as Hseen.
  { destruct (IH seen rs ms) as (rs' & ms' & -> & Hrs & Hms). exists rs', ms'. split; [done|].
    assert (∀ name, name ∈ n :: names ∧ name ∉ seen ↔ name ∈ names ∧ name ∉ seen) as Heq by set_solver.
    split; intros; rewrite ?Hrs, ?Hms; [setoid_rewrite Heq|rewrite Heq]; done. }
  rewrite (action_bind_Ok _ _ _ _ _ (named_root_ok b n)).
  assert (∀ name, name ∈ n :: names ∧ name ∉ seen ↔ name = n ∨ name ∈ names ∧ name ∉ {[n]} ∪ seen) as Heq.
  { intros name. destruct (decide (name = n)) as [->|]; set_solver. }
  destruct (roots b !! n) as [m|] eqn:Hm; cbn [fmap option_fmap option_map].
  - destruct (IH ({[n]} ∪ seen) (rs ++ [{| nr_name := n; nr_tree := into_tree m |}]) ms) as (rs' & ms' & -> & Hrs & Hms).
    exists ({| nr_name := n; nr_tree := into_tree m |} :: rs'), ms'. rewrite <- app_assoc. split; [done|]. split.
    + intros name tree. rewrite elem_of_cons, Hrs. setoid_rewrite Heq. split.
      * intros [[= -> ->]|(m' & Hin & Hm' & ->)]; [exists m; by split; [left|]|exists m'; by split; [right|]].
      * intros (m' & [->|Hin] & Hm' & ->); [left; congruence|right; by exists m'].
    + intros name. rewrite Hms, Heq. split; [intros [? ?]; by split; [right|]|]. intros [[->|?] ?]; [congruence|done].
  - destruct (IH ({[n]} ∪ seen) rs (ms ++ [n])) as (rs' & ms' & -> & Hrs & Hms).
    exists rs', (n :: ms'). rewrite <- app_assoc. split; [done|]. split.
    + intros name tree. rewrite Hrs. setoid_rewrite Heq. split.
      * intros (m' & Hin & Hm' & ->). exists m'. by split; [right|].
      * intros (m' & [->|Hin] & Hm' & ->); [congruence|by exists m'].
    + intros name. rewrite elem_of_cons, Hms, Heq. split; [intros [->|[? ?]]; [by split; [left|]|by split; [right|]]|].
      intros [[->|?] ?]; [by left|by right].
Qed.

Lemma selected_ok R retention (l : list NamedRootManifest) :
  (∀ name m, {| nm_name := name; nm_manifest := m |} ∈ l ↔ retained R retention name m) →
  (∀ name, ¬ absent R retention name) → selects R retention (selected (into_named_root <$> l)).
Proof.
  intros Hl Hno. constructor; cbn [selected sel_roots sel_missing_names].
  - intros name tree. rewrite named_elem. by setoid_rewrite Hl.
  - intros name. split; [by intros []%not_elem_of_nil|]. intros Ha. by destruct (Hno name).
Qed.

Lemma newest_ok R prefix count l :
  lists_roots R l → 0 < count →
  let wanted := List.filter (λ r, name_under prefix (nm_name r)) l in
  ∀ name m, {| nm_name := name; nm_manifest := m |} ∈
      (if count <? len wanted then drop (length wanted - Z.to_nat count) wanted else wanted) ↔
    retained R (RetainNewestByName prefix count) name m.
Proof.
  intros Hl Hc wanted name m. pose proof Hl as [Helem Hs]. unfold retained.
  assert (StronglySorted blt (nm_name <$> wanted)) as Hs'.
  { unfold wanted. clear -Hs. induction l as [|r l IH]; [constructor|]. cbn [fmap list_fmap] in Hs. apply StronglySorted_inv in Hs as [Hs Hall].
    cbn [List.filter]. destruct (name_under prefix (nm_name r)); [|by apply IH]. cbn [fmap list_fmap]. constructor; [by apply IH|].
    rewrite Forall_forall in *. intros n (r' & -> & [Hr' _]%filter_elem)%list_elem_of_fmap. apply Hall, list_elem_of_fmap. by exists r'. }
  assert ({| nm_name := name; nm_manifest := m |} ∈ wanted ↔ R !! name = Some m ∧ prefix `prefix_of` name) as Hw
    by (unfold wanted; rewrite filter_elem, Helem; cbn [nm_name]; by rewrite name_under_ok).
  pose proof (newer_size R prefix l name Hl) as Hsize. fold wanted in Hsize. destruct (Z.ltb_spec count (len wanted)) as [Hlt|Hge].
  - split.
    + intros Hin. assert ({| nm_name := name; nm_manifest := m |} ∈ wanted) as Hin'
        by (rewrite <- (take_drop (length wanted - Z.to_nat count) wanted); apply elem_of_app; by right).
      apply newest_sorted in Hin; [|done|done|lia]. cbn [nm_name] in Hin. rewrite Hsize in Hin. apply Hw in Hin' as [Hm Hp].
      split; [done|]. split; [done|lia].
    + intros (Hm & Hp & Hn). apply newest_sorted; [done|by apply Hw|lia|]. cbn [nm_name]. rewrite Hsize. lia.
  - rewrite Hw. split; [|tauto]. intros [Hm Hp]. split; [done|]. split; [done|]. rewrite <- Hsize.
    assert (length (List.filter (λ r, bltb name (nm_name r)) wanted) < length wanted)%nat; [|unfold len in Hge; lia].
    assert ({| nm_name := name; nm_manifest := m |} ∈ wanted) as (w1 & w2 & ->)%list_elem_of_split by (by apply Hw).
    rewrite List.filter_app, !length_app. cbn [List.filter nm_name length].
    replace (bltb name name) with false by (symmetry; apply not_true_iff_false; rewrite bltb_lt; apply blt_irrefl).
    pose proof (List.filter_length_le (λ r, bltb name (nm_name r)) w1). pose proof (List.filter_length_le (λ r, bltb name (nm_name r)) w2). lia.
Qed.

Definition policy_wf (retention : NamedRootRetention) : Prop :=
  match retention with RetainNewestByName _ count => 0 ≤ count | _ => True end.

Lemma filter_named p (l : list NamedRootManifest) :
  List.filter (λ r, p (nr_name r)) (into_named_root <$> l) = into_named_root <$> List.filter (λ r, p (nm_name r)) l.
Proof. apply (filter_fmap_list (λ r, p (nr_name r)) into_named_root). Qed.

Lemma retained_ok b retention :
  policy_wf retention → ∃ sel, load_retained_named_roots retention b = (Ok sel, b) ∧ selects (roots b) retention sel.
Proof.
  intros Hwf. destruct (list_roots_ok b) as (l & Hl & Hlr). pose proof Hlr as [Helem _].
  assert (list_named_roots b = (Ok (into_named_root <$> l), b)) as Hn.
  { unfold list_named_roots, list_named_root_manifests. by rewrite (action_bind_Ok _ _ _ _ _ Hl). }
  destruct retention as [|names|prefix|prefix count|prefix t]; cbn [load_retained_named_roots].
  - rewrite (action_bind_Ok _ _ _ _ _ Hn). eexists. split; [done|]. apply selected_ok; [|by intros ? []].
    intros name m. rewrite Helem. unfold retained. tauto.
  - destruct (load_named_roots_ok b names ∅ [] []) as (rs & ms & Hr & Hrs & Hms). unfold load_named_roots. eexists. split; [exact Hr|].
    constructor; cbn [sel_roots sel_missing_names app].
    + intros name tree. rewrite Hrs. unfold retained. split; intros (m & Hm); exists m; set_solver.
    + intros name. rewrite Hms. cbn. set_solver.
  - rewrite (action_bind_Ok _ _ _ _ _ Hn). eexists. split; [done|]. unfold under. rewrite filter_named. apply selected_ok; [|by intros ? []].
    intros name m. rewrite filter_elem, Helem. cbn [nm_name]. by rewrite name_under_ok.
  - destruct (Z.eqb_spec count 0) as [->|Hc].
    { exists (selected (into_named_root <$> [])). split; [done|]. apply selected_ok; [|by intros ? []]. intros name m. unfold retained.
      split; [by intros []%not_elem_of_nil|lia]. }
    rewrite (action_bind_Ok _ _ _ _ _ Hn). eexists. split; [done|]. unfold under. rewrite filter_named.
    unfold len. rewrite length_fmap, <- fmap_drop.
    assert (0 < count) as Hpos by (cbn in Hwf; lia). pose proof (newest_ok (roots b) prefix count l Hlr Hpos) as Hnew. cbv zeta in Hnew. unfold len in Hnew.
    destruct (count <? _); apply selected_ok; done || by intros ? [].
  - unfold list_named_root_manifests. rewrite (action_bind_Ok _ _ _ _ _ Hl). eexists. split; [done|]. apply selected_ok; [|by intros ? []].
    intros name m. rewrite !filter_elem, Helem. cbn [nm_name]. rewrite name_under_ok. unfold retained, updated_since. cbn [nm_manifest].
    destruct (updated_at_millis m) as [u|]; [rewrite Z.leb_le|]; split.
    + intros [[? ?] ?]. split; [done|]. split; [done|]. by exists u.
    + intros (? & ? & u' & [= ->] & ?). done.
    + by intros [_ ?].
    + by intros (_ & _ & u' & ? & _).
Qed.
End selection.

(** ** What reads leave alone *)
Section frame.
Context `{Hashes} {St : Type} `{Store St} (P : St → Prop).

Definition frames {A} (m : eng St A) : Prop := ∀ e, P (en_store e) → P (en_store (m e).2).

Lemma frames_bind {A C} (m : eng St A) (k : A → eng St C) : frames m → (∀ a, frames (k a)) → frames (m ≫= k).
Proof.
  intros Hm Hk e He. specialize (Hm e He). unfold mbind, action_bind. destruct (m e) as [[a|x|msg] e']; [by apply Hk|done..].
Qed.
Lemma frames_ret {A} (a : A) : frames (mret a).
Proof. by intros e. Qed.
Lemma frames_run {A} (o : outcome Error A) : frames (run o).
Proof. by intros e. Qed.
Lemma frames_from_store {A} (g : St → outcome Error A) : frames (from_store g).
Proof. by intros e. Qed.
Lemma frames_meter g : frames (meter g).
Proof. by intros e. Qed.
Lemma frames_peek cid : frames (cached_peek cid).
Proof. intros e. unfold cached_peek. by destruct (peek _ _) as [[]| |]. Qed.
Lemma frames_owned cid : frames (cached_owned cid).
Proof. intros e. unfold cached_owned. by destruct (cache_get _ _) as [[]| |]. Qed.
Lemma frames_unbounded : frames cache_unbounded.
Proof. by intros e. Qed.
Lemma frames_admit cid node weight : frames (admit_owned cid node weight).
Proof. intros e. unfold admit_owned. by destruct (cache_insert _ _ _ _). Qed.
Lemma frames_caught {A} (m : eng St A) : frames m → frames (Range.Range.caught m).
Proof. intros Hm e He. specialize (Hm e He). unfold Range.Range.caught. by destruct (m e) as [[]]. Qed.

Create HintDb frame.
#[local] Hint Resolve frames_bind frames_ret frames_run frames_from_store frames_meter frames_peek frames_owned
  frames_unbounded frames_admit frames_caught : frame.
#[local] Ltac frame :=
  repeat first
    [ apply frames_bind; [|intros] | solve [eauto with frame nocore] | case_match ].

Lemma frames_cached_node unbounded cid : frames (cached_node unbounded cid).
Proof. unfold cached_node. frame. Qed.
#[local] Hint Resolve frames_cached_node : frame.

Lemma frames_arc cid f : frames (load_arc_for_format cid f).
Proof. unfold load_arc_for_format. frame. Qed.
Lemma frames_place decoded positions nodes z : frames (place_decoded decoded positions nodes z).
Proof. revert positions nodes z; induction decoded as [|[cid n] decoded IH]; intros [|slots positions] nodes z; cbn [place_decoded]; frame. Qed.
#[local] Hint Resolve frames_arc frames_place : frame.

Lemma frames_load_batch missing nodes f : frames (load_batch missing nodes f).
Proof. unfold load_batch. frame. Qed.
Lemma frames_lookup_all cids : frames (lookup_all cached_peek cids).
Proof. induction cids; cbn [lookup_all]; frame. Qed.
Lemma frames_plan unbounded position cids nodes missing hits : frames (plan_from (cached_node unbounded) position cids nodes missing hits).
Proof. revert position nodes missing hits; induction cids; intros; cbn [plan_from]; frame. Qed.
#[local] Hint Resolve frames_load_batch frames_lookup_all frames_plan : frame.

Lemma frames_many cids f : frames (load_many_ordered_for_format cids f).
Proof. unfold load_many_ordered_for_format, plan_cached_nodes. frame. Qed.
#[local] Hint Resolve frames_many : frame.

Lemma frames_partitions batches f : frames (TreeDiff.TreeDiff.load_partitions batches f).
Proof. induction batches; cbn [TreeDiff.TreeDiff.load_partitions]; frame. Qed.
Lemma frames_all_cached cids : frames (TreeDiff.TreeDiff.all_cached cids).
Proof. by intros e. Qed.
#[local] Hint Resolve frames_partitions frames_all_cached : frame.

Lemma frames_frontier cids f : frames (TreeDiff.TreeDiff.load_child_frontier_ordered_for_format cids f).
Proof.
  unfold TreeDiff.TreeDiff.load_child_frontier_ordered_for_format. frame. intros e He. cbv zeta. destruct (_ || _); [by apply frames_many|].
  match goal with |- P (en_store (?m e).2) => cut (frames m); [intros Hm; by apply Hm|] end. frame.
Qed.
#[local] Hint Resolve frames_frontier : frame.

Lemma frames_mark_loop limits fuel m : frames (mark_loop limits fuel m).
Proof. revert m; induction fuel; intros m; cbn [mark_loop]; frame. Qed.
#[local] Hint Resolve frames_mark_loop : frame.

Lemma frames_plan_gc fuel roots candidates : frames (plan_gc fuel roots candidates).
Proof. unfold plan_gc, mark_reachable, mark_reachable_with_limits. frame. Qed.

Lemma frames_sweep fuel roots candidates :
  (∀ s ops s', store_batch s ops = Ok s' → P s → P s') → frames (sweep_gc fuel roots candidates).
Proof.
  intros Hbatch. unfold sweep_gc. apply frames_bind; [apply frames_plan_gc|]. intros plan. apply frames_bind; [|intros; apply frames_ret].
  destruct (bool_decide _); [apply frames_ret|]. apply frames_bind.
  - intros e He. unfold store_batch_ops. destruct (store_batch _ _) eqn:Hb; [|done..]. by eapply Hbatch.
  - intros _ e He. unfold clear_cache. by destruct (cache_clear _).
Qed.
End frame.

(** ** Sweeps *)
Section sweep.
Context `{HashesOk} {B : Type} `{StoreOk B} `{!ManifestStore B} `{!TransactionalStore B} `{!BackendOk B}.
Context `{!ManifestStoreScan B} `{!NodeStoreScan B} `{!ScanOk B}.
Implicit Types (e : ProllyEngine B) (st : gmap bytes bytes) (R : gmap bytes RootManifest).

Lemma reachable_one st ts cid : reachable st ts cid ↔ ∃ t, t ∈ ts ∧ reachable st [t] cid.
Proof.
  split.
  - induction 1 as [t root Ht Hroot|c c' _ (t & Ht & IH) Hch].
    + exists t. split; [done|]. eapply reach_root; [by left|done].
    + exists t. split; [done|]. by eapply reach_child.
  - intros (t & Ht & Hr). induction Hr as [t' root ->%list_elem_of_singleton Hroot|c c' _ IH Hch]; [by eapply reach_root|by eapply reach_child].
Qed.

(** A tree that the policy retains, and a node below one. *)
Definition retained_tree R retention (tree : Tree) : Prop := ∃ name m, retained R retention name m ∧ tree = into_tree m.
Definition retained_node st R retention (cid : Cid) : Prop := ∃ tree, retained_tree R retention tree ∧ reachable st [tree] cid.

Lemma selected_trees R retention sel tree : selects R retention sel → tree ∈ trees sel ↔ retained_tree R retention tree.
Proof.
  intros [Hroots _]. unfold trees, retained_tree. rewrite list_elem_of_fmap. split.
  - intros ([name t] & -> & Hin). apply Hroots in Hin as (m & Hm & ->). by exists name, m.
  - intros (name & m & Hm & ->). exists {| nr_name := name; nr_tree := into_tree m |}. split; [done|]. apply Hroots. by exists m.
Qed.

Lemma candidates_bounded st (l : list Cid) Bd : fits st Bd → NoDup l → (∀ k, k ∈ l ↔ is_Some (st !! k)) → len l ≤ usize_max.
Proof.
  intros (HB & Hsize & _) Hnd Hl. assert (length l = size st) as Hlen.
  { rewrite <- size_dom. replace (dom st) with (list_to_set l : gset Cid); [by rewrite size_list_to_set|].
    apply set_eq. intros k. by rewrite elem_of_list_to_set, elem_of_dom. }
  unfold len. rewrite Hlen. nia.
Qed.

Lemma selection_run e retention :
  policy_wf retention →
  ∃ sel, on_store (load_retained_named_roots retention) e = (Ok sel, e) ∧ selects (roots (en_store e)) retention sel.
Proof.
  intros Hwf. destruct (retained_ok (en_store e) retention Hwf) as (sel & Hload & Hsel). exists sel. split; [|done].
  unfold on_store. rewrite Hload. by destruct e.
Qed.

(** C22. Collection under a retention policy: when a name that the policy requires is
    absent the sweep is refused and nothing changes; otherwise it keeps every name, it
    keeps exactly the nodes that a retained tree reaches, and every retained tree is
    still held with all its entries. *)
Theorem retention_sweep_exact g Bd fuel retention e :
  let st := contents (en_store e) in let R := roots (en_store e) in
  engine_manages g st e → fits st Bd → (size st < fuel)%nat → map_Forall (λ k _, length k = 32%nat) st →
  policy_wf retention → (∀ tree, retained_tree R retention tree → ∃ h es, tree_holds st tree h es) →
  (∃ names, names ≠ [] ∧ (∀ name, name ∈ names ↔ absent R retention name) ∧
     sweep_store_gc_for_retention fuel retention e = (Err (MissingNamedRoots names), e)) ∨
  (∃ sweep e', (∀ name, ¬ absent R retention name) ∧ sweep_store_gc_for_retention fuel retention e = (Ok sweep, e') ∧
     let st' := contents (en_store e') in
     engine_manages g st' e' ∧ roots (en_store e') = R ∧
     (∀ cid b, st' !! cid = Some b ↔ st !! cid = Some b ∧ retained_node st R retention cid) ∧
     (∀ tree h es, retained_tree R retention tree → tree_holds st tree h es → tree_holds st' tree h es)).
Proof.
  intros st R He Hfit Hfuel Hkeys Hwf Hheld. unfold sweep_store_gc_for_retention.
  destruct (selection_run e retention Hwf) as (sel & Hload & Hsel). rewrite (action_bind_Ok _ _ _ _ _ Hload).
  unfold ensure_retention_selection_complete, is_complete. case_bool_decide as Hmiss.
  2:{ left. exists (sel_missing_names sel). split; [done|]. split; [apply Hsel|done]. }
  right. rewrite (action_bind_Ok (run _) _ e tt e eq_refl). unfold sweep_store_gc.
  destruct (list_cids_ok (en_store e) Hkeys) as (l & Hl & Hnd & Hin).
  rewrite (action_bind_Ok (from_store _) _ e l e) by (unfold from_store; by rewrite Hl).
  assert (held st (trees sel)) as Hh by (intros t Ht; by apply Hheld, (selected_trees R retention sel t Hsel)).
  destruct (sweep_exact st (trees sel) Bd g fuel l e Hfit Hh He Hfuel (candidates_bounded st l Bd Hfit Hnd Hin))
    as (sweep & e' & st' & Hrun & He' & [[Hlive _] _] & _ & Hgone & Hkeep & Htrees).
  assert (contents (en_store e') = st') as Hst' by (by destruct He' as [[Hs _ _] _]).
  assert (∀ cid, reachable st (trees sel) cid ↔ retained_node st R retention cid) as Hreach.
  { intros cid. rewrite reachable_one. unfold retained_node. by setoid_rewrite (λ t, selected_trees R retention sel t Hsel). }
  assert (frames (λ s, roots s = R) (sweep_gc fuel (trees sel) l)) as Hframe
    by (apply frames_sweep; intros s ops s' Hb <-; by apply (batch_roots s ops)).
  exists sweep, e'. split; [intros name Hn; apply Hsel in Hn; rewrite Hmiss in Hn; by apply not_elem_of_nil in Hn|].
  split; [exact Hrun|]. cbv zeta. rewrite Hst'. split; [done|]. split; [specialize (Hframe e eq_refl); by rewrite Hrun in Hframe|]. split.
  - intros cid b. rewrite <- Hreach, <- Hlive. destruct (decide (cid ∈ live_cids (gp_reachability (gs_plan sweep)))) as [Hr|Hr].
    + rewrite Hkeep by (left; by apply Hlive). tauto.
    + split; [|tauto]. intros Hb. destruct (decide (cid ∈ l)) as [Hc|Hc]; [rewrite Hgone in Hb; [done|done|by rewrite <- Hlive]|].
      rewrite Hkeep in Hb by (by right). destruct Hc. apply Hin. by exists b.
  - intros tree h es Ht. apply Htrees. by apply (selected_trees R retention sel).
Qed.
End sweep.

(** ** Sample *)
#[local] Existing Instance sample_hashes.
#[local] Existing Instance sample_hashes_ok.

(** Two versions are stored and named; the policy keeps the newer name. *)
Definition old_name : bytes := [Byte.x76; Byte.x31].
Definition new_name : bytes := [Byte.x76; Byte.x32].
Definition named_roots : gmap bytes RootManifest := {[ old_name := from_tree sample_old; new_name := from_tree sample_new ]}.
Definition named_backend : MemBackend := {| be_nodes := {| ms_data := sample_versions |}; be_roots := named_roots |}.
Definition named_engine : ProllyEngine MemBackend := ProllyEngine_new named_backend (sample_config 2 2).
Definition keep_newest : NamedRootRetention := RetainNewestByName [Byte.x76] 1.

Lemma named_manages : engine_manages (Config.format (sample_config 2 2)) sample_versions named_engine.
Proof. split; [|reflexivity]. exact (fresh_engine_ok named_backend (sample_config 2 2) ExecutionConfig_default). Qed.

Lemma keys_check (m : gmap bytes bytes) :
  forallb (λ x : bytes * bytes, (length x.1 =? 32)%nat) (map_to_list m) = true → map_Forall (λ k _, length k = 32%nat) m.
Proof.
  intros Hall k b Hk%elem_of_map_to_list%list_elem_of_In. apply Nat.eqb_eq. exact (proj1 (forallb_forall _ _) Hall (k, b) Hk).
Qed.

Lemma versions_keys : map_Forall (λ k _, length k = 32%nat) sample_versions.
Proof. apply keys_check. vm_compute. reflexivity. Qed.

Lemma newest_is_new tree : retained_tree named_roots keep_newest tree → tree = sample_new.
Proof.
  intros (name & m & (Hm & _ & Hn) & ->). unfold named_roots in Hm. apply lookup_insert_Some in Hm as [[<- <-]|[_ Hm]].
  - replace (size (newer named_roots [Byte.x76] old_name)) with 1%nat in Hn by (vm_compute; reflexivity). lia.
  - apply lookup_singleton_Some in Hm as [<- <-]. reflexivity.
Qed.

Lemma retention_sweep_exact_witness :
  ∃ sweep e', sweep_store_gc_for_retention 100 keep_newest named_engine = (Ok sweep, e') ∧
    roots (en_store e') = named_roots ∧
    (∀ cid b, contents (en_store e') !! cid = Some b ↔
       sample_versions !! cid = Some b ∧ retained_node sample_versions named_roots keep_newest cid).
Proof.
  destruct (retention_sweep_exact (Config.format (sample_config 2 2)) 1000 100 keep_newest named_engine
    named_manages versions_fit versions_size versions_keys) as [(names & Hne & Habs & _)|(sweep & e' & _ & Hrun & _ & Hroots & Hnodes & _)].
  - cbn. lia.
  - intros tree Ht. rewrite (newest_is_new tree Ht). destruct new_version_holds as (h & Hh). by exists h, sample_es'.
  - destruct names as [|name names]; [done|]. exfalso. apply (proj1 (Habs name)). by left.
  - exists sweep, e'. split; [exact Hrun|]. split; [exact Hroots|exact Hnodes].
Defined.

End RetentionSpec.
