(* ===== verification/LineageSpec.v ===== *)
(** * The lineage of branches is true of the trees

    Against any assignment of maps to roots: if every recorded step is a step between the
    maps of its roots, so is every composition that the cache answers with, whatever was
    evicted, and the cache stays within its limits. *)

From Stdlib Require Import ZArith Lia Strings.Byte.
From stdpp Require Import base tactics numbers list strings option gmap sorting.
From S2P Require Import Prelude Cursor Types Format Boundary Node Sizer Chunks Store Emitter Builder Entries TreeSpec Engine EngineSpec Write Updates CanonicalWrite TreeDiffSpec Lineage.
Import Format Store Builder Entries TreeSpec Engine EngineSpec Write Updates Lineage.
Import CanonicalWrite(mutate, put_all_in).
Import TreeDiffSpec(subtree_same).

Local Open Scope Z_scope.

Module LineageSpec.

(** ** Mutations *)
Abbreviation parts ms := (mutation_parts <$> ms : list NormalizedMutation).

Lemma parts_of l : parts (of_parts <$> l) = l.
Proof. rewrite <- list_fmap_compose. rewrite <- (list_fmap_id l) at 2. apply list_fmap_ext. by intros _ [k [v|]] _. Qed.

Lemma sort_last_parts ms : parts (sort_last ms) = canonical_entries (parts ms).
Proof. apply parts_of. Qed.
Lemma sort_last_ascending ms : ascending (parts (sort_last ms)).
Proof. rewrite sort_last_parts. apply canonical_ascending. Qed.
Lemma mutate_sort_last m ms : mutate m (sort_last ms) = mutate m ms.
Proof. unfold mutate. by rewrite sort_last_parts, !apply_mutations, canonical_map. Qed.
Lemma mutate_app m ms ms' : mutate m (ms ++ ms') = mutate (mutate m ms) ms'.
Proof. unfold mutate. by rewrite fmap_app, foldl_app. Qed.

Lemma mutation_bytes_nonneg m : 0 ≤ mutation_bytes m.
Proof. destruct m; cbn [mutation_bytes]; unfold saturating_add, len, usize_max, u64_max; lia. Qed.
Lemma mutations_bytes_nonneg ms : 0 ≤ mutations_bytes ms.
Proof. induction ms as [|m ms IH]; [done|]. cbn [mutations_bytes foldr]. pose proof (mutation_bytes_nonneg m). unfold mutations_bytes in IH. lia. Qed.

Lemma strictly_ordered_ascending ms : strictly_ordered ms = true → ascending (parts ms).
Proof.
  intros Hs. apply Sorted_StronglySorted; [intros x y z; apply blt_trans|]. induction ms as [|m1 ms IH]; [constructor|].
  cbn [strictly_ordered fmap list_fmap] in *. destruct ms as [|m2 ms]; [repeat constructor|]. apply andb_true_iff in Hs as [Hlt%bltb_lt Hs].
  constructor; [by apply IH|]. constructor. by destruct m1, m2.
Qed.

(** ** The invariant *)
Definition records_bytes (l : list (Cid * CachedBranchLineage)) : Z := foldr (λ r sum, cl_retained_bytes r.2 + sum) 0 l.
Definition accelerations_bytes (l : list BranchLineageAcceleration) : Z := foldr (λ a sum, ba_retained_bytes a + sum) 0 l.

Lemma records_bytes_nonneg l : Forall (λ r, 0 ≤ cl_retained_bytes r.2) l → 0 ≤ records_bytes l.
Proof. induction 1 as [|r l Hr _ IH]; [done|]. unfold records_bytes in *. cbn [foldr]. lia. Qed.
Lemma accelerations_bytes_nonneg l : Forall (λ a, 0 ≤ ba_retained_bytes a) l → 0 ≤ accelerations_bytes l.
Proof. induction 1 as [|a l Ha _ IH]; [done|]. unfold accelerations_bytes in *. cbn [foldr]. lia. Qed.

Section spec.
Context (content : option Cid → gmap bytes bytes → Prop).

(** The mutations lead from the map of one root to the map of the other. *)
Definition step_true (base branch : option Cid) (ms : list Mutation) : Prop :=
  ascending (parts ms) ∧ ∃ m, content base m ∧ content branch (mutate m ms).

Record lineage_ok (c : BranchLineageCache) : Prop := {
  lo_records : Forall (λ r, step_true (cl_parent r.2) (Some r.1) (bl_mutations (cl_lineage r.2)) ∧ 0 ≤ cl_retained_bytes r.2) (lc_records c);
  lo_accelerations : Forall (λ a, step_true (ba_base a) (Some (ba_branch a)) (ba_changes a) ∧ 0 ≤ ba_retained_bytes a) (lc_accelerations c);
  lo_index : ∀ index, lc_ancestry_index c = Some index → index = index_of (lc_records c);
  lo_limits : 1 ≤ lc_max_records c ∧ 0 ≤ lc_max_bytes c ∧ 2 * lc_max_bytes c ≤ usize_max;
  lo_bytes : lc_retained_bytes c = records_bytes (lc_records c) ∧ lc_retained_bytes c ≤ lc_max_bytes c;
  lo_count : len (lc_records c) ≤ lc_max_records c;
  lo_acc_bytes : lc_acceleration_bytes c = accelerations_bytes (lc_accelerations c) ∧ lc_acceleration_bytes c ≤ MAX_ACCELERATION_BYTES;
  lo_acc_count : len (lc_accelerations c) ≤ 8;
}.

Lemma default_ok : lineage_ok BranchLineageCache_default.
Proof. constructor; cbn; try done; constructor. Qed.

(** ** Records *)
Lemma evict_records_ok mr mb l :
  1 ≤ mr → 0 ≤ mb → Forall (λ r, 0 ≤ cl_retained_bytes r.2) l →
  let kept := evict_records mr mb l (records_bytes l) in
  kept.1 `suffix_of` l ∧ kept.2 = records_bytes kept.1 ∧ len kept.1 ≤ mr ∧ kept.2 ≤ mb.
Proof.
  intros Hmr Hmb Hall. induction Hall as [|[c r] l Hr Hall IH]; [split; [done|]; split; [done|]; unfold len; cbn; lia|]. cbn [evict_records].
  destruct (_ || _) eqn:Hover.
  - replace (saturating_sub _ _) with (records_bytes l).
    + destruct IH as (Hsuf & Hb & Hc & Hl). split; [by apply suffix_cons_r|done].
    + pose proof (records_bytes_nonneg l Hall). unfold saturating_sub, records_bytes in *. cbn [foldr snd] in *. lia.
  - apply orb_false_iff in Hover as [H1%Z.ltb_ge H2%Z.ltb_ge]. done.
Qed.

Lemma records_bytes_snoc l r : records_bytes (l ++ [r]) = records_bytes l + cl_retained_bytes r.2.
Proof. unfold records_bytes. induction l as [|x l IH]; cbn [foldr app]; [lia|]. rewrite IH. lia. Qed.

Lemma Forall_suffix {A} (P : A → Prop) l k : l `suffix_of` k → Forall P k → Forall P l.
Proof. intros [pre ->] [_ Hl]%Forall_app. done. Qed.

Lemma insert_ok sz c parent root lineage :
  0 ≤ sz → lineage_ok c → step_true parent (Some root) (bl_mutations lineage) → lineage_ok (lineage_insert sz c parent root lineage).
Proof.
  intros Hsz Hc Hstep. unfold lineage_insert. pose proof (mutations_bytes_nonneg (bl_mutations lineage)) as Hnn.
  set (rb := saturating_add _ _ _). assert (0 ≤ rb) as Hrb by (unfold rb, saturating_add, usize_max, u64_max; lia).
  destruct (Z.ltb_spec (lc_max_bytes c) rb) as [|Hle]; [done|].
  set (record := {| cl_parent := _ |}). destruct Hc as [Hrec Hacc _ (Hmr & Hmb & Htop) [Hb Hbm] Hcnt Hab Hac].
  assert (Forall (λ r, step_true (cl_parent r.2) (Some r.1) (bl_mutations (cl_lineage r.2)) ∧ 0 ≤ cl_retained_bytes r.2)
    (lc_records c ++ [(root, record)])) as Hnew by (apply Forall_app; split; [done|apply Forall_singleton; done]).
  replace (saturating_add _ _ _) with (records_bytes (lc_records c ++ [(root, record)]))
    by (rewrite records_bytes_snoc, <- Hb; unfold saturating_add; cbn [record cl_retained_bytes snd]; lia).
  destruct (evict_records_ok (lc_max_records c) (lc_max_bytes c) (lc_records c ++ [(root, record)]) Hmr Hmb) as (Hsuf & Hkb & Hkl & Hkm).
  { eapply Forall_impl; [exact Hnew|]. by intros r [_ ?]. }
  constructor; cbn; try done. by eapply Forall_suffix.
Qed.

Lemma record_ok sz base branch lineage c :
  0 ≤ sz → lineage_ok c → (∃ m, content (t_root base) m ∧ content (t_root branch) (mutate m (bl_mutations lineage))) →
  lineage_ok (record_branch_lineage sz base branch lineage c).
Proof.
  intros Hsz Hc Hstep. unfold record_branch_lineage. destruct (t_root branch) as [root|] eqn:Hroot; [|done].
  destruct (strictly_ordered _) eqn:Hs; [|by rewrite orb_true_r]. case_bool_decide; [done|]. cbn [orb negb].
  apply insert_ok; [done|done|]. split; [by apply strictly_ordered_ascending|done].
Qed.

(** ** Queries *)
Lemma find_last_some {A} (p : A → bool) l x : find_last p l = Some x → x ∈ l ∧ p x = true.
Proof.
  induction l as [|y l IH]; [done|]. cbn [find_last]. destruct (find_last p l) as [z|].
  - intros [= ->]. destruct IH as [? ?]; [done|]. split; [by right|done].
  - destruct (p y) eqn:Hp; [|done]. intros [= <-]. split; [by left|done].
Qed.

Lemma index_of_some records cid i : index_of records !! cid = Some i → ∃ r, records !! i = Some (cid, r).
Proof.
  intros (j & [c r] & Hj & Hr)%put_all_in%elem_of_lookup_imap. injection Hj as <- <-. by exists r.
Qed.

Hypothesis content_fun : ∀ r m m', content r m → content r m' → m = m'.

(** From [branch] back to [current]: the chain is true, newest first. *)
Definition walked (branch current : option Cid) (chain : list (list Mutation)) : Prop :=
  Forall (λ ms, ascending (parts ms)) chain ∧
  (chain = [] ∧ current = branch ∨ ∃ m, content current m ∧ content branch (mutate m (concat (reverse chain)))).

Lemma chain_loop_ok c hops base branch current chain count current' chain' :
  lineage_ok c → walked branch current chain →
  chain_loop hops (lc_records c) (index_of (lc_records c)) base current chain count = Some (current', chain') →
  walked branch current' chain'.
Proof.
  intros Hc. revert current chain count; induction hops as [|hops IH]; intros current chain count Hw; cbn [chain_loop]; [by intros [= <- <-]|].
  case_bool_decide; [by intros [= <- <-]|]. destruct current as [cid|]; [|done]. cbn [mbind option_bind].
  destruct (index_of _ !! cid) as [i|] eqn:Hi; [|done]. cbn [mbind option_bind]. destruct (index_of_some _ _ _ Hi) as [r Hr]. rewrite Hr.
  cbn [mbind option_bind snd]. destruct (checked_add _ _ _) as [count'|]; [|done]. cbn [mbind option_bind]. destruct (_ <? _); [done|].
  apply IH. destruct (proj1 (Forall_lookup _ _) (lo_records _ Hc) i _ Hr) as [[Hasc (m & Hp & Hm)] _]. cbn [fst snd] in *.
  destruct Hw as [Hall Hw]. split; [apply Forall_app; split; [done|apply Forall_singleton; done]|]. right. exists m. split; [done|].
  rewrite reverse_snoc. cbn [concat]. rewrite mutate_app.
  destruct Hw as [[-> <-]|(m' & Hm' & Hb)]; [done|]. by rewrite (content_fun _ _ _ Hm Hm').
Qed.

Lemma indexed_ok c base branch ms :
  lineage_ok c → base ≠ branch → changes_since_indexed (lc_records c) (index_of (lc_records c)) base branch = Some ms → step_true base branch ms.
Proof.
  intros Hc Hne. unfold changes_since_indexed. rewrite bool_decide_eq_false_2 by done.
  destruct (chain_loop _ _ _ _ _ _ _) as [[current chain]|] eqn:Hl; [|done]. cbn [mbind option_bind].
  apply (chain_loop_ok c _ base branch branch [] 0 current chain Hc) in Hl as [Hall Hw]; [|split; [constructor|by left]].
  case_bool_decide as Hcur; [subst current|done]. destruct Hw as [[-> ->]|(m & Hm & Hb)]; [done|]. cbn [negb].
  destruct (Nat.eqb_spec (length chain) 1) as [H1|_].
  - destruct chain as [|ms' [|]]; [done| |done]. intros [= <-]. apply Forall_cons_1 in Hall as [Hasc _]. split; [done|]. exists m.
    cbn in Hb. rewrite app_nil_r in Hb. done.
  - intros [= <-]. split; [apply sort_last_ascending|]. exists m. by rewrite mutate_sort_last.
Qed.

Lemma evict_accelerations_ok l :
  Forall (λ a, 0 ≤ ba_retained_bytes a) l →
  let kept := evict_accelerations l (accelerations_bytes l) in
  kept.1 `suffix_of` l ∧ kept.2 = accelerations_bytes kept.1 ∧ len kept.1 ≤ 8 ∧ kept.2 ≤ MAX_ACCELERATION_BYTES.
Proof.
  intros Hall. induction Hall as [|a l Ha Hall IH]; [done|]. cbn [evict_accelerations]. destruct (_ || _) eqn:Hover.
  - replace (saturating_sub _ _) with (accelerations_bytes l).
    + destruct IH as (Hsuf & Hb & Hc & Hl). split; [by apply suffix_cons_r|done].
    + pose proof (accelerations_bytes_nonneg l Hall). unfold saturating_sub, accelerations_bytes in *. cbn [foldr] in *. lia.
  - apply orb_false_iff in Hover as [H1%Z.ltb_ge H2%Z.ltb_ge]. done.
Qed.

Lemma accelerations_bytes_snoc l a : accelerations_bytes (l ++ [a]) = accelerations_bytes l + ba_retained_bytes a.
Proof. unfold accelerations_bytes. induction l as [|x l IH]; cbn [foldr app]; [lia|]. rewrite IH. lia. Qed.

Lemma accelerate_ok c base branch ms : lineage_ok c → step_true base (Some branch) ms → lineage_ok (accelerate c base branch ms).
Proof.
  intros Hc Hstep. unfold accelerate. pose proof (mutations_bytes_nonneg ms) as Hnn. destruct (Z.leb_spec (mutations_bytes ms) MAX_ACCELERATION_BYTES) as [Hle|]; [|done].
  set (added := {| ba_base := _ |}). destruct Hc as [Hrec Hacc Hidx Hlim Hb Hcnt [Hab Habm] Hac].
  assert (Forall (λ a, step_true (ba_base a) (Some (ba_branch a)) (ba_changes a) ∧ 0 ≤ ba_retained_bytes a) (lc_accelerations c ++ [added])) as Hnew
    by (apply Forall_app; split; [done|apply Forall_singleton; done]).
  replace (saturating_add _ _ _) with (accelerations_bytes (lc_accelerations c ++ [added])).
  2: { rewrite accelerations_bytes_snoc, <- Hab. cbn [added ba_retained_bytes]. unfold saturating_add, MAX_ACCELERATION_BYTES, usize_max, u64_max in *. lia. }
  destruct (evict_accelerations_ok (lc_accelerations c ++ [added])) as (Hsuf & Hkb & Hkl & Hkm).
  { eapply Forall_impl; [exact Hnew|]. by intros a [_ ?]. }
  constructor; cbn; try done. by eapply Forall_suffix.
Qed.

Lemma ensure_ok c : lineage_ok c → lineage_ok (ensure_ancestry_index c) ∧ lc_records (ensure_ancestry_index c) = lc_records c ∧
  lc_ancestry_index (ensure_ancestry_index c) = Some (index_of (lc_records c)).
Proof.
  intros Hc. unfold ensure_ancestry_index. destruct (lc_ancestry_index c) as [i|] eqn:Hi.
  - split; [done|]. split; [done|]. by rewrite (lo_index _ Hc i Hi) in Hi.
  - split; [|done]. destruct Hc. constructor; cbn; try done. by intros ? [= <-].
Qed.

(** An answer is a step between the maps of its roots. *)
Lemma changes_since_ok base branch c :
  lineage_ok c →
  lineage_ok (changes_since base branch c).2 ∧
  ∀ ms, (changes_since base branch c).1 = Some ms → base = branch ∧ ms = [] ∨ step_true base branch ms.
Proof.
  intros Hc. unfold changes_since. case_bool_decide as Heq; [split; [done|]; intros ms [= <-]; by left|].
  destruct branch as [root|]; [|done].
  destruct (find_last _ (lc_accelerations c)) as [a|] eqn:Ha.
  { apply find_last_some in Ha as [Hin [Hb%bool_decide_eq_true Hr%bool_decide_eq_true]%andb_true_iff]. split; [done|]. intros ms [= <-]. right.
    destruct (proj1 (Forall_forall _ _) (lo_accelerations _ Hc) a Hin) as [Ht _]. by rewrite Hb, Hr in Ht. }
  destruct (find_last _ (lc_records c)) as [r|] eqn:Hr.
  { apply find_last_some in Hr as [Hin [Hb%bool_decide_eq_true Hp%bool_decide_eq_true]%andb_true_iff]. split; [done|]. intros ms [= <-]. right.
    destruct (proj1 (Forall_forall _ _) (lo_records _ Hc) r Hin) as [Ht _]. by rewrite Hb, Hp in Ht. }
  destruct (ensure_ok c Hc) as (Hc' & Hrec & Hidx). rewrite Hidx. cbn [mbind option_bind]. rewrite Hrec.
  destruct (changes_since_indexed _ _ _ _) as [ms|] eqn:Hms; [|done]. apply (indexed_ok c base (Some root) ms Hc Heq) in Hms.
  split; [by apply accelerate_ok|]. intros ms' [= <-]. by right.
Qed.

(** ** What is recorded is found *)
Lemma evict_keeps_last mr mb l x t :
  1 ≤ mr → t = records_bytes (l ++ [x]) → Forall (λ r, 0 ≤ cl_retained_bytes r.2) (l ++ [x]) → cl_retained_bytes x.2 ≤ mb →
  ∃ l', (evict_records mr mb (l ++ [x]) t).1 = l' ++ [x].
Proof.
  intros Hmr. revert t; induction l as [|[c r] l IH]; intros t Ht Hall Hx; cbn [app evict_records].
  - destruct x as [c r]. cbn [app] in Ht. unfold records_bytes in Ht. cbn [foldr snd] in Ht, Hx. unfold len. cbn [length].
    rewrite (proj2 (Z.ltb_ge _ _)), (proj2 (Z.ltb_ge _ _)) by lia. by exists [].
  - cbn [app] in Hall. apply Forall_cons_1 in Hall as [Hr Hall]. cbn [snd] in Hr. destruct (_ || _); [|by exists ((c, r) :: l)]. apply IH; [|done|done].
    pose proof (records_bytes_nonneg _ Hall). subst t. unfold saturating_sub, records_bytes in *. cbn [foldr app snd] in *. lia.
Qed.

Lemma find_last_is_some {A} (p : A → bool) l x : x ∈ l → p x = true → is_Some (find_last p l).
Proof.
  intros Hin Hp. induction l as [|y l IH]; [by apply not_elem_of_nil in Hin|]. cbn [find_last].
  apply elem_of_cons in Hin as [->|Hin]; [|by destruct (IH Hin) as [z ->]].
  destruct (find_last p l); [by eexists|]. rewrite Hp. by eexists.
Qed.

Lemma record_found c root r : (root, r) ∈ lc_records c → is_Some (changes_since (cl_parent r) (Some root) c).1.
Proof.
  intros Hin. unfold changes_since. case_bool_decide; [by eexists|]. destruct (find_last _ (lc_accelerations c)); [by eexists|].
  edestruct (find_last_is_some (λ r0, bool_decide (r0.1 = root) && bool_decide (cl_parent r0.2 = cl_parent r)) (lc_records c) (root, r)) as [d ->];
    [done|cbn; by rewrite !bool_decide_eq_true_2|by eexists].
Qed.

Lemma recorded_found sz base branch root lineage c :
  0 ≤ sz → lineage_ok c → t_root branch = Some root → t_root base ≠ Some root → strictly_ordered (bl_mutations lineage) = true →
  saturating_add usize_max (mutations_bytes (bl_mutations lineage)) sz ≤ lc_max_bytes c →
  is_Some (changes_since (t_root base) (t_root branch) (record_branch_lineage sz base branch lineage c)).1.
Proof.
  intros Hsz Hc Hroot Hne Hs Hfit. unfold record_branch_lineage. rewrite Hroot, bool_decide_eq_false_2, Hs by done. cbn [negb orb].
  unfold lineage_insert. rewrite (proj2 (Z.ltb_ge _ _)) by done. set (record := {| cl_parent := _ |}).
  match goal with |- context [changes_since _ _ ?c'] => set (cache := c') end.
  change (t_root base) with (cl_parent record) at 1. apply record_found. cbn [cache lc_records].
  destruct Hc as [Hrec _ _ (Hmr & Hmb & Htop) [Hb Hbm] _ _ _]. pose proof (mutations_bytes_nonneg (bl_mutations lineage)).
  edestruct (evict_keeps_last (lc_max_records c) (lc_max_bytes c) (lc_records c) (root, record)) as [l' ->]; [done| | |done|apply elem_of_app; right; by left].
  - rewrite records_bytes_snoc, <- Hb. cbn [snd record cl_retained_bytes]. unfold saturating_add in *. lia.
  - apply Forall_app. split; [eapply Forall_impl; [exact Hrec|]; by intros ? [_ ?]|]. apply Forall_singleton. cbn.
    unfold saturating_add, usize_max, u64_max. lia.
Qed.

(** ** Histories *)
(** What the engine does with the cache: it records writes and asks for changes. *)
Inductive lineage_step (sz : Z) : BranchLineageCache → BranchLineageCache → Prop :=
| step_record base branch lineage c
    (Htrue : ∃ m, content (t_root base) m ∧ content (t_root branch) (mutate m (bl_mutations lineage))) :
    lineage_step sz c (record_branch_lineage sz base branch lineage c)
| step_ask base branch c :
    lineage_step sz c (changes_since base branch c).2.

Lemma history_ok sz c c' : 0 ≤ sz → rtc (lineage_step sz) c c' → lineage_ok c → lineage_ok c'.
Proof.
  intros Hsz. induction 1 as [|c1 c2 c3 Hstep _ IH]; intros Hok; [done|]. apply IH.
  destruct Hstep; [by apply record_ok|by apply changes_since_ok].
Qed.
End spec.

(** ** Roots of a store *)
(** The map of a root. *)
Definition root_map `{Hashes} (st : gmap bytes bytes) (f : TreeFormat) (root : option Cid) (m : gmap bytes bytes) : Prop :=
  match root with
  | None => m = ∅
  | Some cid => ∃ h es, subtree st f h cid es ∧ ascending es ∧ m = final_map es
  end.

Lemma root_map_fun `{HashesOk} st f root m m' : root_map st f root m → root_map st f root m' → m = m'.
Proof.
  destruct root as [cid|]; cbn; [|congruence]. intros (h & es & Hs & _ & ->) (h' & es' & Hs' & _ & ->).
  by destruct (subtree_same _ _ _ _ _ _ _ Hs Hs') as [_ ->].
Qed.

(** C14.  The lineage cache answers truly: after any history of records and questions,
    in which every recorded batch leads from the map of its base to the map of its branch,
    the changes that the cache reports between two roots lead from the map of the one to
    the map of the other and have one mutation for each key, in order, over however many
    writes they were composed and whatever was evicted.  The cache stays within its
    limits, and a write that fits them is known at once. *)
Theorem lineage_answers_true `{HashesOk} st f sz c :
  0 ≤ sz → rtc (lineage_step (root_map st f) sz) BranchLineageCache_default c →
  (len (lc_records c) ≤ lc_max_records c ∧ records_bytes (lc_records c) ≤ lc_max_bytes c ∧
   len (lc_accelerations c) ≤ 8 ∧ accelerations_bytes (lc_accelerations c) ≤ MAX_ACCELERATION_BYTES) ∧
  (∀ base branch ms m, (changes_since base branch c).1 = Some ms → root_map st f base m →
     ascending (parts ms) ∧ root_map st f branch (mutate m ms)) ∧
  (∀ base branch root lineage, t_root branch = Some root → t_root base ≠ Some root →
     strictly_ordered (bl_mutations lineage) = true →
     saturating_add usize_max (mutations_bytes (bl_mutations lineage)) sz ≤ lc_max_bytes c →
     is_Some (changes_since (t_root base) (t_root branch) (record_branch_lineage sz base branch lineage c)).1).
Proof.
  intros Hsz Hrtc. assert (lineage_ok (root_map st f) c) as Hok.
  { eapply history_ok; [intros; by eapply root_map_fun|exact Hsz|exact Hrtc|apply default_ok]. }
  split; [destruct Hok as [_ _ _ _ [<- ?] ? [<- ?] ?]; done|]. split.
  - intros base branch ms m Hms Hm.
    destruct (changes_since_ok (root_map st f) (root_map_fun st f) base branch c Hok) as [_ Hans].
    destruct (Hans ms Hms) as [[-> ->]|[Hasc (m' & Hm' & Hb)]]; [split; [constructor|done]|].
    rewrite (root_map_fun st f base m m' Hm Hm'). done.
  - intros base branch root lineage. by apply recorded_found with (content := root_map st f).
Qed.
End LineageSpec.
