(* ===== verification/Merge.v ===== *)
(** * Three-way merges (src/prolly/diff.rs, src/prolly/policy.rs, src/prolly/mod.rs)

    [merge_with] merges the changes of one branch into another: it returns a branch as it
    is where the roots decide, merges the recorded mutations of the two branches where the
    engine knows them, and else the difference of the base and the right branch against
    reads of the left one.  A merge that has something to write ends with one batched
    write of mutations to the left branch; the model stops there and returns the request.
    Trace events of a merge are diagnostics and left out. *)

From Stdlib Require Import ZArith Lia Strings.Byte.
From stdpp Require Import base tactics numbers list strings option gmap sorting.
From S2P Require Import Prelude Cursor Types Format Node ReadNode Store NodeCache Emitter Builder Engine Write Crdt TreeDiff GetMany Lineage.
Import Store NodeCache Builder Engine Lineage.
Import Emitter(foldM).
Import Crdt(Resolution, Value, ResolveDelete, Unresolved).
Import TreeDiff(compute_async_diff).
Import GetMany(get_many).

Local Open Scope Z_scope.

Module Merge.

(** ** Resolvers *)
Inductive MergeDecision := UseBase | UseLeft | UseRight | UseValue (value : bytes) | UseDelete | UseNothing.

Inductive MergeResolverRef :=
| Legacy (resolve : Conflict → Resolution)
| Borrowed (resolve : Conflict → MergeDecision).

(** The value that the key gets, or the conflict when it stays unresolved. *)
Definition resolve_conflict (resolver : option MergeResolverRef) (conflict : Conflict) : outcome Conflict (option bytes) :=
  match resolver with
  | Some (Borrowed resolve) =>
      match resolve conflict with
      | UseBase => Ok (conflict_base conflict)
      | UseLeft => Ok (conflict_left conflict)
      | UseRight => Ok (conflict_right conflict)
      | UseValue value => Ok (Some value)
      | UseDelete => Ok None
      | UseNothing => Err conflict
      end
  | Some (Legacy resolve) =>
      match resolve conflict with
      | Value value => Ok (Some value)
      | ResolveDelete => Ok None
      | Unresolved => Err conflict
      end
  | None => Err conflict
  end.

Definition prefer_left (conflict : Conflict) : Resolution :=
  match conflict_left conflict with Some value => Value value | None => ResolveDelete end.
Definition prefer_right (conflict : Conflict) : Resolution :=
  match conflict_right conflict with Some value => Value value | None => ResolveDelete end.
Definition delete_wins (conflict : Conflict) : Resolution :=
  match conflict_left conflict, conflict_right conflict with Some _, Some _ => Unresolved | _, _ => ResolveDelete end.
Definition update_wins (conflict : Conflict) : Resolution :=
  match conflict_left conflict, conflict_right conflict with
  | Some value, None | None, Some value => Value value
  | _, _ => Unresolved
  end.

(** ** Policies by key *)
Inductive MergePolicyMatcher :=
| MatchPrefix (prefix : bytes)
| MatchExact (key : bytes)
| MatchPattern (name : string) (matcher : bytes → bool).

Record MergePolicyRule := { mr_matcher : MergePolicyMatcher; mr_policy : Conflict → Resolution }.

Definition matches (self : MergePolicyRule) (key : bytes) : bool :=
  match mr_matcher self with
  | MatchPrefix prefix => bool_decide (prefix `prefix_of` key)
  | MatchExact exact => bool_decide (key = exact)
  | MatchPattern _ matcher => matcher key
  end.

Record MergePolicyRegistry := { mp_rules : list MergePolicyRule; mp_default : option (Conflict → Resolution) }.

Definition MergePolicyRegistry_new : MergePolicyRegistry := {| mp_rules := []; mp_default := None |}.
Definition set_default (policy : Conflict → Resolution) (self : MergePolicyRegistry) : MergePolicyRegistry :=
  {| mp_rules := mp_rules self; mp_default := Some policy |}.
Definition with_default (policy : Conflict → Resolution) : MergePolicyRegistry := set_default policy MergePolicyRegistry_new.
Definition push_rule (rule : MergePolicyRule) (self : MergePolicyRegistry) : MergePolicyRegistry :=
  {| mp_rules := mp_rules self ++ [rule]; mp_default := mp_default self |}.
Definition push_prefix (prefix : bytes) (policy : Conflict → Resolution) : MergePolicyRegistry → MergePolicyRegistry :=
  push_rule {| mr_matcher := MatchPrefix prefix; mr_policy := policy |}.
Definition push_exact (key : bytes) (policy : Conflict → Resolution) : MergePolicyRegistry → MergePolicyRegistry :=
  push_rule {| mr_matcher := MatchExact key; mr_policy := policy |}.
Definition push_pattern (name : string) (matcher : bytes → bool) (policy : Conflict → Resolution)
    : MergePolicyRegistry → MergePolicyRegistry :=
  push_rule {| mr_matcher := MatchPattern name matcher; mr_policy := policy |}.

Definition matching_rule (self : MergePolicyRegistry) (key : bytes) : option MergePolicyRule :=
  find_last (λ rule, matches rule key) (mp_rules self).
Definition registry_resolve (self : MergePolicyRegistry) (conflict : Conflict) : Resolution :=
  match matching_rule self (conflict_key conflict) with
  | Some rule => mr_policy rule conflict
  | None => match mp_default self with Some policy => policy conflict | None => Unresolved end
  end.
Definition as_resolver (self : MergePolicyRegistry) : MergeResolverRef := Legacy (registry_resolve self).

(** ** The changes of a branch *)
Record MergeChangeRef := { mc_key : bytes; mc_base : option bytes; mc_value : option bytes }.

Definition build_merge_change_refs (diffs : list Diff) : list MergeChangeRef :=
  (λ d, match d with
        | Added key val => {| mc_key := key; mc_base := None; mc_value := Some val |}
        | Removed key val => {| mc_key := key; mc_base := Some val; mc_value := None |}
        | Changed key old new => {| mc_key := key; mc_base := Some old; mc_value := Some new |}
        end) <$> diffs.

Definition push_change_mutation (mutations : list Mutation) (key : bytes) (value : option bytes) : list Mutation :=
  mutations ++ [match value with Some val => Upsert key val | None => Delete key end].

(** What a resolved conflict adds to the mutations of the left branch. *)
Definition push_selected (mutations : list Mutation) (key : bytes) (left_value selected : option bytes) : list Mutation :=
  if bool_decide (selected = left_value) then mutations else push_change_mutation mutations key selected.

Definition merge_change (resolver : option MergeResolverRef) (mutations : list Mutation) (item : MergeChangeRef * option bytes)
    : outcome Error (list Mutation) :=
  let '(entry, left_value) := item in
  if bool_decide (left_value = mc_base entry) then Ok (push_change_mutation mutations (mc_key entry) (mc_value entry))
  else if bool_decide (left_value = mc_value entry) then Ok mutations
  else
    let conflict := {| conflict_key := mc_key entry; conflict_base := mc_base entry; conflict_left := left_value;
                       conflict_right := mc_value entry |} in
    selected ← map_err ConflictError (resolve_conflict resolver conflict);
    Ok (push_selected mutations (mc_key entry) left_value selected).

(** ** The changes of both branches *)
Inductive LineageMergePlan := RightOnly (mutation : Mutation) | Overlap (left_mutation right_mutation : Mutation).

Record LineagePlan := {
  lp_plan : list LineageMergePlan;
  lp_overlap_keys : list bytes;
  lp_matches_right : bool;
  lp_matches_base : bool;
}.
Definition LineagePlan_start : LineagePlan :=
  {| lp_plan := []; lp_overlap_keys := []; lp_matches_right := true; lp_matches_base := true |}.

Definition skip_left (p : LineagePlan) : LineagePlan :=
  {| lp_plan := lp_plan p; lp_overlap_keys := lp_overlap_keys p; lp_matches_right := false; lp_matches_base := false |}.
Definition take_right (r : Mutation) (p : LineagePlan) : LineagePlan :=
  {| lp_plan := lp_plan p ++ [RightOnly r]; lp_overlap_keys := lp_overlap_keys p;
     lp_matches_right := lp_matches_right p; lp_matches_base := false |}.
Definition take_both (l r : Mutation) (p : LineagePlan) : LineagePlan :=
  {| lp_plan := lp_plan p ++ [Overlap l r]; lp_overlap_keys := lp_overlap_keys p ++ [Mutation_key r];
     lp_matches_right := lp_matches_right p; lp_matches_base := lp_matches_base p |}.
(** What follows the loop: the rest of the right changes, and whether both were used up. *)
Definition plan_rest (left_changes right_changes : list Mutation) (p : LineagePlan) : LineagePlan :=
  {| lp_plan := lp_plan p ++ (RightOnly <$> right_changes); lp_overlap_keys := lp_overlap_keys p;
     lp_matches_right := lp_matches_right p && bool_decide (left_changes = []);
     lp_matches_base := lp_matches_base p && bool_decide (left_changes = []) && bool_decide (right_changes = []) |}.

Fixpoint lineage_plan (left_changes : list Mutation) : list Mutation → LineagePlan → LineagePlan :=
  match left_changes with
  | [] => plan_rest []
  | l :: left' =>
      fix go (right_changes : list Mutation) (p : LineagePlan) : LineagePlan :=
        match right_changes with
        | [] => plan_rest left_changes [] p
        | r :: right' =>
            match bcmp (Mutation_key l) (Mutation_key r) with
            | Lt => lineage_plan left' right_changes (skip_left p)
            | Gt => go right' (take_right r p)
            | Eq => lineage_plan left' right' (take_both l r p)
            end
        end
  end.

Definition mutation_value (m : Mutation) : option bytes := match m with Upsert _ val => Some val | Delete _ => None end.

(** The index of the next base value, the mutations, and whether the result is the right
    tree or the base. *)
Definition merge_item (resolver : option MergeResolverRef) (base_values : list (option bytes))
    (state : nat * list Mutation * bool * bool) (item : LineageMergePlan)
    : outcome Error (nat * list Mutation * bool * bool) :=
  let '(overlap_index, mutations, matches_right, matches_base) := state in
  match item with
  | RightOnly mutation => Ok (overlap_index, mutations ++ [mutation], matches_right, matches_base)
  | Overlap left_mutation right_mutation =>
      let key := Mutation_key right_mutation in
      base_value ← expect "index out of bounds" (base_values !! overlap_index);
      let left_value := mutation_value left_mutation in
      let right_value := mutation_value right_mutation in
      let overlap_index := S overlap_index in
      if bool_decide (left_value = right_value) then
        Ok (overlap_index, mutations, matches_right, matches_base && bool_decide (left_value = base_value))
      else if bool_decide (right_value = base_value) then
        Ok (overlap_index, mutations, false, matches_base && bool_decide (left_value = base_value))
      else if bool_decide (left_value = base_value) then
        Ok (overlap_index, push_change_mutation mutations key right_value, matches_right,
            matches_base && bool_decide (right_value = base_value))
      else
        selected ← map_err ConflictError (resolve_conflict resolver
          {| conflict_key := key; conflict_base := base_value; conflict_left := left_value; conflict_right := right_value |});
        Ok (overlap_index, push_selected mutations key left_value selected,
            matches_right && bool_decide (selected = right_value), matches_base && bool_decide (selected = base_value))
  end.

(** ** The engine *)
(** The engine with its lineage cache. *)
Record Manager (St : Type) := { mg_engine : ProllyEngine St; mg_lineage : BranchLineageCache }.
Arguments mg_engine {_}.
Arguments mg_lineage {_}.

Abbreviation mgr St A := (action (Manager St) A).

Definition on_engine {St A} (m : eng St A) : mgr St A := λ g,
  let '(r, e) := m (mg_engine g) in (r, {| mg_engine := e; mg_lineage := mg_lineage g |}).
Definition on_lineage {St A} (m : BranchLineageCache → A * BranchLineageCache) : mgr St A := λ g,
  let '(r, c) := m (mg_lineage g) in (Ok r, {| mg_engine := mg_engine g; mg_lineage := c |}).

(** How a merge ends: with a tree that is there, or with the batched write of its
    mutations to the left tree. *)
Inductive merge_end := Merged (tree : Tree) | WriteLeft (mutations : list Mutation).

(** After a batched write of [tree] that returned [branch]. *)
Definition record_batch {St} (size_of_record : Z) (tree branch : Tree) (lineage : option BranchLineage) : mgr St () :=
  match lineage with
  | Some lineage => on_lineage (λ c, (tt, record_branch_lineage size_of_record tree branch lineage c))
  | None => mret tt
  end.

Section merge.
Context `{Hashes} {St : Type} `{Store St} `{!ReadStore St}.

Definition merge_trees_with_right_diff_borrowed_async (fuel : nat) (left_ : Tree) (right_diff : list Diff)
    (resolver : option MergeResolverRef) : mgr St merge_end :=
  let right_changes := build_merge_change_refs right_diff in
  let keys := mc_key <$> right_changes in
  on_engine (get_many keys fuel left_) ≫= λ left_values : list (option bytes),
  run (foldM (merge_change resolver) [] (zip right_changes left_values)) ≫= λ mutations : list Mutation,
  if bool_decide (mutations = []) then mret (Merged left_) else mret (WriteLeft mutations).

Definition try_lineage_merge_async (fuel : nat) (base left_ right_ : Tree) (resolver : option MergeResolverRef)
    : mgr St (option merge_end) :=
  on_lineage (branch_change_pair base left_ right_) ≫= λ pair : option (list Mutation * list Mutation),
  match pair with
  | None => mret None
  | Some (left_changes, right_changes) =>
      let p := lineage_plan left_changes right_changes LineagePlan_start in
      (if bool_decide (lp_overlap_keys p = []) then mret []
       else on_engine (get_many (lp_overlap_keys p) fuel base)) ≫= λ base_values : list (option bytes),
      run (foldM (merge_item resolver base_values) (0%nat, [], lp_matches_right p, lp_matches_base p) (lp_plan p))
        ≫= λ state : nat * list Mutation * bool * bool,
      let '(_, mutations, matches_right, matches_base) := state in
      if matches_base then mret (Some (Merged base))
      else if matches_right then mret (Some (Merged right_))
      else if bool_decide (mutations = []) then mret (Some (Merged left_))
      else mret (Some (WriteLeft mutations))
  end.

Definition merge_trees_borrowed_async (fuel : nat) (base left_ right_ : Tree) (resolver : option MergeResolverRef) : mgr St merge_end :=
  if bool_decide (t_root left_ = t_root right_) then mret (Merged left_)
  else if bool_decide (t_root left_ = t_root base) then mret (Merged right_)
  else if bool_decide (t_root right_ = t_root base) then mret (Merged left_)
  else
    try_lineage_merge_async fuel base left_ right_ resolver ≫= λ merged : option merge_end,
    match merged with
    | Some merged => mret merged
    | None =>
        on_engine (compute_async_diff fuel base right_) ≫= λ right_diff : list Diff,
        merge_trees_with_right_diff_borrowed_async fuel left_ right_diff resolver
    end.

Definition merge_with (fuel : nat) (base left_ right_ : Tree) (resolver : option (Conflict → MergeDecision)) : mgr St merge_end :=
  merge_trees_borrowed_async fuel base left_ right_ (Borrowed <$> resolver).
End merge.
End Merge.
