(* ===== verification/MergeSpec.v ===== *)
(** * Merges are three-way merges of the maps

    What a merge makes of each key, and that both ways to compute the mutations of a merge,
    from a difference and from recorded changes, bring the left map to the merged one or
    stop at the first key that no resolver decides. *)

From Stdlib Require Import ZArith Lia Strings.Byte.
From stdpp Require Import base tactics numbers list strings option gmap sorting.
From S2P Require Import Prelude Cursor Types Format Node ReadNode Store NodeCache Emitter Builder Entries TreeSpec Engine EngineSpec Write Updates CanonicalWrite Crdt Proof ProofTheorems DiffSpec TreeDiff TreeDiffContract GetMany Lineage LineageSpec Merge.
Import Store Builder Entries Write Updates Lineage LineageSpec Merge.
Import Emitter(foldM).
Import CanonicalWrite(mutate).
Import DiffSpec(diff_between, in_key_order, differences).
Import TreeDiffContract(map_difference).

Local Open Scope Z_scope.

Module MergeSpec.

(** ** Mutations *)
Lemma mutate_lookup m ms k : mutate m ms !! k = match final_map (parts ms) !! k with Some w => w | None => m !! k end.
Proof. unfold mutate. by rewrite apply_mutations, lookup_update. Qed.

Lemma mutate_snoc m ms x k : mutate m (ms ++ [x]) !! k = if decide (k = Mutation_key x) then mutation_value x else mutate m ms !! k.
Proof.
  unfold mutate. rewrite fmap_app, foldl_app. cbn [fmap list_fmap foldl]. unfold apply_mutation.
  destruct x as [key val|key]; cbn; destruct (decide (k = key)) as [->|]; by simplify_map_eq.
Qed.

Lemma mutate_push m ms key value k :
  mutate m (push_change_mutation ms key value) !! k = if decide (k = key) then value else mutate m ms !! k.
Proof. unfold push_change_mutation. rewrite mutate_snoc. by destruct value. Qed.

Lemma parts_keys ms : fst <$> parts ms = Mutation_key <$> ms.
Proof. rewrite <- list_fmap_compose. apply list_fmap_ext. by intros _ [] _. Qed.

Lemma final_parts ms x : ascending (parts ms) → x ∈ ms → final_map (parts ms) !! Mutation_key x = Some (mutation_value x).
Proof. intros Ha Hx. apply final_map_elem; [done|]. apply list_elem_of_fmap. exists x. by destruct x. Qed.

Lemma final_parts_none ms k : k ∉ Mutation_key <$> ms → final_map (parts ms) !! k = None.
Proof.
  intros Hk. destruct (final_map (parts ms) !! k) as [v|] eqn:Hv; [|done]. destruct Hk. rewrite <- parts_keys.
  apply CanonicalWrite.put_all_in in Hv. apply list_elem_of_fmap. by exists (k, v).
Qed.

(** ** Policies *)
Lemma find_last_snoc {A} (p : A → bool) l x : find_last p (l ++ [x]) = if p x then Some x else find_last p l.
Proof. induction l as [|y l IH]; [done|]. cbn [find_last app]. rewrite IH. by destruct (p x). Qed.

(** The newest rule that matches a key decides, whatever was registered before it. *)
Lemma newest_rule_wins rule registry conflict :
  registry_resolve (push_rule rule registry) conflict =
    if matches rule (conflict_key conflict) then mr_policy rule conflict else registry_resolve registry conflict.
Proof. unfold registry_resolve, matching_rule, push_rule. cbn [mp_rules mp_default]. rewrite find_last_snoc. by destruct (matches _ _). Qed.

(** ** Plans *)
Definition item_key (item : LineageMergePlan) : bytes :=
  match item with RightOnly x => Mutation_key x | Overlap _ x => Mutation_key x end.
Definition overlaps (items : list LineageMergePlan) : list bytes :=
  omap (λ item, match item with RightOnly _ => None | Overlap _ x => Some (Mutation_key x) end) items.

Definition is_overlap (item : LineageMergePlan) : Prop := match item with RightOnly _ => False | Overlap _ _ => True end.

(** The right mutation of the item, with the left one of the same key. *)
Definition item_of (ls : list Mutation) (x : Mutation) (item : LineageMergePlan) : Prop :=
  match item with
  | RightOnly x' => x' = x ∧ Mutation_key x ∉ Mutation_key <$> ls
  | Overlap y x' => x' = x ∧ y ∈ ls ∧ Mutation_key y = Mutation_key x
  end.

Record planned (ls rs : list Mutation) (p p' : LineagePlan) (items : list LineageMergePlan) : Prop := {
  pl_plan : lp_plan p' = lp_plan p ++ items;
  pl_overlap : lp_overlap_keys p' = lp_overlap_keys p ++ overlaps items;
  pl_items : Forall2 (item_of ls) rs items;
  pl_right : lp_matches_right p' = true → lp_matches_right p = true ∧ (Mutation_key <$> ls) ⊆ (Mutation_key <$> rs);
  pl_base : lp_matches_base p' = true → lp_matches_base p = true ∧ (Mutation_key <$> ls) ⊆ (Mutation_key <$> rs) ∧ Forall is_overlap items;
}.

Lemma parts_cons x ms :
  ascending (parts (x :: ms)) → ascending (parts ms) ∧ ∀ k, k ∈ Mutation_key <$> ms → (Mutation_key x < k)%key.
Proof.
  unfold ascending. rewrite !parts_keys. cbn [fmap list_fmap]. intros [Hs Hall]%StronglySorted_inv. split; [done|]. by apply Forall_forall.
Qed.

(** A left mutation before all right ones is in no item. *)
Lemma items_skip y ls rs items :
  (∀ k, k ∈ Mutation_key <$> rs → (Mutation_key y < k)%key) → Forall2 (item_of ls) rs items → Forall2 (item_of (y :: ls)) rs items.
Proof.
  intros Hlt Hall. induction Hall as [|x item rs items Hi _ IH]; [constructor|]. constructor.
  - destruct item as [x'|z x']; cbn in *; [|naive_solver set_solver]. destruct Hi as [-> Hn]. split; [done|]. rewrite elem_of_cons.
    intros [Heq|?]; [|done]. apply (blt_irrefl (Mutation_key x)). rewrite Heq at 1. apply Hlt. by left.
  - apply IH. intros k Hk. apply Hlt. by right.
Qed.

Lemma lineage_plan_ok ls rs p :
  ascending (parts ls) → ascending (parts rs) → ∃ items, planned ls rs p (lineage_plan ls rs p) items.
Proof.
  revert rs p; induction ls as [|y ls IH]; intros rs p Hls.
  { intros _. exists (RightOnly <$> rs). cbn [lineage_plan plan_rest]. constructor; cbn.
    - done.
    - replace (overlaps (RightOnly <$> rs)) with (@nil bytes) by (by induction rs). by rewrite app_nil_r.
    - induction rs as [|x rs IH]; constructor; [|done]. split; [done|apply not_elem_of_nil].
    - intros [? _]%andb_true_iff. split; [done|set_solver].
    - intros [[? _]%andb_true_iff ->%bool_decide_eq_true]%andb_true_iff. split; [done|]. split; [set_solver|constructor]. }
  apply parts_cons in Hls as [Hls Hlt]. revert p; induction rs as [|x rs IHr]; intros p Hrs.
  { exists []. cbn [lineage_plan]. constructor; cbn; rewrite ?app_nil_r, ?andb_false_r; done. }
  pose proof (parts_cons _ _ Hrs) as [Hrs' Hltr].
  assert (lineage_plan (y :: ls) (x :: rs) p = match bcmp (Mutation_key y) (Mutation_key x) with
    | Lt => lineage_plan ls (x :: rs) (skip_left p) | Gt => lineage_plan (y :: ls) rs (take_right x p)
    | Eq => lineage_plan ls rs (take_both y x p) end) as -> by done.
  destruct (bcmp (Mutation_key y) (Mutation_key x)) eqn:Hcmp.
  - apply bcmp_Eq in Hcmp. destruct (IH rs (take_both y x p) Hls Hrs') as (items & [Hp Ho Hi Hr Hb]). exists (Overlap y x :: items).
    constructor; [by rewrite Hp, cons_middle, app_assoc|rewrite Ho; cbn [take_both lp_overlap_keys]; by rewrite <- app_assoc| | |].
    + constructor; [split; [done|]; split; [by left|done]|]. apply items_skip; [|done]. by rewrite Hcmp.
    + intros Ht. destruct (Hr Ht). split; [done|]. cbn [fmap list_fmap]. rewrite Hcmp. set_solver.
    + intros Ht. destruct (Hb Ht) as (? & ? & ?). split; [done|]. split; [cbn [fmap list_fmap]; rewrite Hcmp; set_solver|by constructor].
  - destruct (IH (x :: rs) (skip_left p) Hls Hrs) as (items & [Hp Ho Hi Hr Hb]). exists items.
    constructor; [done|done| |intros Ht; by destruct (Hr Ht)|intros Ht; by destruct (Hb Ht)].
    apply items_skip; [|done]. cbn [fmap list_fmap]. intros k [->|Hk]%elem_of_cons; [done|]. eapply blt_trans; [exact Hcmp|by apply Hltr].
  - destruct (IHr (take_right x p) Hrs') as (items & [Hp Ho Hi Hr Hb]). exists (RightOnly x :: items).
    assert (Mutation_key x < Mutation_key y)%key as Hxy by (unfold blt; by rewrite bcmp_antisym, Hcmp).
    constructor; [by rewrite Hp, cons_middle, app_assoc|done| | |intros Ht; by destruct (Hb Ht)].
    + constructor; [split; [done|]|done]. cbn [fmap list_fmap]. intros [Heq|Hk]%elem_of_cons; [by apply (blt_irrefl (Mutation_key x)); rewrite Heq at 2|].
      apply (blt_irrefl (Mutation_key x)). eapply blt_trans; [exact Hxy|by apply Hlt].
    + intros Ht. destruct (Hr Ht). split; [done|]. cbn [fmap list_fmap]. set_solver.
Qed.

(** ** The merged map *)
Section three_way.
Context (resolver : option MergeResolverRef) (b l r : gmap bytes bytes).

Definition conflict_at (k : bytes) : Conflict :=
  {| conflict_key := k; conflict_base := b !! k; conflict_left := l !! k; conflict_right := r !! k |}.

(** A side that did not change leaves the key to the other; equal changes agree; the
    resolver decides on the rest. *)
Definition merged_at (k : bytes) : outcome Conflict (option bytes) :=
  if bool_decide (r !! k = b !! k) then Ok (l !! k)
  else if bool_decide (l !! k = b !! k) then Ok (r !! k)
  else if bool_decide (l !! k = r !! k) then Ok (l !! k)
  else resolve_conflict resolver (conflict_at k).

Definition merges (m : gmap bytes bytes) : Prop := ∀ k, merged_at k = Ok (m !! k).
Definition least_conflict (k : bytes) : Prop :=
  merged_at k = Err (conflict_at k) ∧ ∀ k', (k' < k)%key → ∃ v, merged_at k' = Ok v.

Lemma resolve_cases c : (∃ v, resolve_conflict resolver c = Ok v) ∨ resolve_conflict resolver c = Err c.
Proof.
  unfold resolve_conflict. destruct resolver as [[resolve|resolve]|]; [| |by right];
    destruct (resolve c); try (left; by eexists); by right.
Qed.

Lemma merges_unique m m' : merges m → merges m' → m = m'.
Proof. intros Hm Hm'. apply map_eq. intros k. specialize (Hm k). rewrite (Hm' k) in Hm. congruence. Qed.
Lemma merges_no_conflict m k : merges m → least_conflict k → False.
Proof. intros Hm [He _]. by rewrite Hm in He. Qed.

(** The mutations do to the left map what the merge asks for the keys that are done. *)
Definition agrees (done_ : list bytes) (ms : list Mutation) : Prop :=
  ∀ k, (k ∈ done_ → merged_at k = Ok (mutate l ms !! k)) ∧ (k ∉ done_ → mutate l ms !! k = l !! k).

Lemma agrees_nil : agrees [] [].
Proof. intros k. split; [by intros ?%not_elem_of_nil|done]. Qed.

Lemma agrees_keep done_ ms k : agrees done_ ms → k ∉ done_ → merged_at k = Ok (l !! k) → agrees (done_ ++ [k]) ms.
Proof.
  intros Ha Hk Hm k'. destruct (Ha k') as [H1 H2]. rewrite elem_of_app, list_elem_of_singleton. split; [|tauto].
  intros [?| ->]; [by apply H1|]. by rewrite H2.
Qed.
Lemma agrees_set done_ ms ms' k v :
  agrees done_ ms → merged_at k = Ok v → (∀ k', mutate l ms' !! k' = if decide (k' = k) then v else mutate l ms !! k') →
  agrees (done_ ++ [k]) ms'.
Proof.
  intros Ha Hm Hms k'. destruct (Ha k') as [H1 H2]. rewrite Hms, elem_of_app, list_elem_of_singleton.
  destruct (decide (k' = k)) as [->|]; [by split; [|tauto]|]. split; [intros [?|?]; [by apply H1|done]|tauto].
Qed.
Lemma agrees_selected done_ ms k v :
  agrees done_ ms → k ∉ done_ → merged_at k = Ok v → agrees (done_ ++ [k]) (push_selected ms k (l !! k) v).
Proof.
  intros Ha Hk Hm. unfold push_selected. case_bool_decide as Heq; [apply agrees_keep; [done|done|by rewrite <- Heq]|].
  eapply agrees_set; [done|done|]. intros k'. apply mutate_push.
Qed.

(** All keys that the right side changed are done. *)
Lemma agrees_merges done_ ms : agrees done_ ms → (∀ k, k ∉ done_ → r !! k = b !! k) → merges (mutate l ms).
Proof.
  intros Ha Hr k. destruct (Ha k) as [H1 H2]. destruct (decide (k ∈ done_)) as [Hk|Hk]; [by apply H1|].
  unfold merged_at. by rewrite H2, bool_decide_eq_true_2 by auto.
Qed.

Lemma agrees_first done_ rest ms k :
  agrees done_ ms → StronglySorted blt (k :: rest) → (∀ k', k' ∉ done_ ++ k :: rest → r !! k' = b !! k') →
  merged_at k = Err (conflict_at k) → least_conflict k.
Proof.
  intros Ha [Hs Hall]%StronglySorted_inv Hr He. split; [done|]. intros k' Hlt. destruct (decide (k' ∈ done_)) as [Hk|Hk]; [eexists; by apply Ha|].
  exists (l !! k'). unfold merged_at. rewrite bool_decide_eq_true_2; [done|]. apply Hr. rewrite elem_of_app, elem_of_cons. intros [?|[->|Hin]]; [done|by apply blt_irrefl in Hlt|].
  rewrite Forall_forall in Hall. apply (blt_irrefl k). eapply blt_trans; [by apply Hall|done].
Qed.

(** ** From a difference *)
Definition change_true (c : MergeChangeRef) : Prop :=
  mc_base c = b !! mc_key c ∧ mc_value c = r !! mc_key c ∧ mc_value c ≠ mc_base c.

Lemma merge_change_ok done_ ms c :
  agrees done_ ms → mc_key c ∉ done_ → change_true c →
  (∃ ms', merge_change resolver ms (c, l !! mc_key c) = Ok ms' ∧ agrees (done_ ++ [mc_key c]) ms') ∨
  merge_change resolver ms (c, l !! mc_key c) = Err (ConflictError (conflict_at (mc_key c))) ∧
    merged_at (mc_key c) = Err (conflict_at (mc_key c)).
Proof.
  intros Ha Hk (Hb & Hv & Hne). set (k := mc_key c) in *. rewrite Hb, Hv in Hne. unfold merge_change. fold k. rewrite Hb, Hv. fold (conflict_at k).
  assert (merged_at k = if bool_decide (l !! k = b !! k) then Ok (r !! k) else if bool_decide (l !! k = r !! k) then Ok (l !! k)
    else resolve_conflict resolver (conflict_at k)) as Hm by (unfold merged_at; by rewrite bool_decide_eq_false_2).
  case_bool_decide as Hlb; [|case_bool_decide as Hlr].
  - left. eexists. split; [done|]. eapply agrees_set; [done|done|]. intros k'. apply mutate_push.
  - left. eexists. split; [done|]. by apply agrees_keep.
  - destruct (resolve_cases (conflict_at k)) as [(v & Hres)|Hres]; rewrite Hres in *; cbn [map_err mbind outcome_bind]; [left|by right].
    eexists. split; [done|]. by apply agrees_selected.
Qed.

Lemma merge_changes_ok cs done_ ms :
  agrees done_ ms → StronglySorted blt (done_ ++ (mc_key <$> cs)) → Forall change_true cs →
  (∀ k, k ∉ done_ ++ (mc_key <$> cs) → r !! k = b !! k) →
  (∃ ms', foldM (merge_change resolver) ms (zip cs ((λ k, l !! k) <$> (mc_key <$> cs))) = Ok ms' ∧ merges (mutate l ms')) ∨
  ∃ k, foldM (merge_change resolver) ms (zip cs ((λ k, l !! k) <$> (mc_key <$> cs))) = Err (ConflictError (conflict_at k)) ∧ least_conflict k.
Proof.
  revert done_ ms; induction cs as [|c cs IH]; intros done_ ms Ha Hs Hall Hr.
  { left. exists ms. split; [done|]. rewrite app_nil_r in Hr. by eapply agrees_merges. }
  apply Forall_cons_1 in Hall as [Hc Hall]. cbn [fmap list_fmap zip zip_with foldM] in *.
  assert (mc_key c ∉ done_) as Hk. { apply StronglySorted_app in Hs as (Hlt & _ & _). intros Hin. apply (blt_irrefl (mc_key c)). apply Hlt; [done|by left]. }
  destruct (merge_change_ok done_ ms c Ha Hk Hc) as [(ms' & -> & Ha')|[-> He]]; cbn [mbind outcome_bind].
  - rewrite cons_middle, app_assoc in Hs, Hr. by apply (IH _ ms' Ha' Hs Hall).
  - right. exists (mc_key c). split; [done|]. apply StronglySorted_app in Hs as (_ & _ & Hs). by eapply agrees_first.
Qed.

Lemma changes_of_difference ds :
  map_difference b r ds →
  StronglySorted blt (mc_key <$> build_merge_change_refs ds) ∧ Forall change_true (build_merge_change_refs ds) ∧
  ∀ k, k ∉ mc_key <$> build_merge_change_refs ds → r !! k = b !! k.
Proof.
  intros [Hord Hds]. assert (mc_key <$> build_merge_change_refs ds = Diff_key <$> ds) as Hkeys.
  { unfold build_merge_change_refs. rewrite <- list_fmap_compose. apply list_fmap_ext. by intros _ [] _. }
  rewrite Hkeys. split; [done|]. split.
  - apply Forall_fmap, Forall_forall. intros d [Hd _]%Hds. destruct d; cbn in *; unfold change_true; cbn; naive_solver.
  - intros k Hk. destruct (b !! k) as [old|] eqn:Hb, (r !! k) as [new|] eqn:Hr; [|destruct Hk..|done].
    + f_equal. destruct (decide (new = old)) as [|Hne]; [done|]. destruct Hk. apply list_elem_of_fmap.
      exists (Changed k old new). split; [done|]. by apply Hds.
    + apply list_elem_of_fmap. exists (Removed k old). split; [done|]. by apply Hds.
    + apply list_elem_of_fmap. exists (Added k new). split; [done|]. by apply Hds.
Qed.

(** ** From recorded changes *)
Context (ls rs : list Mutation) (Hls : ascending (parts ls)) (Hrs : ascending (parts rs)).
Context (Hl : l = mutate b ls) (Hr : r = mutate b rs).

(** The right mutation of a key, with the left one if there is one. *)
Definition item_true (item : LineageMergePlan) : Prop :=
  match item with
  | RightOnly x => mutation_value x = r !! Mutation_key x ∧ l !! Mutation_key x = b !! Mutation_key x
  | Overlap y x => mutation_value x = r !! Mutation_key x ∧ mutation_value y = l !! Mutation_key x
  end.

Definition flags_true (done_ : list bytes) (matches_right matches_base : bool) : Prop :=
  (matches_right = true → ∀ k, k ∈ done_ → merged_at k = Ok (r !! k)) ∧
  (matches_base = true → ∀ k, k ∈ done_ → merged_at k = Ok (b !! k)).

Lemma flags_snoc done_ k v mr mb mr' mb' :
  flags_true done_ mr mb → merged_at k = Ok v → (mr' = true → mr = true ∧ v = r !! k) → (mb' = true → mb = true ∧ v = b !! k) →
  flags_true (done_ ++ [k]) mr' mb'.
Proof.
  intros [H1 H2] Hm Hr' Hb'. split; intros Ht k'; rewrite elem_of_app, list_elem_of_singleton; intros [Hk| ->].
  - by apply H1; [apply Hr'|].
  - rewrite Hm. by destruct (Hr' Ht) as [_ ->].
  - by apply H2; [apply Hb'|].
  - rewrite Hm. by destruct (Hb' Ht) as [_ ->].
Qed.

(** An item of the plan: its key is merged, or is a conflict. *)
Definition item_merged (done_ pre : list bytes) (mr mb : bool) (item : LineageMergePlan)
    (result : outcome Error (nat * list Mutation * bool * bool)) : Prop :=
  (∃ ms' mr' mb', result = Ok (length (pre ++ overlaps [item]), ms', mr', mb') ∧ agrees (done_ ++ [item_key item]) ms' ∧
     flags_true (done_ ++ [item_key item]) mr' mb' ∧ (mr' = true → mr = true) ∧ (mb' = true → mb = true)) ∨
  result = Err (ConflictError (conflict_at (item_key item))) ∧ merged_at (item_key item) = Err (conflict_at (item_key item)).

Lemma right_only_ok pre values x done_ ms mr mb :
  agrees done_ ms → flags_true done_ mr mb → mb = false → item_true (RightOnly x) →
  item_merged done_ pre mr mb (RightOnly x) (merge_item resolver values (length pre, ms, mr, mb) (RightOnly x)).
Proof.
  intros Ha Hf -> [Hv Hlb]. left. exists (ms ++ [x]), mr, false. cbn [item_key overlaps omap list_omap] in *. rewrite app_nil_r.
  assert (merged_at (Mutation_key x) = Ok (r !! Mutation_key x)) as Hm.
  { unfold merged_at. case_bool_decide as Hrb; [by rewrite Hlb, Hrb|]. by rewrite bool_decide_eq_true_2. }
  split; [done|]. split; [|split; [|done]].
  - eapply agrees_set; [done|exact Hm|]. intros k'. rewrite mutate_snoc. by rewrite Hv.
  - eapply flags_snoc; [done|exact Hm|done|done].
Qed.

Lemma overlap_ok pre rest y x done_ ms mr mb :
  agrees done_ ms → flags_true done_ mr mb → Mutation_key x ∉ done_ → item_true (Overlap y x) →
  item_merged done_ pre mr mb (Overlap y x)
    (merge_item resolver ((λ k, b !! k) <$> (pre ++ Mutation_key x :: rest)) (length pre, ms, mr, mb) (Overlap y x)).
Proof.
  intros Ha Hf Hk [Hv Hw]. unfold item_merged, merge_item. set (k := Mutation_key x) in *. cbn [item_key overlaps omap list_omap].
  rewrite list_lookup_fmap, list_lookup_middle by done. cbn [fmap option_fmap option_map expect mbind outcome_bind]. rewrite Hv, Hw. fold k. fold (conflict_at k).
  rewrite length_app, Nat.add_1_r. cbn [length].
  assert (∀ v, merged_at k = Ok v → ∀ ms' mr' mb', agrees (done_ ++ [k]) ms' → (mr' = true → mr = true ∧ v = r !! k) →
    (mb' = true → mb = true ∧ v = b !! k) →
    ∃ ms0 mr0 mb0, @Ok Error _ (S (length pre), ms', mr', mb') = Ok (S (length pre), ms0, mr0, mb0) ∧ agrees (done_ ++ [k]) ms0 ∧
      flags_true (done_ ++ [k]) mr0 mb0 ∧ (mr0 = true → mr = true) ∧ (mb0 = true → mb = true)) as Hok.
  { intros v Hm ms' mr' mb' Ha' Hr' Hb'. exists ms', mr', mb'. split; [done|]. split; [done|]. split; [by eapply flags_snoc|]. naive_solver. }
  unfold merged_at in *. fold (merged_at k) in Hok.
  case_bool_decide as Hlr; [|case_bool_decide as Hrb; [|case_bool_decide as Hlb]].
  - left. assert (merged_at k = Ok (l !! k)) as Hm.
    { unfold merged_at. case_bool_decide; [done|]. rewrite bool_decide_eq_false_2 by congruence. by rewrite bool_decide_eq_true_2. }
    apply (Hok _ Hm); [by apply agrees_keep|done|]. intros [? ?%bool_decide_eq_true]%andb_true_iff. done.
  - left. assert (merged_at k = Ok (l !! k)) as Hm by (unfold merged_at; by rewrite bool_decide_eq_true_2).
    apply (Hok _ Hm); [by apply agrees_keep|done|]. intros [? ?%bool_decide_eq_true]%andb_true_iff. done.
  - left. assert (merged_at k = Ok (r !! k)) as Hm by (unfold merged_at; by rewrite bool_decide_eq_false_2, bool_decide_eq_true_2).
    apply (Hok _ Hm); [|done|by intros [_ ?]%andb_true_iff].
    eapply agrees_set; [done|exact Hm|]. intros k'. apply mutate_push.
  - assert (merged_at k = resolve_conflict resolver (conflict_at k)) as Hm by (unfold merged_at; by rewrite !bool_decide_eq_false_2).
    destruct (resolve_cases (conflict_at k)) as [(v & Hres)|Hres]; rewrite Hres in *; cbn [map_err mbind outcome_bind]; [left|by right].
    apply (Hok _ Hm); [by apply agrees_selected|intros [? ?%bool_decide_eq_true]%andb_true_iff; done..].
Qed.

Lemma merge_items_ok items pre done_ ms mr mb :
  agrees done_ ms → flags_true done_ mr mb → StronglySorted blt (done_ ++ (item_key <$> items)) → Forall item_true items →
  (mb = true → Forall is_overlap items) → (∀ k, k ∉ done_ ++ (item_key <$> items) → r !! k = b !! k) →
  (∃ i ms' mr' mb', foldM (merge_item resolver ((λ k, b !! k) <$> (pre ++ overlaps items))) (length pre, ms, mr, mb) items = Ok (i, ms', mr', mb') ∧
     merges (mutate l ms') ∧ flags_true (done_ ++ (item_key <$> items)) mr' mb' ∧ (mr' = true → mr = true) ∧ (mb' = true → mb = true)) ∨
  ∃ k, foldM (merge_item resolver ((λ k, b !! k) <$> (pre ++ overlaps items))) (length pre, ms, mr, mb) items = Err (ConflictError (conflict_at k)) ∧
    least_conflict k.
Proof.
  revert pre done_ ms mr mb; induction items as [|item items IH]; intros pre done_ ms mr mb Ha Hf Hs Hall Hmb Hcov.
  { left. exists (length pre), ms, mr, mb. cbn [fmap list_fmap] in *. rewrite app_nil_r in Hcov.
    rewrite (app_nil_r done_). split; [done|]. split; [by eapply agrees_merges|done]. }
  apply Forall_cons_1 in Hall as [Hi Hall]. cbn [fmap list_fmap foldM] in *.
  assert (item_key item ∉ done_) as Hk. { apply StronglySorted_app in Hs as (Hlt & _ & _). intros Hin. apply (blt_irrefl (item_key item)). apply Hlt; [done|by left]. }
  assert (item_merged done_ pre mr mb item (merge_item resolver ((λ k, b !! k) <$> (pre ++ overlaps (item :: items))) (length pre, ms, mr, mb) item)) as Hstep.
  { destruct item as [x|y x]; [|by apply overlap_ok]. apply right_only_ok; [done|done| |done].
    destruct mb; [|done]. by destruct (Forall_cons_1 _ _ _ (Hmb eq_refl)) as [[] _]. }
  assert (pre ++ overlaps (item :: items) = (pre ++ overlaps [item]) ++ overlaps items) as Hover
    by (rewrite <- app_assoc; f_equal; by destruct item).
  destruct Hstep as [(ms' & mr' & mb' & -> & Ha' & Hf' & Hr' & Hb')|[-> He]]; cbn [mbind outcome_bind].
  - rewrite Hover. rewrite cons_middle, app_assoc in Hs, Hcov |- *.
    destruct (IH (pre ++ overlaps [item]) _ ms' mr' mb' Ha' Hf' Hs Hall) as [(i & ms2 & mr2 & mb2 & Hfold & Hm & Hf2 & Hr2 & Hb2)|Herr]; [|done| |by right].
    + intros Ht. by destruct (Forall_cons_1 _ _ _ (Hmb (Hb' Ht))) as [_ ?].
    + left. exists i, ms2, mr2, mb2. split; [done|]. split; [done|]. split; [done|]. auto.
  - right. exists (item_key item). split; [done|]. apply StronglySorted_app in Hs as (_ & _ & Hs). by eapply agrees_first.
Qed.

Lemma items_true items :
  Forall2 (item_of ls) rs items → Forall item_true items ∧ item_key <$> items = Mutation_key <$> rs.
Proof.
  intros Hall. split.
  - apply Forall_lookup. intros i item Hi. destruct (Forall2_lookup_r _ _ _ _ _ Hall Hi) as (x & Hx & Hof). apply list_elem_of_lookup_2 in Hx.
    destruct item as [x'|y x']; cbn in Hof |- *.
    + destruct Hof as [-> Hn]. rewrite Hr, Hl, !mutate_lookup, (final_parts rs x Hrs Hx), (final_parts_none ls _ Hn). done.
    + destruct Hof as (-> & Hy & Hk). rewrite Hr, Hl, !mutate_lookup, (final_parts rs x Hrs Hx), <- Hk, (final_parts ls y Hls Hy). done.
  - clear -Hall. induction Hall as [|x item rs items Hi _ IH]; [done|]. cbn [fmap list_fmap]. rewrite IH. f_equal. destruct item; cbn in *; naive_solver.
Qed.

Lemma lineage_items_ok :
  let p := lineage_plan ls rs LineagePlan_start in
  let run_ := foldM (merge_item resolver ((λ k, b !! k) <$> lp_overlap_keys p)) (0%nat, [], lp_matches_right p, lp_matches_base p) (lp_plan p) in
  (∃ i ms mr mb, run_ = Ok (i, ms, mr, mb) ∧ merges (mutate l ms) ∧ (mr = true → merges r) ∧ (mb = true → merges b)) ∨
  ∃ k, run_ = Err (ConflictError (conflict_at k)) ∧ least_conflict k.
Proof.
  intros p run_. destruct (lineage_plan_ok ls rs LineagePlan_start Hls Hrs) as (items & [Hp Ho Hi Hmr Hmb]). fold p in Hp, Ho, Hmr, Hmb.
  cbn [LineagePlan_start lp_plan lp_overlap_keys app] in Hp, Ho. destruct (items_true items Hi) as [Hall Hkeys].
  assert (∀ k, k ∉ Mutation_key <$> rs → r !! k = b !! k) as Hcr by (intros k Hk; by rewrite Hr, mutate_lookup, final_parts_none).
  assert (∀ k, k ∉ Mutation_key <$> ls → l !! k = b !! k) as Hcl by (intros k Hk; by rewrite Hl, mutate_lookup, final_parts_none).
  unfold run_. rewrite Hp, Ho.
  destruct (merge_items_ok items [] [] [] (lp_matches_right p) (lp_matches_base p)) as [(i & ms & mr & mb & Hf & Hm & [Hfr Hfb] & Hr' & Hb')|Herr]; cbn [app].
  - apply agrees_nil.
  - split; intros _ k ?%not_elem_of_nil; done.
  - rewrite Hkeys, <- parts_keys. apply Hrs.
  - done.
  - intros Ht. by destruct (Hmb Ht) as (_ & _ & ?).
  - by rewrite Hkeys.
  - left. exists i, ms, mr, mb. split; [exact Hf|]. split; [done|]. cbn [app] in Hfr, Hfb. rewrite Hkeys in Hfr, Hfb. split.
    + intros Ht k. destruct (decide (k ∈ Mutation_key <$> rs)) as [Hk|Hk]; [by apply Hfr|]. destruct (Hmr (Hr' Ht)) as [_ Hsub].
      unfold merged_at. rewrite bool_decide_eq_true_2 by (by apply Hcr). rewrite Hcr, Hcl; [done|set_solver|done].
    + intros Ht k. destruct (decide (k ∈ Mutation_key <$> rs)) as [Hk|Hk]; [by apply Hfb|]. destruct (Hmb (Hb' Ht)) as (_ & Hsub & _).
      unfold merged_at. rewrite bool_decide_eq_true_2 by (by apply Hcr). rewrite Hcl; [done|set_solver].
  - right. exact Herr.
Qed.
End three_way.
End MergeSpec.
