(* ===== verification/MergeContract.v ===== *)
(** * The contract of merges

    On a store that holds the three trees, a merge ends with a tree of the merged map, with
    mutations that turn the left map into it, or with the first conflict that was not
    resolved, whether it went by the roots, by the recorded changes or by the difference. *)

From Stdlib Require Import ZArith Lia Strings.Byte.
From stdpp Require Import base tactics numbers list strings option gmap sorting.
From S2P Require Import Prelude Cursor Types Format Node ReadNode ChunkSpec Store NodeCache Emitter EmitterSpec Builder Entries BuilderSpec TreeSpec Engine EngineSpec BuiltTree Write Updates WriteSpec RebuildSpec Loader LoaderSpec CanonicalWrite Crdt Proof ProofTheorems DiffSpec ProofContract TreeDiff TreeDiffSpec TreeDiffContract GetMany GetManySpec Reach ReachContract TransactionContract Lineage LineageSpec Merge MergeSpec.
Import Format Config Node Store NodeCache Builder Entries TreeSpec Engine EngineSpec Write Updates Loader LoaderSpec CanonicalWrite Lineage LineageSpec Merge MergeSpec.
Import Emitter(foldM).
Import TreeDiff(compute_async_diff, diff).
Import TreeDiffContract(diff_ok).
Import GetMany(get_many).
Import GetManySpec(get_many_ok).
Import TransactionContract(tree_grow).
Import ChunkSpec Emitter EmitterSpec BuilderSpec BuiltTree RebuildSpec.
Import ReachContract(new_version_holds).
Import TreeDiffContract(sample_versions, sample_new, versions_engine, versions_engine_manages, version_holds).

Local Open Scope Z_scope.

Module MergeContract.

(** ** Lineage over a growing store *)
Lemma lineage_mono (P Q : option Cid → gmap bytes bytes → Prop) c :
  (∀ root m, P root m → Q root m) → lineage_ok P c → lineage_ok Q c.
Proof.
  intros HPQ [Hrec Hacc Hidx Hlim Hb Hcnt Hab Hac].
  assert (∀ base branch ms, step_true P base branch ms → step_true Q base branch ms) as Hstep by (intros ? ? ? [? (m & ? & ?)]; split; [done|]; exists m; auto).
  constructor; try done; (eapply Forall_impl; [eassumption|]); intros x [? ?]; split; auto.
Qed.

Section merge.
Context `{HashesOk} {St : Type} `{StoreOk St} `{!ReadStore St} `{!ReadStoreOk St}.
Context (f : TreeFormat) (resolver : option MergeResolverRef).
Implicit Types g : Manager St.

(** The engine reads the store, and its lineage is true of the trees in it. *)
Definition manager_ok (st : gmap bytes bytes) (g : Manager St) : Prop :=
  engine_manages f st (mg_engine g) ∧ lineage_ok (root_map st f) (mg_lineage g).

(** A tree of the format with its map. *)
Definition has_map (st : gmap bytes bytes) (tree : Tree) (m : gmap bytes bytes) : Prop :=
  Config.format (t_config tree) = f ∧ ∃ h es, tree_holds st tree h es ∧ m = final_map es.

Lemma has_root st tree m : has_map st tree m → root_map st f (t_root tree) m.
Proof.
  intros (Hf & h & es & Hh & ->). unfold tree_holds, root_map in *. destruct (t_root tree); [|by subst].
  rewrite Hf in Hh. destruct Hh. by exists h, es.
Qed.
Lemma has_same st t t' m m' : has_map st t m → has_map st t' m' → t_root t = t_root t' → m = m'.
Proof. intros Ht%has_root Ht'%has_root Heq. rewrite Heq in Ht. by eapply root_map_fun. Qed.
Lemma has_grow st st' tree m : st ⊆ st' → has_map st tree m → has_map st' tree m.
Proof. intros Hsub (Hf & h & es & Hh & ->). split; [done|]. exists h, es. split; [by eapply tree_grow|done]. Qed.

Lemma root_grow (config : Config.Config) st st' root m :
  Config.format config = f → st ⊆ st' → root_map st f root m → root_map st' f root m.
Proof.
  intros Hc Hsub. destruct root as [cid|]; [|done]. intros (h & es & Hs & Ha & ->).
  assert (tree_holds st {| t_root := Some cid; t_config := config |} h es) as Hh by (unfold tree_holds; cbn; by rewrite Hc).
  apply (tree_grow st st') in Hh as [Hs' _]; [|done]. cbn in Hs'. rewrite Hc in Hs'. by exists h, es.
Qed.

Context (st : gmap bytes bytes) (base left_ right_ : Tree) (b l r : gmap bytes bytes).
Context (Hb : has_map st base b) (Hl : has_map st left_ l) (Hr : has_map st right_ r).

(** What the end of a merge gives: a tree of the map, or mutations of the left map to it. *)
Definition gives (end_ : merge_end) (m : gmap bytes bytes) : Prop :=
  match end_ with Merged tree => has_map st tree m | WriteLeft ms => ms ≠ [] ∧ mutate l ms = m end.

(** The merged map, or the first conflict. *)
Definition merge_ok (result : outcome Error merge_end * Manager St) : Prop :=
  (∃ m end_ g', merges resolver b l r m ∧ result = (Ok end_, g') ∧ manager_ok st g' ∧ gives end_ m) ∨
  (∃ k g', least_conflict resolver b l r k ∧ result = (Err (ConflictError (conflict_at b l r k)), g') ∧ manager_ok st g').

Lemma ok_of_map m tree g : merges resolver b l r m → has_map st tree m → manager_ok st g → merge_ok (Ok (Merged tree), g).
Proof. intros Hm Ht Hg. left. by exists m, (Merged tree), g. Qed.
Lemma ok_of_conflict k g :
  least_conflict resolver b l r k → manager_ok st g → merge_ok (Err (ConflictError (conflict_at b l r k)), g).
Proof. intros Hk Hg. right. by exists k, g. Qed.

Lemma ok_of_mutations ms g :
  merges resolver b l r (mutate l ms) → manager_ok st g →
  merge_ok (Ok (if bool_decide (ms = []) then Merged left_ else WriteLeft ms), g).
Proof.
  intros Hm Hg. case_bool_decide as Hnil; [subst ms; by apply (ok_of_map l)|].
  left. by exists (mutate l ms), (WriteLeft ms), g.
Qed.

(** ** The two ways *)
Lemma engine_step {A} (m : eng St A) g a e' :
  m (mg_engine g) = (Ok a, e') → on_engine m g = (Ok a, {| mg_engine := e'; mg_lineage := mg_lineage g |}).
Proof. unfold on_engine. by intros ->. Qed.

(** Reads of a tree, with enough fuel. *)
Lemma reads_ok tree m g :
  has_map st tree m → manager_ok st g →
  ∃ bound, ∀ fuel ks, (bound ≤ fuel)%nat → ∃ g', on_engine (get_many ks fuel tree) g = (Ok ((λ k, m !! k) <$> ks), g') ∧ manager_ok st g'.
Proof.
  intros (_ & h & es & Hh & ->) [He Hc]. exists (S (S h)). intros fuel ks Hfuel.
  destruct (get_many_ok f st tree h es fuel ks (mg_engine g) He Hh) as (e' & Hrun & He'); [lia|].
  eexists. split; [by apply engine_step|done].
Qed.

Lemma diff_merge_ok ds g :
  TreeDiffContract.map_difference b r ds → manager_ok st g →
  ∃ bound, ∀ fuel, (bound ≤ fuel)%nat → merge_ok (merge_trees_with_right_diff_borrowed_async fuel left_ ds resolver g).
Proof.
  intros Hds Hg. destruct (changes_of_difference b r ds Hds) as (Hs & Hall & Hcov). destruct (reads_ok left_ l g Hl Hg) as (bound & Hreads).
  exists bound. intros fuel Hfuel. unfold merge_trees_with_right_diff_borrowed_async.
  destruct (Hreads fuel (mc_key <$> build_merge_change_refs ds) Hfuel) as (g' & Hrun & Hg'). rewrite (action_bind_Ok _ _ _ _ _ Hrun).
  destruct (merge_changes_ok resolver b l r (build_merge_change_refs ds) [] []) as [(ms & Hfold & Hm)|(k & Hfold & Hk)];
    [apply agrees_nil|done|done|done| |].
  - rewrite (action_bind_Ok (run _) _ g' ms g') by (unfold run; by rewrite Hfold).
    pose proof (ok_of_mutations ms g' Hm Hg') as Hok. by case_bool_decide.
  - rewrite (action_bind_Err (run _) _ g' (ConflictError (conflict_at b l r k)) g') by (unfold run; by rewrite Hfold).
    by apply ok_of_conflict.
Qed.

(** The recorded changes of the branches, where there are any. *)
Lemma changes_ok tree m c ms :
  lineage_ok (root_map st f) c → has_map st tree m → (changes_since (t_root base) (t_root tree) c).1 = Some ms →
  ascending (parts ms) ∧ m = mutate b ms.
Proof.
  intros Hc Ht Hms. destruct (changes_since_ok _ (root_map_fun st f) (t_root base) (t_root tree) c Hc) as [_ Hans].
  destruct (Hans ms Hms) as [[Heq ->]|[Hasc (m' & Hm' & Hbr)]].
  - split; [constructor|]. by eapply has_same.
  - split; [done|]. rewrite (root_map_fun st f _ _ _ (has_root _ _ _ Hb) Hm'). eapply root_map_fun; [by apply has_root|done].
Qed.

Lemma change_pair_ok c :
  lineage_ok (root_map st f) c →
  lineage_ok (root_map st f) (branch_change_pair base left_ right_ c).2 ∧
  ∀ ls rs, (branch_change_pair base left_ right_ c).1 = Some (ls, rs) →
    ascending (parts ls) ∧ ascending (parts rs) ∧ l = mutate b ls ∧ r = mutate b rs.
Proof.
  intros Hc. unfold branch_change_pair, change_pair.
  pose proof (changes_since_ok _ (root_map_fun st f) (t_root base) (t_root left_) c Hc) as [Hc1 _].
  pose proof (changes_ok left_ l c) as Hleft. destruct (changes_since (t_root base) (t_root left_) c) as [[ls|] c1]; [|done]. cbn [fst snd] in *.
  pose proof (changes_since_ok _ (root_map_fun st f) (t_root base) (t_root right_) c1 Hc1) as [Hc2 _].
  pose proof (changes_ok right_ r c1) as Hright. destruct (changes_since (t_root base) (t_root right_) c1) as [[rs|] c2]; [|done]. cbn [fst snd] in *.
  split; [done|]. intros ? ? [= <- <-]. destruct (Hleft ls Hc Hl eq_refl), (Hright rs Hc1 Hr eq_refl). done.
Qed.

Lemma lineage_finish ms mr mb g :
  merges resolver b l r (mutate l ms) → (mr = true → merges resolver b l r r) → (mb = true → merges resolver b l r b) → manager_ok st g →
  ∃ result, merge_ok result ∧
    ((if mb then mret (Some (Merged base)) else if mr then mret (Some (Merged right_))
      else if bool_decide (ms = []) then mret (Some (Merged left_)) else mret (Some (WriteLeft ms))) : mgr St (option merge_end)) g = (Some <$> result.1, result.2).
Proof.
  intros Hm Hmr Hmb Hg. destruct mb; [exists (Ok (Merged base), g); split; [by apply (ok_of_map b); [apply Hmb|..]|done]|].
  destruct mr; [exists (Ok (Merged right_), g); split; [by apply (ok_of_map r); [apply Hmr|..]|done]|].
  exists (Ok (if bool_decide (ms = []) then Merged left_ else WriteLeft ms), g). split; [by apply ok_of_mutations|]. by case_bool_decide.
Qed.

Lemma lineage_merge_ok g :
  manager_ok st g →
  (∃ g', manager_ok st g' ∧ ∀ fuel, try_lineage_merge_async fuel base left_ right_ resolver g = (Ok None, g')) ∨
  ∃ bound, ∀ fuel, (bound ≤ fuel)%nat → ∃ result, merge_ok result ∧
    try_lineage_merge_async fuel base left_ right_ resolver g = (Some <$> result.1, result.2).
Proof.
  intros [He Hc]. destruct (change_pair_ok (mg_lineage g) Hc) as [Hc' Hpair].
  destruct (branch_change_pair base left_ right_ (mg_lineage g)) as [pair c'] eqn:Hrun. cbn [fst snd] in *.
  set (g' := {| mg_engine := mg_engine g; mg_lineage := c' |}). assert (manager_ok st g') as Hg' by done.
  assert (∀ B (k : option (list Mutation * list Mutation) → mgr St B), (on_lineage (branch_change_pair base left_ right_) ≫= k) g = k pair g') as Hbind.
  { intros B k. rewrite (action_bind_Ok (on_lineage _) k g pair g'); [done|]. unfold on_lineage. by rewrite Hrun. }
  destruct pair as [[ls rs]|]; [right|left; exists g'; split; [done|]; intros fuel; unfold try_lineage_merge_async; by rewrite Hbind].
  destruct (Hpair ls rs eq_refl) as (Hls & Hrs & Hlm & Hrm). pose proof (lineage_items_ok resolver b l r ls rs Hls Hrs Hlm Hrm) as Hitems.
  destruct (reads_ok base b g' Hb Hg') as (bound & Hreads). exists bound. intros fuel Hfuel. unfold try_lineage_merge_async. rewrite Hbind.
  set (p := lineage_plan ls rs LineagePlan_start) in *.
  assert (∃ g2, (if bool_decide (lp_overlap_keys p = []) then mret [] else on_engine (get_many (lp_overlap_keys p) fuel base)) g'
    = (Ok ((λ k, b !! k) <$> lp_overlap_keys p), g2) ∧ manager_ok st g2) as (g2 & Hread & Hg2).
  { case_bool_decide as Hnil; [exists g'; by rewrite Hnil|]. by apply Hreads. }
  rewrite (action_bind_Ok _ _ _ _ _ Hread). destruct Hitems as [(i & ms & mr & mb & Hfold & Hm & Hmr & Hmb)|(k & Hfold & Hk)].
  - rewrite (action_bind_Ok (run _) _ g2 (i, ms, mr, mb) g2) by (unfold run; by rewrite Hfold). by apply lineage_finish.
  - exists (Err (ConflictError (conflict_at b l r k)), g2). split; [by apply ok_of_conflict|].
    rewrite (action_bind_Err (run _) _ g2 (ConflictError (conflict_at b l r k)) g2) by (unfold run; by rewrite Hfold). done.
Qed.

(** ** All of it *)
Lemma same_branches : l = r → merges resolver b l r l.
Proof. intros <- k. unfold merged_at. by repeat case_bool_decide. Qed.
Lemma left_unchanged : l = b → merges resolver b l r r.
Proof. intros -> k. unfold merged_at. case_bool_decide as Heq; [by rewrite Heq|]. by rewrite bool_decide_eq_true_2. Qed.
Lemma right_unchanged : r = b → merges resolver b l r l.
Proof. intros -> k. unfold merged_at. by rewrite bool_decide_eq_true_2. Qed.

Lemma merge_trees_ok g :
  manager_ok st g → ∃ bound, ∀ fuel, (bound ≤ fuel)%nat → merge_ok (merge_trees_borrowed_async fuel base left_ right_ resolver g).
Proof.
  intros Hg. unfold merge_trees_borrowed_async.
  case_bool_decide as Hlr; [exists 0%nat; intros _ _; by apply (ok_of_map l); [apply same_branches; eapply has_same|..]|].
  case_bool_decide as Hlb; [exists 0%nat; intros _ _; by apply (ok_of_map r); [apply left_unchanged; eapply has_same|..]|].
  case_bool_decide as Hrb; [exists 0%nat; intros _ _; by apply (ok_of_map l); [apply right_unchanged; eapply has_same|..]|].
  destruct (lineage_merge_ok g Hg) as [(g' & Hg' & Hnone)|(bound & Hsome)].
  - pose proof Hb as (Hfb & h1 & es1 & Hh1 & Hm1). pose proof Hr as (Hfr & h2 & es2 & Hh2 & Hm2). destruct Hg' as [He' Hc'].
    assert (engine_manages (Config.format (t_config base)) st (mg_engine g')) as He1 by (by rewrite Hfb).
    destruct (diff_ok st base right_ h1 h2 es1 es2 (eq_trans Hfb (eq_sym Hfr)) Hh1 Hh2 (mg_engine g') He1) as (b1 & e2 & He2 & Hd).
    set (ds := TreeDiff.diff_entry_slices es1 es2) in *.
    assert (TreeDiffContract.map_difference b r ds) as Hds.
    { rewrite Hm1, Hm2. unfold ds. rewrite TreeDiffSpec.slices_eq. apply DiffSpec.merge_diffs; by eapply ProofContract.tree_holds_ascending. }
    destruct (diff_merge_ok ds {| mg_engine := e2; mg_lineage := mg_lineage g' |} Hds) as (b2 & Hmerge); [by rewrite Hfb in He2|].
    exists (b1 + b2)%nat. intros fuel Hfuel. rewrite (action_bind_Ok _ _ _ _ _ (Hnone fuel)).
    rewrite (action_bind_Ok _ _ _ _ _ (engine_step (compute_async_diff fuel base right_) g' ds e2 (Hd fuel ltac:(lia)))). apply Hmerge. lia.
  - exists bound. intros fuel Hfuel. destruct (Hsome fuel Hfuel) as ([res g'] & Hok & Hrun). cbn [fst snd] in Hrun.
    unfold mbind, action_bind. rewrite Hrun. by destruct res.
Qed.

(** The lineage of a batched write that gave a tree of the right map. *)
Lemma record_batch_ok sz st' branch ms e c :
  0 ≤ sz → st ⊆ st' → lineage_ok (root_map st f) c → engine_manages f st' e → has_map st' branch (mutate l ms) →
  ∃ g', record_batch sz left_ branch (automatic_branch_lineage Lineage.Merge ms) {| mg_engine := e; mg_lineage := c |}
    = (Ok tt, g') ∧ manager_ok st' g'.
Proof.
  intros Hsz Hsub Hc He Hbr.
  assert (lineage_ok (root_map st' f) c) as Hc'.
  { eapply lineage_mono; [|exact Hc]. intros root m. by apply (root_grow (t_config left_)); [apply Hl|]. }
  cbn [automatic_branch_lineage]. destruct (branch_lineage_from_mutations ms) as [lineage|] eqn:Hlin; [|by eexists].
  eexists. split; [done|]. split; [done|]. cbn [mg_lineage].
  apply record_ok; [done|done|]. exists l. split; [apply has_root; by eapply has_grow|].
  unfold branch_lineage_from_mutations in Hlin. destruct (_ || _); [done|]. injection Hlin as <-. cbn [bl_mutations].
  rewrite mutate_sort_last. by apply has_root.
Qed.
End merge.

(** C13.  A merge is the three-way merge of the maps: on a store that holds the three trees,
    with a lineage cache that is true of it, [merge_with] returns.  Either the maps merge
    (every key has the value of the side that changed it, and of the resolver where both
    did), and the merge ends with a tree of the merged map, or with a batched write of
    mutations to the left tree that turn the left map into the merged one; what the
    lineage cache records of such a write, when it returns a tree of that map, is true.
    Or some key stays unresolved, and the merge fails with the conflict of the least such
    key.  All of it whether the merge went by the roots, the recorded changes or the
    difference.  The batched write itself is not part of this statement. *)
Theorem merge_is_three_way `{HashesOk} {St} `{StoreOk St} `{!ReadStore St} `{!ReadStoreOk St}
    sz f resolver st base left_ right_ b l r (g : Manager St) :
  0 ≤ sz → has_map f st base b → has_map f st left_ l → has_map f st right_ r → manager_ok f st g →
  ∃ bound, ∀ fuel, (bound ≤ fuel)%nat →
  (∃ m end_ g', merges (Borrowed <$> resolver) b l r m ∧
     merge_with fuel base left_ right_ resolver g = (Ok end_, g') ∧ manager_ok f st g' ∧
     match end_ with
     | Merged tree => has_map f st tree m
     | WriteLeft ms => ms ≠ [] ∧ mutate l ms = m ∧
         ∀ st' e' branch, st ⊆ st' → engine_manages f st' e' → has_map f st' branch m →
         ∃ g'', record_batch sz left_ branch (automatic_branch_lineage Lineage.Merge ms) {| mg_engine := e'; mg_lineage := mg_lineage g' |}
             = (Ok tt, g'') ∧ manager_ok f st' g''
     end) ∨
  (∃ k g', least_conflict (Borrowed <$> resolver) b l r k ∧
     merge_with fuel base left_ right_ resolver g = (Err (ConflictError (conflict_at b l r k)), g') ∧ manager_ok f st g').
Proof.
  intros Hsz Hb Hl Hr Hg. destruct (merge_trees_ok f (Borrowed <$> resolver) st base left_ right_ b l r Hb Hl Hr g Hg) as (bound & Hmerge).
  exists bound. intros fuel Hfuel. destruct (Hmerge fuel Hfuel) as [(m & end_ & g' & Hm & Hrun & Hg' & Hend)|Hconflict]; [left|by right].
  exists m, end_, g'. split; [done|]. split; [exact Hrun|]. split; [done|]. destruct end_ as [tree|ms]; [done|]. destruct Hend as [Hne <-].
  split; [done|]. split; [done|]. intros st' e' branch Hsub He' Hbr. destruct Hg' as [_ Hc'].
  exact (record_batch_ok f st left_ l Hl sz st' branch ms e' (mg_lineage g') Hsz Hsub Hc' He' Hbr).
Qed.

(** The general path of a write turns a request of a merge into a tree of the merged map,
    under the conditions of a canonical write. *)
Lemma request_written `{HashesOk} {St} `{StoreOk St} config st tree es es' nodes nodes' root' ms (e : ProllyEngine St) :
  write_input config st tree es es' nodes nodes' root' → mutate (final_map es) ms = final_map es' →
  engine_manages (Config.format config) st e →
  ∃ tree' st' e' stats', apply_structural tree (normalize ms) false (e, WriteStats_default) = (Ok tree', (e', stats')) ∧
    engine_manages (Config.format config) st' e' ∧ st ⊆ st' ∧ has_map (Config.format config) st' tree' (final_map es').
Proof.
  intros Hin Hm He. pose proof (updated_entries _ _ _ _ _ ms _ _ _ Hin (eq_sym Hm)) as ->.
  assert (WriteSpec.manages (Config.format config) st e) as Hw by exact He.
  destruct (apply_structural_ok config st tree es (normalize ms) nodes nodes' root' false e WriteStats_default Hin (normalize_ascending ms) Hw)
    as (st' & e' & stats' & Hrun & He' & Hsub & Hcan).
  destruct (canonical_holds config st' _ _ nodes' (wi_fit' _ _ _ _ _ _ _ _ Hin) (wi_asc' _ _ _ _ _ _ _ _ Hin) Hcan) as (h & _ & Hh).
  eexists _, st', e', stats'. split; [exact Hrun|]. split; [done|]. split; [done|]. split; [done|]. by eexists h, _.
Qed.

(** ** Witnesses *)
#[local] Existing Instance sample_hashes.
#[local] Existing Instance sample_hashes_ok.

(** Two versions that were written apart, merged from nothing; the right side wins. *)
Definition no_tree : Tree := {| t_root := None; t_config := sample_config 2 2 |}.
Definition take_theirs : option (Conflict → MergeDecision) := Some (λ _, UseRight).
Definition merged_es : list kv := updated sample_es (normalize [Upsert [Byte.x03] [Byte.x07]; Upsert [Byte.x06] [Byte.x02]]).
Definition sample_merged : option Cid * list (Z * list node_entry) := Eval vm_compute in sample_spec merged_es.
Definition sample_manager : Manager MemStore := {| mg_engine := versions_engine; mg_lineage := BranchLineageCache_default |}.
Abbreviation merge_format := (Config.format (sample_config 2 2)).

Lemma final_map_absent (es : list kv) k : k ∉ fst <$> es → final_map es !! k = None.
Proof.
  intros Hk. destruct (final_map es !! k) as [v|] eqn:Hv; [|done]. destruct Hk. apply put_all_in in Hv. apply list_elem_of_fmap. by exists (k, v).
Qed.

Definition merged_here (resolver : option MergeResolverRef) (es1 es2 es : list kv) (k : bytes) : bool :=
  match merged_at resolver ∅ (final_map es1) (final_map es2) k with
  | Ok v => bool_decide (v = final_map es !! k)
  | _ => false
  end.

Lemma merges_check resolver es1 es2 es :
  forallb (merged_here resolver es1 es2 es) ((fst <$> es1) ++ (fst <$> es2) ++ (fst <$> es)) = true →
  merges resolver ∅ (final_map es1) (final_map es2) (final_map es).
Proof.
  intros Hall k. destruct (decide (k ∈ (fst <$> es1) ++ (fst <$> es2) ++ (fst <$> es))) as [Hk|Hk].
  - rewrite forallb_forall in Hall. specialize (Hall k (proj1 (list_elem_of_In _ _) Hk)). unfold merged_here in Hall.
    destruct (merged_at _ _ _ _ k) as [v| |]; [|done..]. by apply bool_decide_eq_true in Hall as ->.
  - rewrite !not_elem_of_app in Hk. destruct Hk as (H1 & H2 & H3). unfold merged_at.
    rewrite !final_map_absent by done. by rewrite lookup_empty.
Qed.

Lemma sample_merges : merges (Borrowed <$> take_theirs) ∅ (final_map sample_es) (final_map sample_es') (final_map merged_es).
Proof. apply merges_check. vm_compute. reflexivity. Qed.

Lemma merged_spec : tree_spec merge_format merged_es = Ok sample_merged.
Proof. vm_compute. reflexivity. Qed.

Lemma all_readable : readable (sample_config 2 2) ((sample_built.2 ++ sample_written.2) ++ sample_merged.2).
Proof.
  split; [apply no_collision_dups; apply (bool_decide_eq_true_1 _); vm_compute; reflexivity|].
  apply sample_pack. vm_compute. reflexivity.
Qed.

(** The write that the merge ends with. *)
Lemma merged_input :
  write_input (sample_config 2 2) sample_versions sample_old sample_es merged_es sample_built.2 sample_merged.2 sample_merged.1.
Proof.
  destruct sample_write_input as [Hwf Hvalid Hcodec _ Hne Hasc Hfit _ _ _ _ Hcap].
  constructor; [exact Hwf|exact Hvalid|exact Hcodec| |exact Hne|exact Hasc|exact Hfit| | |exact merged_spec|exact (publishable_built _ _ _ all_readable)|].
  - split; [done|]. split; [exact sample_es_spec|]. apply Forall_forall. intros n Hn.
    eapply (written_stored (sample_config 2 2) Hwf Hvalid Hcodec ∅ (sample_built.2 ++ sample_written.2) _ n);
      [split; [exact sample_both_readable|done]|apply elem_of_app; by left| |done|left; exists n; split; [apply elem_of_app; by left|done]].
    by apply (proj1 (Forall_forall _ _) (spec_good (sample_config 2 2) Hcodec _ _ _ Hfit Hasc sample_es_spec)).
  - apply updated_ascending; [exact Hasc|apply normalize_ascending].
  - vm_compute. discriminate.
  - intros _ _. split; vm_compute; reflexivity.
Qed.

Lemma old_has_map : has_map merge_format sample_versions sample_old (final_map sample_es).
Proof.
  split; [done|]. destruct (canonical_holds (sample_config 2 2) sample_versions sample_old sample_es sample_built.2
    (wi_fit _ _ _ _ _ _ _ _ merged_input) (wi_asc _ _ _ _ _ _ _ _ merged_input) (wi_old _ _ _ _ _ _ _ _ merged_input)) as (h & _ & Hh). by exists h, sample_es.
Qed.
Lemma new_has_map : has_map merge_format sample_versions sample_new (final_map sample_es').
Proof. split; [done|]. destruct new_version_holds as (h & Hh). by exists h, sample_es'. Qed.
Lemma nothing_has_map : has_map merge_format sample_versions no_tree ∅.
Proof. split; [done|]. by exists 0%nat, []. Qed.
Lemma sample_manager_ok : manager_ok merge_format sample_versions sample_manager.
Proof. split; [exact versions_engine_manages|apply default_ok]. Qed.

Lemma merged_by_request ms :
  mutate (final_map sample_es) ms = final_map merged_es → ∀ e : ProllyEngine MemStore, engine_manages merge_format sample_versions e →
  ∃ tree' st' e' stats', apply_structural (St := MemStore) sample_old (normalize ms) false (e, WriteStats_default) = (Ok tree', (e', stats')) ∧
    engine_manages merge_format st' e' ∧ sample_versions ⊆ st' ∧ has_map merge_format st' tree' (final_map merged_es).
Proof. intros Hm e. exact (request_written _ _ _ _ _ _ _ _ ms e merged_input Hm). Qed.

(** The merge asks for a write, and the general path of a write makes the merged tree. *)
Lemma merge_is_three_way_witness :
  ∃ bound, ∀ fuel, (bound ≤ fuel)%nat →
  ∃ end_ (g' : Manager MemStore), merge_with fuel no_tree sample_old sample_new take_theirs sample_manager = (Ok end_, g') ∧
    match end_ with
    | Merged tree => has_map merge_format sample_versions tree (final_map merged_es)
    | WriteLeft ms => ∃ tree' st' e' stats',
        apply_structural (St := MemStore) sample_old (normalize ms) false (mg_engine g', WriteStats_default) = (Ok tree', (e', stats')) ∧
        engine_manages merge_format st' e' ∧ sample_versions ⊆ st' ∧ has_map merge_format st' tree' (final_map merged_es)
    end.
Proof.
  destruct (merge_is_three_way 56 merge_format take_theirs sample_versions no_tree sample_old sample_new ∅ (final_map sample_es) (final_map sample_es')
    sample_manager (proj1 (Z.leb_le 0 56) eq_refl) nothing_has_map old_has_map new_has_map sample_manager_ok) as (bound & Hmerge).
  exists bound. intros fuel Hfuel. destruct (Hmerge fuel Hfuel) as [(m & end_ & g' & Hm & Hrun & Hg' & Hend)|(k & g' & Hk & _)].
  - rewrite (merges_unique _ _ _ _ m _ Hm sample_merges) in Hend. exists end_, g'. split; [exact Hrun|].
    destruct end_ as [tree|ms]; [exact Hend|]. exact (merged_by_request ms (proj1 (proj2 Hend)) (mg_engine g') (proj1 Hg')).
  - destruct (merges_no_conflict _ _ _ _ _ k sample_merges Hk).
Defined.

(** The write between the versions, recorded and asked for. *)
Definition recorded : BranchLineageCache :=
  record_branch_lineage 56 sample_old sample_new {| bl_mutations := sort_last sample_muts |} BranchLineageCache_default.

Lemma recorded_true :
  ∃ m, root_map sample_versions merge_format (t_root sample_old) m ∧
    root_map sample_versions merge_format (t_root sample_new) (mutate m (sort_last sample_muts)).
Proof.
  exists (final_map sample_es). split; [exact (has_root _ _ _ _ old_has_map)|]. rewrite mutate_sort_last, <- sample_mutated. exact (has_root _ _ _ _ new_has_map).
Qed.

Lemma lineage_answers_true_witness :
  is_Some (changes_since (t_root sample_old) (t_root sample_new) recorded).1 ∧
  ∀ ms m, (changes_since (t_root sample_old) (t_root sample_new) recorded).1 = Some ms →
    root_map sample_versions merge_format (t_root sample_old) m →
    ascending (parts ms) ∧ root_map sample_versions merge_format (t_root sample_new) (mutate m ms).
Proof.
  assert (rtc (lineage_step (root_map sample_versions merge_format) 56) BranchLineageCache_default recorded) as Hrtc.
  { apply rtc_once. apply step_record. exact recorded_true. }
  split; [vm_compute; by eexists|]. intros ms m.
  exact (proj1 (proj2 (lineage_answers_true sample_versions merge_format 56 recorded (proj1 (Z.leb_le 0 56) eq_refl) Hrtc))
    (t_root sample_old) (t_root sample_new) ms m).
Defined.
End MergeContract.
